(* ===== verification/_CoqProject ===== *)
-Q . S2P
Prelude.v
Float.v
Bits.v
G711.v
G72x.v
G72xCodecs.v
AdpcmStream.v
BufferPool.v
Dbsm.v
Bsm12.v
GsmArith.v
GsmFrame.v
GsmRpe.v
GsmShortTerm.v
GsmLongTerm.v
GsmLpc.v
GsmCoder.v
GrFlowgraph.v
GrGraph.v
GrBuffer.v
GrBlock.v
GrBlockExecutor.v
GrFootprint.v
GrHierBlock.v
GrFlatFlowgraph.v
GrTpb.v
GrSts.v
GrSchedulerSts.v
GrTopBlock.v
GrMsgQueue.v
Pmt.v
PmtSerialize.v
AtscTypes.v
AtscRandomizer.v
AtscInterleaver.v
AtscTrellis.v
AtscViterbi.v
AtscDecoder.v
ReedSolomon.v
AtscReedSolomon.v
AtscChain.v
Viterbi.v
Ccsds27.v
Crc32.v
Correlator.v
Framer.v
Packet.v
TrellisBase.v
TrellisTables.v
TrellisFsm.v
TrellisEncoder.v
GcChain.v
GcStack.v
GcQueue.v
