(* ===== verification/Prelude.v ===== *)
(** * Verification of GNU Radio

    Root of the development: this header describes all of it; the file itself
    is the prelude (C integers, arrays, exceptions, automation, generic lemmas).

    ** The program

    GNU Radio is a signal processing toolkit: blocks connected by streams of
    items, run by a scheduler.  Covered here, with the paths under [src/]:

    - the C++ runtime, [gnuradio-core/src/lib/runtime/]: hierarchical and flat
      flow graphs, stream buffers, the block executor, the two schedulers, the
      top block, message queues; and the polymorphic types of
      [gruel/src/lib/pmt/];
    - the packet path of [gnuradio-core/src/]: the convolutional code of
      [lib/viterbi/] and its blocks, the checksum, correlator and framer of
      [lib/general/], and [packet_utils.py] and [pkt.py] over them;
    - the state machines, encoders and interleavers of the trellis library
      [gr-trellis/src/lib/];
    - the digital television blocks [gr-atsc/src/lib/] over the Reed-Solomon
      codec [gnuradio-core/src/lib/reed-solomon/];
    - the speech codecs [gnuradio-core/src/lib/g72x/] and
      [gr-gsm-fr-vocoder/src/lib/gsm/];
    - the buffer state machines of the USRP2 radio, [usrp2/firmware/lib/];
    - the free list and the job queue that the processors of a Cell share,
      [gcell/lib/runtime/].

    ** The runtime: files, and what each models

    - [GrFlowgraph]: [gr_io_signature.cc], and of [gr_flowgraph.cc] connecting,
      queries and validation.  [GrGraph]: its graph algorithms, [partition] and
      [topological_sort].
    - [GrBuffer]: [gr_buffer.cc], writer, readers and stream tags.
    - [GrBlock]: [gr_block.cc], [gr_block_detail.cc] and the synchronous blocks.
      [GrBlockExecutor]: [gr_block_executor.cc], which runs a block of [GrBlock]
      on buffers of [GrBuffer]; [GrFootprint]: what an iteration leaves alone.
    - [GrHierBlock]: [gr_hier_block2_detail.cc], connections inside hierarchical
      blocks and flattening.  [GrFlatFlowgraph]: [gr_flat_flowgraph.cc], block
      details, buffers and readers for a flat flow graph.
    - [GrTpb]: [gr_tpb_thread_body.cc], [gr_tpb_detail.cc], [gr_scheduler_tpb.cc].
      [GrSts]: [gr_single_threaded_scheduler.cc], the loop of the other scheduler,
      and [GrSchedulerSts]: [gr_scheduler_sts.cc], a thread with that loop for each
      partition.  [GrTopBlock]: [gr_top_block_impl.cc], over both; [GR_SCHEDULER]
      of the environment, a parameter, chooses.
    - [GrMsgQueue]: [gr_msg_queue.cc].
    - [Pmt]: [pmt.cc]; [PmtSerialize]: [pmt_serialize.cc].

    A block is the number that orders it in a sorted vector of pointers;
    buffers live in a heap and are named by their address, so that a writer and
    its readers share them; polymorphic types live in a store of objects, which
    operations of the monad [Pmt.M] read and change.  Calls of virtual functions
    are parameters ([GrFlowgraph.Flowgraph]'s [check_topology]) or fields of a
    record ([GrBlock.gr_block]).  Threads are steps between lock acquisitions; an
    iteration of the executor is one step of its thread in [GrTpb], which
    [GrFootprint] justifies for the indices: an iteration moves only those that
    belong to its block.  So is a round of the loop in [GrSchedulerSts].  Blocks with
    a detail, hierarchical or flat, are finite maps from blocks to details.

    What the theorems show: an iteration of the executor appends items at the
    outputs of its block, into room that no reader still needs, and consumes at
    its inputs what was there ([run_one_iteration_safe]; [served] relates the
    streams before and after), gives [work] a request the input can satisfy
    ([request_is_served]); buffers and queues refine fifos, and no waiting thread
    is forgotten ([no_lost_wakeup]); edges stay well formed and [validate],
    [partition] and [topological_sort] do what they say; dictionaries are finite
    maps; reading a serialized object gives it back.  Flattening a hierarchy
    gives exactly the wires it describes or names a fault of it ([flatten_spec]);
    wiring up a validated flow graph always succeeds, with buffers big enough for
    both ends ([setup_connections_spec]); the threads of the scheduler never throw
    and never miss a notification ([tpb_no_lost_wakeup]); the single threaded
    scheduler moves the streams on turn by turn, ends exactly when all blocks are
    done or it is told to ([sts_runs]), and runs sources as a last resort
    ([sources_run_last]); and [top_block_start_runs] composes the parts, from a
    hierarchy of blocks to the running threads of either scheduler.

    ** Coding and packets

    - [Bits]: lists of bits, and the numbers they are.  [Float]: the conversions
      of C between integers and IEEE floating point.
    - [Viterbi]: [viterbi.c], [tab.c].  [Ccsds27]: [gr_encode_ccsds_27_bb.cc],
      [gr_decode_ccsds_27_fb.cc], over it.
    - [Crc32]: [gr_crc32.cc], [crc.py].  [Correlator]:
      [gr_correlate_access_code_bb.cc], [gr_count_bits.cc].  [Framer]:
      [gr_framer_sink_1.cc].  [Packet]: [packet_utils.py], [pkt.py],
      [mathmisc.py], over these three.

    Each block is its state and a function on the items of a call of [work]; the
    theorems are about any cut of a stream into calls.  Every byte the decoder
    writes is from a most likely code word ([viterbi_is_maximum_likelihood]), and
    it repairs errors
    ([ccsds_27_corrects_four_errors]); the checksum finds bursts; correlator and
    framer are functions of the stream, stated without their registers
    ([correlate_access_code_spec], [framer_sink_1_spec]); and what is given to
    [send_pkt] is what the callback gets ([packets_are_delivered]).  [numpy]'s
    exclusive or and the metric table of [gen_met] are parameters.

    ** Trellis codes

    - [TrellisBase]: the digits of [base.cc].  [TrellisTables]: the tables that
      [fsm.cc] generates for a machine.  [TrellisFsm]: the constructors of [fsm],
      from tables, polynomials, channel, modulation, two machines or stages of
      one.  [TrellisEncoder]: [trellis_encoder_XX.cc.t] and the concatenated
      encoders, [interleaver.cc], [quicksort_index.cc], [trellis_permutation.cc].

    A machine is a function from input streams to output streams, [outputs].
    The one made from polynomials is their convolution
    ([fsm_convolutional_spec]), composed ones encode as their parts do
    ([composed_machines_encode]); the tables of every machine list its
    transitions backwards and lead to any state that can be reached
    ([machine_tables_right]).  Sizes and indices are [int]s, computed as such; the
    theorems are about machines whose tables an [int] can index ([int_sizes],
    [joint_sizes]), and [TrellisTables] has the tables on unbounded integers as
    well, which are the same there.  Random interleavers are permutations, and the
    block with the inverse table undoes them ([random_interleaver_inverts]).

    ** Digital television

    - [AtscTypes]: segments and pipeline information.  [AtscRandomizer],
      [ReedSolomon] and [AtscReedSolomon], [AtscInterleaver], [AtscTrellis]: the
      stages of the transmitter and their inverses.  [AtscViterbi] and
      [AtscDecoder]: the decoder of the trellis code, one and twelve of them.
      [AtscChain]: the loopback of [qa_atsc.py], end to end.

    A block of this library works on each item of its input in turn, so a stream
    is a function from the item's number and the block acts through
    [AtscTypes.each_item].  The Viterbi decoder computes in IEEE floating point
    (the Standard Library's [spec_float]): the theorems are about the floats, not
    about real numbers.  They show that each stage inverts the other, that the
    Reed-Solomon decoder corrects a wrong byte, and that the whole chain is the
    identity after its delay.

    ** Speech codecs

    - [G711]: the four conversions and the two transcoders, with their tables.
    - [G72x]: [struct g72x_state], quantizer, predictor, [update] (one definition
      per block of the function), tandem adjustment.  [G72xCodecs]: the six
      coders.  [AdpcmStream]: bit packing, main loops and option parsing of the
      two programs; standard input and output are lists.
    - [GsmArith]: [add.c] and the macros of [private.h].  [GsmFrame]: the 33 byte
      frame of [gsm_encode.c], [gsm_decode.c], [gsm_implode.c], [gsm_explode.c].
      [GsmRpe]: [rpe.c].  [GsmShortTerm]: [short_term.c].  [GsmLongTerm]:
      [long_term.c].  [GsmLpc]: [preprocess.c] and [lpc.c].  [GsmCoder]: [code.c],
      [decode.c], [gsm_create.c] and the two entry points, over the others.

    The decoders keep the encoders' state
    ([GsmCoder.gsm_decoder_tracks_encoder], [G72xCodecs.g723_decoder_tracks];
    [g721_decoder_tracks] under the condition that exact 16-bit estimates need,
    [g721_desynchronizes] without it), over streams through the real bit
    formats; no assertion of the GSM code can fail, on any samples and on any
    received 33 bytes; reachable ADPCM states stay in the ranges the algorithm
    needs; companding, filters and quantizers have inverses or error bounds.

    ** Firmware

    - [BufferPool]: the register words of [buffer_pool.c].  [Dbsm] and [Bsm12]:
      every operation of [dbsm.c] and [bsm12.c] on a machine made of the software
      object, the application's inspector (a parameter) and the log of register
      writes; the hardware is a relation on the transfers those writes start.

    Runs interleave status words, underruns, the lengths that the hardware latches
    and, in [Dbsm], overruns, starts and stops.  Software and hardware agree after
    every run, but for the transfer that an overrun clears; the first machine
    refines a fifo of capacity two, the second delivers every packet to the
    destination it was given.

    ** Shared job descriptors

    - [GcChain]: descriptors linked in memory, and where they can be.  [GcStack]:
      [gc_jd_stack.c].  [GcQueue]: [gc_jd_queue.c] and [spu/gc_spu_jd_queue.c].

    A step is one access to the shared line or to a descriptor; threads are
    interleaved at will, lose reservations for no reason, and clients write into
    the descriptors they hold.  The stack is a stack although it has no lock
    ([stack_refines_list]); the queue is a fifo for both kinds of processors
    ([gcell_queue_refines_fifo]).  That a conditional store fails when the line was
    written since it was reserved is the processor's promise; so is, of its
    library, that the lock is a word that is 0 when free.

    ** Conventions

    A C integer is a [Z] with the conversion written where C converts ([u8],
    [s16], ...).  Arrays are lists, [a.[i]] loads and [a.[i <- x]] stores; loops
    are structural recursion, [fold_left] over the indices, or recursion on a
    counter.  In the C code [assert] is [assert_] in the option monad: [None] is a
    failed assertion.  C++ exceptions are the monad [res]: [Throw] carries the
    exception.  Pointers into one array are positions in that array, so aliasing
    is as in the code.

    ** Interfaces

    - [GrBlock.FixedRate] states what a block with a fixed rate promises to the
      executor; the synchronous blocks are instances, and the executor's
      theorems about them hold for any instance.
    - [GsmLpc.Autocorrelator] and [GsmLongTerm.LtpParameters] state what the GSM
      coder needs of the searches the build replaces by floating point
      variants; the integer versions are instances.
    - [TrellisBase.Libm] states that [log] and [pow] are exact enough where the
      trellis library takes their integer parts; exact functions are an instance.
    - [AtscReedSolomon.AtscCode] states what the theorems need of the tables
      [init_rs] builds; the digital television code is an instance.
    - [Prelude.forward_simulation] is the simulation theorem that the
      refinements of [Dbsm] and [Bsm12] instantiate.

    ** Bounds and fuel

    Fuel appears only where the number of rounds is not a counter of the code,
    and the theorems that use it conclude that the result is there:
    [AdpcmStream.pack_flush] (8 rounds empty the bit buffer),
    [AdpcmStream.decode_main] (one more round than there are codes),
    [GsmRpe.normalize_mant] (at most 3 bits to gain), [GrBuffer]'s pruning (one
    round a tag), [GrGraph]'s searches (one a block) and [partition] (one a
    component), [GrBlockExecutor]'s retries (the request halves), [Pmt]'s walks
    along lists (the cells of the store), [PmtSerialize]'s reader (one more than
    there are bytes), [ReedSolomon.modnn] (32 rounds) and the search for the
    root of the primitive element (its exponent), [GrHierBlock]'s recursion into
    nested blocks (the depth of the nesting; deeper is a stack overflow, which a
    block inside itself does produce), [Framer.framer_loop] (two rounds an item),
    [Packet.gcd_loop] (the second number shrinks), [TrellisEncoder]'s sort (a
    round and a level of recursion an element).  Exhaustive checks by
    evaluation range over at most 65536 cases.

    ** Not modelled, and why

    The GSM coder: the [WAV49] format, which is compiled out, and the floating point
    variants, which an option that is off by default selects.  Floating point numerics judged by measurement: filters, transforms,
    the analog front end of the television receiver.  Hardware access: drivers
    and daughterboards of both radios, and the host libraries over them.  The job
    manager of gcell calls the system libraries of its processor.  The
    trellis decoders add up metrics in single precision.  [gen_met] computes the
    metric table with functions of the C library.  [GrTopBlock] does not keep what a
    setup that throws half way leaves behind.  Of [Pmt], the walks along lists are
    functions with fuel; the store's theorem is about the calls that make and change
    objects.  Out of scope: bindings, build files, imported C library code. *)

From stdpp Require Export base numbers list relations tactics.
From Stdlib Require Export ZArith Lia.

#[global] Open Scope Z_scope.

(** ** C integers

    A C integer of width [w] is a [Z] kept in range by an explicit conversion
    at every point where the C code converts (assignment to a narrower
    object, cast, argument passing). *)

Definition ux (w : Z) (x : Z) : Z := x mod 2 ^ w.
Definition sx (w : Z) (x : Z) : Z := (x + 2 ^ (w - 1)) mod 2 ^ w - 2 ^ (w - 1).

Abbreviation u8 := (ux 8).
Abbreviation u16 := (ux 16).
Abbreviation u32 := (ux 32).
Abbreviation u64 := (ux 64).
Abbreviation s8 := (sx 8).
Abbreviation s16 := (sx 16).
Abbreviation s32 := (sx 32).
Abbreviation s64 := (sx 64).

(** C spellings of the bit operators. *)
Declare Scope cint_scope.
Delimit Scope cint_scope with c.
Infix "<<" := Z.shiftl (at level 45, left associativity) : cint_scope.
Infix ">>" := Z.shiftr (at level 45, left associativity) : cint_scope.
Infix ".&" := Z.land (at level 46, left associativity) : cint_scope.
Infix ".^" := Z.lxor (at level 47, left associativity) : cint_scope.
Infix ".|" := Z.lor (at level 48, left associativity) : cint_scope.
#[global] Open Scope cint_scope.

(** The truth value C gives to an integer condition. *)
Definition ctrue (x : Z) : bool := negb (x =? 0).

(** ** C arrays

    An array is a list; a load or a store takes a [Z] index.  Outside the
    array C has no defined behaviour: the model loads the type's default
    value and drops the store, and the theorems keep the indices inside. *)

Class Default (A : Type) := dflt : A.
#[export] Instance Default_Z : Default Z := 0.
#[export] Instance Default_bool : Default bool := false.
#[export] Instance Default_list {A} : Default (list A) := [].
#[export] Instance Default_option {A} : Default (option A) := None.

Definition aget {A} `{Default A} (l : list A) (i : Z) : A :=
  if i <? 0 then dflt else default dflt (l !! Z.to_nat i).
Definition aset {A} (l : list A) (i : Z) (x : A) : list A :=
  if i <? 0 then l else <[Z.to_nat i := x]> l.

Notation "l .[ i ]" := (aget l i)
  (at level 1, left associativity, format "l .[ i ]").
Notation "l .[ i <- x ]" := (aset l i x)
  (at level 1, left associativity, format "l .[ i  <-  x ]").

(** The integers [n], [n + 1], ..., [k] of them: the values of a loop counter. *)
Definition zseq (n k : nat) : list Z := map Z.of_nat (seq n k).

(** Decision of a boolean property on the integers [0 .. n-1]. *)
Fixpoint all_below (n : nat) (f : Z -> bool) : bool :=
  match n with
  | O => true
  | S m => f (Z.of_nat m) && all_below m f
  end.

(** ** Automation *)

(** Turn boolean comparisons in the context and the goal into propositions. *)
Ltac zbool :=
  repeat match goal with
  | H : (_ && _) = true |- _ => apply andb_true_iff in H as [? ?]
  | H : (_ || _) = false |- _ => apply orb_false_iff in H as [? ?]
  | H : (_ <? _) = true |- _ => apply Z.ltb_lt in H
  | H : (_ <? _) = false |- _ => apply Z.ltb_ge in H
  | H : (_ <=? _) = true |- _ => apply Z.leb_le in H
  | H : (_ <=? _) = false |- _ => apply Z.leb_gt in H
  | H : (_ =? _) = true |- _ => apply Z.eqb_eq in H
  | H : (_ =? _) = false |- _ => apply Z.eqb_neq in H
  | H : negb _ = true |- _ => apply negb_true_iff in H
  | H : negb _ = false |- _ => apply negb_false_iff in H
  end.

(** Case analysis on the conditions the C code tests. *)
Ltac case_if :=
  match goal with
  | |- context [if ?b then _ else _] => destruct b eqn:?; zbool
  | H : context [if ?b then _ else _] |- _ => destruct b eqn:?; zbool
  end.

(** Evaluate the powers of two with a constant exponent. *)
Ltac norm_pow :=
  repeat match goal with
  | |- context [Z.pow 2 (Zpos ?p)] =>
      let v := eval vm_compute in (Z.pow 2 (Zpos p)) in change (Z.pow 2 (Zpos p)) with v
  | H : context [Z.pow 2 (Zpos ?p)] |- _ =>
      let v := eval vm_compute in (Z.pow 2 (Zpos p)) in
      change (Z.pow 2 (Zpos p)) with v in H
  end.

(** Linear arithmetic with division and modulo by constants. *)
Ltac divlia := Z.div_mod_to_equations; lia.

(** Run a call in the option monad whose result is known: as a rewriting step,
    so that no conversion ever evaluates the calls that follow. *)
Lemma some_bind {A B} (f : A -> option B) (x : A) : mbind f (Some x) = f x.
Proof. reflexivity. Qed.

Ltac run H := rewrite H, some_bind; cbv beta iota.

(** ** Exceptions

    The result of a C++ function that may throw. *)
Inductive res (E A : Type) : Type :=
| Ok (a : A)
| Throw (e : E).
Arguments Ok {E A}.
Arguments Throw {E A}.

#[export] Instance res_ret E : MRet (res E) := fun A a => Ok a.
#[export] Instance res_bind E : MBind (res E) := fun A B f m =>
  match m with Ok a => f a | Throw e => Throw e end.

Lemma ok_bind {E A B} (f : A -> res E B) (x : A) : mbind f (Ok x) = f x.
Proof. reflexivity. Qed.

(** [for (p = l.begin(); p != l.end(); p++)] with a body that may throw. *)
Fixpoint for_each {E A S} (f : A -> S -> res E S) (l : list A) (s : S) : res E S :=
  match l with
  | [] => Ok s
  | x :: l => s ← f x s; for_each f l s
  end.

Lemma res_bind_ok {E A B} (f : A -> res E B) (m : res E A) b :
  mbind f m = Ok b <-> exists a, m = Ok a /\ f a = Ok b.
Proof. destruct m; simpl; naive_solver. Qed.

Lemma res_bind_unit {E B} (k : res E B) (m : res E ()) b :
  mbind (fun _ => k) m = Ok b <-> m = Ok () /\ k = Ok b.
Proof. rewrite res_bind_ok. split; [intros ([] & ? & ?); auto|intros []; eauto]. Qed.

(** A loop that keeps an invariant about the elements it has gone through ends. *)
Lemma for_each_reaches {E A S} (f : A -> S -> res E S) (P : list A -> S -> Prop) l s :
  P [] s ->
  (forall seen x rest s, l = seen ++ x :: rest -> P seen s -> exists s', f x s = Ok s' /\ P (seen ++ [x]) s') ->
  exists s', for_each f l s = Ok s' /\ P l s'.
Proof.
  intros H0 Hf. assert (forall rest seen s, l = seen ++ rest -> P seen s ->
    exists s', for_each f rest s = Ok s' /\ P l s') as H; [|by apply (H l [])].
  induction rest as [|x rest IH]; intros seen s1 Hl Hs; cbn [for_each].
  { rewrite app_nil_r in Hl. subst. eauto. }
  destruct (Hf seen x rest s1 Hl Hs) as (s2 & -> & Hs2). apply (IH (seen ++ [x])); [|done].
  by rewrite <- app_assoc.
Qed.

Create HintDb cint.

(** ** Conversions *)

Section Conversions.
Context (w : Z) (Hw : 0 < w).

Lemma ux_range x : 0 <= ux w x < 2 ^ w.
Proof. apply Z.mod_pos_bound. apply Z.pow_pos_nonneg; lia. Qed.

Lemma ux_id x : 0 <= x < 2 ^ w -> ux w x = x.
Proof. apply Z.mod_small. Qed.

Lemma pow_half : 2 ^ w = 2 * 2 ^ (w - 1).
Proof. rewrite <- Z.pow_succ_r by lia. f_equal. lia. Qed.

Lemma sx_range x : - 2 ^ (w - 1) <= sx w x < 2 ^ (w - 1).
Proof using Hw.
  unfold sx. pose proof pow_half.
  pose proof (Z.mod_pos_bound (x + 2 ^ (w - 1)) (2 ^ w)
                (Z.pow_pos_nonneg 2 w ltac:(lia) ltac:(lia))). lia.
Qed.

Lemma sx_id x : - 2 ^ (w - 1) <= x < 2 ^ (w - 1) -> sx w x = x.
Proof using Hw. intros. unfold sx. pose proof pow_half. rewrite Z.mod_small; lia. Qed.
End Conversions.

Lemma u8_range x : 0 <= u8 x < 256.
Proof. apply (ux_range 8); lia. Qed.
Lemma u16_range x : 0 <= u16 x < 65536.
Proof. apply (ux_range 16); lia. Qed.
Lemma u32_range x : 0 <= u32 x < 4294967296.
Proof. apply (ux_range 32); lia. Qed.
Lemma s16_range x : -32768 <= s16 x <= 32767.
Proof. pose proof (sx_range 16 ltac:(lia) x) as H. cbn in H. lia. Qed.
Lemma u8_id x : 0 <= x < 256 -> u8 x = x.
Proof. apply (ux_id 8). Qed.
Lemma u32_id x : 0 <= x < 4294967296 -> u32 x = x.
Proof. apply (ux_id 32). Qed.
Lemma s16_id x : -32768 <= x <= 32767 -> s16 x = x.
Proof. intros. apply (sx_id 16); lia. Qed.
Lemma s16_s16 x : s16 (s16 x) = s16 x.
Proof. apply s16_id, s16_range. Qed.

#[export] Hint Resolve u8_range u16_range u32_range s16_range : cint.
#[export] Hint Rewrite s16_s16 : cint.

(** ** Bit operations *)

Lemma shr_div x n : 0 <= n -> x >> n = x / 2 ^ n.
Proof. apply Z.shiftr_div_pow2. Qed.

Lemma shl_mul x n : 0 <= n -> x << n = x * 2 ^ n.
Proof. apply Z.shiftl_mul_pow2. Qed.

Lemma land_mask x n : 0 <= n -> x .& Z.ones n = x mod 2 ^ n.
Proof. apply Z.land_ones. Qed.

Lemma land_range x m : 0 <= m -> 0 <= x .& m <= m.
Proof.
  intros Hm. split; [apply Z.land_nonneg; auto|].
  assert (m = x .& m + Z.ldiff m x) as Heq.
  { rewrite Z.add_nocarry_lxor, Z.lxor_lor; apply Z.bits_inj'; intros i Hi;
      rewrite ?Z.lor_spec, ?Z.land_spec, ?Z.ldiff_spec, ?Z.bits_0;
      destruct (Z.testbit m i), (Z.testbit x i); reflexivity. }
  assert (0 <= Z.ldiff m x) by (apply Z.ldiff_nonneg; auto). lia.
Qed.

Lemma bound_by_bits x n :
  0 <= n -> 0 <= x -> (forall i, n <= i -> Z.testbit x i = false) -> x < 2 ^ n.
Proof.
  intros Hn Hx Hb. assert (x = x mod 2 ^ n) as ->.
  { apply Z.bits_inj'. intros i Hi. destruct (Z.lt_ge_cases i n).
    - rewrite Z.mod_pow2_bits_low; auto.
    - rewrite Z.mod_pow2_bits_high by lia. auto. }
  apply Z.mod_pos_bound, Z.pow_pos_nonneg; lia.
Qed.

Lemma high_bits x n i : 0 <= x < 2 ^ n -> 0 <= n <= i -> Z.testbit x i = false.
Proof.
  intros Hx Hi. rewrite <- (Z.mod_small x (2 ^ n)) by done.
  apply Z.mod_pow2_bits_high; lia.
Qed.

Lemma lor_range x y n :
  0 <= n -> 0 <= x < 2 ^ n -> 0 <= y < 2 ^ n -> 0 <= x .| y < 2 ^ n.
Proof.
  intros. split; [apply Z.lor_nonneg; lia|].
  apply bound_by_bits; [lia|apply Z.lor_nonneg; lia|].
  intros i Hi. rewrite Z.lor_spec, !(high_bits _ n) by lia. done.
Qed.

Lemma lxor_range x y n :
  0 <= n -> 0 <= x < 2 ^ n -> 0 <= y < 2 ^ n -> 0 <= x .^ y < 2 ^ n.
Proof.
  intros. split; [apply Z.lxor_nonneg; lia|].
  apply bound_by_bits; [lia|apply Z.lxor_nonneg; lia|].
  intros i Hi. rewrite Z.lxor_spec, !(high_bits _ n) by lia. done.
Qed.

Lemma lxor_cancel x m : (x .^ m) .^ m = x.
Proof. rewrite Z.lxor_assoc, Z.lxor_nilpotent. apply Z.lxor_0_r. Qed.

(** A field placed above [n] low bits: the bitwise or is a sum. *)
Lemma lor_shl_add x y n : 0 <= n -> 0 <= y < 2 ^ n -> (x << n) .| y = x * 2 ^ n + y.
Proof.
  intros Hn Hy. rewrite <- shl_mul by done. symmetry.
  rewrite Z.add_nocarry_lxor, Z.lxor_lor; try done;
    apply Z.bits_inj'; intros i Hi; rewrite Z.land_spec, Z.shiftl_spec, Z.bits_0 by done;
    (destruct (Z.lt_ge_cases i n);
      [rewrite Z.testbit_neg_r by lia; done
      |rewrite (high_bits y n) by lia; apply andb_false_r]).
Qed.

Lemma ctrue_spec x : ctrue x = true <-> x <> 0.
Proof. unfold ctrue. destruct (Z.eqb_spec x 0); naive_solver. Qed.
Lemma ctrue_false x : ctrue x = false <-> x = 0.
Proof. unfold ctrue. destruct (Z.eqb_spec x 0); naive_solver. Qed.

(** ** Arrays *)

Section Arrays.
Context {A : Type} `{Default A}.
Implicit Types (l : list A).

Lemma length_aset l i x : length (aset l i x) = length l.
Proof. unfold aset. case_if; [done|apply length_insert]. Qed.

Lemma aget_aset_eq l i x : 0 <= i < Z.of_nat (length l) -> aget (aset l i x) i = x.
Proof.
  intros. unfold aget, aset. case_if; [lia|].
  by rewrite list_lookup_insert_eq by lia.
Qed.

Lemma aget_aset_ne l i j x : 0 <= i -> i <> j -> aget (aset l i x) j = aget l j.
Proof.
  intros. unfold aget, aset. case_if; [done|]. case_if; [lia|].
  by rewrite list_lookup_insert_ne by lia.
Qed.

Lemma aget_aset l i j x :
  0 <= i < Z.of_nat (length l) ->
  aget (aset l i x) j = if i =? j then x else aget l j.
Proof.
  intros. destruct (Z.eqb_spec i j) as [->|]; [by apply aget_aset_eq|].
  apply aget_aset_ne; lia.
Qed.

Lemma aget_lookup l i x : 0 <= i -> l !! Z.to_nat i = Some x -> aget l i = x.
Proof. intros Hi Hl. unfold aget. case_if; [lia|]. by rewrite Hl. Qed.

Lemma aget_Forall (P : A -> Prop) l i :
  Forall P l -> 0 <= i < Z.of_nat (length l) -> P (aget l i).
Proof.
  intros HP Hi. unfold aget. case_if; [lia|].
  destruct (l !! Z.to_nat i) eqn:E; simpl.
  - by eapply Forall_lookup_1.
  - apply lookup_ge_None_1 in E. lia.
Qed.

Lemma aget_elem l i : 0 <= i < Z.of_nat (length l) -> aget l i ∈ l.
Proof. intros Hi. apply (aget_Forall (fun x => x ∈ l)); [apply Forall_forall; intros x; by rewrite list_elem_of_In|done]. Qed.

Lemma aget_Forall_dflt (P : A -> Prop) l i : Forall P l -> P dflt -> P (aget l i).
Proof.
  intros HP Hd. unfold aget. case_if; [done|].
  destruct (l !! Z.to_nat i) eqn:E; simpl; [by eapply Forall_lookup_1|done].
Qed.

Lemma Forall_aset (P : A -> Prop) l i x : Forall P l -> P x -> Forall P (aset l i x).
Proof. intros. unfold aset. case_if; [done|]. by apply Forall_insert. Qed.
End Arrays.

#[export] Hint Rewrite @length_aset : cint.

Lemma aget_map {A B} `{Default A, Default B} (f : A -> B) (l : list A) i :
  0 <= i < Z.of_nat (length l) -> aget (map f l) i = f (aget l i).
Proof.
  intros Hi. destruct (lookup_lt_is_Some_2 l (Z.to_nat i) ltac:(lia)) as [x Hx].
  rewrite (aget_lookup l i x) by (done || lia). apply aget_lookup; [lia|]. by rewrite list_lookup_fmap, Hx.
Qed.

Lemma aget_app_l {A} `{Default A} (l1 l2 : list A) i : 0 <= i < Z.of_nat (length l1) -> (l1 ++ l2).[i] = l1.[i].
Proof. intros Hi. unfold aget. case_if; [done|]. by rewrite lookup_app_l by lia. Qed.

Lemma aget_app_r {A} `{Default A} (l1 l2 : list A) i : Z.of_nat (length l1) <= i -> (l1 ++ l2).[i] = l2.[i - Z.of_nat (length l1)].
Proof.
  intros Hi. unfold aget. rewrite !(proj2 (Z.ltb_ge _ 0)) by lia. rewrite lookup_app_r by lia. do 2 f_equal. lia.
Qed.

Lemma forallb_elem {A} (f : A -> bool) l x : forallb f l = true -> x ∈ l -> f x = true.
Proof. intros H Hx. rewrite forallb_forall in H. by apply H, list_elem_of_In. Qed.

Lemma zseq_get n k i : 0 <= i < Z.of_nat k -> (zseq n k).[i] = Z.of_nat n + i.
Proof.
  intros Hi. apply aget_lookup; [lia|]. unfold zseq. rewrite list_lookup_fmap, lookup_seq_lt by lia.
  cbn. f_equal. lia.
Qed.

(** An array given by a function of the index. *)
Lemma map_zseq_get {A} `{Default A} (f : Z -> A) k i :
  0 <= i < Z.of_nat k -> (map f (zseq 0 k)).[i] = f i.
Proof.
  intros Hi. apply aget_lookup; [lia|]. unfold zseq. rewrite map_map, list_lookup_fmap, lookup_seq_lt by lia.
  cbn. do 2 f_equal. lia.
Qed.

Lemma length_zseq n k : length (zseq n k) = k.
Proof. unfold zseq. by rewrite length_map, length_seq. Qed.

Lemma map_zseq_S {B} (g : Z -> B) n : map g (zseq 0 (S n)) = g 0 :: map (fun m => g (m + 1)) (zseq 0 n).
Proof.
  unfold zseq. cbn [seq map]. f_equal. rewrite <- seq_shift, !map_map. apply map_ext. intros. f_equal. lia.
Qed.

Lemma map_zseq_snoc {B} (g : Z -> B) n : map g (zseq 0 (S n)) = map g (zseq 0 n) ++ [g (Z.of_nat n)].
Proof. unfold zseq. rewrite seq_S, !map_app. done. Qed.

Lemma imap_zseq {A B} (f : Z -> B) (l : list A) n : length l = n ->
  imap (fun i _ => f (Z.of_nat i)) l = map f (zseq 0 n).
Proof.
  intros <-. apply list_eq. intros i. rewrite list_lookup_imap. unfold zseq. rewrite map_map, list_lookup_fmap.
  destruct (l !! i) eqn:E.
  - rewrite lookup_seq_lt by (by eapply lookup_lt_Some). done.
  - rewrite lookup_seq_ge by (by apply lookup_ge_None). done.
Qed.

Lemma zseq_lookup {B} (f : Z -> B) n i x : map f (zseq 0 n) !! i = Some x -> x = f (Z.of_nat i) /\ (i < n)%nat.
Proof.
  intros Hx. unfold zseq in Hx. rewrite map_map, list_lookup_fmap in Hx.
  destruct (decide (i < n)%nat).
  - rewrite lookup_seq_lt in Hx by done. cbn in Hx. by injection Hx as <-.
  - by rewrite lookup_seq_ge in Hx by lia.
Qed.

Lemma list_as_map {A} `{Default A} (l : list A) n : length l = n -> l = map (aget l) (zseq 0 n).
Proof.
  intros Hl. apply list_eq. intros i. rewrite list_lookup_fmap. destruct (decide (i < n)%nat) as [Hi|Hi].
  - unfold zseq. rewrite list_lookup_fmap, lookup_seq_lt by done. cbn.
    destruct (lookup_lt_is_Some_2 l i) as [w Hw]; [by rewrite Hl|].
    rewrite Hw. f_equal. symmetry. apply aget_lookup; [lia|]. by rewrite Nat2Z.id.
  - rewrite !lookup_ge_None_2; [done|rewrite length_zseq; lia|lia].
Qed.

Lemma map_zseq_plus {B} (f : Z -> B) a b :
  map f (zseq 0 (a + b)) = map f (zseq 0 a) ++ map (fun i => f (Z.of_nat a + i)) (zseq 0 b).
Proof.
  unfold zseq. rewrite seq_app, !map_app. f_equal. cbn [Nat.add]. rewrite <- (Nat.add_0_r a) at 1.
  rewrite <- (fmap_add_seq a 0 b), !map_map. apply map_ext. intros. f_equal. lia.
Qed.

Lemma join_cons {A} (x : list A) l : mjoin (x :: l) = x ++ mjoin l.
Proof. done. Qed.

Lemma zip_with_zseq {A B C} (f : A -> B -> C) (g : Z -> B) (l : list A) n : length l = n ->
  zip_with f l (map g (zseq 0 n)) = imap (fun i x => f x (g (Z.of_nat i))) l.
Proof.
  intros <-. revert g. induction l as [|x l IH]; intros g; [done|].
  cbn [length]. rewrite map_zseq_S, imap_cons. cbn [zip_with]. rewrite IH. f_equal.
  apply imap_ext. intros i y _. cbn. do 2 f_equal. lia.
Qed.

Lemma all_below_spec n f : all_below n f = true -> forall x, 0 <= x < Z.of_nat n -> f x = true.
Proof.
  induction n as [|n IH]; intros Hf x Hx; [lia|]. simpl in Hf. zbool.
  destruct (Z.eq_dec x (Z.of_nat n)) as [->|]; [done|]. apply IH; [done|lia].
Qed.

Lemma all_below_decide n (P : Z -> Prop) `{forall x, Decision (P x)} :
  all_below n (fun x => bool_decide (P x)) = true -> forall x, 0 <= x < Z.of_nat n -> P x.
Proof.
  intros Hf x Hx. pose proof (all_below_spec _ _ Hf x Hx) as Hb. cbv beta in Hb.
  by apply bool_decide_eq_true in Hb.
Qed.

(** A function that grows at every step of a range is strictly increasing. *)
Lemma increasing_below n (f : Z -> Z) :
  all_below n (fun k => f k <? f (k + 1)) = true ->
  forall i j, 0 <= i < j -> j <= Z.of_nat n -> f i < f j.
Proof.
  intros Hf i j [Hi Hij] Hj. pose proof (all_below_spec _ _ Hf) as Hs. cbv beta in Hs.
  replace j with (i + 1 + (j - i - 1)) in * by lia.
  assert (0 <= j - i - 1) as Hk by lia. revert Hj.
  generalize (j - i - 1) Hk. apply (natlike_ind (fun k =>
    i + 1 + k <= Z.of_nat n -> f i < f (i + 1 + k))).
  - intros ?. rewrite Z.add_0_r. specialize (Hs i ltac:(lia)). by apply Z.ltb_lt in Hs.
  - intros k Hk0 IH Hn. specialize (Hs (i + 1 + k) ltac:(lia)). apply Z.ltb_lt in Hs.
    replace (i + 1 + Z.succ k) with (i + 1 + k + 1) by lia. specialize (IH ltac:(lia)). lia.
Qed.

(** ** Labelled transition systems and forward simulation *)

Inductive lsteps {S L : Type} (step : S -> L -> S -> Prop) : S -> list L -> S -> Prop :=
| lsteps_nil s : lsteps step s [] s
| lsteps_cons s l s' ls s'' :
    step s l s' -> lsteps step s' ls s'' -> lsteps step s (l :: ls) s''.

Lemma lsteps_app {S L} (step : S -> L -> S -> Prop) s1 l1 s2 l2 s3 :
  lsteps step s1 l1 s2 -> lsteps step s2 l2 s3 -> lsteps step s1 (l1 ++ l2) s3.
Proof. induction 1; intros; simpl; [done|]. econstructor; eauto. Qed.

Lemma lsteps_invariant {S L} (step : S -> L -> S -> Prop) (I : S -> Prop) :
  (forall s l s', I s -> step s l s' -> I s') ->
  forall s ls s', lsteps step s ls s' -> I s -> I s'.
Proof. intros HI s ls s'. induction 1; eauto. Qed.

Section Simulation.
Context {C A L O : Type}.
Context (cstep : C -> L -> C -> Prop) (astep : A -> O -> A -> Prop).
Context (obs : L -> list O) (R : C -> A -> Prop).
(** Every concrete step is matched by the abstract steps its label shows. *)
Context (Hsim : forall c l c' a, R c a -> cstep c l c' ->
           exists a', lsteps astep a (obs l) a' /\ R c' a').

Theorem forward_simulation c ls c' a :
  R c a -> lsteps cstep c ls c' ->
  exists a', lsteps astep a (mjoin (obs <$> ls)) a' /\ R c' a'.
Proof using Hsim.
  intros HR Hs. revert a HR. induction Hs as [|c l c1 ls c' Hl Hs IH]; intros a HR.
  - exists a. split; [constructor|done].
  - destruct (Hsim _ _ _ _ HR Hl) as (a1 & Ha1 & HR1).
    destruct (IH _ HR1) as (a' & Ha' & HR').
    exists a'. split; [|done]. simpl. eapply lsteps_app; eauto.
Qed.
End Simulation.
