(* ===== verification/Float.v ===== *)
(** * Floating point

    C's [float] and [double] on the Standard Library's [spec_float]: IEEE
    arithmetic with 24 and 53 bits of precision, rounding to nearest. *)

From S2P Require Import Prelude.
From Stdlib Require Import SpecFloat.
#[local] Open Scope Z_scope.

(** Conversions between the two. *)
Definition to_float (x : spec_float) : spec_float :=
  match x with S754_finite s m e => binary_round 24 128 s m e | _ => x end.
Definition to_double (x : spec_float) : spec_float :=
  match x with S754_finite s m e => binary_round 53 1024 s m e | _ => x end.

Definition float_of_int (n : Z) : spec_float := binary_normalize 24 128 n 0 false.
Definition double_of_int (n : Z) : spec_float := binary_normalize 53 1024 n 0 false.

Definition double_mul := SFmul 53 1024.
Definition double_div := SFdiv 53 1024.
Definition double_add := SFadd 53 1024.

(** [static_cast<int>]: towards zero. *)
Definition int_of_double (x : spec_float) : Z :=
  match x with
  | S754_finite s m e =>
      let n := if 0 <=? e then Zpos m << e else Zpos m >> (- e) in
      if s then - n else n
  | _ => 0
  end.

(** [floor], as an integer. *)
Definition int_of_floor (x : spec_float) : Z :=
  match x with
  | S754_finite s m e =>
      let n := if s then Zneg m else Zpos m in
      if 0 <=? e then n << e else n >> (- e)
  | _ => 0
  end.

#[export] Instance Default_float : Default spec_float := S754_zero false.
