(* ===== verification/Bits.v ===== *)
(** * Bits of bytes

    Lists of bits, 0 or 1, the most significant first, as the coders and the
    packet code unpack bytes; and the number that a list of bits is. *)

From S2P Require Import Prelude.
From stdpp Require Import list.
#[local] Open Scope Z_scope.
#[local] Open Scope cint_scope.

(** The bits of a byte, the top one first: [*data >> i & 1] for [i] from 7 down to 0. *)
Definition bits_of_byte (b : Z) : list Z := map (fun i => (b >> i) .& 1) [7; 6; 5; 4; 3; 2; 1; 0].

Definition bit (b : Z) : Prop := b = 0 \/ b = 1.

(** The number: the bits are appended to [s]. *)
Definition walk (s : Z) (bits : list Z) : Z := fold_left (fun v b => 2 * v + b) bits s.

Definition bytes (s : list Z) : Prop := Forall (fun x => 0 <= x < 256) s.

Definition bits_of (data : list Z) : list Z := mjoin (map bits_of_byte data).

Lemma walk_app s bits1 bits2 : walk s (bits1 ++ bits2) = walk (walk s bits1) bits2.
Proof. apply fold_left_app. Qed.

Lemma walk_snoc s bits b : walk s (bits ++ [b]) = 2 * walk s bits + b.
Proof. by rewrite walk_app. Qed.

Lemma aget_bit l i : Forall bit l -> bit l.[i].
Proof. intros Hl. apply aget_Forall_dflt; [done|by left]. Qed.

Lemma byte_bits_checked : all_below 256 (fun x => fold_left (fun v b => 2 * v + b) (bits_of_byte x) 0 =? x) = true.
Proof. vm_compute. reflexivity. Qed.

Lemma bits_of_byte_bits x : Forall bit (bits_of_byte x).
Proof.
  apply Forall_forall. intros b Hb. unfold bits_of_byte in Hb. apply list_elem_of_In, in_map_iff in Hb as (i & <- & _).
  change 1 with (Z.ones 1). rewrite land_mask by lia. change (2 ^ 1) with 2. unfold bit. divlia.
Qed.

Lemma bits_of_bits data : Forall bit (bits_of data).
Proof. induction data as [|x data IH]; [done|]. unfold bits_of. cbn [map]. rewrite join_cons. apply Forall_app; split; [apply bits_of_byte_bits|done]. Qed.

Lemma bits_of_length data : length (bits_of data) = (8 * length data)%nat.
Proof. induction data as [|x data IH]; [done|]. unfold bits_of in *. cbn [map]. rewrite join_cons, length_app, IH. cbn. lia. Qed.

Lemma bits_of_app l1 l2 : bits_of (l1 ++ l2) = bits_of l1 ++ bits_of l2.
Proof. unfold bits_of. by rewrite map_app, join_app. Qed.

Lemma walk_split s bits : walk s bits = s * 2 ^ Z.of_nat (length bits) + walk 0 bits.
Proof.
  revert s. induction bits as [|b bits IH] using rev_ind; intros s; [change (walk s []) with s; change (walk 0 []) with 0; cbn; lia|].
  rewrite !walk_snoc, (IH s), length_app. cbn [length]. replace (Z.of_nat (length bits + 1)) with (Z.succ (Z.of_nat (length bits))) by lia.
  rewrite Z.pow_succ_r by lia. lia.
Qed.

Lemma walk_range bits : Forall bit bits -> 0 <= walk 0 bits < 2 ^ Z.of_nat (length bits).
Proof.
  intros Hb. induction bits as [|b bits IH] using rev_ind; [change (walk 0 []) with 0; cbn; lia|].
  apply Forall_app in Hb as [Hbs [Hb _]%Forall_cons]. specialize (IH Hbs). rewrite walk_snoc, length_app. cbn [length].
  replace (Z.of_nat (length bits + 1)) with (Z.succ (Z.of_nat (length bits))) by lia. rewrite Z.pow_succ_r by lia.
  destruct Hb as [-> | ->]; lia.
Qed.

Lemma bits_of_byte_walk x : 0 <= x < 256 -> walk 0 (bits_of_byte x) = x.
Proof. intros Hx. pose proof (all_below_spec _ _ byte_bits_checked x Hx) as H. by apply Z.eqb_eq in H. Qed.

Lemma bits_of_inj l1 l2 : bytes l1 -> bytes l2 -> bits_of l1 = bits_of l2 -> l1 = l2.
Proof.
  intros H1 H2 E. assert (length l1 = length l2) as Hl.
  { pose proof (bits_of_length l1) as E1. rewrite E, bits_of_length in E1. lia. }
  revert l2 H2 E Hl. induction H1 as [|x l1 Hx H1 IH]; intros l2 H2 E Hl; destruct H2 as [|y l2 Hy H2]; try done.
  change (bits_of_byte x ++ bits_of l1 = bits_of_byte y ++ bits_of l2) in E. apply app_inj_1 in E as [Ex El]; [|done].
  rewrite <- (bits_of_byte_walk x), <- (bits_of_byte_walk y), Ex by done. f_equal. apply IH; [done|done|]. by injection Hl.
Qed.

Lemma walk_testbit l p : Forall bit l -> 0 <= p < Z.of_nat (length l) ->
  Z.testbit (walk 0 l) p = (l.[Z.of_nat (length l) - 1 - p] =? 1).
Proof.
  intros Hl. revert p. induction l as [|b l IH] using rev_ind; intros p Hp; [cbn in Hp; lia|].
  apply Forall_app in Hl as [Hl [Hb _]%Forall_cons]. rewrite walk_snoc, length_app in *. cbn [length] in *.
  assert (0 <= b < 2) as Hb2 by (destruct Hb as [-> | ->]; lia).
  destruct (decide (p = 0)) as [->|].
  - replace (Z.of_nat (length l + 1) - 1 - 0) with (Z.of_nat (length l)) by lia.
    rewrite (aget_lookup _ _ b); [|lia|rewrite Nat2Z.id; by apply list_lookup_middle].
    destruct Hb as [-> | ->]; [rewrite Z.add_0_r; apply Z.testbit_even_0|apply Z.testbit_odd_0].
  - replace p with (Z.succ (p - 1)) at 1 by lia.
    assert (Z.testbit (2 * walk 0 l + b) (Z.succ (p - 1)) = Z.testbit (walk 0 l) (p - 1)) as ->.
    { destruct Hb as [-> | ->]; [rewrite Z.add_0_r; apply Z.testbit_even_succ; lia|apply Z.testbit_odd_succ; lia]. }
    rewrite IH by (done || lia). f_equal. unfold aget. case_if; [lia|]. case_if; [lia|].
    rewrite lookup_app_l by lia. do 2 f_equal. lia.
Qed.

(** Sums over the positions of a list. *)
Definition sum (n : nat) (f : Z -> Z) : Z := foldr Z.add 0 (map f (zseq 0 n)).

Lemma sum_snoc n f : sum (S n) f = sum n f + f (Z.of_nat n).
Proof.
  unfold sum. rewrite map_zseq_snoc, foldr_app. cbn [foldr]. rewrite Z.add_0_r. generalize (f (Z.of_nat n)) as v. intros v.
  induction (map f (zseq 0 n)) as [|z l IH]; cbn [foldr]; lia.
Qed.

Lemma sum_cons n f : sum (S n) f = f 0 + sum n (fun i => f (i + 1)).
Proof. unfold sum. by rewrite map_zseq_S. Qed.

Lemma sum_ext n f g : (forall i, 0 <= i < Z.of_nat n -> f i = g i) -> sum n f = sum n g.
Proof. induction n as [|n IH]; intros H; [done|]. rewrite !sum_snoc, IH by (intros; apply H; lia). by rewrite H by lia. Qed.

Lemma sum_rev n f : sum n f = sum n (fun i => f (Z.of_nat n - 1 - i)).
Proof.
  induction n as [|n IH]; [done|]. rewrite sum_snoc, sum_cons, IH.
  replace (Z.of_nat (S n) - 1 - 0) with (Z.of_nat n) by lia. rewrite Z.add_comm. f_equal.
  apply sum_ext. intros i Hi. f_equal. lia.
Qed.

Lemma sum_zero_above n m f : (m <= n)%nat -> (forall i, Z.of_nat m <= i < Z.of_nat n -> f i = 0) -> sum n f = sum m f.
Proof.
  intros Hm H. induction n as [|n IH]; [by replace m with 0%nat by lia|]. destruct (decide (m = S n)) as [->|]; [done|].
  rewrite sum_snoc, (H (Z.of_nat n)), Z.add_0_r by lia. apply IH; [lia|]. intros. apply H. lia.
Qed.
