(* ===== verification/G711.v ===== *)
(** * G.711 companding: [gnuradio-core/src/lib/g72x/g711.c]

    A-law and u-law compression of linear PCM samples, their expansion, and
    the conversion tables between the two laws.  One definition per C
    function; the tables are those of the source. *)

From S2P Require Import Prelude.

(** ** Constants and tables *)

Definition SIGN_BIT : Z := 0x80.
Definition QUANT_MASK : Z := 0xf.
Definition NSEGS : Z := 8.
Definition SEG_SHIFT : Z := 4.
Definition SEG_MASK : Z := 0x70.
Definition BIAS : Z := 0x84.

Definition seg_end : list Z :=
  [0xFF; 0x1FF; 0x3FF; 0x7FF; 0xFFF; 0x1FFF; 0x3FFF; 0x7FFF].

Definition _u2a : list Z :=
  [1; 1; 2; 2; 3; 3; 4; 4; 5; 5; 6; 6; 7; 7; 8; 8;
   9; 10; 11; 12; 13; 14; 15; 16; 17; 18; 19; 20; 21; 22; 23; 24;
   25; 27; 29; 31; 33; 34; 35; 36; 37; 38; 39; 40; 41; 42; 43; 44;
   46; 48; 49; 50; 51; 52; 53; 54; 55; 56; 57; 58; 59; 60; 61; 62;
   64; 65; 66; 67; 68; 69; 70; 71; 72; 73; 74; 75; 76; 77; 78; 79;
   81; 82; 83; 84; 85; 86; 87; 88; 89; 90; 91; 92; 93; 94; 95; 96;
   97; 98; 99; 100; 101; 102; 103; 104; 105; 106; 107; 108; 109; 110; 111; 112;
   113; 114; 115; 116; 117; 118; 119; 120; 121; 122; 123; 124; 125; 126; 127; 128].

Definition _a2u : list Z :=
  [1; 3; 5; 7; 9; 11; 13; 15; 16; 17; 18; 19; 20; 21; 22; 23;
   24; 25; 26; 27; 28; 29; 30; 31; 32; 32; 33; 33; 34; 34; 35; 35;
   36; 37; 38; 39; 40; 41; 42; 43; 44; 45; 46; 47; 48; 48; 49; 49;
   50; 51; 52; 53; 54; 55; 56; 57; 58; 59; 60; 61; 62; 63; 64; 64;
   65; 66; 67; 68; 69; 70; 71; 72; 73; 74; 75; 76; 77; 78; 79; 79;
   80; 81; 82; 83; 84; 85; 86; 87; 88; 89; 90; 91; 92; 93; 94; 95;
   96; 97; 98; 99; 100; 101; 102; 103; 104; 105; 106; 107; 108; 109; 110; 111;
   112; 113; 114; 115; 116; 117; 118; 119; 120; 121; 122; 123; 124; 125; 126; 127].

(** ** Functions *)

(** [for (i = 0; i < size; i++) if (val <= *table++) return i; return size;] *)
Fixpoint search_from (val : Z) (table : list Z) (i : Z) : Z :=
  match table with
  | [] => i
  | t :: table' => if val <=? t then i else search_from val table' (i + 1)
  end.

Definition search (val : Z) (table : list Z) (size : Z) : Z :=
  search_from val (take (Z.to_nat size) table) 0.

Definition linear2alaw (pcm_val : Z) : Z :=
  let mask := if 0 <=? pcm_val then 0xD5 else 0x55 in
  let pcm_val := if 0 <=? pcm_val then pcm_val else - pcm_val - 8 in
  let seg := search pcm_val seg_end 8 in
  if 8 <=? seg then u8 (0x7F .^ mask)
  else
    let aval := u8 (seg << SEG_SHIFT) in
    let aval :=
      if seg <? 2 then u8 (aval .| ((pcm_val >> 4) .& QUANT_MASK))
      else u8 (aval .| ((pcm_val >> (seg + 3)) .& QUANT_MASK)) in
    u8 (aval .^ mask).

Definition alaw2linear (a_val : Z) : Z :=
  let a_val := u8 (u8 a_val .^ 0x55) in
  let t := (a_val .& QUANT_MASK) << 4 in
  let seg := (a_val .& SEG_MASK) >> SEG_SHIFT in
  let t :=
    if seg =? 0 then t + 8
    else if seg =? 1 then t + 0x108
    else (t + 0x108) << (seg - 1) in
  if ctrue (a_val .& SIGN_BIT) then t else - t.

Definition linear2ulaw (pcm_val : Z) : Z :=
  let mask := if pcm_val <? 0 then 0x7F else 0xFF in
  let pcm_val := if pcm_val <? 0 then BIAS - pcm_val else pcm_val + BIAS in
  let seg := search pcm_val seg_end 8 in
  if 8 <=? seg then u8 (0x7F .^ mask)
  else
    let uval := u8 ((seg << 4) .| ((pcm_val >> (seg + 3)) .& 0xF)) in
    u8 (uval .^ mask).

Definition ulaw2linear (u_val : Z) : Z :=
  let u_val := u8 (Z.lnot (u8 u_val)) in
  let t := ((u_val .& QUANT_MASK) << 3) + BIAS in
  let t := t << ((u_val .& SEG_MASK) >> SEG_SHIFT) in
  if ctrue (u_val .& SIGN_BIT) then BIAS - t else t - BIAS.

Definition alaw2ulaw (aval : Z) : Z :=
  let aval := u8 (u8 aval .& 0xff) in
  if ctrue (aval .& 0x80) then u8 (0xFF .^ _a2u.[aval .^ 0xD5])
  else u8 (0x7F .^ _a2u.[aval .^ 0x55]).

Definition ulaw2alaw (uval : Z) : Z :=
  let uval := u8 (u8 uval .& 0xff) in
  if ctrue (uval .& 0x80) then u8 (0xD5 .^ (_u2a.[0xFF .^ uval] - 1))
  else u8 (0x55 .^ (_u2a.[0x7F .^ uval] - 1)).

(** ** Segments

    The eight segments of both laws: segment 0 holds magnitudes up to 255 and
    segment [s > 0] those of [2^(s+7) .. 2^(s+8) - 1]. *)

Lemma search_seg_end m :
  search m seg_end 8 =
    if m <=? 0xFF then 0 else if m <=? 0x1FF then 1 else if m <=? 0x3FF then 2
    else if m <=? 0x7FF then 3 else if m <=? 0xFFF then 4 else if m <=? 0x1FFF then 5
    else if m <=? 0x3FFF then 6 else if m <=? 0x7FFF then 7 else 8.
Proof. reflexivity. Qed.

(** The magnitudes of a segment. *)
Inductive in_segment (m : Z) : Z -> Prop :=
| seg_low : 0 <= m < 256 -> in_segment m 0
| seg_high s : 1 <= s <= 7 -> 2 ^ (s + 7) <= m < 2 ^ (s + 8) -> in_segment m s.

Lemma search_in_segment m : 0 <= m <= 32767 -> in_segment m (search m seg_end 8).
Proof.
  intros Hm. rewrite search_seg_end.
  repeat (case_if; [first [apply seg_low; lia | apply seg_high; [lia|cbn; lia]]|]). lia.
Qed.

Lemma search_nonneg m : 0 <= search m seg_end 8 <= 8.
Proof. rewrite search_seg_end. repeat case_if; lia. Qed.

(** Enumerate the possible values of a small integer. *)
Ltac cases_to8 s :=
  assert (s = 0 \/ s = 1 \/ s = 2 \/ s = 3 \/ s = 4 \/ s = 5 \/ s = 6 \/ s = 7)
    as [-> | [-> | [-> | [-> | [-> | [-> | [-> | ->]]]]]]] by lia.

(** ** A-law *)

(** Width of the quantization cells of a segment, and the magnitude the
    decoder gives to cell [q] of segment [seg]. *)
Definition alaw_step (seg : Z) : Z := if seg <? 2 then 16 else 2 ^ (seg + 3).
Definition alaw_value (seg q : Z) : Z :=
  if seg =? 0 then 16 * q + 8 else (16 * q + 264) * 2 ^ (seg - 1).

Definition alaw_code (mask seg q : Z) : Z := u8 (u8 (u8 (seg << 4) .| q) .^ mask).

Lemma alaw2linear_code seg q :
  0 <= seg < 8 -> 0 <= q < 16 ->
  alaw2linear (alaw_code 0xD5 seg q) = alaw_value seg q /\
  alaw2linear (alaw_code 0x55 seg q) = - alaw_value seg q.
Proof.
  intros Hs Hq.
  assert (all_below 8 (fun s => all_below 16 (fun q =>
    (alaw2linear (alaw_code 0xD5 s q) =? alaw_value s q) &&
    (alaw2linear (alaw_code 0x55 s q) =? - alaw_value s q))) = true) as H
    by (vm_compute; reflexivity).
  pose proof (all_below_spec _ _ (all_below_spec _ _ H seg Hs) q Hq) as Hb.
  cbv beta in Hb. zbool. auto.
Qed.

(** The cell a magnitude falls in. *)
Definition alaw_cell (m seg : Z) : Z :=
  (if seg <? 2 then m >> 4 else m >> (seg + 3)) .& 0xf.

Lemma linear2alaw_code x :
  let m := if 0 <=? x then x else - x - 8 in
  let mask := if 0 <=? x then 0xD5 else 0x55 in
  let seg := search m seg_end 8 in
  seg < 8 -> linear2alaw x = alaw_code mask seg (alaw_cell m seg).
Proof.
  intros m mask seg Hseg. unfold linear2alaw, alaw_code, alaw_cell.
  fold m mask seg. destruct (Z.leb_spec 8 seg); [lia|]. case_if; reflexivity.
Qed.

Lemma alaw_cell_error m s :
  in_segment m s ->
  0 <= alaw_cell m s < 16 /\
  - (alaw_step s / 2) <= m - alaw_value s (alaw_cell m s) < alaw_step s / 2.
Proof.
  intros Hm. split; [unfold alaw_cell; case_if;
    match goal with |- context [?a .& 0xf] => pose proof (land_range a 0xf); lia end|].
  unfold alaw_cell, alaw_value, alaw_step. change 0xf with (Z.ones 4).
  assert (0 <= s < 8) as Hs by (inversion Hm; lia).
  cases_to8 s; inversion Hm; simpl in *; try lia;
    rewrite land_mask, shr_div by lia; simpl Z.pow in *; divlia.
Qed.

Lemma search_lt8 m : 0 <= m <= 32767 -> 0 <= search m seg_end 8 < 8.
Proof. intros Hm. destruct (search_in_segment m Hm); lia. Qed.

(** A-law compression rounds to the nearest level: the expanded sample
    is within half a quantization step of a nonnegative sample, and within
    half a step plus the offset 8 of the sign change of a negative one
    (samples in -7..-1 excepted, see [linear2alaw_small_negative]). *)
Theorem linear2alaw_error x :
  -32768 <= x <= 32767 -> ~ (-8 < x < 0) ->
  let seg := search (if 0 <=? x then x else - x - 8) seg_end 8 in
  let err := alaw2linear (linear2alaw x) - x in
  if 0 <=? x then Z.abs err <= alaw_step seg / 2
  else Z.abs err < alaw_step seg / 2 + 8.
Proof.
  intros Hx Hs. cbv zeta. destruct (Z.leb_spec 0 x);
    match goal with |- context [search ?m seg_end 8] => set (m0 := m) in *;
      pose proof (search_lt8 m0 ltac:(lia)) as Hr;
      pose proof (linear2alaw_code x) as Hc; cbv zeta in Hc;
      destruct (alaw_cell_error m0 _ (search_in_segment m0 ltac:(lia))) as [Hq He];
      pose proof (alaw2linear_code _ _ Hr Hq) as [Hv1 Hv2]
    end.
  - destruct (Z.leb_spec 0 x); [|lia]. fold m0 in Hc. rewrite Hc, Hv1 by lia. lia.
  - destruct (Z.leb_spec 0 x); [lia|]. fold m0 in Hc. rewrite Hc, Hv2 by lia. lia.
Qed.

Lemma linear2alaw_error_witness :
  linear2alaw 1000 = 0xFA /\ Z.abs (alaw2linear (linear2alaw 1000) - 1000) <= 16.
Proof. split; [reflexivity|]. apply (linear2alaw_error 1000); lia. Defined.

(** The A-law compressor treats every negative sample above -8 wrongly:
    its magnitude [- pcm_val - 8] is negative, the arithmetic shift fills the
    quantization bits with ones, and the sample is expanded to -248, the top
    of the first segment, instead of a value near zero. *)
Theorem linear2alaw_small_negative x : -8 < x < 0 -> alaw2linear (linear2alaw x) = -248.
Proof.
  intros Hx. assert (x = -1 \/ x = -2 \/ x = -3 \/ x = -4 \/ x = -5 \/ x = -6 \/ x = -7)
    as Hc by lia.
  repeat destruct Hc as [-> | Hc]; try subst x; reflexivity.
Qed.

Lemma linear2alaw_small_negative_witness : alaw2linear (linear2alaw (-1)) = -248.
Proof. apply (linear2alaw_small_negative (-1)). lia. Defined.

Lemma linear2alaw_range x : 0 <= linear2alaw x < 256.
Proof. unfold linear2alaw. case_if; apply u8_range. Qed.

(** ** u-law *)

Definition ulaw_value (seg q : Z) : Z := (8 * q + 132) * 2 ^ seg - 132.
Definition ulaw_code (mask seg q : Z) : Z := u8 (u8 ((seg << 4) .| q) .^ mask).
Definition ulaw_cell (m seg : Z) : Z := (m >> (seg + 3)) .& 0xF.

Lemma ulaw2linear_code seg q :
  0 <= seg < 8 -> 0 <= q < 16 ->
  ulaw2linear (ulaw_code 0xFF seg q) = ulaw_value seg q /\
  ulaw2linear (ulaw_code 0x7F seg q) = - ulaw_value seg q.
Proof.
  intros Hs Hq.
  assert (all_below 8 (fun s => all_below 16 (fun q =>
    (ulaw2linear (ulaw_code 0xFF s q) =? ulaw_value s q) &&
    (ulaw2linear (ulaw_code 0x7F s q) =? - ulaw_value s q))) = true) as H
    by (vm_compute; reflexivity).
  pose proof (all_below_spec _ _ (all_below_spec _ _ H seg Hs) q Hq) as Hb.
  cbv beta in Hb. zbool. auto.
Qed.

Lemma linear2ulaw_code x :
  let m := if x <? 0 then BIAS - x else x + BIAS in
  let mask := if x <? 0 then 0x7F else 0xFF in
  let seg := search m seg_end 8 in
  seg < 8 -> linear2ulaw x = ulaw_code mask seg (ulaw_cell m seg).
Proof.
  intros m mask seg Hseg. unfold linear2ulaw, ulaw_code, ulaw_cell.
  fold m mask seg. destruct (Z.leb_spec 8 seg); [lia|]. reflexivity.
Qed.

Lemma ulaw_cell_error m s :
  in_segment m s -> 132 <= m ->
  0 <= ulaw_cell m s < 16 /\
  - 2 ^ (s + 2) <= m - 132 - ulaw_value s (ulaw_cell m s) < 2 ^ (s + 2).
Proof.
  intros Hm Hb. split.
  { unfold ulaw_cell. pose proof (land_range (m >> (s + 3)) 0xF). lia. }
  unfold ulaw_cell, ulaw_value. change 0xF with (Z.ones 4).
  assert (0 <= s < 8) as Hs by (inversion Hm; lia).
  cases_to8 s; inversion Hm; simpl in *; try lia;
    rewrite land_mask, shr_div by lia; simpl Z.pow in *; divlia.
Qed.

(** Expanding a byte and compressing it again gives the byte back, for
    all 256 A-law bytes and all u-law bytes except 0x7F, whose value -0 comes
    back as the byte 0xFF of +0. *)
Theorem companding_roundtrip c :
  0 <= c < 256 ->
  linear2alaw (alaw2linear c) = c /\
  linear2ulaw (ulaw2linear c) = if c =? 0x7F then 0xFF else c.
Proof.
  revert c. refine (all_below_decide 256 _ _). vm_compute. reflexivity.
Qed.

Lemma companding_roundtrip_witness :
  linear2alaw (alaw2linear 0x80) = 0x80 /\ linear2ulaw (ulaw2linear 0x80) = 0x80.
Proof. apply (companding_roundtrip 0x80). lia. Defined.

(** u-law compression rounds to the nearest decision level and
    saturates: up to the clipping point 32635 the expanded sample is within
    half a quantization step (a step is [8 * 2^seg]) of the original, and any
    larger magnitude expands to the extreme value 32124 with the right
    sign. *)
Theorem linear2ulaw_error x :
  let m := Z.abs x + BIAS in
  let seg := search m seg_end 8 in
  let out := ulaw2linear (linear2ulaw x) in
  (Z.abs x <= 32635 -> Z.abs (out - x) <= 2 ^ (seg + 2)) /\
  (32635 < x -> out = 32124) /\ (x < -32635 -> out = -32124).
Proof.
  cbv zeta. assert (Hm : (if x <? 0 then BIAS - x else x + BIAS) = Z.abs x + BIAS)
    by (case_if; unfold BIAS; lia).
  unfold BIAS in *. split; [|split].
  - intros Hx. pose proof (search_lt8 (Z.abs x + 0x84) ltac:(lia)) as Hr.
    destruct (ulaw_cell_error _ _ (search_in_segment (Z.abs x + 0x84) ltac:(lia))
      ltac:(lia)) as [Hq He].
    pose proof (ulaw2linear_code _ _ Hr Hq) as [Hv1 Hv2].
    pose proof (linear2ulaw_code x) as Hc. cbv zeta in Hc. unfold BIAS in Hc.
    rewrite Hm in Hc. rewrite Hc by lia. case_if; rewrite ?Hv1, ?Hv2; lia.
  - intros Hx. unfold linear2ulaw, BIAS. rewrite Hm, search_seg_end.
    repeat case_if; try lia. reflexivity.
  - intros Hx. unfold linear2ulaw, BIAS. rewrite Hm, search_seg_end.
    repeat case_if; try lia. reflexivity.
Qed.

Lemma linear2ulaw_range x : 0 <= linear2ulaw x < 256.
Proof. unfold linear2ulaw. case_if; apply u8_range. Qed.

#[export] Hint Resolve linear2alaw_range linear2ulaw_range : cint.

(** ** Transcoding *)

(** Converting an A-law byte to u-law through the table keeps the sample
    (the two expansions differ by at most a sixteenth of the magnitude), and
    so does converting a u-law byte to A-law, up to the half step of the
    first A-law segment. *)
Theorem transcoding_error c :
  0 <= c < 256 ->
  16 * Z.abs (ulaw2linear (alaw2ulaw c) - alaw2linear c) <= Z.abs (alaw2linear c) /\
  16 * Z.abs (alaw2linear (ulaw2alaw c) - ulaw2linear c) <= Z.abs (ulaw2linear c) + 128.
Proof.
  intros Hc.
  assert (all_below 256 (fun c =>
    (16 * Z.abs (ulaw2linear (alaw2ulaw c) - alaw2linear c) <=? Z.abs (alaw2linear c)) &&
    (16 * Z.abs (alaw2linear (ulaw2alaw c) - ulaw2linear c)
       <=? Z.abs (ulaw2linear c) + 128)) = true) as H by (vm_compute; reflexivity).
  pose proof (all_below_spec _ _ H c Hc) as Hb. cbv beta in Hb. zbool. auto.
Qed.

Lemma transcoding_error_witness :
  ulaw2linear (alaw2ulaw 0xD5) = 8 /\
  16 * Z.abs (ulaw2linear (alaw2ulaw 0xD5) - alaw2linear 0xD5)
    <= Z.abs (alaw2linear 0xD5).
Proof. split; [reflexivity|]. apply (transcoding_error 0xD5). lia. Defined.
