(* ===== verification/G72x.v ===== *)
(** * Common part of the G.721 and G.723 coders: [g72x/g72x.c], [g72x/g72x.h]

    The ADPCM state, the adaptive predictor, the adaptive quantizer and the
    tandem adjustment.  A C [short] is converted with [s16] at every
    assignment; an [int] is a [Z]. *)

From S2P Require Import Prelude G711.

Definition AUDIO_ENCODING_ULAW : Z := 1.
Definition AUDIO_ENCODING_ALAW : Z := 2.
Definition AUDIO_ENCODING_LINEAR : Z := 3.

(** [struct g72x_state]; the arrays have 2, 6, 2, 6 and 2 elements. *)
Record g72x_state := {
  st_yl : Z;
  st_yu : Z;
  st_dms : Z;
  st_dml : Z;
  st_ap : Z;
  st_a : list Z;
  st_b : list Z;
  st_pk : list Z;
  st_dq : list Z;
  st_sr : list Z;
  st_td : Z
}.

Definition power2 : list Z :=
  [1; 2; 4; 8; 0x10; 0x20; 0x40; 0x80;
   0x100; 0x200; 0x400; 0x800; 0x1000; 0x2000; 0x4000].

(** [for (i = 0; i < size; i++) if (val < *table++) break; return i;] *)
Fixpoint quan_from (val : Z) (table : list Z) (i : Z) : Z :=
  match table with
  | [] => i
  | t :: table' => if val <? t then i else quan_from val table' (i + 1)
  end.

Definition quan (val : Z) (table : list Z) (size : Z) : Z :=
  quan_from val (take (Z.to_nat size) table) 0.

Definition fmult (an srn : Z) : Z :=
  let anmag := s16 (if 0 <? an then an else (- an) .& 0x1FFF) in
  let anexp := s16 (quan anmag power2 15 - 6) in
  let anmant := s16 (if anmag =? 0 then 32
                     else if 0 <=? anexp then anmag >> anexp
                     else anmag << (- anexp)) in
  let wanexp := s16 (anexp + ((srn >> 6) .& 0xF) - 13) in
  let wanmant := s16 ((anmant * (srn .& 63) + 0x30) >> 4) in
  let retval := s16 (if 0 <=? wanexp then (wanmant << wanexp) .& 0x7FFF
                     else wanmant >> (- wanexp)) in
  if (an .^ srn) <? 0 then - retval else retval.

Definition g72x_init_state : g72x_state :=
  {| st_yl := 34816; st_yu := 544; st_dms := 0; st_dml := 0; st_ap := 0;
     st_a := [0; 0]; st_b := [0; 0; 0; 0; 0; 0]; st_pk := [0; 0];
     st_dq := [32; 32; 32; 32; 32; 32]; st_sr := [32; 32]; st_td := 0 |}.

(** [sezi = fmult(b[0] >> 2, dq[0]); for (i = 1; i < 6; i++) sezi += ...] *)
Definition predictor_zero (st : g72x_state) : Z :=
  fold_left (fun sezi i => sezi + fmult ((st_b st).[i] >> 2) ((st_dq st).[i]))
    [1; 2; 3; 4; 5]
    (fmult ((st_b st).[0] >> 2) ((st_dq st).[0])).

Definition predictor_pole (st : g72x_state) : Z :=
  fmult ((st_a st).[1] >> 2) ((st_sr st).[1])
  + fmult ((st_a st).[0] >> 2) ((st_sr st).[0]).

Definition step_size (st : g72x_state) : Z :=
  if 256 <=? st_ap st then st_yu st
  else
    let y := st_yl st >> 6 in
    let dif := st_yu st - y in
    let al := st_ap st >> 2 in
    if 0 <? dif then y + ((dif * al) >> 6)
    else if dif <? 0 then y + ((dif * al + 0x3F) >> 6)
    else y.

Definition quantize (d y : Z) (table : list Z) (size : Z) : Z :=
  (* LOG *)
  let dqm := s16 (Z.abs d) in
  let exp := s16 (quan (dqm >> 1) power2 15) in
  let mant := s16 (((dqm << 7) >> exp) .& 0x7F) in
  let dl := s16 ((exp << 7) + mant) in
  (* SUBTB *)
  let dln := s16 (dl - (y >> 2)) in
  (* QUAN *)
  let i := quan dln table size in
  if d <? 0 then (size << 1) + 1 - i
  else if i =? 0 then (size << 1) + 1
  else i.

Definition reconstruct (sign dqln y : Z) : Z :=
  let dql := s16 (dqln + (y >> 2)) in
  if dql <? 0 then (if ctrue sign then - 0x8000 else 0)
  else
    let dex := s16 ((dql >> 7) .& 15) in
    let dqt := s16 (128 + (dql .& 127)) in
    let dq := s16 ((dqt << 7) >> (14 - dex)) in
    if ctrue sign then dq - 0x8000 else dq.

(** ** [update], in the order of its sections *)

(** TRANS: the transition detector [tr]. *)
Definition update_tr (st : g72x_state) (mag : Z) : Z :=
  let ylint := s16 (st_yl st >> 15) in
  let ylfrac := s16 ((st_yl st >> 10) .& 0x1F) in
  let thr1 := s16 ((32 + ylfrac) << ylint) in
  let thr2 := s16 (if 9 <? ylint then 31 << 10 else thr1) in
  let dqthr := s16 ((thr2 + (thr2 >> 1)) >> 1) in
  if st_td st =? 0 then 0 else if mag <=? dqthr then 0 else 1.

(** FUNCTW & FILTD & LIMB: the new [yu]. *)
Definition update_yu (y wi : Z) : Z :=
  let yu := s16 (y + ((wi - y) >> 5)) in
  if yu <? 544 then 544 else if 5120 <? yu then 5120 else yu.

(** FILTE: the new [yl]. *)
Definition update_yl (yl yu : Z) : Z := yl + (yu + ((- yl) >> 6)).

(** UPA2 & LIMC: the new value of [a[1]]. *)
Definition update_a2p (st : g72x_state) (dqsez pk0 pks1 : Z) : Z :=
  let a0 := (st_a st).[0] in
  let a1 := (st_a st).[1] in
  let a2p := s16 (a1 - (a1 >> 7)) in
  if dqsez =? 0 then a2p
  else
    let fa1 := s16 (if ctrue pks1 then a0 else - a0) in
    let a2p :=
      if fa1 <? - 8191 then s16 (a2p - 0x100)
      else if 8191 <? fa1 then s16 (a2p + 0xFF)
      else s16 (a2p + (fa1 >> 5)) in
    if ctrue (pk0 .^ (st_pk st).[1]) then
      if a2p <=? - 12160 then - 12288
      else if 12416 <=? a2p then 12288
      else s16 (a2p - 0x80)
    else if a2p <=? - 12416 then - 12288
    else if 12160 <=? a2p then 12288
    else s16 (a2p + 0x80).

(** UPA1 & LIMD: the new value of [a[0]]. *)
Definition update_a1p (st : g72x_state) (dqsez pks1 a2p : Z) : Z :=
  let a0 := (st_a st).[0] in
  let a0 := s16 (a0 - (a0 >> 8)) in
  let a0 := if dqsez =? 0 then a0
            else if pks1 =? 0 then s16 (a0 + 192) else s16 (a0 - 192) in
  let a1ul := s16 (15360 - a2p) in
  if a0 <? - a1ul then s16 (- a1ul) else if a1ul <? a0 then a1ul else a0.

(** UPB: the new value of one predictor zero. *)
Definition update_b1 (code_size dq b dqc : Z) : Z :=
  let b := s16 (if code_size =? 5 then b - (b >> 9) else b - (b >> 8)) in
  if ctrue (dq .& 0x7FFF) then
    if 0 <=? dq .^ dqc then s16 (b + 128) else s16 (b - 128)
  else b.

(** [for (cnt = 0; cnt < 6; cnt++) ...] *)
Definition update_b (code_size dq : Z) (st : g72x_state) : list Z :=
  zip_with (update_b1 code_size dq) (st_b st) (st_dq st).

(** FLOAT A. *)
Definition update_dq0 (dq mag : Z) : Z :=
  if mag =? 0 then s16 (if 0 <=? dq then 0x20 else 0xFC20)
  else
    let exp := s16 (quan mag power2 15) in
    s16 (if 0 <=? dq then (exp << 6) + ((mag << 6) >> exp)
         else (exp << 6) + ((mag << 6) >> exp) - 0x400).

(** FLOAT B. *)
Definition update_sr0 (sr : Z) : Z :=
  if sr =? 0 then 0x20
  else if 0 <? sr then
    let exp := s16 (quan sr power2 15) in
    s16 ((exp << 6) + ((sr << 6) >> exp))
  else if - 32768 <? sr then
    let mag := s16 (- sr) in
    let exp := s16 (quan mag power2 15) in
    s16 ((exp << 6) + ((mag << 6) >> exp) - 0x400)
  else s16 0xFC20.

(** Adaptation speed control. *)
Definition update_ap (ap tr y td dms dml : Z) : Z :=
  if tr =? 1 then 256
  else if y <? 1536 then s16 (ap + ((0x200 - ap) >> 4))
  else if td =? 1 then s16 (ap + ((0x200 - ap) >> 4))
  else if (dml >> 3) <=? Z.abs ((dms << 2) - dml) then s16 (ap + ((0x200 - ap) >> 4))
  else s16 (ap + ((- ap) >> 4)).

Definition update (code_size y wi fi dq sr dqsez : Z) (st : g72x_state) : g72x_state :=
  let pk0 := if dqsez <? 0 then 1 else 0 in
  let mag := s16 (dq .& 0x7FFF) in
  let tr := update_tr st mag in
  let yu := update_yu y wi in
  let yl := update_yl (st_yl st) yu in
  let pks1 := s16 (pk0 .^ (st_pk st).[0]) in
  let a2p := if tr =? 1 then 0 else update_a2p st dqsez pk0 pks1 in
  let a := if tr =? 1 then [0; 0] else [update_a1p st dqsez pks1 a2p; a2p] in
  let b := if tr =? 1 then [0; 0; 0; 0; 0; 0] else update_b code_size dq st in
  let td := if tr =? 1 then 0 else if a2p <? - 11776 then 1 else 0 in
  let dms := s16 (st_dms st + ((fi - st_dms st) >> 5)) in
  let dml := s16 (st_dml st + (((fi << 2) - st_dml st) >> 7)) in
  {| st_yl := yl;
     st_yu := yu;
     st_dms := dms;
     st_dml := dml;
     st_ap := update_ap (st_ap st) tr y td dms dml;
     st_a := a;
     st_b := b;
     st_pk := [pk0; (st_pk st).[0]];
     st_dq := update_dq0 dq mag :: take 5 (st_dq st);
     st_sr := [update_sr0 sr; (st_sr st).[0]];
     st_td := td |}.

(** ** Tandem adjustment *)

Definition tandem_adjust_alaw (sr se y i sign : Z) (qtab : list Z) : Z :=
  let sr := if sr <=? - 32768 then - 1 else sr in
  let sp := linear2alaw ((sr >> 1) << 3) in
  let dx := s16 ((alaw2linear sp >> 2) - se) in
  let id := s8 (quantize dx y qtab (sign - 1)) in
  if id =? i then sp
  else
    let im := i .^ sign in
    let imx := id .^ sign in
    if im <? imx then
      if ctrue (sp .& 0x80) then
        (if sp =? 0xD5 then 0x55 else ((sp .^ 0x55) - 1) .^ 0x55)
      else (if sp =? 0x2A then 0x2A else ((sp .^ 0x55) + 1) .^ 0x55)
    else
      if ctrue (sp .& 0x80) then
        (if sp =? 0xAA then 0xAA else ((sp .^ 0x55) + 1) .^ 0x55)
      else (if sp =? 0x55 then 0xD5 else ((sp .^ 0x55) - 1) .^ 0x55).

Definition tandem_adjust_ulaw (sr se y i sign : Z) (qtab : list Z) : Z :=
  let sr := if sr <=? - 32768 then 0 else sr in
  let sp := linear2ulaw (sr << 2) in
  let dx := s16 ((ulaw2linear sp >> 2) - se) in
  let id := s8 (quantize dx y qtab (sign - 1)) in
  if id =? i then sp
  else
    let im := i .^ sign in
    let imx := id .^ sign in
    if im <? imx then
      if ctrue (sp .& 0x80) then (if sp =? 0xFF then 0x7E else sp + 1)
      else (if sp =? 0 then 0 else sp - 1)
    else
      if ctrue (sp .& 0x80) then (if sp =? 0x80 then 0x80 else sp - 1)
      else (if sp =? 0x7F then 0xFE else sp + 1).

(** ** Arithmetic of the pieces *)

Ltac shifts := rewrite ?shr_div, ?shl_mul by lia; norm_pow.

Lemma quan_from_bounds val table i :
  i <= quan_from val table i <= i + Z.of_nat (length table).
Proof.
  revert i. induction table as [|t table IH]; intros i; simpl; [lia|].
  case_if; [lia|]. specialize (IH (i + 1)). lia.
Qed.

Lemma quan_bounds val table size : 0 <= size -> 0 <= quan val table size <= size.
Proof.
  intros Hs. unfold quan. pose proof (quan_from_bounds val (take (Z.to_nat size) table) 0) as H.
  rewrite length_take in H. lia.
Qed.

Lemma quan_power2 m :
  quan m power2 15 =
    if m <? 1 then 0 else if m <? 2 then 1 else if m <? 4 then 2 else if m <? 8 then 3
    else if m <? 16 then 4 else if m <? 32 then 5 else if m <? 64 then 6
    else if m <? 128 then 7 else if m <? 256 then 8 else if m <? 512 then 9
    else if m <? 1024 then 10 else if m <? 2048 then 11 else if m <? 4096 then 12
    else if m <? 8192 then 13 else if m <? 16384 then 14 else 15.
Proof. reflexivity. Qed.

(** Internal floating point format of the predictor memory: a 4-bit exponent
    above a normalized 6-bit mantissa, minus 1024 for a negative number. *)
Definition float_ok (x : Z) : Prop := -1024 <= x <= 1023 /\ 32 <= x mod 64.

Definition floated (m : Z) : Z := (quan m power2 15 << 6) + ((m << 6) >> quan m power2 15).

Lemma floated_ok m : 1 <= m <= 32767 -> 0 <= floated m <= 1023 /\ 32 <= floated m mod 64.
Proof.
  intros Hm. unfold floated. rewrite quan_power2.
  repeat (case_if; [shifts; divlia|]); shifts; divlia.
Qed.

Lemma float_ok_small x : float_ok x -> s16 x = x.
Proof. intros [? _]. apply s16_id. lia. Qed.

Lemma quan_power2_s16 m : s16 (quan m power2 15) = quan m power2 15.
Proof. pose proof (quan_bounds m power2 15 ltac:(lia)). apply s16_id. lia. Qed.

Lemma update_dq0_ok dq : float_ok (update_dq0 dq (dq .& 0x7FFF)).
Proof.
  unfold update_dq0. rewrite quan_power2_s16.
  pose proof (land_range dq 0x7FFF ltac:(lia)).
  destruct (Z.eqb_spec (dq .& 0x7FFF) 0) as [_|Hn].
  - case_if; vm_compute; intuition discriminate.
  - fold (floated (dq .& 0x7FFF)).
    destruct (floated_ok (dq .& 0x7FFF) ltac:(lia)) as [Hr Hm].
    unfold float_ok. case_if; rewrite s16_id by lia; [lia|].
    replace (floated (dq .& 0x7FFF) - 0x400) with (floated (dq .& 0x7FFF) + (-16) * 64) by lia.
    rewrite Z.mod_add by lia. lia.
Qed.

Lemma update_sr0_ok sr : -32768 <= sr <= 32767 -> float_ok (update_sr0 sr).
Proof.
  intros Hs. unfold update_sr0. rewrite !quan_power2_s16.
  destruct (Z.eqb_spec sr 0); [vm_compute; intuition discriminate|].
  destruct (Z.ltb_spec 0 sr).
  - fold (floated sr). destruct (floated_ok sr ltac:(lia)). unfold float_ok.
    rewrite s16_id by lia. lia.
  - destruct (Z.ltb_spec (- 32768) sr); [|vm_compute; intuition discriminate].
    rewrite (s16_id (- sr)) by lia. fold (floated (- sr)).
    destruct (floated_ok (- sr) ltac:(lia)). unfold float_ok.
    rewrite s16_id by lia. split; [lia|].
    replace (floated (- sr) - 0x400) with (floated (- sr) + (-16) * 64) by lia.
    rewrite Z.mod_add by lia. lia.
Qed.

(** ** The state invariant *)

Definition bit (x : Z) : Prop := x = 0 \/ x = 1.

Record wf (st : g72x_state) : Prop := {
  wf_yl : 34816 <= st_yl st <= 327680;
  wf_yu : 544 <= st_yu st <= 5120;
  wf_dms : 0 <= st_dms st <= 3584;
  wf_dml : 0 <= st_dml st <= 14336;
  wf_ap : 0 <= st_ap st <= 512;
  wf_a : exists a0 a1, st_a st = [a0; a1] /\ -12288 <= a1 <= 12288 /\
           -15360 + a1 <= a0 <= 15360 - a1;
  wf_b : length (st_b st) = 6%nat /\ Forall (fun b => -32768 <= b <= 32767) (st_b st);
  wf_pk : exists p0 p1, st_pk st = [p0; p1] /\ bit p0 /\ bit p1;
  wf_dq : length (st_dq st) = 6%nat /\ Forall float_ok (st_dq st);
  wf_sr : length (st_sr st) = 2%nat /\ Forall float_ok (st_sr st);
  wf_td : bit (st_td st)
}.

Lemma g72x_init_state_wf : wf g72x_init_state.
Proof.
  split; simpl; try lia; try (split; [done|]); try (eexists _, _; split; [done|]);
    try (repeat constructor; vm_compute; intuition discriminate);
    unfold bit; try lia.
Qed.

Lemma step_size_range st : wf st -> 544 <= step_size st <= 5120.
Proof.
  intros W. destruct W. unfold step_size. case_if; [lia|]. cbv zeta. shifts.
  assert (0 <= st_ap st / 4 <= 63) by divlia.
  assert (544 <= st_yl st / 64 <= 5120) by divlia.
  set (y := st_yl st / 64) in *. set (al := st_ap st / 4) in *.
  assert (exists d, d = st_yu st - y) as [d Hd] by eauto. rewrite <- Hd.
  clearbody y al. repeat case_if; [| |lia].
  - assert (0 <= d * al <= d * 64) as Hp by nia.
    revert Hp. generalize (d * al). intros p Hp. divlia.
  - assert (d * 64 <= d * al <= 0) as Hp by nia.
    revert Hp. generalize (d * al). intros p Hp. divlia.
Qed.

Lemma update_yu_range y wi : 544 <= update_yu y wi <= 5120.
Proof. unfold update_yu. repeat case_if; lia. Qed.

Lemma update_yl_range yl yu :
  34816 <= yl <= 327680 -> 544 <= yu <= 5120 -> 34816 <= update_yl yl yu <= 327680.
Proof. intros. unfold update_yl. shifts. divlia. Qed.

Lemma update_ap_range ap tr y td dms dml : 0 <= ap <= 512 -> 0 <= update_ap ap tr y td dms dml <= 512.
Proof.
  intros. unfold update_ap. shifts.
  repeat case_if; try lia; rewrite s16_id; divlia.
Qed.

Lemma update_a2p_range st dqsez pk0 pks1 :
  wf st -> -12288 <= update_a2p st dqsez pk0 pks1 <= 12288.
Proof.
  intros W. destruct (wf_a _ W) as (a0 & a1 & Ha & H1 & H0).
  unfold update_a2p. rewrite Ha. change [a0; a1].[0] with a0. change [a0; a1].[1] with a1.
  cbv zeta. shifts. rewrite (s16_id (a1 - a1 / 128)) by divlia.
  case_if; [divlia|].
  set (fa1 := if ctrue pks1 then a0 else - a0).
  assert (-27648 <= fa1 <= 27648) by (subst fa1; case_if; lia). clearbody fa1.
  rewrite (s16_id fa1) by lia.
  set (t := if fa1 <? - 8191 then _ else _).
  assert (-12600 <= t <= 12600) by (subst t; repeat case_if; rewrite s16_id; divlia).
  clearbody t. repeat case_if; rewrite ?s16_id; lia.
Qed.

Lemma update_a1p_range st dqsez pks1 a2p :
  wf st -> -12288 <= a2p <= 12288 ->
  -15360 + a2p <= update_a1p st dqsez pks1 a2p <= 15360 - a2p.
Proof.
  intros W Hp. destruct (wf_a _ W) as (a0 & a1 & Ha & H1 & H0).
  unfold update_a1p. rewrite Ha. change [a0; a1].[0] with a0. cbv zeta.
  rewrite (s16_id (15360 - a2p)) by lia.
  rewrite (s16_id (- (15360 - a2p))) by lia.
  repeat case_if; lia.
Qed.

Lemma update_b1_range cs dq b dqc : -32768 <= update_b1 cs dq b dqc <= 32767.
Proof. unfold update_b1. repeat case_if; apply s16_range. Qed.

Lemma update_b_ok cs dq st :
  wf st -> length (update_b cs dq st) = 6%nat /\
           Forall (fun b => -32768 <= b <= 32767) (update_b cs dq st).
Proof.
  intros W. destruct (wf_b _ W) as [Hb _]. destruct (wf_dq _ W) as [Hd _].
  unfold update_b. split.
  - rewrite length_zip_with, Hb, Hd. done.
  - apply Forall_zip_with_fst with (P := fun _ => True); [by apply Forall_true|].
    apply Forall_true. intros. apply update_b1_range.
Qed.

(** The invariant is preserved by [update] for any difference signal. *)
Lemma update_wf cs y wi fi dq sr dqsez st :
  wf st -> 0 <= fi <= 3584 -> -32768 <= sr <= 32767 ->
  wf (update cs y wi fi dq sr dqsez st).
Proof.
  intros W Hfi Hsr. pose proof W as W'.
  destruct W' as [? ? ? ? ? Ha Hb Hpk [Hdl Hdf] [Hsl Hsf] Htd].
  pose proof (land_range dq 0x7FFF ltac:(lia)) as Hmag.
  unfold update. rewrite (s16_id (dq .& 0x7FFF)) by lia.
  set (tr := update_tr st _). set (pk0 := if dqsez <? 0 then 1 else 0).
  assert (bit pk0) by (subst pk0; unfold bit; case_if; lia).
  set (pks1 := s16 (pk0 .^ (st_pk st).[0])).
  set (a2p := if tr =? 1 then 0 else update_a2p st dqsez pk0 pks1).
  assert (-12288 <= a2p <= 12288)
    by (subst a2p; case_if; [lia|by apply update_a2p_range]).
  pose proof (update_a1p_range st dqsez pks1 a2p W ltac:(lia)).
  split; simpl.
  - apply update_yl_range; [done|apply update_yu_range].
  - apply update_yu_range.
  - shifts. rewrite s16_id; divlia.
  - shifts. rewrite s16_id; divlia.
  - by apply update_ap_range.
  - case_if; eexists _, _; (split; [done|]); lia.
  - case_if; [split; [done|repeat constructor; lia]|by apply update_b_ok].
  - destruct Hpk as (p0 & p1 & -> & ? & ?). by exists pk0, p0.
  - split; [rewrite length_take; lia|]. constructor; [apply update_dq0_ok|].
    by apply Forall_take.
  - split; [done|]. constructor; [by apply update_sr0_ok|].
    constructor; [|done]. apply aget_Forall; [done|lia].
  - unfold bit. repeat case_if; lia.
Qed.

(** ** Quantizer and reconstruction *)

Lemma quantize_range d y table size :
  0 <= size -> 1 <= quantize d y table size <= 2 * size + 1.
Proof.
  intros Hs. unfold quantize. cbv zeta.
  match goal with |- context [quan ?v table size] =>
    pose proof (quan_bounds v table size Hs) as Hq; generalize dependent (quan v table size)
  end.
  intros q Hq. shifts. repeat case_if; lia.
Qed.

(** The codeword carries the sign of the difference in its top half. *)
Lemma quantize_sign d y table size :
  0 <= size -> d < 0 -> size < quantize d y table size.
Proof.
  intros Hs Hd. unfold quantize. cbv zeta.
  match goal with |- context [quan ?v table size] =>
    pose proof (quan_bounds v table size Hs) as Hq; generalize dependent (quan v table size)
  end.
  intros q Hq. shifts. repeat case_if; lia.
Qed.

(** Both routines see the step size through [y >> 2] only. *)
Lemma quantize_step d y y' table size :
  y >> 2 = y' >> 2 -> quantize d y table size = quantize d y' table size.
Proof. intros Hy. unfold quantize. by rewrite Hy. Qed.

Lemma reconstruct_step sign dqln y y' :
  y >> 2 = y' >> 2 -> reconstruct sign dqln y = reconstruct sign dqln y'.
Proof. intros Hy. unfold reconstruct. by rewrite Hy. Qed.

(** Magnitude of the reconstructed difference for [bits] (14 or 15): the
    exponent stays at most 14, so the antilog shift count is never negative,
    and the negative result is the magnitude with the sign bit of a 16-bit
    word set. *)
Lemma reconstruct_signed dqln y :
  -2048 <= dqln <= 566 -> 544 <= y <= 5120 ->
  let m := reconstruct 0 dqln y in
  0 <= m < 32768 /\ (dqln <= 425 -> m < 16384) /\
  (forall sign, sign <> 0 -> reconstruct sign dqln y = m - 0x8000) /\
  (0 <= dqln + (y >> 2) -> ((dqln + (y >> 2)) >> 7) .& 15 <= 14).
Proof.
  intros Hd Hy. cbv zeta. unfold reconstruct. cbv zeta.
  assert (136 <= y >> 2 <= 1280) as Hy4 by (shifts; divlia).
  rewrite (s16_id (dqln + (y >> 2))) by lia.
  destruct (Z.ltb_spec (dqln + (y >> 2)) 0) as [|Hp]; change (ctrue 0) with false; cbv iota.
  { split; [lia|split; [lia|split; [|intros; lia]]]. intros sign Hs.
    apply ctrue_spec in Hs. by rewrite Hs. }
  assert (exists dql, dql = dqln + (y >> 2)) as [dql Hq] by eauto. rewrite <- Hq in *.
  change 15 with (Z.ones 4). change 127 with (Z.ones 7).
  rewrite !land_mask, !(shr_div dql) by lia. norm_pow.
  assert ((dql / 128) mod 16 = dql / 128) as -> by divlia.
  assert (0 <= dql / 128 <= 14 /\ (dqln <= 425 -> dql / 128 <= 13)) as [Hx Hx'] by divlia.
  assert (0 <= dql mod 128 < 128) as Hr by divlia.
  generalize dependent (dql mod 128). generalize dependent (dql / 128). intros x Hx Hx' r Hr.
  rewrite (s16_id x), (s16_id (128 + r)) by lia.
  assert (0 <= ((128 + r) << 7) >> (14 - x) < 32768 /\
          (x <= 13 -> ((128 + r) << 7) >> (14 - x) < 16384)) as [Hm Hm'].
  { assert (x = 0 \/ x = 1 \/ x = 2 \/ x = 3 \/ x = 4 \/ x = 5 \/ x = 6 \/ x = 7 \/ x = 8 \/
            x = 9 \/ x = 10 \/ x = 11 \/ x = 12 \/ x = 13 \/ x = 14) as Hc by lia.
    repeat destruct Hc as [-> | Hc]; try subst x; simpl (14 - _);
      rewrite ?Z.shiftr_0_r; shifts; divlia. }
  rewrite s16_id by lia. split; [lia|split; [intros Hb; apply Hm', Hx', Hb|split; [|lia]]].
  intros sign Hs. apply ctrue_spec in Hs. by rewrite Hs.
Qed.

(** The reconstructed signal: adding the difference in 16-bit sign-magnitude
    form, whose magnitude the caller extracts with [mask]. *)
Lemma add_difference se sign dqln y k :
  -2048 <= dqln <= 566 -> 544 <= y <= 5120 -> 14 <= k <= 15 ->
  (k = 14 -> dqln <= 425) ->
  let dq := s16 (reconstruct sign dqln y) in
  (if dq <? 0 then se - (dq .& Z.ones k) else se + dq) =
  (if ctrue sign then se - reconstruct 0 dqln y else se + reconstruct 0 dqln y).
Proof.
  intros Hd Hy Hk Hk14. cbv zeta.
  destruct (reconstruct_signed dqln y Hd Hy) as (Hm & Hm14 & Hn & _). norm_pow.
  destruct (ctrue sign) eqn:Hs.
  - apply ctrue_spec in Hs. rewrite (Hn sign Hs). rewrite s16_id by lia.
    destruct (Z.ltb_spec (reconstruct 0 dqln y - 32768) 0); [|lia].
    rewrite land_mask by lia.
    assert (k = 14 \/ k = 15) as [-> | ->] by lia; norm_pow; divlia.
  - apply ctrue_false in Hs. subst sign. rewrite s16_id by lia.
    destruct (Z.ltb_spec (reconstruct 0 dqln y) 0); lia.
Qed.

(** ** Tandem adjustment *)

(** Position of a code in the order of the 256 A-law levels, and of the 255
    u-law levels (0x7F and 0xFF are both level zero). *)
Definition alaw_rank (c : Z) : Z := if 128 <=? c then 128 + (c .^ 0xD5) else 127 - (c .^ 0x55).
Definition ulaw_rank (c : Z) : Z := if 128 <=? c then 127 + (255 - c) else c.


Definition alaw_of_rank (r : Z) : Z := if 128 <=? r then (r - 128) .^ 0xD5 else (127 - r) .^ 0x55.
Definition ulaw_of_rank (r : Z) : Z := if 127 <=? r then 255 - (r - 127) else r.

Lemma alaw_rank_spec c :
  0 <= c < 256 -> 0 <= alaw_rank c < 256 /\ alaw_of_rank (alaw_rank c) = c.
Proof.
  intros Hc. assert (all_below 256 (fun c => (0 <=? alaw_rank c) && (alaw_rank c <? 256) &&
    (alaw_of_rank (alaw_rank c) =? c)) = true) as H by (vm_compute; reflexivity).
  pose proof (all_below_spec _ _ H c Hc) as Hb. cbv beta in Hb. zbool. auto.
Qed.

Lemma ulaw_rank_spec c :
  0 <= c < 256 -> 0 <= ulaw_rank c < 255 /\
    ulaw2linear (ulaw_of_rank (ulaw_rank c)) = ulaw2linear c.
Proof.
  intros Hc. assert (all_below 256 (fun c => (0 <=? ulaw_rank c) && (ulaw_rank c <? 255) &&
    (ulaw2linear (ulaw_of_rank (ulaw_rank c)) =? ulaw2linear c)) = true) as H
    by (vm_compute; reflexivity).
  pose proof (all_below_spec _ _ H c Hc) as Hb. cbv beta in Hb. zbool. auto.
Qed.

(** The ranks order the codes by the sample they expand to. *)
Lemma alaw_rank_mono c d :
  0 <= c < 256 -> 0 <= d < 256 -> alaw_rank c < alaw_rank d -> alaw2linear c < alaw2linear d.
Proof.
  intros Hc Hd Hr. destruct (alaw_rank_spec c Hc) as [? Ec], (alaw_rank_spec d Hd) as [? Ed].
  rewrite <- Ec, <- Ed.
  apply (increasing_below 255 (fun r => alaw2linear (alaw_of_rank r)));
    [vm_compute; reflexivity|lia|lia].
Qed.

Lemma ulaw_rank_mono c d :
  0 <= c < 256 -> 0 <= d < 256 -> ulaw_rank c < ulaw_rank d -> ulaw2linear c < ulaw2linear d.
Proof.
  intros Hc Hd Hr. destruct (ulaw_rank_spec c Hc) as [? Ec], (ulaw_rank_spec d Hd) as [? Ed].
  rewrite <- Ec, <- Ed.
  apply (increasing_below 254 (fun r => ulaw2linear (ulaw_of_rank r)));
    [vm_compute; reflexivity|lia|lia].
Qed.

(** The adjusted code of [sp] when the simulated code differs from the
    received one: [down] tells whether it must move to the next lower level. *)
Definition alaw_adjacent (down : bool) (sp out : Z) : Prop :=
  0 <= out < 256 /\
  alaw_rank out = if down then Z.max 0 (alaw_rank sp - 1) else Z.min 255 (alaw_rank sp + 1).
Definition ulaw_adjacent (down : bool) (sp out : Z) : Prop :=
  0 <= out < 256 /\
  ulaw_rank out = if down then Z.max 0 (ulaw_rank sp - 1) else Z.min 254 (ulaw_rank sp + 1).

(** Tandem adjustment returns the companded byte of the decoded sample
    when re-encoding it gives the received code back; otherwise it returns
    the byte of the adjacent level, one down when the simulated code is
    larger and one up when it is smaller (saturating at the extreme levels),
    for both companding laws. *)
Theorem tandem_adjust_adjacent sr se y i sign qtab :
  (let sp := linear2alaw (((if sr <=? -32768 then -1 else sr) >> 1) << 3) in
   let id := s8 (quantize (s16 ((alaw2linear sp >> 2) - se)) y qtab (sign - 1)) in
   if id =? i then tandem_adjust_alaw sr se y i sign qtab = sp
   else alaw_adjacent (i .^ sign <? id .^ sign) sp (tandem_adjust_alaw sr se y i sign qtab)) /\
  (let sp := linear2ulaw ((if sr <=? -32768 then 0 else sr) << 2) in
   let id := s8 (quantize (s16 ((ulaw2linear sp >> 2) - se)) y qtab (sign - 1)) in
   if id =? i then tandem_adjust_ulaw sr se y i sign qtab = sp
   else ulaw_adjacent (i .^ sign <? id .^ sign) sp (tandem_adjust_ulaw sr se y i sign qtab)).
Proof.
  split.
  - unfold tandem_adjust_alaw. cbv zeta. set (sp := linear2alaw _).
    assert (0 <= sp < 256) as Hsp by apply linear2alaw_range.
    set (id := s8 _). clearbody id sp.
    case_if; [done|]. unfold alaw_adjacent.
    match goal with |- context [if ?b then _ else _] => destruct b end.
    all: revert sp Hsp; refine (all_below_decide 256 _ _); vm_compute; reflexivity.
  - unfold tandem_adjust_ulaw. cbv zeta. set (sp := linear2ulaw _).
    assert (0 <= sp < 256) as Hsp by apply linear2ulaw_range.
    set (id := s8 _). clearbody id sp.
    case_if; [done|]. unfold ulaw_adjacent.
    match goal with |- context [if ?b then _ else _] => destruct b end.
    all: revert sp Hsp; refine (all_below_decide 256 _ _); vm_compute; reflexivity.
Qed.
