(* ===== verification/G72xCodecs.v ===== *)
(** * The G.721, G.723-24 and G.723-40 coders:
    [g72x/g721.c], [g72x/g723_24.c], [g72x/g723_40.c]

    The tables and the encoder and decoder of each rate.  A coder function
    returns its result with the new state; an unknown coding returns -1 and
    leaves the state alone in the encoders, as in the source, while the
    decoders update the state first. *)

From S2P Require Import Prelude G711 G72x.

(** ** Tables *)

Definition qtab_721 : list Z := [-124; 80; 178; 246; 300; 349; 400].
Definition _dqlntab_721 : list Z :=
  [-2048; 4; 135; 213; 273; 323; 373; 425; 425; 373; 323; 273; 213; 135; 4; -2048].
Definition _witab_721 : list Z :=
  [-12; 18; 41; 64; 112; 198; 355; 1122; 1122; 355; 198; 112; 64; 41; 18; -12].
Definition _fitab_721 : list Z :=
  [0; 0; 0; 0x200; 0x200; 0x200; 0x600; 0xE00;
   0xE00; 0x600; 0x200; 0x200; 0x200; 0; 0; 0].

Definition qtab_723_24 : list Z := [8; 218; 331].
Definition _dqlntab_723_24 : list Z := [-2048; 135; 273; 373; 373; 273; 135; -2048].
Definition _witab_723_24 : list Z := [-128; 960; 4384; 18624; 18624; 4384; 960; -128].
Definition _fitab_723_24 : list Z := [0; 0x200; 0x400; 0xE00; 0xE00; 0x400; 0x200; 0].

Definition qtab_723_40 : list Z :=
  [-122; -16; 68; 139; 198; 250; 298; 339; 378; 413; 445; 475; 502; 528; 553].
Definition _dqlntab_723_40 : list Z :=
  [-2048; -66; 28; 104; 169; 224; 274; 318; 358; 395; 429; 459; 488; 514; 539; 566;
   566; 539; 514; 488; 459; 429; 395; 358; 318; 274; 224; 169; 104; 28; -66; -2048].
Definition _witab_723_40 : list Z :=
  [448; 448; 768; 1248; 1280; 1312; 1856; 3200; 4512; 5728; 7008; 8960; 11456; 14080;
   16928; 22272; 22272; 16928; 14080; 11456; 8960; 7008; 5728; 4512; 3200; 1856; 1312;
   1280; 1248; 768; 448; 448].
Definition _fitab_723_40 : list Z :=
  [0; 0; 0; 0; 0; 0x200; 0x200; 0x200; 0x200; 0x200; 0x400; 0x600; 0x800; 0xA00; 0xC00;
   0xC00; 0xC00; 0xC00; 0xA00; 0x800; 0x600; 0x400; 0x200; 0x200; 0x200; 0x200; 0x200;
   0; 0; 0; 0; 0].

(** The [switch (in_coding)] of the encoders: linearize the input sample to
    14-bit PCM; [None] is the [default: return (-1)] branch. *)
Definition linearize (in_coding sl : Z) : option Z :=
  if in_coding =? AUDIO_ENCODING_ALAW then Some (alaw2linear (u8 sl) >> 2)
  else if in_coding =? AUDIO_ENCODING_ULAW then Some (ulaw2linear (u8 sl) >> 2)
  else if in_coding =? AUDIO_ENCODING_LINEAR then Some (sl >> 2)
  else None.

(** ** [g721.c] *)

Definition g721_encoder (sl in_coding : Z) (st : g72x_state) : Z * g72x_state :=
  match linearize in_coding sl with
  | None => (-1, st)
  | Some sl =>
    let sezi := s16 (predictor_zero st) in
    let sez := s16 (sezi >> 1) in
    let se := s16 ((sezi + predictor_pole st) >> 1) in
    let d := s16 (sl - se) in
    let y := s16 (step_size st) in
    let i := s16 (quantize d y qtab_721 7) in
    let dq := s16 (reconstruct (i .& 8) _dqlntab_721.[i] y) in
    let sr := s16 (if dq <? 0 then se - (dq .& 0x3FFF) else se + dq) in
    let dqsez := s16 (sr + sez - se) in
    (i, update 4 y (_witab_721.[i] << 5) _fitab_721.[i] dq sr dqsez st)
  end.

Definition g721_decoder (i out_coding : Z) (st : g72x_state) : Z * g72x_state :=
  let i := i .& 0x0f in
  let sezi := s16 (predictor_zero st) in
  let sez := s16 (sezi >> 1) in
  let sei := s16 (sezi + predictor_pole st) in
  let se := s16 (sei >> 1) in
  let y := s16 (step_size st) in
  let dq := s16 (reconstruct (i .& 8) _dqlntab_721.[i] y) in
  let sr := s16 (if dq <? 0 then se - (dq .& 0x3FFF) else se + dq) in
  let dqsez := s16 (sr - se + sez) in
  let st' := update 4 y (_witab_721.[i] << 5) _fitab_721.[i] dq sr dqsez st in
  let out :=
    if out_coding =? AUDIO_ENCODING_ALAW then tandem_adjust_alaw sr se y i 8 qtab_721
    else if out_coding =? AUDIO_ENCODING_ULAW then
      tandem_adjust_ulaw sr se y i 8 qtab_721
    else if out_coding =? AUDIO_ENCODING_LINEAR then sr << 2
    else -1 in
  (out, st').

(** ** [g723_24.c] *)

Definition g723_24_encoder (sl in_coding : Z) (st : g72x_state) : Z * g72x_state :=
  match linearize in_coding sl with
  | None => (-1, st)
  | Some sl =>
    let sezi := s16 (predictor_zero st) in
    let sez := s16 (sezi >> 1) in
    let sei := s16 (sezi + predictor_pole st) in
    let se := s16 (sei >> 1) in
    let d := s16 (sl - se) in
    let y := s16 (step_size st) in
    let i := s16 (quantize d y qtab_723_24 3) in
    let dq := s16 (reconstruct (i .& 4) _dqlntab_723_24.[i] y) in
    let sr := s16 (if dq <? 0 then se - (dq .& 0x3FFF) else se + dq) in
    let dqsez := s16 (sr + sez - se) in
    (i, update 3 y _witab_723_24.[i] _fitab_723_24.[i] dq sr dqsez st)
  end.

Definition g723_24_decoder (i out_coding : Z) (st : g72x_state) : Z * g72x_state :=
  let i := i .& 0x07 in
  let sezi := s16 (predictor_zero st) in
  let sez := s16 (sezi >> 1) in
  let sei := s16 (sezi + predictor_pole st) in
  let se := s16 (sei >> 1) in
  let y := s16 (step_size st) in
  let dq := s16 (reconstruct (i .& 4) _dqlntab_723_24.[i] y) in
  let sr := s16 (if dq <? 0 then se - (dq .& 0x3FFF) else se + dq) in
  let dqsez := s16 (sr - se + sez) in
  let st' := update 3 y _witab_723_24.[i] _fitab_723_24.[i] dq sr dqsez st in
  let out :=
    if out_coding =? AUDIO_ENCODING_ALAW then tandem_adjust_alaw sr se y i 4 qtab_723_24
    else if out_coding =? AUDIO_ENCODING_ULAW then
      tandem_adjust_ulaw sr se y i 4 qtab_723_24
    else if out_coding =? AUDIO_ENCODING_LINEAR then sr << 2
    else -1 in
  (out, st').

(** ** [g723_40.c] *)

Definition g723_40_encoder (sl in_coding : Z) (st : g72x_state) : Z * g72x_state :=
  match linearize in_coding sl with
  | None => (-1, st)
  | Some sl =>
    let sezi := s16 (predictor_zero st) in
    let sez := s16 (sezi >> 1) in
    let sei := s16 (sezi + predictor_pole st) in
    let se := s16 (sei >> 1) in
    let d := s16 (sl - se) in
    let y := s16 (step_size st) in
    let i := s16 (quantize d y qtab_723_40 15) in
    let dq := s16 (reconstruct (i .& 0x10) _dqlntab_723_40.[i] y) in
    let sr := s16 (if dq <? 0 then se - (dq .& 0x7FFF) else se + dq) in
    let dqsez := s16 (sr + sez - se) in
    (i, update 5 y _witab_723_40.[i] _fitab_723_40.[i] dq sr dqsez st)
  end.

Definition g723_40_decoder (i out_coding : Z) (st : g72x_state) : Z * g72x_state :=
  let i := i .& 0x1f in
  let sezi := s16 (predictor_zero st) in
  let sez := s16 (sezi >> 1) in
  let sei := s16 (sezi + predictor_pole st) in
  let se := s16 (sei >> 1) in
  let y := s16 (step_size st) in
  let dq := s16 (reconstruct (i .& 0x10) _dqlntab_723_40.[i] y) in
  let sr := s16 (if dq <? 0 then se - (dq .& 0x7FFF) else se + dq) in
  let dqsez := s16 (sr - se + sez) in
  let st' := update 5 y _witab_723_40.[i] _fitab_723_40.[i] dq sr dqsez st in
  let out :=
    if out_coding =? AUDIO_ENCODING_ALAW then tandem_adjust_alaw sr se y i 0x10 qtab_723_40
    else if out_coding =? AUDIO_ENCODING_ULAW then
      tandem_adjust_ulaw sr se y i 0x10 qtab_723_40
    else if out_coding =? AUDIO_ENCODING_LINEAR then sr << 2
    else -1 in
  (out, st').

(** ** Sequences of calls *)

(** The encoder loop of [encode.c] and the decoder loop of [decode.c]: one
    call per sample, the state threaded through. *)
Fixpoint run_coder (coder : Z -> Z -> g72x_state -> Z * g72x_state) (coding : Z)
    (inputs : list Z) (st : g72x_state) : list Z * g72x_state :=
  match inputs with
  | [] => ([], st)
  | x :: xs =>
      let '(o, st1) := coder x coding st in
      let '(os, st2) := run_coder coder coding xs st1 in
      (o :: os, st2)
  end.

(** Any interleaving of the six coder functions on one state. *)
Inductive coder_call := Enc721 (sl c : Z) | Dec721 (i c : Z) | Enc24 (sl c : Z)
  | Dec24 (i c : Z) | Enc40 (sl c : Z) | Dec40 (i c : Z).

Definition do_call (call : coder_call) (st : g72x_state) : Z * g72x_state :=
  match call with
  | Enc721 sl c => g721_encoder sl c st
  | Dec721 i c => g721_decoder i c st
  | Enc24 sl c => g723_24_encoder sl c st
  | Dec24 i c => g723_24_decoder i c st
  | Enc40 sl c => g723_40_encoder sl c st
  | Dec40 i c => g723_40_decoder i c st
  end.

Definition call_step (st : g72x_state) (call : coder_call) (st' : g72x_state) : Prop :=
  st' = snd (do_call call st).

(** ** The invariant over all calls *)

Definition fi_ok (fi : Z) : Prop := 0 <= fi <= 3584.

Lemma fitabs_ok : Forall fi_ok _fitab_721 /\ Forall fi_ok _fitab_723_24 /\
  Forall fi_ok _fitab_723_40.
Proof. unfold fi_ok. split; [|split]; repeat constructor; lia. Qed.

Lemma fitab_ok (l : list Z) i : Forall fi_ok l -> 0 <= l.[i] <= 3584.
Proof. intros Hl. apply (aget_Forall_dflt fi_ok); [done|unfold fi_ok, dflt, Default_Z; lia]. Qed.

Lemma do_call_wf call st : wf st -> wf (snd (do_call call st)).
Proof.
  intros W. destruct fitabs_ok as (F1 & F2 & F3).
  destruct call; unfold do_call;
    unfold g721_encoder, g723_24_encoder, g723_40_encoder,
      g721_decoder, g723_24_decoder, g723_40_decoder;
    try destruct (linearize c sl); cbv beta zeta iota delta [snd]; try exact W;
    (apply update_wf; [exact W|by apply fitab_ok|apply s16_range]).
Qed.

(** C39.  Starting from [g72x_init_state], whatever sequence of encoder and
    decoder calls of the three rates is made, with any inputs and codings,
    the adaptation state stays in the ranges the algorithm relies on: step
    sizes, energies, speed control, predictor poles inside the stability
    region, normalized floating point memories. *)
Theorem reachable_states_wf calls st :
  lsteps call_step g72x_init_state calls st -> wf st.
Proof.
  intros Hs. apply (lsteps_invariant call_step wf) with (2 := Hs);
    [|apply g72x_init_state_wf].
  intros s l s' W ->. by apply do_call_wf.
Qed.

Lemma reachable_states_wf_witness :
  wf (snd (g721_encoder 0x55 AUDIO_ENCODING_ALAW g72x_init_state)).
Proof.
  apply (reachable_states_wf [Enc721 0x55 AUDIO_ENCODING_ALAW]).
  econstructor; [reflexivity|constructor].
Defined.

(** ** The decoder tracks the encoder *)

(** The adaptation a code [i] causes, common to both directions. *)
Definition adapt_721 (i : Z) (st : g72x_state) : g72x_state :=
  let sez := s16 (s16 (predictor_zero st) >> 1) in
  let se := s16 (s16 (s16 (predictor_zero st) + predictor_pole st) >> 1) in
  let y := s16 (step_size st) in
  let dq := s16 (reconstruct (i .& 8) _dqlntab_721.[i] y) in
  let sr := s16 (if dq <? 0 then se - (dq .& 0x3FFF) else se + dq) in
  update 4 y (_witab_721.[i] << 5) _fitab_721.[i] dq sr (s16 (sr - se + sez)) st.

Definition adapt_723_24 (i : Z) (st : g72x_state) : g72x_state :=
  let sez := s16 (s16 (predictor_zero st) >> 1) in
  let se := s16 (s16 (s16 (predictor_zero st) + predictor_pole st) >> 1) in
  let y := s16 (step_size st) in
  let dq := s16 (reconstruct (i .& 4) _dqlntab_723_24.[i] y) in
  let sr := s16 (if dq <? 0 then se - (dq .& 0x3FFF) else se + dq) in
  update 3 y _witab_723_24.[i] _fitab_723_24.[i] dq sr (s16 (sr - se + sez)) st.

Definition adapt_723_40 (i : Z) (st : g72x_state) : g72x_state :=
  let sez := s16 (s16 (predictor_zero st) >> 1) in
  let se := s16 (s16 (s16 (predictor_zero st) + predictor_pole st) >> 1) in
  let y := s16 (step_size st) in
  let dq := s16 (reconstruct (i .& 0x10) _dqlntab_723_40.[i] y) in
  let sr := s16 (if dq <? 0 then se - (dq .& 0x7FFF) else se + dq) in
  update 5 y _witab_723_40.[i] _fitab_723_40.[i] dq sr (s16 (sr - se + sez)) st.

Lemma g721_decoder_adapt i o st : snd (g721_decoder i o st) = adapt_721 (i .& 0x0f) st.
Proof. reflexivity. Qed.

Lemma g723_24_decoder_adapt i o st : snd (g723_24_decoder i o st) = adapt_723_24 (i .& 0x07) st.
Proof. reflexivity. Qed.

Lemma g723_40_decoder_adapt i o st : snd (g723_40_decoder i o st) = adapt_723_40 (i .& 0x1f) st.
Proof. reflexivity. Qed.

Lemma code_land i k : 1 <= i <= 2 ^ k - 1 -> 0 <= k -> i .& Z.ones k = i.
Proof. intros. rewrite land_mask by lia. apply Z.mod_small. lia. Qed.

(** The signal estimate of [st] does not overflow a 16-bit accumulator. *)
Definition estimate_fits (st : g72x_state) : bool :=
  let t := s16 (predictor_zero st) + predictor_pole st in (- 32768 <=? t) && (t <=? 32767).

Lemma estimate_fits_spec st :
  estimate_fits st = true -> -32768 <= s16 (predictor_zero st) + predictor_pole st <= 32767.
Proof.
  unfold estimate_fits. generalize (s16 (predictor_zero st) + predictor_pole st).
  intros t Ht. cbv zeta in Ht. zbool. lia.
Qed.

Lemma g721_encoder_adapt sl c st :
  is_Some (linearize c sl) -> estimate_fits st = true ->
  1 <= fst (g721_encoder sl c st) <= 15 /\
  snd (g721_encoder sl c st) = adapt_721 (fst (g721_encoder sl c st)) st.
Proof.
  intros [x Hx] Hf. unfold g721_encoder, adapt_721. rewrite Hx.
  apply estimate_fits_spec in Hf.
  cbv beta zeta iota delta [fst snd].
  rewrite (s16_id (s16 (predictor_zero st) + predictor_pole st) Hf).
  match goal with |- context [quantize ?d ?y ?t ?n] =>
    pose proof (quantize_range d y t n ltac:(lia)) as Hi; revert Hi;
    generalize (quantize d y t n) end.
  intros i Hi. rewrite (s16_id i) by lia. split; [lia|].
  rewrite Z.add_sub_swap. reflexivity.
Qed.

Lemma g723_24_encoder_adapt sl c st :
  is_Some (linearize c sl) ->
  1 <= fst (g723_24_encoder sl c st) <= 7 /\
  snd (g723_24_encoder sl c st) = adapt_723_24 (fst (g723_24_encoder sl c st)) st.
Proof.
  intros [x Hx]. unfold g723_24_encoder, adapt_723_24. rewrite Hx.
  cbv beta zeta iota delta [fst snd].
  match goal with |- context [quantize ?d ?y ?t ?n] =>
    pose proof (quantize_range d y t n ltac:(lia)) as Hi; revert Hi;
    generalize (quantize d y t n) end.
  intros i Hi. rewrite (s16_id i) by lia. split; [lia|].
  rewrite Z.add_sub_swap. reflexivity.
Qed.

Lemma g723_40_encoder_adapt sl c st :
  is_Some (linearize c sl) ->
  1 <= fst (g723_40_encoder sl c st) <= 31 /\
  snd (g723_40_encoder sl c st) = adapt_723_40 (fst (g723_40_encoder sl c st)) st.
Proof.
  intros [x Hx]. unfold g723_40_encoder, adapt_723_40. rewrite Hx.
  cbv beta zeta iota delta [fst snd].
  match goal with |- context [quantize ?d ?y ?t ?n] =>
    pose proof (quantize_range d y t n ltac:(lia)) as Hi; revert Hi;
    generalize (quantize d y t n) end.
  intros i Hi. rewrite (s16_id i) by lia. split; [lia|].
  rewrite Z.add_sub_swap. reflexivity.
Qed.

(** The codes of the three encoders, whatever the state. *)
Lemma encoder_codes sl c st :
  is_Some (linearize c sl) ->
  1 <= fst (g721_encoder sl c st) <= 15 /\
  1 <= fst (g723_24_encoder sl c st) <= 7 /\
  1 <= fst (g723_40_encoder sl c st) <= 31.
Proof.
  intros [x Hx]. split; [|split];
    unfold g721_encoder, g723_24_encoder, g723_40_encoder; rewrite Hx;
    cbv beta zeta iota delta [fst];
    (match goal with |- context [quantize ?d ?y ?t ?n] =>
      generalize (quantize_range d y t n ltac:(lia)); generalize (quantize d y t n) end);
    intros i Hi; rewrite (s16_id i) by lia; lia.
Qed.

Lemma g721_step_tracks sl c o st :
  is_Some (linearize c sl) -> estimate_fits st = true ->
  snd (g721_decoder (fst (g721_encoder sl c st)) o st) = snd (g721_encoder sl c st).
Proof.
  intros Hl Hf. destruct (g721_encoder_adapt sl c st Hl Hf) as [Hi Hs].
  rewrite Hs, g721_decoder_adapt. change 0x0f with (Z.ones 4). by rewrite code_land by lia.
Qed.

Lemma g723_24_step_tracks sl c o st :
  is_Some (linearize c sl) ->
  snd (g723_24_decoder (fst (g723_24_encoder sl c st)) o st) = snd (g723_24_encoder sl c st).
Proof.
  intros Hl. destruct (g723_24_encoder_adapt sl c st Hl) as [Hi Hs].
  rewrite Hs, g723_24_decoder_adapt. change 0x07 with (Z.ones 3). by rewrite code_land by lia.
Qed.

Lemma g723_40_step_tracks sl c o st :
  is_Some (linearize c sl) ->
  snd (g723_40_decoder (fst (g723_40_encoder sl c st)) o st) = snd (g723_40_encoder sl c st).
Proof.
  intros Hl. destruct (g723_40_encoder_adapt sl c st Hl) as [Hi Hs].
  rewrite Hs, g723_40_decoder_adapt. change 0x1f with (Z.ones 5). by rewrite code_land by lia.
Qed.

Lemma linearize_some c x y : is_Some (linearize c x) -> is_Some (linearize c y).
Proof. unfold linearize. intros H. repeat case_if; eauto. Qed.

(** C40.  For G.723 at 24 and 40 kbit/s the decoder, started in the encoder's
    state and fed the encoder's codes, goes through the same adaptation: it
    ends in exactly the encoder's state, for every sample sequence, every
    start state and every output coding. *)
Theorem g723_decoder_tracks c o samples st :
  In c [AUDIO_ENCODING_ULAW; AUDIO_ENCODING_ALAW; AUDIO_ENCODING_LINEAR] ->
  (let '(codes, st') := run_coder g723_24_encoder c samples st in
   snd (run_coder g723_24_decoder o codes st) = st') /\
  (let '(codes, st') := run_coder g723_40_encoder c samples st in
   snd (run_coder g723_40_decoder o codes st) = st').
Proof.
  intros Hc. assert (forall x, is_Some (linearize c x)) as Hl.
  { intros x. simpl in Hc. unfold linearize. naive_solver. }
  split; revert st; induction samples as [|x xs IH]; intros st; try done; cbn [run_coder].
  - specialize (g723_24_step_tracks x c o st (Hl x)) as Hs.
    destruct (g723_24_encoder x c st) as [i st1]. cbn [fst snd] in Hs. specialize (IH st1).
    destruct (run_coder g723_24_encoder c xs st1) as [codes st2]. cbn [run_coder].
    destruct (g723_24_decoder i o st) as [out st1']. cbn [fst snd] in Hs. subst st1'.
    by destruct (run_coder g723_24_decoder o codes st1).
  - specialize (g723_40_step_tracks x c o st (Hl x)) as Hs.
    destruct (g723_40_encoder x c st) as [i st1]. cbn [fst snd] in Hs. specialize (IH st1).
    destruct (run_coder g723_40_encoder c xs st1) as [codes st2]. cbn [run_coder].
    destruct (g723_40_decoder i o st) as [out st1']. cbn [fst snd] in Hs. subst st1'.
    by destruct (run_coder g723_40_decoder o codes st1).
Qed.

Lemma g723_decoder_tracks_witness :
  snd (run_coder g723_24_decoder AUDIO_ENCODING_LINEAR
        (fst (run_coder g723_24_encoder AUDIO_ENCODING_ULAW [0x80; 0x00; 0x55] g72x_init_state))
        g72x_init_state) =
  snd (run_coder g723_24_encoder AUDIO_ENCODING_ULAW [0x80; 0x00; 0x55] g72x_init_state).
Proof.
  destruct (g723_decoder_tracks AUDIO_ENCODING_ULAW AUDIO_ENCODING_LINEAR [0x80; 0x00; 0x55]
    g72x_init_state) as [H _]; [simpl; tauto|].
  destruct (run_coder g723_24_encoder _ _ _) as [codes st]. exact H.
Defined.

(** Every state the encoder goes through keeps its estimate in 16 bits. *)
Fixpoint estimates_fit (c : Z) (samples : list Z) (st : g72x_state) : bool :=
  match samples with
  | [] => true
  | x :: xs => estimate_fits st && estimates_fit c xs (snd (g721_encoder x c st))
  end.

(** For G.721 the same holds as long as the signal estimate stays in 16
    bits: the encoder halves the full [int] sum [sezi + predictor_pole], the
    decoder first stores it in the [short] [sei]. *)
Theorem g721_decoder_tracks c o samples st :
  In c [AUDIO_ENCODING_ULAW; AUDIO_ENCODING_ALAW; AUDIO_ENCODING_LINEAR] ->
  estimates_fit c samples st = true ->
  snd (run_coder g721_decoder o (fst (run_coder g721_encoder c samples st)) st) =
  snd (run_coder g721_encoder c samples st).
Proof.
  intros Hc. assert (forall x, is_Some (linearize c x)) as Hl.
  { intros x. simpl in Hc. unfold linearize. naive_solver. }
  revert st; induction samples as [|x xs IH]; intros st; try done;
    cbn [run_coder estimates_fit]. intros [Hf Hr]%andb_true_iff.
  specialize (g721_step_tracks x c o st (Hl x) Hf) as Hs.
  destruct (g721_encoder x c st) as [i st1]. cbn [fst snd] in Hs, Hr. specialize (IH st1 Hr).
  destruct (run_coder g721_encoder c xs st1) as [codes st2]. cbn [run_coder fst].
  destruct (g721_decoder i o st) as [out st1']. cbn [fst snd] in Hs, IH. subst st1'.
  by destruct (run_coder g721_decoder o codes st1).
Qed.

Lemma g721_decoder_tracks_witness :
  estimates_fit AUDIO_ENCODING_ULAW [0x80; 0x00; 0x55] g72x_init_state = true /\
  snd (run_coder g721_decoder AUDIO_ENCODING_LINEAR
        (fst (run_coder g721_encoder AUDIO_ENCODING_ULAW [0x80; 0x00; 0x55] g72x_init_state))
        g72x_init_state) =
  snd (run_coder g721_encoder AUDIO_ENCODING_ULAW [0x80; 0x00; 0x55] g72x_init_state).
Proof.
  split; [vm_compute; reflexivity|].
  apply (g721_decoder_tracks AUDIO_ENCODING_ULAW AUDIO_ENCODING_LINEAR [0x80; 0x00; 0x55]);
    [simpl; tauto|vm_compute; reflexivity].
Defined.

(** A full scale square wave of period 202, 206 samples. *)
Definition square_wave : list Z :=
  replicate 101 32764 ++ replicate 101 (-32764) ++ replicate 4 32764.

(** The two directions of G.721 do lose each other: on a full scale
    square wave the encoder's estimate overflows 16 bits and the decoder fed
    with the encoder's own codes ends in a different state. *)
Theorem g721_desynchronizes :
  let '(codes, st) := run_coder g721_encoder AUDIO_ENCODING_LINEAR square_wave g72x_init_state in
  snd (run_coder g721_decoder AUDIO_ENCODING_LINEAR codes g72x_init_state) <> st.
Proof. vm_compute. intros H. discriminate H. Qed.

(** ** Quantizer and reconstruction agree *)

(** The value the decoder adds for code [i]: magnitude with the code's sign. *)
Definition difference (signbit : Z) (dqlntab : list Z) (i y : Z) : Z :=
  let m := reconstruct 0 dqlntab.[i] y in if ctrue (i .& signbit) then - m else m.

(** The check for one value of [y >> 2]. *)
Definition requantizes (signbit size n : Z) (dqlntab qtab : list Z) (y : Z) : bool :=
  all_below (Z.to_nat n) (fun k =>
    quantize (difference signbit dqlntab (k + 1) y) y qtab size =? k + 1).

Lemma shr2_cell y : 4 * (y >> 2) >> 2 = y >> 2.
Proof. shifts. rewrite Z.mul_comm. by rewrite Z.div_mul by lia. Qed.

Lemma requantizes_spec signbit size n dqlntab qtab :
  all_below 1145 (fun k => requantizes signbit size n dqlntab qtab (4 * (k + 136))) = true ->
  forall y i, 544 <= y <= 5120 -> 1 <= i <= n ->
    quantize (difference signbit dqlntab i y) y qtab size = i.
Proof.
  intros H y i Hy Hi.
  assert (y >> 2 = 4 * (y >> 2) >> 2) as Hq by (symmetry; apply shr2_cell).
  rewrite (quantize_step _ _ _ _ _ Hq). unfold difference.
  rewrite (reconstruct_step _ _ _ _ Hq).
  assert (0 <= (y >> 2) - 136 < 1145) as Hk by (shifts; divlia).
  pose proof (all_below_spec _ _ H ((y >> 2) - 136) ltac:(lia)) as Hb. cbv beta in Hb.
  unfold requantizes in Hb.
  pose proof (all_below_spec _ _ Hb (i - 1) ltac:(lia)) as Hc. cbv beta in Hc.
  replace ((y >> 2) - 136 + 136) with (y >> 2) in Hc by lia.
  replace (i - 1 + 1) with i in Hc by lia. by apply Z.eqb_eq in Hc.
Qed.

(** In G.721 and 24 kbit/s G.723 every codeword is stable: whatever the
    step size, quantizing the difference a code stands for gives the same
    code back, so the reconstruction levels lie in their own decision
    intervals. *)
Theorem codewords_stable y i :
  544 <= y <= 5120 ->
  (1 <= i <= 15 -> quantize (difference 8 _dqlntab_721 i y) y qtab_721 7 = i) /\
  (1 <= i <= 7 -> quantize (difference 4 _dqlntab_723_24 i y) y qtab_723_24 3 = i).
Proof.
  intros Hy. split; intros Hi.
  - apply (requantizes_spec 8 7 15); [vm_compute; reflexivity|done|done].
  - apply (requantizes_spec 4 3 7); [vm_compute; reflexivity|done|done].
Qed.

Lemma codewords_stable_witness :
  quantize (difference 8 _dqlntab_721 15 544) 544 qtab_721 7 = 15.
Proof. apply (codewords_stable 544 15); lia. Defined.

(** The 40 kbit/s tables lack the property for small steps: at the
    initial step size code 1 stands for a difference that quantizes to
    31 (the codes for the smallest differences). *)
Theorem codewords_40_unstable :
  quantize (difference 0x10 _dqlntab_723_40 1 544) 544 qtab_723_40 15 <> 1.
Proof. vm_compute. discriminate. Qed.
