(* ===== verification/AdpcmStream.v ===== *)
(** * The ADPCM stream programs: [g72x/encode.c] and [g72x/decode.c]

    Packing of the 3-, 4- or 5-bit codes into bytes, unpacking, and the main
    loops of the two programs.  Standard input and output are lists of bytes
    (samples for the encoder's input); the function-static buffers are the
    state records. *)

From S2P Require Import Prelude G711 G72x G72xCodecs.

(** ** [encode.c] *)

(** The static variables of [pack_output]. *)
Record packer := { out_buffer : Z; out_bits : Z }.

Definition packer0 : packer := {| out_buffer := 0; out_bits := 0 |}.

(** Result: the value returned, the statics, and the bytes written. *)
Definition pack_output (code bits : Z) (p : packer) : Z * packer * list Z :=
  let buf := u32 (out_buffer p .| u32 (code << out_bits p)) in
  let nbits := out_bits p + bits in
  if 8 <=? nbits then
    let out_byte := u8 (buf .& 0xff) in
    let nbits := nbits - 8 in
    (if 0 <? nbits then 1 else 0, {| out_buffer := buf >> 8; out_bits := nbits |}, [out_byte])
  else (if 0 <? nbits then 1 else 0, {| out_buffer := buf; out_bits := nbits |}, []).

(** [while (resid) resid = pack_output(0, enc_bits);] *)
Fixpoint pack_flush (fuel : nat) (resid bits : Z) (p : packer) : option (list Z) :=
  if resid =? 0 then Some []
  else match fuel with
       | O => None
       | S fuel =>
           let '(resid, p, out) := pack_output 0 bits p in
           out' ← pack_flush fuel resid bits p; Some (out ++ out')
       end.

(** The read loop of [main] followed by the flush.  [resid] is the variable
    of [main], which is not initialized before the loop. *)
Fixpoint encode_main (enc : Z -> Z -> g72x_state -> Z * g72x_state) (coding bits : Z)
    (samples : list Z) (resid : Z) (st : g72x_state) (p : packer) : option (list Z) :=
  match samples with
  | [] => pack_flush 8 resid bits p
  | x :: xs =>
      let '(c, st) := enc x coding st in
      let code := u8 c in
      let '(resid, p, out) := pack_output code bits p in
      out' ← encode_main enc coding bits xs resid st p; Some (out ++ out')
  end.

(** The variables of [main] the options set.  An argument is a list of
    characters; reading past its end gives the terminating 0. *)
Record coder_options := {
  routine : Z -> Z -> g72x_state -> Z * g72x_state;
  code_bits : Z;
  coding : Z;
  sample_size : Z
}.

(** [while ((argc > 1) && (argv[1][0] == '-')) switch (argv[1][1])] on the
    arguments after the program name; [None] is the usage message and
    [exit(1)]. *)
Fixpoint encode_options (argv : list (list Z)) (o : coder_options) : option coder_options :=
  match argv with
  | [] => Some o
  | arg :: argv =>
      if arg.[0] =? 45 then
        let rate r b := {| routine := r; code_bits := b; coding := coding o;
                           sample_size := sample_size o |} in
        let law c s := {| routine := routine o; code_bits := code_bits o; coding := c;
                          sample_size := s |} in
        if arg.[1] =? 51 then encode_options argv (rate g723_24_encoder 3)
        else if arg.[1] =? 52 then encode_options argv (rate g721_encoder 4)
        else if arg.[1] =? 53 then encode_options argv (rate g723_40_encoder 5)
        else if arg.[1] =? 117 then encode_options argv (law AUDIO_ENCODING_ULAW 1)
        else if arg.[1] =? 97 then encode_options argv (law AUDIO_ENCODING_ALAW 1)
        else if arg.[1] =? 108 then encode_options argv (law AUDIO_ENCODING_LINEAR 2)
        else None
      else Some o
  end.

Definition encode_defaults : coder_options :=
  {| routine := g721_encoder; code_bits := 4; coding := AUDIO_ENCODING_ULAW; sample_size := 1 |}.

(** The program: its output for the samples read, [None] when it exits with
    the usage message. *)
Definition encode_program (argv : list (list Z)) (samples : list Z) (resid : Z) :
    option (list Z) :=
  o ← encode_options argv encode_defaults;
  encode_main (routine o) (coding o) (code_bits o) samples resid g72x_init_state packer0.

(** ** [decode.c] *)

(** The static variables of [unpack_input]. *)
Record unpacker := { in_buffer : Z; in_bits : Z }.

Definition unpacker0 : unpacker := {| in_buffer := 0; in_bits := 0 |}.

(** Result: the value returned, [*code], the statics, and the unread input. *)
Definition unpack_input (bits : Z) (u : unpacker) (input : list Z) :
    Z * Z * unpacker * list Z :=
  let take_code buf nbits input :=
    let code := u8 (buf .& ((1 << bits) - 1)) in
    let nbits := nbits - bits in
    (if 0 <? nbits then 1 else 0, code, {| in_buffer := buf >> bits; in_bits := nbits |}, input)
  in
  if in_bits u <? bits then
    match input with
    | [] => (-1, 0, u, [])
    | in_byte :: input =>
        take_code (u32 (in_buffer u .| u32 (in_byte << in_bits u))) (in_bits u + 8) input
    end
  else take_code (in_buffer u) (in_bits u) input.

(** The loop of [main]; [out_size] 2 writes the sample as a [short], 1 its
    low byte.  [None] when the fuel runs out. *)
Fixpoint decode_main (fuel : nat) (dec : Z -> Z -> g72x_state -> Z * g72x_state)
    (coding bits out_size : Z) (u : unpacker) (input : list Z) (st : g72x_state) :
    option (list Z) :=
  match fuel with
  | O => None
  | S fuel =>
      let '(r, code, u, input) := unpack_input bits u input in
      if r <? 0 then Some []
      else
        let '(sample, st) := dec code coding st in
        let sample := s16 sample in
        let out := if out_size =? 2 then sample else u8 sample in
        outs ← decode_main fuel dec coding bits out_size u input st; Some (out :: outs)
  end.

Fixpoint decode_options (argv : list (list Z)) (o : coder_options) : option coder_options :=
  match argv with
  | [] => Some o
  | arg :: argv =>
      if arg.[0] =? 45 then
        let rate r b := {| routine := r; code_bits := b; coding := coding o;
                           sample_size := sample_size o |} in
        let law c s := {| routine := routine o; code_bits := code_bits o; coding := c;
                          sample_size := s |} in
        if arg.[1] =? 51 then decode_options argv (rate g723_24_decoder 3)
        else if arg.[1] =? 52 then decode_options argv (rate g721_decoder 4)
        else if arg.[1] =? 53 then decode_options argv (rate g723_40_decoder 5)
        else if arg.[1] =? 117 then decode_options argv (law AUDIO_ENCODING_ULAW 1)
        else if arg.[1] =? 97 then decode_options argv (law AUDIO_ENCODING_ALAW 1)
        else if arg.[1] =? 108 then decode_options argv (law AUDIO_ENCODING_LINEAR 2)
        else None
      else Some o
  end.

Definition decode_defaults : coder_options :=
  {| routine := g721_decoder; code_bits := 4; coding := AUDIO_ENCODING_ULAW; sample_size := 1 |}.

Definition decode_program (fuel : nat) (argv : list (list Z)) (bytes : list Z) :
    option (list Z) :=
  o ← decode_options argv decode_defaults;
  decode_main fuel (routine o) (coding o) (code_bits o) (sample_size o) unpacker0 bytes
    g72x_init_state.

(** ** The bit stream as a number *)

(** Little-endian value of digits of [b] bits. *)
Fixpoint stream_val (b : Z) (l : list Z) : Z :=
  match l with
  | [] => 0
  | x :: l => x + 2 ^ b * stream_val b l
  end.

Definition digits_ok (b : Z) (l : list Z) : Prop := Forall (fun x => 0 <= x < 2 ^ b) l.

Lemma stream_val_app b l1 l2 :
  0 <= b -> stream_val b (l1 ++ l2) =
    stream_val b l1 + 2 ^ (b * Z.of_nat (length l1)) * stream_val b l2.
Proof.
  intros Hb. induction l1 as [|x l1 IH]; simpl; [rewrite Z.mul_0_r; lia|].
  rewrite IH. replace (b * Z.of_nat (S (length l1))) with (b + b * Z.of_nat (length l1)) by lia.
  rewrite Z.pow_add_r by lia. lia.
Qed.

Definition packer_ok (p : packer) : Prop :=
  0 <= out_bits p < 8 /\ 0 <= out_buffer p < 2 ^ out_bits p.

(** One call keeps the statics in range and moves exactly the code's bits. *)
Lemma pack_output_spec code bits p r p' out :
  1 <= bits <= 8 -> 0 <= code < 2 ^ bits -> packer_ok p ->
  pack_output code bits p = (r, p', out) ->
  packer_ok p' /\ digits_ok 8 out /\ r = (if 0 <? out_bits p' then 1 else 0) /\
  out_bits p + bits = out_bits p' + 8 * Z.of_nat (length out) /\
  out_buffer p + 2 ^ out_bits p * code =
    stream_val 8 out + 2 ^ (8 * Z.of_nat (length out)) * out_buffer p'.
Proof.
  intros Hb Hc [Hn Hp] Hpk. unfold pack_output in Hpk. cbv zeta in Hpk.
  set (n := out_bits p) in *. set (b := out_buffer p) in *. clearbody n b.
  assert (0 <= code * 2 ^ n < 2 ^ (bits + n)) as Hcn.
  { rewrite Z.pow_add_r by lia. nia. }
  assert (2 ^ (bits + n) <= 2 ^ 15) as H15 by (apply Z.pow_le_mono_r; lia). norm_pow.
  assert (b + 2 ^ n * code < 2 ^ (n + bits)) as Hbn.
  { rewrite Z.pow_add_r by lia. nia. }
  rewrite (u32_id (code << n)) in Hpk by (rewrite shl_mul by lia; lia).
  rewrite (Z.lor_comm b), lor_shl_add in Hpk by lia.
  rewrite u32_id in Hpk by (rewrite (Z.add_comm bits) in *; lia).
  replace (code * 2 ^ n + b) with (b + 2 ^ n * code) in Hpk by lia.
  set (V := b + 2 ^ n * code) in *. assert (0 <= V) by nia. clearbody V.
  change 0xff with (Z.ones 8) in Hpk. rewrite land_mask, shr_div in Hpk by lia. norm_pow.
  destruct (Z.leb_spec 8 (n + bits)); injection Hpk as <- <- <-; unfold packer_ok, digits_ok; cbn [out_bits out_buffer].
  - assert (2 ^ (n + bits) = 256 * 2 ^ (n + bits - 8)) as Hs
      by (rewrite <- (Z.pow_add_r 2 8) by lia; f_equal; lia).
    rewrite u8_id by divlia. cbn [length stream_val].
    repeat split; try lia; try (constructor; [|constructor]); norm_pow; try divlia.
  - cbn [length stream_val]. repeat split; try lia; try constructor; norm_pow; try lia.
Qed.

(** Packing a whole list of codes (the encoder loop without the flush). *)
Fixpoint pack_all (bits : Z) (codes : list Z) (p : packer) : packer * list Z :=
  match codes with
  | [] => (p, [])
  | c :: cs =>
      let '(_, p, out) := pack_output c bits p in
      let '(p, out') := pack_all bits cs p in (p, out ++ out')
  end.

Lemma pack_all_spec bits codes p p' out :
  1 <= bits <= 8 -> digits_ok bits codes -> packer_ok p ->
  pack_all bits codes p = (p', out) ->
  packer_ok p' /\ digits_ok 8 out /\
  out_bits p + bits * Z.of_nat (length codes) = out_bits p' + 8 * Z.of_nat (length out) /\
  out_buffer p + 2 ^ out_bits p * stream_val bits codes =
    stream_val 8 out + 2 ^ (8 * Z.of_nat (length out)) * out_buffer p'.
Proof.
  intros Hb. revert p p' out. induction codes as [|c cs IH]; intros p p' out Hc Hp Hpk.
  { simpl in Hpk. injection Hpk as <- <-. simpl. repeat split; try apply Hp; try lia.
    constructor. }
  apply Forall_cons_1 in Hc as [Hc Hcs]. cbn [pack_all] in Hpk.
  destruct (pack_output c bits p) as [[r p1] out1] eqn:E1.
  destruct (pack_all bits cs p1) as [p2 out2] eqn:E2. injection Hpk as <- <-.
  destruct (pack_output_spec _ _ _ _ _ _ Hb Hc Hp E1) as (Hp1 & Ho1 & _ & Hl1 & Hv1).
  destruct (IH _ _ _ Hcs Hp1 E2) as (Hp2 & Ho2 & Hl2 & Hv2).
  split; [done|]. split; [by apply Forall_app|].
  rewrite length_app, Nat2Z.inj_add. cbn [length stream_val]. split; [lia|].
  rewrite stream_val_app by lia.
  rewrite (Z.mul_add_distr_l 8), Z.pow_add_r by lia.
  assert (2 ^ (8 * Z.of_nat (length out1)) * (out_buffer p1 + 2 ^ out_bits p1 * stream_val bits cs)
    = 2 ^ (8 * Z.of_nat (length out1)) * (stream_val 8 out2 +
        2 ^ (8 * Z.of_nat (length out2)) * out_buffer p2)) as Hm by (f_equal; exact Hv2).
  assert (2 ^ out_bits p * 2 ^ bits = 2 ^ (8 * Z.of_nat (length out1)) * 2 ^ out_bits p1) as Hw.
  { rewrite <- !Z.pow_add_r by (destruct Hp, Hp1; lia). f_equal. lia. }
  transitivity (out_buffer p + 2 ^ out_bits p * c +
    (2 ^ out_bits p * 2 ^ bits) * stream_val bits cs); [ring|].
  rewrite Hw, Hv1. lia.
Qed.

(** The flush loop ends as soon as the bits make whole bytes, with the buffer
    empty: it packs [f'] zero codes. *)
Lemma pack_flush_spec bits fuel f p :
  1 <= bits <= 8 -> packer_ok p -> (out_bits p + bits * Z.of_nat f) mod 8 = 0 ->
  (f <= fuel)%nat ->
  exists f' out, pack_flush fuel (if 0 <? out_bits p then 1 else 0) bits p = Some out /\
    (f' <= f)%nat /\ pack_all bits (replicate f' 0) p = (packer0, out).
Proof.
  intros Hb. revert f p. induction fuel as [|fuel IH]; intros f p Hp Hz Hf.
  all: destruct (Z.ltb_spec 0 (out_bits p)) as [Hpos|Hpos];
    [|exists 0%nat, []; destruct p as [ob on]; destruct Hp as [? Hp0]; cbn [out_bits out_buffer] in *;
      assert (on = 0) as -> by lia; norm_pow; change (2 ^ 0) with 1 in Hp0;
      assert (ob = 0) as -> by lia; repeat split; lia].
  all: destruct f as [|f];
    [destruct Hp; rewrite Z.mul_0_r, Z.add_0_r, Z.mod_small in Hz by lia; lia|].
  { lia. }
  cbn [pack_flush]. change (1 =? 0) with false. cbv iota.
  destruct (pack_output 0 bits p) as [[r p1] out1] eqn:E1.
  destruct (pack_output_spec 0 _ _ _ _ _ Hb ltac:(split; [lia|apply Z.pow_pos_nonneg; lia])
    Hp E1) as (Hp1 & _ & -> & Hl & _).
  destruct (IH f p1 Hp1) as (f' & out & He & Hle & Hall); [|lia|].
  { rewrite <- Hz. replace (out_bits p + bits * Z.of_nat (S f)) with
      (out_bits p1 + bits * Z.of_nat f + Z.of_nat (length out1) * 8) by lia.
    by rewrite Z.mod_add by lia. }
  exists (S f'), (out1 ++ out). rewrite He. split; [done|]. split; [lia|].
  cbn [replicate pack_all]. by rewrite E1, Hall.
Qed.

(** The encoder program packs the codes of the coder and [f <= 7] zeros. *)
Lemma encode_main_spec enc coding bits samples st p resid n :
  1 <= bits <= 8 -> packer_ok p ->
  (forall x st, 0 <= fst (enc x coding st) < 2 ^ bits) ->
  (out_bits p + bits * n) mod 8 = 0 -> 0 <= n ->
  resid = (if 0 <? out_bits p then 1 else 0) ->
  let codes := fst (run_coder enc coding samples st) in
  exists f bytes, encode_main enc coding bits samples resid st p = Some bytes /\
    (f <= 7)%nat /\ pack_all bits (codes ++ replicate f 0) p = (packer0, bytes).
Proof.
  intros Hb Hp He. revert st p resid n Hp.
  induction samples as [|x xs IH]; intros st p resid n Hp Hz Hn ->; cbn [run_coder encode_main fst].
  - destruct (pack_flush_spec bits 8 (Z.to_nat (n mod 8)) p) as (f & out & ? & ? & ?); try done.
    + rewrite Z2Nat.id by (apply Z.mod_pos_bound; lia).
      rewrite <- Hz. rewrite Z.add_mod, (Z.add_mod _ (bits * n)) by lia. f_equal. f_equal.
      by rewrite Z.mul_mod_idemp_r by lia.
    + pose proof (Z.mod_pos_bound n 8). lia.
    + pose proof (Z.mod_pos_bound n 8). exists f, out. split; [done|]. split; [lia|done].
  - specialize (He x st) as Hc. destruct (enc x coding st) as [c st1]. cbn [fst] in Hc.
    assert (2 ^ bits <= 2 ^ 8) by (apply Z.pow_le_mono_r; lia). norm_pow.
    rewrite u8_id by lia. destruct (pack_output c bits p) as [[r p1] out1] eqn:E1.
    destruct (pack_output_spec _ _ _ _ _ _ Hb Hc Hp E1) as (Hp1 & _ & -> & Hl & _).
    destruct (IH st1 p1 (if 0 <? out_bits p1 then 1 else 0) (n + 7) Hp1) as (f & out & Hm & Hf & Ha);
      [|lia|done|].
    { rewrite <- Hz. replace (out_bits p + bits * n) with
        (out_bits p1 + bits * (n + 7) + (Z.of_nat (length out1) - bits) * 8) by lia.
      by rewrite Z.mod_add by lia. }
    rewrite Hm. destruct (run_coder enc coding xs st1) as [codes st2]. cbn [fst] in Ha |- *.
    exists f, (out1 ++ out). split; [done|]. split; [done|].
    cbn [app pack_all]. by rewrite E1, Ha.
Qed.

(** ** Unpacking *)

Definition unpacker_ok (u : unpacker) : Prop :=
  0 <= in_bits u < 8 /\ 0 <= in_buffer u < 2 ^ in_bits u.

(** The number still to be read, and its width. *)
Definition pending_val (u : unpacker) (input : list Z) : Z :=
  in_buffer u + 2 ^ in_bits u * stream_val 8 input.
Definition pending_bits (u : unpacker) (input : list Z) : Z :=
  in_bits u + 8 * Z.of_nat (length input).

Lemma split_low b n B R :
  0 <= b <= n -> 0 <= B ->
  (B + 2 ^ n * R) mod 2 ^ b = B mod 2 ^ b /\
  (B + 2 ^ n * R) / 2 ^ b = B / 2 ^ b + 2 ^ (n - b) * R.
Proof.
  intros Hb HB. assert (0 < 2 ^ b) by (apply Z.pow_pos_nonneg; lia).
  replace (2 ^ n) with (2 ^ (n - b) * 2 ^ b) by (rewrite <- Z.pow_add_r by lia; f_equal; lia).
  replace (B + 2 ^ (n - b) * 2 ^ b * R) with (B + (2 ^ (n - b) * R) * 2 ^ b) by ring.
  rewrite Z.mod_add, Z.div_add by lia. auto.
Qed.

Lemma unpack_input_spec bits u input :
  1 <= bits <= 8 -> unpacker_ok u -> digits_ok 8 input ->
  if pending_bits u input <? bits then exists u' i', unpack_input bits u input = (-1, 0, u', i')
  else exists r u' i', unpack_input bits u input = (r, pending_val u input mod 2 ^ bits, u', i') /\
    0 <= r /\ unpacker_ok u' /\ digits_ok 8 i' /\
    pending_bits u' i' = pending_bits u input - bits /\
    pending_val u' i' = pending_val u input / 2 ^ bits.
Proof.
  intros Hb [Hn Hbuf] Hi. unfold unpack_input, pending_bits, pending_val, unpacker_ok.
  assert (Hmask : (1 << bits) - 1 = Z.ones bits) by (rewrite Z.ones_equiv, shl_mul by lia; lia).
  assert (H8 : 2 ^ bits <= 2 ^ 8) by (apply Z.pow_le_mono_r; lia). norm_pow.
  set (n := in_bits u) in *. set (b := in_buffer u) in *. clearbody n b.
  assert (Hpow : forall k, 0 <= k -> 0 < 2 ^ k) by (intros; apply Z.pow_pos_nonneg; lia).
  assert (Htake : forall B m R, bits <= m -> 0 <= B < 2 ^ m ->
    u8 (B .& ((1 << bits) - 1)) = (B + 2 ^ m * R) mod 2 ^ bits /\
    (B >> bits) + 2 ^ (m - bits) * R = (B + 2 ^ m * R) / 2 ^ bits /\
    0 <= B >> bits < 2 ^ (m - bits)).
  { intros B m R Hm HB. destruct (split_low bits m B R) as [-> ->]; [lia|lia|].
    rewrite Hmask, land_mask, shr_div by lia.
    pose proof (Z.mod_pos_bound B (2 ^ bits) (Hpow bits ltac:(lia))).
    rewrite u8_id by lia. split; [done|]. split; [done|]. split.
    - apply Z.div_pos; [lia|apply Hpow; lia].
    - apply Z.div_lt_upper_bound; [apply Hpow; lia|].
      rewrite <- Z.pow_add_r by lia. replace (bits + (m - bits)) with m by lia. lia. }
  destruct (Z.ltb_spec n bits).
  - destruct input as [|y ys].
    + cbn [length]. destruct (Z.ltb_spec (n + 8 * Z.of_nat 0) bits); [eauto|lia].
    + apply Forall_cons_1 in Hi as [Hy Hys]. norm_pow.
      cbn [length stream_val]. destruct (Z.ltb_spec (n + 8 * Z.of_nat (S (length ys))) bits); [lia|].
      assert (2 ^ (n + 8) <= 2 ^ 15) by (apply Z.pow_le_mono_r; lia).
      assert (2 ^ (n + 8) = 2 ^ n * 256) as Hp8 by (rewrite Z.pow_add_r by lia; done).
      assert (0 <= y * 2 ^ n + b < 2 ^ (n + 8)) as HB by (specialize (Hpow n); nia).
      norm_pow. rewrite (u32_id (y << n)) by (rewrite shl_mul by lia; nia).
      rewrite (Z.lor_comm b), lor_shl_add, u32_id by lia.
      destruct (Htake _ (n + 8) (stream_val 8 ys) ltac:(lia) HB) as (Hc & Hv & Hr).
      assert (y * 2 ^ n + b + 2 ^ (n + 8) * stream_val 8 ys =
              b + 2 ^ n * (y + 256 * stream_val 8 ys)) as Hval by (rewrite Hp8; ring).
      rewrite Hval in Hc, Hv.
      eexists _, _, ys. split; [by rewrite Hc|].
      cbn [in_bits in_buffer]. split; [case_if; lia|]. split; [split; [lia|exact Hr]|].
      split; [done|]. split; [lia|exact Hv].
  - destruct (Z.ltb_spec (n + 8 * Z.of_nat (length input)) bits); [lia|].
    destruct (Htake b n (stream_val 8 input) ltac:(lia) Hbuf) as (Hc & Hv & Hr).
    eexists _, _, input. split; [by rewrite Hc|].
    cbn [in_bits in_buffer]. split; [case_if; lia|]. split; [split; [lia|exact Hr]|].
    split; [done|]. split; [lia|done].
Qed.

(** The decoder program on a stream that holds exactly [codes]. *)
Lemma decode_main_spec dec coding bits out_size codes u input st fuel :
  1 <= bits <= 8 -> unpacker_ok u -> digits_ok 8 input -> digits_ok bits codes ->
  pending_bits u input = bits * Z.of_nat (length codes) ->
  pending_val u input = stream_val bits codes ->
  (length codes < fuel)%nat ->
  decode_main fuel dec coding bits out_size u input st =
  Some (map (fun sample => if out_size =? 2 then s16 sample else u8 (s16 sample))
         (fst (run_coder dec coding codes st))).
Proof.
  intros Hb. revert codes u input st. induction fuel as [|fuel IH];
    intros codes u input st Hu Hi Hc Hl Hv Hf; [lia|]. cbn [decode_main].
  pose proof (unpack_input_spec bits u input Hb Hu Hi) as Hs. rewrite Hl in Hs.
  destruct codes as [|c cs]; cbn [length] in *.
  - rewrite Z.mul_0_r in Hs. destruct (Z.ltb_spec 0 bits); [|lia].
    destruct Hs as (u' & i' & ->). done.
  - destruct (Z.ltb_spec (bits * Z.of_nat (S (length cs))) bits); [lia|].
    destruct Hs as (r & u' & i' & -> & Hr & Hu' & Hi' & Hl' & Hv').
    apply Forall_cons_1 in Hc as [Hc Hcs].
    assert (pending_val u input mod 2 ^ bits = c /\
            pending_val u input / 2 ^ bits = stream_val bits cs) as [-> Hd].
    { rewrite Hv. cbn [stream_val]. rewrite (Z.mul_comm (2 ^ bits)).
      rewrite Z.mod_add, Z.div_add by lia. rewrite Z.mod_small, Z.div_small by lia. lia. }
    destruct (Z.ltb_spec r 0); [lia|]. cbn [run_coder].
    destruct (dec c coding st) as [sample st1].
    rewrite (IH cs u' i' st1); [|done|done|done|lia|congruence|lia].
    destruct (run_coder dec coding cs st1). done.
Qed.

(** ** Encoder program followed by decoder program *)

(** Code size, encoder and decoder selected by the options -3, -4 and -5. *)
Definition rates : list (Z * (Z -> Z -> g72x_state -> Z * g72x_state) *
                             (Z -> Z -> g72x_state -> Z * g72x_state)) :=
  [(3, g723_24_encoder, g723_24_decoder); (4, g721_encoder, g721_decoder);
   (5, g723_40_encoder, g723_40_decoder)].

Lemma rates_codes bits enc dec c :
  (bits, enc, dec) ∈ rates ->
  In c [AUDIO_ENCODING_ULAW; AUDIO_ENCODING_ALAW; AUDIO_ENCODING_LINEAR] ->
  1 <= bits <= 8 /\ forall x st, 0 <= fst (enc x c st) < 2 ^ bits.
Proof.
  intros Hr Hc. assert (forall x, is_Some (linearize c x)) as Hl.
  { intros x. simpl in Hc. unfold linearize. naive_solver. }
  unfold rates in Hr. rewrite !elem_of_cons in Hr.
  destruct Hr as [Hr|[Hr|[Hr|Hr%not_elem_of_nil]]]; try done; injection Hr as -> -> ->;
    (split; [lia|]); intros x st; pose proof (encoder_codes x c st (Hl x)) as He; norm_pow; lia.
Qed.

Lemma run_coder_codes enc c bits samples st :
  (forall x st, 0 <= fst (enc x c st) < 2 ^ bits) ->
  digits_ok bits (fst (run_coder enc c samples st)).
Proof.
  intros He. revert st. induction samples as [|x xs IH]; intros st; [constructor|].
  cbn [run_coder]. specialize (He x st) as Hx. destruct (enc x c st) as [i st1].
  specialize (IH st1). destruct (run_coder enc c xs st1). by constructor.
Qed.

Lemma encode_main_codes enc c bits x xs resid :
  1 <= bits <= 8 -> (forall x st, 0 <= fst (enc x c st) < 2 ^ bits) ->
  exists f bytes, encode_main enc c bits (x :: xs) resid g72x_init_state packer0 = Some bytes /\
    (f <= 7)%nat /\
    pack_all bits (fst (run_coder enc c (x :: xs) g72x_init_state) ++ replicate f 0) packer0
      = (packer0, bytes).
Proof.
  intros Hb He. change (encode_main enc c bits (x :: xs) resid g72x_init_state packer0)
    with (encode_main enc c bits (x :: xs) 0 g72x_init_state packer0).
  apply (encode_main_spec enc c bits (x :: xs) g72x_init_state packer0 0 0);
    [done|split; simpl; lia|done|simpl; by rewrite Z.mul_0_r|done|done].
Qed.

Lemma decode_main_codes dec c bits size codes bytes fuel :
  1 <= bits <= 8 -> digits_ok bits codes -> pack_all bits codes packer0 = (packer0, bytes) ->
  (length codes < fuel)%nat ->
  decode_main fuel dec c bits size unpacker0 bytes g72x_init_state =
    Some (map (fun sample => if size =? 2 then s16 sample else u8 (s16 sample))
           (fst (run_coder dec c codes g72x_init_state))).
Proof.
  intros Hb Hd Hpa Hf. assert (packer_ok packer0) as Hp0 by (split; simpl; lia).
  destruct (pack_all_spec _ _ _ _ _ Hb Hd Hp0 Hpa) as (_ & Ho & Hl & Hv). simpl in Hl, Hv.
  change (2 ^ 0) with 1 in Hv.
  apply decode_main_spec;
    [done|split; simpl; lia|done|done|unfold pending_bits; simpl; lia
    |unfold pending_val; simpl; change (2 ^ 0) with 1; lia|done].
Qed.

(** What the options of the two programs select. *)
Definition encode_choice (o : coder_options) : Prop :=
  (code_bits o, routine o) ∈ map fst rates /\
  In (coding o) [AUDIO_ENCODING_ULAW; AUDIO_ENCODING_ALAW; AUDIO_ENCODING_LINEAR].

Definition decode_choice (o : coder_options) : Prop :=
  (code_bits o, routine o) ∈ map (fun r => (fst (fst r), snd r)) rates.

(** Choose the member by the routine the goal names. *)
Ltac by_rates :=
  unfold rates; cbn [map fst snd]; rewrite !elem_of_cons;
  match goal with
  | |- (_, g723_24_encoder) = _ \/ _ => left
  | |- (_, g723_24_decoder) = _ \/ _ => left
  | |- (_, g721_encoder) = _ \/ _ => right; left
  | |- (_, g721_decoder) = _ \/ _ => right; left
  | |- (_, g723_40_encoder) = _ \/ _ => right; right; left
  | |- (_, g723_40_decoder) = _ \/ _ => right; right; left
  end; reflexivity.

Lemma encode_options_choice argv o o' :
  encode_choice o -> encode_options argv o = Some o' -> encode_choice o'.
Proof.
  revert o. induction argv as [|arg argv IH]; intros o Ho He; cbn [encode_options] in He.
  { injection He as <-. exact Ho. }
  destruct Ho as [Hr Hc]. cbv zeta in He.
  repeat (destruct (_ =? _) in He);
    first [ discriminate He | injection He as <-; by split
          | refine (IH _ _ He); split; cbn [code_bits routine coding];
            [ first [ by_rates | exact Hr ] | first [ exact Hc | simpl; tauto ] ] ].
Qed.

Lemma decode_options_choice argv o o' :
  decode_choice o -> decode_options argv o = Some o' -> decode_choice o'.
Proof.
  revert o. induction argv as [|arg argv IH]; intros o Ho He; cbn [decode_options] in He.
  { injection He as <-. exact Ho. }
  cbv zeta in He.
  repeat (destruct (_ =? _) in He);
    first [ discriminate He | injection He as <-; exact Ho
          | refine (IH _ _ He); unfold decode_choice; cbn [code_bits routine coding];
            first [ by_rates | exact Ho ] ].
Qed.

Lemma choices_rate e d :
  encode_choice e -> decode_choice d -> code_bits e = code_bits d ->
  (code_bits e, routine e, routine d) ∈ rates.
Proof.
  intros [He _] Hd. unfold decode_choice in Hd. unfold rates in He, Hd.
  cbn [map fst snd] in He, Hd. rewrite !elem_of_cons in He, Hd.
    destruct He as [He|[He|[He|He%not_elem_of_nil]]]; try done; injection He as -> ->;
    destruct Hd as [Hd|[Hd|[Hd|Hd%not_elem_of_nil]]]; try done; injection Hd as -> ->;
    intros Heq; first [discriminate Heq | by_rates].
Qed.

(** C38.  Piping the encoder program into the decoder program, run with any
    options that select the same rate: on a non-empty input the encoder
    terminates, and the decoder program outputs exactly the decoder's samples
    for the encoder's codes followed by at most seven zero codes of padding;
    no code is lost, split or reordered by the bit packing. *)
Theorem encode_decode_pipe eargs dargs e d x xs resid fuel :
  encode_options eargs encode_defaults = Some e ->
  decode_options dargs decode_defaults = Some d ->
  code_bits e = code_bits d ->
  let codes := fst (run_coder (routine e) (coding e) (x :: xs) g72x_init_state) in
  (length codes + 7 < fuel)%nat ->
  exists bytes f,
    encode_program eargs (x :: xs) resid = Some bytes /\ (f <= 7)%nat /\
    decode_program fuel dargs bytes =
      Some (map (fun sample => if sample_size d =? 2 then s16 sample else u8 (s16 sample))
             (fst (run_coder (routine d) (coding d) (codes ++ replicate f 0) g72x_init_state))).
Proof.
  intros Hee Hdd Hbits codes Hf. unfold encode_program, decode_program.
  rewrite Hee, Hdd. cbn [mbind option_bind]. rewrite <- Hbits.
  assert (encode_choice e) as Hce.
  { eapply encode_options_choice; [|exact Hee].
    split; [cbn [code_bits routine encode_defaults]; by_rates|simpl; tauto]. }
  assert (decode_choice d) as Hcd.
  { eapply decode_options_choice; [|exact Hdd]. unfold decode_choice. cbn [code_bits routine decode_defaults]. by_rates. }
  pose proof (choices_rate _ _ Hce Hcd Hbits) as Hr. destruct Hce as [_ Hc].
  destruct (rates_codes _ _ _ _ Hr Hc) as [Hb He].
  destruct (encode_main_codes (routine e) (coding e) (code_bits e) x xs resid Hb He)
    as (f & bytes & Hm & Hf7 & Hpa).
  exists bytes, f. split; [done|]. split; [done|].
  apply (decode_main_codes (routine d) (coding d) (code_bits e)); try done.
  apply Forall_app. split; [by apply run_coder_codes|]. apply Forall_replicate.
  split; [lia|apply Z.pow_pos_nonneg; lia].
  rewrite length_app, length_replicate. subst codes. lia.
Qed.

Lemma encode_decode_pipe_witness :
  exists bytes f,
    encode_program [[45; 52]; [45; 117]] [0x12; 0x80; 0xA5] 0 = Some bytes /\ (f <= 7)%nat /\
    decode_program 20 [[45; 108]] bytes =
      Some (map s16
        (fst (run_coder g721_decoder AUDIO_ENCODING_LINEAR
           (fst (run_coder g721_encoder AUDIO_ENCODING_ULAW [0x12; 0x80; 0xA5] g72x_init_state)
             ++ replicate f 0) g72x_init_state))).
Proof.
  apply (encode_decode_pipe [[45; 52]; [45; 117]] [[45; 108]]
    {| routine := g721_encoder; code_bits := 4; coding := AUDIO_ENCODING_ULAW; sample_size := 1 |}
    {| routine := g721_decoder; code_bits := 4; coding := AUDIO_ENCODING_LINEAR;
       sample_size := 2 |} 0x12 [0x80; 0xA5] 0 20).
  - reflexivity.
  - reflexivity.
  - reflexivity.
  - vm_compute. lia.
Defined.

(** On an empty input the encoder program reads [resid] before any
    assignment: what it writes depends on the indeterminate value. *)
Theorem encode_empty_input :
  encode_program [] [] 0 = Some [] /\ encode_program [] [] 1 = Some [0].
Proof. split; vm_compute; reflexivity. Qed.
