(* ===== verification/BufferPool.v ===== *)
(** * The USRP2 packet buffer pool:
    [usrp2/firmware/lib/memory_map.h] (buffer pool registers),
    [buffer_pool.h], [buffer_pool.c]

    The firmware moves packets between ports by writing command words to the
    buffer pool control register.  The model keeps the register writes in
    order; [command] reads a word back by the layout the header documents, and
    [device] replays a trace of writes into the transfer each buffer holds. *)

From S2P Require Import Prelude.

(** ** Register layout *)

Definition NBUFFERS : Z := 8.

Definition PORT_SERDES : Z := 0.
Definition PORT_DSP : Z := 1.
Definition PORT_ETH : Z := 2.
Definition PORT_RAM : Z := 3.

Definition BPS_DONE (n : Z) : Z := u32 (0x00000001 << n).
Definition BPS_ERROR (n : Z) : Z := u32 (0x00000100 << n).
Definition BPS_IDLE (n : Z) : Z := u32 (0x00010000 << n).

Definition BPC_BUFFER (n : Z) : Z := u32 ((n .& 0xf) << 28).
Definition BPC_BUFFER_NIL : Z := BPC_BUFFER 0x8.
Definition BPC_PORT (n : Z) : Z := u32 ((n .& 0x7) << 25).
Definition BPC_PORT_NIL : Z := BPC_PORT 0x4.
Definition BPC_CLR : Z := 1 << 24.
Definition BPC_READ : Z := 1 << 23.
Definition BPC_WRITE : Z := 1 << 22.
Definition BPC_STEP (step : Z) : Z := u32 ((step .& 0xf) << 18).
Definition BPC_LAST_LINE (line : Z) : Z := u32 ((line .& 0x1ff) << 9).
Definition BPC_FIRST_LINE (line : Z) : Z := u32 ((line .& 0x1ff) << 0).

(** ** Register writes *)

(** What the firmware does to the outside: a write of the buffer pool control
    register, of the clear registers of the DSP pipelines, or a character on
    the console. *)
Inductive io_event :=
| BufferPoolCtrl (w : Z)
| DspTxClearState (v : Z)
| DspRxClearState (v : Z)
| PutChar (c : Z).

Definition io_trace := list io_event.

(** [bp_clear_buf], [bp_disable_port], [bp_receive_to_buf] and
    [bp_send_from_buf]: the word each one writes. *)
Definition bp_clear_buf (bufnum : Z) : io_event :=
  BufferPoolCtrl (BPC_BUFFER bufnum .| BPC_PORT_NIL .| BPC_CLR).

Definition bp_disable_port (portnum : Z) : io_event :=
  BufferPoolCtrl (BPC_BUFFER_NIL .| BPC_PORT portnum).

Definition bp_receive_to_buf (bufnum port step fl ll : Z) : io_event :=
  BufferPoolCtrl (BPC_READ .| BPC_BUFFER bufnum .| BPC_PORT port .| BPC_STEP step
                  .| BPC_FIRST_LINE fl .| BPC_LAST_LINE ll).

Definition bp_send_from_buf (bufnum port step fl ll : Z) : io_event :=
  BufferPoolCtrl (BPC_WRITE .| BPC_BUFFER bufnum .| BPC_PORT port .| BPC_STEP step
                  .| BPC_FIRST_LINE fl .| BPC_LAST_LINE ll).

Definition bp_init : io_trace :=
  [bp_disable_port PORT_SERDES; bp_disable_port PORT_DSP;
   bp_disable_port PORT_ETH; bp_disable_port PORT_RAM] ++
  map (fun i => bp_clear_buf (Z.of_nat i)) (seq 0 (Z.to_nat NBUFFERS)).

(** ** The documented meaning of a command word *)

Inductive transfer :=
| Idle
| Receiving (port step first_line last_line : Z)
| Sending (port step first_line last_line : Z).

Inductive bp_command :=
| CmdTransfer (bufnum : Z) (t : transfer)
| CmdDisablePort (port : Z).

(** Bits [lo .. lo+n-1] of a word. *)
Definition field (w lo n : Z) : Z := (w >> lo) .& Z.ones n.

Definition command (w : Z) : bp_command :=
  let bufnum := field w 28 4 in
  let port := field w 25 3 in
  if field w 28 4 =? 8 then CmdDisablePort port
  else if field w 24 1 =? 1 then CmdTransfer bufnum Idle
  else if field w 23 1 =? 1 then
    CmdTransfer bufnum (Receiving port (field w 18 4) (field w 0 9) (field w 9 9))
  else if field w 22 1 =? 1 then
    CmdTransfer bufnum (Sending port (field w 18 4) (field w 0 9) (field w 9 9))
  else CmdTransfer bufnum Idle.

#[export] Instance Default_transfer : Default transfer := Idle.

(** The transfer each buffer holds after one more write. *)
Definition device_step (dev : list transfer) (e : io_event) : list transfer :=
  match e with
  | BufferPoolCtrl w =>
      match command w with
      | CmdTransfer b t => dev.[b <- t]
      | CmdDisablePort _ => dev
      end
  | _ => dev
  end.

Definition device (dev : list transfer) (tr : io_trace) : list transfer :=
  fold_left device_step tr dev.

Lemma device_app dev t1 t2 : device dev (t1 ++ t2) = device (device dev t1) t2.
Proof. apply fold_left_app. Qed.

Lemma length_device dev tr : length (device dev tr) = length dev.
Proof.
  revert dev. induction tr as [|e tr IH]; intros dev; [done|]. simpl. rewrite IH.
  unfold device_step. destruct e; try done. destruct (command w); [|done].
  by rewrite length_aset.
Qed.

(** ** Fields of the command words *)

Lemma field_spec w lo n i :
  0 <= lo -> 0 <= n -> 0 <= i ->
  Z.testbit (field w lo n) i = (Z.testbit w (lo + i) && (i <? n))%bool.
Proof.
  intros. unfold field. rewrite Z.land_spec, Z.shiftr_spec, Z.testbit_ones_nonneg by lia.
  by rewrite (Z.add_comm i).
Qed.

Lemma field_lor x y lo n :
  0 <= lo -> 0 <= n -> field (x .| y) lo n = field x lo n .| field y lo n.
Proof.
  intros. apply Z.bits_inj'. intros i Hi. rewrite Z.lor_spec, !field_spec, Z.lor_spec by lia.
  by destruct (Z.testbit x (lo + i)), (Z.testbit y (lo + i)), (i <? n).
Qed.

(** A value placed at its own field, and a value placed elsewhere. *)
Lemma field_same v k n : 0 <= k -> 0 <= n -> 0 <= v < 2 ^ n -> field (v << k) k n = v.
Proof.
  intros. unfold field. rewrite Z.shiftr_shiftl_l, Z.sub_diag, Z.shiftl_0_r by lia.
  rewrite land_mask by lia. by apply Z.mod_small.
Qed.

Lemma field_disjoint v k j lo n :
  0 <= k -> 0 <= j -> 0 <= lo -> 0 <= n -> 0 <= v < 2 ^ j -> lo + n <= k \/ k + j <= lo ->
  field (v << k) lo n = 0.
Proof.
  intros Hk Hj Hlo Hn Hv Hd. apply Z.bits_inj'. intros i Hi.
  rewrite field_spec, Z.bits_0 by lia. destruct (Z.ltb_spec i n); [|apply andb_false_r].
  rewrite Z.shiftl_spec, andb_true_r by lia. destruct Hd.
  - rewrite Z.testbit_neg_r by lia. done.
  - apply (high_bits v j); lia.
Qed.

(** Evaluate the fields of a word or-ed from shifted values in range. *)
Ltac fields :=
  rewrite ?field_lor by lia;
  repeat first
    [ rewrite field_same by (norm_pow; lia)
    | match goal with
      | |- context [field (?v << ?k) ?lo ?n] =>
          first [ rewrite (field_disjoint v k 1 lo n) by (norm_pow; lia)
                | rewrite (field_disjoint v k 3 lo n) by (norm_pow; lia)
                | rewrite (field_disjoint v k 4 lo n) by (norm_pow; lia)
                | rewrite (field_disjoint v k 9 lo n) by (norm_pow; lia) ]
      end ];
  rewrite ?Z.lor_0_l, ?Z.lor_0_r.

Lemma BPC_values b p s l f :
  0 <= b < 16 -> 0 <= p < 8 -> 0 <= s < 16 -> 0 <= l < 512 -> 0 <= f < 512 ->
  BPC_BUFFER b = b << 28 /\ BPC_PORT p = p << 25 /\ BPC_STEP s = s << 18 /\
  BPC_LAST_LINE l = l << 9 /\ BPC_FIRST_LINE f = f << 0.
Proof.
  intros. unfold BPC_BUFFER, BPC_PORT, BPC_STEP, BPC_LAST_LINE, BPC_FIRST_LINE.
  change 0xf with (Z.ones 4). change 0x7 with (Z.ones 3). change 0x1ff with (Z.ones 9).
  rewrite !land_mask, !shl_mul by lia. change (2 ^ 0) with 1. norm_pow.
  rewrite !Z.mod_small, !u32_id by lia. repeat split; lia.
Qed.

Section Words.
Context (b p s fl ll : Z).
Context (Hb : 0 <= b < 8) (Hp : 0 <= p < 8) (Hs : 0 <= s < 16).
Context (Hf : 0 <= fl < 512) (Hl : 0 <= ll < 512).

Lemma buffer_not_nil : (b =? 8) = false.
Proof using Hb. apply Z.eqb_neq. lia. Qed.

Lemma command_receive :
  command (BPC_READ .| BPC_BUFFER b .| BPC_PORT p .| BPC_STEP s .| BPC_FIRST_LINE fl
           .| BPC_LAST_LINE ll) = CmdTransfer b (Receiving p s fl ll).
Proof using Hb Hp Hs Hf Hl.
  destruct (BPC_values b p s ll fl) as (-> & -> & -> & -> & ->); try lia.
  unfold command, BPC_READ. fields. by rewrite buffer_not_nil.
Qed.

Lemma command_send :
  command (BPC_WRITE .| BPC_BUFFER b .| BPC_PORT p .| BPC_STEP s .| BPC_FIRST_LINE fl
           .| BPC_LAST_LINE ll) = CmdTransfer b (Sending p s fl ll).
Proof using Hb Hp Hs Hf Hl.
  destruct (BPC_values b p s ll fl) as (-> & -> & -> & -> & ->); try lia.
  unfold command, BPC_WRITE. fields. by rewrite buffer_not_nil.
Qed.

Lemma command_clear : command (BPC_BUFFER b .| BPC_PORT_NIL .| BPC_CLR) = CmdTransfer b Idle.
Proof using Hb.
  destruct (BPC_values b 0 0 0 0) as (-> & _); try lia.
  change BPC_PORT_NIL with (4 << 25). unfold command, BPC_CLR. fields.
  by rewrite buffer_not_nil.
Qed.
End Words.

(** The command words mean what the register documentation says: for
    arguments that fit their fields, each buffer pool routine issues exactly
    the transfer (direction, buffer, port, step, first and last line) it is
    asked for; clearing makes the buffer idle and disabling a port touches no
    buffer. *)
Theorem bp_commands b p s fl ll :
  0 <= b < NBUFFERS -> 0 <= p < 8 -> 0 <= s < 16 -> 0 <= fl < 512 -> 0 <= ll < 512 ->
  (forall w, bp_receive_to_buf b p s fl ll = BufferPoolCtrl w ->
     command w = CmdTransfer b (Receiving p s fl ll)) /\
  (forall w, bp_send_from_buf b p s fl ll = BufferPoolCtrl w ->
     command w = CmdTransfer b (Sending p s fl ll)) /\
  (forall w, bp_clear_buf b = BufferPoolCtrl w -> command w = CmdTransfer b Idle) /\
  (forall w, bp_disable_port p = BufferPoolCtrl w -> command w = CmdDisablePort p).
Proof.
  unfold NBUFFERS. intros Hb Hp Hs Hf Hl.
  destruct (BPC_values b p s ll fl) as (Eb & Ep & Es & El & Ef); try lia.
  split; [|split; [|split]]; intros w Hw; injection Hw as <-.
  - apply command_receive; lia.
  - apply command_send; lia.
  - apply command_clear; lia.
  - unfold command. change BPC_BUFFER_NIL with (8 << 28). rewrite Ep. fields.
    reflexivity.
Qed.

Lemma bp_commands_witness :
  command (BPC_WRITE .| BPC_BUFFER 5 .| BPC_PORT PORT_ETH .| BPC_STEP 1
           .| BPC_FIRST_LINE 0 .| BPC_LAST_LINE 374) = CmdTransfer 5 (Sending PORT_ETH 1 0 374).
Proof.
  apply (bp_commands 5 PORT_ETH 1 0 374); unfold NBUFFERS, PORT_ETH; try lia. reflexivity.
Defined.
