(* ===== verification/Dbsm.v ===== *)
(** * The double buffering state machine: [usrp2/firmware/lib/dbsm.c], [dbsm.h]

    The machine moves packets from a source port to a destination port
    through two buffers.  The model threads the whole state of the component:
    the [dbsm_t] object, the static [buffer_state] array, the hardware
    [last_line] registers it reads, the register writes it makes, and the
    application state the inspector callback works on.

    The theorems: the software's view of the two buffers agrees with the
    transfers the buffer pool is executing, but for the transfer that an overrun
    clears, and the machine refines a FIFO queue.  The runs they are about
    interleave status words, underruns, overruns, starts and stops, and the
    hardware's own writes of the [last_line] registers. *)

From S2P Require Import Prelude BufferPool.

(** ** Data *)

Inductive buffer_state_t := BS_EMPTY | BS_FILLING | BS_FULL | BS_EMPTYING.

#[export] Instance buffer_state_eq_dec : EqDecision buffer_state_t.
Proof. solve_decision. Defined.
#[export] Instance Default_buffer_state : Default buffer_state_t := BS_EMPTY.

Definition is_state (x y : buffer_state_t) : bool := bool_decide (x = y).

Record buf_cmd_args_t := { port : Z; first_line : Z; last_line : Z }.

Record dbsm_t := {
  buf0 : Z;
  running : bool;
  rx_idle : bool;
  tx_idle : bool;
  recv_args : buf_cmd_args_t;
  send_args : buf_cmd_args_t;
  precomputed_receive_to_buf_ctrl_word : list Z;
  precomputed_send_from_buf_ctrl_word : list Z;
  last_line_adj : Z
}.

Definition set_running (r : bool) (sm : dbsm_t) : dbsm_t :=
  {| buf0 := buf0 sm; running := r; rx_idle := rx_idle sm; tx_idle := tx_idle sm;
     recv_args := recv_args sm; send_args := send_args sm;
     precomputed_receive_to_buf_ctrl_word := precomputed_receive_to_buf_ctrl_word sm;
     precomputed_send_from_buf_ctrl_word := precomputed_send_from_buf_ctrl_word sm;
     last_line_adj := last_line_adj sm |}.
Definition set_rx_idle (r : bool) (sm : dbsm_t) : dbsm_t :=
  {| buf0 := buf0 sm; running := running sm; rx_idle := r; tx_idle := tx_idle sm;
     recv_args := recv_args sm; send_args := send_args sm;
     precomputed_receive_to_buf_ctrl_word := precomputed_receive_to_buf_ctrl_word sm;
     precomputed_send_from_buf_ctrl_word := precomputed_send_from_buf_ctrl_word sm;
     last_line_adj := last_line_adj sm |}.
Definition set_tx_idle (r : bool) (sm : dbsm_t) : dbsm_t :=
  {| buf0 := buf0 sm; running := running sm; rx_idle := rx_idle sm; tx_idle := r;
     recv_args := recv_args sm; send_args := send_args sm;
     precomputed_receive_to_buf_ctrl_word := precomputed_receive_to_buf_ctrl_word sm;
     precomputed_send_from_buf_ctrl_word := precomputed_send_from_buf_ctrl_word sm;
     last_line_adj := last_line_adj sm |}.

Section Dbsm.
(** The application state, and the inspector stored in the object: whether
    the software handled the packet in the buffer, with its effect. *)
Context {W : Type} (inspect : W -> dbsm_t -> Z -> bool * W).

(** The state a call works on. *)
Record mach := {
  sm : dbsm_t;
  buffer_state : list buffer_state_t;
  status_last_line : list Z;
  trace : io_trace;
  app : W
}.

Definition upd_sm (f : dbsm_t -> dbsm_t) (m : mach) : mach :=
  {| sm := f (sm m); buffer_state := buffer_state m;
     status_last_line := status_last_line m; trace := trace m; app := app m |}.
Definition set_state (b : Z) (s : buffer_state_t) (m : mach) : mach :=
  {| sm := sm m; buffer_state := (buffer_state m).[b <- s];
     status_last_line := status_last_line m; trace := trace m; app := app m |}.
Definition io (e : io_event) (m : mach) : mach :=
  {| sm := sm m; buffer_state := buffer_state m;
     status_last_line := status_last_line m; trace := trace m ++ [e]; app := app m |}.
Definition set_app (a : W) (m : mach) : mach :=
  {| sm := sm m; buffer_state := buffer_state m;
     status_last_line := status_last_line m; trace := trace m; app := a |}.

Definition state_of (m : mach) (b : Z) : buffer_state_t := (buffer_state m).[b].

(** ** Operations *)

Definition dbsm_nop_inspector (a : W) (sm : dbsm_t) (buf_this : Z) : bool * W := (false, a).

(** [None]: [abort()] on an odd buffer number. *)
Definition dbsm_init (buf0 : Z) (recv send : buf_cmd_args_t) (m : mach) : option mach :=
  if ctrue (buf0 .& 0x1) then None
  else
    let receive_word b :=
      BPC_READ .| BPC_BUFFER b .| BPC_PORT (port recv) .| BPC_STEP 1
      .| BPC_FIRST_LINE (first_line recv) .| BPC_LAST_LINE (last_line recv) in
    let send_word b :=
      BPC_WRITE .| BPC_BUFFER b .| BPC_PORT (port send) .| BPC_STEP 1
      .| BPC_FIRST_LINE (first_line send) .| BPC_LAST_LINE 0 in
    let sm' := {|
      buf0 := buf0; running := false; rx_idle := true; tx_idle := true;
      recv_args := recv; send_args := send;
      precomputed_receive_to_buf_ctrl_word := [receive_word buf0; receive_word (buf0 .^ 1)];
      precomputed_send_from_buf_ctrl_word := [send_word buf0; send_word (buf0 .^ 1)];
      last_line_adj := 1 |} in
    Some (set_state (buf0 .^ 1) BS_EMPTY (set_state buf0 BS_EMPTY (upd_sm (fun _ => sm') m))).

Definition dbsm_receive_to_buf (bufno : Z) (m : mach) : mach :=
  io (BufferPoolCtrl (precomputed_receive_to_buf_ctrl_word (sm m)).[bufno .& 1]) m.

Definition dbsm_send_from_buf (bufno : Z) (m : mach) : mach :=
  io (BufferPoolCtrl
       ((precomputed_send_from_buf_ctrl_word (sm m)).[bufno .& 1]
        .| BPC_LAST_LINE (u32 ((status_last_line m).[bufno] - last_line_adj (sm m))))) m.

Definition dbsm_start (m : mach) : mach :=
  let b0 := buf0 (sm m) in
  let m := upd_sm (set_running true) m in
  let m := set_state b0 BS_EMPTY m in
  let m := set_state (b0 .^ 1) BS_EMPTY m in
  let m := io (bp_clear_buf b0) m in
  let m := io (bp_clear_buf (b0 .^ 1)) m in
  let m := upd_sm (set_tx_idle true) m in
  let m := upd_sm (set_rx_idle false) m in
  let m := dbsm_receive_to_buf b0 m in
  set_state b0 BS_FILLING m.

Definition dbsm_stop (m : mach) : mach :=
  let b0 := buf0 (sm m) in
  let m := upd_sm (set_running false) m in
  let m := io (bp_clear_buf b0) m in
  let m := io (bp_clear_buf (b0 .^ 1)) m in
  let m := set_state b0 BS_EMPTY m in
  set_state (b0 .^ 1) BS_EMPTY m.

Definition dbsm_process_helper (buf_this : Z) (m : mach) : mach :=
  let buf_other := buf_this .^ 1 in
  let m := io (bp_clear_buf buf_this) m in
  if is_state (state_of m buf_this) BS_FILLING then
    let m := set_state buf_this BS_FULL m in
    let '(handled, a) := inspect (app m) (sm m) buf_this in
    let m := set_app a m in
    if handled then
      let m := dbsm_receive_to_buf buf_this m in
      set_state buf_this BS_FILLING m
    else
      let m :=
        if is_state (state_of m buf_other) BS_EMPTY then
          let m := dbsm_receive_to_buf buf_other m in
          set_state buf_other BS_FILLING m
        else upd_sm (set_rx_idle true) m in
      if tx_idle (sm m) then
        let m := upd_sm (set_tx_idle false) m in
        let m := dbsm_send_from_buf buf_this m in
        set_state buf_this BS_EMPTYING m
      else m
  else
    let m := set_state buf_this BS_EMPTY m in
    let m :=
      if rx_idle (sm m) then
        let m := upd_sm (set_rx_idle false) m in
        let m := dbsm_receive_to_buf buf_this m in
        set_state buf_this BS_FILLING m
      else m in
    if is_state (state_of m buf_other) BS_FULL then
      let m := dbsm_send_from_buf buf_other m in
      set_state buf_other BS_EMPTYING m
    else upd_sm (set_tx_idle true) m.

Definition dbsm_error_helper (buf_this : Z) (m : mach) : mach :=
  let m := io (bp_clear_buf buf_this) m in
  if is_state (state_of m buf_this) BS_FILLING then dbsm_receive_to_buf buf_this m
  else dbsm_send_from_buf buf_this m.

Definition when (c : bool) (f : mach -> mach) (m : mach) : mach := if c then f m else m.

(** The error part and the done part of [dbsm_process_status]. *)
Definition process_errors (status : Z) (m : mach) : mach :=
  let b0 := buf0 (sm m) in
  if ctrue (status .& (BPS_ERROR b0 .| BPS_ERROR (b0 .^ 1))) then
    let m := io (PutChar 69) m in
    let m := when (ctrue (status .& BPS_ERROR b0)) (dbsm_error_helper b0) m in
    when (ctrue (status .& BPS_ERROR (b0 .^ 1))) (dbsm_error_helper (b0 .^ 1)) m
  else m.

Definition dbsm_process_status (status : Z) (m : mach) : mach :=
  if negb (running (sm m)) then m
  else
    let b0 := buf0 (sm m) in
    let m := process_errors status m in
    let m := when (ctrue (status .& BPS_DONE b0)) (dbsm_process_helper b0) m in
    when (ctrue (status .& BPS_DONE (b0 .^ 1))) (dbsm_process_helper (b0 .^ 1)) m.

Definition dbsm_handle_tx_underrun (m : mach) : mach :=
  let b0 := buf0 (sm m) in
  let m := io (DspTxClearState 1) m in
  if is_state (state_of m b0) BS_EMPTYING then
    let m := io (bp_clear_buf b0) m in
    let m := io (DspTxClearState 1) m in
    dbsm_process_helper b0 m
  else if is_state (state_of m (b0 .^ 1)) BS_EMPTYING then
    let m := io (bp_clear_buf (b0 .^ 1)) m in
    let m := io (DspTxClearState 1) m in
    dbsm_process_helper (b0 .^ 1) m
  else m.

Definition dbsm_handle_rx_overrun (m : mach) : mach :=
  let b0 := buf0 (sm m) in
  let m := io (DspRxClearState 1) m in
  let m := when (is_state (state_of m b0) BS_FILLING) (io (bp_clear_buf b0)) m in
  when (is_state (state_of m (b0 .^ 1)) BS_FILLING) (io (bp_clear_buf (b0 .^ 1))) m.

(** The busy wait reads the status register until one of the bits of the
    emptying buffer shows; [reads] are the successive values read, and the
    result is what is left of them ([None]: still spinning at the end). *)
Fixpoint wait_status (mask : Z) (reads : list Z) : option (list Z) :=
  match reads with
  | [] => None
  | s :: reads' => if s .& mask =? 0 then wait_status mask reads' else Some reads'
  end.

Definition dbsm_wait_for_opening (m : mach) (reads : list Z) : option (list Z) :=
  let b0 := buf0 (sm m) in
  let mask b := BPS_DONE b .| BPS_ERROR b .| BPS_IDLE b in
  if is_state (state_of m b0) BS_EMPTYING then wait_status (mask b0) reads
  else if is_state (state_of m (b0 .^ 1)) BS_EMPTYING then
    wait_status (mask (b0 .^ 1)) reads
  else Some reads.

(** ** The buffers of a machine *)

Definition args_ok (a : buf_cmd_args_t) : Prop :=
  0 <= port a < 8 /\ 0 <= first_line a < 512 /\ 0 <= last_line a < 512.

(** The object [dbsm_init] builds. *)
Record sm_ok (s : dbsm_t) : Prop := {
  ok_buf0 : 0 <= buf0 s <= 6;
  ok_even : buf0 s mod 2 = 0;
  ok_recv : args_ok (recv_args s);
  ok_send : args_ok (send_args s);
  ok_receive_words : precomputed_receive_to_buf_ctrl_word s =
    map (fun b => BPC_READ .| BPC_BUFFER b .| BPC_PORT (port (recv_args s)) .| BPC_STEP 1
                  .| BPC_FIRST_LINE (first_line (recv_args s))
                  .| BPC_LAST_LINE (last_line (recv_args s))) [buf0 s; buf0 s .^ 1];
  ok_send_words : precomputed_send_from_buf_ctrl_word s =
    map (fun b => BPC_WRITE .| BPC_BUFFER b .| BPC_PORT (port (send_args s)) .| BPC_STEP 1
                  .| BPC_FIRST_LINE (first_line (send_args s)) .| BPC_LAST_LINE 0)
        [buf0 s; buf0 s .^ 1]
}.

(** [b] is one of the two buffers of the machine. *)
Definition owns (s : dbsm_t) (b : Z) : Prop := b = buf0 s \/ b = buf0 s .^ 1.

Lemma even_xor1 b : b mod 2 = 0 -> b .^ 1 = b + 1.
Proof.
  intros Hb. symmetry. apply Z.add_nocarry_lxor.
  apply Z.bits_inj'. intros i Hi. rewrite Z.land_spec, Z.bits_0.
  destruct (Z.eq_dec i 0) as [->|].
  - rewrite <- (Z.mod_pow2_bits_low b 1) by lia. change (2 ^ 1) with 2. by rewrite Hb.
  - rewrite (high_bits 1 1 i) by lia. apply andb_false_r.
Qed.

Lemma xor1_xor1 b : b .^ 1 .^ 1 = b.
Proof. apply lxor_cancel. Qed.

Lemma owns_range s b :
  sm_ok s -> owns s b -> 0 <= b < 8 /\ 0 <= b .^ 1 < 8 /\ b <> b .^ 1 /\ owns s (b .^ 1).
Proof.
  intros Hs Hb. pose proof (ok_buf0 _ Hs). pose proof (ok_even _ Hs) as He.
  unfold owns in *. rewrite (even_xor1 _ He) in *.
  destruct Hb as [-> | ->].
  - rewrite even_xor1 by done. split; [divlia|]. split; [divlia|]. split; [lia|]. by right.
  - rewrite <- (even_xor1 _ He), xor1_xor1, even_xor1 by done.
    split; [divlia|]. split; [lia|]. split; [lia|]. by left.
Qed.

Lemma word_of {B} `{Default B} (f : Z -> B) s b :
  sm_ok s -> owns s b -> (map f [buf0 s; buf0 s .^ 1]).[b .& 1] = f b.
Proof.
  intros Hs Hb. pose proof (ok_buf0 _ Hs). pose proof (ok_even _ Hs) as He.
  change 1 with (Z.ones 1) at 2. rewrite land_mask by lia. change (2 ^ 1) with 2.
  destruct Hb as [-> | ->]; [by rewrite He|]. rewrite (even_xor1 _ He).
  replace ((buf0 s + 1) mod 2) with 1 by divlia. done.
Qed.

(** ** What the hardware executes *)

Context (dev0 : list transfer) (Hdev0 : length dev0 = 8%nat).

Definition devof (m : mach) : list transfer := device dev0 (trace m).

(** The transfers the machine starts: into a buffer, and out of buffer [b],
    up to the line the hardware reports it filled. *)
Definition receive_transfer (s : dbsm_t) : transfer :=
  Receiving (port (recv_args s)) 1 (first_line (recv_args s)) (last_line (recv_args s)).
Definition send_transfer (m : mach) (b : Z) : transfer :=
  Sending (port (send_args (sm m))) 1 (first_line (send_args (sm m)))
    (u32 ((status_last_line m).[b] - last_line_adj (sm m)) .& 0x1ff).

Lemma devof_io e m : devof (io e m) = device_step (devof m) e.
Proof. unfold devof. cbn [io trace]. by rewrite device_app. Qed.

Lemma length_devof m : length (devof m) = 8%nat.
Proof using Hdev0. unfold devof. by rewrite length_device. Qed.

Lemma devof_clear b m : 0 <= b < 8 -> devof (io (bp_clear_buf b) m) = (devof m).[b <- Idle].
Proof.
  intros Hb. rewrite devof_io. unfold device_step, bp_clear_buf. by rewrite command_clear by lia.
Qed.

Lemma devof_rx v m : devof (io (DspRxClearState v) m) = devof m.
Proof. by rewrite devof_io. Qed.

Lemma devof_receive b m :
  sm_ok (sm m) -> owns (sm m) b ->
  devof (dbsm_receive_to_buf b m) = (devof m).[b <- receive_transfer (sm m)].
Proof.
  intros Hs Hb. unfold dbsm_receive_to_buf. rewrite devof_io. unfold device_step.
  rewrite (ok_receive_words _ Hs), (word_of _ _ _ Hs Hb).
  destruct (owns_range _ _ Hs Hb) as (Hr & _). destruct (ok_recv _ Hs) as (? & ? & ?).
  by rewrite command_receive by lia.
Qed.

Lemma devof_send b m :
  sm_ok (sm m) -> owns (sm m) b ->
  devof (dbsm_send_from_buf b m) = (devof m).[b <- send_transfer m b].
Proof.
  intros Hs Hb. unfold dbsm_send_from_buf. rewrite devof_io. unfold device_step.
  rewrite (ok_send_words _ Hs), (word_of _ _ _ Hs Hb).
  destruct (owns_range _ _ Hs Hb) as (Hr & _). destruct (ok_send _ Hs) as (? & ? & ?).
  change (BPC_LAST_LINE 0) with 0. rewrite Z.lor_0_r. unfold send_transfer.
  set (l := u32 _ .& 0x1ff).
  assert (BPC_LAST_LINE (u32 ((status_last_line m).[b] - last_line_adj (sm m))) = BPC_LAST_LINE l)
    as -> by (unfold BPC_LAST_LINE, l; by rewrite <- Z.land_assoc).
  pose proof (land_range (u32 ((status_last_line m).[b] - last_line_adj (sm m))) 0x1ff) as Hl.
  rewrite command_send by (subst l; lia). done.
Qed.

(** ** The invariant *)

(** States of one buffer and of the other one, with the idle flags. *)
Inductive shape : buffer_state_t -> buffer_state_t -> bool -> bool -> Prop :=
| shape_fe : shape BS_FILLING BS_EMPTY false true
| shape_ef : shape BS_EMPTY BS_FILLING false true
| shape_fx : shape BS_FILLING BS_EMPTYING false false
| shape_xf : shape BS_EMPTYING BS_FILLING false false
| shape_ux : shape BS_FULL BS_EMPTYING true false
| shape_xu : shape BS_EMPTYING BS_FULL true false.

Lemma shape_sym s1 s2 r t : shape s1 s2 r t -> shape s2 s1 r t.
Proof. destruct 1; constructor. Qed.

(** The transfer a buffer in state [s] must hold. *)
Definition view (m : mach) (b : Z) (s : buffer_state_t) : transfer :=
  match s with
  | BS_FILLING => receive_transfer (sm m)
  | BS_EMPTYING => send_transfer m b
  | BS_EMPTY | BS_FULL => Idle
  end.

(** A hardware transfer agrees with a state of buffer [b]; after an overrun was
    handled ([lost]) the transfer of a filling buffer may have been cleared. *)
Definition fits (lost : bool) (m : mach) (b : Z) (s : buffer_state_t) (d : transfer) : Prop :=
  d = view m b s \/ (lost = true /\ s = BS_FILLING /\ d = Idle).

Definition agrees (lost : bool) (m : mach) (b : Z) : Prop := fits lost m b (state_of m b) (devof m).[b].

Record base (m : mach) : Prop := {
  inv_sm : sm_ok (sm m);
  inv_running : running (sm m) = true;
  inv_length : length (buffer_state m) = 8%nat;
  inv_shape : shape (state_of m (buf0 (sm m))) (state_of m (buf0 (sm m) .^ 1))
                (rx_idle (sm m)) (tx_idle (sm m))
}.

Definition inv (lost : bool) (m : mach) : Prop := base m /\ forall b, owns (sm m) b -> agrees lost m b.

(** A call leaves the configuration of the object alone. *)
Definition same_config (s s' : dbsm_t) : Prop :=
  buf0 s' = buf0 s /\ recv_args s' = recv_args s /\ send_args s' = send_args s /\
  precomputed_receive_to_buf_ctrl_word s' = precomputed_receive_to_buf_ctrl_word s /\
  precomputed_send_from_buf_ctrl_word s' = precomputed_send_from_buf_ctrl_word s /\
  last_line_adj s' = last_line_adj s.

Lemma same_config_ok s s' : same_config s s' -> sm_ok s -> sm_ok s'.
Proof.
  intros (H1 & H2 & H3 & H4 & H5 & _) []. split; rewrite ?H1, ?H2, ?H3, ?H4, ?H5; done.
Qed.

Lemma same_config_owns s s' b : same_config s s' -> owns s' b <-> owns s b.
Proof. intros (H1 & _). unfold owns. by rewrite H1. Qed.

(** The invariant seen from either buffer of the pair. *)
Lemma base_pair m b :
  sm_ok (sm m) -> owns (sm m) b ->
  running (sm m) = true -> length (buffer_state m) = 8%nat ->
  shape (state_of m b) (state_of m (b .^ 1)) (rx_idle (sm m)) (tx_idle (sm m)) -> base m.
Proof.
  intros Hs Hb Hr Hl Hsh. split; try done.
  destruct Hb as [-> | ->]; [done|]. apply shape_sym. by rewrite xor1_xor1 in Hsh.
Qed.

Lemma owned_pair s b b' : owns s b -> owns s b' -> b' = b \/ b' = b .^ 1.
Proof. intros [-> | ->] [-> | ->]; rewrite ?xor1_xor1; auto. Qed.

Lemma inv_shape_at m b :
  base m -> owns (sm m) b ->
  shape (state_of m b) (state_of m (b .^ 1)) (rx_idle (sm m)) (tx_idle (sm m)).
Proof.
  intros Hi [-> | ->]; [apply (inv_shape _ Hi)|]. rewrite xor1_xor1.
  apply shape_sym, (inv_shape _ Hi).
Qed.

Lemma state_of_set_eq m b s :
  0 <= b < 8 -> length (buffer_state m) = 8%nat -> state_of (set_state b s m) b = s.
Proof. clear. intros. unfold state_of. cbn [set_state buffer_state]. apply aget_aset_eq. lia. Qed.

Lemma state_of_set_ne m b b' s :
  0 <= b -> b <> b' -> state_of (set_state b s m) b' = state_of m b'.
Proof. clear. intros. unfold state_of. cbn [set_state buffer_state]. by apply aget_aset_ne. Qed.

(** The state setters leave the hardware alone. *)
Lemma devof_set_state b s m : devof (set_state b s m) = devof m.
Proof. done. Qed.
Lemma devof_upd_sm f m : devof (upd_sm f m) = devof m.
Proof. done. Qed.
Lemma devof_set_app a m : devof (set_app a m) = devof m.
Proof. done. Qed.

(** ** One transfer completes *)

Lemma state_of_io e m b : state_of (io e m) b = state_of m b.
Proof. done. Qed.
Lemma state_of_upd_sm f m b : state_of (upd_sm f m) b = state_of m b.
Proof. done. Qed.
Lemma state_of_set_app a m b : state_of (set_app a m) b = state_of m b.
Proof. done. Qed.
Lemma state_of_receive c m b : state_of (dbsm_receive_to_buf c m) b = state_of m b.
Proof. done. Qed.
Lemma state_of_send c m b : state_of (dbsm_send_from_buf c m) b = state_of m b.
Proof. done. Qed.

(** Evaluate the state tests and the reads of the state array. *)
Ltac states :=
  repeat first
    [ rewrite !state_of_io | rewrite !state_of_upd_sm | rewrite !state_of_set_app
    | rewrite !state_of_receive | rewrite !state_of_send
    | rewrite !state_of_set_eq by (try assumption; cbn; rewrite ?length_aset; assumption)
    | rewrite !state_of_set_ne by (assumption || lia)
    | match goal with
      | H : state_of ?m ?b = _ |- context [state_of ?m ?b] => rewrite !H
      | |- context [is_state ?x ?y] =>
          is_constructor x;
          let v := eval vm_compute in (is_state x y) in change (is_state x y) with v
      end; cbv iota ].

(** What a call made of buffer [b] and of the other one. *)
Record outcome (m m' : mach) (b : Z) (sb so : buffer_state_t) (rx tx : bool)
    (db do_ : transfer) : Prop := {
  out_config : same_config (sm m) (sm m');
  out_running : running (sm m') = true;
  out_length : length (buffer_state m') = 8%nat;
  out_lines : status_last_line m' = status_last_line m;
  out_b : state_of m' b = sb;
  out_o : state_of m' (b .^ 1) = so;
  out_rx : rx_idle (sm m') = rx;
  out_tx : tx_idle (sm m') = tx;
  out_db : (devof m').[b] = db;
  out_do : (devof m').[b .^ 1] = do_
}.

(** Side conditions on an object that differs from [sm m] in its flags. *)
Ltac owned Hs Hb :=
  first [ exact Hs | exact Hb | assumption
        | refine (same_config_ok _ _ _ Hs); repeat split; reflexivity ].

(** Solve the components of an outcome after the state tests are decided. *)
Ltac outcomes Hs Hb :=
  split; try (cbn; rewrite ?length_aset; done); try (states; reflexivity);
  try (repeat split; reflexivity);
  rewrite ?devof_set_state, ?devof_upd_sm, ?devof_set_app;
  repeat first
    [ rewrite devof_receive by owned Hs Hb | rewrite devof_send by owned Hs Hb
    | rewrite devof_set_state | rewrite devof_upd_sm | rewrite devof_set_app
    | rewrite devof_clear by lia ];
  repeat first
    [ rewrite aget_aset_eq by (rewrite ?length_aset, length_devof; lia)
    | rewrite aget_aset_ne by lia ];
  try done.

Lemma helper_filling m b :
  base m -> owns (sm m) b -> state_of m b = BS_FILLING ->
  let '(handled, a) := inspect (app m) (sm m) b in
  let m' := dbsm_process_helper b m in
  app m' = a /\
  if handled then
    outcome m m' b BS_FILLING (state_of m (b .^ 1)) (rx_idle (sm m)) (tx_idle (sm m))
      (receive_transfer (sm m)) (devof m).[b .^ 1]
  else if is_state (state_of m (b .^ 1)) BS_EMPTY then
    outcome m m' b BS_EMPTYING BS_FILLING false false
      (send_transfer m b) (receive_transfer (sm m))
  else outcome m m' b BS_FULL BS_EMPTYING true false Idle (devof m).[b .^ 1].
Proof using Hdev0 inspect.
  intros Hi Hb Hf. pose proof (inv_sm _ Hi) as Hs. pose proof (inv_length _ Hi) as Hl.
  pose proof (inv_running _ Hi) as Hr.
  destruct (owns_range _ _ Hs Hb) as (Hb8 & Ho8 & Hne & Ho).
  pose proof (inv_shape_at _ _ Hi Hb) as Hsh. rewrite Hf in Hsh.
  destruct (inspect (app m) (sm m) b) as [handled a] eqn:Hins. cbv zeta.
  unfold dbsm_process_helper. states. cbn [app sm set_state io]. rewrite Hins.
  destruct handled.
  { split; [done|]. outcomes Hs Hb. }
  assert ((state_of m (b .^ 1) = BS_EMPTY /\ rx_idle (sm m) = false /\ tx_idle (sm m) = true) \/
          (state_of m (b .^ 1) = BS_EMPTYING /\ rx_idle (sm m) = false /\ tx_idle (sm m) = false))
    as [(Eo & Er & Et)|(Eo & Er & Et)] by (inversion Hsh; auto).
  all: states; cbn [sm set_app upd_sm set_state io dbsm_receive_to_buf set_rx_idle tx_idle];
    rewrite ?Et; (split; [done|]); outcomes Hs Hb.
Qed.

Lemma helper_emptying m b :
  base m -> owns (sm m) b -> state_of m b = BS_EMPTYING ->
  let m' := dbsm_process_helper b m in
  app m' = app m /\
  if is_state (state_of m (b .^ 1)) BS_FULL then
    outcome m m' b BS_FILLING BS_EMPTYING false false
      (receive_transfer (sm m)) (send_transfer m (b .^ 1))
  else outcome m m' b BS_EMPTY BS_FILLING false true Idle (devof m).[b .^ 1].
Proof using Hdev0 inspect.
  intros Hi Hb Hf. pose proof (inv_sm _ Hi) as Hs. pose proof (inv_length _ Hi) as Hl.
  pose proof (inv_running _ Hi) as Hr.
  destruct (owns_range _ _ Hs Hb) as (Hb8 & Ho8 & Hne & Ho).
  pose proof (inv_shape_at _ _ Hi Hb) as Hsh. rewrite Hf in Hsh.
  unfold dbsm_process_helper. cbv zeta. states.
  assert ((state_of m (b .^ 1) = BS_FILLING /\ rx_idle (sm m) = false /\ tx_idle (sm m) = false) \/
          (state_of m (b .^ 1) = BS_FULL /\ rx_idle (sm m) = true /\ tx_idle (sm m) = false))
    as [(Eo & Er & Et)|(Eo & Er & Et)] by (inversion Hsh; auto).
  all: change (rx_idle (sm (set_state b BS_EMPTY (io (bp_clear_buf b) m)))) with (rx_idle (sm m));
    rewrite Er; states; (split; [done|]); outcomes Hs Hb.
Qed.

(** Nothing but the flags of the object changed: same transfers. *)
Lemma view_config m m' b s :
  same_config (sm m) (sm m') -> status_last_line m' = status_last_line m ->
  view m' b s = view m b s.
Proof.
  intros (H1 & H2 & H3 & H4 & H5 & H6) Hl. unfold view, receive_transfer, send_transfer.
  by rewrite H2, H3, H6, Hl.
Qed.

Lemma fits_config lost m m' b s d :
  same_config (sm m) (sm m') -> status_last_line m' = status_last_line m ->
  fits lost m b s d -> fits lost m' b s d.
Proof. intros Hc Hl. unfold fits. by rewrite (view_config m m'). Qed.

Lemma outcome_inv lost m m' b sb so rx tx db do_ :
  sm_ok (sm m) -> owns (sm m) b -> outcome m m' b sb so rx tx db do_ ->
  fits lost m b sb db -> fits lost m (b .^ 1) so do_ -> shape sb so rx tx -> inv lost m'.
Proof.
  intros Hs Hb [Hc Hr Hl Hln Eb Eo Erx Etx Edb Edo] Fb Fo Hsh.
  pose proof (same_config_ok _ _ Hc Hs) as Hs'.
  assert (owns (sm m') b) as Hb' by by apply (same_config_owns _ _ _ Hc).
  split.
  - apply (base_pair _ b); try done. by rewrite Eb, Eo, Erx, Etx.
  - intros b' Hb''. unfold agrees.
    destruct (owned_pair _ _ _ Hb' Hb'') as [-> | ->].
    + rewrite Edb, Eb. by apply (fits_config lost m).
    + rewrite Edo, Eo. by apply (fits_config lost m).
Qed.

Definition active (s : buffer_state_t) : bool := is_state s BS_FILLING || is_state s BS_EMPTYING.

Lemma active_cases s : active s = true -> s = BS_FILLING \/ s = BS_EMPTYING.
Proof. destruct s; cbv; auto; discriminate. Qed.

(** Completing a transfer keeps the invariant; only the other buffer has to
    agree with the hardware before the call. *)
Lemma helper_inv lost m b :
  base m -> owns (sm m) b -> active (state_of m b) = true -> agrees lost m (b .^ 1) ->
  inv lost (dbsm_process_helper b m).
Proof using Hdev0 inspect.
  intros Hi Hb Ha Hag. pose proof (inv_sm _ Hi) as Hs. unfold agrees in Hag.
  pose proof (inv_shape_at _ _ Hi Hb) as Hsh.
  assert (forall b' s, fits lost m b' s (view m b' s)) as Hv by by left.
  destruct (active_cases _ Ha) as [E|E].
  - pose proof (helper_filling m b Hi Hb E) as H. destruct (inspect (app m) (sm m) b) as [h a].
    cbv zeta in H. destruct H as [_ H]. rewrite E in Hsh. destruct h.
    + by eapply outcome_inv; [done|done|exact H|apply (Hv b BS_FILLING)|..].
    + assert (state_of m (b .^ 1) = BS_EMPTY \/ state_of m (b .^ 1) = BS_EMPTYING) as [Eo|Eo]
        by (inversion Hsh; auto).
      * rewrite Eo in H, Hag. change (is_state BS_EMPTY BS_EMPTY) with true in H. cbv iota in H.
        eapply outcome_inv; [done|done|exact H|apply (Hv b BS_EMPTYING)|apply (Hv _ BS_FILLING)|constructor].
      * rewrite Eo in H, Hag. change (is_state BS_EMPTYING BS_EMPTY) with false in H. cbv iota in H.
        eapply outcome_inv; [done|done|exact H|apply (Hv b BS_FULL)|exact Hag|constructor].
  - destruct (helper_emptying m b Hi Hb E) as [_ H]. rewrite E in Hsh.
    assert (state_of m (b .^ 1) = BS_FILLING \/ state_of m (b .^ 1) = BS_FULL) as [Eo|Eo]
      by (inversion Hsh; auto).
    + rewrite Eo in H, Hag. change (is_state BS_FILLING BS_FULL) with false in H. cbv iota in H.
      eapply outcome_inv; [done|done|exact H|apply (Hv b BS_EMPTY)|exact Hag|constructor].
    + rewrite Eo in H. change (is_state BS_FULL BS_FULL) with true in H. cbv iota in H.
      eapply outcome_inv; [done|done|exact H|apply (Hv b BS_FILLING)|apply (Hv _ BS_EMPTYING)|constructor].
Qed.

(** The helper never changes the other buffer while it is transferring. *)
Lemma helper_other m b :
  base m -> owns (sm m) b -> active (state_of m b) = true ->
  active (state_of m (b .^ 1)) = true ->
  state_of (dbsm_process_helper b m) (b .^ 1) = state_of m (b .^ 1).
Proof using Hdev0 inspect.
  intros Hi Hb Ha Hao. pose proof (inv_shape_at _ _ Hi Hb) as Hsh.
  destruct (active_cases _ Ha) as [E|E]; rewrite E in Hsh.
  - pose proof (helper_filling m b Hi Hb E) as H. destruct (inspect (app m) (sm m) b) as [h a].
    cbv zeta in H. destruct H as [_ H]. destruct h; [apply (out_o _ _ _ _ _ _ _ _ _ H)|].
    destruct (active_cases _ Hao) as [Eo|Eo]; rewrite Eo in *; [by inversion Hsh|].
    apply (out_o _ _ _ _ _ _ _ _ _ H).
  - destruct (helper_emptying m b Hi Hb E) as [_ H].
    destruct (active_cases _ Hao) as [Eo|Eo]; rewrite Eo in *; [|by inversion Hsh].
    apply (out_o _ _ _ _ _ _ _ _ _ H).
Qed.

(** ** Errors, start, underrun *)

Lemma base_io e m : base m -> base (io e m).
Proof. intros []. by split. Qed.

Lemma error_inv lost m b :
  base m -> owns (sm m) b -> active (state_of m b) = true -> agrees lost m (b .^ 1) ->
  inv lost (dbsm_error_helper b m) /\ sm (dbsm_error_helper b m) = sm m /\
  app (dbsm_error_helper b m) = app m /\
  forall b', state_of (dbsm_error_helper b m) b' = state_of m b'.
Proof using Hdev0 inspect.
  intros Hi Hb Ha Hag. pose proof (inv_sm _ Hi) as Hs. pose proof (inv_length _ Hi) as Hl.
  pose proof (inv_running _ Hi) as Hr.
  destruct (owns_range _ _ Hs Hb) as (Hb8 & Ho8 & Hne & Ho).
  pose proof (inv_shape_at _ _ Hi Hb) as Hsh.
  assert (outcome m (dbsm_error_helper b m) b (state_of m b) (state_of m (b .^ 1))
    (rx_idle (sm m)) (tx_idle (sm m)) (view m b (state_of m b)) (devof m).[b .^ 1]) as Hout.
  { unfold dbsm_error_helper. cbv zeta. rewrite !state_of_io.
    destruct (active_cases _ Ha) as [E|E]; rewrite E; states; outcomes Hs Hb. }
  split; [eapply outcome_inv; [exact Hs|exact Hb|exact Hout|by left|exact Hag|exact Hsh]|].
  unfold dbsm_error_helper. cbv zeta. case_if; done.
Qed.

Lemma start_inv m :
  sm_ok (sm m) -> length (buffer_state m) = 8%nat ->
  inv false (dbsm_start m) /\ state_of (dbsm_start m) (buf0 (sm m)) = BS_FILLING /\
  state_of (dbsm_start m) (buf0 (sm m) .^ 1) = BS_EMPTY.
Proof using Hdev0 inspect.
  intros Hs Hl. assert (owns (sm m) (buf0 (sm m))) as Hb by by left.
  destruct (owns_range _ _ Hs Hb) as (Hb8 & Ho8 & Hne & Ho).
  assert (outcome m (dbsm_start m) (buf0 (sm m)) BS_FILLING BS_EMPTY false true
    (receive_transfer (sm m)) Idle) as Hout.
  { unfold dbsm_start. cbv zeta. outcomes Hs Hb. }
  split; [|split; [apply (out_b _ _ _ _ _ _ _ _ _ Hout)|apply (out_o _ _ _ _ _ _ _ _ _ Hout)]].
  eapply (outcome_inv false m _ (buf0 (sm m))); [done|done|exact Hout|by left|by left|constructor].
Qed.

Lemma agrees_clear lost m b o v :
  0 <= b < 8 -> b <> o -> agrees lost m o ->
  agrees lost (io (DspTxClearState v) (io (bp_clear_buf b) (io (DspTxClearState v) m))) o.
Proof.
  intros Hb Hne Hag. unfold agrees. rewrite devof_io. unfold device_step. rewrite devof_clear by done.
  rewrite aget_aset_ne by lia. rewrite devof_io. exact Hag.
Qed.

Lemma underrun_inv lost m : inv lost m -> inv lost (dbsm_handle_tx_underrun m).
Proof using Hdev0 inspect.
  intros [Hi Hag]. pose proof (inv_sm _ Hi) as Hs.
  assert (forall b, owns (sm m) b -> state_of m b = BS_EMPTYING ->
    inv lost (dbsm_process_helper b (io (DspTxClearState 1)
          (io (bp_clear_buf b) (io (DspTxClearState 1) m))))) as Hgo.
  { intros b Hb E. destruct (owns_range _ _ Hs Hb) as (Hb8 & _ & Hne & Ho).
    apply helper_inv; [by repeat apply base_io|done| |by apply agrees_clear; [..|by apply Hag]].
    rewrite !state_of_io, E. done. }
  unfold dbsm_handle_tx_underrun. cbv zeta. rewrite !state_of_io.
  destruct (is_state (state_of m (buf0 (sm m))) BS_EMPTYING) eqn:E0.
  { apply Hgo; [by left|by apply bool_decide_eq_true in E0]. }
  destruct (is_state (state_of m (buf0 (sm m) .^ 1)) BS_EMPTYING) eqn:E1.
  { apply Hgo; [by right|by apply bool_decide_eq_true in E1]. }
  split; [by apply base_io|]. intros b Hb. specialize (Hag b Hb).
  unfold agrees. rewrite devof_io. exact Hag.
Qed.

(** ** The FIFO specification *)

Context {P : Type} `{Default P}.

(** A packet enters the queue, is consumed by the inspector on arrival,
    leaves in order, or is flushed by an underrun or when the machine is stopped or
    started again. *)
Inductive op := Enq (p : P) | Drop (p : P) | Deq (p : P) | Flush (p : P).

Inductive fifo_step : list P -> op -> list P -> Prop :=
| fifo_enq q p : fifo_step q (Enq p) (q ++ [p])
| fifo_drop q p : fifo_step q (Drop p) q
| fifo_deq q p : fifo_step (p :: q) (Deq p) q
| fifo_flush q p : fifo_step (p :: q) (Flush p) q.

(** Packets that entered and packets that left. *)
Fixpoint entered (ops : list op) : list P :=
  match ops with
  | [] => []
  | Enq p :: ops => p :: entered ops
  | _ :: ops => entered ops
  end.
Fixpoint departed (ops : list op) : list P :=
  match ops with
  | [] => []
  | Deq p :: ops | Flush p :: ops => p :: departed ops
  | _ :: ops => departed ops
  end.

Lemma fifo_order q ops q' :
  lsteps fifo_step q ops q' -> q ++ entered ops = departed ops ++ q'.
Proof.
  induction 1 as [q|q o q1 ops q2 Hs _ IH]; simpl; [by rewrite app_nil_r|].
  destruct Hs; simpl.
  - by rewrite <- IH, <- app_assoc.
  - done.
  - by rewrite IH.
  - by rewrite IH.
Qed.

(** ** The machine with the packets in its buffers *)

Definition config : Type := mach * list P.

(** Completion of the transfer of buffer [b]; [p] is the packet received. *)
Definition done_obs (b : Z) (p : P) (c : config) : list op * list P :=
  let '(m, cont) := c in
  if is_state (state_of m b) BS_FILLING then
    if fst (inspect (app m) (sm m) b) then ([Drop p], cont) else ([Enq p], cont.[b <- p])
  else ([Deq cont.[b]], cont).

Definition observe_status (status : Z) (p0 p1 : P) (c : config) : list op * list P :=
  let '(m, cont) := c in
  if negb (running (sm m)) then ([], cont) else
  let b0 := buf0 (sm m) in
  let m1 := process_errors status m in
  let '(o0, cont) :=
    if ctrue (status .& BPS_DONE b0) then done_obs b0 p0 (m1, cont) else ([], cont) in
  let m2 := when (ctrue (status .& BPS_DONE b0)) (dbsm_process_helper b0) m1 in
  let '(o1, cont) :=
    if ctrue (status .& BPS_DONE (b0 .^ 1)) then done_obs (b0 .^ 1) p1 (m2, cont)
    else ([], cont) in
  (o0 ++ o1, cont).

Definition observe_underrun (c : config) : list op :=
  let '(m, cont) := c in
  let b0 := buf0 (sm m) in
  if is_state (state_of m b0) BS_EMPTYING then [Flush cont.[b0]]
  else if is_state (state_of m (b0 .^ 1)) BS_EMPTYING then [Flush cont.[b0 .^ 1]]
  else [].

(** The queue a configuration stands for: the packet on its way out, then the
    packet waiting in the other buffer. *)
Definition holding (s : buffer_state_t) (m : mach) (cont : list P) (b : Z) : list P :=
  if is_state (state_of m b) s then [cont.[b]] else [].

Definition pending_at (m : mach) (cont : list P) (b : Z) : list P :=
  holding BS_EMPTYING m cont b ++ holding BS_EMPTYING m cont (b .^ 1)
  ++ holding BS_FULL m cont b ++ holding BS_FULL m cont (b .^ 1).

Definition pending (c : config) : list P := pending_at (fst c) (snd c) (buf0 (sm (fst c))).

(** The hardware reports done or error for transfers in progress only. *)
Definition status_ok (m : mach) (status : Z) : Prop :=
  running (sm m) = true -> forall b, owns (sm m) b ->
    (ctrue (status .& BPS_DONE b) = true -> active (state_of m b) = true) /\
    (ctrue (status .& BPS_ERROR b) = true -> active (state_of m b) = true).

(** The hardware writes the last line register of a buffer that it fills. *)
Definition latch (lines : list Z) (m : mach) : mach :=
  {| sm := sm m; buffer_state := buffer_state m; status_last_line := lines; trace := trace m; app := app m |}.

Definition lines_ok (m : mach) (lines : list Z) : Prop :=
  forall b, owns (sm m) b -> state_of m b = BS_FILLING \/ lines.[b] = (status_last_line m).[b].

(** What happens to a machine, and what it means for the packets: the packets that
    are held when it is started or stopped are flushed. *)
Inductive event := Status (w : Z) | Lines | Underrun | Overrun | Start | Stop.

Inductive dstep : config -> event * list op -> config -> Prop :=
| dstep_status m cont status p0 p1 ops cont' :
    status_ok m status ->
    observe_status status p0 p1 (m, cont) = (ops, cont') ->
    dstep (m, cont) (Status status, ops) (dbsm_process_status status m, cont')
| dstep_lines m cont lines : lines_ok m lines -> dstep (m, cont) (Lines, []) (latch lines m, cont)
| dstep_underrun m cont :
    dstep (m, cont) (Underrun, observe_underrun (m, cont)) (dbsm_handle_tx_underrun m, cont)
| dstep_overrun m cont : dstep (m, cont) (Overrun, []) (dbsm_handle_rx_overrun m, cont)
| dstep_start m cont : dstep (m, cont) (Start, map Flush (pending (m, cont))) (dbsm_start m, cont)
| dstep_stop m cont : dstep (m, cont) (Stop, map Flush (pending (m, cont))) (dbsm_stop m, cont).

(** Whether an overrun was handled since the machine was last started. *)
Definition lost_step (lost : bool) (l : event * list op) : bool :=
  match fst l with Overrun => true | Start => false | _ => lost end.
Definition overrun_since_start (ls : list (event * list op)) : bool := fold_left lost_step ls false.

Definition ops_of (ls : list (event * list op)) : list op := mjoin (map snd ls).

(** Both buffers of a stopped machine are empty, and idle in hardware. *)
Record stopped (m : mach) : Prop := {
  st_sm : sm_ok (sm m);
  st_running : running (sm m) = false;
  st_length : length (buffer_state m) = 8%nat;
  st_empty : forall b, owns (sm m) b -> state_of m b = BS_EMPTY /\ (devof m).[b] = Idle
}.

Definition good (lost : bool) (m : mach) : Prop := inv lost m \/ stopped m.

Definition refines (lost : bool) (c : config) (q : list P) : Prop :=
  good lost (fst c) /\ length (snd c) = 8%nat /\ q = pending c.

Lemma pending_at_other m cont b :
  base m -> owns (sm m) b -> pending_at m cont b = pending_at m cont (b .^ 1).
Proof.
  intros Hi Hb. pose proof (inv_shape_at _ _ Hi Hb) as Hsh. unfold pending_at, holding.
  rewrite xor1_xor1. by inversion Hsh.
Qed.

Lemma pending_owned m cont b :
  base m -> owns (sm m) b -> pending (m, cont) = pending_at m cont b.
Proof.
  intros Hi Hb. unfold pending. cbn [fst snd]. destruct Hb as [-> | ->]; [done|].
  apply pending_at_other; [done|by left].
Qed.

Lemma done_step lost m cont b p :
  base m -> owns (sm m) b -> active (state_of m b) = true -> agrees lost m (b .^ 1) ->
  length cont = 8%nat ->
  let '(ops, cont') := done_obs b p (m, cont) in
  lsteps fifo_step (pending (m, cont)) ops (pending (dbsm_process_helper b m, cont')) /\
  length cont' = 8%nat.
Proof using Hdev0 inspect.
  intros Hi Hb Ha Hag Hl. pose proof (helper_inv lost m b Hi Hb Ha Hag) as [Hi' _].
  destruct (owns_range _ _ (inv_sm _ Hi) Hb) as (Hb8 & Ho8 & Hne & Ho).
  pose proof (inv_shape_at _ _ Hi Hb) as Hsh. rewrite (pending_owned m cont b) by done.
  unfold done_obs. destruct (active_cases _ Ha) as [E|E]; rewrite E in *.
  - change (is_state BS_FILLING BS_FILLING) with true. cbv iota.
    pose proof (helper_filling m b Hi Hb E) as Hout.
    destruct (inspect (app m) (sm m) b) as [h a]. cbv zeta in Hout. cbn [fst].
    destruct Hout as [_ Hout]. destruct h.
    + destruct Hout as [Hc _ _ _ Eb Eo _ _ _ _].
      rewrite (pending_owned _ cont b) by (try done; by apply (same_config_owns _ _ _ Hc)).
      split; [|done]. eapply lsteps_cons; [apply fifo_drop|].
      unfold pending_at, holding. rewrite E, Eb, Eo. constructor.
    + assert (state_of m (b .^ 1) = BS_EMPTY \/ state_of m (b .^ 1) = BS_EMPTYING) as [F|F]
        by (inversion Hsh; auto).
      all: rewrite F in Hout; unfold is_state in Hout; cbn in Hout;
        destruct Hout as [Hc _ _ _ Eb Eo _ _ _ _];
        rewrite (pending_owned _ _ b) by (try done; by apply (same_config_owns _ _ _ Hc));
        (split; [|by rewrite length_aset]);
        unfold pending_at, holding; rewrite E, F, Eb, Eo; cbn;
        rewrite ?(aget_aset_eq cont b) by lia; rewrite ?(aget_aset_ne cont b) by lia;
        (eapply lsteps_cons; [apply fifo_enq|constructor]).
  - change (is_state BS_EMPTYING BS_FILLING) with false. cbv iota. split; [|done].
    destruct (helper_emptying m b Hi Hb E) as [_ Hout].
    assert (state_of m (b .^ 1) = BS_FILLING \/ state_of m (b .^ 1) = BS_FULL) as [F|F]
      by (inversion Hsh; auto).
    all: rewrite F in Hout; unfold is_state in Hout; cbn in Hout;
      destruct Hout as [Hc _ _ _ Eb Eo _ _ _ _];
      rewrite (pending_owned _ _ b) by (try done; by apply (same_config_owns _ _ _ Hc));
      unfold pending_at, holding; rewrite E, F, Eb, Eo; cbn;
      (eapply lsteps_cons; [apply fifo_deq|constructor]).
Qed.

(** Same object, application state and buffer states. *)
Definition same_view (m m' : mach) : Prop :=
  sm m' = sm m /\ app m' = app m /\ forall b, state_of m' b = state_of m b.

Lemma same_view_pending m m' cont : same_view m m' -> pending (m', cont) = pending (m, cont).
Proof.
  intros (Hs & _ & Hst). unfold pending, pending_at, holding. cbn [fst snd].
  by rewrite Hs, !Hst.
Qed.

Lemma when_error lost m b c :
  inv lost m -> owns (sm m) b -> (c = true -> active (state_of m b) = true) ->
  inv lost (when c (dbsm_error_helper b) m) /\ same_view m (when c (dbsm_error_helper b) m).
Proof using Hdev0 inspect.
  intros [Hi Hag] Hb Hc. destruct c; cbn [when]; [|by repeat split; auto; apply Hi].
  destruct (owns_range _ _ (inv_sm _ Hi) Hb) as (_ & _ & _ & Ho).
  destruct (error_inv lost m b Hi Hb (Hc eq_refl) (Hag _ Ho)) as (? & ? & ? & ?). done.
Qed.

Lemma inv_io_char lost c m : inv lost m -> inv lost (io (PutChar c) m).
Proof.
  intros [Hi Hag]. split; [by apply base_io|]. intros b Hb. specialize (Hag b Hb).
  unfold agrees. rewrite devof_io. exact Hag.
Qed.

Lemma errors_inv lost m status :
  inv lost m -> status_ok m status ->
  inv lost (process_errors status m) /\ same_view m (process_errors status m).
Proof using Hdev0 inspect.
  intros Hm Hst. specialize (Hst (inv_running _ (proj1 Hm))). unfold process_errors. cbv zeta. case_if; [|done].
  set (m0 := io (PutChar 69) m). assert (inv lost m0) as Hm0 by by apply inv_io_char.
  set (b0 := buf0 (sm m)).
  destruct (when_error lost m0 b0 (ctrue (status .& BPS_ERROR b0)) Hm0) as (Hm1 & Hsm1 & Ha1 & Hs1);
    [by left|apply Hst; by left|].
  set (m1 := when (ctrue (status .& BPS_ERROR b0)) (dbsm_error_helper b0) m0) in *.
  destruct (when_error lost m1 (b0 .^ 1) (ctrue (status .& BPS_ERROR (b0 .^ 1))) Hm1)
    as (Hm2 & Hsm2 & Ha2 & Hs2).
  - rewrite Hsm1. by right.
  - rewrite Hs1. apply Hst. by right.
  - split; [done|]. repeat split; [by rewrite Hsm2, Hsm1|by rewrite Ha2, Ha1|].
    intros b. by rewrite Hs2, Hs1.
Qed.

Lemma when_done lost m cont b p c :
  inv lost m -> owns (sm m) b -> (c = true -> active (state_of m b) = true) -> length cont = 8%nat ->
  let '(ops, cont') := if c : bool then done_obs b p (m, cont) else ([], cont) in
  let m' := when c (dbsm_process_helper b) m in
  lsteps fifo_step (pending (m, cont)) ops (pending (m', cont')) /\ length cont' = 8%nat /\
  inv lost m' /\ same_config (sm m) (sm m').
Proof using Hdev0 inspect.
  intros [Hi Hag] Hb Hc Hl. destruct c; cbn [when].
  2:{ split; [constructor|]. split; [done|]. split; [done|by repeat split]. }
  specialize (Hc eq_refl). destruct (owns_range _ _ (inv_sm _ Hi) Hb) as (_ & _ & _ & Ho).
  pose proof (done_step lost m cont b p Hi Hb Hc (Hag _ Ho) Hl) as Hd.
  pose proof (helper_inv lost m b Hi Hb Hc (Hag _ Ho)) as Hv.
  destruct (done_obs b p (m, cont)) as [ops cont']. destruct Hd as [Hd Hl'].
  split; [done|]. split; [done|]. split; [done|].
  destruct (active_cases _ Hc) as [E|E].
  - pose proof (helper_filling m b Hi Hb E) as H'. destruct (inspect (app m) (sm m) b) as [h a].
    cbv zeta in H'. destruct H' as [_ H']. destruct h; [|case_if]; by destruct H'.
  - destruct (helper_emptying m b Hi Hb E) as [_ H']. case_if; by destruct H'.
Qed.

Lemma pending_length (c : config) : base (fst c) -> (length (pending c) <= 2)%nat.
Proof.
  clear Hdev0.
  destruct c as [m cont]. intros Hi. pose proof (inv_shape _ Hi) as Hsh. cbn [fst] in Hsh.
  unfold pending, pending_at, holding. cbn [fst snd]. destruct Hsh; states; cbn; lia.
Qed.

Lemma status_simulation lost m cont status p0 p1 ops cont' :
  inv lost m -> length cont = 8%nat -> status_ok m status ->
  observe_status status p0 p1 (m, cont) = (ops, cont') ->
  let m' := dbsm_process_status status m in
  lsteps fifo_step (pending (m, cont)) ops (pending (m', cont')) /\ length cont' = 8%nat /\
  inv lost m' /\ same_config (sm m) (sm m').
Proof using Hdev0 inspect.
  intros Hm Hl Hst Hobs. cbv zeta.
  destruct (errors_inv lost m status Hm Hst) as (Hm1 & Hv). pose proof Hv as (Hsm & _ & Hs1).
  specialize (Hst (inv_running _ (proj1 Hm))).
  unfold observe_status in Hobs. unfold dbsm_process_status.
  rewrite (inv_running _ (proj1 Hm)) in *. cbn [negb] in *. cbv zeta in *.
  rewrite <- (same_view_pending _ _ cont Hv), <- Hsm.
  set (m1 := process_errors status m) in *. rewrite <- Hsm in Hobs. set (b0 := buf0 (sm m1)) in *.
  set (c0 := ctrue (status .& BPS_DONE b0)) in *.
  set (c1 := ctrue (status .& BPS_DONE (b0 .^ 1))) in *.
  assert (owns (sm m1) b0) as Hb by by left.
  destruct (owns_range _ _ (inv_sm _ (proj1 Hm1)) Hb) as (_ & _ & _ & Ho).
  assert (c0 = true -> active (state_of m1 b0) = true) as Ha0.
  { rewrite Hs1. apply Hst. by rewrite <- Hsm. }
  pose proof (when_done lost m1 cont b0 p0 c0 Hm1 Hb Ha0 Hl) as Hd0.
  destruct (if c0 then _ else _) as [o0 cont0]. cbv zeta in Hd0.
  destruct Hd0 as (Hd0 & Hl0 & Hm2 & Hc2).
  assert (c1 = true -> active (state_of (when c0 (dbsm_process_helper b0) m1) (b0 .^ 1)) = true)
    as Ha1.
  { intros E. assert (active (state_of m1 (b0 .^ 1)) = true) as Hact.
    { rewrite Hs1. rewrite Hsm in Ho. exact (proj1 (Hst _ Ho) E). }
    destruct c0; cbn [when]; [|exact Hact]. by rewrite helper_other by (try done; auto; apply Hm1). }
  pose proof (when_done lost _ cont0 (b0 .^ 1) p1 c1 Hm2
    (proj2 (same_config_owns _ _ _ Hc2) Ho) Ha1 Hl0) as Hd1.
  destruct (if c1 then _ else _) as [o1 cont1]. injection Hobs as <- <-. cbv zeta in Hd1.
  destruct Hd1 as (Hd1 & Hl1 & Hm3 & Hc3).
  split; [by eapply lsteps_app|]. split; [done|]. split; [done|].
  destruct Hc2 as (?&?&?&?&?&?), Hc3 as (?&?&?&?&?&?). repeat split; congruence.
Qed.

(** The underrun helper call sees the state it would see on completion. *)
Lemma underrun_simulation lost m cont :
  inv lost m -> length cont = 8%nat ->
  lsteps fifo_step (pending (m, cont)) (observe_underrun (m, cont))
    (pending (dbsm_handle_tx_underrun m, cont)).
Proof using Hdev0 inspect.
  intros [Hi Hag] Hl. pose proof (inv_sm _ Hi) as Hs.
  assert (forall b, owns (sm m) b -> state_of m b = BS_EMPTYING ->
    lsteps fifo_step (pending (m, cont)) [Flush cont.[b]]
      (pending (dbsm_process_helper b (io (DspTxClearState 1)
          (io (bp_clear_buf b) (io (DspTxClearState 1) m))), cont))) as Hgo.
  { intros b Hb E. destruct (owns_range _ _ Hs Hb) as (Hb8 & _ & Hne & Ho).
    set (m0 := io (DspTxClearState 1) _).
    assert (base m0) as Hi0 by (by repeat apply base_io).
    assert (active (state_of m0 b) = true) as Ha by (subst m0; by rewrite !state_of_io, E).
    pose proof (done_step lost m0 cont b cont.[b] Hi0 Hb Ha
      (agrees_clear lost m b (b .^ 1) 1 Hb8 Hne (Hag _ Ho)) Hl) as Hd.
    unfold done_obs in Hd. assert (state_of m0 b = BS_EMPTYING) as E0 by done.
    rewrite E0 in Hd. change (is_state BS_EMPTYING BS_FILLING) with false in Hd.
    destruct Hd as [Hd _]. inversion Hd as [|? ? q1 ? ? Hf Hr]; subst. inversion Hr; subst.
    eapply lsteps_cons; [|constructor]. change (pending (m, cont)) with (pending (m0, cont)).
    inversion Hf as [| |q2 p2 Hq|]; apply fifo_flush. }
  unfold observe_underrun, dbsm_handle_tx_underrun. cbv zeta. rewrite !state_of_io.
  destruct (is_state (state_of m (buf0 (sm m))) BS_EMPTYING) eqn:E0.
  { apply Hgo; [by left|by apply bool_decide_eq_true in E0]. }
  destruct (is_state (state_of m (buf0 (sm m) .^ 1)) BS_EMPTYING) eqn:E1.
  { apply Hgo; [by right|by apply bool_decide_eq_true in E1]. }
  constructor.
Qed.

Lemma stop_spec m :
  sm_ok (sm m) -> length (buffer_state m) = 8%nat ->
  (forall b, owns (sm m) b -> (devof (dbsm_stop m)).[b] = Idle /\
                             state_of (dbsm_stop m) b = BS_EMPTY) /\
  (forall status, dbsm_process_status status (dbsm_stop m) = dbsm_stop m) /\
  inv false (dbsm_start (dbsm_stop m)).
Proof using Hdev0 inspect.
  intros Hs Hl. assert (owns (sm m) (buf0 (sm m))) as Hb by by left.
  destruct (owns_range _ _ Hs Hb) as (Hb8 & Ho8 & Hne & _).
  assert (outcome m (upd_sm (set_running true) (dbsm_stop m)) (buf0 (sm m)) BS_EMPTY BS_EMPTY
    (rx_idle (sm m)) (tx_idle (sm m)) Idle Idle) as [Hc _ Hl' _ E0 E1 _ _ D0 D1].
  { unfold dbsm_stop. cbv zeta. outcomes Hs Hb. }
  split; [|split; [done|]].
  - intros b [-> | ->]; auto.
  - apply start_inv; [|done]. by refine (same_config_ok _ _ _ Hs).
Qed.

Lemma overrun_spec m :
  sm_ok (sm m) ->
  (forall b, owns (sm m) b -> (devof (dbsm_handle_rx_overrun m)).[b] =
     if is_state (state_of m b) BS_FILLING then Idle else (devof m).[b]) /\
  (forall b, state_of (dbsm_handle_rx_overrun m) b = state_of m b) /\
  sm (dbsm_handle_rx_overrun m) = sm m /\
  buffer_state (dbsm_handle_rx_overrun m) = buffer_state m.
Proof using Hdev0 inspect.
  intros Hs. assert (owns (sm m) (buf0 (sm m))) as Hb by by left.
  destruct (owns_range _ _ Hs Hb) as (Hb8 & Ho8 & Hne & _).
  unfold dbsm_handle_rx_overrun. cbv zeta. rewrite !state_of_io.
  destruct (is_state (state_of m (buf0 (sm m))) BS_FILLING) eqn:E0; cbn [when];
    rewrite !state_of_io;
    destruct (is_state (state_of m (buf0 (sm m) .^ 1)) BS_FILLING) eqn:E1; cbn [when];
    (split; [|by repeat split]); intros b [-> | ->];
    rewrite ?E0, ?E1;
    repeat first [ rewrite aget_aset_eq by (rewrite ?length_aset, ?length_devof; lia)
                 | rewrite aget_aset_ne by lia | rewrite devof_clear by lia
                 | rewrite devof_rx ]; done.
Qed.

(** ** Every step keeps the invariant and refines the queue *)

Lemma stop_stopped m : sm_ok (sm m) -> length (buffer_state m) = 8%nat -> stopped (dbsm_stop m).
Proof using Hdev0 inspect.
  intros Hs Hl. destruct (stop_spec m Hs Hl) as (H1 & _). split.
  - by refine (same_config_ok _ _ _ Hs).
  - done.
  - unfold dbsm_stop. cbn. by rewrite !length_aset.
  - intros b Hb. by destruct (H1 b Hb).
Qed.

Lemma stopped_pending m cont : stopped m -> pending (m, cont) = [].
Proof.
  intros [_ _ _ He]. unfold pending, pending_at, holding. cbn [fst snd].
  by rewrite (proj1 (He _ (or_introl eq_refl))), (proj1 (He _ (or_intror eq_refl))).
Qed.

Lemma flush_all (q : list P) : lsteps fifo_step q (map Flush q) [].
Proof. induction q as [|p q IH]; [constructor|]. cbn. eapply lsteps_cons; [apply fifo_flush|exact IH]. Qed.

Lemma good_sm lost m : good lost m -> sm_ok (sm m) /\ length (buffer_state m) = 8%nat.
Proof. by intros [[[] _]|[]]. Qed.

Lemma inv_lost lost m : inv lost m -> inv true m.
Proof. intros [Hb Ha]. split; [done|]. intros b Ho. destruct (Ha b Ho) as [?|(_ & ? & ?)]; [by left|by right]. Qed.

Lemma overrun_inv lost m : inv lost m -> inv true (dbsm_handle_rx_overrun m).
Proof using Hdev0 inspect.
  intros [Hb Ha]%inv_lost. pose proof (overrun_spec m (inv_sm _ Hb)) as (Hd & Hst & Hsm & Hbs). split.
  - destruct Hb. by split; rewrite ?Hsm, ?Hbs, ?Hst.
  - intros b Ho. rewrite Hsm in Ho. unfold agrees. rewrite Hst, (Hd b Ho). specialize (Ha b Ho). unfold agrees, fits in *.
    assert (status_last_line (dbsm_handle_rx_overrun m) = status_last_line m) as Hl.
    { unfold dbsm_handle_rx_overrun. cbv zeta. by destruct (is_state _ _); cbn [when]; destruct (is_state _ _). }
    rewrite (view_config m _ b (state_of m b)) by (done || (rewrite Hsm; by repeat split)).
    destruct (is_state (state_of m b) BS_FILLING) eqn:E; [|exact Ha]. apply bool_decide_eq_true in E. by right.
Qed.

Lemma latch_keeps_inv lost m lines : inv lost m -> lines_ok m lines -> inv lost (latch lines m).
Proof.
  intros [Hb Ha] Hl. split; [by destruct Hb|]. intros b Ho. specialize (Ha b Ho). unfold agrees, fits in *.
  change (state_of (latch lines m) b) with (state_of m b). change (devof (latch lines m)) with (devof m).
  replace (view (latch lines m) b (state_of m b)) with (view m b (state_of m b)); [exact Ha|].
  unfold view, send_transfer. destruct (Hl b Ho) as [-> |E]; [done|]. cbn [latch status_last_line sm]. by rewrite E.
Qed.

(** Nothing happens to a stopped machine before it is started. *)
Lemma stopped_io e m : stopped m -> devof (io e m) = devof m -> stopped (io e m).
Proof. intros [] Hd. split; try done. by rewrite Hd. Qed.

Lemma stopped_underrun m cont : stopped m -> stopped (dbsm_handle_tx_underrun m) /\ observe_underrun (m, cont) = [].
Proof using Hdev0 inspect.
  intros Hs. pose proof (st_empty _ Hs) as He. unfold dbsm_handle_tx_underrun, observe_underrun. cbv zeta. rewrite !state_of_io.
  rewrite !(proj1 (He _ (or_introl eq_refl))), !(proj1 (He _ (or_intror eq_refl))).
  split; [|done]. apply stopped_io; [done|by rewrite devof_io].
Qed.

Lemma stopped_overrun m : stopped m -> stopped (dbsm_handle_rx_overrun m).
Proof using Hdev0 inspect.
  intros Hs. pose proof (st_empty _ Hs) as He. unfold dbsm_handle_rx_overrun. cbv zeta. rewrite !state_of_io.
  rewrite (proj1 (He _ (or_introl eq_refl))). cbn [when]. change (is_state BS_EMPTY BS_FILLING) with false. cbn [when].
  rewrite !state_of_io, (proj1 (He _ (or_intror eq_refl))). apply stopped_io; [done|apply devof_rx].
Qed.

Lemma inv_pending_same lost m m' cont : inv lost m -> sm m' = sm m -> (forall b, state_of m' b = state_of m b) ->
  pending (m', cont) = pending (m, cont).
Proof. intros _ Hs Hst. unfold pending, pending_at, holding. cbn [fst snd]. by rewrite Hs, !Hst. Qed.

Lemma dstep_refines lost c l c' q :
  refines lost c q -> dstep c l c' -> exists q', lsteps fifo_step q (snd l) q' /\ refines (lost_step lost l) c' q'.
Proof using Hdev0 inspect.
  intros (Hv & Hl & ->) Hstep. destruct (good_sm _ _ Hv) as [Hsm Hlen].
  destruct Hstep as [m cont status p0 p1 ops cont' Hst Hobs|m cont lines Hln|m cont|m cont|m cont|m cont]; cbn [fst snd] in *;
    unfold lost_step; cbn [fst].
  - exists (pending (dbsm_process_status status m, cont')). destruct Hv as [Hv|Hv].
    + destruct (status_simulation _ _ _ _ _ _ _ _ Hv Hl Hst Hobs) as (? & ? & ? & ?). split; [done|]. split; [by left|done].
    + unfold observe_status, dbsm_process_status in *. rewrite (st_running _ Hv) in *. cbn [negb] in *. injection Hobs as <- <-.
      split; [constructor|]. split; [by right|done].
  - exists (pending (m, cont)). split; [constructor|]. split; [|done].
    destruct Hv as [Hv|Hv]; [left; by apply latch_keeps_inv|right; by destruct Hv].
  - exists (pending (dbsm_handle_tx_underrun m, cont)). destruct Hv as [Hv|Hv].
    + split; [by eapply underrun_simulation|]. split; [left; by apply underrun_inv|done].
    + destruct (stopped_underrun m cont Hv) as [Hs ->]. rewrite !stopped_pending by done.
      split; [constructor|]. split; [by right|]. cbn [fst]. by rewrite stopped_pending.
  - exists (pending (m, cont)). split; [constructor|]. pose proof (overrun_spec m Hsm) as (_ & Hst & Hse & _).
    split; [|split; [done|]]; cbn [fst snd].
    + destruct Hv as [Hv|Hv]; [left; by eapply overrun_inv|right; by apply stopped_overrun].
    + unfold pending, pending_at, holding. cbn [fst snd]. by rewrite Hse, !Hst.
  - exists []. split; [apply flush_all|]. destruct (start_inv m Hsm Hlen) as (Hi & E0 & E1).
    split; [by left|]. split; [done|]. change (buf0 (sm m)) with (buf0 (sm (dbsm_start m))) in E0, E1.
    unfold pending, pending_at, holding. cbn [fst snd]. by rewrite E0, E1.
  - exists []. split; [apply flush_all|]. pose proof (stop_stopped m Hsm Hlen) as Hs.
    split; [by right|]. split; [done|]. by rewrite stopped_pending.
Qed.

Definition started (m : mach) (cont : list P) : Prop :=
  sm_ok (sm m) /\ length (buffer_state m) = 8%nat /\ length cont = 8%nat.

Lemma run_refines m cont ls c :
  started m cont -> lsteps dstep (dbsm_start m, cont) ls c ->
  exists q, lsteps fifo_step [] (ops_of ls) q /\ refines (overrun_since_start ls) c q.
Proof using Hdev0 inspect.
  intros (Hs & Hl & Hc) Hrun. destruct (start_inv m Hs Hl) as (Hv & E0 & E1).
  assert (refines false (dbsm_start m, cont) []) as HR.
  { split; [by left|]. split; [done|]. cbn [fst snd].
    change (buf0 (sm m)) with (buf0 (sm (dbsm_start m))) in E0, E1.
    unfold pending, pending_at, holding. cbn [fst snd]. by rewrite E0, E1. }
  unfold overrun_since_start, ops_of. revert HR. generalize false as lost, ([] : list P) as q.
  induction Hrun as [c|c l c1 ls c2 Hstep Hrun IH]; intros lost q HR; [exists q; split; [constructor|done]|].
  destruct (dstep_refines lost c l c1 q HR Hstep) as (q1 & Hq1 & HR1). destruct (IH _ _ HR1) as (q' & Hq' & HR').
  exists q'. split; [|done]. cbn. by eapply lsteps_app.
Qed.

End Dbsm.

(** ** Theorems *)

Section Theorems.
Context {W P : Type} `{Default P} (inspect : W -> dbsm_t -> Z -> bool * W).
Implicit Types (m : @mach W) (c : @config W P).

(** [dbsm_init] aborts exactly on an odd buffer number; otherwise the
    object it leaves has the command words of both buffers of the pair, both
    ports idle, both buffers empty and is not running, so that status
    interrupts are ignored until [dbsm_start]. *)
Theorem dbsm_init_spec b recv send m :
  0 <= b < NBUFFERS -> args_ok recv -> args_ok send -> length (buffer_state m) = 8%nat ->
  (dbsm_init b recv send m = None <-> b mod 2 = 1) /\
  forall m', dbsm_init b recv send m = Some m' ->
    sm_ok (sm m') /\ (forall b', owns (sm m') b' -> state_of m' b' = BS_EMPTY) /\
    trace m' = trace m /\ rx_idle (sm m') = true /\ tx_idle (sm m') = true /\
    forall status, dbsm_process_status inspect status m' = m'.
Proof.
  unfold NBUFFERS. intros Hb Hr Hs Hl. unfold dbsm_init.
  replace (b .& 0x1) with (b mod 2) by (symmetry; apply (land_mask b 1); lia).
  destruct (ctrue (b mod 2)) eqn:Hodd.
  { apply ctrue_spec in Hodd. split; [|done]. split; [|done]. intros _. divlia. }
  apply ctrue_false in Hodd. split; [split; [done|lia]|]. intros m' [= <-].
  assert (0 <= b <= 6) as Hb6 by divlia.
  pose proof (even_xor1 _ Hodd) as Hx. split; [|split; [|done]].
  - split; try done.
  - intros b' Hb'. cbn [sm set_state upd_sm buf0] in Hb'.
    assert (0 <= b .^ 1 < 8 /\ b .^ 1 <> b) as [Hx8 Hxne] by (rewrite Hx; lia).
    destruct Hb' as [-> | ->]; cbn [buf0];
      [rewrite state_of_set_ne, state_of_set_eq by (cbn; rewrite ?length_aset; lia)
      |rewrite state_of_set_eq by (cbn; rewrite ?length_aset; lia)]; done.
Qed.


(** C24.  The double buffering machine is a FIFO queue.  On every run from
    [dbsm_start], whatever status words the hardware reports (completions and
    errors of transfers in progress, in any combination) and wherever transmit
    underruns, overruns, starts and stops strike, the packets that leave or are
    flushed, followed by the at most two that are still held, are exactly the packets
    accepted, in arrival order: none is lost, duplicated or reordered. *)
Theorem dbsm_refines_fifo m cont ls c :
  started m cont -> lsteps (dstep inspect) (dbsm_start m, cont) ls c ->
  entered (ops_of ls) = departed (ops_of ls) ++ pending c /\ (length (pending c) <= 2)%nat.
Proof.
  intros Hst Hrun. destruct (run_refines inspect (replicate 8 Idle) eq_refl _ _ _ _ Hst Hrun) as (q & Hq & Hv & _ & ->).
  split; [exact (fifo_order _ _ _ Hq)|]. destruct Hv as [Hv|Hv]; [apply (pending_length _ (proj1 Hv))|].
  destruct c as [m' cont']. rewrite (stopped_pending _ _ _ Hv). cbn. lia.
Qed.

(** Shutting down: [dbsm_stop] leaves both hardware buffers idle and
    every later status word without effect; after an overrun of the receive
    pipeline [dbsm_handle_rx_overrun] has idled exactly the receiving
    buffers, and stopping and starting again restores the invariant of a
    running machine. *)
Theorem dbsm_stop_restart dev0 m :
  length dev0 = 8%nat -> inv dev0 false m ->
  let mo := dbsm_handle_rx_overrun m in
  (forall b, owns (sm m) b ->
     (devof dev0 mo).[b] = if is_state (state_of m b) BS_FILLING then Idle else (devof dev0 m).[b]) /\
  (forall b, state_of mo b = state_of m b) /\
  forall mx, mx = m \/ mx = mo ->
    (forall b, owns (sm m) b -> (devof dev0 (dbsm_stop mx)).[b] = Idle /\
                               state_of (dbsm_stop mx) b = BS_EMPTY) /\
    (forall status, dbsm_process_status inspect status (dbsm_stop mx) = dbsm_stop mx) /\
    inv dev0 false (dbsm_start (dbsm_stop mx)).
Proof.
  intros Hd0 [Hi Hag]. pose proof (inv_sm _ Hi) as Hs. pose proof (inv_length _ Hi) as Hl. cbv zeta.
  destruct (overrun_spec inspect _ Hd0 m Hs) as (Hd & Hst & Hsm & Hbs).
  split; [done|]. split; [done|]. intros mx [-> | ->]; [by apply (stop_spec inspect _ Hd0)|].
  rewrite <- Hsm. apply (stop_spec inspect _ Hd0); [by rewrite Hsm|by rewrite Hbs].
Qed.

End Theorems.

(** ** A concrete machine *)

Definition sample_args : buf_cmd_args_t := {| port := PORT_ETH; first_line := 1; last_line := 500 |}.

Definition sample_blank : @mach unit :=
  {| sm := {| buf0 := 0; running := false; rx_idle := true; tx_idle := true;
              recv_args := sample_args; send_args := sample_args;
              precomputed_receive_to_buf_ctrl_word := [];
              precomputed_send_from_buf_ctrl_word := []; last_line_adj := 0 |};
     buffer_state := replicate 8 BS_EMPTY; status_last_line := replicate 8 100;
     trace := []; app := tt |}.

Definition sample : @mach unit :=
  default sample_blank (dbsm_init 2 sample_args sample_args sample_blank).

Lemma sample_args_ok : args_ok sample_args.
Proof. repeat split; unfold sample_args, PORT_ETH; cbn; lia. Qed.

Lemma sample_sm_ok : sm_ok (sm sample).
Proof. split; try reflexivity; try apply sample_args_ok. change (0 <= 2 <= 6). lia. Qed.

Lemma sample_started : started sample (replicate 8 0).
Proof. split; [apply sample_sm_ok|done]. Qed.

Lemma dbsm_init_spec_witness :
  dbsm_init 3 sample_args sample_args sample_blank = None /\ sm_ok (sm sample).
Proof.
  split.
  - apply (dbsm_init_spec dbsm_nop_inspector 3 sample_args sample_args sample_blank);
      [unfold NBUFFERS; lia|apply sample_args_ok..|reflexivity|reflexivity].
  - apply (dbsm_init_spec dbsm_nop_inspector 2 sample_args sample_args sample_blank);
      [unfold NBUFFERS; lia|apply sample_args_ok..|reflexivity|reflexivity].
Defined.

(** Packet 7 arrives in buffer 2, up to line 41; it leaves while packet 8 arrives in
    buffer 3; then the transmitter runs dry. *)
Definition sample_labels : list (event * list (@op Z)) :=
  [(Lines, []); (Status (BPS_DONE 2), [Enq 7]); (Status (BPS_DONE 2 .| BPS_DONE 3), [Deq 7; Enq 8]); (Underrun, [Flush 8])].

Definition sample_lines : @mach unit := latch ((replicate 8 100).[2 <- 41]) (dbsm_start sample).

Definition sample_one : @mach unit :=
  dbsm_process_status dbsm_nop_inspector (BPS_DONE 2) sample_lines.
Definition sample_two : @mach unit :=
  dbsm_process_status dbsm_nop_inspector (BPS_DONE 2 .| BPS_DONE 3) sample_one.

Definition sample_config : @config unit Z :=
  (dbsm_handle_tx_underrun dbsm_nop_inspector sample_two, [0; 0; 7; 8; 0; 0; 0; 0]).

Lemma sample_run :
  lsteps (dstep dbsm_nop_inspector) (dbsm_start sample, replicate 8 0) sample_labels sample_config.
Proof.
  assert (forall (m : @mach unit) status, owns (sm m) 2 ->
    (forall b, b = 2 \/ b = 3 -> active (state_of m b) || negb (ctrue (status .& BPS_DONE b)) &&
      negb (ctrue (status .& BPS_ERROR b)) = true) -> status_ok m status) as Hok.
  { intros m status Hb Hall _ b' Hb'.
    assert (b' = 2 \/ b' = 3) as Hc.
    { destruct (owned_pair _ _ _ Hb Hb') as [-> | ->]; auto. }
    specialize (Hall b' Hc). destruct (active (state_of m b')); [done|].
    destruct (ctrue (status .& BPS_DONE b')); [done|].
    by destruct (ctrue (status .& BPS_ERROR b')). }
  apply (lsteps_cons _ _ _ (sample_lines, replicate 8 0)).
  { apply dstep_lines. intros b [-> | ->]; [left; vm_compute; reflexivity|right; vm_compute; reflexivity]. }
  apply (lsteps_cons _ _ _ (sample_one, [0; 0; 7; 0; 0; 0; 0; 0])).
  { apply (dstep_status _ sample_lines _ _ 7 0); [|vm_compute; reflexivity].
    apply Hok; [by left|]. by intros b [-> | ->]. }
  apply (lsteps_cons _ _ _ (sample_two, [0; 0; 7; 8; 0; 0; 0; 0])).
  { apply (dstep_status _ sample_one _ _ 0 8); [|vm_compute; reflexivity].
    apply Hok; [by left|]. by intros b [-> | ->]. }
  eapply lsteps_cons; [|constructor].
  replace (@Flush Z 8 :: nil) with (observe_underrun (sample_two, [0; 0; 7; 8; 0; 0; 0; 0]))
    by (vm_compute; reflexivity).
  apply dstep_underrun.
Qed.


Lemma dbsm_refines_fifo_witness :
  [7; 8] = [7; 8] ++ pending sample_config.
Proof.
  apply (dbsm_refines_fifo dbsm_nop_inspector sample
    (replicate 8 0) sample_labels sample_config sample_started sample_run).
Defined.

Lemma dbsm_stop_restart_witness :
  inv (replicate 8 Idle) false (dbsm_start (dbsm_stop (dbsm_handle_rx_overrun (dbsm_start sample)))).
Proof.
  refine (proj2 (proj2 (proj2 (proj2 (dbsm_stop_restart dbsm_nop_inspector (replicate 8 Idle)
    (dbsm_start sample) eq_refl _)) _ (or_intror eq_refl)))).
  apply (start_inv dbsm_nop_inspector (replicate 8 Idle) eq_refl sample sample_sm_ok eq_refl).
Defined.
