(* ===== verification/Bsm12.v ===== *)
(** * The one to two buffer state machine: [usrp2/firmware/lib/bsm12.c], [bsm12.h]

    Three buffers carry packets from one source port to two destination ports;
    the inspector chooses the destination.  The machine keeps every packet, for
    the destination it was given, until that destination took it; packets for
    the same destination may overtake each other. *)

From S2P Require Import Prelude BufferPool Dbsm.
From stdpp Require Import list.
#[local] Open Scope Z_scope.
#[local] Open Scope cint_scope.

(** ** Data *)

#[export] Instance Default_buf_cmd_args : Default buf_cmd_args_t :=
  {| port := 0; first_line := 0; last_line := 0 |}.

Definition ST_IDLE : Z := -1.

Record bsm12_t := {
  buf0 : Z;
  running : bool;
  rx_state : Z;
  tx_state : list Z;
  recv_args : buf_cmd_args_t;
  send_args : list buf_cmd_args_t;
  last_line_adj : Z;
  bps_error : Z;
  bps_done : Z;
  bps_error_or_done : Z;
  next_buf : list Z;
  precomputed_receive_to_buf_ctrl_word : list Z;
  precomputed_send_from_buf_ctrl_word : list (list Z)
}.

Definition set_running (r : bool) (s : bsm12_t) : bsm12_t :=
  {| buf0 := buf0 s; running := r; rx_state := rx_state s; tx_state := tx_state s;
     recv_args := recv_args s; send_args := send_args s; last_line_adj := last_line_adj s;
     bps_error := bps_error s; bps_done := bps_done s; bps_error_or_done := bps_error_or_done s;
     next_buf := next_buf s;
     precomputed_receive_to_buf_ctrl_word := precomputed_receive_to_buf_ctrl_word s;
     precomputed_send_from_buf_ctrl_word := precomputed_send_from_buf_ctrl_word s |}.
Definition set_rx (x : Z) (s : bsm12_t) : bsm12_t :=
  {| buf0 := buf0 s; running := running s; rx_state := x; tx_state := tx_state s;
     recv_args := recv_args s; send_args := send_args s; last_line_adj := last_line_adj s;
     bps_error := bps_error s; bps_done := bps_done s; bps_error_or_done := bps_error_or_done s;
     next_buf := next_buf s;
     precomputed_receive_to_buf_ctrl_word := precomputed_receive_to_buf_ctrl_word s;
     precomputed_send_from_buf_ctrl_word := precomputed_send_from_buf_ctrl_word s |}.
Definition set_tx (d x : Z) (s : bsm12_t) : bsm12_t :=
  {| buf0 := buf0 s; running := running s; rx_state := rx_state s; tx_state := (tx_state s).[d <- x];
     recv_args := recv_args s; send_args := send_args s; last_line_adj := last_line_adj s;
     bps_error := bps_error s; bps_done := bps_done s; bps_error_or_done := bps_error_or_done s;
     next_buf := next_buf s;
     precomputed_receive_to_buf_ctrl_word := precomputed_receive_to_buf_ctrl_word s;
     precomputed_send_from_buf_ctrl_word := precomputed_send_from_buf_ctrl_word s |}.

(** The command words of a buffer, the last line of a send left open. *)
Definition receive_word (recv : buf_cmd_args_t) (b : Z) : Z :=
  BPC_READ .| BPC_BUFFER b .| BPC_PORT (port recv) .| BPC_STEP 1
  .| BPC_FIRST_LINE (first_line recv) .| BPC_LAST_LINE (last_line recv).

Definition send_word (send : buf_cmd_args_t) (b : Z) : Z :=
  BPC_WRITE .| BPC_BUFFER b .| BPC_PORT (port send) .| BPC_STEP 1
  .| BPC_FIRST_LINE (first_line send) .| BPC_LAST_LINE 0.

Section Bsm12.
(** The application state, and the inspector: -1 if the software handled the
    packet in the buffer, else the destination, 0 or 1. *)
Context {W : Type} (inspect : W -> bsm12_t -> Z -> Z * W).

(** The object, the static arrays, the hardware registers that are read, the
    registers written, the application state. *)
Record mach := {
  sm : bsm12_t;
  buffer_state : list buffer_state_t;
  last_send_ctrl : list Z;
  buffer_target : list Z;
  buffer_dst : list Z;
  status_last_line : list Z;
  trace : io_trace;
  app : W
}.

Definition upd_sm (f : bsm12_t -> bsm12_t) (m : mach) : mach :=
  {| sm := f (sm m); buffer_state := buffer_state m; last_send_ctrl := last_send_ctrl m;
     buffer_target := buffer_target m; buffer_dst := buffer_dst m;
     status_last_line := status_last_line m; trace := trace m; app := app m |}.
Definition set_state (b : Z) (x : buffer_state_t) (m : mach) : mach :=
  {| sm := sm m; buffer_state := (buffer_state m).[b <- x]; last_send_ctrl := last_send_ctrl m;
     buffer_target := buffer_target m; buffer_dst := buffer_dst m;
     status_last_line := status_last_line m; trace := trace m; app := app m |}.
Definition set_target (b x : Z) (m : mach) : mach :=
  {| sm := sm m; buffer_state := buffer_state m; last_send_ctrl := last_send_ctrl m;
     buffer_target := (buffer_target m).[b <- x]; buffer_dst := buffer_dst m;
     status_last_line := status_last_line m; trace := trace m; app := app m |}.
Definition set_sent (b w d : Z) (m : mach) : mach :=
  {| sm := sm m; buffer_state := buffer_state m; last_send_ctrl := (last_send_ctrl m).[b <- w];
     buffer_target := buffer_target m; buffer_dst := (buffer_dst m).[b <- d];
     status_last_line := status_last_line m; trace := trace m; app := app m |}.
Definition io (e : io_event) (m : mach) : mach :=
  {| sm := sm m; buffer_state := buffer_state m; last_send_ctrl := last_send_ctrl m;
     buffer_target := buffer_target m; buffer_dst := buffer_dst m;
     status_last_line := status_last_line m; trace := trace m ++ [e]; app := app m |}.
Definition set_app (a : W) (m : mach) : mach :=
  {| sm := sm m; buffer_state := buffer_state m; last_send_ctrl := last_send_ctrl m;
     buffer_target := buffer_target m; buffer_dst := buffer_dst m;
     status_last_line := status_last_line m; trace := trace m; app := a |}.

Definition state_of (m : mach) (b : Z) : buffer_state_t := (buffer_state m).[b].

(** ** Operations *)

(** [None]: [abort()] unless the buffer number is a multiple of four. *)
Definition bsm12_init (b0 : Z) (recv send0 send1 : buf_cmd_args_t) (m : mach) : option mach :=
  if ctrue (b0 .& 0x3) then None
  else
    let err := BPS_ERROR b0 .| BPS_ERROR (b0 + 1) .| BPS_ERROR (b0 + 2) in
    let done := BPS_DONE b0 .| BPS_DONE (b0 + 1) .| BPS_DONE (b0 + 2) in
    let s := {|
      buf0 := b0; running := false; rx_state := ST_IDLE; tx_state := [ST_IDLE; ST_IDLE];
      recv_args := recv; send_args := [send0; send1];
      last_line_adj := if port recv =? PORT_ETH then 3 else 1;
      bps_error := err; bps_done := done; bps_error_or_done := err .| done;
      next_buf := (replicate (Z.to_nat NBUFFERS) b0)
        .[b0 <- b0 + 1].[b0 + 1 <- b0 + 2].[b0 + 2 <- b0];
      precomputed_receive_to_buf_ctrl_word := map (receive_word recv) [b0; b0 + 1; b0 + 2];
      precomputed_send_from_buf_ctrl_word :=
        map (fun b => [send_word send0 b; send_word send1 b]) [b0; b0 + 1; b0 + 2] |} in
    let m := upd_sm (fun _ => s) m in
    let m := set_state (b0 + 2) BS_EMPTY (set_state (b0 + 1) BS_EMPTY (set_state b0 BS_EMPTY m)) in
    Some (set_target (b0 + 2) (-1) (set_target (b0 + 1) (-1) (set_target b0 (-1) m))).

Definition bsm12_receive_to_buf (bufno : Z) (m : mach) : mach :=
  io (BufferPoolCtrl (precomputed_receive_to_buf_ctrl_word (sm m)).[bufno .& 0x3]) m.

Definition bsm12_send_from_buf (bufno dst_idx : Z) (m : mach) : mach :=
  let dst_idx := dst_idx .& 0x1 in
  let t := (precomputed_send_from_buf_ctrl_word (sm m)).[bufno .& 0x3].[dst_idx]
           .| BPC_LAST_LINE (u32 ((status_last_line m).[bufno] - last_line_adj (sm m))) in
  set_sent bufno t dst_idx (io (BufferPoolCtrl t) m).

Definition bsm12_resend_from_buf (bufno : Z) (m : mach) : mach :=
  io (BufferPoolCtrl (last_send_ctrl m).[bufno]) m.

Definition bsm12_start (m : mach) : mach :=
  let b0 := buf0 (sm m) in
  let m := upd_sm (set_running true) m in
  let m := set_state (b0 + 2) BS_EMPTY (set_state (b0 + 1) BS_EMPTY (set_state b0 BS_EMPTY m)) in
  let m := set_target (b0 + 2) (-1) (set_target (b0 + 1) (-1) (set_target b0 (-1) m)) in
  let m := io (bp_clear_buf (b0 + 2)) (io (bp_clear_buf (b0 + 1)) (io (bp_clear_buf b0) m)) in
  let m := upd_sm (fun s => set_tx 1 ST_IDLE (set_tx 0 ST_IDLE (set_rx 0 s))) m in
  let m := bsm12_receive_to_buf b0 m in
  set_state b0 BS_FILLING m.

Definition bsm12_stop (m : mach) : mach :=
  let b0 := buf0 (sm m) in
  let m := upd_sm (set_running false) m in
  let m := io (bp_clear_buf (b0 + 2)) (io (bp_clear_buf (b0 + 1)) (io (bp_clear_buf b0) m)) in
  set_state (b0 + 2) BS_EMPTY (set_state (b0 + 1) BS_EMPTY (set_state b0 BS_EMPTY m)).

(** Start a transfer into, or out of, a buffer. *)
Definition fill (b : Z) (m : mach) : mach :=
  let m := bsm12_receive_to_buf b m in
  let m := set_state b BS_FILLING m in
  let m := set_target b (-1) m in
  upd_sm (set_rx (b .& 0x3)) m.

Definition drain (b dst : Z) (m : mach) : mach :=
  let m := bsm12_send_from_buf b dst m in
  let m := upd_sm (set_tx dst (b .& 0x3)) m in
  let m := set_state b BS_EMPTYING m in
  set_target b (-1) m.

Definition process_filled (buf_this : Z) (m : mach) : mach :=
  let m := set_target buf_this (-1) (set_state buf_this BS_FULL m) in
  let '(dst, a) := inspect (app m) (sm m) buf_this in
  let m := set_app a m in
  if dst =? -1 then fill buf_this m
  else
    let t := (next_buf (sm m)).[buf_this] in
    let m := if is_state (state_of m t) BS_EMPTY then fill t m else upd_sm (set_rx ST_IDLE) m in
    if (tx_state (sm m)).[dst] =? ST_IDLE then drain buf_this dst m else set_target buf_this dst m.

Definition process_emptied (buf_this : Z) (m : mach) : mach :=
  let m := set_target buf_this (-1) (set_state buf_this BS_EMPTY m) in
  let m := if rx_state (sm m) =? ST_IDLE then fill buf_this m else m in
  let dst := (buffer_dst m).[buf_this] in
  let t := (next_buf (sm m)).[buf_this] in
  let t' := (next_buf (sm m)).[t] in
  if (buffer_target m).[t] =? dst then drain t dst m
  else if (buffer_target m).[t'] =? dst then drain t' dst m
  else upd_sm (set_tx dst ST_IDLE) m.

Definition bsm12_process_helper (buf_this : Z) (m : mach) : mach :=
  let m := io (bp_clear_buf buf_this) m in
  if is_state (state_of m buf_this) BS_FILLING then process_filled buf_this m
  else process_emptied buf_this m.

Definition bsm12_error_helper (buf_this : Z) (m : mach) : mach :=
  let m := io (bp_clear_buf buf_this) m in
  if is_state (state_of m buf_this) BS_FILLING then bsm12_receive_to_buf buf_this m
  else bsm12_resend_from_buf buf_this m.

Definition when (c : bool) (f : mach -> mach) (m : mach) : mach := if c then f m else m.

Definition bsm12_process_status (status : Z) (m : mach) : mach :=
  let b0 := buf0 (sm m) in
  if (status .& bps_error_or_done (sm m) =? 0) || negb (running (sm m)) then m
  else
    let m := when (ctrue (status .& bps_error (sm m))) (fun m =>
      let m := when (ctrue (status .& BPS_ERROR b0)) (bsm12_error_helper b0) m in
      let m := when (ctrue (status .& BPS_ERROR (b0 + 1))) (bsm12_error_helper (b0 + 1)) m in
      when (ctrue (status .& BPS_ERROR (b0 + 2))) (bsm12_error_helper (b0 + 2)) m) m in
    let m := when (ctrue (status .& BPS_DONE b0)) (bsm12_process_helper b0) m in
    let m := when (ctrue (status .& BPS_DONE (b0 + 1))) (bsm12_process_helper (b0 + 1)) m in
    when (ctrue (status .& BPS_DONE (b0 + 2))) (bsm12_process_helper (b0 + 2)) m.

Definition bsm12_handle_tx_underrun (m : mach) : mach := m.
Definition bsm12_handle_rx_overrun (m : mach) : mach := m.

(** ** The buffers of a machine *)

(** What a buffer of the machine is doing. *)
Inductive slot := Empty | Filling | Full (d : bool) | Emptying (d : bool).

#[export] Instance slot_eq_dec : EqDecision slot.
Proof. solve_decision. Defined.

(** The two destinations. *)
Definition dz (d : bool) : Z := if d then 1 else 0.

Definition is_slot (x y : slot) : bool := bool_decide (x = y).

(** The value of [rx_state] or [tx_state]: which of three buffers does [p]. *)
Definition place (p : slot) (b n1 n2 : Z) (x y z : slot) : Z :=
  if is_slot x p then b .& 0x3 else if is_slot y p then n1 .& 0x3
  else if is_slot z p then n2 .& 0x3 else ST_IDLE.

Definition slot_count (p : slot) (x y z : slot) : Z :=
  Z.b2z (is_slot x p) + Z.b2z (is_slot y p) + Z.b2z (is_slot z p).

(** Each port has at most one transfer, a packet waits only for a transfer to
    its destination, and some transfer is in progress. *)
Definition admissible (x y z : slot) : bool :=
  (slot_count Filling x y z <=? 1) &&
  forallb (fun d => (slot_count (Emptying d) x y z <=? 1) &&
             ((slot_count (Full d) x y z =? 0) || (slot_count (Emptying d) x y z =? 1)))
          [false; true] &&
  (1 <=? slot_count Filling x y z + slot_count (Emptying false) x y z
         + slot_count (Emptying true) x y z).

Lemma admissible_rotate x y z : admissible x y z = true -> admissible y z x = true.
Proof. destruct x as [| |[]|[]], y as [| |[]|[]], z as [| |[]|[]]; vm_compute; auto. Qed.

Lemma place_rotate p b n1 n2 x y z :
  slot_count p x y z <= 1 -> place p b n1 n2 x y z = place p n1 n2 b y z x.
Proof.
  unfold slot_count, place.
  destruct (is_slot x p), (is_slot y p), (is_slot z p); cbn; lia || done.
Qed.

Lemma admissible_counts x y z :
  admissible x y z = true ->
  slot_count Filling x y z <= 1 /\ forall d, slot_count (Emptying d) x y z <= 1.
Proof.
  destruct x as [| |[]|[]], y as [| |[]|[]], z as [| |[]|[]]; vm_compute; intros;
    (split; [congruence|intros []]); congruence.
Qed.

Lemma place_idle p b n1 n2 x y z :
  (place p b n1 n2 x y z =? ST_IDLE) = negb (is_slot x p || is_slot y p || is_slot z p).
Proof.
  unfold place, ST_IDLE. pose proof (land_range b 0x3). pose proof (land_range n1 0x3).
  pose proof (land_range n2 0x3).
  destruct (is_slot x p), (is_slot y p), (is_slot z p); cbn [orb negb]; zbool;
    first [apply Z.eqb_neq; lia | done].
Qed.

(** The object [bsm12_init] builds. *)
Record sm_ok (s : bsm12_t) : Prop := {
  ok_buf0 : buf0 s = 0 \/ buf0 s = 4;
  ok_recv : args_ok (recv_args s);
  ok_send : forall d, args_ok (send_args s).[dz d];
  ok_receive_words : precomputed_receive_to_buf_ctrl_word s =
    map (receive_word (recv_args s)) [buf0 s; buf0 s + 1; buf0 s + 2];
  ok_send_words : precomputed_send_from_buf_ctrl_word s =
    map (fun b => [send_word (send_args s).[0] b; send_word (send_args s).[1] b])
        [buf0 s; buf0 s + 1; buf0 s + 2];
  ok_next : next_buf s = (replicate 8 (buf0 s))
        .[buf0 s <- buf0 s + 1].[buf0 s + 1 <- buf0 s + 2].[buf0 s + 2 <- buf0 s];
  ok_error : bps_error s = BPS_ERROR (buf0 s) .| BPS_ERROR (buf0 s + 1) .| BPS_ERROR (buf0 s + 2);
  ok_done : bps_done s = BPS_DONE (buf0 s) .| BPS_DONE (buf0 s + 1) .| BPS_DONE (buf0 s + 2);
  ok_error_or_done : bps_error_or_done s = bps_error s .| bps_done s
}.

(** [b] is one of the three buffers of the machine. *)
Definition owns (s : bsm12_t) (b : Z) : Prop :=
  b = buf0 s \/ b = buf0 s + 1 \/ b = buf0 s + 2.

Definition next1 (s : bsm12_t) (b : Z) : Z := (next_buf s).[b].
Definition next2 (s : bsm12_t) (b : Z) : Z := (next_buf s).[next1 s b].

(** The ring of buffers, seen from any of them. *)
Record ring (s : bsm12_t) (b n1 n2 : Z) : Prop := {
  ring_b : owns s b; ring_n1 : owns s n1; ring_n2 : owns s n2;
  ring_next1 : next1 s b = n1; ring_next2 : next1 s n1 = n2; ring_next3 : next1 s n2 = b;
  ring_b1 : b <> n1; ring_b2 : b <> n2; ring_12 : n1 <> n2;
  ring_all : forall c, owns s c -> c = b \/ c = n1 \/ c = n2
}.

Lemma owns_ring s b : sm_ok s -> owns s b -> ring s b (next1 s b) (next2 s b).
Proof.
  intros Hs Hb. unfold next2, next1. rewrite (ok_next _ Hs).
  unfold owns in Hb. destruct (ok_buf0 _ Hs) as [E|E]; rewrite E in *;
    destruct Hb as [-> | [-> | ->]]; split; unfold owns, next1;
    rewrite ?(ok_next _ Hs), ?E;
    repeat match goal with
    | |- context [aget ?l ?i] =>
        let v := eval vm_compute in (aget l i) in change (aget l i) with v
    end; intros; lia.
Qed.

Lemma bsm12_owns_range s b : sm_ok s -> owns s b -> 0 <= b < 8.
Proof. intros Hs Hb. unfold owns in Hb. destruct (ok_buf0 _ Hs); lia. Qed.

Lemma bsm12_word_of {B} `{Default B} (f : Z -> B) s b :
  sm_ok s -> owns s b -> (map f [buf0 s; buf0 s + 1; buf0 s + 2]).[b .& 0x3] = f b.
Proof.
  intros Hs Hb. unfold owns in Hb. destruct (ok_buf0 _ Hs) as [E|E]; rewrite E in *;
    destruct Hb as [-> | [-> | ->]]; done.
Qed.

(** A call leaves the configuration of the object alone. *)
Definition same_config (s s' : bsm12_t) : Prop :=
  buf0 s' = buf0 s /\ running s' = running s /\
  recv_args s' = recv_args s /\ send_args s' = send_args s /\
  last_line_adj s' = last_line_adj s /\ bps_error s' = bps_error s /\
  bps_done s' = bps_done s /\ bps_error_or_done s' = bps_error_or_done s /\
  next_buf s' = next_buf s /\
  precomputed_receive_to_buf_ctrl_word s' = precomputed_receive_to_buf_ctrl_word s /\
  precomputed_send_from_buf_ctrl_word s' = precomputed_send_from_buf_ctrl_word s.

Lemma same_config_refl s : same_config s s.
Proof. by repeat split. Qed.

Lemma same_config_trans s1 s2 s3 : same_config s1 s2 -> same_config s2 s3 -> same_config s1 s3.
Proof. unfold same_config. intuition congruence. Qed.

Lemma bsm12_same_config_ok s s' : same_config s s' -> sm_ok s -> sm_ok s'.
Proof.
  intros (E1 & _ & E3 & E4 & E5 & E6 & E7 & E8 & E9 & E10 & E11) [].
  split; try intro; rewrite ?E1, ?E3, ?E4, ?E5, ?E6, ?E7, ?E8, ?E9, ?E10, ?E11; auto.
Qed.

Lemma bsm12_same_config_owns s s' b : same_config s s' -> owns s' b <-> owns s b.
Proof. intros (E & _). unfold owns. by rewrite E. Qed.

Lemma same_config_ring s s' b n1 n2 : same_config s s' -> ring s b n1 n2 -> ring s' b n1 n2.
Proof.
  intros (E & _ & _ & _ & _ & _ & _ & _ & En & _) []. unfold next1 in *.
  split; unfold next1, owns in *; rewrite ?E, ?En; auto.
Qed.

(** ** What the hardware executes *)

Context (dev0 : list transfer) (Hdev0 : length dev0 = 8%nat).

Definition devof (m : mach) : list transfer := device dev0 (trace m).

Definition receive_transfer (s : bsm12_t) : transfer :=
  Receiving (port (recv_args s)) 1 (first_line (recv_args s)) (last_line (recv_args s)).
Definition send_transfer (m : mach) (b : Z) (d : bool) : transfer :=
  let send := (send_args (sm m)).[dz d] in
  Sending (port send) 1 (first_line send)
    (u32 ((status_last_line m).[b] - last_line_adj (sm m)) .& 0x1ff).

Lemma bsm12_devof_io e m : devof (io e m) = device_step (devof m) e.
Proof. unfold devof. cbn [io trace]. by rewrite device_app. Qed.

Lemma bsm12_length_devof m : length (devof m) = 8%nat.
Proof using Hdev0. unfold devof. by rewrite length_device. Qed.

Lemma bsm12_devof_clear b m : 0 <= b < 8 -> devof (io (bp_clear_buf b) m) = (devof m).[b <- Idle].
Proof.
  intros Hb. rewrite bsm12_devof_io. unfold device_step, bp_clear_buf. by rewrite command_clear by lia.
Qed.

Lemma bsm12_devof_receive b m :
  sm_ok (sm m) -> owns (sm m) b ->
  devof (bsm12_receive_to_buf b m) = (devof m).[b <- receive_transfer (sm m)].
Proof.
  intros Hs Hb. unfold bsm12_receive_to_buf. rewrite bsm12_devof_io. unfold device_step.
  rewrite (ok_receive_words _ Hs), (bsm12_word_of _ _ _ Hs Hb). unfold receive_word.
  pose proof (bsm12_owns_range _ _ Hs Hb). destruct (ok_recv _ Hs) as (? & ? & ?).
  by rewrite command_receive by lia.
Qed.

(** The word [bsm12_send_from_buf] writes. *)
Definition sent_word (m : mach) (b : Z) (d : bool) : Z :=
  send_word (send_args (sm m)).[dz d] b
  .| BPC_LAST_LINE (u32 ((status_last_line m).[b] - last_line_adj (sm m))).

Lemma sent_word_command m b d :
  sm_ok (sm m) -> owns (sm m) b ->
  command (sent_word m b d) = CmdTransfer b (send_transfer m b d).
Proof.
  intros Hs Hb. pose proof (bsm12_owns_range _ _ Hs Hb). destruct (ok_send _ Hs d) as (? & ? & ?).
  unfold sent_word, send_word, send_transfer. cbv zeta.
  change (BPC_LAST_LINE 0) with 0. rewrite Z.lor_0_r.
  set (l := u32 _ .& 0x1ff).
  assert (BPC_LAST_LINE (u32 ((status_last_line m).[b] - last_line_adj (sm m))) = BPC_LAST_LINE l)
    as -> by (unfold BPC_LAST_LINE, l; by rewrite <- Z.land_assoc).
  pose proof (land_range (u32 ((status_last_line m).[b] - last_line_adj (sm m))) 0x1ff).
  by rewrite command_send by (subst l; lia).
Qed.

Lemma send_from_buf_eq m b d :
  sm_ok (sm m) -> owns (sm m) b ->
  bsm12_send_from_buf b (dz d) m
  = set_sent b (sent_word m b d) (dz d) (io (BufferPoolCtrl (sent_word m b d)) m).
Proof.
  intros Hs Hb. unfold bsm12_send_from_buf. cbv zeta.
  replace (dz d .& 0x1) with (dz d) by by destruct d.
  rewrite (ok_send_words _ Hs), (bsm12_word_of _ _ _ Hs Hb). by destruct d.
Qed.

(** ** The invariant *)

Record base (m : mach) : Prop := {
  inv_sm : sm_ok (sm m);
  inv_running : running (sm m) = true;
  inv_tx : length (tx_state (sm m)) = 2%nat;
  inv_state : length (buffer_state m) = 8%nat;
  inv_sent : length (last_send_ctrl m) = 8%nat;
  inv_target : length (buffer_target m) = 8%nat;
  inv_dst : length (buffer_dst m) = 8%nat
}.

(** Software and hardware agree that buffer [b] is doing [x]. *)
Definition cell (m : mach) (b : Z) (x : slot) : Prop :=
  match x with
  | Empty => state_of m b = BS_EMPTY /\ (buffer_target m).[b] = -1 /\ (devof m).[b] = Idle
  | Filling => state_of m b = BS_FILLING /\ (buffer_target m).[b] = -1 /\
               (devof m).[b] = receive_transfer (sm m)
  | Full d => state_of m b = BS_FULL /\ (buffer_target m).[b] = dz d /\ (devof m).[b] = Idle
  | Emptying d => state_of m b = BS_EMPTYING /\ (buffer_target m).[b] = -1 /\
                  (buffer_dst m).[b] = dz d /\ (devof m).[b] = send_transfer m b d /\
                  (last_send_ctrl m).[b] = sent_word m b d
  end.

(** The three buffers seen from [b], and the port states. *)
Record sees (m : mach) (b : Z) (x y z : slot) : Prop := {
  sees_x : cell m b x;
  sees_y : cell m (next1 (sm m) b) y;
  sees_z : cell m (next2 (sm m) b) z;
  sees_rx : rx_state (sm m) = place Filling b (next1 (sm m) b) (next2 (sm m) b) x y z;
  sees_tx : forall d, (tx_state (sm m)).[dz d]
                      = place (Emptying d) b (next1 (sm m) b) (next2 (sm m) b) x y z;
  sees_ok : admissible x y z = true
}.

Definition inv (m : mach) : Prop :=
  base m /\ exists x y z, sees m (buf0 (sm m)) x y z.

Lemma sees_rotate m b x y z :
  sm_ok (sm m) -> owns (sm m) b -> sees m b x y z -> sees m (next1 (sm m) b) y z x.
Proof.
  intros Hs Hb [Hx Hy Hz Hrx Htx Hok]. pose proof (owns_ring _ _ Hs Hb) as R.
  pose proof (ring_next2 _ _ _ _ R) as E2. pose proof (ring_next3 _ _ _ _ R) as E3.
  destruct (admissible_counts _ _ _ Hok) as [Hr Ht].
  assert (next2 (sm m) (next1 (sm m) b) = b) as E4.
  { unfold next2. rewrite E2. exact E3. }
  split; rewrite ?E2, ?E4; auto using admissible_rotate.
  - by rewrite Hrx, place_rotate.
  - intros d. by rewrite Htx, place_rotate.
Qed.

Lemma inv_sees m b :
  inv m -> owns (sm m) b -> exists x y z, sees m b x y z.
Proof.
  intros (Hb0 & x & y & z & H) Hb. pose proof (inv_sm _ Hb0) as Hs.
  assert (owns (sm m) (buf0 (sm m))) as H0 by by left.
  pose proof (owns_ring _ _ Hs H0) as R. pose proof (sees_rotate _ _ _ _ _ Hs H0 H) as H1.
  pose proof (sees_rotate _ _ _ _ _ Hs (ring_n1 _ _ _ _ R) H1) as H2.
  rewrite (ring_next2 _ _ _ _ R) in H2.
  destruct (ring_all _ _ _ _ R b Hb) as [-> | [-> | ->]]; eauto.
Qed.

Lemma sees_inv m b x y z : base m -> owns (sm m) b -> sees m b x y z -> inv m.
Proof.
  intros Hb0 Hb H. split; [done|]. pose proof (inv_sm _ Hb0) as Hs.
  pose proof (owns_ring _ _ Hs Hb) as R. pose proof (sees_rotate _ _ _ _ _ Hs Hb H) as H1.
  pose proof (sees_rotate _ _ _ _ _ Hs (ring_n1 _ _ _ _ R) H1) as H2.
  rewrite (ring_next2 _ _ _ _ R) in H2.
  assert (owns (sm m) (buf0 (sm m))) as H0 by by left.
  destruct (ring_all _ _ _ _ R _ H0) as [-> | [-> | ->]]; eauto.
Qed.

(** [m'] differs from [m] in what buffer [c] is doing, and in the ports. *)
Record touches (c : Z) (m m' : mach) : Prop := {
  touch_base : base m -> base m';
  touch_config : same_config (sm m) (sm m');
  touch_lines : status_last_line m' = status_last_line m;
  touch_others : forall b x, owns (sm m) b -> b <> c -> cell m b x -> cell m' b x
}.

Lemma touches_trans c m1 m2 m3 : touches c m1 m2 -> touches c m2 m3 -> touches c m1 m3.
Proof.
  intros [B1 C1 L1 O1] [B2 C2 L2 O2]. split; auto.
  - by eapply same_config_trans.
  - congruence.
  - intros b x Hb Hne Hx. apply O2; auto. by apply (bsm12_same_config_owns _ _ _ C1).
Qed.

Lemma cell_ext m m' b x :
  same_config (sm m) (sm m') -> status_last_line m' = status_last_line m ->
  state_of m' b = state_of m b -> (buffer_target m').[b] = (buffer_target m).[b] ->
  (buffer_dst m').[b] = (buffer_dst m).[b] -> (devof m').[b] = (devof m).[b] ->
  (last_send_ctrl m').[b] = (last_send_ctrl m).[b] -> cell m b x -> cell m' b x.
Proof.
  intros (_ & _ & Er & Es & El & _) Hl Hst Ht Hd Hv Hw. unfold cell, receive_transfer, send_transfer, sent_word.
  rewrite Hst, Ht, Hd, Hv, Hw, Hl, Er, Es, El. done.
Qed.

(** A record of array and register updates at index [c] touches only [c]. *)
Ltac touching :=
  split;
  [ intros []; split; cbn in *; rewrite ?length_aset; auto;
    refine (bsm12_same_config_ok _ _ _ ltac:(eassumption)); repeat split; done
  | repeat split; done
  | reflexivity
  | let b := fresh "b" in let x := fresh "x" in let Hb := fresh "Hb" in let Hne := fresh "Hne" in
    intros b x Hb Hne; apply cell_ext;
    [ repeat split; done | reflexivity
    | unfold state_of; cbn; by rewrite ?aget_aset_ne by lia
    | cbn; by rewrite ?aget_aset_ne by lia
    | cbn; by rewrite ?aget_aset_ne by lia
    | | cbn; by rewrite ?aget_aset_ne by lia ] ].

Section At.
Context (m : mach) (c : Z) (Hbase : base m) (Hc : owns (sm m) c).

Lemma at_range : 0 <= c < 8.
Proof using Hbase Hc Hdev0. exact (bsm12_owns_range _ _ (inv_sm _ Hbase) Hc). Qed.

Lemma clear_touches : touches c m (io (bp_clear_buf c) m).
Proof using Hbase Hc Hdev0.
  pose proof at_range. touching.
  rewrite bsm12_devof_clear by lia. by rewrite aget_aset_ne by lia.
Qed.

Lemma set_state_touches s : touches c m (set_state c s m).
Proof using Hbase Hc Hdev0. pose proof at_range. touching. done. Qed.

Lemma set_target_touches t : touches c m (set_target c t m).
Proof using Hbase Hc Hdev0. pose proof at_range. touching. done. Qed.

Lemma set_app_touches a : touches c m (set_app a m).
Proof using Hbase Hc Hdev0. pose proof at_range. touching. done. Qed.

Lemma set_rx_touches v : touches c m (upd_sm (set_rx v) m).
Proof using Hbase Hc Hdev0. pose proof at_range. touching. done. Qed.

Lemma set_tx_touches d v : touches c m (upd_sm (set_tx d v) m).
Proof using Hbase Hc Hdev0. pose proof at_range. touching. done. Qed.

Lemma receive_touches : touches c m (bsm12_receive_to_buf c m).
Proof using Hbase Hc Hdev0.
  pose proof at_range. pose proof (inv_sm _ Hbase). touching.
  rewrite bsm12_devof_receive by done. by rewrite aget_aset_ne by lia.
Qed.

Lemma send_touches d : touches c m (bsm12_send_from_buf c (dz d) m).
Proof using Hbase Hc Hdev0.
  pose proof at_range. pose proof (inv_sm _ Hbase).
  rewrite send_from_buf_eq by done. touching.
  unfold devof. cbn [trace set_sent io]. rewrite device_app. cbn.
  rewrite sent_word_command by done. by rewrite aget_aset_ne by lia.
Qed.
End At.

Lemma touches_then c m m1 m2 :
  base m -> owns (sm m) c -> touches c m m1 ->
  (base m1 -> owns (sm m1) c -> touches c m1 m2) -> touches c m m2.
Proof.
  intros Hb Hc H1 H2. eapply touches_trans; [exact H1|]. apply H2.
  - by apply (touch_base _ _ _ H1).
  - by apply (bsm12_same_config_owns _ _ _ (touch_config _ _ _ H1)).
Qed.

Lemma touches_refl c m : touches c m m.
Proof. split; auto using same_config_refl. Qed.

(** The same for a state reached by steps that touch [c] only. *)
Section Touched.
Context (c : Z) (m0 m : mach) (Hbase : base m0) (Hc : owns (sm m0) c) (Hm : touches c m0 m).

Lemma clear_touched : touches c m0 (io (bp_clear_buf c) m).
Proof using Hbase Hc Hm Hdev0. eapply touches_then; eauto using clear_touches. Qed.
Lemma set_state_touched s : touches c m0 (set_state c s m).
Proof using Hbase Hc Hm Hdev0. eapply touches_then; eauto using set_state_touches. Qed.
Lemma set_target_touched t : touches c m0 (set_target c t m).
Proof using Hbase Hc Hm Hdev0. eapply touches_then; eauto using set_target_touches. Qed.
Lemma set_app_touched a : touches c m0 (set_app a m).
Proof using Hbase Hc Hm Hdev0. eapply touches_then; eauto using set_app_touches. Qed.
Lemma set_rx_touched v : touches c m0 (upd_sm (set_rx v) m).
Proof using Hbase Hc Hm Hdev0. eapply touches_then; eauto using set_rx_touches. Qed.
Lemma set_tx_touched d v : touches c m0 (upd_sm (set_tx d v) m).
Proof using Hbase Hc Hm Hdev0. eapply touches_then; eauto using set_tx_touches. Qed.
Lemma receive_touched : touches c m0 (bsm12_receive_to_buf c m).
Proof using Hbase Hc Hm Hdev0. eapply touches_then; eauto using receive_touches. Qed.
Lemma send_touched d : touches c m0 (bsm12_send_from_buf c (dz d) m).
Proof using Hbase Hc Hm Hdev0. eapply touches_then; eauto using send_touches. Qed.
End Touched.

Create HintDb bsm12.
Hint Resolve touches_refl clear_touched set_state_touched set_target_touched set_app_touched
  set_rx_touched set_tx_touched receive_touched send_touched : bsm12.

(** Starting a transfer into buffer [c]. *)
Lemma fill_spec m c :
  base m -> owns (sm m) c ->
  touches c m (fill c m) /\ cell (fill c m) c Filling /\
  rx_state (sm (fill c m)) = c .& 0x3 /\ tx_state (sm (fill c m)) = tx_state (sm m).
Proof using Hdev0.
  intros Hb Hc. pose proof (bsm12_owns_range _ _ (inv_sm _ Hb) Hc) as Hr. split; [|split; [|done]].
  - unfold fill. auto 10 with bsm12.
  - unfold cell, fill. split; [|split].
    + apply aget_aset_eq. cbn. rewrite (inv_state _ Hb). lia.
    + apply aget_aset_eq. cbn. rewrite (inv_target _ Hb). lia.
    + change (devof (upd_sm _ _)) with (devof (bsm12_receive_to_buf c m)).
      rewrite bsm12_devof_receive by (done || apply Hb). apply aget_aset_eq. rewrite bsm12_length_devof. lia.
Qed.

(** Starting a transfer out of buffer [c]. *)
Lemma drain_spec m c d :
  base m -> owns (sm m) c ->
  touches c m (drain c (dz d) m) /\ cell (drain c (dz d) m) c (Emptying d) /\
  rx_state (sm (drain c (dz d) m)) = rx_state (sm m) /\
  tx_state (sm (drain c (dz d) m)) = (tx_state (sm m)).[dz d <- c .& 0x3].
Proof using Hdev0.
  intros Hb Hc. pose proof (bsm12_owns_range _ _ (inv_sm _ Hb) Hc) as Hr. split; [|split; [|done]].
  - unfold drain. auto 10 with bsm12.
  - unfold drain. rewrite send_from_buf_eq by (done || apply Hb). unfold cell.
    split; [|split; [|split; [|split]]].
    + apply aget_aset_eq. cbn. rewrite (inv_state _ Hb). lia.
    + apply aget_aset_eq. cbn. rewrite (inv_target _ Hb). lia.
    + apply aget_aset_eq. cbn. rewrite (inv_dst _ Hb). lia.
    + unfold devof. cbn [trace set_target set_state upd_sm set_sent io].
      rewrite device_app. cbn. rewrite sent_word_command by (done || apply Hb).
      apply aget_aset_eq. fold (devof m). rewrite bsm12_length_devof. lia.
    + apply aget_aset_eq. cbn. rewrite (inv_sent _ Hb). lia.
Qed.

(** ** One transfer completes *)

(** What the three buffers do next, seen from the buffer that completed;
    [d] is the destination of the packet received, if it is to be sent. *)
Definition next_slots (d : option bool) (x y z : slot) : slot * slot * slot :=
  match x with
  | Filling =>
      match d with
      | None => (Filling, y, z)
      | Some d =>
          let busy := is_slot y (Emptying d) || is_slot z (Emptying d) in
          (if busy then Full d else Emptying d, if is_slot y Empty then Filling else y, z)
      end
  | Emptying d =>
      let x' := if is_slot y Filling || is_slot z Filling then Empty else Filling in
      if is_slot y (Full d) then (x', Emptying d, z)
      else if is_slot z (Full d) then (x', y, Emptying d)
      else (x', y, z)
  | _ => (x, y, z)
  end.

Definition active (x : slot) : bool :=
  match x with Filling | Emptying _ => true | _ => false end.

Lemma next_slots_admissible d x y z x' y' z' :
  admissible x y z = true -> active x = true -> next_slots d x y z = (x', y', z') ->
  admissible x' y' z' = true.
Proof.
  intros Ha Hx Hn. assert (implb (admissible x y z && active x)
    (let '(x', y', z') := next_slots d x y z in admissible x' y' z') = true) as H.
  { clear. destruct d as [[]|], x as [| |[]|[]], y as [| |[]|[]], z as [| |[]|[]]; reflexivity. }
  by rewrite Ha, Hx, Hn in H.
Qed.

(** The destination the inspector chose. *)
Definition chosen (dst : Z) : option bool :=
  if dst =? -1 then None else Some (dst =? 1).

Definition inspects_ok : Prop :=
  forall a s b, fst (inspect a s b) = -1 \/ fst (inspect a s b) = 0 \/ fst (inspect a s b) = 1.

Lemma cell_empty m b x : cell m b x -> is_state (state_of m b) BS_EMPTY = is_slot x Empty.
Proof. destruct x as [| |[]|[]]; cbn [cell]; by intros (-> & _). Qed.

Lemma cell_filling m b x : cell m b x -> is_state (state_of m b) BS_FILLING = is_slot x Filling.
Proof. destruct x as [| |[]|[]]; cbn [cell]; by intros (-> & _). Qed.

Lemma cell_target m b x d :
  cell m b x -> ((buffer_target m).[b] =? dz d) = is_slot x (Full d).
Proof. destruct d, x as [| |[]|[]]; cbn [cell]; by intros (_ & -> & _). Qed.

Lemma fill_elsewhere m c b :
  base m -> owns (sm m) c -> b <> c ->
  state_of (fill c m) b = state_of m b /\ (devof (fill c m)).[b] = (devof m).[b].
Proof using Hdev0.
  intros Hb Hc Hne. pose proof (bsm12_owns_range _ _ (inv_sm _ Hb) Hc) as Hr. split.
  - unfold fill, state_of. cbn. apply aget_aset_ne; lia.
  - change (devof (fill c m)) with (devof (bsm12_receive_to_buf c m)).
    rewrite bsm12_devof_receive by (done || apply Hb). apply aget_aset_ne; lia.
Qed.

(** The outcome of a call on buffer [b]. *)
Record outcome (m m' : mach) (b : Z) (s : slot * slot * slot) : Prop := {
  out_base : base m';
  out_config : same_config (sm m) (sm m');
  out_lines : status_last_line m' = status_last_line m;
  out_sees : sees m' b (fst (fst s)) (snd (fst s)) (snd s)
}.

Lemma same_config_next s s' b :
  same_config s s' -> next1 s' b = next1 s b /\ next2 s' b = next2 s b.
Proof. intros (_ & _ & _ & _ & _ & _ & _ & _ & E & _). unfold next2, next1. by rewrite E. Qed.

(** Assemble an outcome from the cells. *)
Lemma outcome_intro m m' b x y z :
  let n1 := next1 (sm m) b in
  let n2 := next2 (sm m) b in
  base m' -> same_config (sm m) (sm m') -> status_last_line m' = status_last_line m ->
  cell m' b x -> cell m' n1 y -> cell m' n2 z ->
  rx_state (sm m') = place Filling b n1 n2 x y z ->
  (forall d, (tx_state (sm m')).[dz d] = place (Emptying d) b n1 n2 x y z) ->
  admissible x y z = true -> outcome m m' b (x, y, z).
Proof.
  cbv zeta. intros Hb Hc Hl Hx Hy Hz Hr Ht Ha. split; [done..|].
  destruct (same_config_next _ _ b Hc) as [E1 E2]. split; rewrite ?E1, ?E2; done.
Qed.

(** The packet received is for the software: the buffer is filled again. *)
Lemma refilled_outcome m m2 b y z :
  base m -> owns (sm m) b -> sees m b Filling y z -> touches b m m2 ->
  rx_state (sm m2) = rx_state (sm m) -> tx_state (sm m2) = tx_state (sm m) ->
  outcome m (fill b m2) b (Filling, y, z).
Proof using Hdev0.
  intros Hb Ho [Hx Hy Hz Hrx Htx Hok] T2 Er Et.
  pose proof (owns_ring _ _ (inv_sm _ Hb) Ho) as R.
  assert (base m2) as B2 by by apply (touch_base _ _ _ T2).
  assert (owns (sm m2) b) as O2 by by apply (bsm12_same_config_owns _ _ _ (touch_config _ _ _ T2)).
  destruct (fill_spec m2 b B2 O2) as (Tf & Cf & Rf & Xf).
  pose proof (touches_trans _ _ _ _ T2 Tf) as T.
  destruct T as [Tb Tc Tl To]. destruct R as [? ? ? _ _ _ ? ? _ _].
  apply outcome_intro; auto.
  intros d. by rewrite Xf, Et, Htx.
Qed.

Definition marked (m : mach) (b : Z) : Prop :=
  state_of m b = BS_FULL /\ (devof m).[b] = Idle.

(** The next buffer is filled, or the receiver goes idle. *)
Definition restart_receive (b : Z) (m : mach) : mach :=
  if is_state (state_of m (next1 (sm m) b)) BS_EMPTY then fill (next1 (sm m) b) m
  else upd_sm (set_rx ST_IDLE) m.

Lemma restart_spec m b y z :
  base m -> owns (sm m) b -> marked m b ->
  cell m (next1 (sm m) b) y -> cell m (next2 (sm m) b) z ->
  let m' := restart_receive b m in
  let y' := if is_slot y Empty then Filling else y in
  base m' /\ same_config (sm m) (sm m') /\ status_last_line m' = status_last_line m /\
  marked m' b /\ cell m' (next1 (sm m) b) y' /\ cell m' (next2 (sm m) b) z /\
  tx_state (sm m') = tx_state (sm m) /\
  rx_state (sm m') = if is_slot y Empty then next1 (sm m) b .& 0x3 else ST_IDLE.
Proof using Hdev0.
  intros Hb Ho [Hst Hdv] Hy Hz. pose proof (owns_ring _ _ (inv_sm _ Hb) Ho) as R.
  unfold restart_receive. cbv zeta. rewrite (cell_empty _ _ _ Hy).
  destruct (is_slot y Empty).
  - destruct (fill_spec m (next1 (sm m) b) Hb (ring_n1 _ _ _ _ R)) as (T & C & Rx & Tx).
    destruct (fill_elsewhere m _ b Hb (ring_n1 _ _ _ _ R) (ring_b1 _ _ _ _ R)) as [E1 E2].
    destruct T as [Tb Tc Tl To]. destruct R as [? ? ? _ _ _ ? ? ? _].
    split_and!; auto. split; congruence.
  - pose proof (set_rx_touches m b Hb Ho ST_IDLE) as [Tb Tc Tl To].
    destruct R as [? ? ? _ _ _ ? ? ? _]. split_and!; auto. by split.
Qed.

(** The packet goes to its destination, or waits for it. *)
Definition dispatch (b dst : Z) (m : mach) : mach :=
  if (tx_state (sm m)).[dst] =? ST_IDLE then drain b dst m else set_target b dst m.

Lemma dispatched_outcome m m2 b d y z :
  base m -> owns (sm m) b -> sees m b Filling y z -> touches b m m2 -> marked m2 b ->
  tx_state (sm m2) = tx_state (sm m) ->
  outcome m (dispatch b (dz d) (restart_receive b m2)) b (next_slots (Some d) Filling y z).
Proof using Hdev0.
  intros Hb Ho [Hx Hy Hz Hrx Htx Hok] T2 M2 Et.
  destruct (owns_ring _ _ (inv_sm _ Hb) Ho) as [_ O1 O3 _ _ _ N1 N2 _ _].
  pose proof (touch_config _ _ _ T2) as C2.
  assert (base m2) as B2 by by apply (touch_base _ _ _ T2).
  assert (owns (sm m2) b) as O2 by by apply (bsm12_same_config_owns _ _ _ C2).
  destruct (same_config_next _ _ b C2) as [E1 E2].
  destruct (restart_spec m2 b y z B2 O2 M2) as (B3 & C3 & L3 & M3 & Y3 & Z3 & Tx3 & Rx3).
  { rewrite E1. by apply T2. } { rewrite E2. by apply T2. }
  rewrite E1 in Y3, Rx3. rewrite E2 in Z3.
  set (m3 := restart_receive b m2) in *. set (y' := if is_slot y Empty then Filling else y) in *.
  pose proof (same_config_trans _ _ _ C2 C3) as C.
  pose proof (touch_lines _ _ _ T2) as L2.
  assert (owns (sm m3) b) as Ob by by apply (bsm12_same_config_owns _ _ _ C).
  assert (owns (sm m3) (next1 (sm m) b)) as Ob1 by by apply (bsm12_same_config_owns _ _ _ C).
  assert (owns (sm m3) (next2 (sm m) b)) as Ob2 by by apply (bsm12_same_config_owns _ _ _ C).
  assert (next_slots (Some d) Filling y z =
    (if is_slot y (Emptying d) || is_slot z (Emptying d) then Full d else Emptying d, y', z))
    as Hn by done.
  assert (forall x', admissible x' y' z = true ->
    x' = (if is_slot y (Emptying d) || is_slot z (Emptying d) then Full d else Emptying d) ->
    rx_state (sm m3) = place Filling b (next1 (sm m) b) (next2 (sm m) b) x' y' z) as Hplace.
  { intros x' Hx' ->. rewrite Rx3. clear -Hok Hx'. subst y'.
    destruct d, y as [| |[]|[]], z as [| |[]|[]]; vm_compute in Hok; try discriminate; done. }
  assert (admissible (if is_slot y (Emptying d) || is_slot z (Emptying d) then Full d
                      else Emptying d) y' z = true) as Ha.
  { by apply (next_slots_admissible (Some d) Filling y z). }
  specialize (Hplace _ Ha eq_refl). rewrite Hn. unfold dispatch.
  rewrite Tx3, Et, Htx, place_idle. replace (is_slot Filling (Emptying d)) with false by done.
  cbn [orb]. destruct (is_slot y (Emptying d) || is_slot z (Emptying d)) eqn:Ebusy; cbn [negb].
  - pose proof (set_target_touches m3 b B3 Ob (dz d)) as [Tb Tc Tl To].
    pose proof (same_config_trans _ _ _ C Tc). apply outcome_intro; auto; [congruence|..].
    + destruct M3 as [S3 D3]. split; [done|]. split; [|done]. apply aget_aset_eq.
      rewrite (inv_target _ B3). pose proof (bsm12_owns_range _ _ (inv_sm _ B3) Ob). lia.
    + intros d'. cbn [sm set_target]. rewrite Tx3, Et, Htx. clear. subst y'.
      destruct d, d', y as [| |[]|[]]; done.
  - destruct (drain_spec m3 b d B3 Ob) as ([Tb Tc Tl To] & Cx & Rx & Tx).
    pose proof (same_config_trans _ _ _ C Tc).
    apply outcome_intro; auto; [congruence|..].
    + intros d'. rewrite Tx. rewrite aget_aset by (rewrite (inv_tx _ B3); destruct d; cbn; lia).
      rewrite Tx3, Et, Htx. clear -Ebusy Hok. subst y'.
      destruct d, d', y as [| |[]|[]], z as [| |[]|[]]; try discriminate; done.
Qed.

(** The two halves of a mark-and-choose prefix. *)
Definition mark_full (b : Z) (m : mach) : mach :=
  set_target b (-1) (set_state b BS_FULL (io (bp_clear_buf b) m)).

Lemma mark_full_spec m b a :
  base m -> owns (sm m) b ->
  touches b m (set_app a (mark_full b m)) /\ marked (set_app a (mark_full b m)) b.
Proof using Hdev0.
  intros Hb Ho. pose proof (bsm12_owns_range _ _ (inv_sm _ Hb) Ho). split.
  - unfold mark_full. auto 10 with bsm12.
  - split.
    + apply aget_aset_eq. cbn. rewrite (inv_state _ Hb). lia.
    + change (devof (set_app a (mark_full b m))) with (devof (io (bp_clear_buf b) m)).
      rewrite bsm12_devof_clear by done. apply aget_aset_eq. rewrite bsm12_length_devof. lia.
Qed.

Lemma bsm12_helper_filling m b y z :
  base m -> owns (sm m) b -> sees m b Filling y z -> inspects_ok ->
  outcome m (bsm12_process_helper b m) b
    (next_slots (chosen (fst (inspect (app m) (sm m) b))) Filling y z).
Proof using Hdev0.
  intros Hb Ho Hs Hi. destruct (inspect (app m) (sm m) b) as [dst a] eqn:E. cbn [fst].
  pose proof (Hi (app m) (sm m) b) as Hdst. rewrite E in Hdst. cbn [fst] in Hdst.
  destruct (mark_full_spec m b a Hb Ho) as [T2 M2].
  unfold bsm12_process_helper. cbv zeta.
  change (state_of (io (bp_clear_buf b) m) b) with (state_of m b).
  rewrite (cell_filling _ _ _ (sees_x _ _ _ _ _ Hs)). change (is_slot Filling Filling) with true.
  cbv iota. unfold process_filled. fold (mark_full b m).
  change (app (mark_full b m)) with (app m). change (sm (mark_full b m)) with (sm m).
  rewrite E. destruct Hdst as [-> | [-> | ->]]; cbv beta iota zeta.
  - by apply refilled_outcome.
  - exact (dispatched_outcome m (set_app a (mark_full b m)) b false y z Hb Ho Hs T2 M2 eq_refl).
  - exact (dispatched_outcome m (set_app a (mark_full b m)) b true y z Hb Ho Hs T2 M2 eq_refl).
Qed.

Definition mark_empty (b : Z) (m : mach) : mach :=
  set_target b (-1) (set_state b BS_EMPTY (io (bp_clear_buf b) m)).

Lemma mark_empty_spec m b :
  base m -> owns (sm m) b ->
  touches b m (mark_empty b m) /\ cell (mark_empty b m) b Empty.
Proof using Hdev0.
  intros Hb Ho. pose proof (bsm12_owns_range _ _ (inv_sm _ Hb) Ho). split.
  - unfold mark_empty. auto 10 with bsm12.
  - split; [|split].
    + apply aget_aset_eq. cbn. rewrite (inv_state _ Hb). lia.
    + apply aget_aset_eq. cbn. rewrite (inv_target _ Hb). lia.
    + change (devof (mark_empty b m)) with (devof (io (bp_clear_buf b) m)).
      rewrite bsm12_devof_clear by done. apply aget_aset_eq. rewrite bsm12_length_devof. lia.
Qed.

(** The buffer that became empty is filled if the receiver was idle. *)
Definition refill_idle (b : Z) (m : mach) : mach :=
  if rx_state (sm m) =? ST_IDLE then fill b m else m.

Lemma refill_spec m b d y z :
  base m -> owns (sm m) b -> sees m b (Emptying d) y z ->
  let m' := refill_idle b (mark_empty b m) in
  let x' := if is_slot y Filling || is_slot z Filling then Empty else Filling in
  touches b m m' /\ cell m' b x' /\ tx_state (sm m') = tx_state (sm m) /\
  (buffer_dst m').[b] = dz d /\
  rx_state (sm m') = place Filling b (next1 (sm m) b) (next2 (sm m) b) x' y z.
Proof using Hdev0.
  intros Hb Ho [Hx Hy Hz Hrx Htx Hok]. cbv zeta.
  destruct (mark_empty_spec m b Hb Ho) as [T C]. destruct Hx as (_ & _ & Hd & _).
  unfold refill_idle. change (sm (mark_empty b m)) with (sm m). rewrite Hrx, place_idle.
  change (is_slot (Emptying d) Filling) with false. cbn [orb].
  destruct (is_slot y Filling || is_slot z Filling) eqn:E; cbn [negb].
  - split_and!; auto.
  - destruct (fill_spec (mark_empty b m) b) as (Tf & Cf & Rf & Xf).
    { by apply (touch_base _ _ _ T). } { by apply (bsm12_same_config_owns _ _ _ (touch_config _ _ _ T)). }
    split_and!; auto. by eapply touches_trans.
Qed.

(** The port that became free takes a packet that waits for it. *)
Definition send_waiting (b dst : Z) (m : mach) : mach :=
  let t := (next_buf (sm m)).[b] in
  let t' := (next_buf (sm m)).[t] in
  if (buffer_target m).[t] =? dst then drain t dst m
  else if (buffer_target m).[t'] =? dst then drain t' dst m
  else upd_sm (set_tx dst ST_IDLE) m.

Lemma emptied_outcome m b d y z :
  base m -> owns (sm m) b -> sees m b (Emptying d) y z ->
  outcome m (send_waiting b (dz d) (refill_idle b (mark_empty b m))) b
    (next_slots None (Emptying d) y z).
Proof using Hdev0.
  intros Hb Ho Hs. destruct (refill_spec m b d y z Hb Ho Hs) as (T3 & X3 & Tx3 & _ & Rx3).
  destruct Hs as [Hx Hy Hz Hrx Htx Hok].
  destruct (owns_ring _ _ (inv_sm _ Hb) Ho) as [_ O1 O2 _ _ _ N1 N2 N3 _].
  set (m3 := refill_idle b (mark_empty b m)) in *.
  destruct T3 as [B3 C3 L3 To3]. specialize (B3 Hb).
  destruct (same_config_next _ _ b C3) as [E1 E2].
  assert (cell m3 (next1 (sm m) b) y) as Y3 by auto.
  assert (cell m3 (next2 (sm m) b) z) as Z3 by auto.
  assert (forall c, owns (sm m) c -> owns (sm m3) c) as Oc.
  { intros c. by apply (bsm12_same_config_owns _ _ _ C3). }
  set (x' := if is_slot y Filling || is_slot z Filling then Empty else Filling) in *.
  unfold send_waiting. fold (next1 (sm m3) b). fold (next2 (sm m3) b). cbv zeta.
  rewrite E1, E2, (cell_target _ _ _ d Y3), (cell_target _ _ _ d Z3).
  assert (forall d', length (tx_state (sm m3)) = 2%nat /\ 0 <= dz d' < 2) as Hlen.
  { intros []; rewrite (inv_tx _ B3); cbn; lia. }
  pose proof (next_slots_admissible None (Emptying d) y z) as Ha.
  unfold next_slots in *. fold x' in Ha |- *.
  destruct (is_slot y (Full d)) eqn:Ey; [|destruct (is_slot z (Full d)) eqn:Ez].
  - apply bool_decide_eq_true in Ey as ->. specialize (Ha _ _ _ Hok eq_refl eq_refl).
    destruct (drain_spec m3 _ d B3 (Oc _ O1)) as ([Tb Tc Tl To] & Cx & Rx & Tx).
    pose proof (same_config_trans _ _ _ C3 Tc). apply outcome_intro; auto.
    intros d'. rewrite Tx, aget_aset, Tx3, Htx by (destruct (Hlen d); lia).
      subst x'. clear -Ha Hok. destruct d, d', z as [| |[]|[]]; try discriminate; done.
  - apply bool_decide_eq_true in Ez as ->. specialize (Ha _ _ _ Hok eq_refl eq_refl).
    destruct (drain_spec m3 _ d B3 (Oc _ O2)) as ([Tb Tc Tl To] & Cx & Rx & Tx).
    pose proof (same_config_trans _ _ _ C3 Tc). apply outcome_intro; auto.
    intros d'. rewrite Tx, aget_aset, Tx3, Htx by (destruct (Hlen d); lia).
      subst x'. clear -Ha Hok. destruct d, d', y as [| |[]|[]]; try discriminate; done.
  - specialize (Ha _ _ _ Hok eq_refl eq_refl).
    pose proof (set_tx_touches m3 b B3 (Oc _ Ho) (dz d) ST_IDLE) as [Tb Tc Tl To].
    pose proof (same_config_trans _ _ _ C3 Tc). apply outcome_intro; auto.
    intros d'. cbn [sm upd_sm tx_state set_tx].
      rewrite aget_aset, Tx3, Htx by (destruct (Hlen d); lia).
      subst x'. clear -Ha Hok Ey Ez.
      destruct d, d', y as [| |[]|[]], z as [| |[]|[]]; try discriminate; done.
Qed.

Lemma bsm12_helper_emptying m b d y z :
  base m -> owns (sm m) b -> sees m b (Emptying d) y z ->
  outcome m (bsm12_process_helper b m) b (next_slots None (Emptying d) y z).
Proof using Hdev0.
  intros Hb Ho Hs. pose proof (emptied_outcome m b d y z Hb Ho Hs) as Hout.
  destruct (refill_spec m b d y z Hb Ho Hs) as (_ & _ & _ & Hd & _).
  unfold bsm12_process_helper. cbv zeta.
  change (state_of (io (bp_clear_buf b) m) b) with (state_of m b).
  rewrite (cell_filling _ _ _ (sees_x _ _ _ _ _ Hs)). change (is_slot (Emptying d) Filling) with false.
  cbv iota. unfold process_emptied. cbv zeta. fold (mark_empty b m).
  fold (refill_idle b (mark_empty b m)). rewrite Hd. exact Hout.
Qed.

(** A failed transfer is started again as it was. *)
Lemma error_outcome m b x y z :
  base m -> owns (sm m) b -> sees m b x y z -> active x = true ->
  outcome m (bsm12_error_helper b m) b (x, y, z) /\ app (bsm12_error_helper b m) = app m.
Proof using Hdev0.
  intros Hb Ho [Hx Hy Hz Hrx Htx Hok] Ha. pose proof (bsm12_owns_range _ _ (inv_sm _ Hb) Ho) as Hr.
  destruct (owns_ring _ _ (inv_sm _ Hb) Ho) as [_ O1 O2 _ _ _ N1 N2 N3 _].
  unfold bsm12_error_helper. cbv zeta.
  change (state_of (io (bp_clear_buf b) m) b) with (state_of m b).
  rewrite (cell_filling _ _ _ Hx).
  pose proof (clear_touches m b Hb Ho) as [B1 C1 L1 To1]. specialize (B1 Hb).
  assert (owns (sm (io (bp_clear_buf b) m)) b) as Ob by by apply (bsm12_same_config_owns _ _ _ C1).
  destruct x as [| |d|d]; try done.
  - change (is_slot Filling Filling) with true. cbv iota. split; [|done].
    pose proof (receive_touched b m _ Hb Ho (clear_touches m b Hb Ho)) as [B2 C2 L2 To2].
    apply outcome_intro; auto. destruct Hx as (Hs & Ht & _). split; [done|]. split; [done|].
    rewrite bsm12_devof_receive by (done || apply B1). apply aget_aset_eq. rewrite bsm12_length_devof. lia.
  - change (is_slot (Emptying d) Filling) with false. cbv iota. split; [|done].
    destruct Hx as (Hs & Ht & Hd & Hv & Hl).
    assert (devof (bsm12_resend_from_buf b (io (bp_clear_buf b) m))
            = (devof m).[b <- Idle].[b <- send_transfer m b d]) as Hdev.
    { unfold bsm12_resend_from_buf. rewrite bsm12_devof_io, bsm12_devof_clear by done. unfold device_step.
      change (last_send_ctrl (io (bp_clear_buf b) m)) with (last_send_ctrl m).
      by rewrite Hl, sent_word_command by (done || apply Hb). }
    assert (forall c x', owns (sm m) c -> c <> b -> cell m c x' ->
      cell (bsm12_resend_from_buf b (io (bp_clear_buf b) m)) c x') as Hoth.
    { intros c x' Hc Hne. apply cell_ext; try done.
      rewrite Hdev. by rewrite !aget_aset_ne by lia. }
    apply outcome_intro; auto; [by destruct B1; split|].
    split_and!; auto. rewrite Hdev. apply aget_aset_eq. rewrite length_aset, bsm12_length_devof. lia.
Qed.

Definition active_at (m : mach) (b : Z) : bool :=
  is_state (state_of m b) BS_FILLING || is_state (state_of m b) BS_EMPTYING.

Lemma cell_active m b x : cell m b x -> active_at m b = active x.
Proof. unfold active_at. destruct x; cbn [cell]; by intros (-> & _). Qed.

(** A transfer in progress on another buffer goes on. *)
Lemma next_slots_others d x y z x' y' z' :
  next_slots d x y z = (x', y', z') ->
  (active y = true -> y' = y) /\ (active z = true -> z' = z).
Proof.
  intros Hn. assert ((let '(x', y', z') := next_slots d x y z in
    implb (active y) (is_slot y' y) && implb (active z) (is_slot z' z)) = true) as H.
  { clear. destruct d as [[]|], x as [| |[]|[]], y as [| |[]|[]], z as [| |[]|[]]; reflexivity. }
  rewrite Hn in H. apply andb_true_iff in H as [Hy Hz].
  split; intros Ha; rewrite Ha in *; by eapply bool_decide_eq_true.
Qed.

Lemma helper_outcome m b x y z :
  base m -> owns (sm m) b -> sees m b x y z -> active x = true -> inspects_ok ->
  exists d, outcome m (bsm12_process_helper b m) b (next_slots d x y z) /\
            (x = Filling -> d = chosen (fst (inspect (app m) (sm m) b))).
Proof using Hdev0.
  intros Hb Ho Hs Ha Hi. destruct x as [| |d|d]; try done.
  - eexists. split; [by apply bsm12_helper_filling|done].
  - exists None. split; [by apply bsm12_helper_emptying|done].
Qed.

Lemma bsm12_helper_inv m b :
  inv m -> owns (sm m) b -> active_at m b = true -> inspects_ok ->
  inv (bsm12_process_helper b m) /\ same_config (sm m) (sm (bsm12_process_helper b m)) /\
  forall c, owns (sm m) c -> c <> b -> active_at m c = true ->
    active_at (bsm12_process_helper b m) c = true.
Proof using Hdev0.
  intros Hv Ho Ha Hi. destruct (inv_sees m b Hv Ho) as (x & y & z & Hs). destruct Hv as [Hb _].
  rewrite (cell_active _ _ _ (sees_x _ _ _ _ _ Hs)) in Ha.
  destruct (helper_outcome m b x y z Hb Ho Hs Ha Hi) as (d & [B C L S] & _).
  destruct (next_slots d x y z) as [[x' y'] z'] eqn:En.
  pose proof (next_slots_others _ _ _ _ _ _ _ En) as [Hy Hz]. cbn [fst snd] in S.
  split; [|split; [done|]].
  - eapply sees_inv; [exact B| |exact S]. by apply (bsm12_same_config_owns _ _ _ C).
  - intros c Hc Hne Hac. destruct (same_config_next _ _ b C) as [E1 E2].
    destruct S as [_ Sy Sz _ _ _]. rewrite E1 in Sy. rewrite E2 in Sz.
    destruct (ring_all _ _ _ _ (owns_ring _ _ (inv_sm _ Hb) Ho) c Hc) as [-> | [-> | ->]]; [done|..].
    + rewrite (cell_active _ _ _ (sees_y _ _ _ _ _ Hs)) in Hac.
      rewrite (cell_active _ _ _ Sy), Hy; done.
    + rewrite (cell_active _ _ _ (sees_z _ _ _ _ _ Hs)) in Hac.
      rewrite (cell_active _ _ _ Sz), Hz; done.
Qed.

(** ** The specification: two unordered mailboxes *)

Context {P : Type} `{Default P}.

(** A packet is accepted for a destination, consumed by the inspector on
    arrival, or delivered to a destination. *)
Inductive op := Accept (dst : Z) (p : P) | Handled (p : P) | Deliver (dst : Z) (p : P).

(** The packets held, with their destinations, in no particular order. *)
Inductive bag_step : list (Z * P) -> op -> list (Z * P) -> Prop :=
| bag_accept q q' d p : q' ≡ₚ (d, p) :: q -> bag_step q (Accept d p) q'
| bag_handled q q' p : q' ≡ₚ q -> bag_step q (Handled p) q'
| bag_deliver q q' d p : q ≡ₚ (d, p) :: q' -> bag_step q (Deliver d p) q'.

Fixpoint accepted (ops : list op) : list (Z * P) :=
  match ops with
  | [] => []
  | Accept d p :: ops => (d, p) :: accepted ops
  | _ :: ops => accepted ops
  end.
Fixpoint delivered (ops : list op) : list (Z * P) :=
  match ops with
  | [] => []
  | Deliver d p :: ops => (d, p) :: delivered ops
  | _ :: ops => delivered ops
  end.

Lemma bag_conservation q ops q' :
  lsteps bag_step q ops q' -> q ++ accepted ops ≡ₚ delivered ops ++ q'.
Proof.
  induction 1 as [q|q o q1 ops q2 Hs _ IH]; simpl; [by rewrite app_nil_r|].
  destruct Hs as [q q1 d p E|q q1 p E|q q1 d p E]; simpl.
  - rewrite <- IH, E. by rewrite <- Permutation_middle.
  - by rewrite <- IH, E.
  - by rewrite E, <- IH.
Qed.

(** ** The machine with the packets in its buffers *)

Definition config : Type := mach * list P.

(** The transfer of buffer [b] completes; [p] is the packet received. *)
Definition done_obs (b : Z) (p : P) (c : config) : list op * list P :=
  let '(m, cont) := c in
  if is_state (state_of m b) BS_FILLING then
    let dst := fst (inspect (app m) (sm m) b) in
    if dst =? -1 then ([Handled p], cont) else ([Accept dst p], cont.[b <- p])
  else ([Deliver (buffer_dst m).[b] cont.[b]], cont).

(** The done bits of a status word, one buffer after the other; each buffer
    comes with the packet it may have received. *)
Fixpoint run_done (status : Z) (l : list (Z * P)) (c : config) : list op * config :=
  match l with
  | [] => ([], c)
  | (b, p) :: l =>
      if ctrue (status .& BPS_DONE b) then
        let '(o, cont') := done_obs b p c in
        let '(os, c') := run_done status l (bsm12_process_helper b (fst c), cont') in
        (o ++ os, c')
      else run_done status l c
  end.

Definition run_errors (status : Z) (m : mach) : mach :=
  let b0 := buf0 (sm m) in
  when (ctrue (status .& bps_error (sm m))) (fun m =>
    let m := when (ctrue (status .& BPS_ERROR b0)) (bsm12_error_helper b0) m in
    let m := when (ctrue (status .& BPS_ERROR (b0 + 1))) (bsm12_error_helper (b0 + 1)) m in
    when (ctrue (status .& BPS_ERROR (b0 + 2))) (bsm12_error_helper (b0 + 2)) m) m.

Definition buffers (m : mach) : list Z := [buf0 (sm m); buf0 (sm m) + 1; buf0 (sm m) + 2].

(** One call of [bsm12_process_status], with what it does to the packets. *)
Definition observe_status (status : Z) (ps : list P) (c : config) : list op * config :=
  if (status .& bps_error_or_done (sm (fst c)) =? 0) || negb (running (sm (fst c))) then ([], c)
  else run_done status (zip (buffers (fst c)) ps) (run_errors status (fst c), snd c).

Lemma observe_status_machine status ps c :
  length ps = 3%nat ->
  fst (snd (observe_status status ps c)) = bsm12_process_status status (fst c).
Proof.
  clear. destruct c as [m cont]. destruct ps as [|p0 [|p1 [|p2 [|]]]]; try done. intros _.
  unfold observe_status, bsm12_process_status, buffers. cbn [fst snd].
  case_if; [done|]. cbv zeta. fold (run_errors status m). generalize (run_errors status m). intros m1.
  cbn [zip zip_with run_done fst].
  destruct (ctrue (status .& BPS_DONE (buf0 (sm m)))); cbn [when fst].
  - destruct (done_obs _ p0 _) as [o0 c0].
    destruct (ctrue (status .& BPS_DONE (buf0 (sm m) + 1))); cbn [when fst].
    + destruct (done_obs _ p1 _) as [o1 c1].
      destruct (ctrue (status .& BPS_DONE (buf0 (sm m) + 2))); cbn [when fst snd];
        [by destruct (done_obs _ p2 _)|done].
    + destruct (ctrue (status .& BPS_DONE (buf0 (sm m) + 2))); cbn [when fst snd];
        [by destruct (done_obs _ p2 _)|done].
  - destruct (ctrue (status .& BPS_DONE (buf0 (sm m) + 1))); cbn [when fst].
    + destruct (done_obs _ p1 _) as [o1 c1].
      destruct (ctrue (status .& BPS_DONE (buf0 (sm m) + 2))); cbn [when fst snd];
        [by destruct (done_obs _ p2 _)|done].
    + destruct (ctrue (status .& BPS_DONE (buf0 (sm m) + 2))); cbn [when fst snd];
        [by destruct (done_obs _ p2 _)|done].
Qed.

(** The hardware reports done or error for transfers in progress only. *)
Definition status_ok (m : mach) (status : Z) : Prop :=
  forall b, owns (sm m) b ->
    (ctrue (status .& BPS_DONE b) = true -> active_at m b = true) /\
    (ctrue (status .& BPS_ERROR b) = true -> active_at m b = true).

(** The last line registers: a receive that completes sets its own. *)
Definition latch (lines : list Z) (m : mach) : mach :=
  {| sm := sm m; buffer_state := buffer_state m; last_send_ctrl := last_send_ctrl m;
     buffer_target := buffer_target m; buffer_dst := buffer_dst m;
     status_last_line := lines; trace := trace m; app := app m |}.

Definition lines_ok (m : mach) (lines : list Z) : Prop :=
  forall b, owns (sm m) b -> state_of m b = BS_FILLING \/ lines.[b] = (status_last_line m).[b].

(** Underruns and overruns are ignored. *)
Inductive dstep : config -> list op -> config -> Prop :=
| dstep_status m cont status ps ops c :
    status_ok m status -> length ps = 3%nat ->
    observe_status status ps (m, cont) = (ops, c) -> dstep (m, cont) ops c
| dstep_lines m cont lines :
    lines_ok m lines -> dstep (m, cont) [] (latch lines m, cont)
| dstep_underrun m cont : dstep (m, cont) [] (bsm12_handle_tx_underrun m, cont)
| dstep_overrun m cont : dstep (m, cont) [] (bsm12_handle_rx_overrun m, cont).

(** The packets a configuration holds. *)
Definition holding (m : mach) (cont : list P) (b : Z) : list (Z * P) :=
  match state_of m b with
  | BS_FULL => [((buffer_target m).[b], cont.[b])]
  | BS_EMPTYING => [((buffer_dst m).[b], cont.[b])]
  | _ => []
  end.

Definition held (c : config) : list (Z * P) := flat_map (holding (fst c) (snd c)) (buffers (fst c)).

Definition slot_packets (x : slot) (p : P) : list (Z * P) :=
  match x with Full d | Emptying d => [(dz d, p)] | _ => [] end.

Lemma cell_holding m b x cont : cell m b x -> holding m cont b = slot_packets x cont.[b].
Proof.
  unfold holding. destruct x; cbn [cell slot_packets].
  - by intros (-> & _).
  - by intros (-> & _).
  - by intros (-> & -> & _).
  - by intros (-> & _ & -> & _).
Qed.

Lemma ring_buffers m b n1 n2 : ring (sm m) b n1 n2 -> buffers m ≡ₚ [b; n1; n2].
Proof.
  intros [O0 O1 O2 _ _ _ N1 N2 N3 Hall]. unfold buffers, owns in *. apply NoDup_Permutation.
  - repeat (apply NoDup_cons; split; [rewrite ?elem_of_cons, elem_of_nil; lia|]). apply NoDup_nil_2.
  - repeat (apply NoDup_cons; split; [rewrite ?elem_of_cons, elem_of_nil; lia|]). apply NoDup_nil_2.
  - intros c. rewrite !elem_of_cons, !elem_of_nil. specialize (Hall c).
    clear -O0 O1 O2 Hall. split; [|intuition congruence]. intuition.
Qed.

Lemma held_sees m cont b x y z :
  sm_ok (sm m) -> owns (sm m) b -> sees m b x y z ->
  held (m, cont) ≡ₚ slot_packets x cont.[b] ++ slot_packets y cont.[next1 (sm m) b]
                    ++ slot_packets z cont.[next2 (sm m) b].
Proof.
  intros Hs Ho [Hx Hy Hz _ _ _]. unfold held. cbn [fst snd].
  rewrite (ring_buffers _ _ _ _ (owns_ring _ _ Hs Ho)). cbn [flat_map].
  by rewrite (cell_holding _ _ _ _ Hx), (cell_holding _ _ _ _ Hy), (cell_holding _ _ _ _ Hz), app_nil_r.
Qed.

Lemma bag_one q o q' : bag_step q o q' -> lsteps bag_step q [o] q'.
Proof. intros. eapply lsteps_cons; [eassumption|constructor]. Qed.

(** The packets of the slots before and after a completion. *)
Lemma packets_received d y z p pb py pz :
  let '(x', y', z') := next_slots (Some d) Filling y z in
  slot_packets x' p ++ slot_packets y' py ++ slot_packets z' pz
  = (dz d, p) :: slot_packets Filling pb ++ slot_packets y py ++ slot_packets z pz.
Proof. destruct d, y as [| |[]|[]], z as [| |[]|[]]; reflexivity. Qed.

Lemma packets_sent d y z p py pz :
  let '(x', y', z') := next_slots None (Emptying d) y z in
  slot_packets x' p ++ slot_packets y' py ++ slot_packets z' pz
  = slot_packets y py ++ slot_packets z pz.
Proof. destruct d, y as [| |[]|[]], z as [| |[]|[]]; reflexivity. Qed.

Lemma bsm12_done_step m cont b p ops cont' :
  inv m -> owns (sm m) b -> active_at m b = true -> inspects_ok -> length cont = 8%nat ->
  done_obs b p (m, cont) = (ops, cont') ->
  lsteps bag_step (held (m, cont)) ops (held (bsm12_process_helper b m, cont')) /\
  length cont' = 8%nat.
Proof using Hdev0.
  intros Hv Ho Ha Hi Hl Hobs. destruct (inv_sees m b Hv Ho) as (x & y & z & Hs). destruct Hv as [Hb _].
  pose proof (bsm12_owns_range _ _ (inv_sm _ Hb) Ho) as Hr.
  destruct (owns_ring _ _ (inv_sm _ Hb) Ho) as [_ _ _ _ _ _ N1 N2 _ _].
  rewrite (cell_active _ _ _ (sees_x _ _ _ _ _ Hs)) in Ha.
  assert (forall s, outcome m (bsm12_process_helper b m) b s -> forall cont',
    held (bsm12_process_helper b m, cont') ≡ₚ
      let '(x', y', z') := s in
      slot_packets x' cont'.[b] ++ slot_packets y' cont'.[next1 (sm m) b]
        ++ slot_packets z' cont'.[next2 (sm m) b]) as Hheld.
  { intros [[x' y'] z'] [B C L S] cont2. destruct (same_config_next _ _ b C) as [<- <-].
    apply held_sees; [apply B|by apply (bsm12_same_config_owns _ _ _ C)|exact S]. }
  unfold done_obs in Hobs. rewrite (cell_filling _ _ _ (sees_x _ _ _ _ _ Hs)) in Hobs.
  destruct x as [| |d|d]; try done.
  - change (is_slot Filling Filling) with true in Hobs. cbv iota zeta in Hobs.
    pose proof (bsm12_helper_filling m b y z Hb Ho Hs Hi) as Hout. unfold chosen in Hout.
    pose proof (Hi (app m) (sm m) b) as Hdst.
    destruct (fst (inspect (app m) (sm m) b) =? -1) eqn:Ed; injection Hobs as <- <-.
    + split; [|done]. apply bag_one, bag_handled. rewrite (Hheld _ Hout). cbn [next_slots].
      by rewrite (held_sees m cont b _ _ _ (inv_sm _ Hb) Ho Hs).
    + split; [|by rewrite length_aset]. apply bag_one, bag_accept. rewrite (Hheld _ Hout).
      pose proof (packets_received (fst (inspect (app m) (sm m) b) =? 1) y z p cont.[b]
        cont.[next1 (sm m) b] cont.[next2 (sm m) b]) as E.
      destruct (next_slots _ Filling y z) as [[x' y'] z'].
      rewrite aget_aset_eq, !aget_aset_ne by lia. rewrite E.
      rewrite (held_sees m cont b _ _ _ (inv_sm _ Hb) Ho Hs).
      replace (dz _) with (fst (inspect (app m) (sm m) b)); [done|].
      destruct Hdst as [-> | [-> | ->]] in Ed |- *; done.
  - change (is_slot (Emptying d) Filling) with false in Hobs. injection Hobs as <- <-.
    split; [|done]. apply bag_one, bag_deliver.
    rewrite (Hheld _ (bsm12_helper_emptying m b d y z Hb Ho Hs)).
    pose proof (packets_sent d y z cont.[b] cont.[next1 (sm m) b] cont.[next2 (sm m) b]) as E.
    destruct (next_slots None (Emptying d) y z) as [[x' y'] z']. rewrite E.
    rewrite (held_sees m cont b _ _ _ (inv_sm _ Hb) Ho Hs).
    by destruct (sees_x _ _ _ _ _ Hs) as (_ & _ & -> & _).
Qed.

Lemma run_done_sim status l m cont ops c :
  inv m -> inspects_ok -> length cont = 8%nat -> NoDup (fst <$> l) ->
  Forall (fun bp => owns (sm m) (fst bp) /\
            (ctrue (status .& BPS_DONE (fst bp)) = true -> active_at m (fst bp) = true)) l ->
  run_done status l (m, cont) = (ops, c) ->
  lsteps bag_step (held (m, cont)) ops (held c) /\ length (snd c) = 8%nat /\
  inv (fst c) /\ same_config (sm m) (sm (fst c)).
Proof using Hdev0.
  intros Hv Hi. revert m cont ops c Hv.
  induction l as [|[b p] l IH]; intros m cont ops c Hv Hl Hnd Hall Hrun; cbn [run_done] in Hrun.
  { injection Hrun as <- <-. split_and!; auto using same_config_refl. constructor. }
  apply NoDup_cons in Hnd as [Hb Hnd]. apply Forall_cons in Hall as [[Ho Ha] Hall]. cbn [fst] in *.
  destruct (ctrue (status .& BPS_DONE b)); [|by apply (IH m cont)].
  destruct (done_obs b p (m, cont)) as [o cont1] eqn:Eo.
  destruct (run_done status l (bsm12_process_helper b m, cont1)) as [os c'] eqn:Er.
  injection Hrun as <- <-.
  destruct (bsm12_done_step m cont b p o cont1 Hv Ho (Ha eq_refl) Hi Hl Eo) as [Hs Hl1].
  destruct (bsm12_helper_inv m b Hv Ho (Ha eq_refl) Hi) as (Hv1 & C1 & Hact).
  destruct (IH _ cont1 os c' Hv1 Hl1 Hnd) as (Hs2 & Hl2 & Hv2 & C2); [|done|].
  - apply Forall_forall. intros [b' p'] Hin.
    apply (proj1 (Forall_forall _ _) Hall) in Hin as Hb'. cbn [fst] in *. destruct Hb' as [Ho' Ha'].
    split; [by apply (bsm12_same_config_owns _ _ _ C1)|]. intros Hd. apply Hact; auto.
    intros ->. apply Hb. by apply (list_elem_of_fmap_2 fst _ (b, p')) in Hin.
  - split_and!; auto; [by eapply lsteps_app|by eapply same_config_trans].
Qed.

(** Register writes only. *)
Definition set_trace (tr : io_trace) (m : mach) : mach :=
  {| sm := sm m; buffer_state := buffer_state m; last_send_ctrl := last_send_ctrl m;
     buffer_target := buffer_target m; buffer_dst := buffer_dst m;
     status_last_line := status_last_line m; trace := tr; app := app m |}.

Definition same_view (m m' : mach) : Prop := exists tr, m' = set_trace tr m.

Lemma same_view_refl m : same_view m m.
Proof. exists (trace m). by destruct m. Qed.

Lemma same_view_trans m1 m2 m3 : same_view m1 m2 -> same_view m2 m3 -> same_view m1 m3.
Proof. intros [t1 ->] [t2 ->]. by exists t2. Qed.

Lemma bsm12_error_inv m b c :
  inv m -> owns (sm m) b -> (c = true -> active_at m b = true) ->
  inv (when c (bsm12_error_helper b) m) /\ same_view m (when c (bsm12_error_helper b) m).
Proof using Hdev0.
  intros Hv Ho Ha. destruct c; cbn [when]; [|by auto using same_view_refl].
  destruct (inv_sees m b Hv Ho) as (x & y & z & Hs). destruct Hv as [Hb _]. specialize (Ha eq_refl).
  rewrite (cell_active _ _ _ (sees_x _ _ _ _ _ Hs)) in Ha.
  destruct (error_outcome m b x y z Hb Ho Hs Ha) as [[B C L S] _]. split.
  - eapply sees_inv; [exact B| |exact S]. by apply (bsm12_same_config_owns _ _ _ C).
  - unfold bsm12_error_helper. cbv zeta. case_if; by eexists.
Qed.

Lemma bsm12_errors_inv m status :
  inv m -> status_ok m status -> inv (run_errors status m) /\ same_view m (run_errors status m).
Proof using Hdev0.
  intros Hv Hst. unfold run_errors. cbv zeta. unfold when at 1 5.
  destruct (ctrue (status .& bps_error (sm m))); [|by auto using same_view_refl].
  destruct (bsm12_error_inv m (buf0 (sm m)) (ctrue (status .& BPS_ERROR (buf0 (sm m)))) Hv) as [Hv1 V1];
    [by left|by apply Hst; left|].
  destruct (bsm12_error_inv _ (buf0 (sm m) + 1) (ctrue (status .& BPS_ERROR (buf0 (sm m) + 1))) Hv1)
    as [Hv2 V2].
  { destruct V1 as [tr ->]. right. by left. }
  { destruct V1 as [tr ->]. apply Hst. right. by left. }
  pose proof (same_view_trans _ _ _ V1 V2) as V.
  destruct (bsm12_error_inv _ (buf0 (sm m) + 2) (ctrue (status .& BPS_ERROR (buf0 (sm m) + 2))) Hv2)
    as [Hv3 V3].
  { destruct V as [tr ->]. right. by right. }
  { destruct V as [tr ->]. apply Hst. right. by right. }
  split; [done|]. by eapply same_view_trans.
Qed.

Lemma latch_inv m lines : inv m -> lines_ok m lines -> inv (latch lines m).
Proof.
  intros (Hb & x & y & z & Hs) Hl. apply (sees_inv _ (buf0 (sm m)) x y z).
  - by destruct Hb; split.
  - by left.
  - assert (forall b x, owns (sm m) b -> cell m b x -> cell (latch lines m) b x) as Hc.
    { intros b x' Ho Hx. destruct x' as [| |d|d]; try done.
      destruct (Hl b Ho) as [Hf|He]; [by destruct Hx as [Hx _]; congruence|].
      unfold cell, send_transfer, sent_word. cbn [latch status_last_line sm]. rewrite He. exact Hx. }
    assert (owns (sm m) (buf0 (sm m))) as Ho by by left.
    destruct (owns_ring _ _ (inv_sm _ Hb) Ho) as [_ O1 O2 _ _ _ _ _ _ _].
    destruct Hs as [Hx Hy Hz Hrx Htx Hok]. split; auto.
Qed.

Definition refines (c : config) (q : list (Z * P)) : Prop :=
  inv (fst c) /\ length (snd c) = 8%nat /\ q = held c.

Lemma bsm12_dstep_refines c ops c' q :
  inspects_ok -> refines c q -> dstep c ops c' ->
  exists q', lsteps bag_step q ops q' /\ refines c' q'.
Proof using Hdev0.
  intros Hi (Hv & Hl & ->) Hstep. exists (held c').
  destruct Hstep as [m cont status ps ops c Hst Hps Hobs|m cont lines Hln|m cont|m cont];
    cbn [fst snd] in *.
  - unfold observe_status in Hobs. cbn [fst snd] in Hobs. case_if.
    { injection Hobs as <- <-. split; [constructor|done]. }
    destruct (bsm12_errors_inv m status Hv Hst) as [Hv1 V]. destruct V as [tr E]. rewrite E in *.
    apply run_done_sim in Hobs; auto.
    + destruct Hobs as (Hs & Hl' & Hv' & _). split; [exact Hs|]. done.
    + rewrite fst_zip by (cbn; lia). unfold buffers.
      repeat (apply NoDup_cons; split; [rewrite ?elem_of_cons, elem_of_nil; lia|]). apply NoDup_nil_2.
    + apply Forall_forall. intros [b p] Hin. apply elem_of_zip_l in Hin. cbn [fst].
      assert (owns (sm m) b) as Ho.
      { unfold buffers in Hin. rewrite !elem_of_cons, elem_of_nil in Hin. unfold owns. intuition. }
      split; [done|]. by apply Hst.
  - split; [constructor|]. split; [by apply latch_inv|done].
  - split; [constructor|done].
  - split; [constructor|done].
Qed.

Lemma held_length m cont : (length (held (m, cont)) <= 3)%nat.
Proof.
  clear dev0 Hdev0. unfold held, buffers. cbn [fst snd flat_map]. rewrite app_nil_r, !length_app.
  assert (forall b, (length (holding m cont b) <= 1)%nat) as Hh.
  { intros b. unfold holding. destruct (state_of m b); cbn; lia. }
  pose proof (Hh (buf0 (sm m))). pose proof (Hh (buf0 (sm m) + 1)).
  pose proof (Hh (buf0 (sm m) + 2)). lia.
Qed.

(** ** Starting *)

Definition allocated (m : mach) : Prop :=
  length (tx_state (sm m)) = 2%nat /\ length (buffer_state m) = 8%nat /\
  length (last_send_ctrl m) = 8%nat /\ length (buffer_target m) = 8%nat /\
  length (buffer_dst m) = 8%nat.

Lemma next_buf0 s : sm_ok s -> next1 s (buf0 s) = buf0 s + 1 /\ next2 s (buf0 s) = buf0 s + 2.
Proof.
  intros Hs. unfold next2, next1. rewrite (ok_next _ Hs). by destruct (ok_buf0 _ Hs) as [-> | ->].
Qed.

Lemma start_config m : same_config (set_running true (sm m)) (sm (bsm12_start m)).
Proof. by repeat split. Qed.

Lemma start_base m : sm_ok (sm m) -> allocated m -> base (bsm12_start m).
Proof.
  intros Hs (L1 & L2 & L3 & L4 & L5).
  assert (sm_ok (set_running true (sm m))) as Hs1 by (destruct Hs; by split).
  pose proof (bsm12_same_config_ok _ _ (start_config m) Hs1).
  split; try done; cbn -[aset]; rewrite ?length_aset; auto.
Qed.

Lemma start_device m :
  sm_ok (sm m) -> let b0 := buf0 (sm m) in
  devof (bsm12_start m) = (devof m).[b0 <- Idle].[b0 + 1 <- Idle].[b0 + 2 <- Idle]
    .[b0 <- receive_transfer (sm m)].
Proof.
  intros Hs. cbv zeta. set (b0 := buf0 (sm m)).
  assert (0 <= b0 <= 4) as Hb by (unfold b0; destruct (ok_buf0 _ Hs); lia).
  set (mp := upd_sm (fun s => set_tx 1 ST_IDLE (set_tx 0 ST_IDLE (set_rx 0 s)))
    (io (bp_clear_buf (b0 + 2)) (io (bp_clear_buf (b0 + 1)) (io (bp_clear_buf b0)
      (upd_sm (set_running true) m))))).
  assert (sm_ok (set_running true (sm m))) as Hs1 by (destruct Hs; by split).
  assert (same_config (set_running true (sm m)) (sm mp)) as Cp by (by repeat split).
  change (devof (bsm12_start m)) with (devof (bsm12_receive_to_buf b0 mp)).
  rewrite bsm12_devof_receive; [|by apply (bsm12_same_config_ok _ _ Cp)|by left].
  change (devof mp) with (devof (io (bp_clear_buf (b0 + 2)) (io (bp_clear_buf (b0 + 1))
    (io (bp_clear_buf b0) m)))). by rewrite !bsm12_devof_clear by lia.
Qed.

Lemma start_sees m :
  sm_ok (sm m) -> allocated m -> sees (bsm12_start m) (buf0 (sm m)) Filling Empty Empty.
Proof using Hdev0.
  intros Hs (L1 & L2 & L3 & L4 & L5). destruct (next_buf0 _ Hs) as [E1 E2].
  assert (0 <= buf0 (sm m) <= 4) as Hb by (destruct (ok_buf0 _ Hs); lia).
  destruct (same_config_next _ _ (buf0 (sm m)) (start_config m)) as [N1 N2].
  change (next1 (set_running true (sm m))) with (next1 (sm m)) in N1.
  change (next2 (set_running true (sm m))) with (next2 (sm m)) in N2.
  rewrite E1 in N1. rewrite E2 in N2.
  split; rewrite ?N1, ?N2; unfold cell; rewrite ?(start_device m Hs).
  1-3: cbn [buffer_state buffer_target bsm12_start]; unfold state_of; cbn -[aset aget];
    repeat first [ rewrite aget_aset_eq by (rewrite ?length_aset, ?bsm12_length_devof; lia)
                 | rewrite aget_aset_ne by lia ]; done.
  - unfold place. cbn. by destruct (ok_buf0 _ Hs) as [-> | ->].
  - intros []; unfold place; cbn -[aset aget];
      repeat first [ rewrite aget_aset_eq by (rewrite ?length_aset; lia)
                   | rewrite aget_aset_ne by lia ]; done.
  - done.
Qed.

Lemma bsm12_start_inv m :
  sm_ok (sm m) -> allocated m ->
  inv (bsm12_start m) /\ forall cont, held (bsm12_start m, cont) = [].
Proof using Hdev0.
  intros Hs Ha. pose proof (start_base m Hs Ha) as B. pose proof (start_sees m Hs Ha) as S.
  assert (owns (sm (bsm12_start m)) (buf0 (sm m))) as Ho by by left. split.
  - by eapply sees_inv.
  - intros cont. pose proof (held_sees _ cont _ _ _ _ (inv_sm _ B) Ho S) as Hh.
    by apply Permutation_nil_r in Hh.
Qed.

Lemma bsm12_run_refines m cont ls c :
  inspects_ok -> sm_ok (sm m) -> allocated m -> length cont = 8%nat ->
  lsteps dstep (bsm12_start m, cont) ls c ->
  lsteps bag_step [] (mjoin ls) (held c) /\ inv (fst c).
Proof using Hdev0.
  intros Hi Hs Ha Hl Hrun. destruct (bsm12_start_inv m Hs Ha) as [Hv H0].
  assert (refines (bsm12_start m, cont) []) as HR by (split; [done|]; split; [done|]; by rewrite H0).
  destruct (forward_simulation dstep bag_step id refines
              (fun c l c' a HR Hs => bsm12_dstep_refines c l c' a Hi HR Hs) _ _ _ _ HR Hrun)
    as (q & Hq & Hv' & _ & ->).
  rewrite list_fmap_id in Hq. done.
Qed.

(** ** What the invariant says *)

Lemma owned_index s b b' :
  sm_ok s -> owns s b -> owns s b' -> (b .& 0x3) = (b' .& 0x3) -> b = b'.
Proof.
  unfold owns. intros Hs Hb Hb' E.
  destruct (ok_buf0 _ Hs) as [E0|E0]; rewrite E0 in *;
    destruct Hb as [-> | [-> | ->]], Hb' as [-> | [-> | ->]]; done.
Qed.

(** The transfer the software expects of a buffer. *)
Definition view (m : mach) (b : Z) : transfer :=
  match state_of m b with
  | BS_FILLING => receive_transfer (sm m)
  | BS_EMPTYING => send_transfer m b ((buffer_dst m).[b] =? 1)
  | BS_EMPTY | BS_FULL => Idle
  end.

Lemma place_at s p b x y z :
  sm_ok s -> owns s b ->
  place p b (next1 s b) (next2 s b) x y z = (b .& 0x3)
  <-> x = p.
Proof.
  intros Hs Hb. pose proof (owns_ring _ _ Hs Hb) as [_ O1 O2 _ _ _ N1 N2 _ _].
  pose proof (land_range b 0x3). split.
  - unfold place, ST_IDLE. destruct (is_slot x p) eqn:E.
    + intros _. by apply bool_decide_eq_true in E.
    + destruct (is_slot y p); [intros E1; by apply (owned_index s) in E1|].
      destruct (is_slot z p); [intros E1; by apply (owned_index s) in E1|]. lia.
  - intros ->. unfold place, is_slot. by rewrite bool_decide_true.
Qed.

Lemma dz_bool d : (dz d =? 1) = d.
Proof. by destruct d. Qed.

Lemma inv_facts m b :
  inv m -> owns (sm m) b ->
  (devof m).[b] = view m b /\
  ((state_of m b = BS_FILLING) <-> (rx_state (sm m) = b .& 0x3)) /\
  (forall d, 0 <= d <= 1 -> (state_of m b = BS_EMPTYING /\ (buffer_dst m).[b] = d)
             <-> ((tx_state (sm m)).[d] = b .& 0x3)) /\
  (state_of m b = BS_FULL ->
     exists b', owns (sm m) b' /\ state_of m b' = BS_EMPTYING /\
                (buffer_dst m).[b'] = (buffer_target m).[b]).
Proof.
  intros Hv Ho. destruct (inv_sees m b Hv Ho) as (x & y & z & [Hx Hy Hz Hrx Htx Hok]).
  destruct Hv as [Hb _]. pose proof (place_at _ Filling b x y z (inv_sm _ Hb) Ho) as Hpf.
  destruct (owns_ring _ _ (inv_sm _ Hb) Ho) as [_ O1 O2 _ _ _ _ _ _ _]. split_and!.
  - unfold view. destruct x as [| |d|d]; cbn [cell] in Hx.
    + by destruct Hx as (-> & _ & ->).
    + by destruct Hx as (-> & _ & ->).
    + by destruct Hx as (-> & _ & ->).
    + destruct Hx as (-> & _ & -> & -> & _). by rewrite dz_bool.
  - rewrite Hrx, Hpf. destruct x; cbn [cell] in Hx; intuition congruence.
  - intros d Hd. replace d with (dz (d =? 1)) by (unfold dz; case_if; lia).
    rewrite Htx, (place_at _ _ _ _ _ _ (inv_sm _ Hb) Ho).
    generalize (d =? 1). intros e. destruct x as [| |e'|e']; cbn [cell] in Hx;
      try (destruct Hx as (Hx & _); split; [intros [? _]|]; congruence).
    destruct Hx as (-> & _ & -> & _). split; [intros [_ E]|by intros [= ->]].
    by destruct e, e'.
  - intros Hf. destruct x as [| |d|d]; cbn [cell] in Hx; try (destruct Hx as [Hx _]; congruence).
    destruct Hx as (_ & -> & _).
    assert (y = Emptying d \/ z = Emptying d) as [-> | ->].
    { clear -Hok. destruct d, y as [| |[]|[]], z as [| |[]|[]]; try discriminate; auto. }
    + destruct Hy as (? & _ & ? & _). eauto.
    + destruct Hz as (? & _ & ? & _). eauto.
Qed.

Lemma inv_active m : inv m -> exists b, owns (sm m) b /\ active_at m b = true.
Proof.
  intros (Hb & x & y & z & [Hx Hy Hz _ _ Hok]).
  assert (owns (sm m) (buf0 (sm m))) as Ho by by left.
  destruct (owns_ring _ _ (inv_sm _ Hb) Ho) as [_ O1 O2 _ _ _ _ _ _ _].
  assert (active x = true \/ active y = true \/ active z = true) as [E|[E|E]].
  { clear -Hok. destruct x as [| |[]|[]], y as [| |[]|[]]; auto;
      destruct z as [| |[]|[]]; auto; discriminate. }
  - rewrite <- (cell_active _ _ _ Hx) in E. eauto.
  - rewrite <- (cell_active _ _ _ Hy) in E. eauto.
  - rewrite <- (cell_active _ _ _ Hz) in E. eauto.
Qed.
End Bsm12.

(** ** Theorems *)

Section Theorems.
Context {W P : Type} `{Default P} (inspect : W -> bsm12_t -> Z -> Z * W).
Implicit Types (m : @mach W) (c : @config W P).

(** [bsm12_init] aborts unless the first buffer is a multiple of four;
    otherwise it leaves the command words of the three buffers for both
    destinations, the ring of buffers, all buffers empty and the machine
    stopped, so that status words are ignored until [bsm12_start]. *)
Theorem bsm12_init_spec b recv send0 send1 m :
  0 <= b <= NBUFFERS - 3 -> args_ok recv -> args_ok send0 -> args_ok send1 -> allocated m ->
  (bsm12_init b recv send0 send1 m = None <-> b mod 4 <> 0) /\
  forall m', bsm12_init b recv send0 send1 m = Some m' ->
    sm_ok (sm m') /\ allocated m' /\ trace m' = trace m /\
    (forall b', owns (sm m') b' -> state_of m' b' = BS_EMPTY) /\
    (forall status, bsm12_process_status inspect status m' = m').
Proof.
  unfold NBUFFERS. intros Hb Hr Hs0 Hs1 (L1 & L2 & L3 & L4 & L5). unfold bsm12_init.
  replace (b .& 0x3) with (b mod 4) by (symmetry; apply (land_mask b 2); lia).
  destruct (ctrue (b mod 4)) eqn:Hodd.
  { apply ctrue_spec in Hodd. done. }
  apply ctrue_false in Hodd. split; [done|]. intros m' [= <-].
  assert (b = 0 \/ b = 4) as Hb4 by divlia. split_and!.
  - split; auto; try done. by intros [].
  - split_and!; cbn -[aset]; rewrite ?length_aset; auto.
  - done.
  - intros b' Hb'. unfold owns in Hb'. cbn [sm set_target set_state upd_sm buf0] in Hb'.
    unfold state_of. cbn -[aset aget].
    destruct Hb' as [-> | [-> | ->]];
      repeat first [ rewrite aget_aset_eq by (rewrite ?length_aset; lia)
                   | rewrite aget_aset_ne by lia ]; done.
  - intros status. unfold bsm12_process_status. cbn [sm set_target set_state upd_sm running].
    by rewrite orb_true_r.
Qed.

(** Bookkeeping of the three buffers: after every run from
    [bsm12_start], the buffer pool executes on each buffer the transfer the
    software state says; [rx_state] and [tx_state] name exactly the buffer
    being received into and the buffers being sent to each destination (so no
    port ever has two transfers); a packet waits only for a destination a
    transfer is in progress to; and some transfer is always in progress. *)
Theorem bsm12_agrees_with_hardware dev0 m cont ls c :
  length dev0 = 8%nat -> inspects_ok inspect -> sm_ok (sm m) -> allocated m ->
  length cont = 8%nat -> lsteps (dstep inspect) (bsm12_start m, cont) ls c ->
  let m' := fst c in
  (forall b, owns (sm m') b ->
     (devof dev0 m').[b] = view m' b /\
     (state_of m' b = BS_FILLING <-> (rx_state (sm m') = b .& 0x3)) /\
     (forall d, 0 <= d <= 1 -> (state_of m' b = BS_EMPTYING /\ (buffer_dst m').[b] = d)
                <-> ((tx_state (sm m')).[d] = b .& 0x3)) /\
     (state_of m' b = BS_FULL -> exists b', owns (sm m') b' /\ state_of m' b' = BS_EMPTYING /\
        (buffer_dst m').[b'] = (buffer_target m').[b])) /\
  exists b, owns (sm m') b /\ active_at m' b = true.
Proof.
  intros Hd Hi Hs Ha Hl Hrun. cbv zeta.
  destruct (bsm12_run_refines inspect dev0 Hd m cont ls c Hi Hs Ha Hl Hrun) as [_ Hv].
  split; [|exact (inv_active dev0 _ Hv)]. intros b Hb. exact (inv_facts dev0 Hd _ b Hv Hb).
Qed.

(** C26.  Every packet reaches its destination exactly once.  On every run from
    [bsm12_start], for every status word that reports transfers in progress
    (completions and errors in any combination), the packets accepted for a
    destination are, as a multiset of packets with destinations, those
    delivered to it together with the at most three still held: none is lost,
    duplicated or sent to the other destination. *)
Theorem bsm12_delivers m cont ls c :
  inspects_ok inspect -> sm_ok (sm m) -> allocated m -> length cont = 8%nat ->
  lsteps (dstep inspect) (bsm12_start m, cont) ls c ->
  accepted (mjoin ls) ≡ₚ delivered (mjoin ls) ++ held c /\ (length (held c) <= 3)%nat.
Proof.
  intros Hi Hs Ha Hl Hrun.
  destruct (bsm12_run_refines inspect (replicate 8 Idle) eq_refl m cont ls c Hi Hs Ha Hl Hrun) as [Hq _].
  split; [exact (bag_conservation _ _ _ Hq)|]. destruct c. exact (held_length _ _).
Qed.
End Theorems.

(** ** A concrete machine *)

Definition sample_recv : buf_cmd_args_t :=
  {| port := PORT_ETH; first_line := 0; last_line := 500 |}.
Definition sample_send (p : Z) : buf_cmd_args_t :=
  {| port := p; first_line := 4; last_line := 0 |}.

(** The application decides by a list of destinations, one per packet. *)
Definition scripted (a : list Z) (s : bsm12_t) (b : Z) : Z * list Z :=
  match a with [] => (-1, []) | d :: a => (if (d =? 0) || (d =? 1) then d else -1, a) end.

Lemma scripted_ok : inspects_ok scripted.
Proof.
  intros [|d a] s b; cbn; [auto|]. destruct (Z.eqb_spec d 0) as [->|]; [auto|].
  destruct (Z.eqb_spec d 1) as [->|]; auto.
Qed.

Definition sample_blank (script : list Z) : @mach (list Z) :=
  {| sm := {| buf0 := 0; running := false; rx_state := 0; tx_state := [0; 0];
              recv_args := sample_recv; send_args := []; last_line_adj := 0; bps_error := 0;
              bps_done := 0; bps_error_or_done := 0; next_buf := [];
              precomputed_receive_to_buf_ctrl_word := [];
              precomputed_send_from_buf_ctrl_word := [] |};
     buffer_state := replicate 8 BS_EMPTY; last_send_ctrl := replicate 8 0;
     buffer_target := replicate 8 0; buffer_dst := replicate 8 0;
     status_last_line := replicate 8 100; trace := []; app := script |}.

Definition sample (script : list Z) : @mach (list Z) :=
  default (sample_blank script)
    (bsm12_init 4 sample_recv (sample_send PORT_SERDES) (sample_send PORT_DSP)
       (sample_blank script)).

Lemma args_ok_recv : args_ok sample_recv.
Proof. repeat split; unfold sample_recv, PORT_ETH; cbn; lia. Qed.
Lemma args_ok_send p : 0 <= p < 8 -> args_ok (sample_send p).
Proof. intros. repeat split; cbn; lia. Qed.

Lemma sample_ok script : sm_ok (sm (sample script)) /\ allocated (sample script).
Proof.
  split; [|done]. split; try reflexivity; try (by right); try apply args_ok_recv.
  intros []; apply args_ok_send; unfold PORT_SERDES, PORT_DSP; lia.
Qed.

(** Run status words, one call each, from a started machine. *)
Fixpoint run_statuses (words : list (Z * list Z)) (c : @config (list Z) Z)
    : list (list (@op Z)) * @config (list Z) Z :=
  match words with
  | [] => ([], c)
  | (w, ps) :: words =>
      let '(o, c) := observe_status scripted w ps c in
      let '(os, c) := run_statuses words c in (o :: os, c)
  end.

(** The side conditions of the calls, as a test. *)
Fixpoint statuses_ok (words : list (Z * list Z)) (c : @config (list Z) Z) : bool :=
  match words with
  | [] => true
  | (w, ps) :: words =>
      forallb (fun b => active_at (fst c) b ||
        negb (ctrue (w .& BPS_DONE b)) && negb (ctrue (w .& BPS_ERROR b))) (buffers (fst c)) &&
      (length ps =? 3)%nat && statuses_ok words (snd (observe_status scripted w ps c))
  end.

Lemma run_statuses_steps words c :
  statuses_ok words c = true ->
  lsteps (dstep scripted) c (fst (run_statuses words c)) (snd (run_statuses words c)).
Proof.
  revert c. induction words as [|[w ps] words IH]; intros c Hok; [constructor|].
  cbn [statuses_ok] in Hok. apply andb_true_iff in Hok as [Hok Hw].
  apply andb_true_iff in Hok as [Hb Hps]. apply Nat.eqb_eq in Hps. cbn [run_statuses].
  destruct (observe_status scripted w ps c) as [o c1] eqn:E. cbn [snd] in Hw.
  specialize (IH c1 Hw). destruct (run_statuses words c1) as [os c2]. cbn [fst snd] in *.
  eapply lsteps_cons; [|exact IH]. destruct c as [m cont]. refine (dstep_status _ _ _ w ps _ _ _ Hps E).
  intros b Ho. rewrite forallb_forall in Hb.
  assert (active_at m b || negb (ctrue (w .& BPS_DONE b)) && negb (ctrue (w .& BPS_ERROR b)) = true)
    as Hab.
  { apply Hb. unfold buffers, owns in *. cbn. intuition. }
  destruct (active_at m b); [auto|]. cbn in Hab. apply andb_true_iff in Hab as [H1 H2].
  apply negb_true_iff in H1, H2. rewrite H1, H2. auto.
Qed.

Definition sample_start (script : list Z) : @config (list Z) Z :=
  (bsm12_start (sample script), replicate 8 0).

(** Packet 7 goes to destination 1, then packet 8 to destination 0 while a
    transfer to destination 1 fails and is started again. *)
Definition sample_words : list (Z * list Z) :=
  [(BPS_DONE 4, [7; 0; 0]); (BPS_DONE 5 .| BPS_ERROR 4, [0; 8; 0]); (BPS_DONE 4, [0; 0; 0])].

Lemma bsm12_init_spec_witness :
  bsm12_init 3 sample_recv sample_recv sample_recv (sample_blank []) = None /\
  sm_ok (sm (sample [])).
Proof.
  split.
  - apply (bsm12_init_spec scripted 3 sample_recv sample_recv sample_recv (sample_blank []));
      [unfold NBUFFERS; lia|apply args_ok_recv..|repeat split|done].
  - apply (bsm12_init_spec scripted 4 sample_recv (sample_send PORT_SERDES) (sample_send PORT_DSP)
             (sample_blank []));
      [unfold NBUFFERS; lia|apply args_ok_recv|apply args_ok_send; unfold PORT_SERDES; lia
      |apply args_ok_send; unfold PORT_DSP; lia|repeat split|reflexivity].
Defined.

Lemma bsm12_agrees_with_hardware_witness :
  (devof (replicate 8 Idle) (fst (snd (run_statuses sample_words (sample_start [1; 0]))))).[5]
  = Sending PORT_SERDES 1 4 97.
Proof.
  destruct (sample_ok [1; 0]) as [Hs Ha].
  refine (proj1 (proj1 (bsm12_agrees_with_hardware scripted (replicate 8 Idle) (sample [1; 0])
    (replicate 8 0) _ (snd (run_statuses sample_words (sample_start [1; 0])))
    eq_refl scripted_ok Hs Ha eq_refl (run_statuses_steps sample_words _ _)) 5 _)).
  - vm_compute; reflexivity.
  - right. left. vm_compute; reflexivity.
Defined.

Lemma bsm12_delivers_witness :
  [(1, 7); (0, 8)] ≡ₚ [(1, 7)] ++ [(0, 8)].
Proof.
  destruct (sample_ok [1; 0]) as [Hs Ha].
  refine (proj1 (bsm12_delivers scripted (sample [1; 0])
    (replicate 8 0) _ (snd (run_statuses sample_words (sample_start [1; 0])))
    scripted_ok Hs Ha eq_refl (run_statuses_steps sample_words _ _))).
  vm_compute; reflexivity.
Defined.

(** The machine is not a queue per destination.  On a run from
    [bsm12_start] in which every status word reports completions of transfers
    in progress only, four packets 1, 2, 3, 4 arrive for destinations 0, 1, 0,
    0; they are delivered to destination 0 in the order 1, 4, 3.  (The search
    for a waiting packet starts at the buffer after the one just sent, not at
    the oldest packet.) *)
Theorem bsm12_reorders :
  exists ls c, lsteps (dstep scripted) (sample_start [0; 1; 0; 0]) ls c /\
    accepted (mjoin ls) = [(0, 1); (1, 2); (0, 3); (0, 4)] /\
    delivered (mjoin ls) = [(1, 2); (0, 1); (0, 4); (0, 3)] /\ held c = [].
Proof.
  set (words := [(BPS_DONE 4, [1; 0; 0]); (BPS_DONE 5, [0; 2; 0]); (BPS_DONE 6, [0; 0; 3]);
    (BPS_DONE 5, [0; 0; 0]); (BPS_DONE 5, [0; 4; 0]); (BPS_DONE 4, [0; 0; 0]);
    (BPS_DONE 5, [0; 0; 0]); (BPS_DONE 6, [0; 0; 0])]).
  exists (fst (run_statuses words (sample_start [0; 1; 0; 0]))),
         (snd (run_statuses words (sample_start [0; 1; 0; 0]))).
  split; [apply run_statuses_steps; vm_compute; reflexivity|]. split_and!; vm_compute; reflexivity.
Qed.
