(* ===== verification/GsmArith.v ===== *)
(** * GSM 06.10 fixed point arithmetic: [gsm/add.c], [gsm/private.h]

    [word] is a 16-bit signed integer, [longword] a 32-bit one (the comment of
    the typedef); the functions of [add.c], the macros of [private.h] that the
    codec uses in their place, and what they compute. *)

From S2P Require Import Prelude.

Definition MIN_WORD : Z := -32767 - 1.
Definition MAX_WORD : Z := 32767.
Definition MIN_LONGWORD : Z := -2147483647 - 1.
Definition MAX_LONGWORD : Z := 2147483647.

(** [assert]: the program stops when the condition is false. *)
Definition assert_ (b : bool) : option unit := if b then Some tt else None.

(** ** [add.c] *)

Definition saturate (x : Z) : Z :=
  if x <? MIN_WORD then MIN_WORD else if MAX_WORD <? x then MAX_WORD else x.

Definition gsm_add (a b : Z) : Z := saturate (a + b).
Definition gsm_sub (a b : Z) : Z := saturate (a - b).

Definition gsm_mult (a b : Z) : Z :=
  if (a =? MIN_WORD) && (b =? MIN_WORD) then MAX_WORD else s16 ((a * b) >> 15).

Definition gsm_mult_r (a b : Z) : Z :=
  if (b =? MIN_WORD) && (a =? MIN_WORD) then MAX_WORD
  else
    let prod := a * b + 16384 in
    let prod := prod >> 15 in
    s16 (prod .& 0xFFFF).

Definition gsm_abs (a : Z) : Z :=
  if a <? 0 then if a =? MIN_WORD then MAX_WORD else - a else a.

Definition gsm_L_mult (a b : Z) : option Z :=
  assert_ (negb (a =? MIN_WORD) || negb (b =? MIN_WORD)) ;; Some (s32 ((a * b) << 1)).

Definition gsm_L_add (a b : Z) : Z :=
  if a <? 0 then
    if 0 <=? b then a + b
    else
      let A := u32 (u32 (- (a + 1)) + u32 (- (b + 1))) in
      if MAX_LONGWORD <=? A then MIN_LONGWORD else s32 (- A - 2)
  else if b <=? 0 then a + b
  else
    let A := u32 (u32 a + u32 b) in
    if MAX_LONGWORD <? A then MAX_LONGWORD else s32 A.

Definition gsm_L_sub (a b : Z) : Z :=
  if 0 <=? a then
    if 0 <=? b then a - b
    else
      let A := u32 (u32 a + u32 (- (b + 1))) in
      if MAX_LONGWORD <=? A then MAX_LONGWORD else s32 (A + 1)
  else if b <=? 0 then a - b
  else
    let A := u32 (u32 (- (a + 1)) + u32 b) in
    if MAX_LONGWORD <=? A then MIN_LONGWORD else s32 (- A - 1).

Definition bitoff : list Z :=
  [8; 7; 6; 6; 5; 5; 5; 5; 4; 4; 4; 4; 4; 4; 4; 4] ++
  replicate 16 3 ++ replicate 32 2 ++ replicate 64 1 ++ replicate 128 0.

Definition gsm_norm (a : Z) : option Z :=
  assert_ (negb (a =? 0)) ;;
  if (a <? 0) && (a <=? -1073741824) then Some 0
  else
    let a := if a <? 0 then Z.lnot a else a in
    Some (if ctrue (a .& 0xffff0000) then
            if ctrue (a .& 0xff000000) then -1 + bitoff.[0xFF .& (a >> 24)]
            else 7 + bitoff.[0xFF .& (a >> 16)]
          else
            if ctrue (a .& 0xff00) then 15 + bitoff.[0xFF .& (a >> 8)]
            else 23 + bitoff.[0xFF .& a]).

(** [-(a < 0)]. *)
Definition sign_fill (a : Z) : Z := if a <? 0 then -1 else 0.

Definition gsm_L_asr (a n : Z) : Z :=
  if 32 <=? n then sign_fill a
  else if n <=? -32 then 0
  else if n <? 0 then s32 (a << - n)
  else a >> n.

Definition gsm_L_asl (a n : Z) : Z :=
  if 32 <=? n then 0
  else if n <=? -32 then sign_fill a
  else if n <? 0 then gsm_L_asr a (- n)
  else s32 (a << n).

Definition gsm_asr (a n : Z) : Z :=
  if 16 <=? n then sign_fill a
  else if n <=? -16 then 0
  else if n <? 0 then s16 (a << - n)
  else a >> n.

Definition gsm_asl (a n : Z) : Z :=
  if 16 <=? n then 0
  else if n <=? -16 then sign_fill a
  else if n <? 0 then gsm_asr a (- n)
  else s16 (a << n).

(** The [while (k--)] loop of [gsm_div]: [k] iterations are left. *)
Fixpoint gsm_div_loop (k : nat) (L_denum L_num div : Z) : Z :=
  match k with
  | O => div
  | S k =>
      let div := s16 (div << 1) in
      let L_num := s32 (L_num << 1) in
      if L_denum <=? L_num then gsm_div_loop k L_denum (L_num - L_denum) (s16 (div + 1))
      else gsm_div_loop k L_denum L_num div
  end.

Definition gsm_div (num denum : Z) : option Z :=
  assert_ ((0 <=? num) && (num <=? denum)) ;;
  if num =? 0 then Some 0 else Some (gsm_div_loop 15 denum num 0).

(** ** The macros of [private.h] *)

Definition GSM_MULT_R (a b : Z) : Z := (a * b + 16384) >> 15.
Definition GSM_MULT (a b : Z) : Z := (a * b) >> 15.

Definition GSM_L_ADD (a b : Z) : Z :=
  if a <? 0 then
    if 0 <=? b then a + b
    else
      let utmp := u32 (u32 (- (a + 1)) + u32 (- (b + 1))) in
      if MAX_LONGWORD <=? utmp then MIN_LONGWORD else s32 (- utmp - 2)
  else if b <=? 0 then a + b
  else
    let utmp := u32 (u32 a + u32 b) in
    if MAX_LONGWORD <=? utmp then MAX_LONGWORD else s32 utmp.

Definition GSM_ADD (a b : Z) : Z :=
  let ltmp := a + b in
  if MAX_WORD - MIN_WORD <? u32 (ltmp - MIN_WORD) then
    if 0 <? ltmp then MAX_WORD else MIN_WORD
  else ltmp.

Definition GSM_SUB (a b : Z) : Z :=
  let ltmp := a - b in
  if MAX_WORD <=? ltmp then MAX_WORD else if ltmp <=? MIN_WORD then MIN_WORD else ltmp.

Definition GSM_ABS (a : Z) : Z :=
  if a <? 0 then if a =? MIN_WORD then MAX_WORD else - a else a.

(** ** Loops the codec's files share *)

(** The largest absolute value. *)
Definition max_abs (xM : list Z) : Z :=
  fold_left (fun xmax v => let temp := GSM_ABS v in if xmax <? temp then temp else xmax) xM 0.

(** ** Ranges *)

Definition word (x : Z) : Prop := -32768 <= x <= 32767.
Definition longword (x : Z) : Prop := -2147483648 <= x <= 2147483647.
Definition words (l : list Z) : Prop := Forall word l.

#[export] Instance word_dec x : Decision (word x).
Proof. unfold word. apply _. Defined.

Lemma word_s16 x : word (s16 x).
Proof. apply s16_range. Qed.

Lemma s32_id x : longword x -> s32 x = x.
Proof. intros. apply (sx_id 32); unfold longword in *; lia. Qed.

Lemma s32_longword x : longword (s32 x).
Proof. pose proof (sx_range 32 ltac:(lia) x) as H. cbn in H. unfold longword. lia. Qed.

Lemma aget_word l i : words l -> word l.[i].
Proof. intros Hw. apply aget_Forall_dflt; [done|unfold word, dflt, Default_Z; lia]. Qed.

Lemma shr_word x n : 0 <= n -> word x -> word (x >> n).
Proof.
  unfold word. intros Hn Hx. rewrite shr_div by done.
  assert (0 < 2 ^ n) by (apply Z.pow_pos_nonneg; lia).
  split; [apply Z.div_le_lower_bound; nia|]. assert (x / 2 ^ n < 32768); [|lia].
  apply Z.div_lt_upper_bound; nia.
Qed.

Lemma saturate_word x : word (saturate x).
Proof. unfold saturate, MIN_WORD, MAX_WORD, word. repeat case_if; lia. Qed.

Lemma saturate_id x : word x -> saturate x = x.
Proof. unfold saturate, MIN_WORD, MAX_WORD, word. intros. repeat case_if; lia. Qed.

Lemma saturate_mono x y : x <= y -> saturate x <= saturate y.
Proof. unfold saturate, MIN_WORD, MAX_WORD. intros. repeat case_if; lia. Qed.

#[export] Hint Resolve word_s16 s32_longword saturate_word aget_word shr_word : cint.

(** Sums of two [word]s, or of anything that does not wrap [ulongword]. *)
Lemma GSM_ADD_saturates a b :
  -2147450880 <= a + b <= 2147483647 -> GSM_ADD a b = saturate (a + b).
Proof.
  intros H. unfold GSM_ADD, saturate, MAX_WORD, MIN_WORD. cbv zeta.
  generalize dependent (a + b). intros l H.
  destruct (Z_lt_ge_dec l (-32768)) as [Hlt|Hge].
  - assert (65535 < u32 (l - (-32767 - 1))) as Hu.
    { unfold ux. norm_pow. rewrite <- (Z.mod_add _ 1) by lia. rewrite Z.mod_small; lia. }
    repeat case_if; lia.
  - rewrite u32_id by lia. repeat case_if; lia.
Qed.

Lemma GSM_ADD_words a b : word a -> word b -> GSM_ADD a b = saturate (a + b).
Proof. unfold word. intros. apply GSM_ADD_saturates. lia. Qed.

Lemma GSM_ADD_word a b : word a -> word b -> word (GSM_ADD a b).
Proof. intros. rewrite GSM_ADD_words by done. apply saturate_word. Qed.

Lemma GSM_SUB_saturates a b : GSM_SUB a b = saturate (a - b).
Proof. unfold GSM_SUB, saturate, MAX_WORD, MIN_WORD. cbv zeta. repeat case_if; lia. Qed.

Lemma GSM_SUB_word a b : word (GSM_SUB a b).
Proof. rewrite GSM_SUB_saturates. apply saturate_word. Qed.

Lemma GSM_ABS_range a : word a -> 0 <= GSM_ABS a <= 32767.
Proof. unfold GSM_ABS, MIN_WORD, MAX_WORD, word. intros. repeat case_if; lia. Qed.

#[export] Hint Resolve GSM_ADD_word GSM_SUB_word : cint.

(** A rounded fractional product with one factor in the unit range. *)
Lemma GSM_MULT_R_word a b : word a -> -32767 <= b <= 32767 -> word (GSM_MULT_R a b).
Proof.
  unfold GSM_MULT_R, word. intros. rewrite shr_div by lia. norm_pow.
  assert (-32768 * 32767 <= a * b <= 32768 * 32767) by nia. divlia.
Qed.

Lemma GSM_MULT_word a b : word a -> -32767 <= b <= 32767 -> word (GSM_MULT a b).
Proof.
  unfold GSM_MULT, word. intros. rewrite shr_div by lia. norm_pow.
  assert (-32768 * 32767 <= a * b <= 32768 * 32767) by nia. divlia.
Qed.

(** ** The macros and the functions agree *)

Definition both_min (a b : Z) : bool := (a =? MIN_WORD) && (b =? MIN_WORD).

Lemma word_product a b :
  word a -> word b -> both_min a b = false -> -1073741824 < a * b + 32768 <= 1073741824.
Proof.
  unfold both_min, MIN_WORD, word. intros Ha Hb Hm.
  apply andb_false_iff in Hm as [Hm|Hm]; zbool; nia.
Qed.

Lemma s16_land_ffff x : s16 (x .& 0xFFFF) = s16 x.
Proof.
  change 0xFFFF with (Z.ones 16). rewrite land_mask by lia. unfold sx. norm_pow.
  change (16 - 1) with 15. norm_pow. f_equal.
  rewrite <- (Zplus_mod_idemp_l x). done.
Qed.

(** The macros that replace the functions of [add.c] inside the codec
    compute the same words: addition, subtraction and absolute value for all
    words, the two products except for the one pair the macro comments
    exclude, where the functions saturate. *)
Theorem gsm_macros_agree a b :
  word a -> word b ->
  GSM_ADD a b = gsm_add a b /\ GSM_SUB a b = gsm_sub a b /\ GSM_ABS a = gsm_abs a /\
  (both_min a b = false ->
     s16 (GSM_MULT a b) = gsm_mult a b /\ s16 (GSM_MULT_R a b) = gsm_mult_r a b) /\
  gsm_mult MIN_WORD MIN_WORD = MAX_WORD /\ gsm_mult_r MIN_WORD MIN_WORD = MAX_WORD.
Proof.
  intros Ha Hb. split; [by apply GSM_ADD_words|]. split; [apply GSM_SUB_saturates|].
  split; [done|]. split; [|done]. intros Hm. unfold gsm_mult, gsm_mult_r.
  rewrite (andb_comm (b =? _)). unfold both_min in Hm. rewrite Hm. split; [done|].
  symmetry. apply s16_land_ffff.
Qed.

Lemma gsm_macros_agree_witness :
  GSM_ADD 30000 5000 = gsm_add 30000 5000 /\ s16 (GSM_MULT_R (-32768) 32767) = -32767.
Proof.
  destruct (gsm_macros_agree 30000 5000) as (H & _); [unfold word; lia..|].
  split; [exact H|].
  destruct (gsm_macros_agree (-32768) 32767) as (_ & _ & _ & Hm & _); [unfold word; lia..|].
  destruct (Hm eq_refl) as [_ ->]. reflexivity.
Defined.

(** ** Saturating 32-bit arithmetic *)

(** Remove the conversions to [ulongword] that do not wrap. *)
Ltac drop_u32 :=
  repeat match goal with
  | |- context [ux 32 ?x] => rewrite (u32_id x) by lia
  | H : context [ux 32 ?x] |- _ => rewrite (u32_id x) in H by lia
  end.

Definition saturate32 (x : Z) : Z := Z.max MIN_LONGWORD (Z.min MAX_LONGWORD x).

(** The 32-bit additions and the subtraction saturate exactly: the
    unsigned detours never wrap, and the result is the true sum or difference
    clipped to the range of [longword]. *)
Theorem gsm_long_saturates a b :
  longword a -> longword b ->
  gsm_L_add a b = saturate32 (a + b) /\ GSM_L_ADD a b = saturate32 (a + b) /\
  gsm_L_sub a b = saturate32 (a - b).
Proof.
  unfold longword, gsm_L_add, GSM_L_ADD, gsm_L_sub, saturate32, MIN_LONGWORD, MAX_LONGWORD.
  intros Ha Hb. cbv zeta.
  split; [|split]; repeat case_if; try lia; drop_u32;
    rewrite ?s32_id by (unfold longword; lia); lia.
Qed.

Lemma gsm_long_saturates_witness :
  gsm_L_add 2000000000 2000000000 = 2147483647 /\ gsm_L_sub (-2000000000) 2000000000 = -2147483648.
Proof.
  destruct (gsm_long_saturates 2000000000 2000000000) as (-> & _ & _); [unfold longword; lia..|].
  destruct (gsm_long_saturates (-2000000000) 2000000000) as (_ & _ & ->); [unfold longword; lia..|].
  split; reflexivity.
Defined.

(** ** Normalization and division *)

Lemma bitoff_spec b : 1 <= b < 256 -> 0 <= bitoff.[b] <= 7 /\ 128 <= b * 2 ^ bitoff.[b] < 256.
Proof.
  intros Hb. assert (0 <= b - 1 < Z.of_nat 255) as Hr by lia.
  pose proof (all_below_spec 255 (fun k => (0 <=? bitoff.[k + 1]) && (bitoff.[k + 1] <=? 7) &&
    (128 <=? (k + 1) * 2 ^ bitoff.[k + 1]) && ((k + 1) * 2 ^ bitoff.[k + 1] <? 256))
    ltac:(vm_compute; reflexivity) (b - 1) Hr) as H.
  cbv beta in H. replace (b - 1 + 1) with b in H by lia. zbool. lia.
Qed.

(** The byte tests: the bits above position [k] of a nonnegative number. *)
Lemma high_byte_test a k m :
  0 <= k <= m -> 0 <= a < 2 ^ m ->
  ctrue (a .& (Z.ones (m - k) << k)) = (2 ^ k <=? a).
Proof.
  intros Hk Ha. assert (a .& (Z.ones (m - k) << k) = (a >> k) << k) as ->.
  { apply Z.bits_inj'. intros i Hi. rewrite Z.land_spec, !Z.shiftl_spec by lia.
    destruct (Z.lt_ge_cases i k).
    - rewrite !(Z.testbit_neg_r _ (i - k)) by lia. apply andb_false_r.
    - rewrite Z.shiftr_spec, Z.testbit_ones_nonneg by lia.
      replace (i - k + k) with i by lia.
      destruct (Z.ltb_spec (i - k) (m - k)); [apply andb_true_r|].
      rewrite (high_bits a m) by lia. done. }
  rewrite shr_div, shl_mul by lia.
  assert (0 < 2 ^ k) by (apply Z.pow_pos_nonneg; lia).
  destruct (Z.leb_spec (2 ^ k) a).
  - apply ctrue_spec. assert (1 <= a / 2 ^ k) by (apply Z.div_le_lower_bound; lia). nia.
  - rewrite Z.div_small by lia. done.
Qed.

Lemma byte_at a k : 0 <= k -> 2 ^ k <= a < 2 ^ (k + 8) -> 0xFF .& (a >> k) = a / 2 ^ k /\
  1 <= a / 2 ^ k < 256.
Proof.
  intros Hk Ha. rewrite Z.land_comm. change 0xFF with (Z.ones 8).
  rewrite land_mask, shr_div by lia. rewrite Z.pow_add_r in Ha by lia.
  assert (0 < 2 ^ k) by (apply Z.pow_pos_nonneg; lia).
  assert (1 <= a / 2 ^ k) by (apply Z.div_le_lower_bound; lia).
  change (2 ^ 8) with 256 in *.
  assert (a / 2 ^ k < 256) by (apply Z.div_lt_upper_bound; lia).
  rewrite Z.mod_small by lia. lia.
Qed.

(** Shifting by [7 - k] more than the table entry of the top byte normalizes. *)
Lemma normalize_byte a k :
  0 <= k <= 24 -> 2 ^ k <= a < 2 ^ (k + 8) -> a < 2 ^ 31 ->
  let n := 23 - k + bitoff.[0xFF .& (a >> k)] in
  0 <= n <= 30 /\ 1073741824 <= a * 2 ^ n <= 2147483647.
Proof.
  intros Hk Ha Ha31 n. destruct (byte_at a k ltac:(lia) Ha) as [Hb Hr].
  unfold n. rewrite Hb. destruct (bitoff_spec _ Hr) as [Ho Hv].
  set (o := bitoff.[a / 2 ^ k]) in *. clearbody o.
  assert (2 ^ k * (a / 2 ^ k) <= a < 2 ^ k * (a / 2 ^ k) + 2 ^ k) as Hd.
  { assert (0 < 2 ^ k) by (apply Z.pow_pos_nonneg; lia).
    pose proof (Z.div_mod a (2 ^ k) ltac:(lia)). pose proof (Z.mod_pos_bound a (2 ^ k)). lia. }
  set (q := a / 2 ^ k) in *. clearbody q.
  assert (0 <= 23 - k + o) as Hn.
  { destruct (Z.eq_dec k 24) as [->|]; [|lia]. norm_pow.
    assert (q < 128) by lia. destruct (Z.eq_dec o 0) as [->|]; [|lia].
    change (2 ^ 0) with 1 in Hv. lia. }
  assert (2 ^ k * 2 ^ (23 - k + o) = 2 ^ o * 2 ^ 23) as Hp.
  { rewrite <- !Z.pow_add_r by lia. f_equal. lia. }
  assert (0 < 2 ^ (23 - k + o)) by (apply Z.pow_pos_nonneg; lia).
  assert (0 < 2 ^ o) by (apply Z.pow_pos_nonneg; lia).
  norm_pow. split; [lia|].
  assert (2 ^ k * q * 2 ^ (23 - k + o) = q * 2 ^ o * 8388608) by nia.
  assert ((q + 1) * 2 ^ o <= 256).
  { assert (2 ^ 8 = 2 ^ (8 - o) * 2 ^ o) as E by (rewrite <- Z.pow_add_r by lia; f_equal; lia).
    change (2 ^ 8) with 256 in E.
    assert (q + 1 <= 2 ^ (8 - o)); [|nia].
    assert (q < 2 ^ (8 - o)); [|lia]. apply (Z.mul_lt_mono_pos_r (2 ^ o)); lia. }
  nia.
Qed.

Lemma gsm_norm_nonneg a :
  0 <= a <= 2147483647 ->
  let n := if ctrue (a .& 0xffff0000) then
             if ctrue (a .& 0xff000000) then -1 + bitoff.[0xFF .& (a >> 24)]
             else 7 + bitoff.[0xFF .& (a >> 16)]
           else
             if ctrue (a .& 0xff00) then 15 + bitoff.[0xFF .& (a >> 8)]
             else 23 + bitoff.[0xFF .& a] in
  (a = 0 -> n = 31) /\
  (0 < a -> 0 <= n <= 30 /\ 1073741824 <= a * 2 ^ n <= 2147483647).
Proof.
  intros Ha.
  change 0xffff0000 with (Z.ones (32 - 16) << 16). change 0xff000000 with (Z.ones (32 - 24) << 24).
  rewrite !high_byte_test by (norm_pow; lia). norm_pow.
  cbv zeta. split; [intros ->; reflexivity|]. intros Hpos.
  destruct (Z.leb_spec 65536 a).
  - destruct (Z.leb_spec 16777216 a).
    + replace (-1 + bitoff.[255 .& (a >> 24)]) with (23 - 24 + bitoff.[255 .& (a >> 24)]) by lia.
      apply normalize_byte; norm_pow; lia.
    + replace (7 + bitoff.[255 .& (a >> 16)]) with (23 - 16 + bitoff.[255 .& (a >> 16)]) by lia.
      apply normalize_byte; norm_pow; lia.
  - change 0xff00 with (Z.ones (16 - 8) << 8). rewrite high_byte_test by (norm_pow; lia).
    norm_pow. destruct (Z.leb_spec 256 a).
    + replace (15 + bitoff.[255 .& (a >> 8)]) with (23 - 8 + bitoff.[255 .& (a >> 8)]) by lia.
      apply normalize_byte; norm_pow; lia.
    + replace (23 + bitoff.[255 .& a]) with (23 - 0 + bitoff.[255 .& (a >> 0)])
        by (rewrite Z.shiftr_0_r; lia).
      apply normalize_byte; change (2 ^ 0) with 1; norm_pow; lia.
Qed.

Lemma gsm_norm_pos a :
  0 < a <= 2147483647 ->
  exists n, gsm_norm a = Some n /\ 0 <= n <= 30 /\ 1073741824 <= a * 2 ^ n <= 2147483647.
Proof.
  intros Ha. unfold gsm_norm. destruct (Z.eqb_spec a 0); [lia|].
  cbn [negb assert_ mbind option_bind]. destruct (Z.ltb_spec a 0); [lia|]. cbn [andb].
  destruct (gsm_norm_nonneg a ltac:(lia)) as [_ Hp]. eexists. split; [reflexivity|].
  apply Hp. lia.
Qed.

(** [gsm_norm] fails its assertion exactly on zero; otherwise it returns
    the number of left shifts that normalizes its argument: a positive one
    lands between [2^30] and [2^31 - 1], a negative one between [-2^31] and
    [-2^30], as the comment of the function demands. *)
Theorem gsm_norm_spec a :
  longword a ->
  (gsm_norm a = None <-> a = 0) /\
  forall n, gsm_norm a = Some n ->
    0 <= n <= 31 /\
    (0 < a -> 1073741824 <= a * 2 ^ n <= 2147483647) /\
    (a < 0 -> -2147483648 <= a * 2 ^ n <= -1073741824).
Proof.
  unfold longword. intros Ha. unfold gsm_norm. destruct (Z.eqb_spec a 0) as [->|Hne]; [done|].
  cbn [negb assert_ mbind option_bind]. destruct (Z.ltb_spec a 0) as [Hneg|Hpos]; cbn [andb].
  - destruct (Z.leb_spec a (-1073741824)).
    { split; [done|]. intros n [= <-]. change (2 ^ 0) with 1. lia. }
    split; [done|]. intros n [= <-].
    unfold Z.lnot, Z.pred. replace (- a + -1) with (- a - 1) by lia.
    destruct (gsm_norm_nonneg (- a - 1) ltac:(lia)) as [Hz Hp]. cbv zeta in Hz, Hp.
    destruct (Z.eq_dec (- a - 1) 0) as [E|Ene].
    { rewrite (Hz E). norm_pow. lia. }
    destruct (Hp ltac:(lia)) as [Hn Hv]. revert Hn Hv.
    generalize (if ctrue ((- a - 1) .& 4294901760) then
             if ctrue ((- a - 1) .& 4278190080) then -1 + bitoff.[255 .& ((- a - 1) >> 24)]
             else 7 + bitoff.[255 .& ((- a - 1) >> 16)]
           else
             if ctrue ((- a - 1) .& 65280) then 15 + bitoff.[255 .& ((- a - 1) >> 8)]
             else 23 + bitoff.[255 .& (- a - 1)]).
    intros n Hn Hv. split; [lia|]. split; [lia|]. intros _.
    assert (0 < 2 ^ n) by (apply Z.pow_pos_nonneg; lia).
    assert (2 ^ n <= 2 ^ 30) by (apply Z.pow_le_mono_r; lia). norm_pow.
    assert (2147483648 = 2 ^ n * 2 ^ (31 - n)) as E
      by (rewrite <- Z.pow_add_r by lia; replace (n + (31 - n)) with 31 by lia; reflexivity).
    assert (- a <= 2 ^ (31 - n)); [|nia].
    assert (- a - 1 < 2 ^ (31 - n)); [|lia]. apply (Z.mul_lt_mono_pos_r (2 ^ n)); lia.
  - split; [done|]. intros n [= <-]. destruct (gsm_norm_nonneg a ltac:(lia)) as [_ Hp].
    destruct (Hp ltac:(lia)). split; [lia|]. split; [done|lia].
Qed.

Lemma gsm_norm_spec_witness : gsm_norm (-5) = Some 28 /\ -2147483648 <= -5 * 2 ^ 28 <= -1073741824.
Proof.
  split; [reflexivity|].
  destruct (gsm_norm_spec (-5)) as [_ H]; [unfold longword; lia|].
  destruct (H 28 eq_refl) as (_ & _ & Hn). apply Hn. lia.
Defined.

Lemma gsm_div_loop_spec k denum num div :
  word denum -> 0 <= num < denum -> 0 <= div -> div < 2 ^ (15 - Z.of_nat k) ->
  (k <= 15)%nat ->
  gsm_div_loop k denum num div = (div * denum + num) * 2 ^ Z.of_nat k / denum.
Proof.
  revert num div. induction k as [|k IH]; intros num div Hd Hn Hv Hv' Hk.
  - cbn [gsm_div_loop]. change (2 ^ Z.of_nat 0) with 1. rewrite Z.mul_1_r.
    apply (Z.div_unique _ _ _ num); lia.
  - cbn [gsm_div_loop]. cbv zeta. rewrite !shl_mul by lia. change (2 ^ 1) with 2.
    assert (2 ^ (15 - Z.of_nat (S k)) * 2 = 2 ^ (15 - Z.of_nat k)) as Ep
      by (rewrite <- (Z.pow_succ_r 2), Z.mul_comm || (rewrite Z.mul_comm, <- Z.pow_succ_r by lia; f_equal; lia)).
    assert (2 ^ (15 - Z.of_nat k) <= 2 ^ 15) by (apply Z.pow_le_mono_r; lia). norm_pow.
    unfold word in Hd. rewrite (s16_id (div * 2)), (s32_id (num * 2)) by (unfold longword; lia).
    assert (2 ^ Z.of_nat (S k) = 2 * 2 ^ Z.of_nat k) as E
      by (rewrite Nat2Z.inj_succ, Z.pow_succ_r by lia; done).
    rewrite E. destruct (Z.leb_spec denum (num * 2)).
    + rewrite s16_id by lia. rewrite IH by (unfold word; lia). f_equal. nia.
    + rewrite IH by (unfold word; lia). f_equal. nia.
Qed.

Lemma gsm_div_loop_equal k denum div :
  word denum -> 0 < denum -> 0 <= div -> div + 1 <= 2 ^ (15 - Z.of_nat k) -> (k <= 15)%nat ->
  gsm_div_loop k denum denum div = (div + 1) * 2 ^ Z.of_nat k - 1.
Proof.
  revert div. induction k as [|k IH]; intros div Hd Hp Hv Hv' Hk.
  - cbn [gsm_div_loop]. change (2 ^ Z.of_nat 0) with 1. lia.
  - cbn [gsm_div_loop]. cbv zeta. rewrite !shl_mul by lia. change (2 ^ 1) with 2.
    assert (2 ^ (15 - Z.of_nat k) = 2 * 2 ^ (15 - Z.of_nat (S k))) as Ep
      by (rewrite <- Z.pow_succ_r by lia; f_equal; lia).
    assert (2 ^ (15 - Z.of_nat k) <= 2 ^ 15) by (apply Z.pow_le_mono_r; lia). norm_pow.
    unfold word in Hd. rewrite (s16_id (div * 2)), (s32_id (denum * 2)) by (unfold longword; lia).
    assert (2 ^ Z.of_nat (S k) = 2 * 2 ^ Z.of_nat k) as E
      by (rewrite Nat2Z.inj_succ, Z.pow_succ_r by lia; done).
    rewrite E. destruct (Z.leb_spec denum (denum * 2)); [|lia].
    rewrite s16_id by lia. replace (denum * 2 - denum) with denum by lia.
    rewrite IH by (unfold word; lia). nia.
Qed.

#[local] Opaque gsm_div_loop.

Lemma gsm_div_value num denum :
  word num -> word denum -> 0 <= num <= denum ->
  gsm_div num denum = Some (if num =? 0 then 0 else Z.min 32767 (num * 32768 / denum)).
Proof.
  intros Hn Hd [H0 Hle]. unfold gsm_div.
  destruct (Z.leb_spec 0 num); [|lia]. destruct (Z.leb_spec num denum); [|lia].
  cbn [andb assert_ mbind option_bind]. destruct (Z.eqb_spec num 0) as [->|Hne]; [done|]. f_equal.
  destruct (Z.eq_dec num denum) as [->|].
  - rewrite gsm_div_loop_equal by (try done; try (norm_pow; lia); lia).
    change (2 ^ Z.of_nat 15) with 32768. rewrite (Z.mul_comm denum), Z.div_mul by lia. lia.
  - rewrite gsm_div_loop_spec by (try done; try (norm_pow; lia); lia).
    change (2 ^ Z.of_nat 15) with 32768. rewrite Z.mul_0_l, Z.add_0_l.
    assert (num * 32768 / denum <= 32767); [|lia].
    assert (num * 32768 / denum < 32768); [|lia]. apply Z.div_lt_upper_bound; lia.
Qed.

(** [gsm_div] passes its assertion exactly when [0 <= num <= denum], and
    then returns the 15-bit fraction [num / denum], rounded down and clipped
    to 32767 when the operands are equal. *)
Theorem gsm_div_spec num denum :
  word num -> word denum ->
  (gsm_div num denum = None <-> num < 0 \/ denum < num) /\
  forall r, gsm_div num denum = Some r ->
    0 <= r <= 32767 /\ r = if num =? 0 then 0 else Z.min 32767 (num * 32768 / denum).
Proof.
  intros Hn Hd. split.
  - unfold gsm_div. destruct (Z.leb_spec 0 num), (Z.leb_spec num denum); cbn [andb assert_];
      cbn [mbind option_bind]; try (split; [lia|done]).
    destruct (num =? 0); split; try done; lia.
  - intros r Hr. assert (0 <= num <= denum) as Hle.
    { unfold gsm_div in Hr. destruct (Z.leb_spec 0 num), (Z.leb_spec num denum); try done; lia. }
    rewrite gsm_div_value in Hr by done. injection Hr as <-. split; [|done].
    destruct (Z.eqb_spec num 0); [lia|]. assert (0 <= num * 32768 / denum) by (apply Z.div_pos; lia).
    lia.
Qed.

#[local] Transparent gsm_div_loop.

Lemma gsm_div_spec_witness : gsm_div 1 3 = Some 10922 /\ 10922 = Z.min 32767 (1 * 32768 / 3).
Proof.
  split; [reflexivity|].
  destruct (gsm_div_spec 1 3) as [_ H]; [unfold word; lia..|].
  apply (H 10922 eq_refl).
Defined.

(** ** The shared loops *)

Lemma max_abs_spec xM :
  words xM -> 0 <= max_abs xM <= 32767 /\ Forall (fun v => GSM_ABS v <= max_abs xM) xM.
Proof.
  intros Hw. unfold max_abs.
  set (f := fun xmax v => let temp := GSM_ABS v in if xmax <? temp then temp else xmax).
  assert (forall l a, words l -> 0 <= a <= 32767 ->
    a <= fold_left f l a <= 32767 /\ Forall (fun v => GSM_ABS v <= fold_left f l a) l) as H.
  { induction l as [|v l IH]; intros a Hl Ha; [split; [simpl; lia|constructor]|].
    apply Forall_cons_1 in Hl as [Hv Hl]. cbn [fold_left].
    pose proof (GSM_ABS_range v Hv) as Hr.
    assert (0 <= f a v <= 32767 /\ a <= f a v /\ GSM_ABS v <= f a v) as (H1 & H2 & H3)
      by (unfold f; cbv zeta; case_if; lia).
    destruct (IH (f a v) Hl H1) as [Hb Hf]. split; [lia|].
    constructor; [lia|]. exact Hf. }
  destruct (H xM 0 Hw ltac:(lia)) as [Hb Hf]. split; [lia|done].
Qed.

Lemma mapM_total {A B} (f : A -> option B) (Q : B -> Prop) l :
  Forall (fun x => exists y, f x = Some y /\ Q y) l ->
  exists l', mapM f l = Some l' /\ length l' = length l /\ Forall Q l'.
Proof.
  induction 1 as [|x l (y & Hy & HQ) _ (l' & Hl & Hlen & HQ')]; [by exists []|].
  exists (y :: l'). cbn [mapM mbind option_bind]. rewrite Hy. cbn. rewrite Hl. cbn.
  split; [done|]. split; [by rewrite Hlen|by constructor].
Qed.

(** A sum accumulated in a [longword] that cannot overflow. *)
Definition zsum (f : Z -> Z) (l : list Z) : Z := fold_right (fun k s => f k + s) 0 l.

Lemma zsum_bound f l M :
  (forall k, - M <= f k <= M) -> - (Z.of_nat (length l) * M) <= zsum f l <= Z.of_nat (length l) * M.
Proof.
  intros Hf. induction l as [|k l IH]; [cbn; lia|].
  cbn [zsum fold_right length]. specialize (Hf k). fold (zsum f l). lia.
Qed.

Lemma fold_s32_sum f l M : forall a,
  (forall k, - M <= f k <= M) ->
  -2147483648 + Z.of_nat (length l) * M <= a <= 2147483647 - Z.of_nat (length l) * M ->
  fold_left (fun L k => s32 (L + f k)) l a = a + zsum f l.
Proof.
  induction l as [|k l IH]; intros a Hf Ha; [cbn; lia|].
  cbn [fold_left zsum fold_right length] in *. fold (zsum f l).
  pose proof (Hf k) as Hk. rewrite s32_id by (unfold longword; nia). rewrite IH; [lia|done|nia].
Qed.
