(* ===== verification/GsmFrame.v ===== *)
(** * GSM 06.10 frames: the packing parts of [gsm/gsm_encode.c],
    [gsm_decode.c], [gsm_implode.c] and [gsm_explode.c]

    A frame of 160 samples is coded by 76 parameters, packed into 33 bytes
    behind a 4-bit magic number.  The bit positions are those of the C
    statements, byte by byte; [*c++] has become the index of the byte. *)

From S2P Require Import Prelude.

Definition GSM_MAGIC : Z := 0xD.

(** The parameter arrays. *)
Record gsm_params := {
  LARc : list Z; Nc : list Z; bc : list Z; Mc : list Z; xmaxc : list Z; xmc : list Z
}.

(** The 33 assignments [*c++ = ...], the arrays given by their elements. *)
Definition pack (LARc Nc bc Mc xmaxc xmc : Z -> Z) : list Z :=
  [u8 (((GSM_MAGIC .& 0xF) << 4) .| ((LARc 0 >> 2) .& 0xF));
   u8 (((LARc 0 .& 0x3) << 6) .| (LARc 1 .& 0x3F));
   u8 (((LARc 2 .& 0x1F) << 3) .| ((LARc 3 >> 2) .& 0x7));
   u8 (((LARc 3 .& 0x3) << 6) .| ((LARc 4 .& 0xF) << 2) .| ((LARc 5 >> 2) .& 0x3));
   u8 (((LARc 5 .& 0x3) << 6) .| ((LARc 6 .& 0x7) << 3) .| (LARc 7 .& 0x7));
   u8 (((Nc 0 .& 0x7F) << 1) .| ((bc 0 >> 1) .& 0x1));
   u8 (((bc 0 .& 0x1) << 7) .| ((Mc 0 .& 0x3) << 5) .| ((xmaxc 0 >> 1) .& 0x1F));
   u8 (((xmaxc 0 .& 0x1) << 7) .| ((xmc 0 .& 0x7) << 4) .| ((xmc 1 .& 0x7) << 1)
       .| ((xmc 2 >> 2) .& 0x1));
   u8 (((xmc 2 .& 0x3) << 6) .| ((xmc 3 .& 0x7) << 3) .| (xmc 4 .& 0x7));
   u8 (((xmc 5 .& 0x7) << 5) .| ((xmc 6 .& 0x7) << 2) .| ((xmc 7 >> 1) .& 0x3));
   u8 (((xmc 7 .& 0x1) << 7) .| ((xmc 8 .& 0x7) << 4) .| ((xmc 9 .& 0x7) << 1)
       .| ((xmc 10 >> 2) .& 0x1));
   u8 (((xmc 10 .& 0x3) << 6) .| ((xmc 11 .& 0x7) << 3) .| (xmc 12 .& 0x7));
   u8 (((Nc 1 .& 0x7F) << 1) .| ((bc 1 >> 1) .& 0x1));
   u8 (((bc 1 .& 0x1) << 7) .| ((Mc 1 .& 0x3) << 5) .| ((xmaxc 1 >> 1) .& 0x1F));
   u8 (((xmaxc 1 .& 0x1) << 7) .| ((xmc 13 .& 0x7) << 4) .| ((xmc 14 .& 0x7) << 1)
       .| ((xmc 15 >> 2) .& 0x1));
   u8 (((xmc 15 .& 0x3) << 6) .| ((xmc 16 .& 0x7) << 3) .| (xmc 17 .& 0x7));
   u8 (((xmc 18 .& 0x7) << 5) .| ((xmc 19 .& 0x7) << 2) .| ((xmc 20 >> 1) .& 0x3));
   u8 (((xmc 20 .& 0x1) << 7) .| ((xmc 21 .& 0x7) << 4) .| ((xmc 22 .& 0x7) << 1)
       .| ((xmc 23 >> 2) .& 0x1));
   u8 (((xmc 23 .& 0x3) << 6) .| ((xmc 24 .& 0x7) << 3) .| (xmc 25 .& 0x7));
   u8 (((Nc 2 .& 0x7F) << 1) .| ((bc 2 >> 1) .& 0x1));
   u8 (((bc 2 .& 0x1) << 7) .| ((Mc 2 .& 0x3) << 5) .| ((xmaxc 2 >> 1) .& 0x1F));
   u8 (((xmaxc 2 .& 0x1) << 7) .| ((xmc 26 .& 0x7) << 4) .| ((xmc 27 .& 0x7) << 1)
       .| ((xmc 28 >> 2) .& 0x1));
   u8 (((xmc 28 .& 0x3) << 6) .| ((xmc 29 .& 0x7) << 3) .| (xmc 30 .& 0x7));
   u8 (((xmc 31 .& 0x7) << 5) .| ((xmc 32 .& 0x7) << 2) .| ((xmc 33 >> 1) .& 0x3));
   u8 (((xmc 33 .& 0x1) << 7) .| ((xmc 34 .& 0x7) << 4) .| ((xmc 35 .& 0x7) << 1)
       .| ((xmc 36 >> 2) .& 0x1));
   u8 (((xmc 36 .& 0x3) << 6) .| ((xmc 37 .& 0x7) << 3) .| (xmc 38 .& 0x7));
   u8 (((Nc 3 .& 0x7F) << 1) .| ((bc 3 >> 1) .& 0x1));
   u8 (((bc 3 .& 0x1) << 7) .| ((Mc 3 .& 0x3) << 5) .| ((xmaxc 3 >> 1) .& 0x1F));
   u8 (((xmaxc 3 .& 0x1) << 7) .| ((xmc 39 .& 0x7) << 4) .| ((xmc 40 .& 0x7) << 1)
       .| ((xmc 41 >> 2) .& 0x1));
   u8 (((xmc 41 .& 0x3) << 6) .| ((xmc 42 .& 0x7) << 3) .| (xmc 43 .& 0x7));
   u8 (((xmc 44 .& 0x7) << 5) .| ((xmc 45 .& 0x7) << 2) .| ((xmc 46 >> 1) .& 0x3));
   u8 (((xmc 46 .& 0x1) << 7) .| ((xmc 47 .& 0x7) << 4) .| ((xmc 48 .& 0x7) << 1)
       .| ((xmc 49 >> 2) .& 0x1));
   u8 (((xmc 49 .& 0x3) << 6) .| ((xmc 50 .& 0x7) << 3) .| (xmc 51 .& 0x7))].

(** The assignments to the arrays, two statements [x = ...; x |= ...] joined. *)
Definition unpack (c : list Z) : gsm_params :=
  {| LARc :=
     [((c.[0] .& 0xF) << 2) .| ((c.[1] >> 6) .& 0x3);
      c.[1] .& 0x3F;
      (c.[2] >> 3) .& 0x1F;
      ((c.[2] .& 0x7) << 2) .| ((c.[3] >> 6) .& 0x3);
      (c.[3] >> 2) .& 0xF;
      ((c.[3] .& 0x3) << 2) .| ((c.[4] >> 6) .& 0x3);
      (c.[4] >> 3) .& 0x7;
      c.[4] .& 0x7];
     Nc :=
     [(c.[5] >> 1) .& 0x7F;
      (c.[12] >> 1) .& 0x7F;
      (c.[19] >> 1) .& 0x7F;
      (c.[26] >> 1) .& 0x7F];
     bc :=
     [((c.[5] .& 0x1) << 1) .| ((c.[6] >> 7) .& 0x1);
      ((c.[12] .& 0x1) << 1) .| ((c.[13] >> 7) .& 0x1);
      ((c.[19] .& 0x1) << 1) .| ((c.[20] >> 7) .& 0x1);
      ((c.[26] .& 0x1) << 1) .| ((c.[27] >> 7) .& 0x1)];
     Mc :=
     [(c.[6] >> 5) .& 0x3;
      (c.[13] >> 5) .& 0x3;
      (c.[20] >> 5) .& 0x3;
      (c.[27] >> 5) .& 0x3];
     xmaxc :=
     [((c.[6] .& 0x1F) << 1) .| ((c.[7] >> 7) .& 0x1);
      ((c.[13] .& 0x1F) << 1) .| ((c.[14] >> 7) .& 0x1);
      ((c.[20] .& 0x1F) << 1) .| ((c.[21] >> 7) .& 0x1);
      ((c.[27] .& 0x1F) << 1) .| ((c.[28] >> 7) .& 0x1)];
     xmc :=
     [(c.[7] >> 4) .& 0x7;
      (c.[7] >> 1) .& 0x7;
      ((c.[7] .& 0x1) << 2) .| ((c.[8] >> 6) .& 0x3);
      (c.[8] >> 3) .& 0x7;
      c.[8] .& 0x7;
      (c.[9] >> 5) .& 0x7;
      (c.[9] >> 2) .& 0x7;
      ((c.[9] .& 0x3) << 1) .| ((c.[10] >> 7) .& 0x1);
      (c.[10] >> 4) .& 0x7;
      (c.[10] >> 1) .& 0x7;
      ((c.[10] .& 0x1) << 2) .| ((c.[11] >> 6) .& 0x3);
      (c.[11] >> 3) .& 0x7;
      c.[11] .& 0x7;
      (c.[14] >> 4) .& 0x7;
      (c.[14] >> 1) .& 0x7;
      ((c.[14] .& 0x1) << 2) .| ((c.[15] >> 6) .& 0x3);
      (c.[15] >> 3) .& 0x7;
      c.[15] .& 0x7;
      (c.[16] >> 5) .& 0x7;
      (c.[16] >> 2) .& 0x7;
      ((c.[16] .& 0x3) << 1) .| ((c.[17] >> 7) .& 0x1);
      (c.[17] >> 4) .& 0x7;
      (c.[17] >> 1) .& 0x7;
      ((c.[17] .& 0x1) << 2) .| ((c.[18] >> 6) .& 0x3);
      (c.[18] >> 3) .& 0x7;
      c.[18] .& 0x7;
      (c.[21] >> 4) .& 0x7;
      (c.[21] >> 1) .& 0x7;
      ((c.[21] .& 0x1) << 2) .| ((c.[22] >> 6) .& 0x3);
      (c.[22] >> 3) .& 0x7;
      c.[22] .& 0x7;
      (c.[23] >> 5) .& 0x7;
      (c.[23] >> 2) .& 0x7;
      ((c.[23] .& 0x3) << 1) .| ((c.[24] >> 7) .& 0x1);
      (c.[24] >> 4) .& 0x7;
      (c.[24] >> 1) .& 0x7;
      ((c.[24] .& 0x1) << 2) .| ((c.[25] >> 6) .& 0x3);
      (c.[25] >> 3) .& 0x7;
      c.[25] .& 0x7;
      (c.[28] >> 4) .& 0x7;
      (c.[28] >> 1) .& 0x7;
      ((c.[28] .& 0x1) << 2) .| ((c.[29] >> 6) .& 0x3);
      (c.[29] >> 3) .& 0x7;
      c.[29] .& 0x7;
      (c.[30] >> 5) .& 0x7;
      (c.[30] >> 2) .& 0x7;
      ((c.[30] .& 0x3) << 1) .| ((c.[31] >> 7) .& 0x1);
      (c.[31] >> 4) .& 0x7;
      (c.[31] >> 1) .& 0x7;
      ((c.[31] .& 0x1) << 2) .| ((c.[32] >> 6) .& 0x3);
      (c.[32] >> 3) .& 0x7;
      c.[32] .& 0x7] |}.


(** [gsm_encode] after [Gsm_Coder], and [gsm_decode] before [Gsm_Decoder];
    [None] is the return value -1. *)
Definition pack_params (p : gsm_params) : list Z :=
  pack (aget (LARc p)) (aget (Nc p)) (aget (bc p)) (aget (Mc p)) (aget (xmaxc p)) (aget (xmc p)).

Definition unpack_params (c : list Z) : option gsm_params :=
  if negb ((c.[0] >> 4) .& 0x0F =? GSM_MAGIC) then None else Some (unpack c).

(** ** The flat parameter array of [gsm_implode] and [gsm_explode]

    The macros name elements of an array of 76 words: [LARc] its first eight,
    [Nc[k]], [bc[k]], [Mc[k]], [xmaxc[k]] the elements [8 + 17 k] to
    [11 + 17 k], [xmc[13 k + i]] the element [12 + 17 k + i]. *)
Definition xmc_index (i : Z) : Z := 12 + 17 * (i / 13) + i mod 13.

Definition gsm_implode (source : list Z) : list Z :=
  pack (fun i => source.[i]) (fun k => source.[8 + 17 * k]) (fun k => source.[9 + 17 * k])
       (fun k => source.[10 + 17 * k]) (fun k => source.[11 + 17 * k])
       (fun i => source.[xmc_index i]).

(** The array the assignments fill: header, then the four subframes. *)
Definition target_subframe (p : gsm_params) (k : Z) : list Z :=
  [(Nc p).[k]; (bc p).[k]; (Mc p).[k]; (xmaxc p).[k]] ++
  map (fun i => (xmc p).[13 * k + Z.of_nat i]) (seq 0 13).

Definition target_of (p : gsm_params) : list Z :=
  LARc p ++ target_subframe p 0 ++ target_subframe p 1 ++ target_subframe p 2
  ++ target_subframe p 3.

Definition gsm_explode (c : list Z) : option (list Z) :=
  if negb ((c.[0] >> 4) .& 0x0F =? GSM_MAGIC) then None else Some (target_of (unpack c)).

(** ** Well-formed parameters and frames *)

Definition bits_of (n : Z) (x : Z) : Prop := 0 <= x < 2 ^ n.

(** The field widths of the table in [gsm_encode.c]. *)
Definition LARc_bits : list Z := [6; 6; 5; 5; 4; 4; 3; 3].

Record params_ok (p : gsm_params) : Prop := {
  ok_LARc : Forall2 bits_of LARc_bits (LARc p);
  ok_Nc : length (Nc p) = 4%nat /\ Forall (bits_of 7) (Nc p);
  ok_bc : length (bc p) = 4%nat /\ Forall (bits_of 2) (bc p);
  ok_Mc : length (Mc p) = 4%nat /\ Forall (bits_of 2) (Mc p);
  ok_xmaxc : length (xmaxc p) = 4%nat /\ Forall (bits_of 6) (xmaxc p);
  ok_xmc : length (xmc p) = 52%nat /\ Forall (bits_of 3) (xmc p)
}.

Definition frame_ok (c : list Z) : Prop :=
  length c = 33%nat /\ Forall (bits_of 8) c /\ (c.[0] >> 4) .& 0x0F = GSM_MAGIC.

(** ** Bit level reasoning *)

Lemma byte_ext a b :
  0 <= a < 256 -> 0 <= b < 256 ->
  (forall i, In i [0; 1; 2; 3; 4; 5; 6; 7] -> Z.testbit a i = Z.testbit b i) -> a = b.
Proof.
  intros Ha Hb H. apply Z.bits_inj'. intros i Hi. destruct (Z.lt_ge_cases i 8).
  - apply H. simpl. lia.
  - by rewrite !(high_bits _ 8) by lia.
Qed.

Lemma testbit_u8 x i : 0 <= i -> Z.testbit (u8 x) i = (i <? 8) && Z.testbit x i.
Proof.
  intros Hi. unfold ux. destruct (Z.ltb_spec i 8).
  - by rewrite Z.mod_pow2_bits_low by lia.
  - by rewrite Z.mod_pow2_bits_high by lia.
Qed.

Lemma lor_byte x y : 0 <= x < 256 -> 0 <= y < 256 -> 0 <= x .| y < 256.
Proof. apply (lor_range x y 8). lia. Qed.

Lemma shl_field_byte x m k :
  0 <= m -> 0 <= k -> m * 2 ^ k < 256 -> 0 <= (x .& m) << k < 256.
Proof.
  intros Hm Hk Hb. pose proof (land_range x m Hm). rewrite shl_mul by lia.
  assert (0 < 2 ^ k) by (apply Z.pow_pos_nonneg; lia). nia.
Qed.

Lemma land_byte x m : 0 <= m < 256 -> 0 <= x .& m < 256.
Proof. intros Hm. pose proof (land_range x m). lia. Qed.

Ltac byte_range :=
  repeat first
    [ apply u8_range | apply lor_byte | (apply shl_field_byte; norm_pow; lia)
    | (apply land_byte; lia) | (unfold bits_of in *; norm_pow; lia) ].

(** One bit of an equation between bytes: push the test to the variables. *)
Ltac one_bit :=
  repeat first
    [ rewrite Z.lor_spec | rewrite Z.land_spec
    | match goal with
      | |- context [Z.testbit (Z.shiftr ?x ?n) ?i] =>
          first [ rewrite (Z.testbit_neg_r (Z.shiftr x n) i) by lia
                | rewrite (Z.shiftr_spec x n i) by lia ]
      | |- context [Z.testbit (Z.shiftl ?x ?n) ?i] =>
          first [ rewrite (Z.testbit_neg_r (Z.shiftl x n) i) by lia
                | rewrite (Z.shiftl_spec x n i) by lia ]
      | |- context [Z.testbit (ux 8 ?x) ?i] =>
          first [ rewrite (Z.testbit_neg_r (ux 8 x) i) by lia | rewrite (testbit_u8 x i) by lia ]
      end ];
  cbn [Z.add Z.sub Z.opp Pos.add Pos.sub Z.pos_sub Pos.succ Z.succ_double Z.pred_double Z.double
       Pos.pred_double Z.ltb Z.compare Pos.compare Pos.compare_cont];
  repeat match goal with
  | |- context [Z.testbit (Zpos ?p) ?i] =>
      let v := eval vm_compute in (Z.testbit (Zpos p) i) in
      change (Z.testbit (Zpos p) i) with v
  | |- context [Z.testbit ?x (Zneg ?p)] => rewrite (Z.testbit_neg_r x (Zneg p)) by lia
  end;
  repeat first
    [ rewrite andb_true_r | rewrite andb_false_r | rewrite andb_true_l | rewrite andb_false_l
    | rewrite orb_true_r | rewrite orb_false_r | rewrite orb_true_l | rewrite orb_false_l ].

(** A bit above the width of a parameter. *)
Ltac high_bit :=
  unfold bits_of in *;
  repeat match goal with
  | H : 0 <= ?x < 2 ^ ?n |- context [Z.testbit ?x ?i] =>
      rewrite (high_bits x n i) by (first [exact H | lia])
  end.

Ltac bytes :=
  apply byte_ext;
    [byte_range|byte_range
    |let i := fresh "i" in let Hi := fresh "Hi" in
     intros i Hi; simpl in Hi; repeat destruct Hi as [<- | Hi]; try (destruct Hi);
     one_bit; try reflexivity; high_bit;
     rewrite ?orb_false_r, ?andb_false_r, ?orb_false_l; try reflexivity].

(** ** Round trips *)

(** Evaluate the reads of explicit arrays. *)
Ltac read_arrays :=
  lazy delta [aget default from_option lookup list_lookup Z.to_nat Pos.to_nat Pos.iter_op
    Z.ltb Z.compare Nat.add id] beta iota zeta.

(** Name the elements of an array of known length. *)
Ltac explode_list l :=
  repeat match goal with
  | H : length l = S _ |- _ => destruct l as [|? l]; [discriminate H|apply (f_equal pred) in H; cbn [length pred] in H]
  | H : length l = O |- _ => apply nil_length_inv in H; subst l
  end.

Ltac element_bounds :=
  repeat match goal with
  | H : Forall _ (_ :: _) |- _ => apply Forall_cons_1 in H as [? H]
  | H : Forall _ [] |- _ => clear H
  | H : Forall2 _ (_ :: _) _ |- _ => inversion H; clear H; subst
  | H : Forall2 _ [] _ |- _ => inversion H; clear H; subst
  end.

(** Forget the bounds of the variables the goal does not mention. *)
Ltac relevant_bounds :=
  repeat match goal with
  | H : bits_of _ ?x |- ?G =>
      match G with
      | context [x] => fail 1
      | _ => clear H
      end
  end.

Ltac elementwise :=
  repeat first [ reflexivity
               | apply (f_equal2 (@cons Z)); [relevant_bounds; solve [bytes]|] ].

Lemma unpack_pack p : params_ok p -> unpack (pack_params p) = p.
Proof.
  destruct p as [L N b M x m]. intros [HL [? HN] [? Hb] [? HM] [? Hx] [? Hm]].
  cbn [LARc Nc bc Mc xmaxc xmc] in *. unfold LARc_bits in HL.
  explode_list N. explode_list b. explode_list M. explode_list x. explode_list m.
  element_bounds. unfold pack_params, pack, unpack, GSM_MAGIC.
  cbn [LARc Nc bc Mc xmaxc xmc]. read_arrays.
  f_equal; elementwise.
Qed.

Lemma magic_byte m :
  bits_of 8 m -> (m >> 4) .& 0x0F = GSM_MAGIC -> m = ((GSM_MAGIC .& 0xF) << 4) .| (m .& 0xF).
Proof.
  intros Hm. change (bits_of 8 m) with (0 <= m < Z.of_nat 256) in Hm. revert m Hm.
  refine (all_below_decide 256 _ _). vm_compute. reflexivity.
Qed.

Lemma pack_unpack c : frame_ok c -> pack_params (unpack c) = c.
Proof.
  intros (Hl & Hc & Hm). explode_list c. element_bounds.
  unfold pack_params, pack, unpack. cbn [LARc Nc bc Mc xmaxc xmc].
  revert Hm. read_arrays. intros Hm. apply magic_byte in Hm; [|done].
  unfold GSM_MAGIC in *. apply (f_equal2 (@cons Z)); [|clear Hm; elementwise].
  rewrite Hm at 2. clear Hm. relevant_bounds. bytes.
Qed.

Lemma pack_frame_ok p : params_ok p -> frame_ok (pack_params p).
Proof.
  intros Hp. split; [done|]. split.
  - unfold pack_params, pack. repeat (apply Forall_cons; [exact (u8_range _)|]). constructor.
  - unfold pack_params, pack. read_arrays. apply byte_ext; [byte_range|unfold GSM_MAGIC; lia|].
    unfold GSM_MAGIC. intros i Hi. simpl in Hi.
    repeat destruct Hi as [<- | Hi]; try destruct Hi; one_bit; reflexivity.
Qed.

Lemma unpack_ok c : params_ok (unpack c).
Proof.
  assert (forall n x m k, 0 <= n -> 0 <= m < 2 ^ n -> bits_of n ((x >> k) .& m)) as H1.
  { intros n x m k Hn Hm. unfold bits_of. pose proof (land_range (x >> k) m). lia. }
  assert (forall n x m, 0 <= n -> 0 <= m < 2 ^ n -> bits_of n (x .& m)) as H2.
  { intros n x m Hn Hm. unfold bits_of. pose proof (land_range x m). lia. }
  assert (forall n x m k, 0 <= n -> 0 <= k -> 0 <= m -> m * 2 ^ k < 2 ^ n ->
    bits_of n ((x .& m) << k)) as H3.
  { intros n x m k Hn Hk Hm Hb. unfold bits_of. pose proof (land_range x m Hm).
    rewrite shl_mul by lia. assert (0 < 2 ^ k) by (apply Z.pow_pos_nonneg; lia). nia. }
  assert (forall n x y, 0 <= n -> bits_of n x -> bits_of n y -> bits_of n (x .| y)) as H4
    by (intros; by apply lor_range).
  unfold unpack.
  split; cbn [LARc Nc bc Mc xmaxc xmc]; unfold LARc_bits; try (split; [reflexivity|]);
    repeat first [ apply Forall_nil_2 | apply Forall2_nil_2 | apply Forall2_cons_2
                 | apply Forall_cons ];
    repeat first [ apply H4; [lia|..] | apply H1; norm_pow; lia | apply H3; norm_pow; lia
                 | apply H2; norm_pow; lia ].
Qed.

(** The frame format is a bijection: parameters that fit their fields are
    packed into 33 bytes behind the magic number and unpacked to exactly the
    same arrays, and every 33-byte frame with the magic number is the packing
    of the parameters it unpacks to, which fit their fields. *)
Theorem gsm_frame_roundtrip :
  (forall p, params_ok p ->
     frame_ok (pack_params p) /\ unpack_params (pack_params p) = Some p) /\
  (forall c, frame_ok c ->
     exists p, unpack_params c = Some p /\ params_ok p /\ pack_params p = c).
Proof.
  split.
  - intros p Hp. pose proof (pack_frame_ok p Hp) as Hf. split; [done|].
    unfold unpack_params. destruct Hf as (_ & _ & ->). cbn [negb Z.eqb].
    rewrite (unpack_pack p Hp). done.
  - intros c Hf. exists (unpack c). split; [|split; [apply unpack_ok|by apply pack_unpack]].
    unfold unpack_params. by destruct Hf as (_ & _ & ->).
Qed.

Definition sample_params : gsm_params :=
  {| LARc := [40; 30; 20; 10; 9; 8; 7; 6]; Nc := [40; 120; 77; 99]; bc := [0; 1; 2; 3];
     Mc := [3; 2; 1; 0]; xmaxc := [63; 17; 5; 0]; xmc := map (fun i => Z.of_nat i mod 8) (seq 0 52) |}.

#[export] Instance bits_of_dec n x : Decision (bits_of n x).
Proof. unfold bits_of. apply _. Defined.

Lemma sample_params_ok : params_ok sample_params.
Proof.
  split; try (split; [reflexivity|]); apply (bool_decide_unpack _); vm_compute; exact I.
Qed.

Lemma gsm_frame_roundtrip_witness :
  unpack_params (pack_params sample_params) = Some sample_params.
Proof. apply gsm_frame_roundtrip. apply sample_params_ok. Defined.

(** ** The flat array *)

Lemma implode_target p : params_ok p -> gsm_implode (target_of p) = pack_params p.
Proof.
  destruct p as [L N b M x m]. intros [HL [? HN] [? Hb] [? HM] [? Hx] [? Hm]].
  apply Forall2_length in HL. cbn [LARc Nc bc Mc xmaxc xmc length LARc_bits] in *. symmetry in HL.
  explode_list L. explode_list N. explode_list b. explode_list M. explode_list x. explode_list m.
  reflexivity.
Qed.

(** [gsm_implode] and [gsm_explode] use the same frames: imploding the
    flat array of well-formed parameters gives the frame [gsm_encode] packs,
    exploding it gives the array back, and [gsm_explode] like [gsm_decode]
    rejects exactly the frames without the magic number. *)
Theorem implode_explode p c :
  params_ok p ->
  gsm_implode (target_of p) = pack_params p /\
  gsm_explode (gsm_implode (target_of p)) = Some (target_of p) /\
  (gsm_explode c = None <-> (c.[0] >> 4) .& 0x0F <> GSM_MAGIC) /\
  (unpack_params c = None <-> (c.[0] >> 4) .& 0x0F <> GSM_MAGIC).
Proof.
  intros Hp. rewrite (implode_target p Hp). split; [done|].
  split.
  { unfold gsm_explode. destruct (pack_frame_ok p Hp) as (_ & _ & ->). cbn [negb Z.eqb].
    by rewrite (unpack_pack p Hp). }
  unfold gsm_explode, unpack_params.
  destruct (Z.eqb_spec ((c.[0] >> 4) .& 0x0F) GSM_MAGIC); cbn [negb]; naive_solver.
Qed.

Lemma implode_explode_witness :
  gsm_explode (gsm_implode (target_of sample_params)) = Some (target_of sample_params).
Proof. apply (implode_explode sample_params []). apply sample_params_ok. Defined.
