(* ===== verification/GsmRpe.v ===== *)
(** * GSM 06.10 regular pulse excitation: [gsm/rpe.c]

    The long term residual of a subframe (40 words) is filtered, decimated to
    one of four grids, and quantized; the decoder's half of the file undoes
    the quantization.  The [assert]s of the C code are part of the model. *)

From S2P Require Import Prelude GsmArith.

(** ** Tables 4.5 and 4.6, [gsm/table.c] *)

Definition gsm_NRFAC : list Z := [29128; 26215; 23832; 21846; 20165; 18725; 17476; 16384].
Definition gsm_FAC : list Z := [18431; 20479; 22527; 24575; 26623; 28671; 30719; 32767].

(** ** 4.2.13 Weighting filter *)

(** One output; [e] is the array of 50 words that starts at [e[-5]]. *)
Definition weighting_tap (e : list Z) (k : Z) : Z :=
  let STEP i H := e.[k + i] * H in
  let L_result := 8192 >> 1 in
  let L_result := s32 (L_result +
    (STEP 0 (-134) + STEP 1 (-374) + STEP 3 2054 + STEP 4 5741 + STEP 5 8192
     + STEP 6 5741 + STEP 7 2054 + STEP 9 (-374) + STEP 10 (-134))) in
  let L_result := L_result >> 13 in
  if L_result <? MIN_WORD then MIN_WORD
  else if MAX_WORD <? L_result then MAX_WORD else L_result.

Definition Weighting_filter (e : list Z) : list Z :=
  map (fun k => weighting_tap e (Z.of_nat k)) (seq 0 40).

(** ** 4.2.14 Grid selection *)

Definition grid_STEP (x : list Z) (m : Z) (L_result i : Z) : Z :=
  let L_temp := x.[m + 3 * i] >> 2 in
  s32 (L_result + L_temp * L_temp).

Definition RPE_grid_selection (x : list Z) : list Z * Z :=
  let L_common_0_3 := fold_left (grid_STEP x 0) (zseq 1 12) 0 in
  (* i = 0 *)
  let L_result := grid_STEP x 0 L_common_0_3 0 in
  let L_result := s32 (L_result << 1) in
  let EM := L_result in
  let Mc := 0 in
  (* i = 1 *)
  let L_result := fold_left (grid_STEP x 1) (zseq 0 13) 0 in
  let L_result := s32 (L_result << 1) in
  let '(Mc, EM) := if EM <? L_result then (1, L_result) else (Mc, EM) in
  (* i = 2 *)
  let L_result := fold_left (grid_STEP x 2) (zseq 0 13) 0 in
  let L_result := s32 (L_result << 1) in
  let '(Mc, EM) := if EM <? L_result then (2, L_result) else (Mc, EM) in
  (* i = 3 *)
  let L_result := grid_STEP x 3 L_common_0_3 12 in
  let L_result := s32 (L_result << 1) in
  let '(Mc, EM) := if EM <? L_result then (3, L_result) else (Mc, EM) in
  (map (fun i => x.[Mc + 3 * i]) (zseq 0 13), Mc).

(** ** 4.2.15 Quantization *)

(** [while (mant <= 7)]; at most three rounds from a positive mantissa. *)
Fixpoint normalize_mant (fuel : nat) (exp mant : Z) : option (Z * Z) :=
  if mant <=? 7 then
    match fuel with
    | O => None
    | S fuel => normalize_mant fuel (exp - 1) (s16 ((mant << 1) .| 1))
    end
  else Some (exp, mant).

Definition APCM_quantization_xmaxc_to_exp_mant (xmaxc : Z) : option (Z * Z) :=
  let exp := if 15 <? xmaxc then (xmaxc >> 3) - 1 else 0 in
  let mant := s16 (xmaxc - (exp << 3)) in
  '(exp, mant) ← (if mant =? 0 then Some (-4, 7)
                  else '(exp, mant) ← normalize_mant 4 exp mant; Some (exp, mant - 8));
  assert_ ((-4 <=? exp) && (exp <=? 6)) ;;
  assert_ ((0 <=? mant) && (mant <=? 7)) ;;
  Some (exp, mant).

(** [for (i = 0; i <= 5; i++)] over [(exp, temp, itest)]. *)
Fixpoint exp_loop (k : nat) (exp temp : Z) (itest : bool) : option Z :=
  match k with
  | O => Some exp
  | S k =>
      let itest := itest || (temp <=? 0) in
      let temp := temp >> 1 in
      assert_ (exp <=? 5) ;;
      exp_loop k (if itest then exp else exp + 1) temp itest
  end.

(** One sample; [temp1] is the shift, [temp2] the inverse mantissa. *)
Definition quantize_sample (temp1 temp2 x : Z) : option Z :=
  assert_ ((0 <=? temp1) && (temp1 <? 16)) ;;
  let temp := s16 (x << temp1) in
  let temp := s16 (GSM_MULT temp temp2) in
  let temp := temp >> 12 in
  Some (temp + 4).

(** Result: [xMc], [mant], [exp], [xmaxc]. *)
Definition APCM_quantization (xM : list Z) : option (list Z * Z * Z * Z) :=
  let xmax := max_abs xM in
  exp ← exp_loop 6 0 (xmax >> 9) false;
  assert_ ((exp <=? 6) && (0 <=? exp)) ;;
  let temp := exp + 5 in
  assert_ ((temp <=? 11) && (0 <=? temp)) ;;
  let xmaxc := gsm_add (xmax >> temp) (exp << 3) in
  '(exp, mant) ← APCM_quantization_xmaxc_to_exp_mant xmaxc;
  assert_ ((exp <=? 4096) && (-4096 <=? exp)) ;;
  assert_ ((0 <=? mant) && (mant <=? 7)) ;;
  let temp1 := 6 - exp in
  let temp2 := gsm_NRFAC.[mant] in
  xMc ← mapM (quantize_sample temp1 temp2) xM;
  Some (xMc, mant, exp, xmaxc).

(** ** 4.2.16 Inverse quantization *)

Definition dequantize_sample (temp1 temp2 temp3 xMc : Z) : option Z :=
  assert_ ((xMc <=? 7) && (0 <=? xMc)) ;;
  let temp := (xMc << 1) - 7 in
  assert_ ((temp <=? 7) && (-7 <=? temp)) ;;
  let temp := s16 (temp << 12) in
  let temp := s16 (GSM_MULT_R temp1 temp) in
  let temp := GSM_ADD temp temp3 in
  Some (gsm_asr temp temp2).

Definition APCM_inverse_quantization (xMc : list Z) (mant exp : Z) : option (list Z) :=
  assert_ ((0 <=? mant) && (mant <=? 7)) ;;
  let temp1 := gsm_FAC.[mant] in
  let temp2 := gsm_sub 6 exp in
  let temp3 := gsm_asl 1 (gsm_sub temp2 1) in
  mapM (dequantize_sample temp1 temp2 temp3) xMc.

(** ** 4.2.17 Grid positioning *)

(** The body of the [do ... while (--i)] loop, entered at [case 2]. *)
Fixpoint grid_loop (xMp : list Z) : list Z :=
  match xMp with
  | [] => []
  | x :: xs => 0 :: 0 :: x :: grid_loop xs
  end.

(** The [switch] jumps into the first round of the loop: past one zero per
    missing offset for 0 and 1, one more zero before it for 3. *)
Definition RPE_grid_positioning (Mc : Z) (xMp : list Z) : option (list Z) :=
  assert_ ((0 <=? Mc) && (Mc <=? 3)) ;;
  let body :=
    if Mc =? 3 then 0 :: grid_loop xMp
    else if Mc =? 2 then grid_loop xMp
    else if Mc =? 1 then drop 1 (grid_loop xMp)
    else drop 2 (grid_loop xMp) in
  Some (body ++ replicate (Z.to_nat (3 - Mc)) 0).

(** ** The two entry points *)

(** [e] is the caller's array of 50 words, the subframe at [5 .. 44]. *)
Definition Gsm_RPE_Encoding (e : list Z) : option (list Z * Z * Z * list Z) :=
  let x := Weighting_filter e in
  let '(xM, Mc) := RPE_grid_selection x in
  '(xMc, mant, exp, xmaxc) ← APCM_quantization xM;
  xMp ← APCM_inverse_quantization xMc mant exp;
  ep ← RPE_grid_positioning Mc xMp;
  Some (take 5 e ++ ep ++ drop 45 e, xmaxc, Mc, xMc).

Definition Gsm_RPE_Decoding (xmaxcr Mcr : Z) (xMcr : list Z) : option (list Z) :=
  '(exp, mant) ← APCM_quantization_xmaxc_to_exp_mant xmaxcr;
  xMp ← APCM_inverse_quantization xMcr mant exp;
  RPE_grid_positioning Mcr xMp.

(** ** Grid positioning *)

Lemma length_grid_loop xMp : length (grid_loop xMp) = (3 * length xMp)%nat.
Proof. induction xMp; simpl; lia. Qed.

Lemma grid_loop_Forall (Q : Z -> Prop) xMp : Q 0 -> Forall Q xMp -> Forall Q (grid_loop xMp).
Proof. intros H0. induction 1; simpl; repeat constructor; auto. Qed.

Lemma positioning_spec Mc xMp :
  0 <= Mc <= 3 -> length xMp = 13%nat ->
  exists ep, RPE_grid_positioning Mc xMp = Some ep /\ length ep = 40%nat /\
    (forall Q : Z -> Prop, Q 0 -> Forall Q xMp -> Forall Q ep).
Proof.
  intros HM Hl. unfold RPE_grid_positioning.
  destruct (Z.leb_spec 0 Mc); [|lia]. destruct (Z.leb_spec Mc 3); [|lia].
  cbn [andb assert_ mbind option_bind].
  assert (Mc = 0 \/ Mc = 1 \/ Mc = 2 \/ Mc = 3) as Hc by lia.
  destruct Hc as [-> | [-> | [-> | ->]]]; cbn [Z.eqb Pos.eqb]; cbv zeta; eexists;
    (split; [reflexivity|]);
    rewrite !length_app, !length_replicate; cbn [length];
    rewrite ?length_drop, length_grid_loop, Hl; (split; [reflexivity|]); intros Q HQ0 HQ;
    apply Forall_app_2; try (apply Forall_replicate; done);
    try apply Forall_cons; try apply Forall_drop; try by apply grid_loop_Forall.
  done.
Qed.

(** ** Exponents *)

Lemma exp_loop_spec t :
  0 <= t < 64 ->
  exists exp, exp_loop 6 0 t false = Some exp /\ 0 <= exp <= 6 /\
    t < 2 ^ exp /\ (0 < exp -> 2 ^ (exp - 1) <= t).
Proof.
  intros Ht. change (0 <= t < Z.of_nat 64) in Ht.
  assert (match exp_loop 6 0 t false with
          | Some exp => (0 <=? exp) && (exp <=? 6) && (t <? 2 ^ exp) &&
                        ((exp <=? 0) || (2 ^ (exp - 1) <=? t))
          | None => false end = true) as H.
  { revert t Ht. refine (all_below_spec 64 _ _). vm_compute. reflexivity. }
  destruct (exp_loop 6 0 t false) as [exp|]; [|done]. exists exp. zbool.
  split; [done|]. split; [lia|]. split; [done|]. intros.
  match goal with H : _ || _ = true |- _ => apply orb_true_iff in H as [H|H] end; zbool; lia.
Qed.

(** The largest amplitude a code stands for. *)
Definition code_top (c : Z) : Z :=
  if c <? 16 then (c + 1) * 32 - 1 else (c mod 8 + 9) * 2 ^ (c / 8 + 4) - 1.

Lemma code_top_segment q exp :
  8 <= q < 16 -> 1 <= exp -> code_top (q + exp * 8) = (q + 1) * 2 ^ (exp + 5) - 1.
Proof.
  intros Hq He. unfold code_top. destruct (Z.ltb_spec (q + exp * 8) 16); [lia|].
  assert ((q + exp * 8) / 8 = exp + 1) as -> by divlia.
  assert ((q + exp * 8) mod 8 = q - 8) as -> by divlia.
  replace (q - 8 + 9) with (q + 1) by lia. do 3 f_equal. lia.
Qed.

Lemma max_code xmax exp :
  0 <= xmax <= 32767 -> 0 <= exp <= 6 ->
  xmax >> 9 < 2 ^ exp -> (0 < exp -> 2 ^ (exp - 1) <= xmax >> 9) ->
  let c := gsm_add (xmax >> (exp + 5)) (exp << 3) in
  0 <= c < 64 /\ xmax <= code_top c.
Proof.
  intros Hx He Ht Ht'. unfold gsm_add. rewrite shr_div in Ht, Ht' by lia.
  rewrite shr_div, shl_mul by lia. norm_pow.
  destruct (Z.eq_dec exp 0) as [->|Hne].
  { change (2 ^ 0) with 1 in Ht. cbn [Z.add]. norm_pow.
    rewrite saturate_id by (unfold word; divlia). cbv zeta. split; [divlia|].
    unfold code_top. case_if; divlia. }
  assert (8 <= xmax / 2 ^ (exp + 5) < 16) as Hq.
  { assert (exp = 1 \/ exp = 2 \/ exp = 3 \/ exp = 4 \/ exp = 5 \/ exp = 6) as Hc by lia.
    clear Hne. repeat destruct Hc as [-> | Hc]; try subst exp;
      vm_compute (2 ^ _) in Ht, Ht' |- *; divlia. }
  assert (xmax < (xmax / 2 ^ (exp + 5) + 1) * 2 ^ (exp + 5)) as Hlt.
  { assert (0 < 2 ^ (exp + 5)) by (apply Z.pow_pos_nonneg; lia).
    pose proof (Z.div_mod xmax (2 ^ (exp + 5)) ltac:(lia)).
    pose proof (Z.mod_pos_bound xmax (2 ^ (exp + 5))). lia. }
  rewrite saturate_id by (unfold word; lia). cbv zeta.
  rewrite code_top_segment by lia. lia.
Qed.

(** ** Quantization *)

Lemma exp_mant_spec c :
  0 <= c < 64 ->
  exists exp mant, APCM_quantization_xmaxc_to_exp_mant c = Some (exp, mant) /\
    -4 <= exp <= 6 /\ 0 <= mant <= 7 /\
    0 <= code_top c * 2 ^ (6 - exp) <= 32767 /\
    code_top c * 2 ^ (6 - exp) * gsm_NRFAC.[mant] < 536870912 /\
    (32767 <= code_top c -> exp = 6 /\ mant = 7).
Proof.
  intros Hc.
  assert (match APCM_quantization_xmaxc_to_exp_mant c with
          | Some (exp, mant) =>
              bool_decide (-4 <= exp <= 6 /\ 0 <= mant <= 7 /\
                0 <= code_top c * 2 ^ (6 - exp) <= 32767 /\
                code_top c * 2 ^ (6 - exp) * gsm_NRFAC.[mant] < 536870912) &&
              ((code_top c <? 32767) || (exp =? 6) && (mant =? 7))
          | None => false end = true) as H.
  { change (0 <= c < Z.of_nat 64) in Hc. revert c Hc. refine (all_below_spec 64 _ _).
    vm_compute. reflexivity. }
  destruct (APCM_quantization_xmaxc_to_exp_mant c) as [[exp mant]|]; [|done].
  apply andb_true_iff in H as [Hb Ht]. apply bool_decide_eq_true in Hb.
  exists exp, mant. split; [done|]. destruct Hb as (? & ? & ? & ?). do 4 (split; [done|]).
  intros Hge. apply orb_true_iff in Ht as [Ht|Ht]; zbool; lia.
Qed.

(** A sample below the top amplitude of the code gets a 3-bit code. *)
Lemma quantize_sample_fits c exp mant x :
  0 <= c < 64 -> APCM_quantization_xmaxc_to_exp_mant c = Some (exp, mant) ->
  word x -> GSM_ABS x <= Z.min 32767 (code_top c) ->
  exists q, quantize_sample (6 - exp) gsm_NRFAC.[mant] x = Some q /\ 0 <= q <= 7.
Proof.
  intros Hc Hem Hx Ha. destruct (exp_mant_spec c Hc) as (e & m & He & Her & Hmr & Hv & Hp & Htop).
  rewrite Hem in He. injection He as <- <-.
  assert (0 <= gsm_NRFAC.[mant] <= 32767) as HN.
  { assert (0 <= mant < Z.of_nat 8) as Hm8 by lia. clear - Hm8. revert mant Hm8.
    refine (all_below_decide 8 _ _). vm_compute. reflexivity. }
  unfold quantize_sample. destruct (Z.leb_spec 0 (6 - exp)); [|lia].
  destruct (Z.ltb_spec (6 - exp) 16); [|lia]. cbn [andb assert_ mbind option_bind].
  eexists. split; [reflexivity|]. rewrite shl_mul by lia.
  set (p := 2 ^ (6 - exp)) in *. set (N := gsm_NRFAC.[mant]) in *.
  assert (0 < p) by (apply Z.pow_pos_nonneg; lia).
  assert (word (x * p) /\ -536870912 <= x * p * N < 536870912) as [Hw Hb].
  { unfold word in *. destruct (Z.eq_dec x (-32768)) as [->|Hne].
    - change (GSM_ABS (-32768)) with 32767 in Ha. destruct Htop as [-> ->]; [lia|].
      subst p N. change (2 ^ (6 - 6)) with 1. change gsm_NRFAC.[7] with 16384. lia.
    - assert (- code_top c <= x <= code_top c)
        by (unfold GSM_ABS, MIN_WORD, MAX_WORD in Ha; repeat case_if; lia).
      assert (- (code_top c * p) <= x * p <= code_top c * p) by nia.
      split; [lia|]. nia. }
  rewrite (s16_id (x * p)) by exact Hw.
  unfold GSM_MULT. rewrite !shr_div by lia. change (2 ^ 15) with 32768. change (2 ^ 12) with 4096.
  rewrite s16_id by divlia. divlia.
Qed.

Lemma apcm_quantization_spec xM :
  words xM ->
  exists xMc mant exp xmaxc, APCM_quantization xM = Some (xMc, mant, exp, xmaxc) /\
    0 <= xmaxc < 64 /\ APCM_quantization_xmaxc_to_exp_mant xmaxc = Some (exp, mant) /\
    length xMc = length xM /\ Forall (fun q => 0 <= q <= 7) xMc.
Proof.
  intros Hw. destruct (max_abs_spec xM Hw) as [Hm Hall].
  assert (0 <= max_abs xM >> 9 < 64) as Ht by (rewrite shr_div by lia; norm_pow; divlia).
  destruct (exp_loop_spec _ Ht) as (exp0 & Hexp & Hr0 & Hlt & Hge).
  destruct (max_code _ _ Hm Hr0 Hlt Hge) as [Hc Htop].
  set (c := gsm_add (max_abs xM >> (exp0 + 5)) (exp0 << 3)) in *.
  destruct (exp_mant_spec c Hc) as (exp & mant & Hem & Her & Hmr & _).
  destruct (mapM_total (quantize_sample (6 - exp) gsm_NRFAC.[mant]) (fun q => 0 <= q <= 7) xM)
    as (xMc & HxMc & Hlen & Hq).
  { apply Forall_forall. intros x Hx. rewrite Forall_forall in Hall.
    apply (quantize_sample_fits c); try done.
    - unfold words in Hw. rewrite Forall_forall in Hw. by apply Hw.
    - specialize (Hall x Hx). cbv beta in Hall. lia. }
  exists xMc, mant, exp, c. split; [|done].
  unfold APCM_quantization. rewrite Hexp. cbn [mbind option_bind].
  destruct (Z.leb_spec exp0 6); [|lia]. destruct (Z.leb_spec 0 exp0); [|lia].
  cbn [andb assert_ mbind option_bind]. cbv zeta.
  destruct (Z.leb_spec (exp0 + 5) 11); [|lia]. destruct (Z.leb_spec 0 (exp0 + 5)); [|lia].
  cbn [andb assert_ mbind option_bind]. fold c. rewrite Hem. cbn [mbind option_bind].
  destruct (Z.leb_spec exp 4096); [|lia]. destruct (Z.leb_spec (-4096) exp); [|lia].
  destruct (Z.leb_spec 0 mant); [|lia]. destruct (Z.leb_spec mant 7); [|lia].
  cbn [andb assert_ mbind option_bind]. by rewrite HxMc.
Qed.

Lemma apcm_inverse_spec xMc exp mant :
  -4 <= exp <= 6 -> 0 <= mant <= 7 -> Forall (fun q => 0 <= q <= 7) xMc ->
  exists xMp, APCM_inverse_quantization xMc mant exp = Some xMp /\
    length xMp = length xMc /\ words xMp.
Proof.
  intros He Hm Hq. unfold APCM_inverse_quantization.
  destruct (Z.leb_spec 0 mant); [|lia]. destruct (Z.leb_spec mant 7); [|lia].
  cbn [andb assert_ mbind option_bind]. cbv zeta.
  apply mapM_total. revert Hq. apply Forall_impl. intros q Hqr. cbv beta in Hqr.
  assert (all_below 8 (fun mant => all_below 11 (fun e => all_below 8 (fun q =>
    match dequantize_sample gsm_FAC.[mant] (gsm_sub 6 (e - 4))
            (gsm_asl 1 (gsm_sub (gsm_sub 6 (e - 4)) 1)) q with
    | Some y => bool_decide (word y)
    | None => false end))) = true) as Hall by (vm_compute; reflexivity).
  pose proof (all_below_spec _ _ (all_below_spec _ _ (all_below_spec _ _ Hall mant ltac:(lia))
    (exp + 4) ltac:(lia)) q ltac:(lia)) as H1. cbv beta in H1.
  replace (exp + 4 - 4) with exp in H1 by lia.
  destruct (dequantize_sample _ _ _ q) as [y|]; [|done].
  exists y. split; [done|]. by apply bool_decide_eq_true in H1.
Qed.

(** ** Grid selection *)

(** The energy of the samples [x[m + 3i]], scaled as in the code. *)
Definition grid_term (x : list Z) (m i : Z) : Z := (x.[m + 3 * i] >> 2) * (x.[m + 3 * i] >> 2).
Definition grid_sum (x : list Z) (m : Z) (idx : list Z) : Z :=
  fold_right Z.add 0 (map (grid_term x m) idx).
Definition grid_energy (x : list Z) (m : Z) : Z := grid_sum x m (zseq 0 13).

Lemma grid_term_range x m i : words x -> 0 <= grid_term x m i <= 67108864.
Proof.
  intros Hw. pose proof (aget_word x (m + 3 * i) Hw) as Hx. unfold grid_term, word in *.
  rewrite shr_div by lia. change (2 ^ 2) with 4.
  assert (-8192 <= x.[m + 3 * i] / 4 <= 8191) by divlia. nia.
Qed.

Lemma grid_fold x m idx a :
  words x -> 0 <= a -> a + 67108864 * Z.of_nat (length idx) <= 2147483647 ->
  fold_left (grid_STEP x m) idx a = a + grid_sum x m idx.
Proof.
  intros Hw. revert a. induction idx as [|i idx IH]; intros a Ha Hb.
  { unfold grid_sum. cbn. lia. }
  cbn [fold_left]. pose proof (grid_term_range x m i Hw) as Hr. cbn [length] in Hb.
  assert (grid_STEP x m a i = a + grid_term x m i) as ->.
  { unfold grid_STEP. cbv zeta. fold (grid_term x m i). apply s32_id. unfold longword. lia. }
  rewrite IH by lia. unfold grid_sum. cbn [map fold_right]. lia.
Qed.

Lemma grid_sum_range x m idx :
  words x -> 0 <= grid_sum x m idx <= 67108864 * Z.of_nat (length idx).
Proof.
  intros Hw. unfold grid_sum. induction idx as [|i idx IH]; cbn [map fold_right length]; [lia|].
  pose proof (grid_term_range x m i Hw). lia.
Qed.

(** The common part serves grids 0 and 3. *)
Lemma grid_common x :
  grid_sum x 0 (zseq 1 12) + grid_term x 0 0 = grid_energy x 0 /\
  grid_sum x 0 (zseq 1 12) + grid_term x 3 12 = grid_energy x 3.
Proof.
  unfold grid_energy, grid_sum.
  change (zseq 1 12) with [1; 2; 3; 4; 5; 6; 7; 8; 9; 10; 11; 12].
  change (zseq 0 13) with [0; 1; 2; 3; 4; 5; 6; 7; 8; 9; 10; 11; 12].
  cbn [map fold_right].
  assert (forall i, grid_term x 3 i = grid_term x 0 (i + 1)) as H3.
  { intros i. unfold grid_term. replace (0 + 3 * (i + 1)) with (3 + 3 * i) by lia. done. }
  rewrite !H3. repeat match goal with
  | |- context [grid_term x 0 (?k + 1)] =>
      let v := eval vm_compute in (k + 1) in change (k + 1) with v
  end. lia.
Qed.

Lemma grid_doubled x m L :
  words x -> L = grid_energy x m -> s32 (L << 1) = 2 * grid_energy x m.
Proof.
  intros Hw ->. pose proof (grid_sum_range x m (zseq 0 13) Hw) as Hr.
  unfold grid_energy. change (Z.of_nat (length (zseq 0 13))) with 13 in Hr.
  rewrite shl_mul by lia. change (2 ^ 1) with 2. rewrite s32_id by (unfold longword; lia). lia.
Qed.

(** The selection, with the energies in place of the partial sums. *)
Lemma grid_selection_eq x :
  words x ->
  let E m := 2 * grid_energy x m in
  let '(Mc, EM) := if E 0 <? E 1 then (1, E 1) else (0, E 0) in
  let '(Mc, EM) := if EM <? E 2 then (2, E 2) else (Mc, EM) in
  let '(Mc, EM) := if EM <? E 3 then (3, E 3) else (Mc, EM) in
  RPE_grid_selection x = (map (fun i => x.[Mc + 3 * i]) (zseq 0 13), Mc).
Proof.
  intros Hw E. unfold RPE_grid_selection. destruct (grid_common x) as [H0 H3].
  rewrite !grid_fold by (done || lia || (cbn; lia)). rewrite !Z.add_0_l.
  assert (forall m i, grid_STEP x m (grid_sum x 0 (zseq 1 12)) i =
    grid_sum x 0 (zseq 1 12) + grid_term x m i) as Hs.
  { intros m i. pose proof (grid_term_range x m i Hw).
    pose proof (grid_sum_range x 0 (zseq 1 12) Hw) as Hr.
    change (Z.of_nat (length (zseq 1 12))) with 12 in Hr.
    unfold grid_STEP. cbv zeta. fold (grid_term x m i). apply s32_id. unfold longword. lia. }
  rewrite !Hs, H0, H3. cbv zeta. fold (grid_energy x 1). fold (grid_energy x 2).
  rewrite !(grid_doubled x _ _ Hw eq_refl). fold (E 0) (E 1) (E 2) (E 3).
  destruct (E 0 <? E 1).
  - destruct (E 1 <? E 2); [destruct (E 2 <? E 3)|destruct (E 1 <? E 3)]; reflexivity.
  - destruct (E 0 <? E 2); [destruct (E 2 <? E 3)|destruct (E 0 <? E 3)]; reflexivity.
Qed.

(** The grid selection with its shared partial sums chooses what the
    specification's loop (the comment in the code) chooses: the first of the
    four grids whose energy is the largest, and the decimated samples are
    those of that grid. *)
Theorem grid_selection_maximal x :
  words x ->
  let '(xM, Mc) := RPE_grid_selection x in
  0 <= Mc <= 3 /\ xM = map (fun i => x.[Mc + 3 * i]) (zseq 0 13) /\
  (forall m, 0 <= m <= 3 -> grid_energy x m <= grid_energy x Mc) /\
  (forall m, 0 <= m < Mc -> grid_energy x m < grid_energy x Mc).
Proof.
  intros Hw. pose proof (grid_selection_eq x Hw) as H. cbv zeta in H.
  assert (forall m, 0 <= m <= 3 -> m = 0 \/ m = 1 \/ m = 2 \/ m = 3) as Hm by lia.
  repeat (case_if || destruct (RPE_grid_selection x) as [xM Mc]);
    injection H as -> ->; (split; [lia|]); (split; [done|]);
    (split; intros m Hr; destruct (Hm m ltac:(lia)) as [-> | [-> | [-> | ->]]]; lia).
Qed.

Lemma grid_selection_maximal_witness :
  let x := replicate 20 0 ++ [500] ++ replicate 19 0 in
  snd (RPE_grid_selection x) = 2 /\ grid_energy x 0 <= grid_energy x 2.
Proof.
  intros x. split; [vm_compute; reflexivity|].
  assert (words x) as Hw.
  { subst x. apply Forall_app_2; [apply Forall_replicate; unfold word; lia|].
    constructor; [unfold word; lia|]. apply Forall_replicate. unfold word. lia. }
  pose proof (grid_selection_maximal x Hw) as H.
  replace (RPE_grid_selection x) with (map (fun i => x.[2 + 3 * i]) (zseq 0 13), 2) in H
    by (vm_compute; reflexivity).
  destruct H as (_ & _ & H & _). apply H. lia.
Defined.

(** ** The entry points *)

Lemma weighting_words e : words (Weighting_filter e) /\ length (Weighting_filter e) = 40%nat.
Proof.
  split; [|done]. unfold Weighting_filter. apply Forall_map, Forall_forall. intros k _.
  unfold weighting_tap, word, MIN_WORD, MAX_WORD. cbv zeta. repeat case_if; lia.
Qed.

Lemma grid_selection_words x :
  words x -> exists xM Mc, RPE_grid_selection x = (xM, Mc) /\ 0 <= Mc <= 3 /\
    length xM = 13%nat /\ words xM.
Proof.
  intros Hw. pose proof (grid_selection_eq x Hw) as H. cbv zeta in H.
  assert (forall Mc, words (map (fun i => x.[Mc + 3 * i]) (zseq 0 13))) as Hx.
  { intros Mc. apply Forall_map, Forall_forall. intros i _. by apply aget_word. }
  repeat case_if; (do 2 eexists; split; [exact H|]);
    (split; [lia|]); (split; [reflexivity|apply Hx]).
Qed.

Lemma rpe_decoding_spec xmaxc Mc xMc :
  0 <= xmaxc < 64 -> 0 <= Mc <= 3 -> length xMc = 13%nat -> Forall (fun q => 0 <= q <= 7) xMc ->
  exists ep, Gsm_RPE_Decoding xmaxc Mc xMc = Some ep /\ length ep = 40%nat /\ words ep.
Proof.
  intros Hc HM Hl Hq. destruct (exp_mant_spec xmaxc Hc) as (exp & mant & Hem & He & Hm & _).
  destruct (apcm_inverse_spec xMc exp mant He Hm Hq) as (xMp & Hp & Hlp & Hw).
  destruct (positioning_spec Mc xMp HM ltac:(congruence)) as (ep & Hep & Hle & Hall).
  exists ep. unfold Gsm_RPE_Decoding. rewrite Hem. cbn [mbind option_bind].
  rewrite Hp. cbn [mbind option_bind]. split; [done|]. split; [done|].
  apply Hall; [unfold word; lia|done].
Qed.

Lemma rpe_encoding_spec e :
  exists ep xmaxc Mc xMc,
    Gsm_RPE_Encoding e = Some (take 5 e ++ ep ++ drop 45 e, xmaxc, Mc, xMc) /\
    0 <= xmaxc < 64 /\ 0 <= Mc <= 3 /\ length xMc = 13%nat /\ Forall (fun q => 0 <= q <= 7) xMc /\
    length ep = 40%nat /\ words ep /\ Gsm_RPE_Decoding xmaxc Mc xMc = Some ep.
Proof.
  destruct (weighting_words e) as [Hw _].
  destruct (grid_selection_words _ Hw) as (xM & Mc & Hsel & HM & HlM & HwM).
  destruct (apcm_quantization_spec xM HwM) as (xMc & mant & exp & xmaxc & Hq & Hc & Hem & Hl & H7).
  destruct (rpe_decoding_spec xmaxc Mc xMc Hc HM ltac:(congruence) H7) as (ep & Hd & Hle & Hwe).
  exists ep, xmaxc, Mc, xMc. unfold Gsm_RPE_Encoding. rewrite Hsel, Hq. cbn [mbind option_bind].
  pose proof Hd as Hd'. unfold Gsm_RPE_Decoding in Hd'. rewrite Hem in Hd'.
  cbn [mbind option_bind] in Hd'.
  destruct (APCM_inverse_quantization xMc mant exp) as [xMp|]; [|done].
  cbn [mbind option_bind] in *. rewrite Hd'. cbn [mbind option_bind].
  repeat (split; [first [done | congruence]|]). done.
Qed.

(** RPE coding never fails an assertion and loses nothing the decoder
    needs: for every residual the parameters fit their fields (6 bits of
    amplitude, 2 bits of grid, thirteen 3-bit samples), and decoding them
    gives exactly the reconstructed residual the encoder continues with,
    which it leaves in the subframe part of its array. *)
Theorem rpe_encoding_decodes e :
  exists ep xmaxc Mc xMc,
    Gsm_RPE_Encoding e = Some (take 5 e ++ ep ++ drop 45 e, xmaxc, Mc, xMc) /\
    0 <= xmaxc < 64 /\ 0 <= Mc <= 3 /\ length xMc = 13%nat /\ Forall (fun q => 0 <= q <= 7) xMc /\
    length ep = 40%nat /\ words ep /\ Gsm_RPE_Decoding xmaxc Mc xMc = Some ep.
Proof. apply rpe_encoding_spec. Qed.
