(* ===== verification/GsmShortTerm.v ===== *)
(** * GSM 06.10 short term filters: [gsm/short_term.c]

    Decoding and interpolation of the log area ratios, their conversion to
    reflection coefficients, and the two lattice filters.  The floating point
    variants ([FAST]) are not modelled.

    The main theorem: run with equal coefficients and memories, the synthesis
    filter undoes the analysis filter, bit for bit, as long as the analysis
    does not saturate. *)

From S2P Require Import Prelude GsmArith.

(** ** 4.2.8 Decoding of the coded log area ratios *)

Definition LAR_STEP (B MIC INVA LARc : Z) : Z :=
  let temp1 := s16 (GSM_ADD LARc MIC << 10) in
  let temp1 := GSM_SUB temp1 (B << 1) in
  let temp1 := s16 (GSM_MULT_R INVA temp1) in
  GSM_ADD temp1 temp1.

Definition Decoding_of_the_coded_Log_Area_Ratios (LARc : list Z) : list Z :=
  [LAR_STEP 0 (-32) 13107 LARc.[0]; LAR_STEP 0 (-32) 13107 LARc.[1];
   LAR_STEP 2048 (-16) 13107 LARc.[2]; LAR_STEP (-2560) (-16) 13107 LARc.[3];
   LAR_STEP 94 (-8) 19223 LARc.[4]; LAR_STEP (-1792) (-8) 17476 LARc.[5];
   LAR_STEP (-341) (-4) 31454 LARc.[6]; LAR_STEP (-1144) (-4) 29708 LARc.[7]].

(** ** 4.2.9 Interpolation and reflection coefficients *)

(** The [for (i = 1; i <= 8; i++)] loops over two arrays of 8 words. *)
Definition for8 (f : Z -> Z -> Z) (a b : list Z) : list Z :=
  map (fun i => f a.[Z.of_nat i] b.[Z.of_nat i]) (seq 0 8).

Definition Coefficients_0_12 : list Z -> list Z -> list Z :=
  for8 (fun p c => GSM_ADD (GSM_ADD (p >> 2) (c >> 2)) (p >> 1)).
Definition Coefficients_13_26 : list Z -> list Z -> list Z :=
  for8 (fun p c => GSM_ADD (p >> 1) (c >> 1)).
Definition Coefficients_27_39 : list Z -> list Z -> list Z :=
  for8 (fun p c => GSM_ADD (GSM_ADD (p >> 2) (c >> 2)) (c >> 1)).
Definition Coefficients_40_159 (LARpp_j : list Z) : list Z :=
  map (fun i => LARpp_j.[Z.of_nat i]) (seq 0 8).

Definition LAR_to_r (LARp : Z) : Z :=
  if LARp <? 0 then
    let temp := if LARp =? MIN_WORD then MAX_WORD else - LARp in
    s16 (- (if temp <? 11059 then temp << 1
            else if temp <? 20070 then temp + 11059 else GSM_ADD (temp >> 2) 26112))
  else
    let temp := LARp in
    s16 (if temp <? 11059 then temp << 1
         else if temp <? 20070 then temp + 11059 else GSM_ADD (temp >> 2) 26112).

Definition LARp_to_rp (LARp : list Z) : list Z := map LAR_to_r LARp.

(** ** 4.2.10 The analysis filter *)

(** The loop over the eight stages for one sample; the result is the final
    [di] and the new contents of [u]. *)
Fixpoint analysis_stages (rp u : list Z) (di sav : Z) : Z * list Z :=
  match rp, u with
  | rpi :: rp, ui :: u =>
      let zzz := s16 (GSM_MULT_R rpi di) in
      let sav' := GSM_ADD ui zzz in
      let zzz := s16 (GSM_MULT_R rpi ui) in
      let di := GSM_ADD di zzz in
      let '(d, u) := analysis_stages rp u di sav' in (d, sav :: u)
  | _, _ => (di, u)
  end.

Fixpoint Short_term_analysis_filtering (u rp s : list Z) : list Z * list Z :=
  match s with
  | [] => ([], u)
  | x :: s =>
      let '(d, u) := analysis_stages rp u x x in
      let '(ds, u) := Short_term_analysis_filtering u rp s in (d :: ds, u)
  end.

(** ** 4.3.3 The synthesis filter *)

(** The conditional expression for [gsm_mult_r], converted to [word]. *)
Definition synth_mult (tmp1 tmp2 : Z) : Z :=
  if (tmp1 =? MIN_WORD) && (tmp2 =? MIN_WORD) then MAX_WORD
  else s16 (0x0FFFF .& ((tmp1 * tmp2 + 16384) >> 15)).

(** [for (i = 8; i--;)] with [i] rounds left. *)
Fixpoint synthesis_stages (i : nat) (rrp v : list Z) (sri : Z) : Z * list Z :=
  match i with
  | O => (sri, v)
  | S i =>
      let k := Z.of_nat i in
      let tmp1 := rrp.[k] in
      let sri := GSM_SUB sri (synth_mult tmp1 v.[k]) in
      let tmp1 := synth_mult tmp1 sri in
      synthesis_stages i rrp (v.[k + 1 <- GSM_ADD v.[k] tmp1]) sri
  end.

Fixpoint Short_term_synthesis_filtering (v rrp wt : list Z) : list Z * list Z :=
  match wt with
  | [] => ([], v)
  | w :: wt =>
      let '(sri, v) := synthesis_stages 8 rrp v w in
      let v := v.[0 <- sri] in
      let '(sr, v) := Short_term_synthesis_filtering v rrp wt in (sri :: sr, v)
  end.

(** ** The two filters of a frame *)

(** The four coefficient sets, from the previous and the current ratios. *)
Definition frame_coefficients (LARpp_j_1 LARpp_j : list Z) : list (list Z) :=
  [LARp_to_rp (Coefficients_0_12 LARpp_j_1 LARpp_j);
   LARp_to_rp (Coefficients_13_26 LARpp_j_1 LARpp_j);
   LARp_to_rp (Coefficients_27_39 LARpp_j_1 LARpp_j);
   LARp_to_rp (Coefficients_40_159 LARpp_j)].

(** [FILTER] on the samples 0-12, 13-26, 27-39 and 40-159. *)
Definition four_segments (FILTER : list Z -> list Z -> list Z -> list Z * list Z)
    (mem : list Z) (rp : list (list Z)) (s : list Z) : list Z * list Z :=
  let '(s0, mem) := FILTER mem rp.[0] (take 13 s) in
  let '(s1, mem) := FILTER mem rp.[1] (take 14 (drop 13 s)) in
  let '(s2, mem) := FILTER mem rp.[2] (take 13 (drop 27 s)) in
  let '(s3, mem) := FILTER mem rp.[3] (take 120 (drop 40 s)) in
  (s0 ++ s1 ++ s2 ++ s3, mem).

(** The state of the ratios: the two arrays [LARpp] and the index [j]. *)
Record lar_state := { LARpp : list (list Z); lar_j : Z }.

Definition decode_LARs (LARc : list Z) (l : lar_state) : lar_state :=
  {| LARpp := (LARpp l).[lar_j l <- Decoding_of_the_coded_Log_Area_Ratios LARc];
     lar_j := lar_j l .^ 1 |}.

(** The coefficients after [decode_LARs]: index [j] now names the old array. *)
Definition current_coefficients (l : lar_state) : list (list Z) :=
  frame_coefficients (LARpp l).[lar_j l] (LARpp l).[lar_j l .^ 1].

Definition Gsm_Short_Term_Analysis_Filter (l : lar_state) (u LARc s : list Z) :
    list Z * list Z * lar_state :=
  let l := decode_LARs LARc l in
  let '(d, u) := four_segments Short_term_analysis_filtering u (current_coefficients l) s in
  (d, u, l).

Definition Gsm_Short_Term_Synthesis_Filter (l : lar_state) (v LARcr wt : list Z) :
    list Z * list Z * lar_state :=
  let l := decode_LARs LARcr l in
  let '(s, v) := four_segments Short_term_synthesis_filtering v (current_coefficients l) wt in
  (s, v, l).

(** ** Ranges *)

(** A coefficient for which the macro and the function agree. *)
Definition unit_coef (r : Z) : Prop := -32767 <= r <= 32767.

Lemma LAR_STEP_word B MIC INVA LARc : word (LAR_STEP B MIC INVA LARc).
Proof. unfold LAR_STEP. apply GSM_ADD_word; apply word_s16. Qed.

Lemma decoding_words LARc :
  words (Decoding_of_the_coded_Log_Area_Ratios LARc).
Proof. repeat (apply Forall_cons; [apply LAR_STEP_word|]). constructor. Qed.

Lemma for8_words f a b :
  (forall p c, word p -> word c -> word (f p c)) -> words a -> words b -> words (for8 f a b).
Proof. intros Hf Ha Hb. apply Forall_map, Forall_forall. intros i _. auto with cint. Qed.

Lemma LAR_to_r_unit x : word x -> unit_coef (LAR_to_r x).
Proof.
  intros Hx. unfold LAR_to_r, unit_coef, MIN_WORD, MAX_WORD.
  assert (forall t, 0 <= t <= 32767 ->
    0 <= (if t <? 11059 then t << 1
          else if t <? 20070 then t + 11059 else GSM_ADD (t >> 2) 26112) <= 32767) as H.
  { intros t Ht. rewrite shl_mul, shr_div by lia. change (2 ^ 1) with 2. change (2 ^ 2) with 4.
    repeat case_if; try lia.
    rewrite GSM_ADD_words by (unfold word; divlia).
    unfold saturate, MIN_WORD, MAX_WORD. repeat case_if; divlia. }
  unfold word in Hx. destruct (Z.ltb_spec x 0).
  - specialize (H (if x =? -32767 - 1 then 32767 else - x)
      ltac:(destruct (Z.eqb_spec x (-32767 - 1)); lia)).
    cbv zeta. rewrite s16_id by lia. lia.
  - specialize (H x ltac:(lia)). cbv zeta. rewrite s16_id by lia. lia.
Qed.

Lemma LARp_to_rp_unit l : words l -> Forall unit_coef (LARp_to_rp l).
Proof. intros Hw. apply Forall_map. revert Hw. apply Forall_impl, LAR_to_r_unit. Qed.

Definition coefs_ok (rp : list Z) : Prop := length rp = 8%nat /\ Forall unit_coef rp.

Lemma frame_coefficients_ok a b :
  words a -> words b -> Forall coefs_ok (frame_coefficients a b).
Proof.
  intros Ha Hb. unfold frame_coefficients.
  repeat (apply Forall_cons; [split; [reflexivity|apply LARp_to_rp_unit]|]); try done;
    try (apply for8_words; try done; auto 10 with cint).
  - intros p c Hp Hc. auto 10 with cint zarith.
  - intros p c Hp Hc. auto 10 with cint zarith.
  - intros p c Hp Hc. auto 10 with cint zarith.
  - apply Forall_map, Forall_forall. auto with cint.
Qed.

Lemma analysis_stages_words rp u di sav :
  words u -> word di -> word sav ->
  let '(d, u') := analysis_stages rp u di sav in
  word d /\ words u' /\ length u' = length u.
Proof.
  revert u di sav. induction rp as [|r rp IH]; intros u di sav Hu Hd Hs; cbn [analysis_stages].
  { done. }
  destruct u as [|ui u]; [done|]. apply Forall_cons_1 in Hu as [Hui Hu]. cbv zeta.
  specialize (IH u (GSM_ADD di (s16 (GSM_MULT_R r ui))) (GSM_ADD ui (s16 (GSM_MULT_R r di)))).
  destruct (analysis_stages rp u _ _) as [d u'].
  destruct IH as (? & ? & ?); [done|auto with cint..|].
  split; [done|]. split; [by constructor|cbn; congruence].
Qed.

Lemma analysis_words rp u s :
  words u -> words s ->
  let '(d, u') := Short_term_analysis_filtering u rp s in
  words d /\ length d = length s /\ words u' /\ length u' = length u.
Proof.
  intros Hu Hs. revert u Hu. induction Hs as [|x s Hx Hs IH]; intros u Hu;
    cbn [Short_term_analysis_filtering].
  { split; [constructor|done]. }
  pose proof (analysis_stages_words rp u x x Hu Hx Hx) as H.
  destruct (analysis_stages rp u x x) as [d u1]. destruct H as (Hd & Hu1 & Hl1).
  specialize (IH u1 Hu1). destruct (Short_term_analysis_filtering u1 rp s) as [ds u2].
  destruct IH as (? & ? & ? & ?). repeat split; try done; [by constructor|cbn; congruence|congruence].
Qed.

(** ** Synthesis undoes analysis *)

(** No addition of the signal path saturates. *)
Fixpoint stages_exact (rp u : list Z) (di sav : Z) : bool :=
  match rp, u with
  | rpi :: rp, ui :: u =>
      let zzz := s16 (GSM_MULT_R rpi ui) in
      (GSM_ADD di zzz =? di + zzz) &&
      stages_exact rp u (GSM_ADD di zzz) (GSM_ADD ui (s16 (GSM_MULT_R rpi di)))
  | _, _ => true
  end.

Fixpoint analysis_exact (u rp s : list Z) : bool :=
  match s with
  | [] => true
  | x :: s => stages_exact rp u x x && analysis_exact (snd (analysis_stages rp u x x)) rp s
  end.

(** What the last stage leaves in [sav]. *)
Fixpoint last_sav (rp u : list Z) (di sav : Z) : Z :=
  match rp, u with
  | rpi :: rp, ui :: u =>
      last_sav rp u (GSM_ADD di (s16 (GSM_MULT_R rpi ui))) (GSM_ADD ui (s16 (GSM_MULT_R rpi di)))
  | _, _ => sav
  end.

Lemma synth_mult_macro r x : unit_coef r -> synth_mult r x = s16 (GSM_MULT_R r x).
Proof.
  unfold synth_mult, unit_coef, MIN_WORD. intros Hr. destruct (Z.eqb_spec r (-32767 - 1)); [lia|].
  cbn [andb]. rewrite Z.land_comm. apply (s16_land_ffff (GSM_MULT_R r x)).
Qed.

Lemma GSM_SUB_undoes di z : word di -> GSM_SUB (di + z) z = di.
Proof.
  intros Hd. rewrite GSM_SUB_saturates. replace (di + z - z) with di by lia. by apply saturate_id.
Qed.

Lemma aget_app_mid (l1 l2 : list Z) x k :
  Z.of_nat (length l1) = k -> (l1 ++ x :: l2).[k] = x.
Proof.
  intros <-. apply aget_lookup; [lia|]. rewrite Nat2Z.id. by rewrite list_lookup_middle.
Qed.

Lemma aset_app_mid (l1 l2 : list Z) x y k :
  Z.of_nat (length l1) = k -> (l1 ++ x :: l2).[k <- y] = l1 ++ y :: l2.
Proof.
  intros <-. unfold aset. destruct (Z.ltb_spec (Z.of_nat (length l1)) 0); [lia|].
  rewrite Nat2Z.id. rewrite <- (Nat.add_0_r (length l1)) at 1. by rewrite insert_app_r.
Qed.

(** The synthesis stages above [length u1] undo the analysis stages of [rp2]
    and replace the memory they see by the analysis memory shifted by one. *)
Lemma synth_undo rp2 : forall rp1 u1 u2 w di sav,
  length rp1 = length u1 -> length rp2 = length u2 -> Forall unit_coef rp2 ->
  words u2 -> word di -> stages_exact rp2 u2 di sav = true ->
  let '(d, u') := analysis_stages rp2 u2 di sav in
  exists V, synthesis_stages (length rp1 + length rp2) (rp1 ++ rp2) (u1 ++ u2 ++ [w]) d =
    synthesis_stages (length rp1) (rp1 ++ rp2) (u1 ++ V) di /\
    match u2 with
    | [] => V = [w]
    | uk :: _ => V = uk :: tl u' ++ [last_sav rp2 u2 di sav]
    end.
Proof.
  induction rp2 as [|r rp2 IH]; intros rp1 u1 u2 w di sav Hl1 Hl2 Hr Hu Hd He.
  { destruct u2; [|done]. cbn. exists [w]. by rewrite Nat.add_0_r. }
  destruct u2 as [|uk u2]; [done|]. injection Hl2 as Hl2.
  apply Forall_cons_1 in Hr as [Hr0 Hr]. apply Forall_cons_1 in Hu as [Huk Hu].
  cbn [stages_exact] in He. apply andb_true_iff in He as [Hex He]. apply Z.eqb_eq in Hex.
  cbn [analysis_stages last_sav]. cbv zeta.
  set (di1 := GSM_ADD di (s16 (GSM_MULT_R r uk))) in *.
  set (sav1 := GSM_ADD uk (s16 (GSM_MULT_R r di))) in *.
  assert (word di1) as Hd1 by (subst di1; auto with cint).
  specialize (IH (rp1 ++ [r]) (u1 ++ [uk]) u2 w di1 sav1).
  destruct (analysis_stages rp2 u2 di1 sav1) as [d u''] eqn:Han.
  destruct IH as (V1 & HV & Hm); try done; [rewrite !length_app; cbn [length]; lia|].
  rewrite !length_app, <- !app_assoc in HV. cbn [length app] in HV.
  cbn [length tl].
  replace (length rp1 + S (length rp2))%nat with (length rp1 + 1 + length rp2)%nat by lia.
  rewrite <- app_comm_cons. rewrite HV. replace (length rp1 + 1)%nat with (S (length rp1)) by lia.
  cbn [synthesis_stages]. cbv zeta.
  rewrite !(aget_app_mid rp1 rp2) by done.
  rewrite !(aget_app_mid u1 V1 uk) by congruence.
  assert (GSM_SUB di1 (s16 (GSM_MULT_R r uk)) = di) as Hsub
    by (subst di1; rewrite Hex; by apply GSM_SUB_undoes).
  rewrite !synth_mult_macro, Hsub by done. fold sav1.
  assert (exists h V', V1 = h :: V' /\ sav1 :: V' = u'' ++ [last_sav rp2 u2 di1 sav1])
    as (h & V' & -> & HV').
  { destruct u2 as [|uk1 u2].
    - subst V1. destruct rp2; [|done]. cbn in Han. injection Han as <- <-. exists w, []. done.
    - destruct rp2 as [|r1 rp2]; [done|]. exists uk1, (tl u'' ++ [last_sav (r1 :: rp2) (uk1 :: u2) di1 sav1]).
      split; [done|]. cbn [analysis_stages] in Han. cbv zeta in Han.
      destruct (analysis_stages rp2 u2 _ _) as [d2 u2'']. injection Han as <- <-. done. }
  exists (uk :: sav1 :: V'). split; [|change (tl (sav :: u'')) with u''; by rewrite HV'].
  f_equal. change (u1 ++ uk :: h :: V') with (u1 ++ ([uk] ++ h :: V')).
  rewrite app_assoc. rewrite aset_app_mid by (rewrite length_app; cbn; lia).
  by rewrite <- app_assoc.
Qed.

Lemma analysis_stages_shape rp u di sav :
  length rp = length u -> (0 < length u)%nat ->
  snd (analysis_stages rp u di sav) = sav :: tl (snd (analysis_stages rp u di sav)).
Proof.
  intros Hl Hp. destruct u as [|ui u]; [cbn in Hp; lia|]. destruct rp as [|r rp]; [done|].
  cbn [analysis_stages]. cbv zeta. by destruct (analysis_stages rp u _ _).
Qed.

(** One sample. *)
Lemma synthesis_undoes_sample rp u w x :
  coefs_ok rp -> length u = 8%nat -> words u -> word x -> stages_exact rp u x x = true ->
  let '(d, u') := analysis_stages rp u x x in
  exists w', let '(sri, v) := synthesis_stages 8 rp (u ++ [w]) d in
    sri = x /\ v.[0 <- sri] = u' ++ [w'].
Proof.
  intros [Hlr Hr] Hl Hu Hx He.
  pose proof (synth_undo rp [] [] u w x x eq_refl ltac:(congruence) Hr Hu Hx He) as H.
  pose proof (analysis_stages_shape rp u x x ltac:(congruence) ltac:(lia)) as Hsh.
  destruct (analysis_stages rp u x x) as [d u']. cbn [snd] in Hsh.
  destruct H as (V & HV & Hm). cbn [length app Nat.add] in HV. rewrite Hlr in HV.
  exists (last_sav rp u x x). rewrite HV. cbn [synthesis_stages]. split; [done|].
  destruct u as [|uk u]; [done|]. subst V. rewrite Hsh at 2. done.
Qed.

Lemma synthesis_undoes_segment rp s : forall u w,
  coefs_ok rp -> length u = 8%nat -> words u -> words s -> analysis_exact u rp s = true ->
  let '(d, u') := Short_term_analysis_filtering u rp s in
  exists w', Short_term_synthesis_filtering (u ++ [w]) rp d = (s, u' ++ [w']).
Proof.
  induction s as [|x s IH]; intros u w Hr Hl Hu Hs He; cbn [Short_term_analysis_filtering].
  { by exists w. }
  apply Forall_cons_1 in Hs as [Hx Hs]. cbn [analysis_exact] in He.
  apply andb_true_iff in He as [He1 He2].
  pose proof (synthesis_undoes_sample rp u w x Hr Hl Hu Hx He1) as H1.
  pose proof (analysis_stages_words rp u x x Hu Hx Hx) as H2.
  destruct (analysis_stages rp u x x) as [d u1]. cbn [snd] in He2. destruct H2 as (_ & Hu1 & Hl1).
  destruct H1 as (w1 & H1). specialize (IH u1 w1 Hr ltac:(congruence) Hu1 Hs He2).
  destruct (Short_term_analysis_filtering u1 rp s) as [ds u2]. destruct IH as (w2 & IH).
  exists w2. cbn [Short_term_synthesis_filtering].
  destruct (synthesis_stages 8 rp (u ++ [w]) d) as [sri v]. destruct H1 as [-> ->].
  by rewrite IH.
Qed.

(** ** Whole frames *)

Definition lar_ok (l : lar_state) : Prop :=
  length (LARpp l) = 2%nat /\ Forall words (LARpp l) /\ (lar_j l = 0 \/ lar_j l = 1).

Lemma decode_LARs_ok LARc l : lar_ok l -> lar_ok (decode_LARs LARc l).
Proof.
  intros (Hl & Hw & Hj). split; [cbn; by rewrite length_aset|]. split.
  - cbn [decode_LARs LARpp]. apply (Forall_aset words (LARpp l)); [exact Hw|apply decoding_words].
  - cbn [decode_LARs lar_j]. destruct Hj as [-> | ->]; [by right|by left].
Qed.

Lemma current_coefficients_ok l : lar_ok l -> Forall coefs_ok (current_coefficients l).
Proof.
  intros (Hl & Hw & Hj). unfold current_coefficients. apply frame_coefficients_ok;
    (apply (aget_Forall_dflt words (LARpp l)); [exact Hw|apply Forall_nil_2]).
Qed.

Lemma coefficients_aget l i :
  lar_ok l -> 0 <= i < 4 -> coefs_ok (current_coefficients l).[i].
Proof. intros Hl Hi. apply aget_Forall; [by apply current_coefficients_ok|done]. Qed.

(** The segments the four calls of [FILTER] work on. *)
Definition segments (s : list Z) : list (list Z) :=
  [take 13 s; take 14 (drop 13 s); take 13 (drop 27 s); take 120 (drop 40 s)].

Lemma segments_join s :
  length s = 160%nat ->
  s = (segments s).[0] ++ (segments s).[1] ++ (segments s).[2] ++ (segments s).[3].
Proof.
  intros Hl. change (s = take 13 s ++ take 14 (drop 13 s) ++ take 13 (drop 27 s)
    ++ take 120 (drop 40 s)).
  rewrite (take_ge (drop 40 s)) by (rewrite length_drop; lia).
  rewrite <- (take_drop 13 s) at 1. f_equal. rewrite <- (take_drop 14 (drop 13 s)) at 1.
  f_equal. rewrite drop_drop. rewrite <- (take_drop 13 (drop (13 + 14) s)) at 1.
  by rewrite drop_drop.
Qed.

Lemma segments_of a b c d :
  length a = 13%nat -> length b = 14%nat -> length c = 13%nat -> length d = 120%nat ->
  segments (a ++ b ++ c ++ d) = [a; b; c; d].
Proof.
  intros Ha Hb Hc Hd. unfold segments.
  assert (drop 13 (a ++ b ++ c ++ d) = b ++ c ++ d) as E1 by (by rewrite <- Ha, drop_app_length).
  assert (drop 27 (a ++ b ++ c ++ d) = c ++ d) as E2.
  { change 27%nat with (13 + 14)%nat. rewrite <- drop_drop, E1. by rewrite <- Hb, drop_app_length. }
  assert (drop 40 (a ++ b ++ c ++ d) = d) as E3.
  { change 40%nat with (27 + 13)%nat. rewrite <- drop_drop, E2. by rewrite <- Hc, drop_app_length. }
  rewrite E1, E2, E3. rewrite (take_ge d) by lia.
  rewrite <- Ha at 1. rewrite take_app_length. rewrite <- Hb at 1. rewrite take_app_length.
  rewrite <- Hc at 1. by rewrite take_app_length.
Qed.

Lemma segments_words s i : words s -> words (segments s).[i].
Proof.
  intros Hs. apply aget_Forall_dflt; [|constructor].
  repeat (apply Forall_cons; [by repeat first [apply Forall_take | apply Forall_drop]|]).
  constructor.
Qed.

Lemma length_segments s :
  length s = 160%nat ->
  length (segments s).[0] = 13%nat /\ length (segments s).[1] = 14%nat /\
  length (segments s).[2] = 13%nat /\ length (segments s).[3] = 120%nat.
Proof.
  intros Hl.
  change (length (take 13 s) = 13%nat /\ length (take 14 (drop 13 s)) = 14%nat /\
    length (take 13 (drop 27 s)) = 13%nat /\ length (take 120 (drop 40 s)) = 120%nat).
  rewrite !length_take, !length_drop. lia.
Qed.

(** No saturation in the analysis of a frame. *)
Definition frame_exact (l : lar_state) (u s : list Z) : bool :=
  let rp := current_coefficients l in
  let sg := segments s in
  let u1 := snd (Short_term_analysis_filtering u rp.[0] sg.[0]) in
  let u2 := snd (Short_term_analysis_filtering u1 rp.[1] sg.[1]) in
  let u3 := snd (Short_term_analysis_filtering u2 rp.[2] sg.[2]) in
  analysis_exact u rp.[0] sg.[0] && analysis_exact u1 rp.[1] sg.[1] &&
  analysis_exact u2 rp.[2] sg.[2] && analysis_exact u3 rp.[3] sg.[3].

Lemma segment_step rp u w s n :
  coefs_ok rp -> length u = 8%nat -> words u -> words s -> length s = n ->
  analysis_exact u rp s = true ->
  exists d u' w', Short_term_analysis_filtering u rp s = (d, u') /\
    length d = n /\ words u' /\ length u' = 8%nat /\
    Short_term_synthesis_filtering (u ++ [w]) rp d = (s, u' ++ [w']).
Proof.
  intros Hr Hl Hu Hs Hn He.
  pose proof (analysis_words rp u s Hu Hs) as Hw.
  pose proof (synthesis_undoes_segment rp s u w Hr Hl Hu Hs He) as Hx.
  destruct (Short_term_analysis_filtering u rp s) as [d u'].
  destruct Hw as (_ & Hd & Hu' & Hl'), Hx as (w' & Hx).
  exists d, u', w'. repeat split; try done; congruence.
Qed.

(** The short term synthesis filter inverts the analysis filter: run on
    the residual of a frame with the same coded ratios, equal ratio memories
    and the analysis memory [u] (plus one unused word), it returns exactly the
    original 160 samples and keeps the memories equal, whenever no addition of
    the analysis signal path saturates. *)
Theorem synthesis_inverts_analysis l u w LARc s :
  lar_ok l -> length u = 8%nat -> words u -> length s = 160%nat -> words s ->
  frame_exact (decode_LARs LARc l) u s = true ->
  let '(d, u', l') := Gsm_Short_Term_Analysis_Filter l u LARc s in
  exists w', Gsm_Short_Term_Synthesis_Filter l (u ++ [w]) LARc d = (s, u' ++ [w'], l').
Proof.
  intros Hl0 Hlu Hu Hls Hs He.
  unfold Gsm_Short_Term_Analysis_Filter, Gsm_Short_Term_Synthesis_Filter.
  pose proof (decode_LARs_ok LARc l Hl0) as Hl. set (l1 := decode_LARs LARc l) in *. cbv zeta.
  unfold frame_exact in He. cbv zeta in He. unfold four_segments.
  set (rp := current_coefficients l1) in *.
  assert (forall i, 0 <= i < 4 -> coefs_ok rp.[i]) as Hrp by (intros; by apply coefficients_aget).
  change (take 13 s) with (segments s).[0]. change (take 14 (drop 13 s)) with (segments s).[1].
  change (take 13 (drop 27 s)) with (segments s).[2].
  change (take 120 (drop 40 s)) with (segments s).[3].
  destruct (length_segments s Hls) as (L0 & L1 & L2 & L3).
  apply andb_true_iff in He as [He He3]. apply andb_true_iff in He as [He He2].
  apply andb_true_iff in He as [He0 He1].
  pose proof (fun i => segments_words s i Hs) as Hsw.
  destruct (segment_step rp.[0] u w _ _ (Hrp 0 ltac:(lia)) Hlu Hu (Hsw 0) L0 He0)
    as (d0 & u1 & w1 & A0 & D0 & Hu1 & Hl1 & S0).
  rewrite A0 in *. cbn [snd] in *.
  destruct (segment_step rp.[1] u1 w1 _ _ (Hrp 1 ltac:(lia)) Hl1 Hu1 (Hsw 1) L1 He1)
    as (d1 & u2 & w2 & A1 & D1 & Hu2 & Hl2 & S1).
  rewrite A1 in *. cbn [snd] in *.
  destruct (segment_step rp.[2] u2 w2 _ _ (Hrp 2 ltac:(lia)) Hl2 Hu2 (Hsw 2) L2 He2)
    as (d2 & u3 & w3 & A2 & D2 & Hu3 & Hl3 & S2).
  rewrite A2 in *. cbn [snd] in *.
  destruct (segment_step rp.[3] u3 w3 _ _ (Hrp 3 ltac:(lia)) Hl3 Hu3 (Hsw 3) L3 He3)
    as (d3 & u4 & w4 & A3 & D3 & Hu4 & Hl4 & S3).
  rewrite A3. exists w4.
  pose proof (segments_of d0 d1 d2 d3 D0 D1 D2 D3) as Hsg. injection Hsg as E0 E1 E2 E3.
  rewrite E0, E1, E2, E3, S0, S1, S2, S3. by rewrite <- segments_join.
Qed.

(** A frame with a burst of speech at its start. *)
Definition sample_frame : list Z :=
  [100; -200; 300; -450; 1000; 900; -32; 7; 18; -3000; 4; 4000] ++ repeat 0 148.

Lemma synthesis_inverts_analysis_witness :
  let l := {| LARpp := [repeat 0 8; repeat 0 8]; lar_j := 0 |} in
  let '(d, u', l') := Gsm_Short_Term_Analysis_Filter l (repeat 0 8)
    [40; 30; 20; 12; 8; 9; 3; 4] sample_frame in
  exists w', Gsm_Short_Term_Synthesis_Filter l (repeat 0 8 ++ [0])
    [40; 30; 20; 12; 8; 9; 3; 4] d = (sample_frame, u' ++ [w'], l').
Proof.
  apply synthesis_inverts_analysis; [|reflexivity| |reflexivity| |vm_compute; reflexivity].
  - split; [reflexivity|]. split; [|by left].
    repeat (apply Forall_cons; [repeat (apply Forall_cons; [unfold word; lia|]); apply Forall_nil_2|]).
    apply Forall_nil_2.
  - repeat (apply Forall_cons; [unfold word; lia|]). apply Forall_nil_2.
  - unfold words, word. apply (bool_decide_unpack _). vm_compute. exact I.
Defined.

(** ** Words in, words out *)

Lemma four_segments_words FILTER (I : list Z -> Prop) mem rp s :
  (forall mem r x, I mem -> words x ->
     let '(o, mem') := FILTER mem r x in words o /\ length o = length x /\ I mem') ->
  I mem -> words s -> length s = 160%nat ->
  let '(o, mem') := four_segments FILTER mem rp s in words o /\ length o = 160%nat /\ I mem'.
Proof.
  intros HF HI Hs Hl. unfold four_segments.
  assert (forall n m, words (take n (drop m s))) as Hw
    by (intros n m; apply Forall_take; by apply Forall_drop).
  pose proof (HF mem rp.[0] (take 13 s) HI (Hw 13%nat 0%nat)) as H0.
  destruct (FILTER mem rp.[0] (take 13 s)) as [s0 m0]. destruct H0 as (W0 & L0 & I0).
  pose proof (HF m0 rp.[1] (take 14 (drop 13 s)) I0 (Hw 14%nat 13%nat)) as H1.
  destruct (FILTER m0 rp.[1] (take 14 (drop 13 s))) as [s1 m1]. destruct H1 as (W1 & L1 & I1).
  pose proof (HF m1 rp.[2] (take 13 (drop 27 s)) I1 (Hw 13%nat 27%nat)) as H2.
  destruct (FILTER m1 rp.[2] (take 13 (drop 27 s))) as [s2 m2]. destruct H2 as (W2 & L2 & I2).
  pose proof (HF m2 rp.[3] (take 120 (drop 40 s)) I2 (Hw 120%nat 40%nat)) as H3.
  destruct (FILTER m2 rp.[3] (take 120 (drop 40 s))) as [s3 m3]. destruct H3 as (W3 & L3 & I3).
  split; [repeat (apply Forall_app_2; [done|]); done|]. split; [|done].
  rewrite !length_app, L0, L1, L2, L3, !length_take, !length_drop. lia.
Qed.

Lemma analysis_filter_words l u LARc s :
  words u -> length u = 8%nat -> words s -> length s = 160%nat ->
  let '(d, u', l') := Gsm_Short_Term_Analysis_Filter l u LARc s in
  words d /\ length d = 160%nat /\ words u' /\ length u' = 8%nat /\ l' = decode_LARs LARc l.
Proof.
  intros Hu Hlu Hs Hls. unfold Gsm_Short_Term_Analysis_Filter. cbv zeta.
  set (rp := current_coefficients (decode_LARs LARc l)).
  pose proof (four_segments_words Short_term_analysis_filtering
    (fun u => words u /\ length u = 8%nat) u rp s) as H.
  destruct (four_segments Short_term_analysis_filtering u rp s) as [d u'].
  destruct H as (? & ? & ? & ?); [|done..].
  intros m r x [Hm Hlm] Hx. pose proof (analysis_words r m x Hm Hx) as Ha.
  destruct (Short_term_analysis_filtering m r x) as [o m']. destruct Ha as (? & ? & ? & ?).
  repeat split; try done; congruence.
Qed.

Lemma synthesis_stages_words i rrp v sri :
  words v -> word sri ->
  let '(x, v') := synthesis_stages i rrp v sri in word x /\ words v' /\ length v' = length v.
Proof.
  revert v sri. induction i as [|i IH]; intros v sri Hv Hs; cbn [synthesis_stages]; [done|].
  cbv zeta. set (k := Z.of_nat i). set (x1 := GSM_SUB sri _).
  specialize (IH v.[k + 1 <- GSM_ADD v.[k] (synth_mult rrp.[k] x1)] x1).
  destruct (synthesis_stages i rrp _ x1) as [x v']. destruct IH as (? & ? & Hl).
  - apply (Forall_aset word); [done|]. apply GSM_ADD_word; [auto with cint|].
    unfold synth_mult. case_if; [unfold MAX_WORD, word; lia|apply word_s16].
  - apply GSM_SUB_word.
  - rewrite length_aset in Hl. done.
Qed.

Lemma synthesis_words rrp wt v :
  words v -> words wt ->
  let '(s, v') := Short_term_synthesis_filtering v rrp wt in
  words s /\ length s = length wt /\ words v' /\ length v' = length v.
Proof.
  intros Hv Hw. revert v Hv. induction Hw as [|w wt Hx Hw IH]; intros v Hv;
    cbn [Short_term_synthesis_filtering].
  { split; [constructor|done]. }
  pose proof (synthesis_stages_words 8 rrp v w Hv Hx) as Hs.
  destruct (synthesis_stages 8 rrp v w) as [sri v1]. destruct Hs as (Hsr & Hv1 & Hl1).
  specialize (IH v1.[0 <- sri] (Forall_aset word v1 0 sri Hv1 Hsr)).
  destruct (Short_term_synthesis_filtering _ rrp wt) as [s v2]. destruct IH as (? & ? & ? & Hl2).
  rewrite length_aset in Hl2.
  repeat split; try done; [by constructor|cbn; congruence|congruence].
Qed.

Lemma synthesis_filter_words l v LARc wt :
  words v -> length v = 9%nat -> words wt -> length wt = 160%nat ->
  let '(s, v', l') := Gsm_Short_Term_Synthesis_Filter l v LARc wt in
  words s /\ length s = 160%nat /\ words v' /\ length v' = 9%nat /\ l' = decode_LARs LARc l.
Proof.
  intros Hv Hlv Hs Hls. unfold Gsm_Short_Term_Synthesis_Filter. cbv zeta.
  set (rp := current_coefficients (decode_LARs LARc l)).
  pose proof (four_segments_words Short_term_synthesis_filtering
    (fun v => words v /\ length v = 9%nat) v rp wt) as H.
  destruct (four_segments Short_term_synthesis_filtering v rp wt) as [d v'].
  destruct H as (? & ? & ? & ?); [|done..].
  intros m r x [Hm Hlm] Hx. pose proof (synthesis_words r x m Hm Hx) as Ha.
  destruct (Short_term_synthesis_filtering m r x) as [o m']. destruct Ha as (? & ? & ? & ?).
  repeat split; try done; congruence.
Qed.
