(* ===== verification/GsmLongTerm.v ===== *)
(** * GSM 06.10 long term predictor: [gsm/long_term.c]

    The integer search for the lag and the gain (the version without
    [USE_FLOAT_MUL], and its [LTP_CUT] variant), the analysis filter and the
    synthesis filter.  [dp] and [dpp] point into one array ([dp0] of the
    state, position [b]): the filters read [dp[-120..-1]] and write
    [dpp[0..39]] in the same array, as the caller passes them.

    The class [LtpParameters] is what the coder needs of the search; the two
    integer searches are instances, the floating point ones are not modelled. *)

From S2P Require Import Prelude GsmArith.

(** Tables 4.3a and 4.3b, [gsm/table.c]. *)
Definition gsm_DLB : list Z := [6554; 16384; 26214; 32767].
Definition gsm_QLB : list Z := [3277; 11469; 21299; 32767].

(** ** 4.2.11 Lag and gain *)

(** "Search of the optimum scaling": the shift for a maximum of [dmax]. *)
Definition ltp_scaling (dmax : Z) : option Z :=
  temp ← (if dmax =? 0 then Some 0
          else assert_ (0 <? dmax) ;; gsm_norm (s32 (dmax << 16)));
  let scal := if 6 <? temp then 0 else 6 - temp in
  assert_ (0 <=? scal) ;;
  Some scal.

(** One value of the cross-correlation: the forty [STEP]s. *)
Definition cross_correlation (wt dp0 : list Z) (b lambda : Z) : Z :=
  let STEP k := wt.[k] * dp0.[b + k - lambda] in
  fold_left (fun L_result k => s32 (L_result + STEP k)) (zseq 1 39) (STEP 0).

(** The body of the loop over [lambda], on [(L_max, Nc)]. *)
Definition lag_step (L_result : Z -> Z) (st : Z * Z) (lambda : Z) : Z * Z :=
  let '(L_max, Nc) := st in
  if L_max <? L_result lambda then (L_result lambda, lambda) else (L_max, Nc).

Definition lag_search (L_result : Z -> Z) : Z * Z :=
  fold_left (lag_step L_result) (zseq 40 81) (0, 40).

Definition ltp_power (dp0 : list Z) (b Nc : Z) : Z :=
  s32 (fold_left (fun L_power k =>
         let L_temp := dp0.[b + k - Nc] >> 3 in s32 (L_power + L_temp * L_temp))
       (zseq 0 40) 0 << 1).

(** [for (bc = 0; bc <= 2; bc++) if (R <= ...) break;] with [n] rounds left. *)
Fixpoint gain_loop (n : nat) (R S bc : Z) : Z :=
  match n with
  | O => bc
  | S n => if R <=? gsm_mult S gsm_DLB.[bc] then bc else gain_loop n R S (bc + 1)
  end.

(** From the doubling of [L_max] to the end of the function. *)
Definition code_lag_and_gain (dp0 : list Z) (b scal L_max Nc : Z) : option (Z * Z) :=
  let L_max := s32 (L_max << 1) in
  assert_ ((scal <=? 100) && (-100 <=? scal)) ;;
  let L_max := L_max >> (6 - scal) in
  assert_ ((Nc <=? 120) && (40 <=? Nc)) ;;
  let L_power := ltp_power dp0 b Nc in
  if L_max <=? 0 then Some (0, Nc)
  else if L_power <=? L_max then Some (3, Nc)
  else
    temp ← gsm_norm L_power;
    let R := s16 (s32 (L_max << temp) >> 16) in
    let S := s16 (s32 (L_power << temp) >> 16) in
    Some (gain_loop 3 R S 0, Nc).

(** The result is [(bc, Nc)]. *)
Definition Calculation_of_the_LTP_parameters (d dp0 : list Z) (b : Z) : option (Z * Z) :=
  scal ← ltp_scaling (max_abs d);
  let wt := map (fun x => x >> scal) d in
  let '(L_max, Nc) := lag_search (cross_correlation wt dp0 b) in
  code_lag_and_gain dp0 b scal L_max Nc.

(** [Cut_Calculation_of_the_LTP_parameters]: only the first sample of largest
    magnitude is correlated.  [best_k] is not initialized by the C code; the
    model takes the value it starts with as an argument. *)
Definition cut_step (d : list Z) (st : Z * Z) (k : Z) : Z * Z :=
  let '(dmax, best_k) := st in
  let temp := GSM_ABS d.[k] in
  if dmax <? temp then (temp, k) else (dmax, best_k).

Definition Cut_Calculation_of_the_LTP_parameters (best_k : Z) (d dp0 : list Z) (b : Z) :
    option (Z * Z) :=
  let '(dmax, best_k) := fold_left (cut_step d) (zseq 0 40) (0, best_k) in
  scal ← ltp_scaling dmax;
  let wt_k := d.[best_k] >> scal in
  let '(L_max, Nc) := lag_search (fun lambda => wt_k * dp0.[b + best_k - lambda]) in
  code_lag_and_gain dp0 b scal L_max Nc.

(** ** 4.2.12 The analysis filter *)

(** [STEP]: [dpp] is the array [dp0] at [b], [e] starts at index 5 of its array. *)
Definition LTA_STEP (BP Nc b : Z) (d dp0 e : list Z) : list Z * list Z :=
  fold_left (fun '(dp0, e) k =>
      let dp0 := dp0.[b + k <- s16 (GSM_MULT_R BP dp0.[b + k - Nc])] in
      (dp0, e.[5 + k <- GSM_SUB d.[k] dp0.[b + k]]))
    (zseq 0 40) (dp0, e).

Definition Long_term_analysis_filtering (bc Nc b : Z) (d dp0 e : list Z) : list Z * list Z :=
  match bc with
  | 0 => LTA_STEP 3277 Nc b d dp0 e
  | 1 => LTA_STEP 11469 Nc b d dp0 e
  | 2 => LTA_STEP 21299 Nc b d dp0 e
  | 3 => LTA_STEP 32767 Nc b d dp0 e
  | _ => (dp0, e)
  end.

(** [ltp] is the search the build selects.  Result: [dp0], [e], [Nc], [bc]. *)
Definition Gsm_Long_Term_Predictor (ltp : list Z -> list Z -> Z -> option (Z * Z))
    (d dp0 : list Z) (b : Z) (e : list Z) : option (list Z * list Z * Z * Z) :=
  '(bc, Nc) ← ltp d dp0 b;
  let '(dp0, e) := Long_term_analysis_filtering bc Nc b d dp0 e in
  Some (dp0, e, Nc, bc).

(** ** 4.3.2 The synthesis filter *)

(** [drp] is [dp0 + 120].  Result: the new [nrp] and [dp0]. *)
Definition Gsm_Long_Term_Synthesis_Filtering (nrp Ncr bcr : Z) (erp dp0 : list Z) :
    option (Z * list Z) :=
  let Nr := if (Ncr <? 40) || (120 <? Ncr) then nrp else Ncr in
  assert_ ((40 <=? Nr) && (Nr <=? 120)) ;;
  let brp := gsm_QLB.[bcr] in
  assert_ (negb (brp =? MIN_WORD)) ;;
  let dp0 := fold_left (fun dp0 k =>
    let drpp := s16 (GSM_MULT_R brp dp0.[120 + k - Nr]) in
    dp0.[120 + k <- GSM_ADD erp.[k] drpp]) (zseq 0 40) dp0 in
  let dp0 := fold_left (fun dp0 k => dp0.[k <- dp0.[40 + k]]) (zseq 0 120) dp0 in
  Some (Nr, dp0).

(** The loop of [Gsm_Coder] that updates the reconstructed residual. *)
Definition update_residual (b : Z) (e dp0 : list Z) : list Z :=
  fold_left (fun dp0 i => dp0.[b + i <- GSM_ADD e.[5 + i] dp0.[b + i]]) (zseq 0 40) dp0.

(** ** Loops that store into an array *)

Lemma zseq_S n k : zseq n (S k) = zseq n k ++ [Z.of_nat (n + k)].
Proof. unfold zseq. by rewrite seq_S, map_app. Qed.

Lemma words_get a : (forall i, word a.[i]) -> words a.
Proof.
  intros Ha. apply Forall_lookup_2. intros i x Hx. specialize (Ha (Z.of_nat i)).
  rewrite (aget_lookup a (Z.of_nat i) x) in Ha; [done|lia|by rewrite Nat2Z.id].
Qed.

(** [for (k = 0; k < n; k++) a[B + k] = F(a, k);] where [F] reads nothing the
    earlier rounds have written. *)
Lemma store_loop (F : list Z -> Z -> Z) (B : Z) (a : list Z) (n : nat) :
  0 <= B -> B + Z.of_nat n <= Z.of_nat (length a) ->
  (forall a' k, 0 <= k < Z.of_nat n ->
     (forall i, i < B \/ B + k <= i -> a'.[i] = a.[i]) -> F a' k = F a k) ->
  let r := fold_left (fun a k => a.[B + k <- F a k]) (zseq 0 n) a in
  length r = length a /\
  forall i, r.[i] = if (B <=? i) && (i <? B + Z.of_nat n) then F a (i - B) else a.[i].
Proof.
  intros HB. induction n as [|n IH]; intros Hn HF.
  { split; [done|]. intros i. destruct (Z.leb_spec B i), (Z.ltb_spec i (B + Z.of_nat 0));
      cbn [andb]; try done. lia. }
  destruct IH as [Hl Hg]; [lia|intros a' k Hk; apply HF; lia|].
  rewrite zseq_S, fold_left_app. cbn [fold_left Nat.add].
  set (r := fold_left _ (zseq 0 n) a) in *. cbv zeta. split; [by rewrite length_aset|].
  intros i. rewrite aget_aset by lia. rewrite (HF r); [|lia|].
  - destruct (Z.eqb_spec (B + Z.of_nat n) i) as [<-|Hi].
    + destruct (Z.leb_spec B (B + Z.of_nat n)), (Z.ltb_spec (B + Z.of_nat n) (B + Z.of_nat (S n)));
        cbn [andb]; try lia. f_equal. lia.
    + rewrite Hg. destruct (Z.leb_spec B i), (Z.ltb_spec i (B + Z.of_nat n)),
        (Z.ltb_spec i (B + Z.of_nat (S n))); cbn [andb]; try done; lia.
  - intros j Hj. rewrite Hg. destruct (Z.leb_spec B j), (Z.ltb_spec j (B + Z.of_nat n));
      cbn [andb]; try done; lia.
Qed.

(** The same with a second array that is given the stored values. *)
Lemma pair_loop (F : list Z -> Z -> Z) (G : Z -> Z -> Z) (B : Z) (a e : list Z) (n : nat) :
  0 <= B -> B + Z.of_nat n <= Z.of_nat (length a) ->
  (forall a' k, 0 <= k < Z.of_nat n ->
     (forall i, i < B \/ B + k <= i -> a'.[i] = a.[i]) -> F a' k = F a k) ->
  fold_left (fun '(a, e) k =>
      let a := a.[B + k <- F a k] in (a, e.[5 + k <- G k a.[B + k]])) (zseq 0 n) (a, e) =
  (fold_left (fun a k => a.[B + k <- F a k]) (zseq 0 n) a,
   fold_left (fun e k => e.[5 + k <- G k (F a k)]) (zseq 0 n) e).
Proof.
  intros HB. induction n as [|n IH]; intros Hn HF; [done|].
  rewrite zseq_S, !fold_left_app, IH; [|lia|intros a' k Hk; apply HF; lia].
  cbn [fold_left Nat.add].
  destruct (store_loop F B a n HB ltac:(lia)) as [Hl Hg]; [intros a' k Hk; apply HF; lia|].
  set (r := fold_left _ (zseq 0 n) a) in *. cbv zeta. f_equal.
  rewrite aget_aset_eq by lia. rewrite (HF r); [done|lia|].
  intros j Hj. rewrite Hg. destruct (Z.leb_spec B j), (Z.ltb_spec j (B + Z.of_nat n));
    cbn [andb]; try done; lia.
Qed.

(** ** The filters *)

(** The estimate of the residual from the reconstructed past. *)
Definition estimate (dp0 : list Z) (bc Nc i : Z) : Z :=
  s16 (GSM_MULT_R gsm_QLB.[bc] dp0.[i - Nc]).

(** The analysis filter stores the estimates at [b] and the differences in [e]. *)
Lemma analysis_filtering_spec bc Nc b d dp0 e :
  0 <= bc <= 3 -> 40 <= Nc -> 0 <= b -> b + 40 <= Z.of_nat (length dp0) -> length e = 50%nat ->
  let '(dp', e') := Long_term_analysis_filtering bc Nc b d dp0 e in
  length dp' = length dp0 /\ length e' = 50%nat /\
  (forall i, dp'.[i] = if (b <=? i) && (i <? b + 40) then estimate dp0 bc Nc i else dp0.[i]) /\
  (forall i, e'.[i] = if (5 <=? i) && (i <? 45)
     then GSM_SUB d.[i - 5] (estimate dp0 bc Nc (b + (i - 5))) else e.[i]).
Proof.
  intros Hbc HNc Hb Hl He.
  assert (Long_term_analysis_filtering bc Nc b d dp0 e = LTA_STEP gsm_QLB.[bc] Nc b d dp0 e) as ->.
  { assert (bc = 0 \/ bc = 1 \/ bc = 2 \/ bc = 3) as [-> | [-> | [-> | ->]]] by lia; reflexivity. }
  unfold LTA_STEP.
  set (F := fun (dp : list Z) k => s16 (GSM_MULT_R gsm_QLB.[bc] dp.[b + k - Nc])).
  assert (forall a' k, 0 <= k < Z.of_nat 40 ->
    (forall i, i < b \/ b + k <= i -> a'.[i] = dp0.[i]) -> F a' k = F dp0 k) as HF.
  { intros a' k Hk Ha. unfold F. rewrite Ha by lia. done. }
  rewrite (pair_loop F (fun k v => GSM_SUB d.[k] v) b dp0 e 40) by (done || lia).
  destruct (store_loop F b dp0 40 Hb ltac:(lia) HF) as [Hl' Hg].
  destruct (store_loop (fun _ k => GSM_SUB d.[k] (F dp0 k)) 5 e 40 ltac:(lia) ltac:(lia)
    ltac:(done)) as [Hle Hge].
  split; [exact Hl'|]. split; [congruence|]. change (Z.of_nat 40) with 40 in *. split.
  - intros i. rewrite Hg. unfold F, estimate. replace (b + (i - b) - Nc) with (i - Nc) by lia. done.
  - intros i. exact (Hge i).
Qed.

Lemma update_residual_spec b e dp0 :
  0 <= b -> b + 40 <= Z.of_nat (length dp0) ->
  length (update_residual b e dp0) = length dp0 /\
  forall i, (update_residual b e dp0).[i] =
    if (b <=? i) && (i <? b + 40) then GSM_ADD e.[5 + (i - b)] dp0.[i] else dp0.[i].
Proof.
  intros Hb Hl. unfold update_residual.
  destruct (store_loop (fun dp i => GSM_ADD e.[5 + i] dp.[b + i]) b dp0 40 Hb ltac:(lia)) as [H1 H2].
  { intros a' k Hk Ha. by rewrite Ha by lia. }
  split; [exact H1|]. intros i. rewrite H2. change (Z.of_nat 40) with 40.
  by replace (b + (i - b)) with i by lia.
Qed.

(** The synthesis filter appends forty words to the reconstructed residual and
    shifts the window of 120 words behind it. *)
Lemma synthesis_filtering_spec nrp Ncr bcr erp dp0 :
  0 <= bcr <= 3 -> 40 <= nrp <= 120 -> 160 <= Z.of_nat (length dp0) ->
  let Nr := if (Ncr <? 40) || (120 <? Ncr) then nrp else Ncr in
  let new i := if (120 <=? i) && (i <? 160)
    then GSM_ADD erp.[i - 120] (estimate dp0 bcr Nr i) else dp0.[i] in
  exists dp', Gsm_Long_Term_Synthesis_Filtering nrp Ncr bcr erp dp0 = Some (Nr, dp') /\
    length dp' = length dp0 /\
    forall i, dp'.[i] = if (0 <=? i) && (i <? 120) then new (i + 40) else new i.
Proof.
  intros Hbc Hn Hl Nr new. unfold Gsm_Long_Term_Synthesis_Filtering. fold Nr.
  assert (40 <= Nr <= 120) as HN.
  { unfold Nr. destruct (Z.ltb_spec Ncr 40), (Z.ltb_spec 120 Ncr); cbn [orb]; lia. }
  destruct (Z.leb_spec 40 Nr); [|lia]. destruct (Z.leb_spec Nr 120); [|lia].
  cbn [andb assert_ mbind option_bind]. cbv zeta.
  assert (negb (gsm_QLB.[bcr] =? MIN_WORD) = true) as ->.
  { assert (bcr = 0 \/ bcr = 1 \/ bcr = 2 \/ bcr = 3) as [-> | [-> | [-> | ->]]] by lia; reflexivity. }
  cbn [assert_ mbind option_bind].
  destruct (store_loop (fun dp k =>
    GSM_ADD erp.[k] (s16 (GSM_MULT_R gsm_QLB.[bcr] dp.[120 + k - Nr]))) 120 dp0 40
    ltac:(lia) ltac:(lia)) as [L1 G1].
  { intros a' k Hk Ha. by rewrite Ha by lia. }
  set (dp1 := fold_left _ (zseq 0 40) dp0) in *.
  destruct (store_loop (fun dp k => dp.[40 + k]) 0 dp1 120 ltac:(lia) ltac:(lia)) as [L2 G2].
  { intros a' k Hk Ha. apply Ha. lia. }
  eexists. split; [reflexivity|]. split; [rewrite <- L1; exact L2|].
  assert (forall i, dp1.[i] = new i) as Hnew.
  { intros i. rewrite G1. unfold new, estimate. change (120 + Z.of_nat 40) with 160.
    by replace (120 + (i - 120) - Nr) with (i - Nr) by lia. }
  intros i. rewrite <- !Hnew. etransitivity; [exact (G2 i)|]. change (0 + Z.of_nat 120) with 120.
  replace (40 + (i - 0)) with (i + 40) by lia. done.
Qed.

(** ** The search *)

Lemma lag_search_spec L :
  let '(L_max, Nc) := lag_search L in
  40 <= Nc <= 120 /\ 0 <= L_max /\ (forall lambda, 40 <= lambda <= 120 -> L lambda <= L_max) /\
  (L_max = 0 /\ Nc = 40 \/
   L_max = L Nc /\ 0 < L_max /\ forall lambda, 40 <= lambda < Nc -> L lambda < L_max).
Proof.
  unfold lag_search.
  assert (forall n, (n <= 81)%nat ->
    let '(L_max, Nc) := fold_left (lag_step L) (zseq 40 n) (0, 40) in
    40 <= Nc <= 120 /\ 0 <= L_max /\
    (forall lambda, 40 <= lambda < 40 + Z.of_nat n -> L lambda <= L_max) /\
    (L_max = 0 /\ Nc = 40 \/
     L_max = L Nc /\ 0 < L_max /\ forall lambda, 40 <= lambda < Nc -> L lambda < L_max)) as H.
  { induction n as [|n IH]; intros Hn; [cbn; repeat split; try lia; by left|].
    rewrite zseq_S, fold_left_app. specialize (IH ltac:(lia)).
    destruct (fold_left (lag_step L) (zseq 40 n) (0, 40)) as [m N].
    destruct IH as (HN & Hm & Hle & Hc). cbn [fold_left lag_step].
    replace (Z.of_nat (40 + n)) with (40 + Z.of_nat n) by lia.
    destruct (Z.ltb_spec m (L (40 + Z.of_nat n))).
    - split; [lia|]. split; [lia|]. split.
      + intros l Hl. destruct (Z.eq_dec l (40 + Z.of_nat n)) as [->|]; [lia|].
        specialize (Hle l ltac:(lia)). lia.
      + right. split; [done|]. split; [lia|]. intros l Hl. specialize (Hle l ltac:(lia)). lia.
    - split; [done|]. split; [done|]. split; [|exact Hc].
      intros l Hl. destruct (Z.eq_dec l (40 + Z.of_nat n)) as [->|]; [lia|]. apply Hle. lia. }
  specialize (H 81%nat ltac:(lia)). revert H.
  destruct (fold_left (lag_step L) (zseq 40 81) (0, 40)) as [m N].
  intros (? & ? & H & ?). repeat split; try done; try lia. intros l Hl. apply H. lia.
Qed.

(** The scaled residual has at most ten bits. *)
Lemma ltp_scaling_spec dmax :
  0 <= dmax <= 32767 ->
  exists scal, ltp_scaling dmax = Some scal /\ 0 <= scal <= 6 /\ dmax < 512 * 2 ^ scal.
Proof.
  intros Hd. unfold ltp_scaling. destruct (Z.eqb_spec dmax 0) as [->|Hne].
  { exists 6. split; [reflexivity|]. norm_pow. lia. }
  destruct (Z.ltb_spec 0 dmax); [|lia]. cbn [assert_ mbind option_bind].
  rewrite shl_mul, s32_id by (unfold longword; norm_pow; lia). norm_pow.
  destruct (gsm_norm_pos (dmax * 65536) ltac:(lia)) as (n & Hn & Hr & Hv).
  rewrite Hn. cbn [mbind option_bind]. cbv zeta.
  exists (if 6 <? n then 0 else 6 - n).
  assert (0 <= (if 6 <? n then 0 else 6 - n) <= 6) as Hs by (destruct (Z.ltb_spec 6 n); lia).
  destruct (Z.leb_spec 0 (if 6 <? n then 0 else 6 - n)); [|lia].
  cbn [assert_ mbind option_bind]. split; [done|]. split; [done|].
  assert (dmax * 2 ^ n < 32768) as Hv2 by lia.
  destruct (Z.ltb_spec 6 n).
  - change (2 ^ 0) with 1. assert (2 ^ 7 <= 2 ^ n) by (apply Z.pow_le_mono_r; lia).
    change (2 ^ 7) with 128 in *. nia.
  - assert (512 * 2 ^ (6 - n) * 2 ^ n = 32768) as E.
    { rewrite <- Z.mul_assoc, <- Z.pow_add_r by lia. by replace (6 - n + n) with 6 by lia. }
    apply (Z.mul_lt_mono_pos_r (2 ^ n)); [apply Z.pow_pos_nonneg; lia|lia].
Qed.

Lemma scaled_sample x dmax scal :
  word x -> GSM_ABS x <= dmax -> 0 <= scal <= 6 -> dmax < 512 * 2 ^ scal -> dmax <= 32767 ->
  -512 <= x >> scal <= 512.
Proof.
  intros Hx Ha Hs Hd Hm. rewrite shr_div by lia.
  assert (- (512 * 2 ^ scal) <= x < 512 * 2 ^ scal) as Hr.
  { unfold GSM_ABS, MIN_WORD, MAX_WORD, word in *. revert Ha.
    destruct (Z.ltb_spec x 0); [|lia]. destruct (Z.eqb_spec x (-32767 - 1)) as [->|]; [|lia].
    intros Ha. assert (scal = 0 \/ scal = 1 \/ scal = 2 \/ scal = 3 \/ scal = 4 \/ scal = 5 \/ scal = 6)
      as [-> | [-> | [-> | [-> | [-> | [-> | ->]]]]]] by lia; norm_pow; lia. }
  assert (0 < 2 ^ scal) by (apply Z.pow_pos_nonneg; lia).
  split; [apply Z.div_le_lower_bound; lia|].
  assert (x / 2 ^ scal < 512); [apply Z.div_lt_upper_bound; lia|lia].
Qed.

Lemma scaled_words d dmax scal :
  words d -> Forall (fun x => GSM_ABS x <= dmax) d -> 0 <= scal <= 6 -> dmax < 512 * 2 ^ scal ->
  dmax <= 32767 -> Forall (fun w => -512 <= w <= 512) (map (fun x => x >> scal) d).
Proof.
  intros Hd Ha Hs Hlt Hm. apply Forall_map, Forall_forall. intros x Hx.
  unfold words in Hd. rewrite Forall_forall in Hd, Ha.
  apply (scaled_sample x dmax); try done; [by apply Hd|by apply (Ha x)].
Qed.

(** The unbounded sums the code computes. *)
Definition correlation (wt dp0 : list Z) (b lambda : Z) : Z :=
  zsum (fun k => wt.[k] * dp0.[b + k - lambda]) (zseq 0 40).
Definition residual_power (dp0 : list Z) (b Nc : Z) : Z :=
  zsum (fun k => (dp0.[b + k - Nc] >> 3) * (dp0.[b + k - Nc] >> 3)) (zseq 0 40).

Lemma cross_correlation_exact wt dp0 b lambda :
  Forall (fun w => -512 <= w <= 512) wt -> words dp0 ->
  cross_correlation wt dp0 b lambda = correlation wt dp0 b lambda /\
  -671088640 <= correlation wt dp0 b lambda <= 671088640.
Proof.
  intros Hw Hdp. set (STEP := fun k => wt.[k] * dp0.[b + k - lambda]).
  assert (forall k, -16777216 <= STEP k <= 16777216) as HS.
  { intros k. assert (-512 <= wt.[k] <= 512)
      by (apply (aget_Forall_dflt (fun w => -512 <= w <= 512)); [done|unfold dflt, Default_Z; lia]).
    pose proof (aget_word dp0 (b + k - lambda) Hdp) as Hd. unfold word in Hd. unfold STEP. nia. }
  split.
  - change (fold_left (fun L k => s32 (L + STEP k)) (zseq 1 39) (STEP 0) =
      correlation wt dp0 b lambda).
    rewrite (fold_s32_sum STEP (zseq 1 39) 16777216 (STEP 0) HS); [done|].
    change (Z.of_nat (length (zseq 1 39))) with 39. specialize (HS 0). lia.
  - pose proof (zsum_bound STEP (zseq 0 40) 16777216 HS) as Hb.
    change (Z.of_nat (length (zseq 0 40))) with 40 in Hb. unfold correlation, STEP in *. lia.
Qed.

Lemma ltp_power_exact dp0 b Nc :
  words dp0 -> ltp_power dp0 b Nc = 2 * residual_power dp0 b Nc /\
  0 <= 2 * residual_power dp0 b Nc <= 1342177280.
Proof.
  intros Hdp. set (f := fun k => (dp0.[b + k - Nc] >> 3) * (dp0.[b + k - Nc] >> 3)).
  change (ltp_power dp0 b Nc) with (s32 (fold_left (fun L k => s32 (L + f k)) (zseq 0 40) 0 << 1)).
  change (residual_power dp0 b Nc) with (zsum f (zseq 0 40)).
  assert (forall k, 0 <= f k <= 16777216) as Hf.
  { intros k. pose proof (aget_word dp0 (b + k - Nc) Hdp) as Hd. unfold word in Hd. unfold f.
    rewrite shr_div by lia. change (2 ^ 3) with 8.
    assert (-4096 <= dp0.[b + k - Nc] / 8 <= 4095) by divlia. nia. }
  assert (forall k, -16777216 <= f k <= 16777216) as Hf' by (intros k; specialize (Hf k); lia).
  assert (0 <= zsum f (zseq 0 40)) as Hp.
  { generalize (zseq 0 40) as l. induction l as [|k l IH]; cbn [zsum fold_right]; [done|].
    fold (zsum f l). specialize (Hf k). lia. }
  pose proof (zsum_bound f (zseq 0 40) 16777216 Hf') as Hb.
  change (Z.of_nat (length (zseq 0 40))) with 40 in Hb.
  rewrite (fold_s32_sum f (zseq 0 40) 16777216 0 Hf')
    by (change (Z.of_nat (length (zseq 0 40))) with 40; lia).
  rewrite shl_mul by lia. change (2 ^ 1) with 2.
  rewrite s32_id by (unfold longword; lia). lia.
Qed.

Lemma gain_loop_range n R S bc :
  0 <= bc -> 0 <= gain_loop n R S bc <= bc + Z.of_nat n.
Proof.
  revert bc. induction n as [|n IH]; intros bc Hb; cbn [gain_loop]; [lia|].
  destruct (R <=? _); [lia|]. specialize (IH (bc + 1) ltac:(lia)). lia.
Qed.

Lemma code_lag_and_gain_spec dp0 b scal L_max Nc :
  words dp0 -> 0 <= scal <= 6 -> 0 <= L_max <= 1073741823 -> 40 <= Nc <= 120 ->
  exists bc, code_lag_and_gain dp0 b scal L_max Nc = Some (bc, Nc) /\ 0 <= bc <= 3 /\
    let G := (2 * L_max) >> (6 - scal) in
    (G <= 0 -> bc = 0) /\ (0 < G -> 2 * residual_power dp0 b Nc <= G -> bc = 3).
Proof.
  intros Hdp Hs HL HN. unfold code_lag_and_gain.
  rewrite shl_mul by lia. change (2 ^ 1) with 2. rewrite (Z.mul_comm L_max).
  rewrite s32_id by (unfold longword; lia).
  destruct (Z.leb_spec scal 100); [|lia]. destruct (Z.leb_spec (-100) scal); [|lia].
  destruct (Z.leb_spec Nc 120); [|lia]. destruct (Z.leb_spec 40 Nc); [|lia].
  cbn [andb assert_ mbind option_bind]. cbv zeta.
  destruct (ltp_power_exact dp0 b Nc Hdp) as [-> HP].
  set (G := (2 * L_max) >> (6 - scal)). set (P := 2 * residual_power dp0 b Nc) in *.
  destruct (Z.leb_spec G 0); [exists 0; split; [done|lia]|].
  destruct (Z.leb_spec P G); [exists 3; split; [done|lia]|].
  destruct (gsm_norm_pos P ltac:(lia)) as (n & -> & _). cbn [mbind option_bind].
  eexists. split; [reflexivity|]. split; [|lia].
  pose proof (gain_loop_range 3 (s16 (s32 (G << n) >> 16)) (s16 (s32 (P << n) >> 16)) 0 ltac:(lia)).
  lia.
Qed.

(** The lag search is exact: no 32-bit sum overflows and no assertion
    fails, the lag lies in 40 .. 120 and is the first that maximizes the true
    cross-correlation of the scaled residual with the reconstructed past (40
    when no correlation is positive), and the coded gain is 0 without positive
    correlation and 3 when the correlation reaches the power of the past. *)
Theorem ltp_lag_maximal d dp0 b :
  words d -> words dp0 ->
  exists scal bc Nc,
    ltp_scaling (max_abs d) = Some scal /\
    Calculation_of_the_LTP_parameters d dp0 b = Some (bc, Nc) /\
    0 <= bc <= 3 /\ 40 <= Nc <= 120 /\
    let C := correlation (map (fun x => x >> scal) d) dp0 b in
    (forall lambda, 40 <= lambda <= 120 -> C lambda <= Z.max 0 (C Nc)) /\
    (forall lambda, 40 <= lambda < Nc -> C lambda < C Nc) /\
    (C Nc <= 0 -> Nc = 40 /\ bc = 0) /\
    let G := (2 * C Nc) >> (6 - scal) in
    (0 < G -> 2 * residual_power dp0 b Nc <= G -> bc = 3).
Proof.
  intros Hd Hdp. destruct (max_abs_spec d Hd) as [Hm Hall].
  destruct (ltp_scaling_spec (max_abs d) Hm) as (scal & Hsc & Hs & Hlt).
  unfold Calculation_of_the_LTP_parameters. rewrite Hsc. cbn [mbind option_bind]. cbv zeta.
  set (wt := map (fun x => x >> scal) d).
  pose proof (scaled_words d (max_abs d) scal Hd Hall Hs Hlt ltac:(lia)) as Hwt. fold wt in Hwt.
  pose proof (fun l => cross_correlation_exact wt dp0 b l Hwt Hdp) as Hx.
  pose proof (lag_search_spec (cross_correlation wt dp0 b)) as Hsp.
  destruct (lag_search (cross_correlation wt dp0 b)) as [L_max Nc].
  destruct Hsp as (HN & HL0 & Hmax & Hcase).
  assert (L_max <= 671088640) as HLb by (destruct (Hx Nc); destruct Hcase as [[-> _]|(E & _)]; lia).
  destruct (code_lag_and_gain_spec dp0 b scal L_max Nc Hdp Hs ltac:(lia) HN) as (bc & Hc & Hbc & HG).
  exists scal, bc, Nc. split; [done|]. split; [done|]. split; [done|]. split; [done|].
  cbv zeta in HG |- *. destruct HG as [HG0 HG3].
  assert (forall l, correlation wt dp0 b l = cross_correlation wt dp0 b l) as HC
    by (intros l; by destruct (Hx l)).
  rewrite !HC. destruct Hcase as [[-> ->]|(E & Hpos & Hfirst)].
  - pose proof (Hmax 40 ltac:(lia)) as H40. split; [intros l Hl; rewrite HC; specialize (Hmax l Hl); lia|].
    split; [lia|]. split; [|intros Hg; exfalso].
    + intros _. split; [done|]. apply HG0. rewrite shr_div by lia. by rewrite Z.div_0_l by lia.
    + rewrite shr_div in Hg by lia. assert (0 < 2 ^ (6 - scal)) by (apply Z.pow_pos_nonneg; lia).
      pose proof (Z.div_le_mono (2 * cross_correlation wt dp0 b 40) 0 (2 ^ (6 - scal)) ltac:(lia)
        ltac:(lia)) as Hle. rewrite Z.div_0_l in Hle by lia. lia.
  - rewrite <- E. split; [intros l Hl; rewrite HC; specialize (Hmax l Hl); lia|].
    split; [intros l Hl; rewrite HC; by apply Hfirst|]. split; [lia|exact HG3].
Qed.

Lemma ltp_lag_maximal_witness :
  let d := repeat 0 10 ++ [300; -200; 100] ++ repeat 0 27 in
  let dp0 := repeat 0 60 ++ [600; -400; 200] ++ repeat 0 217 in
  exists scal bc Nc, Calculation_of_the_LTP_parameters d dp0 120 = Some (bc, Nc) /\
    ltp_scaling (max_abs d) = Some scal /\ Nc = 70.
Proof.
  intros d dp0.
  destruct (ltp_lag_maximal d dp0 120) as (scal & bc & Nc & Hs & Hc & _).
  - unfold words. apply (bool_decide_unpack _). vm_compute. exact I.
  - unfold words. apply (bool_decide_unpack _). vm_compute. exact I.
  - exists scal, bc, Nc. split; [exact Hc|]. split; [exact Hs|].
    assert (Calculation_of_the_LTP_parameters d dp0 120 = Some (1, 70)) as E
      by (vm_compute; reflexivity). congruence.
Defined.

(** ** What the coder needs of the search *)

(** Any search that never fails and returns a gain of two bits and a lag
    within the reconstructed past. *)
Class LtpParameters (ltp : list Z -> list Z -> Z -> option (Z * Z)) : Prop :=
  ltp_fits d dp0 b :
    length d = 40%nat -> words d -> words dp0 ->
    exists bc Nc, ltp d dp0 b = Some (bc, Nc) /\ 0 <= bc <= 3 /\ 40 <= Nc <= 120.

Lemma coded_fits L dp0 b scal :
  words dp0 -> 0 <= scal <= 6 -> (forall lambda, L lambda <= 671088640) ->
  exists bc Nc,
    (let '(L_max, Nc) := lag_search L in code_lag_and_gain dp0 b scal L_max Nc) = Some (bc, Nc) /\
    0 <= bc <= 3 /\ 40 <= Nc <= 120.
Proof.
  intros Hdp Hs HL. pose proof (lag_search_spec L) as Hsp.
  destruct (lag_search L) as [L_max Nc]. destruct Hsp as (HN & HL0 & _ & Hc).
  assert (L_max <= 671088640) by (destruct Hc as [[-> _]|(-> & _)]; [lia|apply HL]).
  destruct (code_lag_and_gain_spec dp0 b scal L_max Nc Hdp Hs ltac:(lia) HN) as (bc & Hbc & Hb & _).
  by exists bc, Nc.
Qed.

#[export] Instance Calculation_fits : LtpParameters Calculation_of_the_LTP_parameters.
Proof.
  intros d dp0 b _ Hd Hdp. destruct (max_abs_spec d Hd) as [Hm Hall].
  destruct (ltp_scaling_spec (max_abs d) Hm) as (scal & Hsc & Hs & Hlt).
  unfold Calculation_of_the_LTP_parameters. rewrite Hsc. cbn [mbind option_bind]. cbv zeta.
  apply coded_fits; [done|done|]. intros lambda.
  destruct (cross_correlation_exact (map (fun x => x >> scal) d) dp0 b lambda) as [-> ?]; [|done|lia].
  apply (scaled_words d (max_abs d)); try done; lia.
Qed.

Lemma cut_fold_spec d best n :
  length d = 40%nat -> words d -> (n <= 40)%nat ->
  let '(dmax, best_k) := fold_left (cut_step d) (zseq 0 n) (0, best) in
  0 <= dmax <= 32767 /\ forall k, 0 <= k < Z.of_nat n -> GSM_ABS d.[k] <= dmax.
Proof.
  intros Hl Hd. induction n as [|n IH]; intros Hn; [cbn; split; [lia|intros; lia]|].
  rewrite zseq_S, fold_left_app. specialize (IH ltac:(lia)).
  destruct (fold_left (cut_step d) (zseq 0 n) (0, best)) as [dmax best_k].
  destruct IH as [Hr Hk]. cbn [fold_left cut_step Nat.add].
  pose proof (GSM_ABS_range d.[Z.of_nat n] (aget_word _ _ Hd)) as Ha. cbv zeta.
  destruct (Z.ltb_spec dmax (GSM_ABS d.[Z.of_nat n])); (split; [lia|]); intros k Hkr;
    (destruct (Z.eq_dec k (Z.of_nat n)) as [->|]; [lia|]); specialize (Hk k ltac:(lia)); lia.
Qed.

#[export] Instance Cut_Calculation_fits best_k :
  LtpParameters (Cut_Calculation_of_the_LTP_parameters best_k).
Proof.
  intros d dp0 b Hl Hd Hdp. unfold Cut_Calculation_of_the_LTP_parameters.
  pose proof (cut_fold_spec d best_k 40 Hl Hd ltac:(lia)) as Hf.
  destruct (fold_left (cut_step d) (zseq 0 40) (0, best_k)) as [dmax best].
  destruct Hf as [Hr Hk]. destruct (ltp_scaling_spec dmax Hr) as (scal & -> & Hs & Hlt).
  cbn [mbind option_bind]. cbv zeta. apply coded_fits; [done|done|]. intros lambda.
  assert (GSM_ABS d.[best] <= dmax) as Ha.
  { destruct (decide (0 <= best < 40)) as [Hb|Hb]; [by apply Hk|].
    unfold aget. destruct (Z.ltb_spec best 0); [change (0 <= dmax); lia|].
    rewrite lookup_ge_None_2 by lia. change (0 <= dmax). lia. }
  pose proof (scaled_sample d.[best] dmax scal (aget_word _ _ Hd) Ha Hs Hlt ltac:(lia)) as Hw.
  pose proof (aget_word dp0 (b + best - lambda) Hdp) as Hp. unfold word in Hp. nia.
Qed.

(** ** The synthesis filter inverts the analysis filter *)

(** Given the long term residual itself (before RPE quantization), the
    synthesis filter restores the short term residual exactly and then sees
    the same past, one subframe later, whenever the difference does not
    saturate and the windows of the two sides agree. *)
Theorem ltp_synthesis_inverts nrp bc Nc b d enc e dec :
  0 <= bc <= 3 -> 40 <= Nc <= 120 -> 40 <= nrp <= 120 ->
  120 <= b -> b + 40 <= Z.of_nat (length enc) -> length e = 50%nat ->
  160 <= Z.of_nat (length dec) ->
  (forall i, 0 <= i < 120 -> dec.[i] = enc.[b - 120 + i]) ->
  (forall k, 0 <= k < 40 -> word d.[k] /\ word (d.[k] - estimate enc bc Nc (b + k))) ->
  let '(enc', e') := Long_term_analysis_filtering bc Nc b d enc e in
  exists dec', Gsm_Long_Term_Synthesis_Filtering nrp Nc bc (drop 5 e') dec = Some (Nc, dec') /\
    (forall k, 0 <= k < 40 -> dec'.[120 + k] = d.[k]) /\
    (forall i, 0 <= i < 80 -> dec'.[i] = enc.[b - 80 + i]) /\
    (forall i, 80 <= i < 120 -> dec'.[i] = d.[i - 80]).
Proof.
  intros Hbc HN Hnrp Hb Hl He Hld Hwin Hd.
  pose proof (analysis_filtering_spec bc Nc b d enc e Hbc ltac:(lia) ltac:(lia) Hl He) as Ha.
  destruct (Long_term_analysis_filtering bc Nc b d enc e) as [enc' e'].
  destruct Ha as (_ & Hle & _ & He').
  destruct (synthesis_filtering_spec nrp Nc bc (drop 5 e') dec Hbc Hnrp Hld) as (dec' & Hs & _ & Hg).
  destruct (Z.ltb_spec Nc 40); [lia|]. destruct (Z.ltb_spec 120 Nc); [lia|]. cbn [orb] in *.
  exists dec'. split; [exact Hs|].
  set (new := fun i => if (120 <=? i) && (i <? 160)
    then GSM_ADD (drop 5 e').[i - 120] (estimate dec bc Nc i) else dec.[i]) in *.
  assert (forall k, 0 <= k < 40 -> new (120 + k) = d.[k]) as Hnew.
  { intros k Hk. unfold new. destruct (Z.leb_spec 120 (120 + k)); [|lia].
    destruct (Z.ltb_spec (120 + k) 160); [|lia]. cbn [andb].
    destruct (Hd k Hk) as [Hdk Hdiff].
    assert (estimate dec bc Nc (120 + k) = estimate enc bc Nc (b + k)) as ->.
    { unfold estimate. rewrite Hwin by lia.
      by replace (b - 120 + (120 + k - Nc)) with (b + k - Nc) by lia. }
    assert ((drop 5 e').[120 + k - 120] = e'.[5 + k]) as ->.
    { unfold aget. destruct (Z.ltb_spec (120 + k - 120) 0); [lia|].
      destruct (Z.ltb_spec (5 + k) 0); [lia|]. rewrite lookup_drop. do 2 f_equal. lia. }
    rewrite He'. destruct (Z.leb_spec 5 (5 + k)); [|lia]. destruct (Z.ltb_spec (5 + k) 45); [|lia].
    cbn [andb]. replace (5 + k - 5) with k by lia.
    rewrite GSM_SUB_saturates, saturate_id by done.
    assert (word (estimate enc bc Nc (b + k))) by apply word_s16.
    rewrite GSM_ADD_words by done. rewrite saturate_id; [lia|].
    replace (d.[k] - _ + _) with d.[k] by lia. done. }
  split; [|split].
  - intros k Hk. rewrite Hg. destruct (Z.leb_spec 0 (120 + k)); [|lia].
    destruct (Z.ltb_spec (120 + k) 120); [lia|]. by apply Hnew.
  - intros i Hi. rewrite Hg. destruct (Z.leb_spec 0 i); [|lia]. destruct (Z.ltb_spec i 120); [|lia].
    cbn [andb]. unfold new. destruct (Z.leb_spec 120 (i + 40)); [lia|]. cbn [andb].
    rewrite Hwin by lia. f_equal. lia.
  - intros i Hi. rewrite Hg. destruct (Z.leb_spec 0 i); [|lia]. destruct (Z.ltb_spec i 120); [|lia].
    cbn [andb]. replace (i + 40) with (120 + (i - 80)) by lia. apply Hnew. lia.
Qed.

(** A decaying past and a small residual. *)
Definition sample_past : list Z := map (fun k => 3000 - 20 * k) (zseq 0 120).

Lemma ltp_synthesis_inverts_witness :
  exists dec', Gsm_Long_Term_Synthesis_Filtering 40 57 2
    (drop 5 (snd (Long_term_analysis_filtering 2 57 120 (repeat 7 40) (sample_past ++ repeat 0 160)
       (repeat 0 50)))) (sample_past ++ repeat 0 40) = Some (57, dec') /\ dec'.[139] = 7.
Proof.
  pose proof (ltp_synthesis_inverts 40 2 57 120 (repeat 7 40) (sample_past ++ repeat 0 160)
    (repeat 0 50) (sample_past ++ repeat 0 40) ltac:(lia) ltac:(lia) ltac:(lia) ltac:(lia)
    ltac:(vm_compute; discriminate) eq_refl ltac:(vm_compute; discriminate)) as H.
  destruct (Long_term_analysis_filtering 2 57 120 (repeat 7 40) (sample_past ++ repeat 0 160)
    (repeat 0 50)) as [enc' e'].
  destruct H as (dec' & Hs & Hd & _).
  - intros i Hi. apply (all_below_decide 120 (fun i => (sample_past ++ repeat 0 40).[i] =
      (sample_past ++ repeat 0 160).[120 - 120 + i])); [vm_compute; reflexivity|lia].
  - intros k Hk. apply (all_below_decide 40 (fun k => word (repeat 7 40).[k] /\
      word ((repeat 7 40).[k] - estimate (sample_past ++ repeat 0 160) 2 57 (120 + k))));
      [vm_compute; reflexivity|lia].
  - exists dec'. split; [exact Hs|]. apply (Hd 19). lia.
Defined.
