(* ===== verification/GsmLpc.v ===== *)
(** * GSM 06.10 preprocessing and LPC analysis: [gsm/preprocess.c], [gsm/lpc.c]

    Offset compensation and preemphasis of a frame, and the chain from its
    samples to the coded log area ratios: autocorrelation, Schur recursion,
    log area ratios, quantization.  The integer autocorrelation is modelled;
    the class [Autocorrelator] is what the rest of the chain needs of it, so
    that its theorems also hold for the floating point variants. *)

From S2P Require Import Prelude GsmArith GsmFrame GsmShortTerm.

(** ** 4.2.0 .. 4.2.3 Preprocessing *)

(** The fields of [gsm_state] the function keeps: [z1], [L_z2], [mp]. *)
Record preprocess_state := { z1 : Z; L_z2 : Z; mp : Z }.

(** One round of the loop; the result is the output sample. *)
Definition preprocess_sample (p : preprocess_state) (s : Z) : option (preprocess_state * Z) :=
  let SO := s16 ((s >> 3) << 2) in
  assert_ (-0x4000 <=? SO) ;;
  assert_ (SO <=? 0x3FFC) ;;
  let s1 := s16 (SO - z1 p) in
  assert_ (negb (s1 =? MIN_WORD)) ;;
  let L_s2 := s32 (s1 << 15) in
  let msp := s16 (L_z2 p >> 15) in
  let lsp := s16 (L_z2 p - (msp << 15)) in
  let L_s2 := s32 (L_s2 + GSM_MULT_R lsp 32735) in
  let L_temp := s32 (msp * 32735) in
  let L_z2' := GSM_L_ADD L_temp L_s2 in
  let L_temp := GSM_L_ADD L_z2' 16384 in
  let msp := s16 (GSM_MULT_R (mp p) (-28180)) in
  let mp' := L_temp >> 15 in
  Some ({| z1 := SO; L_z2 := L_z2'; mp := mp' |}, GSM_ADD mp' msp).

Fixpoint Gsm_Preprocess (p : preprocess_state) (s : list Z) :
    option (preprocess_state * list Z) :=
  match s with
  | [] => Some (p, [])
  | x :: s =>
      '(p, so) ← preprocess_sample p x;
      '(p, sos) ← Gsm_Preprocess p s;
      Some (p, so :: sos)
  end.

(** ** 4.2.4 Autocorrelation *)

(** The sum [STEP(k)] accumulates, over the samples [k .. 159]. *)
Definition acf_sum (s : list Z) (k : Z) : Z :=
  fold_left (fun L_ACF i => s32 (L_ACF + s.[i] * s.[i - k]))
    (zseq (Z.to_nat k) (160 - Z.to_nat k)) 0.

(** The result is [L_ACF] and the rescaled signal. *)
Definition Autocorrelation (s : list Z) : option (list Z * list Z) :=
  let smax := max_abs s in
  scalauto ← (if smax =? 0 then Some 0
              else assert_ (0 <? smax) ;; n ← gsm_norm (s32 (smax << 16)); Some (4 - n));
  let s := if (0 <? scalauto) && (scalauto <=? 4)
           then map (fun x => s16 (GSM_MULT_R x (16384 >> (scalauto - 1)))) s else s in
  let L_ACF := map (fun k => s32 (acf_sum s k << 1)) (zseq 0 9) in
  if 0 <? scalauto then
    assert_ (scalauto <=? 4) ;;
    Some (L_ACF, map (fun x => s16 (x << scalauto)) s)
  else Some (L_ACF, s).

(** ** 4.2.5 Reflection coefficients *)

(** The inner loop for [m = 1 .. 8 - n], [k] rounds left, on [(P, K)]. *)
Fixpoint schur_step (k : nat) (m r : Z) (P K : list Z) : list Z * list Z :=
  match k with
  | O => (P, K)
  | S k =>
      let temp := s16 (GSM_MULT_R K.[m] r) in
      let Pm := GSM_ADD P.[m + 1] temp in
      let temp := s16 (GSM_MULT_R P.[m + 1] r) in
      let Km := GSM_ADD K.[m] temp in
      schur_step k (m + 1) r P.[m <- Pm] K.[m <- Km]
  end.

(** The loop [for (n = 1; n <= 8; n++)] with [left] coefficients to write. *)
Fixpoint schur_loop (left : nat) (P K : list Z) : option (list Z) :=
  match left with
  | O => Some []
  | S rest =>
      let temp := GSM_ABS P.[1] in
      if P.[0] <? temp then Some (replicate left 0)
      else
        r ← gsm_div temp P.[0];
        assert_ (0 <=? r) ;;
        let r := if 0 <? P.[1] then s16 (- r) else r in
        assert_ (negb (r =? MIN_WORD)) ;;
        match rest with
        | O => Some [r]
        | _ =>
            let temp := s16 (GSM_MULT_R P.[1] r) in
            let P := P.[0 <- GSM_ADD P.[0] temp] in
            let '(P, K) := schur_step rest 1 r P K in
            rs ← schur_loop rest P K;
            Some (r :: rs)
        end
  end.

Definition Reflection_coefficients (L_ACF : list Z) : option (list Z) :=
  if L_ACF.[0] =? 0 then Some (replicate 8 0)
  else
    assert_ (negb (L_ACF.[0] =? 0)) ;;
    temp ← gsm_norm L_ACF.[0];
    assert_ ((0 <=? temp) && (temp <? 32)) ;;
    let ACF := map (fun i => s16 (s32 (L_ACF.[i] << temp) >> 16)) (zseq 0 9) in
    let K := map (fun i => if (1 <=? i) && (i <=? 7) then ACF.[i] else 0) (zseq 0 9) in
    schur_loop 8 ACF K.

(** ** 4.2.6 Log area ratios *)

Definition r_to_LAR (r : Z) : option Z :=
  let temp := GSM_ABS r in
  assert_ (0 <=? temp) ;;
  temp ← (if temp <? 22118 then Some (temp >> 1)
          else if temp <? 31130 then assert_ (11059 <=? temp) ;; Some (temp - 11059)
          else assert_ (26112 <=? temp) ;; Some (s16 ((temp - 26112) << 2)));
  let r := if r <? 0 then s16 (- temp) else temp in
  assert_ (negb (r =? MIN_WORD)) ;;
  Some r.

Definition Transformation_to_Log_Area_Ratios (r : list Z) : option (list Z) :=
  mapM r_to_LAR r.

(** ** 4.2.7 Quantization *)

Definition quantize_LAR (A B MAC MIC LAR : Z) : Z :=
  let temp := s16 (GSM_MULT A LAR) in
  let temp := GSM_ADD temp B in
  let temp := GSM_ADD temp 256 in
  let temp := temp >> 9 in
  if MAC <? temp then MAC - MIC else if temp <? MIC then 0 else temp - MIC.

Definition Quantization_and_coding (LAR : list Z) : list Z :=
  [quantize_LAR 20480 0 31 (-32) LAR.[0]; quantize_LAR 20480 0 31 (-32) LAR.[1];
   quantize_LAR 20480 2048 15 (-16) LAR.[2]; quantize_LAR 20480 (-2560) 15 (-16) LAR.[3];
   quantize_LAR 13964 94 7 (-8) LAR.[4]; quantize_LAR 15360 (-1792) 7 (-8) LAR.[5];
   quantize_LAR 8534 (-341) 3 (-4) LAR.[6]; quantize_LAR 9036 (-1144) 3 (-4) LAR.[7]].

(** [acf] is the autocorrelation the build selects.  Result: the coded ratios
    and the signal, which the autocorrelation rescales. *)
Definition Gsm_LPC_Analysis (acf : list Z -> option (list Z * list Z)) (s : list Z) :
    option (list Z * list Z) :=
  '(L_ACF, s) ← acf s;
  r ← Reflection_coefficients L_ACF;
  LAR ← Transformation_to_Log_Area_Ratios r;
  Some (Quantization_and_coding LAR, s).

(** ** Preprocessing computes the exact filters *)

(** The offset compensation and the preemphasis over the integers, every
    product rounded once and nothing wrapped or saturated but the output. *)
Definition exact_sample (p : preprocess_state) (s : Z) : preprocess_state * Z :=
  let SO := 4 * (s / 8) in
  let L_z2' := 32768 * (SO - z1 p) + (L_z2 p * 32735 + 16384) / 32768 in
  let mp' := (L_z2' + 16384) / 32768 in
  ({| z1 := SO; L_z2 := L_z2'; mp := mp' |}, saturate (mp' + (mp p * -28180 + 16384) / 32768)).

Fixpoint exact_preprocess (p : preprocess_state) (s : list Z) : preprocess_state * list Z :=
  match s with
  | [] => (p, [])
  | x :: s =>
      let '(p, so) := exact_sample p x in
      let '(p, sos) := exact_preprocess p s in (p, so :: sos)
  end.

(** What the filters' memory never exceeds.  The recursive part holds the
    previous sample, scaled, plus a decaying average of the samples. *)
Definition preprocess_ok (p : preprocess_state) : Prop :=
  -16384 <= z1 p <= 16380 /\
  -536740340 <= L_z2 p - 32768 * z1 p <= 536871412 /\
  word (mp p).

Lemma GSM_L_ADD_small a b :
  longword a -> longword b -> -2147483648 < a + b < 2147483647 -> GSM_L_ADD a b = a + b.
Proof.
  unfold longword, GSM_L_ADD, MIN_LONGWORD, MAX_LONGWORD. intros Ha Hb Hs. cbv zeta.
  repeat case_if; try lia; drop_u32; rewrite ?s32_id by (unfold longword; lia); lia.
Qed.

Lemma preprocess_sample_exact p s :
  preprocess_ok p -> word s ->
  preprocess_sample p s = Some (exact_sample p s) /\
  preprocess_ok (fst (exact_sample p s)) /\ word (snd (exact_sample p s)).
Proof.
  destruct p as [z l m]. unfold preprocess_ok, word. cbn [z1 L_z2 mp]. intros (Hz & Hl & Hm) Hs.
  assert (s16 ((s >> 3) << 2) = 4 * (s / 8)) as HSO.
  { rewrite shr_div, shl_mul by lia. change (2 ^ 3) with 8. change (2 ^ 2) with 4.
    rewrite s16_id by divlia. lia. }
  assert (-16384 <= 4 * (s / 8) <= 16380) as HSr by divlia.
  unfold preprocess_sample, exact_sample. cbn [z1 L_z2 mp]. rewrite HSO. clear HSO.
  generalize dependent (4 * (s / 8)). intros SO HS. clear s Hs.
  destruct (Z.leb_spec (-0x4000) SO); [|lia]. destruct (Z.leb_spec SO 0x3FFC); [|lia].
  cbn [assert_ mbind option_bind]. cbv zeta. rewrite (s16_id (SO - z)) by lia.
  destruct (Z.eqb_spec (SO - z) MIN_WORD) as [E|_]; [unfold MIN_WORD in E; lia|].
  cbn [negb assert_ mbind option_bind].
  assert (s16 (l >> 15) = l / 32768) as ->
    by (rewrite shr_div by lia; change (2 ^ 15) with 32768; apply s16_id; divlia).
  assert (s16 (l - (l / 32768 << 15)) = l mod 32768) as ->.
  { rewrite shl_mul by lia. change (2 ^ 15) with 32768. rewrite s16_id by divlia. divlia. }
  assert (s32 ((SO - z) << 15) = 32768 * (SO - z)) as ->.
  { rewrite shl_mul by lia. change (2 ^ 15) with 32768. rewrite s32_id by (unfold longword; lia). lia. }
  unfold GSM_MULT_R. rewrite !shr_div by lia. change (2 ^ 15) with 32768.
  assert (l / 32768 * 32735 + (l mod 32768 * 32735 + 16384) / 32768 =
          (l * 32735 + 16384) / 32768) as Hsplit by divlia.
  assert (0 <= (l mod 32768 * 32735 + 16384) / 32768 <= 32735) as Hq by divlia.
  assert (-32768 <= l / 32768 <= 32767) as Hh by divlia.
  rewrite (s32_id (32768 * (SO - z) + _)) by (unfold longword; lia).
  rewrite (s32_id (l / 32768 * 32735)) by (unfold longword; lia).
  rewrite (GSM_L_ADD_small (l / 32768 * 32735)) by (unfold longword; lia).
  replace (l / 32768 * 32735 + (32768 * (SO - z) + (l mod 32768 * 32735 + 16384) / 32768))
    with (32768 * (SO - z) + (l * 32735 + 16384) / 32768) by lia.
  clear Hsplit Hq Hh.
  assert (-536740340 <= 32768 * (SO - z) + (l * 32735 + 16384) / 32768 - 32768 * SO <= 536871412)
    as Hn by divlia.
  generalize dependent (32768 * (SO - z) + (l * 32735 + 16384) / 32768). intros L HL.
  rewrite GSM_L_ADD_small by (unfold longword; lia).
  rewrite (s16_id ((m * -28180 + 16384) / 32768)) by divlia.
  assert (-32768 <= (L + 16384) / 32768 <= 32767) as Hmp by divlia.
  rewrite GSM_ADD_words by (unfold word; divlia).
  split; [reflexivity|]. cbn [fst snd z1 L_z2 mp]. split; [|apply saturate_word].
  split; [lia|]. split; lia.
Qed.

Lemma preprocess_total p s :
  preprocess_ok p -> words s ->
  exists p' so, Gsm_Preprocess p s = Some (p', so) /\ (p', so) = exact_preprocess p s /\
    preprocess_ok p' /\ words so /\ length so = length s.
Proof.
  intros Hp Hs. revert p Hp. induction Hs as [|x s Hx Hs IH]; intros p Hp.
  { exists p, []. split; [done|]. split; [done|]. split; [done|]. split; [constructor|done]. }
  cbn [Gsm_Preprocess exact_preprocess].
  destruct (preprocess_sample_exact p x Hp Hx) as (-> & Hp1 & Hw).
  destruct (exact_sample p x) as [p1 so]. cbn [fst snd] in *. cbn [mbind option_bind].
  destruct (IH p1 Hp1) as (p2 & sos & -> & <- & Hp2 & Hws & Hl). cbn [mbind option_bind].
  exists p2, (so :: sos). split; [done|]. split; [done|]. split; [done|].
  split; [by constructor|cbn; congruence].
Qed.

(** Preprocessing is the exact integer filter: on 16-bit samples no
    assertion fails and no 32-bit operation saturates or wraps, and the split
    31 by 16 bit multiplication equals the rounded full product; the bound on
    the memory that makes this true is an invariant. *)
Theorem preprocess_exact p s :
  preprocess_ok p -> words s ->
  Gsm_Preprocess p s = Some (exact_preprocess p s) /\
  preprocess_ok (fst (exact_preprocess p s)) /\ words (snd (exact_preprocess p s)).
Proof.
  intros Hp Hs. destruct (preprocess_total p s Hp Hs) as (p' & so & -> & <- & Hp' & Hw & _). done.
Qed.

Lemma preprocess_exact_witness :
  Gsm_Preprocess {| z1 := 0; L_z2 := 0; mp := 0 |} [32767; -32768; 1000] =
    Some (exact_preprocess {| z1 := 0; L_z2 := 0; mp := 0 |} [32767; -32768; 1000]).
Proof.
  apply preprocess_exact.
  - split; [cbn; lia|]. split; [cbn; lia|]. unfold word. cbn. lia.
  - unfold words. apply (bool_decide_unpack _). vm_compute. exact I.
Defined.

(** ** Autocorrelation *)

Definition scaled_sum (s : list Z) (k : Z) : Z :=
  zsum (fun i => s.[i] * s.[i - k]) (zseq (Z.to_nat k) (160 - Z.to_nat k)).

Lemma acf_exact s k :
  Forall (fun x => -2048 <= x <= 2048) s ->
  s32 (acf_sum s k << 1) = 2 * scaled_sum s k /\ longword (2 * scaled_sum s k).
Proof.
  intros Hs. set (f := fun i => s.[i] * s.[i - k]).
  assert (forall i, -4194304 <= f i <= 4194304) as Hf.
  { assert (forall i, -2048 <= s.[i] <= 2048) as Hi
      by (intros i; apply (aget_Forall_dflt (fun x => -2048 <= x <= 2048));
          [done|unfold dflt, Default_Z; lia]).
    intros i. unfold f. pose proof (Hi i). pose proof (Hi (i - k)). nia. }
  set (l := zseq (Z.to_nat k) (160 - Z.to_nat k)).
  assert (0 <= Z.of_nat (length l) <= 160) as Hl by (unfold l, zseq; rewrite length_map, length_seq; lia).
  change (acf_sum s k) with (fold_left (fun L i => s32 (L + f i)) l 0).
  change (scaled_sum s k) with (zsum f l).
  rewrite (fold_s32_sum f l 4194304 0 Hf) by lia.
  pose proof (zsum_bound f l 4194304 Hf) as Hb.
  rewrite shl_mul by lia. change (2 ^ 1) with 2. unfold longword.
  rewrite s32_id by (unfold longword; lia). lia.
Qed.

(** The samples after the dynamic scaling by [2 ^ sc]. *)
Definition scale_down (sc : Z) (s : list Z) : list Z :=
  if sc =? 0 then s else map (fun x => (x + 2 ^ (sc - 1)) / 2 ^ sc) s.

Lemma scale_down_bound sc s m :
  0 <= sc <= 4 -> words s -> Forall (fun x => GSM_ABS x <= m) s -> m < 2048 * 2 ^ sc -> m <= 32767 ->
  Forall (fun x => -2048 <= x <= 2048) (scale_down sc s).
Proof.
  intros Hsc Hw Ha Hm Hm2. unfold scale_down.
  assert (forall x, word x -> GSM_ABS x <= m -> - (2048 * 2 ^ sc) <= x < 2048 * 2 ^ sc) as Hx.
  { intros x Hx. unfold GSM_ABS, MIN_WORD, MAX_WORD, word in *.
    destruct (Z.ltb_spec x 0); [|lia]. destruct (Z.eqb_spec x (-32767 - 1)) as [->|]; [|lia].
    intros Hax. assert (sc = 0 \/ sc = 1 \/ sc = 2 \/ sc = 3 \/ sc = 4)
      as [-> | [-> | [-> | [-> | ->]]]] by lia; norm_pow; change (2 ^ 0) with 1 in *; lia. }
  unfold words in Hw. rewrite Forall_forall in Hw, Ha. destruct (Z.eqb_spec sc 0) as [->|].
  - apply Forall_forall. intros x Hin. specialize (Hx x (Hw x Hin) (Ha x Hin)).
    change (2 ^ 0) with 1 in *. lia.
  - apply Forall_map, Forall_forall. intros x Hin. specialize (Hx x (Hw x Hin) (Ha x Hin)).
    assert (sc = 1 \/ sc = 2 \/ sc = 3 \/ sc = 4) as [-> | [-> | [-> | ->]]] by lia;
      norm_pow; change (1 - 1) with 0; change (2 - 1) with 1; change (3 - 1) with 2;
      change (4 - 1) with 3; norm_pow; change (2 ^ 0) with 1 in *; divlia.
Qed.

(** The scaling factor of the code. *)
Lemma scaling_factor smax :
  0 <= smax <= 32767 ->
  exists sc, (if smax =? 0 then Some 0
              else assert_ (0 <? smax) ;; n ← gsm_norm (s32 (smax << 16)); Some (4 - n)) = Some sc /\
    sc <= 4 /\ smax < 2048 * 2 ^ Z.max 0 sc.
Proof.
  intros Hs. destruct (Z.eqb_spec smax 0) as [->|Hne]; [exists 0; cbn; split; [done|norm_pow; change (2 ^ 0) with 1; lia]|].
  destruct (Z.ltb_spec 0 smax); [|lia]. cbn [assert_ mbind option_bind].
  rewrite shl_mul, s32_id by (unfold longword; norm_pow; lia). norm_pow.
  destruct (gsm_norm_pos (smax * 65536) ltac:(lia)) as (n & -> & Hr & Hv).
  cbn [mbind option_bind]. exists (4 - n). split; [done|]. split; [lia|].
  assert (smax * 2 ^ n < 32768) by lia.
  destruct (Z_le_gt_dec n 4).
  - rewrite Z.max_r by lia. assert (2048 * 2 ^ (4 - n) * 2 ^ n = 32768) as E.
    { rewrite <- Z.mul_assoc, <- Z.pow_add_r by lia. by replace (4 - n + n) with 4 by lia. }
    apply (Z.mul_lt_mono_pos_r (2 ^ n)); [apply Z.pow_pos_nonneg; lia|lia].
  - rewrite Z.max_l by lia. change (2 ^ 0) with 1.
    assert (2 ^ 5 <= 2 ^ n) by (apply Z.pow_le_mono_r; lia). change (2 ^ 5) with 32 in *. nia.
Qed.

Lemma scale_code sc x : 1 <= sc <= 4 -> word x ->
  s16 (GSM_MULT_R x (16384 >> (sc - 1))) = (x + 2 ^ (sc - 1)) / 2 ^ sc.
Proof.
  intros Hsc Hx. unfold word in Hx. unfold GSM_MULT_R.
  assert (sc = 1 \/ sc = 2 \/ sc = 3 \/ sc = 4) as [-> | [-> | [-> | ->]]] by lia;
    [change (16384 >> (1 - 1)) with 16384; change (2 ^ (1 - 1)) with 1
    |change (16384 >> (2 - 1)) with 8192; change (2 ^ (2 - 1)) with 2
    |change (16384 >> (3 - 1)) with 4096; change (2 ^ (3 - 1)) with 4
    |change (16384 >> (4 - 1)) with 2048; change (2 ^ (4 - 1)) with 8];
    rewrite shr_div by lia; norm_pow; rewrite s16_id by divlia; divlia.
Qed.

Lemma autocorrelation_value s :
  words s ->
  exists sc, 0 <= sc <= 4 /\ Forall (fun x => -2048 <= x <= 2048) (scale_down sc s) /\
    Autocorrelation s =
      Some (map (fun k => 2 * scaled_sum (scale_down sc s) k) (zseq 0 9),
            if sc =? 0 then s else map (fun x => s16 (x << sc)) (scale_down sc s)) /\
    Forall longword (map (fun k => 2 * scaled_sum (scale_down sc s) k) (zseq 0 9)).
Proof.
  intros Hw. destruct (max_abs_spec s Hw) as [Hm Hall].
  destruct (scaling_factor (max_abs s) Hm) as (sc & Hsc & Hle & Hlt).
  exists (Z.max 0 sc). split; [lia|].
  pose proof (scale_down_bound (Z.max 0 sc) s (max_abs s) ltac:(lia) Hw Hall Hlt ltac:(lia)) as Hb.
  split; [done|]. unfold Autocorrelation. rewrite Hsc. cbn [mbind option_bind]. cbv zeta.
  assert ((if (0 <? sc) && (sc <=? 4)
    then map (fun x => s16 (GSM_MULT_R x (16384 >> (sc - 1)))) s else s) = scale_down (Z.max 0 sc) s)
    as ->.
  { unfold scale_down. destruct (Z.ltb_spec 0 sc), (Z.leb_spec sc 4); cbn [andb]; try lia.
    - rewrite Z.max_r by lia. destruct (Z.eqb_spec sc 0); [lia|]. apply map_ext_in.
      intros x Hx. apply scale_code; [lia|]. unfold words in Hw. rewrite Forall_forall in Hw.
      by apply Hw.
    - by rewrite Z.max_l by lia. }
  set (s' := scale_down (Z.max 0 sc) s) in *.
  assert (map (fun k => s32 (acf_sum s' k << 1)) (zseq 0 9) =
          map (fun k => 2 * scaled_sum s' k) (zseq 0 9)) as ->.
  { apply map_ext. intros k. by destruct (acf_exact s' k Hb). }
  split.
  - destruct (Z.ltb_spec 0 sc); [|rewrite Z.max_l by lia; unfold s'; by rewrite Z.max_l by lia].
    destruct (Z.leb_spec sc 4); [|lia]. cbn [assert_ mbind option_bind].
    rewrite Z.max_r by lia. destruct (Z.eqb_spec sc 0); [lia|]. done.
  - apply Forall_map, Forall_forall. intros k _. by destruct (acf_exact s' k Hb).
Qed.

(** The autocorrelation is exact: no assertion fails and no 32-bit sum
    overflows, the nine outputs being twice the true sums of products of the
    signal scaled down to at most 2048 (rounded).  The signal is scaled back
    with a 16-bit shift, which does not saturate. *)
Theorem autocorrelation_exact s :
  words s ->
  exists sc, 0 <= sc <= 4 /\ Forall (fun x => -2048 <= x <= 2048) (scale_down sc s) /\
    Autocorrelation s =
      Some (map (fun k => 2 * scaled_sum (scale_down sc s) k) (zseq 0 9),
            if sc =? 0 then s else map (fun x => s16 (x << sc)) (scale_down sc s)).
Proof.
  intros Hw. destruct (autocorrelation_value s Hw) as (sc & H1 & H2 & H3 & _). by exists sc.
Qed.

Lemma autocorrelation_exact_witness :
  exists sc, Autocorrelation [32764; -5] =
    Some (map (fun k => 2 * scaled_sum (scale_down sc [32764; -5]) k) (zseq 0 9),
          if sc =? 0 then [32764; -5] else map (fun x => s16 (x << sc)) (scale_down sc [32764; -5])).
Proof.
  destruct (autocorrelation_exact [32764; -5]) as (sc & _ & _ & H).
  { repeat (apply Forall_cons; [unfold word; lia|]). apply Forall_nil_2. }
  by exists sc.
Defined.

(** A sample close to full scale changes its sign when it is scaled back. *)
Theorem rescaling_wraps :
  exists L, Autocorrelation [32764; -5] = Some (L, [-32768; 0]).
Proof. eexists. vm_compute. reflexivity. Qed.

(** What the LPC analysis needs of the autocorrelation. *)
Class Autocorrelator (acf : list Z -> option (list Z * list Z)) : Prop :=
  acf_total s : words s ->
    exists L s', acf s = Some (L, s') /\ Forall longword L /\ 0 <= L.[0] /\
      words s' /\ length s' = length s.

Lemma scaled_sum_energy s : 0 <= scaled_sum s 0.
Proof.
  unfold scaled_sum. generalize (zseq (Z.to_nat 0) (160 - Z.to_nat 0)) as l.
  induction l as [|k l IH]; cbn [zsum fold_right]; [done|].
  fold (zsum (fun i => s.[i] * s.[i - 0]) l). rewrite Z.sub_0_r. nia.
Qed.

#[export] Instance Autocorrelation_total : Autocorrelator Autocorrelation.
Proof.
  intros s Hw. destruct (autocorrelation_value s Hw) as (sc & Hsc & Hb & HA & HL).
  do 2 eexists. split; [exact HA|]. split; [exact HL|]. split.
  - change (0 <= 2 * scaled_sum (scale_down sc s) 0).
    pose proof (scaled_sum_energy (scale_down sc s)). lia.
  - destruct (Z.eqb_spec sc 0); [done|]. split.
    + apply Forall_map, Forall_forall. intros x _. apply word_s16.
    + unfold scale_down. destruct (Z.eqb_spec sc 0); [done|]. by rewrite !length_map.
Qed.

(** ** Reflection coefficients *)

Lemma schur_step_words k m r P K :
  words P -> words K ->
  words (fst (schur_step k m r P K)) /\ words (snd (schur_step k m r P K)).
Proof.
  revert m P K. induction k as [|k IH]; intros m P K HP HK; [done|].
  cbn [schur_step]. cbv zeta.
  apply IH; (apply (Forall_aset word); [done|]; auto with cint).
Qed.

Lemma schur_loop_total left P K :
  words P -> words K ->
  exists r, schur_loop left P K = Some r /\ length r = left /\ Forall unit_coef r.
Proof.
  revert P K. induction left as [|rest IH]; intros P K HP HK.
  { exists []. split; [done|]. split; [done|constructor]. }
  cbn [schur_loop]. cbv zeta.
  pose proof (GSM_ABS_range P.[1] (aget_word P 1 HP)) as Ha.
  destruct (Z.ltb_spec P.[0] (GSM_ABS P.[1])).
  { eexists. split; [done|]. split; [apply length_replicate|]. apply Forall_replicate.
    unfold unit_coef. lia. }
  pose proof (aget_word P 0 HP) as HP0.
  rewrite gsm_div_value by (try done; unfold word in *; lia). cbn [mbind option_bind].
  set (v := if GSM_ABS P.[1] =? 0 then 0 else _).
  assert (0 <= v <= 32767) as Hv.
  { unfold v, word in *. destruct (Z.eqb_spec (GSM_ABS P.[1]) 0); [lia|].
    assert (0 <= GSM_ABS P.[1] * 32768 / P.[0]) by (apply Z.div_pos; lia). lia. }
  destruct (Z.leb_spec 0 v); [|lia]. cbn [assert_ mbind option_bind].
  rewrite (s16_id (- v)) by lia.
  set (r := if 0 <? P.[1] then - v else v).
  assert (unit_coef r) as Hr by (unfold r, unit_coef; case_if; lia).
  destruct (Z.eqb_spec r MIN_WORD) as [E|_]; [unfold unit_coef, MIN_WORD in *; lia|].
  cbn [negb assert_ mbind option_bind].
  destruct rest as [|rest].
  { exists [r]. split; [done|]. split; [done|]. apply Forall_cons; [exact Hr|apply Forall_nil_2]. }
  set (P' := P.[0 <- _]).
  assert (words P') as HP' by (apply (Forall_aset word); [done|auto with cint]).
  destruct (schur_step_words (S rest) 1 r P' K HP' HK) as [H1 H2].
  destruct (schur_step (S rest) 1 r P' K) as [P1 K1]. cbn [fst snd] in *.
  destruct (IH P1 K1 H1 H2) as (rs & -> & Hl & Hu). cbn [mbind option_bind].
  exists (r :: rs). split; [done|]. split; [cbn; congruence|by constructor].
Qed.

#[local] Opaque schur_loop.

Lemma reflection_total L :
  Forall longword L -> 0 <= L.[0] ->
  exists r, Reflection_coefficients L = Some r /\ length r = 8%nat /\ Forall unit_coef r.
Proof.
  intros HL H0. unfold Reflection_coefficients. destruct (Z.eqb_spec L.[0] 0) as [|Hne].
  { eexists. split; [done|]. split; [done|]. apply Forall_replicate. unfold unit_coef. lia. }
  cbn [negb assert_ mbind option_bind].
  assert (longword L.[0]) as Hl0
    by (apply (aget_Forall_dflt longword); [done|unfold longword, dflt, Default_Z; lia]).
  destruct (gsm_norm_pos L.[0]) as (n & -> & Hn & _); [unfold longword in Hl0; lia|].
  cbn [mbind option_bind]. destruct (Z.leb_spec 0 n); [|lia]. destruct (Z.ltb_spec n 32); [|lia].
  cbn [andb assert_ mbind option_bind]. cbv zeta.
  set (ACF := map _ (zseq 0 9)).
  assert (words ACF) as HA by (apply Forall_map, Forall_forall; intros; apply word_s16).
  apply schur_loop_total; [done|]. apply Forall_map, Forall_forall. intros i _.
  case_if; [by apply aget_word|unfold word; lia].
Qed.

(** ** Log area ratios *)

(** The magnitude of a ratio, by segments, and the decoder's inverse. *)
Definition lar_segment (a : Z) : Z :=
  if a <? 22118 then a / 2 else if a <? 31130 then a - 11059 else (a - 26112) * 4.
Definition lar_unsegment (t : Z) : Z :=
  if t <? 11059 then t << 1 else if t <? 20070 then t + 11059 else GSM_ADD (t >> 2) 26112.

Lemma lar_unsegment_value t :
  0 <= t <= 26620 ->
  lar_unsegment t = if t <? 11059 then 2 * t else if t <? 20070 then t + 11059 else t / 4 + 26112.
Proof.
  intros Ht. unfold lar_unsegment. rewrite shl_mul, shr_div by lia.
  change (2 ^ 1) with 2. change (2 ^ 2) with 4.
  rewrite GSM_ADD_words by (unfold word; divlia). rewrite saturate_id by (unfold word; divlia).
  by rewrite Z.mul_comm.
Qed.

Lemma lar_segments a :
  0 <= a <= 32767 ->
  0 <= lar_segment a <= 26620 /\
  lar_unsegment (lar_segment a) = if a <? 22118 then 2 * (a / 2) else a.
Proof.
  intros Ha. assert (0 <= lar_segment a <= 26620) as Hs
    by (unfold lar_segment; repeat case_if; divlia).
  split; [done|]. rewrite lar_unsegment_value by done. unfold lar_segment.
  repeat case_if; divlia.
Qed.

Lemma LAR_to_r_sign t :
  0 <= t <= 26620 -> LAR_to_r t = lar_unsegment t /\ LAR_to_r (- t) = - lar_unsegment t.
Proof.
  intros Ht. pose proof (lar_unsegment_value t Ht) as Hv.
  assert (-32768 < lar_unsegment t <= 32767) as Hu
    by (rewrite Hv; repeat case_if; divlia).
  unfold LAR_to_r. cbv zeta. fold (lar_unsegment t). split.
  - destruct (Z.ltb_spec t 0); [lia|]. by rewrite s16_id by lia.
  - destruct (Z.ltb_spec (- t) 0).
    + unfold MIN_WORD. destruct (Z.eqb_spec (- t) (-32767 - 1)); [lia|].
      rewrite Z.opp_involutive. fold (lar_unsegment t). by rewrite s16_id by lia.
    + assert (t = 0) as -> by lia. reflexivity.
Qed.

Lemma r_to_LAR_segment r :
  unit_coef r ->
  r_to_LAR r = Some (if r <? 0 then - lar_segment (Z.abs r) else lar_segment (Z.abs r)).
Proof.
  unfold unit_coef. intros Hr. unfold r_to_LAR.
  assert (GSM_ABS r = Z.abs r) as ->
    by (unfold GSM_ABS, MIN_WORD, MAX_WORD; repeat case_if; lia).
  destruct (Z.leb_spec 0 (Z.abs r)); [|lia]. cbn [assert_ mbind option_bind].
  destruct (lar_segments (Z.abs r) ltac:(lia)) as [Ht _].
  assert ((if Z.abs r <? 22118 then Some (Z.abs r >> 1)
     else if Z.abs r <? 31130 then assert_ (11059 <=? Z.abs r) ;; Some (Z.abs r - 11059)
     else assert_ (26112 <=? Z.abs r) ;; Some (s16 ((Z.abs r - 26112) << 2))) =
    Some (lar_segment (Z.abs r))) as ->.
  { unfold lar_segment. destruct (Z.ltb_spec (Z.abs r) 22118); [by rewrite shr_div by lia|].
    destruct (Z.ltb_spec (Z.abs r) 31130).
    - destruct (Z.leb_spec 11059 (Z.abs r)); [done|lia].
    - destruct (Z.leb_spec 26112 (Z.abs r)); [|lia]. cbn [assert_ mbind option_bind].
      rewrite shl_mul by lia. change (2 ^ 2) with 4. by rewrite s16_id by lia. }
  cbn [mbind option_bind]. rewrite (s16_id (- _)) by lia.
  destruct (Z.eqb_spec (if r <? 0 then - lar_segment (Z.abs r) else lar_segment (Z.abs r)) MIN_WORD)
    as [E|_]; [revert E; unfold MIN_WORD; case_if; lia|done].
Qed.

Lemma r_to_LAR_value r :
  unit_coef r ->
  exists LAR, r_to_LAR r = Some LAR /\ -26620 <= LAR <= 26620 /\
    LAR_to_r LAR = if Z.abs r <? 22118 then 2 * Z.quot r 2 else r.
Proof.
  intros Hr. rewrite r_to_LAR_segment by done. eexists. split; [reflexivity|].
  unfold unit_coef in Hr. destruct (lar_segments (Z.abs r) ltac:(lia)) as [Ht Hi].
  split; [case_if; lia|]. destruct (LAR_to_r_sign _ Ht) as [Hp Hn]. rewrite Hi in Hp, Hn.
  destruct (Z.ltb_spec r 0).
  - rewrite Hn. case_if; [|lia]. rewrite Z.abs_neq by lia.
    replace (Z.quot r 2) with (- Z.quot (- r) 2) by (rewrite Z.quot_opp_l by lia; lia).
    rewrite Z.quot_div_nonneg by lia. lia.
  - rewrite Hp. case_if; [|lia]. by rewrite Z.quot_div_nonneg, Z.abs_eq by lia.
Qed.

(** The decoder's conversion inverts the encoder's: for every reflection
    coefficient the encoder can produce no assertion fails, and converting the
    log area ratio back gives the coefficient, exactly when its magnitude is
    at least 22118 and with the lowest bit cleared below. *)
Theorem log_area_ratio_roundtrip r :
  -32767 <= r <= 32767 ->
  exists LAR, r_to_LAR r = Some LAR /\
    LAR_to_r LAR = if Z.abs r <? 22118 then 2 * Z.quot r 2 else r.
Proof. intros Hr. destruct (r_to_LAR_value r Hr) as (L & H1 & _ & H2). by exists L. Qed.

Lemma log_area_ratio_roundtrip_witness :
  exists LAR, r_to_LAR (-31130) = Some LAR /\ LAR_to_r LAR = -31130.
Proof.
  destruct (log_area_ratio_roundtrip (-31130)) as (L & H1 & H2); [lia|]. by exists L.
Defined.

(** ** Quantization of the ratios *)

Definition clip (lo hi x : Z) : Z := if hi <? x then hi else if x <? lo then lo else x.

Lemma quantize_value A B MAC MIC x :
  -20000 <= A * x / 32768 <= 20000 -> -2560 <= B <= 2560 -> MIC <= MAC ->
  quantize_LAR A B MAC MIC x = clip MIC MAC ((A * x / 32768 + B + 256) / 512) - MIC.
Proof.
  intros Hx HB HM. unfold quantize_LAR, GSM_MULT. rewrite !shr_div by lia.
  change (2 ^ 15) with 32768. change (2 ^ 9) with 512. cbv zeta.
  rewrite (s16_id (A * x / 32768)) by lia.
  rewrite (GSM_ADD_words _ B), (saturate_id (_ + B)) by (unfold word; lia).
  rewrite (GSM_ADD_words _ 256), (saturate_id (_ + 256)) by (unfold word; lia).
  unfold clip. repeat case_if; lia.
Qed.

Lemma LAR_STEP_value B MIC INVA q :
  -32 <= q <= 31 -> -2560 <= B <= 2560 -> -32768 <= 1024 * q - 2 * B <= 32767 ->
  -16384 <= (INVA * (1024 * q - 2 * B) + 16384) / 32768 <= 16383 ->
  LAR_STEP B MIC INVA (q - MIC) = 2 * ((INVA * (1024 * q - 2 * B) + 16384) / 32768).
Proof.
  intros Hq HB Ht Hv. unfold LAR_STEP. cbv zeta.
  rewrite (GSM_ADD_saturates (q - MIC) MIC) by lia. replace (q - MIC + MIC) with q by lia.
  rewrite saturate_id by (unfold word; lia). rewrite !shl_mul by lia.
  change (2 ^ 10) with 1024. change (2 ^ 1) with 2. rewrite (s16_id (q * 1024)) by lia.
  rewrite GSM_SUB_saturates, saturate_id by (unfold word; lia).
  replace (q * 1024 - B * 2) with (1024 * q - 2 * B) by lia.
  unfold GSM_MULT_R. rewrite shr_div by lia. change (2 ^ 15) with 32768.
  rewrite s16_id by lia. rewrite GSM_ADD_words, saturate_id by (unfold word; lia). lia.
Qed.

(** One coefficient: the code fits its range, and unless it is an extreme one
    the decoded value is within [err]. *)
Definition coded_within (A B MAC MIC INVA err x : Z) : Prop :=
  let c := quantize_LAR A B MAC MIC x in
  0 <= c <= MAC - MIC /\ (0 < c < MAC - MIC -> Z.abs (LAR_STEP B MIC INVA c - x) <= err).

Ltac coded_within_tac :=
  unfold coded_within; cbv zeta; rewrite quantize_value by divlia; unfold clip; split;
  [repeat case_if; lia|];
  case_if; [lia|]; case_if; [lia|]; intros _; rewrite LAR_STEP_value by divlia; divlia.

Lemma quantizers_within x :
  -26620 <= x <= 26620 ->
  coded_within 20480 0 31 (-32) 13107 411 x /\ coded_within 20480 2048 15 (-16) 13107 411 x /\
  coded_within 20480 (-2560) 15 (-16) 13107 411 x /\ coded_within 13964 94 7 (-8) 19223 602 x /\
  coded_within 15360 (-1792) 7 (-8) 17476 548 x /\ coded_within 8534 (-341) 3 (-4) 31454 984 x /\
  coded_within 9036 (-1144) 3 (-4) 29708 930 x.
Proof. intros Hx. do 6 (split; [coded_within_tac|]). coded_within_tac. Qed.

Lemma within_code A B MAC MIC INVA err n x :
  MAC - MIC = 2 ^ n - 1 -> coded_within A B MAC MIC INVA err x ->
  bits_of n (quantize_LAR A B MAC MIC x) /\
  (0 < quantize_LAR A B MAC MIC x < 2 ^ n - 1 ->
   Z.abs (LAR_STEP B MIC INVA (quantize_LAR A B MAC MIC x) - x) <= err).
Proof. intros HM [H1 H2]. unfold bits_of. split; [lia|]. intros Hc. apply H2. lia. Qed.

(** The largest errors of the eight quantizers. *)
Definition LAR_errors : list Z := [411; 411; 411; 411; 602; 548; 984; 930].

Lemma quantizers_at LAR i :
  Forall (fun x => -26620 <= x <= 26620) LAR -> 0 <= i < 8 ->
  let c := (Quantization_and_coding LAR).[i] in
  bits_of LARc_bits.[i] c /\
  (0 < c < 2 ^ LARc_bits.[i] - 1 ->
   Z.abs ((Decoding_of_the_coded_Log_Area_Ratios (Quantization_and_coding LAR)).[i] - LAR.[i])
     <= LAR_errors.[i]).
Proof.
  intros HL Hi c. subst c.
  assert (-26620 <= LAR.[i] <= 26620) as Hx
    by (apply (aget_Forall_dflt (fun x => -26620 <= x <= 26620)); [done|unfold dflt, Default_Z; lia]).
  destruct (quantizers_within LAR.[i] Hx) as (Q0 & Q2 & Q3 & Q4 & Q5 & Q6 & Q7).
  unfold coded_within in *. cbv zeta in *.
  assert (i = 0 \/ i = 1 \/ i = 2 \/ i = 3 \/ i = 4 \/ i = 5 \/ i = 6 \/ i = 7)
    as [-> | [-> | [-> | [-> | [-> | [-> | [-> | ->]]]]]]] by lia.
  - exact (within_code 20480 0 31 (-32) 13107 411 6 _ eq_refl Q0).
  - exact (within_code 20480 0 31 (-32) 13107 411 6 _ eq_refl Q0).
  - exact (within_code 20480 2048 15 (-16) 13107 411 5 _ eq_refl Q2).
  - exact (within_code 20480 (-2560) 15 (-16) 13107 411 5 _ eq_refl Q3).
  - exact (within_code 13964 94 7 (-8) 19223 602 4 _ eq_refl Q4).
  - exact (within_code 15360 (-1792) 7 (-8) 17476 548 4 _ eq_refl Q5).
  - exact (within_code 8534 (-341) 3 (-4) 31454 984 3 _ eq_refl Q6).
  - exact (within_code 9036 (-1144) 3 (-4) 29708 930 3 _ eq_refl Q7).
Qed.

(** Every log area ratio the encoder computes is coded in the bits the
    frame has for it, and unless its code is the smallest or the largest one
    the ratio the decoder reconstructs is within half a quantization step
    (and rounding) of it. *)
Theorem lar_quantization_error LAR i :
  Forall (fun x => -26620 <= x <= 26620) LAR -> 0 <= i < 8 ->
  let c := (Quantization_and_coding LAR).[i] in
  0 <= c < 2 ^ LARc_bits.[i] /\
  (0 < c < 2 ^ LARc_bits.[i] - 1 ->
   Z.abs ((Decoding_of_the_coded_Log_Area_Ratios (Quantization_and_coding LAR)).[i] - LAR.[i])
     <= LAR_errors.[i]).
Proof. apply quantizers_at. Qed.

Lemma lar_quantization_error_witness :
  let LAR := [9000; -9000; 5000; -800; 0; 2000; -3000; 50] in
  (Quantization_and_coding LAR).[4] = 8 /\
  Z.abs ((Decoding_of_the_coded_Log_Area_Ratios (Quantization_and_coding LAR)).[4] - 0) <= 602.
Proof.
  intros LAR. split; [reflexivity|].
  destruct (lar_quantization_error LAR 4) as [_ H]; [|lia|].
  - subst LAR. repeat (apply Forall_cons; [lia|]). apply Forall_nil_2.
  - apply H. change ((Quantization_and_coding LAR).[4]) with 8. change (2 ^ LARc_bits.[4]) with 16. lia.
Defined.

(** ** The whole analysis *)

Lemma lars_total r :
  Forall unit_coef r ->
  exists LAR, Transformation_to_Log_Area_Ratios r = Some LAR /\ length LAR = length r /\
    Forall (fun x => -26620 <= x <= 26620) LAR.
Proof.
  intros Hr. apply mapM_total. revert Hr. apply Forall_impl. intros x Hx.
  destruct (r_to_LAR_value x Hx) as (L & H1 & H2 & _). by exists L.
Qed.

Lemma coded_bits LAR :
  Forall (fun x => -26620 <= x <= 26620) LAR ->
  Forall2 bits_of LARc_bits (Quantization_and_coding LAR).
Proof.
  intros HL. pose proof (fun i Hi => proj1 (quantizers_at LAR i HL Hi)) as H. cbv beta in H.
  apply Forall2_same_length_lookup_2; [reflexivity|]. intros i x y Hx Hy.
  pose proof (lookup_lt_Some _ _ _ Hx) as Hi. change (length LARc_bits) with 8%nat in Hi.
  specialize (H (Z.of_nat i) ltac:(lia)).
  rewrite (aget_lookup LARc_bits (Z.of_nat i) x) in H by (try rewrite Nat2Z.id; try done; lia).
  by rewrite (aget_lookup _ (Z.of_nat i) y) in H by (try rewrite Nat2Z.id; try done; lia).
Qed.

Lemma lpc_total acf `{!Autocorrelator acf} s :
  words s ->
  exists LARc s', Gsm_LPC_Analysis acf s = Some (LARc, s') /\
    Forall2 bits_of LARc_bits LARc /\ words s' /\ length s' = length s.
Proof.
  intros Hs. destruct (acf_total s Hs) as (L & s' & HA & HL & H0 & Hw & Hl).
  destruct (reflection_total L HL H0) as (r & Hr & _ & Hu).
  destruct (lars_total r Hu) as (LAR & HLAR & _ & Hb).
  exists (Quantization_and_coding LAR), s'. unfold Gsm_LPC_Analysis.
  rewrite HA. cbn [mbind option_bind]. rewrite Hr. cbn [mbind option_bind].
  rewrite HLAR. cbn [mbind option_bind]. split; [done|]. split; [by apply coded_bits|done].
Qed.

(** The LPC analysis never fails: whatever the 16-bit signal, and for any
    autocorrelation with 32-bit outputs and a nonnegative energy (the integer
    one is an instance), none of the assertions of the Schur recursion (a
    fraction in [gsm_div], no [MIN_WORD]) and of the ratio conversion fails,
    and the eight codes fit the fields of the frame. *)
Theorem lpc_analysis_fits acf `{!Autocorrelator acf} s :
  words s ->
  exists LARc s', Gsm_LPC_Analysis acf s = Some (LARc, s') /\
    Forall2 bits_of LARc_bits LARc /\ words s' /\ length s' = length s.
Proof. apply lpc_total. done. Qed.

Lemma lpc_analysis_fits_witness :
  exists LARc s', Gsm_LPC_Analysis Autocorrelation [1000; -32768; 32767; 5; 600] = Some (LARc, s') /\
    length LARc = 8%nat.
Proof.
  destruct (lpc_analysis_fits Autocorrelation [1000; -32768; 32767; 5; 600])
    as (LARc & s' & H & Hb & _).
  - repeat (apply Forall_cons; [unfold word; lia|]). apply Forall_nil_2.
  - exists LARc, s'. split; [exact H|]. by apply Forall2_length in Hb.
Defined.
