(* ===== verification/GsmCoder.v ===== *)
(** * The GSM 06.10 coder and decoder: [gsm/code.c], [gsm/decode.c],
    [gsm_encode.c], [gsm_decode.c], [gsm_create.c]

    Frames of 160 samples to frames of 33 bytes and back, over the components
    of the other files.  The coder is a section over the two searches the
    build can select (autocorrelation and long term prediction parameters),
    which it sees only through their classes. *)

From S2P Require Import Prelude GsmArith GsmFrame GsmRpe GsmShortTerm GsmLongTerm GsmLpc.

(** ** State *)

(** [struct gsm_state]; the fields of the preprocessing and of the ratios are
    grouped.  Left out are the fields of options the build does not select
    ([ltp_cut], [wav_fmt], [frame_index], [frame_chain]), [verbose], which only
    prints, and [fast].  The build does define FAST, and [fast], which
    [gsm_create] clears and only [gsm_option] sets, then chooses between the
    integer and the floating point code: for the searches of the coder the
    choice is an instance of their classes below; the floating point short term
    filters are not modelled, so the models of both ends are those of
    [fast = 0]. *)
Record gsm_state := {
  dp0 : list Z;               (* [280] *)
  prep : preprocess_state;    (* z1, L_z2, mp *)
  st_u : list Z;              (* u[8] *)
  lars : lar_state;           (* LARpp[2][8], j *)
  nrp : Z;
  st_v : list Z;              (* v[9] *)
  msr : Z
}.

Definition gsm_create : gsm_state := {|
  dp0 := replicate 280 0;
  prep := {| z1 := 0; L_z2 := 0; mp := 0 |};
  st_u := replicate 8 0;
  lars := {| LARpp := [replicate 8 0; replicate 8 0]; lar_j := 0 |};
  nrp := 40;
  st_v := replicate 9 0;
  msr := 0
|}.

(** ** 4.2 The coder *)

(** The parameters of the subframes, as the pointers [Nc++], [bc++], [Mc++],
    [xmaxc++] and [xMc += 13] lay them out. *)
Record subframes := {
  sub_Nc : list Z; sub_bc : list Z; sub_Mc : list Z; sub_xmaxc : list Z; sub_xMc : list Z
}.

Definition no_subframes : subframes :=
  {| sub_Nc := []; sub_bc := []; sub_Mc := []; sub_xmaxc := []; sub_xMc := [] |}.

Definition add_subframe (Nc bc Mc xmaxc : Z) (xMc : list Z) (r : subframes) : subframes :=
  {| sub_Nc := Nc :: sub_Nc r; sub_bc := bc :: sub_bc r; sub_Mc := Mc :: sub_Mc r;
     sub_xmaxc := xmaxc :: sub_xmaxc r; sub_xMc := xMc ++ sub_xMc r |}.

Section Coder.
Context (acf : list Z -> option (list Z * list Z)).
Context (ltp : list Z -> list Z -> Z -> option (Z * Z)).

(** [n] rounds of the loop; [b] is the position of [dp] in [dp0], [so] the
    signal from [so + k*40] on and [e] the static array. *)
Fixpoint code_subframes (n : nat) (b : Z) (so dp0 e : list Z) :
    option (list Z * list Z * subframes) :=
  match n with
  | O => Some (dp0, e, no_subframes)
  | S n =>
      '(dp0, e, Nc, bc) ← Gsm_Long_Term_Predictor ltp (take 40 so) dp0 b e;
      '(e, xmaxc, Mc, xMc) ← Gsm_RPE_Encoding e;
      let dp0 := update_residual b e dp0 in
      '(dp0, e, r) ← code_subframes n (b + 40) (drop 40 so) dp0 e;
      Some (dp0, e, add_subframe Nc bc Mc xmaxc xMc r)
  end.

(** The static array [e] is an argument and a result. *)
Definition Gsm_Coder (S : gsm_state) (e s : list Z) :
    option (gsm_state * list Z * gsm_params) :=
  '(p, so) ← Gsm_Preprocess (prep S) s;
  '(LARc, so) ← Gsm_LPC_Analysis acf so;
  let '(so, u, l) := Gsm_Short_Term_Analysis_Filter (lars S) (st_u S) LARc so in
  '(dp, e, r) ← code_subframes 4 120 so (dp0 S) e;
  let dp := take 120 (drop 160 dp) ++ drop 120 dp in
  Some ({| dp0 := dp; prep := p; st_u := u; lars := l;
           nrp := nrp S; st_v := st_v S; msr := msr S |}, e,
        {| LARc := LARc; Nc := sub_Nc r; bc := sub_bc r; Mc := sub_Mc r;
           xmaxc := sub_xmaxc r; xmc := sub_xMc r |}).

Definition gsm_encode (S : gsm_state) (e source : list Z) :
    option (gsm_state * list Z * list Z) :=
  '(S, e, p) ← Gsm_Coder S e source;
  Some (S, e, pack_params p).

(** ** 4.3 The decoder *)

Fixpoint Postprocessing (msr : Z) (s : list Z) : Z * list Z :=
  match s with
  | [] => (msr, [])
  | x :: s =>
      let tmp := s16 (GSM_MULT_R msr 28180) in
      let msr := GSM_ADD x tmp in
      let out := s16 (GSM_ADD msr msr .& 0xFFF8) in
      let '(msr, s) := Postprocessing msr s in (msr, out :: s)
  end.

(** [n] rounds of the loop; the result is [nrp], [dp0] and the part of [wt]. *)
Fixpoint decode_subframes (n : nat) (r : subframes) (nrp : Z) (dp0 : list Z) :
    option (Z * list Z * list Z) :=
  match n with
  | O => Some (nrp, dp0, [])
  | S n =>
      erp ← Gsm_RPE_Decoding (sub_xmaxc r).[0] (sub_Mc r).[0] (take 13 (sub_xMc r));
      '(nrp, dp0) ←
        Gsm_Long_Term_Synthesis_Filtering nrp (sub_Nc r).[0] (sub_bc r).[0] erp dp0;
      let wt := take 40 (drop 120 dp0) in
      '(nrp, dp0, wts) ← decode_subframes n
        {| sub_Nc := drop 1 (sub_Nc r); sub_bc := drop 1 (sub_bc r); sub_Mc := drop 1 (sub_Mc r);
           sub_xmaxc := drop 1 (sub_xmaxc r); sub_xMc := drop 13 (sub_xMc r) |} nrp dp0;
      Some (nrp, dp0, wt ++ wts)
  end.

Definition Gsm_Decoder (S : gsm_state) (p : gsm_params) : option (gsm_state * list Z) :=
  '(n, dp, wt) ← decode_subframes 4
    {| sub_Nc := Nc p; sub_bc := bc p; sub_Mc := Mc p; sub_xmaxc := xmaxc p; sub_xMc := xmc p |}
    (nrp S) (dp0 S);
  let '(s, v, l) := Gsm_Short_Term_Synthesis_Filter (lars S) (st_v S) (LARc p) wt in
  let '(m, s) := Postprocessing (msr S) s in
  Some ({| dp0 := dp; prep := prep S; st_u := st_u S; lars := l; nrp := n; st_v := v; msr := m |}, s).

(** The result of [gsm_decode]: [-1], the object untouched, or the samples.
    [None] is a failed assertion. *)
Inductive decode_result :=
| bad_magic
| decoded (S : gsm_state) (s : list Z).

Definition gsm_decode (S : gsm_state) (c : list Z) : option decode_result :=
  match unpack_params c with
  | None => Some bad_magic
  | Some p => '(S, s) ← Gsm_Decoder S p; Some (decoded S s)
  end.
End Coder.

(** ** Invariants *)

(** The parameters of [n] subframes, of the widths the frame has for them. *)
Record subs_ok (n : nat) (r : subframes) : Prop := {
  subs_Nc : length (sub_Nc r) = n /\ Forall (bits_of 7) (sub_Nc r);
  subs_bc : length (sub_bc r) = n /\ Forall (bits_of 2) (sub_bc r);
  subs_Mc : length (sub_Mc r) = n /\ Forall (bits_of 2) (sub_Mc r);
  subs_xmaxc : length (sub_xmaxc r) = n /\ Forall (bits_of 6) (sub_xmaxc r);
  subs_xMc : length (sub_xMc r) = (13 * n)%nat /\ Forall (bits_of 3) (sub_xMc r)
}.

Record state_ok (S : gsm_state) : Prop := {
  ok_dp0 : words (dp0 S) /\ length (dp0 S) = 280%nat;
  ok_prep : preprocess_ok (prep S);
  ok_u : words (st_u S) /\ length (st_u S) = 8%nat;
  ok_lars : lar_ok (lars S);
  ok_nrp : 40 <= nrp S <= 120;
  ok_v : words (st_v S) /\ length (st_v S) = 9%nat;
  ok_msr : word (msr S)
}.

Lemma gsm_create_ok : state_ok gsm_create.
Proof.
  assert (forall n, words (replicate n 0)) as H
    by (intros n; apply Forall_replicate; unfold word; lia).
  split; cbn [gsm_create dp0 prep st_u lars nrp st_v msr]; try (split; [apply H|reflexivity]).
  - split; [cbn; lia|]. split; [cbn; lia|unfold word; cbn; lia].
  - split; [done|]. split; [|by left].
    apply Forall_cons; [apply H|]. apply Forall_cons; [apply H|apply Forall_nil_2].
  - lia.
  - unfold word. lia.
Qed.

(** The decoder's window of reconstructed residual is the encoder's before [b]. *)
Definition same_window (b : Z) (enc dec : list Z) : Prop :=
  forall i, 0 <= i < 120 -> dec.[i] = enc.[b - 120 + i].

(** The reconstructed residual of a subframe. *)
Definition reconstruct_residual (ep dp0 : list Z) (bc Nc b i : Z) : Z :=
  if (b <=? i) && (i <? b + 40) then GSM_ADD ep.[i - b] (estimate dp0 bc Nc i) else dp0.[i].

Lemma reconstruct_word ep dp0 bc Nc b i :
  words ep -> words dp0 -> word (reconstruct_residual ep dp0 bc Nc b i).
Proof.
  intros He Hd. unfold reconstruct_residual. case_if; [|by apply aget_word].
  apply GSM_ADD_word; [by apply aget_word|apply word_s16].
Qed.

(** ** One subframe *)

Lemma aget_drop (l : list Z) n i : 0 <= i -> (drop n l).[i] = l.[Z.of_nat n + i].
Proof.
  intros Hi. unfold aget. destruct (Z.ltb_spec i 0); [lia|].
  destruct (Z.ltb_spec (Z.of_nat n + i) 0); [lia|]. rewrite lookup_drop. do 2 f_equal. lia.
Qed.

Section Proofs.
Context (acf : list Z -> option (list Z * list Z)) `{!Autocorrelator acf}.
Context (ltp : list Z -> list Z -> Z -> option (Z * Z)) `{!LtpParameters ltp}.

Lemma code_subframe d b enc e :
  words d -> length d = 40%nat -> words enc -> length enc = 280%nat -> 120 <= b <= 240 ->
  length e = 50%nat ->
  exists enc1 e1 Nc bc e' xmaxc Mc xMc ep,
    Gsm_Long_Term_Predictor ltp d enc b e = Some (enc1, e1, Nc, bc) /\
    Gsm_RPE_Encoding e1 = Some (e', xmaxc, Mc, xMc) /\
    40 <= Nc <= 120 /\ 0 <= bc <= 3 /\ 0 <= xmaxc < 64 /\ 0 <= Mc <= 3 /\
    length xMc = 13%nat /\ Forall (bits_of 3) xMc /\ length e' = 50%nat /\
    Gsm_RPE_Decoding xmaxc Mc xMc = Some ep /\ words ep /\ length ep = 40%nat /\
    length (update_residual b e' enc1) = 280%nat /\
    forall i, (update_residual b e' enc1).[i] = reconstruct_residual ep enc bc Nc b i.
Proof using LtpParameters0.
  intros Hd Hld Hw Hl Hb He. destruct (ltp_fits d enc b Hld Hd Hw) as (bc & Nc & Hltp & Hbc & HNc).
  pose proof (analysis_filtering_spec bc Nc b d enc e Hbc ltac:(lia) ltac:(lia) ltac:(lia) He) as Ha.
  destruct (Long_term_analysis_filtering bc Nc b d enc e) as [enc1 e1] eqn:Hlta.
  destruct Ha as (Hl1 & He1 & Hg1 & _).
  destruct (rpe_encoding_spec e1) as (ep & xmaxc & Mc & xMc & Hrpe & Hx & HM & HlM & H7 & Hlep & Hwep & Hdec).
  exists enc1, e1, Nc, bc, (take 5 e1 ++ ep ++ drop 45 e1), xmaxc, Mc, xMc, ep.
  unfold Gsm_Long_Term_Predictor. rewrite Hltp. cbn [mbind option_bind]. rewrite Hlta.
  destruct (update_residual_spec b (take 5 e1 ++ ep ++ drop 45 e1) enc1 ltac:(lia) ltac:(lia))
    as [Hlu Hgu].
  repeat (split; [first [done | lia]|]). split.
  { revert H7. apply Forall_impl. intros q Hq. unfold bits_of. change (2 ^ 3) with 8. lia. }
  split; [rewrite !length_app, length_take, length_drop; lia|].
  repeat (split; [first [done | congruence]|]).
  intros i. rewrite Hgu, Hg1. unfold reconstruct_residual.
  destruct (Z.leb_spec b i), (Z.ltb_spec i (b + 40)); cbn [andb]; try done. f_equal.
  rewrite aget_app_r by (rewrite length_take; lia). rewrite length_take.
  rewrite aget_app_l by lia. f_equal. lia.
Qed.

Lemma decode_subframe nrp Nc bc ep dec :
  40 <= nrp <= 120 -> 0 <= bc <= 3 -> words dec -> length dec = 280%nat ->
  words ep ->
  let Nr := if (Nc <? 40) || (120 <? Nc) then nrp else Nc in
  exists dec', Gsm_Long_Term_Synthesis_Filtering nrp Nc bc ep dec = Some (Nr, dec') /\
    40 <= Nr <= 120 /\ words dec' /\ length dec' = 280%nat /\
    forall i, 0 <= i < 120 -> dec'.[i] = reconstruct_residual ep dec bc Nr 120 (i + 40).
Proof.
  intros Hn Hbc Hw Hl Hwep Nr.
  destruct (synthesis_filtering_spec nrp Nc bc ep dec Hbc Hn ltac:(lia)) as (dec' & Hs & Hl' & Hg).
  fold Nr in Hs, Hg. exists dec'. split; [done|]. split.
  { unfold Nr. destruct (Z.ltb_spec Nc 40), (Z.ltb_spec 120 Nc); cbn [orb]; lia. }
  assert (forall i, dec'.[i] = if (0 <=? i) && (i <? 120)
    then reconstruct_residual ep dec bc Nr 120 (i + 40) else reconstruct_residual ep dec bc Nr 120 i) as Hg' by exact Hg.
  split; [|split; [congruence|]].
  - apply words_get. intros i. rewrite Hg'. case_if; by apply reconstruct_word.
  - intros i Hi. rewrite Hg'. destruct (Z.leb_spec 0 i); [|lia]. by destruct (Z.ltb_spec i 120); [|lia].
Qed.

(** ** The subframes of a frame *)

#[local] Opaque Gsm_RPE_Decoding Gsm_RPE_Encoding Gsm_Long_Term_Synthesis_Filtering
  Gsm_Long_Term_Predictor update_residual.

Lemma subs_ok_add n r Nc bc Mc xmaxc xMc :
  subs_ok n r -> 40 <= Nc <= 120 -> 0 <= bc <= 3 -> 0 <= Mc <= 3 -> 0 <= xmaxc < 64 ->
  length xMc = 13%nat -> Forall (bits_of 3) xMc ->
  subs_ok (S n) (add_subframe Nc bc Mc xmaxc xMc r).
Proof.
  intros [[LN HN] [Lb Hb] [LM HM] [Lx Hx] [Lc Hc]] ? ? ? ? Hl H3.
  split; cbn [add_subframe sub_Nc sub_bc sub_Mc sub_xmaxc sub_xMc];
    (split; [rewrite ?length_app; cbn [length]; lia|]);
    try (apply Forall_app_2; assumption);
    (apply Forall_cons; [unfold bits_of; norm_pow; lia|assumption]).
Qed.

(** The parameters from the second subframe on. *)
Definition rest_subframes (r : subframes) : subframes :=
  {| sub_Nc := drop 1 (sub_Nc r); sub_bc := drop 1 (sub_bc r); sub_Mc := drop 1 (sub_Mc r);
     sub_xmaxc := drop 1 (sub_xmaxc r); sub_xMc := drop 13 (sub_xMc r) |}.

Lemma rest_subframes_add Nc bc Mc xmaxc xMc r :
  length xMc = 13%nat -> rest_subframes (add_subframe Nc bc Mc xmaxc xMc r) = r.
Proof.
  intros Hl. unfold rest_subframes, add_subframe. cbn [sub_Nc sub_bc sub_Mc sub_xmaxc sub_xMc].
  rewrite drop_app_length' by done. by destruct r.
Qed.

Lemma subs_ok_rest n r : subs_ok (S n) r -> subs_ok n (rest_subframes r).
Proof.
  intros [[LN HN] [Lb Hb] [LM HM] [Lx Hx] [Lc Hc]].
  split; cbn [rest_subframes sub_Nc sub_bc sub_Mc sub_xmaxc sub_xMc];
    (split; [rewrite length_drop; lia|by apply Forall_drop]).
Qed.

Lemma subs_ok_head n r :
  subs_ok (S n) r ->
  0 <= (sub_bc r).[0] <= 3 /\
  exists ep, Gsm_RPE_Decoding (sub_xmaxc r).[0] (sub_Mc r).[0] (take 13 (sub_xMc r)) = Some ep /\
    length ep = 40%nat /\ words ep.
Proof.
  intros [[LN HN] [Lb Hb] [LM HM] [Lx Hx] [Lc Hc]].
  assert (forall k l, length l = S n -> Forall (bits_of k) l -> 0 <= l.[0] < 2 ^ k) as H0
    by (intros k l Hl HF; exact (aget_Forall _ l 0 HF ltac:(lia))).
  pose proof (H0 _ _ Lb Hb) as B. pose proof (H0 _ _ LM HM) as M. pose proof (H0 _ _ Lx Hx) as X.
  change (2 ^ 2) with 4 in *. change (2 ^ 6) with 64 in *. split; [lia|].
  apply rpe_decoding_spec; [lia|lia|rewrite length_take; lia|].
  apply Forall_take. revert Hc. apply Forall_impl. intros q Hq. unfold bits_of in Hq.
  change (2 ^ 3) with 8 in Hq. lia.
Qed.

Lemma same_window_step ep b enc dec enc' dec' bc Nc :
  40 <= Nc <= 120 -> same_window b enc dec ->
  (forall i, enc'.[i] = reconstruct_residual ep enc bc Nc b i) ->
  (forall i, 0 <= i < 120 -> dec'.[i] = reconstruct_residual ep dec bc Nc 120 (i + 40)) ->
  same_window (b + 40) enc' dec'.
Proof.
  intros HN Hwin Henc Hdec i Hi. rewrite Hdec, Henc by done. unfold reconstruct_residual, estimate.
  destruct (Z.ltb_spec (i + 40) (120 + 40)); [|lia].
  destruct (Z.ltb_spec (b + 40 - 120 + i) (b + 40)); [|lia].
  destruct (Z.leb_spec 120 (i + 40)), (Z.leb_spec b (b + 40 - 120 + i)); cbn [andb]; try lia.
  - rewrite Hwin by lia. replace (b + 40 - 120 + i - b) with (i + 40 - 120) by lia.
    by replace (b - 120 + (i + 40 - Nc)) with (b + 40 - 120 + i - Nc) by lia.
  - rewrite Hwin by lia. by replace (b - 120 + (i + 40)) with (b + 40 - 120 + i) by lia.
Qed.

(** The decoder's loop never fails. *)
Lemma decode_subframes_total n : forall r nrp dec,
  subs_ok n r -> 40 <= nrp <= 120 -> words dec -> length dec = 280%nat ->
  exists nrp' dec' wt, decode_subframes n r nrp dec = Some (nrp', dec', wt) /\
    40 <= nrp' <= 120 /\ words dec' /\ length dec' = 280%nat /\
    words wt /\ length wt = (40 * n)%nat.
Proof.
  induction n as [|n IH]; intros r nrp dec Hr Hn Hw Hl.
  { exists nrp, dec, []. repeat split; try done; try lia. constructor. }
  cbn [decode_subframes]. fold (rest_subframes r).
  destruct (subs_ok_head n r Hr) as (Hbc & ep & -> & Hlep & Hwep). cbn [mbind option_bind].
  destruct (decode_subframe nrp (sub_Nc r).[0] (sub_bc r).[0] ep dec Hn Hbc Hw Hl Hwep)
    as (dec1 & -> & HN & Hw1 & Hl1 & _). cbn [mbind option_bind].
  destruct (IH (rest_subframes r) _ dec1 (subs_ok_rest n r Hr) HN Hw1 Hl1)
    as (nrp' & dec' & wt & -> & HN' & Hw' & Hl' & Hwt & Hlt). cbn [mbind option_bind].
  do 3 eexists. split; [reflexivity|]. repeat (split; [done|]). split.
  - apply Forall_app_2; [apply Forall_take; by apply Forall_drop|done].
  - rewrite length_app, length_take, length_drop. lia.
Qed.

Lemma decode_subframes_add n Nc bc Mc xmaxc xMc r nrp dec ep dec1 Nr :
  length xMc = 13%nat -> Gsm_RPE_Decoding xmaxc Mc xMc = Some ep ->
  Gsm_Long_Term_Synthesis_Filtering nrp Nc bc ep dec = Some (Nr, dec1) ->
  decode_subframes (S n) (add_subframe Nc bc Mc xmaxc xMc r) nrp dec =
    '(nrp, dp0, wts) ← decode_subframes n r Nr dec1;
    Some (nrp, dp0, take 40 (drop 120 dec1) ++ wts).
Proof.
  intros Hl Hdec Hs. cbn [decode_subframes].
  fold (rest_subframes (add_subframe Nc bc Mc xmaxc xMc r)). rewrite rest_subframes_add by done.
  cbn [add_subframe sub_Nc sub_bc sub_Mc sub_xmaxc sub_xMc]. rewrite take_app_length' by done.
  change ((xmaxc :: sub_xmaxc r).[0]) with xmaxc. change ((Mc :: sub_Mc r).[0]) with Mc.
  change ((Nc :: sub_Nc r).[0]) with Nc. change ((bc :: sub_bc r).[0]) with bc.
  rewrite Hdec. cbn [mbind option_bind]. by rewrite Hs.
Qed.

Lemma code_subframes_S n b so enc e :
  code_subframes ltp (S n) b so enc e =
    '(dp0, e, Nc, bc) ← Gsm_Long_Term_Predictor ltp (take 40 so) enc b e;
    '(e, xmaxc, Mc, xMc) ← Gsm_RPE_Encoding e;
    '(dp0, e, r) ← code_subframes ltp n (b + 40) (drop 40 so) (update_residual b e dp0) e;
    Some (dp0, e, add_subframe Nc bc Mc xmaxc xMc r).
Proof. reflexivity. Qed.

(** The coder's loop never fails, and the decoder's loop reconstructs the same
    residual from its parameters. *)
Lemma code_subframes_track n : forall b so enc e,
  words so -> length so = (40 * n)%nat -> words enc -> length enc = 280%nat -> length e = 50%nat ->
  120 <= b -> b + 40 * Z.of_nat n <= 280 ->
  exists enc' e' r, code_subframes ltp n b so enc e = Some (enc', e', r) /\
    subs_ok n r /\ words enc' /\ length enc' = 280%nat /\ length e' = 50%nat /\
    forall nrp dec, same_window b enc dec -> 40 <= nrp <= 120 -> words dec -> length dec = 280%nat ->
      exists nrp' dec' wt, decode_subframes n r nrp dec = Some (nrp', dec', wt) /\
        same_window (b + 40 * Z.of_nat n) enc' dec'.
Proof using LtpParameters0.
  induction n as [|n IH]; intros b so enc e Hso Hlso Hw Hl He Hb Hn.
  { exists enc, e, no_subframes. split; [done|]. split; [by repeat split|].
    repeat (split; [done|]). intros nrp dec Hwin _ _ _. exists nrp, dec, []. split; [done|].
    by rewrite Z.add_0_r. }
  destruct (code_subframe (take 40 so) b enc e) as
    (enc1 & e1 & Nc & bc & e2 & xmaxc & Mc & xMc & ep & HL & HR & HNc & Hbc & Hx & HM & HlM & H7 &
     He2 & Hdec & Hwep & Hlep & Hl2 & Hg);
    [by apply Forall_take|rewrite length_take; lia|done|done|lia|done|].
  set (enc2 := update_residual b e2 enc1) in *.
  assert (words enc2) as Hw2
    by (apply words_get; intros i; rewrite Hg; by apply reconstruct_word).
  destruct (IH (b + 40) (drop 40 so) enc2 e2) as
    (enc' & e' & r & HC & Hr & Hw' & Hl' & He' & Htr);
    [by apply Forall_drop|rewrite length_drop; lia|done|done|done|lia|lia|].
  exists enc', e', (add_subframe Nc bc Mc xmaxc xMc r).
  rewrite code_subframes_S. run HL. run HR. fold enc2. run HC. split; [reflexivity|]. split; [by apply subs_ok_add|].
  repeat (split; [done|]). intros nrp dec Hwin Hnrp Hwd Hld.
  destruct (decode_subframe nrp Nc bc ep dec Hnrp Hbc Hwd Hld Hwep) as
    (dec1 & Hs & HN & Hw1 & Hl1 & Hg1).
  destruct (Z.ltb_spec Nc 40); [lia|]. destruct (Z.ltb_spec 120 Nc); [lia|]. cbn [orb] in *.
  destruct (Htr Nc dec1) as (nrp' & dec' & wt & Hds & Hwin'); [|done..|].
  - by apply (same_window_step ep b enc dec enc2 dec1 bc Nc).
  - exists nrp', dec', (take 40 (drop 120 dec1) ++ wt). split.
    + rewrite (decode_subframes_add n Nc bc Mc xmaxc xMc r nrp dec ep dec1 Nc) by done.
      by rewrite Hds.
    + by replace (b + 40 * Z.of_nat (S n)) with (b + 40 + 40 * Z.of_nat n) by lia.
Qed.

(** ** Whole frames *)

Lemma postprocessing_words m s :
  word m -> words s ->
  word (fst (Postprocessing m s)) /\ words (snd (Postprocessing m s)) /\
  length (snd (Postprocessing m s)) = length s.
Proof.
  intros Hm Hs. revert m Hm. induction Hs as [|x s Hx Hs IH]; intros m Hm.
  { split; [done|]. split; [constructor|done]. }
  cbn [Postprocessing]. cbv zeta. set (m' := GSM_ADD x _).
  assert (word m') as Hm' by (apply GSM_ADD_word; [done|apply word_s16]).
  destruct (IH m' Hm') as (H1 & H2 & H3). destruct (Postprocessing m' s) as [m2 out].
  cbn [fst snd] in *. split; [done|]. split; [|cbn; congruence].
  apply Forall_cons; [apply word_s16|done].
Qed.

(** The parameters of a frame, as the decoder's loop takes them. *)
Definition subframes_of (p : gsm_params) : subframes :=
  {| sub_Nc := Nc p; sub_bc := bc p; sub_Mc := Mc p; sub_xmaxc := xmaxc p; sub_xMc := xmc p |}.

Lemma subframes_of_ok p : params_ok p -> subs_ok 4 (subframes_of p).
Proof. intros [? ? ? ? ? ?]. by split. Qed.

#[local] Opaque decode_subframes code_subframes Gsm_Short_Term_Synthesis_Filter
  Gsm_Short_Term_Analysis_Filter.

(** The decoder on parameters that fit their fields. *)
Lemma decoder_total D p :
  state_ok D -> params_ok p ->
  exists D' out, Gsm_Decoder D p = Some (D', out) /\ state_ok D' /\ words out /\
    length out = 160%nat /\ lars D' = decode_LARs (LARc p) (lars D) /\
    exists nrp' wt, decode_subframes 4 (subframes_of p) (nrp D) (dp0 D) = Some (nrp', dp0 D', wt).
Proof.
  intros [[Hw Hl] Hp Hu Hlar Hn [Hv Hlv] Hm] Hok.
  destruct (decode_subframes_total 4 (subframes_of p) (nrp D) (dp0 D) (subframes_of_ok p Hok) Hn Hw Hl)
    as (n' & dp' & wt & Hd & Hn' & Hw' & Hl' & Hwt & Hlwt).
  unfold Gsm_Decoder. fold (subframes_of p). run Hd.
  pose proof (synthesis_filter_words (lars D) (st_v D) (LARc p) wt Hv Hlv Hwt Hlwt) as Hs.
  destruct (Gsm_Short_Term_Synthesis_Filter (lars D) (st_v D) (LARc p) wt) as [[s v] l].
  destruct Hs as (Hws & Hls & Hwv & Hlv' & ->).
  destruct (postprocessing_words (msr D) s Hm Hws) as (Hm' & Ho & Hlo).
  destruct (Postprocessing (msr D) s) as [m out]. cbn [fst snd] in *.
  do 2 eexists. split; [reflexivity|]. cbn [lars dp0]. split.
  { split; cbn [dp0 prep st_u lars nrp st_v msr]; try done. by apply decode_LARs_ok. }
  split; [done|]. split; [congruence|]. split; [done|]. by exists n', wt.
Qed.

(** What the two ends must agree on. *)
Definition tracks (E D : gsm_state) : Prop :=
  (forall i, 0 <= i < 120 -> (dp0 D).[i] = (dp0 E).[i]) /\ lars D = lars E.

Lemma coder_total E e s :
  state_ok E -> words s -> length s = 160%nat -> length e = 50%nat ->
  exists E' e' p, Gsm_Coder acf ltp E e s = Some (E', e', p) /\
    state_ok E' /\ length e' = 50%nat /\ params_ok p /\
    forall D, state_ok D -> tracks E D ->
      exists D' out, Gsm_Decoder D p = Some (D', out) /\ state_ok D' /\
        words out /\ length out = 160%nat /\ tracks E' D'.
Proof using Autocorrelator0 LtpParameters0.
  intros [[Hw Hl] Hp [Hu Hlu] Hlar Hn Hv Hm] Hs Hls He.
  destruct (preprocess_total (prep E) s Hp Hs) as (p' & so & Hpre & _ & Hp' & Hso & Hlso).
  destruct (lpc_total acf so Hso) as (LARc & so' & Hlpc & HLAR & Hso' & Hlso').
  pose proof (analysis_filter_words (lars E) (st_u E) LARc so' Hu Hlu Hso' ltac:(congruence)) as Ha.
  destruct (Gsm_Short_Term_Analysis_Filter (lars E) (st_u E) LARc so') as [[d u] l] eqn:Hst.
  destruct Ha as (Hwd & Hld & Hwu & Hlu' & ->).
  destruct (code_subframes_track 4 120 d (dp0 E) e Hwd Hld Hw Hl He ltac:(lia) ltac:(lia))
    as (dp' & e' & r & Hc & Hr & Hwd' & Hld' & He' & Htr).
  unfold Gsm_Coder. run Hpre. run Hlpc. rewrite Hst. run Hc.
  do 3 eexists. split; [reflexivity|]. split; [|split; [done|split]].
  { split; cbn [dp0 prep st_u lars nrp st_v msr]; try done; [|by apply decode_LARs_ok]. split.
    - apply Forall_app_2; [apply Forall_take|]; by apply Forall_drop.
    - rewrite length_app, length_take, !length_drop. lia. }
  { destruct Hr. by split. }
  intros D HD [Hwin Hlars]. set (p := {| LARc := LARc |}).
  assert (params_ok p) as Hpk by (destruct Hr; by split).
  destruct (decoder_total D p HD Hpk) as (D' & out & Hdec & HD' & Ho & Hlo & Hl' & n' & wt & Hds).
  exists D', out. repeat (split; [done|]). split; [|by rewrite Hl', Hlars].
  destruct HD as [[HwD HlD] _ _ _ HnD _ _].
  destruct (Htr (nrp D) (dp0 D)) as (n2 & dec' & wt2 & Hds2 & Hwin'); [|done..|].
  { intros i Hi. by apply Hwin. }
  change (subframes_of p) with {| sub_Nc := sub_Nc r; sub_bc := sub_bc r; sub_Mc := sub_Mc r;
    sub_xmaxc := sub_xmaxc r; sub_xMc := sub_xMc r |} in Hds.
  destruct r. cbn [sub_Nc sub_bc sub_Mc sub_xmaxc sub_xMc] in Hds.
  rewrite Hds2 in Hds. injection Hds as _ <- _. cbn [dp0]. intros i Hi. rewrite (Hwin' i Hi).
  rewrite aget_app_l by (rewrite length_take, length_drop; lia).
  unfold aget. change (120 + 40 * Z.of_nat 4 - 120 + i) with (160 + i).
  destruct (Z.ltb_spec (160 + i) 0); [lia|]. destruct (Z.ltb_spec i 0); [lia|].
  rewrite lookup_take_lt, lookup_drop by lia. do 2 f_equal. lia.
Qed.

(** ** A stream of frames *)

(** Encode a frame, hand its 33 bytes to the decoder, go on with the next. *)
Fixpoint transmit (E : gsm_state) (e : list Z) (D : gsm_state) (frames : list (list Z)) :
    option (gsm_state * list Z * gsm_state * list (list Z)) :=
  match frames with
  | [] => Some (E, e, D, [])
  | s :: frames =>
      '(E, e, c) ← gsm_encode acf ltp E e s;
      r ← gsm_decode D c;
      match r with
      | bad_magic => None
      | decoded D out =>
          '(E, e, D, outs) ← transmit E e D frames;
          Some (E, e, D, out :: outs)
      end
  end.

Definition frame_samples (s : list Z) : Prop := words s /\ length s = 160%nat.

Lemma transmit_total frames : forall E e D,
  state_ok E -> state_ok D -> tracks E D -> length e = 50%nat -> Forall frame_samples frames ->
  exists E' e' D' outs, transmit E e D frames = Some (E', e', D', outs) /\
    state_ok E' /\ state_ok D' /\ tracks E' D' /\
    length outs = length frames /\ Forall frame_samples outs.
Proof using Autocorrelator0 LtpParameters0.
  induction frames as [|s frames IH]; intros E e D HE HD Ht He Hf.
  { exists E, e, D, []. repeat (split; [done|]). constructor. }
  apply Forall_cons_1 in Hf as [[Hs Hls] Hf]. cbn [transmit].
  destruct (coder_total E e s HE Hs Hls He) as (E1 & e1 & p & Hc & HE1 & He1 & Hp & Htr).
  destruct (Htr D HD Ht) as (D1 & out & Hd & HD1 & Ho & Hlo & Ht1).
  assert (gsm_encode acf ltp E e s = Some (E1, e1, pack_params p)) as Henc
    by (unfold gsm_encode; run Hc; reflexivity).
  assert (gsm_decode D (pack_params p) = Some (decoded D1 out)) as Hdec.
  { unfold gsm_decode, unpack_params. destruct (pack_frame_ok p Hp) as (_ & _ & ->).
    cbn [negb Z.eqb]. rewrite (unpack_pack p Hp). change (GSM_MAGIC =? GSM_MAGIC) with true.
    cbn [negb]. run Hd. reflexivity. }
  run Henc. run Hdec.
  destruct (IH E1 e1 D1 HE1 HD1 Ht1 He1 Hf) as (E' & e' & D' & outs & Hr & HE' & HD' & Ht' & Hl & Hfo).
  run Hr. do 4 eexists. split; [reflexivity|]. repeat (split; [done|]).
  split; [cbn; congruence|]. by apply Forall_cons.
Qed.

(** C33.  A fresh encoder and a fresh decoder stay in step over any number of
    frames, whatever the samples and for any lag search and autocorrelation
    within their contracts: no assertion of the coder or the decoder ever
    fails, every frame carries the magic and is accepted, each produces 160
    samples, and after it the decoder's window of reconstructed residual and
    its log area ratios are the encoder's. *)
Theorem gsm_decoder_tracks_encoder frames :
  Forall frame_samples frames ->
  exists E e D outs,
    transmit gsm_create (replicate 50 0) gsm_create frames = Some (E, e, D, outs) /\
    (forall i, 0 <= i < 120 -> (dp0 D).[i] = (dp0 E).[i]) /\ lars D = lars E /\
    length outs = length frames /\ Forall frame_samples outs.
Proof using Autocorrelator0 LtpParameters0.
  intros Hf. pose proof gsm_create_ok as H0.
  destruct (transmit_total frames gsm_create (replicate 50 0) gsm_create H0 H0)
    as (E & e & D & outs & Hr & _ & _ & [Hw Hl] & Hlen & Ho); [by split|done|done|].
  by exists E, e, D, outs.
Qed.
End Proofs.

Lemma gsm_decoder_tracks_encoder_witness :
  exists E e D outs,
    transmit Autocorrelation Calculation_of_the_LTP_parameters gsm_create (replicate 50 0) gsm_create
      [sample_frame; sample_frame] = Some (E, e, D, outs) /\ length outs = 2%nat.
Proof.
  assert (frame_samples sample_frame) as Hs.
  { split; [|reflexivity]. unfold words. apply (bool_decide_unpack _). vm_compute. exact I. }
  destruct (gsm_decoder_tracks_encoder Autocorrelation Calculation_of_the_LTP_parameters
    [sample_frame; sample_frame]) as (E & e & D & outs & H & _ & _ & Hl & _).
  - apply Forall_cons; [exact Hs|]. apply Forall_cons; [exact Hs|apply Forall_nil_2].
  - exists E, e, D, outs. split; [exact H|exact Hl].
Defined.

(** C37.  The decoder accepts arbitrary input: 33 bytes without the magic are
    rejected and change nothing; any 33 bytes with it, lags outside 40 .. 120
    included, decode without a failing assertion to 160 words and leave the
    decoder in a state for which the same holds. *)
Theorem gsm_decode_robust D c :
  state_ok D -> length c = 33%nat -> Forall (bits_of 8) c ->
  ((c.[0] >> 4) .& 0x0F <> GSM_MAGIC /\ gsm_decode D c = Some bad_magic) \/
  ((c.[0] >> 4) .& 0x0F = GSM_MAGIC /\
   exists D' out, gsm_decode D c = Some (decoded D' out) /\ state_ok D' /\ frame_samples out).
Proof.
  intros HD Hl Hc. unfold gsm_decode, unpack_params.
  destruct (Z.eqb_spec ((c.[0] >> 4) .& 0x0F) GSM_MAGIC) as [E|E]; cbn [negb]; [right|by left].
  split; [done|].
  destruct (decoder_total D (unpack c) HD (unpack_ok c)) as (D' & out & Hd & HD' & Ho & Hlo & _).
  run Hd. by exists D', out.
Qed.

Lemma gsm_decode_robust_witness :
  exists D' out, gsm_decode gsm_create (0xD0 :: replicate 32 255) = Some (decoded D' out) /\
    length out = 160%nat.
Proof.
  destruct (gsm_decode_robust gsm_create (0xD0 :: replicate 32 255) gsm_create_ok eq_refl)
    as [[H _]|(_ & D' & out & H & _ & _ & Hl)].
  - apply (bool_decide_unpack _). vm_compute. exact I.
  - destruct H. reflexivity.
  - exists D', out. split; [exact H|exact Hl].
Defined.
