(* ===== verification/GrFlowgraph.v ===== *)
(** * The flow graph: [runtime/gr_flowgraph.cc], [gr_io_signature.cc]

    Edges between block ports; [connect], [disconnect] and [validate] with
    the exceptions they throw, and the queries on the edge list.

    A block is the [Z] that orders it in a sorted vector of shared pointers;
    what the flow graph asks of a block is a parameter. *)

From S2P Require Import Prelude.
From stdpp Require Import sorting.
#[local] Open Scope Z_scope.
#[local] Open Scope cint_scope.

(** ** [gr_io_signature] *)

Definition IO_INFINITE : Z := -1.

Record io_signature := {
  min_streams : Z; max_streams : Z; sizeof_stream_items : list Z
}.

Inductive flow_error :=
| bad_signature (n : Z)
| negative_index
| negative_port
| port_exceeds_max
| destination_in_use
| itemsize_mismatch
| edge_not_found
| insufficient_ports
| too_many_ports
| missing_connection (port : Z)
| topology_failed
| has_loops
| out_of_fuel.

Definition gr_io_signature (min_s max_s : Z) (sizes : list Z) : res flow_error io_signature :=
  if (min_s <? 0) || (negb (max_s =? IO_INFINITE) && (max_s <? min_s)) then Throw (bad_signature 1)
  else if bool_decide (length sizes < 1)%nat then Throw (bad_signature 2)
  else if negb (max_s =? 0) && existsb (fun s => s <? 1) sizes then Throw (bad_signature 3)
  else Ok {| min_streams := min_s; max_streams := max_s; sizeof_stream_items := sizes |}.

Definition sizeof_stream_item (sig : io_signature) (index : Z) : res flow_error Z :=
  if index <? 0 then Throw negative_index
  else Ok (sizeof_stream_items sig).[Z.min index (Z.of_nat (length (sizeof_stream_items sig)) - 1)].

(** ** Endpoints and edges *)

Record endpoint := { block : Z; port : Z }.
Record edge := { src : endpoint; dst : endpoint }.

#[export] Instance endpoint_eq_dec : EqDecision endpoint.
Proof. solve_decision. Defined.
#[export] Instance edge_eq_dec : EqDecision edge.
Proof. solve_decision. Defined.

(** [sort] and [unique_copy]. *)
Fixpoint unique_copy (v : list Z) : list Z :=
  match v with
  | [] => []
  | x :: v =>
      match v with
      | [] => [x]
      | y :: _ => if x =? y then unique_copy v else x :: unique_copy v
      end
  end.

Definition unique_vector (v : list Z) : list Z := unique_copy (merge_sort Z.le v).

Section Flowgraph.
(** The blocks: signatures and the virtual [check_topology]. *)
Context (input_signature output_signature : Z -> io_signature).
Context (check_topology : Z -> Z -> Z -> bool).

(** ** Connecting *)

Definition check_valid_port (sig : io_signature) (port : Z) : res flow_error () :=
  if port <? 0 then Throw negative_port
  else
    let max := max_streams sig in
    if negb (max =? IO_INFINITE) && (max <=? port) then Throw port_exceeds_max else Ok ().

Definition check_dst_not_used (edges : list edge) (d : endpoint) : res flow_error () :=
  if existsb (fun p => bool_decide (dst p = d)) edges then Throw destination_in_use else Ok ().

Definition check_type_match (s d : endpoint) : res flow_error () :=
  src_size ← sizeof_stream_item (output_signature (block s)) (port s);
  dst_size ← sizeof_stream_item (input_signature (block d)) (port d);
  if negb (src_size =? dst_size) then Throw itemsize_mismatch else Ok ().

Definition connect (s d : endpoint) (edges : list edge) : res flow_error (list edge) :=
  _ ← check_valid_port (output_signature (block s)) (port s);
  _ ← check_valid_port (input_signature (block d)) (port d);
  _ ← check_dst_not_used edges d;
  _ ← check_type_match s d;
  Ok (edges ++ [{| src := s; dst := d |}]).

Fixpoint disconnect (s d : endpoint) (edges : list edge) : res flow_error (list edge) :=
  match edges with
  | [] => Throw edge_not_found
  | p :: edges =>
      if bool_decide (s = src p /\ d = dst p) then Ok edges
      else edges ← disconnect s d edges; Ok (p :: edges)
  end.

(** ** Queries *)

Definition calc_used_blocks (edges : list edge) : list Z :=
  unique_vector (mjoin (map (fun p => [block (src p); block (dst p)]) edges)).

Definition calc_connections (edges : list edge) (b : Z) (check_inputs : bool) : list edge :=
  base.filter (fun p => block (if check_inputs then dst p else src p) = b) edges.

Definition calc_used_ports (edges : list edge) (b : Z) (check_inputs : bool) : list Z :=
  unique_vector (map (fun p => port (if check_inputs then dst p else src p))
    (calc_connections edges b check_inputs)).

Definition calc_downstream_blocks_port (edges : list edge) (b p : Z) : list Z :=
  unique_vector (map (fun e => block (dst e))
    (base.filter (fun e => src e = {| block := b; port := p |}) edges)).

Definition calc_downstream_blocks (edges : list edge) (b : Z) : list Z :=
  unique_vector (map (fun p => block (dst p)) (base.filter (fun p => block (src p) = b) edges)).

Definition calc_upstream_edges (edges : list edge) (b : Z) : list edge :=
  base.filter (fun p => block (dst p) = b) edges.

Definition calc_upstream_edge (edges : list edge) (b p : Z) : option edge :=
  head (base.filter (fun e => dst e = {| block := b; port := p |}) edges).

Definition calc_adjacent_blocks (edges : list edge) (b : Z) : list Z :=
  unique_vector (mjoin (map (fun p =>
    (if block (src p) =? b then [block (dst p)] else []) ++
    (if block (dst p) =? b then [block (src p)] else [])) edges)).

Definition source_p (edges : list edge) (b : Z) : bool :=
  bool_decide (length (calc_upstream_edges edges b) = 0%nat).

(** ** Validation *)

(** The loop that looks for the first missing port. *)
Fixpoint find_missing (i : Z) (used_ports : list Z) : res flow_error () :=
  match used_ports with
  | [] => Ok ()
  | p :: used_ports => if negb (p =? i) then Throw (missing_connection i) else find_missing (i + 1) used_ports
  end.

Definition check_contiguity (b : Z) (used_ports : list Z) (check_inputs : bool) :
    res flow_error () :=
  let sig := if check_inputs then input_signature b else output_signature b in
  let nports := Z.of_nat (length used_ports) in
  let min_ports := min_streams sig in
  let max_ports := max_streams sig in
  if (nports =? 0) && (min_ports =? 0) then Ok ()
  else if nports <? min_ports then Throw insufficient_ports
  else if (max_ports <? nports) && negb (max_ports =? IO_INFINITE) then Throw too_many_ports
  else if negb (used_ports.[nports - 1] + 1 =? nports) then find_missing 0 used_ports
  else Ok ().

Definition validate_block (edges : list edge) (p : Z) (u : ()) : res flow_error () :=
  let used_ports := calc_used_ports edges p true in
  let ninputs := Z.of_nat (length used_ports) in
  _ ← check_contiguity p used_ports true;
  let used_ports := calc_used_ports edges p false in
  let noutputs := Z.of_nat (length used_ports) in
  _ ← check_contiguity p used_ports false;
  if negb (check_topology p ninputs noutputs) then Throw topology_failed else Ok ().

(** The new [d_blocks], assigned before the checks, and the outcome. *)
Definition validate (edges : list edge) : list Z * res flow_error () :=
  let blocks := calc_used_blocks edges in
  (blocks, for_each (validate_block edges) blocks ()).

Definition has_block_p (blocks : list Z) (b : Z) : bool := existsb (fun x => x =? b) blocks.

End Flowgraph.

(** ** [unique_vector] is the sorted set of the elements *)

Lemma unique_copy_in v x : x ∈ unique_copy v <-> x ∈ v.
Proof.
  induction v as [|y [|z v] IH]; [done..|].
  change (unique_copy (y :: z :: v)) with
    (if y =? z then unique_copy (z :: v) else y :: unique_copy (z :: v)).
  destruct (Z.eqb_spec y z) as [->|]; rewrite ?elem_of_cons, ?IH, ?elem_of_cons; tauto.
Qed.

Lemma unique_copy_sorted v : StronglySorted Z.le v -> StronglySorted Z.lt (unique_copy v).
Proof.
  induction 1 as [|y v Hs IH Hy]; [constructor|].
  destruct v as [|z v]; [repeat constructor|].
  change (unique_copy (y :: z :: v)) with
    (if y =? z then unique_copy (z :: v) else y :: unique_copy (z :: v)).
  destruct (Z.eqb_spec y z) as [->|Hne]; [done|]. constructor; [done|].
  apply Forall_forall. intros x Hx. rewrite unique_copy_in in Hx.
  apply StronglySorted_inv in Hs as [_ Hz].
  apply Forall_cons in Hy as [Hy _]. apply elem_of_cons in Hx as [->|Hx]; [lia|].
  rewrite Forall_forall in Hz. specialize (Hz x Hx). lia.
Qed.

Lemma unique_vector_in v x : x ∈ unique_vector v <-> x ∈ v.
Proof. unfold unique_vector. by rewrite unique_copy_in, (merge_sort_Permutation Z.le v). Qed.

Lemma unique_vector_sorted v : StronglySorted Z.lt (unique_vector v).
Proof.
  apply unique_copy_sorted, (StronglySorted_merge_sort Z.le).
Qed.

Lemma sorted_lt_NoDup v : StronglySorted Z.lt v -> NoDup v.
Proof.
  induction 1 as [|y v Hs IH Hy]; constructor; [|done].
  intros Hin. rewrite Forall_forall in Hy. specialize (Hy y Hin). lia.
Qed.

Lemma unique_vector_NoDup v : NoDup (unique_vector v).
Proof. apply sorted_lt_NoDup, unique_vector_sorted. Qed.

(** ** The queries *)

Lemma calc_used_blocks_in edges b :
  b ∈ calc_used_blocks edges <-> exists e, e ∈ edges /\ (b = block (src e) \/ b = block (dst e)).
Proof.
  unfold calc_used_blocks. rewrite unique_vector_in, list_elem_of_join. split.
  - intros (l & Hb & (e & -> & He)%list_elem_of_fmap). exists e. set_solver.
  - intros (e & He & Hb). exists [block (src e); block (dst e)]. split; [set_solver|].
    apply list_elem_of_fmap. eauto.
Qed.

Lemma calc_downstream_blocks_in edges b x :
  x ∈ calc_downstream_blocks edges b <->
  exists e, e ∈ edges /\ block (src e) = b /\ block (dst e) = x.
Proof.
  unfold calc_downstream_blocks. rewrite unique_vector_in, list_elem_of_fmap.
  setoid_rewrite list_elem_of_filter. naive_solver.
Qed.

Lemma calc_adjacent_blocks_in edges b x :
  x ∈ calc_adjacent_blocks edges b <->
  exists e, e ∈ edges /\ ((block (src e) = b /\ block (dst e) = x) \/
                          (block (dst e) = b /\ block (src e) = x)).
Proof.
  unfold calc_adjacent_blocks. rewrite unique_vector_in, list_elem_of_join. split.
  - intros (l & Hx & (e & -> & He)%list_elem_of_fmap). exists e. split; [done|].
    destruct (Z.eqb_spec (block (src e)) b), (Z.eqb_spec (block (dst e)) b); set_solver.
  - intros (e & He & Hx). eexists. split; [|apply list_elem_of_fmap; eauto].
    destruct Hx as [[<- <-]|[<- <-]]; rewrite Z.eqb_refl; set_solver.
Qed.

Lemma calc_used_ports_in edges b inp x :
  x ∈ calc_used_ports edges b inp <->
  exists e, e ∈ edges /\ (if inp then dst e else src e) = {| block := b; port := x |}.
Proof.
  unfold calc_used_ports, calc_connections. rewrite unique_vector_in, list_elem_of_fmap.
  setoid_rewrite list_elem_of_filter. split.
  - intros (e & -> & Hb & He). exists e. split; [done|].
    destruct inp; [destruct (dst e)|destruct (src e)]; naive_solver.
  - intros (e & He & Hd). exists e. rewrite Hd. done.
Qed.

Lemma source_p_spec edges b : source_p edges b = true <-> forall e, e ∈ edges -> block (dst e) <> b.
Proof.
  unfold source_p, calc_upstream_edges. rewrite bool_decide_eq_true, length_zero_iff_nil. split.
  - intros Hn e He Hb.
    assert (e ∈ base.filter (fun p => block (dst p) = b) edges) as Hf
      by by apply list_elem_of_filter.
    rewrite Hn in Hf. by apply not_elem_of_nil in Hf.
  - intros Hn. destruct (base.filter _ edges) as [|e l] eqn:E; [done|].
    assert (e ∈ e :: l) as Hf by constructor. rewrite <- E in Hf.
    apply list_elem_of_filter in Hf as [Hb He]. by destruct (Hn e He).
Qed.

(** ** Sequences of ports *)

(** A strictly sorted vector of port numbers [i <= p] is contiguous from [i]
    if its last element says so. *)
Lemma sorted_last (v : list Z) i d :
  StronglySorted Z.lt v -> Forall (fun p => i <= p) v -> v <> [] ->
  i + Z.of_nat (length v) <= List.last v d + 1.
Proof.
  revert i. induction v as [|y v IH]; intros i Hs Hi Hne; [done|].
  apply StronglySorted_inv in Hs as [Hs Hy]. apply Forall_cons in Hi as [Hi _].
  destruct v as [|z v]; [simpl; lia|].
  assert (Forall (fun p => y + 1 <= p) (z :: v)) as Hy'.
  { eapply Forall_impl; [exact Hy|]. simpl. lia. }
  specialize (IH (y + 1) Hs Hy' ltac:(done)). simpl length in *.
  change (List.last (y :: z :: v) d) with (List.last (z :: v) d). lia.
Qed.

Lemma sorted_contiguous (v : list Z) i d :
  StronglySorted Z.lt v -> Forall (fun p => i <= p) v -> v <> [] ->
  List.last v d + 1 = i + Z.of_nat (length v) -> v = seqZ i (Z.of_nat (length v)).
Proof.
  revert i. induction v as [|y v IH]; intros i Hs Hi Hne Hl; [done|].
  pose proof (sorted_last (y :: v) y d Hs) as Hsl.
  apply StronglySorted_inv in Hs as [Hs Hy]. apply Forall_cons in Hi as [Hi _].
  assert (y = i) as ->.
  { ospecialize (Hsl _ ltac:(done)); [constructor; [lia|]; eapply Forall_impl; [exact Hy|]; simpl; lia|].
    lia. }
  rewrite seqZ_cons by (simpl; lia). f_equal.
  destruct v as [|z v]; [done|]. rewrite (IH (Z.succ i)) at 1.
  - f_equal. simpl length. lia.
  - done.
  - eapply Forall_impl; [exact Hy|]. simpl. lia.
  - done.
  - change (List.last (i :: z :: v) d) with (List.last (z :: v) d) in Hl. simpl length in *. lia.
Qed.

Lemma find_missing_ok v i : find_missing i v = Ok () <-> v = seqZ i (Z.of_nat (length v)).
Proof.
  revert i. induction v as [|y v IH]; intros i; [done|].
  simpl find_missing. rewrite seqZ_cons by (simpl; lia).
  replace (Z.pred (Z.of_nat (length (y :: v)))) with (Z.of_nat (length v)) by (simpl; lia).
  destruct (Z.eqb_spec y i) as [->|]; simpl;
    [|split; [done|by intros [= ->]]].
  rewrite IH. replace (Z.succ i) with (i + 1) by lia. split; [by intros <-|by intros [= <-]].
Qed.

(** The port reported is the first one not in use. *)
Lemma find_missing_throw v i e :
  StronglySorted Z.lt v -> Forall (fun p => i <= p) v ->
  find_missing i v = Throw e ->
  exists m, e = missing_connection m /\ i <= m /\ m ∉ v /\ forall j, i <= j < m -> j ∈ v.
Proof.
  revert i. induction v as [|y v IH]; intros i Hs Hi Hf; [done|].
  apply StronglySorted_inv in Hs as [Hs Hy]. apply Forall_cons in Hi as [Hi _].
  simpl in Hf. destruct (Z.eqb_spec y i) as [->|Hne]; simpl in Hf.
  - assert (Forall (fun p => i + 1 <= p) v) as Hv.
    { eapply Forall_impl; [exact Hy|]. simpl. lia. }
    destruct (IH _ Hs Hv Hf) as (m & -> & Hm & Hn & Hj).
    exists m. repeat split; [lia| |].
    + rewrite not_elem_of_cons. split; [lia|done].
    + intros j Hij. destruct (decide (j = i)) as [->|]; [constructor|].
      apply elem_of_cons. right. apply Hj. lia.
  - injection Hf as <-. exists i. repeat split; [lia| |lia].
    rewrite not_elem_of_cons. split; [done|]. intros Hin.
    rewrite Forall_forall in Hy. specialize (Hy i Hin). lia.
Qed.

(** ** Contiguity of the ports of a block *)

Definition sig_ok (sig : io_signature) : Prop :=
  0 <= min_streams sig /\ (max_streams sig = IO_INFINITE \/ min_streams sig <= max_streams sig).

(** What the constructor of [gr_io_signature] guarantees. *)
Lemma gr_io_signature_ok lo hi sizes sig :
  gr_io_signature lo hi sizes = Ok sig ->
  sig_ok sig /\ sizeof_stream_items sig <> [] /\
  (max_streams sig <> 0 -> Forall (fun s => 1 <= s) (sizeof_stream_items sig)).
Proof.
  unfold gr_io_signature. case_if; [done|]. case_bool_decide; [done|].
  case_if; [done|]. intros [= <-]. unfold sig_ok, IO_INFINITE in *. cbn. split_and!.
  - lia.
  - destruct (Z.eqb_spec hi (-1)); [by left|]. simpl in *. zbool. right. lia.
  - by destruct sizes; simpl in *; [lia|].
  - intros Hhi. rewrite (proj2 (Z.eqb_neq _ _) Hhi) in *. simpl in *.
    apply Forall_forall. intros s Hs%list_elem_of_In.
    destruct (Z.ltb_spec s 1); [|lia].
    rewrite (proj2 (existsb_exists _ _)) in * by (exists s; split; [done|by apply Z.ltb_lt]). done.
Qed.

(** The number of ports is within the bounds of the signature and the ports
    are numbered from zero without a gap. *)
Definition ports_ok (sig : io_signature) (ports : list Z) : Prop :=
  ports = seqZ 0 (Z.of_nat (length ports)) /\
  min_streams sig <= Z.of_nat (length ports) /\
  (max_streams sig = IO_INFINITE \/ Z.of_nat (length ports) <= max_streams sig).

Section Flow.
Context (input_signature output_signature : Z -> io_signature).
Context (check_topology : Z -> Z -> Z -> bool).

Abbreviation connect := (connect input_signature output_signature).
Abbreviation validate := (validate input_signature output_signature check_topology).
Abbreviation check_contiguity := (check_contiguity input_signature output_signature).
Abbreviation signature b inp := (if inp : bool then input_signature b else output_signature b).

Lemma aget_last (v : list Z) : v.[Z.of_nat (length v) - 1] = List.last v 0.
Proof.
  induction v as [|x [|y v] IH]; [done..|].
  change (List.last (x :: y :: v) 0) with (List.last (y :: v) 0). rewrite <- IH.
  unfold aget. rewrite (proj2 (Z.ltb_ge _ _)) by (simpl; lia).
  rewrite (proj2 (Z.ltb_ge _ _)) by (simpl; lia).
  replace (Z.to_nat (Z.of_nat (length (x :: y :: v)) - 1))
    with (S (Z.to_nat (Z.of_nat (length (y :: v)) - 1))) by (simpl; lia). done.
Qed.

Lemma check_contiguity_ok b ports inp :
  sig_ok (signature b inp) -> StronglySorted Z.lt ports -> Forall (fun p => 0 <= p) ports ->
  check_contiguity b ports inp = Ok () <-> ports_ok (signature b inp) ports.
Proof.
  intros [Hmin Hmax] Hs Hp. unfold GrFlowgraph.check_contiguity, ports_ok.
  set (sig := signature b inp) in *. destruct ports as [|p ports].
  { change (Z.of_nat (length [])) with 0. cbn [Z.eqb andb].
    destruct (Z.eqb_spec (min_streams sig) 0); cbn [andb].
    - split; [intros _|done]. split_and!; [done|lia|]. destruct Hmax; [by left|right; lia].
    - rewrite (proj2 (Z.ltb_lt _ _)) by lia. split; [done|lia]. }
  set (v := p :: ports) in *.
  rewrite (proj2 (Z.eqb_neq (Z.of_nat (length v)) 0)) by (simpl; lia). cbn [andb].
  case_if; [split; [done|lia]|].
  destruct (Z.ltb_spec (max_streams sig) (Z.of_nat (length v))), (Z.eqb_spec (max_streams sig) IO_INFINITE);
    cbn [andb negb]; try (split; [done|lia]); rewrite aget_last.
  all: assert (v = seqZ 0 (Z.of_nat (length v)) <->
    (if negb (List.last v 0 + 1 =? Z.of_nat (length v)) then find_missing 0 v else Ok ()) = Ok ()) as <-.
  1,3,5: destruct (Z.eqb_spec (List.last v 0 + 1) (Z.of_nat (length v))); cbn [negb];
    [split; [done|intros _; by apply (sorted_contiguous v 0 0)]|by rewrite find_missing_ok].
  all: split; [intros ?; split_and!; auto; lia|tauto].
Qed.

(** ** Connecting: the edge list stays well formed *)

Definition port_ok (sig : io_signature) (p : Z) : Prop :=
  0 <= p /\ (max_streams sig = IO_INFINITE \/ p < max_streams sig).

Definition item_size (sig : io_signature) (p : Z) : Z :=
  (sizeof_stream_items sig).[Z.min p (Z.of_nat (length (sizeof_stream_items sig)) - 1)].

Record edge_ok (e : edge) : Prop := {
  src_port_ok : port_ok (output_signature (block (src e))) (port (src e));
  dst_port_ok : port_ok (input_signature (block (dst e))) (port (dst e));
  sizes_match : item_size (output_signature (block (src e))) (port (src e)) =
                item_size (input_signature (block (dst e))) (port (dst e))
}.

(** Every edge joins valid ports of the same item size, and no input port has
    two writers. *)
Definition edges_ok (edges : list edge) : Prop :=
  Forall edge_ok edges /\ NoDup (dst <$> edges).

Lemma check_valid_port_ok sig p : check_valid_port sig p = Ok () <-> port_ok sig p.
Proof.
  unfold check_valid_port, port_ok. case_if; [split; [done|lia]|].
  destruct (Z.eqb_spec (max_streams sig) IO_INFINITE) as [->|]; simpl; [split; auto|].
  case_if; split; try done; lia.
Qed.

Lemma check_dst_not_used_ok edges d : check_dst_not_used edges d = Ok () <-> d ∉ dst <$> edges.
Proof.
  unfold check_dst_not_used. destruct (existsb _ edges) eqn:E.
  - split; [done|]. intros Hd. apply existsb_exists in E as (e & He & Hb).
    apply bool_decide_eq_true in Hb as <-. destruct Hd.
    apply list_elem_of_fmap. exists e. split; [done|by apply list_elem_of_In].
  - split; [intros _|done]. intros (e & -> & He)%list_elem_of_fmap.
    rewrite (proj2 (existsb_exists _ _)) in E; [done|].
    exists e. split; [by apply list_elem_of_In|by apply bool_decide_eq_true].
Qed.

Lemma check_type_match_ok s d : 0 <= port s -> 0 <= port d ->
  check_type_match input_signature output_signature s d = Ok () <->
  item_size (output_signature (block s)) (port s) = item_size (input_signature (block d)) (port d).
Proof.
  intros Hs Hd. unfold check_type_match, sizeof_stream_item.
  rewrite !(proj2 (Z.ltb_ge _ _)) by lia. rewrite !ok_bind. fold (item_size (output_signature (block s)) (port s)).
  fold (item_size (input_signature (block d)) (port d)).
  destruct (Z.eqb_spec (item_size (output_signature (block s)) (port s))
    (item_size (input_signature (block d)) (port d))); simpl; split; done.
Qed.

(** [connect] succeeds exactly on a well formed edge to a free destination. *)
Lemma connect_ok s d edges edges' :
  connect s d edges = Ok edges' <->
  edge_ok {| src := s; dst := d |} /\ d ∉ dst <$> edges /\
  edges' = edges ++ [{| src := s; dst := d |}].
Proof.
  unfold GrFlowgraph.connect. rewrite !res_bind_unit.
  rewrite !check_valid_port_ok, check_dst_not_used_ok. split.
  - intros (Hs & Hd & Hu & Ht & [= <-]).
    apply check_type_match_ok in Ht; [|apply Hs|apply Hd]. done.
  - intros ([Hs Hd Ht] & Hu & ->). split_and!; try done.
    apply check_type_match_ok; [apply Hs|apply Hd|done].
Qed.

Lemma disconnect_ok s d edges edges' :
  disconnect s d edges = Ok edges' <->
  exists l1 l2, edges = l1 ++ {| src := s; dst := d |} :: l2 /\
    {| src := s; dst := d |} ∉ l1 /\ edges' = l1 ++ l2.
Proof.
  revert edges'. induction edges as [|e edges IH]; intros edges'; simpl.
  { split; [done|]. by intros ([|? ?] & ? & ? & _). }
  case_bool_decide as Hb.
  - destruct Hb as [-> ->]. split.
    + intros [= <-]. exists [], edges. destruct e. split_and!; [done|by apply not_elem_of_nil|done].
    + intros ([|x l1] & l2 & Heq & Hn & ->); [by injection Heq as _ ->|].
      injection Heq as <- ->. destruct Hn. destruct e. constructor.
  - rewrite res_bind_ok. setoid_rewrite IH. split.
    + intros (r & (l1 & l2 & -> & Hn & ->) & [= <-]). exists (e :: l1), l2. split_and!; try done.
      rewrite not_elem_of_cons. split; [|done]. intros He. apply Hb. by rewrite <- He.
    + intros ([|x l1] & l2 & Heq & Hn & ->).
      * injection Heq as -> ->. by destruct Hb.
      * injection Heq as -> ->. rewrite not_elem_of_cons in Hn.
        exists (l1 ++ l2). split; [|done]. exists l1, l2. naive_solver.
Qed.

Lemma disconnect_missing s d edges :
  {| src := s; dst := d |} ∉ edges <-> disconnect s d edges = Throw edge_not_found.
Proof.
  induction edges as [|e edges IH]; simpl; [split; [done|intros _; apply not_elem_of_nil]|].
  rewrite not_elem_of_cons. case_bool_decide as Hb.
  - destruct Hb as [-> ->], e. split; [naive_solver|done].
  - assert ({| src := s; dst := d |} <> e) by (intros He; apply Hb; by rewrite <- He).
    destruct (disconnect s d edges) as [r|[]]; simpl; split; naive_solver.
Qed.

(** ** Properties *)

(** What a caller may ask for; a request that throws leaves the edges alone. *)
Inductive request := Connect (s d : endpoint) | Disconnect (s d : endpoint).

Definition serve (edges : list edge) (r : request) : list edge :=
  match match r with Connect s d => connect s d edges | Disconnect s d => disconnect s d edges end with
  | Ok edges' => edges'
  | Throw _ => edges
  end.

Lemma connect_edges_ok s d edges edges' :
  edges_ok edges -> connect s d edges = Ok edges' -> edges_ok edges'.
Proof.
  intros [He Hn] (Hok & Hu & ->)%connect_ok. split.
  - apply Forall_app. split; [done|]. by constructor.
  - rewrite fmap_app. apply NoDup_app. split_and!; [done| |apply NoDup_singleton].
    intros x Hx Hd%list_elem_of_singleton. apply Hu. cbn in Hd. by rewrite <- Hd.
Qed.

Lemma disconnect_edges_ok s d edges edges' :
  edges_ok edges -> disconnect s d edges = Ok edges' -> edges_ok edges'.
Proof.
  intros [He Hn] (l1 & l2 & -> & _ & ->)%disconnect_ok. unfold edges_ok in *.
  rewrite Forall_app, Forall_cons in He. rewrite fmap_app in *. cbn [fmap list_fmap] in Hn.
  rewrite Forall_app. split; [tauto|].
  rewrite <- Permutation_middle, NoDup_cons in Hn. by destruct Hn.
Qed.

(** Whatever connections and disconnections are asked for, in any order,
    and whatever errors they raise, the edge list stays well formed: each edge
    joins two ports the blocks' signatures have, of the same item size, and no
    input port has two writers. *)
Theorem edges_stay_well_formed reqs : edges_ok (foldl serve [] reqs).
Proof using Type.
  assert (forall edges, edges_ok edges -> edges_ok (foldl serve edges reqs)) as H.
  { induction reqs as [|r reqs IH]; intros edges He; [done|]. apply IH. unfold serve.
    destruct r as [s d|s d].
    - destruct (connect s d edges) eqn:E; [by eapply connect_edges_ok|done].
    - destruct (disconnect s d edges) eqn:E; [by eapply disconnect_edges_ok|done]. }
  apply H. split; [by constructor|by apply NoDup_nil].
Qed.

(** Connecting two endpoints and disconnecting them gives back the edge
    list: [disconnect] finds the edge [connect] made and no other. *)
Theorem connect_disconnect s d edges edges' :
  connect s d edges = Ok edges' -> disconnect s d edges' = Ok edges.
Proof using Type.
  intros (_ & Hu & ->)%connect_ok. apply disconnect_ok. exists edges, []. split_and!; [done| |].
  - intros Hin. apply Hu. apply list_elem_of_fmap. by exists {| src := s; dst := d |}.
  - by rewrite app_nil_r.
Qed.

Context (Hsig : forall b inp, sig_ok (signature b inp)).

Lemma used_ports_sorted edges b inp : edges_ok edges ->
  StronglySorted Z.lt (calc_used_ports edges b inp) /\
  Forall (fun p => 0 <= p) (calc_used_ports edges b inp).
Proof.
  intros [He _]. split; [apply unique_vector_sorted|]. apply Forall_forall. intros p Hp.
  apply calc_used_ports_in in Hp as (e & Hin & Hd). rewrite Forall_forall in He.
  destruct (He e Hin) as [[Hs _] [Hd' _] _]. destruct inp; cbn in Hd; [rewrite Hd in Hd'; exact Hd'|rewrite Hd in Hs; exact Hs].
Qed.

Abbreviation ports edges b inp := (calc_used_ports edges b inp).

Lemma validate_block_ok edges b : edges_ok edges ->
  validate_block input_signature output_signature check_topology edges b () = Ok () <->
  (forall inp, ports_ok (signature b inp) (ports edges b inp)) /\
  check_topology b (Z.of_nat (length (ports edges b true)))
    (Z.of_nat (length (ports edges b false))) = true.
Proof using Hsig.
  intros He. unfold validate_block. rewrite !res_bind_unit.
  destruct (used_ports_sorted edges b true He), (used_ports_sorted edges b false He).
  rewrite !check_contiguity_ok by first [apply (Hsig b true)|apply (Hsig b false)|assumption].
  destruct (check_topology b _ _); simpl; split.
  - intros (? & ? & _). split; [by intros []|done].
  - intros [Hp _]. split_and!; [apply (Hp true)|apply (Hp false)|done].
  - by intros (? & ? & ?).
  - by intros [_ ?].
Qed.

Lemma validate_sound edges : edges_ok edges ->
  (validate edges).1 = calc_used_blocks edges /\
  ((validate edges).2 = Ok () <->
   forall e b, e ∈ edges -> b = block (src e) \/ b = block (dst e) ->
     (forall inp, ports_ok (signature b inp) (ports edges b inp)) /\
     check_topology b (Z.of_nat (length (ports edges b true)))
       (Z.of_nat (length (ports edges b false))) = true).
Proof using Hsig.
  intros He. split; [done|]. cbn [snd GrFlowgraph.validate].
  assert (forall bs, for_each (validate_block input_signature output_signature check_topology edges) bs () = Ok () <->
    Forall (fun b => validate_block input_signature output_signature check_topology edges b () = Ok ()) bs) as ->.
  { induction bs as [|b bs IH]; cbn [for_each]; [by split|].
    rewrite Forall_cons, res_bind_ok, <- IH. split; [intros ([] & ? & ?); done|intros []; eauto]. }
  rewrite Forall_forall. setoid_rewrite calc_used_blocks_in. split.
  - intros Hb e b Hin Hor. apply validate_block_ok; eauto.
  - intros Hb b (e & Hin & Hor). apply validate_block_ok; eauto.
Qed.

(** C27. [validate] accepts a flow graph exactly when, for every block with an
    edge, the connected input ports and the connected output ports are numbered
    from zero without a gap, their numbers are within the block's signatures,
    and the block accepts the two counts. *)
Theorem validate_spec edges : edges_ok edges ->
  (validate edges).1 = calc_used_blocks edges /\
  ((validate edges).2 = Ok () <->
   forall e b, e ∈ edges -> b = block (src e) \/ b = block (dst e) ->
     (forall inp, ports_ok (signature b inp) (ports edges b inp)) /\
     check_topology b (Z.of_nat (length (ports edges b true)))
       (Z.of_nat (length (ports edges b false))) = true).
Proof using Hsig. apply validate_sound. Qed.

(** When [validate] throws, the exception tells the truth: too few ports
    are connected on some block, or too many, or the block rejects the counts,
    or the port it names is the first one that is not connected. *)
Theorem validate_error edges e : edges_ok edges -> (validate edges).2 = Throw e ->
  exists b, b ∈ calc_used_blocks edges /\
  match e with
  | insufficient_ports => exists inp,
      Z.of_nat (length (ports edges b inp)) < min_streams (signature b inp)
  | too_many_ports => exists inp, max_streams (signature b inp) <> IO_INFINITE /\
      max_streams (signature b inp) < Z.of_nat (length (ports edges b inp))
  | missing_connection m => exists inp, 0 <= m /\ m ∉ ports edges b inp /\
      forall j, 0 <= j < m -> j ∈ ports edges b inp
  | topology_failed => check_topology b (Z.of_nat (length (ports edges b true)))
      (Z.of_nat (length (ports edges b false))) = false
  | _ => False
  end.
Proof using Type.
  intros He. cbn [snd GrFlowgraph.validate]. generalize (calc_used_blocks edges) as bs.
  induction bs as [|b bs IH]; [done|]. cbn [for_each]. intros Hf.
  destruct (validate_block _ _ _ edges b ()) as [[]|e'] eqn:E.
  { destruct (IH Hf) as (b' & Hb' & Hc). exists b'. split; [by constructor|done]. }
  injection Hf as ->. exists b. split; [constructor|]. unfold validate_block in E.
  assert (forall inp, check_contiguity b (ports edges b inp) inp = Throw e -> match e with
    | insufficient_ports => Z.of_nat (length (ports edges b inp)) < min_streams (signature b inp)
    | too_many_ports => max_streams (signature b inp) <> IO_INFINITE /\
        max_streams (signature b inp) < Z.of_nat (length (ports edges b inp))
    | missing_connection m => 0 <= m /\ m ∉ ports edges b inp /\
        forall j, 0 <= j < m -> j ∈ ports edges b inp
    | _ => False end) as Hc.
  { intros inp. destruct (used_ports_sorted edges b inp He) as [Hs Hp].
    unfold GrFlowgraph.check_contiguity. case_if; [done|]. case_if; [by intros [= <-]|].
    case_if; [intros [= <-]; zbool; split; lia|]. case_if; [|done].
    intros (m & -> & Hm & Hn & Hj)%find_missing_throw; done. }
  destruct (check_contiguity b (ports edges b true) true) as [[]|e1] eqn:E1.
  2: { injection E as ->. specialize (Hc true E1). destruct e; try contradiction; by exists true. }
  rewrite ok_bind in E. destruct (check_contiguity b (ports edges b false) false) as [[]|e2] eqn:E2.
  2: { injection E as ->. specialize (Hc false E2). destruct e; try contradiction; by exists false. }
  rewrite ok_bind in E. by destruct (check_topology b _ _) eqn:?; [|injection E as <-].
Qed.
End Flow.

(** ** Witnesses: a source block 0 and a two-input block 1 *)

Definition ex_output (b : Z) : io_signature :=
  {| min_streams := 0; max_streams := IO_INFINITE; sizeof_stream_items := [4] |}.
Definition ex_input (b : Z) : io_signature :=
  if b =? 1 then {| min_streams := 1; max_streams := 2; sizeof_stream_items := [4; 4] |}
  else {| min_streams := 0; max_streams := 0; sizeof_stream_items := [0] |}.
Definition ex_edge (p q : Z) : edge :=
  {| src := {| block := 0; port := p |}; dst := {| block := 1; port := q |} |}.

Lemma ex_sig_ok b inp : sig_ok (if inp : bool then ex_input b else ex_output b).
Proof. unfold sig_ok, ex_input. destruct inp; [destruct (b =? 1)|]; cbn; unfold IO_INFINITE; lia. Qed.

Lemma ex_edges_ok q : 0 <= q < 2 -> edges_ok ex_input ex_output [ex_edge 0 q].
Proof.
  intros Hq. split; [|apply NoDup_singleton]. apply Forall_singleton.
  assert (q = 0 \/ q = 1) as [-> | ->] by lia.
  all: split; [split; [cbn; lia|by left]|split; [cbn; lia|right; cbn; lia]|reflexivity].
Qed.

Lemma connect_disconnect_witness :
  connect ex_input ex_output {| block := 0; port := 0 |} {| block := 1; port := 0 |} [ex_edge 0 1] =
    Ok [ex_edge 0 1; ex_edge 0 0] /\
  disconnect {| block := 0; port := 0 |} {| block := 1; port := 0 |} [ex_edge 0 1; ex_edge 0 0] =
    Ok [ex_edge 0 1].
Proof.
  split; [reflexivity|]. apply (connect_disconnect ex_input ex_output). reflexivity.
Defined.

Lemma validate_spec_witness :
  (validate ex_input ex_output (fun _ _ _ => true) [ex_edge 0 0]).2 = Ok ().
Proof.
  destruct (validate_spec ex_input ex_output (fun _ _ _ => true) ex_sig_ok [ex_edge 0 0]
    (ex_edges_ok 0 ltac:(lia))) as [_ H].
  apply H. intros e b He Hb. apply list_elem_of_singleton in He. subst e. split; [|reflexivity].
  intros inp. unfold ports_ok. destruct Hb as [-> | ->], inp; vm_compute; intuition discriminate.
Defined.

Lemma validate_error_witness :
  (validate ex_input ex_output (fun _ _ _ => true) [ex_edge 0 1]).2 = Throw (missing_connection 0) /\
  exists b, b ∈ calc_used_blocks [ex_edge 0 1].
Proof.
  split; [reflexivity|].
  destruct (validate_error ex_input ex_output (fun _ _ _ => true) [ex_edge 0 1] (missing_connection 0)
    (ex_edges_ok 1 ltac:(lia)) eq_refl) as (b & Hb & _).
  exists b. exact Hb.
Defined.
