(* ===== verification/GrGraph.v ===== *)
(** * Graph algorithms of the flow graph: [runtime/gr_flowgraph.cc]

    [partition] into connected components and [topological_sort], by depth
    first searches that mark the blocks' colors: the searches terminate, the
    components are exactly the connected ones, and the order runs every block
    before the blocks it feeds unless the graph has a loop. *)

From S2P Require Import Prelude.
From stdpp Require Import gmap relations sorting.
From S2P Require Import GrFlowgraph.
#[local] Open Scope Z_scope.
#[local] Open Scope cint_scope.

(** ** Colors *)

Inductive vcolor := WHITE | GREY | BLACK.

#[export] Instance vcolor_eq_dec : EqDecision vcolor.
Proof. solve_decision. Defined.

(** A block is created white. *)
Definition colors := gmap Z vcolor.
Definition color (c : colors) (b : Z) : vcolor := default WHITE (c !! b).
Definition set_color (v : vcolor) (b : Z) (c : colors) : colors := <[b := v]> c.

(** ** Partition *)

(** The recursion is bounded by [fuel]; running out of it is an error of the
    model, which the theorems exclude. *)
Fixpoint reachable_dfs_visit (edges : list edge) (fuel : nat) (b : Z) (c : colors) :
    res flow_error colors :=
  match fuel with
  | O => Throw out_of_fuel
  | S fuel =>
      let c := set_color BLACK b c in
      for_each (fun p c =>
        if bool_decide (color c p = WHITE) then reachable_dfs_visit edges fuel p c else Ok c)
        (calc_adjacent_blocks edges b) c
  end.

Definition whiten (blocks : list Z) (c : colors) : colors :=
  foldl (fun c p => set_color WHITE p c) c blocks.

Definition calc_reachable_blocks (edges : list edge) (b : Z) (blocks : list Z) (c : colors) :
    res flow_error (colors * list Z) :=
  let c := whiten blocks c in
  c ← reachable_dfs_visit edges (S (length blocks)) b c;
  Ok (c, base.filter (fun p => color c p = BLACK) blocks).

(** ** Topological sort *)

Definition sort_sources_first (edges : list edge) (blocks : list Z) : list Z :=
  base.filter (fun p => source_p edges p = true) blocks ++
  base.filter (fun p => source_p edges p = false) blocks.

Fixpoint topological_dfs_visit (edges : list edge) (fuel : nat) (b : Z) (st : colors * list Z) :
    res flow_error (colors * list Z) :=
  match fuel with
  | O => Throw out_of_fuel
  | S fuel =>
      let '(c, output) := st in
      st ← for_each (fun p st =>
          match color st.1 p with
          | WHITE => topological_dfs_visit edges fuel p st
          | GREY => Throw has_loops
          | BLACK => Ok st
          end) (calc_downstream_blocks edges b) (set_color GREY b c, output);
      let '(c, output) := st in
      Ok (set_color BLACK b c, output ++ [b])
  end.

Definition topological_sort (edges : list edge) (blocks : list Z) (c : colors) :
    res flow_error (colors * list Z) :=
  let tmp := sort_sources_first edges blocks in
  let c := whiten tmp c in
  st ← for_each (fun p st =>
      if bool_decide (color st.1 p = WHITE)
      then topological_dfs_visit edges (S (length blocks)) p st else Ok st) tmp (c, []);
  let '(c, result) := st in
  Ok (c, reverse result).

(** The loop of [partition], at most [fuel] rounds. *)
Fixpoint partition_loop (edges : list edge) (fuel : nat) (blocks : list Z) (c : colors) :
    res flow_error (list (list Z)) :=
  match blocks with
  | [] => Ok []
  | b :: _ =>
      match fuel with
      | O => Throw out_of_fuel
      | S fuel =>
          '(c, graph) ← calc_reachable_blocks edges b blocks c;
          '(c, sorted) ← topological_sort edges graph c;
          let blocks := base.filter (fun p => p ∉ graph) blocks in
          rest ← partition_loop edges fuel blocks c;
          Ok (sorted :: rest)
      end
  end.

Definition partition (edges : list edge) (c : colors) : res flow_error (list (list Z)) :=
  let blocks := calc_used_blocks edges in
  partition_loop edges (length blocks) blocks c.

(** ** Graphs of blocks *)

Section Graph.
Context (edges : list edge).

(** Block [a] has an output connected to an input of [b]. *)
Definition feeds (a b : Z) : Prop :=
  exists e, e ∈ edges /\ block (src e) = a /\ block (dst e) = b.

Definition adjacent (a b : Z) : Prop := feeds a b \/ feeds b a.

Definition closed (R : Z -> Z -> Prop) (U : list Z) : Prop :=
  forall a b, a ∈ U -> R a b -> b ∈ U.

Definition has_cycle (U : list Z) : Prop := exists b, b ∈ U /\ tc feeds b b.

(** Every block comes before the blocks it feeds. *)
Definition forward (l : list Z) : Prop :=
  forall l1 x l2, l = l1 ++ x :: l2 -> forall y, feeds x y -> y ∈ l2.

Lemma downstream_feeds a b : b ∈ calc_downstream_blocks edges a <-> feeds a b.
Proof. apply calc_downstream_blocks_in. Qed.

Lemma adjacent_spec a b : b ∈ calc_adjacent_blocks edges a <-> adjacent a b.
Proof. rewrite calc_adjacent_blocks_in. unfold adjacent, feeds. naive_solver. Qed.

#[export] Instance adjacent_sym : Symmetric adjacent.
Proof. unfold adjacent. intros a b. tauto. Qed.

Lemma used_closed : closed adjacent (calc_used_blocks edges).
Proof.
  intros a b _ Hab. apply calc_used_blocks_in.
  destruct Hab as [(e & He & <- & <-)|(e & He & <- & <-)]; eauto.
Qed.

Lemma closed_feeds U : closed adjacent U -> closed feeds U.
Proof. intros Hc a b Ha Hab. apply (Hc a b Ha). by left. Qed.

Lemma closed_tc R U a b : closed R U -> a ∈ U -> tc R a b -> b ∈ U.
Proof. intros Hc Ha. induction 1; eauto. Qed.

Lemma forward_acyclic l : NoDup l -> forward l -> ~ has_cycle l.
Proof.
  intros Hn Hf (b & Hb & Hc).
  assert (forall x y, tc feeds x y -> forall l1 l2, l = l1 ++ x :: l2 -> y ∈ l2) as H.
  { induction 1 as [x y Hxy|x y z Hxy Hyz IH]; intros l1 l2 ->; [by eapply Hf|].
    assert (y ∈ l2) as (l3 & l4 & ->)%list_elem_of_split by by eapply Hf.
    apply elem_of_app. right. apply elem_of_cons. right.
    apply (IH (l1 ++ x :: l3)). by rewrite <- app_assoc. }
  apply list_elem_of_split in Hb as (l1 & l2 & ->).
  specialize (H b b Hc l1 l2 eq_refl). apply NoDup_app in Hn as (_ & _ & Hn).
  by apply NoDup_cons in Hn as [Hn _].
Qed.

(** ** Colors *)

Lemma color_set_color v b c x : color (set_color v b c) x = if decide (x = b) then v else color c x.
Proof.
  unfold color, set_color, colors in *. destruct (decide (x = b)) as [->|Hne].
  - by rewrite lookup_insert_eq.
  - by rewrite lookup_insert_ne.
Qed.

Lemma color_whiten l c x : color (whiten l c) x = if decide (x ∈ l) then WHITE else color c x.
Proof.
  unfold whiten. revert c. induction l as [|y l IH]; intros c.
  { cbn [foldl]. case_decide as Hd; [by apply not_elem_of_nil in Hd|done]. }
  cbn [foldl]. rewrite IH, color_set_color.
  repeat case_decide; set_solver.
Qed.

(** The measure of the searches: how many blocks are not visited yet. *)
Definition whites (U : list Z) (c : colors) : nat :=
  length (base.filter (fun x => color c x = WHITE) U).

Lemma whites_mono U c c' :
  (forall x, x ∈ U -> color c' x = WHITE -> color c x = WHITE) -> (whites U c' <= whites U c)%nat.
Proof.
  unfold whites. induction U as [|y U IH]; intros Hx; [done|]. rewrite !filter_cons.
  ospecialize (IH _); [intros x ?; apply Hx; by constructor|].
  specialize (Hx y ltac:(constructor)). repeat case_decide; simpl; try lia. tauto.
Qed.

Lemma whites_lt U c c' b :
  (forall x, x ∈ U -> color c' x = WHITE -> color c x = WHITE) ->
  b ∈ U -> color c b = WHITE -> color c' b <> WHITE -> (whites U c' < whites U c)%nat.
Proof.
  unfold whites. intros Hx Hb Hc Hc'. induction U as [|y U IH]; [by apply not_elem_of_nil in Hb|].
  rewrite !filter_cons. apply elem_of_cons in Hb as [<-|Hb].
  - rewrite (decide_False (P := color c' b = WHITE)), (decide_True (P := color c b = WHITE)) by done.
    simpl. apply Nat.lt_succ_r, whites_mono. intros x ?. apply Hx. by constructor.
  - ospecialize (IH _ Hb); [intros x ?; apply Hx; by constructor|].
    specialize (Hx y ltac:(constructor)). repeat case_decide; simpl; try lia. tauto.
Qed.

Lemma whites_bound U c : (whites U c <= length U)%nat.
Proof. apply length_filter. Qed.

(** ** The depth first search of [topological_sort]

    The black blocks are those already put out, each after all the blocks it
    feeds; the grey ones are the path from the start to the current block. *)

Section Topo.
Context (U : list Z) (Hcl : closed feeds U).

Record topo_inv (c : colors) (out : list Z) : Prop := {
  black_out : forall x, x ∈ U -> color c x = BLACK <-> x ∈ out;
  out_in : forall x, x ∈ out -> x ∈ U;
  out_nodup : NoDup out;
  out_topo : forall l1 x l2, out = l1 ++ x :: l2 -> forall y, feeds x y -> y ∈ l1
}.

(** What a visit does to the colors: the path is restored, black stays. *)
Definition grows (c c' : colors) : Prop := forall x, x ∈ U ->
  (color c' x = GREY <-> color c x = GREY) /\ (color c x = BLACK -> color c' x = BLACK).

#[local] Instance grows_preorder : PreOrder grows.
Proof.
  split; [intros c x _; tauto|]. intros c1 c2 c3 H12 H23 x Hx.
  destruct (H12 x Hx), (H23 x Hx). tauto.
Qed.

Lemma grows_white c c' x : grows c c' -> x ∈ U -> color c' x = WHITE -> color c x = WHITE.
Proof. intros H Hx Hw. destruct (H x Hx) as [Hg Hb]. destruct (color c x) eqn:E; intuition congruence. Qed.

Definition path_to (c : colors) (b : Z) : Prop :=
  forall g, g ∈ U -> color c g = GREY -> tc feeds g b.

Definition visited (c : colors) (bs : list Z) (r : res flow_error (colors * list Z)) : Prop :=
  match r with
  | Ok (c', out') => topo_inv c' out' /\ grows c c' /\ forall b, b ∈ bs -> color c' b = BLACK
  | Throw e => e = has_loops /\ has_cycle U
  end.

(** The loop over the downstream blocks, given that the visits are right. *)
Lemma topological_loop (fuel : nat) bs c out :
  (forall b c out, topo_inv c out -> b ∈ U -> color c b = WHITE -> path_to c b ->
     (whites U c <= fuel)%nat -> visited c [b] (topological_dfs_visit edges fuel b (c, out))) ->
  topo_inv c out -> (forall b, b ∈ bs -> b ∈ U /\ path_to c b) -> (whites U c <= fuel)%nat ->
  visited c bs (for_each (fun p st =>
    match color st.1 p with
    | WHITE => topological_dfs_visit edges fuel p st
    | GREY => Throw has_loops
    | BLACK => Ok st
    end) bs (c, out)).
Proof using Hcl.
  intros Hvisit. revert c out. induction bs as [|b bs IH]; intros c out Hinv Hbs Hw; cbn [for_each].
  { split_and!; [done|done|]. by intros b ?%not_elem_of_nil. }
  destruct (Hbs b ltac:(constructor)) as [HbU Hpath].
  assert (forall c' out', topo_inv c' out' -> grows c c' -> color c' b = BLACK ->
    visited c (b :: bs) (for_each (fun p st =>
      match color st.1 p with
      | WHITE => topological_dfs_visit edges fuel p st
      | GREY => Throw has_loops
      | BLACK => Ok st
      end) bs (c', out'))) as Hrest.
  { intros c' out' Hinv' Hg Hb.
    ospecialize (IH c' out' Hinv' _ _).
    - intros p Hp. destruct (Hbs p ltac:(by constructor)) as [HpU Hpp]. split; [done|].
      intros g HgU Hgg. apply Hpp; [done|]. by apply (Hg g HgU).
    - etrans; [|exact Hw]. apply whites_mono. intros x Hx. by apply grows_white.
    - destruct (for_each _ bs (c', out')) as [[c2 out2]|e]; [|done].
      destruct IH as (Hi2 & Hg2 & Hb2). split_and!; [done|by transitivity c'|].
      intros p [->|Hp]%elem_of_cons; [by apply (Hg2 b HbU)|auto]. }
  cbn [fst]. destruct (color c b) eqn:Hc.
  - specialize (Hvisit b c out Hinv HbU Hc Hpath Hw).
    destruct (topological_dfs_visit edges fuel b (c, out)) as [[c' out']|e]; [|done].
    destruct Hvisit as (Hi & Hg & Hb). apply Hrest; [done..|]. apply Hb. constructor.
  - split; [done|]. exists b. split; [done|]. by apply Hpath.
  - by apply Hrest.
Qed.

Lemma topo_inv_grey b c out :
  topo_inv c out -> color c b = WHITE -> topo_inv (set_color GREY b c) out.
Proof.
  intros [Hb Hi Hn Ht] Hw. split; [|done..]. intros x Hx. rewrite color_set_color.
  case_decide; [|by apply Hb]. subst. specialize (Hb b Hx). split; [done|].
  intros ?%Hb. congruence.
Qed.

Lemma topo_inv_black b c out :
  topo_inv c out -> b ∈ U -> color c b = GREY -> (forall y, feeds b y -> color c y = BLACK) ->
  topo_inv (set_color BLACK b c) (out ++ [b]).
Proof using Hcl.
  intros [Hb Hi Hn Ht] HbU Hg Hy.
  assert (b ∉ out) as Hno. { rewrite <- Hb by done. congruence. } split.
  - intros x Hx. rewrite color_set_color, elem_of_app, list_elem_of_singleton, <- Hb by done.
    case_decide; naive_solver.
  - intros x [Hx| ->%list_elem_of_singleton]%elem_of_app; auto.
  - apply NoDup_app. split_and!; [done| |apply NoDup_singleton].
    intros x Hx Hxb%list_elem_of_singleton. by subst.
  - intros l1 x l2 Heq y Hxy. destruct l2 as [|z l2] using rev_ind.
    + apply app_inj_tail in Heq as [-> ->]. apply Hb; [|by apply Hy]. by eapply Hcl.
    + rewrite app_comm_cons, app_assoc in Heq. apply app_inj_tail in Heq as [-> _].
      by eapply Ht.
Qed.

(** A visit never runs out of fuel: it either puts out the blocks reachable
    from its start or meets a loop. *)
Lemma topological_dfs_visit_spec fuel b c out :
  topo_inv c out -> b ∈ U -> color c b = WHITE -> path_to c b -> (whites U c <= fuel)%nat ->
  visited c [b] (topological_dfs_visit edges fuel b (c, out)).
Proof using Hcl.
  revert b c out. induction fuel as [|fuel IH]; intros b c out Hinv HbU Hw Hpath Hfuel.
  { pose proof (whites_lt U c (set_color BLACK b c) b) as Hlt.
    ospecialize (Hlt _ HbU Hw _); [| |lia].
    - intros x Hx. rewrite color_set_color. by case_decide.
    - rewrite color_set_color, decide_True by done. done. }
  cbn [topological_dfs_visit]. set (c1 := set_color GREY b c).
  assert (forall x, color c1 x = if decide (x = b) then GREY else color c x) as Hc1
    by (intros; apply color_set_color).
  pose proof (topological_loop fuel (calc_downstream_blocks edges b) c1 out IH) as Hloop.
  ospecialize (Hloop _ _ _).
  - by apply topo_inv_grey.
  - intros p Hp%downstream_feeds. split; [by eapply Hcl|]. intros g HgU Hg.
    rewrite Hc1 in Hg. case_decide; [subst; by apply tc_once|]. eapply tc_r; [by apply Hpath|done].
  - apply Nat.lt_succ_r. eapply Nat.lt_le_trans; [|exact Hfuel]. apply (whites_lt U c c1 b); try done.
    + intros x Hx. rewrite Hc1. by case_decide.
    + rewrite Hc1, decide_True by done. done.
  - destruct (for_each _ _ (c1, out)) as [[c' out']|e]; [|done].
    destruct Hloop as (Hinv' & Hg & Hb). rewrite ok_bind.
    assert (color c' b = GREY) as Hgrey.
    { apply (Hg b HbU). rewrite Hc1, decide_True by done. done. }
    split_and!.
    + apply topo_inv_black; [done..|]. intros y Hy. apply Hb. by apply downstream_feeds.
    + intros x Hx. rewrite color_set_color. destruct (Hg x Hx) as [Hxg Hxb]. rewrite Hc1 in *.
      case_decide; [subst; rewrite Hw; split; done|done].
    + intros x ->%list_elem_of_singleton. rewrite color_set_color, decide_True by done. done.
Qed.
End Topo.

Lemma sort_sources_first_perm blocks : sort_sources_first edges blocks ≡ₚ blocks.
Proof.
  unfold sort_sources_first. induction blocks as [|b blocks IH]; [done|].
  rewrite !filter_cons. destruct (source_p edges b) eqn:E; repeat case_decide; try congruence.
  - cbn [app]. by rewrite IH.
  - by rewrite <- Permutation_middle, IH.
Qed.

(** The outer loop, over blocks that are white or already put out. *)
Lemma topological_outer U n bs c out : closed feeds U ->
  topo_inv U c out -> (forall x, x ∈ U -> color c x <> GREY) -> (forall b, b ∈ bs -> b ∈ U) ->
  (length U <= n)%nat ->
  visited U c bs (for_each (fun p st =>
    if bool_decide (color st.1 p = WHITE) then topological_dfs_visit edges n p st else Ok st)
    bs (c, out)).
Proof.
  intros Hcl Hinv Hgrey Hbs Hn. revert c out Hinv Hgrey.
  induction bs as [|b bs IH]; intros c out Hinv Hgrey; cbn [for_each fst].
  { split_and!; [done|by apply grows_preorder|]. by intros b ?%not_elem_of_nil. }
  assert (b ∈ U) as HbU by (apply Hbs; constructor).
  assert (visited U c [b] (if bool_decide (color c b = WHITE)
    then topological_dfs_visit edges n b (c, out) else Ok (c, out))) as Hv.
  { case_bool_decide as Hw.
    - apply topological_dfs_visit_spec; [done..| |].
      + intros g HgU Hg. by destruct (Hgrey g HgU).
      + etrans; [apply whites_bound|done].
    - split_and!; [done|by apply grows_preorder|]. intros x ->%list_elem_of_singleton.
      specialize (Hgrey b HbU). destruct (color c b) eqn:E; congruence. }
  destruct (if bool_decide _ then _ else _) as [[c' out']|e]; [|done].
  destruct Hv as (Hinv' & Hg & Hb). rewrite ok_bind.
  ospecialize (IH _ c' out' Hinv' _).
  - intros x Hx. apply Hbs. by constructor.
  - intros x Hx. rewrite (proj1 (Hg x Hx)). by apply Hgrey.
  - destruct (for_each _ bs (c', out')) as [[c2 out2]|e]; [|done].
    destruct IH as (Hi2 & Hg2 & Hb2). split_and!; [done|by eapply grows_preorder|].
    intros p [->|Hp]%elem_of_cons; [apply (Hg2 b HbU), Hb; constructor|auto].
Qed.

Definition topological_order (blocks l : list Z) : Prop := l ≡ₚ blocks /\ forward l.

Lemma topological_sort_sound blocks c : NoDup blocks -> closed feeds blocks ->
  match topological_sort edges blocks c with
  | Ok (_, l) => topological_order blocks l
  | Throw e => e = has_loops /\ has_cycle blocks
  end.
Proof.
  intros Hn Hcl. unfold topological_sort. set (tmp := sort_sources_first edges blocks).
  assert (tmp ≡ₚ blocks) as Htmp by apply sort_sources_first_perm.
  assert (forall x, x ∈ blocks -> color (whiten tmp c) x = WHITE) as Hw.
  { intros x Hx. rewrite color_whiten, decide_True by by rewrite Htmp. done. }
  pose proof (topological_outer blocks (S (length blocks)) tmp (whiten tmp c) [] Hcl) as H.
  ospecialize (H _ _ _ _).
  - split; [|by intros x ?%not_elem_of_nil|apply NoDup_nil_2|by intros [|? ?] x l2 ?].
    intros x Hx. rewrite Hw by done. split; [done|by intros ?%not_elem_of_nil].
  - intros x Hx. by rewrite Hw.
  - intros x. by rewrite Htmp.
  - lia.
  - destruct (for_each _ tmp _) as [[c' out]|e]; [|done]. rewrite ok_bind.
    destruct H as ([Hbo Hin Hno Hto] & Hg & Hb). split.
    + rewrite (reverse_Permutation out). apply NoDup_Permutation; [done..|].
      intros x. split; [apply Hin|]. intros Hx. apply Hbo; [done|]. apply Hb. by rewrite Htmp.
    + intros l1 x l2 Heq y Hxy.
      assert (out = reverse l2 ++ x :: reverse l1) as Hout.
      { rewrite <- (reverse_involutive out), Heq, reverse_app, reverse_cons, <- app_assoc. done. }
      specialize (Hto _ _ _ Hout y Hxy). by rewrite elem_of_reverse in Hto.
Qed.

(** C28. [topological_sort] terminates, and throws exactly when the blocks it is
    given have a loop; otherwise it returns them all, each once, every block
    before all the blocks it feeds. *)
Theorem topological_sort_spec blocks c : NoDup blocks -> closed feeds blocks ->
  (exists c' l, topological_sort edges blocks c = Ok (c', l) /\
     topological_order blocks l /\ ~ has_cycle blocks) \/
  (topological_sort edges blocks c = Throw has_loops /\ has_cycle blocks).
Proof using Type.
  intros Hn Hcl. pose proof (topological_sort_sound blocks c Hn Hcl) as H.
  destruct (topological_sort edges blocks c) as [[c' l]|e].
  - left. exists c', l. destruct H as [Hp Hf]. split_and!; [done..|].
    intros (b & Hb & Hc). eapply forward_acyclic; [|exact Hf|].
    + by rewrite Hp.
    + exists b. by rewrite Hp.
  - right. destruct H as [-> H]. done.
Qed.

(** ** Reachable blocks *)

Section Reach.
Context (U : list Z) (Hcl : closed adjacent U).

(** What a visit from [b] does: it blackens blocks connected to [b], and all
    the neighbours of each block it blackens. *)
Record blackens (b : Z) (c c' : colors) : Prop := {
  black_mono : forall x, color c x = BLACK -> color c' x = BLACK;
  black_new : forall x, color c' x <> color c x ->
    color c' x = BLACK /\ rtc adjacent b x /\ forall y, adjacent x y -> color c' y = BLACK
}.

Lemma blackens_trans b c1 c2 c3 : blackens b c1 c2 -> blackens b c2 c3 -> blackens b c1 c3.
Proof.
  intros [Hm1 Hn1] [Hm2 Hn2]. split; [auto|]. intros x Hx.
  destruct (decide (color c3 x = color c2 x)) as [Heq|]; [|by apply Hn2].
  rewrite Heq in *. destruct (Hn1 x Hx) as (? & ? & ?). auto.
Qed.

Lemma blackens_white b c c' x : blackens b c c' -> color c' x = WHITE -> color c x = WHITE.
Proof.
  intros [_ Hn] Hx. destruct (decide (color c' x = color c x)); [congruence|].
  by destruct (Hn x) as [? _]; [|congruence].
Qed.

Definition no_grey (c : colors) : Prop := forall x, x ∈ U -> color c x <> GREY.

Lemma blackens_no_grey b c c' : blackens b c c' -> no_grey c -> no_grey c'.
Proof.
  intros [_ Hn] Hg x Hx. destruct (decide (color c' x = color c x)) as [->|Hne]; [by apply Hg|].
  destruct (Hn x Hne) as [-> _]. done.
Qed.

Lemma reachable_loop fuel b bs c :
  (forall b c, b ∈ U -> no_grey c -> color c b = WHITE -> (whites U c <= fuel)%nat ->
     exists c', reachable_dfs_visit edges fuel b c = Ok c' /\ blackens b c c' /\ color c' b = BLACK) ->
  (forall p, p ∈ bs -> p ∈ U /\ adjacent b p) -> no_grey c -> (whites U c <= fuel)%nat ->
  exists c', for_each (fun p c =>
      if bool_decide (color c p = WHITE) then reachable_dfs_visit edges fuel p c else Ok c) bs c = Ok c' /\
    blackens b c c' /\ forall p, p ∈ bs -> color c' p = BLACK.
Proof using Hcl.
  intros Hvisit. revert c. induction bs as [|p bs IH]; intros c Hbs Hg Hw; cbn [for_each].
  { exists c. split_and!; [done|split; [done|by intros x []]|by intros p ?%not_elem_of_nil]. }
  destruct (Hbs p ltac:(constructor)) as [HpU Hbp].
  assert (exists c', (if bool_decide (color c p = WHITE) then reachable_dfs_visit edges fuel p c else Ok c)
    = Ok c' /\ blackens b c c' /\ color c' p = BLACK) as (c1 & -> & H1 & Hp1).
  { case_bool_decide as Hc.
    - destruct (Hvisit p c HpU Hg Hc Hw) as (c1 & -> & [Hm Hn] & Hp). exists c1.
      split_and!; [done| |done]. split; [done|]. intros x Hx. destruct (Hn x Hx) as (? & ? & ?).
      split_and!; [done| |done]. by eapply rtc_l.
    - exists c. split_and!; [done|split; [done|by intros x []]|].
      specialize (Hg p HpU). destruct (color c p) eqn:E; congruence. }
  rewrite ok_bind. destruct (IH c1) as (c2 & -> & H2 & Hp2).
  - intros x Hx. apply Hbs. by constructor.
  - by eapply blackens_no_grey.
  - etrans; [|exact Hw]. apply whites_mono. intros x Hx. by eapply blackens_white.
  - exists c2. split_and!; [done|by eapply blackens_trans|].
    intros x [->|Hx]%elem_of_cons; [by apply (black_mono _ _ _ H2)|auto].
Qed.

Lemma reachable_dfs_visit_spec fuel b c :
  b ∈ U -> no_grey c -> color c b = WHITE -> (whites U c <= fuel)%nat ->
  exists c', reachable_dfs_visit edges fuel b c = Ok c' /\ blackens b c c' /\ color c' b = BLACK.
Proof using Hcl.
  revert b c. induction fuel as [|fuel IH]; intros b c HbU Hg Hw Hfuel.
  all: assert (whites U (set_color BLACK b c) < whites U c)%nat as Hlt.
  1,3: apply (whites_lt U c _ b); [|done|done|]; [intros x _|]; rewrite color_set_color;
      [by case_decide|by rewrite decide_True].
  { lia. }
  cbn [reachable_dfs_visit]. set (c1 := set_color BLACK b c) in *.
  assert (forall x, color c1 x = if decide (x = b) then BLACK else color c x) as Hc1
    by (intros; apply color_set_color).
  destruct (reachable_loop fuel b (calc_adjacent_blocks edges b) c1 IH) as (c2 & -> & [Hm Hn] & Hp).
  - intros p Hp%adjacent_spec. split; [by eapply Hcl|done].
  - intros x Hx. rewrite Hc1. case_decide; [done|by apply Hg].
  - lia.
  - assert (color c2 b = BLACK) as Hb by (apply Hm; rewrite Hc1; by rewrite decide_True).
    exists c2. split_and!; [done| |done]. split.
    + intros x Hx. apply Hm. rewrite Hc1. by case_decide.
    + intros x Hx. destruct (decide (x = b)) as [->|Hne].
      * split_and!; [done|constructor|]. intros y Hy. apply Hp. by apply adjacent_spec.
      * apply Hn. rewrite Hc1, decide_False by done. done.
Qed.

(** [calc_reachable_blocks] collects the connected component of [b]. *)
Lemma calc_reachable_blocks_spec b c : b ∈ U ->
  exists c' g, calc_reachable_blocks edges b U c = Ok (c', g) /\
    (forall x, x ∈ g <-> rtc adjacent b x) /\ sublist g U.
Proof using Hcl.
  intros Hb. unfold calc_reachable_blocks.
  assert (forall x, x ∈ U -> color (whiten U c) x = WHITE) as Hw.
  { intros x Hx. by rewrite color_whiten, decide_True. }
  destruct (reachable_dfs_visit_spec (S (length U)) b (whiten U c)) as (c' & -> & [Hm Hn] & Hbb).
  - done.
  - intros x Hx. by rewrite Hw.
  - by apply Hw.
  - etrans; [apply whites_bound|lia].
  - rewrite ok_bind. eexists c', _. split; [done|]. split; [|apply sublist_filter].
    assert (forall x, rtc adjacent b x -> x ∈ U /\ color c' x = BLACK) as Hr.
    { apply (rtc_ind_r (fun x => x ∈ U /\ color c' x = BLACK)); [done|].
      intros x y Hx Hxy [HxU Hxb]. split; [by eapply Hcl|].
      destruct (Hn x) as (_ & _ & Hy); [rewrite Hw by done; congruence|auto]. }
    intros x. rewrite list_elem_of_filter. split.
    + intros [Hxb HxU]. by destruct (Hn x) as (_ & ? & _); [rewrite Hw by done; congruence|].
    + intros Hx. by destruct (Hr x Hx).
Qed.
End Reach.

(** ** Partition into connected components *)

(** The blocks connected with a block of [g] are those of [g]. *)
Definition component (g : list Z) : Prop :=
  g <> [] /\ forall x, x ∈ g -> forall y, y ∈ g <-> rtc adjacent x y.

Definition partitioned (blocks : list Z) (gs : list (list Z)) : Prop :=
  mjoin gs ≡ₚ blocks /\ Forall (fun g => component g /\ forward g) gs.

Lemma rtc_adjacent_sym x y : rtc adjacent x y -> rtc adjacent y x.
Proof. induction 1 as [|x y z Hxy _ IH]; [done|]. eapply rtc_r; [exact IH|by symmetry]. Qed.

Lemma component_of b g : (forall x, x ∈ g <-> rtc adjacent b x) -> component g.
Proof.
  intros Hg. split; [intros ->; by apply (not_elem_of_nil b), Hg|].
  intros x Hx%Hg y. rewrite Hg. split.
  - intros Hy. transitivity b; [by apply rtc_adjacent_sym|done].
  - intros Hy. by transitivity x.
Qed.

Lemma remove_perm (g blocks : list Z) : NoDup blocks -> NoDup g -> (forall x, x ∈ g -> x ∈ blocks) ->
  g ++ base.filter (fun p => p ∉ g) blocks ≡ₚ blocks.
Proof.
  intros Hn Hg Hin. apply NoDup_Permutation; [|done|].
  - apply NoDup_app. split_and!; [done| |by apply NoDup_filter].
    intros x Hx [? _]%list_elem_of_filter. done.
  - intros x. rewrite elem_of_app, list_elem_of_filter. destruct (decide (x ∈ g)); naive_solver.
Qed.

Lemma partition_loop_sound fuel blocks c :
  NoDup blocks -> closed adjacent blocks -> (length blocks <= fuel)%nat ->
  match partition_loop edges fuel blocks c with
  | Ok gs => partitioned blocks gs
  | Throw e => e = has_loops /\ has_cycle blocks
  end.
Proof.
  revert blocks c. induction fuel as [|fuel IH]; intros blocks c Hn Hcl Hfuel.
  { destruct blocks; [|simpl in *; lia]. split; [done|constructor]. }
  destruct blocks as [|b blocks']; [split; [done|constructor]|]. cbn [partition_loop].
  set (blocks := b :: blocks') in *. assert (b ∈ blocks) as Hb by constructor.
  destruct (calc_reachable_blocks_spec blocks Hcl b c Hb) as (c1 & g & -> & Hg & Hsub).
  rewrite ok_bind. cbv beta iota.
  assert (NoDup g) as Hgn by by eapply sublist_NoDup.
  assert (component g) as Hcomp by by eapply component_of.
  assert (closed adjacent g) as Hgcl.
  { intros x y Hx%Hg Hxy. apply Hg. by eapply rtc_r. }
  assert (forall x, x ∈ g -> x ∈ blocks) as Hgin by (intros x Hx; by eapply elem_of_submseteq, sublist_submseteq).
  pose proof (topological_sort_sound g c1 Hgn (closed_feeds g Hgcl)) as Hts.
  destruct (topological_sort edges g c1) as [[c2 sorted]|e]; rewrite ?ok_bind; cbv beta iota.
  2: { destruct Hts as [-> (x & Hx & Hc)]. split; [done|]. exists x. auto. }
  destruct Hts as [Hperm Hfwd].
  set (rest := base.filter (fun p => p ∉ g) blocks) in *.
  assert (g ++ rest ≡ₚ blocks) as Hrest by by apply remove_perm.
  assert (length rest < length blocks)%nat as Hlen.
  { rewrite <- Hrest, length_app. destruct g; [by destruct Hcomp|simpl; lia]. }
  specialize (IH rest c2). ospecialize (IH _ _ _).
  - by apply NoDup_filter.
  - intros x y [Hx Hxb]%list_elem_of_filter Hxy. apply list_elem_of_filter.
    split; [|by eapply Hcl]. intros Hy. apply Hx. eapply Hgcl; [exact Hy|by symmetry].
  - lia.
  - destruct (partition_loop edges fuel rest c2) as [gs|e].
    + destruct IH as [Hp Hgs]. split.
      * cbn [mjoin list_join]. etrans; [|exact Hrest]. by rewrite Hperm, Hp.
      * constructor; [|done]. split; [|done]. split.
        -- intros ->. apply Permutation_nil_l in Hperm. destruct Hcomp as [Hc _]. by apply Hc.
        -- intros x Hx y. rewrite Hperm in *. by apply Hcomp.
    + destruct IH as [-> (x & Hx & Hc)]. split; [done|]. exists x. split; [|done].
      by apply list_elem_of_filter in Hx as [_ Hx].
Qed.

(** C12. [partition] terminates on every flow graph.  If the graph has a loop it
    throws; otherwise it returns every used block exactly once, grouped into the
    connected components of the graph, each in an order that runs every block
    before the blocks it feeds. *)
Theorem partition_spec c :
  (exists gs, partition edges c = Ok gs /\ partitioned (calc_used_blocks edges) gs /\
     ~ has_cycle (calc_used_blocks edges)) \/
  (partition edges c = Throw has_loops /\ has_cycle (calc_used_blocks edges)).
Proof using Type.
  pose proof (partition_loop_sound (length (calc_used_blocks edges)) (calc_used_blocks edges) c
    (unique_vector_NoDup _) used_closed ltac:(lia)) as H.
  unfold partition. destruct (partition_loop edges _ _ c) as [gs|e].
  - left. exists gs. split_and!; [done..|]. destruct H as [Hp Hgs]. intros (b & Hb & Hc).
    rewrite <- Hp in Hb. apply list_elem_of_join in Hb as (g & Hbg & Hg).
    rewrite Forall_forall in Hgs. destruct (Hgs g Hg) as [_ Hf].
    assert (NoDup (mjoin gs)) as Hn by (rewrite Hp; apply unique_vector_NoDup).
    apply (forward_acyclic g); [|done|by exists b].
    apply list_elem_of_split in Hg as (l1 & l2 & ->). rewrite join_app in Hn.
    apply NoDup_app in Hn as (_ & _ & Hn). by apply NoDup_app in Hn as [Hn _].
  - right. destruct H as [-> H]. done.
Qed.
End Graph.

(** ** Witnesses *)

Definition join_edge (a b q : Z) : edge :=
  {| src := {| block := a; port := 0 |}; dst := {| block := b; port := q |} |}.

(** Two sources 1 and 2, an adder 4 and a filter 3 behind the second source. *)
Definition two_sources : list edge := [join_edge 1 4 0; join_edge 2 3 0; join_edge 3 4 1].

Lemma two_sources_closed : closed (feeds two_sources) [1; 2; 3; 4].
Proof.
  intros a b _ (e & He & <- & <-). unfold two_sources in He.
  repeat (apply elem_of_cons in He as [->|He]; [cbn; set_solver|]). by apply not_elem_of_nil in He.
Qed.

Lemma topological_sort_spec_witness :
  exists c l, topological_sort two_sources [1; 2; 3; 4] ∅ = Ok (c, l) /\
    topological_order two_sources [1; 2; 3; 4] l.
Proof.
  destruct (topological_sort_spec two_sources [1; 2; 3; 4] ∅) as [(c & l & H & Ho & _)|[H _]].
  - apply (bool_decide_unpack (NoDup [1; 2; 3; 4])). exact I.
  - exact two_sources_closed.
  - exists c, l. split; [exact H|exact Ho].
  - vm_compute in H. discriminate H.
Defined.

(** The sources do not all come first in the sorted vector: with two
    sources, the blocks only the second one feeds are put before the first. *)
Theorem sources_not_first : exists c,
  topological_sort two_sources (calc_used_blocks two_sources) ∅ = Ok (c, [2; 3; 1; 4]) /\
  map (source_p two_sources) [2; 3; 1; 4] = [true; false; true; false].
Proof. eexists. split; reflexivity. Qed.
