(* ===== verification/GrBuffer.v ===== *)
(** * The stream buffer: [runtime/gr_buffer.cc], [gr_buffer.h]

    A circular buffer with one writer and any number of readers, mapped twice
    in a row so that every run of items is contiguous, and the stream tags kept
    beside it.  It implements a fifo per reader: [abs_step]. *)

From S2P Require Import Prelude.
From stdpp Require Import gmap.
#[local] Open Scope Z_scope.
#[local] Open Scope cint_scope.

(** ** Data *)

(** A tag is a tuple whose element 0 is the item it belongs to. *)
Record tag := { item_time : Z; tag_rest : list Z }.

#[export] Instance Default_tag : Default tag := {| item_time := 0; tag_rest := [] |}.

Record gr_buffer_reader := { d_read_index : Z; d_abs_read_offset : Z }.

(** The vector [d_readers] holds addresses of reader objects; [readers] is the
    heap they live in.  [d_base] is the memory behind both mappings. *)
Record gr_buffer := {
  d_base : list Z;
  d_bufsize : Z;
  d_readers : list Z;
  readers : gmap Z gr_buffer_reader;
  d_write_index : Z;
  d_abs_write_offset : Z;
  d_done : bool;
  d_item_tags : list tag;
  d_last_min_items_read : Z
}.

(** The exceptions and the failed assertions; [dangling] is the use of a
    reader that does not exist. *)
Inductive buffer_error :=
| bad_alloc | negative_preload | reader_not_found | assertion_failed | dangling.

Definition with_write (b : gr_buffer) wi off := {| d_base := d_base b; d_bufsize := d_bufsize b;
  d_readers := d_readers b; readers := readers b; d_write_index := wi; d_abs_write_offset := off;
  d_done := d_done b; d_item_tags := d_item_tags b; d_last_min_items_read := d_last_min_items_read b |}.
Definition with_readers (b : gr_buffer) v m := {| d_base := d_base b; d_bufsize := d_bufsize b;
  d_readers := v; readers := m; d_write_index := d_write_index b;
  d_abs_write_offset := d_abs_write_offset b; d_done := d_done b; d_item_tags := d_item_tags b;
  d_last_min_items_read := d_last_min_items_read b |}.
Definition with_tags (b : gr_buffer) tags m := {| d_base := d_base b; d_bufsize := d_bufsize b;
  d_readers := d_readers b; readers := readers b; d_write_index := d_write_index b;
  d_abs_write_offset := d_abs_write_offset b; d_done := d_done b; d_item_tags := tags;
  d_last_min_items_read := m |}.
Definition with_base (b : gr_buffer) mem := {| d_base := mem; d_bufsize := d_bufsize b;
  d_readers := d_readers b; readers := readers b; d_write_index := d_write_index b;
  d_abs_write_offset := d_abs_write_offset b; d_done := d_done b; d_item_tags := d_item_tags b;
  d_last_min_items_read := d_last_min_items_read b |}.
Definition with_done (b : gr_buffer) done := {| d_base := d_base b; d_bufsize := d_bufsize b;
  d_readers := d_readers b; readers := readers b; d_write_index := d_write_index b;
  d_abs_write_offset := d_abs_write_offset b; d_done := done; d_item_tags := d_item_tags b;
  d_last_min_items_read := d_last_min_items_read b |}.

(** ** Allocation *)

Definition minimum_buffer_items (type_size page_size : Z) : Z :=
  page_size ÷ Z.gcd type_size page_size.

(** The [int] arithmetic of [allocate_buffer]; signed overflow is undefined. *)
Definition round_up_items (nitems sizeof_item granularity : Z) : Z :=
  let min_nitems := minimum_buffer_items sizeof_item granularity in
  if negb (Z.rem nitems min_nitems =? 0) then ((nitems ÷ min_nitems) + 1) * min_nitems else nitems.

(** [make] is the memory the system maps for a size in bytes, if it can: here
    the items it holds. *)
Definition gr_make_buffer (granularity : Z) (make : Z -> option (list Z))
    (nitems sizeof_item : Z) : res buffer_error gr_buffer :=
  let bufsize := round_up_items nitems sizeof_item granularity in
  match make (bufsize * sizeof_item) with
  | None => Throw bad_alloc
  | Some mem => Ok {| d_base := mem; d_bufsize := bufsize; d_readers := []; readers := ∅;
      d_write_index := 0; d_abs_write_offset := 0; d_done := false; d_item_tags := [];
      d_last_min_items_read := 0 |}
  end.

(** ** Index arithmetic *)

Definition index_add (b : gr_buffer) (x y : Z) : res buffer_error Z :=
  let s := u32 (x + u32 y) in
  let s := if d_bufsize b <=? s then u32 (s - d_bufsize b) else s in
  if s <? d_bufsize b then Ok s else Throw assertion_failed.

Definition index_sub (b : gr_buffer) (x y : Z) : res buffer_error Z :=
  let s := s32 (u32 (x - u32 y)) in
  let s := if s <? 0 then s32 (u32 (s + d_bufsize b)) else s in
  if u32 s <? d_bufsize b then Ok (u32 s) else Throw assertion_failed.

(** ** Tags *)

(** The loop of [prune_tags] at iterator [itr]: an erase starts it over. *)
Fixpoint prune_loop (fuel : nat) (max_time itr : Z) (tags : list tag) : option (list tag) :=
  match fuel with
  | O => None
  | S fuel =>
      if itr =? Z.of_nat (length tags) then Some tags
      else if item_time tags.[itr] <? max_time
      then prune_loop fuel max_time 0 (delete (Z.to_nat itr) tags)
      else prune_loop fuel max_time (itr + 1) tags
  end.

Definition prune_fuel (tags : list tag) : nat := S (length tags) * S (length tags).

Definition prune_tags (max_time : Z) (tags : list tag) : list tag :=
  default [] (prune_loop (prune_fuel tags) max_time 0 tags).

Definition add_item_tag (b : gr_buffer) (t : tag) : gr_buffer :=
  with_tags b (d_item_tags b ++ [t]) (d_last_min_items_read b).

Definition get_tags_in_range (b : gr_buffer) (abs_start abs_end : Z) : list tag :=
  base.filter (fun t => abs_start <= item_time t < abs_end) (d_item_tags b).

(** ** The writer's side *)

Definition the_reader (b : gr_buffer) (r : Z) : res buffer_error gr_buffer_reader :=
  match readers b !! r with Some rd => Ok rd | None => Throw dangling end.

Definition items_available (b : gr_buffer) (r : Z) : res buffer_error Z :=
  rd ← the_reader b r;
  index_sub b (d_write_index b) (d_read_index rd).

(** The accumulator is [(most_data, min_items_read)]. *)
Definition survey_reader (b : gr_buffer) (r : Z) (acc : Z * Z) : res buffer_error (Z * Z) :=
  avail ← items_available b r;
  rd ← the_reader b r;
  Ok (Z.max acc.1 avail, Z.min acc.2 (d_abs_read_offset rd)).

Definition space_available (b : gr_buffer) : res buffer_error (gr_buffer * Z) :=
  match d_readers b with
  | [] => Ok (b, d_bufsize b - 1)
  | r0 :: rs =>
      most_data ← items_available b r0;
      rd ← the_reader b r0;
      '(most_data, min_items_read) ← for_each (survey_reader b) rs (most_data, d_abs_read_offset rd);
      let b :=
        if negb (min_items_read =? d_last_min_items_read b)
        then with_tags b (prune_tags (d_last_min_items_read b) (d_item_tags b)) min_items_read
        else b in
      Ok (b, d_bufsize b - most_data - 1)
  end.

Definition update_write_pointer (b : gr_buffer) (nitems : Z) : res buffer_error gr_buffer :=
  wi ← index_add b (d_write_index b) nitems;
  Ok (with_write b wi (u64 (d_abs_write_offset b + nitems))).

Definition set_done (b : gr_buffer) (done : bool) : gr_buffer := with_done b done.

(** Item [i] of the run that starts at item [index] of the first mapping: the
    second mapping continues the first. *)
Definition item_at (b : gr_buffer) (index i : Z) : Z := (d_base b).[(index + i) mod d_bufsize b].

(** The block stores [items] through [write_pointer]. *)
Fixpoint store_from (mem : list Z) (size index : Z) (items : list Z) : list Z :=
  match items with
  | [] => mem
  | x :: items => store_from (mem.[index mod size <- x]) size (index + 1) items
  end.

Definition store_items (b : gr_buffer) (items : list Z) : gr_buffer :=
  with_base b (store_from (d_base b) (d_bufsize b) (d_write_index b) items).

(** ** The readers' side *)

(** [r] is the address of the new reader. *)
Definition gr_buffer_add_reader (b : gr_buffer) (r nzero_preload : Z) : res buffer_error gr_buffer :=
  if nzero_preload <? 0 then Throw negative_preload
  else
    ri ← index_sub b (d_write_index b) nzero_preload;
    Ok (with_readers b (d_readers b ++ [r])
          (<[r := {| d_read_index := ri; d_abs_read_offset := 0 |}]> (readers b))).

Fixpoint erase_reader (r : Z) (v : list Z) : res buffer_error (list Z) :=
  match v with
  | [] => Throw reader_not_found
  | x :: v => if x =? r then Ok v else v ← erase_reader r v; Ok (x :: v)
  end.

(** The destructor of a reader: [drop_reader], then the object is gone. *)
Definition drop_reader (b : gr_buffer) (r : Z) : res buffer_error gr_buffer :=
  v ← erase_reader r (d_readers b);
  Ok (with_readers b v (delete r (readers b))).

(** The block loads item [i] through [read_pointer]. *)
Definition load_items (b : gr_buffer) (r n : Z) : res buffer_error (list Z) :=
  rd ← the_reader b r;
  Ok (map (item_at b (d_read_index rd)) (seqZ 0 n)).

Definition update_read_pointer (b : gr_buffer) (r nitems : Z) : res buffer_error gr_buffer :=
  rd ← the_reader b r;
  ri ← index_add b (d_read_index rd) nitems;
  Ok (with_readers b (d_readers b) (<[r := {| d_read_index := ri;
        d_abs_read_offset := u64 (d_abs_read_offset rd + nitems) |}]> (readers b))).

Definition max_possible_items_available (b : gr_buffer) : Z := d_bufsize b - 1.

(** ** Index arithmetic is arithmetic modulo the size *)

Definition size_ok (b : gr_buffer) : Prop :=
  0 < d_bufsize b < 2 ^ 31 /\ Z.of_nat (length (d_base b)) = d_bufsize b.

Lemma mod_step x N : 0 < N -> 0 <= x < 2 * N -> x mod N = if N <=? x then x - N else x.
Proof.
  intros HN Hx. case_if; [|apply Z.mod_small; lia].
  symmetry. apply (Z.mod_unique_pos x N 1); lia.
Qed.

Lemma index_add_ok b x y : size_ok b -> 0 <= x < d_bufsize b -> 0 <= y <= d_bufsize b ->
  index_add b x y = Ok ((x + y) mod d_bufsize b).
Proof.
  intros [HN _] Hx Hy. change (2 ^ 31) with 2147483648 in HN.
  unfold index_add. rewrite (u32_id y) by lia. rewrite (u32_id (x + y)) by lia.
  rewrite mod_step by lia.
  destruct (Z.leb_spec (d_bufsize b) (x + y)); rewrite ?u32_id by lia;
    (case_if; [done|exfalso; lia]).
Qed.

Lemma s32_small x : - 2 ^ 31 <= x < 2 ^ 31 -> s32 x = x.
Proof. apply (sx_id 32). lia. Qed.

Lemma s32_u32 x : s32 (u32 x) = s32 x.
Proof. unfold sx, ux. by rewrite Zplus_mod_idemp_l. Qed.

Lemma index_sub_ok b x y : size_ok b -> 0 <= x < d_bufsize b -> 0 <= y <= d_bufsize b ->
  index_sub b x y = Ok ((x - y) mod d_bufsize b).
Proof.
  intros [HN _] Hx Hy. change (2 ^ 31) with 2147483648 in HN.
  unfold index_sub. rewrite (u32_id y), !s32_u32 by lia.
  rewrite (s32_small (x - y)) by (norm_pow; lia).
  assert ((x - y) mod d_bufsize b = if x - y <? 0 then x - y + d_bufsize b else x - y) as ->.
  { case_if; [|apply Z.mod_small; lia].
    symmetry. apply (Z.mod_unique_pos _ _ (-1)); lia. }
  destruct (Z.ltb_spec (x - y) 0); rewrite ?s32_small by (norm_pow; lia); rewrite u32_id by lia;
    (case_if; [done|exfalso; lia]).
Qed.

(** ** Allocation *)

(** The smallest number of items that fills whole pages. *)
Lemma minimum_buffer_items_spec t g : 0 < t -> 0 < g ->
  0 < minimum_buffer_items t g /\
  forall k, (g | k * t) <-> (minimum_buffer_items t g | k).
Proof.
  intros Ht Hg. unfold minimum_buffer_items. set (d := Z.gcd t g).
  assert (0 < d) as Hd. { pose proof (Z.gcd_nonneg t g). destruct (Z.eq_dec d 0) as [H0|]; [|lia].
    apply Z.gcd_eq_0_l in H0. lia. }
  rewrite Z.quot_div_nonneg by lia.
  destruct (Z.gcd_divide_l t g) as [t' Ht'], (Z.gcd_divide_r t g) as [g' Hg'].
  fold d in Ht', Hg'. assert (g / d = g') as -> by (rewrite Hg'; apply Z.div_mul; lia).
  split; [nia|]. intros k. rewrite Hg', Ht'. split.
  - intros Hk. replace (k * (t' * d)) with (d * (k * t')) in Hk by lia.
    replace (g' * d) with (d * g') in Hk by lia.
    apply Z.mul_divide_cancel_l in Hk; [|lia].
    apply Z.gauss with t'; [by rewrite Z.mul_comm|].
    pose proof (Z.gcd_mul_mono_r_nonneg t' g' d ltac:(lia)) as Hgc.
    rewrite <- Ht', <- Hg' in Hgc. fold d in Hgc. rewrite Z.gcd_comm. nia.
  - intros [q ->]. exists (q * t'). lia.
Qed.

(** The buffer gets at least as many items as asked for, a whole number of
    pages, and the smallest such number. *)
Theorem round_up_items_spec nitems sizeof_item granularity :
  0 < sizeof_item -> 0 < granularity -> 0 <= nitems ->
  let size := round_up_items nitems sizeof_item granularity in
  nitems <= size /\ (granularity | size * sizeof_item) /\
  size < nitems + minimum_buffer_items sizeof_item granularity /\
  forall k, nitems <= k -> (granularity | k * sizeof_item) -> size <= k.
Proof.
  intros Ht Hg Hn size. destruct (minimum_buffer_items_spec sizeof_item granularity Ht Hg) as [Hm Hk].
  set (m := minimum_buffer_items sizeof_item granularity) in *.
  assert (nitems <= size /\ (m | size) /\ size < nitems + m) as (H1 & H2 & H3).
  { unfold size, round_up_items. fold m. rewrite Z.rem_mod_nonneg, Z.quot_div_nonneg by lia.
    pose proof (Z.div_mod nitems m ltac:(lia)). pose proof (Z.mod_pos_bound nitems m Hm).
    destruct (Z.eqb_spec (nitems mod m) 0) as [E|]; cbn [negb].
    - split_and!; [lia| |lia]. by apply Z.mod_divide; [lia|].
    - split_and!; [nia|by exists (nitems / m + 1)|nia]. }
  split_and!; [done|by apply Hk|done|].
  intros k Hnk Hgk. apply Hk in Hgk. destruct (Z.le_gt_cases size k); [done|exfalso].
  destruct H2 as [q Hq], Hgk as [p Hp].
  assert (p < q) by nia. assert (q < p + 1) by nia. lia.
Qed.


(** ** Pruning *)

Definition young (max_time : Z) (tags : list tag) : list tag :=
  base.filter (fun t => max_time <= item_time t) tags.

Lemma young_all max_time tags : Forall (fun t => max_time <= item_time t) tags -> young max_time tags = tags.
Proof.
  unfold young. induction 1 as [|t tags Ht _ IH]; [done|]. by rewrite filter_cons, decide_True, IH.
Qed.

(** With [k] tags left to look at of [n], at most [k + n * n] steps remain. *)
Lemma prune_loop_spec fuel max_time seen rest :
  Forall (fun t => max_time <= item_time t) seen ->
  (length rest + (length seen + length rest) * (length seen + length rest) < fuel)%nat ->
  prune_loop fuel max_time (Z.of_nat (length seen)) (seen ++ rest) =
  Some (young max_time (seen ++ rest)).
Proof.
  revert seen rest. induction fuel as [|fuel IH]; intros seen rest Hs Hf; [lia|].
  cbn [prune_loop]. rewrite length_app. destruct rest as [|t rest].
  { rewrite app_nil_r, (proj2 (Z.eqb_eq _ _)) by (simpl; lia). f_equal. symmetry. by apply young_all. }
  rewrite (proj2 (Z.eqb_neq _ _)) by (simpl; lia).
  assert ((seen ++ t :: rest).[Z.of_nat (length seen)] = t) as ->.
  { apply aget_lookup; [lia|]. rewrite Nat2Z.id. by apply list_lookup_middle. }
  simpl length in Hf. case_if.
  - rewrite Nat2Z.id, delete_middle. specialize (IH [] (seen ++ rest)). rewrite length_app in IH.
    change (Z.of_nat (length [])) with 0 in IH. cbn [app length plus] in IH. rewrite IH.
    + f_equal. unfold young. rewrite !filter_app, filter_cons, decide_False by lia. done.
    + constructor.
    + nia.
  - specialize (IH (seen ++ [t]) rest). rewrite <- app_assoc, length_app in IH.
    cbn [app length] in IH. rewrite <- IH.
    + f_equal. lia.
    + apply Forall_app. split; [done|]. by constructor.
    + nia.
Qed.

Lemma prune_tags_young max_time tags :
  prune_loop (prune_fuel tags) max_time 0 tags = Some (prune_tags max_time tags) /\
  prune_tags max_time tags = young max_time tags.
Proof.
  assert (prune_loop (prune_fuel tags) max_time 0 tags = Some (young max_time tags)) as H.
  { apply (prune_loop_spec _ max_time [] tags); [constructor|]. unfold prune_fuel. cbn [length]. nia. }
  unfold prune_tags. rewrite H. done.
Qed.

(** The erasing loop of [prune_tags], which starts over after each erase,
    terminates; it drops the tags before [max_time] and keeps the others, in
    order. *)
Theorem prune_tags_spec max_time tags :
  prune_loop (prune_fuel tags) max_time 0 tags =
  Some (base.filter (fun t => max_time <= item_time t) tags).
Proof. destruct (prune_tags_young max_time tags) as [-> ->]. done. Qed.

(** ** The buffer in use

    The writer's block finds the space there is ([room]), stores items in it and
    publishes some of them; each reader's block finds the items there are,
    loads some and consumes some.  The steps interleave freely: the space the
    writer found may be out of date when it is used. *)

Record system := { buf : gr_buffer; room : Z }.

Inductive event :=
| Space (n : Z)
| Store (items : list Z)
| Produce (items : list Z)
| Peek (r : Z) (items : list Z)
| Consume (r n : Z)
| AddReader (r n : Z)
| DropReader (r : Z).

Definition run_at (b : gr_buffer) (index n : Z) : list Z := map (item_at b index) (seqZ 0 n).

Abbreviation zlen l := (Z.of_nat (length l)).

Inductive step : system -> event -> system -> Prop :=
| step_space b room b' n :
    space_available b = Ok (b', n) ->
    step {| buf := b; room := room |} (Space n) {| buf := b'; room := n |}
| step_store b room items :
    zlen items <= room ->
    step {| buf := b; room := room |} (Store items) {| buf := store_items b items; room := room |}
| step_produce b room n b' :
    0 <= n <= room -> update_write_pointer b n = Ok b' ->
    step {| buf := b; room := room |} (Produce (run_at b (d_write_index b) n))
      {| buf := b'; room := room - n |}
| step_peek b room r k n items :
    items_available b r = Ok k -> 0 <= n <= k -> load_items b r n = Ok items ->
    step {| buf := b; room := room |} (Peek r items) {| buf := b; room := room |}
| step_consume b room r k n b' :
    items_available b r = Ok k -> 0 <= n <= k -> update_read_pointer b r n = Ok b' ->
    step {| buf := b; room := room |} (Consume r n) {| buf := b'; room := room |}
| step_add b room r n b' :
    readers b !! r = None -> n + room < d_bufsize b -> gr_buffer_add_reader b r n = Ok b' ->
    step {| buf := b; room := room |} (AddReader r n) {| buf := b'; room := room |}
| step_drop b room r b' :
    drop_reader b r = Ok b' ->
    step {| buf := b; room := room |} (DropReader r) {| buf := b'; room := room |}.

(** ** The specification: a fifo per reader

    [sent] is everything published so far, after the initial content of the
    memory; a reader's queue is what it has not consumed yet. *)

Record fifo := { sent : list Z; queues : gmap Z (list Z) }.

Inductive abs_step : fifo -> event -> fifo -> Prop :=
| abs_produce a items :
    abs_step a (Produce items)
      {| sent := sent a ++ items; queues := (fun q => q ++ items) <$> queues a |}
| abs_peek a r items rest :
    queues a !! r = Some (items ++ rest) -> abs_step a (Peek r items) a
| abs_consume a r n items rest :
    queues a !! r = Some (items ++ rest) -> n = zlen items ->
    abs_step a (Consume r n) {| sent := sent a; queues := <[r := rest]> (queues a) |}
| abs_add a r n before preload :
    queues a !! r = None -> sent a = before ++ preload -> n = zlen preload ->
    abs_step a (AddReader r n) {| sent := sent a; queues := <[r := preload]> (queues a) |}
| abs_drop a r :
    is_Some (queues a !! r) ->
    abs_step a (DropReader r) {| sent := sent a; queues := delete r (queues a) |}.

(** Finding space and storing items are invisible. *)
Definition visible (e : event) : list event :=
  match e with Space _ | Store _ => [] | e => [e] end.

(** ** The invariant

    Reader [r] has read up to item [pos !! r] of the history [H].  The last
    items of the history are in memory, except those in whose place the writer
    may be storing; no reader needs those. *)

Record rep (s : system) (H : list Z) (pos : gmap Z Z) : Prop := {
  rep_size : size_ok (buf s);
  rep_room : 0 <= room s < d_bufsize (buf s);
  rep_windex : d_write_index (buf s) = zlen H mod d_bufsize (buf s);
  rep_len : d_bufsize (buf s) <= zlen H;
  rep_cells : forall j, zlen H + room s - d_bufsize (buf s) <= j < zlen H ->
    (d_base (buf s)).[j mod d_bufsize (buf s)] = H.[j];
  rep_vector : NoDup (d_readers (buf s)) /\
    forall r, r ∈ d_readers (buf s) <-> is_Some (readers (buf s) !! r);
  rep_readers : forall r, option_Forall2 (fun rd p =>
      d_read_index rd = p mod d_bufsize (buf s) /\ p <= zlen H /\
      zlen H + room s - p < d_bufsize (buf s)) (readers (buf s) !! r) (pos !! r)
}.

Section Rep.
Context (s : system) (H : list Z) (pos : gmap Z Z) (Hrep : rep s H pos).
Abbreviation N := (d_bufsize (buf s)).

Lemma rep_pos_N : 0 < N < 2 ^ 31.
Proof using Hrep. apply Hrep. Qed.

Lemma rep_reader r rd : readers (buf s) !! r = Some rd ->
  exists p, pos !! r = Some p /\ d_read_index rd = p mod N /\ 0 <= p <= zlen H /\
    zlen H + room s - p < N.
Proof using Hrep.
  intros Hr. pose proof (rep_readers _ _ _ Hrep r) as Hf. rewrite Hr in Hf.
  inversion Hf as [? p (Hi & Hp & Hl)|]; subst. exists p.
  pose proof (rep_room _ _ _ Hrep). pose proof (rep_len _ _ _ Hrep). split_and!; try done; lia.
Qed.

Lemma rep_pos_reader r p : pos !! r = Some p ->
  exists rd, readers (buf s) !! r = Some rd /\ d_read_index rd = p mod N /\ 0 <= p <= zlen H /\
    zlen H + room s - p < N.
Proof using Hrep.
  intros Hp. pose proof (rep_readers _ _ _ Hrep r) as Hf. rewrite Hp in Hf.
  inversion Hf as [rd ? (Hi & Hph & Hl)|]; subst. exists rd.
  pose proof (rep_room _ _ _ Hrep). pose proof (rep_len _ _ _ Hrep). split_and!; try done; lia.
Qed.

Lemma rep_items_available r p : pos !! r = Some p -> items_available (buf s) r = Ok (zlen H - p).
Proof using Hrep.
  intros Hp. destruct (rep_pos_reader r p Hp) as (rd & Hr & Hi & Hph & Hl).
  pose proof rep_pos_N as HN. pose proof (rep_room _ _ _ Hrep).
  unfold items_available, the_reader. rewrite Hr, ok_bind, (rep_windex _ _ _ Hrep), Hi.
  rewrite index_sub_ok; [|apply Hrep|apply Z.mod_pos_bound; lia|].
  - rewrite <- Zminus_mod, Z.mod_small; [done|lia].
  - pose proof (Z.mod_pos_bound p N ltac:(lia)). lia.
Qed.

Lemma rep_available_inv r k : items_available (buf s) r = Ok k ->
  exists rd p, readers (buf s) !! r = Some rd /\ pos !! r = Some p /\ k = zlen H - p.
Proof using Hrep.
  intros Ha. assert (exists rd, readers (buf s) !! r = Some rd) as [rd Hr].
  { unfold items_available, the_reader in Ha. destruct (readers (buf s) !! r); [eauto|done]. }
  destruct (rep_reader r rd Hr) as (p & Hp & _). exists rd, p. split_and!; [done..|].
  rewrite (rep_items_available r p Hp) in Ha. by injection Ha as <-.
Qed.

(** A run of items the history still has in memory. *)
Lemma rep_run p n : 0 <= n -> zlen H + room s - N <= p -> p + n <= zlen H ->
  run_at (buf s) (p mod N) n = take (Z.to_nat n) (drop (Z.to_nat p) H).
Proof using Hrep.
  intros Hn Hp Hpn. pose proof rep_pos_N as HN.
  pose proof (rep_room _ _ _ Hrep). pose proof (rep_len _ _ _ Hrep).
  apply list_eq. intros i. unfold run_at. rewrite list_lookup_fmap.
  destruct (decide (i < Z.to_nat n)%nat) as [Hi|Hi].
  - rewrite lookup_seqZ_lt, lookup_take_lt, lookup_drop by lia. cbn [fmap option_fmap option_map].
    unfold item_at. rewrite Zplus_mod_idemp_l, (rep_cells _ _ _ Hrep) by lia.
    replace (Z.to_nat p + i)%nat with (Z.to_nat (p + (0 + Z.of_nat i))) by lia.
    destruct (H !! Z.to_nat (p + (0 + Z.of_nat i))) eqn:E.
    + f_equal. by apply aget_lookup; [lia|].
    + apply lookup_ge_None_1 in E. lia.
  - rewrite lookup_seqZ_ge, lookup_take_ge by lia. done.
Qed.
End Rep.

(** ** Preservation *)

Lemma available_ok b room H pos r p :
  rep {| buf := b; room := room |} H pos -> pos !! r = Some p ->
  items_available b r = Ok (zlen H - p).
Proof. intros Hrep. exact (rep_items_available _ _ _ Hrep r p). Qed.

Lemma rep_tags b room tags m H pos :
  rep {| buf := b; room := room |} H pos -> rep {| buf := with_tags b tags m; room := room |} H pos.
Proof. by intros []; split. Qed.

Lemma rep_set_room b room n H pos :
  rep {| buf := b; room := room |} H pos -> room <= n -> n < d_bufsize b ->
  (forall r p, pos !! r = Some p -> zlen H + n - p < d_bufsize b) ->
  rep {| buf := b; room := n |} H pos.
Proof.
  intros Hrep Hn HnN Hp. pose proof (rep_room _ _ _ Hrep). destruct Hrep as [? ? ? ? Hc ? Hr].
  cbn [buf GrBuffer.room] in *. split; cbn [buf GrBuffer.room]; try done; [lia| |].
  - intros j Hj. apply Hc. lia.
  - intros r. specialize (Hr r). specialize (Hp r). destruct Hr as [rd p (? & ? & ?)|]; constructor.
    split_and!; [done..|]. by apply Hp.
Qed.

Lemma survey_spec b room H pos rs m u : rep {| buf := b; room := room |} H pos ->
  (forall r, r ∈ rs -> is_Some (readers b !! r)) ->
  exists m' u', for_each (survey_reader b) rs (m, u) = Ok (m', u') /\
    m <= m' /\ u' <= u /\
    (forall r rd p, r ∈ rs -> readers b !! r = Some rd -> pos !! r = Some p ->
       zlen H - p <= m' /\ u' <= d_abs_read_offset rd) /\
    (m' = m \/ exists r p, pos !! r = Some p /\ m' = zlen H - p).
Proof.
  intros Hrep. revert m u. induction rs as [|r rs IH]; intros m u Hrs; cbn [for_each].
  { exists m, u. split_and!; [done|lia|lia| |by left]. by intros ? ? ? ?%not_elem_of_nil. }
  destruct (Hrs r ltac:(constructor)) as [rd Hrd].
  destruct (rep_reader _ _ _ Hrep r rd Hrd) as (p & Hp & _).
  assert (survey_reader b r (m, u) = Ok (Z.max m (zlen H - p), Z.min u (d_abs_read_offset rd))) as ->.
  { unfold survey_reader. rewrite (available_ok _ _ _ _ r p Hrep Hp), ok_bind.
    unfold the_reader. by rewrite Hrd. }
  rewrite ok_bind.
  destruct (IH (Z.max m (zlen H - p)) (Z.min u (d_abs_read_offset rd))) as
    (m' & u' & Hfe & Hm & Hu & Hall & Hatt).
  { intros x Hx. apply Hrs. by constructor. }
  exists m', u'. split_and!; [done|lia|lia| |].
  - intros x rdx px [->|Hx]%elem_of_cons Hrdx Hpx; [|by eapply Hall].
    cbn in *. rewrite Hp in Hpx. rewrite Hrd in Hrdx. injection Hpx as <-. injection Hrdx as <-. lia.
  - destruct Hatt as [->|?]; [|by right]. destruct (Z.max_spec m (zlen H - p)) as [[_ ->]|[_ ->]]; eauto.
Qed.

(** What [space_available] returns and does to the tags. *)
Lemma space_available_spec b room H pos : rep {| buf := b; room := room |} H pos ->
  exists b' n, space_available b = Ok (b', n) /\
    rep {| buf := b'; room := n |} H pos /\ room <= n /\
    (n = d_bufsize b - 1 /\ pos = ∅ \/
     exists r p, pos !! r = Some p /\ n = d_bufsize b - 1 - (zlen H - p)) /\
    (forall r p, pos !! r = Some p -> n <= d_bufsize b - 1 - (zlen H - p)) /\
    (b' = b \/ d_readers b <> [] /\ exists m,
       b' = with_tags b (prune_tags (d_last_min_items_read b) (d_item_tags b)) m /\
       forall r rd, readers b !! r = Some rd -> m <= d_abs_read_offset rd).
Proof.
  intros Hrep. pose proof (rep_vector _ _ _ Hrep) as [Hnd Hv]. cbn [buf] in Hv.
  pose proof (rep_room _ _ _ Hrep) as Hroom. cbn [buf GrBuffer.room] in Hroom.
  unfold space_available. destruct (d_readers b) as [|r0 rs] eqn:Hrs.
  { assert (pos = ∅) as ->.
    { apply map_empty. intros r. destruct (pos !! r) as [p|] eqn:Hp; [exfalso|done].
      destruct (rep_pos_reader _ _ _ Hrep r p Hp) as (rd & Hr & _). cbn [buf] in Hr.
      by eapply not_elem_of_nil, Hv, mk_is_Some. }
    exists b, (d_bufsize b - 1). split_and!; [done| |lia|by left| |by left].
    - eapply rep_set_room; [done|lia|lia|]. by intros r p ?%lookup_empty_Some.
    - by intros r p ?%lookup_empty_Some. }
  destruct (proj1 (Hv r0) ltac:(constructor)) as [rd0 Hrd0].
  destruct (rep_reader _ _ _ Hrep r0 rd0 Hrd0) as (p0 & Hp0 & _ & Hph0 & _).
  rewrite (available_ok _ _ _ _ r0 p0 Hrep Hp0), ok_bind.
  unfold the_reader. rewrite Hrd0, ok_bind.
  destruct (survey_spec b room H pos rs (zlen H - p0) (d_abs_read_offset rd0) Hrep) as
    (m & u & -> & Hm & Hu & Hall & Hatt).
  { intros r Hr. apply Hv. by constructor. }
  rewrite ok_bind. cbv beta iota.
  assert (forall r rd p, readers b !! r = Some rd -> pos !! r = Some p ->
    zlen H - p <= m /\ u <= d_abs_read_offset rd) as Hb.
  { intros r rd p Hr Hp. assert (r ∈ r0 :: rs) as [->|Hin]%elem_of_cons by (apply Hv; eauto); [|by eapply Hall].
    rewrite Hrd0 in Hr. rewrite Hp0 in Hp. injection Hr as <-. injection Hp as <-. lia. }
  assert (exists r p, pos !! r = Some p /\ m = zlen H - p) as (rm & pm & Hpm & ->).
  { destruct Hatt as [->|?]; eauto. }
  destruct (rep_pos_reader _ _ _ Hrep rm pm Hpm) as (rdm & Hrdm & _ & Hphm & Hlm).
  cbn [buf GrBuffer.room] in *.
  assert (rep {| buf := b; room := d_bufsize b - (zlen H - pm) - 1 |} H pos) as Hnew.
  { eapply rep_set_room; [done|lia|lia|]. intros r p Hp.
    destruct (rep_pos_reader _ _ _ Hrep r p Hp) as (rd & Hr & _). destruct (Hb r rd p Hr Hp). lia. }
  set (b1 := if negb (u =? d_last_min_items_read b) then _ else b).
  assert (d_bufsize b1 = d_bufsize b) as HN by (unfold b1; by destruct (negb _)).
  rewrite HN. eexists _, _. split; [reflexivity|]. unfold b1. split_and!.
  - destruct (negb _); [by apply rep_tags|done].
  - lia.
  - right. exists rm, pm. split; [done|lia].
  - intros r p Hp. destruct (rep_pos_reader _ _ _ Hrep r p Hp) as (rd & Hr & _).
    destruct (Hb r rd p Hr Hp). lia.
  - destruct (negb _); [right|by left]. split; [done|]. eexists. split; [reflexivity|].
    intros r rd Hr. destruct (rep_reader _ _ _ Hrep r rd Hr) as (p & Hp & _). by destruct (Hb r rd p Hr Hp).
Qed.

(** ** Storing *)

Lemma residues_differ x y N : 0 < x - y < N -> x mod N <> y mod N.
Proof.
  intros Hxy E. pose proof (Z.div_mod x N ltac:(lia)). pose proof (Z.div_mod y N ltac:(lia)).
  assert (N * (x / N - y / N) = x - y) as Hd by lia.
  assert (0 < x / N - y / N) by (apply (Z.mul_pos_cancel_l N); lia). nia.
Qed.

Lemma length_store_from mem size index items : length (store_from mem size index items) = length mem.
Proof.
  revert mem index. induction items as [|x items IH]; intros mem index; [done|].
  cbn [store_from]. by rewrite IH, length_aset.
Qed.

Lemma store_from_other mem size index items j : 0 < size -> zlen mem = size ->
  index + zlen items - size <= j < index ->
  (store_from mem size index items).[j mod size] = mem.[j mod size].
Proof.
  intros Hs. revert mem index. induction items as [|x items IH]; intros mem index Hm Hj; [done|].
  cbn [store_from]. simpl length in Hj. rewrite IH; [|by rewrite length_aset|lia].
  pose proof (Z.mod_pos_bound index size Hs). rewrite aget_aset_ne; [done|lia|].
  apply residues_differ. lia.
Qed.

Lemma store_from_run mem size index items i : 0 < size -> zlen mem = size ->
  zlen items <= size -> 0 <= i < zlen items ->
  (store_from mem size index items).[(index + i) mod size] = items.[i].
Proof.
  intros Hs. revert mem index i. induction items as [|x items IH]; intros mem index i Hm Hl Hi.
  { simpl in Hi. lia. }
  cbn [store_from]. simpl length in *. destruct (decide (i = 0)) as [->|Hi0].
  - rewrite Z.add_0_r. rewrite store_from_other; [|done|by rewrite length_aset|lia].
    apply aget_aset_eq. rewrite Hm. by apply Z.mod_pos_bound.
  - replace (index + i) with (index + 1 + (i - 1)) by lia.
    rewrite IH; [|by rewrite length_aset|lia|lia].
    unfold aget. rewrite !(proj2 (Z.ltb_ge _ _)) by lia.
    by replace (Z.to_nat i) with (S (Z.to_nat (i - 1))) by lia.
Qed.

Lemma rep_store b room items H pos : rep {| buf := b; room := room |} H pos -> zlen items <= room ->
  rep {| buf := store_items b items; room := room |} H pos.
Proof.
  intros Hrep Hi. pose proof (rep_pos_N _ _ _ Hrep) as HN. pose proof (rep_room _ _ _ Hrep) as Hroom.
  destruct Hrep as [[Hs Hlen] ? Hw ? Hc ? ?]. cbn [buf GrBuffer.room] in *.
  split; cbn [buf GrBuffer.room store_items with_base d_base d_bufsize d_write_index d_readers readers]; try done.
  - split; [done|]. cbn. by rewrite length_store_from.
  - intros j Hj. rewrite <- Hc by done. rewrite Hw.
    set (W := zlen H mod d_bufsize b) in *.
    assert (exists q, zlen H = W + q * d_bufsize b) as [q Hq].
    { exists (zlen H / d_bufsize b). pose proof (Z.div_mod (zlen H) (d_bufsize b) ltac:(lia)). unfold W. lia. }
    replace (j mod d_bufsize b) with ((j - q * d_bufsize b) mod d_bufsize b)
      by (rewrite <- (Z_mod_plus_full (j - q * d_bufsize b) q); f_equal; lia).
    apply store_from_other; [lia|done|lia].
Qed.

(** ** Publishing, consuming, readers coming and going *)

Lemma length_run_at b index n : 0 <= n -> zlen (run_at b index n) = n.
Proof. intros. unfold run_at. rewrite length_fmap, length_seqZ. lia. Qed.

Lemma aget_run_at b index n i : 0 <= i < n -> (run_at b index n).[i] = item_at b index i.
Proof.
  intros Hi. apply aget_lookup; [lia|]. unfold run_at.
  rewrite list_lookup_fmap, lookup_seqZ_lt by lia. cbn. f_equal. f_equal. lia.
Qed.

Lemma aget_app (l k : list Z) i :
  (l ++ k).[i] = if i <? zlen l then l.[i] else k.[i - zlen l].
Proof.
  unfold aget. destruct (Z.ltb_spec i 0).
  { rewrite (proj2 (Z.ltb_lt _ _)) by lia. done. }
  destruct (Z.ltb_spec i (zlen l)).
  - by rewrite lookup_app_l by lia.
  - rewrite (proj2 (Z.ltb_ge _ _)) by lia. rewrite lookup_app_r by lia.
    do 2 f_equal. lia.
Qed.

Lemma rep_produce b room n H pos : rep {| buf := b; room := room |} H pos -> 0 <= n <= room ->
  exists wi, update_write_pointer b n = Ok (with_write b wi (u64 (d_abs_write_offset b + n))) /\
    rep {| buf := with_write b wi (u64 (d_abs_write_offset b + n)); room := room - n |}
      (H ++ run_at b (d_write_index b) n) pos.
Proof.
  intros Hrep Hn. pose proof (rep_pos_N _ _ _ Hrep) as HN. pose proof (rep_room _ _ _ Hrep) as Hroom.
  destruct Hrep as [Hs ? Hw Hl Hc Hv Hr]. cbn [buf GrBuffer.room] in *.
  assert (zlen (H ++ run_at b (d_write_index b) n) = zlen H + n) as Hlen.
  { rewrite length_app, Nat2Z.inj_add, length_run_at by lia. done. }
  exists ((zlen H + n) mod d_bufsize b). split.
  { unfold update_write_pointer. rewrite Hw, index_add_ok; [|done|apply Z.mod_pos_bound; lia|lia].
    by rewrite ok_bind, Zplus_mod_idemp_l. }
  split; rewrite ?Hlen; cbn [buf GrBuffer.room with_write d_base d_bufsize d_readers readers d_write_index];
    try done; try lia.
  - intros j Hj. rewrite aget_app. case_if; [apply Hc; lia|].
    rewrite aget_run_at by lia. unfold item_at. rewrite Hw, Zplus_mod_idemp_l. do 2 f_equal. lia.
  - intros r. destruct (Hr r) as [rd p (? & ? & ?)|]; constructor. split_and!; [done|lia..].
Qed.

Lemma rep_update b room H pos v rd p r :
  rep {| buf := b; room := room |} H pos ->
  NoDup v -> (forall x, x ∈ v <-> x = r \/ x ∈ d_readers b) ->
  d_read_index rd = p mod d_bufsize b -> p <= zlen H -> zlen H + room - p < d_bufsize b ->
  rep {| buf := with_readers b v (<[r := rd]> (readers b)); room := room |} H (<[r := p]> pos).
Proof.
  intros [Hs Hroom Hw Hl Hc [Hn Hv] Hr] Hnd Hin Hi Hp Hlag. cbn [buf GrBuffer.room] in *.
  split; cbn [buf GrBuffer.room with_readers d_base d_bufsize d_readers readers d_write_index]; try done.
  - split; [done|]. intros x. rewrite Hin, lookup_insert_is_Some, Hv.
    destruct (decide (x = r)); naive_solver.
  - intros x. destruct (decide (x = r)) as [->|Hne].
    + rewrite !lookup_insert_eq. by constructor.
    + rewrite !lookup_insert_ne by done. apply Hr.
Qed.

Lemma rep_consume b room H pos r p n : rep {| buf := b; room := room |} H pos ->
  pos !! r = Some p -> 0 <= n <= zlen H - p ->
  exists b', update_read_pointer b r n = Ok b' /\
    rep {| buf := b'; room := room |} H (<[r := p + n]> pos).
Proof.
  intros Hrep Hp Hn. pose proof (rep_pos_N _ _ _ Hrep) as HN. pose proof (rep_room _ _ _ Hrep).
  destruct (rep_pos_reader _ _ _ Hrep r p Hp) as (rd & Hrd & Hi & Hph & Hlag).
  pose proof (rep_vector _ _ _ Hrep) as [Hnd Hv]. pose proof (rep_size _ _ _ Hrep).
  cbn [buf GrBuffer.room] in *. unfold update_read_pointer, the_reader. rewrite Hrd, ok_bind, Hi.
  rewrite index_add_ok; [|done|apply Z.mod_pos_bound; lia|lia]. rewrite ok_bind, Zplus_mod_idemp_l.
  eexists. split; [reflexivity|]. apply rep_update; try done; [|lia..].
  intros x. rewrite Hv. split; [by right|]. intros [-> | ?]; eauto.
Qed.

Lemma rep_add b room H pos r n : rep {| buf := b; room := room |} H pos ->
  readers b !! r = None -> 0 <= n -> n + room < d_bufsize b ->
  exists b', gr_buffer_add_reader b r n = Ok b' /\
    rep {| buf := b'; room := room |} H (<[r := zlen H - n]> pos) /\ pos !! r = None /\ n <= zlen H.
Proof.
  intros Hrep Hr Hn Hnr. pose proof (rep_pos_N _ _ _ Hrep) as HN. pose proof (rep_room _ _ _ Hrep).
  pose proof (rep_vector _ _ _ Hrep) as [Hnd Hv]. pose proof (rep_windex _ _ _ Hrep) as Hw.
  pose proof (rep_size _ _ _ Hrep). pose proof (rep_len _ _ _ Hrep).
  pose proof (rep_readers _ _ _ Hrep r) as Hpr. cbn [buf GrBuffer.room] in *.
  unfold gr_buffer_add_reader. rewrite (proj2 (Z.ltb_ge _ _)) by lia.
  rewrite Hw, index_sub_ok; [|done|apply Z.mod_pos_bound; lia|lia].
  rewrite ok_bind, Zminus_mod_idemp_l. eexists. split; [reflexivity|]. split_and!; [|by rewrite Hr in Hpr; inversion Hpr|lia].
  apply rep_update; try done; [| |lia..].
  - apply NoDup_app. split_and!; [done| |apply NoDup_singleton].
    intros x Hx ->%list_elem_of_singleton. apply Hv in Hx. rewrite Hr in Hx. by destruct Hx.
  - intros x. rewrite elem_of_app, list_elem_of_singleton. tauto.
Qed.

Lemma erase_reader_spec r v v' : erase_reader r v = Ok v' -> NoDup v ->
  r ∈ v /\ NoDup v' /\ forall x, x ∈ v' <-> x <> r /\ x ∈ v.
Proof.
  revert v'. induction v as [|y v IH]; intros v' He Hn; [done|]. cbn [erase_reader] in He.
  apply NoDup_cons in Hn as [Hy Hn]. destruct (Z.eqb_spec y r) as [->|Hne].
  - injection He as <-. split_and!; [constructor|done|]. intros x. rewrite elem_of_cons.
    split; [intros Hx; split; [by intros ->|by right]|by intros [? [?|?]]].
  - destruct (erase_reader r v) as [v1|]; [|done]. injection He as <-.
    destruct (IH v1 eq_refl Hn) as (Hr & Hn1 & Hx). split_and!.
    + by constructor.
    + constructor; [|done]. rewrite Hx. tauto.
    + intros x. rewrite !elem_of_cons, Hx. naive_solver.
Qed.

Lemma erase_reader_ok r v : r ∈ v -> exists v', erase_reader r v = Ok v'.
Proof.
  induction v as [|y v IH]; [by intros ?%not_elem_of_nil|]. intros Hr. cbn [erase_reader].
  case_if; [eauto|]. apply elem_of_cons in Hr as [->|Hr]; [done|].
  destruct (IH Hr) as [v' ->]. cbn. eauto.
Qed.

Lemma rep_drop b room H pos r b' : rep {| buf := b; room := room |} H pos ->
  drop_reader b r = Ok b' ->
  is_Some (pos !! r) /\ rep {| buf := b'; room := room |} H (delete r pos).
Proof.
  intros [Hs Hroom Hw Hl Hc [Hn Hv] Hr] Hd. cbn [buf GrBuffer.room] in *. unfold drop_reader in Hd.
  destruct (erase_reader r (d_readers b)) as [v|] eqn:He; [|done]. injection Hd as <-.
  destruct (erase_reader_spec r _ _ He Hn) as (Hin & Hnd & Hx). split.
  { apply Hv in Hin as [rd Hrd]. specialize (Hr r). rewrite Hrd in Hr. inversion Hr; eauto. }
  split; cbn [buf GrBuffer.room with_readers d_base d_bufsize d_readers readers d_write_index]; try done.
  - split; [done|]. intros x. rewrite Hx, lookup_delete_is_Some, Hv. naive_solver.
  - intros x. destruct (decide (x = r)) as [->|Hne].
    + rewrite !lookup_delete_eq. constructor.
    + rewrite !lookup_delete_ne by done. apply Hr.
Qed.

(** ** The refinement *)

Definition queues_of (H : list Z) (pos : gmap Z Z) : gmap Z (list Z) :=
  (fun p => drop (Z.to_nat p) H) <$> pos.

Definition shows (s : system) (a : fifo) : Prop :=
  exists pos, rep s (sent a) pos /\ queues a = queues_of (sent a) pos.

Lemma queues_of_lookup H pos r p : pos !! r = Some p ->
  queues_of H pos !! r = Some (drop (Z.to_nat p) H).
Proof. intros Hp. unfold queues_of. by rewrite lookup_fmap, Hp. Qed.

(** What a reader loads is the head of its queue. *)
Lemma rep_load b room H pos r p n items : rep {| buf := b; room := room |} H pos ->
  pos !! r = Some p -> 0 <= n <= zlen H - p -> load_items b r n = Ok items ->
  items = take (Z.to_nat n) (drop (Z.to_nat p) H).
Proof.
  intros Hrep Hp Hn Hl. destruct (rep_pos_reader _ _ _ Hrep r p Hp) as (rd & Hrd & Hi & Hph & Hlag).
  unfold load_items, the_reader in Hl. cbn [buf GrBuffer.room] in *. rewrite Hrd, ok_bind in Hl.
  injection Hl as <-. rewrite Hi.
  apply (rep_run _ _ _ Hrep p n); cbn [buf GrBuffer.room]; lia.
Qed.

Lemma buffer_step_refines s e s' a : shows s a -> step s e s' ->
  exists a', lsteps abs_step a (visible e) a' /\ shows s' a'.
Proof.
  assert (forall a e a', abs_step a e a' -> lsteps abs_step a [e] a') as one
    by (intros; econstructor; [done|constructor]).
  intros (pos & Hrep & Hq) Hs. destruct Hs as
    [b room b' n Hsp|b room items Hi|b room n b' Hn Hu|b room r k n items Ha Hn Hl
    |b room r k n b' Ha Hn Hu|b room r n b' Hr Hn Hadd|b room r b' Hd].
  - destruct (space_available_spec _ _ _ _ Hrep) as (b1 & n1 & Hs1 & Hrep1 & _).
    rewrite Hsp in Hs1. injection Hs1 as <- <-. exists a. split; [constructor|]. by exists pos.
  - exists a. split; [constructor|]. exists pos. split; [by apply rep_store|done].
  - destruct (rep_produce _ _ _ _ _ Hrep Hn) as (wi & Hok & Hrep'). rewrite Hu in Hok. injection Hok as ->.
    eexists. split; [by apply one, abs_produce|]. exists pos. split; [done|]. cbn [sent queues].
    rewrite Hq. apply map_eq. intros r. unfold queues_of. rewrite !lookup_fmap.
    destruct (pos !! r) as [p|] eqn:Hp; [|done]. cbn. f_equal.
    destruct (rep_pos_reader _ _ _ Hrep r p Hp) as (_ & _ & _ & Hph & _).
    rewrite drop_app_le by lia. done.
  - destruct (rep_available_inv _ _ _ Hrep r k Ha) as (rd & p & _ & Hp & ->).
    exists a. split; [|by exists pos]. apply one. apply (abs_peek a r items (drop (Z.to_nat n) (drop (Z.to_nat p) (sent a)))).
    rewrite (rep_load _ _ _ _ _ _ _ _ Hrep Hp Hn Hl), take_drop, Hq. by apply queues_of_lookup.
  - destruct (rep_available_inv _ _ _ Hrep r k Ha) as (rd & p & _ & Hp & ->).
    destruct (rep_consume _ _ _ _ _ _ _ Hrep Hp Hn) as (b1 & Hok & Hrep').
    rewrite Hu in Hok. injection Hok as <-.
    destruct (rep_pos_reader _ _ _ Hrep r p Hp) as (_ & _ & _ & Hph & _).
    eexists. split.
    + apply one. apply (abs_consume a r n (take (Z.to_nat n) (drop (Z.to_nat p) (sent a)))
        (drop (Z.to_nat n) (drop (Z.to_nat p) (sent a))));
        [by rewrite Hq, (queues_of_lookup _ _ _ _ Hp), take_drop|].
      rewrite length_take, length_drop. lia.
    + eexists. split; [exact Hrep'|]. cbn [sent queues]. rewrite Hq. unfold queues_of.
      rewrite fmap_insert, drop_drop. do 2 f_equal. lia.
  - assert (0 <= n) as Hn0.
    { unfold gr_buffer_add_reader in Hadd. by destruct (Z.ltb_spec n 0). }
    destruct (rep_add _ _ _ _ r n Hrep Hr Hn0 Hn) as (b1 & Hok & Hrep' & Hp & Hnl).
    rewrite Hadd in Hok. injection Hok as <-. eexists. split.
    + apply one. eapply (abs_add a r n _ (drop (Z.to_nat (zlen (sent a) - n)) (sent a))).
      * rewrite Hq. unfold queues_of. by rewrite lookup_fmap, Hp.
      * symmetry. apply take_drop.
      * rewrite length_drop. lia.
    + eexists. split; [exact Hrep'|]. cbn [sent queues]. rewrite Hq. unfold queues_of.
      by rewrite fmap_insert.
  - destruct (rep_drop _ _ _ _ _ _ Hrep Hd) as [[p Hp] Hrep']. eexists. split.
    + apply one, abs_drop. rewrite Hq, (queues_of_lookup _ _ _ _ Hp). eauto.
    + eexists. split; [exact Hrep'|]. cbn [sent queues]. rewrite Hq. unfold queues_of.
      by rewrite fmap_delete.
Qed.

Section InUse.
Context (granularity : Z) (make : Z -> option (list Z)) (nitems sizeof_item : Z) (b0 : gr_buffer).
Context (Hmake : gr_make_buffer granularity make nitems sizeof_item = Ok b0) (Hsize : size_ok b0).

Definition initial : system := {| buf := b0; room := 0 |}.

Lemma initial_shows : shows initial {| sent := d_base b0; queues := ∅ |}.
Proof using Hmake Hsize.
  exists ∅. split; [|by unfold queues_of; rewrite fmap_empty]. pose proof Hsize as [HN Hl].
  assert (d_write_index b0 = 0 /\ d_readers b0 = [] /\ readers b0 = ∅) as (Hw & Hv & Hr).
  { unfold gr_make_buffer in Hmake. destruct (make _) as [mem|]; [|done]. by injection Hmake as <-. }
  split; cbn [buf room initial sent queues]; rewrite ?Hw, ?Hv, ?Hr; try done; try lia.
  - by rewrite Hl, Z_mod_same_full.
  - intros j Hj. rewrite Z.mod_small by lia. done.
  - split; [apply NoDup_nil_2|]. intros r. rewrite lookup_empty. split; [by intros ?%not_elem_of_nil|by intros []].
  - intros r. rewrite !lookup_empty. constructor.
Qed.

Lemma reachable_shows ls s : lsteps step initial ls s ->
  exists a, lsteps abs_step {| sent := d_base b0; queues := ∅ |} (mjoin (visible <$> ls)) a /\ shows s a.
Proof using Hmake Hsize.
  intros Hs. eapply (forward_simulation step abs_step visible shows); [|apply initial_shows|done].
  intros. by eapply buffer_step_refines.
Qed.

Lemma reachable_rep ls s : lsteps step initial ls s -> exists H pos, rep s H pos.
Proof using Hmake Hsize. intros (a & _ & pos & Hrep & _)%reachable_shows. eauto. Qed.

(** C10. The buffer is a fifo for every reader.  However the calls of the
    writer, of the readers, and the arrivals and departures of readers are
    interleaved, each reader loads exactly the items published since it was
    attached, after its preload, in order, none twice and none overwritten
    before it was consumed. *)
Theorem gr_buffer_refines_fifo ls s : lsteps step initial ls s ->
  exists a, lsteps abs_step {| sent := d_base b0; queues := ∅ |} (mjoin (visible <$> ls)) a /\
    forall r, match queues a !! r with
    | Some q => r ∈ d_readers (buf s) /\ items_available (buf s) r = Ok (zlen q) /\
                load_items (buf s) r (zlen q) = Ok q
    | None => r ∉ d_readers (buf s)
    end.
Proof using Hmake Hsize.
  intros (a & Ha & pos & Hrep & Hq)%reachable_shows. exists a. split; [done|]. intros r.
  pose proof (rep_vector _ _ _ Hrep) as [_ Hv]. rewrite Hq. unfold queues_of. rewrite lookup_fmap.
  destruct s as [b rm]. destruct (pos !! r) as [p|] eqn:Hp; cbn [fmap option_fmap option_map buf] in *.
  - destruct (rep_pos_reader _ _ _ Hrep r p Hp) as (rd & Hrd & Hi & Hph & Hlag). cbn [buf room] in *.
    split; [apply Hv; eauto|]. rewrite length_drop. split.
    + rewrite (available_ok _ _ _ _ r p Hrep Hp). f_equal. lia.
    + destruct (load_items b r _) as [items|] eqn:Hl.
      * f_equal. rewrite (rep_load _ _ _ _ _ _ _ _ Hrep Hp) with (2 := Hl) by lia.
        apply take_ge. rewrite length_drop. lia.
      * unfold load_items, the_reader in Hl. by rewrite Hrd in Hl.
  - rewrite Hv. intros [rd Hrd]. destruct (rep_reader _ _ _ Hrep r rd Hrd) as (p & Hp' & _). congruence.
Qed.

(** C32. No call fails: the index assertions hold in every reachable state, the
    space found is at most the size less one, and a reader never lags by more
    than the space the writer holds leaves. *)
Theorem buffer_calls_succeed ls s : lsteps step initial ls s ->
  (exists b' n, space_available (buf s) = Ok (b', n) /\ room s <= n < d_bufsize (buf s)) /\
  (forall n, 0 <= n <= room s -> exists b', update_write_pointer (buf s) n = Ok b') /\
  (forall r, r ∈ d_readers (buf s) -> exists k, items_available (buf s) r = Ok k /\
     0 <= k < d_bufsize (buf s) - room s /\
     (forall n, 0 <= n <= k -> exists b', update_read_pointer (buf s) r n = Ok b') /\
     exists b', drop_reader (buf s) r = Ok b').
Proof using Hmake Hsize.
  intros (H & pos & Hrep)%reachable_rep. destruct s as [b rm]. cbn [buf room]. split_and!.
  - destruct (space_available_spec _ _ _ _ Hrep) as (b' & n & Hs & Hrep' & Hrn & Hn & _).
    exists b', n. split; [done|]. split; [done|]. pose proof (rep_room _ _ _ Hrep) as Hrm.
    cbn [buf room] in Hrm. destruct Hn as [[-> _]|(r & p & Hp & ->)]; [lia|].
    destruct (rep_pos_reader _ _ _ Hrep r p Hp) as (_ & _ & _ & Hph & _). lia.
  - intros n Hn. destruct (rep_produce _ _ _ _ _ Hrep Hn) as (wi & Hok & _). eauto.
  - intros r Hr. pose proof (rep_vector _ _ _ Hrep) as [_ Hv]. cbn [buf] in Hv.
    destruct (proj1 (Hv r) Hr) as [rd Hrd]. destruct (rep_reader _ _ _ Hrep r rd Hrd) as (p & Hp & _ & Hph & Hlag).
    cbn [buf room] in *. exists (zlen H - p). split; [by eapply available_ok|]. split; [lia|]. split.
    + intros n Hn. destruct (rep_consume _ _ _ _ _ _ _ Hrep Hp Hn) as (b' & Hok & _). eauto.
    + unfold drop_reader. destruct (erase_reader_ok r _ Hr) as [v ->]. cbn. eauto.
Qed.

(** What the writer stores at the write pointer is what it publishes. *)
Theorem stored_items_published ls s items : lsteps step initial ls s -> zlen items <= room s ->
  exists b', update_write_pointer (store_items (buf s) items) (zlen items) = Ok b' /\
    lsteps step s [Store items; Produce items] {| buf := b'; room := room s - zlen items |}.
Proof using Hmake Hsize.
  intros (H & pos & Hrep)%reachable_rep Hi. destruct s as [b rm]. cbn [buf room] in *.
  pose proof (rep_store _ _ _ _ _ Hrep Hi) as Hrep'.
  destruct (rep_produce _ _ (zlen items) _ _ Hrep' ltac:(lia)) as (wi & Hok & _).
  eexists. split; [exact Hok|]. econstructor; [by constructor|].
  assert (run_at (store_items b items) (d_write_index (store_items b items)) (zlen items) = items) as Hrun.
  { pose proof (rep_pos_N _ _ _ Hrep) as HN. pose proof (rep_room _ _ _ Hrep) as Hrm.
    pose proof (rep_size _ _ _ Hrep) as [_ Hlen]. cbn [buf room] in *.
    apply list_eq. intros i. unfold run_at. rewrite list_lookup_fmap.
    destruct (decide (i < length items)%nat) as [Hlt|Hge].
    - rewrite lookup_seqZ_lt by lia. cbn [fmap option_fmap option_map]. unfold item_at.
      cbn [store_items with_base d_base d_bufsize d_write_index].
      rewrite store_from_run by lia. unfold aget. rewrite (proj2 (Z.ltb_ge _ _)) by lia.
      replace (Z.to_nat (0 + Z.of_nat i)) with i by lia.
      destruct (lookup_lt_is_Some_2 items i Hlt) as [x ->]. done.
    - rewrite lookup_seqZ_ge, lookup_ge_None_2 by lia. done. }
  econstructor; [|constructor].
  replace (Produce items) with (Produce (run_at (store_items b items)
    (d_write_index (store_items b items)) (zlen items))) by by rewrite Hrun.
  by apply step_produce; [lia|].
Qed.

(** [space_available] prunes only tags every reader has passed: the tags a
    reader can still ask for, from its next item on, are the same before and
    after, and the pruning bound stays below every reader. *)
Theorem space_available_keeps_tags ls s b' n : lsteps step initial ls s ->
  space_available (buf s) = Ok (b', n) ->
  (forall r rd, readers (buf s) !! r = Some rd -> d_last_min_items_read (buf s) <= d_abs_read_offset rd) ->
  (forall r rd, readers b' !! r = Some rd -> d_last_min_items_read b' <= d_abs_read_offset rd) /\
  forall r rd lo hi, readers (buf s) !! r = Some rd -> d_abs_read_offset rd <= lo ->
    get_tags_in_range b' lo hi = get_tags_in_range (buf s) lo hi.
Proof using Hmake Hsize.
  intros (H & pos & Hrep)%reachable_rep Hs Hlast. destruct s as [b rm]. cbn [buf] in *.
  destruct (space_available_spec _ _ _ _ Hrep) as (b1 & n1 & Hs1 & _ & _ & _ & _ & Hb).
  rewrite Hs in Hs1. injection Hs1 as <- <-. destruct Hb as [-> |(_ & m & -> & Hm)]; [done|].
  split; [exact Hm|]. intros r rd lo hi Hr Hlo. specialize (Hlast r rd Hr).
  unfold get_tags_in_range. cbn [with_tags d_item_tags].
  rewrite (proj2 (prune_tags_young _ _)). unfold young. clear Hs.
  induction (d_item_tags b) as [|t tags IH]; [done|]. rewrite !filter_cons.
  repeat case_decide; rewrite ?filter_cons; repeat case_decide; try lia; by rewrite IH.
Qed.

Definition drains (e : event) : Prop :=
  match e with Space _ | Consume _ _ => True | _ => False end.

Lemma drain_readers (rs : list Z) s H pos : rep s H pos -> (forall r, r ∈ rs -> r ∈ d_readers (buf s)) ->
  exists ls s' pos', lsteps step s ls s' /\ rep s' H pos' /\ Forall drains ls /\
    d_bufsize (buf s') = d_bufsize (buf s) /\ d_readers (buf s') = d_readers (buf s) /\
    (forall r p, pos !! r = Some p -> exists p', pos' !! r = Some p' /\ p <= p') /\
    forall r, r ∈ rs -> pos' !! r = Some (zlen H).
Proof.
  revert s pos. induction rs as [|r rs IH]; intros s pos Hrep Hrs.
  { exists [], s, pos. split_and!; try done; [constructor|intros r p ?; by exists p|by intros r ?%not_elem_of_nil]. }
  destruct s as [b rm]. cbn [buf] in *. pose proof (rep_vector _ _ _ Hrep) as [_ Hv]. cbn [buf] in Hv.
  destruct (proj1 (Hv r) (Hrs r ltac:(constructor))) as [rd Hrd].
  destruct (rep_reader _ _ _ Hrep r rd Hrd) as (p & Hp & _ & Hph & _).
  destruct (rep_consume b rm H pos r p (zlen H - p) Hrep Hp ltac:(lia)) as (b1 & Hok & Hrep1).
  replace (p + (zlen H - p)) with (zlen H) in Hrep1 by lia.
  assert (d_readers b1 = d_readers b /\ d_bufsize b1 = d_bufsize b) as [Hb1 HN1].
  { unfold update_read_pointer, the_reader in Hok. rewrite Hrd, ok_bind in Hok.
    destruct (index_add b _ _); [|done]. by injection Hok as <-. }
  destruct (IH {| buf := b1; room := rm |} (<[r := zlen H]> pos) Hrep1) as
    (ls & s' & pos' & Hls & Hrep' & Hd & HN' & Hv' & Hmono & Hall).
  { intros x Hx. cbn [buf]. rewrite Hb1. apply Hrs. by constructor. }
  cbn [buf] in *. rewrite Hb1 in Hv'. rewrite HN1 in HN'.
  assert (forall x q, <[r := zlen H]> pos !! x = Some q -> q <= zlen H) as Hle.
  { intros x q Hq. by destruct (rep_pos_reader _ _ _ Hrep1 x q Hq) as (_ & _ & _ & [_ ?] & _). }
  exists (Consume r (zlen H - p) :: ls), s', pos'. split_and!; try done.
  - econstructor; [|exact Hls]. eapply step_consume; [by eapply available_ok|lia|done].
  - by constructor.
  - intros x q Hq. destruct (decide (x = r)) as [->|Hne].
    + destruct (Hmono r (zlen H)) as (p' & Hp' & ?); [apply lookup_insert_eq|].
      exists p'. rewrite Hp in Hq. injection Hq as <-. split; [done|lia].
    + apply Hmono. by rewrite lookup_insert_ne.
  - intros x [->|Hx]%elem_of_cons; [|by apply Hall].
    destruct (Hmono r (zlen H)) as (p' & Hp' & ?); [apply lookup_insert_eq|].
    destruct (rep_pos_reader _ _ _ Hrep' r p' Hp') as (_ & _ & _ & ? & _). rewrite Hp'. f_equal. lia.
Qed.

(** A full buffer is not stuck: from every reachable state the readers can
    consume what they have, after which the writer finds the whole buffer, less
    the one item that tells full from empty. *)
Theorem drained_buffer_has_room ls s : lsteps step initial ls s ->
  exists ls' s', lsteps step s ls' s' /\ Forall drains ls' /\
    room s' = d_bufsize (buf s) - 1.
Proof using Hmake Hsize.
  intros (H & pos & Hrep)%reachable_rep.
  destruct (drain_readers (d_readers (buf s)) s H pos Hrep ltac:(done)) as
    (ls' & s' & pos' & Hls & Hrep' & Hd & HN & Hv & _ & Hall).
  destruct s' as [b rm]. cbn [buf] in *.
  destruct (space_available_spec _ _ _ _ Hrep') as (b1 & n & Hsp & _ & _ & Hn & _).
  exists (ls' ++ [Space n]), {| buf := b1; room := n |}. split_and!.
  - eapply lsteps_app; [exact Hls|]. econstructor; [by constructor|constructor].
  - apply Forall_app. split; [done|]. by repeat constructor.
  - cbn [room]. rewrite <- HN. destruct Hn as [[-> _]|(r & p & Hp & ->)]; [done|].
    destruct (rep_pos_reader _ _ _ Hrep' r p Hp) as (rd & Hrd & _). cbn [buf] in Hrd.
    pose proof (rep_vector _ _ _ Hrep') as [_ Hv']. cbn [buf] in Hv'.
    rewrite Hall in Hp by (rewrite <- Hv; apply Hv'; eauto). injection Hp as <-. lia.
Qed.
End InUse.

(** ** Witnesses: four items of eight bytes on pages of sixteen *)

Definition ex_make (size : Z) : option (list Z) := Some (replicate (Z.to_nat (size / 8)) 0).
Definition ex_buffer : gr_buffer :=
  {| d_base := replicate 4 0; d_bufsize := 4; d_readers := []; readers := ∅; d_write_index := 0;
     d_abs_write_offset := 0; d_done := false; d_item_tags := []; d_last_min_items_read := 0 |}.

Lemma ex_made : gr_make_buffer 16 ex_make 3 8 = Ok ex_buffer.
Proof. reflexivity. Qed.

Lemma ex_size : size_ok ex_buffer.
Proof. split; [vm_compute; split; reflexivity|reflexivity]. Qed.

Lemma round_up_items_spec_witness : 3 <= round_up_items 3 8 16 < 5.
Proof.
  destruct (round_up_items_spec 3 8 16 ltac:(lia) ltac:(lia) ltac:(lia)) as (H1 & _ & H2 & _).
  split; [exact H1|exact H2].
Defined.

(** A reader with one preloaded item, before and after two items come. *)
Definition ex_attached : gr_buffer := {| d_base := [0; 0; 0; 0]; d_bufsize := 4; d_readers := [7];
  readers := {[7 := {| d_read_index := 3; d_abs_read_offset := 0 |}]}; d_write_index := 0;
  d_abs_write_offset := 0; d_done := false; d_item_tags := []; d_last_min_items_read := 0 |}.

Definition ex_ready : system := {| buf := ex_attached; room := 2 |}.

Definition ex_used : system :=
  {| buf := with_write (with_base ex_attached [5; 6; 0; 0]) 2 2; room := 0 |}.

Lemma ex_ready_run : lsteps step (initial ex_buffer) [AddReader 7 1; Space 2] ex_ready.
Proof.
  econstructor; [|econstructor; [|constructor]].
  - apply (step_add ex_buffer 0 7 1 ex_attached); reflexivity.
  - apply (step_space ex_attached 0 ex_attached 2). reflexivity.
Qed.

Lemma ex_run : lsteps step (initial ex_buffer)
  [AddReader 7 1; Space 2; Store [5; 6]; Produce [5; 6]] ex_used.
Proof.
  apply (lsteps_app _ _ _ _ [Store [5; 6]; Produce [5; 6]] _ ex_ready_run).
  econstructor; [|econstructor; [|constructor]].
  - apply (step_store ex_attached 2 [5; 6]). vm_compute. discriminate.
  - apply (step_produce (store_items ex_attached [5; 6]) 2 2); [lia|reflexivity].
Qed.

Lemma gr_buffer_refines_fifo_witness : exists a,
  lsteps abs_step {| sent := d_base ex_buffer; queues := ∅ |}
    [AddReader 7 1; Produce [5; 6]] a /\
  forall r, r ∈ d_readers (buf ex_used) -> is_Some (queues a !! r).
Proof.
  destruct (gr_buffer_refines_fifo 16 ex_make 3 8 ex_buffer ex_made ex_size _ _ ex_run) as (a & Ha & Hq).
  exists a. split; [exact Ha|]. intros r Hr. specialize (Hq r).
  destruct (queues a !! r); [eauto|contradiction].
Defined.

Lemma buffer_calls_succeed_witness : 7 ∈ d_readers (buf ex_used) /\
  exists k, items_available (buf ex_used) 7 = Ok k /\ 0 <= k < 4.
Proof.
  split; [apply list_elem_of_here|].
  destruct (buffer_calls_succeed 16 ex_make 3 8 ex_buffer ex_made ex_size _ _ ex_run) as (_ & _ & H).
  destruct (H 7 (list_elem_of_here _ _)) as (k & Hk & Hb & _). exists k. split; [exact Hk|exact Hb].
Defined.

Lemma stored_items_published_witness : zlen [5; 6] <= room ex_ready /\
  exists b, update_write_pointer (store_items (buf ex_ready) [5; 6]) 2 = Ok b.
Proof.
  split; [vm_compute; discriminate|].
  destruct (stored_items_published 16 ex_make 3 8 ex_buffer ex_made ex_size _ _ [5; 6] ex_ready_run) as (b & Hb & _).
  - vm_compute. discriminate.
  - exists b. exact Hb.
Defined.

Lemma space_available_keeps_tags_witness : exists b n,
  space_available (buf ex_used) = Ok (b, n) /\
  get_tags_in_range b 0 8 = get_tags_in_range (buf ex_used) 0 8.
Proof.
  eexists _, _. split; [reflexivity|].
  refine (proj2 (space_available_keeps_tags 16 ex_make 3 8 ex_buffer ex_made ex_size _ _ _ _ ex_run eq_refl _)
    7 {| d_read_index := 3; d_abs_read_offset := 0 |} 0 8 _ _).
  - intros r rd Hr. destruct (decide (r = 7)) as [->|Hne].
    + vm_compute in Hr. injection Hr as <-. vm_compute. discriminate.
    + assert (readers (buf ex_used) !! r = None) as E by by apply lookup_singleton_ne. congruence.
  - reflexivity.
  - vm_compute. discriminate.
Defined.

Lemma drained_buffer_has_room_witness : exists ls s,
  lsteps step ex_used ls s /\ room s = 3.
Proof.
  destruct (drained_buffer_has_room 16 ex_make 3 8 ex_buffer ex_made ex_size _ _ ex_run) as (ls & s & Hs & _ & Hr).
  exists ls, s. split; [exact Hs|exact Hr].
Defined.
