(* ===== verification/GrBlock.v ===== *)
(** * Blocks: [gr_block.cc], [gr_block_detail.cc], the synchronous blocks

    What a block is to the scheduler ([gr_block], a record of its virtual
    functions), the buffers it is connected to ([gr_block_detail]) and the
    fixed rate blocks: [gr_sync_block], [gr_sync_decimator] and
    [gr_sync_interpolator], which promise [FixedRate] to the scheduler. *)

From S2P Require Import Prelude.
From stdpp Require Import gmap.
From S2P Require Import GrBuffer.
#[local] Open Scope Z_scope.
#[local] Open Scope cint_scope.

(** ** The heap of buffers and [gr_block_detail] *)

Abbreviation heap := (gmap Z gr_buffer).

(** An input is a reader of a buffer, an output a buffer, by address. *)
Record gr_block_detail := {
  d_produce_or : Z;
  d_input : list (Z * Z);
  d_output : list Z;
  d_detail_done : bool
}.

Definition ninputs (d : gr_block_detail) : Z := Z.of_nat (length (d_input d)).
Definition noutputs (d : gr_block_detail) : Z := Z.of_nat (length (d_output d)).
Definition sink_p (d : gr_block_detail) : bool := noutputs d =? 0.
Definition source_p (d : gr_block_detail) : bool := ninputs d =? 0.

Definition with_produce_or (d : gr_block_detail) (n : Z) : gr_block_detail :=
  {| d_produce_or := n; d_input := d_input d; d_output := d_output d; d_detail_done := d_detail_done d |}.

Definition the_buffer (h : heap) (a : Z) : res buffer_error gr_buffer :=
  match h !! a with Some b => Ok b | None => Throw dangling end.

(** A call of a method of the buffer at [a] that may change it. *)
Definition on_buffer (f : gr_buffer -> res buffer_error gr_buffer) (a : Z) (h : heap) :
    res buffer_error heap :=
  b ← the_buffer h a;
  b ← f b;
  Ok (<[a := b]> h).

Definition set_done (d : gr_block_detail) (done : bool) (h : heap) :
    res buffer_error (gr_block_detail * heap) :=
  let d := {| d_produce_or := d_produce_or d; d_input := d_input d; d_output := d_output d;
              d_detail_done := done |} in
  h ← for_each (on_buffer (fun b => Ok (GrBuffer.set_done b done))) (d_output d) h;
  h ← for_each (fun i => on_buffer (fun b => Ok (GrBuffer.set_done b done)) i.1) (d_input d) h;
  Ok (d, h).

(** An input or output out of range is an [invalid_argument]. *)
Definition input (d : gr_block_detail) (which : Z) : res buffer_error (Z * Z) :=
  match (if which <? 0 then None else d_input d !! Z.to_nat which) with
  | Some i => Ok i
  | None => Throw reader_not_found
  end.

Definition output (d : gr_block_detail) (which : Z) : res buffer_error Z :=
  match (if which <? 0 then None else d_output d !! Z.to_nat which) with
  | Some a => Ok a
  | None => Throw dangling
  end.

Definition consume (d : gr_block_detail) (which_input how_many_items : Z) (h : heap) :
    res buffer_error heap :=
  if 0 <? how_many_items then
    '(a, r) ← input d which_input;
    on_buffer (fun b => update_read_pointer b r how_many_items) a h
  else Ok h.

Definition consume_each (d : gr_block_detail) (how_many_items : Z) (h : heap) :
    res buffer_error heap :=
  if 0 <? how_many_items then
    for_each (fun i => on_buffer (fun b => update_read_pointer b i.2 how_many_items) i.1) (d_input d) h
  else Ok h.

Definition produce (d : gr_block_detail) (which_output how_many_items : Z) (h : heap) :
    res buffer_error (gr_block_detail * heap) :=
  if 0 <? how_many_items then
    a ← output d which_output;
    h ← on_buffer (fun b => update_write_pointer b how_many_items) a h;
    Ok (with_produce_or d (d_produce_or d .| how_many_items), h)
  else Ok (d, h).

Definition produce_each (d : gr_block_detail) (how_many_items : Z) (h : heap) :
    res buffer_error (gr_block_detail * heap) :=
  if 0 <? how_many_items then
    h ← for_each (on_buffer (fun b => update_write_pointer b how_many_items)) (d_output d) h;
    Ok (with_produce_or d (d_produce_or d .| how_many_items), h)
  else Ok (d, h).

(** ** Blocks *)

Inductive tag_propagation_policy_t := TPP_DONT | TPP_ALL_TO_ALL | TPP_ONE_TO_ONE.

Definition WORK_CALLED_PRODUCE : Z := -2.
Definition WORK_DONE : Z := -1.

(** The calls a [general_work] makes. *)
Inductive call :=
| Consumed (which n : Z)
| ConsumedEach (n : Z)
| Produced (which n : Z).

(** A block with internal state of type [S].  [times_rate] multiplies by the
    [double] [relative_rate] and truncates; [rate_is_one] is its comparison
    with 1.  [general_work] gets [noutput_items], [ninput_items] and the items;
    it returns the items it stored on each output, its calls and its result. *)
Record gr_block (S : Type) := {
  output_multiple : Z;
  history : Z;
  fixed_rate : bool;
  times_rate : Z -> Z;
  rate_is_one : bool;
  tag_propagation_policy : tag_propagation_policy_t;
  forecast : Z -> nat -> list Z;
  fixed_rate_ninput_to_noutput : Z -> Z;
  fixed_rate_noutput_to_ninput : Z -> Z;
  general_work : S -> Z -> list Z -> list (list Z) -> S * list (list Z) * list call * Z
}.
Arguments output_multiple {S}. Arguments history {S}. Arguments fixed_rate {S}.
Arguments times_rate {S}. Arguments rate_is_one {S}. Arguments tag_propagation_policy {S}.
Arguments forecast {S}. Arguments fixed_rate_ninput_to_noutput {S}.
Arguments fixed_rate_noutput_to_ninput {S}. Arguments general_work {S}.

(** ** The fixed rate blocks

    [work] is the virtual function of the derived class. *)

Section Sync.
Context {S : Type} (work : S -> Z -> list (list Z) -> S * list (list Z) * Z).
Context (policy : tag_propagation_policy_t).

(** [general_work] calls [work] and consumes [consumed r] items for [r] made. *)
Definition sync_general_work (consumed : Z -> Z) (s : S) (noutput_items : Z) (ninput_items : list Z)
    (input_items : list (list Z)) : S * list (list Z) * list call * Z :=
  let '(s, output_items, r) := work s noutput_items input_items in
  (s, output_items, if 0 <? r then [ConsumedEach (consumed r)] else [], r).

Definition sync_noutput_to_ninput (history noutput_items : Z) : Z :=
  s32 (u32 (u32 (u32 noutput_items + history) - 1)).

Definition sync_ninput_to_noutput (history ninput_items : Z) : Z :=
  Z.max 0 (ninput_items - s32 history + 1).

Definition gr_sync_block (history : Z) (times_rate : Z -> Z) (rate_is_one : bool) (multiple : Z) :
    gr_block S := {|
  output_multiple := multiple;
  history := history;
  fixed_rate := true;
  times_rate := times_rate;
  rate_is_one := rate_is_one;
  tag_propagation_policy := policy;
  forecast noutput_items n := replicate n (sync_noutput_to_ninput history noutput_items);
  fixed_rate_ninput_to_noutput := sync_ninput_to_noutput history;
  fixed_rate_noutput_to_ninput := sync_noutput_to_ninput history;
  general_work := sync_general_work (fun r => r)
|}.

Definition decimator_noutput_to_ninput (decimation history noutput_items : Z) : Z :=
  s32 (u32 (u32 (u32 (u32 noutput_items * decimation) + history) - 1)).

Definition decimator_ninput_to_noutput (decimation history ninput_items : Z) : Z :=
  s32 (u32 (Z.max 0 (ninput_items - s32 history + 1)) / decimation).

Definition gr_sync_decimator (decimation history : Z) (times_rate : Z -> Z) (multiple : Z) :
    gr_block S := {|
  output_multiple := multiple;
  history := history;
  fixed_rate := true;
  times_rate := times_rate;
  rate_is_one := decimation =? 1;
  tag_propagation_policy := policy;
  forecast noutput_items n := replicate n (decimator_noutput_to_ninput decimation history noutput_items);
  fixed_rate_ninput_to_noutput := decimator_ninput_to_noutput decimation history;
  fixed_rate_noutput_to_ninput := decimator_noutput_to_ninput decimation history;
  general_work := sync_general_work (fun r => s32 (u32 (u32 r * decimation)))
|}.

Definition interpolator_noutput_to_ninput (interpolation history noutput_items : Z) : Z :=
  s32 (u32 (u32 (u32 noutput_items / interpolation + history) - 1)).

Definition interpolator_ninput_to_noutput (interpolation history ninput_items : Z) : Z :=
  s32 (u32 (u32 (Z.max 0 (ninput_items - s32 history + 1)) * interpolation)).

(** [set_interpolation] makes the interpolation the output multiple. *)
Definition gr_sync_interpolator (interpolation history : Z) (times_rate : Z -> Z) :
    gr_block S := {|
  output_multiple := interpolation;
  history := history;
  fixed_rate := true;
  times_rate := times_rate;
  rate_is_one := interpolation =? 1;
  tag_propagation_policy := policy;
  forecast noutput_items n := replicate n (interpolator_noutput_to_ninput interpolation history noutput_items);
  fixed_rate_ninput_to_noutput := interpolator_ninput_to_noutput interpolation history;
  fixed_rate_noutput_to_ninput := interpolator_noutput_to_ninput interpolation history;
  general_work := sync_general_work (fun r => u32 r / interpolation)
|}.
End Sync.

(** The default [forecast] of [gr_block] and its parameter checks. *)
Definition default_forecast (history noutput_items : Z) (ninputs : nat) : list Z :=
  replicate ninputs (sync_noutput_to_ninput history noutput_items).

Definition set_output_multiple (multiple : Z) : option Z :=
  if multiple <? 1 then None else Some multiple.

(** ** What a fixed rate block promises the scheduler

    [outs] and [ins] bound the requests and the inputs for which the [int]
    arithmetic of the block does not overflow. *)
Class FixedRate {S} (m : gr_block S) (outs ins : Z) : Prop := {
  fixed_is_fixed : fixed_rate m = true;
  multiple_pos : 1 <= output_multiple m;
  forecast_fixed : forall n k, forecast m n k = replicate k (fixed_rate_noutput_to_ninput m n);
  (** [n] outputs can be made from [avail] inputs exactly when [avail] inputs
      are said to give [n] outputs or more. *)
  rate_galois : forall n avail, 0 < n <= outs -> (output_multiple m | n) -> 0 <= avail <= ins ->
    n <= fixed_rate_ninput_to_noutput m avail <-> fixed_rate_noutput_to_ninput m n <= avail;
  rate_range : forall avail, 0 <= avail <= ins -> 0 <= fixed_rate_ninput_to_noutput m avail < 2 ^ 30
}.

Section Rates.
Context {S : Type} (work : S -> Z -> list (list Z) -> S * list (list Z) * Z).
Context (policy : tag_propagation_policy_t) (history : Z) (Hh : 1 <= history < 2 ^ 30).

Lemma ninput_usable avail : 0 <= avail < 2 ^ 30 ->
  0 <= Z.max 0 (avail - s32 history + 1) <= avail.
Proof using Hh. norm_pow. intros. rewrite (sx_id 32) by (norm_pow; lia). lia. Qed.

#[export] Instance sync_fixed_rate times_rate one multiple :
  1 <= multiple -> FixedRate (gr_sync_block work policy history times_rate one multiple) (2 ^ 30) (2 ^ 30 - 1).
Proof using Hh.
  norm_pow. intros Hm. split; cbn [fixed_rate output_multiple fixed_rate_ninput_to_noutput
    fixed_rate_noutput_to_ninput forecast gr_sync_block]; try done.
  - intros n avail Hn _ Ha. unfold sync_ninput_to_noutput, sync_noutput_to_ninput.
    rewrite (u32_id n), (u32_id (n + history)), (u32_id (n + history - 1)) by lia.
    rewrite !(sx_id 32) by (norm_pow; lia). lia.
  - intros avail Ha. pose proof (ninput_usable avail ltac:(norm_pow; lia)).
    unfold sync_ninput_to_noutput. norm_pow. lia.
Qed.

Lemma decimator_galois d n avail : 1 <= d -> 0 < n -> n * d < 2 ^ 30 -> 0 <= avail < 2 ^ 30 ->
  n <= decimator_ninput_to_noutput d history avail <->
  decimator_noutput_to_ninput d history n <= avail.
Proof using Hh.
  norm_pow. intros Hd Hn Hnd Ha. pose proof (ninput_usable avail ltac:(norm_pow; lia)) as Hu.
  unfold decimator_ninput_to_noutput, decimator_noutput_to_ninput.
  assert (n <= n * d) by nia.
  rewrite (u32_id n), (u32_id (n * d)), (u32_id (n * d + history)), (u32_id (n * d + history - 1)) by lia.
  rewrite (sx_id 32 ltac:(lia) (n * d + history - 1)) by (norm_pow; lia).
  set (u := Z.max 0 (avail - s32 history + 1)) in *. rewrite (u32_id u) by lia.
  assert (0 <= u / d <= u) by (split; [apply Z.div_pos; lia|apply Z.div_le_upper_bound; nia]).
  rewrite (sx_id 32 ltac:(lia) (u / d)) by (norm_pow; lia).
  assert (n <= u / d <-> n * d <= u) as ->.
  { split; [|intros; apply Z.div_le_lower_bound; lia].
    intros. pose proof (Z.mul_div_le u d ltac:(lia)). nia. }
  unfold u. rewrite (sx_id 32 ltac:(lia) history) by (norm_pow; lia). lia.
Qed.

#[export] Instance decimator_fixed_rate d times_rate multiple outs :
  1 <= multiple -> 1 <= d -> outs * d < 2 ^ 30 ->
  FixedRate (gr_sync_decimator work policy d history times_rate multiple) outs (2 ^ 30 - 1).
Proof using Hh.
  intros Hm Hd Ho. split; cbn [fixed_rate output_multiple fixed_rate_ninput_to_noutput
    fixed_rate_noutput_to_ninput forecast gr_sync_decimator]; try done.
  - intros n avail Hn _ Ha. apply decimator_galois; try lia. nia.
  - intros avail Ha. pose proof (ninput_usable avail ltac:(lia)) as Hu.
    unfold decimator_ninput_to_noutput. set (u := Z.max 0 (avail - s32 history + 1)) in *.
    revert Ha Hu. norm_pow. intros. rewrite (u32_id u) by lia.
    assert (0 <= u / d <= u) by (split; [apply Z.div_pos; lia|apply Z.div_le_upper_bound; nia]).
    rewrite (sx_id 32) by (norm_pow; lia). lia.
Qed.

#[export] Instance interpolator_fixed_rate k times_rate ins :
  1 <= k -> 0 <= ins -> (ins + 1) * k < 2 ^ 30 ->
  FixedRate (gr_sync_interpolator work policy k history times_rate) (2 ^ 30 - 1) ins.
Proof using Hh.
  intros Hk Hins Hi. split; cbn [fixed_rate output_multiple fixed_rate_ninput_to_noutput
    fixed_rate_noutput_to_ninput forecast gr_sync_interpolator]; try done.
  - intros n avail Hn [q ->] Ha. assert (ins < 2 ^ 30) by (revert Hi; generalize (2 ^ 30); nia).
    pose proof (ninput_usable avail ltac:(lia)) as Hu.
    unfold interpolator_ninput_to_noutput, interpolator_noutput_to_ninput.
    revert Hn Ha Hu H Hi Hh. norm_pow. intros.
    set (u := Z.max 0 (avail - s32 history + 1)) in *.
    pose proof (Z.mul_le_mono_nonneg_r u ins k ltac:(lia) ltac:(lia)).
    assert (0 <= u * k) by (apply Z.mul_nonneg_nonneg; lia).
    assert (0 < q) by (apply (Z.mul_pos_cancel_r q k); lia). pose proof (Z.le_mul_diag_r q k ltac:(lia)).
    rewrite (u32_id u), (u32_id (u * k)), (u32_id (q * k)) by lia. rewrite Z.div_mul by lia.
    rewrite (u32_id (q + history)), (u32_id (q + history - 1)) by lia.
    rewrite (sx_id 32 ltac:(lia) (u * k)), (sx_id 32 ltac:(lia) (q + history - 1)) by (norm_pow; lia).
    rewrite <- Z.mul_le_mono_pos_r by lia.
    unfold u. rewrite (sx_id 32 ltac:(lia) history) by (norm_pow; lia). lia.
  - intros avail Ha. assert (ins < 2 ^ 30) by (revert Hi; generalize (2 ^ 30); nia). pose proof (ninput_usable avail ltac:(lia)) as Hu.
    unfold interpolator_ninput_to_noutput. set (u := Z.max 0 (avail - s32 history + 1)) in *.
    revert Ha Hu H Hi. norm_pow. intros.
    pose proof (Z.mul_le_mono_nonneg_r u ins k ltac:(lia) ltac:(lia)).
    assert (0 <= u * k) by (apply Z.mul_nonneg_nonneg; lia).
    rewrite (u32_id u), (u32_id (u * k)) by lia. rewrite (sx_id 32) by (norm_pow; lia). lia.
Qed.
End Rates.
