(* ===== verification/GrBlockExecutor.v ===== *)
(** * The block executor: [runtime/gr_block_executor.cc]

    [run_one_iteration], the step of a thread of the scheduler: how much space and input
    there is, the search for a request the input can satisfy, the call of the
    block's work and the bookkeeping after it. *)

From S2P Require Import Prelude.
From stdpp Require Import gmap.
From S2P Require Import GrBuffer GrBlock.
#[local] Open Scope Z_scope.
#[local] Open Scope cint_scope.

Inductive state := READY | READY_NO_OUTPUT | BLKD_IN | BLKD_OUT | DONE.

Definition INT_MAX : Z := 2147483647.

(** [unsigned] arithmetic, with the conversions of the arguments and to [int]. *)
Definition round_up (n multiple : Z) : Z :=
  u32 (u32 (u32 (u32 n + multiple) - 1) / multiple * multiple).

Definition round_down (n multiple : Z) : Z := u32 (u32 n / multiple * multiple).

(** ** Space *)

(** The loop over the outputs; [-1] when blocked by an output that is done. *)
Fixpoint min_space_loop (outputs : list Z) (output_multiple : Z) (min_space : Z) (h : heap) :
    res buffer_error (heap * Z) :=
  match outputs with
  | [] => Ok (h, min_space)
  | a :: outputs =>
      b ← the_buffer h a;
      '(b, space) ← space_available b;
      let h := <[a := b]> h in
      let n := s32 (round_down (Z.min space (d_bufsize b ÷ 2)) output_multiple) in
      if n =? 0 then Ok (h, if d_done b then -1 else 0)
      else min_space_loop outputs output_multiple (Z.min min_space n) h
  end.

Definition min_available_space (d : gr_block_detail) (output_multiple : Z) (h : heap) :
    res buffer_error (heap * Z) :=
  min_space_loop (d_output d) output_multiple INT_MAX h.

(** ** Input *)

(** Local copies of [items_available] and [done] of an input. *)
Definition look (h : heap) (i : Z * Z) : res buffer_error (Z * bool) :=
  b ← the_buffer h i.1;
  n ← items_available b i.2;
  Ok (n, d_done b).

Fixpoint look_all (h : heap) (inputs : list (Z * Z)) : res buffer_error (list (Z * bool)) :=
  match inputs with
  | [] => Ok []
  | i :: inputs => x ← look h i; rest ← look_all h inputs; Ok (x :: rest)
  end.

(** The loop of a sink: [None] when an input is done and short. *)
Fixpoint look_sink (h : heap) (output_multiple : Z) (inputs : list (Z * Z)) :
    res buffer_error (option (list (Z * bool))) :=
  match inputs with
  | [] => Ok (Some [])
  | i :: inputs =>
      x ← look h i;
      if (x.1 <? output_multiple) && x.2 then Ok None
      else rest ← look_sink h output_multiple inputs; Ok (option_map (cons x) rest)
  end.

Definition max_avail (seen : list (Z * bool)) : Z := foldl (fun m x => Z.max m x.1) 0 seen.

(** ** The request *)

Inductive verdict := CallWork (noutput_items : Z) | Blocked | WereDone.

(** The first input with less than is required. *)
Fixpoint short_input (required : list Z) (seen : list (Z * bool)) : option nat :=
  match required, seen with
  | r :: required, x :: seen =>
      if x.1 <? r then Some O else S <$> short_input required seen
  | _, _ => None
  end.

Section Request.
Context {S : Type} (m : gr_block S) (seen : list (Z * bool)) (max_possible : list Z).

Definition fixed_request (noutput_items : Z) : Z :=
  if fixed_rate m then
    let reqd := s32 (round_up (fixed_rate_ninput_to_noutput m (max_avail seen)) (output_multiple m)) in
    if (0 <? reqd) && (reqd <=? noutput_items) then reqd else noutput_items
  else noutput_items.

(** [try_again:]; at most [fuel] times.  [None] is out of fuel. *)
Fixpoint try_again (fuel : nat) (noutput_items : Z) : option verdict :=
  match fuel with
  | O => None
  | Datatypes.S fuel =>
      let noutput_items := fixed_request noutput_items in
      let required := forecast m noutput_items (length seen) in
      match short_input required seen with
      | None => Some (CallWork noutput_items)
      | Some i =>
          if output_multiple m <? noutput_items then
            try_again fuel (s32 (round_up (noutput_items ÷ 2) (output_multiple m)))
          else if (nth i seen (0, false)).2 then Some WereDone
          else if max_possible.[Z.of_nat i] <? required.[Z.of_nat i] then Some WereDone
          else Some Blocked
      end
  end.
End Request.

(** ** Running the block *)

(** Store the items a block made at the write pointers of its outputs. *)
Fixpoint store_outputs (outputs : list Z) (items : list (list Z)) (h : heap) : res buffer_error heap :=
  match outputs, items with
  | a :: outputs, l :: items =>
      h ← on_buffer (fun b => Ok (store_items b l)) a h; store_outputs outputs items h
  | _, _ => Ok h
  end.

Definition make_call (c : call) (st : gr_block_detail * heap) : res buffer_error (gr_block_detail * heap) :=
  let '(d, h) := st in
  match c with
  | Consumed which n => h ← consume d which n h; Ok (d, h)
  | ConsumedEach n => h ← consume_each d n h; Ok (d, h)
  | Produced which n => produce d which n h
  end.

(** The items an input pointer points at. *)
Definition load_input (h : heap) (i : Z * Z) (n : Z) : res buffer_error (list Z) :=
  b ← the_buffer h i.1; load_items b i.2 n.

Fixpoint load_inputs (h : heap) (inputs : list (Z * Z)) (ninput_items : list Z) :
    res buffer_error (list (list Z)) :=
  match inputs, ninput_items with
  | i :: inputs, n :: ninput_items =>
      x ← load_input h i n; rest ← load_inputs h inputs ninput_items; Ok (x :: rest)
  | _, _ => Ok []
  end.

Definition nitems_read (h : heap) (i : Z * Z) : res buffer_error Z :=
  b ← the_buffer h i.1; rd ← the_reader b i.2; Ok (d_abs_read_offset rd).

Fixpoint all_nitems_read (h : heap) (inputs : list (Z * Z)) : res buffer_error (list Z) :=
  match inputs with
  | [] => Ok []
  | i :: inputs => x ← nitems_read h i; rest ← all_nitems_read h inputs; Ok (x :: rest)
  end.

(** ** Tags *)

Definition scale_tag {S} (m : gr_block S) (t : tag) : tag :=
  {| item_time := u64 (times_rate m (item_time t)); tag_rest := tag_rest t |}.

Definition add_tags (tags : list tag) (a : Z) : heap -> res buffer_error heap :=
  on_buffer (fun b => Ok (foldl add_item_tag b tags)) a.

(** Each tag is added to every output in turn; tag by tag or output by output
    makes no difference to an output. *)
Definition tags_to_all (tags : list tag) (outputs : list Z) (h : heap) : res buffer_error heap :=
  for_each (fun t => for_each (add_tags [t]) outputs) tags h.

Definition tags_of_input (h : heap) (i : Z * Z) (start : Z) : res buffer_error (list tag) :=
  b ← the_buffer h i.1;
  stop ← nitems_read h i;
  Ok (get_tags_in_range b start stop).

Fixpoint all_to_all {S} (m : gr_block S) (outputs : list Z) (inputs : list (Z * Z)) (starts : list Z)
    (h : heap) : res buffer_error heap :=
  match inputs, starts with
  | i :: inputs, start :: starts =>
      tags ← tags_of_input h i start;
      h ← tags_to_all (if rate_is_one m then tags else map (scale_tag m) tags) outputs h;
      all_to_all m outputs inputs starts h
  | _, _ => Ok h
  end.

Fixpoint one_to_one {S} (m : gr_block S) (outputs : list Z) (inputs : list (Z * Z)) (starts : list Z)
    (h : heap) : res buffer_error heap :=
  match outputs, inputs, starts with
  | o :: outputs, i :: inputs, start :: starts =>
      tags ← tags_of_input h i start;
      h ← add_tags (map (scale_tag m) tags) o h;
      one_to_one m outputs inputs starts h
  | _, _, _ => Ok h
  end.

Definition propagate_tags {S} (m : gr_block S) (d : gr_block_detail) (start_nitems_read : list Z)
    (h : heap) : res buffer_error (heap * bool) :=
  if sink_p d then Ok (h, true)
  else
    match tag_propagation_policy m with
    | TPP_DONT => Ok (h, true)
    | TPP_ALL_TO_ALL => h ← all_to_all m (d_output d) (d_input d) start_nitems_read h; Ok (h, true)
    | TPP_ONE_TO_ONE =>
        if ninputs d =? noutputs d then
          h ← one_to_one m (d_output d) (d_input d) start_nitems_read h; Ok (h, true)
        else Ok (h, false)
    end.

(** ** One iteration *)

Section Iteration.
Context {S : Type} (m : gr_block S).

Definition were_done (d : gr_block_detail) (s : S) (h : heap) :
    res buffer_error (gr_block_detail * S * heap * state) :=
  '(d, h) ← set_done d true h; Ok (d, s, h, DONE).

(** [setup_call_to_work:] and what follows. *)
Definition setup_call_to_work (d : gr_block_detail) (s : S) (h : heap) (noutput_items : Z)
    (ninput_items : list Z) : res buffer_error (gr_block_detail * S * heap * state) :=
  input_items ← load_inputs h (d_input d) ninput_items;
  let d := with_produce_or d 0 in
  start_nitems_read ← all_nitems_read h (d_input d);
  let '(s, output_items, calls, n) := general_work m s noutput_items ninput_items input_items in
  h ← store_outputs (d_output d) output_items h;
  '(d, h) ← for_each make_call calls (d, h);
  '(h, propagated) ← propagate_tags m d start_nitems_read h;
  if negb propagated then were_done d s h
  else if n =? WORK_DONE then were_done d s h
  else
    '(d, h) ← (if negb (n =? WORK_CALLED_PRODUCE) then produce_each d n h else Ok (d, h));
    if 0 <? d_produce_or d then Ok (d, s, h, READY)
    else if source_p d then were_done d s h
    else Ok (d, s, h, READY_NO_OUTPUT).

Definition max_possible (d : gr_block_detail) (h : heap) : list Z :=
  map (fun i => from_option max_possible_items_available 0 (h !! i.1)) (d_input d).

(** The verdict of [try_again], acted upon. *)
Definition attempt (d : gr_block_detail) (s : S) (h : heap) (noutput_items : Z)
    (seen : list (Z * bool)) : res buffer_error (gr_block_detail * S * heap * state) :=
  match try_again m seen (max_possible d h) (Z.to_nat noutput_items) noutput_items with
  | Some (CallWork n) => setup_call_to_work d s h n (map fst seen)
  | Some Blocked => Ok (d, s, h, BLKD_IN)
  | Some WereDone => were_done d s h
  | None => Throw assertion_failed
  end.

Definition run_one_iteration (d : gr_block_detail) (s : S) (h : heap) :
    res buffer_error (gr_block_detail * S * heap * state) :=
  if d_detail_done d then Throw assertion_failed
  else if source_p d then
    '(h, noutput_items) ← min_available_space d (output_multiple m) h;
    if noutput_items =? -1 then were_done d s h
    else if noutput_items =? 0 then Ok (d, s, h, BLKD_OUT)
    else setup_call_to_work d s h noutput_items []
  else if sink_p d then
    seen ← look_sink h (output_multiple m) (d_input d);
    match seen with
    | None => were_done d s h
    | Some seen =>
        let noutput_items := s32 (round_down (times_rate m (max_avail seen)) (output_multiple m)) in
        if noutput_items =? 0 then Ok (d, s, h, BLKD_IN)
        else attempt d s h noutput_items seen
    end
  else
    seen ← look_all h (d_input d);
    '(h, noutput_items) ← min_available_space d (output_multiple m) h;
    if noutput_items =? -1 then were_done d s h
    else if noutput_items =? 0 then Ok (d, s, h, BLKD_OUT)
    else attempt d s h noutput_items seen.
End Iteration.

(** ** Rounding *)

Lemma round_down_spec n k : 0 <= n <= INT_MAX -> 1 <= k -> 0 <= round_down n k <= n /\ (k | round_down n k).
Proof.
  unfold INT_MAX. intros Hn Hk. unfold round_down. rewrite (u32_id n) by lia.
  pose proof (Z.mul_div_le n k ltac:(lia)). pose proof (Z.div_pos n k ltac:(lia) ltac:(lia)).
  assert (0 <= n / k * k) by (apply Z.mul_nonneg_nonneg; lia).
  rewrite u32_id by lia. split; [lia|]. by exists (n / k).
Qed.

Lemma round_up_spec n k : 0 <= n -> 1 <= k -> n + k <= INT_MAX ->
  n <= round_up n k < n + k /\ (k | round_up n k).
Proof.
  unfold INT_MAX. intros Hn Hk Hnk. unfold round_up.
  rewrite (u32_id n), (u32_id (n + k)), (u32_id (n + k - 1)) by lia.
  pose proof (Z.div_mod (n + k - 1) k ltac:(lia)). pose proof (Z.mod_pos_bound (n + k - 1) k ltac:(lia)).
  rewrite (Z.mul_comm _ k), u32_id by lia. split; [lia|].
  exists ((n + k - 1) / k). lia.
Qed.

(** Halving a request and rounding it up makes it smaller. *)
Lemma halved_smaller n k : 1 <= k -> (k | n) -> k < n -> 0 < n <= INT_MAX / 2 ->
  0 < s32 (round_up (n ÷ 2) k) < n /\ (k | s32 (round_up (n ÷ 2) k)).
Proof.
  change (INT_MAX / 2) with 1073741823. intros Hk [q ->] Hlt Hn.
  rewrite Z.quot_div_nonneg by lia.
  pose proof (Z.div_mod (q * k) 2 ltac:(lia)). pose proof (Z.mod_pos_bound (q * k) 2 ltac:(lia)).
  destruct (round_up_spec (q * k / 2) k) as [Hr [p Hp]]; [lia|done|unfold INT_MAX; lia|].
  rewrite (sx_id 32) by (norm_pow; lia). split; [|by exists p].
  split; [lia|]. rewrite Hp in *. apply Z.mul_lt_mono_pos_r; [lia|].
  assert (1 < q) by (apply (Z.mul_lt_mono_pos_r k); lia).
  assert (2 * p * k < (q + 2) * k) by lia.
  assert (2 * p < q + 2) by (apply (Z.mul_lt_mono_pos_r k); lia). lia.
Qed.

(** ** The request *)

Lemma short_input_none required seen : short_input required seen = None ->
  length required = length seen -> Forall2 (fun r x => r <= x.1) required seen.
Proof.
  revert required. induction seen as [|x seen IH]; intros [|r required]; try done.
  cbn [short_input]. case_if; [done|]. intros Hs Hl. constructor; [done|].
  apply IH; [by destruct (short_input required seen)|by injection Hl].
Qed.

Lemma short_input_some required seen i : short_input required seen = Some i ->
  exists x, seen !! i = Some x /\ x.1 < required.[Z.of_nat i].
Proof.
  revert required i. induction seen as [|y seen IH]; intros [|r required] i; try done.
  cbn [short_input]. case_if; [intros [= <-]; by exists y|].
  destruct (short_input required seen) as [j|] eqn:E; [|done]. intros [= <-].
  destruct (IH required j E) as (x & Hx & Hlt). exists x. split; [done|].
  revert Hlt. unfold aget. rewrite !(proj2 (Z.ltb_ge _ _)) by lia. by rewrite !Nat2Z.id.
Qed.

Section TryAgain.
Context {S : Type} (m : gr_block S) (seen : list (Z * bool)) (max_possible : list Z).
Context (Hk : 1 <= output_multiple m).
(** The rate of a fixed rate block does not overflow. *)
Context (Hrate : fixed_rate m = true ->
  0 <= fixed_rate_ninput_to_noutput m (max_avail seen) <= INT_MAX / 2 /\ output_multiple m <= INT_MAX / 2).
Abbreviation k := (output_multiple m).

Lemma fixed_request_spec n : 0 < n -> (k | n) ->
  0 < fixed_request m seen n <= n /\ (k | fixed_request m seen n).
Proof using Hk Hrate.
  intros Hn Hkn. unfold fixed_request. destruct (fixed_rate m) eqn:Hf; [|split; [lia|done]].
  destruct (Hrate eq_refl) as [Hr Hm]. change (INT_MAX / 2) with 1073741823 in *.
  destruct (round_up_spec (fixed_rate_ninput_to_noutput m (max_avail seen)) k) as [Hru Hd];
    [lia|done|unfold INT_MAX; lia|].
  rewrite (sx_id 32) by (norm_pow; lia). case_if; [split; [lia|done]|split; [lia|done]].
Qed.

(** A verdict: a request the input satisfies, or a reason to give up. *)
Lemma try_again_spec fuel n : 0 < n <= INT_MAX / 2 -> (k | n) -> (Z.to_nat n <= fuel)%nat ->
  (forall n, length (forecast m n (length seen)) = length seen) ->
  exists v, try_again m seen max_possible fuel n = Some v /\
  match v with
  | CallWork n' => 0 < n' <= n /\ (k | n') /\
      Forall2 (fun r x => r <= x.1) (forecast m n' (length seen)) seen
  | Blocked | WereDone => exists i x, seen !! i = Some x /\
      x.1 < (forecast m k (length seen)).[Z.of_nat i] /\
      (v = Blocked -> x.2 = false /\
         (forecast m k (length seen)).[Z.of_nat i] <= max_possible.[Z.of_nat i])
  end.
Proof using Hk Hrate.
  intros Hn Hkn Hfuel Hlen. revert n Hn Hkn Hfuel.
  induction fuel as [|fuel IH]; intros n Hn Hkn Hfuel; [lia|].
  destruct (fixed_request_spec n ltac:(lia) Hkn) as [Hf Hkf].
  cbn [try_again]. set (n1 := fixed_request m seen n) in *.
  destruct (short_input (forecast m n1 (length seen)) seen) as [i|] eqn:Hs.
  2: { eexists. split; [reflexivity|]. split_and!; [lia..|done|]. by apply short_input_none. }
  destruct (short_input_some _ _ _ Hs) as (x & Hx & Hlt).
  destruct (Z.ltb_spec k n1) as [Hkn1|Hkn1].
  - destruct (halved_smaller n1 k Hk Hkf Hkn1 ltac:(lia)) as [Hh Hkh].
    destruct (IH (s32 (round_up (n1 ÷ 2) k)) ltac:(lia) Hkh ltac:(lia)) as (v & -> & Hv). exists v. split; [done|].
    destruct v; [|done..]. destruct Hv as (? & ? & ?). split_and!; [lia..|done|done].
  - rewrite (nth_lookup_Some _ _ _ _ Hx).
    assert (n1 = k) as Hn1. { pose proof (Z.divide_pos_le k n1 ltac:(lia) Hkf). lia. }
    rewrite Hn1 in *.
    destruct x.2 eqn:Hd; [|destruct (Z.ltb_spec max_possible.[Z.of_nat i] (forecast m k (length seen)).[Z.of_nat i])];
      eexists; (split; [reflexivity|]); exists i, x; split_and!; try done; lia.
Qed.
End TryAgain.

(** ** The heap of buffers, each as [GrBuffer.rep] has it

    The ghost state of a buffer: the room its writer holds, its history and
    the positions of its readers. *)

Record ghost := { g_room : Z; g_hist : list Z; g_pos : gmap Z Z }.

Definition heap_rep (h : heap) (g : gmap Z ghost) : Prop := forall a,
  option_Forall2 (fun b x => rep {| buf := b; room := g_room x |} (g_hist x) (g_pos x)) (h !! a) (g !! a).

(** At least [n] items are waiting at an input; the writer of [a] has room for
    at least [n]. *)
Definition waiting (g : gmap Z ghost) (i : Z * Z) (n : Z) : Prop :=
  exists x p, g !! i.1 = Some x /\ g_pos x !! i.2 = Some p /\ n <= zlen (g_hist x) - p.

Definition roomy (g : gmap Z ghost) (a n : Z) : Prop := exists x, g !! a = Some x /\ n <= g_room x.

(** At least [n] of the items that were there when the histories had the lengths
    [base] are waiting. *)
Definition waiting_at (base : Z -> Z) (g : gmap Z ghost) (i : Z * Z) (n : Z) : Prop :=
  exists x p, g !! i.1 = Some x /\ g_pos x !! i.2 = Some p /\ n <= base i.1 - p /\ base i.1 <= zlen (g_hist x).

Lemma waiting_at_waiting base g i n : waiting_at base g i n -> waiting g i n.
Proof. intros (x & p & Hx & Hp & Hn & Hb). exists x, p. split_and!; [done..|lia]. Qed.

(** What calls do to the streams: items are appended where [W] allows, out of the
    room there is, and positions move on where [R] allows. *)
Record ghost_step (W : Prop) (R : Z -> Prop) (x x' : ghost) : Prop := {
  gs_hist : exists items, g_hist x' = g_hist x ++ items /\ (W \/ items = []);
  gs_room : zlen (g_hist x') + g_room x' = zlen (g_hist x) + g_room x;
  gs_pos : forall r, option_Forall2 (fun p p' => p <= p' /\ (R r \/ p' = p)) (g_pos x !! r) (g_pos x' !! r)
}.
Definition moved_on (W : Z -> Prop) (R : Z * Z -> Prop) (g g' : gmap Z ghost) : Prop :=
  forall a, option_Forall2 (ghost_step (W a) (fun r => R (a, r))) (g !! a) (g' !! a).

Lemma ghost_step_refl W R x : ghost_step W R x x.
Proof.
  split; [exists []; rewrite app_nil_r; tauto|done|]. intros r. destruct (g_pos x !! r); constructor. split; [lia|by right].
Qed.

#[export] Instance moved_on_preorder W R : PreOrder (moved_on W R).
Proof.
  split.
  - intros g a. destruct (g !! a); constructor. apply ghost_step_refl.
  - intros g1 g2 g3 H12 H23 a. specialize (H12 a). specialize (H23 a).
    destruct H12 as [x1 x2 [(l1 & E1 & W1) A2 A3]|]; inversion H23 as [? x3 [(l2 & E2 & W2) B2 B3]|]; subst; constructor. split.
    + exists (l1 ++ l2). split; [by rewrite E2, E1, app_assoc|]. destruct W1 as [?| ->]; [by left|]. destruct W2; auto.
    + lia.
    + intros r. specialize (A3 r). specialize (B3 r). destruct A3 as [p1 p2 [Hp Hr]|]; inversion B3 as [? p3 [Hq Hs]|]; subst; constructor.
      split; [lia|]. destruct Hr as [?| ->]; [by left|]. destruct Hs; auto.
Qed.

Lemma moved_on_mono (W W' : Z -> Prop) (R R' : Z * Z -> Prop) g g' : (forall a, W a -> W' a) -> (forall i, R i -> R' i) ->
  moved_on W R g g' -> moved_on W' R' g g'.
Proof.
  intros HW HR Hg a. destruct (Hg a) as [x x' [(l & E & Hl) H2 H3]|]; constructor. split; [|done|].
  - exists l. split; [done|]. destruct Hl; auto.
  - intros r. destruct (H3 r) as [p p' [Hp Hr]|]; constructor. split; [done|]. destruct Hr; auto.
Qed.

Lemma moved_on_insert (W : Z -> Prop) (R : Z * Z -> Prop) g a x x' : g !! a = Some x ->
  ghost_step (W a) (fun r => R (a, r)) x x' -> moved_on W R g (<[a := x']> g).
Proof.
  intros Hx Hs c. destruct (decide (c = a)) as [->|].
  - rewrite Hx, lookup_insert_eq. by constructor.
  - rewrite lookup_insert_ne by done. destruct (g !! c); constructor. apply ghost_step_refl.
Qed.

Lemma heap_rep_buffer h g a x : heap_rep h g -> g !! a = Some x ->
  exists b, h !! a = Some b /\ rep {| buf := b; room := g_room x |} (g_hist x) (g_pos x).
Proof. intros Hr Hx. specialize (Hr a). rewrite Hx in Hr. inversion Hr as [b ? Hb|]; eauto. Qed.

Lemma heap_rep_insert h g a b x : heap_rep h g ->
  rep {| buf := b; room := g_room x |} (g_hist x) (g_pos x) -> heap_rep (<[a := b]> h) (<[a := x]> g).
Proof.
  intros Hr Hb c. destruct (decide (c = a)) as [->|Hne].
  - rewrite !lookup_insert_eq. by constructor.
  - rewrite !lookup_insert_ne by done. apply Hr.
Qed.

(** A call that keeps what the buffer represents. *)
Lemma heap_rep_neutral h g a b b' x : heap_rep h g -> g !! a = Some x -> h !! a = Some b ->
  (forall room H pos, rep {| buf := b; room := room |} H pos -> rep {| buf := b'; room := room |} H pos) ->
  heap_rep (<[a := b']> h) g.
Proof.
  intros Hr Hx Hb Hk. rewrite <- (insert_id g a x Hx). apply heap_rep_insert; [done|].
  destruct (heap_rep_buffer _ _ _ _ Hr Hx) as (b1 & Hb1 & Hrep). rewrite Hb in Hb1.
  injection Hb1 as <-. by apply Hk.
Qed.

Lemma on_buffer_ok f a h b b' : h !! a = Some b -> f b = Ok b' -> on_buffer f a h = Ok (<[a := b']> h).
Proof. intros Hb Hf. unfold on_buffer, the_buffer. by rewrite Hb, ok_bind, Hf. Qed.

Lemma on_buffer_neutral f a h g : heap_rep h g -> is_Some (g !! a) ->
  (forall b, exists b', f b = Ok b' /\ forall room H pos,
     rep {| buf := b; room := room |} H pos -> rep {| buf := b'; room := room |} H pos) ->
  exists h', on_buffer f a h = Ok h' /\ heap_rep h' g.
Proof.
  intros Hr [x Hx] Hf. destruct (heap_rep_buffer _ _ _ _ Hr Hx) as (b & Hb & Hrep).
  destruct (Hf b) as (b' & Hfb & Hk). eexists. split; [by eapply on_buffer_ok|].
  by eapply heap_rep_neutral.
Qed.

(** The same over a list of buffers. *)
Lemma for_each_neutral {A} (f : A -> heap -> res buffer_error heap) l h g :
  (forall x h, x ∈ l -> heap_rep h g -> exists h', f x h = Ok h' /\ heap_rep h' g) ->
  heap_rep h g -> exists h', for_each f l h = Ok h' /\ heap_rep h' g.
Proof.
  revert h. induction l as [|x l IH]; intros h Hf Hr; cbn [for_each]; [eauto|].
  destruct (Hf x h ltac:(constructor) Hr) as (h1 & -> & Hr1). rewrite ok_bind.
  apply IH; [|done]. intros y h' Hy. apply Hf. by constructor.
Qed.

Lemma rep_done b room done H pos :
  rep {| buf := b; room := room |} H pos -> rep {| buf := with_done b done; room := room |} H pos.
Proof. by intros []; split. Qed.

Lemma rep_add_tags tags b room H pos :
  rep {| buf := b; room := room |} H pos -> rep {| buf := foldl add_item_tag b tags; room := room |} H pos.
Proof.
  revert b. induction tags as [|t tags IH]; intros b Hr; [done|]. apply IH. by apply rep_tags.
Qed.

(** ** Consuming and producing through the heap *)

Lemma heap_consume h g a r k n : heap_rep h g -> waiting g (a, r) k -> 0 <= n <= k ->
  exists h' g', on_buffer (fun b => update_read_pointer b r n) a h = Ok h' /\ heap_rep h' g' /\
    (forall base j, waiting_at base g (a, r) j -> waiting_at base g' (a, r) (j - n)) /\
    (forall base i j, i <> (a, r) -> waiting_at base g i j -> waiting_at base g' i j) /\
    (forall o j, roomy g o j -> roomy g' o j) /\ moved_on (fun _ => False) (eq (a, r)) g g'.
Proof.
  intros Hr (x & p & Hx & Hp & Hk) Hn. cbn [fst snd] in *.
  destruct (heap_rep_buffer _ _ _ _ Hr Hx) as (b & Hb & Hrep).
  destruct (rep_consume b _ _ _ r p n Hrep Hp ltac:(lia)) as (b' & Hu & Hrep').
  set (x' := {| g_room := g_room x; g_hist := g_hist x; g_pos := <[r := p + n]> (g_pos x) |}).
  exists (<[a := b']> h), (<[a := x']> g). split_and!.
  - by eapply on_buffer_ok.
  - by apply heap_rep_insert.
  - intros base j (y & q & Hy & Hq & Hj & Hbase). cbn [fst snd] in *. rewrite Hx in Hy. injection Hy as <-.
    assert (q = p) as -> by congruence. exists x', (p + n). cbn. rewrite !lookup_insert_eq. split_and!; [done..|lia|done].
  - intros base [c r'] j Hne (y & q & Hy & Hq & Hj). cbn [fst snd] in *. destruct (decide (c = a)) as [->|Hca].
    + rewrite Hx in Hy. injection Hy as <-. exists x', q. cbn.
      rewrite lookup_insert_eq, lookup_insert_ne by congruence. done.
    + exists y, q. cbn. by rewrite lookup_insert_ne.
  - intros o j (y & Hy & Hj). destruct (decide (o = a)) as [->|Hoa].
    + rewrite Hx in Hy. injection Hy as <-. exists x'. by rewrite lookup_insert_eq.
    + exists y. by rewrite lookup_insert_ne.
  - apply moved_on_insert with x; [done|]. split; cbn; [exists []; rewrite app_nil_r; tauto|done|].
    intros r'. destruct (decide (r' = r)) as [->|].
    + rewrite Hp, lookup_insert_eq. constructor. split; [lia|by left].
    + rewrite lookup_insert_ne by done. destruct (g_pos x !! r'); constructor. split; [lia|by right].
Qed.

Lemma heap_produce h g a k n : heap_rep h g -> roomy g a k -> 0 <= n <= k ->
  exists h' g', on_buffer (fun b => update_write_pointer b n) a h = Ok h' /\ heap_rep h' g' /\
    roomy g' a (k - n) /\ (forall o j, o <> a -> roomy g o j -> roomy g' o j) /\
    (forall base i j, waiting_at base g i j -> waiting_at base g' i j) /\ moved_on (eq a) (fun _ => False) g g'.
Proof.
  intros Hr (x & Hx & Hk) Hn. destruct (heap_rep_buffer _ _ _ _ Hr Hx) as (b & Hb & Hrep).
  destruct (rep_produce b _ n _ _ Hrep ltac:(lia)) as (wi & Hu & Hrep').
  set (x' := {| g_room := g_room x - n; g_hist := g_hist x ++ run_at b (d_write_index b) n;
                g_pos := g_pos x |}).
  eexists (<[a := _]> h), (<[a := x']> g). split_and!.
  - by eapply on_buffer_ok.
  - by apply heap_rep_insert.
  - exists x'. rewrite lookup_insert_eq. split; [done|]. cbn. lia.
  - intros o j Hne (y & Hy & Hj). exists y. by rewrite lookup_insert_ne.
  - intros base [c r'] j (y & q & Hy & Hq & Hj & Hbase). cbn [fst snd] in *. destruct (decide (c = a)) as [->|Hca].
    + rewrite Hx in Hy. injection Hy as <-. exists x', q. cbn. rewrite lookup_insert_eq.
      split_and!; [done..|]. rewrite length_app. lia.
    + exists y, q. cbn. by rewrite lookup_insert_ne.
  - apply moved_on_insert with x; [done|]. split; cbn.
    + eexists. split; [reflexivity|by left].
    + rewrite length_app. unfold run_at. rewrite length_map, length_seqZ. lia.
    + intros r'. destruct (g_pos x !! r'); constructor. split; [lia|by right].
Qed.

Lemma heap_store h g a k l : heap_rep h g -> roomy g a k -> zlen l <= k ->
  exists h', on_buffer (fun b => Ok (store_items b l)) a h = Ok h' /\ heap_rep h' g.
Proof.
  intros Hr (x & Hx & Hk) Hl. destruct (heap_rep_buffer _ _ _ _ Hr Hx) as (b & Hb & Hrep).
  eexists. split; [by eapply on_buffer_ok|]. rewrite <- (insert_id g a x Hx).
  apply heap_rep_insert; [done|]. apply rep_store; [done|lia].
Qed.

(** ** Space *)

(** What a scan of the outputs leaves: the streams, and at least the same room. *)
Definition rescanned (g g' : gmap Z ghost) : Prop := forall a,
  option_Forall2 (fun x x' => g_hist x' = g_hist x /\ g_pos x' = g_pos x) (g !! a) (g' !! a).

Record refreshed (g g' : gmap Z ghost) : Prop := {
  rf_waiting : forall i j, waiting g i j -> waiting g' i j;
  rf_roomy : forall o j, roomy g o j -> roomy g' o j;
  rf_streams : rescanned g g'
}.

#[export] Instance rescanned_preorder : PreOrder rescanned.
Proof.
  split; [intros g a; by destruct (g !! a); constructor|]. intros g1 g2 g3 H12 H23 a. specialize (H12 a). specialize (H23 a).
  destruct H12 as [x1 x2 [A1 A2]|]; inversion H23 as [? x3 [B1 B2]|]; subst; constructor. split; congruence.
Qed.

#[export] Instance refreshed_preorder : PreOrder refreshed.
Proof. split; [by intros g; split|]. intros g1 g2 g3 [? ? ?] [? ? ?]. split; eauto. by transitivity g2. Qed.

Lemma heap_space h g a x b : heap_rep h g -> g !! a = Some x -> h !! a = Some b ->
  exists b' n, space_available b = Ok (b', n) /\ 0 <= n < 2 ^ 31 /\ 0 < d_bufsize b < 2 ^ 31 /\
    d_bufsize b' = d_bufsize b /\
    let x' := {| g_room := n; g_hist := g_hist x; g_pos := g_pos x |} in
    heap_rep (<[a := b']> h) (<[a := x']> g) /\ refreshed g (<[a := x']> g).
Proof.
  intros Hr Hx Hb. destruct (heap_rep_buffer _ _ _ _ Hr Hx) as (b1 & Hb1 & Hrep).
  rewrite Hb in Hb1. injection Hb1 as <-.
  destruct (space_available_spec _ _ _ _ Hrep) as (b' & n & Hs & Hrep' & Hn & _ & _ & Hb').
  assert (d_bufsize b' = d_bufsize b) as HN by (destruct Hb' as [-> |(_ & m & -> & _)]; done).
  pose proof (rep_pos_N _ _ _ Hrep) as HNb. pose proof (rep_room _ _ _ Hrep') as Hnb.
  pose proof (rep_room _ _ _ Hrep) as Hrm. cbn [buf room] in *.
  exists b', n. split_and!; try done; try lia; [by apply heap_rep_insert|]. split.
  - intros [c r] j (y & q & Hy & Hq & Hj). cbn [fst snd] in *. destruct (decide (c = a)) as [->|Hca].
    + rewrite Hx in Hy. injection Hy as <-. eexists _, q. cbn. rewrite lookup_insert_eq. done.
    + exists y, q. cbn. by rewrite lookup_insert_ne.
  - intros o j (y & Hy & Hj). destruct (decide (o = a)) as [->|Hoa].
    + rewrite Hx in Hy. injection Hy as <-. eexists. rewrite lookup_insert_eq. split; [done|]. cbn. lia.
    + exists y. by rewrite lookup_insert_ne.
  - intros c. destruct (decide (c = a)) as [->|]; [rewrite Hx, lookup_insert_eq; by constructor|].
    rewrite lookup_insert_ne by done. destruct (g !! c); by constructor.
Qed.

Lemma refreshed_is_Some g g' a : refreshed g g' -> is_Some (g !! a) -> is_Some (g' !! a).
Proof. intros [_ Ho _] [x Hx]. destruct (Ho a (g_room x)) as (y & Hy & _); [by exists x|eauto]. Qed.

(** Buffers keep their size. *)
Definition same_sizes (h h' : heap) : Prop := forall a, d_bufsize <$> h' !! a = d_bufsize <$> h !! a.

Lemma same_sizes_insert h a b b' : h !! a = Some b -> d_bufsize b' = d_bufsize b -> same_sizes h (<[a := b']> h).
Proof.
  intros Hb Hs c. destruct (decide (c = a)) as [->|]; [rewrite lookup_insert_eq, Hb; cbn; by rewrite Hs|by rewrite lookup_insert_ne].
Qed.

Lemma min_space_loop_spec k outs ms h g : 1 <= k -> heap_rep h g -> NoDup outs ->
  (forall a, a ∈ outs -> is_Some (g !! a)) -> ms = INT_MAX \/ (k | ms) /\ 0 < ms <= INT_MAX / 2 ->
  exists h' g' n, min_space_loop outs k ms h = Ok (h', n) /\ heap_rep h' g' /\ refreshed g g' /\ same_sizes h h' /\
    (n = -1 \/ n = 0 \/ n = ms /\ outs = [] \/
     0 < n <= INT_MAX / 2 /\ (k | n) /\ n <= ms /\ (forall a, a ∈ outs -> roomy g' a n) /\
     forall a b, a ∈ outs -> h !! a = Some b -> n <= d_bufsize b / 2).
Proof.
  intros Hk. revert ms h g. induction outs as [|a outs IH]; intros ms h g Hr Hnd Hin Hms; cbn [min_space_loop].
  { exists h, g, ms. split_and!; [done..|]. tauto. }
  apply NoDup_cons in Hnd as [Ha Hnd]. destruct (Hin a ltac:(constructor)) as [x Hx].
  destruct (heap_rep_buffer _ _ _ _ Hr Hx) as (b & Hb & _).
  unfold the_buffer. rewrite Hb, ok_bind.
  destruct (heap_space h g a x b Hr Hx Hb) as (b' & sp & -> & Hsp & HN & HNb & Hr' & Hg1).
  pose proof (same_sizes_insert h a b b' Hb HNb) as Hss.
  rewrite ok_bind, HNb. cbv beta iota.
  set (g1 := <[a := {| g_room := sp; g_hist := g_hist x; g_pos := g_pos x |}]> g) in *.
  change (2 ^ 31) with 2147483648 in *. rewrite Z.quot_div_nonneg by lia.
  destruct (round_down_spec (Z.min sp (d_bufsize b / 2)) k) as [Hd Hkd]; [unfold INT_MAX; divlia|done|].
  rewrite (sx_id 32) by (norm_pow; divlia).
  set (n := round_down (Z.min sp (d_bufsize b / 2)) k) in *.
  destruct (Z.eqb_spec n 0) as [Hn0|Hn0].
  { eexists _, g1, _. split; [reflexivity|]. split_and!; [done..|]. destruct (d_done b'); auto. }
  assert (n <= INT_MAX / 2) as Hn2 by (change (INT_MAX / 2) with 1073741823; divlia).
  assert (Z.min ms n <= INT_MAX / 2 /\ 0 < Z.min ms n /\ (k | Z.min ms n)) as (Hm1 & Hm2 & Hm3).
  { change (INT_MAX / 2) with 1073741823 in *. unfold INT_MAX in *.
    destruct Hms as [->|[? ?]]; [rewrite Z.min_r by lia; split_and!; done || lia|].
    destruct (Z.min_spec ms n) as [[? ->]|[? ->]]; split_and!; done || lia. }
  destruct (IH (Z.min ms n) (<[a := b']> h) g1 Hr' Hnd) as (h' & g' & m & -> & Hr2 & Href & Hss2 & Hres).
  { intros c Hc. apply (refreshed_is_Some g); [done|]. apply Hin. by constructor. }
  { right. done. }
  exists h', g', m. split_and!; [done|done|by transitivity g1|intros c; by rewrite Hss2, Hss|].
  assert (roomy g' a (Z.min ms n)) as Hra.
  { apply Href. eexists. unfold g1. rewrite lookup_insert_eq. split; [done|]. cbn. lia. }
  assert (n <= d_bufsize b / 2) as Hnb by lia.
  destruct Hres as [?|[?|[[-> ->]|(? & ? & ? & Hall & Hsize)]]]; [by left|by right; left|..]; do 3 right.
  - split_and!; try done; try lia; [by intros c ->%list_elem_of_singleton|].
    intros c bc ->%list_elem_of_singleton Hbc. rewrite Hb in Hbc. injection Hbc as <-. lia.
  - split_and!; try done; try lia.
    + intros c [->|Hc]%elem_of_cons; [|by apply Hall].
      destruct Hra as (y & Hy & Hj). exists y. split; [done|lia].
    + intros c bc [->|Hc]%elem_of_cons Hbc.
      * rewrite Hb in Hbc. injection Hbc as <-. lia.
      * apply (Hsize c bc Hc). rewrite lookup_insert_ne; [done|]. by intros ->.
Qed.

(** ** Looking at the inputs *)

(** No buffer has more than [size] items. *)
Definition sized (size : Z) (h : heap) : Prop :=
  0 < size /\ forall a b, h !! a = Some b -> d_bufsize b <= size.

Lemma look_spec size h g i j : sized size h -> heap_rep h g -> waiting g i j ->
  exists x, look h i = Ok x /\ waiting g i x.1 /\ 0 <= x.1 < size.
Proof.
  intros [_ Hsz] Hr (x & p & Hx & Hp & _). destruct (heap_rep_buffer _ _ _ _ Hr Hx) as (b & Hb & Hrep).
  destruct (rep_pos_reader _ _ _ Hrep _ _ Hp) as (rd & Hrd & _ & Hph & Hlag).
  pose proof (rep_pos_N _ _ _ Hrep). pose proof (rep_room _ _ _ Hrep). cbn [buf room] in *.
  unfold look, the_buffer. rewrite Hb, ok_bind, (available_ok _ _ _ _ _ _ Hrep Hp), ok_bind.
  specialize (Hsz _ _ Hb). eexists. split; [reflexivity|]. cbn. split; [|lia]. exists x, p. done.
Qed.

Definition seen_ok (size : Z) (g : gmap Z ghost) (inputs : list (Z * Z)) (seen : list (Z * bool)) : Prop :=
  Forall2 (fun i x => waiting g i x.1 /\ 0 <= x.1 < size) inputs seen.

Lemma look_all_spec size h g inputs : sized size h -> heap_rep h g -> (forall i, i ∈ inputs -> exists j, waiting g i j) ->
  exists seen, look_all h inputs = Ok seen /\ seen_ok size g inputs seen.
Proof.
  intros Hsz Hr. induction inputs as [|i inputs IH]; intros Hi; cbn [look_all].
  { exists []. split; [done|constructor]. }
  destruct (Hi i ltac:(constructor)) as [j Hj]. destruct (look_spec size h g i j Hsz Hr Hj) as (x & -> & Hx).
  destruct IH as (seen & -> & Hs); [intros y Hy; apply Hi; by constructor|].
  exists (x :: seen). split; [done|]. by constructor.
Qed.

Lemma look_sink_spec size h g k inputs : sized size h -> heap_rep h g -> (forall i, i ∈ inputs -> exists j, waiting g i j) ->
  exists r, look_sink h k inputs = Ok r /\ forall seen, r = Some seen -> seen_ok size g inputs seen.
Proof.
  intros Hsz Hr. induction inputs as [|i inputs IH]; intros Hi; cbn [look_sink].
  { eexists. split; [done|]. intros seen [= <-]. constructor. }
  destruct (Hi i ltac:(constructor)) as [j Hj]. destruct (look_spec size h g i j Hsz Hr Hj) as (x & -> & Hx).
  rewrite ok_bind. case_if; [by exists None|].
  destruct IH as (r & -> & Hs); [intros y Hy; apply Hi; by constructor|]. rewrite ok_bind.
  eexists. split; [reflexivity|]. intros seen Hseen. destruct r as [rest|]; [|done].
  injection Hseen as <-. constructor; [done|]. by apply Hs.
Qed.

Lemma max_avail_spec seen : 0 <= max_avail seen /\
  (forall m, 0 <= m -> Forall (fun x => x.1 <= m) seen -> max_avail seen <= m).
Proof.
  unfold max_avail. assert (forall z, z <= foldl (fun m x => Z.max m x.1) z seen /\
    forall m, z <= m -> Forall (fun x => x.1 <= m) seen -> foldl (fun m x => Z.max m x.1) z seen <= m) as H.
  { induction seen as [|x seen IH]; intros z; cbn [foldl]; [split; [lia|done]|].
    destruct (IH (Z.max z x.1)) as [H1 H2]. split; [lia|]. intros m Hm [Hx Hs]%Forall_cons.
    apply H2; [lia|done]. }
  destruct (H 0) as [H1 H2]. split; [done|]. auto.
Qed.

(** ** The block's calls *)

Definition consumed_from (i : nat) (calls : list call) : Z :=
  foldr (fun c z => z + match c with
    | Consumed which n => if which =? Z.of_nat i then Z.max 0 n else 0
    | ConsumedEach n => Z.max 0 n
    | Produced _ _ => 0
    end) 0 calls.

Definition produced_on (o : nat) (calls : list call) : Z :=
  foldr (fun c z => z + match c with
    | Produced which n => if which =? Z.of_nat o then Z.max 0 n else 0
    | _ => 0
    end) 0 calls.

Definition call_ok (d : gr_block_detail) (c : call) : Prop :=
  match c with
  | Consumed which n => 0 < n -> 0 <= which < ninputs d
  | ConsumedEach _ => True
  | Produced which n => 0 < n -> 0 <= which < noutputs d
  end.

Lemma consumed_from_nonneg i calls : 0 <= consumed_from i calls.
Proof. induction calls as [|[] calls IH]; simpl; try case_if; lia. Qed.

Lemma produced_on_nonneg i calls : 0 <= produced_on i calls.
Proof. induction calls as [|[] calls IH]; simpl; try case_if; lia. Qed.

(** The documented contract of [general_work]: asked for [noutput_items], up
    to the largest request [limit] the buffers allow, with
    at least the input its forecast wants, it stores, consumes and produces
    within what it was given, and returns how many items it made on each
    output, [WORK_DONE] or [WORK_CALLED_PRODUCE]. *)
Definition well_behaved {S} (m : gr_block S) (d : gr_block_detail) (limit : Z) : Prop :=
  forall s n ninput_items input_items s' output_items calls r,
    0 < n <= limit -> (output_multiple m | n) ->
    Forall2 (fun req avail => req <= avail) (forecast m n (length (d_input d))) ninput_items ->
    general_work m s n ninput_items input_items = (s', output_items, calls, r) ->
    Forall (fun l => zlen l <= n) output_items /\ Forall (call_ok d) calls /\
    (forall i avail, ninput_items !! i = Some avail -> consumed_from i calls <= avail) /\
    (forall o, produced_on o calls + (if r =? WORK_CALLED_PRODUCE then 0 else Z.max 0 r) <= n).

(** A call on each of several readers, or of several buffers. *)
Lemma heap_consume_each base inputs n h g (inb : nat -> Z) : heap_rep h g -> NoDup inputs -> 0 <= n ->
  (forall i key, inputs !! i = Some key -> waiting_at base g key (inb i) /\ n <= inb i) ->
  exists h' g', for_each (fun i => on_buffer (fun b => update_read_pointer b i.2 n) i.1) inputs h = Ok h' /\
    heap_rep h' g' /\
    (forall i key, inputs !! i = Some key -> waiting_at base g' key (inb i - n)) /\
    (forall key j, key ∉ inputs -> waiting_at base g key j -> waiting_at base g' key j) /\
    (forall o j, roomy g o j -> roomy g' o j) /\ moved_on (fun _ => False) (fun i => i ∈ inputs) g g'.
Proof.
  revert h g inb. induction inputs as [|[a r] inputs IH]; intros h g inb Hr Hnd Hn Hb; cbn [for_each fst snd].
  { exists h, g. by split_and!. }
  apply NoDup_cons in Hnd as [Hx Hnd]. destruct (Hb O (a, r) eq_refl) as [Hw Hle].
  destruct (heap_consume h g a r (inb O) n Hr (waiting_at_waiting _ _ _ _ Hw) ltac:(lia)) as
    (h1 & g1 & -> & Hr1 & Hw1 & Ho1 & Hro1 & Ha1).
  rewrite ok_bind. destruct (IH h1 g1 (fun i => inb (S i)) Hr1 Hnd Hn) as (h2 & g2 & -> & Hr2 & Hw2 & Ho2 & Hro2 & Ha2).
  { intros i key Hk. destruct (Hb (S i) key Hk) as [Hwk Hlk]. split; [|done]. apply Ho1; [|done].
    intros ->. apply Hx. by eapply list_elem_of_lookup_2. }
  exists h2, g2. split_and!; [done|done| | |auto|].
  - intros [|i] key Hk; [|by apply (Hw2 i)]. injection Hk as <-. apply Ho2; [done|]. by apply Hw1.
  - intros key j [Hne Hni]%not_elem_of_cons Hwk. apply Ho2; [done|]. by apply Ho1.
  - transitivity g1; (eapply moved_on_mono; [..|eassumption]); [done|intros i <-; constructor|done|intros i Hi; by constructor].
Qed.

Lemma heap_produce_each outputs n h g (outb : nat -> Z) : heap_rep h g -> NoDup outputs -> 0 <= n ->
  (forall i a, outputs !! i = Some a -> roomy g a (outb i) /\ n <= outb i) ->
  exists h' g', for_each (on_buffer (fun b => update_write_pointer b n)) outputs h = Ok h' /\
    heap_rep h' g' /\
    (forall i a, outputs !! i = Some a -> roomy g' a (outb i - n)) /\
    (forall o j, o ∉ outputs -> roomy g o j -> roomy g' o j) /\
    (forall base i j, waiting_at base g i j -> waiting_at base g' i j) /\ moved_on (fun a => a ∈ outputs) (fun _ => False) g g'.
Proof.
  revert h g outb. induction outputs as [|a outputs IH]; intros h g outb Hr Hnd Hn Hb; cbn [for_each].
  { exists h, g. by split_and!. }
  apply NoDup_cons in Hnd as [Hx Hnd]. destruct (Hb O a eq_refl) as [Hw Hle].
  destruct (heap_produce h g a (outb O) n Hr Hw ltac:(lia)) as (h1 & g1 & -> & Hr1 & Hw1 & Ho1 & Hro1 & Ha1).
  rewrite ok_bind. destruct (IH h1 g1 (fun i => outb (S i)) Hr1 Hnd Hn) as (h2 & g2 & -> & Hr2 & Hw2 & Ho2 & Hro2 & Ha2).
  { intros i c Hc. destruct (Hb (S i) c Hc) as [Hwk Hlk]. split; [|done]. apply Ho1; [|done].
    intros ->. apply Hx. by eapply list_elem_of_lookup_2. }
  exists h2, g2. split_and!; [done|done| | |auto|].
  - intros [|i] c Hc; [|by apply (Hw2 i)]. injection Hc as <-. by apply Ho2.
  - intros c j [Hne Hni]%not_elem_of_cons Hwk. apply Ho2; [done|]. by apply Ho1.
  - transitivity g1; (eapply moved_on_mono; [..|eassumption]); [intros i <-; constructor|done|intros i Hi; by constructor|done].
Qed.

(** What the calls may still use, input by input and output by output. *)
Definition budget (base : Z -> Z) (d : gr_block_detail) (g : gmap Z ghost) (inb outb : nat -> Z) : Prop :=
  (forall i key, d_input d !! i = Some key -> waiting_at base g key (inb i)) /\
  (forall o a, d_output d !! o = Some a -> roomy g a (outb o)).

Definition same_wires (d d' : gr_block_detail) : Prop :=
  d_input d' = d_input d /\ d_output d' = d_output d /\ d_detail_done d' = d_detail_done d.

Lemma budget_weaken base d g inb outb inb' outb' : budget base d g inb outb ->
  (forall i, inb' i <= inb i) -> (forall o, outb' o <= outb o) -> budget base d g inb' outb'.
Proof.
  intros [Hi Ho] Hil Hol. split.
  - intros i key Hk. destruct (Hi i key Hk) as (x & p & ? & ? & ? & ?). exists x, p.
    split_and!; [done..| |done]. specialize (Hil i). lia.
  - intros o a Ha. destruct (Ho o a Ha) as (x & ? & ?). exists x. split; [done|]. specialize (Hol o). lia.
Qed.

Section Calls.
Context (base : Z -> Z) (d0 : gr_block_detail) (Hin : NoDup (d_input d0)) (Hout : NoDup (d_output d0)).

(** The streams move on at the block's own inputs and outputs. *)
Definition ports_move : gmap Z ghost -> gmap Z ghost -> Prop := moved_on (fun a => a ∈ d_output d0) (fun i => i ∈ d_input d0).

(** What one call does to the buffers and the budget. *)
Definition call_uses (c : call) (g : gmap Z ghost) (inb outb : nat -> Z) (r : res buffer_error (gr_block_detail * heap)) : Prop :=
  exists d' h' g', r = Ok (d', h') /\ same_wires d0 d' /\ heap_rep h' g' /\ ports_move g g' /\
    budget base d0 g' (fun i => inb i - consumed_from i [c]) (fun o => outb o - produced_on o [c]).

Lemma idle_call c d h g inb outb : same_wires d0 d -> heap_rep h g -> budget base d0 g inb outb ->
  call_uses c g inb outb (Ok (d, h)).
Proof.
  intros Hd Hr Hb. exists d, h, g. split_and!; [done..|reflexivity|]. eapply budget_weaken; [done| |].
  - intros i. pose proof (consumed_from_nonneg i [c]). lia.
  - intros o. pose proof (produced_on_nonneg o [c]). lia.
Qed.

Lemma consume_uses which n d h g inb outb : same_wires d0 d -> heap_rep h g -> budget base d0 g inb outb ->
  0 < n -> 0 <= which < ninputs d0 -> n <= inb (Z.to_nat which) ->
  call_uses (Consumed which n) g inb outb (h ← consume d which n h; Ok (d, h)).
Proof using Hin.
  intros Hd Hr [Hbi Hbo] Hn Hc Hle. pose proof Hd as (Hi & _). unfold ninputs in Hc.
  unfold consume, input. rewrite (proj2 (Z.ltb_lt 0 n)), (proj2 (Z.ltb_ge which 0)), Hi by lia.
  destruct (lookup_lt_is_Some_2 (d_input d0) (Z.to_nat which) ltac:(lia)) as [[a r] Hk].
  rewrite Hk, ok_bind. cbv beta iota.
  destruct (heap_consume h g a r (inb (Z.to_nat which)) n Hr (waiting_at_waiting _ _ _ _ (Hbi _ _ Hk)) ltac:(lia)) as
    (h' & g' & -> & Hr' & Hw' & Hother & Hro & Hadv). rewrite ok_bind.
  exists d, h', g'. split_and!; [done..| |].
  { eapply moved_on_mono; [..|exact Hadv]; [done|]. intros i <-. by eapply list_elem_of_lookup_2. } cbn [consumed_from produced_on foldr]. split.
  - intros i key Hki. destruct (Z.eqb_spec which (Z.of_nat i)) as [->|Hne].
    + rewrite Nat2Z.id in *. rewrite Hk in Hki. injection Hki as <-.
      replace (inb i - (0 + Z.max 0 n)) with (inb i - n) by lia. by apply Hw', Hbi.
    + replace (inb i - (0 + 0)) with (inb i) by lia. apply Hother; [|by apply Hbi]. intros ->.
      pose proof (NoDup_lookup _ _ _ _ Hin Hk Hki). lia.
  - intros o b Hb. replace (outb o - (0 + 0)) with (outb o) by lia. apply Hro, Hbo, Hb.
Qed.

Lemma consume_each_uses n d h g inb outb : same_wires d0 d -> heap_rep h g -> budget base d0 g inb outb ->
  0 < n -> (forall i, (i < length (d_input d0))%nat -> n <= inb i) ->
  call_uses (ConsumedEach n) g inb outb (h ← consume_each d n h; Ok (d, h)).
Proof using Hin.
  intros Hd Hr [Hbi Hbo] Hn Hle. pose proof Hd as (Hi & _).
  unfold consume_each. rewrite (proj2 (Z.ltb_lt 0 n)), Hi by lia.
  destruct (heap_consume_each base (d_input d0) n h g inb Hr Hin ltac:(lia)) as (h' & g' & -> & Hr' & Hw' & _ & Hro & Hadv).
  { intros i key Hk. split; [by apply Hbi|]. apply Hle. by eapply lookup_lt_Some. }
  rewrite ok_bind. exists d, h', g'. split_and!; [done..| |].
  { eapply moved_on_mono; [..|exact Hadv]; done. }
  cbn [consumed_from produced_on foldr]. split.
  - intros i key Hk. replace (inb i - (0 + Z.max 0 n)) with (inb i - n) by lia. by apply Hw'.
  - intros o b Hb. replace (outb o - (0 + 0)) with (outb o) by lia. apply Hro, Hbo, Hb.
Qed.

Lemma produce_uses which n d h g inb outb : same_wires d0 d -> heap_rep h g -> budget base d0 g inb outb ->
  0 < n -> 0 <= which < noutputs d0 -> n <= outb (Z.to_nat which) ->
  call_uses (Produced which n) g inb outb (produce d which n h).
Proof using Hout.
  intros Hd Hr [Hbi Hbo] Hn Hc Hle. pose proof Hd as (Hi & Ho & Hdd). unfold noutputs in Hc.
  unfold produce, output. rewrite (proj2 (Z.ltb_lt 0 n)), (proj2 (Z.ltb_ge which 0)), Ho by lia.
  destruct (lookup_lt_is_Some_2 (d_output d0) (Z.to_nat which) ltac:(lia)) as [a Ha].
  rewrite Ha, ok_bind.
  destruct (heap_produce h g a (outb (Z.to_nat which)) n Hr (Hbo _ _ Ha) ltac:(lia)) as
    (h' & g' & -> & Hr' & Hw' & Hother & Hwa & Hadv). rewrite ok_bind.
  eexists _, h', g'. split_and!; [reflexivity|done|done| |].
  { eapply moved_on_mono; [..|exact Hadv]; [|done]. intros o <-. by eapply list_elem_of_lookup_2. }
  cbn [consumed_from produced_on foldr]. split.
  - intros i key Hk. replace (inb i - (0 + 0)) with (inb i) by lia. apply Hwa, Hbi, Hk.
  - intros o b Hb. destruct (Z.eqb_spec which (Z.of_nat o)) as [->|Hne].
    + rewrite Nat2Z.id in *. rewrite Ha in Hb. injection Hb as <-.
      replace (outb o - (0 + Z.max 0 n)) with (outb o - n) by lia. done.
    + replace (outb o - (0 + 0)) with (outb o) by lia. apply Hother; [|by apply Hbo]. intros ->.
      pose proof (NoDup_lookup _ _ _ _ Hout Ha Hb). lia.
Qed.

Lemma make_call_ok c d h g inb outb : same_wires d0 d -> heap_rep h g -> budget base d0 g inb outb ->
  call_ok d0 c -> (forall i, (i < length (d_input d0))%nat -> consumed_from i [c] <= inb i) ->
  (forall o, produced_on o [c] <= outb o) -> call_uses c g inb outb (make_call c (d, h)).
Proof using Hin Hout.
  intros Hd Hr Hb Hc Hci Hpo. destruct c as [which n|n|which n];
    cbn [make_call call_ok consumed_from produced_on foldr] in *; destruct (Z.lt_ge_cases 0 n) as [Hn|Hn].
  - specialize (Hc Hn). eapply consume_uses; try done. unfold ninputs in Hc.
    specialize (Hci (Z.to_nat which) ltac:(lia)). rewrite Z2Nat.id, Z.eqb_refl in Hci by lia. lia.
  - unfold consume. rewrite (proj2 (Z.ltb_ge 0 n)) by lia. by eapply idle_call.
  - eapply consume_each_uses; try done. intros i Hi. specialize (Hci i Hi). lia.
  - unfold consume_each. rewrite (proj2 (Z.ltb_ge 0 n)) by lia. by eapply idle_call.
  - specialize (Hc Hn). eapply produce_uses; try done.
    specialize (Hpo (Z.to_nat which)). rewrite Z2Nat.id, Z.eqb_refl in Hpo by lia. lia.
  - unfold produce. rewrite (proj2 (Z.ltb_ge 0 n)) by lia. by eapply idle_call.
Qed.

Lemma make_calls_ok calls d h g inb outb : same_wires d0 d -> heap_rep h g -> budget base d0 g inb outb ->
  Forall (call_ok d0) calls ->
  (forall i, (i < length (d_input d0))%nat -> consumed_from i calls <= inb i) ->
  (forall o, produced_on o calls <= outb o) ->
  exists d' h' g', for_each make_call calls (d, h) = Ok (d', h') /\ same_wires d0 d' /\ heap_rep h' g' /\ ports_move g g' /\
    budget base d0 g' (fun i => inb i - consumed_from i calls) (fun o => outb o - produced_on o calls).
Proof using Hin Hout.
  revert d h g inb outb. induction calls as [|c calls IH]; intros d h g inb outb Hd Hr Hb Hc Hci Hpo; cbn [for_each].
  { exists d, h, g. split_and!; [done..|reflexivity|]. eapply budget_weaken; [done|..]; intros; simpl; lia. }
  apply Forall_cons in Hc as [Hc Hcs].
  assert (forall i, consumed_from i (c :: calls) = consumed_from i [c] + consumed_from i calls) as Ec
    by (intros i; unfold consumed_from; cbn [foldr]; lia).
  assert (forall o, produced_on o (c :: calls) = produced_on o [c] + produced_on o calls) as Ep
    by (intros o; unfold produced_on; cbn [foldr]; lia).
  destruct (make_call_ok c d h g inb outb Hd Hr Hb Hc) as (d1 & h1 & g1 & -> & Hd1 & Hr1 & Ha1 & Hb1).
  { intros i Hi. specialize (Hci i Hi). rewrite Ec in Hci. pose proof (consumed_from_nonneg i calls). lia. }
  { intros o. specialize (Hpo o). rewrite Ep in Hpo. pose proof (produced_on_nonneg o calls). lia. }
  rewrite ok_bind. destruct (IH d1 h1 g1 _ _ Hd1 Hr1 Hb1 Hcs) as (d2 & h2 & g2 & -> & Hd2 & Hr2 & Ha2 & Hb2).
  { intros i Hi. specialize (Hci i Hi). rewrite Ec in Hci. lia. }
  { intros o. specialize (Hpo o). rewrite Ep in Hpo. lia. }
  exists d2, h2, g2. split_and!; [done..|by transitivity g1|].
  eapply budget_weaken; [exact Hb2|..]; [intros i; rewrite Ec|intros o; rewrite Ep]; lia.
Qed.
End Calls.

(** ** Around the work *)

Section Wired.
Context (d0 : gr_block_detail) (Hin : NoDup (d_input d0)) (Hout : NoDup (d_output d0)).

(** The inputs and outputs exist. *)
Definition wires_ok (g : gmap Z ghost) : Prop :=
  (forall i, i ∈ d_input d0 -> exists j, waiting g i j) /\
  (forall a, a ∈ d_output d0 -> is_Some (g !! a)).

Lemma waiting_is_Some g i j : waiting g i j -> is_Some (g !! i.1).
Proof. intros (x & p & Hx & _). eauto. Qed.

Lemma budget_wires base g inb outb : budget base d0 g inb outb -> wires_ok g.
Proof.
  intros [Hi Ho]. split.
  - intros i [k Hk]%list_elem_of_lookup. exists (inb k). by eapply waiting_at_waiting, Hi.
  - intros a [k Hk]%list_elem_of_lookup. destruct (Ho k a Hk) as (x & Hx & _). eauto.
Qed.

Lemma set_done_ok d h g done : same_wires d0 d -> heap_rep h g -> wires_ok g ->
  exists h', GrBlock.set_done d done h =
    Ok ({| d_produce_or := d_produce_or d; d_input := d_input d; d_output := d_output d;
           d_detail_done := done |}, h') /\ heap_rep h' g.
Proof.
  intros (Hi & Ho & _) Hr [Hwi Hwo]. unfold GrBlock.set_done. cbn [d_output d_input].
  destruct (for_each_neutral (on_buffer (fun b => Ok (GrBuffer.set_done b done))) (d_output d) h g) as
    (h1 & -> & Hr1); [|done|].
  { intros a h1 Ha Hr1. apply on_buffer_neutral; [done|rewrite Ho in Ha; by apply Hwo|].
    intros b. eexists. split; [reflexivity|]. intros. by apply rep_done. }
  rewrite ok_bind.
  destruct (for_each_neutral (fun i => on_buffer (fun b => Ok (GrBuffer.set_done b done)) i.1) (d_input d) h1 g) as
    (h2 & -> & Hr2); [|done|].
  { intros i h2 Ha Hr2. apply on_buffer_neutral; [done| |].
    - rewrite Hi in Ha. destruct (Hwi i Ha) as [j Hj]. by eapply waiting_is_Some.
    - intros b. eexists. split; [reflexivity|]. intros. by apply rep_done. }
  rewrite ok_bind. by exists h2.
Qed.

Lemma reader_of_waiting h g i j : heap_rep h g -> waiting g i j ->
  exists b rd, h !! i.1 = Some b /\ readers b !! i.2 = Some rd.
Proof.
  intros Hr (x & p & Hx & Hp & _). destruct (heap_rep_buffer _ _ _ _ Hr Hx) as (b & Hb & Hrep).
  destruct (rep_pos_reader _ _ _ Hrep _ _ Hp) as (rd & Hrd & _). exists b, rd. done.
Qed.

Lemma load_inputs_ok h g inputs ns : heap_rep h g -> (forall i, i ∈ inputs -> exists j, waiting g i j) ->
  exists items, load_inputs h inputs ns = Ok items.
Proof.
  intros Hr. revert ns. induction inputs as [|i inputs IH]; intros ns Hi; cbn [load_inputs]; [by eexists|].
  destruct ns as [|n ns]; [by eexists|]. destruct (Hi i ltac:(constructor)) as [j Hj].
  destruct (reader_of_waiting _ _ _ _ Hr Hj) as (b & rd & Hb & Hrd).
  destruct (IH ns) as [items Hitems]; [intros y Hy; apply Hi; by constructor|].
  unfold load_input, the_buffer, load_items, the_reader. rewrite Hb, ok_bind, Hrd, !ok_bind, Hitems. by eexists.
Qed.

Lemma all_nitems_read_ok h g inputs : heap_rep h g -> (forall i, i ∈ inputs -> exists j, waiting g i j) ->
  exists starts, all_nitems_read h inputs = Ok starts.
Proof.
  intros Hr. induction inputs as [|i inputs IH]; intros Hi; cbn [all_nitems_read]; [by eexists|].
  destruct (Hi i ltac:(constructor)) as [j Hj].
  destruct (reader_of_waiting _ _ _ _ Hr Hj) as (b & rd & Hb & Hrd).
  destruct IH as [starts Hst]; [intros y Hy; apply Hi; by constructor|].
  unfold nitems_read, the_buffer, the_reader. rewrite Hb, ok_bind, Hrd, ok_bind, ok_bind, Hst. by eexists.
Qed.

Lemma tags_of_input_ok h g i j start : heap_rep h g -> waiting g i j ->
  exists tags, tags_of_input h i start = Ok tags.
Proof.
  intros Hr Hj. destruct (reader_of_waiting _ _ _ _ Hr Hj) as (b & rd & Hb & Hrd).
  unfold tags_of_input, nitems_read, the_buffer, the_reader. rewrite Hb, !ok_bind, Hrd, !ok_bind. by eexists.
Qed.

Lemma add_tags_ok tags a h g : heap_rep h g -> is_Some (g !! a) ->
  exists h', add_tags tags a h = Ok h' /\ heap_rep h' g.
Proof.
  intros Hr Ha. apply on_buffer_neutral; [done..|]. intros b. eexists. split; [reflexivity|].
  intros. by apply rep_add_tags.
Qed.

Lemma all_to_all_ok {S} (m : gr_block S) outputs inputs starts h g : heap_rep h g ->
  (forall i, i ∈ inputs -> exists j, waiting g i j) -> (forall a, a ∈ outputs -> is_Some (g !! a)) ->
  exists h', all_to_all m outputs inputs starts h = Ok h' /\ heap_rep h' g.
Proof.
  intros Hr Hi Ho. revert starts h Hr. induction inputs as [|i inputs IH]; intros [|start starts] h Hr;
    cbn [all_to_all]; eauto.
  destruct (Hi i ltac:(constructor)) as [j Hj]. destruct (tags_of_input_ok _ _ _ _ start Hr Hj) as [tags ->].
  rewrite ok_bind. unfold tags_to_all.
  destruct (for_each_neutral (fun t => for_each (add_tags [t]) outputs)
    (if rate_is_one m then tags else map (scale_tag m) tags) h g) as (h1 & -> & Hr1); [|done|].
  { intros t h1 _ Hr1. apply for_each_neutral; [|done]. intros a h2 Ha Hr2. apply add_tags_ok; auto. }
  rewrite ok_bind. apply IH; [|done]. intros y Hy. apply Hi. by constructor.
Qed.

Lemma one_to_one_ok {S} (m : gr_block S) outputs inputs starts h g : heap_rep h g ->
  (forall i, i ∈ inputs -> exists j, waiting g i j) -> (forall a, a ∈ outputs -> is_Some (g !! a)) ->
  exists h', one_to_one m outputs inputs starts h = Ok h' /\ heap_rep h' g.
Proof.
  revert inputs starts h. induction outputs as [|a outputs IH]; intros [|i inputs] [|start starts] h Hr Hi Ho;
    cbn [one_to_one]; eauto.
  destruct (Hi i ltac:(constructor)) as [j Hj]. destruct (tags_of_input_ok _ _ _ _ start Hr Hj) as [tags ->].
  rewrite ok_bind. destruct (add_tags_ok (map (scale_tag m) tags) a h g Hr (Ho a ltac:(constructor))) as (h1 & -> & Hr1).
  rewrite ok_bind. apply IH; [done| |].
  - intros y Hy. apply Hi. by constructor.
  - intros y Hy. apply Ho. by constructor.
Qed.

Lemma propagate_tags_ok {S} (m : gr_block S) d starts h g : same_wires d0 d -> heap_rep h g -> wires_ok g ->
  exists h' ok, propagate_tags m d starts h = Ok (h', ok) /\ heap_rep h' g.
Proof.
  intros (Hi & Ho & _) Hr [Hwi Hwo]. unfold propagate_tags. rewrite Hi, Ho.
  case_if; [by eexists _, _|]. destruct (tag_propagation_policy m); [by eexists _, _| |].
  - destruct (all_to_all_ok m (d_output d0) (d_input d0) starts h g Hr Hwi Hwo) as (h' & -> & Hr').
    rewrite ok_bind. by eexists _, _.
  - case_if; [|by eexists _, _].
    destruct (one_to_one_ok m (d_output d0) (d_input d0) starts h g Hr Hwi Hwo) as (h' & -> & Hr').
    rewrite ok_bind. by eexists _, _.
Qed.

Lemma store_outputs_ok outputs items h g n : heap_rep h g -> (forall a, a ∈ outputs -> roomy g a n) ->
  Forall (fun l => zlen l <= n) items ->
  exists h', store_outputs outputs items h = Ok h' /\ heap_rep h' g.
Proof.
  revert items h. induction outputs as [|a outputs IH]; intros [|l items] h Hr Ho Hl; cbn [store_outputs]; eauto.
  apply Forall_cons in Hl as [Hl Hls].
  destruct (heap_store h g a n l Hr (Ho a ltac:(constructor)) Hl) as (h1 & -> & Hr1). rewrite ok_bind.
  apply IH; [done| |done]. intros y Hy. apply Ho. by constructor.
Qed.

Lemma produce_each_ok n d h g outb : same_wires d0 d -> heap_rep h g -> wires_ok g ->
  (forall o a, d_output d0 !! o = Some a -> roomy g a (outb o) /\ n <= outb o) ->
  exists d' h' g', produce_each d n h = Ok (d', h') /\ same_wires d0 d' /\ heap_rep h' g' /\ wires_ok g' /\
    ports_move d0 g g' /\ forall base i j, waiting_at base g i j -> waiting_at base g' i j.
Proof using Hout.
  intros Hd Hr [Hwi Hwo] Ho. pose proof Hd as (Hi & Hod & Hdd). unfold produce_each.
  destruct (Z.ltb_spec 0 n) as [Hn|Hn]; [|exists d, h, g; split_and!; done || reflexivity].
  rewrite Hod. destruct (heap_produce_each (d_output d0) n h g outb Hr Hout ltac:(lia) Ho) as
    (h' & g' & -> & Hr' & Hro & Hoth & Hw & Ha). rewrite ok_bind.
  assert (ports_move d0 g g') as Hmove by (eapply moved_on_mono; [..|exact Ha]; done).
  eexists _, h', g'. split_and!; [reflexivity|done|done| |done|done]. split.
  - intros i Hii. destruct (Hwi i Hii) as (j & x & p & Hx & Hp & Hj).
    pose proof (Hmove i.1) as Hs. rewrite Hx in Hs. inversion Hs as [? x' Hstep Hx1 Hx'|]; subst. pose proof (gs_pos _ _ _ _ Hstep) as Hpos.
    specialize (Hpos i.2). rewrite Hp in Hpos. inversion Hpos as [? p' Hp1 Hp2 Hp'|]; subst.
    exists (zlen (g_hist x') - p'), x', p'. split_and!; [done..|lia].
  - intros a [k Hk]%list_elem_of_lookup. destruct (Hro k a Hk) as (x & Hx & _). eauto.
Qed.

(** ** The iteration *)

Context {S : Type} (m : gr_block S) (Hm : 1 <= output_multiple m).
Context (size limit : Z) (Hlimit : size / 2 <= limit <= INT_MAX / 2) (Hbehaves : well_behaved m d0 limit).
Context (Hlen : forall n k, length (forecast m n k) = k).
(** The rates do not overflow an [int]. *)
Context (Hfixed : fixed_rate m = true -> output_multiple m <= INT_MAX / 2 /\
  forall avail, 0 <= avail < size -> 0 <= fixed_rate_ninput_to_noutput m avail <= INT_MAX / 2).
Context (Htimes : forall avail, 0 <= avail < size -> 0 <= times_rate m avail <= limit).

(** What became of the streams: items are appended at the block's own outputs only,
    and never so many that a reader, wherever it was, loses an item that it had not
    read; readers only go on, the block's own only, and never past the items there
    were at the start. *)
Definition served (h : heap) (g g' : gmap Z ghost) : Prop := forall a,
  option_Forall2 (fun x x' =>
    (exists items, g_hist x' = g_hist x ++ items /\ (a ∈ d_output d0 \/ items = [])) /\
    (forall r p b, h !! a = Some b -> g_pos x !! r = Some p -> zlen (g_hist x') - p < d_bufsize b) /\
    forall r, option_Forall2 (fun p p' => p <= p' <= zlen (g_hist x) /\ ((a, r) ∈ d_input d0 \/ p' = p))
      (g_pos x !! r) (g_pos x' !! r)) (g !! a) (g' !! a).

(** The lengths of the histories. *)
Definition lengths (g : gmap Z ghost) (a : Z) : Z := from_option (fun x => zlen (g_hist x)) 0 (g !! a).

Lemma waiting_lengths g i n : waiting g i n -> waiting_at (lengths g) g i n.
Proof. intros (x & p & Hx & Hp & Hn). exists x, p. unfold lengths. rewrite Hx. cbn. split_and!; [done..|lia]. Qed.

(** After a scan and calls. *)
Lemma served_intro h0 g0 h g h' g' : heap_rep h0 g0 -> same_sizes h0 h -> rescanned g0 g -> heap_rep h g ->
  ports_move d0 g g' -> heap_rep h' g' -> (forall i, i ∈ d_input d0 -> exists n, 0 <= n /\ waiting_at (lengths g) g' i n) ->
  served h0 g0 g'.
Proof.
  intros Hr0 Hss Hsc Hr Hmove Hr' Hin' a. specialize (Hr0 a). specialize (Hsc a). pose proof (Hr a) as Hra. pose proof (Hmove a) as Hma.
  specialize (Hss a). destruct Hr0 as [b0 x0 Hrep0|]; inversion Hsc as [? x [Eh Ep] E0 Ex|E0 Ex]; subst.
  2: { rewrite <- Ex in Hma. inversion Hma. constructor. }
  rewrite <- Ex in Hma, Hra. inversion Hma as [? x' [(items & Ei & Hi) Hroom Hpos] E1 Ex'|]; subst.
  inversion Hra as [b ? Hrep Eb|]; subst. rewrite <- Eb in Hss. cbn in Hss. injection Hss as Hsz.
  destruct (heap_rep_buffer _ _ _ _ Hr' (eq_sym Ex')) as (b' & Hb' & Hrep').
  pose proof (rep_room _ _ _ Hrep') as Hroom'. cbn [buf room] in Hroom'.
  constructor. split_and!.
  - exists items. by rewrite <- Eh.
  - intros r p b1 [= <-] Hp. rewrite <- Ep in Hp. destruct (rep_pos_reader _ _ _ Hrep _ _ Hp) as (rd & _ & _ & _ & Hlag).
    cbn [buf room] in Hlag. lia.
  - intros r. rewrite <- Ep. pose proof (Hpos r) as Hpr. inversion Hpr as [p p' [Hle Hor] Hp Hp'|]; subst; constructor.
    split; [|done]. split; [done|]. rewrite <- Eh. destruct Hor as [Hown|Hsame].
    + destruct (Hin' _ Hown) as (n & Hn & y & q & Hy & Hq & Hnq & _). cbn [fst snd] in *. rewrite <- Ex' in Hy. injection Hy as <-.
      rewrite <- Hp' in Hq. injection Hq as <-. unfold lengths in Hnq. rewrite <- Ex in Hnq. cbn in Hnq. lia.
    + rewrite Hsame. destruct (rep_pos_reader _ _ _ Hrep _ _ (eq_sym Hp)) as (rd & _ & _ & ? & _). lia.
Qed.

(** How an iteration ends: no failed assertion and no exception, the block
    wired as before, the buffers representing streams that moved on as they
    should, the block done exactly if the state says so. *)
Definition ends (h : heap) (g : gmap Z ghost) (r : res buffer_error (gr_block_detail * S * heap * state)) : Prop :=
  exists d' s' h' g' st, r = Ok (d', s', h', st) /\
    d_input d' = d_input d0 /\ d_output d' = d_output d0 /\
    (d_detail_done d' = true <-> st = DONE) /\ heap_rep h' g' /\ wires_ok g' /\ served h g g'.

Lemma were_done_ends h0 g0 d s h g : same_wires d0 d -> heap_rep h g -> wires_ok g -> served h0 g0 g ->
  ends h0 g0 (were_done d s h).
Proof.
  intros Hd Hr Hw Hs. unfold were_done. destruct (set_done_ok d h g true Hd Hr Hw) as (h' & -> & Hr').
  rewrite ok_bind. eexists _, s, h', g, DONE. split; [reflexivity|].
  destruct Hd as (Hi & Ho & _). by split_and!.
Qed.

Lemma stays_ends h0 g0 d s h g st : same_wires d0 d -> d_detail_done d0 = false -> heap_rep h g -> wires_ok g ->
  served h0 g0 g -> st <> DONE -> ends h0 g0 (Ok (d, s, h, st)).
Proof.
  intros (Hi & Ho & Hd) Hd0 Hr Hw Hs Hst. exists d, s, h, g, st. split_and!; [done..| |done|done|done].
  rewrite Hd, Hd0. done.
Qed.

(** A scan alone. *)
Lemma served_scan h0 g0 h g : heap_rep h0 g0 -> same_sizes h0 h -> rescanned g0 g -> heap_rep h g -> wires_ok g -> served h0 g0 g.
Proof.
  intros Hr0 Hss Hsc Hr Hw. eapply served_intro; [done..|reflexivity|done|].
  intros i Hi. destruct (proj1 Hw i Hi) as (j & x & p & Hx & Hp & _). exists (zlen (g_hist x) - p).
  destruct (heap_rep_buffer _ _ _ _ Hr Hx) as (b & _ & Hrep). destruct (rep_pos_reader _ _ _ Hrep _ _ Hp) as (_ & _ & _ & Hle & _).
  split; [lia|]. apply waiting_lengths. exists x, p. split_and!; [done..|lia].
Qed.

Lemma setup_call_to_work_ends h0 g0 d s h g n ninput_items : same_wires d0 d -> d_detail_done d0 = false ->
  heap_rep h0 g0 -> same_sizes h0 h -> rescanned g0 g -> heap_rep h g -> 0 < n <= limit -> (output_multiple m | n) ->
  Forall2 (fun i avail => waiting g i avail) (d_input d0) ninput_items ->
  (forall a, a ∈ d_output d0 -> roomy g a n) ->
  Forall2 (fun req avail => req <= avail) (forecast m n (length (d_input d0))) ninput_items ->
  ends h0 g0 (setup_call_to_work m d s h n ninput_items).
Proof using Hin Hout Hbehaves.
  intros Hd Hd0 Hr0 Hss Hsc Hr Hn Hmn Hwait Hroom Hreq. pose proof Hd as (Hi & Ho & Hdd).
  set (inb := fun i => default 0 (ninput_items !! i)).
  assert (budget (lengths g) d0 g inb (fun _ => n)) as Hb.
  { split.
    - intros i key Hk. destruct (Forall2_lookup_l _ _ _ _ _ Hwait Hk) as (avail & Ha & Hw).
      unfold inb. rewrite Ha. by apply waiting_lengths.
    - intros o a Ha. apply Hroom. by eapply list_elem_of_lookup_2. }
  pose proof (budget_wires _ _ _ _ Hb) as Hw. unfold setup_call_to_work. rewrite Hi.
  destruct (load_inputs_ok h g (d_input d0) ninput_items Hr (proj1 Hw)) as [items ->]. rewrite ok_bind.
  destruct (all_nitems_read_ok h g (d_input d0) Hr (proj1 Hw)) as [starts Hst].
  cbn [with_produce_or d_input d_output]. rewrite Hi, Hst, ok_bind, Ho.
  destruct (general_work m s n ninput_items items) as [[[s' outs] calls] r] eqn:Hgw.
  destruct (Hbehaves _ _ _ _ _ _ _ _ Hn Hmn Hreq Hgw) as (Hstore & Hcalls & Hcons & Hprod).
  destruct (store_outputs_ok (d_output d0) outs h g n Hr Hroom Hstore) as (h1 & -> & Hr1). rewrite ok_bind.
  assert (forall i, (i < length (d_input d0))%nat -> consumed_from i calls <= inb i) as Hc.
  { intros i Hil. apply Hcons. unfold inb. destruct (ninput_items !! i) eqn:E; [done|].
    apply lookup_ge_None_1 in E. apply Forall2_length in Hwait. lia. }
  destruct (make_calls_ok (lengths g) d0 Hin Hout calls (with_produce_or d 0) h1 g inb (fun _ => n)) as
    (d2 & h2 & g2 & -> & Hd2 & Hr2 & Ha2 & Hb2); try done.
  { intros o. specialize (Hprod o). case_if; lia. }
  rewrite ok_bind. pose proof (budget_wires _ _ _ _ Hb2) as Hw2. cbv beta iota.
  assert (forall i, i ∈ d_input d0 -> exists n, 0 <= n /\ waiting_at (lengths g) g2 i n) as Hleft.
  { intros i [k Hk]%list_elem_of_lookup. eexists. split; [|by apply (proj1 Hb2)].
    specialize (Hc k ltac:(by eapply lookup_lt_Some)). cbv beta. lia. }
  destruct (propagate_tags_ok m d2 starts h2 g2 Hd2 Hr2 Hw2) as (h3 & ok & -> & Hr3). rewrite ok_bind.
  pose proof (served_intro h0 g0 h g h3 g2 Hr0 Hss Hsc Hr Ha2 Hr3 Hleft) as Hs2.
  cbv beta iota. destruct ok; cbn [negb]; [|by eapply were_done_ends].
  case_if; [by eapply were_done_ends|].
  assert (exists d4 h4 g4, (if negb (r =? WORK_CALLED_PRODUCE) then produce_each d2 r h3 else Ok (d2, h3)) =
    Ok (d4, h4) /\ same_wires d0 d4 /\ heap_rep h4 g4 /\ wires_ok g4 /\ served h0 g0 g4) as (d4 & h4 & g4 & -> & Hd4 & Hr4 & Hw4 & Hs4).
  { destruct (r =? WORK_CALLED_PRODUCE) eqn:Er; cbn [negb]; [by exists d2, h3, g2|].
    destruct (produce_each_ok r d2 h3 g2 (fun o => n - produced_on o calls) Hd2 Hr3 Hw2) as
      (d4 & h4 & g4 & E & Hd4 & Hr4 & Hw4 & Ha4 & Hk4).
    { intros o a Ha. split; [by apply Hb2|]. specialize (Hprod o). lia. }
    exists d4, h4, g4. split_and!; [done..|]. apply (served_intro h0 g0 h g h4 g4); try done; [by transitivity g2|].
    intros i Hii. destruct (Hleft i Hii) as (k & Hk & Hwk). exists k. split; [done|]. by apply Hk4. }
  rewrite ok_bind. cbv beta iota. case_if; [by eapply stays_ends|].
  case_if; [by eapply were_done_ends|by eapply stays_ends].
Qed.

Lemma seen_avail seen g : 0 < size -> seen_ok size g (d_input d0) seen -> 0 <= max_avail seen < size.
Proof.
  intros Hpos Hs. destruct (max_avail_spec seen) as [H0 Hmax]. split; [done|].
  assert (max_avail seen <= size - 1); [|lia]. apply Hmax; [lia|].
  apply Forall_forall. intros x [k Hk]%list_elem_of_lookup.
  destruct (Forall2_lookup_r _ _ _ _ _ Hs Hk) as (i & _ & _ & Hx). lia.
Qed.

Lemma attempt_ends h0 g0 d s h g n seen : same_wires d0 d -> d_detail_done d0 = false ->
  heap_rep h0 g0 -> same_sizes h0 h -> rescanned g0 g -> heap_rep h g -> 0 < size -> seen_ok size g (d_input d0) seen -> 0 < n <= limit -> (output_multiple m | n) ->
  (forall a, a ∈ d_output d0 -> roomy g a n) -> ends h0 g0 (attempt m d s h n seen).
Proof using Hin Hout Hm Hlimit Hbehaves Hlen Hfixed.
  intros Hd Hd0 Hr0 Hss Hsc Hr Hpos Hs Hn Hmn Hroom. unfold attempt.
  pose proof (Forall2_length _ _ _ Hs) as Hsl. pose proof (seen_avail seen g Hpos Hs) as Hav.
  assert (wires_ok g) as Hw.
  { split; [|intros a Ha; destruct (Hroom a Ha) as (x & Hx & _); eauto].
    intros i [k Hk]%list_elem_of_lookup. destruct (Forall2_lookup_l _ _ _ _ _ Hs Hk) as (x & _ & Hx & _). eauto. }
  pose proof (served_scan h0 g0 h g Hr0 Hss Hsc Hr Hw) as Hsv.
  destruct (try_again_spec m seen (max_possible d h) Hm) with (fuel := Z.to_nat n) (n := n) as (v & -> & Hv);
    try done.
  { intros Hf. destruct (Hfixed Hf) as [Hk Hrate]. split; [by apply Hrate|done]. }
  { lia. }
  destruct v as [n'| |]; [|by eapply stays_ends|by eapply were_done_ends].
  destruct Hv as (Hn' & Hmn' & Hreq). eapply setup_call_to_work_ends; try done; try lia.
  - apply Forall2_fmap_r. eapply Forall2_impl; [exact Hs|]. by intros i x [Hx _].
  - intros a Ha. destruct (Hroom a Ha) as (x & Hx & Hle). exists x. split; [done|lia].
  - rewrite Hsl. apply Forall2_fmap_r. exact Hreq.
Qed.

Lemma seen_refreshed g g' inputs seen : refreshed g g' -> seen_ok size g inputs seen -> seen_ok size g' inputs seen.
Proof. intros [Hw _ _] Hs. eapply Forall2_impl; [exact Hs|]. intros i x [Hx Hr]. split; [by apply Hw|done]. Qed.

Lemma iteration_ends s h g : d_detail_done d0 = false -> heap_rep h g -> wires_ok g ->
  d_input d0 <> [] \/ d_output d0 <> [] ->
  sized size h ->
  ends h g (run_one_iteration m d0 s h).
Proof using Hin Hout Hm Hlimit Hbehaves Hlen Hfixed Htimes.
  intros Hd0 Hr Hw Hne Hsizes. assert (same_wires d0 d0) as Hd by done.
  unfold run_one_iteration. rewrite Hd0.
  destruct (min_space_loop_spec (output_multiple m) (d_output d0) INT_MAX h g Hm Hr Hout (proj2 Hw) (or_introl eq_refl))
    as (h1 & g1 & n & Hsp & Hr1 & Href & Hss & Hres).
  pose proof (rf_streams _ _ Href) as Hsc.
  assert (wires_ok g1) as Hw1.
  { split; [|intros a Ha; eapply refreshed_is_Some; [done|by apply Hw]].
    intros i Hi. destruct (proj1 Hw i Hi) as [j Hj]. exists j. by apply Href. }
  pose proof (served_scan h g h1 g1 Hr Hss Hsc Hr1 Hw1) as Hs1.
  assert (same_sizes h h) as Hss0 by done. assert (rescanned g g) as Hsc0 by reflexivity.
  pose proof (served_scan h g h g Hr Hss0 Hsc0 Hr Hw) as Hs0.
  assert (d_output d0 <> [] -> n <> -1 -> n <> 0 -> 0 < n <= limit /\ (output_multiple m | n) /\
    forall a, a ∈ d_output d0 -> roomy g1 a n) as Hn.
  { intros Ho Hn1 Hn0. destruct Hres as [?|[?|[[_ ?]|(Hn2 & Hdv & _ & Hroom & Hsz)]]]; [done..|].
    split_and!; [lia| |done|done]. assert (exists a, a ∈ d_output d0) as [a Ha].
    { destruct (d_output d0) as [|a l]; [done|]. exists a. constructor. }
    destruct (proj2 Hw a Ha) as [x Hx]. destruct (heap_rep_buffer _ _ _ _ Hr Hx) as (b & Hb & _).
    pose proof (proj2 Hsizes a b Hb) as Hab. specialize (Hsz a b Ha Hb).
    pose proof (Z.div_le_mono _ _ 2 ltac:(lia) Hab). lia. }
  pose proof Hsizes as [Hpos _].
  unfold min_available_space, source_p, sink_p, ninputs, noutputs.
  destruct (Z.eqb_spec (Z.of_nat (length (d_input d0))) 0) as [Hsrc|Hsrc];
    [|destruct (Z.eqb_spec (Z.of_nat (length (d_output d0))) 0) as [Hsink|Hsink]].
  - assert (d_input d0 = []) as Ei by (apply length_zero_iff_nil; lia).
    destruct Hne as [?|Hne]; [done|].
    rewrite Hsp, ok_bind. cbv beta iota. destruct (Z.eqb_spec n (-1)); [by eapply were_done_ends|].
    destruct (Z.eqb_spec n 0); [by eapply stays_ends|]. destruct (Hn Hne) as (Hn1 & Hn2 & Hn3); [done..|].
    apply (setup_call_to_work_ends h g d0 s h1 g1); try done; [rewrite Ei; constructor|].
    rewrite Ei. cbn [length]. pose proof (Hlen n 0). destruct (forecast m n 0); [constructor|done].
  - assert (d_output d0 = []) as Eo by (apply length_zero_iff_nil; lia).
    destruct (look_sink_spec size h g (output_multiple m) (d_input d0) Hsizes Hr (proj1 Hw)) as (r & -> & Hs).
    rewrite ok_bind. destruct r as [seen|]; [|by eapply were_done_ends]. specialize (Hs seen eq_refl).
    destruct (Htimes (max_avail seen) (seen_avail seen g Hpos Hs)) as [Ht0 Ht]. pose proof Hlimit as Hl.
    change (INT_MAX / 2) with 1073741823 in Hl.
    destruct (round_down_spec (times_rate m (max_avail seen)) (output_multiple m)) as [Hrd Hdv];
      [unfold INT_MAX; lia|done|]. rewrite (sx_id 32) by (norm_pow; lia).
    case_if; [by eapply stays_ends|].
    apply (attempt_ends h g d0 s h g); try done; [lia|].
    rewrite Eo. by intros x ?%not_elem_of_nil.
  - destruct (look_all_spec size h g (d_input d0) Hsizes Hr (proj1 Hw)) as (seen & -> & Hs). rewrite ok_bind.
    rewrite Hsp, ok_bind. cbv beta iota. destruct (Z.eqb_spec n (-1)); [by eapply were_done_ends|].
    destruct (Z.eqb_spec n 0); [by eapply stays_ends|].
    destruct Hn as (Hn1 & Hn2 & Hn3); [by intros E; rewrite E in Hsink|done..|].
    apply (attempt_ends h g d0 s h1 g1); try done. by eapply seen_refreshed.
Qed.

(** C7. An iteration of a well behaved block is safe: it raises no exception
    and fails no assertion, the search for a request terminates, and the
    buffers are streams again afterwards, the streams they were with items
    appended at the block's outputs.  Written is only into the room there is: no
    reader of a buffer, be it as far behind as it may, loses an item it has not
    read.  Consumed is only what was there, and only from the block's own inputs;
    nobody else's position moves. *)
Theorem run_one_iteration_safe s h g : d_detail_done d0 = false -> heap_rep h g -> wires_ok g ->
  d_input d0 <> [] \/ d_output d0 <> [] ->
  sized size h ->
  ends h g (run_one_iteration m d0 s h).
Proof using Hin Hout Hm Hlimit Hbehaves Hlen Hfixed Htimes. apply iteration_ends. Qed.
End Wired.

(** ** The request *)

(** The request the search ends with is one the block can serve: a positive
    multiple of the output multiple, no more than the space of any output, for
    which every input has what the forecast asks.  It gives up only when not
    even one multiple can be made from what some input has; it waits only if
    that input can still deliver it. *)
Theorem request_is_served {S} (m : gr_block S) size d h g h1 n seen :
  1 <= output_multiple m -> (forall n k, length (forecast m n k) = k) ->
  (fixed_rate m = true -> output_multiple m <= INT_MAX / 2 /\
    forall avail, 0 <= avail < size -> 0 <= fixed_rate_ninput_to_noutput m avail <= INT_MAX / 2) ->
  NoDup (d_output d) -> d_output d <> [] -> heap_rep h g -> wires_ok d g -> sized size h ->
  min_available_space d (output_multiple m) h = Ok (h1, n) -> 0 < n ->
  look_all h (d_input d) = Ok seen ->
  exists v, try_again m seen (max_possible d h1) (Z.to_nat n) n = Some v /\
  match v with
  | CallWork n' => 0 < n' /\ (output_multiple m | n') /\
      (forall a, a ∈ d_output d -> exists b b' space, h1 !! a = Some b /\
         space_available b = Ok (b', space) /\ n' <= space) /\
      Forall2 (fun req x => req <= x.1) (forecast m n' (length seen)) seen
  | Blocked | WereDone => exists i x, seen !! i = Some x /\
      x.1 < (forecast m (output_multiple m) (length seen)).[Z.of_nat i] /\
      (v = Blocked -> x.2 = false /\
        (forecast m (output_multiple m) (length seen)).[Z.of_nat i] <= (max_possible d h1).[Z.of_nat i])
  end.
Proof.
  intros Hm Hlen Hfixed Hout Hne Hr Hw Hsz Hsp Hn Hseen. unfold min_available_space in Hsp.
  destruct (min_space_loop_spec (output_multiple m) (d_output d) INT_MAX h g Hm Hr Hout (proj2 Hw) (or_introl eq_refl))
    as (h1' & g1 & n1 & Hsp' & Hr1 & Href & _ & Hres).
  rewrite Hsp in Hsp'. injection Hsp' as <- <-.
  destruct Hres as [?|[?|[[_ ?]|(Hn2 & Hdv & _ & Hroom & _)]]]; [lia|lia|done|].
  destruct (look_all_spec size h g (d_input d) Hsz Hr (proj1 Hw)) as (seen' & Hseen' & Hs).
  rewrite Hseen in Hseen'. injection Hseen' as <-.
  destruct (try_again_spec m seen (max_possible d h1) Hm) with (fuel := Z.to_nat n) (n := n) as (v & Hv & Hvs);
    try done.
  { intros Hf. destruct (Hfixed Hf) as [Hk Hrate]. split; [|done]. eapply Hrate, seen_avail; [by destruct Hsz|exact Hs]. }
  exists v. split; [done|]. destruct v; [|done..]. destruct Hvs as (Hn' & Hd' & Hreq).
  split_and!; [lia|done| |done]. intros a Ha. destruct (Hroom a Ha) as (x & Hx & Hle).
  destruct (heap_rep_buffer _ _ _ _ Hr1 Hx) as (b & Hb & Hrep).
  destruct (space_available_spec _ _ _ _ Hrep) as (b' & sp & Hs1 & _ & Hsple & _).
  exists b, b', sp. split_and!; [done..|lia].
Qed.

(** A fixed rate block whose inputs all have what one output multiple needs
    is never blocked: the search ends with a call of its work. *)
Theorem fixed_rate_progress {S} (m : gr_block S) outs ins seen max_poss n : FixedRate m outs ins ->
  output_multiple m <= outs -> output_multiple m <= INT_MAX / 2 -> 0 <= ins ->
  Forall (fun x => 0 <= x.1 <= ins /\ fixed_rate_noutput_to_ninput m (output_multiple m) <= x.1) seen ->
  0 < n <= INT_MAX / 2 -> (output_multiple m | n) ->
  exists n', try_again m seen max_poss (Z.to_nat n) n = Some (CallWork n') /\ 0 < n' <= n.
Proof.
  intros Hf Ho Ho2 Hins Hs Hn Hdv. pose proof (@multiple_pos _ _ _ _ Hf) as Hm.
  assert (0 <= max_avail seen <= ins) as Hav.
  { destruct (max_avail_spec seen) as [H0 Hmax]. split; [done|]. apply Hmax; [done|].
    eapply Forall_impl; [exact Hs|]. intros x [? _]. lia. }
  destruct (try_again_spec m seen max_poss Hm) with (fuel := Z.to_nat n) (n := n) as (v & -> & Hv); try done.
  { intros _. pose proof (@rate_range _ _ _ _ Hf (max_avail seen) Hav) as Hr.
    change (INT_MAX / 2) with 1073741823 in *. change (2 ^ 30) with 1073741824 in Hr. lia. }
  { intros k. rewrite (@forecast_fixed _ _ _ _ Hf). apply length_replicate. }
  destruct v as [n'| |]; [exists n'; split; [done|lia]|..]; exfalso;
    destruct Hv as (i & x & Hx & Hlt & _); rewrite Forall_forall in Hs;
    destruct (Hs x ltac:(by eapply list_elem_of_lookup_2)) as [_ Hle];
    rewrite (@forecast_fixed _ _ _ _ Hf) in Hlt;
    rewrite (aget_lookup _ _ (fixed_rate_noutput_to_ninput m (output_multiple m))) in Hlt by
      (lia || (rewrite Nat2Z.id; apply lookup_replicate_2; by eapply lookup_lt_Some)); lia.
Qed.

(** ** The synchronous blocks keep the contract *)

Section SyncBlocks.
Context {S : Type} (work : S -> Z -> list (list Z) -> S * list (list Z) * Z).
Context (policy : tag_propagation_policy_t) (history : Z) (Hh : 1 <= history < 2 ^ 30).
(** [work] makes at most what it is asked for, and says so. *)
Context (Hwork : forall s n items s' outs r, 0 < n -> work s n items = (s', outs, r) ->
  Forall (fun l => zlen l <= n) outs /\ r <= n /\ r <> WORK_CALLED_PRODUCE).

Lemma consumed_each_from i c : consumed_from i [ConsumedEach c] = Z.max 0 c.
Proof. cbn. lia. Qed.

(** The block's inputs have what [consumed] says for any number of items up to
    the request. *)
Lemma sync_work_behaves consumed s n ninput items s' outs calls r need d : 0 < n ->
  sync_general_work work consumed s n ninput items = (s', outs, calls, r) ->
  Forall2 (fun req avail => req <= avail) (replicate (length (d_input d)) need) ninput ->
  0 <= need -> (forall k, 0 < k <= n -> consumed k <= need) ->
  Forall (fun l => zlen l <= n) outs /\ Forall (call_ok d) calls /\
  (forall i avail, ninput !! i = Some avail -> consumed_from i calls <= avail) /\
  (forall o, produced_on o calls + (if r =? WORK_CALLED_PRODUCE then 0 else Z.max 0 r) <= n).
Proof using Hwork.
  intros Hn Hgw Hreq Hneed Hc. unfold sync_general_work in Hgw.
  destruct (work s n items) as [[s1 outs1] r1] eqn:Ew. injection Hgw as <- <- <- <-.
  destruct (Hwork _ _ _ _ _ _ Hn Ew) as (Ho & Hr & Hr2). split_and!; [done| | |].
  - case_if; repeat constructor.
  - intros i avail Hi. destruct (Forall2_lookup_r _ _ _ _ _ Hreq Hi) as (q & Hq & Hle).
    apply lookup_replicate_1 in Hq as [-> _]. case_if; [|cbn; lia].
    rewrite consumed_each_from. specialize (Hc r1 ltac:(lia)). lia.
  - intros o. rewrite (proj2 (Z.eqb_neq _ _) Hr2). case_if; cbn; lia.
Qed.

Lemma decimator_need k n : 0 <= n -> 1 <= k -> n * k < 2 ^ 30 ->
  decimator_noutput_to_ninput k history n = n * k + history - 1 /\ s32 (u32 (u32 n * k)) = n * k.
Proof using Hh.
  revert Hh. norm_pow. intros Hh Hn Hk Hnk. assert (0 <= n <= n * k) by (split; [lia|nia]).
  unfold decimator_noutput_to_ninput.
  rewrite (u32_id n), (u32_id (n * k)), (u32_id (n * k + history)), (u32_id (n * k + history - 1)) by lia.
  rewrite !(sx_id 32) by (norm_pow; lia). done.
Qed.

Lemma interpolator_need k n : 0 <= n < 2 ^ 30 -> 1 <= k ->
  interpolator_noutput_to_ninput k history n = n / k + history - 1 /\ u32 n / k = n / k.
Proof using Hh.
  revert Hh. norm_pow. intros Hh Hn Hk. assert (0 <= n / k <= n) as Hq.
  { split; [apply Z.div_pos; lia|apply Z.div_le_upper_bound; nia]. }
  unfold interpolator_noutput_to_ninput.
  rewrite (u32_id n), (u32_id (n / k + history)), (u32_id (n / k + history - 1)) by lia.
  rewrite (sx_id 32) by (norm_pow; lia). done.
Qed.

Lemma sync_need n : 0 <= n < 2 ^ 30 -> sync_noutput_to_ninput history n = n + history - 1.
Proof using Hh.
  revert Hh. norm_pow. intros Hh Hn. unfold sync_noutput_to_ninput.
  rewrite (u32_id n), (u32_id (n + history)), (u32_id (n + history - 1)) by lia.
  by rewrite (sx_id 32) by (norm_pow; lia).
Qed.

(** The synchronous blocks keep the contract of [general_work] whenever
    their [work] makes no more than it is asked for: what they consume, one for
    one, [k] for one or one for [k], is in their inputs. *)
Theorem sync_blocks_behave times_rate one multiple k limit d :
  1 <= k -> limit * k < 2 ^ 30 -> limit < 2 ^ 30 ->
  well_behaved (gr_sync_block work policy history times_rate one multiple) d limit /\
  well_behaved (gr_sync_decimator work policy k history times_rate multiple) d limit /\
  well_behaved (gr_sync_interpolator work policy k history times_rate) d limit.
Proof using Hwork Hh.
  intros Hk Hlk Hl.
  split_and!; intros s n ninput items s' outs calls r Hn Hdv Hreq Hgw;
    eapply sync_work_behaves; try exact Hgw; try exact Hreq; try lia; try intros j Hj.
  - rewrite sync_need; lia.
  - rewrite sync_need; lia.
  - rewrite (proj1 (decimator_need k n ltac:(lia) Hk ltac:(nia))). nia.
  - rewrite (proj1 (decimator_need k n ltac:(lia) Hk ltac:(nia))).
    rewrite (proj2 (decimator_need k j ltac:(lia) Hk ltac:(nia))). nia.
  - rewrite (proj1 (interpolator_need k n ltac:(lia) Hk)). pose proof (Z.div_pos n k). lia.
  - rewrite (proj1 (interpolator_need k n ltac:(lia) Hk)), (proj2 (interpolator_need k j ltac:(lia) Hk)).
    pose proof (Z.div_le_mono j n k ltac:(lia) ltac:(lia)). lia.
Qed.
End SyncBlocks.

(** ** Witnesses: a block that copies its input, between two buffers of four *)

Definition copy_work (s : ()) (n : Z) (items : list (list Z)) : () * list (list Z) * Z :=
  (s, map (take (Z.to_nat n)) items, n).

Definition copy_block : gr_block () :=
  gr_sync_block copy_work TPP_ALL_TO_ALL 1 (fun x => x) true 1.

Definition ex_detail : gr_block_detail :=
  {| d_produce_or := 0; d_input := [(1, 7)]; d_output := [2]; d_detail_done := false |}.

Definition ex_heap : heap := {[1 := buf ex_used; 2 := ex_buffer]}.

Lemma ex_heap_rep : exists g, heap_rep ex_heap g /\ wires_ok ex_detail g.
Proof.
  destruct (reachable_rep 16 ex_make 3 8 ex_buffer ex_made ex_size _ _ ex_run) as (H1 & pos1 & Hr1).
  destruct (reachable_rep 16 ex_make 3 8 ex_buffer ex_made ex_size [] _ (lsteps_nil _ _)) as (H2 & pos2 & Hr2).
  exists {[1 := {| g_room := 0; g_hist := H1; g_pos := pos1 |}; 2 := {| g_room := 0; g_hist := H2; g_pos := pos2 |}]}.
  split; [|split].
  - intros a. unfold ex_heap. destruct (decide (a = 1)) as [->|]; [|destruct (decide (a = 2)) as [->|]].
    + constructor. exact Hr1.
    + constructor. exact Hr2.
    + rewrite !lookup_insert_ne, !lookup_singleton_ne by done. constructor.
  - intros i ->%list_elem_of_singleton.
    destruct (rep_reader _ _ _ Hr1 7 {| d_read_index := 3; d_abs_read_offset := 0 |} eq_refl) as (p & Hp & _).
    exists (zlen H1 - p), {| g_room := 0; g_hist := H1; g_pos := pos1 |}, p. split; [done|]. split; [done|]. cbn. lia.
  - intros a ->%list_elem_of_singleton. eauto.
Qed.

Lemma ex_sized : sized 4 ex_heap.
Proof.
  split; [lia|]. intros a b. unfold ex_heap.
  destruct (decide (a = 1)) as [->|]; [intros [= <-]; vm_compute; discriminate|].
  destruct (decide (a = 2)) as [->|]; [intros [= <-]; vm_compute; discriminate|].
  by rewrite lookup_insert_ne, lookup_singleton_ne.
Qed.

Lemma copy_work_ok s n items s' outs r : 0 < n -> copy_work s n items = (s', outs, r) ->
  Forall (fun l => zlen l <= n) outs /\ r <= n /\ r <> WORK_CALLED_PRODUCE.
Proof.
  intros Hn [= <- <- <-]. unfold WORK_CALLED_PRODUCE. split_and!; [|lia..].
  apply Forall_forall. intros l (l' & -> & _)%list_elem_of_fmap. rewrite length_take. lia.
Qed.

Lemma copy_rate avail : 0 <= avail < 4 -> 0 <= fixed_rate_ninput_to_noutput copy_block avail <= 3.
Proof. intros. unfold copy_block, fixed_rate_ninput_to_noutput, gr_sync_block, sync_ninput_to_noutput.
  change (s32 1) with 1. lia. Qed.

Lemma sync_blocks_behave_witness : well_behaved copy_block ex_detail 3.
Proof.
  exact (proj1 (sync_blocks_behave copy_work TPP_ALL_TO_ALL 1 ltac:(split; vm_compute; reflexivity || discriminate)
    copy_work_ok (fun x => x) true 1 1 3 ex_detail ltac:(lia) ltac:(vm_compute; reflexivity) ltac:(vm_compute; reflexivity))).
Defined.

Lemma copy_behaves : well_behaved copy_block ex_detail 3.
Proof.
  intros s n ninput items s' outs calls r Hn Hdv Hreq Hgw.
  eapply (sync_work_behaves copy_work copy_work_ok); [| exact Hgw | exact Hreq | |]; try lia.
  - rewrite sync_need by (norm_pow; lia). lia.
  - intros j Hj. rewrite sync_need by (norm_pow; lia). lia.
Qed.

Lemma run_one_iteration_safe_witness : exists d h st g g',
  heap_rep ex_heap g /\ run_one_iteration copy_block ex_detail tt ex_heap = Ok (d, tt, h, st) /\
  heap_rep h g' /\ served ex_detail ex_heap g g'.
Proof.
  destruct ex_heap_rep as (g & Hr & Hw).
  assert (ends ex_detail ex_heap g (run_one_iteration copy_block ex_detail tt ex_heap)) as (d & [] & h & g' & st & H & _ & _ & _ & Hr' & _ & Hs).
  - eapply (run_one_iteration_safe ex_detail) with (size := 4) (limit := 3) (g := g);
      [apply NoDup_singleton|apply NoDup_singleton|vm_compute; discriminate|vm_compute; split; discriminate
      |exact copy_behaves|intros; apply length_replicate| | |reflexivity|exact Hr|exact Hw|by left|exact ex_sized].
    + intros _. split; [vm_compute; discriminate|]. intros avail Ha. pose proof (copy_rate avail Ha).
      change (INT_MAX / 2) with 1073741823. lia.
    + cbn. lia.
  - exists d, h, st, g, g'. split; [exact Hr|]. split; [exact H|]. split; [exact Hr'|exact Hs].
Defined.

Lemma request_is_served_witness : exists v,
  try_again copy_block [(3, false)] [3] 2 2 = Some v.
Proof.
  destruct ex_heap_rep as (g & Hr & Hw).
  destruct (request_is_served copy_block 4 ex_detail ex_heap g ex_heap 2 [(3, false)]) as (v & Hv & _);
    [vm_compute; discriminate|intros; apply length_replicate| |apply NoDup_singleton|done|exact Hr|exact Hw
    |exact ex_sized|reflexivity|lia|reflexivity|exists v; exact Hv].
  intros _. split; [vm_compute; discriminate|]. intros avail Ha. pose proof (copy_rate avail Ha).
  change (INT_MAX / 2) with 1073741823. lia.
Defined.

Lemma copy_fixed : FixedRate copy_block (2 ^ 30) (2 ^ 30 - 1).
Proof. apply sync_fixed_rate; [split; vm_compute; reflexivity || discriminate|lia]. Qed.

Lemma fixed_rate_progress_witness : exists n,
  try_again copy_block [(3, false)] [3] (Z.to_nat 8) 8 = Some (CallWork n) /\ 0 < n <= 8.
Proof.
  refine (fixed_rate_progress copy_block (2 ^ 30) (2 ^ 30 - 1) [(3, false)] [3] 8 copy_fixed _ _ _ _ _ _).
  - change (1 <= 2 ^ 30). lia.
  - change (1 <= INT_MAX / 2). vm_compute. discriminate.
  - lia.
  - apply Forall_singleton. change (0 <= 3 <= 2 ^ 30 - 1 /\ 1 <= 3). lia.
  - change (0 < 8 <= 1073741823). lia.
  - exists 8. reflexivity.
Defined.
