(* ===== verification/GrFootprint.v ===== *)
(** * The footprint of an iteration: [runtime/gr_block_executor.cc]

    Which read and write indices an iteration of a block may move: those of its
    own inputs and outputs, none when it reports that it is blocked, and no write
    index when it reports that it made no output.  The scheduler that runs a
    thread for each block depends on this when it decides whom to notify. *)

From S2P Require Import Prelude.
From stdpp Require Import gmap.
From S2P Require Import GrBuffer GrBlock GrBlockExecutor.
#[local] Open Scope Z_scope.
#[local] Open Scope cint_scope.

(** ** Frames *)

(** [b'] is [b] but for items, tags and flags, the write index if [w], and the
    indices of the readers in [R]. *)
Record buffer_frame (w : Prop) (R : Z -> Prop) (b b' : gr_buffer) : Prop := {
  same_size : d_bufsize b' = d_bufsize b;
  same_vector : d_readers b' = d_readers b;
  same_domain : forall r, is_Some (readers b !! r) <-> is_Some (readers b' !! r);
  same_write : w \/ d_write_index b' = d_write_index b;
  same_read : forall r, R r \/ readers b' !! r = readers b !! r
}.

Definition frame (W : Z -> Prop) (R : Z * Z -> Prop) (h h' : heap) : Prop :=
  forall a, option_Forall2 (buffer_frame (W a) (fun r => R (a, r))) (h !! a) (h' !! a).

Lemma buffer_frame_refl w R b : buffer_frame w R b b.
Proof. split; intros; auto. Qed.

Lemma buffer_frame_mono (w w' : Prop) (R R' : Z -> Prop) b b' : (w -> w') -> (forall r, R r -> R' r) ->
  buffer_frame w R b b' -> buffer_frame w' R' b b'.
Proof.
  intros Hw HR [H1 H2 H3 H4 H5]. split; [done..| |].
  - destruct H4; auto.
  - intros r. destruct (H5 r); auto.
Qed.

Lemma buffer_frame_trans w R b1 b2 b3 : buffer_frame w R b1 b2 -> buffer_frame w R b2 b3 -> buffer_frame w R b1 b3.
Proof.
  intros [A1 A2 A3 A4 A5] [B1 B2 B3 B4 B5]. split; [congruence|congruence| | |].
  - intros r. by rewrite A3.
  - destruct A4, B4; auto. right. congruence.
  - intros r. destruct (A5 r), (B5 r); auto. right. congruence.
Qed.

#[export] Instance frame_preorder W R : PreOrder (frame W R).
Proof.
  split.
  - intros h a. destruct (h !! a); constructor. apply buffer_frame_refl.
  - intros h1 h2 h3 H12 H23 a. specialize (H12 a). specialize (H23 a).
    destruct H12 as [b1 b2 H12|]; inversion H23; subst; constructor. by eapply buffer_frame_trans.
Qed.

Lemma frame_mono (W W' : Z -> Prop) (R R' : Z * Z -> Prop) h h' : (forall a, W a -> W' a) -> (forall i, R i -> R' i) ->
  frame W R h h' -> frame W' R' h h'.
Proof.
  intros HW HR Hf a. destruct (Hf a); constructor. eapply buffer_frame_mono; [..|done]; eauto.
Qed.

Abbreviation nothing := (fun _ => False).

Lemma frame_insert (W : Z -> Prop) (R : Z * Z -> Prop) h a b b' : h !! a = Some b ->
  buffer_frame (W a) (fun r => R (a, r)) b b' -> frame W R h (<[a := b']> h).
Proof.
  intros Hb Hf c. destruct (decide (c = a)) as [->|].
  - rewrite Hb, lookup_insert_eq. by constructor.
  - rewrite lookup_insert_ne by done. destruct (h !! c); constructor. apply buffer_frame_refl.
Qed.

Lemma on_buffer_frame (W : Z -> Prop) (R : Z * Z -> Prop) f a h h' :
  (forall b b', f b = Ok b' -> buffer_frame (W a) (fun r => R (a, r)) b b') ->
  on_buffer f a h = Ok h' -> frame W R h h'.
Proof.
  intros Hf (b & Hb & H)%res_bind_ok. apply res_bind_ok in H as (b' & Hb' & [= <-]).
  apply frame_insert with b; [|by apply Hf]. unfold the_buffer in Hb. destruct (h !! a); [congruence|done].
Qed.

Lemma for_each_frame {A} (f : A -> heap -> res buffer_error heap) W R l h h' :
  (forall x h h', x ∈ l -> f x h = Ok h' -> frame W R h h') -> for_each f l h = Ok h' -> frame W R h h'.
Proof.
  revert h. induction l as [|x l IH]; intros h Hf H; cbn in H; [by injection H as ->|].
  apply res_bind_ok in H as (h1 & H1 & H2). transitivity h1; [eapply Hf; [constructor|done]|].
  apply IH; [|done]. intros. eapply Hf; [by constructor|done].
Qed.

(** ** The calls *)

Lemma done_frame (W : Prop) R b v : buffer_frame W R b (GrBuffer.set_done b v).
Proof. split; intros; auto. Qed.

Lemma tags_frame (W : Prop) R b t m : buffer_frame W R b (with_tags b t m).
Proof. split; intros; auto. Qed.

Lemma store_frame (W : Prop) R b l : buffer_frame W R b (store_items b l).
Proof. split; intros; auto. Qed.

Lemma add_tags_frame (W : Prop) R b l : buffer_frame W R b (foldl add_item_tag b l).
Proof.
  revert b. induction l as [|t l IH]; intros b; [apply buffer_frame_refl|]. cbn.
  eapply buffer_frame_trans; [|apply IH]. apply tags_frame.
Qed.

Lemma write_frame R b n b' : update_write_pointer b n = Ok b' -> buffer_frame True R b b'.
Proof. intros (i & _ & [= <-])%res_bind_ok. split; intros; auto. Qed.

Lemma read_frame (W : Prop) (R : Z -> Prop) b r n b' : update_read_pointer b r n = Ok b' -> R r -> buffer_frame W R b b'.
Proof.
  intros (rd & Hrd & H)%res_bind_ok HR. apply res_bind_ok in H as (i & _ & [= <-]).
  unfold the_reader in Hrd. destruct (readers b !! r) as [rd'|] eqn:E; [|done].
  split; cbn; intros; auto.
  - destruct (decide (r0 = r)) as [->|]; [rewrite lookup_insert_eq, E; by split; eauto|by rewrite lookup_insert_ne].
  - destruct (decide (r0 = r)) as [->|]; [by left|right; by rewrite lookup_insert_ne].
Qed.

Lemma space_frame (W : Prop) R b b' n : space_available b = Ok (b', n) -> buffer_frame W R b b'.
Proof.
  unfold space_available. destruct (d_readers b) as [|r0 rs].
  { intros [= <- _]. apply buffer_frame_refl. }
  intros (m & _ & H)%res_bind_ok. apply res_bind_ok in H as (rd & _ & H). apply res_bind_ok in H as ([m' u] & _ & [= <- _]).
  case_if; [apply tags_frame|apply buffer_frame_refl].
Qed.

(** ** The iteration *)

Section Iteration.
Context {S : Type} (m : gr_block S).

(** What stays when a block runs: its wires, and every index that is not its. *)
Definition wires_of (d : gr_block_detail) : list (Z * Z) * list Z := (d_input d, d_output d).
Definition own (d : gr_block_detail) : heap -> heap -> Prop :=
  frame (fun a => a ∈ d_output d) (fun i => i ∈ d_input d).
(** Nothing of it moves; nothing but its read indices moves. *)
Definition quiet : heap -> heap -> Prop := frame nothing nothing.
Definition reads_only (d : gr_block_detail) : heap -> heap -> Prop := frame nothing (fun i => i ∈ d_input d).

Lemma quiet_own d h h' : quiet h h' -> own d h h'.
Proof. apply frame_mono; done. Qed.

Lemma set_done_frame d v h d' h' : set_done d v h = Ok (d', h') -> wires_of d' = wires_of d /\ quiet h h'.
Proof.
  intros (h1 & H1 & H)%res_bind_ok. apply res_bind_ok in H as (h2 & H2 & [= <- <-]). split; [done|].
  transitivity h1; (eapply for_each_frame; [|done]); intros x h3 h4 _; apply on_buffer_frame;
    intros b b' [= <-]; apply done_frame.
Qed.

Lemma min_space_frame outs k n h h' r : min_space_loop outs k n h = Ok (h', r) -> quiet h h'.
Proof.
  revert n h. induction outs as [|a outs IH]; cbn [min_space_loop]; intros n h H; [by injection H as -> _|].
  apply res_bind_ok in H as (b & Hb & H). apply res_bind_ok in H as ([b' sp] & Hs & H).
  assert (quiet h (<[a := b']> h)) as Hq.
  { apply frame_insert with b; [|by eapply space_frame]. unfold the_buffer in Hb. destruct (h !! a); [congruence|done]. }
  case_if; [by injection H as <- _|]. transitivity (<[a := b']> h); [done|]. by eapply IH.
Qed.

Lemma store_outputs_frame outs items h h' : store_outputs outs items h = Ok h' -> quiet h h'.
Proof.
  revert items h. induction outs as [|a outs IH]; cbn; intros items h H; [by injection H as ->|].
  destruct items as [|l items]; [by injection H as ->|]. apply res_bind_ok in H as (h1 & H1 & H).
  transitivity h1; [|by eapply IH]. eapply on_buffer_frame; [|done]. intros b b' [= <-]. apply store_frame.
Qed.

Lemma add_tags_quiet tags a h h' : add_tags tags a h = Ok h' -> quiet h h'.
Proof. apply on_buffer_frame. intros b b' [= <-]. apply add_tags_frame. Qed.

Lemma propagate_frame d starts h h' ok : propagate_tags m d starts h = Ok (h', ok) -> quiet h h'.
Proof.
  unfold propagate_tags. case_if; [by intros [= <- _]|]. destruct (tag_propagation_policy m).
  - by intros [= <- _].
  - intros (h1 & H & [= <- _])%res_bind_ok. revert starts h H. generalize (d_input d) as ins.
    induction ins as [|i ins IH]; cbn; intros starts h H; [by injection H as ->|].
    destruct starts as [|st starts]; [by injection H as ->|].
    apply res_bind_ok in H as (tags & _ & H). apply res_bind_ok in H as (h2 & H2 & H).
    transitivity h2; [|by eapply IH]. eapply for_each_frame; [|exact H2]. intros t h3 h4 _ H3.
    eapply for_each_frame; [|exact H3]. intros a h5 h6 _. apply add_tags_quiet.
  - case_if; [|by intros [= <- _]]. intros (h1 & H & [= <- _])%res_bind_ok. revert starts h H.
    generalize (d_input d) as ins, (d_output d) as outs.
    induction ins as [|i ins IH]; cbn; intros outs starts h H; destruct outs as [|o outs]; cbn in H; try by injection H as ->.
    destruct starts as [|st starts]; [by injection H as ->|].
    apply res_bind_ok in H as (tags & _ & H). apply res_bind_ok in H as (h2 & H2 & H).
    transitivity h2; [by eapply add_tags_quiet|]. by eapply IH.
Qed.

(** *** Moving indices: [produce_or] remembers whether a write index moved *)

Definition moves (d : gr_block_detail) (h : heap) (d' : gr_block_detail) (h' : heap) : Prop :=
  wires_of d' = wires_of d /\ (0 < d_produce_or d -> 0 < d_produce_or d') /\
  frame (fun a => a ∈ d_output d /\ 0 < d_produce_or d') (fun i => i ∈ d_input d) h h'.

Lemma moves_trans d1 h1 d2 h2 d3 h3 : moves d1 h1 d2 h2 -> moves d2 h2 d3 h3 -> moves d1 h1 d3 h3.
Proof.
  unfold moves, wires_of. intros ([= Hi Ho] & A2 & A3) ([= Hi' Ho'] & B2 & B3). rewrite Hi, Ho in *. split_and!; [congruence|tauto|].
  transitivity h2; [|done]. eapply frame_mono; [| |exact A3]; [|done]. cbn. tauto.
Qed.

Lemma moves_refl d h : moves d h d h.
Proof. split_and!; done. Qed.

Lemma input_elem d n i : input d n = Ok i -> i ∈ d_input d.
Proof.
  unfold input. case_if; [done|]. destruct (d_input d !! Z.to_nat n) as [j|] eqn:E; [|done].
  intros [= <-]. by eapply list_elem_of_lookup_2.
Qed.

Lemma output_elem d n a : output d n = Ok a -> a ∈ d_output d.
Proof.
  unfold output. case_if; [done|]. destruct (d_output d !! Z.to_nat n) as [j|] eqn:E; [|done].
  intros [= <-]. by eapply list_elem_of_lookup_2.
Qed.

Lemma lor_positive x n : 0 < n -> (0 < x -> 0 < x .| n) /\ (0 <= x -> 0 < x .| n).
Proof.
  intros Hn. assert (0 <= x -> 0 < x .| n) as H; [|split; [intros; apply H; lia|done]].
  intros Hx. assert (0 <= x .| n) by (apply Z.lor_nonneg; lia).
  destruct (Z.eq_dec (x .| n) 0) as [E|]; [|lia]. apply Z.lor_eq_0_iff in E as [_ ?]. lia.
Qed.

Lemma consume_moves d n k h h' : consume d n k h = Ok h' -> moves d h d h'.
Proof.
  unfold consume. case_if; [|by intros [= ->]; apply moves_refl]. intros ([a r] & Hi & H)%res_bind_ok. split_and!; [done..|].
  eapply on_buffer_frame; [|exact H]. intros b b' Hb. eapply read_frame; [exact Hb|]. by apply input_elem in Hi.
Qed.

Lemma consume_each_moves d k h h' : consume_each d k h = Ok h' -> moves d h d h'.
Proof.
  unfold consume_each. case_if; [|by intros [= ->]; apply moves_refl]. intros H. split_and!; [done..|].
  eapply for_each_frame; [|exact H]. intros [a r] h1 h2 Hi. apply on_buffer_frame. intros b b' Hb.
  by eapply read_frame.
Qed.

Lemma produce_moves d n k h d' h' : 0 <= d_produce_or d -> produce d n k h = Ok (d', h') ->
  0 <= d_produce_or d' /\ moves d h d' h'.
Proof.
  intros Hp. unfold produce. destruct (Z.ltb_spec 0 k) as [Hk|]; [|by intros [= <- <-]; split; [|apply moves_refl]].
  intros (a & Ha & H)%res_bind_ok. apply res_bind_ok in H as (h1 & H1 & [= <- <-]).
  destruct (lor_positive (d_produce_or d) k Hk) as [_ Hl]. specialize (Hl Hp). split; [cbn; lia|].
  split_and!; [done|done|]. eapply on_buffer_frame; [|exact H1]. intros b b' Hb.
  eapply (buffer_frame_mono True _ nothing); [| |exact (write_frame _ _ _ _ Hb)]; [|done].
  cbn. intros _. split; [by eapply output_elem|lia].
Qed.

Lemma produce_each_moves d k h d' h' : 0 <= d_produce_or d -> produce_each d k h = Ok (d', h') ->
  0 <= d_produce_or d' /\ moves d h d' h'.
Proof.
  intros Hp. unfold produce_each. destruct (Z.ltb_spec 0 k) as [Hk|]; [|by intros [= <- <-]; split; [|apply moves_refl]].
  intros (h1 & H1 & [= <- <-])%res_bind_ok.
  destruct (lor_positive (d_produce_or d) k Hk) as [_ Hl]. specialize (Hl Hp). split; [cbn; lia|].
  split_and!; [done|done|]. eapply for_each_frame; [|exact H1]. intros a h2 h3 Ha. apply on_buffer_frame. intros b b' Hb.
  eapply (buffer_frame_mono True _ nothing); [| |exact (write_frame _ _ _ _ Hb)]; [|done].
  cbn. intros _. split; [done|lia].
Qed.

Lemma calls_move calls d h d' h' : 0 <= d_produce_or d -> for_each make_call calls (d, h) = Ok (d', h') ->
  0 <= d_produce_or d' /\ moves d h d' h'.
Proof.
  revert d h. induction calls as [|c calls IH]; intros d h Hp H; cbn [for_each] in H.
  { injection H as <- <-. split; [done|apply moves_refl]. }
  apply res_bind_ok in H as ([d1 h1] & H1 & H).
  assert (0 <= d_produce_or d1 /\ moves d h d1 h1) as [Hp1 Hm1].
  { destruct c; cbn [make_call] in H1.
    - apply res_bind_ok in H1 as (h2 & H2 & [= <- <-]). split; [done|]. by eapply consume_moves.
    - apply res_bind_ok in H1 as (h2 & H2 & [= <- <-]). split; [done|]. by eapply consume_each_moves.
    - by eapply produce_moves. }
  destruct (IH _ _ Hp1 H) as [? ?]. split; [done|]. by eapply moves_trans.
Qed.

(** *** What the result of an iteration says about what moved *)

Definition footprint (d : gr_block_detail) (h : heap) (r : gr_block_detail * S * heap * state) : Prop :=
  let '(d', s', h', st) := r in
  wires_of d' = wires_of d /\ own d h h' /\
  (st = BLKD_IN \/ st = BLKD_OUT -> quiet h h') /\ (st = READY_NO_OUTPUT -> reads_only d h h').

Lemma were_done_footprint d0 d s h0 h r : wires_of d = wires_of d0 -> own d0 h0 h ->
  were_done d s h = Ok r -> footprint d0 h0 r.
Proof.
  intros Hd Hh ([d' h'] & H & [= <-])%res_bind_ok. apply set_done_frame in H as [Hw Hq].
  split_and!; [congruence| |by intros [|]|done]. unfold own. etransitivity; [exact Hh|]. by apply quiet_own.
Qed.

Lemma stays_footprint d s h0 h st : quiet h0 h -> footprint d h0 (d, s, h, st).
Proof. intros Hq. split_and!; [done|by apply quiet_own|done|]. intros _. eapply frame_mono; [| |exact Hq]; done. Qed.

Lemma setup_footprint d s h0 h n ins r : quiet h0 h -> setup_call_to_work m d s h n ins = Ok r -> footprint d h0 r.
Proof.
  intros Hq H. unfold setup_call_to_work in H. apply res_bind_ok in H as (items & _ & H).
  apply res_bind_ok in H as (starts & _ & H). destruct (general_work _ _ _ _ _) as [[[s' outs] calls] k].
  apply res_bind_ok in H as (h1 & H1 & H). apply store_outputs_frame in H1.
  apply res_bind_ok in H as ([d2 h2] & H2 & H). apply calls_move in H2 as [Hp2 Hm2]; [|done].
  apply res_bind_ok in H as ([h3 ok] & H3 & H). apply propagate_frame in H3.
  assert (moves (with_produce_or d 0) h0 d2 h3) as Hm.
  { destruct Hm2 as (A1 & A2 & A3). split_and!; [done..|]. etransitivity; [|etransitivity; [exact A3|]].
    - etransitivity; (eapply frame_mono; [..|eassumption]); done.
    - eapply frame_mono; [..|eassumption]; done. }
  assert (forall d' h', moves (with_produce_or d 0) h0 d' h' -> wires_of d' = wires_of d /\ own d h0 h') as Hown.
  { intros d' h' (B1 & _ & B3). split; [done|]. eapply frame_mono; [..|exact B3]; cbn; tauto. }
  destruct ok; cbn [negb] in H.
  2: { apply Hown in Hm as [? ?]. by eapply were_done_footprint. }
  case_if; [apply Hown in Hm as [? ?]; by eapply were_done_footprint|].
  apply res_bind_ok in H as ([d4 h4] & H4 & H).
  assert (0 <= d_produce_or d4 /\ moves (with_produce_or d 0) h0 d4 h4) as [Hp4 Hm4].
  { destruct (negb _); [|by injection H4 as <- <-]. apply produce_each_moves in H4 as [? ?]; [|done].
    split; [done|]. by eapply moves_trans. }
  pose proof (Hown _ _ Hm4) as [Hw4 Ho4]. destruct (Z.ltb_spec 0 (d_produce_or d4)).
  { injection H as <-. split_and!; [done|done|by intros [|]|done]. }
  case_if; [by eapply were_done_footprint|]. injection H as <-. split_and!; [done|done|by intros [|]|].
  intros _. destruct Hm4 as (_ & _ & B3). eapply frame_mono; [..|exact B3]; cbn; [lia|done].
Qed.

Lemma attempt_footprint d s h0 h n seen r : quiet h0 h -> attempt m d s h n seen = Ok r -> footprint d h0 r.
Proof.
  intros Hq. unfold attempt. destruct (try_again _ _ _ _ _) as [[n'| |]|]; [| | |done].
  - by apply setup_footprint.
  - intros [= <-]. by apply stays_footprint.
  - apply were_done_footprint; [done|by apply quiet_own].
Qed.

Lemma iteration_footprint d s h r : run_one_iteration m d s h = Ok r -> footprint d h r.
Proof.
  unfold run_one_iteration. case_if; [done|]. case_if; [|case_if].
  - intros ([h1 n] & H1 & H)%res_bind_ok. apply min_space_frame in H1.
    case_if; [by eapply were_done_footprint, H; [|apply quiet_own]|].
    case_if; [injection H as <-; by apply stays_footprint|]. by eapply setup_footprint.
  - intros (seen & _ & H)%res_bind_ok. destruct seen as [seen|]; [|by eapply were_done_footprint, H].
    case_if; [injection H as <-; by apply stays_footprint|]. by eapply attempt_footprint.
  - intros (seen & _ & H)%res_bind_ok. apply res_bind_ok in H as ([h1 n] & H1 & H). apply min_space_frame in H1.
    case_if; [by eapply were_done_footprint, H; [|apply quiet_own]|].
    case_if; [injection H as <-; by apply stays_footprint|]. by eapply attempt_footprint.
Qed.

(** An iteration moves no index but those of its block's own inputs and
    outputs; none at all if it says that the block is blocked; and no write index
    if it says that there was no output.  So the neighbours that the scheduler
    does not tell have nothing to be told. *)
Theorem run_one_iteration_footprint d s h r : run_one_iteration m d s h = Ok r -> footprint d h r.
Proof. apply iteration_footprint. Qed.
End Iteration.

(** ** Witness *)

Lemma run_one_iteration_footprint_witness :
  exists r, run_one_iteration copy_block ex_detail tt ex_heap = Ok r /\ footprint ex_detail ex_heap r.
Proof.
  destruct (run_one_iteration copy_block ex_detail tt ex_heap) as [r|e] eqn:E.
  - exists r. split; [reflexivity|]. exact (run_one_iteration_footprint copy_block ex_detail tt ex_heap r E).
  - vm_compute in E. discriminate E.
Defined.
