(* ===== verification/GrHierBlock.v ===== *)
(** * Hierarchical blocks: [runtime/gr_hier_block2_detail.cc], [gr_hier_block2.cc]

    A hierarchical block holds a flow graph of its own, whose blocks may again
    be hierarchical, and wires its ports to ports inside.  Connecting and
    disconnecting inside a hierarchical block, with the exceptions; resolving a
    port to the ports of ordinary blocks behind it; and flattening a hierarchy
    to the edges between ordinary blocks, which are exactly the wires the
    hierarchy describes. *)

From S2P Require Import Prelude.
From stdpp Require Import gmap.
From S2P Require Import GrFlowgraph.
#[local] Open Scope Z_scope.
#[local] Open Scope cint_scope.

(** ** State

    [gr_hier_block2_detail]; the parent is the owner of the parent's detail, and
    [None] among the outputs is the endpoint without a block. *)
Record hier_detail := {
  d_parent_detail : option Z;
  d_edges : list edge;
  d_blocks : list Z;
  d_inputs : list (list endpoint);
  d_outputs : list (option endpoint)
}.

(** The hierarchical blocks: casting a block to one is a lookup. *)
Abbreviation hiers := (gmap Z hier_detail).

Inductive hier_error :=
| flow (e : flow_error)
| variable_ports
| already_connected
| must_not_have_ports
| same_block
| source_port_out_of_range
| destination_port_out_of_range
| input_out_of_range
| output_out_of_range
| already_wired
| not_connected
| not_assigned
| block_not_found
| input_not_connected
| output_not_connected
| unable_to_resolve
| null_pointer
| stack_overflow.

Definition lift {A} (r : res flow_error A) : res hier_error A :=
  match r with Ok a => Ok a | Throw e => Throw (flow e) end.

(** *** Operations change the blocks and may throw half way *)

Definition HM (A : Type) : Type := hiers -> hiers * res hier_error A.

#[export] Instance HM_ret : MRet HM := fun A a w => (w, Ok a).
#[export] Instance HM_bind : MBind HM := fun A B f m w =>
  match m w with (w', Ok a) => f a w' | (w', Throw e) => (w', Throw e) end.

Definition throw {A} (e : hier_error) : HM A := fun w => (w, Throw e).
Definition of_res {A} (r : res hier_error A) : HM A := fun w => (w, r).

(** [cast_to_hier_block2_sptr(b)] is not null. *)
Definition is_hier (b : Z) : HM bool := fun w => (w, Ok (bool_decide (is_Some (w !! b)))).

(** [b->d_detail], and [*b->d_detail = d]. *)
Definition get_detail (b : Z) : HM hier_detail := fun w =>
  (w, match w !! b with Some d => Ok d | None => Throw null_pointer end).
Definition put_detail (b : Z) (d : hier_detail) : HM () := fun w => (<[b := d]> w, Ok tt).

Definition with_parent (d : hier_detail) (p : option Z) : hier_detail :=
  {| d_parent_detail := p; d_edges := d_edges d; d_blocks := d_blocks d;
     d_inputs := d_inputs d; d_outputs := d_outputs d |}.
Definition with_edges (d : hier_detail) (es : list edge) : hier_detail :=
  {| d_parent_detail := d_parent_detail d; d_edges := es; d_blocks := d_blocks d;
     d_inputs := d_inputs d; d_outputs := d_outputs d |}.
Definition with_blocks (d : hier_detail) (bs : list Z) : hier_detail :=
  {| d_parent_detail := d_parent_detail d; d_edges := d_edges d; d_blocks := bs;
     d_inputs := d_inputs d; d_outputs := d_outputs d |}.
Definition with_inputs (d : hier_detail) (ins : list (list endpoint)) : hier_detail :=
  {| d_parent_detail := d_parent_detail d; d_edges := d_edges d; d_blocks := d_blocks d;
     d_inputs := ins; d_outputs := d_outputs d |}.
Definition with_outputs (d : hier_detail) (outs : list (option endpoint)) : hier_detail :=
  {| d_parent_detail := d_parent_detail d; d_edges := d_edges d; d_blocks := d_blocks d;
     d_inputs := d_inputs d; d_outputs := outs |}.

(** [b->d_detail->d_parent_detail = p]. *)
Definition set_parent (b : Z) (p : option Z) : HM () :=
  d ← get_detail b; put_detail b (with_parent d p).

(** What [connect] and [disconnect] do first with each block: only another
    hierarchical block has its parent set. *)
Definition adopt (me b : Z) (p : option Z) : HM () :=
  hblock ← is_hier b;
  if hblock && negb (b =? me) then set_parent b p else mret tt.

Section HierBlock.
Context (input_signature output_signature : Z -> io_signature).
(** [cast_to_block_sptr(b)] is not null: an ordinary block. *)
Context (is_block : Z -> bool).

(** ** Construction *)

Definition gr_hier_block2_detail (owner : Z) : res hier_error hier_detail :=
  let min_inputs := min_streams (input_signature owner) in
  let max_inputs := max_streams (input_signature owner) in
  let min_outputs := min_streams (output_signature owner) in
  let max_outputs := max_streams (output_signature owner) in
  if (max_inputs =? IO_INFINITE) || (max_outputs =? IO_INFINITE) ||
     negb (min_inputs =? max_inputs) || negb (min_outputs =? max_outputs)
  then Throw variable_ports
  else Ok {| d_parent_detail := None; d_edges := []; d_blocks := [];
             d_inputs := replicate (Z.to_nat max_inputs) [];
             d_outputs := replicate (Z.to_nat max_outputs) None |}.

(** ** Wiring the ports of the block itself *)

Definition in_range {A} (my_port : Z) (l : list A) : bool :=
  negb ((my_port <? 0) || (Z.of_nat (length l) <=? my_port)).

Definition connect_input (me my_port port : Z) (block : Z) : HM () :=
  this ← get_detail me;
  if negb (in_range my_port (d_inputs this)) then throw input_out_of_range
  else
    let endps := (d_inputs this).[my_port] in
    let endp := {| block := block; port := port |} in
    if bool_decide (endp ∈ endps) then throw already_wired
    else put_detail me (with_inputs this (d_inputs this).[my_port <- endps ++ [endp]]).

Definition connect_output (me my_port port : Z) (block : Z) : HM () :=
  this ← get_detail me;
  if negb (in_range my_port (d_outputs this)) then throw output_out_of_range
  else
    match (d_outputs this).[my_port] with
    | Some _ => throw already_connected
    | None => put_detail me (with_outputs this
        (d_outputs this).[my_port <- Some {| block := block; port := port |}])
    end.

(** [std::find] and [erase]: the first occurrence goes. *)
Fixpoint erase_first {A} `{EqDecision A} (x : A) (l : list A) : list A :=
  match l with
  | [] => []
  | y :: l => if decide (x = y) then l else y :: erase_first x l
  end.

Definition disconnect_input (me my_port port : Z) (block : Z) : HM () :=
  this ← get_detail me;
  if negb (in_range my_port (d_inputs this)) then throw input_out_of_range
  else
    let endps := (d_inputs this).[my_port] in
    let endp := {| block := block; port := port |} in
    if negb (bool_decide (endp ∈ endps)) then throw not_connected
    else put_detail me (with_inputs this (d_inputs this).[my_port <- erase_first endp endps]).

Definition disconnect_output (me my_port port : Z) (b : Z) : HM () :=
  this ← get_detail me;
  if negb (in_range my_port (d_outputs this)) then throw output_out_of_range
  else if negb (bool_decide (block <$> (d_outputs this).[my_port] = Some b)) then throw not_assigned
  else put_detail me (with_outputs this (d_outputs this).[my_port <- None]).

(** ** Connecting and disconnecting *)

(** [connect(block)]: a block with no ports, by itself. *)
Definition connect_block (me b : Z) : HM () :=
  this ← get_detail me;
  if bool_decide (b ∈ d_blocks this) then throw already_connected
  else if negb (max_streams (input_signature b) =? 0) || negb (max_streams (output_signature b) =? 0)
  then throw must_not_have_ports
  else
    _ ← adopt me b (Some me);
    this ← get_detail me;
    put_detail me (with_blocks this (d_blocks this ++ [b])).

Definition port_beyond (port max_port : Z) : bool :=
  (negb (max_port =? -1) && (max_port <=? port)) || (port <? 0).

Definition connect (me : Z) (s d : endpoint) : HM () :=
  if block s =? block d then throw same_block
  else
    _ ← adopt me (block s) (Some me);
    _ ← adopt me (block d) (Some me);
    if block s =? me then
      if port_beyond (port s) (max_streams (input_signature (block s)))
      then throw source_port_out_of_range
      else connect_input me (port s) (port d) (block d)
    else if block d =? me then
      if port_beyond (port d) (max_streams (output_signature (block d)))
      then throw destination_port_out_of_range
      else connect_output me (port d) (port s) (block s)
    else
      this ← get_detail me;
      edges ← of_res (lift (GrFlowgraph.connect input_signature output_signature s d (d_edges this)));
      put_detail me (with_edges this edges).

Definition disconnect (me : Z) (s d : endpoint) : HM () :=
  if block s =? block d then throw same_block
  else
    _ ← adopt me (block s) None;
    _ ← adopt me (block d) None;
    if block s =? me then disconnect_input me (port s) (port d) (block d)
    else if block d =? me then disconnect_output me (port d) (port s) (block s)
    else
      this ← get_detail me;
      edges ← of_res (lift (GrFlowgraph.disconnect s d (d_edges this)));
      put_detail me (with_edges this edges).

Fixpoint disconnect_each (me : Z) (edges : list edge) : HM () :=
  match edges with
  | [] => mret tt
  | p :: edges => _ ← disconnect me (src p) (dst p); disconnect_each me edges
  end.

(** [disconnect(block)].  The null pointer: a singleton that is not hierarchical
    is cast and dereferenced all the same. *)
Definition disconnect_block (me b : Z) : HM () :=
  this ← get_detail me;
  if bool_decide (b ∈ d_blocks this) then
    _ ← put_detail me (with_blocks this (erase_first b (d_blocks this)));
    if negb (b =? me) then set_parent b None else mret tt
  else
    let edges := base.filter (fun p => block (src p) = b \/ block (dst p) = b) (d_edges this) in
    match edges with
    | [] => throw block_not_found
    | _ => disconnect_each me edges
    end.

Definition disconnect_all (me : Z) : HM () :=
  this ← get_detail me;
  put_detail me {| d_parent_detail := d_parent_detail this; d_edges := []; d_blocks := [];
                   d_inputs := []; d_outputs := [] |}.

(** ** Resolving ports

    The recursion follows the hierarchy down; the fuel is the depth of the
    stack. *)

Section Resolve.
Context (resolve : endpoint -> bool -> res hier_error (list endpoint)).

Fixpoint resolve_each (endps : list endpoint) (is_input : bool) : res hier_error (list endpoint) :=
  match endps with
  | [] => Ok []
  | p :: endps =>
      tmp ← resolve p is_input;
      result ← resolve_each endps is_input;
      Ok (tmp ++ result)
  end.

Definition resolve_port (this : hier_detail) (port : Z) (is_input : bool) :
    res hier_error (list endpoint) :=
  result ←
    (if is_input then
       if negb (in_range port (d_inputs this)) then Throw input_out_of_range
       else match (d_inputs this).[port] with
            | [] => Throw input_not_connected
            | endps => resolve_each endps true
            end
     else
       if negb (in_range port (d_outputs this)) then Throw output_out_of_range
       else match (d_outputs this).[port] with
            | None => Throw output_not_connected
            | Some endp => resolve endp false
            end);
  match result with [] => Throw unable_to_resolve | _ => Ok result end.
End Resolve.

Fixpoint resolve_endpoint (fuel : nat) (w : hiers) (endp : endpoint) (is_input : bool) :
    res hier_error (list endpoint) :=
  match fuel with
  | O => Throw stack_overflow
  | S fuel =>
      if is_block (block endp) then Ok [endp]
      else match w !! block endp with
           | Some d => resolve_port (resolve_endpoint fuel w) d (port endp) is_input
           | None => Throw unable_to_resolve
           end
  end.

(** ** Flattening *)

(** The blocks used in edges, by themselves, or at the ports. *)
Definition first_unconnected (d : hier_detail) : res hier_error () :=
  if existsb (fun endps => bool_decide (endps = [])) (d_inputs d) then Throw input_not_connected
  else if existsb (fun o => bool_decide (o = None)) (d_outputs d) then Throw output_not_connected
  else Ok tt.

Definition used_blocks (d : hier_detail) : list Z :=
  unique_vector (calc_used_blocks (d_edges d) ++ d_blocks d ++
    mjoin (map (map block) (d_inputs d)) ++ map block (omap id (d_outputs d))).

(** The two inner loops: every source to every destination. *)
Definition connect_pairs (src_endps dst_endps : list endpoint) : list edge -> res hier_error (list edge) :=
  for_each (fun s => for_each (fun d sfg =>
    lift (GrFlowgraph.connect input_signature output_signature s d sfg)) dst_endps) src_endps.

Definition flatten_edge (fuel : nat) (w : hiers) (p : edge) (sfg : list edge) :
    res hier_error (list edge) :=
  src_endps ← resolve_endpoint fuel w (src p) false;
  dst_endps ← resolve_endpoint fuel w (dst p) true;
  connect_pairs src_endps dst_endps sfg.

Fixpoint flatten_aux (fuel : nat) (w : hiers) (this : hier_detail) (sfg : list edge) :
    res hier_error (list edge) :=
  match fuel with
  | O => Throw stack_overflow
  | S fuel =>
      sfg ← for_each (flatten_edge (S fuel) w) (d_edges this) sfg;
      _ ← first_unconnected this;
      for_each (fun b sfg =>
        match w !! b with
        | Some d => flatten_aux fuel w d sfg
        | None => Ok sfg
        end) (used_blocks this) sfg
  end.

Definition flatten (fuel : nat) (w : hiers) (this : hier_detail) : res hier_error (list edge) :=
  flatten_aux fuel w this [].

(** ** Locking

    [lock] and [unlock] climb to the detail without a parent and call its owner's
    method, which is the top block's own, or else the one that was called. *)
Fixpoint lock_target (is_top : Z -> bool) (fuel : nat) (w : hiers) (me : Z) : res hier_error Z :=
  match fuel with
  | O => Throw stack_overflow
  | S fuel =>
      match w !! me with
      | None => Throw null_pointer
      | Some d =>
          match d_parent_detail d with
          | Some p => lock_target is_top fuel w p
          | None => if is_top me then Ok me else lock_target is_top fuel w me
          end
      end
  end.
End HierBlock.

(** ** What a port stands for *)

(** Wired directly to port [p] of the block with detail [d], inside it. *)
Definition wired (d : hier_detail) (inp : bool) (p : Z) (x : endpoint) : Prop :=
  0 <= p /\
  if inp then exists endps, d_inputs d !! Z.to_nat p = Some endps /\ x ∈ endps
  else d_outputs d !! Z.to_nat p = Some (Some x).

(** ** The blocks a detail uses *)

Lemma used_blocks_in d b :
  b ∈ used_blocks d <->
  (exists p, p ∈ d_edges d /\ (b = block (src p) \/ b = block (dst p))) \/ b ∈ d_blocks d \/
  (exists endps e, endps ∈ d_inputs d /\ e ∈ endps /\ b = block e) \/
  (exists e, Some e ∈ d_outputs d /\ b = block e).
Proof.
  unfold used_blocks. rewrite unique_vector_in, !elem_of_app, calc_used_blocks_in, list_elem_of_join.
  do 2 f_equiv. f_equiv.
  - split.
    + intros (l & Hb & (endps & -> & Hl)%list_elem_of_fmap). apply list_elem_of_fmap in Hb as (e & -> & He). eauto.
    + intros (endps & e & Hl & He & ->). exists (map block endps).
      split; apply list_elem_of_fmap; eauto.
  - rewrite list_elem_of_fmap. setoid_rewrite list_elem_of_omap. unfold id. naive_solver.
Qed.

Lemma wired_used d inp p x : wired d inp p x -> block x ∈ used_blocks d.
Proof.
  intros [_ Hw]. apply used_blocks_in. do 2 right. destruct inp.
  - destruct Hw as (endps & Hl & Hx). left. exists endps, x. split_and!; [|done..].
    by eapply list_elem_of_lookup_2.
  - right. exists x. split; [|done]. by eapply list_elem_of_lookup_2.
Qed.

Lemma aget_in_range {A} `{Default A} (l : list A) p :
  in_range p l = true -> 0 <= p /\ l !! Z.to_nat p = Some l.[p].
Proof.
  unfold in_range. intros Hr. apply negb_true_iff, orb_false_iff in Hr as [Hp Hl]. zbool.
  split; [done|]. destruct (lookup_lt_is_Some_2 l (Z.to_nat p)) as [x Hx]; [lia|].
  by rewrite (aget_lookup l p x).
Qed.

(** ** Resolving finds what the port stands for *)

Lemma resolve_each_ok rec endps inp l :
  resolve_each rec endps inp = Ok l ->
  (forall e, e ∈ endps -> exists l', rec e inp = Ok l') /\
  forall x, x ∈ l <-> exists e l', e ∈ endps /\ rec e inp = Ok l' /\ x ∈ l'.
Proof.
  revert l. induction endps as [|e endps IH]; cbn; intros l Hl.
  { injection Hl as <-. set_solver. }
  apply res_bind_ok in Hl as (l1 & H1 & Hl). apply res_bind_ok in Hl as (l2 & H2 & Hl).
  injection Hl as <-. destruct (IH _ H2) as [Hr Hx]. setoid_rewrite elem_of_cons. split.
  { intros ? [-> |]; eauto. }
  intros x. rewrite elem_of_app, Hx. split.
  - intros [Hx' | (e' & l' & He' & Hl' & Hx')]; [exists e, l1|exists e', l']; auto.
  - intros (e' & l' & [-> | He'] & Hl' & Hx'); [left|right; eauto]. congruence.
Qed.

Lemma resolve_port_ok rec d p inp l :
  resolve_port rec d p inp = Ok l ->
  (forall e, wired d inp p e -> exists l', rec e inp = Ok l') /\
  forall x, x ∈ l <-> exists e l', wired d inp p e /\ rec e inp = Ok l' /\ x ∈ l'.
Proof.
  unfold resolve_port. intros (r & Hr & Hl)%res_bind_ok.
  assert (r = l) as -> by (destruct r; [done|by injection Hl]). clear Hl. destruct inp.
  - destruct (in_range p (d_inputs d)) eqn:E; [|done]. apply aget_in_range in E as [Hp E].
    destruct (d_inputs d).[p] as [|e0 endps] eqn:E2; [done|].
    cbn [negb] in Hr. apply resolve_each_ok in Hr. unfold wired. rewrite E. naive_solver.
  - destruct (in_range p (d_outputs d)) eqn:E; [|done]. apply aget_in_range in E as [Hp E].
    destruct (d_outputs d).[p] as [e0|] eqn:E2; [|done]. cbn [negb] in Hr.
    unfold wired. rewrite E. split; [intros e [_ [= <-]]; eauto|]. intros x. split.
    + intros Hx. exists e0, l. auto.
    + intros (e & l' & [_ [= <-]] & Hl' & Hx). congruence.
Qed.

Section Spec.
Context (input_signature output_signature : Z -> io_signature) (is_block : Z -> bool).
Context (w : hiers).

(** The port of an ordinary block behind a port. *)
Inductive leaf (inp : bool) : endpoint -> endpoint -> Prop :=
| leaf_here e : is_block (block e) = true -> leaf inp e e
| leaf_inside e d x l :
    is_block (block e) = false -> w !! block e = Some d ->
    wired d inp (port e) x -> leaf inp x l -> leaf inp e l.

(** The wires between ordinary blocks in the hierarchy under a block. *)
Inductive wires : hier_detail -> edge -> Prop :=
| wire_here d p s t :
    p ∈ d_edges d -> leaf false (src p) s -> leaf true (dst p) t ->
    wires d {| src := s; dst := t |}
| wire_inside d b d' e :
    b ∈ used_blocks d -> w !! b = Some d' -> wires d' e -> wires d e.

Lemma resolve_endpoint_ok fuel e inp l :
  resolve_endpoint is_block fuel w e inp = Ok l -> forall x, x ∈ l <-> leaf inp e x.
Proof.
  revert e l. induction fuel as [|fuel IH]; [done|]. cbn. intros e l Hl x.
  destruct (is_block (block e)) eqn:Eb.
  { injection Hl as <-. rewrite list_elem_of_singleton. split; [intros ->; by constructor|].
    inversion 1; congruence. }
  destruct (w !! block e) as [d|] eqn:Ed; [|done].
  destruct (resolve_port_ok _ _ _ _ _ Hl) as [Hr Hx]. rewrite Hx. split.
  - intros (y & l' & Hy & Hl' & Hyx). eapply leaf_inside; eauto. by apply (IH _ _ Hl').
  - intros Hlf. inversion Hlf as [|? d' y ? _ Hd' Hy Hyx]; subst; [congruence|].
    assert (d' = d) as -> by congruence. destruct (Hr y Hy) as [l' Hl'].
    exists y, l'. split_and!; [done..|]. by apply (IH _ _ Hl').
Qed.

Lemma leaf_is_block inp e x : leaf inp e x -> is_block (block x) = true.
Proof. by induction 1. Qed.

(** ** Flattening collects the wires *)

(** The edges the two inner loops ask for. *)
Definition pairs (ss ds : list endpoint) : list edge :=
  mjoin (map (fun s => map (fun d => {| src := s; dst := d |}) ds) ss).

Lemma elem_of_pairs ss ds s d : {| src := s; dst := d |} ∈ pairs ss ds <-> s ∈ ss /\ d ∈ ds.
Proof.
  unfold pairs. rewrite list_elem_of_join. setoid_rewrite list_elem_of_fmap. split.
  - intros (l & Hl & s' & -> & Hs). apply list_elem_of_fmap in Hl as (d' & [= -> ->] & Hd). done.
  - intros [Hs Hd]. eexists. split; [|eauto]. apply list_elem_of_fmap. eauto.
Qed.

Abbreviation connected := (edges_ok input_signature output_signature).

(** What a step of flattening does: it adds edges, and keeps the flat graph well
    formed. *)
Definition adds (f : list edge -> res hier_error (list edge)) (P : edge -> Prop) : Prop :=
  forall sfg sfg', f sfg = Ok sfg' ->
    (connected sfg -> connected sfg') /\ forall e, e ∈ sfg' <-> e ∈ sfg \/ P e.

Lemma adds_iff f P Q : adds f P -> (forall e, P e <-> Q e) -> adds f Q.
Proof. intros Hf HPQ sfg sfg' H. destruct (Hf _ _ H) as [? He]. split; [done|]. intros e. by rewrite He, HPQ. Qed.

Lemma adds_each {A} (f : A -> list edge -> res hier_error (list edge)) (P : A -> edge -> Prop) l :
  (forall x, x ∈ l -> adds (f x) (P x)) -> adds (for_each f l) (fun e => exists x, x ∈ l /\ P x e).
Proof.
  induction l as [|x l IH]; intros Hf sfg sfg' H; cbn in H.
  { injection H as <-. split; [done|]. set_solver. }
  apply res_bind_ok in H as (s1 & H1 & H2). destruct (Hf x ltac:(constructor) _ _ H1) as [Hc1 He1].
  destruct (IH (fun y Hy => Hf y ltac:(by constructor)) _ _ H2) as [Hc2 He2]. split; [by auto|].
  intros e. rewrite He2, He1. setoid_rewrite elem_of_cons. naive_solver.
Qed.

Lemma adds_connect s d :
  adds (fun sfg => lift (GrFlowgraph.connect input_signature output_signature s d sfg))
    (fun e => e = {| src := s; dst := d |}).
Proof.
  intros sfg sfg'. destruct (GrFlowgraph.connect _ _ _ _ _) as [r|] eqn:E; [|done].
  cbn. intros [= <-]. split; [intros Hc; by eapply connect_edges_ok|].
  apply connect_ok in E as (_ & _ & ->). intros e. by rewrite elem_of_app, list_elem_of_singleton.
Qed.

Lemma adds_pairs ss ds :
  adds (connect_pairs input_signature output_signature ss ds) (fun e => e ∈ pairs ss ds).
Proof.
  eapply adds_iff.
  - apply adds_each. intros s _. apply adds_each. intros d _. apply adds_connect.
  - intros [s d]. rewrite elem_of_pairs. naive_solver.
Qed.

Lemma adds_edge fuel p :
  adds (flatten_edge input_signature output_signature is_block fuel w p)
    (fun e => leaf false (src p) (src e) /\ leaf true (dst p) (dst e)).
Proof.
  intros sfg sfg' (ss & Hs & H)%res_bind_ok. apply res_bind_ok in H as (ds & Hd & H).
  apply adds_pairs in H as [Hc He]. split; [done|]. intros [s d]. rewrite He, elem_of_pairs.
  by rewrite (resolve_endpoint_ok _ _ _ _ Hs), (resolve_endpoint_ok _ _ _ _ Hd).
Qed.

Lemma adds_flatten fuel d :
  adds (flatten_aux input_signature output_signature is_block fuel w d) (wires d).
Proof.
  revert d. induction fuel as [|fuel IH]; intros d sfg sfg' H; [done|]. cbn in H.
  apply res_bind_ok in H as (s1 & H1 & H). apply res_bind_ok in H as (u & _ & H2).
  eapply adds_each in H1 as [Hc1 He1]; [|intros p _; apply adds_edge].
  eapply (adds_each _ (fun b e => exists d', w !! b = Some d' /\ wires d' e)) in H2 as [Hc2 He2].
  2: { intros b _ s s' H. destruct (w !! b) as [d'|].
       - apply IH in H as [? He]. split; [done|]. intros e. rewrite He. naive_solver.
       - injection H as <-. split; [done|]. naive_solver. }
  split; [by auto|]. intros e. rewrite He2, He1. split.
  - intros [[?|(p & Hp & Hs & Hd)] | (b & Hb & d' & Hd' & Hw)]; [by left|right..].
    + destruct e. by eapply wire_here.
    + by eapply wire_inside.
  - intros [?|Hw]; [by left; left|]. inversion Hw; subst; naive_solver.
Qed.

(** ** What flattening asks for, and what stops it *)

(** The hierarchy is one: some rank goes down from a block to those it uses. *)
Context (rank : Z -> nat).
Definition hierarchy : Prop :=
  forall b d c, w !! b = Some d -> c ∈ used_blocks d -> (rank c < rank b)%nat.

(** What a port is wired to inside, in order. *)
Definition ports (d : hier_detail) (inp : bool) (p : Z) : list endpoint :=
  if inp then (d_inputs d).[p] else option_list (d_outputs d).[p].

(** The ports of ordinary blocks behind a port, in order and with repetitions. *)
Fixpoint leaves (fuel : nat) (inp : bool) (e : endpoint) : list endpoint :=
  match fuel with
  | O => []
  | S fuel =>
      if is_block (block e) then [e]
      else match w !! block e with
           | Some d => mjoin (map (leaves fuel inp) (ports d inp (port e)))
           | None => []
           end
  end.

(** The wires of the hierarchy under a block, in the order of the traversal. *)
Fixpoint wire_list (fuel : nat) (d : hier_detail) : list edge :=
  match fuel with
  | O => []
  | S k =>
      mjoin (map (fun p => pairs (leaves (S k) false (src p)) (leaves (S k) true (dst p))) (d_edges d)) ++
      mjoin (map (fun b => match w !! b with Some d' => wire_list k d' | None => [] end) (used_blocks d))
  end.

Lemma elem_of_ports d inp p x : x ∈ ports d inp p <-> wired d inp p x.
Proof.
  unfold ports, wired, aget. destruct (Z.ltb_spec p 0).
  - destruct inp; cbn; split; try (intros []%not_elem_of_nil); intros [? _]; lia.
  - destruct inp.
    + destruct (d_inputs d !! Z.to_nat p) as [endps|] eqn:E; cbn; [naive_solver|].
      split; [intros []%not_elem_of_nil|naive_solver].
    + destruct (d_outputs d !! Z.to_nat p) as [[y|]|] eqn:E; cbn; rewrite ?list_elem_of_singleton; [naive_solver|..];
        (split; [intros []%not_elem_of_nil|naive_solver]).
Qed.

Lemma elem_of_join_map {A B} (f : A -> list B) l y : y ∈ mjoin (map f l) <-> exists x, x ∈ l /\ y ∈ f x.
Proof.
  rewrite list_elem_of_join. split.
  - intros (k & Hy & (x & -> & Hx)%list_elem_of_fmap). eauto.
  - intros (x & Hx & Hy). exists (f x). split; [done|]. apply list_elem_of_fmap. eauto.
Qed.

Lemma leaves_leaf fuel inp e x : hierarchy -> (rank (block e) < fuel)%nat -> x ∈ leaves fuel inp e <-> leaf inp e x.
Proof.
  intros Hh. revert e. induction fuel as [|fuel IH]; intros e He; [lia|]. cbn.
  destruct (is_block (block e)) eqn:Eb.
  { rewrite list_elem_of_singleton. split; [intros ->; by constructor|]. inversion 1; congruence. }
  destruct (w !! block e) as [d|] eqn:Ed.
  2: { split; [intros []%not_elem_of_nil|inversion 1; congruence]. }
  rewrite elem_of_join_map. setoid_rewrite elem_of_ports. split.
  - intros (y & Hy & Hx). eapply leaf_inside; [done..|]. apply IH; [|done].
    pose proof (Hh _ _ _ Ed (wired_used _ _ _ _ Hy)). lia.
  - inversion 1 as [|? d' y ? _ Hd' Hy Hyx]; subst; [congruence|]. assert (d' = d) as -> by congruence.
    exists y. split; [done|]. apply IH; [|done]. pose proof (Hh _ _ _ Ed (wired_used _ _ _ _ Hy)). lia.
Qed.

Lemma edge_used p d : p ∈ d_edges d -> block (src p) ∈ used_blocks d /\ block (dst p) ∈ used_blocks d.
Proof. intros Hp. split; apply used_blocks_in; left; eauto. Qed.

Lemma wire_list_wires fuel b d e : hierarchy -> w !! b = Some d -> (rank b < fuel)%nat -> e ∈ wire_list fuel d <-> wires d e.
Proof.
  intros Hh. revert b d. induction fuel as [|k IH]; intros b d Hb Hf; [lia|]. cbn [wire_list].
  assert (forall c, c ∈ used_blocks d -> (rank c < k)%nat) as Hd by (intros c Hc; pose proof (Hh _ _ _ Hb Hc); lia).
  rewrite elem_of_app, !elem_of_join_map. split.
  - intros [(p & Hp & He)|(c & Hc & He)].
    + destruct e as [s t]. apply elem_of_pairs in He as [Hs Ht]. destruct (edge_used p d Hp) as [H1 H2].
      apply (wire_here d p s t Hp); (eapply leaves_leaf; [done| |done]); [specialize (Hd _ H1)|specialize (Hd _ H2)]; lia.
    + destruct (w !! c) as [d'|] eqn:Ec; [|by apply not_elem_of_nil in He]. apply IH with (b := c) in He; [|done|by apply Hd].
      by eapply wire_inside.
  - inversion 1 as [? p s t Hp Hs Ht|? c d' ? Hc Hd' Hw]; subst.
    + left. exists p. split; [done|]. apply elem_of_pairs. destruct (edge_used p d Hp) as [H1 H2].
      split; (apply leaves_leaf; [done| |done]); [specialize (Hd _ H1)|specialize (Hd _ H2)]; lia.
    + right. exists c. split; [done|]. rewrite Hd'. eapply IH; eauto.
Qed.

(** The details of the blocks under a block. *)
Definition uses (d d' : hier_detail) : Prop := exists b, b ∈ used_blocks d /\ w !! b = Some d'.
Abbreviation under := (rtc uses).

(** Endpoints named in a block, in edges or at its ports. *)
Definition mentions (d : hier_detail) (inp : bool) (x : endpoint) : Prop :=
  (exists p, p ∈ d_edges d /\ x = if inp then dst p else src p) \/ exists p, wired d inp p x.

Lemma mentions_used d inp x : mentions d inp x -> block x ∈ used_blocks d.
Proof. intros [(p & Hp%edge_used & ->)|(p & Hw)]; [destruct inp; apply Hp|by eapply wired_used]. Qed.

(** The fault in the hierarchy under [top] that an exception stands for. *)
Definition fault (top : hier_detail) (e : hier_error) : Prop :=
  match e with
  | input_not_connected => exists d, under top d /\ [] ∈ d_inputs d
  | output_not_connected => exists d, under top d /\ None ∈ d_outputs d
  | input_out_of_range => exists d x d', under top d /\ mentions d true x /\ is_block (block x) = false /\
      w !! block x = Some d' /\ ~ 0 <= port x < Z.of_nat (length (d_inputs d'))
  | output_out_of_range => exists d x d', under top d /\ mentions d false x /\ is_block (block x) = false /\
      w !! block x = Some d' /\ ~ 0 <= port x < Z.of_nat (length (d_outputs d'))
  | unable_to_resolve => exists d inp x, under top d /\ mentions d inp x /\ is_block (block x) = false /\ w !! block x = None
  | _ => False
  end.

Lemma in_range_spec {A} p (l : list A) : in_range p l = true <-> 0 <= p < Z.of_nat (length l).
Proof. unfold in_range. rewrite negb_true_iff, orb_false_iff, Z.ltb_ge, Z.leb_gt. done. Qed.

Section Faults.
Context (top : hier_detail) (Hh : hierarchy).

(** Resolving gives the ports behind, or a fault. *)
Definition resolves (r : res hier_error (list endpoint)) (l : list endpoint) : Prop :=
  match r with Ok l' => l' = l /\ l <> [] | Throw e => fault top e end.

Lemma resolve_each_resolves (rec : endpoint -> bool -> res hier_error (list endpoint)) (L : endpoint -> list endpoint) e endps inp :
  (forall y, y ∈ e :: endps -> resolves (rec y inp) (L y)) -> resolves (resolve_each rec (e :: endps) inp) (mjoin (map L (e :: endps))).
Proof.
  revert e. induction endps as [|e' endps IH]; intros e H; cbn [resolve_each].
  - pose proof (H e ltac:(constructor)) as He. unfold resolves in *. destruct (rec e inp) as [l|err]; [|done].
    destruct He as [-> Hne]. cbn. by rewrite !app_nil_r.
  - pose proof (H e ltac:(constructor)) as He. specialize (IH e' (fun y Hy => H y ltac:(by constructor))).
    cbn [resolve_each] in IH. rewrite map_cons, join_cons. unfold resolves in *. destruct (rec e inp) as [l|err]; [|done].
    rewrite ok_bind. destruct (_ ← rec e' inp; _) as [l'|err]; [|done]. destruct He as [-> Hne], IH as [-> _]. cbn.
    split; [done|]. by destruct (L e).
Qed.

Lemma resolve_faults fuel d inp x : under top d -> mentions d inp x -> (rank (block x) < fuel)%nat ->
  resolves (resolve_endpoint is_block fuel w x inp) (leaves fuel inp x).
Proof.
  revert d x. induction fuel as [|fuel IH]; intros d x Hu Hm Hf; [lia|]. cbn.
  destruct (is_block (block x)) eqn:Eb; [done|]. destruct (w !! block x) as [d'|] eqn:Ed.
  2: { cbn. exists d, inp, x. done. }
  assert (under top d') as Hu' by (eapply rtc_r; [done|]; exists (block x); split; [by eapply mentions_used|done]).
  assert (forall y, y ∈ ports d' inp (port x) -> resolves (resolve_endpoint is_block fuel w y inp) (leaves fuel inp y)) as Hp.
  { intros y Hy%elem_of_ports. apply (IH d'); [done|by right; eauto|]. pose proof (Hh _ _ _ Ed (wired_used _ _ _ _ Hy)). lia. }
  unfold resolve_port, ports in *. destruct inp.
  - destruct (in_range (port x) (d_inputs d')) eqn:E; cbn [negb].
    2: { cbn. exists d, x, d'. split_and!; [done..|]. rewrite <- in_range_spec. by rewrite E. }
    apply aget_in_range in E as [_ E]. destruct (d_inputs d').[port x] as [|e0 endps].
    { cbn. exists d'. split; [done|]. by eapply list_elem_of_lookup_2. }
    pose proof (resolve_each_resolves (resolve_endpoint is_block fuel w) (leaves fuel true) e0 endps true Hp) as H.
    unfold resolves in H. destruct (resolve_each _ _ _) as [l|err]; [|done]. destruct H as [-> Hne]. rewrite ok_bind.
    by destruct (mjoin _).
  - destruct (in_range (port x) (d_outputs d')) eqn:E; cbn [negb].
    2: { cbn. exists d, x, d'. split_and!; [done..|]. rewrite <- in_range_spec. by rewrite E. }
    apply aget_in_range in E as [_ E]. destruct (d_outputs d').[port x] as [e0|].
    2: { cbn. exists d'. split; [done|]. by eapply list_elem_of_lookup_2. }
    specialize (Hp e0 ltac:(constructor)). cbn. unfold resolves in Hp. destruct (resolve_endpoint _ _ _ _ _) as [l|err]; [|done].
    destruct Hp as [-> Hne]. rewrite app_nil_r. cbn. by destruct (leaves _ _ _).
Qed.

(** A step of flattening asks for the edges [L]: it adds them, or stops at the
    first that the flat graph refuses, or at a fault. *)
Definition asks (f : list edge -> res hier_error (list edge)) (L : list edge) : Prop :=
  forall sfg, match f sfg with
  | Ok sfg' => sfg' = sfg ++ L
  | Throw (flow fe) => exists l e l', L = l ++ e :: l' /\
      GrFlowgraph.connect input_signature output_signature (src e) (dst e) (sfg ++ l) = Throw fe
  | Throw err => fault top err
  end.

Lemma asks_fault f e : fault top e -> (forall sfg, f sfg = Throw e) -> forall L, asks f L.
Proof. intros He Hf L sfg. rewrite Hf. by destruct e. Qed.

Lemma asks_nil : asks Ok [].
Proof. intros sfg. cbn. by rewrite app_nil_r. Qed.

Lemma asks_app f g L1 L2 : asks f L1 -> asks g L2 -> asks (fun sfg => sfg ← f sfg; g sfg) (L1 ++ L2).
Proof.
  intros Hf Hg sfg. specialize (Hf sfg). destruct (f sfg) as [s1|err].
  - subst s1. rewrite ok_bind. specialize (Hg (sfg ++ L1)). destruct (g _) as [s2|err]; [by rewrite Hg, app_assoc|].
    destruct err; try done. destruct Hg as (l & ed & l' & -> & H). exists (L1 ++ l), ed, l'. split; [by rewrite app_assoc|by rewrite app_assoc].
  - cbn. destruct err; try done. destruct Hf as (l & ed & l' & -> & H). exists l, ed, (l' ++ L2). split; [by rewrite <- app_assoc|done].
Qed.

Lemma asks_each {A} (f : A -> list edge -> res hier_error (list edge)) (L : A -> list edge) l :
  (forall x, x ∈ l -> asks (f x) (L x)) -> asks (for_each f l) (mjoin (map L l)).
Proof.
  induction l as [|x l IH]; intros Hf; [apply asks_nil|]. rewrite map_cons, join_cons.
  apply (asks_app (f x) (for_each f l)); [apply Hf; constructor|]. apply IH. intros y Hy. apply Hf. by constructor.
Qed.

Lemma asks_connect s d :
  asks (fun sfg => lift (GrFlowgraph.connect input_signature output_signature s d sfg)) [{| src := s; dst := d |}].
Proof.
  intros sfg. destruct (GrFlowgraph.connect _ _ _ _ _) as [r|fe] eqn:E; cbn.
  - by apply connect_ok in E as (_ & _ & ->).
  - exists [], {| src := s; dst := d |}, []. by rewrite app_nil_r.
Qed.

Lemma asks_pairs ss ds : asks (connect_pairs input_signature output_signature ss ds) (pairs ss ds).
Proof.
  unfold pairs, connect_pairs. apply asks_each. intros s _.
  assert (map (fun d => {| src := s; dst := d |}) ds = mjoin (map (fun d => [{| src := s; dst := d |}]) ds)) as ->.
  { clear. induction ds as [|d ds IH]; [done|]. rewrite !map_cons, join_cons, IH. done. }
  apply asks_each. intros d _. apply asks_connect.
Qed.

Lemma asks_edge fuel d p : under top d -> p ∈ d_edges d -> (forall c, c ∈ used_blocks d -> (rank c < fuel)%nat) ->
  asks (flatten_edge input_signature output_signature is_block fuel w p) (pairs (leaves fuel false (src p)) (leaves fuel true (dst p))).
Proof.
  intros Hu Hp Hr. destruct (edge_used p d Hp) as [H1 H2].
  pose proof (resolve_faults fuel d false (src p) Hu ltac:(left; eauto) (Hr _ H1)) as Hs.
  pose proof (resolve_faults fuel d true (dst p) Hu ltac:(left; eauto) (Hr _ H2)) as Hd.
  unfold flatten_edge, resolves in *. destruct (resolve_endpoint _ _ _ (src p) _) as [ss|e].
  2: { by apply (asks_fault _ e). }
  destruct Hs as [-> _]. destruct (resolve_endpoint _ _ _ (dst p) _) as [ds|e].
  2: { by apply (asks_fault _ e). }
  destruct Hd as [-> _]. intros sfg. rewrite !ok_bind. apply asks_pairs.
Qed.

Lemma asks_unconnected d : under top d -> asks (fun sfg => _ ← first_unconnected d; Ok sfg) [].
Proof.
  intros Hu. unfold first_unconnected. destruct (existsb _ (d_inputs d)) eqn:E.
  { apply (asks_fault _ input_not_connected); [|done]. exists d. split; [done|].
    apply existsb_exists in E as (l & Hl%list_elem_of_In & ->%bool_decide_eq_true). done. }
  destruct (existsb _ (d_outputs d)) eqn:E2; [|apply asks_nil].
  apply (asks_fault _ output_not_connected); [|done]. exists d. split; [done|].
  apply existsb_exists in E2 as (l & Hl%list_elem_of_In & ->%bool_decide_eq_true). done.
Qed.

Lemma asks_flatten fuel b d : under top d -> w !! b = Some d -> (rank b < fuel)%nat ->
  asks (flatten_aux input_signature output_signature is_block fuel w d) (wire_list fuel d).
Proof.
  revert b d. induction fuel as [|k IH]; intros b d Hu Hb Hf; [lia|].
  assert (forall c, c ∈ used_blocks d -> (rank c < k)%nat) as Hd by (intros c Hc; pose proof (Hh _ _ _ Hb Hc); lia).
  cbn [wire_list flatten_aux]. apply asks_app.
  { apply asks_each. intros p Hp. apply (asks_edge (S k) d); [done..|]. intros c Hc. specialize (Hd c Hc). lia. }
  intros sfg. pose proof (asks_app _ (for_each (fun b sfg => match w !! b with
    | Some d => flatten_aux input_signature output_signature is_block k w d sfg | None => Ok sfg end) (used_blocks d)) []
    (mjoin (map (fun b => match w !! b with Some d' => wire_list k d' | None => [] end) (used_blocks d)))
    (asks_unconnected d Hu)) as H. specialize (H ltac:(apply asks_each; intros c Hc; destruct (w !! c) as [d'|] eqn:Ec;
      [apply (IH c); [eapply rtc_r; [done|by exists c]|done|by apply Hd]|apply asks_nil]) sfg).
  cbn in H. destruct (first_unconnected d) as [[]|e]; exact H.
Qed.
End Faults.

(** A hierarchy that is flattened has all ports connected inside. *)
Lemma flatten_connected fuel d d' sfg sfg' : under d d' ->
  flatten_aux input_signature output_signature is_block fuel w d sfg = Ok sfg' -> [] ∉ d_inputs d' /\ None ∉ d_outputs d'.
Proof.
  intros Hu. revert fuel sfg sfg'. induction Hu as [d|d d1 d2 (b & Hb & Hd1) Hu IH]; intros fuel sfg sfg'; (destruct fuel as [|k]; [done|]);
    cbn [flatten_aux]; intros (s1 & _ & H)%res_bind_ok; apply res_bind_ok in H as (u & Hf & H).
  - unfold first_unconnected in Hf. destruct (existsb _ (d_inputs d)) eqn:E1; [done|]. destruct (existsb _ (d_outputs d)) eqn:E2; [done|].
    split; intros Hin.
    + apply not_true_iff_false in E1. apply E1, existsb_exists. exists []. split; [by apply list_elem_of_In|done].
    + apply not_true_iff_false in E2. apply E2, existsb_exists. exists None. split; [by apply list_elem_of_In|done].
  - clear Hf. revert s1 sfg' H. induction (used_blocks d) as [|c l IHl]; [by apply not_elem_of_nil in Hb|].
    cbn [for_each]. intros s1 sfg' (s2 & H1 & H2)%res_bind_ok. apply elem_of_cons in Hb as [<- | Hb]; [|by eapply IHl].
    rewrite Hd1 in H1. by eapply IH.
Qed.

Lemma flatten_sound d fuel edges :
  flatten input_signature output_signature is_block fuel w d = Ok edges ->
  (forall e, e ∈ edges <-> wires d e) /\ edges_ok input_signature output_signature edges /\
  forall e, e ∈ edges -> is_block (block (src e)) = true /\ is_block (block (dst e)) = true.
Proof.
  intros E. apply adds_flatten in E as [Hc He]. assert (forall e, e ∈ edges <-> wires d e) as Hw.
  { intros e. rewrite He. set_solver. }
  split; [done|]. split; [apply Hc; split; [by constructor|by apply NoDup_nil]|].
  intros e Hin. apply Hw in Hin. clear -Hin. induction Hin as [d p s t Hp Hs Ht|]; [|done].
  split; by eapply leaf_is_block.
Qed.

(** C13. Flattening a hierarchy of blocks ends.  [wire_list] lists the wires that the
    hierarchy describes from an output of an ordinary block to an input of one,
    through any number of levels, in the order they are found.  If flattening
    succeeds, the flat flow graph is that list; it is well formed, its blocks are
    ordinary blocks, and no block of the hierarchy has a port that is not
    connected inside.  If it throws, either the flat flow graph of the wires before
    refuses the next wire of the list (a port that is not there, another item
    size, an input that has a writer), or the exception names a fault of this
    hierarchy: a port not connected inside, a port number that a hierarchical block
    does not have, or a block that is of neither kind. *)
Theorem flatten_spec me d fuel : hierarchy -> w !! me = Some d -> (rank me < fuel)%nat ->
  (forall e, e ∈ wire_list fuel d <-> wires d e) /\
  match flatten input_signature output_signature is_block fuel w d with
  | Ok edges =>
      edges = wire_list fuel d /\ edges_ok input_signature output_signature edges /\
      (forall e, e ∈ edges -> is_block (block (src e)) = true /\ is_block (block (dst e)) = true) /\
      forall d', rtc uses d d' -> [] ∉ d_inputs d' /\ None ∉ d_outputs d'
  | Throw (flow fe) => exists l e l', wire_list fuel d = l ++ e :: l' /\
      GrFlowgraph.connect input_signature output_signature (src e) (dst e) l = Throw fe
  | Throw e => fault d e
  end.
Proof.
  intros Hh Hd Hf. split; [intros e; by eapply wire_list_wires|].
  pose proof (asks_flatten d Hh fuel me d ltac:(done) Hd Hf []) as H. fold (flatten input_signature output_signature is_block fuel w d) in H.
  destruct (flatten _ _ _ _ _ _) as [edges|e] eqn:E; [|by destruct e].
  cbn in H. subst edges. split; [done|]. pose proof (flatten_sound _ _ _ E) as (_ & He & Hb). split; [done|]. split; [done|].
  intros d' Hd'. by eapply flatten_connected.
Qed.
End Spec.

(** ** Connecting and disconnecting *)

(** The part of a detail that says how it is wired. *)
Definition wiring (d : hier_detail) : list edge * list Z * list (list endpoint) * list (option endpoint) :=
  (d_edges d, d_blocks d, d_inputs d, d_outputs d).

Lemma with_parent_wiring d p : wiring (with_parent d p) = wiring d.
Proof. done. Qed.

(** [adopt] changes parents only, and not its owner's. *)
Lemma adopt_spec me b p w w' r : adopt me b p w = (w', r) ->
  r = Ok tt /\ w' !! me = w !! me /\ forall c, wiring <$> w' !! c = wiring <$> w !! c.
Proof.
  unfold adopt, is_hier, mbind, HM_bind. destruct (Z.eqb_spec b me) as [->|Hne].
  { rewrite andb_false_r. by intros [= <- <-]. }
  rewrite andb_true_r. case_bool_decide as Hb; [|by intros [= <- <-]].
  destruct Hb as [d Hd]. unfold set_parent, get_detail, put_detail, mbind, HM_bind. rewrite Hd.
  intros [= <- <-]. split; [done|]. split; [by rewrite lookup_insert_ne|].
  intros c. destruct (decide (c = b)) as [->|]; [|by rewrite lookup_insert_ne].
  by rewrite lookup_insert_eq, Hd.
Qed.

(** Details wired alike. *)
Definition alike (d d' : hier_detail) : Prop := wiring d = wiring d'.

#[export] Instance alike_equivalence : Equivalence alike.
Proof. unfold alike. split; [done|by intros d d' ->|by intros d1 d2 d3 -> ->]. Qed.

(** The wiring of all blocks, the part of the state that flattening reads. *)
Record same_wiring (w w' : hiers) : Prop := {
  wiring_at : forall c, wiring <$> w !! c = wiring <$> w' !! c
}.

#[export] Instance same_wiring_equivalence : Equivalence same_wiring.
Proof.
  split; [by intros w|by intros w w' [H]|]. intros w1 w2 w3 [H1] [H2]. split. intros c. by rewrite H1.
Qed.

#[export] Instance insert_wiring_proper b :
  Proper (alike ==> same_wiring ==> same_wiring) (insert b).
Proof.
  intros d d' Hd w w' [Hw]. split. intros c. destruct (decide (c = b)) as [->|].
  - rewrite !lookup_insert_eq. cbn. by rewrite Hd.
  - rewrite !lookup_insert_ne by done. apply Hw.
Qed.

Lemma adopt_wiring me b p w : same_wiring (adopt me b p w).1 w.
Proof. destruct (adopt me b p w) as [w' r] eqn:E. split. intros c. by apply adopt_spec in E as (_ & _ & H). Qed.

Lemma adopt_me me b p w : (adopt me b p w).1 !! me = w !! me.
Proof. destruct (adopt me b p w) as [w' r] eqn:E. by apply adopt_spec in E as (_ & H & _). Qed.

Lemma adopt_ok me b p w {A} (f : () -> HM A) :
  mbind f (adopt me b p) w = f tt (adopt me b p w).1.
Proof.
  unfold mbind, HM_bind. destruct (adopt me b p w) as [w' r] eqn:E.
  by apply adopt_spec in E as (-> & _ & _).
Qed.

Section Operations.
Context (input_signature output_signature : Z -> io_signature).
Abbreviation connect := (connect input_signature output_signature).
Abbreviation connect_block := (connect_block input_signature output_signature).

Lemma erase_first_snoc {A} `{EqDecision A} (x : A) l : x ∉ l -> erase_first x (l ++ [x]) = l.
Proof.
  induction l as [|y l IH]; cbn; [by rewrite decide_True|]. intros Hx.
  rewrite decide_False by set_solver. f_equal. apply IH. set_solver.
Qed.

Lemma aset_aset {A} (l : list A) i x y : aset (aset l i x) i y = aset l i y.
Proof. unfold aset. case_if; [done|]. apply list_insert_insert_eq. Qed.

Lemma aset_aget {A} `{Default A} (l : list A) i : in_range i l = true -> aset l i l.[i] = l.
Proof.
  intros Hr. apply aget_in_range in Hr as [Hi Hl]. unfold aset. case_if; [lia|]. by apply list_insert_id.
Qed.

Lemma in_range_aset {A} (l : list A) i j x : in_range i (aset l j x) = in_range i l.
Proof. unfold in_range. by rewrite length_aset. Qed.


(** Changing the detail of a block, and changing its wiring back. *)
Lemma wiring_restored me d d' w : w !! me = Some d -> wiring d' = wiring d ->
  same_wiring (<[me := d']> w) w.
Proof. intros Hd Hw. rewrite <- (insert_id w me d Hd) at 2. by apply insert_wiring_proper. Qed.

Lemma get_detail_bind {A} b d w (f : hier_detail -> HM A) :
  w !! b = Some d -> mbind f (get_detail b) w = f d w.
Proof. intros Hd. unfold mbind, HM_bind, get_detail. by rewrite Hd. Qed.

Lemma get_detail_none {A} b w (f : hier_detail -> HM A) :
  w !! b = None -> mbind f (get_detail b) w = (w, Throw null_pointer).
Proof. intros Hd. unfold mbind, HM_bind, get_detail. by rewrite Hd. Qed.

(** Three pairs of operations on one detail, each undoing the other. *)
Lemma disconnect_input_connect me p q b w w' :
  connect_input me p q b w = (w', Ok tt) ->
  exists this this', w !! me = Some this /\ w' = <[me := this']> w /\
    forall w2, w2 !! me = Some this' -> exists this'',
      disconnect_input me p q b w2 = (<[me := this'']> w2, Ok tt) /\ wiring this'' = wiring this.
Proof.
  unfold connect_input. destruct (w !! me) as [this|] eqn:E; [|by rewrite get_detail_none].
  rewrite (get_detail_bind _ _ _ _ E). destruct (in_range p (d_inputs this)) eqn:Er; [|done].
  cbn [negb]. case_bool_decide as Hin; [done|]. intros [= <-]. do 2 eexists. split_and!; [done..|].
  intros w2 H2. unfold disconnect_input. rewrite (get_detail_bind _ _ _ _ H2). cbn [d_inputs with_inputs].
  rewrite in_range_aset, Er. pose proof (aget_in_range _ _ Er) as [Hp Hl%lookup_lt_Some].
  rewrite aget_aset_eq by lia. rewrite bool_decide_true by set_solver. cbn [negb].
  eexists. split; [done|]. rewrite aset_aset, erase_first_snoc by done.
  rewrite aset_aget by done. by destruct this.
Qed.

Lemma disconnect_output_connect me p q b w w' :
  connect_output me p q b w = (w', Ok tt) ->
  exists this this', w !! me = Some this /\ w' = <[me := this']> w /\
    forall w2, w2 !! me = Some this' -> exists this'',
      disconnect_output me p q b w2 = (<[me := this'']> w2, Ok tt) /\ wiring this'' = wiring this.
Proof.
  unfold connect_output. destruct (w !! me) as [this|] eqn:E; [|by rewrite get_detail_none].
  rewrite (get_detail_bind _ _ _ _ E). destruct (in_range p (d_outputs this)) eqn:Er; [|done].
  cbn [negb]. destruct (d_outputs this).[p] as [e|] eqn:En; [done|].
  intros [= <-]. do 2 eexists. split_and!; [done..|].
  intros w2 H2. unfold disconnect_output. rewrite (get_detail_bind _ _ _ _ H2). cbn [d_outputs with_outputs].
  rewrite in_range_aset, Er. pose proof (aget_in_range _ _ Er) as [Hp Hl%lookup_lt_Some].
  rewrite aget_aset_eq by lia. rewrite bool_decide_true by done. cbn [negb].
  eexists. split; [done|]. rewrite aset_aset, <- En, aset_aget by done. by destruct this.
Qed.

(** Disconnecting what was just connected leaves all wiring as it was, in
    whatever block, through ports or not. *)
Theorem hier_connect_disconnect me s d w w' :
  connect me s d w = (w', Ok tt) ->
  (disconnect me s d w').2 = Ok tt /\ same_wiring (disconnect me s d w').1 w.
Proof.
  unfold GrHierBlock.connect, disconnect. destruct (block s =? block d); [done|]. rewrite !adopt_ok.
  set (wa := (adopt me (block d) (Some me) _).1).
  assert (wa !! me = w !! me) as Hme by (subst wa; by rewrite !adopt_me).
  assert (same_wiring wa w) as Hwa by (subst wa; by rewrite !adopt_wiring).
  set (wb := (adopt me (block d) None _).1).
  assert (wb !! me = w' !! me) as Hme' by (subst wb; by rewrite !adopt_me).
  assert (same_wiring wb w') as Hwb by (subst wb; by rewrite !adopt_wiring).
  clearbody wa wb.
  assert (forall this this' this'', wa !! me = Some this -> w' = <[me := this']> wa ->
    wiring this'' = wiring this -> same_wiring (<[me := this'']> wb) w) as Hback.
  { intros this this' this'' E -> H. rewrite Hwb, insert_insert_eq, <- Hwa. by eapply wiring_restored. }
  destruct (block s =? me) eqn:Es; [|destruct (block d =? me) eqn:Ed].
  - destruct (port_beyond _ _); [done|]. intros (this & this' & E & Hw & H2)%disconnect_input_connect.
    destruct (H2 wb) as (this'' & -> & H); [by rewrite Hme', Hw, lookup_insert_eq|]. split; [done|]. by eapply Hback.
  - destruct (port_beyond _ _); [done|]. intros (this & this' & E & Hw & H2)%disconnect_output_connect.
    destruct (H2 wb) as (this'' & -> & H); [by rewrite Hme', Hw, lookup_insert_eq|]. split; [done|]. by eapply Hback.
  - destruct (wa !! me) as [this|] eqn:E; [|by rewrite get_detail_none].
    rewrite (get_detail_bind _ _ _ _ E).
    destruct (GrFlowgraph.connect _ _ s d (d_edges this)) as [es|] eqn:Ec; [|done]. intros [= Hw].
    rewrite (get_detail_bind me (with_edges this es)) by (by rewrite Hme', <- Hw, lookup_insert_eq).
    cbn [d_edges with_edges].
    assert (GrFlowgraph.disconnect s d es = Ok (d_edges this)) as ->.
    { apply connect_ok in Ec as (_ & Hu & ->). apply disconnect_ok. exists (d_edges this), []. split_and!; [done| |].
      - intros Hin. apply Hu. apply list_elem_of_fmap. by exists {| src := s; dst := d |}.
      - by rewrite app_nil_r. }
    split; [done|]. eapply (Hback this); [done|by symmetry|]. by destruct this.
Qed.

(** ** The hierarchy stays well formed *)

(** What holds of the detail of block [b]: its flow graph is well formed and does
    not contain the block itself, nor an edge from a block to itself; no port
    is wired to the same place twice, and no block is there twice. *)
Record detail_ok (b : Z) (d : hier_detail) : Prop := {
  d_edges_ok : edges_ok input_signature output_signature (d_edges d);
  d_edges_inside : Forall (fun p => block (src p) <> b /\ block (dst p) <> b /\ block (src p) <> block (dst p)) (d_edges d);
  d_blocks_ok : NoDup (d_blocks d);
  d_singles_ok : Forall (fun c => max_streams (input_signature c) = 0 /\ max_streams (output_signature c) = 0) (d_blocks d);
  d_inputs_ok : Forall NoDup (d_inputs d)
}.

Definition hier_ok (w : hiers) : Prop := forall b d, w !! b = Some d -> detail_ok b d.

#[local] Instance detail_ok_proper b : Proper (alike ==> iff) (detail_ok b).
Proof.
  assert (forall d d', alike d d' -> detail_ok b d -> detail_ok b d') as H.
  { intros [] [] [= <- <- <- <-] []. by split. }
  intros d d' Hd. split; [by apply H|]. by apply H.
Qed.

#[local] Instance hier_ok_proper : Proper (same_wiring ==> iff) hier_ok.
Proof.
  assert (forall w w', same_wiring w w' -> hier_ok w -> hier_ok w') as H.
  { intros w w' [Hw] Hok b d Hd. specialize (Hw b). rewrite Hd in Hw.
    destruct (w !! b) as [d'|] eqn:E; [|done]. injection Hw as H1 H2 H3 H4.
    apply (detail_ok_proper b d' d); [unfold alike, wiring; congruence|]. by apply Hok. }
  intros w w' Hw. split; [by apply H|]. apply H. by symmetry.
Qed.

Lemma hier_ok_insert w b d : hier_ok w -> detail_ok b d -> hier_ok (<[b := d]> w).
Proof. intros Hw Hd b' d' H. apply lookup_insert_Some in H as [[<- <-]|[_ H]]; [done|by apply Hw]. Qed.

(** Keeping the invariant, whether the operation throws or not. *)
Definition keeps {A} (m : HM A) : Prop := forall w, hier_ok w -> hier_ok (m w).1.

Lemma keeps_throw {A} e : keeps (throw e : HM A).
Proof. by intros w Hw. Qed.
Lemma keeps_bind {A B} (m : HM A) (f : A -> HM B) : keeps m -> (forall a, keeps (f a)) -> keeps (a ← m; f a).
Proof.
  intros Hm Hf w Hw. specialize (Hm w Hw). unfold mbind, HM_bind. destruct (m w) as [w' [a|e]]; [|done]. by apply Hf.
Qed.
Lemma keeps_adopt me b p : keeps (adopt me b p).
Proof. intros w Hw. by rewrite adopt_wiring. Qed.
Lemma keeps_get me (f : hier_detail -> HM ()) :
  (forall d w, hier_ok w -> w !! me = Some d -> detail_ok me d -> hier_ok (f d w).1) ->
  keeps (d ← get_detail me; f d).
Proof.
  intros Hf w Hw. destruct (w !! me) as [d|] eqn:E; [|by rewrite get_detail_none].
  rewrite (get_detail_bind _ _ _ _ E). apply Hf; [done..|by apply Hw].
Qed.
Lemma keeps_put me d w : hier_ok w -> detail_ok me d -> hier_ok (put_detail me d w).1.
Proof. apply hier_ok_insert. Qed.
Lemma keeps_set_parent b p : keeps (set_parent b p).
Proof. apply keeps_get. intros d w Hw Hd [] . apply keeps_put; [done|]. by split. Qed.

Lemma erase_first_sublist {A} `{EqDecision A} (x : A) l : sublist (erase_first x l) l.
Proof. induction l as [|y l IH]; cbn; [done|]. destruct (decide _); by constructor. Qed.

Lemma NoDup_snoc {A} (x : A) l : NoDup l -> x ∉ l -> NoDup (l ++ [x]).
Proof. intros Hl Hx. apply NoDup_app. split_and!; [done|set_solver|apply NoDup_singleton]. Qed.

Lemma NoDup_erase {A} `{EqDecision A} (x : A) l : NoDup l -> NoDup (erase_first x l).
Proof. intros Hl. eapply sublist_NoDup; [exact Hl|apply erase_first_sublist]. Qed.

Lemma Forall_erase {A} `{EqDecision A} (P : A -> Prop) x l : Forall P l -> Forall P (erase_first x l).
Proof. induction 1; cbn; [done|]. destruct (decide _); [done|by constructor]. Qed.

Lemma keeps_connect me s d : keeps (connect me s d).
Proof.
  unfold GrHierBlock.connect. destruct (Z.eqb_spec (block s) (block d)) as [|Hsd]; [apply keeps_throw|].
  apply keeps_bind; [apply keeps_adopt|intros _]. apply keeps_bind; [apply keeps_adopt|intros _].
  destruct (Z.eqb_spec (block s) me) as [|Hs]; [|destruct (Z.eqb_spec (block d) me) as [|Hd]].
  - destruct (port_beyond _ _); [apply keeps_throw|]. apply keeps_get. intros this w Hw _ [].
    destruct (in_range _ _) eqn:Er; [|done]. cbn [negb]. case_bool_decide as Hin; [done|]. apply keeps_put; [done|].
    split; cbn; try done. apply Forall_aset; [done|]. apply NoDup_snoc; [|done].
    apply aget_Forall_dflt; [done|apply NoDup_nil_2].
  - destruct (port_beyond _ _); [apply keeps_throw|]. apply keeps_get. intros this w Hw _ [].
    destruct (in_range _ _) eqn:Er; [|done]. cbn [negb]. destruct (d_outputs this).[_]; [done|].
    apply keeps_put; [done|]. by split.
  - apply keeps_get. intros this w Hw _ [He Hi Hb Hss Hin]. unfold mbind at 1, HM_bind at 1, of_res at 1.
    destruct (GrFlowgraph.connect _ _ _ _ _) as [es|] eqn:E; [|done]. cbn. apply keeps_put; [done|].
    split; cbn; try done; [by eapply connect_edges_ok|].
    apply connect_ok in E as (_ & _ & ->). apply Forall_app. split; [done|]. by apply Forall_singleton.
Qed.

Lemma keeps_disconnect me s d : keeps (disconnect me s d).
Proof.
  unfold disconnect. destruct (block s =? block d); [apply keeps_throw|].
  apply keeps_bind; [apply keeps_adopt|intros _]. apply keeps_bind; [apply keeps_adopt|intros _].
  destruct (block s =? me); [|destruct (block d =? me)].
  - apply keeps_get. intros this w Hw _ []. destruct (in_range _ _); [|done]. cbn [negb].
    case_bool_decide as Hin; [|done]. apply keeps_put; [done|]. split; cbn; try done.
    apply Forall_aset; [done|]. apply NoDup_erase. apply aget_Forall_dflt; [done|apply NoDup_nil_2].
  - apply keeps_get. intros this w Hw _ []. destruct (in_range _ _); [|done]. cbn [negb].
    case_bool_decide as Hin; [|done]. apply keeps_put; [done|]. by split.
  - apply keeps_get. intros this w Hw _ [He Hi Hb Hss Hin]. unfold mbind at 1, HM_bind at 1, of_res at 1.
    destruct (GrFlowgraph.disconnect _ _ _) as [es|] eqn:E; [|done]. cbn. apply keeps_put; [done|].
    split; cbn; try done; [by eapply disconnect_edges_ok|].
    apply disconnect_ok in E as (l1 & l2 & He' & _ & ->). rewrite He', Forall_app, Forall_cons in Hi.
    apply Forall_app. tauto.
Qed.

Lemma keeps_connect_block me b : keeps (connect_block me b).
Proof.
  unfold GrHierBlock.connect_block. apply keeps_get. intros this w Hw Hd _.
  case_bool_decide as Hb; [done|]. destruct (Z.eqb_spec (max_streams (input_signature b)) 0); [|done].
  destruct (Z.eqb_spec (max_streams (output_signature b)) 0); [|done]. cbn [negb orb].
  rewrite adopt_ok. rewrite (get_detail_bind me this) by (by rewrite adopt_me).
  apply keeps_put; [by rewrite adopt_wiring|]. destruct (Hw _ _ Hd) as [He Hi Hbs Hss Hin]. split; cbn; try done.
  - by apply NoDup_snoc.
  - apply Forall_app. split; [done|]. by apply Forall_singleton.
Qed.

Lemma keeps_disconnect_each me edges : keeps (disconnect_each me edges).
Proof.
  induction edges as [|p edges IH]; [by intros w Hw|]. apply keeps_bind; [apply keeps_disconnect|done].
Qed.

Lemma keeps_disconnect_block me b : keeps (disconnect_block me b).
Proof.
  unfold disconnect_block. apply keeps_get. intros this w Hw _ [He Hi Hb Hss Hin]. case_bool_decide.
  - eapply keeps_bind; [| |done]; [|intros _; destruct (negb _); [apply keeps_set_parent|by intros ? ?]].
    intros w' Hw'. apply keeps_put; [done|]. split; cbn; try done; [by apply NoDup_erase|by apply Forall_erase].
  - destruct (base.filter _ _); [done|]. by apply keeps_disconnect_each.
Qed.

(** What a caller may ask of the block [me]. *)
Inductive hier_request :=
| Connect_block (me b : Z)
| Connect (me : Z) (s d : endpoint)
| Disconnect_block (me b : Z)
| Disconnect (me : Z) (s d : endpoint)
| Disconnect_all (me : Z).

Definition hier_serve (w : hiers) (r : hier_request) : hiers :=
  match r with
  | Connect_block me b => connect_block me b w
  | Connect me s d => connect me s d w
  | Disconnect_block me b => disconnect_block me b w
  | Disconnect me s d => disconnect me s d w
  | Disconnect_all me => disconnect_all me w
  end.1.

(** Whatever is connected and disconnected in whatever hierarchical blocks, in
    any order and with whatever exceptions, every block keeps a well formed
    flow graph that contains neither the block itself nor a loop of one edge, its
    blocks without ports are there once, and no port is wired twice to the same
    place. *)
Theorem hierarchy_stays_well_formed w reqs : hier_ok w -> hier_ok (foldl hier_serve w reqs).
Proof.
  revert w. induction reqs as [|r reqs IH]; intros w Hw; [done|]. apply IH. destruct r; cbn.
  - by apply keeps_connect_block.
  - by apply keeps_connect.
  - by apply keeps_disconnect_block.
  - by apply keeps_disconnect.
  - revert w Hw. apply keeps_get. intros d w Hw _ _. apply keeps_put; [done|].
    split; cbn; try constructor; first [done|constructor].
Qed.
End Operations.

(** ** Parents and locking *)

(** A block without a parent that is not a top block calls itself for ever. *)
Lemma lock_orphan is_top w me d fuel : w !! me = Some d -> d_parent_detail d = None -> is_top me = false ->
  lock_target is_top fuel w me = Throw stack_overflow.
Proof. intros Hd Hp Ht. induction fuel as [|fuel IH]; [done|]. cbn. by rewrite Hd, Hp, Ht. Qed.

(** Where every block but the top has a parent, one level up, [lock] gets to the top. *)
Theorem lock_reaches_top is_top w (depth : Z -> nat) me :
  (forall b, is_Some (w !! b) -> is_top b = false ->
     exists d p, w !! b = Some d /\ d_parent_detail d = Some p /\ is_Some (w !! p) /\ (depth p < depth b)%nat) ->
  (forall b d, w !! b = Some d -> is_top b = true -> d_parent_detail d = None) ->
  is_Some (w !! me) ->
  exists top, is_top top = true /\ lock_target is_top (S (depth me)) w me = Ok top.
Proof.
  intros Hup Htop. assert (forall n me, is_Some (w !! me) -> (depth me < n)%nat ->
    exists top, is_top top = true /\ lock_target is_top n w me = Ok top) as H.
  { induction n as [|n IH]; intros b Hb Hn; [lia|]. cbn. destruct (is_top b) eqn:Et.
    - destruct Hb as [d Hd]. rewrite Hd, (Htop b d Hd Et). eauto.
    - destruct (Hup b Hb Et) as (d & p & -> & -> & Hp & Hlt). apply IH; [done|lia]. }
  intros Hme. apply H; [done|lia].
Qed.

(** ** Findings *)

(** A block without ports that is not hierarchical cannot be disconnected: the
    pointer that the cast gave is null. *)
Theorem disconnect_singleton_crashes input_signature output_signature me b w w' :
  w !! b = None -> connect_block input_signature output_signature me b w = (w', Ok tt) ->
  (disconnect_block me b w').2 = Throw null_pointer.
Proof.
  unfold connect_block. intros Hb. destruct (w !! me) as [this|] eqn:E; [|by rewrite get_detail_none].
  rewrite (get_detail_bind _ _ _ _ E). case_bool_decide as Hin; [done|]. destruct (_ || _); [done|].
  rewrite adopt_ok. set (wa := (adopt me b (Some me) w).1).
  assert (wa !! me = Some this) as Ha by (subst wa; by rewrite adopt_me).
  assert (wa !! b = None) as Hb'.
  { subst wa. pose proof (wiring_at _ _ (adopt_wiring me b (Some me) w) b) as H. rewrite Hb in H.
    by apply fmap_None in H. }
  clearbody wa. rewrite (get_detail_bind _ _ _ _ Ha). intros [= <-]. unfold disconnect_block.
  rewrite (get_detail_bind me (with_blocks this (d_blocks this ++ [b]))) by apply lookup_insert_eq.
  cbn [d_blocks with_blocks]. rewrite bool_decide_true by set_solver.
  unfold mbind, HM_bind, put_detail. destruct (Z.eqb_spec b me) as [->|]; [congruence|]. cbn [negb].
  unfold set_parent, mbind, HM_bind, get_detail. by rewrite !lookup_insert_ne, Hb' by done.
Qed.

(** Once all is disconnected, the block has no ports to connect. *)
Theorem disconnect_all_loses_ports input_signature output_signature me s d w w' :
  block s <> block d -> block s = me ->
  disconnect_all me w = (w', Ok tt) ->
  exists e, (connect input_signature output_signature me s d w').2 = Throw e.
Proof.
  intros Hsd <-. unfold disconnect_all, connect. destruct (w !! block s) as [this|] eqn:E; [|by rewrite get_detail_none].
  rewrite (get_detail_bind _ _ _ _ E). intros [= <-]. destruct (Z.eqb_spec (block s) (block d)); [done|].
  rewrite !adopt_ok, Z.eqb_refl. destruct (port_beyond _ _); [by eexists|]. unfold connect_input.
  erewrite get_detail_bind by (rewrite !adopt_me; apply lookup_insert_eq). cbn [d_inputs].
  destruct (in_range (port s) []) eqn:Er; [|by eexists]. apply in_range_spec in Er. cbn in Er. lia.
Qed.

(** ** An example: a top block 10 around a source 1, a hierarchical block 20 with
    a filter 2 inside, and a sink 3 *)

Definition ex_sig (n : Z) : io_signature :=
  {| min_streams := n; max_streams := n; sizeof_stream_items := [4] |}.
Definition ex_in (b : Z) : io_signature := ex_sig (if (b =? 1) || (b =? 10) then 0 else if b =? 3 then 2 else 1).
Definition ex_out (b : Z) : io_signature := ex_sig (if (b =? 3) || (b =? 10) then 0 else 1).
Definition ex_leaf (b : Z) : bool := b <? 10.
Definition ex_at (b p : Z) : endpoint := {| block := b; port := p |}.

Definition ex_new (b : Z) : hier_detail :=
  match gr_hier_block2_detail ex_in ex_out b with
  | Ok d => d
  | Throw _ => {| d_parent_detail := None; d_edges := []; d_blocks := []; d_inputs := []; d_outputs := [] |}
  end.
Definition ex_start : hiers := <[10 := ex_new 10]> (<[20 := ex_new 20]> ∅).
Definition ex_requests : list hier_request :=
  [Connect 10 (ex_at 1 0) (ex_at 20 0); Connect 20 (ex_at 20 0) (ex_at 2 0);
   Connect 20 (ex_at 2 0) (ex_at 20 0); Connect 10 (ex_at 20 0) (ex_at 3 0);
   Connect 10 (ex_at 20 0) (ex_at 3 1); Connect 10 (ex_at 20 0) (ex_at 3 1)].
Definition ex_world : hiers := foldl (hier_serve ex_in ex_out) ex_start ex_requests.
Definition ex_top : hier_detail := default (ex_new 10) (ex_world !! 10).
Definition ex_rank (b : Z) : nat := if b =? 10 then 2 else if b =? 20 then 1 else 0.

Definition ex_flat : list edge :=
  [{| src := ex_at 1 0; dst := ex_at 2 0 |}; {| src := ex_at 2 0; dst := ex_at 3 0 |};
   {| src := ex_at 2 0; dst := ex_at 3 1 |}].

Lemma ex_hierarchy : hierarchy ex_world ex_rank.
Proof.
  intros b d c Hd Hc.
  assert (b = 10 \/ b = 20) as Hb.
  { assert (b ∈ (map_to_list ex_world).*1) as Hin.
    { apply list_elem_of_fmap. exists (b, d). split; [done|]. by apply elem_of_map_to_list. }
    revert Hin. replace (map_to_list ex_world).*1 with [10; 20] by (vm_compute; reflexivity).
    clear. rewrite !elem_of_cons. intros [? | [? | Hn]]; [by left|by right|by apply not_elem_of_nil in Hn]. }
  destruct Hb as [-> | ->]; vm_compute in Hd; injection Hd as <-.
  all: match type of Hc with context [used_blocks ?d] => let l := eval vm_compute in (used_blocks d) in
    replace (used_blocks d) with l in Hc by (vm_compute; reflexivity) end.
  all: rewrite !elem_of_cons in Hc; repeat destruct Hc as [-> | Hc]; try (vm_compute; lia); by apply not_elem_of_nil in Hc.
Qed.

Lemma flatten_spec_witness :
  flatten ex_in ex_out ex_leaf 3 ex_world ex_top = Ok ex_flat /\
  forall e, e ∈ ex_flat <-> wires ex_leaf ex_world ex_top e.
Proof.
  assert (flatten ex_in ex_out ex_leaf 3 ex_world ex_top = Ok ex_flat) as E by (vm_compute; reflexivity).
  split; [exact E|].
  pose proof (flatten_spec ex_in ex_out ex_leaf ex_world ex_rank 10 ex_top 3 ex_hierarchy
    ltac:(vm_compute; reflexivity) ltac:(vm_compute; lia)) as H.
  rewrite E in H. destruct H as [Hw [He _]]. rewrite He. exact Hw.
Defined.

Lemma ex_start_ok : hier_ok ex_in ex_out ex_start.
Proof.
  apply hier_ok_insert; [apply hier_ok_insert; [intros ? ? H; by rewrite lookup_empty in H|]|].
  all: split; cbn; repeat constructor; apply not_elem_of_nil.
Qed.

Lemma hierarchy_stays_well_formed_witness : hier_ok ex_in ex_out ex_world.
Proof. apply (hierarchy_stays_well_formed ex_in ex_out ex_start ex_requests). exact ex_start_ok. Defined.

Lemma hier_connect_disconnect_witness :
  let w := (connect ex_in ex_out 10 (ex_at 1 0) (ex_at 20 0) ex_start).1 in
  same_wiring (disconnect 10 (ex_at 1 0) (ex_at 20 0) w).1 ex_start.
Proof. apply (hier_connect_disconnect ex_in ex_out). vm_compute. reflexivity. Defined.

(** Two edges join block 20 to its parent; cutting one of them takes the parent
    away, and [lock] on block 20 does not end. *)
Lemma disconnect_orphans_child fuel :
  let w := (disconnect 10 (ex_at 20 0) (ex_at 3 1) ex_world).1 in
  d_edges <$> w !! 10 = Some [{| src := ex_at 1 0; dst := ex_at 20 0 |}; {| src := ex_at 20 0; dst := ex_at 3 0 |}] /\
  lock_target (fun b => b =? 10) 2 ex_world 20 = Ok 10 /\
  lock_target (fun b => b =? 10) fuel w 20 = Throw stack_overflow.
Proof.
  split; [vm_compute; reflexivity|]. split; [vm_compute; reflexivity|].
  eapply lock_orphan; [vm_compute; reflexivity|reflexivity|reflexivity].
Qed.

Lemma disconnect_singleton_crashes_witness :
  let w := (connect_block (fun _ => ex_sig 0) (fun _ => ex_sig 0) 10 1 ex_start).1 in
  (disconnect_block 10 1 w).2 = Throw null_pointer.
Proof.
  apply (disconnect_singleton_crashes (fun _ => ex_sig 0) (fun _ => ex_sig 0) 10 1 ex_start); vm_compute; reflexivity.
Defined.
