(* ===== verification/GrFlatFlowgraph.v ===== *)
(** * The flat flow graph: [runtime/gr_flat_flowgraph.cc]

    The flow graph of ordinary blocks that flattening gives is wired up: every
    output gets a buffer large enough for the blocks behind it, every input a
    reader of the buffer of the output it is connected to.  A running flow graph
    that was changed is merged with its predecessor, so that unchanged
    connections keep their buffers.  What is set up is what the block executor
    needs. *)

From S2P Require Import Prelude.
From Stdlib Require Import SpecFloat.
From stdpp Require Import gmap.
From S2P Require Import Float GrFlowgraph GrBuffer GrBlock GrBlockExecutor.
#[local] Open Scope Z_scope.
#[local] Open Scope cint_scope.

(** ** State

    Block details before all their slots are filled, by block; the heap of
    buffers; the next address that was not used. *)
Record detail := { in_slots : list (option (Z * Z)); out_slots : list (option Z) }.
Record world := { buffers : heap; details : gmap Z detail; fresh : Z }.

Inductive flat_error :=
| signature_error (e : flow_error)
| buffer_failed (e : buffer_error)
| found_non_gr_block
| no_such_port
| null_pointer.

Definition of_flow {A} (r : res flow_error A) : res flat_error A :=
  match r with Ok a => Ok a | Throw e => Throw (signature_error e) end.
Definition of_buffer {A} (r : res buffer_error A) : res flat_error A :=
  match r with Ok a => Ok a | Throw e => Throw (buffer_failed e) end.

Definition get_detail (w : world) (b : Z) : res flat_error detail :=
  match details w !! b with Some d => Ok d | None => Throw null_pointer end.
Definition with_detail (w : world) (b : Z) (d : detail) : world :=
  {| buffers := buffers w; details := <[b := d]> (details w); fresh := fresh w |}.
Definition with_buffer (w : world) (a : Z) (buf : gr_buffer) : world :=
  {| buffers := <[a := buf]> (buffers w); details := details w; fresh := fresh w |}.
(** A new object is at [fresh w]. *)
Definition next_fresh (w : world) : world :=
  {| buffers := buffers w; details := details w; fresh := fresh w + 1 |}.

Definition gr_make_block_detail (ninputs noutputs : nat) : detail :=
  {| in_slots := replicate ninputs None; out_slots := replicate noutputs None |}.

Definition has_slot {A} (which : Z) (l : list A) : bool := (0 <=? which) && (which <? Z.of_nat (length l)).

Definition set_output (d : detail) (which : Z) (a : Z) : res flat_error detail :=
  if has_slot which (out_slots d)
  then Ok {| in_slots := in_slots d; out_slots := (out_slots d).[which <- Some a] |}
  else Throw no_such_port.

Definition out_slot (d : detail) (which : Z) : res flat_error Z :=
  if has_slot which (out_slots d) then
    match (out_slots d).[which] with Some a => Ok a | None => Throw null_pointer end
  else Throw no_such_port.

(** The last reference to a reader takes it out of its buffer. *)
Definition release (old : option (Z * Z)) (w : world) : res flat_error world :=
  match old with
  | None => Ok w
  | Some (a, r) =>
      h ← of_buffer (on_buffer (fun buf => drop_reader buf r) a (buffers w));
      Ok {| buffers := h; details := details w; fresh := fresh w |}
  end.

Definition set_input (b : Z) (which : Z) (i : option (Z * Z)) (w : world) : res flat_error world :=
  d ← get_detail w b;
  if has_slot which (in_slots d) then
    release (in_slots d).[which]
      (with_detail w b {| in_slots := (in_slots d).[which <- i]; out_slots := out_slots d |})
  else Throw no_such_port.

Section FlatFlowgraph.
Context (input_signature output_signature : Z -> io_signature).
(** [cast_to_block_sptr(b)] is not null. *)
Context (is_block : Z -> bool).
Context {S : Type} (blocks : Z -> gr_block S) (relative_rate : Z -> spec_float).
(** The memory the system maps for items of a size and a number of bytes. *)
Context (granularity : Z) (make : Z -> Z -> option (list Z)).
Context (edges : list edge).

(** ** Buffers *)

Definition s_fixed_buffer_size : Z := 32 * (1 << 10).

(** What a block downstream needs of a buffer. *)
Definition downstream_nitems (p : Z) : Z :=
  let decimation := double_div (double_of_int 1) (relative_rate p) in
  let multiple := output_multiple (blocks p) in
  let history := history (blocks p) in
  int_of_double (double_mul (double_of_int 2)
    (double_add (double_mul decimation (double_of_int multiple)) (double_of_int history))).

Definition allocate_buffer (b port : Z) (w : world) : res flat_error (Z * world) :=
  if negb (is_block b) then Throw found_non_gr_block
  else
    item_size ← of_flow (sizeof_stream_item (output_signature b) port);
    let nitems := s_fixed_buffer_size * 2 ÷ item_size in
    let nitems :=
      if nitems <? 2 * output_multiple (blocks b) then 2 * output_multiple (blocks b) else nitems in
    nitems ← for_each (fun p nitems =>
      if negb (is_block p) then Throw found_non_gr_block
      else Ok (Z.max nitems (downstream_nitems p))) (calc_downstream_blocks_port edges b port) nitems;
    buffer ← of_buffer (gr_make_buffer granularity (make item_size) nitems item_size);
    Ok (fresh w, next_fresh (with_buffer w (fresh w) buffer)).

Definition allocate_block_detail (b : Z) (w : world) : res flat_error (detail * world) :=
  let ninputs := length (calc_used_ports edges b true) in
  let noutputs := length (calc_used_ports edges b false) in
  for_each (fun i '(d, w) =>
    '(a, w) ← allocate_buffer b i w;
    d ← set_output d i a;
    Ok (d, w)) (zseq 0 noutputs) (gr_make_block_detail ninputs noutputs, w).

(** ** Connections *)

Definition add_reader (a : Z) (b : Z) (w : world) : res flat_error (Z * Z * world) :=
  h ← of_buffer (on_buffer (fun buf =>
    gr_buffer_add_reader buf (fresh w) (s32 (u32 (history (blocks b) - 1)))) a (buffers w));
  Ok (a, fresh w, next_fresh {| buffers := h; details := details w; fresh := fresh w |}).

Definition connect_edge (b : Z) (e : edge) (w : world) : res flat_error world :=
  if negb (is_block (block (src e))) then Throw found_non_gr_block
  else
    src_detail ← get_detail w (block (src e));
    src_buffer ← out_slot src_detail (port (src e));
    '(reader, w) ← add_reader src_buffer b w;
    set_input b (port (dst e)) (Some reader) w.

Definition connect_block_inputs (b : Z) (w : world) : res flat_error world :=
  if negb (is_block b) then Throw found_non_gr_block
  else for_each (connect_edge b) (calc_upstream_edges edges b) w.

Definition set_new_detail (b : Z) (w : world) : res flat_error world :=
  '(d, w) ← allocate_block_detail b w;
  if is_block b then Ok (with_detail w b d) else Throw null_pointer.

Definition setup_connections (w : world) : res flat_error world :=
  let blocks := calc_used_blocks edges in
  w ← for_each set_new_detail blocks w;
  for_each connect_block_inputs blocks w.

(** ** Merging with the old flow graph *)

Definition detail_if_needed (p : Z) (w : world) : res flat_error world :=
  if negb (is_block p) then Throw null_pointer
  else match details w !! p with
       | Some _ => Ok w
       | None => '(d, w) ← allocate_block_detail p w; Ok (with_detail w p d)
       end.

Definition clear_old_edge (old_edge : edge) (w : world) : res flat_error world :=
  if existsb (fun e => bool_decide (src e = src old_edge /\ dst e = dst old_edge)) edges then Ok w
  else if negb (is_block (block (dst old_edge))) then Throw null_pointer
  else set_input (block (dst old_edge)) (port (dst old_edge)) None w.

(** Input [i] of a block that was in the old flow graph. *)
Definition merge_input (p : Z) (i : Z) (w : world) : res flat_error world :=
  match calc_upstream_edge edges p i with
  | None => Throw null_pointer
  | Some e =>
      if negb (is_block (block (src e))) then Throw null_pointer
      else
        src_detail ← get_detail w (block (src e));
        src_buffer ← out_slot src_detail (port (src e));
        d ← get_detail w p;
        let old_reader := if i <? Z.of_nat (length (in_slots d)) then (in_slots d).[i] else None in
        if bool_decide (fst <$> old_reader = Some src_buffer) then Ok w
        else
          '(reader, w) ← add_reader src_buffer p w;
          set_input p i (Some reader) w
  end.

Definition merge_block (old_blocks : list Z) (p : Z) (w : world) : res flat_error world :=
  if has_block_p old_blocks p then
    let ninputs := length (calc_used_ports edges p true) in
    for_each (merge_input p) (zseq 0 ninputs) w
  else connect_block_inputs p w.

(** [old_edges] and [old_blocks] are the old flow graph. *)
Definition merge_connections (old_edges : list edge) (old_blocks : list Z) (w : world) :
    res flat_error world :=
  let blocks := calc_used_blocks edges in
  w ← for_each detail_if_needed blocks w;
  w ← for_each clear_old_edge old_edges w;
  for_each (merge_block old_blocks) blocks w.

End FlatFlowgraph.

(** The detail the executor uses, once every slot is filled. *)
Definition finish (d : detail) : option gr_block_detail :=
  ins ← mapM id (in_slots d);
  outs ← mapM id (out_slots d);
  Some {| d_produce_or := 0; d_input := ins; d_output := outs; d_detail_done := false |}.

(** ** What a flow graph that is set up looks like *)

Definition out_at (w : world) (e : endpoint) (a : Z) : Prop :=
  exists d, details w !! block e = Some d /\ 0 <= port e /\ out_slots d !! Z.to_nat (port e) = Some (Some a).
Definition in_at (w : world) (e : endpoint) (i : Z * Z) : Prop :=
  exists d, details w !! block e = Some d /\ 0 <= port e /\ in_slots d !! Z.to_nat (port e) = Some (Some i).

Definition the_reader_of (w : world) (i : Z * Z) : Prop :=
  exists buf, buffers w !! i.1 = Some buf /\ is_Some (readers buf !! i.2).

(** A reader with [n] items to read. *)
Definition attached (w : world) (i : Z * Z) (n : Z) : Prop :=
  exists buf, buffers w !! i.1 = Some buf /\ items_available buf i.2 = Ok n.

Lemma attached_reader w i n : attached w i n -> the_reader_of w i.
Proof.
  intros (buf & Hbuf & Ha). exists buf. split; [done|]. unfold items_available, the_reader in Ha.
  by destruct (readers buf !! i.2).
Qed.

(** Every connected port has its slot, every slot is filled, the two ends of an
    edge share a buffer, no two ports share a buffer or a reader, and every
    buffer is a stream. *)
Record set_up (size : Z) (edges : list edge) (w : world) : Prop := {
  slots : forall b, b ∈ calc_used_blocks edges -> exists d, details w !! b = Some d /\
    length (in_slots d) = length (calc_used_ports edges b true) /\
    length (out_slots d) = length (calc_used_ports edges b false);
  inputs_filled : forall e, e ∈ edges -> exists i a, in_at w (dst e) i /\ out_at w (src e) a /\ i.1 = a /\ the_reader_of w i;
  outputs_filled : forall b d i, b ∈ calc_used_blocks edges -> details w !! b = Some d -> (i < length (out_slots d))%nat ->
    exists a, out_slots d !! i = Some (Some a) /\ is_Some (buffers w !! a);
  outputs_distinct : forall e e' a, block e ∈ calc_used_blocks edges -> block e' ∈ calc_used_blocks edges ->
    out_at w e a -> out_at w e' a -> e = e';
  inputs_distinct : forall e e' a a' r, block e ∈ calc_used_blocks edges -> block e' ∈ calc_used_blocks edges ->
    in_at w e (a, r) -> in_at w e' (a', r) -> e = e';
  buffers_rep : forall a buf, buffers w !! a = Some buf -> exists H pos, rep {| buf := buf; room := 0 |} H pos;
  buffers_sized : sized size (buffers w)
}.

Section Setup.
Context (input_signature output_signature : Z -> io_signature) (is_block : Z -> bool).
Context {S : Type} (blocks : Z -> gr_block S) (relative_rate : Z -> spec_float).
Context (granularity : Z) (make : Z -> Z -> option (list Z)) (edges : list edge).

(** The flow graph was validated and is one of ordinary blocks. *)
Context (Hedges : edges_ok input_signature output_signature edges).
Context (Hports : forall b inp, b ∈ calc_used_blocks edges ->
  calc_used_ports edges b inp = seqZ 0 (Z.of_nat (length (calc_used_ports edges b inp)))).
Context (Hblocks : forall b, b ∈ calc_used_blocks edges -> is_block b = true).
(** Item sizes are positive and the system has the memory. *)
Context (Hsizes : forall b p, b ∈ calc_used_blocks edges -> 0 <= p -> 0 < item_size (output_signature b) p).
Context (Hgran : 0 < granularity <= 2 ^ 30).
Context (Hmake : forall sz n, 0 < sz -> 0 < n < 2 ^ 31 ->
  exists mem, make sz (n * sz) = Some mem /\ Z.of_nat (length mem) = n).
(** The blocks' parameters: a buffer for twice the history, and no block wants
    more than [most] items, so that no buffer has more than [size]. *)
Abbreviation need := (downstream_nitems blocks relative_rate).
Context (most size : Z) (Hmost : 2 * s_fixed_buffer_size <= most < 2 ^ 30) (Hsize : most + granularity <= size).
Context (Hmultiple : forall b, b ∈ calc_used_blocks edges -> 1 <= output_multiple (blocks b) /\ 2 * output_multiple (blocks b) <= most).
Context (Hhistory : forall b, b ∈ calc_used_blocks edges ->
  1 <= history (blocks b) /\ 2 * history (blocks b) <= need b <= most).

(** *** Buffers *)

(** Ghost state: the output each buffer was made for. *)
Abbreviation owners := (gmap Z endpoint).

(** A buffer large enough for the block that writes it, for the blocks that read it,
    and for the default number of bytes. *)
Definition serves (e : endpoint) (buf : gr_buffer) : Prop :=
  s_fixed_buffer_size * 2 ÷ item_size (output_signature (block e)) (port e) <= d_bufsize buf /\
  2 * output_multiple (blocks (block e)) <= d_bufsize buf /\
  forall x, x ∈ edges -> src x = e -> need (block (dst x)) <= d_bufsize buf.

Record heap_ok (o : owners) (w : world) : Prop := {
  heap_fresh : forall a, is_Some (buffers w !! a) -> a < fresh w;
  heap_stream : forall a buf, buffers w !! a = Some buf -> exists H pos, rep {| buf := buf; room := 0 |} H pos;
  heap_sized : sized size (buffers w);
  heap_readers : forall a buf r, buffers w !! a = Some buf -> is_Some (readers buf !! r) -> r < fresh w;
  owned : forall a e, o !! a = Some e -> exists buf, buffers w !! a = Some buf /\ serves e buf
}.

Lemma made_rep gran mk nitems sz b0 : gr_make_buffer gran mk nitems sz = Ok b0 -> size_ok b0 ->
  rep {| buf := b0; room := 0 |} (d_base b0) ∅ /\ readers b0 = ∅.
Proof.
  intros Hm Hs. destruct (initial_shows gran mk nitems sz b0 Hm Hs) as (pos & Hr & Hq).
  assert (readers b0 = ∅) as Hrd.
  { unfold gr_make_buffer in Hm. destruct (mk _) as [mem|]; [|done]. by injection Hm as <-. }
  split; [|done]. assert (pos = ∅) as ->; [|done]. apply map_eq. intros r. rewrite lookup_empty.
  pose proof (rep_readers _ _ _ Hr r) as H. cbn in H. rewrite Hrd, lookup_empty in H. by inversion H.
Qed.

Lemma make_buffer_ok nitems sz : 0 < nitems <= most -> 0 < sz ->
  exists b0, gr_make_buffer granularity (make sz) nitems sz = Ok b0 /\ size_ok b0 /\ nitems <= d_bufsize b0 <= size.
Proof.
  intros Hn Hsz. destruct (round_up_items_spec nitems sz granularity Hsz ltac:(lia) ltac:(lia)) as (H1 & _ & H3 & _).
  set (n := round_up_items nitems sz granularity) in *.
  assert (minimum_buffer_items sz granularity <= granularity) as Hmin.
  { unfold minimum_buffer_items. assert (0 < Z.gcd sz granularity) as Hg.
    { pose proof (Z.gcd_nonneg sz granularity). destruct (Z.eq_dec (Z.gcd sz granularity) 0) as [E|]; [|lia].
      apply Z.gcd_eq_0_l in E. lia. }
    rewrite Z.quot_div_nonneg by lia. apply Z.div_le_upper_bound; nia. }
  revert Hn Hgran Hmake Hmost. norm_pow. intros Hn Hgran Hmake Hmost.
  destruct (Hmake sz n Hsz ltac:(lia)) as (mem & Hmem & Hl).
  unfold gr_make_buffer. fold n. rewrite Hmem. eexists. split; [done|]. split.
  - split; cbn; [norm_pow; lia|done].
  - cbn. lia.
Qed.

Lemma used_src e : e ∈ edges -> block (src e) ∈ calc_used_blocks edges.
Proof. intros He. apply calc_used_blocks_in. eauto. Qed.
Lemma used_dst e : e ∈ edges -> block (dst e) ∈ calc_used_blocks edges.
Proof. intros He. apply calc_used_blocks_in. eauto. Qed.

Lemma downstream_in b p x : x ∈ calc_downstream_blocks_port edges b p <->
  exists e, e ∈ edges /\ src e = {| block := b; port := p |} /\ block (dst e) = x.
Proof.
  unfold calc_downstream_blocks_port. rewrite unique_vector_in, list_elem_of_fmap.
  setoid_rewrite list_elem_of_filter. naive_solver.
Qed.

(** The number of items: at least what every block behind the output needs. *)
Lemma nitems_loop l n0 : (forall x, x ∈ l -> x ∈ calc_used_blocks edges) -> 0 < n0 <= most ->
  exists n, for_each (fun p nitems =>
    if negb (is_block p) then Throw found_non_gr_block
    else Ok (Z.max nitems (need p))) l n0 = Ok n /\ 0 < n <= most /\ n0 <= n /\
    forall x, x ∈ l -> need x <= n.
Proof.
  intros Hl Hn0. destruct (for_each_reaches (fun p nitems =>
    if negb (is_block p) then Throw found_non_gr_block else Ok (Z.max nitems (need p)))
    (fun seen n => 0 < n <= most /\ n0 <= n /\ forall x, x ∈ seen -> need x <= n) l n0) as (n & Hn & H).
  - split_and!; [lia..|]. by intros x ?%not_elem_of_nil.
  - intros seen x rest s -> (Hs & Hns & Hx). assert (x ∈ calc_used_blocks edges) as Hu by (apply Hl; set_solver).
    rewrite Hblocks by done. cbn [negb]. eexists. split; [done|]. pose proof (Hhistory x Hu).
    split_and!; [lia..|]. intros y [Hy | ->%list_elem_of_singleton]%elem_of_app; [specialize (Hx y Hy)|]; lia.
  - exists n. tauto.
Qed.

Lemma allocate_buffer_ok o w b p : heap_ok o w -> b ∈ calc_used_blocks edges -> 0 <= p ->
  exists w', allocate_buffer output_signature is_block blocks relative_rate granularity make edges b p w = Ok (fresh w, w') /\
    heap_ok (<[fresh w := {| block := b; port := p |}]> o) w' /\ o !! fresh w = None /\ details w' = details w.
Proof.
  intros Ho Hb Hp. unfold allocate_buffer. rewrite Hblocks by done. cbn [negb].
  unfold sizeof_stream_item. rewrite (proj2 (Z.ltb_ge _ _)) by lia. fold (item_size (output_signature b) p).
  cbn [of_flow]. rewrite ok_bind. pose proof (Hsizes b p Hb Hp) as Hsz. pose proof (Hmultiple b Hb) as Hm.
  set (sz := item_size (output_signature b) p) in *.
  assert (0 <= s_fixed_buffer_size * 2 ÷ sz <= 65536) as Hq.
  { change (s_fixed_buffer_size * 2) with 65536. rewrite Z.quot_div_nonneg by lia.
    split; [apply Z.div_pos; lia|apply Z.div_le_upper_bound; lia]. }
  destruct (nitems_loop (calc_downstream_blocks_port edges b p)
    (if s_fixed_buffer_size * 2 ÷ sz <? 2 * output_multiple (blocks b) then 2 * output_multiple (blocks b)
     else s_fixed_buffer_size * 2 ÷ sz)) as (n & -> & Hn & Hn0 & Hneed).
  { intros x (e & He & _ & <-)%downstream_in. by apply used_dst. }
  { revert Hmost. change (2 * s_fixed_buffer_size) with 65536. intros. case_if; lia. }
  assert (s_fixed_buffer_size * 2 ÷ sz <= n /\ 2 * output_multiple (blocks b) <= n) as Hown by (revert Hn0; generalize (s_fixed_buffer_size * 2 ÷ sz) as q; intros q; destruct (Z.ltb_spec q (2 * output_multiple (blocks b))); lia). clear Hn0.
  rewrite ok_bind. destruct (make_buffer_ok n sz Hn Hsz) as (b0 & E & Hs & Hle). rewrite E. cbn [of_buffer].
  rewrite ok_bind. destruct (made_rep _ _ _ _ _ E Hs) as [Hr Hrd].
  assert (o !! fresh w = None) as Hnone.
  { destruct (o !! fresh w) as [e|] eqn:Eo; [|done]. destruct (owned _ _ Ho _ _ Eo) as (bf & Hbf & _).
    pose proof (heap_fresh _ _ Ho (fresh w) ltac:(eauto)). lia. }
  eexists. split; [reflexivity|]. split; [|done]. destruct Ho as [H1 H2 H0 H3 H4]. split; cbn.
  - intros a [x [[<- _]|[_ Ha]]%lookup_insert_Some]; [lia|]. specialize (H1 a ltac:(eauto)). lia.
  - intros a bf [[<- <-]|[_ Ha]]%lookup_insert_Some; eauto.
  - destruct H0 as [Hpz H0]. split; [done|]. intros a bf [[<- <-]|[_ Ha]]%lookup_insert_Some; [lia|eauto].
  - intros a bf r [[<- <-]|[_ Ha]]%lookup_insert_Some Hrr; [|specialize (H3 _ _ _ Ha Hrr); lia].
    rewrite Hrd, lookup_empty in Hrr. by destruct Hrr.
  - intros a e [[<- <-]|[Hne Ha]]%lookup_insert_Some.
    + exists b0. split; [apply lookup_insert_eq|]. destruct Hown as [Ho1 Ho2].
      split; [etransitivity; [exact Ho1|lia]|]. split; [etransitivity; [exact Ho2|lia]|]. intros x Hx Hsrc.
      pose proof (Hneed (block (dst x)) ltac:(apply downstream_in; eauto)). lia.
    + destruct (H4 _ _ Ha) as (bf & Hbf & Hx). exists bf. by rewrite lookup_insert_ne.
Qed.

(** *** Details *)

Abbreviation nin b := (length (calc_used_ports edges b true)).
Abbreviation nout b := (length (calc_used_ports edges b false)).

Definition outs_ok (o : owners) (b : Z) (d : detail) : Prop :=
  length (out_slots d) = nout b /\
  forall i, (i < nout b)%nat -> exists a, out_slots d !! i = Some (Some a) /\
    o !! a = Some {| block := b; port := Z.of_nat i |}.

Lemma outs_ok_mono o o' b d : o ⊆ o' -> outs_ok o b d -> outs_ok o' b d.
Proof.
  intros Ho [Hl H]. split; [done|]. intros i Hi. destruct (H i Hi) as (a & Ha & Hoa). exists a.
  split; [done|]. by eapply lookup_weaken.
Qed.

Lemma zseq_split n seen x rest : zseq 0 n = seen ++ x :: rest ->
  x = Z.of_nat (length seen) /\ (length seen < n)%nat.
Proof.
  intros H. assert (zseq 0 n !! length seen = Some x) as Hx by (rewrite H; by apply list_lookup_middle).
  rewrite <- (map_id (zseq 0 n)) in Hx. by apply (zseq_lookup (fun x => x)) in Hx.
Qed.

Lemma allocate_block_detail_ok o w b : heap_ok o w -> b ∈ calc_used_blocks edges ->
  exists d w' o', allocate_block_detail output_signature is_block blocks relative_rate granularity make edges b w = Ok (d, w') /\
    heap_ok o' w' /\ o ⊆ o' /\ details w' = details w /\ in_slots d = replicate (nin b) None /\ outs_ok o' b d.
Proof.
  intros Ho Hb. unfold allocate_block_detail.
  destruct (for_each_reaches (fun i '(d, w) =>
    '(a, w) ← allocate_buffer output_signature is_block blocks relative_rate granularity make edges b i w;
    d ← set_output d i a; Ok (d, w))
    (fun seen '(d, w') => exists o', heap_ok o' w' /\ o ⊆ o' /\ details w' = details w /\
      in_slots d = replicate (nin b) None /\ length (out_slots d) = nout b /\
      forall i, (i < length seen)%nat -> exists a, out_slots d !! i = Some (Some a) /\
        o' !! a = Some {| block := b; port := Z.of_nat i |})
    (zseq 0 (nout b)) (gr_make_block_detail (nin b) (nout b), w)) as ([d w'] & Hf & o' & H).
  - exists o. cbn. rewrite length_replicate. split_and!; [done..|]. intros i Hi. lia.
  - intros seen x rest [d w1] Hl (o1 & Ho1 & Hsub & Hd & Hin & Hlen & Hout).
    destruct (zseq_split _ _ _ _ Hl) as [-> Hlt].
    destruct (allocate_buffer_ok o1 w1 b (Z.of_nat (length seen)) Ho1 Hb ltac:(lia)) as (w2 & -> & Ho2 & Hnone & Hd2).
    rewrite ok_bind. unfold set_output, has_slot.
    rewrite (proj2 (Z.leb_le _ _)), (proj2 (Z.ltb_lt _ _)) by lia. cbn [andb].
    eexists. split; [reflexivity|]. eexists. split; [exact Ho2|].
    assert (o1 ⊆ <[fresh w1 := {| block := b; port := Z.of_nat (length seen) |}]> o1) as Hs1 by by apply insert_subseteq.
    split; [by transitivity o1|]. split; [congruence|]. cbn. split; [done|].
    rewrite length_aset. split; [done|]. intros i Hi. unfold aset. rewrite (proj2 (Z.ltb_ge _ _)) by lia. rewrite Nat2Z.id.
    rewrite length_app in Hi. cbn in Hi. destruct (decide (i = length seen)) as [->|].
    + exists (fresh w1). rewrite list_lookup_insert_eq by lia. split; [done|]. apply lookup_insert_eq.
    + destruct (Hout i ltac:(lia)) as (a & Ha & Hoa). exists a. rewrite list_lookup_insert_ne by lia.
      split; [done|]. by eapply lookup_weaken.
  - destruct H as (Ho' & Hsub & Hd & Hin & Hlen & Hout). exists d, w', o'. rewrite length_zseq in Hout. split_and!; try done.
Qed.

(** After the first loop every block has a detail with all outputs and no input. *)
Definition made (o : owners) (w : world) (b : Z) : Prop :=
  exists d, details w !! b = Some d /\ in_slots d = replicate (nin b) None /\ outs_ok o b d.

Lemma first_loop_ok w : heap_ok ∅ w ->
  exists w' o, for_each (set_new_detail output_signature is_block blocks relative_rate granularity make edges)
    (calc_used_blocks edges) w = Ok w' /\ heap_ok o w' /\
    forall b, b ∈ calc_used_blocks edges -> made o w' b.
Proof.
  intros Hw. destruct (for_each_reaches
    (set_new_detail output_signature is_block blocks relative_rate granularity make edges)
    (fun seen w' => exists o, heap_ok o w' /\ forall b, b ∈ seen -> made o w' b)
    (calc_used_blocks edges) w) as (w' & Hf & o & H).
  - exists ∅. split; [done|]. by intros b ?%not_elem_of_nil.
  - intros seen b rest w1 Hl (o1 & Ho1 & Hm). assert (b ∈ calc_used_blocks edges) as Hb by (rewrite Hl; set_solver).
    destruct (allocate_block_detail_ok o1 w1 b Ho1 Hb) as (d & w2 & o2 & E & Ho2 & Hsub & Hd & Hin & Hout).
    unfold set_new_detail. rewrite E, ok_bind, Hblocks by done. eexists. split; [reflexivity|]. exists o2.
    split; [by destruct Ho2; split|]. intros c Hc. unfold made. cbn [details with_detail].
    destruct (decide (c = b)) as [->|].
    { exists d. by rewrite lookup_insert_eq. }
    assert (c ∈ seen) as Hcs by set_solver. destruct (Hm c Hcs) as (dc & Hdc & Hic & Hoc). exists dc.
    rewrite lookup_insert_ne by done. rewrite Hd. split_and!; [done..|]. by eapply outs_ok_mono.
  - exists w', o. tauto.
Qed.

(** *** Inputs

    The ghost map [ro] says which input each reader was made for; [D] are the
    edges connected so far. *)

Record wired_block (o ro : owners) (D : edge -> Prop) (w : world) (b : Z) (d : detail) : Prop := {
  wb_detail : details w !! b = Some d;
  wb_outs : outs_ok o b d;
  wb_ins : length (in_slots d) = nin b;
  wb_ro : forall i x, in_slots d !! i = Some (Some x) -> ro !! x.2 = Some {| block := b; port := Z.of_nat i |};
  wb_free : forall i, (i < nin b)%nat -> (forall e, D e -> dst e <> {| block := b; port := Z.of_nat i |}) ->
    in_slots d !! i = Some None;
  wb_done : forall e, D e -> block (dst e) = b -> exists a r,
    in_slots d !! Z.to_nat (port (dst e)) = Some (Some (a, r)) /\ out_at w (src e) a /\
    attached w (a, r) (history (blocks b) - 1)
}.

Record wired_to (o ro : owners) (D : edge -> Prop) (w : world) : Prop := {
  wt_heap : heap_ok o w;
  wt_ro : forall r e, ro !! r = Some e -> r < fresh w;
  wt_blocks : forall b, b ∈ calc_used_blocks edges -> exists d, wired_block o ro D w b d
}.

Lemma port_ok_nat e inp : e ∈ edges -> let p := if inp : bool then dst e else src e in
  0 <= port p /\ (Z.to_nat (port p) < length (calc_used_ports edges (block p) inp))%nat.
Proof.
  intros He p. assert (block p ∈ calc_used_blocks edges) as Hb.
  { subst p. destruct inp; [by apply used_dst|by apply used_src]. }
  assert (port p ∈ calc_used_ports edges (block p) inp) as Hp.
  { apply calc_used_ports_in. exists e. split; [done|]. subst p. destruct inp; [by destruct (dst e)|by destruct (src e)]. }
  rewrite Hports in Hp by done. apply elem_of_seqZ in Hp. lia.
Qed.

Lemma endpoint_nat (e : endpoint) : 0 <= port e -> {| block := block e; port := Z.of_nat (Z.to_nat (port e)) |} = e.
Proof. intros Hp. rewrite Z2Nat.id by done. by destruct e. Qed.

Lemma dst_unique e e' : e ∈ edges -> e' ∈ edges -> dst e = dst e' -> e = e'.
Proof.
  intros He He' Hd. destruct Hedges as [_ Hn].
  apply list_elem_of_lookup in He as [i Hi], He' as [j Hj].
  assert (i = j) as ->; [|congruence]. eapply (NoDup_lookup _ _ _ (dst e) Hn); rewrite list_lookup_fmap.
  - by rewrite Hi.
  - rewrite Hj. cbn. by rewrite Hd.
Qed.

(** The buffer of an output, in a block that is wired. *)
Lemma output_of o ro D w e : wired_to o ro D w -> e ∈ edges ->
  exists d a buf, details w !! block (src e) = Some d /\ out_slot d (port (src e)) = Ok a /\
    out_at w (src e) a /\ o !! a = Some (src e) /\ buffers w !! a = Some buf /\
    history (blocks (block (dst e))) < d_bufsize buf.
Proof.
  intros Hw He. destruct (wt_blocks _ _ _ _ Hw _ (used_src _ He)) as (d & Hd).
  destruct (port_ok_nat e false He) as [Hp Hlt]. destruct (wb_outs _ _ _ _ _ _ Hd) as [Hl Ho].
  destruct (Ho _ Hlt) as (a & Ha & Hoa). rewrite endpoint_nat in Hoa by done.
  destruct (owned _ _ (wt_heap _ _ _ _ Hw) _ _ Hoa) as (buf & Hbuf & Hn).
  exists d, a, buf. split_and!; try done; [apply Hd| | |].
  - unfold out_slot, has_slot. rewrite (proj2 (Z.leb_le _ _)), (proj2 (Z.ltb_lt _ _)) by lia. cbn [andb].
    by rewrite (aget_lookup _ _ (Some a)).
  - exists d. split; [apply Hd|]. done.
  - destruct Hn as (_ & _ & Hn). specialize (Hn e He eq_refl). pose proof (Hhistory _ (used_dst _ He)). lia.
Qed.

(** A new reader keeps the heap in order. *)
Lemma add_reader_ok o w a b buf : heap_ok o w -> buffers w !! a = Some buf ->
  b ∈ calc_used_blocks edges -> history (blocks b) < d_bufsize buf ->
  exists w', add_reader blocks a b w = Ok (a, fresh w, w') /\ heap_ok o w' /\ details w' = details w /\
    fresh w' = fresh w + 1 /\ attached w' (a, fresh w) (history (blocks b) - 1) /\
    forall i n, attached w i n -> attached w' i n.
Proof.
  intros Ho Hbuf Hb Hlt. destruct (Hhistory b Hb) as [Hh1 Hh2].
  destruct (heap_stream _ _ Ho _ _ Hbuf) as (H & pos & Hrep).
  assert (readers buf !! fresh w = None) as Hnone.
  { destruct (readers buf !! fresh w) eqn:E; [|done]. pose proof (heap_readers _ _ Ho _ _ (fresh w) Hbuf ltac:(eauto)). lia. }
  assert (s32 (u32 (history (blocks b) - 1)) = history (blocks b) - 1) as Hs.
  { revert Hh2 Hmost. norm_pow. intros Hh2 Hmost. rewrite (u32_id) by lia. rewrite (sx_id 32) by (norm_pow; lia). done. }
  destruct (rep_add _ _ _ _ (fresh w) (history (blocks b) - 1) Hrep Hnone ltac:(lia) ltac:(cbn; lia)) as (buf' & E & Hrep' & _).
  pose proof (rep_items_available _ _ _ Hrep' (fresh w) _ (lookup_insert_eq _ _ _)) as Hav. cbn [GrBuffer.buf] in Hav.
  pose proof E as E'. unfold gr_buffer_add_reader in E'. case_if; [done|].
  apply res_bind_ok in E' as (ri & _ & [= Eb]).
  unfold add_reader. rewrite Hs, (on_buffer_ok _ _ _ _ buf' Hbuf E). cbn [of_buffer]. rewrite ok_bind.
  eexists. split; [reflexivity|].
  assert (readers buf' = <[fresh w := {| d_read_index := ri; d_abs_read_offset := 0 |}]> (readers buf) /\ d_bufsize buf' = d_bufsize buf) as [Hrd Hsz] by by subst buf'.
  assert (d_write_index buf' = d_write_index buf) as Hwi by by subst buf'.
  destruct Ho as [H1 H2 H0 H3 H4]. split_and!; [split|done|done| |]; cbn.
  - intros c [x [[<- _]|[_ Hc]]%lookup_insert_Some]; [specialize (H1 a ltac:(eauto))|specialize (H1 c ltac:(eauto))]; lia.
  - intros c bf [[<- <-]|[_ Hc]]%lookup_insert_Some; eauto.
  - destruct H0 as [Hpz H0]. split; [done|]. intros c bf [[<- <-]|[_ Hc]]%lookup_insert_Some; [rewrite Hsz|]; eauto.
  - intros c bf r [[<- <-]|[_ Hc]]%lookup_insert_Some Hr; [|specialize (H3 _ _ _ Hc Hr); lia].
    rewrite Hrd in Hr. destruct Hr as [x [[<- _]|[_ Hr]]%lookup_insert_Some]; [lia|].
    specialize (H3 _ _ r Hbuf ltac:(eauto)). lia.
  - intros c e Hc. destruct (H4 _ _ Hc) as (bf & Hbf & Hx). destruct (decide (c = a)) as [->|].
    + exists buf'. rewrite lookup_insert_eq. split; [done|]. unfold serves. rewrite Hsz. assert (bf = buf) as <- by congruence. exact Hx.
    + exists bf. by rewrite lookup_insert_ne.
  - exists buf'. cbn. rewrite lookup_insert_eq. split; [done|]. rewrite Hav. f_equal. lia.
  - intros [c r] n (bf & Hbf & Hr). unfold attached. cbn in *. destruct (decide (c = a)) as [->|].
    + exists buf'. rewrite lookup_insert_eq. split; [done|]. assert (bf = buf) as -> by congruence.
      unfold items_available, the_reader in *. rewrite Hrd, Hwi. destruct (decide (r = fresh w)) as [->|].
      * by rewrite Hnone in Hr.
      * rewrite lookup_insert_ne by done. destruct (readers buf !! r) as [rd|]; [|done]. rewrite ok_bind in *.
        unfold index_sub in *. rewrite Hsz. exact Hr.
    + exists bf. by rewrite lookup_insert_ne.
Qed.

Lemma connect_edge_ok o ro (D : edge -> Prop) w e : wired_to o ro D w -> e ∈ edges -> ~ D e ->
  (forall e', D e' -> e' ∈ edges) ->
  exists w' ro', connect_edge is_block blocks (block (dst e)) e w = Ok w' /\
    wired_to o ro' (fun x => D x \/ x = e) w'.
Proof.
  intros Hw He Hn HD. destruct (output_of o ro D w e Hw He) as (sd & a & buf & Hsd & Hslot & Hoa & _ & Hbuf & Hlt).
  destruct (add_reader_ok o w a (block (dst e)) buf (wt_heap _ _ _ _ Hw) Hbuf (used_dst _ He) Hlt) as
    (w1 & Ha & Ho1 & Hd1 & Hf1 & Hr1 & Hrr).
  destruct (wt_blocks _ _ _ _ Hw _ (used_dst _ He)) as (d & Hd).
  destruct (port_ok_nat e true He) as [Hp Hpl]. cbn in Hp, Hpl.
  assert (in_slots d !! Z.to_nat (port (dst e)) = Some None) as Hfree.
  { apply (wb_free _ _ _ _ _ _ Hd); [done|]. rewrite endpoint_nat by done. intros e' He' Hde.
    assert (e' = e) as -> by (apply dst_unique; [by apply HD|done|done]). done. }
  unfold connect_edge. rewrite Hblocks by (by apply used_src). cbn [negb]. unfold get_detail at 1. rewrite Hsd, ok_bind, Hslot, ok_bind, Ha, ok_bind.
  unfold set_input, get_detail. rewrite Hd1, (wb_detail _ _ _ _ _ _ Hd), ok_bind. unfold has_slot.
  rewrite (wb_ins _ _ _ _ _ _ Hd). rewrite (proj2 (Z.leb_le _ _)), (proj2 (Z.ltb_lt _ _)) by lia. cbn [andb].
  rewrite (aget_lookup _ _ None) by done. cbn [release].
  set (d' := {| in_slots := _; out_slots := _ |}).
  assert (in_slots d' = <[Z.to_nat (port (dst e)) := Some (a, fresh w)]> (in_slots d)) as Hins.
  { subst d'. cbn. unfold aset. by rewrite (proj2 (Z.ltb_ge _ _)). }
  exists (with_detail w1 (block (dst e)) d'), (<[fresh w := dst e]> ro). split; [done|].
  assert (forall r x, ro !! r = Some x -> r < fresh w) as Hro by apply Hw.
  assert (ro ⊆ <[fresh w := dst e]> ro) as Hsub.
  { apply insert_subseteq. destruct (ro !! fresh w) eqn:E; [|done]. specialize (Hro _ _ E). lia. }
  assert (forall x c, out_at w x c -> out_at (with_detail w1 (block (dst e)) d') x c) as Hsame.
  { intros x c (dx & Hdx & Hpx & Hc). unfold out_at. cbn. rewrite Hd1. destruct (decide (block x = block (dst e))) as [E|].
    - exists d'. rewrite E, lookup_insert_eq. assert (dx = d) as -> by (destruct Hd; congruence). done.
    - exists dx. by rewrite lookup_insert_ne. }
  split.
  - by destruct Ho1; split.
  - intros r x [[<- <-]|[_ Hx]]%lookup_insert_Some; cbn; [|specialize (Hro _ _ Hx)]; lia.
  - intros b Hb. destruct (decide (b = block (dst e))) as [->|Hne].
    + exists d'. destruct Hd as [Hdd Hout Hin Hwro Hwf Hwd]. split.
      * cbn. apply lookup_insert_eq.
      * done.
      * rewrite Hins, length_insert. done.
      * intros i x Hx. rewrite Hins in Hx. apply list_lookup_insert_Some in Hx as [(<- & [= <-] & _)|[_ Hx]].
        -- cbn. rewrite lookup_insert_eq, endpoint_nat by done. done.
        -- eapply lookup_weaken; [by apply Hwro|done].
      * intros i Hi Hx. rewrite Hins. rewrite list_lookup_insert_ne.
        -- apply Hwf; [done|]. intros e' He'. apply Hx. by left.
        -- intros <-. apply (Hx e); [by right|]. by rewrite endpoint_nat.
      * intros e' [He' | ->] Hbe.
        -- destruct (Hwd e' He' Hbe) as (a' & r' & Hs & Hoa' & Hrd). exists a', r'. rewrite Hins.
           rewrite list_lookup_insert_ne by congruence. split_and!; [done|by apply Hsame|by apply Hrr].
        -- exists a, (fresh w). rewrite Hins, list_lookup_insert_eq by lia. split_and!; [done|by apply Hsame|done].
    + destruct (wt_blocks _ _ _ _ Hw b Hb) as (db & Hdb). exists db. destruct Hdb as [Hdd Hout Hin Hwro Hwf Hwd]. split.
      * cbn. rewrite lookup_insert_ne by done. by rewrite Hd1.
      * done.
      * done.
      * intros i x Hx. eapply lookup_weaken; [by apply Hwro|done].
      * intros i Hi Hx. apply Hwf; [done|]. intros e' He'. apply Hx. by left.
      * intros e' [He' | ->] Hbe; [|done]. destruct (Hwd e' He' Hbe) as (a' & r' & Hs & Hoa' & Hrd).
        exists a', r'. split_and!; [done|by apply Hsame|by apply Hrr].
Qed.

Lemma wired_to_iff o ro (D D' : edge -> Prop) w : (forall e, D e <-> D' e) -> wired_to o ro D w -> wired_to o ro D' w.
Proof.
  intros HD [H1 H2 H3]. split; [done|done|]. intros b Hb. destruct (H3 b Hb) as (d & [? ? ? ? Hf Hdn]). exists d.
  split; try done.
  - intros i Hi He. apply Hf; [done|]. intros e. rewrite HD. apply He.
  - intros e. rewrite <- HD. apply Hdn.
Qed.

Lemma upstream_in b e : e ∈ calc_upstream_edges edges b <-> e ∈ edges /\ block (dst e) = b.
Proof. unfold calc_upstream_edges. rewrite list_elem_of_filter. tauto. Qed.

Lemma edges_NoDup : NoDup edges.
Proof. destruct Hedges as [_ Hn]. by apply NoDup_fmap_1 in Hn. Qed.

Lemma connect_block_inputs_ok o ro (D : edge -> Prop) w b : wired_to o ro D w -> b ∈ calc_used_blocks edges ->
  (forall e, D e -> e ∈ edges /\ block (dst e) <> b) ->
  exists w' ro', connect_block_inputs is_block blocks edges b w = Ok w' /\
    wired_to o ro' (fun x => D x \/ (x ∈ edges /\ block (dst x) = b)) w'.
Proof.
  intros Hw Hb HD. unfold connect_block_inputs. rewrite Hblocks by done. cbn [negb].
  destruct (for_each_reaches (connect_edge is_block blocks b)
    (fun seen w' => exists ro', wired_to o ro' (fun x => D x \/ x ∈ seen) w')
    (calc_upstream_edges edges b) w) as (w' & Hf & ro' & H).
  - exists ro. eapply wired_to_iff; [|exact Hw]. intros e. split; [by left|]. intros [?|?%not_elem_of_nil]; done.
  - intros seen e rest w1 Hl (ro1 & Hw1). assert (e ∈ calc_upstream_edges edges b) as He by (rewrite Hl; set_solver).
    assert (forall x, x ∈ seen -> x ∈ edges) as Hseen.
    { intros x Hx. assert (x ∈ calc_upstream_edges edges b) as Hxu by (rewrite Hl; set_solver). by apply upstream_in in Hxu as [? _]. }
    apply upstream_in in He as [He <-].
    destruct (connect_edge_ok o ro1 _ w1 e Hw1 He) as (w2 & ro2 & E & Hw2).
    + intros [Hx|Hx]; [by apply (HD e Hx)|].
      pose proof (NoDup_filter (fun p => block (dst p) = block (dst e)) edges edges_NoDup) as Hnd.
      fold (calc_upstream_edges edges (block (dst e))) in Hnd. rewrite Hl in Hnd.
      apply NoDup_app in Hnd as (_ & Hnd & _). apply (Hnd e Hx). constructor.
    + intros x [Hx|Hx]; [by apply HD|by apply Hseen].
    + exists w2. split; [done|]. exists ro2. eapply wired_to_iff; [|exact Hw2]. intros x.
      cbn. rewrite elem_of_app, list_elem_of_singleton. tauto.
  - exists w', ro'. split; [done|]. eapply wired_to_iff; [|exact H]. intros x. cbn. by rewrite upstream_in.
Qed.

Lemma second_loop_ok o w : heap_ok o w -> (forall b, b ∈ calc_used_blocks edges -> made o w b) ->
  exists w' ro, for_each (connect_block_inputs is_block blocks edges) (calc_used_blocks edges) w = Ok w' /\
    wired_to o ro (fun x => x ∈ edges) w'.
Proof.
  intros Ho Hm. destruct (for_each_reaches (connect_block_inputs is_block blocks edges)
    (fun seen w' => exists ro, wired_to o ro (fun x => x ∈ edges /\ block (dst x) ∈ seen) w')
    (calc_used_blocks edges) w) as (w' & Hf & ro & H).
  - exists ∅. split; [done|by intros r e; rewrite lookup_empty|]. intros b Hb. destruct (Hm b Hb) as (d & Hd & Hin & Hout).
    exists d. split; try done.
    + by rewrite Hin, length_replicate.
    + intros i x. rewrite Hin. intros Hx. by apply lookup_replicate in Hx as [? _].
    + intros i Hi _. rewrite Hin. by apply lookup_replicate_2.
    + by intros e [_ ?%not_elem_of_nil].
  - intros seen b rest w1 Hl (ro1 & Hw1). assert (b ∈ calc_used_blocks edges) as Hb by (rewrite Hl; set_solver).
    destruct (connect_block_inputs_ok o ro1 _ w1 b Hw1 Hb) as (w2 & ro2 & E & Hw2).
    + intros e [He Hs]. split; [done|]. intros <-.
      pose proof (unique_vector_NoDup (mjoin (map (fun p => [block (src p); block (dst p)]) edges))) as Hnd.
      fold (calc_used_blocks edges) in Hnd. rewrite Hl in Hnd. apply NoDup_app in Hnd as (_ & Hnd & _).
      apply (Hnd _ Hs). constructor.
    + exists w2. split; [done|]. exists ro2. eapply wired_to_iff; [|exact Hw2]. intros x. cbn.
      rewrite elem_of_app, list_elem_of_singleton. tauto.
  - exists w', ro. split; [done|]. eapply wired_to_iff; [|exact H]. intros e. cbn. split; [tauto|].
    intros He. split; [done|by apply used_dst].
Qed.

(** Each buffer is large enough, and each reader starts with zeros for the
    history of its block. *)
Record set_up_sizes (w : world) : Prop := {
  outputs_serve : forall e a, block e ∈ calc_used_blocks edges -> out_at w e a ->
    exists buf, buffers w !! a = Some buf /\ serves e buf;
  inputs_preloaded : forall e, e ∈ edges -> exists i, in_at w (dst e) i /\ attached w i (history (blocks (block (dst e))) - 1)
}.

Lemma setup_connections_sized w : heap_ok ∅ w ->
  exists w', setup_connections output_signature is_block blocks relative_rate granularity make edges w = Ok w' /\
    set_up size edges w' /\ set_up_sizes w'.
Proof.
  intros Hw. unfold setup_connections. destruct (first_loop_ok w Hw) as (w1 & o & -> & Ho & Hm). rewrite ok_bind.
  destruct (second_loop_ok o w1 Ho Hm) as (w2 & ro & -> & [Hh Hro Hb]). exists w2. split; [done|].
  assert (forall x c, block x ∈ calc_used_blocks edges -> out_at w2 x c -> o !! c = Some x) as Hown.
  { intros x c Hu (d & Hd & Hp & Hc). destruct (Hb _ Hu) as (d' & [Hd' [Hl Hout] _ _ _ _]).
    assert (d' = d) as -> by congruence. pose proof (lookup_lt_Some _ _ _ Hc) as Hlt.
    destruct (Hout (Z.to_nat (port x)) ltac:(lia)) as (a & Ha & Hoa). assert (c = a) as -> by congruence.
    by rewrite endpoint_nat in Hoa. }
  split; split.
  - intros b Hu. destruct (Hb b Hu) as (d & [Hd [Hl _] Hi _ _ _]). eauto.
  - intros e He. destruct (Hb _ (used_dst _ He)) as (d & Hd).
    destruct (wb_done _ _ _ _ _ _ Hd e He eq_refl) as (a & r & Hs & Ha & Hr).
    destruct (port_ok_nat e true He) as [Hp _]. exists (a, r), a. split_and!; [|done..|by eapply attached_reader].
    exists d. split; [by apply Hd|]. by split.
  - intros b d i Hu Hd Hi. destruct (Hb b Hu) as (d' & [Hd' [Hl Hout] _ _ _ _]).
    assert (d' = d) as -> by congruence. destruct (Hout i ltac:(lia)) as (a & Ha & Hoa). exists a. split; [done|].
    destruct (owned _ _ Hh _ _ Hoa) as (buf & Hbuf & _). eauto.
  - intros e e' a Hu Hu' He He'. apply Hown in He, He'; [|done..]. congruence.
  - assert (forall x c r, block x ∈ calc_used_blocks edges -> in_at w2 x (c, r) -> ro !! r = Some x) as Hin.
    { intros x c r Hu (d & Hd & Hp & Hc). destruct (Hb _ Hu) as (d' & [Hd' _ _ Hr _ _]).
      assert (d' = d) as -> by congruence. apply Hr in Hc. by rewrite endpoint_nat in Hc. }
    intros e e' a a' r Hu Hu' He He'. apply Hin in He, He'; [|done..]. congruence.
  - apply Hh.
  - apply Hh.
  - intros e a Hu Ha. apply (owned _ _ Hh). by apply Hown.
  - intros e He. destruct (Hb _ (used_dst _ He)) as (d & Hd).
    destruct (wb_done _ _ _ _ _ _ Hd e He eq_refl) as (a & r & Hs & _ & Hr).
    destruct (port_ok_nat e true He) as [Hp _]. exists (a, r). split; [|done]. exists d. split; [by apply Hd|]. by split.
Qed.

Lemma setup_connections_ok w : heap_ok ∅ w ->
  exists w', setup_connections output_signature is_block blocks relative_rate granularity make edges w = Ok w' /\
    set_up size edges w'.
Proof. intros (w' & ? & ? & _)%setup_connections_sized. by exists w'. Qed.


(** C17. Wiring up a validated flow graph of ordinary blocks succeeds: every edge
    gets a reader, at its destination, of the buffer at its source; every slot
    is filled; no two ports share a buffer or a reader; and every buffer, with
    its preloaded readers, is a stream.  The buffer of an output holds at least
    twice the output multiple of the block that writes it, what each block that
    reads it wants for its history and output multiple, and the default number of
    bytes, and not more than [size] items; each reader starts with as many items to
    read as its block needs of the past. *)
Theorem setup_connections_spec w : heap_ok ∅ w ->
  exists w', setup_connections output_signature is_block blocks relative_rate granularity make edges w = Ok w' /\
    set_up size edges w' /\ set_up_sizes w'.
Proof. apply setup_connections_sized. Qed.

(** ** What is set up can run *)

(** Every slot of an input is the end of an edge. *)
Lemma in_slot_filled w b d i : set_up size edges w -> b ∈ calc_used_blocks edges -> details w !! b = Some d ->
  (i < length (in_slots d))%nat -> exists x, in_slots d !! i = Some (Some x) /\ the_reader_of w x.
Proof.
  intros Hw Hb Hd Hi. destruct (slots _ _ _ Hw b Hb) as (d' & Hd' & Hl & _). assert (d' = d) as -> by congruence.
  assert (Z.of_nat i ∈ calc_used_ports edges b true) as Hp.
  { rewrite Hports by done. apply elem_of_seqZ. lia. }
  apply calc_used_ports_in in Hp as (e & He & Hdst). cbn in Hdst.
  destruct (inputs_filled _ _ _ Hw e He) as (x & a & (dx & Hdx & _ & Hx) & _ & _ & Hr). rewrite Hdst in Hdx, Hx. cbn in *.
  rewrite Nat2Z.id in Hx. assert (dx = d) as -> by congruence. eauto.
Qed.
End Setup.

Lemma mapM_filled {A} (l : list (option A)) :
  (forall i, (i < length l)%nat -> exists x, l !! i = Some (Some x)) ->
  exists k, mapM id l = Some k /\ l = map Some k.
Proof.
  induction l as [|x l IH]; intros Hl; [by exists []|].
  destruct (Hl 0%nat ltac:(simpl; lia)) as (y & [= ->]).
  destruct IH as (k & Hk & ->).
  { intros i Hi. destruct (Hl (S i) ltac:(simpl; lia)) as (z & Hz). eauto. }
  exists (y :: k). split; [|done]. cbn. by rewrite Hk.
Qed.

Lemma map_relate {A B} (R : A -> B -> Prop) (h : gmap Z A) :
  (forall a x, h !! a = Some x -> exists y, R x y) ->
  exists g : gmap Z B, forall a, option_Forall2 R (h !! a) (g !! a).
Proof.
  induction h as [|a x h Ha IH] using map_ind; intros Hh.
  { exists ∅. intros a. rewrite !lookup_empty. constructor. }
  destruct (Hh a x ltac:(apply lookup_insert_eq)) as (y & Hy).
  destruct IH as (g & Hg).
  { intros b z Hb. apply (Hh b). by rewrite lookup_insert_ne by congruence. }
  exists (<[a := y]> g). intros b. destruct (decide (b = a)) as [->|].
  - rewrite !lookup_insert_eq. by constructor.
  - by rewrite !lookup_insert_ne by done.
Qed.

Section Ready.
Context (edges : list edge) (size : Z) (w : world) (Hw : set_up size edges w).
Context (Hports : forall b inp, b ∈ calc_used_blocks edges ->
  calc_used_ports edges b inp = seqZ 0 (Z.of_nat (length (calc_used_ports edges b inp)))).

Lemma streams : exists g, heap_rep (buffers w) g.
Proof using Hw.
  destruct (map_relate (fun b x => rep {| buf := b; room := g_room x |} (g_hist x) (g_pos x)) (buffers w)) as (g & Hg).
  - intros a buf Ha. destruct (buffers_rep _ _ _ Hw a buf Ha) as (H & pos & Hr).
    by exists {| g_room := 0; g_hist := H; g_pos := pos |}.
  - by exists g.
Qed.

Lemma reader_waits g i : heap_rep (buffers w) g -> the_reader_of w i -> exists j, waiting g i j.
Proof using Type.
  intros Hg (buf & Hbuf & rd & Hrd). specialize (Hg i.1). rewrite Hbuf in Hg. inversion Hg as [? x Hr Hb Hx|]; subst.
  destruct (rep_reader _ _ _ Hr i.2 rd Hrd) as (p & Hp & _). exists (zlen (g_hist x) - p), x, p.
  split_and!; [by symmetry|done|lia].
Qed.

(** Every block of a flow graph that is set up can be run by the executor: its
    detail is complete, its inputs and outputs are distinct, and they are wired
    to buffers that are streams. *)
Theorem set_up_blocks_ready : exists g, heap_rep (buffers w) g /\
  forall b, b ∈ calc_used_blocks edges -> exists d fd, details w !! b = Some d /\ finish d = Some fd /\
    NoDup (d_input fd) /\ NoDup (d_output fd) /\ wires_ok fd g /\ d_detail_done fd = false /\
    (d_input fd <> [] \/ d_output fd <> []).
Proof using Hw Hports.
  destruct streams as [g Hg]. exists g. split; [done|]. intros b Hb.
  destruct (slots _ _ _ Hw b Hb) as (d & Hd & Hlin & Hlout).
  destruct (mapM_filled (in_slots d)) as (ins & Hins & Ein).
  { intros i Hi. destruct (in_slot_filled edges Hports size w b d i Hw Hb Hd Hi) as (x & Hx & _). eauto. }
  destruct (mapM_filled (out_slots d)) as (outs & Houts & Eout).
  { intros i Hi. destruct (outputs_filled _ _ _ Hw b d i Hb Hd Hi) as (a & Ha & _). eauto. }
  exists d, {| d_produce_or := 0; d_input := ins; d_output := outs; d_detail_done := false |}.
  assert (forall i x, ins !! i = Some x -> in_slots d !! i = Some (Some x)) as Hi.
  { intros i x Hx. by rewrite Ein, list_lookup_fmap, Hx. }
  assert (forall i x, outs !! i = Some x -> out_slots d !! i = Some (Some x)) as Ho.
  { intros i x Hx. by rewrite Eout, list_lookup_fmap, Hx. }
  assert (forall i j : nat, {| block := b; port := Z.of_nat i |} = {| block := b; port := Z.of_nat j |} -> i = j) as Hinj.
  { intros i j E. injection E. lia. }
  split; [done|]. split; [unfold finish; by rewrite Hins; cbn; rewrite Houts|]. cbn [d_input d_output d_detail_done].
  split_and!; [| | |done|].
  - apply NoDup_alt. intros i j [a r] Hx Hy. apply Hinj.
    eapply (inputs_distinct _ _ _ Hw _ _ a a r); [done|done| |]; exists d; (split; [done|]); cbn; rewrite Nat2Z.id;
      (split; [lia|by apply Hi]).
  - apply NoDup_alt. intros i j a Hx Hy. apply Hinj.
    eapply (outputs_distinct _ _ _ Hw _ _ a); [done|done| |]; exists d; (split; [done|]); cbn; rewrite Nat2Z.id;
      (split; [lia|by apply Ho]).
  - split.
    + intros x [i Hx]%list_elem_of_lookup. pose proof (lookup_lt_Some _ _ _ (Hi _ _ Hx)) as Hlt.
      destruct (in_slot_filled edges Hports size w b d i Hw Hb Hd Hlt) as (y & Hy & Hr).
      rewrite (Hi _ _ Hx) in Hy. injection Hy as <-. by apply reader_waits.
    + intros a [i Ha]%list_elem_of_lookup. pose proof (lookup_lt_Some _ _ _ (Ho _ _ Ha)) as Hlt.
      destruct (outputs_filled _ _ _ Hw b d i Hb Hd Hlt) as (y & Hy & buf & Hbuf).
      rewrite (Ho _ _ Ha) in Hy. injection Hy as <-. specialize (Hg a). rewrite Hbuf in Hg. inversion Hg. eauto.
  - apply calc_used_blocks_in in Hb as (e & He & [-> | ->]).
    + right. intros ->. destruct (inputs_filled _ _ _ Hw e He) as (x & a & _ & (dx & Hdx & _ & Hx) & _).
      assert (dx = d) as -> by congruence. by rewrite Eout in Hx.
    + left. intros ->. destruct (inputs_filled _ _ _ Hw e He) as (x & a & (dx & Hdx & _ & Hx) & _).
      assert (dx = d) as -> by congruence. by rewrite Ein in Hx.
Qed.
End Ready.

(** ** Witness: a source 1, a filter 2 and a sink 3 with two inputs; large items *)

Definition demo_sig (n : Z) : io_signature :=
  {| min_streams := n; max_streams := n; sizeof_stream_items := [65536] |}.
Definition demo_in (b : Z) : io_signature := demo_sig (if (b =? 1) || (b =? 10) then 0 else if b =? 3 then 2 else 1).
Definition demo_out (b : Z) : io_signature := demo_sig (if (b =? 3) || (b =? 10) then 0 else 1).
Definition demo_make (sz n : Z) : option (list Z) := Some (replicate (Z.to_nat (n / sz)) 0).
Definition demo_rate (b : Z) : spec_float := double_of_int 1.
Definition demo_edge (a p b q : Z) : edge :=
  {| src := {| block := a; port := p |}; dst := {| block := b; port := q |} |}.
Definition demo_edges : list edge := [demo_edge 1 0 2 0; demo_edge 2 0 3 0; demo_edge 2 0 3 1].

Lemma demo_edges_ok : edges_ok demo_in demo_out demo_edges.
Proof.
  split; [|apply (bool_decide_unpack (NoDup _)); vm_compute; exact I].
  repeat constructor; cbn; first [done|lia|right; lia|by vm_compute].
Qed.

Lemma demo_used b : b ∈ calc_used_blocks demo_edges -> b = 1 \/ b = 2 \/ b = 3.
Proof.
  intros (e & He & Hb)%calc_used_blocks_in. unfold demo_edges in He. rewrite !elem_of_cons in He.
  destruct He as [-> | [-> | [-> | ?%not_elem_of_nil]]]; cbn in Hb; intuition.
Qed.

Lemma demo_ports b inp : b ∈ calc_used_blocks demo_edges ->
  calc_used_ports demo_edges b inp = seqZ 0 (Z.of_nat (length (calc_used_ports demo_edges b inp))).
Proof. intros [-> | [-> | ->]]%demo_used; destruct inp; vm_compute; reflexivity. Qed.

Lemma demo_item_size b p : 0 <= p -> 0 < item_size (demo_out b) p.
Proof.
  intros Hp. unfold item_size, demo_out, demo_sig. cbn [sizeof_stream_items length].
  replace (Z.min p (Z.of_nat 1 - 1)) with 0 by lia. reflexivity.
Qed.

Lemma demo_makes sz n : 0 < sz -> 0 < n < 2 ^ 31 -> exists mem, demo_make sz (n * sz) = Some mem /\ Z.of_nat (length mem) = n.
Proof. intros Hsz Hn. eexists. split; [reflexivity|]. rewrite length_replicate, Z.div_mul by lia. lia. Qed.

Lemma demo_parameters : (1 <= output_multiple copy_block /\ 2 * output_multiple copy_block <= 65536) /\
  forall b, 1 <= history copy_block /\ 2 * history copy_block <= downstream_nitems (fun _ => copy_block) demo_rate b <= 65536.
Proof. split; [split; vm_compute; discriminate|]. intros b. repeat split; vm_compute; discriminate. Qed.

Definition demo_world : world := {| buffers := ∅; details := ∅; fresh := 0 |}.

Lemma demo_heap_ok edges : heap_ok demo_out (fun _ => copy_block) demo_rate edges 69632 ∅ demo_world.
Proof.
  split; cbn.
  - intros a. rewrite lookup_empty. by intros [].
  - intros a buf. by rewrite lookup_empty.
  - split; [lia|]. intros a buf. by rewrite lookup_empty.
  - intros a buf r. by rewrite lookup_empty.
  - intros a e. by rewrite lookup_empty.
Qed.

Lemma setup_connections_spec_witness : exists w,
  setup_connections demo_out (fun _ => true) (fun _ => copy_block) demo_rate 4096 demo_make demo_edges demo_world = Ok w /\
  set_up 69632 demo_edges w /\ set_up_sizes demo_out (fun _ => copy_block) demo_rate demo_edges w.
Proof.
  apply (setup_connections_spec demo_in demo_out (fun _ => true) (fun _ => copy_block) demo_rate 4096 demo_make
    demo_edges demo_edges_ok demo_ports (fun _ _ => eq_refl) (fun b p _ => demo_item_size b p)
    ltac:(split; [reflexivity|vm_compute; discriminate]) demo_makes 65536 69632
    ltac:(split; [vm_compute; discriminate|vm_compute; reflexivity]) ltac:(lia)
    (fun _ _ => proj1 demo_parameters) (fun b _ => proj2 demo_parameters b)).
  exact (demo_heap_ok demo_edges).
Defined.
