(* ===== verification/GrTpb.v ===== *)
(** * A thread for each block: [runtime/gr_tpb_thread_body.cc], [gr_tpb_detail.cc]

    The default scheduler gives each block a thread that runs iterations of the
    block executor, tells the neighbours when it moved something, and sleeps when
    the block is blocked.  Under every interleaving the iterations are safe, and
    a thread never sleeps through a change of its inputs or outputs: whoever made
    the change is about to wake it. *)

From S2P Require Import Prelude.
From stdpp Require Import functions gmap list.
From S2P Require Import GrBuffer GrBlock GrBlockExecutor GrFootprint.
#[local] Open Scope Z_scope.
#[local] Open Scope cint_scope.

(** ** State *)

(** [gr_tpb_detail], with the messages not yet handled. *)
Record gr_tpb_detail (Msg : Type) := {
  input_changed : bool; output_changed : bool; msg_queue : list Msg
}.
Arguments input_changed {Msg}. Arguments output_changed {Msg}. Arguments msg_queue {Msg}.
Arguments Build_gr_tpb_detail {Msg}.

(** Where a thread is.  [Notifying] has the calls left to make, of
    [set_input_changed] (true) or [set_output_changed] of a block; [last] if the
    thread returns after them. *)
Inductive thread :=
| Top
| Cleared
| Notifying (calls : list (bool * Z)) (last : bool)
| Wait_in | Sleep_in
| Wait_out | Sleep_out
| Exited.

Record config (S Msg : Type) := {
  bufs : heap;
  dets : Z -> gr_block_detail;
  states : Z -> S;
  tpb : Z -> gr_tpb_detail Msg;
  threads : Z -> thread
}.
Arguments bufs {S Msg}. Arguments dets {S Msg}. Arguments states {S Msg}. Arguments tpb {S Msg}.
Arguments threads {S Msg}. Arguments Build_config {S Msg}.

(** What can happen: a thread takes a step, wakes for no reason, is interrupted;
    a message is put in a block's queue. *)
Inductive event (Msg : Type) :=
| Run (b : Z)
| Spurious (b : Z)
| Interrupt (b : Z)
| Post (b : Z) (msg : Msg).
Arguments Run {Msg}. Arguments Spurious {Msg}. Arguments Interrupt {Msg}. Arguments Post {Msg}.

Section Tpb.
Context {S Msg : Type} (blocks : Z -> gr_block S) (dispatch_msg : Z -> Msg -> S -> S).
(** The blocks that have threads; [link()] of buffers and of readers. *)
Context (running : list Z) (writer : Z -> Z) (reader_block : Z * Z -> Z).
Abbreviation config := (config S Msg).

Definition set_thread (c : config) (b : Z) (t : thread) : config :=
  {| bufs := bufs c; dets := dets c; states := states c; tpb := tpb c; threads := <[b := t]> (threads c) |}.
Definition set_tpb (c : config) (b : Z) (d : gr_tpb_detail Msg) : config :=
  {| bufs := bufs c; dets := dets c; states := states c; tpb := <[b := d]> (tpb c); threads := threads c |}.
Definition set_state (c : config) (b : Z) (s : S) : config :=
  {| bufs := bufs c; dets := dets c; states := <[b := s]> (states c); tpb := tpb c; threads := threads c |}.
Definition set_executed (c : config) (b : Z) (d : gr_block_detail) (s : S) (h : heap) : config :=
  {| bufs := h; dets := <[b := d]> (dets c); states := <[b := s]> (states c); tpb := tpb c; threads := threads c |}.

(** ** [gr_tpb_detail] *)

Definition clear_changed (d : gr_tpb_detail Msg) : gr_tpb_detail Msg :=
  {| input_changed := false; output_changed := false; msg_queue := msg_queue d |}.

(** [notify_one]: the thread of the block is the only one that waits. *)
Definition wake_in (t : thread) : thread := match t with Sleep_in => Wait_in | _ => t end.
Definition wake_out (t : thread) : thread := match t with Sleep_out => Wait_out | _ => t end.

Definition set_input_changed (b : Z) (c : config) : config :=
  let d := tpb c b in
  set_thread (set_tpb c b {| input_changed := true; output_changed := output_changed d; msg_queue := msg_queue d |})
    b (wake_in (threads c b)).

Definition set_output_changed (b : Z) (c : config) : config :=
  let d := tpb c b in
  set_thread (set_tpb c b {| input_changed := input_changed d; output_changed := true; msg_queue := msg_queue d |})
    b (wake_out (threads c b)).

Definition insert_tail (b : Z) (msg : Msg) (c : config) : config :=
  let d := tpb c b in
  set_thread (set_tpb c b {| input_changed := input_changed d; output_changed := output_changed d;
                             msg_queue := msg_queue d ++ [msg] |})
    b (wake_out (wake_in (threads c b))).

Definition notify_upstream (d : gr_block_detail) : list (bool * Z) :=
  map (fun i => (false, writer i.1)) (d_input d).

Definition notify_downstream (d : gr_block_detail) (h : heap) : list (bool * Z) :=
  mjoin (map (fun a => map (fun r => (true, reader_block (a, r))) (from_option d_readers [] (h !! a))) (d_output d)).

Definition notify_neighbors (d : gr_block_detail) (h : heap) : list (bool * Z) :=
  notify_downstream d h ++ notify_upstream d.

(** ** The thread *)

(** [switch (s)]. *)
Definition after_iteration (d : gr_block_detail) (h : heap) (s : state) : thread :=
  match s with
  | READY => Notifying (notify_neighbors d h) false
  | READY_NO_OUTPUT => Notifying (notify_upstream d) false
  | DONE => Notifying (notify_neighbors d h) true
  | BLKD_IN => Wait_in
  | BLKD_OUT => Wait_out
  end.

(** Take a message and handle it. *)
Definition handle_msg (b : Z) (msg : Msg) (rest : list Msg) (c : config) : config :=
  let d := tpb c b in
  set_state (set_tpb c b {| input_changed := input_changed d; output_changed := output_changed d; msg_queue := rest |})
    b (dispatch_msg b msg (states c b)).

(** A step of the thread of [b]; [None] if it is asleep or has returned, or if
    the iteration throws. *)
Definition run_thread (b : Z) (c : config) : option config :=
  match threads c b with
  | Top =>
      match msg_queue (tpb c b) with
      | msg :: rest => Some (handle_msg b msg rest c)
      | [] => Some (set_thread (set_tpb c b (clear_changed (tpb c b))) b Cleared)
      end
  | Cleared =>
      match run_one_iteration (blocks b) (dets c b) (states c b) (bufs c) with
      | Ok (d, s, h, st) => Some (set_thread (set_executed c b d s h) b (after_iteration d h st))
      | Throw _ => None
      end
  | Notifying ((inp, t) :: calls) last =>
      let c := set_thread c b (Notifying calls last) in
      Some ((if inp : bool then set_input_changed t else set_output_changed t) c)
  | Notifying [] last => Some (set_thread c b (if last : bool then Exited else Top))
  | Wait_in =>
      if input_changed (tpb c b) then Some (set_thread c b Top)
      else match msg_queue (tpb c b) with
           | msg :: rest => Some (handle_msg b msg rest c)
           | [] => Some (set_thread c b Sleep_in)
           end
  | Wait_out =>
      if output_changed (tpb c b) then Some (set_thread c b Top)
      else match msg_queue (tpb c b) with
           | msg :: rest => Some (handle_msg b msg rest c)
           | [] => Some (set_thread c b Sleep_out)
           end
  | Sleep_in | Sleep_out | Exited => None
  end.

Definition tpb_step (e : event Msg) (c : config) : option config :=
  match e with
  | Run b => if bool_decide (b ∈ running) then run_thread b c else None
  | Spurious b => Some (set_thread c b (wake_out (wake_in (threads c b))))
  | Interrupt b =>
      match threads c b with
      | Top | Sleep_in | Sleep_out => Some (set_thread c b Exited)
      | _ => None
      end
  | Post b msg => Some (insert_tail b msg c)
  end.

(** The constructor of the scheduler: done flags cleared, a thread at the top for
    each block. *)
Definition clear_done (bs : list Z) (c : config) : res buffer_error config :=
  for_each (fun b c => '(d, h) ← set_done (dets c b) false (bufs c);
    Ok (set_executed c b d (states c b) h)) bs c.

Definition gr_scheduler_tpb (h : heap) (details : Z -> gr_block_detail) (ss : Z -> S) : res buffer_error config :=
  clear_done running {| bufs := h; dets := details; states := ss;
    tpb := fun _ => {| input_changed := false; output_changed := false; msg_queue := [] |};
    threads := fun _ => Top |}.

Definition tsteps : config -> list (event Msg) -> config -> Prop := lsteps (fun c e c' => tpb_step e c = Some c').
End Tpb.

(** ** Heaps and frames *)

(** The inputs and outputs of a detail exist. *)
Definition wired_in (h : heap) (d : gr_block_detail) : Prop :=
  (forall i, i ∈ d_input d -> exists buf, h !! i.1 = Some buf /\ is_Some (readers buf !! i.2)) /\
  (forall a, a ∈ d_output d -> is_Some (h !! a)).

Lemma wired_in_wires_ok h g d : heap_rep h g -> wired_in h d -> wires_ok d g.
Proof.
  intros Hr [Hi Ho]. split.
  - intros i Hin. destruct (Hi i Hin) as (buf & Hbuf & rd & Hrd). specialize (Hr i.1). rewrite Hbuf in Hr.
    inversion Hr as [? x Hrep Hb Hx|]; subst. destruct (rep_reader _ _ _ Hrep i.2 rd Hrd) as (p & Hp & _).
    exists (Z.of_nat (length (g_hist x)) - p), x, p. split_and!; [by symmetry|done|lia].
  - intros a Ha. destruct (Ho a Ha) as [buf Hbuf]. specialize (Hr a). rewrite Hbuf in Hr. inversion Hr. eauto.
Qed.

Lemma frame_wired_in W R h h' d : frame W R h h' -> wired_in h d -> wired_in h' d.
Proof.
  intros Hf [Hi Ho]. split.
  - intros i Hin. destruct (Hi i Hin) as (buf & Hbuf & Hrd). specialize (Hf i.1). rewrite Hbuf in Hf.
    inversion Hf as [? buf' Hb E1 E2|]; subst. exists buf'. split; [done|]. by apply Hb.
  - intros a Ha. destruct (Ho a Ha) as [buf Hbuf]. specialize (Hf a). rewrite Hbuf in Hf. inversion Hf. eauto.
Qed.

Lemma frame_sized W R h h' size : frame W R h h' -> sized size h -> sized size h'.
Proof.
  intros Hf [Hp Hs]. split; [done|]. intros a b Hb. specialize (Hf a). rewrite Hb in Hf.
  inversion Hf as [b0 ? Hbf E1 E2|]; subst. rewrite (same_size _ _ _ _ Hbf). eapply Hs. by symmetry.
Qed.

Lemma own_same_sizes d h h' : own d h h' -> same_sizes h h'.
Proof. intros Hf a. destruct (Hf a) as [b b' [E _ _ _ _]|]; [cbn; by rewrite E|done]. Qed.

(** *** A block's turn, as far as the streams are concerned *)

Definition serves (bs : list Z) (wires : Z -> gr_block_detail) (x y : heap * gmap Z ghost) : Prop :=
  heap_rep y.1 y.2 /\ same_sizes x.1 y.1 /\ exists b, b ∈ bs /\ served (wires b) x.1 x.2 y.2.

Lemma served_wires d d' h g g' : wires_of d = wires_of d' -> served d h g g' -> served d' h g g'.
Proof. unfold served. by intros [= <- <-]. Qed.

Lemma neutral_serves bs wires h h' g b : b ∈ bs -> heap_rep h g -> heap_rep h' g -> wires_ok (wires b) g -> quiet h h' ->
  serves bs wires (h, g) (h', g).
Proof.
  intros Hb Hr Hr' Hw Hq. apply (quiet_own (wires b)) in Hq. apply own_same_sizes in Hq.
  split_and!; [done|done|]. exists b. split; [done|]. by apply (served_scan (wires b) h g h g).
Qed.

Lemma serves_mono bs bs' wires wires' x y : (forall b, b ∈ bs -> b ∈ bs' /\ wires_of (wires b) = wires_of (wires' b)) ->
  rtc (serves bs wires) x y -> rtc (serves bs' wires') x y.
Proof.
  intros Hb. induction 1 as [|x y z (H1 & H2 & b & Hin & H3) _ IH]; [done|]. eapply rtc_l; [|exact IH].
  destruct (Hb b Hin) as [Hin' Hw]. split_and!; [done..|]. exists b. split; [done|]. by eapply served_wires.
Qed.

(** *** What a block sees of its inputs and outputs *)

Definition avail (h : heap) (i : Z * Z) : res buffer_error Z := b ← the_buffer h i.1; items_available b i.2.
Definition space (h : heap) (a : Z) : res buffer_error Z :=
  b ← the_buffer h a; match space_available b with Ok (_, n) => Ok n | Throw e => Throw e end.

Lemma frame_avail (W : Z -> Prop) (R : Z * Z -> Prop) h h' i : frame W R h h' -> ~ W i.1 -> ~ R i ->
  avail h' i = avail h i.
Proof.
  intros Hf HW HR. unfold avail, the_buffer. destruct i as [a r]. specialize (Hf a). cbn in *.
  destruct Hf as [b b' [Hs _ _ Hw Hr]|]; [|done]. rewrite !ok_bind. unfold items_available, the_reader.
  destruct Hw as [?|Hw]; [done|]. destruct (Hr r) as [?|E]; [done|]. rewrite E, Hw.
  destruct (readers b !! r); [|done]. rewrite !ok_bind. unfold index_sub. by rewrite Hs.
Qed.

Lemma frame_space (W : Z -> Prop) (R : Z * Z -> Prop) h h' a : frame W R h h' -> ~ W a -> (forall r, ~ R (a, r)) ->
  space h' a = space h a.
Proof.
  intros Hf HW HR. unfold space, the_buffer. specialize (Hf a).
  destruct Hf as [b b' [Hs Hv _ Hw Hr]|]; [|done]. rewrite !ok_bind.
  destruct Hw as [?|Hw]; [done|].
  assert (forall r, readers b' !! r = readers b !! r) as E by (intros r; destruct (Hr r) as [?|]; [by destruct (HR r)|done]).
  assert (forall r, the_reader b' r = the_reader b r) as Er by (intros r; unfold the_reader; by rewrite E).
  assert (forall r, items_available b' r = items_available b r) as Ei.
  { intros r. unfold items_available. rewrite Er, Hw. destruct (the_reader b r); [|done].
    rewrite !ok_bind. unfold index_sub. by rewrite Hs. }
  unfold space_available. rewrite Hv. destruct (d_readers b) as [|r0 rs]; [by rewrite Hs|].
  rewrite Ei, Er. destruct (items_available b r0) as [n|]; [|done]. rewrite !ok_bind.
  destruct (the_reader b r0) as [rd|]; [|done]. rewrite !ok_bind.
  assert (forall acc, for_each (survey_reader b') rs acc = for_each (survey_reader b) rs acc) as El.
  { clear -Ei Er. assert (forall r acc, survey_reader b' r acc = survey_reader b r acc) as Es.
    { intros r acc. unfold survey_reader. by rewrite Ei, Er. }
    induction rs as [|r rs IH]; intros acc; [done|]. cbn. rewrite Es. destruct (survey_reader b r acc); [apply IH|done]. }
  rewrite El. destruct (for_each _ rs _) as [[m u]|]; [|done]. rewrite !ok_bind.
  destruct (negb (u =? d_last_min_items_read b')), (negb (u =? d_last_min_items_read b)); cbn; by rewrite Hs.
Qed.

(** What the thread waits for: inputs ([true]) or outputs. *)
Definition sees (inp : bool) (h : heap) (d : gr_block_detail) : list (res buffer_error Z) :=
  if inp then map (avail h) (d_input d) else map (space h) (d_output d).

Definition waits (inp : bool) (t : thread) : bool :=
  match t with
  | Wait_in | Sleep_in => inp
  | Wait_out | Sleep_out => negb inp
  | _ => false
  end.

Definition blocked (inp : bool) : state := if inp then BLKD_IN else BLKD_OUT.

Lemma sees_quiet inp h h' d : quiet h h' -> sees inp h' d = sees inp h d.
Proof.
  intros Hq. unfold sees. destruct inp; apply map_ext_in; intros x _.
  - eapply frame_avail; [exact Hq|intros []..].
  - eapply frame_space; [exact Hq|intros []|intros r []].
Qed.

(** *** Whoever changes what a block sees is about to notify it *)

Section Neighbours.
Context (writer : Z -> Z) (reader_block : Z * Z -> Z) (wires : Z -> gr_block_detail) (running : list Z).
Context (Hwriter : forall b a, b ∈ running -> a ∈ d_output (wires b) -> writer a = b).
Context (Hreader : forall b i, b ∈ running -> i ∈ d_input (wires b) -> reader_block i = b).

Lemma downstream_told d d' h b a r buf : d_output d' = d_output d -> a ∈ d_output d -> h !! a = Some buf ->
  r ∈ d_readers buf -> reader_block (a, r) = b -> (true, b) ∈ notify_downstream reader_block d' h.
Proof.
  intros Ho Ha Hbuf Hr <-. unfold notify_downstream. rewrite Ho. apply list_elem_of_join. eexists.
  split; [|apply list_elem_of_fmap; exists a; split; [reflexivity|done]]. rewrite Hbuf. cbn.
  apply list_elem_of_fmap. eauto.
Qed.

Lemma upstream_told (d d' : gr_block_detail) b (a r : Z) : d_input d' = d_input d -> (a, r) ∈ d_input d -> writer a = b ->
  (false, b) ∈ notify_upstream writer d'.
Proof.
  intros Hi Hin <-. unfold notify_upstream. rewrite Hi. apply list_elem_of_fmap. by exists (a, r).
Qed.

Definition calls_of (t : thread) : list (bool * Z) := match t with Notifying calls _ => calls | _ => [] end.

Lemma iteration_tells {S} (m : gr_block S) inp b b' d s h d' s' h' st :
  b ∈ running -> b' ∈ running -> b <> b' -> wires_of d = wires_of (wires b') ->
  (forall i, i ∈ d_input (wires b) -> exists buf, h !! i.1 = Some buf /\ i.2 ∈ d_readers buf) ->
  run_one_iteration m d s h = Ok (d', s', h', st) ->
  sees inp h' (wires b) = sees inp h (wires b) \/ (inp, b) ∈ calls_of (after_iteration writer reader_block d' h' st).
Proof using Hwriter Hreader.
  intros Hb Hb' Hne Hwd Hvec Hrun. apply iteration_footprint in Hrun. cbn in Hrun.
  destruct Hrun as (Hw & Hown & Hblk & Hno). unfold own in Hown.
  injection Hwd as Hdi Hdo. injection Hw as Hdi' Hdo'. rewrite Hdi, Hdo in *.
  assert (forall i, i ∈ d_input (wires b) -> i ∉ d_input (wires b')) as Hri.
  { intros i Hi Hi'. apply Hne. by rewrite <- (Hreader b i Hb Hi), (Hreader b' i Hb' Hi'). }
  assert (forall a, a ∈ d_output (wires b) -> a ∉ d_output (wires b')) as Hwo.
  { intros a Ha Ha'. apply Hne. by rewrite <- (Hwriter b a Hb Ha), (Hwriter b' a Hb' Ha'). }
  assert (st = BLKD_IN \/ st = BLKD_OUT \/ st = READY_NO_OUTPUT \/ st = READY \/ st = DONE) as Hst by (destruct st; tauto).
  destruct Hst as [Hst | [Hst | Hst]]; [left; apply sees_quiet, Hblk; by auto..|].
  assert ((false, b) ∈ notify_upstream writer d' \/ forall i, i ∈ d_input (wires b') -> i.1 ∉ d_output (wires b)) as Hup.
  { destruct (decide (Exists (fun i => i.1 ∈ d_output (wires b)) (d_input (wires b')))) as [He|He].
    - left. apply Exists_exists in He as ([a r] & Hi & Ha).
      apply (upstream_told (wires b') d' b a r); [congruence|done|by apply Hwriter].
    - right. intros i Hi Ha. apply He, Exists_exists. eauto. }
  assert ((false, b) ∈ notify_upstream writer d' -> (false, b) ∈ calls_of (after_iteration writer reader_block d' h' st)) as Hup'.
  { destruct Hst as [-> | [-> | ->]]; cbn; unfold notify_neighbors; set_solver. }
  destruct inp.
  - destruct Hst as [Hst | Hst].
    { left. specialize (Hno Hst). unfold reads_only in Hno. rewrite Hdi in Hno. apply map_ext_in. intros i Hi%list_elem_of_In.
      eapply frame_avail; [exact Hno|intros []|]. cbv beta. by apply Hri. }
    destruct (decide (Exists (fun i => i.1 ∈ d_output (wires b')) (d_input (wires b)))) as [He|He].
    + right. apply Exists_exists in He as ([a r] & Hi & Ha).
      assert ((true, b) ∈ notify_downstream reader_block d' h') as Hd.
      { destruct (Hvec (a, r) Hi) as (buf & Hbuf & Hr). cbn in Hbuf, Hr.
        pose proof (Hown a) as Hfa. rewrite Hbuf in Hfa. inversion Hfa as [? buf' Hbf E1 E2|]; subst.
        apply (downstream_told (wires b') d' h' b a r buf'); [congruence|done|done| |by apply Hreader].
        by rewrite (same_vector _ _ _ _ Hbf). }
      destruct Hst as [-> | ->]; cbn; unfold notify_neighbors; set_solver.
    + left. apply map_ext_in. intros i Hi%list_elem_of_In. eapply frame_avail; [exact Hown| |by apply Hri].
      intros Ha. apply He, Exists_exists. eauto.
  - destruct Hup as [Hup|Hup]; [right; by apply Hup'|]. left. apply map_ext_in. intros a Ha%list_elem_of_In.
    eapply frame_space; [exact Hown|by apply Hwo|]. intros r Hr. by apply (Hup (a, r) Hr).
Qed.
End Neighbours.

(** ** The steps *)

Section Steps.
Context {S Msg : Type} (blocks : Z -> gr_block S) (dispatch_msg : Z -> Msg -> S -> S).
Context (running : list Z) (writer : Z -> Z) (reader_block : Z * Z -> Z).
Abbreviation config := (config S Msg).
Abbreviation tpb_step := (tpb_step blocks dispatch_msg running writer reader_block).
Abbreviation after_iteration := (after_iteration writer reader_block).
Implicit Types (c : config) (t : thread).

Definition flag (inp : bool) (d : gr_tpb_detail Msg) : bool := if inp then input_changed d else output_changed d.

(** A notification has arrived or is underway. *)
Definition due (inp : bool) (c : config) (x : Z) : Prop :=
  flag inp (tpb c x) = true \/ exists b, (inp, x) ∈ calls_of (threads c b).

Definition finishing (t : thread) : Prop := t = Exited \/ exists calls, t = Notifying calls true.

(** A step that is not an iteration. *)
Record benign (c c' : config) : Prop := {
  benign_bufs : bufs c' = bufs c;
  benign_dets : dets c' = dets c;
  benign_finishing : forall x, finishing (threads c x) -> finishing (threads c' x);
  benign_waits : forall inp x, waits inp (threads c' x) = true -> waits inp (threads c x) = true;
  benign_due : forall inp x, threads c x <> Top -> due inp c x -> due inp c' x
}.

Lemma upd_eq {A} (f : Z -> A) b v : (<[b := v]> f) b = v.
Proof. apply fn_lookup_insert. Qed.
Lemma upd_ne {A} (f : Z -> A) b v x : x <> b -> (<[b := v]> f) x = f x.
Proof. intros. by apply fn_lookup_insert_ne. Qed.

(** Steps that give one thread a new position without calls and keep the flags
    of the others. *)
Lemma benign_move c b t d :
  (finishing (threads c b) -> finishing t) ->
  (forall inp, waits inp t = true -> waits inp (threads c b) = true) ->
  (forall x, x ∈ calls_of (threads c b) -> x ∈ calls_of t) ->
  (threads c b <> Top -> forall inp, flag inp (tpb c b) = true -> flag inp d = true) ->
  benign c (set_thread (set_tpb c b d) b t).
Proof.
  intros Hf Hw Hc Hd. split; cbn; [done|done| | |].
  - intros x. destruct (decide (x = b)) as [->|]; [by rewrite upd_eq|by rewrite upd_ne].
  - intros inp x. destruct (decide (x = b)) as [->|]; [rewrite upd_eq; apply Hw|by rewrite upd_ne].
  - intros inp x Ht [Hfl|[b0 Hb0]].
    + left. cbn. destruct (decide (x = b)) as [->|]; [rewrite upd_eq; by apply Hd|by rewrite upd_ne].
    + right. exists b0. cbn. destruct (decide (b0 = b)) as [->|]; [rewrite upd_eq; by apply Hc|by rewrite upd_ne].
Qed.

Lemma benign_refl c : benign c c.
Proof. split; auto. Qed.

Lemma wake_calls t : calls_of (wake_in t) = calls_of t /\ calls_of (wake_out t) = calls_of t.
Proof. by destruct t. Qed.
Lemma wake_finishing t : (finishing t -> finishing (wake_in t)) /\ (finishing t -> finishing (wake_out t)).
Proof. destruct t; split; try done; intros [?|[? ?]]; done. Qed.
Lemma wake_waits inp t : (waits inp (wake_in t) = waits inp t) /\ (waits inp (wake_out t) = waits inp t).
Proof. by destruct t. Qed.

(** A thread makes its next call. *)
Lemma benign_notify c b (inp0 : bool) (t : Z) calls last : threads c b = Notifying ((inp0, t) :: calls) last ->
  benign c ((if inp0 : bool then set_input_changed t else set_output_changed t) (set_thread c b (Notifying calls last))).
Proof.
  intros Hb. set (c1 := set_thread c b (Notifying calls last)).
  assert (forall x, calls_of (threads c1 x) = if decide (x = b) then calls else calls_of (threads c x)) as Hc1.
  { intros x. cbn. destruct (decide (x = b)) as [->|]; [by rewrite upd_eq|by rewrite upd_ne]. }
  assert (forall x, (finishing (threads c x) -> finishing (threads c1 x)) /\
    forall inp, waits inp (threads c1 x) = true -> waits inp (threads c x) = true) as Hc1'.
  { intros x. cbn. destruct (decide (x = b)) as [->|]; [|by rewrite upd_ne]. rewrite upd_eq, Hb.
    split; [|done]. intros [?|[? [= _ ->]]]; [done|]. right. eauto. }
  assert (benign c1 ((if inp0 : bool then set_input_changed t else set_output_changed t) c1) /\
    flag inp0 (tpb ((if inp0 : bool then set_input_changed t else set_output_changed t) c1) t) = true) as [Hbe Hfl].
  { destruct inp0; split.
    - apply benign_move; [by apply wake_finishing|intros inp; by rewrite (proj1 (wake_waits inp _))|by rewrite (proj1 (wake_calls _))|].
      intros _ [|]; cbn; auto.
    - cbn. by rewrite upd_eq.
    - apply benign_move; [by apply wake_finishing|intros inp; by rewrite (proj2 (wake_waits inp _))|by rewrite (proj2 (wake_calls _))|].
      intros _ [|]; cbn; auto.
    - cbn. by rewrite upd_eq. }
  set (c2 := (if inp0 : bool then _ else _) c1) in *.
  assert (forall x b0, (inp0, t) <> x -> x ∈ calls_of (threads c b0) -> x ∈ calls_of (threads c1 b0)) as Hsub.
  { intros x b0 Hne Hx. rewrite Hc1. destruct (decide (b0 = b)) as [->|]; [|done].
    rewrite Hb in Hx. cbn in Hx. set_solver. }
  split.
  - by rewrite (benign_bufs _ _ Hbe).
  - by rewrite (benign_dets _ _ Hbe).
  - intros x Hx. by apply (benign_finishing _ _ Hbe), Hc1'.
  - intros inp x Hx. by apply Hc1', (benign_waits _ _ Hbe).
  - intros inp x Ht Hdue. destruct (decide ((inp0, t) = (inp, x))) as [[= -> ->]|Hne]; [by left|].
    apply (benign_due _ _ Hbe).
    + cbn. destruct (decide (x = b)) as [->|]; [by rewrite upd_eq|by rewrite upd_ne].
    + destruct Hdue as [?|[b0 Hb0]]; [by left|right; exists b0; by apply Hsub].
Qed.

(** Only the position of one thread changes. *)
Lemma benign_thread c b t :
  (finishing (threads c b) -> finishing t) ->
  (forall inp, waits inp t = true -> waits inp (threads c b) = true) ->
  (forall x, x ∈ calls_of (threads c b) -> x ∈ calls_of t) -> benign c (set_thread c b t).
Proof.
  intros Hf Hw Hc. split; cbn; [done|done| | |].
  - intros x. destruct (decide (x = b)) as [->|]; [by rewrite upd_eq|by rewrite upd_ne].
  - intros inp x. destruct (decide (x = b)) as [->|]; [rewrite upd_eq; apply Hw|by rewrite upd_ne].
  - intros inp x Ht [Hfl|[b0 Hb0]]; [by left|right]. exists b0. cbn.
    destruct (decide (b0 = b)) as [->|]; [rewrite upd_eq; by apply Hc|by rewrite upd_ne].
Qed.

(** A message is handled. *)
Lemma benign_handle c b m q : benign c (handle_msg dispatch_msg b m q c).
Proof.
  split; try done. intros inp x Ht [Hf|Hx]; [left|by right]. cbn.
  destruct (decide (x = b)) as [->|]; [rewrite upd_eq; by destruct inp|by rewrite upd_ne].
Qed.

Lemma not_finishing t : match t with Notifying _ true | Exited => False | _ => True end -> ~ finishing t.
Proof. destruct t as [| |? []| | | | |]; try done; intros _ [?|[? [=]]]; done. Qed.

Lemma step_cases e c c' : tpb_step e c = Some c' ->
  benign c c' \/ exists b d s h st, e = Run b /\ b ∈ running /\ threads c b = Cleared /\
    run_one_iteration (blocks b) (dets c b) (states c b) (bufs c) = Ok (d, s, h, st) /\
    c' = set_thread (set_executed c b d s h) b (after_iteration d h st).
Proof.
  destruct e as [b|b|b|b msg]; cbn [GrTpb.tpb_step].
  - case_bool_decide as Hr; [|done]. unfold run_thread.
    assert (forall t, match threads c b with Notifying _ true | Exited => False | _ => True end ->
      calls_of (threads c b) = [] -> (forall inp, waits inp t = true -> waits inp (threads c b) = true) ->
      benign c (set_thread c b t)) as Hmove.
    { intros t Hn Hc Hw. apply benign_thread; [by intros ?%not_finishing|done|rewrite Hc]. by intros x ?%not_elem_of_nil. }
    destruct (threads c b) as [| |calls last| | | | |] eqn:Et; try done.
    + destruct (msg_queue (tpb c b)) as [|m q]; intros [= <-]; left; [|apply benign_handle].
      apply benign_move; rewrite Et; try done. by intros ?%not_finishing.
    + destruct (run_one_iteration _ _ _ _) as [[[[d s] h] st]|] eqn:E; [|done]. intros [= <-]. right.
      exists b, d, s, h, st. done.
    + destruct calls as [|[inp t] calls]; intros [= <-]; left; [|by apply benign_notify].
      apply benign_thread; rewrite Et; [|by destruct last|by intros x ?%not_elem_of_nil]. intros [?|[? [= _ ->]]]; [done|by left].
    + destruct (input_changed _); [intros [= <-]; left; by apply Hmove|].
      destruct (msg_queue (tpb c b)) as [|m q]; intros [= <-]; left; [by apply Hmove|apply benign_handle].
    + destruct (output_changed _); [intros [= <-]; left; by apply Hmove|].
      destruct (msg_queue (tpb c b)) as [|m q]; intros [= <-]; left; [by apply Hmove|apply benign_handle].
  - intros [= <-]. left. apply benign_thread.
    + intros Hx. by apply wake_finishing, wake_finishing.
    + intros x. by rewrite (proj2 (wake_waits x _)), (proj1 (wake_waits x _)).
    + by rewrite (proj2 (wake_calls _)), (proj1 (wake_calls _)).
  - destruct (threads c b) eqn:Et; try done; intros [= <-]; left; apply benign_thread; rewrite ?Et; try done; by intros; left.
  - intros [= <-]. left. apply benign_move.
    + intros Hx. by apply wake_finishing, wake_finishing.
    + intros inp. by rewrite (proj2 (wake_waits inp _)), (proj1 (wake_waits inp _)).
    + by rewrite (proj2 (wake_calls _)), (proj1 (wake_calls _)).
    + by intros _ [].
Qed.
End Steps.

(** ** The running flow graph *)

Section Running.
Context {S Msg : Type} (blocks : Z -> gr_block S) (dispatch_msg : Z -> Msg -> S -> S).
Context (running : list Z) (writer : Z -> Z) (reader_block : Z * Z -> Z).
Abbreviation config := (config S Msg).
Abbreviation tpb_step := (tpb_step blocks dispatch_msg running writer reader_block).
Abbreviation tsteps := (tsteps blocks dispatch_msg running writer reader_block).
Abbreviation after_iteration := (after_iteration writer reader_block).
Implicit Types (c : config).

(** How the blocks are wired; each output is written by one block, each reader
    read by one. *)
Context (wires : Z -> gr_block_detail) (size limit : Z).
Context (Hwriter : forall b a, b ∈ running -> a ∈ d_output (wires b) -> writer a = b).
Context (Hreader : forall b i, b ∈ running -> i ∈ d_input (wires b) -> reader_block i = b).

(** What a block must be for its iterations to be safe. *)
Record block_ok (b : Z) : Prop := {
  ok_inputs : NoDup (d_input (wires b));
  ok_outputs : NoDup (d_output (wires b));
  ok_wired : d_input (wires b) <> [] \/ d_output (wires b) <> [];
  ok_multiple : 1 <= output_multiple (blocks b);
  ok_behaves : well_behaved (blocks b) (wires b) limit;
  ok_forecast : forall n k, length (forecast (blocks b) n k) = k;
  ok_fixed : fixed_rate (blocks b) = true -> output_multiple (blocks b) <= INT_MAX / 2 /\
    forall avail, 0 <= avail < size -> 0 <= fixed_rate_ninput_to_noutput (blocks b) avail <= INT_MAX / 2;
  ok_times : forall avail, 0 <= avail < size -> 0 <= times_rate (blocks b) avail <= limit
}.
Context (Hlimit : size / 2 <= limit <= INT_MAX / 2).
Context (Hblocks : forall b, b ∈ running -> block_ok b).

Record running_ok c : Prop := {
  run_rep : exists g, heap_rep (bufs c) g;
  run_sized : sized size (bufs c);
  run_wired : forall b, b ∈ running -> wired_in (bufs c) (wires b);
  run_wires : forall b, b ∈ running -> wires_of (dets c b) = wires_of (wires b);
  run_done : forall b, b ∈ running -> d_detail_done (dets c b) = false \/ finishing (threads c b)
}.

Lemma well_behaved_wires {T} (m : gr_block T) d d' l : wires_of d = wires_of d' ->
  well_behaved m d l -> well_behaved m d' l.
Proof.
  intros [= Hi Ho] Hw s n ins items s' outs calls r Hn Hd Hr Hg. rewrite <- Hi in Hr.
  destruct (Hw _ _ _ _ _ _ _ _ Hn Hd Hr Hg) as (H1 & H2 & H3 & H4). split_and!; [done| |done|done].
  eapply Forall_impl; [exact H2|]. intros []; cbn; unfold ninputs, noutputs; by rewrite ?Hi, ?Ho.
Qed.

Lemma wired_in_wires h d d' : wires_of d = wires_of d' -> wired_in h d -> wired_in h d'.
Proof. intros [= Hi Ho]. unfold wired_in. by rewrite Hi, Ho. Qed.

(** An iteration of a block whose thread is about to run it. *)
Lemma iteration_runs c b g : running_ok c -> b ∈ running -> ~ finishing (threads c b) -> heap_rep (bufs c) g ->
  exists d s h g' st, run_one_iteration (blocks b) (dets c b) (states c b) (bufs c) = Ok (d, s, h, st) /\
    heap_rep h g' /\ served (wires b) (bufs c) g g' /\ (d_detail_done d = true <-> st = DONE).
Proof using Hlimit Hblocks.
  intros [_ Hsz Hwi Hws Hdn] Hb Hf Hr. destruct (Hblocks b Hb) as [Hi Ho Hne Hm Hbe Hfo Hfi Hti].
  pose proof (Hws b Hb) as Hw. destruct (Hdn b Hb) as [Hd|?]; [|done].
  assert (ends (dets c b) (bufs c) g (run_one_iteration (blocks b) (dets c b) (states c b) (bufs c))) as (d & s & h & g' & st & E & _ & _ & Hst & Hr' & _ & Hsv).
  { pose proof Hw as [= Ei Eo]. eapply (iteration_ends (dets c b)) with (size := size) (limit := limit) (g := g); try done.
    - by rewrite Ei.
    - by rewrite Eo.
    - by eapply well_behaved_wires.
    - eapply wired_in_wires_ok; [done|]. eapply wired_in_wires; [by symmetry|by apply Hwi].
    - by rewrite Ei, Eo. }
  exists d, s, h, g', st. split_and!; try done. by eapply served_wires.
Qed.

Lemma step_running_ok e c c' : running_ok c -> tpb_step e c = Some c' -> running_ok c'.
Proof using Hlimit Hblocks.
  intros Hok Hs. destruct (step_cases _ _ _ _ _ _ _ _ Hs) as [Hbe | (b & d & s & h & st & -> & Hb & Ht & E & ->)].
  - destruct Hok as [Hr Hsz Hwi Hws Hdn]. destruct Hbe as [Eb Ed Hf _ _]. split; rewrite ?Eb, ?Ed; try done.
    intros b Hb. destruct (Hdn b Hb); [by left|right; by apply Hf].
  - destruct (run_rep c Hok) as [g Hg].
    destruct (iteration_runs c b g Hok Hb) as (d1 & s1 & h1 & g1 & st1 & E1 & Hr & _ & Hdone); [|done|].
    { rewrite Ht. by apply not_finishing. }
    rewrite E in E1. injection E1 as <- <- <- <-. pose proof (iteration_footprint _ _ _ _ _ E) as (Hw & Hown & _).
    destruct Hok as [_ Hsz Hwi Hws Hdn]. split; cbn.
    + by exists g1.
    + by eapply frame_sized.
    + intros b' Hb'. eapply frame_wired_in; [exact Hown|by apply Hwi].
    + intros b' Hb'. destruct (decide (b' = b)) as [->|]; [rewrite upd_eq; etransitivity; [exact Hw|by apply Hws]|rewrite upd_ne by done; by apply Hws].
    + intros b' Hb'. destruct (decide (b' = b)) as [->|]; [|rewrite !upd_ne by done; by apply Hdn].
      rewrite !upd_eq. destruct (d_detail_done d); [right|by left].
      rewrite (proj1 Hdone eq_refl). right. cbn. eauto.
Qed.

(** The streams move on turn by turn. *)
Lemma step_serves e c c' g : running_ok c -> heap_rep (bufs c) g -> tpb_step e c = Some c' ->
  exists g', heap_rep (bufs c') g' /\ rtc (serves running wires) (bufs c, g) (bufs c', g').
Proof using Hlimit Hblocks.
  intros Hok Hg Hs. destruct (step_cases _ _ _ _ _ _ _ _ Hs) as [Hbe | (b & d & s & h & st & -> & Hb & Ht & E & ->)].
  - exists g. by rewrite (benign_bufs _ _ Hbe).
  - destruct (iteration_runs c b g Hok Hb) as (d1 & s1 & h1 & g1 & st1 & E1 & Hr & Hsv & _); [|done|].
    { rewrite Ht. by apply not_finishing. }
    rewrite E in E1. injection E1 as <- <- <- <-. pose proof (iteration_footprint _ _ _ _ _ E) as (_ & Hown & _).
    exists g1. split; [done|]. apply rtc_once. split_and!; [done|by eapply own_same_sizes|by exists b].
Qed.

(** The state from which the threads start. *)
Definition started c : Prop := running_ok c /\ forall b, threads c b = Top.

Lemma reachable_ok c0 es c : started c0 -> tsteps c0 es c -> running_ok c.
Proof using Hlimit Hblocks.
  intros [H0 _] Hs. eapply lsteps_invariant; [|exact Hs|exact H0]. intros c1 e c2 H1 H2. exact (step_running_ok e c1 c2 H1 H2).
Qed.

Lemma tpb_streams c0 es c g0 : started c0 -> tsteps c0 es c -> heap_rep (bufs c0) g0 ->
  exists g, heap_rep (bufs c) g /\ rtc (serves running wires) (bufs c0, g0) (bufs c, g).
Proof using Hlimit Hblocks.
  intros [H0 _] Hs. revert g0. induction Hs as [c|c e c1 es c' Hstep Hs IH]; intros g0 Hg; [by exists g0|].
  destruct (step_serves e c c1 g0 H0 Hg Hstep) as (g1 & Hg1 & Hs1).
  destruct (IH (step_running_ok _ _ _ H0 Hstep) g1 Hg1) as (g & Hg' & Hs'). exists g. split; [done|]. by etransitivity.
Qed.

Lemma tpb_goes_on c0 es c b : started c0 -> tsteps c0 es c ->
  (exists g, heap_rep (bufs c) g) /\
  (b ∈ running -> match threads c b with
   | Sleep_in | Sleep_out | Exited => True
   | _ => is_Some (tpb_step (Run b) c)
   end).
Proof using Hlimit Hblocks.
  intros H0 Hs. pose proof (reachable_ok _ _ _ H0 Hs) as Hok. split; [apply Hok|]. intros Hb.
  cbn [GrTpb.tpb_step]. rewrite bool_decide_true by done. unfold run_thread.
  destruct (threads c b) as [| |calls last| | | | |] eqn:Et; try done.
  - destruct (msg_queue (tpb c b)); eauto.
  - destruct (run_rep c Hok) as [g Hg].
    destruct (iteration_runs c b g Hok Hb) as (d & s & h & g' & st & -> & _); [rewrite Et; by apply not_finishing|done|eauto].
  - destruct calls as [|[inp t] calls]; eauto.
  - destruct (input_changed _), (msg_queue (tpb c b)); eauto.
  - destruct (output_changed _), (msg_queue (tpb c b)); eauto.
Qed.

(** However the threads of a flow graph are interleaved, with whatever
    messages, interrupts and wakeups, no iteration raises an exception or fails
    an assertion, the buffers remain streams, and a thread that is not asleep
    and has not returned can always go on. *)
Theorem tpb_runs_safely c0 es c b : started c0 -> tsteps c0 es c ->
  (exists g, heap_rep (bufs c) g) /\
  (b ∈ running -> match threads c b with
   | Sleep_in | Sleep_out | Exited => True
   | _ => is_Some (tpb_step (Run b) c)
   end).
Proof using Hlimit Hblocks. apply tpb_goes_on. Qed.

(** ** No wakeup is lost *)

Lemma lsteps_snoc {A L} (step : A -> L -> A -> Prop) s ls l s' :
  lsteps step s (ls ++ [l]) s' -> exists s1, lsteps step s ls s1 /\ step s1 l s'.
Proof.
  revert s. induction ls as [|x ls IH]; intros s H; inversion H as [|? ? s1 ? ? Hx Hr]; subst.
  - inversion Hr; subst. exists s. split; [constructor|done].
  - destruct (IH _ Hr) as (s2 & H2 & Hl). exists s2. split; [by econstructor|done].
Qed.

Lemma reader_in_vector c b i : running_ok c -> b ∈ running -> i ∈ d_input (wires b) ->
  exists buf, bufs c !! i.1 = Some buf /\ i.2 ∈ d_readers buf.
Proof.
  intros [[g Hr] _ Hwi _ _] Hb Hi. destruct (proj1 (Hwi b Hb) i Hi) as (buf & Hbuf & Hrd). exists buf. split; [done|].
  specialize (Hr i.1). rewrite Hbuf in Hr. inversion Hr as [? x Hrep E1 E2|]; subst. by apply (rep_vector _ _ _ Hrep).
Qed.

Lemma waits_or_due c0 es c b inp : started c0 -> tsteps c0 es c -> b ∈ running ->
  waits inp (threads c b) = true ->
  exists es1 es2 c1 d s h, es = es1 ++ Run b :: es2 /\ tsteps c0 es1 c1 /\
    run_one_iteration (blocks b) (dets c1 b) (states c1 b) (bufs c1) = Ok (d, s, h, blocked inp) /\
    (sees inp (bufs c) (wires b) = sees inp (bufs c1) (wires b) \/ due inp c b).
Proof using Hlimit Hblocks Hwriter Hreader.
  intros H0. revert c. induction es as [|e es IH] using rev_ind; intros c Hs Hb Hw.
  { inversion Hs; subst. destruct H0 as [_ H0]. by rewrite H0 in Hw. }
  apply lsteps_snoc in Hs as (c' & Hs & Hstep). pose proof (reachable_ok _ _ _ H0 Hs) as Hok.
  destruct (step_cases _ _ _ _ _ _ _ _ Hstep) as [Hbe | (b' & d & s & h & st & -> & Hb' & Ht & E & ->)].
  - pose proof (benign_waits _ _ Hbe inp b Hw) as Hw'.
    destruct (IH c' Hs Hb Hw') as (es1 & es2 & c1 & d & s & h & -> & Hs1 & E & Hsame).
    exists es1, (es2 ++ [e]), c1, d, s, h. split; [by rewrite <- app_assoc|]. split_and!; [done..|].
    destruct Hsame as [Hsame|Hdue]; [left; by rewrite (benign_bufs _ _ Hbe)|right].
    apply (benign_due _ _ Hbe); [|done]. intros Htop. by rewrite Htop in Hw'.
  - cbn [threads set_thread set_executed bufs] in *. destruct (decide (b = b')) as [<-|Hne].
    + rewrite upd_eq in Hw. exists es, [], c', d, s, h. split_and!; [done|done| |].
      * rewrite E. by destruct st, inp.
      * left. apply sees_quiet. apply iteration_footprint in E as (_ & _ & Hq & _). apply Hq.
        destruct st; try done; auto.
    + rewrite upd_ne in Hw by done.
      destruct (IH c' Hs Hb Hw) as (es1 & es2 & c1 & d1 & s1 & h1 & -> & Hs1 & E1 & Hsame).
      exists es1, (es2 ++ [Run b']), c1, d1, s1, h1. split; [by rewrite <- app_assoc|]. split_and!; [done..|].
      destruct (iteration_tells writer reader_block wires running Hwriter Hreader (blocks b') inp b b' _ _ _ _ _ _ _ Hb Hb' Hne
        (run_wires _ Hok b' Hb') (fun i => reader_in_vector c' b i Hok Hb) E) as [Hsee|Htold].
      * destruct Hsame as [Hsame|[Hf|[b0 Hb0]]]; [left; congruence|by right; left|right; right].
        exists b0. cbn. destruct (decide (b0 = b')) as [->|]; [|by rewrite upd_ne].
        rewrite Ht in Hb0. by apply not_elem_of_nil in Hb0.
      * right; right. exists b'. cbn. by rewrite upd_eq.
Qed.

(** A thread that sleeps was not notified. *)
Definition asleep_ok c : Prop := forall b,
  (threads c b = Sleep_in -> input_changed (tpb c b) = false /\ msg_queue (tpb c b) = []) /\
  (threads c b = Sleep_out -> output_changed (tpb c b) = false /\ msg_queue (tpb c b) = []).

Lemma asleep_update c b t d : asleep_ok c ->
  (t = Sleep_in -> input_changed d = false /\ msg_queue d = []) ->
  (t = Sleep_out -> output_changed d = false /\ msg_queue d = []) ->
  asleep_ok (set_thread (set_tpb c b d) b t).
Proof.
  intros Hc Hi Ho x. cbn. destruct (decide (x = b)) as [->|]; [by rewrite !upd_eq|rewrite !upd_ne by done; apply Hc].
Qed.

Lemma asleep_thread c b t h ds ss : asleep_ok c ->
  (t = Sleep_in -> input_changed (tpb c b) = false /\ msg_queue (tpb c b) = []) ->
  (t = Sleep_out -> output_changed (tpb c b) = false /\ msg_queue (tpb c b) = []) ->
  asleep_ok {| bufs := h; dets := ds; states := ss; tpb := tpb c; threads := <[b := t]> (threads c) |}.
Proof.
  intros Hc Hi Ho x. cbn. destruct (decide (x = b)) as [->|]; [by rewrite !upd_eq|rewrite !upd_ne by done; apply Hc].
Qed.

Lemma asleep_handle c b m q : asleep_ok c -> threads c b <> Sleep_in -> threads c b <> Sleep_out ->
  asleep_ok (handle_msg dispatch_msg b m q c).
Proof.
  intros Hc Hi Ho x. cbn. destruct (decide (x = b)) as [->|]; [by split; intros ?|rewrite !upd_ne by done; apply Hc].
Qed.

Lemma step_asleep e c c' : asleep_ok c -> tpb_step e c = Some c' -> asleep_ok c'.
Proof.
  intros Hc. destruct e as [b|b|b|b msg]; cbn [GrTpb.tpb_step].
  - case_bool_decide; [|done]. unfold run_thread. destruct (threads c b) as [| |calls last| | | | |] eqn:Et; try done.
    + destruct (msg_queue _); intros [= <-]; [by apply asleep_update|by apply asleep_handle; rewrite ?Et].
    + destruct (run_one_iteration _ _ _ _) as [[[[d s] h] st]|]; [|done]. intros [= <-].
      apply asleep_thread; [done|by destruct st..].
    + destruct calls as [|[inp t] calls]; intros [= <-]; [apply asleep_thread; [done|by destruct last..]|].
      assert (asleep_ok (set_thread c b (Notifying calls last))) as H1 by by apply asleep_thread.
      set (c1 := set_thread _ _ _) in *. clearbody c1. destruct (H1 t) as [Hti Hto].
      destruct inp; apply asleep_update; try done; cbn; intros E; destruct (threads c1 t); try done; by auto.
    + destruct (input_changed _) eqn:Ei; [intros [= <-]; by apply asleep_thread|].
      destruct (msg_queue _) eqn:Eq; intros [= <-]; [by apply asleep_thread|by apply asleep_handle; rewrite ?Et].
    + destruct (output_changed _) eqn:Ei; [intros [= <-]; by apply asleep_thread|].
      destruct (msg_queue _) eqn:Eq; intros [= <-]; [by apply asleep_thread|by apply asleep_handle; rewrite ?Et].
  - intros [= <-]. apply asleep_thread; [done|by destruct (threads c b)..].
  - destruct (threads c b); try done; intros [= <-]; by apply asleep_thread.
  - intros [= <-]. apply asleep_update; [done|by destruct (threads c b)..].
Qed.

Lemma reachable_asleep c0 es c : started c0 -> tsteps c0 es c -> asleep_ok c.
Proof.
  intros [_ H0] Hs. eapply lsteps_invariant; [|exact Hs|].
  - intros c1 e c2 H1 H2. exact (step_asleep e c1 c2 H1 H2).
  - intros b. by rewrite H0.
Qed.

(** C8. A thread that waits for its inputs ran an iteration that found itself
    blocked on them; and if the items there are have changed since, it has been
    notified, or a neighbour is about to; if it is asleep, the latter.  The same
    holds for the space at its outputs.  So no thread sleeps through what it
    waits for. *)
Theorem tpb_no_lost_wakeup c0 es c b inp : started c0 -> tsteps c0 es c -> b ∈ running ->
  waits inp (threads c b) = true ->
  exists es1 es2 c1 d s h, es = es1 ++ Run b :: es2 /\ tsteps c0 es1 c1 /\
    run_one_iteration (blocks b) (dets c1 b) (states c1 b) (bufs c1) = Ok (d, s, h, blocked inp) /\
    (sees inp (bufs c) (wires b) = sees inp (bufs c1) (wires b) \/ due inp c b) /\
    (threads c b = Sleep_in \/ threads c b = Sleep_out -> flag inp (tpb c b) = false).
Proof using Hlimit Hblocks Hwriter Hreader.
  intros H0 Hs Hb Hw. destruct (waits_or_due c0 es c b inp H0 Hs Hb Hw) as (es1 & es2 & c1 & d & s & h & He & Hs1 & E & Hd).
  exists es1, es2, c1, d, s, h. split_and!; [done..|]. destruct (reachable_asleep c0 es c H0 Hs b) as [Hi Ho].
  intros [Ht|Ht]; rewrite Ht in Hw; destruct inp; try done; cbn; [by apply Hi|by apply Ho].
Qed.
End Running.

(** ** Starting the threads *)

Section Start.
Context {S Msg : Type} (running : list Z) (details : Z -> gr_block_detail).
Context (size : Z) (h0 : heap) (ss : Z -> S).
Context (Hrep : exists g, heap_rep h0 g) (Hsized : sized size h0).
Context (Hwired : forall b, b ∈ running -> wired_in h0 (details b)).
Context (Hnodup : forall b, b ∈ running -> NoDup (d_input (details b)) /\ NoDup (d_output (details b))).

Definition clearing (seen : list Z) (c : config S Msg) : Prop :=
  (exists g, heap_rep (bufs c) g) /\ sized size (bufs c) /\
  (forall b, b ∈ running -> wired_in (bufs c) (details b)) /\
  (forall b, b ∈ running -> wires_of (dets c b) = wires_of (details b)) /\
  (forall b, b ∈ seen -> d_detail_done (dets c b) = false) /\ forall b, threads c b = Top.

(** The scheduler is constructed, and the flow graph is ready for its threads. *)
Lemma gr_scheduler_tpb_ok : exists c : config S Msg, gr_scheduler_tpb running h0 details ss = Ok c /\
  started running details size c.
Proof using Hrep Hsized Hwired Hnodup.
  unfold gr_scheduler_tpb, clear_done.
  match goal with |- context [for_each ?f running ?c0] => destruct (for_each_reaches f clearing running c0) as (c & E & Hc) end.
  - split_and!; try done. by intros b ?%not_elem_of_nil.
  - intros seen b rest c Hl ([g Hg] & Hs & Hw & Hws & Hd & Ht). assert (b ∈ running) as Hb by (rewrite Hl; set_solver).
    destruct (Hnodup b Hb) as [Hi Ho]. pose proof (Hws b Hb) as Hwb. pose proof Hwb as [= Ei Eo].
    destruct (set_done_ok (dets c b) (dets c b) (bufs c) g false) as (h' & E & Hg'); [done|done| |].
    { eapply wired_in_wires_ok; [done|]. eapply wired_in_wires; [by symmetry|by apply Hw]. }
    rewrite E, ok_bind. eexists. split; [reflexivity|]. apply set_done_frame in E as [_ Hq].
    split_and!; cbn.
    + by exists g.
    + by eapply frame_sized.
    + intros b' Hb'. eapply frame_wired_in; [exact Hq|by apply Hw].
    + intros b' Hb'. destruct (decide (b' = b)) as [->|]; [by rewrite upd_eq|rewrite upd_ne by done; by apply Hws].
    + intros b' Hb'. destruct (decide (b' = b)) as [->|]; [by rewrite upd_eq|rewrite upd_ne by done; apply Hd; set_solver].
    + done.
  - exists c. split; [done|]. destruct Hc as (Hr & Hs & Hw & Hws & Hd & Ht). split; [split; auto|done].
Qed.
End Start.

(** ** Witness: a sink whose input is empty goes to sleep *)

Definition nap_buffer : gr_buffer :=
  match gr_buffer_add_reader ex_buffer 7 0 with Ok b => b | Throw _ => ex_buffer end.
Definition nap_detail : gr_block_detail :=
  {| d_produce_or := 0; d_input := [(1, 7)]; d_output := []; d_detail_done := false |}.
Definition nap_start : config () () :=
  {| bufs := {[1 := nap_buffer]}; dets := fun _ => nap_detail; states := fun _ => tt;
     tpb := fun _ => {| input_changed := false; output_changed := false; msg_queue := [] |}; threads := fun _ => Top |}.
Definition nap_run (es : list (event ())) : option (config () ()) :=
  foldl (fun c e => c ≫= tpb_step (fun _ => copy_block) (fun _ _ s => s) [5] (fun _ => 4) (fun _ => 5) e) (Some nap_start) es.
Definition nap_end : config () () := default nap_start (nap_run [Run 5; Run 5; Run 5]).

(** Computing a run. *)
Lemma computed_run {S Msg} (step : event Msg -> config S Msg -> option (config S Msg)) es c0 c :
  foldl (fun c e => c ≫= step e) (Some c0) es = Some c -> lsteps (fun c e c' => step e c = Some c') c0 es c.
Proof.
  revert c0. induction es as [|e es IH]; intros c0 H; cbn in H; [injection H as ->; constructor|].
  destruct (step e c0) as [c1|] eqn:E; [econstructor; eauto|]. exfalso. clear -H. by induction es.
Qed.

Lemma nap_rep : exists H pos, rep {| buf := nap_buffer; room := 0 |} H pos.
Proof.
  assert (lsteps step (initial ex_buffer) [AddReader 7 0] {| buf := nap_buffer; room := 0 |}) as Hs.
  { eapply lsteps_cons; [|apply lsteps_nil]. apply step_add; vm_compute; reflexivity. }
  destruct (reachable_rep 16 ex_make 3 8 ex_buffer ex_made ex_size _ _ Hs) as (H & pos & Hr). eauto.
Qed.

Lemma nap_started : started [5] (fun _ => nap_detail) 4 nap_start.
Proof.
  split; [|reflexivity]. destruct nap_rep as (H & pos & Hr). split.
  - exists {[1 := {| g_room := 0; g_hist := H; g_pos := pos |}]}. intros a. cbn.
    destruct (decide (a = 1)) as [->|]; [by constructor|]. rewrite !lookup_singleton_ne by done. constructor.
  - split; [lia|]. intros a b. cbn. intros [<- <-]%lookup_singleton_Some. vm_compute. discriminate.
  - intros b _. split; [|intros a ?%not_elem_of_nil; done]. intros i ->%list_elem_of_singleton.
    exists nap_buffer. split; [apply lookup_singleton_eq|]. exists {| d_read_index := 0; d_abs_read_offset := 0 |}. reflexivity.
  - reflexivity.
  - intros b _. by left.
Qed.

Lemma nap_block_ok b : block_ok (fun _ => copy_block) (fun _ => nap_detail) 4 3 b.
Proof.
  split; cbn.
  - apply NoDup_singleton.
  - apply NoDup_nil_2.
  - by left.
  - vm_compute. discriminate.
  - intros s n ninput items s' outs calls r Hn Hdv Hreq Hgw.
    eapply (sync_work_behaves copy_work copy_work_ok); [| exact Hgw | exact Hreq | |]; try lia.
    + rewrite sync_need by (norm_pow; lia). lia.
    + intros j Hj. rewrite sync_need by (norm_pow; lia). lia.
  - intros n k. apply length_replicate.
  - intros _. split; [vm_compute; discriminate|]. intros avail Ha. pose proof (copy_rate avail Ha).
    change (INT_MAX / 2) with 1073741823. cbn in *. lia.
  - intros avail Ha. lia.
Qed.

Lemma tpb_no_lost_wakeup_witness : threads nap_end 5 = Sleep_in /\ exists es1 es2,
  [Run 5; Run 5; Run 5] = es1 ++ Run (Msg := ()) 5 :: es2.
Proof.
  split; [vm_compute; reflexivity|].
  destruct (tpb_no_lost_wakeup (fun _ => copy_block) (fun _ (_ : ()) s => s) [5] (fun _ => 4) (fun _ => 5)
    (fun _ => nap_detail) 4 3 ltac:(intros b a _ ?%not_elem_of_nil; done)
    ltac:(by intros b i ->%list_elem_of_singleton _) ltac:(split; vm_compute; discriminate)
    (fun b _ => nap_block_ok b) nap_start [Run 5; Run 5; Run 5] nap_end 5 true nap_started) as (es1 & es2 & _ & _ & _ & _ & H & _).
  - apply computed_run. fold (nap_run [Run 5; Run 5; Run 5]). unfold nap_end.
    assert (bool_decide (is_Some (nap_run [Run 5; Run 5; Run 5])) = true) as Hr by (vm_compute; reflexivity).
    apply bool_decide_eq_true in Hr as [c Hr]. rewrite Hr. reflexivity.
  - apply list_elem_of_singleton. reflexivity.
  - vm_compute. reflexivity.
  - exists es1, es2. exact H.
Defined.
