(* ===== verification/GrSts.v ===== *)
(** * The single threaded scheduler: [runtime/gr_single_threaded_scheduler.cc]

    One thread goes round the blocks of a partition and runs each that can run;
    a source only when in the last pass no work returned a positive count.  The
    loop is safe for well behaved blocks, counts the blocks that are alive, ends
    exactly when none is or it is told to stop, and runs sources as that rule
    says. *)

From S2P Require Import Prelude.
From stdpp Require Import functions gmap list.
From S2P Require Import GrBuffer GrBlock GrBlockExecutor GrFootprint GrTpb.
#[local] Open Scope Z_scope.
#[local] Open Scope cint_scope.

(** ** Space: no half buffers here *)

Fixpoint sts_space_loop (outputs : list Z) (output_multiple : Z) (min_space : Z) (h : heap) :
    res buffer_error (heap * Z) :=
  match outputs with
  | [] => Ok (h, min_space)
  | a :: outputs =>
      b ← the_buffer h a;
      '(b, space) ← space_available b;
      let h := <[a := b]> h in
      let n := s32 (round_down space output_multiple) in
      if n =? 0 then Ok (h, if d_done b then -1 else 0)
      else sts_space_loop outputs output_multiple (Z.min min_space n) h
  end.

Definition sts_min_available_space (d : gr_block_detail) (output_multiple : Z) (h : heap) :
    res buffer_error (heap * Z) :=
  sts_space_loop (d_output d) output_multiple INT_MAX h.

(** ** A visit of a block

    Where the body of the loop goes: [next_block], with whether it set
    [making_progress], or [were_done]. *)
Inductive label := next_block (progress : bool) | to_were_done.

Section Visit.
Context {S : Type} (m : gr_block S).

(** [setup_call_to_work:] *)
Definition sts_call_work (d : gr_block_detail) (s : S) (h : heap) (noutput_items : Z)
    (ninput_items : list Z) : res buffer_error (gr_block_detail * S * heap * label) :=
  input_items ← load_inputs h (d_input d) ninput_items;
  let '(s, output_items, calls, n) := general_work m s noutput_items ninput_items input_items in
  h ← store_outputs (d_output d) output_items h;
  '(d, h) ← for_each make_call calls (d, h);
  if n =? WORK_DONE then Ok (d, s, h, to_were_done)
  else
    '(d, h) ← produce_each d n h;
    Ok (d, s, h, next_block (0 <? n)).

(** What the first half of the body comes to, before [setup_call_to_work:]: a
    call of the work, [next_block] or [were_done]. *)
Inductive plan := Work (noutput_items : Z) (ninput_items : list Z) | Next | Finish.

(** [try_again:]; the search is the one of the executor. *)
Definition plan_try (d : gr_block_detail) (h : heap) (noutput_items : Z) (seen : list (Z * bool)) :
    res buffer_error plan :=
  match try_again m seen (max_possible d h) (Z.to_nat noutput_items) noutput_items with
  | Some (CallWork n) => Ok (Work n (map fst seen))
  | Some Blocked => Ok Next
  | Some WereDone => Ok Finish
  | None => Throw assertion_failed
  end.

Definition plan_visit (made_progress_last_pass : bool) (d : gr_block_detail) (h : heap) : res buffer_error (heap * plan) :=
  if d_detail_done d then Ok (h, Next)
  else if source_p d then
    if made_progress_last_pass then Ok (h, Next)
    else
      '(h, noutput_items) ← sts_min_available_space d (output_multiple m) h;
      Ok (h, if noutput_items =? -1 then Finish else if noutput_items =? 0 then Next else Work noutput_items [])
  else if sink_p d then
    seen ← look_sink h (output_multiple m) (d_input d);
    match seen with
    | None => Ok (h, Finish)
    | Some seen =>
        let noutput_items := s32 (round_down (times_rate m (max_avail seen)) (output_multiple m)) in
        if noutput_items =? 0 then Ok (h, Next)
        else p ← plan_try d h noutput_items seen; Ok (h, p)
    end
  else
    seen ← look_all h (d_input d);
    '(h, noutput_items) ← sts_min_available_space d (output_multiple m) h;
    if noutput_items =? -1 then Ok (h, Finish)
    else if noutput_items =? 0 then Ok (h, Next)
    else p ← plan_try d h noutput_items seen; Ok (h, p).

Definition act (d : gr_block_detail) (s : S) (h : heap) (p : plan) : res buffer_error (gr_block_detail * S * heap * label) :=
  match p with
  | Work noutput_items ninput_items => sts_call_work d s h noutput_items ninput_items
  | Next => Ok (d, s, h, next_block false)
  | Finish => Ok (d, s, h, to_were_done)
  end.

Definition visit (made_progress_last_pass : bool) (d : gr_block_detail) (s : S) (h : heap) :
    res buffer_error (gr_block_detail * S * heap * label) :=
  '(h, p) ← plan_visit made_progress_last_pass d h; act d s h p.
End Visit.

(** ** The loop *)

(** The blocks with their details and states, and the variables of [main_loop]. *)
Record loop (S : Type) := {
  l_heap : heap;
  l_detail : Z -> gr_block_detail;
  l_state : Z -> S;
  bi : nat;
  nalive : Z;
  made_progress_last_pass : bool;
  making_progress : bool
}.
Arguments l_heap {S}. Arguments l_detail {S}. Arguments l_state {S}. Arguments bi {S}. Arguments nalive {S}.
Arguments made_progress_last_pass {S}. Arguments making_progress {S}. Arguments Build_loop {S}.

Section Loop.
Context {S : Type} (blocks : Z -> gr_block S) (d_blocks : list Z).
(** [start()] and [stop()] of a block. *)
Context (start stop : Z -> S -> S).

(** [next_block:] *)
Definition advance (c : loop S) : loop S :=
  if (length d_blocks <=? Datatypes.S (bi c))%nat then
    {| l_heap := l_heap c; l_detail := l_detail c; l_state := l_state c; bi := 0; nalive := nalive c;
       made_progress_last_pass := making_progress c; making_progress := false |}
  else
    {| l_heap := l_heap c; l_detail := l_detail c; l_state := l_state c; bi := Datatypes.S (bi c); nalive := nalive c;
       made_progress_last_pass := made_progress_last_pass c; making_progress := making_progress c |}.

Definition with_block (c : loop S) (b : Z) (d : gr_block_detail) (s : S) (h : heap) (n : Z) (progress : bool) : loop S :=
  {| l_heap := h; l_detail := <[b := d]> (l_detail c); l_state := <[b := s]> (l_state c); bi := bi c; nalive := n;
     made_progress_last_pass := made_progress_last_pass c; making_progress := progress |}.

(** The body of the loop. *)
Definition loop_round (c : loop S) : res buffer_error (loop S * label) :=
  let b := nth (bi c) d_blocks 0 in
  '(d, s, h, l) ← visit (blocks b) (made_progress_last_pass c) (l_detail c b) (l_state c b) (l_heap c);
  match l with
  | next_block progress => Ok (advance (with_block c b d s h (nalive c) (making_progress c || progress)), l)
  | to_were_done =>
      '(d, h) ← set_done d true h;
      Ok (advance (with_block c b d s h (u32 (nalive c - 1)) (making_progress c)), l)
  end.

(** The loop, for as many rounds as are given; each says whether the scheduler is
    disabled or the thread interrupted before it.  The labels, and whether the
    loop ended. *)
Fixpoint main_loop (stops : list bool) (c : loop S) : res buffer_error (loop S * list label * bool) :=
  if nalive c =? 0 then Ok (c, [], true)
  else
    match stops with
    | [] => Ok (c, [], false)
    | true :: _ => Ok (c, [], true)
    | false :: stops =>
        '(c, l) ← loop_round c;
        '(c, ls, ended) ← main_loop stops c;
        Ok (c, l :: ls, ended)
    end.

Definition clear_details (bs : list Z) (st : heap * (Z -> gr_block_detail)) : res buffer_error (heap * (Z -> gr_block_detail)) :=
  for_each (fun b '(h, details) => '(d, h) ← set_done (details b) false h; Ok (h, <[b := d]> details)) bs st.

Definition call_each (f : Z -> S -> S) (bs : list Z) (ss : Z -> S) : Z -> S :=
  foldl (fun ss b => <[b := f b (ss b)]> ss) ss bs.

(** [run]: what is before the loop, the loop, and what is behind it. *)
Definition enter (h : heap) (details : Z -> gr_block_detail) (ss : Z -> S) : res buffer_error (loop S) :=
  '(h, details) ← clear_details d_blocks (h, details);
  Ok {| l_heap := h; l_detail := details; l_state := call_each start d_blocks ss; bi := 0;
        nalive := Z.of_nat (length d_blocks); made_progress_last_pass := true; making_progress := false |}.

Definition leave (c : loop S) : loop S :=
  {| l_heap := l_heap c; l_detail := l_detail c; l_state := call_each stop d_blocks (l_state c); bi := bi c;
     nalive := nalive c; made_progress_last_pass := made_progress_last_pass c; making_progress := making_progress c |}.

Definition run (stops : list bool) (h : heap) (details : Z -> gr_block_detail) (ss : Z -> S) :
    res buffer_error (loop S * list label * bool) :=
  c ← enter h details ss;
  '(c, ls, ended) ← main_loop stops c;
  Ok (if ended : bool then leave c else c, ls, ended).
End Loop.

(** ** Space *)

Lemma sts_space_loop_spec k size outs ms h g : 1 <= k -> heap_rep h g -> sized size h -> size <= INT_MAX / 2 ->
  (forall a, a ∈ outs -> is_Some (g !! a)) -> ms = INT_MAX \/ (k | ms) /\ 0 < ms <= size ->
  exists h' g' n, sts_space_loop outs k ms h = Ok (h', n) /\ heap_rep h' g' /\ refreshed g g' /\ quiet h h' /\
    (n = -1 \/ n = 0 \/ n = ms /\ outs = [] \/
     0 < n <= size /\ (k | n) /\ n <= ms /\ forall a, a ∈ outs -> roomy g' a n).
Proof.
  intros Hk Hr Hsz Hsize. revert ms h g Hr Hsz. induction outs as [|a outs IH]; intros ms h g Hr Hsz Hin Hms; cbn [sts_space_loop].
  { exists h, g, ms. split_and!; [done..|]. tauto. }
  destruct (Hin a ltac:(constructor)) as [x Hx].
  destruct (heap_rep_buffer _ _ _ _ Hr Hx) as (b & Hb & _).
  unfold the_buffer. rewrite Hb, ok_bind.
  destruct (heap_space h g a x b Hr Hx Hb) as (b' & sp & Hspace & Hsp & HN & HNb & Hr' & Hg1).
  rewrite Hspace, ok_bind. cbv beta iota.
  set (g1 := <[a := {| g_room := sp; g_hist := g_hist x; g_pos := g_pos x |}]> g) in *.
  assert (quiet h (<[a := b']> h)) as Hq by (apply frame_insert with b; [done|by eapply space_frame]).
  assert (sp <= size) as Hsps.
  { assert (sp <= d_bufsize b') as Hle; [|rewrite HNb in Hle; pose proof (proj2 Hsz a b Hb); lia].
    destruct (heap_rep_buffer _ _ a _ Hr' (lookup_insert_eq g a _)) as (b2 & Hb2 & Hrep2).
    rewrite lookup_insert_eq in Hb2. injection Hb2 as <-. pose proof (rep_room _ _ _ Hrep2). cbn [buf room g_room] in *. lia. }
  change (2 ^ 31) with 2147483648 in *. change (INT_MAX / 2) with 1073741823 in *.
  destruct (round_down_spec sp k) as [Hd Hkd]; [unfold INT_MAX; lia|done|].
  rewrite (sx_id 32) by (norm_pow; lia).
  set (n := round_down sp k) in *.
  destruct (Z.eqb_spec n 0) as [Hn0|Hn0].
  { eexists _, g1, _. split; [reflexivity|]. split_and!; [done..|]. destruct (d_done b'); auto. }
  assert (Z.min ms n <= size /\ 0 < Z.min ms n /\ (k | Z.min ms n)) as (Hm1 & Hm2 & Hm3).
  { unfold INT_MAX in *.
    destruct Hms as [->|[? ?]]; [rewrite Z.min_r by lia; split_and!; done || lia|].
    destruct (Z.min_spec ms n) as [[? ->]|[? ->]]; split_and!; done || lia. }
  destruct (IH (Z.min ms n) (<[a := b']> h) g1 Hr') as (h' & g' & m & -> & Hr2 & Href & Hq2 & Hres).
  { by eapply frame_sized. }
  { intros c Hc. apply (refreshed_is_Some g); [done|]. apply Hin. by constructor. }
  { right. done. }
  exists h', g', m. split_and!; [done|done|by transitivity g1|unfold quiet in *; by etransitivity|].
  assert (roomy g' a (Z.min ms n)) as Hra.
  { apply Href. eexists. unfold g1. rewrite lookup_insert_eq. split; [done|]. cbn. lia. }
  destruct Hres as [?|[?|[[-> ->]|(? & ? & ? & Hall)]]]; [by left|by right; left|..]; do 3 right.
  - split_and!; try done; try lia. by intros c ->%list_elem_of_singleton.
  - split_and!; try done; try lia.
    intros c [->|Hc]%elem_of_cons; [|by apply Hall].
    destruct Hra as (y & Hy & Hj). exists y. split; [done|lia].
Qed.

(** ** A visit *)

Section Visited.
Context {S : Type} (m : gr_block S) (d0 : gr_block_detail) (size limit : Z).
Context (Hin : NoDup (d_input d0)) (Hout : NoDup (d_output d0)) (Hpo : 0 <= d_produce_or d0).
Context (Hm : 1 <= output_multiple m) (Hsize : size <= limit <= INT_MAX / 2) (Hbehaves : well_behaved m d0 limit).
Context (Hlen : forall n k, length (forecast m n k) = k).
Context (Hfixed : fixed_rate m = true -> output_multiple m <= INT_MAX / 2 /\
  forall avail, 0 <= avail < size -> 0 <= fixed_rate_ninput_to_noutput m avail <= INT_MAX / 2).
Context (Htimes : forall avail, 0 <= avail < size -> 0 <= times_rate m avail <= limit).

(** No exception; the wires and the done flag as before, the buffers streams that
    moved on as they should, and no index moved but the block's. *)
Definition visited (h : heap) (g : gmap Z ghost) (r : res buffer_error (gr_block_detail * S * heap * label)) : Prop :=
  exists d' s' h' g' l, r = Ok (d', s', h', l) /\ same_wires d0 d' /\ 0 <= d_produce_or d' /\
    heap_rep h' g' /\ own d0 h h' /\ served d0 h g g'.

Lemma visited_stays s h0 g0 h g l : heap_rep h0 g0 -> rescanned g0 g -> heap_rep h g -> wires_ok d0 g -> quiet h0 h ->
  visited h0 g0 (Ok (d0, s, h, l)).
Proof using Hpo.
  intros Hr0 Hsc Hr Hw Hq. exists d0, s, h, g, l. apply (quiet_own d0) in Hq. split_and!; [done..|].
  apply (served_scan d0 h0 g0 h g); try done. by eapply own_same_sizes.
Qed.

Lemma sts_call_work_visited s h0 g0 h g n ninput_items : heap_rep h0 g0 -> rescanned g0 g -> heap_rep h g -> quiet h0 h ->
  0 < n <= limit -> (output_multiple m | n) ->
  Forall2 (fun i avail => waiting g i avail) (d_input d0) ninput_items ->
  (forall a, a ∈ d_output d0 -> roomy g a n) ->
  Forall2 (fun req avail => req <= avail) (forecast m n (length (d_input d0))) ninput_items ->
  visited h0 g0 (sts_call_work m d0 s h n ninput_items).
Proof using Hin Hout Hpo Hsize Hbehaves.
  intros Hr0 Hsc Hr Hq Hn Hmn Hwait Hroom Hreq. set (inb := fun i => default 0 (ninput_items !! i)).
  assert (budget (lengths g) d0 g inb (fun _ => n)) as Hb.
  { split.
    - intros i key Hk. destruct (Forall2_lookup_l _ _ _ _ _ Hwait Hk) as (avail & Ha & Hw). unfold inb. rewrite Ha. by apply waiting_lengths.
    - intros o a Ha. apply Hroom. by eapply list_elem_of_lookup_2. }
  pose proof (budget_wires _ _ _ _ _ Hb) as Hw. unfold sts_call_work.
  destruct (load_inputs_ok h g (d_input d0) ninput_items Hr (proj1 Hw)) as [items ->]. rewrite ok_bind.
  destruct (general_work m s n ninput_items items) as [[[s' outs] calls] r] eqn:Hgw.
  destruct (Hbehaves _ _ _ _ _ _ _ _ Hn Hmn Hreq Hgw) as (Hstore & Hcalls & Hcons & Hprod).
  destruct (store_outputs_ok (d_output d0) outs h g n Hr Hroom Hstore) as (h1 & E1 & Hr1). rewrite E1, ok_bind.
  assert (forall i, (i < length (d_input d0))%nat -> consumed_from i calls <= inb i) as Hc.
  { intros i Hil. apply Hcons. unfold inb. destruct (ninput_items !! i) eqn:E; [done|].
    apply lookup_ge_None_1 in E. apply Forall2_length in Hwait. lia. }
  destruct (make_calls_ok (lengths g) d0 Hin Hout calls d0 h1 g inb (fun _ => n)) as (d2 & h2 & g2 & E2 & Hd2 & Hr2 & Ha2 & Hb2); try done.
  { intros o. specialize (Hprod o). case_if; lia. }
  rewrite E2, ok_bind. pose proof (budget_wires _ _ _ _ _ Hb2) as Hw2. cbv beta iota.
  assert (forall i, i ∈ d_input d0 -> exists n, 0 <= n /\ waiting_at (lengths g) g2 i n) as Hleft.
  { intros i [k Hk]%list_elem_of_lookup. eexists. split; [|by apply (proj1 Hb2)].
    specialize (Hc k ltac:(by eapply lookup_lt_Some)). cbv beta. lia. }
  apply store_outputs_frame in E1. apply calls_move in E2 as [Hp2 Hm2]; [|done].
  assert (forall d' h', moves d0 h1 d' h' -> own d0 h0 h') as Hown.
  { intros d' h' (_ & _ & Hf). unfold own. etransitivity; [apply quiet_own; etransitivity; [exact Hq|exact E1]|].
    eapply frame_mono; [..|exact Hf]; cbn; tauto. }
  pose proof (own_same_sizes _ _ _ (quiet_own d0 _ _ Hq)) as Hss.
  case_if.
  { exists d2, s', h2, g2, to_were_done. split_and!; [done..|by eapply Hown|]. by apply (served_intro d0 h0 g0 h g h2 g2). }
  destruct (produce_each_ok d0 Hout r d2 h2 g2 (fun o => n - produced_on o calls) Hd2 Hr2 Hw2) as
    (d4 & h4 & g4 & E4 & Hd4 & Hr4 & Hw4 & Ha4 & Hk4).
  { intros o a Ha. split; [by apply Hb2|]. specialize (Hprod o). case_if; [|lia]. unfold WORK_CALLED_PRODUCE in *. lia. }
  rewrite E4, ok_bind. apply produce_each_moves in E4 as [Hp4 Hm4]; [|done].
  exists d4, s', h4, g4, (next_block (0 <? r)). split_and!; [done..|by eapply Hown, moves_trans|].
  apply (served_intro d0 h0 g0 h g h4 g4); try done; [by transitivity g2|].
  intros i Hii. destruct (Hleft i Hii) as (k & Hk & Hwk). exists k. split; [done|]. by apply Hk4.
Qed.

(** What a plan must be to be acted upon. *)
Definition plan_ok (h0 : heap) (g0 : gmap Z ghost) (r : res buffer_error (heap * plan)) : Prop :=
  exists h g p, r = Ok (h, p) /\ heap_rep h g /\ rescanned g0 g /\ quiet h0 h /\ wires_ok d0 g /\
    match p with
    | Work n ninput_items => 0 < n <= limit /\ (output_multiple m | n) /\
        Forall2 (fun i avail => waiting g i avail) (d_input d0) ninput_items /\
        (forall a, a ∈ d_output d0 -> roomy g a n) /\
        Forall2 (fun req avail => req <= avail) (forecast m n (length (d_input d0))) ninput_items
    | _ => True
    end.

Lemma act_visited s h0 g0 r : heap_rep h0 g0 -> plan_ok h0 g0 r -> visited h0 g0 ('(h, p) ← r; act m d0 s h p).
Proof using Hin Hout Hpo Hsize Hbehaves.
  intros Hr0 (h & g & p & -> & Hr & Hsc & Hq & Hw & Hp). rewrite ok_bind. destruct p as [n ins| |]; cbn [act].
  - destruct Hp as (H1 & H2 & H3 & H4 & H5). by eapply sts_call_work_visited.
  - by eapply visited_stays.
  - by eapply visited_stays.
Qed.

Lemma plan_try_ok h0 g0 h g n seen : rescanned g0 g -> heap_rep h g -> quiet h0 h -> wires_ok d0 g -> 0 < size ->
  seen_ok size g (d_input d0) seen -> 0 < n <= limit -> (output_multiple m | n) -> (forall a, a ∈ d_output d0 -> roomy g a n) ->
  plan_ok h0 g0 (p ← plan_try m d0 h n seen; Ok (h, p)).
Proof using Hm Hsize Hlen Hfixed.
  intros Hsc Hr Hq Hw Hpos Hs Hn Hmn Hroom. unfold plan_try.
  pose proof (Forall2_length _ _ _ Hs) as Hsl. pose proof (seen_avail d0 size seen g Hpos Hs) as Hav.
  destruct (try_again_spec m seen (max_possible d0 h) Hm) with (fuel := Z.to_nat n) (n := n) as (v & -> & Hv); try done.
  { intros Hf. destruct (Hfixed Hf) as [Hk Hrate]. split; [by apply Hrate|done]. }
  { lia. }
  destruct v as [n'| |]; rewrite ok_bind; eexists h, g, _; (split; [reflexivity|]); split_and!; try done.
  - lia.
  - lia.
  - tauto.
  - apply Forall2_fmap_r. eapply Forall2_impl; [exact Hs|]. by intros i x [Hx _].
  - intros a Ha. destruct (Hroom a Ha) as (x & Hx & Hle). exists x. split; [done|lia].
  - rewrite Hsl. apply Forall2_fmap_r. apply Hv.
Qed.

Lemma plan_visit_ok last h g : heap_rep h g -> wires_ok d0 g -> d_input d0 <> [] \/ d_output d0 <> [] -> sized size h ->
  plan_ok h g (plan_visit m last d0 h).
Proof using All.
  intros Hr Hw Hne Hsizes. pose proof Hsizes as [Hpos _].
  assert (rescanned g g) as Hsc0 by reflexivity. assert (quiet h h) as Hq0 by (unfold quiet; reflexivity).
  assert (forall p, match p with Work _ _ => False | _ => True end -> plan_ok h g (Ok (h, p))) as Hidle.
  { intros p Hp. exists h, g, p. split_and!; try done. by destruct p. }
  unfold plan_visit. destruct (d_detail_done d0); [by apply Hidle|].
  destruct (sts_space_loop_spec (output_multiple m) size (d_output d0) INT_MAX h g Hm Hr Hsizes ltac:(lia) (proj2 Hw) (or_introl eq_refl))
    as (h1 & g1 & n & Hsp & Hr1 & Href & Hq1 & Hres).
  pose proof (rf_streams _ _ Href) as Hsc.
  assert (wires_ok d0 g1) as Hw1.
  { split; [|intros a Ha; eapply refreshed_is_Some; [done|by apply Hw]].
    intros i Hi. destruct (proj1 Hw i Hi) as [j Hj]. exists j. by apply Href. }
  assert (forall p, match p with Work _ _ => False | _ => True end -> plan_ok h g (Ok (h1, p))) as Hidle1.
  { intros p Hp. exists h1, g1, p. split_and!; try done. by destruct p. }
  assert (d_output d0 <> [] -> n <> -1 -> n <> 0 -> 0 < n <= limit /\ (output_multiple m | n) /\
    forall a, a ∈ d_output d0 -> roomy g1 a n) as Hn.
  { intros Ho Hn1 Hn0. destruct Hres as [?|[?|[[_ ?]|(Hn2 & Hdv & _ & Hroom)]]]; [done..|]. split_and!; try done; lia. }
  unfold sts_min_available_space, source_p, sink_p, ninputs, noutputs.
  destruct (Z.eqb_spec (Z.of_nat (length (d_input d0))) 0) as [Hsrc|Hsrc];
    [|destruct (Z.eqb_spec (Z.of_nat (length (d_output d0))) 0) as [Hsink|Hsink]].
  - destruct last; [by apply Hidle|].
    assert (d_input d0 = []) as Ei by (apply length_zero_iff_nil; lia). destruct Hne as [?|Hne]; [done|].
    rewrite Hsp, ok_bind. cbv beta iota. destruct (Z.eqb_spec n (-1)); [by apply Hidle1|].
    destruct (Z.eqb_spec n 0); [by apply Hidle1|]. destruct (Hn Hne) as (Hn1 & Hn2 & Hn3); [done..|].
    exists h1, g1, (Work n []). split_and!; try done; try lia; rewrite Ei; [constructor|].
    cbn [length]. pose proof (Hlen n 0). destruct (forecast m n 0); [constructor|done].
  - assert (d_output d0 = []) as Eo by (apply length_zero_iff_nil; lia).
    destruct (look_sink_spec size h g (output_multiple m) (d_input d0) Hsizes Hr (proj1 Hw)) as (r & -> & Hs).
    rewrite ok_bind. destruct r as [seen|]; [|by apply Hidle]. specialize (Hs seen eq_refl).
    destruct (Htimes (max_avail seen) (seen_avail d0 size seen g Hpos Hs)) as [Ht0 Ht].
    pose proof Hsize as Hsize'. change (INT_MAX / 2) with 1073741823 in Hsize'.
    destruct (round_down_spec (times_rate m (max_avail seen)) (output_multiple m)) as [Hrd Hdv];
      [unfold INT_MAX; lia|done|]. rewrite (sx_id 32) by (norm_pow; lia).
    case_if; [by apply Hidle|]. apply (plan_try_ok h g h g); try done; [lia|].
    rewrite Eo. by intros x ?%not_elem_of_nil.
  - destruct (look_all_spec size h g (d_input d0) Hsizes Hr (proj1 Hw)) as (seen & -> & Hs). rewrite ok_bind.
    rewrite Hsp, ok_bind. cbv beta iota. destruct (Z.eqb_spec n (-1)); [by apply Hidle1|].
    destruct (Z.eqb_spec n 0); [by apply Hidle1|].
    destruct Hn as (Hn1 & Hn2 & Hn3); [by intros E; rewrite E in Hsink|done..|].
    apply (plan_try_ok h g h1 g1); try done. by eapply seen_refreshed.
Qed.

Lemma visit_visited last s h g : heap_rep h g -> wires_ok d0 g -> d_input d0 <> [] \/ d_output d0 <> [] -> sized size h ->
  visited h g (visit m last d0 s h).
Proof using All. intros. apply act_visited; [done|]. by apply plan_visit_ok. Qed.
End Visited.

(** ** The loop *)

Definition made (l : label) : bool := match l with next_block p => p | to_were_done => false end.

Section Alive.
Context (d_blocks : list Z).

(** The blocks that are not done. *)
Definition alive (details : Z -> gr_block_detail) : list Z := filter (fun b => d_detail_done (details b) = false) d_blocks.

Lemma alive_same details b d : d_detail_done d = d_detail_done (details b) -> alive (<[b := d]> details) = alive details.
Proof.
  intros Hd. unfold alive. apply list_filter_iff. intros x. destruct (decide (x = b)) as [->|]; [by rewrite upd_eq, Hd|by rewrite upd_ne].
Qed.

Lemma alive_less details b d : NoDup d_blocks -> b ∈ d_blocks -> d_detail_done (details b) = false -> d_detail_done d = true ->
  length (alive details) = Datatypes.S (length (alive (<[b := d]> details))).
Proof.
  intros Hnd Hb H0 H1. unfold alive. induction d_blocks as [|x l IH]; [by apply elem_of_nil in Hb|].
  apply NoDup_cons in Hnd as [Hx Hnd]. rewrite !filter_cons. destruct (decide (x = b)) as [->|Hne].
  - rewrite decide_True by done. rewrite decide_False by (rewrite upd_eq, H1; done). cbn. f_equal.
    clear IH Hnd Hb. induction l as [|y l IH]; [done|]. apply not_elem_of_cons in Hx as [Hy Hx].
    rewrite !filter_cons, upd_ne by done. by case_decide; cbn; rewrite IH.
  - apply elem_of_cons in Hb as [->|Hb]; [done|]. specialize (IH Hnd Hb). rewrite upd_ne by done. case_decide; cbn; lia.
Qed.

Lemma none_alive details b : alive details = [] -> b ∈ d_blocks -> d_detail_done (details b) = true.
Proof.
  unfold alive. intros Ha Hb. destruct (d_detail_done (details b)) eqn:E; [done|]. exfalso.
  assert (b ∈ filter (fun b => d_detail_done (details b) = false) d_blocks) as H by by apply list_elem_of_filter.
  rewrite Ha in H. by apply elem_of_nil in H.
Qed.

Lemma advance_fields {S} (c : loop S) : l_heap (advance d_blocks c) = l_heap c /\ l_detail (advance d_blocks c) = l_detail c /\
  nalive (advance d_blocks c) = nalive c /\ (d_blocks <> [] -> (bi c < length d_blocks)%nat -> (bi (advance d_blocks c) < length d_blocks)%nat).
Proof.
  unfold advance. destruct (Nat.leb_spec (length d_blocks) (Datatypes.S (bi c))); cbn; split_and!; try done; intros.
  destruct d_blocks; [done|cbn; lia].
Qed.
End Alive.

Section Loops.
Context {S : Type} (blocks : Z -> gr_block S) (d_blocks : list Z) (wires : Z -> gr_block_detail) (size limit : Z).
Context (Hnodup : NoDup d_blocks) (Hcount : Z.of_nat (length d_blocks) < 2 ^ 32) (Hsize : size <= limit <= INT_MAX / 2).
Context (Hblocks : forall b, b ∈ d_blocks -> block_ok blocks wires size limit b).
Implicit Types (c : loop S).

Record loop_ok c : Prop := {
  loop_rep : exists g, heap_rep (l_heap c) g;
  loop_sized : sized size (l_heap c);
  loop_wired : forall b, b ∈ d_blocks -> wired_in (l_heap c) (wires b);
  loop_wires : forall b, b ∈ d_blocks -> wires_of (l_detail c b) = wires_of (wires b);
  loop_produce : forall b, b ∈ d_blocks -> 0 <= d_produce_or (l_detail c b);
  loop_alive : nalive c = Z.of_nat (length (alive d_blocks (l_detail c)));
  loop_bi : d_blocks <> [] -> (bi c < length d_blocks)%nat
}.

(** One block has run, and nothing but its own has changed. *)
Lemma loop_ok_update c b d s h n p : loop_ok c -> b ∈ d_blocks -> (exists g, heap_rep h g) ->
  wires_of d = wires_of (l_detail c b) -> 0 <= d_produce_or d -> own (l_detail c b) (l_heap c) h ->
  n = Z.of_nat (length (alive d_blocks (<[b := d]> (l_detail c)))) ->
  loop_ok (advance d_blocks (with_block c b d s h n p)).
Proof using Type.
  intros [Hr Hsz Hwi Hws Hpr Ha Hbi] Hb Hg Hw Hp Hown Hn.
  destruct (advance_fields d_blocks (with_block c b d s h n p)) as (E1 & E2 & E3 & E4). split; rewrite ?E1, ?E2, ?E3; cbn.
  - done.
  - by eapply frame_sized.
  - intros b' Hb'. eapply frame_wired_in; [exact Hown|by apply Hwi].
  - intros b' Hb'. destruct (decide (b' = b)) as [->|]; [rewrite upd_eq, Hw; by apply Hws|rewrite upd_ne by done; by apply Hws].
  - intros b' Hb'. destruct (decide (b' = b)) as [->|]; [by rewrite upd_eq|rewrite upd_ne by done; by apply Hpr].
  - done.
  - intros Hne. apply E4; [done|]. by apply Hbi.
Qed.

Lemma current_elem c : loop_ok c -> d_blocks <> [] -> nth (bi c) d_blocks 0 ∈ d_blocks.
Proof using Type. intros Hok Hne. apply list_elem_of_In, nth_In. by apply (loop_bi c). Qed.

Lemma current_visited c g last : loop_ok c -> d_blocks <> [] -> heap_rep (l_heap c) g -> let b := nth (bi c) d_blocks 0 in
  visited (l_detail c b) (l_heap c) g (visit (blocks b) last (l_detail c b) (l_state c b) (l_heap c)).
Proof using Hsize Hblocks.
  intros Hok Hne Hr b. pose proof (current_elem c Hok Hne) as Hb. fold b in Hb.
  destruct Hok as [_ Hsz Hwi Hws Hpr Ha Hbi]. destruct (Hblocks b Hb) as [Hi Ho Hwd Hm Hbe Hfo Hfi Hti].
  pose proof (Hws b Hb) as Hw. pose proof Hw as [= Ei Eo].
  apply visit_visited with (size := size) (limit := limit); try done.
  - by rewrite Ei.
  - by rewrite Eo.
  - by apply Hpr.
  - by eapply well_behaved_wires.
  - eapply wired_in_wires_ok; [done|]. eapply wired_in_wires; [by symmetry|by apply Hwi].
  - by rewrite Ei, Eo.
Qed.

Lemma visit_done (m : gr_block S) last d s h : d_detail_done d = true -> visit m last d s h = Ok (d, s, h, next_block false).
Proof using Type. intros Hd. unfold visit, plan_visit. by rewrite Hd. Qed.

(** A round: one block of the list has run, and the streams moved on as an
    iteration of that block may move them. *)
Definition round_of c g (r : res buffer_error (loop S * label)) : Prop :=
  exists c' l g' d, r = Ok (c', l) /\ loop_ok c' /\ heap_rep (l_heap c') g' /\
    let b := nth (bi c) d_blocks 0 in
    own (wires b) (l_heap c) (l_heap c') /\ l_detail c' = <[b := d]> (l_detail c) /\ served (wires b) (l_heap c) g g'.

Lemma round_done c g b d s h g' : loop_ok c -> nth (bi c) d_blocks 0 = b -> b ∈ d_blocks -> same_wires (l_detail c b) d ->
  0 <= d_produce_or d -> heap_rep h g' -> own (l_detail c b) (l_heap c) h -> served (wires b) (l_heap c) g g' ->
  d_detail_done (l_detail c b) = false ->
  round_of c g ('(d, h) ← set_done d true h; Ok (advance d_blocks (with_block c b d s h (u32 (nalive c - 1)) (making_progress c)), to_were_done)).
Proof using Hnodup Hcount.
  intros Hok Eb Hb Hsw Hp Hr Hown Hsv Edone. pose proof Hsw as (Ei & Eo & Ed).
  assert (wires_of d = wires_of (l_detail c b)) as Hw by (unfold wires_of; by rewrite Ei, Eo).
  pose proof (loop_wires c Hok b Hb) as Hw0.
  assert (wires_ok d g') as Hwg.
  { eapply wired_in_wires_ok; [done|]. eapply frame_wired_in; [exact Hown|].
    eapply wired_in_wires; [|by apply (loop_wired c Hok b)]. by rewrite Hw. }
  destruct (set_done_ok d d h g' true) as (h' & E2 & Hr2); [done|done|done|]. rewrite E2, ok_bind. cbv beta iota.
  apply set_done_frame in E2 as [Hw2 Hq]. eexists _, _, g', _. split; [reflexivity|].
  match goal with |- loop_ok (advance _ ?w) /\ _ => destruct (advance_fields d_blocks w) as (E1 & E3 & _) end.
  rewrite E1, E3, Eb. cbn [with_block l_heap l_detail].
  assert (own (l_detail c b) (l_heap c) h') as Hown'.
  { unfold own in *. etransitivity; [exact Hown|]. eapply frame_mono; [..|exact Hq]; done. }
  split_and!; [|done| |reflexivity|done].
  - apply loop_ok_update; try done; [by exists g'|].
    rewrite (loop_alive c Hok). match goal with |- context [<[b := ?d']> _] =>
      pose proof (alive_less d_blocks (l_detail c) b d' Hnodup Hb Edone eq_refl) as Hless end.
    assert (length (alive d_blocks (l_detail c)) <= length d_blocks)%nat as Hle by apply length_filter.
    rewrite u32_id; lia.
  - injection Hw0 as Ei0 Eo0. unfold own in *. by rewrite <- Ei0, <- Eo0.
Qed.

Lemma loop_round_ok c g : loop_ok c -> d_blocks <> [] -> heap_rep (l_heap c) g -> round_of c g (loop_round blocks d_blocks c).
Proof using Hnodup Hcount Hsize Hblocks.
  intros Hok Hne Hr0. pose proof (current_visited c g (made_progress_last_pass c) Hok Hne Hr0) as Hv. pose proof (current_elem c Hok Hne) as Hb.
  unfold loop_round. remember (nth (bi c) d_blocks 0) as b eqn:Eb. cbv zeta in Hv.
  destruct Hv as (d & s & h & g' & l & E & Hsw & Hp & Hr & Hown & Hsv). rewrite E, ok_bind. cbv beta iota.
  pose proof Hsw as (Ei & Eo & Ed). pose proof (loop_wires c Hok b Hb) as Hw0.
  apply (served_wires _ (wires b)) in Hsv; [|done].
  destruct l as [p|].
  - eexists _, _, g', d. split; [reflexivity|].
    match goal with |- loop_ok (advance _ ?w) /\ _ => destruct (advance_fields d_blocks w) as (E1 & E3 & _) end.
    rewrite E1, E3, <- Eb. cbn [with_block l_heap l_detail]. split_and!; [|done| |done|done].
    + apply loop_ok_update; try done; [by exists g'|unfold wires_of; by rewrite Ei, Eo|]. rewrite alive_same by done. apply Hok.
    + injection Hw0 as Ei0 Eo0. unfold own in *. by rewrite <- Ei0, <- Eo0.
  - destruct (d_detail_done (l_detail c b)) eqn:Edone; [by rewrite visit_done in E|].
    by eapply round_done.
Qed.
End Loops.

(** ** Passes *)

(** The labels of pass [p], over [n] blocks. *)
Definition pass (n p : nat) (ls : list label) : list label := take n (drop (n * p) ls).

Section Passes.
Context {S : Type} (blocks : Z -> gr_block S) (d_blocks : list Z).
Implicit Types (c : loop S).
Abbreviation N := (length d_blocks).

(** The loop is in pass [p], at block [bi]; [ls] are the labels so far. *)
Definition at_pass (ls : list label) c : Prop := exists p,
  (length ls = N * p + bi c)%nat /\ (bi c < N)%nat /\
  made_progress_last_pass c = match p with O => true | Datatypes.S q => existsb made (pass N q ls) end /\
  making_progress c = existsb made (drop (N * p) ls).

Lemma loop_round_fields c c' l : loop_round blocks d_blocks c = Ok (c', l) ->
  if (N <=? Datatypes.S (bi c))%nat then bi c' = O /\ made_progress_last_pass c' = (making_progress c || made l) /\ making_progress c' = false
  else bi c' = Datatypes.S (bi c) /\ made_progress_last_pass c' = made_progress_last_pass c /\
    making_progress c' = (making_progress c || made l).
Proof.
  unfold loop_round. intros ([[[d s] h] l'] & _ & H)%res_bind_ok. destruct l' as [p|].
  - injection H as <- <-. unfold advance. cbn. by case_if.
  - apply res_bind_ok in H as ([d' h'] & _ & H). injection H as <- <-.
    unfold advance. cbn. rewrite orb_false_r. by case_if.
Qed.

Lemma at_pass_step ls c c' l : at_pass ls c -> loop_round blocks d_blocks c = Ok (c', l) -> at_pass (ls ++ [l]) c'.
Proof.
  intros (p & Hl & Hb & Hlast & Hmaking) H. apply loop_round_fields in H.
  assert (drop (N * p) (ls ++ [l]) = drop (N * p) ls ++ [l]) as Ed by (rewrite drop_app_le; [done|lia]).
  destruct (Nat.leb_spec N (Datatypes.S (bi c))); destruct H as (E1 & E2 & E3).
  - exists (Datatypes.S p). rewrite length_app, E1, E2, E3, Hmaking. cbn [length]. split_and!; [lia|lia| |].
    + unfold pass. rewrite Ed, take_ge by (rewrite length_app, length_drop; cbn; lia). rewrite existsb_app. cbn. by rewrite orb_false_r.
    + rewrite drop_ge; [done|]. rewrite length_app. cbn. lia.
  - exists p. rewrite length_app, E1, E2, E3, Hmaking, Hlast, Ed, existsb_app. cbn. rewrite orb_false_r.
    split_and!; [lia|lia| |done]. destruct p as [|q]; [done|]. unfold pass. f_equal.
    rewrite drop_app_le by lia. rewrite take_app_le by (rewrite length_drop; lia). done.
Qed.

Lemma main_loop_passes stops c c' ls0 ls ended : at_pass ls0 c ->
  main_loop blocks d_blocks stops c = Ok (c', ls, ended) -> at_pass (ls0 ++ ls) c'.
Proof.
  revert c ls0 ls ended. induction stops as [|stop stops IH]; intros c ls0 ls ended Hc; cbn [main_loop]; case_if.
  1-3: intros H; injection H as <- <- _; by rewrite app_nil_r.
  destruct stop; [intros H; injection H as <- <- _; by rewrite app_nil_r|].
  intros ([c1 l] & H1 & H)%res_bind_ok. apply res_bind_ok in H as ([[c2 ls2] e] & H2 & H).
  injection H as <- <- _. rewrite cons_middle, app_assoc. eapply IH; [|exact H2].
  by eapply at_pass_step.
Qed.
End Passes.

(** ** From start to end *)

Section Runs.
Context {S : Type} (blocks : Z -> gr_block S) (d_blocks : list Z) (size limit : Z).
Context (h0 : heap) (details : Z -> gr_block_detail).

(** The flow graph that the scheduler is given: blocks as the executor needs them,
    wired to buffers that are streams. *)
Record flow_graph_ok : Prop := {
  fg_nodup : NoDup d_blocks;
  fg_count : Z.of_nat (length d_blocks) < 2 ^ 32;
  fg_size : size <= limit <= INT_MAX / 2;
  fg_blocks : forall b, b ∈ d_blocks -> block_ok blocks details size limit b;
  fg_rep : exists g, heap_rep h0 g;
  fg_sized : sized size h0;
  fg_wired : forall b, b ∈ d_blocks -> wired_in h0 (details b);
  fg_produce : forall b, b ∈ d_blocks -> 0 <= d_produce_or (details b)
}.

Abbreviation serves := (serves d_blocks details).
Context (Hfg : flow_graph_ok).

Lemma clear_details_ok g0 : heap_rep h0 g0 -> exists h ds, clear_details d_blocks (h0, details) = Ok (h, ds) /\
  heap_rep h g0 /\ quiet h0 h /\ rtc serves (h0, g0) (h, g0) /\ (forall b, b ∉ d_blocks -> ds b = details b) /\
  forall b, b ∈ d_blocks -> d_detail_done (ds b) = false /\ wires_of (ds b) = wires_of (details b) /\ 0 <= d_produce_or (ds b).
Proof using Hfg.
  intros Hr0. destruct Hfg as [Hnd _ _ Hb _ Hsz Hw Hp]. unfold clear_details.
  match goal with |- context [for_each ?f d_blocks ?x0] => destruct (for_each_reaches f (fun seen '(h, ds) =>
    heap_rep h g0 /\ quiet h0 h /\ rtc serves (h0, g0) (h, g0) /\ (forall b, b ∉ d_blocks -> ds b = details b) /\
    forall b, b ∈ d_blocks -> wires_of (ds b) = wires_of (details b) /\ 0 <= d_produce_or (ds b) /\
      (b ∈ seen -> d_detail_done (ds b) = false)) d_blocks x0) as ([h ds] & E & Hc) end.
  - split; [done|]. split; [unfold quiet; reflexivity|]. split; [done|]. split; [done|].
    intros b Hin. split_and!; [done|by apply Hp|by intros ?%not_elem_of_nil].
  - intros seen b rest [h ds] Hl (Hg & Hq & Hs & Hout & Hds). assert (b ∈ d_blocks) as Hin by (rewrite Hl; set_solver).
    destruct (Hds b Hin) as (Hwb & Hpb & _). destruct (Hb b Hin) as [Hi Ho _ _ _ _ _ _]. pose proof Hwb as [= Ei Eo].
    assert (wired_in h (details b)) as Hwi by (eapply frame_wired_in; [exact Hq|by apply Hw]).
    destruct (set_done_ok (ds b) (ds b) h g0 false) as (h' & E & Hg'); [done|done| |].
    { eapply wired_in_wires_ok; [done|]. by eapply wired_in_wires. }
    rewrite E, ok_bind. eexists. split; [reflexivity|]. apply set_done_frame in E as [_ Hq'].
    split; [done|]. split; [unfold quiet in *; by etransitivity|].
    split; [eapply rtc_r; [exact Hs|]; apply (neutral_serves _ _ _ _ _ b); try done; eapply wired_in_wires_ok; [exact Hg|exact Hwi]|].
    split; [intros b' Hb'; rewrite upd_ne; [by apply Hout|by intros ->]|].
    intros b' Hin'. destruct (decide (b' = b)) as [->|].
    + rewrite upd_eq. by split_and!.
    + rewrite upd_ne by done. destruct (Hds b' Hin') as (? & ? & Hd). split_and!; [done..|]. intros [Hb'|Hb'%list_elem_of_singleton]%elem_of_app; [by apply Hd|done].
  - exists h, ds. destruct Hc as (H1 & H2 & H3 & H4 & H5). split_and!; [done..|]. intros b Hin.
    destruct (H5 b Hin) as (? & ? & Hd). split_and!; [by apply Hd|done|done].
Qed.

Lemma enter_ok start ss g0 : heap_rep h0 g0 -> exists c : loop S, enter d_blocks start h0 details ss = Ok c /\
  loop_ok d_blocks details size c /\ heap_rep (l_heap c) g0 /\ quiet h0 (l_heap c) /\ rtc serves (h0, g0) (l_heap c, g0) /\
  (forall b, b ∉ d_blocks -> l_detail c b = details b) /\ (d_blocks <> [] -> at_pass d_blocks [] c).
Proof using Hfg.
  intros Hr0. destruct (clear_details_ok g0 Hr0) as (h & ds & E & Hr & Hq & Hs & Hout & Hds). unfold enter. rewrite E, ok_bind.
  eexists. split; [reflexivity|]. destruct Hfg as [Hnd Hct _ Hb _ Hsz Hw _]. split_and!; try done.
  - split; cbn.
    + by exists g0.
    + by eapply frame_sized.
    + intros b Hin. eapply frame_wired_in; [exact Hq|by apply Hw].
    + intros b Hin. by apply Hds.
    + intros b Hin. by apply Hds.
    + do 2 f_equal. unfold alive. clear -Hds. induction d_blocks as [|b l IH]; [done|].
      rewrite filter_cons. rewrite decide_True by (by apply Hds; left). cbn. f_equal. apply IH. intros x Hx. apply Hds. by right.
    + intros Hne. destruct d_blocks; [done|cbn; lia].
  - intros Hne. exists O. cbn. rewrite Nat.mul_0_r. split_and!; [done|destruct d_blocks; [done|cbn; lia]|done|done].
Qed.

Lemma alive_nil (c : loop S) : loop_ok d_blocks details size c -> nalive c = 0 <-> forall b, b ∈ d_blocks -> d_detail_done (l_detail c b) = true.
Proof using Type.
  intros Hok. rewrite (loop_alive _ _ _ _ Hok). split.
  - intros H b Hb. apply (none_alive d_blocks); [|done]. apply length_zero_iff_nil. lia.
  - intros H. destruct (alive d_blocks (l_detail c)) as [|b l] eqn:E; [done|]. exfalso.
    assert (b ∈ alive d_blocks (l_detail c)) as Hb by (rewrite E; left). apply list_elem_of_filter in Hb as [Hf Hb].
    rewrite (H b Hb) in Hf. done.
Qed.

Lemma some_alive (c : loop S) : loop_ok d_blocks details size c -> nalive c <> 0 -> exists b, b ∈ d_blocks /\ d_detail_done (l_detail c b) = false.
Proof using Type.
  intros Hok Hn. rewrite (loop_alive _ _ _ _ Hok) in Hn. destruct (alive d_blocks (l_detail c)) as [|b l] eqn:E; [done|].
  exists b. assert (b ∈ alive d_blocks (l_detail c)) as Hb by (rewrite E; left). by apply list_elem_of_filter in Hb as [Hf Hb].
Qed.

Lemma loop_nonempty (c : loop S) : loop_ok d_blocks details size c -> nalive c <> 0 -> d_blocks <> [].
Proof using Type. intros Hok Hn ->. by rewrite (loop_alive _ _ _ _ Hok) in Hn. Qed.

Lemma round_serves c g : loop_ok d_blocks details size c -> nalive c <> 0 -> heap_rep (l_heap c) g ->
  exists c' l g', loop_round blocks d_blocks c = Ok (c', l) /\ loop_ok d_blocks details size c' /\ serves (l_heap c, g) (l_heap c', g').
Proof using Hfg.
  intros Hok Hn Hr. pose proof (loop_nonempty c Hok Hn) as Hne.
  destruct (loop_round_ok blocks d_blocks details size limit (fg_nodup Hfg) (fg_count Hfg) (fg_size Hfg) (fg_blocks Hfg) c g Hok Hne Hr)
    as (c1 & l & g1 & d & E & Hok1 & Hr1 & Hown & _ & Hs).
  exists c1, l, g1. split_and!; [done..|]. split_and!; [done|by eapply own_same_sizes|].
  eexists. split; [by apply (current_elem d_blocks details size c)|done].
Qed.

Lemma main_loop_ok stops c g : loop_ok d_blocks details size c -> heap_rep (l_heap c) g ->
  exists c' ls ended g', main_loop blocks d_blocks stops c = Ok (c', ls, ended) /\ loop_ok d_blocks details size c' /\
    heap_rep (l_heap c') g' /\ rtc serves (l_heap c, g) (l_heap c', g') /\
    (ended = true <-> nalive c' = 0 \/ nth (length ls) stops false = true) /\ (ended = false -> length ls = length stops).
Proof using Hfg.
  revert c g. induction stops as [|stop1 stops IH]; intros c g Hok Hr; cbn [main_loop].
  all: destruct (Z.eqb_spec (nalive c) 0) as [H0|H0].
  - exists c, [], true, g. split_and!; try done. split; [by left|done].
  - exists c, [], false, g. split_and!; try done. split; [done|by intros [?|?]].
  - exists c, [], true, g. split_and!; try done. split; [by left|done].
  - destruct stop1; [exists c, [], true, g; split_and!; try done; by split; [right|]|].
    destruct (round_serves c g Hok H0 Hr) as (c1 & l & g1 & E & Hok1 & Hs1). rewrite E, ok_bind. cbv beta iota.
    destruct (IH c1 g1 Hok1 (proj1 Hs1)) as (c' & ls & ended & g' & -> & Hok' & Hr' & Hs & He & Hl). rewrite ok_bind.
    exists c', (l :: ls), ended, g'. split_and!; [done..|by eapply rtc_l|done|]. intros Hf. cbn. by rewrite Hl.
Qed.

(** Before each round some block is alive and nobody has stopped the loop. *)
Lemma main_loop_prefix stops c c' ls e k : main_loop blocks d_blocks stops c = Ok (c', ls, e) -> (k < length ls)%nat ->
  nth k stops false = false /\ exists ck ck' l, main_loop blocks d_blocks (take k stops) c = Ok (ck, take k ls, false) /\
    nalive ck <> 0 /\ loop_round blocks d_blocks ck = Ok (ck', l) /\ ls !! k = Some l.
Proof using Type.
  revert c ls k. induction stops as [|stop1 stops IH]; intros c ls k; cbn [main_loop]; destruct (nalive c =? 0) eqn:Hn.
  1-3: intros H; injection H as _ <- _; cbn; lia.
  destruct stop1; [intros H; injection H as _ <- _; cbn; lia|].
  intros ([c1 l] & E1 & H)%res_bind_ok. apply res_bind_ok in H as ([[c2 ls2] e2] & E2 & H). injection H as -> <- ->.
  destruct k as [|k]; intros Hk; cbn [length take nth] in *.
  - split; [done|]. exists c, c1, l. cbn [main_loop]. rewrite Hn. split_and!; try done. by apply Z.eqb_neq.
  - destruct (IH c1 ls2 k E2 ltac:(lia)) as (Hs & ck & ck' & lk & E & Hnk & Er & Hlk). split; [done|].
    exists ck, ck', lk. cbn [main_loop]. rewrite Hn, E1, ok_bind. cbv beta iota. by rewrite E, ok_bind.
Qed.

(** The same from the start of [run]. *)
Lemma run_prefix start stop stops ss c ls e k : run blocks d_blocks start stop stops h0 details ss = Ok (c, ls, e) -> (k < length ls)%nat ->
  nth k stops false = false /\ exists ck ck' l, run blocks d_blocks start stop (take k stops) h0 details ss = Ok (ck, take k ls, false) /\
    nalive ck <> 0 /\ loop_round blocks d_blocks ck = Ok (ck', l) /\ ls !! k = Some l.
Proof using Type.
  unfold run. intros (c0 & E0 & H)%res_bind_ok Hk. apply res_bind_ok in H as ([[c1 ls1] e1] & E1 & H). injection H as _ <- _.
  destruct (main_loop_prefix _ _ _ _ _ _ E1 Hk) as (Hs & ck & ck' & l & E & Hn & Hl). split; [done|].
  exists ck, ck', l. by rewrite E0, ok_bind, E, ok_bind.
Qed.

Lemma run_ok start stop stops ss g0 : heap_rep h0 g0 ->
  exists c ls ended g, run blocks d_blocks start stop stops h0 details ss = Ok (c, ls, ended) /\ loop_ok d_blocks details size c /\
    heap_rep (l_heap c) g /\ rtc serves (h0, g0) (l_heap c, g) /\
    (ended = true <-> nalive c = 0 \/ nth (length ls) stops false = true) /\ (ended = false -> length ls = length stops).
Proof using Hfg.
  intros Hr0. destruct (enter_ok start ss g0 Hr0) as (c0 & E0 & Hok0 & Hr1 & _ & Hs0 & _).
  destruct (main_loop_ok stops c0 g0 Hok0 Hr1) as (c & ls & ended & g & E & Hok & Hr & Hs & He).
  unfold run. rewrite E0, ok_bind, E, ok_bind. exists (if ended : bool then leave d_blocks stop c else c), ls, ended, g.
  split; [reflexivity|]. assert (rtc serves (h0, g0) (l_heap c, g)) as Hs2 by by etransitivity.
  destruct ended; [|done]. split; [by destruct Hok|]. split; [done|]. split; [done|exact He].
Qed.
End Runs.

(** C35. A run of the single threaded scheduler is safe: for as long as it goes on,
    and wherever it is stopped, no call fails.  The streams of the buffers are
    those of the start, moved on turn by turn as the turns of single blocks may
    move them: appended to by writers into room there was, so that no reader loses
    an unread item, and consumed by their own readers from what was there.  It
    counts the blocks that are alive.  It ends when all blocks are done or it is
    told to stop, and only then; and it makes no round with no block alive. *)
Theorem sts_runs {S} (blocks : Z -> gr_block S) d_blocks start stop size limit h0 details ss stops g0 :
  flow_graph_ok blocks d_blocks size limit h0 details -> heap_rep h0 g0 ->
  let run stops := run blocks d_blocks start stop stops h0 details ss in
  let all_done c := forall b, b ∈ d_blocks -> d_detail_done (l_detail c b) = true in
  exists c ls ended g, run stops = Ok (c, ls, ended) /\
    heap_rep (l_heap c) g /\ rtc (serves d_blocks details) (h0, g0) (l_heap c, g) /\
    nalive c = Z.of_nat (length (alive d_blocks (l_detail c))) /\
    (ended = true <-> all_done c \/ nth (length ls) stops false = true) /\ (ended = false -> length ls = length stops) /\
    forall k, (k < length ls)%nat -> nth k stops false = false /\
      exists ck, run (take k stops) = Ok (ck, take k ls, false) /\ ~ all_done ck.
Proof.
  intros Hfg Hr0. cbv zeta. destruct (run_ok blocks d_blocks size limit h0 details Hfg start stop stops ss g0 Hr0)
    as (c & ls & ended & g & E & Hok & Hr & Hs & He & Hl).
  exists c, ls, ended, g. rewrite (alive_nil _ _ _ _ Hok) in He. split_and!; try done; [apply Hok|].
  intros k Hk. destruct (run_prefix _ _ _ _ _ _ _ _ _ _ _ k E Hk) as (Hst & ck & _ & _ & Ek & Hn & _). split; [done|].
  exists ck. split; [done|]. destruct (run_ok blocks d_blocks size limit h0 details Hfg start stop (take k stops) ss g0 Hr0)
    as (ck1 & ls1 & e1 & g1 & E1 & Hok1 & _). rewrite Ek in E1. injection E1 as <- <- <-.
  intros Hd. apply Hn. by apply (alive_nil _ _ _ _ Hok1).
Qed.

(** A source runs if its outputs have room. *)
Definition run_source {S} (m : gr_block S) (d : gr_block_detail) (s : S) (h : heap) :
    res buffer_error (gr_block_detail * S * heap * label) :=
  '(h, space) ← sts_min_available_space d (output_multiple m) h;
  if space =? -1 then Ok (d, s, h, to_were_done)
  else if space =? 0 then Ok (d, s, h, next_block false)
  else sts_call_work m d s h space [].

(** What the work of the block of the next round returns, if that round calls it. *)
Definition work_returns {S} (blocks : Z -> gr_block S) (d_blocks : list Z) (c : loop S) : option Z :=
  let b := nth (bi c) d_blocks 0 in
  match plan_visit (blocks b) (made_progress_last_pass c) (l_detail c b) (l_heap c) with
  | Ok (h, Work n ninput_items) =>
      match load_inputs h (d_input (l_detail c b)) ninput_items with
      | Ok items => Some (general_work (blocks b) (l_state c b) n ninput_items items).2
      | Throw _ => None
      end
  | _ => None
  end.

(** A round makes progress if it calls a work that returns a positive count. *)
Lemma made_returns {S} (blocks : Z -> gr_block S) d_blocks c c' l : loop_round blocks d_blocks c = Ok (c', l) ->
  made l = true <-> exists r, work_returns blocks d_blocks c = Some r /\ 0 < r.
Proof.
  unfold loop_round, visit, work_returns. intros ([[[d s] h] l1] & H1 & H)%res_bind_ok.
  assert (l = l1) as ->.
  { destruct l1; [by injection H|]. by apply res_bind_ok in H as ([? ?] & _ & [= _ <-]). }
  clear H. apply res_bind_ok in H1 as ([h1 p] & -> & H1). destruct p as [n ins| |]; cbn [act] in H1.
  2-3: injection H1 as _ _ _ <-; cbn; by split; [|intros (? & ? & _)].
  unfold sts_call_work in H1. apply res_bind_ok in H1 as (items & -> & H1).
  destruct (general_work _ _ _ _ _) as [[[s' outs] calls] r]. cbn [snd].
  apply res_bind_ok in H1 as (h2 & _ & H1). apply res_bind_ok in H1 as ([d2 h3] & _ & H1).
  destruct (Z.eqb_spec r WORK_DONE) as [->|].
  - injection H1 as _ _ _ <-. cbn. split; [done|]. unfold WORK_DONE. by intros (? & [= <-] & ?).
  - apply res_bind_ok in H1 as ([d4 h4] & _ & H1). injection H1 as _ _ _ <-. cbn. rewrite Z.ltb_lt.
    split; [by exists r|]. by intros (? & [= <-] & ?).
Qed.

Lemma pass_lookup n p ls j : pass n p ls !! j = if bool_decide (j < n)%nat then ls !! (n * p + j)%nat else None.
Proof. unfold pass. case_bool_decide; [rewrite lookup_take_lt, lookup_drop by done; done|by rewrite lookup_take_ge by lia]. Qed.

(** What the labels of a pass say about its rounds. *)
Lemma sts_pass_progress {S} (blocks : Z -> gr_block S) d_blocks start stop h0 details ss stops c ls e q :
  run blocks d_blocks start stop stops h0 details ss = Ok (c, ls, e) -> (length d_blocks * Datatypes.S q <= length ls)%nat ->
  existsb made (pass (length d_blocks) q ls) = true <->
  exists k ck r, (length d_blocks * q <= k < length d_blocks * Datatypes.S q)%nat /\
    run blocks d_blocks start stop (take k stops) h0 details ss = Ok (ck, take k ls, false) /\
    work_returns blocks d_blocks ck = Some r /\ 0 < r.
Proof.
  set (n := length d_blocks). intros Hrun Hlen. rewrite existsb_exists. split.
  - intros (l & Hin%list_elem_of_In & Hm). apply list_elem_of_lookup in Hin as [j Hj]. rewrite pass_lookup in Hj. case_bool_decide; [|done].
    destruct (run_prefix blocks d_blocks h0 details start stop stops ss c ls e _ Hrun (lookup_lt_Some _ _ _ Hj))
      as (_ & ck & ck' & l' & Ek & _ & Er & Hl').
    rewrite Hj in Hl'. injection Hl' as <-. apply (made_returns _ _ _ _ _ Er) in Hm as (r & Hr & Hpos).
    exists (n * q + j)%nat, ck, r. split_and!; [lia|lia|done|done|done].
  - intros (k & ck & r & Hk & Ek & Hr & Hpos).
    destruct (run_prefix blocks d_blocks h0 details start stop stops ss c ls e k Hrun ltac:(lia)) as (_ & ck1 & ck' & l & Ek1 & _ & Er & Hlk).
    rewrite Ek in Ek1. injection Ek1 as <-. exists l. split; [|apply (made_returns _ _ _ _ _ Er); by exists r].
    apply list_elem_of_In, list_elem_of_lookup. exists (k - n * q)%nat. rewrite pass_lookup, bool_decide_true by lia.
    by replace (n * q + (k - n * q))%nat with k by lia.
Qed.

(** C36. Sources run last: when the loop comes to a source that is not done, it
    passes it over in the first pass over the blocks and after each pass in which
    the work of some block returned a positive count, and runs it after a pass in
    which none did. *)
Theorem sources_run_last {S} (blocks : Z -> gr_block S) d_blocks start stop size limit h0 details ss stops c ls :
  flow_graph_ok blocks d_blocks size limit h0 details -> d_blocks <> [] ->
  let run stops := run blocks d_blocks start stop stops h0 details ss in
  run stops = Ok (c, ls, false) ->
  let n := length d_blocks in let p := (length ls / n)%nat in let b := nth (bi c) d_blocks 0 in
  let progress_last_pass := exists k ck r, (n * (p - 1) <= k < n * p)%nat /\ run (take k stops) = Ok (ck, take k ls, false) /\
    work_returns blocks d_blocks ck = Some r /\ 0 < r in
  bi c = (length ls mod n)%nat /\
  (d_detail_done (l_detail c b) = false -> source_p (l_detail c b) = true ->
   let visit := visit (blocks b) (made_progress_last_pass c) (l_detail c b) (l_state c b) (l_heap c) in
   (p = O \/ progress_last_pass -> visit = Ok (l_detail c b, l_state c b, l_heap c, next_block false)) /\
   (p <> O -> ~ progress_last_pass -> visit = run_source (blocks b) (l_detail c b) (l_state c b) (l_heap c))).
Proof.
  intros Hfg Hne run0 Hrun n p b progress. pose proof (fg_rep _ _ _ _ _ _ Hfg) as [g0 Hg0].
  destruct (enter_ok blocks d_blocks size limit h0 details Hfg start ss g0 Hg0) as (c0 & E0 & Hok0 & _ & _ & _ & _ & Hp0).
  assert (main_loop blocks d_blocks stops c0 = Ok (c, ls, false)) as E.
  { pose proof Hrun as H. unfold run0, run in H. rewrite E0, ok_bind in H. apply res_bind_ok in H as ([[c1 ls1] e] & -> & H).
    destruct e; [done|]. by injection H as -> ->. }
  destruct (main_loop_passes blocks d_blocks stops c0 c [] ls false (Hp0 Hne) E) as (q & Hl & Hb & Hlast & _). cbn [app] in *.
  assert (p = q /\ bi c = (length ls mod n)%nat) as [-> Hbi].
  { unfold p, n. rewrite Hl. split.
    - rewrite Nat.mul_comm, Nat.div_add_l, Nat.div_small by lia. lia.
    - by rewrite Nat.add_comm, Nat.mul_comm, Nat.Div0.mod_add, Nat.mod_small. }
  split; [done|]. intros Hd Hs.
  assert (q <> O -> made_progress_last_pass c = true <-> progress) as Hprog.
  { intros Hq. destruct q as [|q]; [done|]. rewrite Hlast. unfold progress. replace (Datatypes.S q - 1)%nat with q by lia.
    apply (sts_pass_progress _ _ _ _ _ _ _ _ _ _ _ _ Hrun). lia. }
  unfold visit, plan_visit. rewrite Hd, Hs. split.
  - intros Hor. assert (made_progress_last_pass c = true) as ->; [|done].
    destruct q as [|q]; [done|]. destruct Hor as [?|?]; [done|]. by apply Hprog.
  - intros Hq Hno. destruct (made_progress_last_pass c) eqn:Em; [by destruct Hno; apply Hprog|].
    unfold run_source. destruct (sts_min_available_space _ _ _) as [[h1 m1]|e]; [|done]. rewrite !ok_bind. by repeat case_if.
Qed.

(** ** What this scheduler leaves out

    Tags stay where they are, whatever the policy of the block. *)
Lemma sts_ignores_tags {S} (m : gr_block S) policy last d s h :
  visit {| output_multiple := output_multiple m; history := history m; fixed_rate := fixed_rate m; times_rate := times_rate m;
           rate_is_one := rate_is_one m; tag_propagation_policy := policy; forecast := forecast m;
           fixed_rate_ninput_to_noutput := fixed_rate_ninput_to_noutput m;
           fixed_rate_noutput_to_ninput := fixed_rate_noutput_to_ninput m; general_work := general_work m |} last d s h =
  visit m last d s h.
Proof. reflexivity. Qed.

(** A block that calls [produce] itself made no progress. *)
Lemma called_produce_is_no_progress {S} (m : gr_block S) d s h n ninput items s' outs calls d1 h1 h2 :
  load_inputs h (d_input d) ninput = Ok items -> general_work m s n ninput items = (s', outs, calls, WORK_CALLED_PRODUCE) ->
  store_outputs (d_output d) outs h = Ok h1 -> for_each make_call calls (d, h1) = Ok (d1, h2) ->
  sts_call_work m d s h n ninput = Ok (d1, s', h2, next_block false).
Proof. intros E1 E2 E3 E4. unfold sts_call_work. by rewrite E1, ok_bind, E2, E3, ok_bind, E4, ok_bind. Qed.

(** ** Witnesses: a source and a sink *)

Lemma sync_block_ok {S} (blocks : Z -> gr_block S) wires size b work policy :
  (forall s n items s' outs r, 0 < n -> work s n items = (s', outs, r) ->
    Forall (fun l => zlen l <= n) outs /\ r <= n /\ r <> WORK_CALLED_PRODUCE) ->
  blocks b = gr_sync_block work policy 1 (fun x => x) true 1 -> NoDup (d_input (wires b)) -> NoDup (d_output (wires b)) ->
  d_input (wires b) <> [] \/ d_output (wires b) <> [] -> 0 < size < 2 ^ 20 -> block_ok blocks wires size size b.
Proof.
  intros Hwork Hb Hi Ho Hne Hsz. change (2 ^ 20) with 1048576 in Hsz. split; rewrite ?Hb; [done..| | | | |].
  - cbn. lia.
  - intros s n ninput items s' outs calls r Hn Hdv Hreq Hgw.
    eapply (sync_work_behaves work Hwork); [| exact Hgw | exact Hreq | |]; try lia.
    + rewrite sync_need by (norm_pow; lia). lia.
    + intros j Hj. rewrite sync_need by (norm_pow; lia). lia.
  - intros n k. apply length_replicate.
  - intros _. change (INT_MAX / 2) with 1073741823. cbn [output_multiple gr_sync_block fixed_rate_ninput_to_noutput].
    split; [lia|]. intros avail Ha. unfold sync_ninput_to_noutput. change (s32 1) with 1. lia.
  - cbn. lia.
Qed.

Definition ones_work (s : ()) (n : Z) (items : list (list Z)) : () * list (list Z) * Z := (s, [replicate (Z.to_nat n) 1], n).

Definition relay_blocks (b : Z) : gr_block () :=
  if b =? 4 then gr_sync_block ones_work TPP_ALL_TO_ALL 1 (fun x => x) true 1 else copy_block.
Definition relay_details (b : Z) : gr_block_detail :=
  if b =? 4 then {| d_produce_or := 0; d_input := []; d_output := [1]; d_detail_done := false |} else nap_detail.
Definition relay_run (stops : list bool) :=
  run relay_blocks [4; 5] (fun _ s => s) (fun _ s => s) stops {[1 := nap_buffer]} relay_details (fun _ => tt).

Lemma relay_ok : flow_graph_ok relay_blocks [4; 5] 4 4 {[1 := nap_buffer]} relay_details.
Proof.
  destruct nap_rep as (H & pos & Hr). split.
  - apply (bool_decide_unpack (NoDup [4; 5])). vm_compute. exact I.
  - vm_compute. reflexivity.
  - split; vm_compute; discriminate.
  - intros b [->|[->|Hb%elem_of_nil]%elem_of_cons]%elem_of_cons; [| |done].
    + apply (sync_block_ok _ _ _ _ ones_work TPP_ALL_TO_ALL); [|reflexivity|apply NoDup_nil_2|apply NoDup_singleton|by right|lia].
      intros s n items s' outs r Hn [= <- <- <-]. unfold WORK_CALLED_PRODUCE. split_and!; [|lia..].
      constructor; [rewrite length_replicate; lia|constructor].
    + apply (sync_block_ok _ _ _ _ copy_work TPP_ALL_TO_ALL); [exact copy_work_ok|reflexivity|apply NoDup_singleton|apply NoDup_nil_2|by left|lia].
  - exists {[1 := {| g_room := 0; g_hist := H; g_pos := pos |}]}. intros a.
    destruct (decide (a = 1)) as [->|]; [by constructor|]. rewrite !lookup_singleton_ne by done. constructor.
  - split; [lia|]. intros a b [<- <-]%lookup_singleton_Some. vm_compute. discriminate.
  - intros b [->|[->|Hb%elem_of_nil]%elem_of_cons]%elem_of_cons; [| |done]; split.
    + intros i ?%elem_of_nil; done.
    + intros a ->%list_elem_of_singleton. eexists. apply lookup_singleton_eq.
    + intros i ->%list_elem_of_singleton. exists nap_buffer. split; [apply lookup_singleton_eq|].
      exists {| d_read_index := 0; d_abs_read_offset := 0 |}. reflexivity.
    + intros a ?%elem_of_nil; done.
  - intros b [->|[->|Hb%elem_of_nil]%elem_of_cons]%elem_of_cons; [| |done]; vm_compute; discriminate.
Qed.

Lemma sts_runs_witness : exists c ls g0 g, relay_run [false; false; false; false; true] = Ok (c, ls, true) /\
  ls = [next_block false; next_block false; next_block true; next_block true] /\
  rtc (serves [4; 5] relay_details) ({[1 := nap_buffer]}, g0) (l_heap c, g).
Proof.
  destruct (fg_rep _ _ _ _ _ _ relay_ok) as [g0 Hg0].
  destruct (sts_runs relay_blocks [4; 5] (fun _ s => s) (fun _ s => s) 4 4 {[1 := nap_buffer]} relay_details (fun _ => tt)
    [false; false; false; false; true] g0 relay_ok Hg0) as (c & ls & e & g & E & _ & Hs & _).
  assert (match relay_run [false; false; false; false; true] with
          | Ok (_, ls, e) => e = true /\ ls = [next_block false; next_block false; next_block true; next_block true]
          | Throw _ => False end) as H by (vm_compute; split; reflexivity).
  unfold relay_run in *. rewrite E in H. destruct H as [-> Hls]. exists c, ls, g0, g. split; [exact E|]. split; [exact Hls|exact Hs].
Defined.

Lemma sources_run_last_witness : exists c, relay_run [false; false] = Ok (c, [next_block false; next_block false], false) /\
  visit (relay_blocks 4) (made_progress_last_pass c) (l_detail c 4) (l_state c 4) (l_heap c) =
  run_source (relay_blocks 4) (l_detail c 4) (l_state c 4) (l_heap c).
Proof.
  assert (match relay_run [false; false] with
          | Ok (c, ls, e) => e = false /\ ls = [next_block false; next_block false] /\ l_detail c 4 = relay_details 4
          | Throw _ => False end) as H by (vm_compute; split; [|split]; reflexivity).
  assert (forall k, (k < 2)%nat -> match relay_run (take k [false; false]) with
          | Ok (c, _, _) => work_returns relay_blocks [4; 5] c = None
          | Throw _ => False end) as Hw.
  { intros [|[|k]] Hk; [vm_compute; reflexivity|vm_compute; reflexivity|lia]. }
  destruct (relay_run [false; false]) as [[[c ls] e]|x] eqn:E; [|contradiction]. destruct H as (-> & -> & Hd).
  exists c. split; [reflexivity|].
  destruct (sources_run_last relay_blocks [4; 5] (fun _ s => s) (fun _ s => s) 4 4 {[1 := nap_buffer]} relay_details (fun _ => tt)
    [false; false] c _ relay_ok ltac:(discriminate) E) as [Hbi Hv]. cbn in Hbi. rewrite Hbi in Hv. apply Hv.
  - cbn. rewrite Hd. reflexivity.
  - cbn. rewrite Hd. reflexivity.
  - discriminate.
  - intros (k & ck & r & Hk & Ek & Hr & Hpos). specialize (Hw k ltac:(cbn in Hk; lia)). unfold relay_run in Hw. rewrite Ek in Hw.
    rewrite Hw in Hr. discriminate Hr.
Defined.
