(* ===== verification/GrSchedulerSts.v ===== *)
(** * A thread for each partition: [runtime/gr_scheduler_sts.cc]

    The scheduler splits the flat flow graph into its connected components and
    gives each, topologically sorted, to a thread of its own that runs the single
    threaded scheduler of [GrSts].  The threads work on the same heap of buffers,
    but no two on the same buffer. *)

From S2P Require Import Prelude.
From stdpp Require Import functions gmap list.
From S2P Require Import GrFlowgraph GrGraph GrBuffer GrBlock GrBlockExecutor GrFootprint GrTpb GrSts.
#[local] Open Scope Z_scope.
#[local] Open Scope cint_scope.

(** ** The threads

    The function object of a thread has been created, is in [main_loop] with the
    variables of its own, or has returned. *)
Inductive sts_thread :=
| Created
| Looping (bi : nat) (nalive : Z) (made_progress_last_pass making_progress : bool)
| Returned.

(** The buffers, and the blocks with their details and states, are shared;
    [interrupted] is what [interruption_requested] answers in every thread. *)
Record sts_config (S : Type) := {
  sts_bufs : heap;
  sts_dets : Z -> gr_block_detail;
  sts_states : Z -> S;
  sts_threads : nat -> sts_thread;
  interrupted : bool
}.
Arguments sts_bufs {S}. Arguments sts_dets {S}. Arguments sts_states {S}. Arguments sts_threads {S}.
Arguments interrupted {S}. Arguments Build_sts_config {S}.

(** A thread takes a step: it starts its blocks, goes round the loop once, or
    leaves it.  [stop()] interrupts all threads. *)
Inductive sts_event := StsRun (p : nat) | StsStop.

Section Sts.
Context {S : Type} (blocks : Z -> gr_block S) (start stop : Z -> S -> S) (parts : list (list Z)).
Abbreviation config := (sts_config S).

Definition to_loop (c : config) (i : nat) (n : Z) (last making : bool) : loop S :=
  {| l_heap := sts_bufs c; l_detail := sts_dets c; l_state := sts_states c; bi := i; nalive := n;
     made_progress_last_pass := last; making_progress := making |}.

Definition from_loop (c : config) (p : nat) (l : loop S) (t : sts_thread) : config :=
  {| sts_bufs := l_heap l; sts_dets := l_detail l; sts_states := l_state l; sts_threads := <[p := t]> (sts_threads c);
     interrupted := interrupted c |}.

Definition looping (l : loop S) : sts_thread := Looping (bi l) (nalive l) (made_progress_last_pass l) (making_progress l).

(** What the thread of the blocks [bs] does next; [None] when it has returned, or
    has ended with an exception. *)
Definition sts_thread_step (p : nat) (bs : list Z) (c : config) : option config :=
  match sts_threads c p with
  | Created =>
      match enter bs start (sts_bufs c) (sts_dets c) (sts_states c) with
      | Ok l => Some (from_loop c p l (looping l))
      | Throw _ => None
      end
  | Looping i n last making =>
      let l := to_loop c i n last making in
      if (n =? 0) || interrupted c then Some (from_loop c p (leave bs stop l) Returned)
      else
        match loop_round blocks bs l with
        | Ok (l, _) => Some (from_loop c p l (looping l))
        | Throw _ => None
        end
  | Returned => None
  end.

Definition sts_step (e : sts_event) (c : config) : option config :=
  match e with
  | StsRun p => match parts !! p with Some bs => sts_thread_step p bs c | None => None end
  | StsStop => Some {| sts_bufs := sts_bufs c; sts_dets := sts_dets c; sts_states := sts_states c;
                       sts_threads := sts_threads c; interrupted := true |}
  end.

Definition ssteps : config -> list sts_event -> config -> Prop := lsteps (fun c e c' => sts_step e c = Some c').
End Sts.

(** The constructor. *)
Definition gr_scheduler_sts {S} (edges : list edge) (h : heap) (details : Z -> gr_block_detail) (ss : Z -> S) :
    res flow_error (list (list Z) * sts_config S) :=
  graphs ← partition edges ∅;
  Ok (graphs, {| sts_bufs := h; sts_dets := details; sts_states := ss; sts_threads := fun _ => Created; interrupted := false |}).

(** ** The threads are safe, and keep out of each other's way *)

Section Running.
Context {S : Type} (blocks : Z -> gr_block S) (start stop : Z -> S -> S) (parts : list (list Z)).
Context (wires : Z -> gr_block_detail) (size limit : Z).
Context (Hnodup : NoDup (mjoin parts)) (Hcount : Z.of_nat (length (mjoin parts)) < 2 ^ 32).
Context (Hsize : size <= limit <= INT_MAX / 2).
Context (Hblocks : forall b, b ∈ mjoin parts -> block_ok blocks wires size limit b).
Context (Hproduce : forall b, b ∈ mjoin parts -> 0 <= d_produce_or (wires b)).
Abbreviation config := (sts_config S).
Abbreviation serves := (serves (mjoin parts) wires).
Implicit Types (c : config).

Definition all_done c (bs : list Z) : Prop := forall b, b ∈ bs -> d_detail_done (sts_dets c b) = true.

(** What a thread's variables say. *)
Definition thread_ok c (bs : list Z) (t : sts_thread) : Prop :=
  match t with
  | Created => forall b, b ∈ bs -> sts_dets c b = wires b
  | Looping i n _ _ => n = Z.of_nat (length (alive bs (sts_dets c))) /\ (bs <> [] -> (i < length bs)%nat)
  | Returned => all_done c bs \/ interrupted c = true
  end.

Record sts_ok c : Prop := {
  so_sized : sized size (sts_bufs c);
  so_wired : forall b, b ∈ mjoin parts -> wired_in (sts_bufs c) (wires b);
  so_wires : forall b, b ∈ mjoin parts -> wires_of (sts_dets c b) = wires_of (wires b);
  so_produce : forall b, b ∈ mjoin parts -> 0 <= d_produce_or (sts_dets c b);
  so_thread : forall p bs, parts !! p = Some bs -> thread_ok c bs (sts_threads c p)
}.

Lemma alive_ext bs (ds ds' : Z -> gr_block_detail) : (forall b, b ∈ bs -> d_detail_done (ds b) = d_detail_done (ds' b)) ->
  alive bs ds = alive bs ds'.
Proof using Type.
  unfold alive. induction bs as [|b bs IH]; intros H; [done|]. rewrite !filter_cons, (H b) by (by left).
  rewrite IH by (intros x Hx; apply H; by right). done.
Qed.

(** The parts have no block in common. *)
Lemma part_in p bs b : parts !! p = Some bs -> b ∈ bs -> b ∈ mjoin parts.
Proof using Type. intros Hp Hb. apply list_elem_of_join. exists bs. split; [done|by eapply list_elem_of_lookup_2]. Qed.

Lemma part_nodup p bs : parts !! p = Some bs -> NoDup bs.
Proof using Hnodup.
  intros Hp. rewrite <- (take_drop_middle _ _ _ Hp), join_app in Hnodup. apply NoDup_app in Hnodup as (_ & _ & H).
  cbn in H. by apply NoDup_app in H as [H _].
Qed.

Lemma parts_disjoint p q bs bs' b : parts !! p = Some bs -> parts !! q = Some bs' -> b ∈ bs -> b ∈ bs' -> p = q.
Proof using Hnodup.
  clear Hcount Hblocks Hproduce. revert p q. induction parts as [|x l IH]; intros p q Hp Hq Hb Hb'; [done|].
  cbn in Hnodup. apply NoDup_app in Hnodup as (_ & Hd & Hn).
  assert (forall r rs, l !! r = Some rs -> b ∈ rs -> b ∈ mjoin l) as Hin.
  { intros r rs Hr Hbr. apply list_elem_of_join. exists rs. split; [exact Hbr|]. eapply list_elem_of_lookup_2, Hr. }
  destruct p as [|p], q as [|q]; cbn in Hp, Hq; [done| | |f_equal; by apply IH].
  - injection Hp as ->. destruct (Hd b Hb). eapply Hin; [exact Hq|done].
  - injection Hq as ->. destruct (Hd b Hb'). eapply Hin; [exact Hp|done].
Qed.

Lemma part_short p bs : parts !! p = Some bs -> Z.of_nat (length bs) < 2 ^ 32.
Proof using Hcount.
  intros Hp. rewrite <- (take_drop_middle _ _ _ Hp), join_app in Hcount. cbn in Hcount. rewrite !length_app in Hcount. lia.
Qed.

(** A loop over a part that has run, put back. *)
Lemma from_loop_ok c p bs (l : loop S) (t : sts_thread) : sts_ok c -> parts !! p = Some bs -> loop_ok bs wires size l ->
  (forall a, d_bufsize <$> l_heap l !! a = d_bufsize <$> sts_bufs c !! a) ->
  (forall b, b ∈ mjoin parts -> wired_in (l_heap l) (wires b)) ->
  (forall b, b ∉ bs -> l_detail l b = sts_dets c b) ->
  thread_ok (from_loop c p l t) bs t -> sts_ok (from_loop c p l t).
Proof using Hnodup.
  intros Hok Hp Hl Hsame Hwired Hother Ht.
  assert (forall b, b ∈ mjoin parts -> wires_of (l_detail l b) = wires_of (wires b) /\ 0 <= d_produce_or (l_detail l b)) as Hb.
  { intros b Hb. destruct (decide (b ∈ bs)) as [Hin|Hin]; [split; by apply Hl|].
    rewrite Hother by done. split; [by apply so_wires|by apply so_produce]. }
  split; cbn.
  - apply Hl.
  - done.
  - intros b Hin. by apply Hb.
  - intros b Hin. by apply Hb.
  - intros q bs' Hq. destruct (decide (q = p)) as [->|Hne].
    { rewrite Hp in Hq. injection Hq as <-. by rewrite fn_lookup_insert. }
    rewrite fn_lookup_insert_ne by done. pose proof (so_thread c Hok q bs' Hq) as Hold.
    assert (forall b, b ∈ bs' -> l_detail l b = sts_dets c b) as Hd.
    { intros b Hin. apply Hother. intros Hin'. apply Hne. symmetry. by eapply parts_disjoint. }
    destruct (sts_threads c q) as [|i n last making|]; cbn in *.
    + intros b Hin. rewrite Hd by done. by apply Hold.
    + rewrite (alive_ext bs' (l_detail l) (sts_dets c)); [done|]. intros b Hin. by rewrite Hd.
    + destruct Hold as [Hold|Hold]; [left|by right]. intros b Hin. cbn. rewrite Hd by done. by apply Hold.
Qed.

(** The loop of a part, taken out. *)
Lemma to_loop_ok c p bs i n last making : sts_ok c -> (exists g, heap_rep (sts_bufs c) g) -> parts !! p = Some bs ->
  sts_threads c p = Looping i n last making -> loop_ok bs wires size (to_loop c i n last making).
Proof using Type.
  intros Hok Hg Hp Ht. pose proof (so_thread c Hok p bs Hp) as Hth. rewrite Ht in Hth. destruct Hth as [Hn Hi].
  split; cbn; try done.
  - apply Hok.
  - intros b Hb. by apply Hok, (part_in p bs).
  - intros b Hb. by apply Hok, (part_in p bs).
  - intros b Hb. by apply Hok, (part_in p bs).
Qed.

(** What a thread that has not returned does: it goes on, and the streams of its
    blocks move on as their turns may move them. *)
Definition goes_on bs c g (r : option config) : Prop :=
  exists c' g', r = Some c' /\ sts_ok c' /\ heap_rep (sts_bufs c') g' /\ rtc (GrTpb.serves bs wires) (sts_bufs c, g) (sts_bufs c', g').

Lemma created_goes_on p bs c g : sts_ok c -> heap_rep (sts_bufs c) g -> parts !! p = Some bs -> sts_threads c p = Created ->
  goes_on bs c g (sts_thread_step blocks start stop p bs c).
Proof using Hnodup Hcount Hsize Hblocks Hproduce.
  intros Hok Hg Hp Ht. pose proof (so_thread c Hok p bs Hp) as Hd. rewrite Ht in Hd. cbn in Hd.
  pose proof (part_in p bs) as Hin.
  assert (flow_graph_ok blocks bs size limit (sts_bufs c) (sts_dets c)) as Hfg.
  { split.
    - by eapply part_nodup.
    - by eapply part_short.
    - done.
    - intros b Hb. destruct (Hblocks b (Hin b Hp Hb)) as [H1 H2 H3 H4 H5 H6 H7 H8]. split; rewrite ?Hd; done.
    - by exists g.
    - apply Hok.
    - intros b Hb. rewrite Hd by done. by apply Hok, Hin.
    - intros b Hb. by apply Hok, Hin. }
  destruct (enter_ok blocks bs size limit (sts_bufs c) (sts_dets c) Hfg start (sts_states c) g Hg)
    as (l & E & Hl & Hg' & Hq & Hs & Hother & _).
  unfold sts_thread_step. rewrite Ht, E. eexists _, g. split; [reflexivity|].
  assert (loop_ok bs wires size l) as Hl'.
  { destruct Hl as [H1 H2 H3 H4 H5 H6 H7]. split; try done; intros b Hb; rewrite <- (Hd b Hb); auto. }
  split_and!; [|done|].
  - eapply from_loop_ok; try done.
    + intros a. destruct (Hq a) as [b b' [Ebuf _ _ _ _]|]; [cbn; by rewrite Ebuf|done].
    + intros b Hb. eapply frame_wired_in; [exact Hq|by apply Hok].
    + cbn. destruct Hl as [_ _ _ _ _ Ha Hb]. done.
  - eapply serves_mono; [|exact Hs]. intros b Hb. by rewrite Hd.
Qed.

Lemma looping_goes_on p bs c g i n last making : sts_ok c -> heap_rep (sts_bufs c) g -> parts !! p = Some bs ->
  sts_threads c p = Looping i n last making -> goes_on bs c g (sts_thread_step blocks start stop p bs c).
Proof using Hnodup Hcount Hsize Hblocks.
  intros Hok Hg Hp Ht. pose proof (part_in p bs) as Hin.
  pose proof (to_loop_ok c p bs i n last making Hok ltac:(by exists g) Hp Ht) as Hl.
  unfold sts_thread_step. rewrite Ht. set (l := to_loop c i n last making) in *. cbv zeta.
  destruct (orb _ _) eqn:Estop.
  - eexists _, g. split; [reflexivity|]. split_and!; [|done|done]. eapply from_loop_ok; try done.
    + destruct Hl as [H1 H2 H3 H4 H5 H6 H7]. by split.
    + apply Hok.
    + apply orb_prop in Estop as [Hn%Z.eqb_eq|Hi]; [left|by right]. intros b Hb. cbn. apply (none_alive bs); [|done].
      apply length_zero_iff_nil. pose proof (loop_alive _ _ _ _ Hl) as Ha. cbn in Ha. lia.
  - apply orb_false_elim in Estop as [Hn%Z.eqb_neq _].
    assert (bs <> []) as Hne by by eapply (loop_nonempty _ _ _ l).
    destruct (loop_round_ok blocks bs wires size limit (part_nodup _ _ Hp) (part_short _ _ Hp) Hsize) with (c := l) (g := g)
      as (l' & lab & g' & d & E & Hl' & Hg' & Hown & Edet & Hsv); [by eauto|done|done|done|].
    pose proof (current_elem bs wires size l Hl Hne) as Hb. set (b := nth (bi l) bs 0) in *.
    rewrite E. eexists _, g'. split; [reflexivity|]. split_and!; [|done|].
    + eapply from_loop_ok; try done.
      * by eapply own_same_sizes.
      * intros b' Hb'. eapply frame_wired_in; [exact Hown|by apply Hok].
      * intros b' Hb'. rewrite Edet. by rewrite upd_ne by (by intros ->).
      * destruct Hl' as [_ _ _ _ _ Ha Hi]. done.
    + apply rtc_once. split_and!; [done|by eapply own_same_sizes|by exists b].
Qed.

Lemma thread_goes_on p bs c g : sts_ok c -> heap_rep (sts_bufs c) g -> parts !! p = Some bs -> sts_threads c p <> Returned ->
  goes_on bs c g (sts_step blocks start stop parts (StsRun p) c).
Proof using Hnodup Hcount Hsize Hblocks Hproduce.
  intros Hok Hg Hp Hr. cbn [sts_step]. rewrite Hp. destruct (sts_threads c p) eqn:Ht; [|by eapply looping_goes_on|done].
  by apply created_goes_on.
Qed.

Abbreviation sts_step := (sts_step blocks start stop parts).
Abbreviation ssteps := (ssteps blocks start stop parts).

Lemma sts_step_ok e c c' g : sts_ok c -> heap_rep (sts_bufs c) g -> sts_step e c = Some c' ->
  exists g', sts_ok c' /\ heap_rep (sts_bufs c') g' /\ rtc serves (sts_bufs c, g) (sts_bufs c', g').
Proof using Hnodup Hcount Hsize Hblocks Hproduce.
  intros Hok Hg Hs. destruct e as [p|].
  - pose proof Hs as Hs0. cbn [GrSchedulerSts.sts_step] in Hs. destruct (parts !! p) as [bs|] eqn:Hp; [|done].
    destruct (thread_goes_on p bs c g Hok Hg Hp) as (c1 & g1 & E & Hok1 & Hg1 & Hs1).
    { intros Er. unfold sts_thread_step in Hs. by rewrite Er in Hs. }
    rewrite Hs0 in E. injection E as <-. exists g1. split_and!; [done..|]. eapply serves_mono; [|exact Hs1].
    intros b Hb. split; [by eapply part_in|done].
  - injection Hs as <-. exists g. split_and!; [|done|done]. destruct Hok as [H1 H2 H3 H4 H5]. split; try done.
    intros p bs Hp. cbn. specialize (H5 p bs Hp). destruct (sts_threads c p); try done. by right.
Qed.

(** The state in which the threads are made. *)
Lemma sts_start_ok h ss : sized size h -> (forall b, b ∈ mjoin parts -> wired_in h (wires b)) ->
  sts_ok {| sts_bufs := h; sts_dets := wires; sts_states := ss; sts_threads := fun _ => Created; interrupted := false |}.
Proof using Hproduce. intros Hsz Hw. by split. Qed.

(** However the threads of the partitions are interleaved, and whenever they are
    interrupted: no call fails, the streams move on turn by turn, a thread that has
    not returned can go on, and it returns only when it is interrupted or all its
    blocks are done. *)
Lemma sts_threads_safe c0 es c g0 : sts_ok c0 -> heap_rep (sts_bufs c0) g0 -> ssteps c0 es c ->
  (exists g, heap_rep (sts_bufs c) g /\ rtc serves (sts_bufs c0, g0) (sts_bufs c, g)) /\
  forall p bs, parts !! p = Some bs ->
    match sts_threads c p with
    | Returned => all_done c bs \/ interrupted c = true
    | _ => is_Some (sts_step (StsRun p) c)
    end.
Proof using Hnodup Hcount Hsize Hblocks Hproduce.
  intros Hok Hg Hs.
  assert (sts_ok c /\ exists g, heap_rep (sts_bufs c) g /\ rtc serves (sts_bufs c0, g0) (sts_bufs c, g)) as [Hok' (g & Hg' & Hr)].
  { revert g0 Hok Hg. induction Hs as [c|c e c1 es c' Hstep Hs IH]; intros g0 Hok Hg; [split; [done|by exists g0]|].
    destruct (sts_step_ok e c c1 g0 Hok Hg Hstep) as (g1 & Hok1 & Hg1 & Hs1).
    destruct (IH g1 Hok1 Hg1) as [Hok' (g & Hg' & Hr)]. split; [done|]. exists g. split; [done|]. by etransitivity. }
  split; [by exists g|]. intros p bs Hp. pose proof (so_thread c Hok' p bs Hp) as Ht.
  destruct (sts_threads c p) eqn:E; [| |done].
  all: destruct (thread_goes_on p bs c g Hok' Hg' Hp) as (c1 & _ & -> & _); [by rewrite E|eauto].
Qed.
End Running.
