(* ===== verification/GrTopBlock.v ===== *)
(** * The top block: [runtime/gr_top_block_impl.cc], [gr_top_block.cc]

    Starting a flow graph flattens the hierarchy, validates and wires up the flat
    flow graph and gives it to the scheduler that the environment names, by default
    the one with a thread for each block; unlocking a running one stops it,
    merges the changed flow graph with the old one and starts it again.  What
    [start] returns from is ready to run: the theorems of the parts, put together. *)

From S2P Require Import Prelude.
From Stdlib Require Import SpecFloat.
From stdpp Require Import gmap strings.
From S2P Require Import GrFlowgraph GrGraph GrBuffer GrBlock GrBlockExecutor GrFootprint.
From S2P Require Import Float GrHierBlock GrFlatFlowgraph GrTpb GrSts GrSchedulerSts.
#[local] Open Scope Z_scope.
#[local] Open Scope cint_scope.

(** ** The scheduler factory: [make_scheduler] *)

Inductive scheduler_kind := TPB | STS.

(** What [GR_SCHEDULER] chooses: the first scheduler is the default, also for a
    value nobody knows. *)
Definition scheduler_named (name : option string) : scheduler_kind :=
  match name with
  | None => TPB
  | Some v => if bool_decide (v = "TPB"%string) then TPB else if bool_decide (v = "STS"%string) then STS else TPB
  end.

(** ** The top block *)

Inductive top_state := IDLE | RUNNING.

#[export] Instance top_state_eq_dec : EqDecision top_state.
Proof. solve_decision. Defined.

Inductive top_error :=
| flatten_failed (e : hier_error)
| not_valid (e : flow_error)
| setup_failed (e : flat_error)
| sort_failed (e : flow_error)
| clear_failed (e : buffer_error)
| already_running
| flow_graph_locked
| unpaired_unlock.

(** A scheduler: the blocks that have threads, or the partitions that have, and the
    state of the threads. *)
Inductive gr_scheduler (S Msg : Type) :=
| scheduler_tpb (bs : list Z) (c : config S Msg)
| scheduler_sts (parts : list (list Z)) (c : sts_config S).
Arguments scheduler_tpb {S Msg}. Arguments scheduler_sts {S Msg}.

(** [d_ffg] has the edges and the blocks of the flat flow graph; [factory] is the
    static variable of [make_scheduler], which all top blocks of a process share. *)
Record top_block (S Msg : Type) := {
  d_state : top_state;
  d_lock_count : Z;
  d_ffg : option (list edge * list Z);
  d_scheduler : option (gr_scheduler S Msg);
  factory : option scheduler_kind;
  d_world : world;
  d_states : Z -> S
}.
Arguments d_state {S Msg}. Arguments d_lock_count {S Msg}. Arguments d_ffg {S Msg}. Arguments d_scheduler {S Msg}.
Arguments factory {S Msg}. Arguments d_world {S Msg}. Arguments d_states {S Msg}. Arguments Build_top_block {S Msg}.

Definition rescue {E A} (f : E -> top_error) (r : res E A) : res top_error A :=
  match r with Ok a => Ok a | Throw e => Throw (f e) end.

Section TopBlock.
Context {S Msg : Type} (blocks : Z -> gr_block S) (relative_rate : Z -> spec_float).
Context (input_signature output_signature : Z -> io_signature) (is_block : Z -> bool).
Context (check_topology : Z -> Z -> Z -> bool).
Context (granularity : Z) (make : Z -> Z -> option (list Z)).
(** The depth of the hierarchy is bounded by the stack. *)
Context (stack : nat).
(** What [getenv] answers. *)
Context (GR_SCHEDULER : option string).
Abbreviation top_block := (top_block S Msg).

Definition with_state (t : top_block) (s : top_state) : top_block :=
  {| d_state := s; d_lock_count := d_lock_count t; d_ffg := d_ffg t; d_scheduler := d_scheduler t; factory := factory t;
     d_world := d_world t; d_states := d_states t |}.
Definition with_ffg (t : top_block) (edges : list edge) : top_block :=
  {| d_state := d_state t; d_lock_count := d_lock_count t; d_ffg := Some (edges, calc_used_blocks edges);
     d_scheduler := d_scheduler t; factory := factory t; d_world := d_world t; d_states := d_states t |}.
Definition with_lock_count (t : top_block) (n : Z) : top_block :=
  {| d_state := d_state t; d_lock_count := n; d_ffg := d_ffg t; d_scheduler := d_scheduler t; factory := factory t;
     d_world := d_world t; d_states := d_states t |}.

Definition details_of (w : world) (b : Z) : gr_block_detail :=
  default {| d_produce_or := 0; d_input := []; d_output := []; d_detail_done := false |}
    (details w !! b ≫= finish).

(** The threads' blocks: all blocks, sorted. *)
Definition thread_blocks (edges : list edge) : res top_error (list Z) :=
  r ← rescue sort_failed (topological_sort edges (calc_used_blocks edges) ∅);
  Ok r.2.

(** [gr_scheduler_tpb::make] and [gr_scheduler_sts::make]. *)
Definition make_tpb (edges : list edge) (w : world) (ss : Z -> S) : res top_error (gr_scheduler S Msg) :=
  bs ← thread_blocks edges;
  c ← rescue clear_failed (gr_scheduler_tpb bs (buffers w) (details_of w) ss);
  Ok (scheduler_tpb bs c).

Definition make_sts (edges : list edge) (w : world) (ss : Z -> S) : res top_error (gr_scheduler S Msg) :=
  '(parts, c) ← rescue sort_failed (gr_scheduler_sts edges (buffers w) (details_of w) ss);
  Ok (scheduler_sts parts c).

(** The kind is looked up once. *)
Definition chosen (t : top_block) : scheduler_kind := default (scheduler_named GR_SCHEDULER) (factory t).

Definition make_scheduler (kind : scheduler_kind) (edges : list edge) (w : world) (ss : Z -> S) :
    res top_error (gr_scheduler S Msg) :=
  match kind with TPB => make_tpb edges w ss | STS => make_sts edges w ss end.

Definition new_ffg (w : hiers) (me : hier_detail) : res top_error (list edge) :=
  rescue flatten_failed (flatten input_signature output_signature is_block stack w me).

Definition check_valid (edges : list edge) : res top_error () :=
  rescue not_valid (validate input_signature output_signature check_topology edges).2.

(** What remains once the flow graph is wired up, or was not.  What a setup that
    fails half way leaves behind is not kept. *)
Definition run_ffg (t : top_block) (edges : list edge) (r : res top_error world) : top_block * res top_error () :=
  match r with
  | Throw e => (t, Throw e)
  | Ok w =>
      let t := {| d_state := d_state t; d_lock_count := d_lock_count t; d_ffg := Some (edges, calc_used_blocks edges);
                  d_scheduler := d_scheduler t; factory := Some (chosen t); d_world := w; d_states := d_states t |} in
      match make_scheduler (chosen t) edges w (d_states t) with
      | Throw e => (t, Throw e)
      | Ok c => ({| d_state := RUNNING; d_lock_count := d_lock_count t; d_ffg := d_ffg t;
                    d_scheduler := Some c; factory := factory t; d_world := w; d_states := d_states t |}, Ok tt)
      end
  end.

Definition start (hs : hiers) (me : hier_detail) (t : top_block) : top_block * res top_error () :=
  match d_state t with
  | RUNNING => (t, Throw already_running)
  | IDLE =>
      if 0 <? d_lock_count t then (t, Throw flow_graph_locked)
      else
        match new_ffg hs me with
        | Throw e => (t, Throw e)
        | Ok edges => run_ffg (with_ffg t edges) edges (
            _ ← check_valid edges;
            rescue setup_failed
              (setup_connections output_signature is_block blocks relative_rate granularity make edges (d_world t)))
        end
  end.

(** [wait] returns when all threads have; [None] is to wait on.  The blocks and
    buffers are then as the threads left them. *)
Definition joined (bs : list Z) (c : config S Msg) : bool :=
  forallb (fun b => match threads c b with Exited => true | _ => false end) bs.

Definition joined_sts (parts : list (list Z)) (c : sts_config S) : bool :=
  forallb (fun p => match sts_threads c p with Returned => true | _ => false end) (seq 0 (length parts)).

Definition with_joined (t : top_block) (h : heap) (ss : Z -> S) : top_block :=
  {| d_state := IDLE; d_lock_count := d_lock_count t; d_ffg := d_ffg t; d_scheduler := d_scheduler t; factory := factory t;
     d_world := {| buffers := h; details := details (d_world t); fresh := fresh (d_world t) |}; d_states := ss |}.

Definition wait (t : top_block) : option top_block :=
  match d_scheduler t with
  | None => Some (with_state t IDLE)
  | Some (scheduler_tpb bs c) => if joined bs c then Some (with_joined t (bufs c) (states c)) else None
  | Some (scheduler_sts parts c) => if joined_sts parts c then Some (with_joined t (sts_bufs c) (sts_states c)) else None
  end.

Definition lock (t : top_block) : top_block := with_lock_count t (d_lock_count t + 1).

(** [stop], [wait] and the new flow graph.  The threads the scheduler interrupts
    return at their next interruption point. *)
Definition restart (hs : hiers) (me : hier_detail) (t : top_block) : option (top_block * res top_error ()) :=
  match wait t with
  | None => None
  | Some t => Some
      match new_ffg hs me with
      | Throw e => (t, Throw e)
      | Ok edges =>
          let '(old_edges, old_blocks) := default ([], []) (d_ffg t) in
          run_ffg t edges (
            _ ← check_valid edges;
            rescue setup_failed
              (merge_connections output_signature is_block blocks relative_rate granularity make edges
                 old_edges old_blocks (d_world t)))
      end
  end.

Definition unlock (hs : hiers) (me : hier_detail) (t : top_block) : option (top_block * res top_error ()) :=
  if d_lock_count t <=? 0 then Some (with_lock_count t 0, Throw unpaired_unlock)
  else
    let t := with_lock_count t (d_lock_count t - 1) in
    if (0 <? d_lock_count t) || bool_decide (d_state t = IDLE) then Some (t, Ok tt)
    else restart hs me t.
End TopBlock.

(** ** What [start] starts can run *)

(** [link()]: the block that writes a buffer, and the block that reads it through a
    reader. *)
Definition link_of_buffer (bs : list Z) (ds : Z -> gr_block_detail) (a : Z) : Z :=
  default 0 (head (base.filter (fun b => a ∈ d_output (ds b)) bs)).
Definition link_of_reader (bs : list Z) (ds : Z -> gr_block_detail) (i : Z * Z) : Z :=
  default 0 (head (base.filter (fun b => i ∈ d_input (ds b)) bs)).

Lemma head_filter (P : Z -> Prop) `{!forall b, Decision (P b)} (bs : list Z) b :
  b ∈ bs -> P b -> (forall b', b' ∈ bs -> P b' -> b' = b) -> default 0 (head (base.filter P bs)) = b.
Proof.
  intros Hb HP Hu. destruct (base.filter P bs) as [|x l] eqn:E.
  - assert (b ∈ base.filter P bs) as Hf by by apply list_elem_of_filter. rewrite E in Hf. by apply not_elem_of_nil in Hf.
  - assert (x ∈ base.filter P bs) as Hf by (rewrite E; constructor). apply list_elem_of_filter in Hf as [Hx Hin].
    cbn. by apply Hu.
Qed.

Section Started.
Context {S Msg : Type} (blocks : Z -> gr_block S) (relative_rate : Z -> spec_float).
Context (dispatch_msg : Z -> Msg -> S -> S).
Context (input_signature output_signature : Z -> io_signature) (is_block : Z -> bool).
Context (check_topology : Z -> Z -> Z -> bool).
Context (granularity : Z) (make : Z -> Z -> option (list Z)) (stack : nat) (GR_SCHEDULER : option string).
(** What a block's own [start()] and [stop()] do to it. *)
Context (start_block stop_block : Z -> S -> S).
Abbreviation top_block := (top_block S Msg).

(** The system maps the memory it is asked for. *)
Context (Hgran : 0 < granularity <= 2 ^ 30).
Context (Hmake : forall sz n, 0 < sz -> 0 < n < 2 ^ 31 ->
  exists mem, make sz (n * sz) = Some mem /\ Z.of_nat (length mem) = n).
(** Signatures as [gr_io_signature] makes them. *)
Context (Hsig : forall b inp, sig_ok (if inp : bool then input_signature b else output_signature b)).
(** The sizes: no block wants a buffer for more than [most] items. *)
Context (most size limit : Z) (Hmost : 2 * s_fixed_buffer_size <= most < 2 ^ 30) (Hsize : most + granularity <= size).
Context (Hlimit : size / 2 <= limit <= INT_MAX / 2).

(** What a block must be to run in the flat flow graph [edges]. *)
Record block_fits (edges : list edge) (b : Z) : Prop := {
  fits_size : forall p, 0 <= p -> 0 < item_size (output_signature b) p;
  fits_multiple : 1 <= output_multiple (blocks b) /\ 2 * output_multiple (blocks b) <= most;
  fits_history : 1 <= history (blocks b) /\ 2 * history (blocks b) <= downstream_nitems blocks relative_rate b <= most;
  fits_behaves : forall d, ninputs d = Z.of_nat (length (calc_used_ports edges b true)) ->
    noutputs d = Z.of_nat (length (calc_used_ports edges b false)) -> well_behaved (blocks b) d limit;
  fits_forecast : forall n k, length (forecast (blocks b) n k) = k;
  fits_fixed : fixed_rate (blocks b) = true -> output_multiple (blocks b) <= INT_MAX / 2 /\
    forall avail, 0 <= avail < size -> 0 <= fixed_rate_ninput_to_noutput (blocks b) avail <= INT_MAX / 2;
  fits_times : forall avail, 0 <= avail < size -> 0 <= times_rate (blocks b) avail <= limit
}.

Section Flat.
Context (edges : list edge) (w : world) (Hw : set_up size edges w).
Context (Hports : forall b inp, b ∈ calc_used_blocks edges ->
  calc_used_ports edges b inp = seqZ 0 (Z.of_nat (length (calc_used_ports edges b inp)))).
Context (Hfits : forall b, b ∈ calc_used_blocks edges -> block_fits edges b).

Lemma details_ready : exists g, heap_rep (buffers w) g /\ forall b, b ∈ calc_used_blocks edges ->
  exists d, details w !! b = Some d /\ finish d = Some (details_of w b) /\
    NoDup (d_input (details_of w b)) /\ NoDup (d_output (details_of w b)) /\
    wires_ok (details_of w b) g /\ (d_input (details_of w b) <> [] \/ d_output (details_of w b) <> []).
Proof using Hw Hports.
  destruct (set_up_blocks_ready edges size w Hw Hports) as (g & Hg & H). exists g. split; [done|].
  intros b Hb. destruct (H b Hb) as (d & fd & Hd & Hf & H1 & H2 & H3 & _ & H4). exists d.
  assert (details_of w b = fd) as ->; [|done]. unfold details_of. by rewrite Hd; cbn; rewrite Hf.
Qed.

(** The slots of a detail are what its inputs and outputs are. *)
Lemma finish_slots d fd : finish d = Some fd -> in_slots d = map Some (d_input fd) /\ out_slots d = map Some (d_output fd).
Proof using Type.
  unfold finish. intros H. apply bind_Some in H as (ins & Hi & H). apply bind_Some in H as (outs & Ho & [= <-]). cbn.
  assert (forall A (l : list (option A)) k, mapM id l = Some k -> l = map Some k) as Hm; [|by rewrite <- (Hm _ _ _ Hi), <- (Hm _ _ _ Ho)].
  intros A l. induction l as [|x l IH]; intros k Hk; [by injection Hk as <-|]. cbn in Hk.
  apply bind_Some in Hk as (y & Hy & Hk). apply bind_Some in Hk as (k' & Hk' & [= <-]). unfold id in Hy. subst x.
  cbn. f_equal. by apply IH.
Qed.

Lemma ready_ports b d fd : b ∈ calc_used_blocks edges -> details w !! b = Some d -> finish d = Some fd ->
  ninputs fd = Z.of_nat (length (calc_used_ports edges b true)) /\
  noutputs fd = Z.of_nat (length (calc_used_ports edges b false)).
Proof using Hw.
  intros Hb Hd [Hi Ho]%finish_slots. destruct (slots _ _ _ Hw b Hb) as (d' & Hd' & Hli & Hlo).
  assert (d' = d) as -> by congruence. unfold ninputs, noutputs. rewrite <- Hli, <- Hlo, Hi, Ho, !length_map. done.
Qed.

Lemma ready_wired g b : heap_rep (buffers w) g -> wires_ok (details_of w b) g -> wired_in (buffers w) (details_of w b).
Proof using Type.
  intros Hg [Hi Ho]. split.
  - intros i Hin. destruct (Hi i Hin) as (j & x & p & Hx & Hp & _). destruct (heap_rep_buffer _ _ _ _ Hg Hx) as (buf & Hbuf & Hr).
    exists buf. split; [done|]. destruct (rep_pos_reader _ _ _ Hr _ _ Hp) as (rd & Hrd & _). eauto.
  - intros a Ha. destruct (Ho a Ha) as [x Hx]. destruct (heap_rep_buffer _ _ _ _ Hg Hx) as (buf & Hbuf & _). eauto.
Qed.

(** Each output has one writer and each reader one block. *)
Lemma links_ok bs : (forall b, b ∈ bs -> b ∈ calc_used_blocks edges) ->
  (forall b a, b ∈ bs -> a ∈ d_output (details_of w b) -> link_of_buffer bs (details_of w) a = b) /\
  (forall b i, b ∈ bs -> i ∈ d_input (details_of w b) -> link_of_reader bs (details_of w) i = b).
Proof using Hw Hports.
  intros Hbs. destruct details_ready as (g & _ & Hr). split.
  - intros b a Hb Ha. apply head_filter; [done..|]. intros b' Hb' Ha'.
    destruct (Hr b (Hbs b Hb)) as (d & Hd & [_ Ho]%finish_slots & _), (Hr b' (Hbs b' Hb')) as (d' & Hd' & [_ Ho']%finish_slots & _).
    apply list_elem_of_lookup in Ha as [i Hi], Ha' as [j Hj].
    assert ({| block := b'; port := Z.of_nat j |} = {| block := b; port := Z.of_nat i |}) as E; [|by injection E].
    eapply (outputs_distinct _ _ _ Hw _ _ a); [by apply Hbs|by apply Hbs|exists d'|exists d];
      (split; [done|]); cbn; rewrite Nat2Z.id; (split; [lia|]).
    + by rewrite Ho', list_lookup_fmap, Hj.
    + by rewrite Ho, list_lookup_fmap, Hi.
  - intros b [a r] Hb Ha. apply head_filter; [done..|]. intros b' Hb' Ha'.
    destruct (Hr b (Hbs b Hb)) as (d & Hd & [Ho _]%finish_slots & _), (Hr b' (Hbs b' Hb')) as (d' & Hd' & [Ho' _]%finish_slots & _).
    apply list_elem_of_lookup in Ha as [i Hi], Ha' as [j Hj].
    assert ({| block := b'; port := Z.of_nat j |} = {| block := b; port := Z.of_nat i |}) as E; [|by injection E].
    eapply (inputs_distinct _ _ _ Hw _ _ a a r); [by apply Hbs|by apply Hbs|exists d'|exists d];
      (split; [done|]); cbn; rewrite Nat2Z.id; (split; [lia|]).
    + by rewrite Ho', list_lookup_fmap, Hj.
    + by rewrite Ho, list_lookup_fmap, Hi.
Qed.

Lemma blocks_run_ok b : b ∈ calc_used_blocks edges -> block_ok blocks (details_of w) size limit b.
Proof using Hw Hports Hfits.
  intros Hb. destruct details_ready as (g & _ & Hr). destruct (Hr b Hb) as (d & Hd & Hf & H1 & H2 & _ & H4).
  destruct (ready_ports b d _ Hb Hd Hf) as [Hi Ho]. destruct (Hfits b Hb). split; try done; [lia|]. by auto.
Qed.
End Flat.

Abbreviation start := (start (Msg := Msg) blocks relative_rate input_signature output_signature is_block check_topology
  granularity make stack GR_SCHEDULER).

Lemma validated_ports edges : edges_ok input_signature output_signature edges ->
  (validate input_signature output_signature check_topology edges).2 = Ok tt ->
  forall b inp, b ∈ calc_used_blocks edges ->
    calc_used_ports edges b inp = seqZ 0 (Z.of_nat (length (calc_used_ports edges b inp))).
Proof using Hsig.
  intros He Hv b inp Hb. pose proof (proj1 (proj2 (validate_sound _ _ check_topology Hsig edges He)) Hv) as Hv'. clear Hv. rename Hv' into Hv.
  apply calc_used_blocks_in in Hb as (e & Hin & Hbe). destruct (Hv e b Hin Hbe) as [Hp _]. apply (Hp inp).
Qed.

(** All that can be observed of the threads of a scheduler that was started: with a
    thread for each block, *)
Definition runs (bs : list Z) (c : config S Msg) (ds : Z -> gr_block_detail) : Prop :=
  forall es c', tsteps blocks dispatch_msg bs (link_of_buffer bs ds) (link_of_reader bs ds) c es c' ->
    (exists g0 g, heap_rep (bufs c) g0 /\ heap_rep (bufs c') g /\ rtc (serves bs ds) (bufs c, g0) (bufs c', g)) /\
    forall b, b ∈ bs ->
      match threads c' b with
      | Sleep_in | Sleep_out | Exited => True
      | _ => is_Some (tpb_step blocks dispatch_msg bs (link_of_buffer bs ds) (link_of_reader bs ds) (Run b) c')
      end /\
      forall inp, waits inp (threads c' b) = true ->
        exists es1 es2 c1 d s h, es = es1 ++ Run b :: es2 /\
          tsteps blocks dispatch_msg bs (link_of_buffer bs ds) (link_of_reader bs ds) c es1 c1 /\
          run_one_iteration (blocks b) (dets c1 b) (states c1 b) (bufs c1) = Ok (d, s, h, blocked inp) /\
          (sees inp (bufs c') (ds b) = sees inp (bufs c1) (ds b) \/ due inp c' b).

(** and with one for each partition. *)
Definition runs_sts (parts : list (list Z)) (c : sts_config S) (ds : Z -> gr_block_detail) : Prop :=
  forall es c', ssteps blocks start_block stop_block parts c es c' ->
    (exists g0 g, heap_rep (sts_bufs c) g0 /\ heap_rep (sts_bufs c') g /\
      rtc (serves (mjoin parts) ds) (sts_bufs c, g0) (sts_bufs c', g)) /\
    forall p bs, parts !! p = Some bs ->
      match sts_threads c' p with
      | Returned => all_done c' bs \/ interrupted c' = true
      | _ => is_Some (sts_step blocks start_block stop_block parts (StsRun p) c')
      end.

Lemma set_up_runs edges w ss bs : set_up size edges w ->
  (forall b inp, b ∈ calc_used_blocks edges ->
    calc_used_ports edges b inp = seqZ 0 (Z.of_nat (length (calc_used_ports edges b inp)))) ->
  (forall b, b ∈ calc_used_blocks edges -> block_fits edges b) ->
  (forall b, b ∈ bs -> b ∈ calc_used_blocks edges) ->
  exists c : config S Msg, gr_scheduler_tpb bs (buffers w) (details_of w) ss = Ok c /\ runs bs c (details_of w).
Proof using Hlimit.
  intros Hw Hp Hf Hbs. destruct (details_ready edges w Hw Hp) as (g & Hg & Hr).
  destruct (links_ok edges w Hw Hp bs Hbs) as [Hlb Hlr].
  destruct (gr_scheduler_tpb_ok (S := S) (Msg := Msg) bs (details_of w) size (buffers w) ss) as (c & E & Hc).
  - by exists g.
  - apply Hw.
  - intros b Hb. destruct (Hr b (Hbs b Hb)) as (d & _ & _ & _ & _ & Hwo & _). by eapply ready_wired.
  - intros b Hb. destruct (Hr b (Hbs b Hb)) as (d & _ & _ & H1 & H2 & _). done.
  - exists c. split; [done|]. intros es c' Hs.
    assert (forall b, b ∈ bs -> block_ok blocks (details_of w) size limit b) as Hok.
    { intros b Hb. apply (blocks_run_ok edges w Hw Hp Hf b), Hbs, Hb. }
    split.
    { pose proof (run_rep _ _ _ _ (proj1 Hc)) as [g0 Hg0]. exists g0.
      destruct (tpb_streams blocks dispatch_msg bs _ _ (details_of w) size limit Hlimit Hok c es c' g0 Hc Hs Hg0) as (g1 & H1 & H2).
      by exists g1. }
    intros b Hb. split.
    + by eapply (tpb_goes_on blocks dispatch_msg bs _ _ (details_of w) size limit Hlimit Hok c es c' b).
    + intros inp Hwt. destruct (waits_or_due blocks dispatch_msg bs _ _ (details_of w) size limit Hlb Hlr Hlimit Hok c es c' b inp Hc Hs Hb Hwt)
        as (es1 & es2 & c1 & d & s & h & H). by exists es1, es2, c1, d, s, h.
Qed.

Lemma set_up_runs_sts edges w ss parts : set_up size edges w -> size <= limit ->
  (forall b inp, b ∈ calc_used_blocks edges ->
    calc_used_ports edges b inp = seqZ 0 (Z.of_nat (length (calc_used_ports edges b inp)))) ->
  (forall b, b ∈ calc_used_blocks edges -> block_fits edges b) ->
  mjoin parts ≡ₚ calc_used_blocks edges -> Z.of_nat (length (calc_used_blocks edges)) < 2 ^ 32 ->
  runs_sts parts {| sts_bufs := buffers w; sts_dets := details_of w; sts_states := ss;
                    sts_threads := fun _ => Created; interrupted := false |} (details_of w).
Proof using Hlimit.
  intros Hw Hsl Hp Hf Hperm Hcount es c' Hs. destruct (details_ready edges w Hw Hp) as (g & Hg & Hr).
  assert (forall b, b ∈ mjoin parts -> b ∈ calc_used_blocks edges) as Hin by (intros b; by rewrite Hperm).
  assert (NoDup (mjoin parts)) as Hnd by (rewrite Hperm; apply unique_vector_NoDup).
  assert (forall b, b ∈ mjoin parts -> 0 <= d_produce_or (details_of w b)) as Hpo.
  { intros b Hb. destruct (Hr b (Hin b Hb)) as (d & _ & Hfin & _). unfold finish in Hfin.
    apply bind_Some in Hfin as (ins & _ & Hfin). apply bind_Some in Hfin as (outs & _ & [= <-]). done. }
  assert (forall b, b ∈ mjoin parts -> wired_in (buffers w) (details_of w b)) as Hwi.
  { intros b Hb. destruct (Hr b (Hin b Hb)) as (d & _ & _ & _ & _ & Hwo & _). by eapply ready_wired. }
  edestruct (sts_threads_safe blocks start_block stop_block parts (details_of w) size limit) with (es := es) (c := c') (g0 := g)
    as [(g1 & Hg1 & Hs1) H]; [done|by rewrite Hperm|lia| |done|by apply sts_start_ok; [|apply Hw|]|exact Hg|exact Hs|].
  { intros b Hb. apply (blocks_run_ok edges w Hw Hp Hf b), Hin, Hb. }
  split; [|exact H]. exists g, g1. done.
Qed.

(** C2. Starting a top block that is idle and not locked.  Its only exceptions are
    that the hierarchy cannot be flattened, that the flat flow graph is not
    valid, or that it has a loop.  Otherwise the flow graph runs under the scheduler
    that the process chose when it first started a flow graph, or chooses now by
    [GR_SCHEDULER]: the one with a thread for each block, unless [STS] is named.
    There every block gets a thread, and under every interleaving of the threads the
    iterations are safe, the streams of the buffers move on turn by turn, and no
    thread sleeps through a change of what it waits for.  With [STS], every
    connected component of the graph gets a thread that goes round its blocks in
    topological order; under every interleaving no call fails, the streams move on
    turn by turn, and a thread returns only when all its blocks are done or it is
    interrupted. *)
Theorem top_block_start_runs hs me (t : top_block) : d_state t = IDLE -> d_lock_count t <= 0 ->
  (forall edges, flatten input_signature output_signature is_block stack hs me = Ok edges ->
    (forall b, b ∈ calc_used_blocks edges -> block_fits edges b) /\
    heap_ok output_signature blocks relative_rate edges size ∅ (d_world t) /\
    (chosen GR_SCHEDULER t = STS -> size <= limit /\ Z.of_nat (length (calc_used_blocks edges)) < 2 ^ 32)) ->
  match start hs me t with
  | (t', Ok _) => d_state t' = RUNNING /\ factory t' = Some (chosen GR_SCHEDULER t) /\ exists edges,
      flatten input_signature output_signature is_block stack hs me = Ok edges /\
      match chosen GR_SCHEDULER t with
      | TPB => exists bs c, bs ≡ₚ calc_used_blocks edges /\
          d_scheduler t' = Some (scheduler_tpb bs c) /\ runs bs c (details_of (d_world t'))
      | STS => exists parts c, partitioned edges (calc_used_blocks edges) parts /\
          d_scheduler t' = Some (scheduler_sts parts c) /\ runs_sts parts c (details_of (d_world t'))
      end
  | (_, Throw e) =>
      match e with
      | flatten_failed _ | not_valid _ => True
      | sort_failed e => e = has_loops
      | _ => False
      end
  end.
Proof using Hlimit Hgran Hmake Hsig Hmost Hsize.
  intros Hs Hl Hall. unfold GrTopBlock.start. rewrite Hs, (proj2 (Z.ltb_ge _ _)) by done. unfold new_ffg.
  destruct (flatten _ _ _ _ _ _) as [edges|e] eqn:Ef; [|done]. cbn [rescue].
  destruct (Hall edges eq_refl) as (Hfits & Hheap & Hsts). destruct (flatten_sound _ _ _ _ _ _ _ Ef) as (_ & Hedges & Hleaf).
  unfold check_valid. destruct (validate _ _ _ edges).2 as [[]|e] eqn:Ev; [|done]. cbn [rescue]. rewrite ok_bind.
  pose proof (validated_ports edges Hedges Ev) as Hports.
  assert (forall b, b ∈ calc_used_blocks edges -> is_block b = true) as Hblk.
  { intros b (e & He & Hb)%calc_used_blocks_in. destruct (Hleaf e He) as [H1 H2]. by destruct Hb as [-> | ->]. }
  destruct (setup_connections_ok input_signature output_signature is_block blocks relative_rate granularity make edges
    Hedges Hports Hblk) with (most := most) (size := size) (w := d_world t) as (w & -> & Hw); try done.
  { intros b p Hb Hp. by apply Hfits. }
  { intros b Hb. apply (Hfits b Hb). }
  { intros b Hb. apply (Hfits b Hb). }
  cbn [rescue]. unfold run_ffg, make_scheduler. change (chosen GR_SCHEDULER (with_ffg t edges)) with (chosen GR_SCHEDULER t).
  destruct (chosen GR_SCHEDULER t).
  - unfold make_tpb, thread_blocks.
    pose proof (topological_sort_sound edges (calc_used_blocks edges) ∅ (unique_vector_NoDup _)) as Hsort.
    assert (closed (feeds edges) (calc_used_blocks edges)) as Hcl.
    { intros a b _ (e & He & Ha & Hb). apply calc_used_blocks_in. exists e. split; [done|]. by right. }
    specialize (Hsort Hcl). destruct (topological_sort _ _ _) as [[cs bs]|e]; [|by destruct Hsort as [-> _]].
    destruct Hsort as [Hperm _]. cbn [rescue]. rewrite ok_bind. cbn [snd]. rewrite ok_bind.
    destruct (set_up_runs edges w (d_states t) bs Hw Hports Hfits) as (c & E & Hruns).
    { intros b Hb. by rewrite <- Hperm. }
    cbn [with_ffg d_states]. rewrite E. cbn [rescue]. rewrite ok_bind. cbn. split; [done|]. split; [done|].
    exists edges. split; [done|]. by exists bs, c.
  - destruct (Hsts eq_refl) as [Hsl Hcount]. unfold make_sts, gr_scheduler_sts.
    pose proof (partition_loop_sound edges (length (calc_used_blocks edges)) (calc_used_blocks edges) ∅
      (unique_vector_NoDup _) (used_closed edges) ltac:(lia)) as Hpart.
    unfold partition. destruct (partition_loop _ _ _ _) as [parts|e]; [|by destruct Hpart as [-> _]].
    rewrite ok_bind. cbn [rescue]. rewrite ok_bind. cbn. split; [done|]. split; [done|]. exists edges. split; [done|].
    eexists parts, _. split; [done|]. split; [reflexivity|]. apply (set_up_runs_sts edges); try done. apply Hpart.
Qed.
End Started.

(** ** Locking *)

(** [unlock] without a [lock] is an error that mends the count; nested locks only
    count; and the last [unlock] of a running flow graph is the restart. *)
Theorem unlock_spec {S Msg} blocks rate insig outsig is_block topo gran make stack env hs me (t : top_block S Msg) :
  unlock blocks rate insig outsig is_block topo gran make stack env hs me (lock t) =
    (if d_lock_count t <? 0 then Some (with_lock_count (lock t) 0, Throw unpaired_unlock)
     else if (0 <? d_lock_count t) || bool_decide (d_state t = IDLE) then Some (t, Ok tt)
     else restart blocks rate insig outsig is_block topo gran make stack env hs me t).
Proof.
  unfold unlock, lock. cbn [d_lock_count with_lock_count d_state].
  assert (with_lock_count (with_lock_count t (d_lock_count t + 1)) (d_lock_count t + 1 - 1) = t) as ->.
  { destruct t. unfold with_lock_count. cbn. f_equal. lia. }
  replace (d_lock_count t + 1 <=? 0) with (d_lock_count t <? 0) by lia.
  replace (d_lock_count t + 1 - 1) with (d_lock_count t) by lia. done.
Qed.

(** ** An example: the hierarchy of [GrHierBlock] with large items *)

Definition demo_new (b : Z) : hier_detail :=
  match gr_hier_block2_detail demo_in demo_out b with
  | Ok d => d
  | Throw _ => {| d_parent_detail := None; d_edges := []; d_blocks := []; d_inputs := []; d_outputs := [] |}
  end.
Definition demo_hiers : hiers :=
  foldl (hier_serve demo_in demo_out) (<[10 := demo_new 10]> (<[20 := demo_new 20]> ∅)) ex_requests.
Definition demo_top : hier_detail := default (demo_new 10) (demo_hiers !! 10).
Definition demo_block : top_block () () :=
  {| d_state := IDLE; d_lock_count := 0; d_ffg := None; d_scheduler := None; factory := None;
     d_world := demo_world; d_states := fun _ => tt |}.
Definition demo_start (env : option string) : top_block () () * res top_error () :=
  start (fun _ => copy_block) demo_rate demo_in demo_out ex_leaf (fun _ _ _ => true) 4096 demo_make 3 env
    demo_hiers demo_top demo_block.

Lemma copy_block_behaves d limit : limit < 2 ^ 30 -> well_behaved copy_block d limit.
Proof.
  intros Hl s n ninput items s' outs calls r Hn Hdv Hreq Hgw. revert Hl. norm_pow. intros Hl.
  eapply (sync_work_behaves copy_work copy_work_ok); [| exact Hgw | exact Hreq | |]; try lia.
  - rewrite sync_need by (norm_pow; lia). lia.
  - intros j Hj. rewrite sync_need by (norm_pow; lia). lia.
Qed.

Lemma demo_fits edges b : block_fits (fun _ => copy_block) demo_rate demo_out 65536 69632 100000 edges b.
Proof.
  split.
  - apply demo_item_size.
  - exact (proj1 demo_parameters).
  - exact (proj2 demo_parameters b).
  - intros d _ _. apply copy_block_behaves. vm_compute. reflexivity.
  - intros n k. apply length_replicate.
  - intros _. split; [vm_compute; discriminate|]. intros avail Ha. change (INT_MAX / 2) with 1073741823.
    unfold copy_block, fixed_rate_ninput_to_noutput, gr_sync_block, sync_ninput_to_noutput. change (s32 1) with 1. lia.
  - intros avail Ha. cbn. lia.
Qed.

Lemma demo_few edges : flatten demo_in demo_out ex_leaf 3 demo_hiers demo_top = Ok edges ->
  Z.of_nat (length (calc_used_blocks edges)) < 2 ^ 32.
Proof.
  assert (match flatten demo_in demo_out ex_leaf 3 demo_hiers demo_top with
          | Ok edges => (Z.of_nat (length (calc_used_blocks edges)) <? 2 ^ 32) = true
          | Throw _ => True end) as H by (vm_compute; reflexivity).
  intros E. rewrite E in H. by apply Z.ltb_lt.
Qed.

Lemma top_block_start_runs_witness :
  (exists bs c, d_scheduler (demo_start None).1 = Some (scheduler_tpb bs c) /\
    runs (fun _ => copy_block) (fun _ (_ : ()) s => s) bs c (details_of (d_world (demo_start None).1))) /\
  (exists parts c, d_scheduler (demo_start (Some "STS"%string)).1 = Some (scheduler_sts parts c) /\
    runs_sts (fun _ => copy_block) (fun _ s => s) (fun _ s => s) parts c (details_of (d_world (demo_start (Some "STS"%string)).1))).
Proof.
  pose proof (fun env => top_block_start_runs (fun _ => copy_block) demo_rate (fun _ (_ : ()) s => s) demo_in demo_out ex_leaf
    (fun _ _ _ => true) 4096 demo_make 3 env (fun _ s => s) (fun _ s => s) ltac:(split; [reflexivity|vm_compute; discriminate])
    demo_makes
    ltac:(intros b inp; unfold sig_ok, demo_in, demo_out; destruct inp; cbn; repeat case_if; split; (lia || (right; lia)))
    65536 69632 100000 ltac:(split; [vm_compute; discriminate|vm_compute; reflexivity]) ltac:(lia)
    ltac:(split; vm_compute; discriminate) demo_hiers demo_top demo_block eq_refl ltac:(cbn; lia)
    (fun edges Hf => conj (fun b _ => demo_fits edges b) (conj (demo_heap_ok edges)
      (fun _ => conj (ltac:(lia) : 69632 <= 100000) (demo_few edges Hf))))) as H.
  split.
  - assert ((demo_start None).2 = Ok tt) as E by (vm_compute; reflexivity). specialize (H None). fold (demo_start None) in H.
    destruct (demo_start None) as [t' r]. cbn in E. subst r. destruct H as (_ & _ & edges & _ & bs & c & _ & Hs & Hr).
    exists bs, c. split; [exact Hs|exact Hr].
  - assert ((demo_start (Some "STS"%string)).2 = Ok tt) as E by (vm_compute; reflexivity). specialize (H (Some "STS"%string)).
    fold (demo_start (Some "STS"%string)) in H. destruct (demo_start (Some "STS"%string)) as [t' r]. cbn in E. subst r.
    destruct H as (_ & _ & edges & _ & parts & c & _ & Hs & Hr).
    exists parts, c. split; [exact Hs|exact Hr].
Defined.
