(* ===== verification/GrMsgQueue.v ===== *)
(** * The message queue: [runtime/gr_msg_queue.cc], [gr_msg_queue.h]

    A linked queue of messages, bounded if it has a limit, with producers that
    wait while it is full and consumers that wait while it is empty.  It
    implements a bounded fifo ([abs_step]) and loses no wakeup; a message put in
    twice, which the code means to reject, breaks it. *)

From S2P Require Import Prelude.
From stdpp Require Import gmap.
#[local] Open Scope Z_scope.
#[local] Open Scope cint_scope.

(** ** Data *)

(** Messages are addresses; [next] holds their [d_next] fields, absent for
    null. *)
Record gr_msg_queue := {
  d_head : option Z;
  d_tail : option Z;
  d_count : Z;
  d_limit : Z;
  next : gmap Z Z
}.

Definition gr_make_msg_queue (limit : Z) : gr_msg_queue :=
  {| d_head := None; d_tail := None; d_count := 0; d_limit := limit; next := ∅ |}.

Definition empty_p (q : gr_msg_queue) : bool := d_count q =? 0.
Definition full_p (q : gr_msg_queue) : bool := negb (d_limit q =? 0) && (d_limit q <=? d_count q).

(** ** Operations, the mutex held *)

(** [insert_tail] past its loop. *)
Definition enqueue (msg : Z) (q : gr_msg_queue) : gr_msg_queue :=
  match d_tail q with
  | None => {| d_head := Some msg; d_tail := Some msg; d_count := u32 (d_count q + 1);
               d_limit := d_limit q; next := delete msg (next q) |}
  | Some tail => {| d_head := d_head q; d_tail := Some msg; d_count := u32 (d_count q + 1);
                    d_limit := d_limit q; next := delete msg (<[tail := msg]> (next q)) |}
  end.

Definition delete_head_nowait (q : gr_msg_queue) : gr_msg_queue * option Z :=
  match d_head q with
  | None => (q, None)
  | Some m =>
      let head := next q !! m in
      ({| d_head := head; d_tail := if head is None then None else d_tail q;
          d_count := u32 (d_count q - 1); d_limit := d_limit q; next := delete m (next q) |}, Some m)
  end.

(** [flush], at most [fuel] messages; [None] is out of fuel. *)
Fixpoint flush (fuel : nat) (q : gr_msg_queue) : option gr_msg_queue :=
  match fuel with
  | O => None
  | S fuel => match delete_head_nowait q with (q, None) => Some q | (q, Some _) => flush fuel q end
  end.

(** ** Threads

    Producers waiting on [d_not_full] hold the message they will insert;
    [woken] threads were notified and have yet to test their condition again. *)
Record queue_state := {
  q : gr_msg_queue;
  waiting_producers : list Z;
  woken_producers : list Z;
  waiting_consumers : nat;
  woken_consumers : nat
}.

Definition with_queue (s : queue_state) (q' : gr_msg_queue) : queue_state :=
  {| q := q'; waiting_producers := waiting_producers s; woken_producers := woken_producers s;
     waiting_consumers := waiting_consumers s; woken_consumers := woken_consumers s |}.

(** [d_not_empty.notify_one ()]. *)
Definition notify_not_empty (s : queue_state) : queue_state :=
  match waiting_consumers s with
  | O => s
  | S n => {| q := q s; waiting_producers := waiting_producers s; woken_producers := woken_producers s;
              waiting_consumers := n; woken_consumers := S (woken_consumers s) |}
  end.

(** [d_not_full.notify_one ()] wakes any one of the waiting producers. *)
Inductive notify_not_full : queue_state -> queue_state -> Prop :=
| notify_nobody s : waiting_producers s = [] -> notify_not_full s s
| notify_somebody s l1 m l2 : waiting_producers s = l1 ++ m :: l2 ->
    notify_not_full s {| q := q s; waiting_producers := l1 ++ l2;
      woken_producers := m :: woken_producers s; waiting_consumers := waiting_consumers s;
      woken_consumers := woken_consumers s |}.

(** The test of the loop of [insert_tail], by a thread with message [msg]. *)
Definition try_insert (msg : Z) (s : queue_state) : queue_state * bool :=
  if full_p (q s) then
    ({| q := q s; waiting_producers := waiting_producers s ++ [msg];
        woken_producers := woken_producers s; waiting_consumers := waiting_consumers s;
        woken_consumers := woken_consumers s |}, false)
  else (notify_not_empty (with_queue s (enqueue msg (q s))), true).

(** The test before the lock: [msg->d_next] must be null. *)
Definition already_in_queue (msg : Z) (s : queue_state) : bool :=
  if next (q s) !! msg is Some _ then true else false.

Definition consumer_waits (s : queue_state) : queue_state :=
  {| q := q s; waiting_producers := waiting_producers s; woken_producers := woken_producers s;
     waiting_consumers := S (waiting_consumers s); woken_consumers := woken_consumers s |}.

Inductive event := Insert (m : Z) | Delete (m : Z) | Silent.

(** What a thread with message [m] does when it may run: the event says if it
    got through.  [busy] are the messages other producers hold. *)
Definition insert_event (m : Z) (done : bool) : event := if done then Insert m else Silent.

(** [may s m]: the callers may insert [m]. *)
Inductive step (may : queue_state -> Z -> Prop) : queue_state -> event -> queue_state -> Prop :=
| step_insert s m : may s m -> already_in_queue m s = false ->
    step may s (insert_event m (try_insert m s).2) (try_insert m s).1
| step_rejected s m : already_in_queue m s = true -> step may s Silent s
| step_insert_woken s l1 m l2 s1 : woken_producers s = l1 ++ m :: l2 ->
    s1 = {| q := q s; waiting_producers := waiting_producers s; woken_producers := l1 ++ l2;
            waiting_consumers := waiting_consumers s; woken_consumers := woken_consumers s |} ->
    step may s (insert_event m (try_insert m s1).2) (try_insert m s1).1
| step_delete s m q' s' : delete_head_nowait (q s) = (q', Some m) ->
    notify_not_full (with_queue s q') s' -> step may s (Delete m) s'
| step_delete_waits s q' : delete_head_nowait (q s) = (q', None) -> step may s Silent (consumer_waits s)
| step_nothing_there s q' : delete_head_nowait (q s) = (q', None) -> step may s Silent (with_queue s q')
| step_delete_woken s n m q' s1 s' : woken_consumers s = S n ->
    s1 = {| q := q s; waiting_producers := waiting_producers s; woken_producers := woken_producers s;
            waiting_consumers := waiting_consumers s; woken_consumers := n |} ->
    delete_head_nowait (q s) = (q', Some m) -> notify_not_full (with_queue s1 q') s' ->
    step may s (Delete m) s'
| step_delete_woken_waits s n q' s1 : woken_consumers s = S n ->
    s1 = {| q := q s; waiting_producers := waiting_producers s; woken_producers := woken_producers s;
            waiting_consumers := waiting_consumers s; woken_consumers := n |} ->
    delete_head_nowait (q s) = (q', None) -> step may s Silent (consumer_waits s1)
| step_spurious_consumer s n : waiting_consumers s = S n ->
    step may s Silent {| q := q s; waiting_producers := waiting_producers s;
      woken_producers := woken_producers s; waiting_consumers := n;
      woken_consumers := S (woken_consumers s) |}
| step_spurious_producer s l1 m l2 : waiting_producers s = l1 ++ m :: l2 ->
    step may s Silent {| q := q s; waiting_producers := l1 ++ l2;
      woken_producers := m :: woken_producers s; waiting_consumers := waiting_consumers s;
      woken_consumers := woken_consumers s |}.

Definition initial (limit : Z) : queue_state :=
  {| q := gr_make_msg_queue limit; waiting_producers := []; woken_producers := [];
     waiting_consumers := 0; woken_consumers := 0 |}.

(** ** The messages in the queue, and the use the queue is made for *)

Fixpoint walk (fuel : nat) (next : gmap Z Z) (m : option Z) : list Z :=
  match fuel, m with
  | S fuel, Some m => m :: walk fuel next (next !! m)
  | _, _ => []
  end.

(** All but the last message have a link. *)
Definition messages (q : gr_msg_queue) : list Z := walk (S (size (next q))) (next q) (d_head q).

Definition held (s : queue_state) : list Z := waiting_producers s ++ woken_producers s.

(** A message is inserted only when it is not in the queue and no other thread
    is about to insert it. *)
Definition fresh (s : queue_state) (m : Z) : Prop := m ∉ messages (q s) /\ m ∉ held s.

(** ** The specification: a bounded fifo *)

Record fifo := { limit : Z; contents : list Z }.

Inductive abs_step : fifo -> event -> fifo -> Prop :=
| abs_insert a m : limit a = 0 \/ Z.of_nat (length (contents a)) < limit a ->
    abs_step a (Insert m) {| limit := limit a; contents := contents a ++ [m] |}
| abs_delete a m l : contents a = m :: l ->
    abs_step a (Delete m) {| limit := limit a; contents := l |}.

Definition visible (e : event) : list event := match e with Silent => [] | e => [e] end.

(** ** Representation *)

Fixpoint chain (next : gmap Z Z) (m : option Z) (l : list Z) : Prop :=
  match l with
  | [] => m = None
  | x :: l => m = Some x /\ chain next (next !! x) l
  end.

Abbreviation zlen l := (Z.of_nat (length l)).

Record rep (q : gr_msg_queue) (l : list Z) : Prop := {
  rep_chain : chain (next q) (d_head q) l;
  rep_tail : d_tail q = last l;
  rep_nodup : NoDup l;
  rep_next : forall m, is_Some (next q !! m) -> m ∈ l;
  rep_count : d_count q = u32 (zlen l);
  rep_limit : 0 <= d_limit q < 2 ^ 32;
  rep_bound : d_limit q <> 0 -> zlen l <= d_limit q
}.

Lemma chain_ext n1 n2 m l : (forall x, x ∈ l -> n1 !! x = n2 !! x) -> chain n1 m l -> chain n2 m l.
Proof.
  revert m. induction l as [|y l IH]; intros m Hn Hc; [done|]. destruct Hc as [-> Hc]. split; [done|].
  rewrite <- Hn by constructor. apply IH; [|done]. intros x Hx. apply Hn. by constructor.
Qed.

(** Linking a new last message. *)
Lemma chain_snoc n m l t x : NoDup (l ++ [t]) -> x ∉ l ++ [t] -> chain n m (l ++ [t]) ->
  chain (delete x (<[t := x]> n)) m (l ++ [t; x]).
Proof.
  revert m. induction l as [|y l IH]; intros m Hnd Hx Hc; cbn [app chain] in *.
  - destruct Hc as [-> Hc]. split; [done|].
    rewrite lookup_delete_ne by set_solver. rewrite lookup_insert_eq. split; [done|].
    by rewrite lookup_delete_eq.
  - destruct Hc as [-> Hc]. split; [done|]. apply NoDup_cons in Hnd as [Hy Hnd].
    rewrite lookup_delete_ne, lookup_insert_ne by set_solver. apply IH; [done|set_solver|done].
Qed.

Lemma rep_full q l : rep q l -> full_p q = true <-> d_limit q <> 0 /\ zlen l = d_limit q.
Proof.
  intros Hr. unfold full_p. pose proof (rep_limit _ _ Hr) as Hl. pose proof (rep_bound _ _ Hr) as Hb.
  change (2 ^ 32) with 4294967296 in Hl. rewrite (rep_count _ _ Hr).
  destruct (Z.eqb_spec (d_limit q) 0) as [->|Hne]; cbn [negb andb]; [split; [done|tauto]|].
  specialize (Hb Hne). rewrite u32_id by lia. rewrite Z.leb_le. split; [intros; split; [done|lia]|lia].
Qed.

Lemma rep_enqueue q l m : rep q l -> m ∉ l -> full_p q = false -> rep (enqueue m q) (l ++ [m]).
Proof.
  intros Hr Hm Hf. assert (d_limit q <> 0 -> zlen l < d_limit q) as Hroom.
  { intros Hne. pose proof (rep_bound _ _ Hr Hne). destruct (Z.eq_dec (zlen l) (d_limit q)); [|lia].
    by rewrite (proj2 (rep_full q l Hr)) in Hf. }
  assert (u32 (d_count q + 1) = u32 (zlen (l ++ [m]))) as Hcount.
  { rewrite (rep_count _ _ Hr), length_app. unfold ux. rewrite Zplus_mod_idemp_l. f_equal. simpl. lia. }
  destruct Hr as [Hc Ht Hn Hx _ Hl Hb].
  assert (NoDup (l ++ [m])) as Hn'.
  { apply NoDup_app. split_and!; [done| |apply NoDup_singleton]. intros x Hxl ->%list_elem_of_singleton. done. }
  unfold enqueue. rewrite Ht. destruct l as [|t l _] using rev_ind.
  - cbn [last]. cbn in Hc. split; cbn; try done.
    + split; [done|]. by rewrite lookup_delete_eq.
    + intros x Hxs. destruct (decide (x = m)) as [->|]; [constructor|].
      rewrite lookup_delete_ne in Hxs by done. apply Hx in Hxs. by apply not_elem_of_nil in Hxs.
    + intros Hne. specialize (Hroom Hne). change (0 < d_limit q) in Hroom. lia.
  - rewrite last_snoc. split; cbn [d_head d_tail d_count d_limit next]; try done.
    + rewrite <- app_assoc. by apply chain_snoc.
    + by rewrite last_snoc.
    + intros x Hxs. destruct (decide (x = m)) as [->|Hxm]; [apply elem_of_app; right; constructor|].
      rewrite lookup_delete_ne in Hxs by done. apply elem_of_app. left.
      destruct (decide (x = t)) as [->|Hxt]; [apply elem_of_app; right; constructor|].
      rewrite lookup_insert_ne in Hxs by done. by apply Hx.
    + intros Hne. specialize (Hroom Hne). rewrite !length_app in *. simpl in *. lia.
Qed.

Lemma rep_delete q l : rep q l ->
  match delete_head_nowait q with
  | (q', Some m) => exists l', l = m :: l' /\ rep q' l' /\ d_limit q' = d_limit q
  | (q', None) => l = [] /\ q' = q
  end.
Proof.
  intros [Hc Ht Hn Hx Hcount Hl Hb]. unfold delete_head_nowait. destruct l as [|m l]; cbn [chain] in Hc.
  { rewrite Hc. done. }
  destruct Hc as [-> Hc]. exists l. apply NoDup_cons in Hn as [Hm Hn]. split; [done|]. split; [|done].
  split; cbn [d_head d_tail d_count d_limit next]; try done.
  - eapply chain_ext; [|exact Hc]. intros x Hxl. rewrite lookup_delete_ne; [done|]. by intros ->.
  - rewrite Ht. destruct l as [|y l]; cbn [chain] in Hc; [by rewrite Hc|].
    destruct Hc as [-> _]. done.
  - intros x Hxs. destruct (decide (x = m)) as [->|Hxm]; [rewrite lookup_delete_eq in Hxs; by destruct Hxs|].
    rewrite lookup_delete_ne in Hxs by done. apply Hx in Hxs. by apply elem_of_cons in Hxs as [?|?].
  - rewrite Hcount. unfold ux. rewrite Zminus_mod_idemp_l. f_equal. simpl. lia.
  - intros Hne. specialize (Hb Hne). simpl in *. lia.
Qed.

Lemma chain_linked n m l t x : chain n m (l ++ [t]) -> x ∈ l -> x ∈ dom n.
Proof.
  revert m. induction l as [|y l IH]; intros m Hc Hx; [by apply not_elem_of_nil in Hx|].
  destruct Hc as [_ Hc]. apply elem_of_cons in Hx as [->|Hx]; [|by eapply IH].
  apply elem_of_dom. destruct l as [|z l]; destruct Hc as [-> _]; eauto.
Qed.

Lemma walk_chain n m l fuel : chain n m l -> (length l <= fuel)%nat -> walk fuel n m = l.
Proof.
  revert m fuel. induction l as [|x l IH]; intros m fuel Hc Hf; [rewrite Hc; by destruct fuel|].
  destruct Hc as [-> Hc]. destruct fuel as [|fuel]; [simpl in Hf; lia|]. cbn [walk]. f_equal.
  apply IH; [done|]. simpl in Hf. lia.
Qed.

Lemma rep_messages q l : rep q l -> messages q = l.
Proof.
  intros Hr. apply walk_chain; [apply Hr|]. pose proof (rep_chain _ _ Hr) as Hc.
  pose proof (rep_nodup _ _ Hr) as Hn. clear Hr. destruct l as [|t l _] using rev_ind; [simpl; lia|].
  apply NoDup_app in Hn as (Hn & _ & _). rewrite length_app.
  assert (length l <= size (next q))%nat; [|simpl; lia].
  rewrite <- (size_list_to_set (C := gset Z) l) by done. rewrite <- size_dom. apply subseteq_size.
  intros x Hx%elem_of_list_to_set. by eapply chain_linked.
Qed.

(** [flush] empties the queue, with fuel for its messages. *)
Lemma flush_empties q l : rep q l -> exists q', flush (S (length l)) q = Some q' /\ rep q' [].
Proof.
  revert q. induction l as [|m l IH]; intros q Hr; cbn [flush]; pose proof (rep_delete _ _ Hr) as Hd;
    destruct (delete_head_nowait q) as [q' [m'|]].
  - destruct Hd as (? & ? & _). done.
  - destruct Hd as [_ ->]. eauto.
  - destruct Hd as (l' & [= <- <-] & Hr' & _). by apply IH.
  - by destruct Hd.
Qed.

(** ** The invariant of all threads *)

Record inv (s : queue_state) (l : list Z) : Prop := {
  inv_rep : rep (q s) l;
  inv_held : NoDup (held s);
  inv_apart : forall m, m ∈ held s -> m ∉ l;
  (** Enough consumers are awake for the messages there are, unless none waits;
      and enough producers for the room there is. *)
  inv_consumers : (waiting_consumers s = 0 \/ length l <= woken_consumers s)%nat;
  inv_producers : waiting_producers s = [] \/
    d_limit (q s) <> 0 /\ d_limit (q s) - zlen l <= zlen (woken_producers s)
}.

Lemma inv_initial limit : 0 <= limit < 2 ^ 32 -> inv (initial limit) [].
Proof.
  intros Hl. split; cbn; [|apply NoDup_nil_2|by intros m ?%not_elem_of_nil|by left|by left].
  split; cbn; try done; [apply NoDup_nil_2|by intros m [? ?]|lia].
Qed.

Lemma perm_wake (l1 l2 k : list Z) x : (l1 ++ l2) ++ x :: k ≡ₚ (l1 ++ x :: l2) ++ k.
Proof.
  etrans; [symmetry; apply Permutation_middle|].
  exact (Permutation_app_tail k (Permutation_middle l1 l2 x)).
Qed.

Lemma perm_run (w l1 l2 : list Z) x : w ++ l1 ++ x :: l2 ≡ₚ x :: w ++ l1 ++ l2.
Proof. rewrite !app_assoc. symmetry. apply Permutation_middle. Qed.

(** A notification keeps the invariant when there is one more message. *)
Lemma inv_notify_not_empty s l m : rep (q s) (l ++ [m]) -> NoDup (held s) ->
  (forall x, x ∈ held s -> x ∉ l ++ [m]) ->
  (waiting_consumers s = 0 \/ length l <= woken_consumers s)%nat ->
  (waiting_producers s = [] \/
    d_limit (q s) <> 0 /\ d_limit (q s) - zlen (l ++ [m]) <= zlen (woken_producers s)) ->
  inv (notify_not_empty s) (l ++ [m]).
Proof.
  intros Hr Hn Ha Hc Hp. unfold notify_not_empty. destruct (waiting_consumers s) as [|n] eqn:E.
  - split; try done. by left.
  - split; cbn; try done. right. rewrite length_app. simpl. lia.
Qed.

(** A thread with message [m], which nobody else holds, runs its test. *)
Lemma inv_try_insert s l m : rep (q s) l -> NoDup (m :: held s) ->
  (forall x, x ∈ m :: held s -> x ∉ l) ->
  (waiting_consumers s = 0 \/ length l <= woken_consumers s)%nat ->
  (waiting_producers s = [] \/
    d_limit (q s) <> 0 /\ d_limit (q s) - (zlen l + 1) <= zlen (woken_producers s)) ->
  inv (try_insert m s).1 (if (try_insert m s).2 then l ++ [m] else l) /\
  d_limit (q (try_insert m s).1) = d_limit (q s) /\
  ((try_insert m s).2 = true -> d_limit (q s) = 0 \/ zlen l < d_limit (q s)).
Proof.
  intros Hr Hn Ha Hc Hp. apply NoDup_cons in Hn as Hn'. destruct Hn' as [Hm Hn1].
  pose proof (rep_full _ _ Hr) as Hfull. pose proof (rep_bound _ _ Hr) as Hb.
  unfold try_insert. destruct (full_p (q s)) eqn:Hf; cbn [fst snd].
  - destruct (proj1 Hfull eq_refl) as [Hl0 Hl]. split_and!; [|done|done]. split; cbn; try done.
    + unfold held in *. cbn. rewrite <- app_assoc. cbn [app]. by rewrite <- Permutation_middle.
    + intros x Hx. apply Ha. unfold held in *. cbn in Hx. set_solver.
    + right. split; [done|lia].
  - assert (d_limit (enqueue m (q s)) = d_limit (q s)) as Hlim by (unfold enqueue; by destruct (d_tail (q s))).
    split_and!.
    + apply inv_notify_not_empty; cbn [with_queue q waiting_producers woken_producers waiting_consumers woken_consumers];
        [apply rep_enqueue; [done|apply Ha; constructor|done]|done| |done|].
      * intros x Hx. unfold held in *. cbn in Hx. rewrite not_elem_of_app. split; [apply Ha; set_solver|].
        intros ->%list_elem_of_singleton. done.
      * rewrite Hlim, length_app. simpl. replace (Z.of_nat (length l + 1)) with (zlen l + 1) by lia. done.
    + unfold notify_not_empty. cbn. by destruct (waiting_consumers s).
    + intros _. destruct (Z.eq_dec (d_limit (q s)) 0) as [?|Hne]; [by left|right].
      specialize (Hb Hne). destruct (Z.eq_dec (zlen l) (d_limit (q s))) as [Heq|]; [|lia].
      pose proof (proj2 Hfull (conj Hne Heq)). discriminate.
Qed.

(** A message taken, and a producer notified. *)
Lemma inv_notify_not_full s s' l m : notify_not_full s s' -> rep (q s) l -> NoDup (held s) ->
  (forall x, x ∈ held s -> x ∉ m :: l) ->
  (waiting_consumers s = 0 \/ length l <= woken_consumers s)%nat ->
  (waiting_producers s = [] \/
    d_limit (q s) <> 0 /\ d_limit (q s) - zlen (m :: l) <= zlen (woken_producers s)) ->
  inv s' l /\ d_limit (q s') = d_limit (q s).
Proof.
  intros Hnot Hr Hn Ha Hc Hp. assert (forall x, x ∈ held s -> x ∉ l) as Ha'.
  { intros x Hx Hxl. apply (Ha x Hx). by constructor. }
  destruct Hnot as [s Hw|s l1 x l2 Hw]; split; try done.
  - split; try done. by left.
  - split; cbn; try done.
    + unfold held in *. cbn. rewrite Hw in Hn. by rewrite perm_wake.
    + intros y Hy. apply Ha'. unfold held in *. rewrite Hw. cbn in Hy. set_solver.
    + destruct Hp as [Hp|[? Hp]]; [by rewrite Hw in Hp; destruct l1|]. right. split; [done|]. simpl in *. lia.
Qed.

(** Every step of owners of their messages keeps the invariant and is a step of
    the fifo, or invisible. *)
Lemma queue_step_refines s e s' l : inv s l -> step fresh s e s' ->
  exists l', inv s' l' /\ d_limit (q s') = d_limit (q s) /\
    lsteps abs_step {| limit := d_limit (q s); contents := l |} (visible e)
                    {| limit := d_limit (q s'); contents := l' |}.
Proof.
  intros [Hr Hn Ha Hc Hp] Hs.
  assert (forall m s1, rep (q s1) l -> NoDup (m :: held s1) -> (forall x, x ∈ m :: held s1 -> x ∉ l) ->
    (waiting_consumers s1 = 0 \/ length l <= woken_consumers s1)%nat ->
    (waiting_producers s1 = [] \/
    d_limit (q s1) <> 0 /\ d_limit (q s1) - (zlen l + 1) <= zlen (woken_producers s1)) -> d_limit (q s1) = d_limit (q s) ->
    exists l', inv (try_insert m s1).1 l' /\ d_limit (q (try_insert m s1).1) = d_limit (q s) /\
      lsteps abs_step {| limit := d_limit (q s); contents := l |} (visible (insert_event m (try_insert m s1).2))
        {| limit := d_limit (q (try_insert m s1).1); contents := l' |}) as Hins.
  { intros m s1 H1 H2 H3 H4 H5 H6. destruct (inv_try_insert s1 l m H1 H2 H3 H4 H5) as (Hi & Hl & Hroom).
    eexists. split; [exact Hi|]. split; [congruence|]. destruct (try_insert m s1).2.
    - rewrite Hl, H6. econstructor; [|constructor]. rewrite H6 in Hroom. by apply abs_insert, Hroom.
    - rewrite Hl, H6. constructor. }
  assert (forall m q' s1 s2, delete_head_nowait (q s) = (q', Some m) -> held s1 = held s ->
    waiting_producers s1 = waiting_producers s -> woken_producers s1 = woken_producers s ->
    (waiting_consumers s1 = 0 \/ length l <= S (woken_consumers s1))%nat ->
    notify_not_full (with_queue s1 q') s2 ->
    exists l', inv s2 l' /\ d_limit (q s2) = d_limit (q s) /\
      lsteps abs_step {| limit := d_limit (q s); contents := l |} (visible (Delete m))
        {| limit := d_limit (q s2); contents := l' |}) as Hdel.
  { intros m q' s1 s2 Hd Hh Hwp Hkp Hwc Hnot. pose proof (rep_delete _ _ Hr) as Hrd. rewrite Hd in Hrd.
    destruct Hrd as (l' & -> & Hr' & Hlim). exists l'.
    destruct (inv_notify_not_full (with_queue s1 q') s2 l' m Hnot) as [Hi Hl]; try done.
    - change (NoDup (held s1)). by rewrite Hh.
    - change (forall x, x ∈ held s1 -> x ∉ m :: l'). by rewrite Hh.
    - cbn. simpl in Hwc. lia.
    - cbn. by rewrite Hlim, Hwp, Hkp.
    - cbn in Hl. split; [done|]. split; [congruence|]. rewrite Hl, Hlim. econstructor; [|constructor].
      by apply abs_delete. }
  destruct Hs as [s m [Hm Hmh] _|s m _|s l1 m l2 s1 Hk ->|s m q' s' Hd Hnot|s q' Hd|s q' Hd
    |s n m q' s1 s' Hk -> Hd Hnot|s n q' s1 Hk -> Hd|s n Hk|s l1 m l2 Hk].
  - rewrite (rep_messages _ _ Hr) in Hm. apply Hins; try done.
    + by constructor.
    + intros x [->|Hx]%elem_of_cons; [done|by apply Ha].
    + destruct Hp as [?|[? ?]]; [by left|right; split; [done|lia]].
  - exists l. split; [by split|]. split; [done|constructor].
  - unfold held in *. rewrite Hk in *. apply Hins; cbn; try done.
    + unfold held. cbn. by rewrite <- perm_run.
    + unfold held. cbn. intros x Hx. apply Ha. set_solver.
    + rewrite length_app in *. simpl in *.
      destruct Hp as [?|[? ?]]; [by left|right; split; [done|lia]].
  - eapply (Hdel m q' s); try done. lia.
  - pose proof (rep_delete _ _ Hr) as Hrd. rewrite Hd in Hrd. destruct Hrd as [-> _].
    exists []. split; [|split; [done|constructor]]. split; cbn; try done. right. lia.
  - pose proof (rep_delete _ _ Hr) as Hrd. rewrite Hd in Hrd. destruct Hrd as [-> ->].
    exists []. split; [by split|split; [done|constructor]].
  - eapply Hdel; [exact Hd|..]; try exact Hnot; cbn; try done. lia.
  - pose proof (rep_delete _ _ Hr) as Hrd. rewrite Hd in Hrd. destruct Hrd as [-> _].
    exists []. split; [|split; [done|constructor]]. split; cbn; try done. right. lia.
  - exists l. split; [|split; [done|constructor]]. split; cbn; try done. lia.
  - exists l. unfold held in *. rewrite Hk in *. split; [|split; [done|constructor]]. split; cbn; try done.
    + unfold held. cbn. by rewrite perm_wake.
    + unfold held. cbn. intros x Hx. apply Ha. set_solver.
    + destruct Hp as [?|[? ?]]; [by destruct l1|right; split; [done|lia]].
Qed.

(** ** Properties *)

Section Reachable.
Context (lim : Z) (Hlim : 0 <= lim < 2 ^ 32).

Lemma reachable_inv ls s : lsteps (step fresh) (initial lim) ls s ->
  inv s (messages (q s)) /\ d_limit (q s) = lim /\
  lsteps abs_step {| limit := lim; contents := [] |} (mjoin (visible <$> ls))
    {| limit := lim; contents := messages (q s) |}.
Proof using Hlim.
  intros Hs. pose (R := fun s a => inv s (contents a) /\ d_limit (q s) = limit a).
  assert (exists a', lsteps abs_step {| limit := lim; contents := [] |} (mjoin (visible <$> ls)) a' /\ R s a')
    as ([k l] & Ha & [Hi Hl]).
  { eapply (forward_simulation (step fresh) abs_step visible R); [| |exact Hs].
    - intros c e c' [k l] [Hi Hl] Hstep. cbn [contents limit] in *.
      destruct (queue_step_refines _ _ _ _ Hi Hstep) as (l' & Hi' & Hl' & Hsteps). subst k.
      eexists. split; [exact Hsteps|]. done.
    - split; [by apply inv_initial|done]. }
  cbn [contents limit] in *. subst k. rewrite (rep_messages _ _ (inv_rep _ _ Hi)).
  assert (d_limit (q s) = lim) as Hk; [|rewrite Hk in Ha; done].
    clear - Ha. remember {| limit := lim; contents := [] |} as a eqn:Ea.
    remember {| limit := d_limit (q s); contents := l |} as b eqn:Eb.
    assert (limit b = limit a) as E by (clear - Ha; induction Ha as [|? ? ? ? ? Hx _ IH];
      [done|rewrite IH; by destruct Hx]). by subst.
Qed.

(** C18. Used by any number of threads, each inserting only messages that are not
    in the queue, the queue is a fifo bounded by its limit: messages leave in
    the order in which they went in, none is lost or duplicated, and the count
    is exact. *)
Theorem gr_msg_queue_refines_fifo ls s : lsteps (step fresh) (initial lim) ls s ->
  lsteps abs_step {| limit := lim; contents := [] |} (mjoin (visible <$> ls))
    {| limit := lim; contents := messages (q s) |} /\
  d_count (q s) = u32 (zlen (messages (q s))) /\
  (lim <> 0 -> zlen (messages (q s)) <= lim /\
     (full_p (q s) = true <-> zlen (messages (q s)) = lim) /\
     (empty_p (q s) = true <-> messages (q s) = [])).
Proof using Hlim.
  intros (Hi & Hl & Hs)%reachable_inv. split; [done|]. pose proof (inv_rep _ _ Hi) as Hr.
  split; [apply Hr|]. intros Hne. pose proof (rep_bound _ _ Hr) as Hb. rewrite Hl in Hb. specialize (Hb Hne).
  pose proof (rep_full _ _ Hr) as Hf. rewrite Hl in Hf. split; [done|]. split; [tauto|].
  unfold empty_p. rewrite (rep_count _ _ Hr), u32_id by (revert Hlim; norm_pow; lia).
  rewrite Z.eqb_eq. destruct (messages (q s)); simpl; [done|split; [lia|done]].
Qed.

(** C19. No wakeup is lost: whenever there is a message and a consumer waits,
    some consumer has been woken, and it can take the message; whenever there
    is room and a producer waits, some producer has been woken, and it can
    insert its message. *)
Theorem no_lost_wakeup ls s : lsteps (step fresh) (initial lim) ls s ->
  (messages (q s) <> [] -> (0 < waiting_consumers s)%nat ->
     (0 < woken_consumers s)%nat /\ exists m s', step fresh s (Delete m) s') /\
  (full_p (q s) = false -> waiting_producers s <> [] ->
     exists m s', m ∈ woken_producers s /\ step fresh s (Insert m) s').
Proof using Hlim.
  intros (Hi & Hl & _)%reachable_inv. pose proof (inv_rep _ _ Hi) as Hr. split.
  - intros Hne Hw. destruct (inv_consumers _ _ Hi) as [?|Hc]; [lia|].
    assert (0 < woken_consumers s)%nat as Hk by (destruct (messages (q s)); [done|simpl in Hc; lia]).
    split; [done|]. pose proof (rep_delete _ _ Hr) as Hd.
    destruct (delete_head_nowait (q s)) as [q' [m|]] eqn:Ed; [|by destruct Hd].
    destruct (woken_consumers s) as [|n] eqn:En; [lia|]. exists m.
    assert (exists s', notify_not_full (with_queue {| q := q s; waiting_producers := waiting_producers s;
      woken_producers := woken_producers s; waiting_consumers := waiting_consumers s;
      woken_consumers := n |} q') s') as [s' Hs'].
    { destruct (waiting_producers s) as [|x w] eqn:Ew.
      - eexists. by apply notify_nobody.
      - eexists. by apply (notify_somebody _ [] x w). }
    exists s'. by eapply step_delete_woken.
  - intros Hf Hw. pose proof (rep_bound _ _ Hr) as Hb.
    destruct (inv_producers _ _ Hi) as [?|[Hne Hp]]; [done|]. specialize (Hb Hne).
    assert (zlen (messages (q s)) <> d_limit (q s)) as Hroom.
    { intros E. by rewrite (proj2 (rep_full _ _ Hr) (conj Hne E)) in Hf. }
    destruct (woken_producers s) as [|m k] eqn:Ek; [simpl in Hp; lia|].
    set (s1 := {| q := q s; waiting_producers := waiting_producers s; woken_producers := k;
      waiting_consumers := waiting_consumers s; woken_consumers := woken_consumers s |}).
    exists m, (try_insert m s1).1. split; [constructor|].
    pose proof (step_insert_woken fresh s [] m k s1 Ek eq_refl) as Hstep.
    unfold try_insert in *. cbn [q s1] in *. rewrite Hf in *. exact Hstep.
Qed.

(** [flush] terminates and leaves an empty queue, whatever is in it. *)
Theorem flush_terminates ls s : lsteps (step fresh) (initial lim) ls s ->
  exists q', flush (S (length (messages (q s)))) (q s) = Some q' /\
    messages q' = [] /\ empty_p q' = true /\ d_head q' = None /\ d_tail q' = None.
Proof using Hlim.
  intros (Hi & _ & _)%reachable_inv. destruct (flush_empties _ _ (inv_rep _ _ Hi)) as (q' & Hf & Hr).
  exists q'. split; [done|]. split; [by apply rep_messages|]. unfold empty_p.
  rewrite (rep_count _ _ Hr), (rep_tail _ _ Hr). split; [done|]. split; [|done]. apply (rep_chain _ _ Hr).
Qed.
End Reachable.

(** ** A message put in twice *)

(** The guard of [insert_tail] lets the last message of the queue in again:
    the message is in the queue once but counted twice, and when it is taken
    out the queue has no message and is not empty. *)
Theorem tail_inserted_twice m limit : 2 <= limit < 2 ^ 32 ->
  exists s, lsteps (step (fun _ _ => True)) (initial limit) [Insert m; Insert m; Delete m] s /\
    d_head (q s) = None /\ d_count (q s) = 1 /\ empty_p (q s) = false /\
    delete_head_nowait (q s) = (q s, None).
Proof.
  norm_pow. intros Hl. set (s1 := with_queue (initial limit) (enqueue m (gr_make_msg_queue limit))).
  set (s2 := with_queue s1 (enqueue m (q s1))).
  assert (forall c, c < 2 -> ((negb (limit =? 0)) && (limit <=? c)) = false) as Hfull.
  { intros c Hc. rewrite (proj2 (Z.leb_gt limit c)) by lia. apply andb_false_r. }
  assert (try_insert m (initial limit) = (s1, true)) as E1.
  { unfold try_insert, full_p. cbn [initial q gr_make_msg_queue d_limit d_count]. by rewrite Hfull by lia. }
  assert (try_insert m s1 = (s2, true)) as E2.
  { unfold try_insert, full_p. cbn [s1 with_queue q enqueue gr_make_msg_queue d_tail d_limit d_count].
    rewrite Hfull by (vm_compute; done). done. }
  assert (next (q s1) !! m = None) as N1 by apply lookup_delete_eq.
  assert (next (q s2) !! m = None) as N2 by apply lookup_delete_eq.
  assert (delete_head_nowait (q s2) =
    ({| d_head := None; d_tail := None; d_count := 1; d_limit := limit; next := delete m (next (q s2)) |}, Some m)) as E3.
  { transitivity ({| d_head := next (q s2) !! m; d_tail := if next (q s2) !! m is None then None else Some m;
      d_count := 1; d_limit := limit; next := delete m (next (q s2)) |}, Some m); [done|by rewrite N2]. }
  eexists. split.
  - econstructor; [|econstructor; [|econstructor; [|constructor]]].
    + pose proof (step_insert (fun _ _ => True) (initial limit) m I) as H. rewrite E1 in H. apply H. done.
    + pose proof (step_insert (fun _ _ => True) s1 m I) as H. rewrite E2 in H. apply H.
      unfold already_in_queue. by rewrite N1.
    + eapply (step_delete (fun _ _ => True) s2 m); [exact E3|]. by apply notify_nobody.
  - by split_and!.
Qed.

(** ** Witnesses: a queue for one message *)

Definition ex_full : queue_state :=
  with_queue (initial 1) {| d_head := Some 5; d_tail := Some 5; d_count := 1; d_limit := 1; next := ∅ |}.

Lemma ex_full_run : lsteps (step fresh) (initial 1) [Insert 5] ex_full.
Proof.
  econstructor; [|constructor]. apply (step_insert fresh (initial 1) 5); [|reflexivity].
  split; apply not_elem_of_nil.
Qed.

Lemma gr_msg_queue_refines_fifo_witness :
  full_p (q ex_full) = true /\ zlen (messages (q ex_full)) = 1.
Proof.
  destruct (gr_msg_queue_refines_fifo 1 ltac:(vm_compute; split; [discriminate|reflexivity]) _ _ ex_full_run)
    as (_ & _ & H).
  destruct (H ltac:(discriminate)) as (_ & Hf & _). split; [reflexivity|]. apply Hf. reflexivity.
Defined.

(** Two consumers came first, then a message. *)
Definition ex_waiting : queue_state :=
  {| q := q ex_full; waiting_producers := []; woken_producers := []; waiting_consumers := 1; woken_consumers := 1 |}.

Lemma ex_waiting_run : lsteps (step fresh) (initial 1) [Silent; Silent; Insert 5] ex_waiting.
Proof.
  econstructor; [by eapply step_delete_waits|]. econstructor; [by eapply step_delete_waits|].
  econstructor; [|constructor].
  apply (step_insert fresh (consumer_waits (consumer_waits (initial 1))) 5); [|reflexivity].
  split; apply not_elem_of_nil.
Qed.

Lemma no_lost_wakeup_witness : exists m s', step fresh ex_waiting (Delete m) s'.
Proof.
  destruct (no_lost_wakeup 1 ltac:(vm_compute; split; [discriminate|reflexivity]) _ _ ex_waiting_run) as [H _].
  destruct H as [_ H]; [discriminate|apply Nat.lt_0_1|exact H].
Defined.

Lemma flush_terminates_witness : exists q', flush 2 (q ex_full) = Some q' /\ messages q' = [].
Proof.
  destruct (flush_terminates 1 ltac:(vm_compute; split; [discriminate|reflexivity]) _ _ ex_full_run)
    as (q' & Hf & Hm & _).
  exists q'. split; [exact Hf|exact Hm].
Defined.

Lemma tail_inserted_twice_witness : exists s,
  lsteps (step (fun _ _ => True)) (initial 2) [Insert 5; Insert 5; Delete 5] s /\ empty_p (q s) = false.
Proof.
  destruct (tail_inserted_twice 5 2 ltac:(vm_compute; split; [discriminate|reflexivity])) as (s & Hs & _ & _ & He & _).
  exists s. split; [exact Hs|exact He].
Defined.
