(* ===== verification/Pmt.v ===== *)
(** * Polymorphic types: [gruel/src/lib/pmt/pmt.cc], [pmt_int.h]

    A [pmt_t] points to an object; objects are shared, and pairs, vectors and
    uniform vectors can be changed in place, so the model is a store of objects
    and every operation a program of a state and exception monad.  The theorems:
    symbols with the same name are the same object, [pmt_eqv] is an equivalence,
    the list operations compute the list functions, and a dictionary is a finite
    map from keys up to [pmt_eqv]. *)

From S2P Require Import Prelude.
From stdpp Require Import gmap.
#[local] Open Scope Z_scope.
#[local] Open Scope cint_scope.

(** ** Objects *)

(** The element types of uniform vectors. *)
Inductive unv_type := U8 | S8 | U16 | S16 | U32 | S32 | U64 | S64 | F32 | F64 | C32 | C64.

#[export] Instance unv_type_eq_dec : EqDecision unv_type.
Proof. solve_decision. Defined.

Definition sizeof_unv (t : unv_type) : Z :=
  match t with
  | U8 | S8 => 1 | U16 | S16 => 2 | U32 | S32 | F32 => 4 | U64 | S64 | F64 | C32 => 8 | C64 => 16
  end.

(** Pointers are numbers, strings lists of bytes, doubles their bit patterns;
    what an [any] holds is opaque. *)
Inductive pmt_base :=
| pmt_bool
| pmt_null
| pmt_symbol (d_name : list Z) (d_next : option Z)
| pmt_integer (d_value : Z)
| pmt_uint64 (d_value : Z)
| pmt_real (d_value : Z)
| pmt_complex (re im : Z)
| pmt_pair (d_car d_cdr : Z)
| pmt_vector (d_v : list Z)
| pmt_tuple (d_v : list Z)
| pmt_uniform_vector (t : unv_type) (d_v : list Z)
| pmt_any (d_any : Z).

Inductive pmt_exn :=
| wrong_type (obj : Z)
| out_of_range (k : Z)
| notimplemented (obj : Z)
| malformed (obj : Z)
| diverges
| undefined.

(** The objects, the next free address, the symbol hash table. *)
Record store := {
  objs : gmap Z pmt_base;
  free : Z;
  s_symbol_hash_table : gmap Z Z
}.

Definition PMT_T : Z := 1.
Definition PMT_F : Z := 2.
Definition PMT_NIL : Z := 3.
Definition PMT_EOF : Z := 4.

(** The store when the program starts. *)
Definition initial_store : store :=
  {| objs := <[PMT_T := pmt_bool]> (<[PMT_F := pmt_bool]> (<[PMT_NIL := pmt_null]>
       (<[PMT_EOF := pmt_pair PMT_NIL PMT_NIL]> ∅)));
     free := 5; s_symbol_hash_table := ∅ |}.

(** ** The monad *)

Definition M (A : Type) : Type := store -> res pmt_exn (A * store).

#[export] Instance M_ret : MRet M := fun A a s => Ok (a, s).
#[export] Instance M_bind : MBind M := fun A B f m s =>
  match m s with Ok (a, s') => f a s' | Throw e => Throw e end.

Definition throw {A} (e : pmt_exn) : M A := fun _ => Throw e.

Definition deref (p : Z) : M pmt_base := fun s =>
  match objs s !! p with Some o => Ok (o, s) | None => Throw undefined end.

Definition put (p : Z) (o : pmt_base) (s : store) : store :=
  {| objs := <[p := o]> (objs s); free := free s; s_symbol_hash_table := s_symbol_hash_table s |}.

(** [*p = o], and [new]. *)
Definition update (p : Z) (o : pmt_base) : M () := fun s => Ok (tt, put p o s).
Definition alloc (o : pmt_base) : M Z := fun s =>
  Ok (free s, {| objs := <[free s := o]> (objs s); free := free s + 1;
                 s_symbol_hash_table := s_symbol_hash_table s |}).

(** A loop or recursion that follows more pointers than there are objects
    follows one twice: it never ends. *)
Definition bounded {A} (f : nat -> M A) : M A := fun s => f (S (size (objs s))) s.

(** ** Type tests *)

Definition test (f : pmt_base -> bool) (obj : Z) : M bool := o ← deref obj; mret (f o).

Definition is_bool (o : pmt_base) := match o with pmt_bool => true | _ => false end.
Definition is_symbol (o : pmt_base) := match o with pmt_symbol _ _ => true | _ => false end.
Definition is_integer (o : pmt_base) := match o with pmt_integer _ => true | _ => false end.
Definition is_uint64 (o : pmt_base) := match o with pmt_uint64 _ => true | _ => false end.
Definition is_real (o : pmt_base) := match o with pmt_real _ => true | _ => false end.
Definition is_complex (o : pmt_base) := match o with pmt_complex _ _ => true | _ => false end.
Definition is_number (o : pmt_base) := is_integer o || is_uint64 o || is_real o || is_complex o.
Definition is_pair (o : pmt_base) := match o with pmt_pair _ _ => true | _ => false end.
Definition is_vector (o : pmt_base) := match o with pmt_vector _ => true | _ => false end.
Definition is_tuple (o : pmt_base) := match o with pmt_tuple _ => true | _ => false end.
Definition is_uniform_vector (o : pmt_base) :=
  match o with pmt_uniform_vector _ _ => true | _ => false end.
Definition is_any (o : pmt_base) := match o with pmt_any _ => true | _ => false end.

Definition pmt_is_bool := test is_bool.
Definition pmt_is_symbol := test is_symbol.
Definition pmt_is_integer := test is_integer.
Definition pmt_is_uint64 := test is_uint64.
Definition pmt_is_real := test is_real.
Definition pmt_is_complex := test is_complex.
Definition pmt_is_number := test is_number.
Definition pmt_is_pair := test is_pair.
Definition pmt_is_vector := test is_vector.
Definition pmt_is_tuple := test is_tuple.
Definition pmt_is_uniform_vector := test is_uniform_vector.
Definition pmt_is_any := test is_any.
Definition pmt_is_null (x : Z) : bool := x =? PMT_NIL.

(** ** Booleans, symbols, numbers *)

Definition pmt_is_true (obj : Z) : bool := negb (obj =? PMT_F).
Definition pmt_is_false (obj : Z) : bool := obj =? PMT_F.
Definition pmt_from_bool (val : bool) : Z := if val then PMT_T else PMT_F.
Definition pmt_to_bool (val : Z) : M bool :=
  if val =? PMT_T then mret true else if val =? PMT_F then mret false else throw (wrong_type val).

Definition SYMBOL_HASH_TABLE_SIZE : Z := 701.

Definition hash_step (h c : Z) : Z :=
  let h := u32 (u32 (h << 4) + (c .& 0xff)) in
  let g := h .& 0xf0000000 in
  if ctrue g then (h .^ (g >> 24)) .^ g else h.
Definition hash_string (s : list Z) : Z := foldl hash_step 0 s.

(** The search of a bucket. *)
Fixpoint find_symbol (fuel : nat) (name : list Z) (sym : option Z) : M (option Z) :=
  match sym with
  | None => mret None
  | Some p =>
      match fuel with
      | O => throw diverges
      | S fuel =>
          o ← deref p;
          match o with
          | pmt_symbol n next => if decide (n = name) then mret (Some p) else find_symbol fuel name next
          | _ => throw undefined
          end
      end
  end.

Definition bucket (hash : Z) : M (option Z) := fun s => Ok (s_symbol_hash_table s !! hash, s).
Definition set_bucket (hash sym : Z) : M () := fun s =>
  Ok (tt, {| objs := objs s; free := free s;
             s_symbol_hash_table := <[hash := sym]> (s_symbol_hash_table s) |}).

Definition pmt_string_to_symbol (name : list Z) : M Z :=
  let hash := hash_string name mod SYMBOL_HASH_TABLE_SIZE in
  head ← bucket hash;
  found ← bounded (fun n => find_symbol n name head);
  match found with
  | Some sym => mret sym
  | None =>
      sym ← alloc (pmt_symbol name head);
      _ ← set_bucket hash sym;
      mret sym
  end.

Definition pmt_intern := pmt_string_to_symbol.

Definition pmt_symbol_to_string (sym : Z) : M (list Z) :=
  o ← deref sym;
  match o with pmt_symbol n _ => mret n | _ => throw (wrong_type sym) end.

Definition pmt_from_long (x : Z) : M Z := alloc (pmt_integer x).
Definition pmt_to_long (x : Z) : M Z :=
  o ← deref x;
  match o with pmt_integer v => mret v | _ => throw (wrong_type x) end.

Definition pmt_from_uint64 (x : Z) : M Z := alloc (pmt_uint64 x).
Definition pmt_to_uint64 (x : Z) : M Z :=
  o ← deref x;
  match o with
  | pmt_uint64 v => mret v
  | pmt_integer tmp => if 0 <=? tmp then mret tmp else throw (wrong_type x)
  | _ => throw (wrong_type x)
  end.

Definition pmt_from_double (x : Z) : M Z := alloc (pmt_real x).
Definition pmt_make_rectangular (re im : Z) : M Z := alloc (pmt_complex re im).

(** ** Pairs *)

Definition pmt_cons (x y : Z) : M Z := alloc (pmt_pair x y).
Definition pmt_car (pair : Z) : M Z :=
  o ← deref pair;
  match o with pmt_pair a _ => mret a | _ => throw (wrong_type pair) end.
Definition pmt_cdr (pair : Z) : M Z :=
  o ← deref pair;
  match o with pmt_pair _ d => mret d | _ => throw (wrong_type pair) end.
Definition pmt_set_car (pair obj : Z) : M () :=
  o ← deref pair;
  match o with pmt_pair _ d => update pair (pmt_pair obj d) | _ => throw (wrong_type pair) end.
Definition pmt_set_cdr (pair obj : Z) : M () :=
  o ← deref pair;
  match o with pmt_pair a _ => update pair (pmt_pair a obj) | _ => throw (wrong_type pair) end.

Definition pmt_caar (pair : Z) : M Z := x ← pmt_car pair; pmt_car x.
Definition pmt_cadr (pair : Z) : M Z := x ← pmt_cdr pair; pmt_car x.
Definition pmt_cdar (pair : Z) : M Z := x ← pmt_car pair; pmt_cdr x.
Definition pmt_cddr (pair : Z) : M Z := x ← pmt_cdr pair; pmt_cdr x.
Definition pmt_caddr (pair : Z) : M Z := x ← pmt_cdr pair; y ← pmt_cdr x; pmt_car y.
Definition pmt_cadddr (pair : Z) : M Z :=
  x ← pmt_cdr pair; y ← pmt_cdr x; z ← pmt_cdr y; pmt_car z.

(** ** Vectors and tuples *)

Definition ref {A} `{Default A} (l : list A) (k : Z) : M A :=
  if Z.of_nat (length l) <=? k then throw (out_of_range k) else mret l.[k].

Definition pmt_make_vector (k fill : Z) : M Z := alloc (pmt_vector (replicate (Z.to_nat k) fill)).
Definition pmt_vector_ref (vector k : Z) : M Z :=
  o ← deref vector;
  match o with pmt_vector l => ref l k | _ => throw (wrong_type vector) end.
Definition pmt_vector_set (vector k obj : Z) : M () :=
  o ← deref vector;
  match o with
  | pmt_vector l =>
      if Z.of_nat (length l) <=? k then throw (out_of_range k)
      else update vector (pmt_vector l.[k <- obj])
  | _ => throw (wrong_type vector)
  end.
Definition pmt_vector_fill (vector obj : Z) : M () :=
  o ← deref vector;
  match o with
  | pmt_vector l => update vector (pmt_vector (replicate (length l) obj))
  | _ => throw (wrong_type vector)
  end.

Definition pmt_tuple_ref (tuple k : Z) : M Z :=
  o ← deref tuple;
  match o with pmt_tuple l => ref l k | _ => throw (wrong_type tuple) end.
Definition pmt_make_tuple (l : list Z) : M Z := alloc (pmt_tuple l).

(** ** Uniform vectors: one definition for the twelve generated classes *)

Definition pmt_make_unv (t : unv_type) (k fill : Z) : M Z :=
  alloc (pmt_uniform_vector t (replicate (Z.to_nat k) fill)).
Definition pmt_init_unv (t : unv_type) (data : list Z) : M Z := alloc (pmt_uniform_vector t data).
Definition pmt_unv_ref (t : unv_type) (vector k : Z) : M Z :=
  o ← deref vector;
  match o with
  | pmt_uniform_vector t' l => if decide (t' = t) then ref l k else throw (wrong_type vector)
  | _ => throw (wrong_type vector)
  end.
Definition pmt_unv_set (t : unv_type) (vector k obj : Z) : M () :=
  o ← deref vector;
  match o with
  | pmt_uniform_vector t' l =>
      if decide (t' = t) then
        if Z.of_nat (length l) <=? k then throw (out_of_range k)
        else update vector (pmt_uniform_vector t l.[k <- obj])
      else throw (wrong_type vector)
  | _ => throw (wrong_type vector)
  end.

Definition pmt_is_blob := pmt_is_uniform_vector.
Definition pmt_make_blob (buf : list Z) : M Z := pmt_init_unv U8 buf.
Definition pmt_blob_length (blob : Z) : M Z :=
  o ← deref blob;
  match o with
  | pmt_uniform_vector t l => mret (Z.of_nat (length l) * sizeof_unv t)
  | _ => throw (wrong_type blob)
  end.

(** ** Any *)

Definition pmt_make_any (any : Z) : M Z := alloc (pmt_any any).
Definition pmt_any_ref (obj : Z) : M Z :=
  o ← deref obj;
  match o with pmt_any a => mret a | _ => throw (wrong_type obj) end.
Definition pmt_any_set (obj any : Z) : M () :=
  o ← deref obj;
  match o with pmt_any _ => update obj (pmt_any any) | _ => throw (wrong_type obj) end.

(** ** Equality *)

(** [==] on doubles: not on NaN, and the two zeros are equal. *)
Definition f64_is_nan (x : Z) : bool := 0x7ff0000000000000 <? x .& 0x7fffffffffffffff.
Definition f64_eqb (x y : Z) : bool :=
  negb (f64_is_nan x) && negb (f64_is_nan y) &&
  ((x =? y) || (x .& 0x7fffffffffffffff =? 0) && (y .& 0x7fffffffffffffff =? 0)).

Definition same_value (x y : pmt_base) : bool :=
  match x, y with
  | pmt_integer a, pmt_integer b => a =? b
  | pmt_uint64 a, pmt_uint64 b => a =? b
  | pmt_real a, pmt_real b => f64_eqb a b
  | pmt_complex a b, pmt_complex c d => f64_eqb a c && f64_eqb b d
  | _, _ => false
  end.

Definition pmt_eq (x y : Z) : bool := x =? y.

Definition pmt_eqv (x y : Z) : M bool :=
  if x =? y then mret true
  else ox ← deref x; oy ← deref y; mret (same_value ox oy).

(** Comparison of the elements of two vectors of the same length. *)
Fixpoint all_equal (equal : Z -> Z -> M bool) (l1 l2 : list Z) : M bool :=
  match l1, l2 with
  | x :: l1, y :: l2 => e ← equal x y; if e : bool then all_equal equal l1 l2 else mret false
  | _, _ => mret true
  end.

(** [memcmp] decides nothing in the uniform case: both branches return true. *)
Fixpoint equal_from (fuel : nat) (x y : Z) : M bool :=
  match fuel with
  | O => throw diverges
  | S fuel =>
      e ← pmt_eqv x y;
      if e : bool then mret true
      else
        ox ← deref x;
        oy ← deref y;
        match ox, oy with
        | pmt_pair a d, pmt_pair a' d' =>
            e ← equal_from fuel a a';
            if e : bool then equal_from fuel d d' else mret false
        | pmt_vector l, pmt_vector l' | pmt_tuple l, pmt_tuple l' =>
            if (length l =? length l')%nat then all_equal (equal_from fuel) l l' else mret false
        | pmt_uniform_vector _ l, pmt_uniform_vector _ l' => mret (length l =? length l')%nat
        | _, _ => mret false
        end
  end.
Definition pmt_equal (x y : Z) : M bool := bounded (fun n => equal_from n x y).

(** ** Lists *)

Fixpoint length_from (fuel : nat) (x it len : Z) : M Z :=
  match fuel with
  | O => throw diverges
  | S fuel =>
      b ← pmt_is_pair it;
      if b : bool then d ← pmt_cdr it; length_from fuel x d (len + 1)
      else if pmt_is_null it then mret len else throw (wrong_type x)
  end.
Definition pmt_length (x : Z) : M Z :=
  o ← deref x;
  match o with
  | pmt_vector l | pmt_tuple l | pmt_uniform_vector _ l => mret (Z.of_nat (length l))
  | pmt_null => mret 0
  | pmt_pair _ d => bounded (fun n => length_from n x d 1)
  | _ => throw (wrong_type x)
  end.

(** [pmt_assq], [pmt_assv], [pmt_assoc] differ in the comparison only. *)
Fixpoint assoc_from (same : Z -> Z -> M bool) (fuel : nat) (obj alist : Z) : M Z :=
  match fuel with
  | O => throw diverges
  | S fuel =>
      b ← pmt_is_pair alist;
      if b : bool then
        p ← pmt_car alist;
        c ← pmt_is_pair p;
        if c : bool then
          k ← pmt_car p;
          e ← same obj k;
          if e : bool then mret p else d ← pmt_cdr alist; assoc_from same fuel obj d
        else mret PMT_F
      else mret PMT_F
  end.
Definition pmt_assq (obj alist : Z) : M Z :=
  bounded (fun n => assoc_from (fun x y => mret (pmt_eq x y)) n obj alist).
Definition pmt_assv (obj alist : Z) : M Z := bounded (fun n => assoc_from pmt_eqv n obj alist).
Definition pmt_assoc (obj alist : Z) : M Z := bounded (fun n => assoc_from pmt_equal n obj alist).

Fixpoint member_from (same : Z -> Z -> M bool) (fuel : nat) (obj list : Z) : M Z :=
  match fuel with
  | O => throw diverges
  | S fuel =>
      b ← pmt_is_pair list;
      if b : bool then
        a ← pmt_car list;
        e ← same obj a;
        if e : bool then mret list else d ← pmt_cdr list; member_from same fuel obj d
      else mret PMT_F
  end.
Definition pmt_memq (obj list : Z) : M Z :=
  bounded (fun n => member_from (fun x y => mret (pmt_eq x y)) n obj list).
Definition pmt_memv (obj list : Z) : M Z := bounded (fun n => member_from pmt_eqv n obj list).
Definition pmt_member (obj list : Z) : M Z := bounded (fun n => member_from pmt_equal n obj list).

Fixpoint reverse_from (fuel : nat) (listx list r : Z) : M Z :=
  match fuel with
  | O => throw diverges
  | S fuel =>
      b ← pmt_is_pair list;
      if b : bool then
        a ← pmt_car list; r ← pmt_cons a r; d ← pmt_cdr list; reverse_from fuel listx d r
      else if pmt_is_null list then mret r else throw (wrong_type listx)
  end.
Definition pmt_reverse (listx : Z) : M Z := bounded (fun n => reverse_from n listx listx PMT_NIL).
Definition pmt_reverse_x := pmt_reverse.

Fixpoint map_from (proc : Z -> M Z) (fuel : nat) (list r : Z) : M Z :=
  match fuel with
  | O => throw diverges
  | S fuel =>
      b ← pmt_is_pair list;
      if b : bool then
        a ← pmt_car list; a ← proc a; r ← pmt_cons a r; d ← pmt_cdr list; map_from proc fuel d r
      else pmt_reverse_x r
  end.
Definition pmt_map (proc : Z -> M Z) (list : Z) : M Z :=
  bounded (fun n => map_from proc n list PMT_NIL).

(** The loop of [pmt_nthcdr] counts [n] down. *)
Fixpoint nthcdr_from (n : nat) (list : Z) : M Z :=
  match n with
  | O => mret list
  | S n =>
      b ← pmt_is_pair list;
      if b : bool then d ← pmt_cdr list; nthcdr_from n d
      else if pmt_is_null list then mret PMT_NIL else throw (wrong_type list)
  end.
Definition pmt_nthcdr (n list : Z) : M Z :=
  b ← pmt_is_pair list;
  if b || pmt_is_null list then nthcdr_from (Z.to_nat n) list else throw (wrong_type list).
Definition pmt_nth (n list : Z) : M Z :=
  t ← pmt_nthcdr n list;
  b ← pmt_is_pair t;
  if b : bool then pmt_car t else mret PMT_NIL.

Fixpoint subsetp_from (fuel : nat) (list1 list2 : Z) : M bool :=
  match fuel with
  | O => throw diverges
  | S fuel =>
      b ← pmt_is_pair list1;
      if b : bool then
        p ← pmt_car list1;
        m ← pmt_memv p list2;
        if pmt_is_false m then mret false else d ← pmt_cdr list1; subsetp_from fuel d list2
      else mret true
  end.
Definition pmt_subsetp (list1 list2 : Z) : M bool := bounded (fun n => subsetp_from n list1 list2).

(** [pmt_list1] to [pmt_list6]. *)
Fixpoint pmt_list (l : list Z) : M Z :=
  match l with [] => mret PMT_NIL | x :: l => d ← pmt_list l; pmt_cons x d end.
Definition pmt_list_add (list item : Z) : M Z :=
  r ← pmt_reverse list; r ← pmt_cons item r; pmt_reverse r.

Fixpoint take_cars (n : nat) (y : Z) : M (list Z) :=
  match n with
  | O => mret []
  | S n => a ← pmt_car y; d ← pmt_cdr y; l ← take_cars n d; mret (a :: l)
  end.
Definition pmt_to_tuple (x : Z) : M Z :=
  o ← deref x;
  match o with
  | pmt_tuple _ => mret x
  | _ =>
      len ← pmt_length x;
      match o with
      | pmt_vector l => pmt_make_tuple l
      | pmt_pair _ _ => l ← take_cars (Z.to_nat len) x; pmt_make_tuple l
      | _ => throw (wrong_type x)
      end
  end.

(** ** Dictionaries *)

Definition pmt_is_dict (obj : Z) : M bool :=
  b ← pmt_is_pair obj; mret (pmt_is_null obj || b).
Definition pmt_make_dict : Z := PMT_NIL.
Definition pmt_acons (x y a : Z) : M Z := p ← pmt_cons x y; pmt_cons p a.

Fixpoint dict_delete_from (fuel : nat) (dict key : Z) : M Z :=
  match fuel with
  | O => throw diverges
  | S fuel =>
      if pmt_is_null dict then mret dict
      else
        k ← pmt_caar dict;
        e ← pmt_eqv k key;
        if e : bool then pmt_cdr dict
        else
          a ← pmt_car dict; d ← pmt_cdr dict; d ← dict_delete_from fuel d key; pmt_cons a d
  end.
Definition pmt_dict_delete (dict key : Z) : M Z := bounded (fun n => dict_delete_from n dict key).

Definition pmt_dict_ref (dict key not_found : Z) : M Z :=
  p ← pmt_assv key dict;
  b ← pmt_is_pair p;
  if b : bool then pmt_cdr p else mret not_found.
Definition pmt_dict_has_key (dict key : Z) : M bool := p ← pmt_assv key dict; pmt_is_pair p.
Definition pmt_dict_add (dict key value : Z) : M Z :=
  if pmt_is_null dict then pmt_acons key value PMT_NIL
  else
    b ← pmt_dict_has_key dict key;
    if b : bool then d ← pmt_dict_delete dict key; pmt_acons key value d
    else pmt_acons key value dict.

Definition check_dict {A} (dict : Z) (m : M A) : M A :=
  b ← pmt_is_dict dict; if b : bool then m else throw (wrong_type dict).
Definition pmt_dict_items (dict : Z) : M Z := check_dict dict (mret dict).
Definition pmt_dict_keys (dict : Z) : M Z := check_dict dict (pmt_map pmt_car dict).
Definition pmt_dict_values (dict : Z) : M Z := check_dict dict (pmt_map pmt_cdr dict).

(** ** Running the monad *)

Lemma bind_ok {A B} (m : M A) (k : A -> M B) s a s' : m s = Ok (a, s') -> mbind k m s = k a s'.
Proof. intros H. unfold mbind, M_bind. by rewrite H. Qed.

Lemma bind_throw {A B} (m : M A) (k : A -> M B) s e : m s = Throw e -> mbind k m s = Throw e.
Proof. intros H. unfold mbind, M_bind. by rewrite H. Qed.

Lemma deref_ok s p o : objs s !! p = Some o -> deref p s = Ok (o, s).
Proof. intros H. unfold deref. by rewrite H. Qed.

Lemma test_ok f s p o : objs s !! p = Some o -> test f p s = Ok (f o, s).
Proof. intros H. unfold test. by rewrite (bind_ok _ _ _ _ _ (deref_ok _ _ _ H)). Qed.

Lemma car_ok s p a d : objs s !! p = Some (pmt_pair a d) -> pmt_car p s = Ok (a, s).
Proof. intros H. unfold pmt_car. by rewrite (bind_ok _ _ _ _ _ (deref_ok _ _ _ H)). Qed.

Lemma cdr_ok s p a d : objs s !! p = Some (pmt_pair a d) -> pmt_cdr p s = Ok (d, s).
Proof. intros H. unfold pmt_cdr. by rewrite (bind_ok _ _ _ _ _ (deref_ok _ _ _ H)). Qed.

(** One call of a known result; a type test, a [deref], a [car] or [cdr] of a
    known object. *)
Ltac call H := rewrite (bind_ok _ _ _ _ _ H); cbv beta iota.
Ltac tests H :=
  first [ call (test_ok is_pair _ _ _ H) | call (deref_ok _ _ _ H)
        | call (car_ok _ _ _ _ H) | call (cdr_ok _ _ _ _ H) ];
  cbn [is_pair].

(** ** Well formed stores *)

Definition refs (o : pmt_base) : list Z :=
  match o with
  | pmt_symbol _ (Some n) => [n]
  | pmt_pair a d => [a; d]
  | pmt_vector l | pmt_tuple l => l
  | _ => []
  end.

Definition hash_of (name : list Z) : Z := hash_string name mod SYMBOL_HASH_TABLE_SIZE.

(** The symbols of a bucket. *)
Fixpoint bucket_list (s : store) (p : option Z) (l : list Z) : Prop :=
  match l with
  | [] => p = None
  | x :: l => p = Some x /\ exists n next, objs s !! x = Some (pmt_symbol n next) /\
                                  bucket_list s next l
  end.

(** The constants are there, nothing dangles, and every symbol is in the hash
    table, where no two have the same name. *)
Record wf (s : store) : Prop := {
  wf_true : objs s !! PMT_T = Some pmt_bool;
  wf_false : objs s !! PMT_F = Some pmt_bool;
  wf_nil : objs s !! PMT_NIL = Some pmt_null;
  wf_eof : is_Some (objs s !! PMT_EOF);
  wf_free : forall p, is_Some (objs s !! p) -> p < free s;
  wf_refs : forall p o q, objs s !! p = Some o -> q ∈ refs o -> is_Some (objs s !! q);
  wf_buckets : forall h, exists l, bucket_list s (s_symbol_hash_table s !! h) l /\
    (length l <= size (objs s))%nat /\
    forall p n next, objs s !! p = Some (pmt_symbol n next) -> hash_of n = h <-> p ∈ l;
  wf_names : forall p q n next next', objs s !! p = Some (pmt_symbol n next) ->
    objs s !! q = Some (pmt_symbol n next') -> p = q
}.

(** A call may allocate objects; the old ones do not change. *)
Record grows (s s' : store) : Prop := {
  grows_objs : objs s ⊆ objs s';
  grows_wf : wf s'
}.

Lemma grows_refl s : wf s -> grows s s.
Proof. by split. Qed.

Lemma grows_trans s1 s2 s3 : grows s1 s2 -> grows s2 s3 -> grows s1 s3.
Proof. intros [] []. split; [by etrans|done]. Qed.

Lemma grows_lookup s s' p o : grows s s' -> objs s !! p = Some o -> objs s' !! p = Some o.
Proof. intros [H _] Hp. by eapply lookup_weaken. Qed.

Lemma bucket_list_ext s s' p l :
  (forall x n next, objs s !! x = Some (pmt_symbol n next) -> exists next',
     objs s' !! x = Some (pmt_symbol n next') /\ next' = next) ->
  bucket_list s p l -> bucket_list s' p l.
Proof.
  intros He. revert p. induction l as [|x l IH]; intros p; [done|].
  intros [-> (n & next & Hx & Hl)]. split; [done|].
  destruct (He x n next Hx) as (? & ? & ->). eauto.
Qed.

(** Allocating anything but a symbol. *)
Lemma wf_alloc s o :
  wf s -> is_symbol o = false -> (forall q, q ∈ refs o -> is_Some (objs s !! q)) ->
  exists s', alloc o s = Ok (free s, s') /\ grows s s' /\ objs s' !! free s = Some o /\
             objs s !! free s = None.
Proof.
  intros Hw Ho Hr. eexists. split; [reflexivity|].
  assert (objs s !! free s = None) as Hfresh.
  { destruct (objs s !! free s) eqn:E; [|done].
    pose proof (wf_free _ Hw (free s) ltac:(by eexists)). lia. }
  assert (forall p o', objs s !! p = Some o' -> <[free s := o]> (objs s) !! p = Some o') as Hold.
  { intros p o' Hp. rewrite lookup_insert_ne; [done|]. intros <-. congruence. }
  assert (forall p n next, <[free s := o]> (objs s) !! p = Some (pmt_symbol n next) ->
            objs s !! p = Some (pmt_symbol n next)) as Hsym.
  { intros p n next Hp. apply lookup_insert_Some in Hp as [[<- ->]|[_ ?]]; [done|done]. }
  split; [split|split; [cbn [objs]; apply lookup_insert_eq|done]].
  - by apply insert_subseteq.
  - split; cbn [objs free s_symbol_hash_table]; auto using wf_true, wf_false, wf_nil.
    + destruct (wf_eof _ Hw). eauto.
    + intros p [o' Hp]. apply lookup_insert_Some in Hp as [[<- _]|[_ Hp]]; [lia|].
      pose proof (wf_free _ Hw p ltac:(by eexists)). lia.
    + intros p o' q Hp Hq. apply lookup_insert_Some in Hp as [[_ <-]|[_ Hp]].
      * destruct (Hr q Hq) as [? ?]. eauto.
      * destruct (wf_refs _ Hw _ _ _ Hp Hq) as [? ?]. eauto.
    + intros h. destruct (wf_buckets _ Hw h) as (l & Hl & Hlen & Hin). exists l.
      split; [|split].
      * eapply bucket_list_ext; [|exact Hl]. cbn [objs]. eauto.
      * rewrite map_size_insert_None by done. lia.
      * intros p n next Hp. eapply Hin. eauto.
    + intros p q n next next' Hp Hq. eapply wf_names; eauto.
Qed.

(** ** Symbols *)

Lemma find_symbol_spec s name fuel p l :
  bucket_list s p l -> (length l <= fuel)%nat ->
  exists r, find_symbol fuel name p s = Ok (r, s) /\
  match r with
  | Some x => x ∈ l /\ exists next, objs s !! x = Some (pmt_symbol name next)
  | None => forall x next, x ∈ l -> objs s !! x <> Some (pmt_symbol name next)
  end.
Proof.
  revert fuel p. induction l as [|x l IH]; intros fuel p Hl Hf; cbn [bucket_list] in Hl.
  { subst. exists None. destruct fuel; (split; [done|]); set_solver. }
  destruct Hl as [-> (n & next & Hx & Hl)]. destruct fuel as [|fuel]; [cbn in Hf; lia|].
  cbn [find_symbol]. call (deref_ok _ _ _ Hx). destruct (decide (n = name)) as [->|Hn].
  - exists (Some x). split; [done|]. split; [set_solver|eauto].
  - destruct (IH fuel next Hl ltac:(cbn in Hf; lia)) as (r & -> & Hr). exists r. split; [done|].
    destruct r as [y|].
    + destruct Hr as [? ?]. split; [set_solver|done].
    + intros y nx Hy. apply elem_of_cons in Hy as [->|Hy]; [congruence|by apply Hr].
Qed.

Lemma bucket_list_unique s p l1 l2 : bucket_list s p l1 -> bucket_list s p l2 -> l1 = l2.
Proof.
  revert p l2. induction l1 as [|x l1 IH]; intros p [|y l2]; cbn [bucket_list]; try done.
  - by intros -> [? _].
  - by intros [-> _] ?.
  - intros [-> (n & next & Hx & H1)] [[= <-] (n' & next' & Hy & H2)].
    rewrite Hx in Hy. injection Hy as <- <-. f_equal. by eapply IH.
Qed.

(** Interning finds the symbol of that name, or makes the only one. *)
Lemma intern_spec s name :
  wf s -> exists p s' next, pmt_intern name s = Ok (p, s') /\ grows s s' /\
    objs s' !! p = Some (pmt_symbol name next) /\
    forall q next', objs s !! q = Some (pmt_symbol name next') -> q = p /\ s' = s.
Proof.
  intros Hw. unfold pmt_intern, pmt_string_to_symbol. fold (hash_of name).
  destruct (wf_buckets _ Hw (hash_of name)) as (l & Hl & Hlen & Hin).
  destruct (find_symbol_spec s name (S (size (objs s))) _ l Hl ltac:(lia)) as (r & Hr & Hspec).
  call (eq_refl : bucket (hash_of name) s = Ok (s_symbol_hash_table s !! hash_of name, s)).
  call (Hr : bounded (fun n => find_symbol n name (s_symbol_hash_table s !! hash_of name)) s = _).
  destruct r as [x|].
  { destruct Hspec as [Hx [next Hn]]. exists x, s, next. split; [done|].
    split; [by apply grows_refl|]. split; [done|]. intros q next' Hq. split; [|done].
    eapply wf_names; eauto. }
  set (o := pmt_symbol name (s_symbol_hash_table s !! hash_of name)).
  assert (objs s !! free s = None) as Hfresh.
  { destruct (objs s !! free s) eqn:E; [|done].
    pose proof (wf_free _ Hw (free s) ltac:(by eexists)). lia. }
  assert (forall q next, objs s !! q <> Some (pmt_symbol name next)) as Hnone.
  { intros q next Hq. eapply Hspec; [|exact Hq]. by eapply Hin. }
  eexists (free s), _, _. split; [reflexivity|]. cbn [objs].
  assert (forall p o', objs s !! p = Some o' -> <[free s := o]> (objs s) !! p = Some o') as Hold.
  { intros p o' Hp. rewrite lookup_insert_ne; [done|]. intros <-. congruence. }
  split; [split|split; [apply lookup_insert_eq|intros q next' Hq; by destruct (Hnone q next')]].
  { by apply insert_subseteq. }
  assert (forall p l', bucket_list s p l' ->
    bucket_list {| objs := <[free s := o]> (objs s); free := free s + 1;
      s_symbol_hash_table := <[hash_of name := free s]> (s_symbol_hash_table s) |} p l') as Hext.
  { intros p l'. apply bucket_list_ext. cbn [objs]. eauto. }
  split; cbn [objs Pmt.free s_symbol_hash_table]; auto using wf_true, wf_false, wf_nil.
  - destruct (wf_eof _ Hw). eauto.
  - intros p [o' Hp]. apply lookup_insert_Some in Hp as [[<- _]|[_ Hp]]; [lia|].
    pose proof (wf_free _ Hw p ltac:(by eexists)). lia.
  - intros p o' q Hp Hq. apply lookup_insert_Some in Hp as [[_ <-]|[_ Hp]].
    + subst o. cbn in Hq. destruct (s_symbol_hash_table s !! hash_of name) as [h|] eqn:Eh; [|set_solver].
      apply list_elem_of_singleton in Hq as ->. destruct l as [|y l]; [by cbn in Hl|].
      destruct Hl as [[= <-] (n & nx & Hy & _)]. eauto.
    + destruct (wf_refs _ Hw _ _ _ Hp Hq) as [? ?]. eauto.
  - intros h. destruct (decide (h = hash_of name)) as [->|Hne].
    + exists (free s :: l). split; [|split].
      * rewrite lookup_insert_eq. split; [done|]. exists name, (s_symbol_hash_table s !! hash_of name).
        split; [apply lookup_insert_eq|by apply Hext].
      * rewrite map_size_insert_None by done. cbn. lia.
      * intros p n next Hp. rewrite elem_of_cons.
        apply lookup_insert_Some in Hp as [[<- [= <- <-]]|[Hne Hp]]; [by split; auto|].
        rewrite (Hin _ _ _ Hp). split; [auto|]. intros [->|?]; [done|done].
    + rewrite lookup_insert_ne by done. destruct (wf_buckets _ Hw h) as (l' & Hl' & Hlen' & Hin').
      exists l'. split; [by apply Hext|]. split; [rewrite map_size_insert_None by done; lia|].
      intros p n next Hp. apply lookup_insert_Some in Hp as [[<- [= <- <-]]|[_ Hp]]; [|by eapply Hin'].
      split; [done|]. intros Hp. exfalso. clear -Hp Hl' Hfresh.
      revert Hl'. generalize (s_symbol_hash_table s !! h). induction l' as [|x l' IH]; [set_solver|].
      intros p [-> (n & next & Hx & Hl)]. apply elem_of_cons in Hp as [<-|Hp]; [congruence|eauto].
  - intros p q n next next' Hp Hq.
    apply lookup_insert_Some in Hp as [[<- [= <- <-]]|[_ Hp]];
      apply lookup_insert_Some in Hq as [[<- Hq]|[_ Hq]]; try done.
    + by destruct (Hnone _ _ Hq).
    + injection Hq as -> <-. by destruct (Hnone _ _ Hp).
    + by eapply wf_names.
Qed.

(** ** Mutation, and the reachable stores *)

Definition mutable (o : pmt_base) : bool :=
  match o with pmt_pair _ _ | pmt_vector _ | pmt_uniform_vector _ _ | pmt_any _ => true | _ => false end.

Lemma wf_put s p o o' :
  wf s -> objs s !! p = Some o -> mutable o = true -> mutable o' = true ->
  (forall q, q ∈ refs o' -> is_Some (objs s !! q)) -> wf (put p o' s).
Proof.
  intros Hw Hp Ho Ho' Hr.
  assert (forall q o2, objs s !! q = Some o2 -> mutable o2 = false -> <[p := o']> (objs s) !! q = Some o2)
    as Hold by (intros q o2 Hq H2; rewrite lookup_insert_ne; [done|]; intros <-; congruence).
  assert (forall q n next, <[p := o']> (objs s) !! q = Some (pmt_symbol n next) ->
            objs s !! q = Some (pmt_symbol n next)) as Hsym.
  { intros q n next Hq. by apply lookup_insert_Some in Hq as [[<- ->]|[_ ?]]. }
  assert (forall q, is_Some (objs s !! q) -> is_Some (<[p := o']> (objs s) !! q)) as Hdom.
  { intros q Hq. destruct (decide (p = q)) as [<-|?]; [rewrite lookup_insert_eq; by eexists|].
    by rewrite lookup_insert_ne. }
  split; cbn [put objs free s_symbol_hash_table].
  - by apply Hold; [apply wf_true|].
  - by apply Hold; [apply wf_false|].
  - by apply Hold; [apply wf_nil|].
  - apply Hdom, (wf_eof _ Hw).
  - intros q [o2 Hq]. apply (wf_free _ Hw).
    apply lookup_insert_Some in Hq as [[<- _]|[_ Hq]]; [by exists o|by exists o2].
  - intros q o2 r Hq Hin. apply Hdom. apply lookup_insert_Some in Hq as [[_ <-]|[_ Hq]]; [auto|].
    by eapply wf_refs.
  - intros h. destruct (wf_buckets _ Hw h) as (l & Hl & Hlen & Hin). exists l. split; [|split].
    + eapply bucket_list_ext; [|exact Hl]. cbn [put objs]. intros x n next Hx. eauto.
    + rewrite map_size_insert_Some by eauto. done.
    + intros q n next Hq. eapply Hin. eauto.
  - intros q r n next next' Hq Hr'. eapply wf_names; eauto.
Qed.

Lemma wf_initial : wf initial_store.
Proof.
  assert (forall p o, objs initial_store !! p = Some o ->
    (p = 1 /\ o = pmt_bool) \/ (p = 2 /\ o = pmt_bool) \/ (p = 3 /\ o = pmt_null) \/
    (p = 4 /\ o = pmt_pair 3 3)) as Hobj.
  { intros p o. unfold initial_store. cbn [objs]. intros Hp.
    repeat (apply lookup_insert_Some in Hp as [[<- <-]|[_ Hp]]; [by auto|]).
    by rewrite lookup_empty in Hp. }
  split; try reflexivity.
  - by eexists.
  - intros p [o Hp]. apply Hobj in Hp. cbn. lia.
  - intros p o q Hp Hq. apply Hobj in Hp as [[-> ->]|[[-> ->]|[[-> ->]|[-> ->]]]]; cbn in Hq; set_solver.
  - intros h. exists []. split; [|split; [cbn; lia|]]; [done|].
    intros p n next Hp. apply Hobj in Hp. intuition discriminate.
  - intros p q n next next' Hp. apply Hobj in Hp. intuition discriminate.
Qed.

(** The calls that make or change objects. *)
Inductive pmt_call :=
| Intern (name : list Z) | FromLong (x : Z) | FromUint64 (x : Z) | FromDouble (x : Z)
| MakeRectangular (re im : Z) | Cons (x y : Z) | MakeVector (k fill : Z) | MakeTuple (l : list Z)
| InitUnv (t : unv_type) (data : list Z) | MakeAny (any : Z)
| SetCar (p x : Z) | SetCdr (p x : Z) | VectorSet (v k x : Z) | VectorFill (v x : Z)
| UnvSet (t : unv_type) (v k x : Z) | AnySet (p any : Z).

Definition run_call (c : pmt_call) : M Z :=
  match c with
  | Intern name => pmt_intern name
  | FromLong x => pmt_from_long x
  | FromUint64 x => pmt_from_uint64 x
  | FromDouble x => pmt_from_double x
  | MakeRectangular re im => pmt_make_rectangular re im
  | Cons x y => pmt_cons x y
  | MakeVector k fill => pmt_make_vector k fill
  | MakeTuple l => pmt_make_tuple l
  | InitUnv t data => pmt_init_unv t data
  | MakeAny any => pmt_make_any any
  | SetCar p x => _ ← pmt_set_car p x; mret p
  | SetCdr p x => _ ← pmt_set_cdr p x; mret p
  | VectorSet v k x => _ ← pmt_vector_set v k x; mret v
  | VectorFill v x => _ ← pmt_vector_fill v x; mret v
  | UnvSet t v k x => _ ← pmt_unv_set t v k x; mret v
  | AnySet p any => _ ← pmt_any_set p any; mret p
  end.

(** The objects a call is given. *)
Definition arguments (c : pmt_call) : list Z :=
  match c with
  | Cons x y => [x; y]
  | MakeVector _ x => [x]
  | MakeTuple l => l
  | SetCar p x | SetCdr p x | VectorSet p _ x | VectorFill p x => [p; x]
  | UnvSet _ p _ _ | AnySet p _ => [p]
  | _ => []
  end.

Definition valid_call (s : store) (c : pmt_call) : Prop :=
  forall p, p ∈ arguments c -> is_Some (objs s !! p).

Inductive reachable : store -> Prop :=
| reachable_initial : reachable initial_store
| reachable_call s c p s' :
    reachable s -> valid_call s c -> run_call c s = Ok (p, s') -> reachable s'.

(** A call succeeds on a well formed store, or rejects its arguments. *)
Definition accepts (s : store) (m : M Z) : Prop :=
  (exists p s', m s = Ok (p, s') /\ wf s' /\ is_Some (objs s' !! p)) \/
  (exists q, m s = Throw (wrong_type q) \/ m s = Throw (out_of_range q)).

Lemma alloc_accepts s o :
  wf s -> is_symbol o = false -> (forall q, q ∈ refs o -> is_Some (objs s !! q)) -> accepts s (alloc o).
Proof.
  intros Hw Ho Hr. destruct (wf_alloc s o Hw Ho Hr) as (s' & E & [_ Hw'] & Hp & _).
  left. eauto 10.
Qed.

Lemma put_accepts s p o o' :
  wf s -> objs s !! p = Some o -> mutable o = true -> mutable o' = true ->
  (forall q, q ∈ refs o' -> is_Some (objs s !! q)) -> accepts s (_ ← update p o'; mret p).
Proof.
  intros Hw Hp Ho Ho' Hr. left. exists p, (put p o' s). split; [done|].
  split; [by eapply wf_put|]. cbn [put objs]. rewrite lookup_insert_eq. by eexists.
Qed.

Lemma deref_accepts {A} s p o (body : pmt_base -> M A) (k : A -> M Z) :
  objs s !! p = Some o -> accepts s (x ← body o; k x) -> accepts s (x ← (o ← deref p; body o); k x).
Proof.
  intros Hp Ha. assert ((x ← (o ← deref p; body o); k x) s = (x ← body o; k x) s) as E.
  { unfold mbind, M_bind. by rewrite (deref_ok _ _ _ Hp). }
  unfold accepts in *. by rewrite E.
Qed.

(** Reject a call on an object of the wrong type. *)
Ltac rejects := right; eexists; left; reflexivity.

Lemma call_accepts s c : wf s -> valid_call s c -> accepts s (run_call c).
Proof.
  intros Hw Hv. unfold valid_call in Hv.
  assert (forall l i x, (forall q, q ∈ l -> is_Some (objs s !! q)) -> is_Some (objs s !! x) ->
    forall q, q ∈ l.[i <- x] -> is_Some (objs s !! q)) as Hset.
  { intros l i x Hl Hx q Hq. unfold aset in Hq. case_if; [auto|].
    apply list_elem_of_lookup in Hq as [j Hj].
    apply list_lookup_insert_Some in Hj as [(_ & -> & _)|[_ Hj]]; [done|].
    apply Hl. by eapply list_elem_of_lookup_2. }
  destruct c as [name|x|x|x|re im|x y|k fill|l|t data|any|p x|p x|p k x|p x|t p k x|p any];
    cbn [arguments run_call] in *.
  1:{ destruct (intern_spec s name Hw) as (p & s' & next & E & [_ Hw'] & Hp & _). left. eauto 10. }
  1-9: try (apply alloc_accepts; [done|done|]; cbn [refs]; try set_solver).
  1:{ intros q Hq. apply elem_of_replicate in Hq as [-> _]. apply Hv. set_solver. }
  all: destruct (Hv p ltac:(set_solver)) as [o Hp];
    pose proof (fun q => wf_refs _ Hw _ _ q Hp) as Href; apply (deref_accepts s p o _ _ Hp).
  all: destruct o as [| |n nx|v|v|v|re im|a d|l|l|t' l|v]; try rejects; cbn [refs] in Href.
  - apply (put_accepts s p (pmt_pair a d)); auto. cbn [refs]. set_solver.
  - apply (put_accepts s p (pmt_pair a d)); auto. cbn [refs]. set_solver.
  - destruct (Z.of_nat (length l) <=? k); [right; eexists; right; reflexivity|].
    apply (put_accepts s p (pmt_vector l)); auto. cbn [refs]. apply Hset; [auto|set_solver].
  - apply (put_accepts s p (pmt_vector l)); auto. cbn [refs].
    intros q Hq. apply elem_of_replicate in Hq as [-> _]. set_solver.
  - destruct (decide (t' = t)) as [->|]; [|rejects].
    destruct (Z.of_nat (length l) <=? k); [right; eexists; right; reflexivity|].
    apply (put_accepts s p (pmt_uniform_vector t l)); auto.
  - apply (put_accepts s p (pmt_any v)); auto.
Qed.

Lemma reachable_wf s : reachable s -> wf s.
Proof.
  induction 1 as [|s c p s' _ Hw Hv E]; [apply wf_initial|].
  destruct (call_accepts s c Hw Hv) as [(p' & s2 & E' & Hw' & _)|[q [E'|E']]]; congruence.
Qed.

(** C30. The object store is type safe under the sixteen calls that make and
    change objects ([pmt_call]), in any order, on any objects made before: the
    constants stay what they are, no pointer dangles, a call on arguments it
    accepts yields an object, and the only exceptions are wrong types and indices
    out of range.  Two symbols have the same name exactly if they are the same
    object.  The functions that walk along lists are not among the calls: on a
    list that [pmt_set_cdr] has made cyclic they do not end. *)
Theorem pmt_store_safe s : reachable s ->
  objs s !! PMT_T = Some pmt_bool /\ objs s !! PMT_F = Some pmt_bool /\
  objs s !! PMT_NIL = Some pmt_null /\
  (forall p o q, objs s !! p = Some o -> q ∈ refs o -> is_Some (objs s !! q)) /\
  (forall c, valid_call s c -> accepts s (run_call c)) /\
  (forall p q n n' nx nx', objs s !! p = Some (pmt_symbol n nx) ->
     objs s !! q = Some (pmt_symbol n' nx') -> (pmt_eq p q = true <-> n = n')).
Proof.
  intros Hr. pose proof (reachable_wf s Hr) as Hw. split_and!; try apply Hw.
  - intros c. by apply call_accepts.
  - intros p q n n' nx nx' Hp Hq. unfold pmt_eq. rewrite Z.eqb_eq. split; [congruence|].
    intros ->. by eapply wf_names.
Qed.

(** Interning a name gives the symbol of that name, the same object every
    time, and makes one only if there is none. *)
Theorem pmt_intern_spec s name : reachable s ->
  exists p s' next, pmt_intern name s = Ok (p, s') /\ reachable s' /\
    objs s' !! p = Some (pmt_symbol name next) /\ pmt_symbol_to_string p s' = Ok (name, s') /\
    pmt_intern name s' = Ok (p, s') /\
    forall q next', objs s !! q = Some (pmt_symbol name next') -> q = p /\ s' = s.
Proof.
  intros Hr. destruct (intern_spec s name (reachable_wf s Hr)) as (p & s' & next & E & G & Hp & Hold).
  assert (reachable s') as Hr' by (refine (reachable_call s (Intern name) p s' Hr _ E); set_solver).
  exists p, s', next. split_and!; auto.
  - unfold pmt_symbol_to_string. by rewrite (bind_ok _ _ _ _ _ (deref_ok _ _ _ Hp)).
  - destruct (intern_spec s' name (grows_wf _ _ G)) as (p' & s2 & next' & -> & _ & _ & Hold').
    by destruct (Hold' _ _ Hp) as [-> ->].
Qed.

(** ** Equality of objects *)

Definition eqvb (s : store) (x y : Z) : bool :=
  (x =? y) || match objs s !! x, objs s !! y with Some a, Some b => same_value a b | _, _ => false end.

Lemma eqv_ok s x y : is_Some (objs s !! x) -> is_Some (objs s !! y) -> pmt_eqv x y s = Ok (eqvb s x y, s).
Proof.
  intros [a Hx] [b Hy]. unfold pmt_eqv, eqvb. rewrite Hx, Hy. destruct (x =? y); [done|].
  call (deref_ok _ _ _ Hx). by call (deref_ok _ _ _ Hy).
Qed.

Lemma f64_eqb_sym x y : f64_eqb x y = f64_eqb y x.
Proof.
  unfold f64_eqb. rewrite (Z.eqb_sym x y), (andb_comm (negb (f64_is_nan x))).
  by rewrite (andb_comm (x .& 0x7fffffffffffffff =? 0)).
Qed.

Lemma f64_eqb_trans x y z : f64_eqb x y = true -> f64_eqb y z = true -> f64_eqb x z = true.
Proof.
  unfold f64_eqb. rewrite !andb_true_iff, !orb_true_iff, !andb_true_iff, !Z.eqb_eq.
  intros [[Hx Hy] [->|[? ?]]] [[_ Hz] [->|[? ?]]]; split; auto.
Qed.

Lemma same_value_sym a b : same_value a b = same_value b a.
Proof.
  destruct a, b; try done; cbn [same_value];
    first [apply Z.eqb_sym | apply f64_eqb_sym | by rewrite (f64_eqb_sym re), (f64_eqb_sym im)].
Qed.

Lemma same_value_trans a b c : same_value a b = true -> same_value b c = true -> same_value a c = true.
Proof.
  destruct a, b, c; try done; cbn [same_value]; rewrite ?andb_true_iff, ?Z.eqb_eq.
  - congruence.
  - congruence.
  - apply f64_eqb_trans.
  - intros [? ?] [? ?]. split; by eapply f64_eqb_trans.
Qed.

#[export] Instance eqvb_equivalence s : Equivalence (fun x y => eqvb s x y = true).
Proof.
  unfold eqvb. split.
  - intros x. by rewrite Z.eqb_refl.
  - intros x y. rewrite !orb_true_iff, !Z.eqb_eq. intros [->|Hv]; [by left|right].
    destruct (objs s !! x), (objs s !! y); try done. by rewrite same_value_sym.
  - intros x y z. rewrite !orb_true_iff, !Z.eqb_eq. intros [->|H1] [<-|H2]; auto.
    right. destruct (objs s !! x), (objs s !! y), (objs s !! z); try done.
    by eapply same_value_trans.
Qed.

Lemma eqvb_sym s x y : eqvb s x y = eqvb s y x.
Proof. apply eq_true_iff_eq. split; apply (@Equivalence_Symmetric _ _ (eqvb_equivalence s)). Qed.

(** Objects keep their identity when the store grows. *)
Lemma eqvb_grows s s' x y :
  grows s s' -> is_Some (objs s !! x) -> is_Some (objs s !! y) -> eqvb s' x y = eqvb s x y.
Proof.
  intros Hg [a Hx] [b Hy]. unfold eqvb.
  by rewrite Hx, Hy, (grows_lookup _ _ _ _ Hg Hx), (grows_lookup _ _ _ _ Hg Hy).
Qed.

(** ** Proper lists *)

Fixpoint is_list (s : store) (x : Z) (l : list Z) : Prop :=
  match l with
  | [] => x = PMT_NIL
  | a :: l => exists d, objs s !! x = Some (pmt_pair a d) /\ is_list s d l
  end.

Lemma is_list_grows s s' x l : grows s s' -> is_list s x l -> is_list s' x l.
Proof.
  intros Hg. revert x. induction l as [|a l IH]; intros x; [done|].
  intros (d & Hx & Hl). exists d. split; [by eapply grows_lookup|auto].
Qed.

Lemma is_list_unique s x l1 l2 : wf s -> is_list s x l1 -> is_list s x l2 -> l1 = l2.
Proof.
  intros Hw. revert x l2. induction l1 as [|a l1 IH]; intros x [|b l2]; cbn [is_list]; try done.
  - intros -> (d & Hx & _). rewrite (wf_nil _ Hw) in Hx. done.
  - intros (d & Hx & _) ->. rewrite (wf_nil _ Hw) in Hx. done.
  - intros (d & Hx & H1) (d' & Hy & H2). rewrite Hx in Hy. injection Hy as <- <-. f_equal. eauto.
Qed.

(** Distinct objects of the store. *)
Lemma nodup_bound (m : gmap Z pmt_base) (ps : list Z) :
  NoDup ps -> (forall p, p ∈ ps -> is_Some (m !! p)) -> (length ps <= size m)%nat.
Proof.
  intros Hn Hin. rewrite <- size_dom, <- (size_list_to_set (C := gset Z) ps) by done.
  apply subseteq_size. intros p Hp. apply elem_of_dom, Hin. by apply elem_of_list_to_set in Hp.
Qed.

Lemma is_list_bound s x l : wf s -> is_list s x l -> (length l <= size (objs s))%nat.
Proof.
  intros Hw Hl.
  assert (exists ps, length ps = length l /\ NoDup ps /\
    forall p, p ∈ ps -> is_Some (objs s !! p) /\ exists l', is_list s p l' /\ (length l' <= length l)%nat)
    as (ps & <- & Hn & Hp).
  { revert x Hl. induction l as [|a l IH]; intros x Hl.
    { exists []. split; [done|]. split; [constructor|set_solver]. }
    pose proof Hl as (d & Hx & Hd). destruct (IH d Hd) as (ps & Hlen & Hn & Hp).
    exists (x :: ps). split; [cbn; by rewrite Hlen|]. split.
    - apply NoDup_cons. split; [|done]. intros Hin. destruct (Hp x Hin) as (_ & l' & Hl' & Hle).
      rewrite (is_list_unique _ _ _ _ Hw Hl' Hl) in Hle. cbn in Hle. lia.
    - intros p Hin. apply elem_of_cons in Hin as [->|Hin].
      + split; [by eexists|]. exists (a :: l). split; [done|]. lia.
      + destruct (Hp p Hin) as (? & l' & ? & ?). split; [done|]. exists l'. cbn. split; [done|lia]. }
  apply nodup_bound; [done|]. intros p Hin. by apply Hp.
Qed.

Lemma cons_spec s x y l :
  wf s -> is_Some (objs s !! x) -> is_list s y l ->
  exists p s', pmt_cons x y s = Ok (p, s') /\ grows s s' /\ is_list s' p (x :: l).
Proof.
  intros Hw Hx Hl.
  assert (is_Some (objs s !! y)) as Hy.
  { destruct l as [|a l]; [rewrite Hl; eexists; apply (wf_nil _ Hw)|].
    destruct Hl as (d & Hy & _). by eexists. }
  destruct (wf_alloc s (pmt_pair x y)) as (s' & E & Hg & Hp & _); [done|done|cbn; set_solver|].
  exists (free s), s'. split; [done|]. split; [done|]. exists y. split; [done|].
  by eapply is_list_grows.
Qed.

(** The elements are objects. *)
Lemma is_list_elements s x l : wf s -> is_list s x l -> Forall (fun a => is_Some (objs s !! a)) l.
Proof.
  intros Hw. revert x. induction l as [|a l IH]; intros x; [constructor|].
  intros (d & Hx & Hl). constructor; [|eauto].
  apply (wf_refs _ Hw _ _ a Hx). cbn. set_solver.
Qed.

Lemma nil_test s : wf s -> pmt_is_pair PMT_NIL s = Ok (false, s).
Proof. intros Hw. exact (test_ok is_pair _ _ _ (wf_nil _ Hw)). Qed.

Lemma length_loop s x l fuel d k :
  wf s -> is_list s d l -> (length l < fuel)%nat ->
  length_from fuel x d k s = Ok (k + Z.of_nat (length l), s).
Proof.
  intros Hw. revert fuel d k. induction l as [|a l IH]; intros [|fuel] d k Hl Hf; cbn in Hf; try lia.
  - rewrite Hl. cbn [length_from]. call (nil_test s Hw). cbn. by rewrite Z.add_0_r.
  - destruct Hl as (d' & Hd & Hl). cbn [length_from]. tests Hd. tests Hd.
    rewrite IH by (done || lia). do 2 f_equal. cbn. lia.
Qed.

Lemma length_spec s x l : wf s -> is_list s x l -> pmt_length x s = Ok (Z.of_nat (length l), s).
Proof.
  intros Hw Hl. pose proof (is_list_bound _ _ _ Hw Hl) as Hb. destruct l as [|a l].
  { rewrite Hl. unfold pmt_length. by call (deref_ok _ _ _ (wf_nil _ Hw)). }
  destruct Hl as (d & Hx & Hl). unfold pmt_length. call (deref_ok _ _ _ Hx). unfold bounded.
  rewrite (length_loop s x l (S (size (objs s))) d 1 Hw Hl) by (cbn in Hb; lia).
  do 2 f_equal. cbn. lia.
Qed.

Lemma grows_elements s s' l : grows s s' -> Forall (fun a => is_Some (objs s !! a)) l ->
  Forall (fun a => is_Some (objs s' !! a)) l.
Proof.
  intros Hg Hl. apply (Forall_impl _ _ _ Hl). intros a [o Ha]. exists o.
  by eapply grows_lookup.
Qed.

Lemma reverse_loop s x l list r rl fuel :
  wf s -> is_list s list l -> is_list s r rl -> (length l < fuel)%nat ->
  exists p s', reverse_from fuel x list r s = Ok (p, s') /\ grows s s' /\ is_list s' p (rev l ++ rl).
Proof.
  revert s list r rl fuel. induction l as [|a l IH]; intros s list r rl [|fuel] Hw Hl Hr Hf;
    cbn in Hf; try lia.
  - rewrite Hl. cbn [reverse_from]. call (nil_test s Hw). exists r, s.
    split; [done|]. split; [by apply grows_refl|done].
  - pose proof (is_list_elements _ _ _ Hw Hl) as He. apply Forall_cons in He as [Ha _].
    destruct Hl as (d & Hx & Hl). cbn [reverse_from]. tests Hx. tests Hx.
    destruct (cons_spec s a r rl Hw Ha Hr) as (p & s1 & E & G & Hp). call E.
    call (cdr_ok _ _ _ _ (grows_lookup _ _ _ _ G Hx)).
    destruct (IH s1 d p (a :: rl) fuel) as (q & s2 & -> & G2 & Hq);
      [apply G|by eapply is_list_grows|done|lia|].
    exists q, s2. split; [done|]. split; [by eapply grows_trans|].
    cbn [rev]. by rewrite <- app_assoc.
Qed.

Lemma reverse_spec s x l :
  wf s -> is_list s x l ->
  exists p s', pmt_reverse x s = Ok (p, s') /\ grows s s' /\ is_list s' p (rev l).
Proof.
  intros Hw Hl. pose proof (is_list_bound _ _ _ Hw Hl).
  destruct (reverse_loop s x l x PMT_NIL [] (S (size (objs s))) Hw Hl eq_refl ltac:(lia))
    as (p & s' & E & G & Hp).
  exists p, s'. rewrite app_nil_r in Hp. done.
Qed.

(** [proc] reads the store only. *)
Lemma map_loop proc (f : Z -> Z) s l list r rl fuel :
  wf s -> is_list s list l -> is_list s r rl -> (length l < fuel)%nat ->
  (forall a s', a ∈ l -> grows s s' -> proc a s' = Ok (f a, s') /\ is_Some (objs s' !! f a)) ->
  exists p s', map_from proc fuel list r s = Ok (p, s') /\ grows s s' /\
    is_list s' p (rev rl ++ map f l).
Proof.
  revert s list r rl fuel. induction l as [|a l IH]; intros s list r rl [|fuel] Hw Hl Hr Hf Hproc;
    cbn in Hf; try lia.
  - rewrite Hl. cbn [map_from]. call (nil_test s Hw). cbn [map]. rewrite app_nil_r.
    by apply reverse_spec.
  - destruct Hl as (d & Hx & Hl). cbn [map_from]. tests Hx. tests Hx.
    destruct (Hproc a s ltac:(set_solver) (grows_refl s Hw)) as [Ep Hfa]. call Ep.
    destruct (cons_spec s (f a) r rl Hw Hfa Hr) as (p & s1 & E & G & Hp). call E.
    call (cdr_ok _ _ _ _ (grows_lookup _ _ _ _ G Hx)).
    destruct (IH s1 d p (f a :: rl) fuel) as (q & s2 & -> & G2 & Hq);
      [apply G|by eapply is_list_grows|done|lia| |].
    { intros b s' Hb Hg. apply Hproc; [set_solver|by eapply grows_trans]. }
    exists q, s2. split; [done|]. split; [by eapply grows_trans|].
    cbn [rev map] in *. by rewrite <- app_assoc in Hq.
Qed.

Lemma map_spec proc (f : Z -> Z) s x l :
  wf s -> is_list s x l ->
  (forall a s', a ∈ l -> grows s s' -> proc a s' = Ok (f a, s') /\ is_Some (objs s' !! f a)) ->
  exists p s', pmt_map proc x s = Ok (p, s') /\ grows s s' /\ is_list s' p (map f l).
Proof.
  intros Hw Hl Hp. pose proof (is_list_bound _ _ _ Hw Hl).
  exact (map_loop proc f s l x PMT_NIL [] (S (size (objs s))) Hw Hl eq_refl ltac:(lia) Hp).
Qed.

Lemma list_add_spec s x l item :
  wf s -> is_list s x l -> is_Some (objs s !! item) ->
  exists p s', pmt_list_add x item s = Ok (p, s') /\ grows s s' /\ is_list s' p (l ++ [item]).
Proof.
  intros Hw Hl [o Hi]. destruct (reverse_spec s x l Hw Hl) as (p & s1 & E1 & G1 & H1).
  destruct (cons_spec s1 item p (rev l)) as (q & s2 & E2 & G2 & H2);
    [apply G1|exists o; by eapply grows_lookup|done|].
  destruct (reverse_spec s2 q _ (grows_wf _ _ G2) H2) as (r & s3 & E3 & G3 & H3).
  exists r, s3. unfold pmt_list_add. call E1. call E2. split; [done|].
  split; [eapply grows_trans; [exact G1|by eapply grows_trans]|].
  cbn [rev] in H3. by rewrite rev_involutive in H3.
Qed.

Lemma nthcdr_loop s n x l :
  wf s -> is_list s x l -> exists p, nthcdr_from n x s = Ok (p, s) /\ is_list s p (drop n l).
Proof.
  intros Hw. revert x l. induction n as [|n IH]; intros x l Hl; [by exists x|].
  cbn [nthcdr_from]. destruct l as [|a l].
  - rewrite Hl. call (nil_test s Hw). by exists PMT_NIL.
  - destruct Hl as (d & Hx & Hl). tests Hx. tests Hx. by apply IH.
Qed.

Lemma nthcdr_spec s n x l :
  wf s -> is_list s x l ->
  exists p, pmt_nthcdr n x s = Ok (p, s) /\ is_list s p (drop (Z.to_nat n) l).
Proof.
  intros Hw Hl. destruct (nthcdr_loop s (Z.to_nat n) x l Hw Hl) as (p & E & Hp). exists p.
  split; [|done]. unfold pmt_nthcdr. destruct l as [|a l].
  - cbn [is_list] in Hl. subst x. call (nil_test s Hw). exact E.
  - destruct Hl as (d & Hx & _). tests Hx. exact E.
Qed.

Lemma nth_spec s n x l :
  wf s -> is_list s x l -> pmt_nth n x s = Ok (nth (Z.to_nat n) l PMT_NIL, s).
Proof.
  intros Hw Hl. destruct (nthcdr_spec s n x l Hw Hl) as (p & E & Hp). unfold pmt_nth. call E.
  pose proof (lookup_drop l (Z.to_nat n) 0) as Hd. rewrite Nat.add_0_r in Hd.
  rewrite nth_lookup, <- Hd. revert Hp. clear Hd. generalize (drop (Z.to_nat n) l). intros [|a l'] Hp.
  - rewrite Hp. by call (nil_test s Hw).
  - destruct Hp as (d & Hx & _). tests Hx. apply (car_ok _ _ _ _ Hx).
Qed.

(** A search loop over a list whose comparison is known. *)
Lemma member_loop same (f : Z -> bool) s obj l x fuel :
  wf s -> is_list s x l -> (length l < fuel)%nat ->
  (forall a, a ∈ l -> same obj a s = Ok (f a, s)) ->
  exists p, member_from same fuel obj x s = Ok (p, s) /\
  ((p = PMT_F /\ forall a, a ∈ l -> f a = false) \/
   exists l1 a l2, l = l1 ++ a :: l2 /\ f a = true /\ (forall b, b ∈ l1 -> f b = false) /\
     is_list s p (a :: l2)).
Proof.
  intros Hw. revert x fuel. induction l as [|a l IH]; intros x [|fuel] Hl Hf Hs; cbn in Hf; try lia.
  - rewrite Hl. cbn [member_from]. call (nil_test s Hw). exists PMT_F. split; [done|]. left. set_solver.
  - pose proof Hl as Hl0. destruct Hl as (d & Hx & Hl). cbn [member_from]. tests Hx. tests Hx.
    call (Hs a ltac:(set_solver)). destruct (f a) eqn:Ea.
    + exists x. split; [done|]. right. exists [], a, l. split_and!; auto. set_solver.
    + tests Hx. destruct (IH d fuel Hl ltac:(lia)) as (p & E & Hp); [set_solver|]. exists p.
      split; [done|]. destruct Hp as [[-> Hn]|(l1 & b & l2 & -> & Hb & Hn & Hp)].
      * left. split; [done|]. intros b Hb. apply elem_of_cons in Hb as [->|Hb]; auto.
      * right. exists (a :: l1), b, l2. split_and!; auto. intros c Hc.
        apply elem_of_cons in Hc as [->|Hc]; auto.
Qed.

Lemma member_spec same (f : Z -> bool) s obj l x :
  wf s -> is_list s x l -> (forall a, a ∈ l -> same obj a s = Ok (f a, s)) ->
  exists p, bounded (fun n => member_from same n obj x) s = Ok (p, s) /\
  ((p = PMT_F /\ forall a, a ∈ l -> f a = false) \/
   exists l1 a l2, l = l1 ++ a :: l2 /\ f a = true /\ (forall b, b ∈ l1 -> f b = false) /\
     is_list s p (a :: l2)).
Proof.
  intros Hw Hl Hs. pose proof (is_list_bound _ _ _ Hw Hl).
  apply (member_loop same f s obj l x); auto. lia.
Qed.

Lemma memv_spec s x l obj :
  wf s -> is_list s x l -> is_Some (objs s !! obj) ->
  exists p, pmt_memv obj x s = Ok (p, s) /\
  ((p = PMT_F /\ forall a, a ∈ l -> eqvb s obj a = false) \/
   exists l1 a l2, l = l1 ++ a :: l2 /\ eqvb s obj a = true /\
     (forall b, b ∈ l1 -> eqvb s obj b = false) /\ is_list s p (a :: l2)).
Proof.
  intros Hw Hl Ho. apply (member_spec pmt_eqv (eqvb s obj)); auto. intros a Ha.
  apply eqv_ok; [done|]. pose proof (is_list_elements _ _ _ Hw Hl) as He.
  by apply (proj1 (Forall_forall _ _) He).
Qed.

Lemma subsetp_loop s x l y l2 fuel :
  wf s -> is_list s x l -> is_list s y l2 -> (length l < fuel)%nat ->
  subsetp_from fuel x y s = Ok (forallb (fun a => existsb (eqvb s a) l2) l, s).
Proof.
  intros Hw. revert x fuel. induction l as [|a l IH]; intros x [|fuel] Hl Hy Hf; cbn in Hf; try lia.
  - cbn [is_list] in Hl. subst x. cbn [subsetp_from]. by call (nil_test s Hw).
  - pose proof (is_list_elements _ _ _ Hw Hl) as He. apply Forall_cons in He as [Ha _].
    destruct Hl as (d & Hx & Hl). cbn [subsetp_from]. tests Hx. tests Hx.
    destruct (memv_spec s y l2 a Hw Hy Ha) as (p & E & Hp). call E. cbn [forallb].
    destruct Hp as [[-> Hn]|(l3 & b & l4 & -> & Hb & _ & (d' & Hd' & _))].
    + replace (existsb (eqvb s a) l2) with false; [done|]. symmetry. apply not_true_is_false.
      intros Hex. apply existsb_exists in Hex as (b & Hb & Hab). apply list_elem_of_In in Hb.
      rewrite Hn in Hab; done.
    + replace (existsb (eqvb s a) (l3 ++ b :: l4)) with true.
      * unfold pmt_is_false. destruct (Z.eqb_spec p PMT_F) as [->|_].
        { rewrite (wf_false _ Hw) in Hd'. done. }
        tests Hx. apply IH; auto; lia.
      * symmetry. apply existsb_exists. exists b. split; [|done]. apply in_elt.
Qed.

(** On proper lists the list operations compute the list functions, always
    terminate, and leave every object as it was. *)
Theorem pmt_lists_compute s x l y l2 n item :
  wf s -> is_list s x l -> is_list s y l2 -> is_Some (objs s !! item) ->
  pmt_length x s = Ok (Z.of_nat (length l), s) /\
  pmt_nth n x s = Ok (nth (Z.to_nat n) l PMT_NIL, s) /\
  pmt_subsetp x y s = Ok (forallb (fun a => existsb (eqvb s a) l2) l, s) /\
  (exists p, pmt_nthcdr n x s = Ok (p, s) /\ is_list s p (drop (Z.to_nat n) l)) /\
  (exists p s', pmt_reverse x s = Ok (p, s') /\ grows s s' /\ is_list s' p (rev l)) /\
  (exists p s', pmt_list_add x item s = Ok (p, s') /\ grows s s' /\ is_list s' p (l ++ [item])) /\
  exists p, pmt_memv item x s = Ok (p, s) /\
    ((p = PMT_F /\ forall a, a ∈ l -> eqvb s item a = false) \/
     exists l1 a l2, l = l1 ++ a :: l2 /\ eqvb s item a = true /\
       (forall b, b ∈ l1 -> eqvb s item b = false) /\ is_list s p (a :: l2)).
Proof.
  intros Hw Hx Hy Hi. pose proof (is_list_bound _ _ _ Hw Hx).
  split_and!; [by apply length_spec|by apply nth_spec| |by apply nthcdr_spec|by apply reverse_spec
              |by apply list_add_spec|by apply memv_spec].
  apply subsetp_loop; auto; lia.
Qed.

(** ** Dictionaries *)

(** The bindings of a dictionary, and its cells. *)
Definition binds (s : store) (c : Z) (kv : Z * Z) : Prop :=
  objs s !! c = Some (pmt_pair kv.1 kv.2).
Definition is_dict (s : store) (d : Z) (kvs : list (Z * Z)) : Prop :=
  exists l, is_list s d l /\ Forall2 (binds s) l kvs.

Lemma is_dict_nil s d : is_dict s d [] <-> d = PMT_NIL.
Proof.
  split; [|intros ->; by exists []]. intros (l & Hl & H2). apply Forall2_nil_inv_r in H2. by subst.
Qed.

Lemma is_dict_cons s d kv kvs :
  is_dict s d (kv :: kvs) <->
  exists c d', objs s !! d = Some (pmt_pair c d') /\ binds s c kv /\ is_dict s d' kvs.
Proof.
  split.
  - intros (l & Hl & H2). apply Forall2_cons_inv_r in H2 as (c & l' & Hc & H2 & ->).
    destruct Hl as (d' & Hd & Hl). exists c, d'. split_and!; auto. by exists l'.
  - intros (c & d' & Hd & Hc & l & Hl & H2). exists (c :: l). split; [by exists d'|by constructor].
Qed.

Lemma binds_grows s s' c kv : grows s s' -> binds s c kv -> binds s' c kv.
Proof. intros Hg. by apply grows_lookup. Qed.

Lemma is_dict_grows s s' d kvs : grows s s' -> is_dict s d kvs -> is_dict s' d kvs.
Proof.
  intros Hg (l & Hl & H2). exists l. split; [by eapply is_list_grows|].
  apply (Forall2_impl _ _ _ _ H2). intros. by eapply binds_grows.
Qed.

Lemma is_dict_bound s d kvs : wf s -> is_dict s d kvs -> (length kvs <= size (objs s))%nat.
Proof.
  intros Hw (l & Hl & H2). rewrite <- (Forall2_length _ _ _ H2). by eapply is_list_bound.
Qed.

Lemma is_dict_objects s d kvs :
  wf s -> is_dict s d kvs ->
  is_Some (objs s !! d) /\
  Forall (fun kv => is_Some (objs s !! kv.1) /\ is_Some (objs s !! kv.2)) kvs.
Proof.
  intros Hw. revert d. induction kvs as [|kv kvs IH]; intros d Hd.
  - apply is_dict_nil in Hd as ->. split; [eexists; apply (wf_nil _ Hw)|constructor].
  - apply is_dict_cons in Hd as (c & d' & Hd & Hc & Hr). split; [by eexists|].
    constructor; [|by apply (IH d')]. split; apply (wf_refs _ Hw _ _ _ Hc); cbn; set_solver.
Qed.

(** What a dictionary says of a key: the first binding decides. *)
Fixpoint dict_lookup (s : store) (key : Z) (kvs : list (Z * Z)) : option Z :=
  match kvs with
  | [] => None
  | (k, v) :: kvs => if eqvb s key k then Some v else dict_lookup s key kvs
  end.
Fixpoint dict_remove (s : store) (key : Z) (kvs : list (Z * Z)) : list (Z * Z) :=
  match kvs with
  | [] => []
  | (k, v) :: kvs => if eqvb s k key then kvs else (k, v) :: dict_remove s key kvs
  end.

(** No two keys of a dictionary are the same. *)
Fixpoint distinct (s : store) (kvs : list (Z * Z)) : Prop :=
  match kvs with
  | [] => True
  | (k, _) :: kvs => dict_lookup s k kvs = None /\ distinct s kvs
  end.

Lemma acons_spec s k v d kvs :
  wf s -> is_Some (objs s !! k) -> is_Some (objs s !! v) -> is_dict s d kvs ->
  exists p s', pmt_acons k v d s = Ok (p, s') /\ grows s s' /\ is_dict s' p ((k, v) :: kvs).
Proof.
  intros Hw Hk Hv Hd. unfold pmt_acons, pmt_cons.
  destruct (wf_alloc s (pmt_pair k v)) as (s1 & E1 & G1 & H1 & _); [done|done|cbn; set_solver|].
  call E1. destruct (is_dict_objects _ _ _ Hw Hd) as [[o Ho] _].
  destruct (wf_alloc s1 (pmt_pair (free s) d)) as (s2 & E2 & G2 & H2 & _); [apply G1|done| |].
  { intros q Hq. cbn in Hq. apply elem_of_cons in Hq as [->|Hq]; [by eexists|].
    apply list_elem_of_singleton in Hq as ->. exists o. by eapply grows_lookup. }
  exists (free s1), s2. split; [done|]. split; [by eapply grows_trans|].
  apply is_dict_cons. exists (free s), d. split; [done|].
  split; [exact (grows_lookup _ _ _ _ G2 H1)|]. by eapply is_dict_grows, is_dict_grows.
Qed.

Lemma assv_loop s key d kvs fuel :
  wf s -> is_dict s d kvs -> is_Some (objs s !! key) -> (length kvs < fuel)%nat ->
  exists p, assoc_from pmt_eqv fuel key d s = Ok (p, s) /\
  match dict_lookup s key kvs with
  | Some v => exists k, binds s p (k, v)
  | None => p = PMT_F
  end.
Proof.
  intros Hw. revert d fuel. induction kvs as [|[k v] kvs IH]; intros d [|fuel] Hd Hk Hf;
    cbn in Hf; try lia.
  - apply is_dict_nil in Hd as ->. exists PMT_F. split; [|done].
    cbn [assoc_from]. by call (nil_test s Hw).
  - destruct (is_dict_objects _ _ _ Hw Hd) as [_ He]. apply Forall_cons in He as [[Hk' _] _].
    apply is_dict_cons in Hd as (c & d' & Hd & Hc & Hr). cbn [assoc_from dict_lookup].
    tests Hd. tests Hd. tests Hc. tests Hc. call (eqv_ok s key k Hk Hk').
    destruct (eqvb s key k).
    + exists c. split; [done|]. by exists k.
    + tests Hd. apply IH; auto. lia.
Qed.

Lemma assv_spec s key d kvs :
  wf s -> is_dict s d kvs -> is_Some (objs s !! key) ->
  exists p, pmt_assv key d s = Ok (p, s) /\
  match dict_lookup s key kvs with Some v => exists k, binds s p (k, v) | None => p = PMT_F end.
Proof.
  intros Hw Hd Hk. pose proof (is_dict_bound _ _ _ Hw Hd). apply assv_loop; auto. lia.
Qed.

Lemma dict_ref_spec s key d kvs not_found :
  wf s -> is_dict s d kvs -> is_Some (objs s !! key) ->
  pmt_dict_ref d key not_found s = Ok (default not_found (dict_lookup s key kvs), s) /\
  pmt_dict_has_key d key s = Ok (bool_decide (is_Some (dict_lookup s key kvs)), s).
Proof.
  intros Hw Hd Hk. destruct (assv_spec s key d kvs Hw Hd Hk) as (p & E & Hp).
  unfold pmt_dict_ref, pmt_dict_has_key. rewrite !(bind_ok _ _ _ _ _ E).
  destruct (dict_lookup s key kvs) as [v|].
  - destruct Hp as [k Hc]. split; [|rewrite bool_decide_true by eauto; exact (test_ok is_pair _ _ _ Hc)].
    call (test_ok is_pair _ _ _ Hc). cbn [is_pair]. apply (cdr_ok _ _ _ _ Hc).
  - subst p. split; [|exact (test_ok is_pair _ _ _ (wf_false _ Hw))].
    by call (test_ok is_pair _ _ _ (wf_false _ Hw)).
Qed.

Lemma dict_delete_loop s key d kvs fuel :
  wf s -> is_dict s d kvs -> is_Some (objs s !! key) -> (length kvs < fuel)%nat ->
  exists p s', dict_delete_from fuel d key s = Ok (p, s') /\ grows s s' /\
    is_dict s' p (dict_remove s key kvs).
Proof.
  intros Hw. revert d fuel. induction kvs as [|[k v] kvs IH]; intros d [|fuel] Hd Hk Hf;
    cbn in Hf; try lia; cbn [dict_delete_from dict_remove].
  - apply is_dict_nil in Hd as ->. exists PMT_NIL, s. split; [done|].
    split; [by apply grows_refl|by apply is_dict_nil].
  - destruct (is_dict_objects _ _ _ Hw Hd) as [_ He]. apply Forall_cons in He as [[Hk' _] _].
    apply is_dict_cons in Hd as (c & d' & Hd & Hc & Hr). unfold pmt_is_null.
    destruct (Z.eqb_spec d PMT_NIL) as [->|_]; [rewrite (wf_nil _ Hw) in Hd; done|].
    unfold pmt_caar.
    assert ((x ← pmt_car d; pmt_car x) s = Ok (k, s)) as Eca
      by (call (car_ok _ _ _ _ Hd); apply (car_ok _ _ _ _ Hc)).
    call Eca. call (eqv_ok s k key Hk' Hk). destruct (eqvb s k key).
    { exists d', s. split; [apply (cdr_ok _ _ _ _ Hd)|]. split; [by apply grows_refl|done]. }
    tests Hd. tests Hd. destruct (IH d' fuel Hr Hk ltac:(lia)) as (p & s1 & E & G & Hp). call E.
    destruct (is_dict_objects _ _ _ (grows_wf _ _ G) Hp) as [Hpo _].
    destruct (wf_alloc s1 (pmt_pair c p)) as (s2 & E2 & G2 & H2 & _); [apply G|done| |].
    { intros q Hq. cbn in Hq. apply elem_of_cons in Hq as [->|Hq].
      - eexists. by eapply grows_lookup.
      - by apply list_elem_of_singleton in Hq as ->. }
    exists (free s1), s2. split; [done|]. split; [by eapply grows_trans|].
    apply is_dict_cons. exists c, p. split; [done|].
    split; [by eapply binds_grows, binds_grows|by eapply is_dict_grows].
Qed.

Lemma eqvb_trans s x y z : eqvb s x y = true -> eqvb s y z = true -> eqvb s x z = true.
Proof. apply (@Equivalence_Transitive _ _ (eqvb_equivalence s)). Qed.

Lemma eqvb_left s k k' x : eqvb s k k' = true -> eqvb s k x = eqvb s k' x.
Proof.
  intros H. apply eq_true_iff_eq. split; intros Hx.
  - apply (eqvb_trans s k' k x); [by rewrite eqvb_sym|done].
  - by apply (eqvb_trans s k k' x).
Qed.

Lemma dict_lookup_same s k k' kvs : eqvb s k k' = true -> dict_lookup s k kvs = dict_lookup s k' kvs.
Proof.
  intros H. induction kvs as [|[k0 v0] kvs IH]; [done|]. cbn [dict_lookup].
  by rewrite (eqvb_left s k k' k0 H), IH.
Qed.

Lemma dict_lookup_remove s k key kvs :
  distinct s kvs ->
  dict_lookup s k (dict_remove s key kvs) = if eqvb s k key then None else dict_lookup s k kvs.
Proof.
  induction kvs as [|[k0 v0] kvs IH]; cbn [distinct dict_lookup dict_remove].
  { intros _. by destruct (eqvb s k key). }
  intros [H0 Hd]. destruct (eqvb s k0 key) eqn:E0; cbn [dict_lookup].
  - destruct (eqvb s k key) eqn:E.
    + rewrite eqvb_sym in E0. rewrite (dict_lookup_same s k k0); [done|].
      by apply (eqvb_trans s k key k0).
    + destruct (eqvb s k k0) eqn:Ek; [|done]. exfalso.
      rewrite (eqvb_left s k k0 key Ek) in E. congruence.
  - rewrite IH by done. destruct (eqvb s k k0) eqn:Ek; [|done].
    rewrite (eqvb_left s k k0 key Ek). by rewrite E0.
Qed.

Lemma distinct_remove s key kvs : distinct s kvs -> distinct s (dict_remove s key kvs).
Proof.
  induction kvs as [|[k v] kvs IH]; cbn [distinct dict_remove]; [done|]. intros [H0 Hd].
  destruct (eqvb s k key); [done|]. split; [|auto]. rewrite dict_lookup_remove by done.
  by destruct (eqvb s k key).
Qed.

Definition objects (s : store) (kvs : list (Z * Z)) : Prop :=
  Forall (fun kv => is_Some (objs s !! kv.1) /\ is_Some (objs s !! kv.2)) kvs.

Lemma dict_lookup_grows s s' k kvs :
  grows s s' -> is_Some (objs s !! k) -> objects s kvs ->
  dict_lookup s' k kvs = dict_lookup s k kvs.
Proof.
  intros Hg Hk. induction 1 as [|[k0 v0] kvs [H0 _] _ IH]; [done|]. cbn [dict_lookup].
  by rewrite (eqvb_grows s s'), IH.
Qed.

Lemma distinct_grows s s' kvs : grows s s' -> objects s kvs -> distinct s kvs -> distinct s' kvs.
Proof.
  intros Hg. induction 1 as [|[k v] kvs [Hk _] Ho IH]; cbn [distinct]; [done|].
  intros [H0 Hd]. split; [|auto]. by rewrite (dict_lookup_grows s s').
Qed.

Lemma grows_is_some s s' p : grows s s' -> is_Some (objs s !! p) -> is_Some (objs s' !! p).
Proof. intros Hg [o Hp]. exists o. by eapply grows_lookup. Qed.

Lemma remove_objects s key kvs : objects s kvs -> objects s (dict_remove s key kvs).
Proof.
  induction 1 as [|[k v] kvs H0 Ho IH]; cbn [dict_remove]; [constructor|].
  case_if; [done|by constructor].
Qed.

Lemma dict_remove_none s key kvs : dict_lookup s key kvs = None -> dict_remove s key kvs = kvs.
Proof.
  induction kvs as [|[k v] kvs IH]; cbn [dict_lookup dict_remove]; [done|].
  rewrite (eqvb_sym s key k). case_if; [done|]. intros. by rewrite IH.
Qed.

Lemma delete_spec s d kvs key :
  wf s -> is_dict s d kvs -> is_Some (objs s !! key) ->
  exists p s', pmt_dict_delete d key s = Ok (p, s') /\ grows s s' /\
    is_dict s' p (dict_remove s key kvs).
Proof.
  intros Hw Hd Hk. pose proof (is_dict_bound _ _ _ Hw Hd). apply dict_delete_loop; auto. lia.
Qed.

Lemma add_spec s d kvs key value :
  wf s -> is_dict s d kvs -> is_Some (objs s !! key) -> is_Some (objs s !! value) ->
  exists p s', pmt_dict_add d key value s = Ok (p, s') /\ grows s s' /\
    is_dict s' p ((key, value) :: dict_remove s key kvs).
Proof.
  intros Hw Hd Hk Hv. unfold pmt_dict_add, pmt_is_null.
  destruct (Z.eqb_spec d PMT_NIL) as [->|Hne].
  { destruct kvs as [|kv kvs].
    - apply acons_spec; auto.
    - apply is_dict_cons in Hd as (c & d' & Hd & _). rewrite (wf_nil _ Hw) in Hd. done. }
  destruct (dict_ref_spec s key d kvs key Hw Hd Hk) as [_ Ehas]. call Ehas.
  destruct (bool_decide_reflect (is_Some (dict_lookup s key kvs))) as [Hs|Hs].
  - destruct (delete_spec s d kvs key Hw Hd Hk) as (p & s1 & E & G & Hp). call E.
    destruct (acons_spec s1 key value p (dict_remove s key kvs)) as (q & s2 & E2 & G2 & Hq);
      [apply G|by eapply grows_is_some|by eapply grows_is_some|done|].
    exists q, s2. split; [done|]. split; [by eapply grows_trans|done].
  - apply eq_None_not_Some in Hs. rewrite dict_remove_none by done. by apply acons_spec.
Qed.

(** ** Sequences of updates, the latest first *)

Inductive dict_op := Add (key value : Z) | Del (key : Z).

Fixpoint dict_run (ops : list dict_op) : M Z :=
  match ops with
  | [] => mret pmt_make_dict
  | Add key value :: ops => d ← dict_run ops; pmt_dict_add d key value
  | Del key :: ops => d ← dict_run ops; pmt_dict_delete d key
  end.

(** The finite map they stand for. *)
Fixpoint dict_meaning (s : store) (ops : list dict_op) (k : Z) : option Z :=
  match ops with
  | [] => None
  | Add key value :: ops => if eqvb s k key then Some value else dict_meaning s ops k
  | Del key :: ops => if eqvb s k key then None else dict_meaning s ops k
  end.

Fixpoint dict_bindings (s : store) (ops : list dict_op) : list (Z * Z) :=
  match ops with
  | [] => []
  | Add key value :: ops => (key, value) :: dict_remove s key (dict_bindings s ops)
  | Del key :: ops => dict_remove s key (dict_bindings s ops)
  end.

Definition op_objects (s : store) (o : dict_op) : Prop :=
  match o with
  | Add key value => is_Some (objs s !! key) /\ is_Some (objs s !! value)
  | Del key => is_Some (objs s !! key)
  end.

Lemma bindings_objects s ops : Forall (op_objects s) ops -> objects s (dict_bindings s ops).
Proof.
  induction 1 as [|[key value|key] ops H0 _ IH]; cbn [dict_bindings]; [constructor| |].
  - constructor; [done|by apply remove_objects].
  - by apply remove_objects.
Qed.

Lemma bindings_meaning s ops :
  distinct s (dict_bindings s ops) /\
  forall k, dict_lookup s k (dict_bindings s ops) = dict_meaning s ops k.
Proof.
  induction ops as [|[key value|key] ops [Hd Hl]]; cbn [dict_bindings dict_meaning]; [done| |].
  - split.
    + cbn [distinct]. split; [|by apply distinct_remove]. rewrite dict_lookup_remove by done.
      by rewrite (@Equivalence_Reflexive _ _ (eqvb_equivalence s)).
    + intros k. cbn [dict_lookup]. rewrite dict_lookup_remove, Hl by done. by case_if.
  - split; [by apply distinct_remove|]. intros k. by rewrite dict_lookup_remove, Hl by done.
Qed.

Lemma dict_remove_grows s s' k kvs :
  grows s s' -> is_Some (objs s !! k) -> objects s kvs -> dict_remove s' k kvs = dict_remove s k kvs.
Proof.
  intros Hg Hk. induction 1 as [|[k0 v0] kvs [H0 _] _ IH]; [done|]. cbn [dict_remove].
  by rewrite (eqvb_grows s s'), IH.
Qed.

Lemma run_spec s ops :
  wf s -> Forall (op_objects s) ops ->
  exists d s', dict_run ops s = Ok (d, s') /\ grows s s' /\ is_dict s' d (dict_bindings s ops).
Proof.
  intros Hw. induction 1 as [|o ops H0 Hops IH].
  { exists PMT_NIL, s. split; [done|]. split; [by apply grows_refl|by apply is_dict_nil]. }
  destruct IH as (d & s1 & E & G & Hd). pose proof (bindings_objects s ops Hops) as Ho.
  destruct o as [key value|key]; cbn [dict_run dict_bindings op_objects] in *; call E.
  - destruct H0 as [Hk Hv]. rewrite <- (dict_remove_grows s s1) by done.
    destruct (add_spec s1 d _ key value (grows_wf _ _ G) Hd) as (p & s2 & E2 & G2 & Hp);
      [by eapply grows_is_some|by eapply grows_is_some|].
    exists p, s2. split; [done|]. split; [by eapply grows_trans|done].
  - rewrite <- (dict_remove_grows s s1) by done.
    destruct (delete_spec s1 d _ key (grows_wf _ _ G) Hd) as (p & s2 & E2 & G2 & Hp);
      [by eapply grows_is_some|].
    exists p, s2. split; [done|]. split; [by eapply grows_trans|done].
Qed.

Lemma meaning_grows s s' ops k :
  grows s s' -> is_Some (objs s !! k) -> Forall (op_objects s) ops ->
  dict_meaning s' ops k = dict_meaning s ops k.
Proof.
  intros Hg Hk. induction 1 as [|o ops H0 _ IH]; [done|].
  destruct o; cbn [dict_meaning op_objects] in *; rewrite IH;
    by rewrite (eqvb_grows s s') by (done || apply H0).
Qed.

(** A field of every binding. *)
Lemma dict_map_spec proc (f : Z * Z -> Z) s d kvs :
  wf s -> is_dict s d kvs -> (forall kv, kv ∈ kvs -> is_Some (objs s !! f kv)) ->
  (forall c kv s', binds s' c kv -> proc c s' = Ok (f kv, s')) ->
  exists p s', check_dict d (pmt_map proc d) s = Ok (p, s') /\ grows s s' /\ is_list s' p (map f kvs).
Proof.
  intros Hw (l & Hl & H2) Hf Hproc.
  set (g := fun c => match objs s !! c with Some (pmt_pair a b) => f (a, b) | _ => c end).
  assert (Forall2 (fun c kv => g c = f kv) l kvs) as Hg.
  { apply (Forall2_impl _ _ _ _ H2). intros c [k v] Hc. unfold g. by rewrite Hc. }
  assert (map f kvs = map g l) as ->.
  { clear -Hg. induction Hg as [|c kv l kvs E _ IH]; [done|]. cbn [map]. by rewrite E, IH. }
  assert (forall a, a ∈ l -> exists kv, kv ∈ kvs /\ binds s a kv) as Hin.
  { clear -H2. induction H2 as [|c kv l kvs Hc _ IH]; [set_solver|]. intros a Ha.
    apply elem_of_cons in Ha as [->|Ha]; [exists kv; set_solver|].
    destruct (IH a Ha) as (kv' & ? & ?). exists kv'. set_solver. }
  assert (is_Some (objs s !! d)) as [o Ho] by (eapply is_dict_objects; [done|by exists l]).
  unfold check_dict, pmt_is_dict.
  assert ((b ← pmt_is_pair d; mret (pmt_is_null d || b)) s = Ok (true, s)) as E.
  { call (test_ok is_pair _ _ _ Ho). unfold pmt_is_null. destruct l as [|a l].
    - cbn [is_list] in Hl. by subst.
    - destruct Hl as (d' & Hd & _). rewrite Ho in Hd. injection Hd as ->.
      unfold mret, M_ret. cbn. by rewrite orb_true_r. }
  call E. apply map_spec; [done|done|]. intros a s' Ha G. destruct (Hin a Ha) as ([k v] & Hkv & Hc).
  assert (g a = f (k, v)) as -> by (unfold g; by rewrite Hc).
  split; [apply Hproc; by eapply binds_grows|]. eapply grows_is_some; [done|]. by apply Hf.
Qed.

Lemma lookup_elem s k kvs v :
  dict_lookup s k kvs = Some v -> exists k', eqvb s k k' = true /\ (k', v) ∈ kvs.
Proof.
  induction kvs as [|[k0 v0] kvs IH]; cbn [dict_lookup]; [done|]. case_if.
  - intros [= <-]. exists k0. split; [done|]. set_solver.
  - intros H. destruct (IH H) as (k' & ? & ?). exists k'. split; [done|]. set_solver.
Qed.

Lemma distinct_lookup s kvs k v : distinct s kvs -> (k, v) ∈ kvs -> dict_lookup s k kvs = Some v.
Proof.
  induction kvs as [|[k0 v0] kvs IH]; cbn [distinct dict_lookup]; [set_solver|]. intros [H0 Hd] Hin.
  apply elem_of_cons in Hin as [[= -> ->]|Hin].
  - by rewrite (@Equivalence_Reflexive _ _ (eqvb_equivalence s)).
  - destruct (eqvb s k k0) eqn:E; [|auto]. rewrite (dict_lookup_same s k0 k) in H0.
    + rewrite (IH Hd Hin) in H0. done.
    + by rewrite eqvb_sym.
Qed.

(** C11. A dictionary is a finite map from keys up to [pmt_eqv], and updating it
    keeps the old one.  After any sequence of additions and removals, none of
    which fails: looking up a key gives the value of the last addition of that
    key, unless it was removed since; [pmt_dict_keys] and [pmt_dict_values] list
    each key once, with its value. *)
Theorem pmt_dict_refines_map s ops :
  wf s -> Forall (op_objects s) ops ->
  exists d s', dict_run ops s = Ok (d, s') /\ grows s s' /\
  (forall k not_found, is_Some (objs s !! k) ->
     pmt_dict_ref d k not_found s' = Ok (default not_found (dict_meaning s ops k), s') /\
     pmt_dict_has_key d k s' = Ok (bool_decide (is_Some (dict_meaning s ops k)), s')) /\
  exists kvs, distinct s kvs /\ pmt_length d s' = Ok (Z.of_nat (length kvs), s') /\
    (exists p s1, pmt_dict_keys d s' = Ok (p, s1) /\ is_list s1 p (map fst kvs)) /\
    (exists p s1, pmt_dict_values d s' = Ok (p, s1) /\ is_list s1 p (map snd kvs)) /\
    (forall k v, (k, v) ∈ kvs -> dict_meaning s ops k = Some v) /\
    (forall k v, dict_meaning s ops k = Some v -> exists k', eqvb s k k' = true /\ (k', v) ∈ kvs).
Proof.
  intros Hw Hops. destruct (run_spec s ops Hw Hops) as (d & s' & E & G & Hd).
  destruct (bindings_meaning s ops) as [Hn Hl]. pose proof (bindings_objects s ops Hops) as Ho.
  pose proof (grows_wf _ _ G) as Hw'. destruct (is_dict_objects _ _ _ Hw' Hd) as [_ Ho'].
  exists d, s'. split; [done|]. split; [done|]. split.
  { intros k nf Hk. rewrite <- Hl, <- (dict_lookup_grows s s' k _ G Hk Ho).
    apply dict_ref_spec; [done|done|by eapply grows_is_some]. }
  exists (dict_bindings s ops). split_and!.
  - done.
  - destruct Hd as (l & Hl' & H2). rewrite <- (Forall2_length _ _ _ H2). by apply length_spec.
  - destruct (dict_map_spec pmt_car fst s' d _ Hw' Hd) as (p & s1 & Ek & _ & Hp); [| |eauto].
    + intros kv Hkv. by apply (proj1 (Forall_forall _ _) Ho').
    + intros c [k v] s2 Hc. apply (car_ok _ _ _ _ Hc).
  - destruct (dict_map_spec pmt_cdr snd s' d _ Hw' Hd) as (p & s1 & Ek & _ & Hp); [| |eauto].
    + intros kv Hkv. by apply (proj1 (Forall_forall _ _) Ho').
    + intros c [k v] s2 Hc. apply (cdr_ok _ _ _ _ Hc).
  - intros k v Hin. rewrite <- Hl. by apply distinct_lookup.
  - intros k v Hk. apply lookup_elem. by rewrite Hl.
Qed.

(** ** A concrete store *)

Definition final (r : res pmt_exn (Z * store)) : store :=
  match r with Ok (_, s) => s | Throw _ => initial_store end.

Fixpoint run_calls (cs : list pmt_call) (s : store) : store :=
  match cs with [] => s | c :: cs => run_calls cs (final (run_call c s)) end.

(** Objects 5 and 6 are the symbols [a] and [b], 7 and 8 the integers 7 and 8,
    10 the list [(a b)], 11 a tuple, 12 and 13 two blobs. *)
Definition sample_calls : list pmt_call :=
  [Intern [97]; Intern [98]; FromLong 7; FromLong 8; Cons 6 PMT_NIL; Cons 5 9; MakeTuple [10];
   InitUnv U8 [1; 2]; InitUnv U8 [3; 4]; FromDouble 0x3ff0000000000000; FromLong 1].
Definition sample : store := run_calls sample_calls initial_store.

Fixpoint calls_ok (cs : list pmt_call) (s : store) : bool :=
  match cs with
  | [] => true
  | c :: cs =>
      forallb (fun p => if objs s !! p is Some _ then true else false) (arguments c) &&
      match run_call c s with Ok (_, s') => calls_ok cs s' | Throw _ => false end
  end.

Lemma run_calls_reachable cs s : reachable s -> calls_ok cs s = true -> reachable (run_calls cs s).
Proof.
  revert s. induction cs as [|c cs IH]; intros s Hr Hok; [done|]. cbn [calls_ok run_calls] in *.
  apply andb_true_iff in Hok as [Ha Hok]. destruct (run_call c s) as [[p s']|] eqn:E; [|done].
  apply IH; [|done]. refine (reachable_call s c p s' Hr _ E). intros q Hq.
  rewrite forallb_forall in Ha. specialize (Ha q (proj1 (list_elem_of_In _ _) Hq)).
  destruct (objs s !! q); [by eexists|done].
Qed.

Lemma sample_reachable : reachable sample.
Proof. apply run_calls_reachable; [constructor|vm_compute; reflexivity]. Qed.

Lemma pmt_store_safe_witness : objs sample !! PMT_T = Some pmt_bool.
Proof. apply (pmt_store_safe sample sample_reachable). Defined.

Lemma pmt_intern_spec_witness :
  exists p s' next, pmt_intern [98] sample = Ok (p, s') /\ objs s' !! p = Some (pmt_symbol [98] next).
Proof.
  destruct (pmt_intern_spec sample [98] sample_reachable) as (p & s' & next & E & _ & Hp & _). eauto.
Defined.

Lemma pmt_lists_compute_witness : pmt_length 10 sample = Ok (2, sample).
Proof.
  refine (proj1 (pmt_lists_compute sample 10 [5; 6] 9 [6] 1 5
    (reachable_wf _ sample_reachable) _ _ _)).
  - exists 9. split; [reflexivity|]. exists PMT_NIL. split; reflexivity.
  - exists PMT_NIL. split; reflexivity.
  - eexists. reflexivity.
Defined.

Lemma pmt_dict_refines_map_witness :
  exists d s', dict_run [Del 6; Add 5 8; Add 6 7; Add 5 7] sample = Ok (d, s') /\
    pmt_dict_ref d 5 PMT_NIL s' = Ok (8, s').
Proof.
  destruct (pmt_dict_refines_map sample [Del 6; Add 5 8; Add 6 7; Add 5 7]
    (reachable_wf _ sample_reachable)) as (d & s' & E & _ & Hk & _).
  - repeat constructor; eexists; reflexivity.
  - exists d, s'. split; [exact E|]. refine (proj1 (Hk 5 PMT_NIL _)). eexists. reflexivity.
Defined.

(** What the code does not distinguish, and what it does: blobs of the same
    length are equal whatever they hold; the integer and the real 1 are not the
    same number. *)
Lemma blobs_are_equal : pmt_equal 12 13 sample = Ok (true, sample).
Proof. vm_compute. reflexivity. Qed.

Lemma one_is_not_one : pmt_eqv 14 15 sample = Ok (false, sample).
Proof. vm_compute. reflexivity. Qed.

(** The empty list, a proper list, is not turned into a tuple. *)
Lemma nil_to_tuple : pmt_to_tuple PMT_NIL sample = Throw (wrong_type PMT_NIL).
Proof. vm_compute. reflexivity. Qed.
