(* ===== verification/PmtSerialize.v ===== *)
(** * Byte serialization of polymorphic types: [gruel/src/lib/pmt/pmt_serialize.cc]

    The writer, over a sink that may be full; the reader, which builds lists by
    changing the cell it made last, over a list of bytes.  Reading what was
    written, in any store, gives an object of the same structure, with reals
    rounded to single precision; complex numbers are not read back. *)

From S2P Require Import Prelude.
From stdpp Require Import gmap.
From S2P Require Import Pmt.
#[local] Open Scope Z_scope.
#[local] Open Scope cint_scope.

(** ** The tags: [gnuradio/pmt-serial-tags.scm] *)

Definition PST_TRUE : Z := 0x00.
Definition PST_FALSE : Z := 0x01.
Definition PST_SYMBOL : Z := 0x02.
Definition PST_INT32 : Z := 0x03.
Definition PST_DOUBLE : Z := 0x04.
Definition PST_COMPLEX : Z := 0x05.
Definition PST_NULL : Z := 0x06.
Definition PST_PAIR : Z := 0x07.
Definition PST_VECTOR : Z := 0x08.
Definition PST_DICT : Z := 0x09.
Definition PST_UNIFORM_VECTOR : Z := 0x0a.
Definition PST_COMMENT : Z := 0x3b.

(** ** Output primitives *)

(** A stream buffer being written, with the room left if it is limited. *)
Record sink := { written : list Z; room : option nat }.

(** [sb.sputc (c) != eof]. *)
Definition sputc (c : Z) (o : sink) : bool * sink :=
  match room o with
  | Some O => (false, o)
  | Some (S n) => (true, {| written := written o ++ [c]; room := Some n |})
  | None => (true, {| written := written o ++ [c]; room := None |})
  end.

Definition serialize_untagged_u8 (i : Z) (o : sink) : bool * sink := sputc ((i >> 0) .& 0xff) o.
Definition serialize_untagged_u16 (i : Z) (o : sink) : bool * sink :=
  let '(_, o) := sputc ((i >> 8) .& 0xff) o in
  sputc ((i >> 0) .& 0xff) o.
Definition serialize_untagged_u32 (i : Z) (o : sink) : bool * sink :=
  let '(_, o) := sputc ((i >> 24) .& 0xff) o in
  let '(_, o) := sputc ((i >> 16) .& 0xff) o in
  let '(_, o) := sputc ((i >> 8) .& 0xff) o in
  sputc ((i >> 0) .& 0xff) o.
Definition serialize_untagged_f64 (ii : Z) (o : sink) : bool * sink :=
  let '(_, o) := sputc ((ii >> 56) .& 0xff) o in
  let '(_, o) := sputc ((ii >> 48) .& 0xff) o in
  let '(_, o) := sputc ((ii >> 40) .& 0xff) o in
  let '(_, o) := sputc ((ii >> 32) .& 0xff) o in
  let '(_, o) := sputc ((ii >> 24) .& 0xff) o in
  let '(_, o) := sputc ((ii >> 16) .& 0xff) o in
  let '(_, o) := sputc ((ii >> 8) .& 0xff) o in
  sputc ((ii >> 0) .& 0xff) o.

(** ** Input primitives *)

Definition EOF : Z := -1.
Definition sbumpc (sb : list Z) : Z * list Z := match sb with [] => (EOF, []) | c :: sb => (c, sb) end.

(** One more byte below those read. *)
Definition more (i : Z) (sb : list Z) : Z * Z * list Z :=
  let '(t, sb) := sbumpc sb in (t, (i << 8) .| (t .& 0xff), sb).

Definition deserialize_untagged_u8 (sb : list Z) : bool * Z * list Z :=
  let '(t, sb) := sbumpc sb in (negb (t =? EOF), t .& 0xff, sb).
Definition deserialize_untagged_u16 (sb : list Z) : bool * Z * list Z :=
  let '(t, sb) := sbumpc sb in
  let i := t .& 0xff in
  let '(t, i, sb) := more i sb in
  (negb (t =? EOF), u16 i, sb).
Definition deserialize_untagged_u32 (sb : list Z) : bool * Z * list Z :=
  let '(t, sb) := sbumpc sb in
  let i := t .& 0xff in
  let '(t, i, sb) := more i sb in
  let '(t, i, sb) := more i sb in
  let '(t, i, sb) := more i sb in
  (negb (t =? EOF), u32 i, sb).
Definition deserialize_untagged_f64 (sb : list Z) : bool * Z * list Z :=
  let '(t, sb) := sbumpc sb in
  let i := t .& 0xff in
  let '(t, i, sb) := more i sb in
  let '(t, i, sb) := more i sb in
  let '(t, i, sb) := more i sb in
  let '(t, i, sb) := more i sb in
  let '(t, i, sb) := more i sb in
  let '(t, i, sb) := more i sb in
  let '(t, i, sb) := more i sb in
  (negb (t =? EOF), u64 i, sb).

(** ** Conversion to single precision and back *)

(** [float i = x; (double) i] on bit patterns: round to nearest, ties to even,
    24 bits of precision, least exponent -149; a NaN keeps its upper payload. *)
Definition single (x : Z) : Z :=
  let sign := (x >> 63) << 63 in
  let e := (x >> 52) .& 0x7ff in
  let f := x .& 0xfffffffffffff in
  if e =? 0x7ff then
    if f =? 0 then x else (x .| 0x8000000000000) - (x .& 0x1fffffff)
  else
    let m := if e =? 0 then f else f + 2 ^ 52 in
    let E := Z.max e 1 - 1075 in
    let T := Z.max (E + Z.log2 m - 23) (-149) in
    if (m =? 0) || (T <=? E) then x
    else
      let q := m / 2 ^ (T - E) in
      let r := m mod 2 ^ (T - E) in
      let half := 2 ^ (T - E - 1) in
      let q := if (half <? r) || (r =? half) && Z.odd q then q + 1 else q in
      if q =? 0 then sign
      else if 127 <? Z.log2 q + T then sign .| (0x7ff << 52)
      else sign .| ((Z.log2 q + T + 1023) << 52) .| (q * 2 ^ (52 - Z.log2 q) - 2 ^ 52).

(** ** The writer *)

Fixpoint put_chars (s : list Z) (ok : bool) (o : sink) : bool * sink :=
  match s with
  | [] => (ok, o)
  | c :: s => let '(b, o) := serialize_untagged_u8 c o in put_chars s (ok && b) o
  end.

(** [pmt_serialize], the recursion and the [goto tail_recursion] alike bounded
    by [fuel]. *)
Fixpoint serialize_from (fuel : nat) (obj : Z) (sb : sink) : M (bool * sink) :=
  match fuel with
  | O => throw diverges
  | S fuel =>
      o ← deref obj;
      if is_bool o then mret (serialize_untagged_u8 (if pmt_eq obj PMT_T then PST_TRUE else PST_FALSE) sb)
      else if pmt_is_null obj then mret (serialize_untagged_u8 PST_NULL sb)
      else
        match o with
        | pmt_symbol s _ =>
            let '(ok, sb) := serialize_untagged_u8 PST_SYMBOL sb in
            let '(b, sb) := serialize_untagged_u16 (u32 (Z.of_nat (length s))) sb in
            mret (put_chars s (ok && b) sb)
        | pmt_pair car cdr =>
            let '(ok, sb) := serialize_untagged_u8 PST_PAIR sb in
            '(b, sb) ← serialize_from fuel car sb;
            if negb (ok && b) then mret (false, sb) else serialize_from fuel cdr sb
        | pmt_integer i =>
            if (i <? -2147483647) || (2147483647 <? i) then throw (notimplemented obj)
            else
              let '(ok, sb) := serialize_untagged_u8 PST_INT32 sb in
              let '(b, sb) := serialize_untagged_u32 (u32 i) sb in
              mret (ok && b, sb)
        | pmt_real x =>
            let i := single x in
            let '(ok, sb) := serialize_untagged_u8 PST_DOUBLE sb in
            let '(b, sb) := serialize_untagged_f64 i sb in
            mret (ok && b, sb)
        | pmt_complex re im =>
            let '(ok, sb) := serialize_untagged_u8 PST_COMPLEX sb in
            let '(b1, sb) := serialize_untagged_f64 re sb in
            let '(b2, sb) := serialize_untagged_f64 im sb in
            mret (ok && b1 && b2, sb)
        | _ => throw (notimplemented obj)
        end
  end.
Definition pmt_serialize (obj : Z) (sb : sink) : M (bool * sink) :=
  bounded (fun n => serialize_from n obj sb).
Definition pmt_serialize_str (obj : Z) : M (list Z) :=
  '(_, sb) ← pmt_serialize obj {| written := []; room := None |}; mret (written sb).

(** ** The reader *)

(** [parse_pair], given the reader of one object.  [sungetc] puts the tag back. *)
Fixpoint parse_pair (deserialize : list Z -> M (Z * list Z)) (fuel : nat) (sb : list Z)
    (lastnptr val : Z) : M (Z * list Z) :=
  match fuel with
  | O => throw diverges
  | S fuel =>
      '(expr, sb) ← deserialize sb;
      nptr ← pmt_cons expr PMT_NIL;
      val ← (if pmt_is_null lastnptr then mret nptr
             else _ ← pmt_set_cdr lastnptr nptr; mret val);
      let lastnptr := nptr in
      let '(ok, tag, sb') := deserialize_untagged_u8 sb in
      if negb ok then throw (malformed PMT_F)
      else if tag =? PST_PAIR then parse_pair deserialize fuel sb' lastnptr val
      else if tag =? PST_NULL then
        _ ← pmt_set_cdr lastnptr PMT_NIL;
        mret (val, sb')
      else
        '(expr, sb) ← deserialize sb;
        _ ← pmt_set_cdr lastnptr expr;
        mret (val, sb)
  end.

Definition TMPBUF_SIZE : Z := 1024.

(** [junk] is the value of the uninitialized variable [i] of the complex case. *)
Fixpoint deserialize_from (junk : Z) (fuel : nat) (sb : list Z) : M (Z * list Z) :=
  match fuel with
  | O => throw diverges
  | S fuel =>
      let '(ok, tag, sb) := deserialize_untagged_u8 sb in
      if negb ok then mret (PMT_EOF, sb)
      else if tag =? PST_TRUE then mret (PMT_T, sb)
      else if tag =? PST_FALSE then mret (PMT_F, sb)
      else if tag =? PST_NULL then mret (PMT_NIL, sb)
      else if tag =? PST_SYMBOL then
        let '(ok, len, sb) := deserialize_untagged_u16 sb in
        if negb ok then throw (malformed PMT_F)
        else if TMPBUF_SIZE <? len then throw (notimplemented PMT_F)
        else if Z.of_nat (length sb) <? len then throw (malformed PMT_F)
        else p ← pmt_intern (take (Z.to_nat len) sb); mret (p, drop (Z.to_nat len) sb)
      else if tag =? PST_INT32 then
        let '(ok, v, sb) := deserialize_untagged_u32 sb in
        if negb ok then throw (malformed PMT_F)
        else p ← pmt_from_long (s32 v); mret (p, sb)
      else if tag =? PST_PAIR then parse_pair (deserialize_from junk fuel) fuel sb PMT_NIL PMT_NIL
      else if tag =? PST_DOUBLE then
        let '(ok, v, sb) := deserialize_untagged_f64 sb in
        if negb ok then throw (malformed PMT_F)
        else p ← pmt_from_double v; mret (p, sb)
      else if tag =? PST_COMPLEX then
        let '(ok1, r, sb) := deserialize_untagged_f64 sb in
        if ok1 then p ← pmt_make_rectangular r junk; mret (p, sb)
        else
          let '(ok2, i, sb) := deserialize_untagged_f64 sb in
          if negb ok2 then throw (malformed PMT_F)
          else p ← pmt_make_rectangular r i; mret (p, sb)
      else
        t ← pmt_from_long tag;
        if (tag =? PST_VECTOR) || (tag =? PST_DICT) || (tag =? PST_UNIFORM_VECTOR) || (tag =? PST_COMMENT)
        then throw (notimplemented t) else throw (malformed t)
  end.
Definition pmt_deserialize (junk : Z) (sb : list Z) : M (Z * list Z) :=
  deserialize_from junk (S (length sb)) sb.
Definition pmt_deserialize_str (junk : Z) (s : list Z) : M Z :=
  '(p, _) ← pmt_deserialize junk s; mret p.

(** ** Written bytes *)

(** Writing a list of bytes: as many as there is room for. *)
Fixpoint emit (bs : list Z) (o : sink) : bool * sink :=
  match bs with
  | [] => (true, o)
  | c :: bs => let '(b, o) := sputc c o in let '(ok, o) := emit bs o in (b && ok, o)
  end.

Definition fits (n : nat) (o : sink) : bool :=
  match room o with None => true | Some r => (n <=? r)%nat end.
Definition after (bs : list Z) (o : sink) : sink :=
  match room o with
  | None => {| written := written o ++ bs; room := None |}
  | Some r => {| written := written o ++ take r bs; room := Some (r - length bs)%nat |}
  end.

Lemma emit_eq bs o : emit bs o = (fits (length bs) o, after bs o).
Proof.
  revert o. induction bs as [|c bs IH]; intros [w [r|]]; unfold fits, after in *; cbn [emit room written].
  - rewrite take_nil, app_nil_r. cbn. by rewrite Nat.sub_0_r.
  - by rewrite app_nil_r.
  - destruct r as [|r]; cbn [sputc room written]; rewrite IH; cbn [room written].
    + cbn. by rewrite ?take_0, ?app_nil_r.
    + cbn. by rewrite <- app_assoc.
  - cbn [sputc room written]. rewrite IH. cbn. by rewrite <- app_assoc.
Qed.

Lemma emit_app b1 b2 o :
  emit (b1 ++ b2) o = let '(k1, o) := emit b1 o in let '(k2, o) := emit b2 o in (k1 && k2, o).
Proof.
  revert o. induction b1 as [|c b1 IH]; intros o; cbn [app emit].
  - by destruct (emit b2 o).
  - destruct (sputc c o) as [b o1]. rewrite IH. destruct (emit b1 o1) as [k1 o2].
    destruct (emit b2 o2) as [k2 o3]. by rewrite andb_assoc.
Qed.

(** Once full, always full: the result for the last byte decides. *)
Lemma emit_cons c b bs o : emit (c :: b :: bs) o = let '(_, o) := sputc c o in emit (b :: bs) o.
Proof.
  rewrite emit_eq. unfold fits, after, sputc. destruct o as [w [[|r]|]]; cbn [room written];
    rewrite emit_eq; unfold fits, after; cbn [room written]; cbn; rewrite ?app_nil_r, <- ?app_assoc; done.
Qed.

(** The bytes of an integer, the most significant first. *)
Fixpoint big_endian (n : nat) (i : Z) : list Z :=
  match n with O => [] | S n => big_endian n (i >> 8) ++ [i .& 0xff] end.

Lemma emit_one c o : sputc c o = emit [c] o.
Proof. cbn [emit]. destruct (sputc c o) as [b o1]. by rewrite andb_true_r. Qed.

Lemma serialize_u8 i o : serialize_untagged_u8 i o = emit (big_endian 1 i) o.
Proof. unfold serialize_untagged_u8. by rewrite Z.shiftr_0_r, emit_one. Qed.

Ltac bytes := cbn [big_endian app]; rewrite ?emit_cons, ?Z.shiftr_shiftr, ?Z.shiftr_0_r by lia.

Lemma serialize_u16 i o : serialize_untagged_u16 i o = emit (big_endian 2 i) o.
Proof.
  unfold serialize_untagged_u16. bytes. destruct (sputc _ o) as [? o1]. apply emit_one.
Qed.

Lemma serialize_u32 i o : serialize_untagged_u32 i o = emit (big_endian 4 i) o.
Proof.
  unfold serialize_untagged_u32. bytes. destruct (sputc _ o) as [? o1]. bytes.
  destruct (sputc _ o1) as [? o2]. bytes. destruct (sputc _ o2) as [? o3]. apply emit_one.
Qed.

Lemma serialize_f64 i o : serialize_untagged_f64 i o = emit (big_endian 8 i) o.
Proof.
  unfold serialize_untagged_f64. bytes. destruct (sputc _ o) as [? o1]. bytes.
  destruct (sputc _ o1) as [? o2]. bytes. destruct (sputc _ o2) as [? o3]. bytes.
  destruct (sputc _ o3) as [? o4]. bytes. destruct (sputc _ o4) as [? o5]. bytes.
  destruct (sputc _ o5) as [? o6]. bytes. destruct (sputc _ o6) as [? o7]. apply emit_one.
Qed.

Lemma put_chars_emit s ok o :
  put_chars s ok o = let '(b, o) := emit (map (fun c => c .& 0xff) s) o in (ok && b, o).
Proof.
  revert ok o. induction s as [|c s IH]; intros ok o; cbn [put_chars map emit].
  - by rewrite andb_true_r.
  - rewrite serialize_u8. cbn [big_endian app emit]. destruct (sputc _ o) as [b o1].
    rewrite IH, andb_true_r. destruct (emit _ o1) as [b2 o2]. by rewrite andb_assoc.
Qed.

(** ** The structure of an object *)

Inductive tree :=
| TTrue | TFalse | TNull
| TSym (name : list Z)
| TInt (z : Z)
| TReal (x : Z)
| TComplex (re im : Z)
| TOther (o : pmt_base)
| TPair (car cdr : tree).

(** Objects the format has no code for. *)
Definition unsupported (o : pmt_base) : bool :=
  match o with
  | pmt_uint64 _ | pmt_vector _ | pmt_tuple _ | pmt_uniform_vector _ _ | pmt_any _ => true
  | _ => false
  end.

(** Pointer [x] leads to an acyclic object of structure [t]. *)
Fixpoint repr (s : store) (x : Z) (t : tree) : Prop :=
  match t with
  | TTrue => x = PMT_T
  | TFalse => x = PMT_F
  | TNull => x = PMT_NIL
  | TSym n => exists next, objs s !! x = Some (pmt_symbol n next)
  | TInt z => objs s !! x = Some (pmt_integer z)
  | TReal f => objs s !! x = Some (pmt_real f)
  | TComplex re im => objs s !! x = Some (pmt_complex re im)
  | TOther o => objs s !! x = Some o /\ unsupported o = true
  | TPair a d => exists p q, objs s !! x = Some (pmt_pair p q) /\ repr s p a /\ repr s q d
  end.

Fixpoint tdepth (t : tree) : nat :=
  match t with TPair a d => S (Nat.max (tdepth a) (tdepth d)) | _ => O end.
Fixpoint tsize (t : tree) : nat :=
  match t with TPair a d => S (tsize a + tsize d) | _ => O end.

Lemma repr_grows s s' x t : grows s s' -> repr s x t -> repr s' x t.
Proof.
  intros Hg. revert x. induction t as [| | |n|z|f|re im|o|a IHa d IHd]; intros x; cbn [repr]; try done.
  - intros [next Hx]. exists next. by eapply grows_lookup.
  - by apply grows_lookup.
  - by apply grows_lookup.
  - by apply grows_lookup.
  - intros [Hx ?]. split; [by eapply grows_lookup|done].
  - intros (p & q & Hx & Ha & Hd). exists p, q. split; [by eapply grows_lookup|auto].
Qed.

Lemma repr_object s x t : wf s -> repr s x t -> is_Some (objs s !! x).
Proof.
  intros Hw. destruct t; cbn [repr]; try (intros ->; eexists; apply Hw); try (intros; by eexists).
  - intros [? ?]. by eexists.
  - intros [? ?]. by eexists.
  - intros (? & ? & ? & _). by eexists.
Qed.

Lemma repr_unique s x t1 t2 : wf s -> repr s x t1 -> repr s x t2 -> t1 = t2.
Proof.
  intros Hw. pose proof (wf_true _ Hw) as WT. pose proof (wf_false _ Hw) as WF.
  pose proof (wf_nil _ Hw) as WN. revert x t2.
  induction t1 as [| | |n|z|f|re im|o|a IHa d IHd]; intros x t2; destruct t2; cbn [repr];
    intros H1 H2; subst; try congruence;
    repeat match goal with
    | H : exists _, _ |- _ => destruct H as [? ?]
    | H : _ /\ _ |- _ => destruct H as [? ?]
    end; try congruence;
    repeat match goal with
    | H1 : objs s !! ?x = Some _, H2 : objs s !! ?x = Some _ |- _ =>
        rewrite H1 in H2; injection H2 as ?; subst
    end; try done; try congruence.
  f_equal; eauto.
Qed.

Lemma repr_bound s x t : wf s -> repr s x t -> (tdepth t <= size (objs s))%nat.
Proof.
  intros Hw Ht.
  assert (exists ps, length ps = tdepth t /\ NoDup ps /\
    forall p, p ∈ ps -> is_Some (objs s !! p) /\ exists t', repr s p t' /\ (tsize t' <= tsize t)%nat)
    as (ps & <- & Hn & Hp).
  { revert x Ht. induction t as [| | |n|z|f|re im|o|a IHa d IHd]; intros x Ht;
      try (exists []; split; [done|]; split; [constructor|set_solver]).
    pose proof Ht as (p & q & Hx & Ha & Hd). cbn [tdepth tsize].
    assert (forall u y, repr s y u -> (tsize u <= tsize a + tsize d)%nat ->
      (exists ps, length ps = tdepth u /\ NoDup ps /\
         forall p, p ∈ ps -> is_Some (objs s !! p) /\ exists t', repr s p t' /\ (tsize t' <= tsize u)%nat) ->
      exists ps, length ps = S (tdepth u) /\ NoDup ps /\ forall p, p ∈ ps ->
        is_Some (objs s !! p) /\ exists t', repr s p t' /\ (tsize t' <= S (tsize a + tsize d))%nat)
      as Hgo.
    { intros u y Hu Hle (ps & Hlen & Hn & Hp). exists (x :: ps). split; [cbn; by rewrite Hlen|]. split.
      - apply NoDup_cons. split; [|done]. intros Hin. destruct (Hp x Hin) as (_ & t' & Ht' & Hs').
        rewrite (repr_unique _ _ _ _ Hw Ht' Ht) in Hs'. cbn in Hs'. lia.
      - intros r Hr. apply elem_of_cons in Hr as [->|Hr].
        + split; [by eexists|]. exists (TPair a d). split; [done|cbn; lia].
        + destruct (Hp r Hr) as (? & t' & ? & ?). split; [done|]. exists t'. split; [done|lia]. }
    destruct (Nat.max_spec (tdepth a) (tdepth d)) as [[_ ->]|[_ ->]].
    - apply (Hgo d q); [done|lia|by eapply IHd].
    - apply (Hgo a p); [done|lia|by eapply IHa]. }
  apply nodup_bound; [done|]. intros p Hin. by apply Hp.
Qed.

(** ** What is written *)

Fixpoint encode (t : tree) : list Z :=
  match t with
  | TTrue => [PST_TRUE]
  | TFalse => [PST_FALSE]
  | TNull => [PST_NULL]
  | TSym n => PST_SYMBOL :: big_endian 2 (u32 (Z.of_nat (length n))) ++ map (fun c => c .& 0xff) n
  | TInt z => PST_INT32 :: big_endian 4 (u32 z)
  | TReal x => PST_DOUBLE :: big_endian 8 (single x)
  | TComplex re im => PST_COMPLEX :: big_endian 8 re ++ big_endian 8 im
  | TOther _ => []
  | TPair a d => PST_PAIR :: encode a ++ encode d
  end.

Fixpoint writable (t : tree) : bool :=
  match t with
  | TInt z => (-2147483647 <=? z) && (z <=? 2147483647)
  | TOther _ => false
  | TPair a d => writable a && writable d
  | _ => true
  end.

Lemma neq_of_objects s p q o o' :
  objs s !! p = Some o -> objs s !! q = Some o' -> o <> o' -> p <> q.
Proof. congruence. Qed.

(** The first tests of [pmt_serialize] on an object that is not a constant. *)
Lemma serialize_object s x o (b1 b2 rest : M (bool * sink)) :
  wf s -> objs s !! x = Some o -> is_bool o = false -> o <> pmt_null ->
  (if is_bool o then b1 else if pmt_is_null x then b2 else rest) s = rest s.
Proof.
  intros Hw Hx Ho Hn. rewrite Ho. unfold pmt_is_null.
  destruct (Z.eqb_spec x PMT_NIL) as [->|_]; [|done]. rewrite (wf_nil _ Hw) in Hx. congruence.
Qed.

Lemma emit_pair c a d o :
  emit (c :: a ++ d) o =
  let '(ok, o) := sputc c o in
  let '(b, o) := emit a o in
  let '(k, o) := emit d o in (ok && b && k, o).
Proof.
  cbn [emit]. destruct (sputc c o) as [ok o1]. rewrite emit_app. destruct (emit a o1) as [b o2].
  destruct (emit d o2) as [k o3]. by rewrite andb_assoc.
Qed.

(** A full sink stays as it is. *)
Lemma emit_full bs o b o' cs :
  emit bs o = (b, o') -> b = false -> emit cs o' = (fits (length cs) o', o').
Proof.
  rewrite !emit_eq. intros [= <- <-]. unfold fits, after. destruct o as [w [r|]]; cbn [room written]; [|done].
  intros Hr. apply Nat.leb_gt in Hr. replace (r - length bs)%nat with O by lia. cbn.
  by rewrite app_nil_r.
Qed.

Lemma repr_is_object s x t : wf s -> repr s x t ->
  exists o, objs s !! x = Some o /\
    match t with
    | TTrue => x = PMT_T /\ o = pmt_bool
    | TFalse => x = PMT_F /\ o = pmt_bool
    | TNull => x = PMT_NIL /\ o = pmt_null
    | TSym n => exists next, o = pmt_symbol n next
    | TInt z => o = pmt_integer z
    | TReal f => o = pmt_real f
    | TComplex re im => o = pmt_complex re im
    | TOther o' => o = o' /\ unsupported o = true
    | TPair a d => exists p q, o = pmt_pair p q /\ repr s p a /\ repr s q d
    end.
Proof.
  intros Hw. destruct t; cbn [repr].
  1-3: intros ->; eexists; split; [apply Hw|done].
  - intros [next Hx]. eauto.
  - eauto.
  - eauto.
  - eauto.
  - intros [Hx ?]. eauto.
  - intros (p & q & Hx & ? & ?). eexists. split; [exact Hx|]. eauto 6.
Qed.

Lemma encode_nonempty t : writable t = true -> encode t <> [].
Proof. by destruct t. Qed.

Lemma serialize_tag c o : c .& 0xff = c -> serialize_untagged_u8 c o = sputc c o.
Proof. intros H. rewrite serialize_u8. cbn [big_endian app]. by rewrite H, emit_one. Qed.

(** Whatever the room: the bytes that fit are written, and the result tells
    whether they all did. *)
Lemma serialize_loop s x t fuel o :
  wf s -> repr s x t -> (tdepth t < fuel)%nat -> writable t = true ->
  serialize_from fuel x o s = Ok (emit (encode t) o, s).
Proof.
  intros Hw. revert x fuel o.
  induction t as [| | |n|z|f|re im|ob|a IHa d IHd]; intros x [|fuel] o Ht Hf Hs; try lia;
    destruct (repr_is_object _ _ _ Hw Ht) as (obj & Hx & Hobj);
    cbn [writable] in Hs; try done; cbn [encode serialize_from]; call (deref_ok _ _ _ Hx).
  1-3: destruct Hobj as [-> ->]; unfold mret, M_ret; cbn [is_bool]; change (pmt_is_null PMT_NIL) with true;
    cbv iota; by rewrite serialize_tag, emit_one by done.
  - destruct Hobj as [next ->]. rewrite (serialize_object _ _ _ _ _ _ Hw Hx) by done.
    rewrite serialize_tag, emit_pair by done. destruct (sputc _ o) as [ok o1]. rewrite serialize_u16.
    destruct (emit _ o1) as [b o2]. rewrite put_chars_emit. by destruct (emit _ o2).
  - subst obj. rewrite (serialize_object _ _ _ _ _ _ Hw Hx) by done.
    apply andb_true_iff in Hs as [H1 H2]. apply Z.leb_le in H1, H2.
    destruct (Z.ltb_spec z (-2147483647)); [lia|]. destruct (Z.ltb_spec 2147483647 z); [lia|]. cbn [orb].
    rewrite serialize_tag by done. cbn [emit].
    destruct (sputc _ o) as [ok o1]. rewrite serialize_u32. by destruct (emit _ o1).
  - subst obj. rewrite (serialize_object _ _ _ _ _ _ Hw Hx), serialize_tag by done. cbn [emit].
    destruct (sputc _ o) as [ok o1]. rewrite serialize_f64. by destruct (emit _ o1).
  - subst obj. rewrite (serialize_object _ _ _ _ _ _ Hw Hx), serialize_tag, emit_pair by done.
    destruct (sputc _ o) as [ok o1]. rewrite serialize_f64. destruct (emit _ o1) as [b o2].
    rewrite serialize_f64. by destruct (emit _ o2).
  - destruct Hobj as (p & q & -> & Ha & Hd). rewrite (serialize_object _ _ _ _ _ _ Hw Hx) by done.
    apply andb_true_iff in Hs as [Hsa Hsd]. cbn [tdepth] in Hf.
    rewrite serialize_tag, emit_pair by done. destruct (sputc _ o) as [ok o1] eqn:E1.
    call (IHa p fuel o1 Ha ltac:(lia) Hsa). destruct (emit (encode a) o1) as [b o2] eqn:E2. cbv beta iota.
    destruct (ok && b) eqn:Eb; cbn [negb].
    + rewrite (IHd q fuel o2 Hd ltac:(lia) Hsd). by destruct (emit (encode d) o2).
    + assert (emit ([PST_PAIR] ++ encode a) o = (ok && b, o2)) as E.
      { rewrite emit_app, <- emit_one, E1, E2. done. }
      rewrite (emit_full _ _ _ _ (encode d) E Eb). done.
Qed.

Lemma serialize_refuses s x t fuel o :
  wf s -> repr s x t -> (tdepth t < fuel)%nat -> writable t = false -> room o = None ->
  exists q, serialize_from fuel x o s = Throw (notimplemented q).
Proof.
  intros Hw. revert x fuel o.
  induction t as [| | |n|z|f|re im|ob|a IHa d IHd]; intros x [|fuel] o Ht Hf Hs Ho; try lia;
    destruct (repr_is_object _ _ _ Hw Ht) as (obj & Hx & Hobj);
    cbn [writable] in Hs; try done; cbn [serialize_from]; rewrite (bind_ok _ _ _ _ _ (deref_ok _ _ _ Hx)).
  - subst obj. rewrite (serialize_object _ _ _ _ _ _ Hw Hx) by done. exists x.
    destruct (Z.ltb_spec z (-2147483647)); [done|]. destruct (Z.ltb_spec 2147483647 z); [done|].
    apply andb_false_iff in Hs as [Hs|Hs]; apply Z.leb_gt in Hs; lia.
  - destruct Hobj as [<- Hu]. exists x. rewrite (serialize_object _ _ _ _ _ _ Hw Hx) by (by destruct obj).
    by destruct obj.
  - destruct Hobj as (p & q & -> & Ha & Hd). rewrite (serialize_object _ _ _ _ _ _ Hw Hx) by done.
    cbn [tdepth] in Hf. rewrite serialize_tag by done.
    destruct (sputc PST_PAIR o) as [ok o1] eqn:E1.
    assert (ok = true /\ room o1 = None) as [-> Ho1].
    { unfold sputc in E1. rewrite Ho in E1. by injection E1 as <- <-. }
    destruct (writable a) eqn:Ea; cbn [andb] in Hs.
    + call (serialize_loop s p a fuel o1 Hw Ha ltac:(lia) Ea). rewrite emit_eq. unfold fits, after.
      rewrite Ho1. cbn. apply (IHd q fuel _ Hd); [lia|done|done].
    + destruct (IHa p fuel o1 Ha ltac:(lia) eq_refl Ho1) as [r E]. exists r.
      by rewrite (bind_throw _ _ _ _ E).
Qed.

Lemma serialize_writes s x t o :
  wf s -> repr s x t ->
  (writable t = true ->
     pmt_serialize x o s = Ok ((fits (length (encode t)) o, after (encode t) o), s) /\
     pmt_serialize_str x s = Ok (encode t, s)) /\
  (writable t = false -> exists q, pmt_serialize_str x s = Throw (notimplemented q)).
Proof.
  intros Hw Ht. pose proof (repr_bound _ _ _ Hw Ht) as Hb.
  assert (forall o, writable t = true -> pmt_serialize x o s = Ok (emit (encode t) o, s)) as Hok.
  { intros o' Hs. unfold pmt_serialize, bounded. apply serialize_loop; auto. lia. }
  split.
  - intros Hs. rewrite (Hok o Hs), emit_eq. split; [done|]. unfold pmt_serialize_str.
    call (Hok {| written := []; room := None |} Hs). by rewrite emit_eq.
  - intros Hs.
    destruct (serialize_refuses s x t (S (size (objs s))) {| written := []; room := None |} Hw Ht
      ltac:(lia) Hs eq_refl) as [q E]. exists q. unfold pmt_serialize_str.
    by rewrite (bind_throw _ _ _ _ (E : pmt_serialize x _ s = _)).
Qed.

(** ** What is read *)

Fixpoint rounded (t : tree) : tree :=
  match t with
  | TReal x => TReal (single x)
  | TPair a d => TPair (rounded a) (rounded d)
  | _ => t
  end.

Fixpoint readable (t : tree) : bool :=
  match t with
  | TSym n => (length n <=? 1024)%nat && forallb (fun c => (0 <=? c) && (c <? 256)) n
  | TInt z => (-2147483647 <=? z) && (z <=? 2147483647)
  | TReal x => (0 <=? x) && (x <? 2 ^ 64)
  | TComplex _ _ | TOther _ => false
  | TPair a d => readable a && readable d
  | _ => true
  end.

Lemma readable_writable t : readable t = true -> writable t = true.
Proof.
  induction t as [| | |n|z|f|re im|o|a IHa d IHd]; cbn [readable writable]; try done.
  intros H. apply andb_true_iff in H as [Ha Hd]. by rewrite IHa, IHd.
Qed.

(** One byte joined to those above it. *)
Lemma join v : ((v >> 8) << 8) .| ((v .& 0xff) .& 0xff) = v.
Proof.
  rewrite <- Z.land_assoc. change (0xff .& 0xff) with (Z.ones 8). apply Z.bits_inj'. intros i Hi.
  rewrite Z.lor_spec, Z.land_spec, Z.testbit_ones, Z.shiftl_spec by lia.
  destruct (Z.ltb_spec i 8).
  - rewrite Z.testbit_neg_r by lia. destruct (Z.leb_spec 0 i); [|lia]. by rewrite andb_true_r.
  - rewrite !andb_false_r, orb_false_r, Z.shiftr_spec by lia. f_equal. lia.
Qed.

Lemma top_byte v n : 0 <= v < 2 ^ (n + 8) -> 0 <= n -> ((v >> n) .& 0xff) .& 0xff = v >> n.
Proof.
  intros Hv Hn. rewrite <- Z.land_assoc. change (0xff .& 0xff) with (Z.ones 8).
  rewrite land_mask by lia. rewrite Z.shiftr_div_pow2 by lia. apply Z.mod_small.
  rewrite Z.pow_add_r in Hv by lia. split; [apply Z.div_pos; lia|]. apply Z.div_lt_upper_bound; lia.
Qed.

Lemma not_eof v : (v .& 0xff =? EOF) = false.
Proof. apply Z.eqb_neq. pose proof (land_range v 0xff). unfold EOF. lia. Qed.

Lemma join_at v n m : m = n + 8 -> 0 <= n -> ((v >> m) << 8) .| ((v >> n .& 0xff) .& 0xff) = v >> n.
Proof. intros -> Hn. rewrite <- (join (v >> n)) at 2. by rewrite Z.shiftr_shiftr by lia. Qed.

(** The bytes of [v] below position [n + 8], the ones above being joined already. *)
Ltac joins v n :=
  rewrite not_eof, ?Z.shiftr_shiftr by lia; repeat match goal with
  | |- context [v >> (?a + ?b)] => let c := eval cbv in (a + b) in change (a + b) with c
  end;
  rewrite (top_byte v n) by (cbn; lia);
  repeat match goal with
  | |- context [((v >> ?m) << 8) .| ((v >> ?k .& 0xff) .& 0xff)] => rewrite (join_at v k m) by lia
  end;
  match goal with |- context [((v >> 8) << 8) .| ?b] => rewrite (join v : ((v >> 8) << 8) .| b = v) end.

Lemma read_u16 v rest : 0 <= v < 2 ^ 16 ->
  deserialize_untagged_u16 (big_endian 2 v ++ rest) = (true, v, rest).
Proof.
  intros Hv. unfold deserialize_untagged_u16. cbn [big_endian app sbumpc more].
  joins v 8. unfold u16. by rewrite Z.mod_small by lia.
Qed.

Lemma read_u32 v rest : 0 <= v < 2 ^ 32 ->
  deserialize_untagged_u32 (big_endian 4 v ++ rest) = (true, v, rest).
Proof.
  intros Hv. unfold deserialize_untagged_u32. cbn [big_endian app sbumpc more].
  joins v 24. unfold u32. by rewrite Z.mod_small by lia.
Qed.

Lemma read_f64 v rest : 0 <= v < 2 ^ 64 ->
  deserialize_untagged_f64 (big_endian 8 v ++ rest) = (true, v, rest).
Proof.
  intros Hv. unfold deserialize_untagged_f64. cbn [big_endian app sbumpc more].
  joins v 56. unfold u64. by rewrite Z.mod_small by lia.
Qed.

(** ** Single precision values *)

Lemma sign_range x : 0 <= x < 2 ^ 64 -> 0 <= (x >> 63) << 63 < 2 ^ 64.
Proof.
  intros Hx. rewrite shl_mul, Z.shiftr_div_pow2 by lia.
  pose proof (Z.div_pos x (2 ^ 63) ltac:(lia) ltac:(lia)).
  pose proof (Z.div_lt_upper_bound x (2 ^ 63) 2 ltac:(lia) ltac:(lia)). lia.
Qed.

Lemma quotient_log m n : 0 < n -> 0 < m -> Z.log2 m - n <= 23 -> m / 2 ^ n < 2 ^ 24.
Proof.
  intros Hn Hm Hl. apply Z.div_lt_upper_bound; [lia|]. rewrite <- Z.pow_add_r by lia.
  eapply Z.lt_le_trans; [apply (Z.log2_spec m); lia|]. apply Z.pow_le_mono_r; lia.
Qed.

Lemma exponent_mantissa q k : 0 < q <= 2 ^ 24 -> 0 <= k ->
  0 <= q * 2 ^ (52 - Z.log2 q) - 2 ^ 52 < 2 ^ 52.
Proof.
  intros Hq _. pose proof (Z.log2_spec q ltac:(lia)) as Hl. pose proof (Z.log2_nonneg q).
  assert (Z.log2 q <= 24) by (rewrite <- (Z.log2_pow2 24) by lia; apply Z.log2_le_mono; lia).
  assert (2 ^ 52 = 2 ^ Z.log2 q * 2 ^ (52 - Z.log2 q)) as E by (rewrite <- Z.pow_add_r by lia; f_equal; lia).
  assert (2 ^ 53 = 2 ^ Z.succ (Z.log2 q) * 2 ^ (52 - Z.log2 q)) as E2
    by (rewrite <- Z.pow_add_r by lia; f_equal; lia).
  pose proof (Z.pow_pos_nonneg 2 (52 - Z.log2 q) ltac:(lia) ltac:(lia)). nia.
Qed.

Lemma single_range x : 0 <= x < 2 ^ 64 -> 0 <= single x < 2 ^ 64.
Proof.
  intros Hx. unfold single. pose proof (sign_range x Hx) as Hs.
  set (e := (x >> 52) .& 0x7ff). set (f := x .& 0xfffffffffffff).
  assert (0 <= e <= 0x7ff) as He by (apply land_range; lia).
  assert (0 <= f <= 0xfffffffffffff) as Hf by (apply land_range; lia). clearbody e f.
  case_if.
  { case_if; [done|]. pose proof (lor_range x 0x8000000000000 64 ltac:(lia) Hx ltac:(lia)).
    pose proof (land_range x 0x1fffffff). 
    assert (x .& 0x1fffffff <= x .| 0x8000000000000); [|lia].
    assert (x .& 0x1fffffff <= x); [|]. 
    - change 0x1fffffff with (Z.ones 29). rewrite land_mask by lia. apply Z.mod_le; lia.
    - assert (x <= x .| 0x8000000000000); [|lia]. apply Z.ldiff_le; [lia|].
      apply Z.bits_inj'. intros i Hi. rewrite Z.ldiff_spec, Z.lor_spec, Z.bits_0.
      by destruct (Z.testbit x i). }
  cbv zeta. set (m := if e =? 0 then f else f + 2 ^ 52).
  set (E := Z.max e 1 - 1075). set (T := Z.max (E + Z.log2 m - 23) (-149)).
  case_if; [done|]. 
  assert (0 < m) by (unfold m in *; zbool; case_if; zbool; lia).
  assert (T > E) by (zbool; lia).
  assert (Z.log2 m - (T - E) <= 23) as Hl by lia.
  pose proof (quotient_log m (T - E) ltac:(lia) ltac:(lia) Hl) as Hq.
  assert (0 <= m / 2 ^ (T - E)) as Hq0 by (apply Z.div_pos; [lia|apply Z.pow_pos_nonneg; lia]).
  set (q := if (2 ^ (T - E - 1) <? _) || _ then _ else _).
  assert (0 <= q <= 2 ^ 24) as Hqr by (unfold q; case_if; lia). clearbody q.
  case_if; [done|]. 
  case_if; [apply lor_range; [lia|done|by vm_compute]|]. zbool.
  apply lor_range; [lia| |].
  - apply lor_range; [lia|done|]. rewrite shl_mul by lia. pose proof (Z.log2_nonneg q). lia.
  - pose proof (exponent_mantissa q 0 ltac:(lia) ltac:(lia)). lia.
Qed.

(** ** Reading what was written *)

(** [s''] keeps the objects of [s'] that are not pairs of [s]: those a value
    built between [s] and [s'] may be made of. *)
Definition keeps (s s' s'' : store) : Prop :=
  forall p o, objs s' !! p = Some o -> is_pair o = false \/ objs s !! p = None -> objs s'' !! p = Some o.
Definition built (s s' : store) (p : Z) (t : tree) : Prop := forall s'', keeps s s' s'' -> repr s'' p t.

(** The store changed but for the cell [l], whose tail was set. *)
Record grows_but (l e : Z) (s s' : store) (q : Z) : Prop := {
  but_wf : wf s';
  but_others : forall p o, p <> l -> objs s !! p = Some o -> objs s' !! p = Some o;
  but_cell : objs s' !! l = Some (pmt_pair e q)
}.

Lemma set_cdr_spec s l e d q :
  wf s -> objs s !! l = Some (pmt_pair e d) -> is_Some (objs s !! q) ->
  pmt_set_cdr l q s = Ok (tt, put l (pmt_pair e q) s) /\ grows_but l e s (put l (pmt_pair e q) s) q.
Proof.
  intros Hw Hl Hq. split.
  { unfold pmt_set_cdr. by call (deref_ok _ _ _ Hl). }
  split.
  - apply (wf_put _ _ _ _ Hw Hl); [done|done|]. intros r Hr. cbn in Hr.
    apply elem_of_cons in Hr as [->|Hr].
    + apply (wf_refs _ Hw _ _ e Hl). cbn. set_solver.
    + apply list_elem_of_singleton in Hr as ->. done.
  - intros p o Hp Ho. cbn. by rewrite lookup_insert_ne.
  - cbn. by rewrite lookup_insert_eq.
Qed.

(** Evaluates the tests of the tag. *)
Ltac tag := repeat match goal with
  | |- context [?a =? ?b] =>
      let v := eval cbv in (a =? b) in
      match v with true => idtac | false => idtac end; change (a =? b) with v
  end; cbn [negb orb]; cbv iota.

Section reader.
Context (junk : Z).

Definition reads (t : tree) : Prop :=
  forall fuel rest s, wf s -> (length (encode t ++ rest) < fuel)%nat ->
  exists p s', deserialize_from junk fuel (encode t ++ rest) s = Ok ((p, rest), s') /\
    grows s s' /\ is_Some (objs s' !! p) /\ built s s' p (rounded t).

(** [parse_pair] after a cell was made. *)
Definition parse_tail (deserialize : list Z -> M (Z * list Z)) (fuel : nat) (sb : list Z)
    (lastnptr val : Z) : M (Z * list Z) :=
  let '(ok, tag, sb') := deserialize_untagged_u8 sb in
  if negb ok then throw (malformed PMT_F)
  else if tag =? PST_PAIR then parse_pair deserialize fuel sb' lastnptr val
  else if tag =? PST_NULL then
    _ ← pmt_set_cdr lastnptr PMT_NIL;
    mret (val, sb')
  else
    '(expr, sb) ← deserialize sb;
    _ ← pmt_set_cdr lastnptr expr;
    mret (val, sb).

Definition reads_tail (t : tree) : Prop :=
  forall fuel f rest s l e val, wf s -> objs s !! l = Some (pmt_pair e PMT_NIL) ->
  (length (encode t ++ rest) < fuel)%nat -> (length (encode t ++ rest) <= f)%nat ->
  exists q s', parse_tail (deserialize_from junk fuel) f (encode t ++ rest) l val s = Ok ((val, rest), s') /\
    grows_but l e s s' q /\ built s s' q (rounded t).

Lemma read_tag c sb : c .& 0xff = c -> deserialize_untagged_u8 (c :: sb) = (negb (c =? EOF), c, sb).
Proof. intros H. cbn. by rewrite H. Qed.

Ltac alloc_spec o :=
  let s' := fresh "s'" in let E := fresh "E" in let G := fresh "G" in let Hp := fresh "Hp" in
  match goal with
  | Hw : wf ?s |- _ =>
      destruct (wf_alloc s o Hw) as (s' & E & G & Hp & _); [done|cbn; set_solver|];
      call (E : _ = Ok (free s, s')); exists (free s), s'; split; [done|]; split; [exact G|];
      split; [by eexists|]; intros s'' Hk; apply Hk; [exact Hp|by left]
  end.

Lemma reads_atom t : readable t = true -> (forall a d, t <> TPair a d) -> reads t.
Proof.
  intros Hr Hn [|fuel] rest s Hw Hf; [cbn in Hf; lia|].
  destruct t as [| | |n|z|f|re im|o|a d]; cbn [readable] in Hr; try done;
    try (by destruct (Hn a d)); cbn [encode app deserialize_from rounded];
    rewrite read_tag by done; tag.
  1-3: eexists _, s; split; [reflexivity|]; split; [by apply grows_refl|];
       split; [eexists; apply Hw|]; by intros s'' _.
  - apply andb_true_iff in Hr as [Hlen Hb]. apply Nat.leb_le in Hlen.
    assert (map (fun c => c .& 255) n = n) as ->.
    { clear -Hb. induction n as [|c n IH]; [done|]. cbn [map forallb] in *.
      apply andb_true_iff in Hb as [Hc Hb]. zbool. rewrite IH by done. f_equal.
      change 255 with (Z.ones 8). rewrite land_mask by lia. apply Z.mod_small. lia. }
    assert (u32 (Z.of_nat (length n)) = Z.of_nat (length n)) as -> by (unfold u32; apply Z.mod_small; lia).
    rewrite <- app_assoc, read_u16 by lia. cbn [negb]. unfold TMPBUF_SIZE.
    destruct (Z.ltb_spec 1024 (Z.of_nat (length n))); [lia|].
    destruct (Z.ltb_spec (Z.of_nat (length (n ++ rest))) (Z.of_nat (length n))) as [Hlt|_];
      [rewrite length_app in Hlt; lia|].
    rewrite Nat2Z.id, take_app_length, drop_app_length.
    destruct (intern_spec s n Hw) as (p & s' & next & E & G & Hp & _). call E.
    exists p, s'. split; [done|]. split; [done|]. split; [by eexists|]. intros s'' Hk. exists next.
    apply Hk; [exact Hp|by left].
  - apply andb_true_iff in Hr as [H1 H2]. apply Z.leb_le in H1, H2.
    rewrite read_u32 by (unfold u32; apply Z.mod_pos_bound; lia). cbn [negb].
    assert (s32 (u32 z) = z) as ->.
    { unfold sx, u32. rewrite Zplus_mod_idemp_l, Z.mod_small; lia. }
    alloc_spec (pmt_integer z).
  - apply andb_true_iff in Hr as [H1 H2]. zbool.
    rewrite read_f64 by (apply single_range; lia). cbn [negb].
    alloc_spec (pmt_real (single f)).
Qed.

Lemma tail_cons des f sb s l val :
  parse_pair des (S f) sb l val s =
  match des sb s with
  | Throw x => Throw x
  | Ok ((expr, sb1), s1) =>
      (nptr ← pmt_cons expr PMT_NIL;
       val ← (if pmt_is_null l then mret nptr else _ ← pmt_set_cdr l nptr; mret val);
       parse_tail des f sb1 nptr val) s1
  end.
Proof. cbn [parse_pair]. unfold mbind at 1, M_bind at 1. by destruct (des sb s) as [[[expr sb1] s1]|]. Qed.

Lemma pair_not_nil s l e q : wf s -> objs s !! l = Some (pmt_pair e q) -> pmt_is_null l = false.
Proof. intros Hw Hl. apply Z.eqb_neq. intros ->. rewrite (wf_nil _ Hw) in Hl. done. Qed.

(** One cell appended after [l]. *)
Lemma append_cell s l e a q :
  wf s -> objs s !! l = Some (pmt_pair e q) -> is_Some (objs s !! a) ->
  exists n s2 s3, pmt_cons a PMT_NIL s = Ok (n, s2) /\ grows s s2 /\ objs s !! n = None /\
    pmt_set_cdr l n s2 = Ok (tt, s3) /\ grows_but l e s s3 n /\ objs s3 !! n = Some (pmt_pair a PMT_NIL).
Proof.
  intros Hw Hl [oa Ha]. destruct (wf_alloc s (pmt_pair a PMT_NIL) Hw) as (s2 & E & G & Hn & Hf); [done| |].
  { intros p Hp. cbn in Hp. apply elem_of_cons in Hp as [->|Hp]; [by eexists|].
    apply list_elem_of_singleton in Hp as ->. eexists. apply Hw. }
  set (n := free s) in *. clearbody n.
  destruct (set_cdr_spec s2 l e q n (grows_wf _ _ G) (grows_lookup _ _ _ _ G Hl)) as [E3 B];
    [by eexists|].
  exists n, s2. eexists. split; [exact E|]. split; [done|]. split; [done|]. split; [exact E3|].
  assert (n <> l) by congruence. split.
  - split; [by eapply but_wf| |by eapply but_cell]. intros p o Hp Ho. eapply but_others; [exact B|done|].
    by apply (grows_lookup _ _ _ _ G).
  - by apply (but_others _ _ _ _ _ B).
Qed.

Lemma tail_atom t : readable t = true -> (forall a d, t <> TPair a d) -> reads t -> reads_tail t.
Proof.
  intros Hr Hn Ht fuel f rest s l e val Hw Hl Hf Hf'.
  assert (t = TNull \/ t <> TNull) as [->|Hnull] by (destruct t; auto; by right).
  { cbn [encode app parse_tail]. unfold parse_tail. rewrite read_tag by done. tag.
    destruct (set_cdr_spec s l e PMT_NIL PMT_NIL Hw Hl ltac:(eexists; apply Hw)) as [E B]. call E.
    exists PMT_NIL. eexists. split; [reflexivity|]. split; [exact B|]. by intros s'' _. }
  destruct (Ht fuel rest s Hw Hf) as (p & s1 & E & G & Hp & Hb).
  destruct (set_cdr_spec s1 l e PMT_NIL p (grows_wf _ _ G) (grows_lookup _ _ _ _ G Hl) Hp) as [E2 B].
  exists p. eexists. split.
  - unfold parse_tail. assert (exists c sb, encode t ++ rest = c :: sb /\ c .& 0xff = c /\
      (c =? EOF) = false /\ (c =? PST_PAIR) = false /\ (c =? PST_NULL) = false) as (c & sb & Ec & H1 & H2 & H3 & H4).
    { destruct t as [| | |n|z|x|re im|o|a d]; try done; try (by destruct (Hn a d)); cbn [encode app];
        eexists _, _; by repeat split. }
    rewrite Ec, read_tag, H2 by done. cbn [negb]. rewrite H3, H4, <- Ec. call E. by call E2.
  - split.
    + split; [by eapply but_wf| |by eapply but_cell]. intros x o Hx Ho. apply (but_others _ _ _ _ _ B); [done|].
      by apply (grows_lookup _ _ _ _ G).
    + intros s'' Hk. apply Hb. intros x o Hx Ho. apply Hk; [|done]. apply (but_others _ _ _ _ _ B); [|done].
      intros ->. destruct Ho as [Ho|Ho]; [|congruence]. rewrite (grows_lookup _ _ _ _ G Hl) in Hx.
      by injection Hx as <-.
Qed.

(** The pair made at [n], with its head and tail. *)
Lemma built_pair s s1 s3 s4 n expr q a d :
  grows s s1 -> objs s1 !! n = None -> objs s4 !! n = Some (pmt_pair expr q) ->
  (forall p o, objs s1 !! p = Some o -> is_pair o = false \/ objs s !! p = None -> objs s4 !! p = Some o) ->
  (forall p, objs s3 !! p = None -> objs s !! p = None) ->
  built s s1 expr a -> built s3 s4 q d -> built s s4 n (TPair a d).
Proof.
  intros G Hn Hc Hs4 Hs3 Ha Hd s'' Hk. exists expr, q. split_and!.
  - apply Hk; [done|]. right. destruct (objs s !! n) eqn:E; [|done].
    rewrite (grows_lookup _ _ _ _ G E) in Hn. done.
  - apply Ha. intros p o Hp Ho. apply Hk; [by apply Hs4|done].
  - apply Hd. intros p o Hp Ho. apply Hk; [done|]. destruct Ho; [by left|right; auto].
Qed.

Lemma tail_pair a d : reads a -> reads_tail d -> reads_tail (TPair a d).
Proof.
  intros Ha Hd fuel f rest s l e val Hw Hl Hf Hf'. cbn [encode app] in *. rewrite <- app_assoc in *.
  cbn [length] in Hf, Hf'. unfold parse_tail. rewrite read_tag by done. tag.
  destruct f as [|f]; [lia|]. rewrite tail_cons.
  destruct (Ha fuel (encode d ++ rest) s Hw ltac:(lia)) as (x & s1 & E & G & Hx & Hb). rewrite E.
  destruct (append_cell s1 l e x PMT_NIL (grows_wf _ _ G) (grows_lookup _ _ _ _ G Hl) Hx)
    as (n & s2 & s3 & E2 & G2 & Hfresh & E3 & B & Hn).
  call E2. rewrite (pair_not_nil s l e PMT_NIL Hw Hl).
  rewrite (bind_ok _ _ s2 val s3) by (by call E3).
  rewrite length_app in Hf, Hf'.
  destruct (Hd fuel f rest s3 n x val (but_wf _ _ _ _ _ B) Hn) as (q & s4 & E4 & B4 & Hb4); [lia|lia|].
  exists n, s4. split; [exact E4|].
  assert (objs s1 !! l = Some (pmt_pair e PMT_NIL)) as Hl1 by by apply (grows_lookup _ _ _ _ G).
  assert (l <> n) as Hln by congruence.
  assert (forall p o, p <> l -> objs s1 !! p = Some o -> objs s4 !! p = Some o) as Hkeep.
  { intros p o Hp Ho. apply (but_others _ _ _ _ _ B4); [congruence|]. by apply (but_others _ _ _ _ _ B). }
  split.
  - split; [by eapply but_wf| |].
    + intros p o Hp Ho. apply Hkeep; [done|]. by apply (grows_lookup _ _ _ _ G).
    + apply (but_others _ _ _ _ _ B4); [done|]. by eapply but_cell.
  - eapply (built_pair s s1 s3 s4 n x q); try done.
    + by eapply but_cell.
    + intros p o Hp Ho. apply Hkeep; [|done]. intros ->. destruct Ho as [Ho|Ho]; [|congruence].
      rewrite Hl1 in Hp. by injection Hp as <-.
    + intros p Hp. destruct (objs s !! p) eqn:Ep; [|done]. destruct (decide (p = l)) as [->|Hpl].
      * rewrite (but_cell _ _ _ _ _ B) in Hp. done.
      * rewrite (but_others _ _ _ _ _ B p _ Hpl (grows_lookup _ _ _ _ G Ep)) in Hp. done.
Qed.

Lemma reads_pair a d : reads a -> reads_tail d -> reads (TPair a d).
Proof.
  intros Ha Hd [|fuel] rest s Hw Hf; [lia|]. cbn [encode app] in *. rewrite <- app_assoc in *.
  cbn [length] in Hf. cbn [deserialize_from]. rewrite read_tag by done. tag.
  destruct fuel as [|f]; [lia|]. rewrite tail_cons.
  destruct (Ha (S f) (encode d ++ rest) s Hw ltac:(lia)) as (x & s1 & E & G & Hx & Hb). rewrite E.
  destruct (wf_alloc s1 (pmt_pair x PMT_NIL) (grows_wf _ _ G)) as (s2 & E2 & G2 & Hn & Hfresh); [done| |].
  { intros p Hp. cbn in Hp. apply elem_of_cons in Hp as [->|Hp]; [done|].
    apply list_elem_of_singleton in Hp as ->. eexists. apply (grows_wf _ _ G). }
  set (n := free s1) in *. clearbody n.
  call (E2 : pmt_cons x PMT_NIL s1 = _). change (pmt_is_null PMT_NIL) with true. cbv iota.
  rewrite (bind_ok (mret n) _ s2 n s2) by done. rewrite length_app in Hf.
  destruct (Hd (S f) f rest s2 n x n (grows_wf _ _ G2) Hn) as (q & s3 & E3 & B & Hb3);
    [lia|lia|].
  exists n, s3. split; [exact E3|].
  assert (forall p o, objs s1 !! p = Some o -> objs s3 !! p = Some o) as Hkeep.
  { intros p o Hp. apply (but_others _ _ _ _ _ B); [congruence|]. by apply (grows_lookup _ _ _ _ G2). }
  split_and!.
  - split; [|by eapply but_wf]. apply map_subseteq_spec. intros p o Hp.
    by apply Hkeep, (grows_lookup _ _ _ _ G).
  - eexists. by eapply but_cell.
  - eapply (built_pair s s1 s2 s3 n x q); try done.
    + by eapply but_cell.
    + intros p o Hp _. by apply Hkeep.
    + intros p Hp. destruct (objs s !! p) eqn:Ep; [|done].
      by rewrite (grows_lookup _ _ _ _ G2 (grows_lookup _ _ _ _ G Ep)) in Hp.
Qed.

Lemma reads_all t : readable t = true -> reads t /\ reads_tail t.
Proof.
  induction t as [| | |n|z|f|re im|o|a IHa d IHd]; intros Hr.
  9: { cbn [readable] in Hr. apply andb_true_iff in Hr as [H1 H2].
       destruct (IHa H1) as [Ha _]. destruct (IHd H2) as [_ Hd].
       split; [by apply reads_pair|by apply tail_pair]. }
  all: match goal with |- reads ?t /\ _ =>
    assert (reads t) as H by (by apply reads_atom); split; [done|by apply tail_atom] end.
Qed.
End reader.

(** ** Rounding twice *)

(** The fields of a number put together from its fields. *)
Lemma fields s e f : 0 <= s -> 0 <= e < 2 ^ 11 -> 0 <= f < 2 ^ 52 ->
  let x := ((s << 63) .| (e << 52)) .| f in
  x >> 63 = s /\ (x >> 52) .& 0x7ff = e /\ x .& 0xfffffffffffff = f.
Proof.
  intros Hs He Hf x.
  assert (x = s * 2 ^ 63 + e * 2 ^ 52 + f) as ->.
  { unfold x. replace (s << 63) with ((s << 11) << 52) by (rewrite Z.shiftl_shiftl by lia; done).
    rewrite <- Z.shiftl_lor, !lor_shl_add by lia. lia. }
  change 0x7ff with (Z.ones 11). change 0xfffffffffffff with (Z.ones 52).
  rewrite !land_mask, !Z.shiftr_div_pow2 by lia. split_and!.
  - symmetry. apply (Z.div_unique _ _ _ (e * 2 ^ 52 + f)); lia.
  - assert ((s * 2 ^ 63 + e * 2 ^ 52 + f) / 2 ^ 52 = s * 2 ^ 11 + e) as ->.
    { symmetry. apply (Z.div_unique _ _ _ f); lia. }
    rewrite Z.add_comm, Z_mod_plus_full. by apply Z.mod_small.
  - replace (s * 2 ^ 63 + e * 2 ^ 52 + f) with (f + (s * 2 ^ 11 + e) * 2 ^ 52) by lia.
    rewrite Z_mod_plus_full. by apply Z.mod_small.
Qed.

(** A number with at most 24 significant bits, in range, is kept. *)
Lemma single_exact s e f c n : 0 <= s -> 0 < e < 0x7ff -> 0 <= f < 2 ^ 52 ->
  n = Z.max 29 (-149 - (e - 1075)) -> f + 2 ^ 52 = c * 2 ^ n -> 0 < c -> e - 1023 <= 127 ->
  single (((s << 63) .| (e << 52)) .| f) = ((s << 63) .| (e << 52)) .| f.
Proof.
  intros Hs He Hf Hn Hm Hc Hr. destruct (fields s e f Hs ltac:(lia) Hf) as (F1 & F2 & F3).
  unfold single. rewrite F1, F2, F3. destruct (Z.eqb_spec e 0x7ff); [lia|].
  destruct (Z.eqb_spec e 0); [lia|]. cbv zeta.
  assert (Z.log2 c + n = 52) as Hl.
  { rewrite Z.add_comm, <- (Z.log2_mul_pow2 c n), <- Hm by lia.
    apply Z.le_antisymm; [apply Z.lt_succ_r, Z.log2_lt_pow2; lia|apply Z.log2_le_pow2; lia]. }
  rewrite Hm, Z.log2_mul_pow2, (Z.add_comm n), Hl, (Z.max_l e 1) by lia.
  set (T := Z.max _ _). assert (T - (e - 1075) = n) as Hd by lia.
  replace (T <=? e - 1075) with false by (symmetry; apply Z.leb_gt; lia). rewrite orb_false_r.
  destruct (Z.eqb_spec (c * 2 ^ n) 0); [lia|]. rewrite Hd.
  pose proof (Z.pow_pos_nonneg 2 n ltac:(lia) ltac:(lia)).
  pose proof (Z.pow_pos_nonneg 2 (n - 1) ltac:(lia) ltac:(lia)).
  rewrite Z.div_mul, Z.mod_mul by lia.
  replace (2 ^ (n - 1) <? 0) with false by (symmetry; apply Z.ltb_ge; lia).
  replace (0 =? 2 ^ (n - 1)) with false by (symmetry; apply Z.eqb_neq; lia). cbn [orb andb].
  destruct (Z.eqb_spec c 0); [lia|]. destruct (Z.ltb_spec 127 (Z.log2 c + T)); [lia|].
  replace (52 - Z.log2 c) with n by lia. rewrite <- Hm. f_equal; [|lia]. f_equal. f_equal. lia.
Qed.

(** The rounded significand [q * 2 ^ T] has that form. *)
Lemma rounded_form q T : 0 < q <= 2 ^ 24 -> -149 <= T ->
  exists c, q * 2 ^ (52 - Z.log2 q) = c * 2 ^ Z.max 29 (-149 - (Z.log2 q + T - 52)) /\ 0 < c.
Proof.
  intros Hq HT. pose proof (Z.log2_nonneg q). set (n := Z.max 29 _).
  destruct (decide (q = 2 ^ 24)) as [->|Hne].
  - exists (2 ^ 23). assert (n = 29) as -> by (unfold n; rewrite Z.log2_pow2; lia). by split.
  - assert (Z.log2 q < 24) by (apply Z.log2_lt_pow2; lia).
    exists (q * 2 ^ (52 - Z.log2 q - n)). rewrite <- Z.mul_assoc, <- Z.pow_add_r by lia.
    split; [f_equal; f_equal; lia|]. pose proof (Z.pow_pos_nonneg 2 (52 - Z.log2 q - n)). nia.
Qed.

Lemma nan_twice x : 0 <= x -> (x >> 52) .& 0x7ff = 0x7ff -> x .& 0xfffffffffffff <> 0 ->
  let y := (x .| 0x8000000000000) - (x .& 0x1fffffff) in
  (y >> 52) .& 0x7ff = 0x7ff /\ y .& 0xfffffffffffff <> 0 /\ (y .| 0x8000000000000) - (y .& 0x1fffffff) = y.
Proof.
  intros Hx He Hf y. change 0x1fffffff with (Z.ones 29) in *. change 0x8000000000000 with (2 ^ 51) in *.
  change 0x7ff with (Z.ones 11) in *. change 0xfffffffffffff with (Z.ones 52) in *.
  assert (forall i, 0 <= i -> Z.testbit y i = (Z.testbit x i || (i =? 51)) && negb (i <? 29)) as Hy.
  { intros i Hi. unfold y. rewrite Z.sub_nocarry_ldiff.
    - rewrite Z.ldiff_spec, Z.lor_spec, Z.land_spec, Z.testbit_ones_nonneg, Z.pow2_bits_eqb, (Z.eqb_sym 51) by lia.
      destruct (Z.testbit x i), (Z.eqb_spec i 51), (Z.ltb_spec i 29); try done; lia.
    - apply Z.bits_inj'. intros j Hj. rewrite Z.ldiff_spec, Z.lor_spec, Z.land_spec, Z.bits_0.
      by destruct (Z.testbit x j), (Z.testbit (Z.ones 29) j). }
  split_and!.
  - rewrite <- He at 2. apply Z.bits_inj'. intros i Hi.
    rewrite !Z.land_spec, !Z.shiftr_spec, Hy, Z.testbit_ones_nonneg by lia.
    destruct (Z.eqb_spec (i + 52) 51), (Z.ltb_spec (i + 52) 29); try lia. by rewrite orb_false_r, andb_true_r.
  - intros H0. assert (Z.testbit (y .& Z.ones 52) 51 = false) as H1 by by rewrite H0, Z.bits_0.
    rewrite Z.land_spec, Hy in H1 by lia. cbn in H1. by rewrite orb_true_r in H1.
  - assert (y .& Z.ones 29 = 0) as ->.
    { apply Z.bits_inj'. intros i Hi. rewrite Z.land_spec, Hy, Z.testbit_ones_nonneg, Z.bits_0 by lia.
      destruct (i <? 29); by rewrite ?andb_false_r. }
    rewrite Z.sub_0_r. apply Z.bits_inj'. intros i Hi. rewrite Z.lor_spec, Hy, Z.pow2_bits_eqb, (Z.eqb_sym 51) by lia.
    destruct (Z.eqb_spec i 51) as [->|]; [by rewrite !orb_true_r|by rewrite !orb_false_r].
Qed.

Lemma single_twice x : 0 <= x < 2 ^ 64 -> single (single x) = single x.
Proof.
  intros Hx. assert (forall y, single x = y -> single y = y) as H; [|by apply H].
  intros y Hy. pose proof Hy as Hy'. unfold single in Hy'.
  set (e := (x >> 52) .& 0x7ff) in *. set (f := x .& 0xfffffffffffff) in *.
  assert (0 <= x >> 63) as Hs by (apply Z.shiftr_nonneg; lia).
  destruct (Z.eqb_spec e 0x7ff) as [He|He].
  { destruct (Z.eqb_spec f 0) as [Hf|Hf]; [by rewrite Hy' in Hy|].
    destruct (nan_twice x ltac:(lia) He Hf) as (H1 & H2 & H3). rewrite Hy' in H1, H2, H3.
    unfold single. rewrite H1, H3. apply Z.eqb_neq in H2. by rewrite H2. }
  assert (0 <= e <= 0x7ff) as Her by (apply land_range; lia).
  assert (0 <= f <= 0xfffffffffffff) as Hfr by (apply land_range; lia). 
  clearbody e f. cbv zeta in Hy'. set (m := if e =? 0 then f else f + 2 ^ 52) in *.
  set (E := Z.max e 1 - 1075) in *. set (T := Z.max (E + Z.log2 m - 23) (-149)) in *.
  destruct ((m =? 0) || (T <=? E)) eqn:Hc; [by rewrite Hy' in Hy|]. apply orb_false_iff in Hc as [Hm HT].
  apply Z.eqb_neq in Hm. apply Z.leb_gt in HT.
  assert (0 < m) by (unfold m in *; destruct (e =? 0); lia).
  pose proof (quotient_log m (T - E) ltac:(lia) ltac:(lia) ltac:(lia)) as Hq.
  assert (0 <= m / 2 ^ (T - E)) as Hq0 by (apply Z.div_pos; [lia|apply Z.pow_pos_nonneg; lia]).
  set (q := if (2 ^ (T - E - 1) <? _) || _ then _ else _) in *.
  assert (0 <= q <= 2 ^ 24) as Hqr by (unfold q; case_if; lia). clearbody q.
  destruct (Z.eqb_spec q 0).
  { rewrite <- Hy'. destruct (fields (x >> 63) 0 0 Hs ltac:(lia) ltac:(lia)) as (F1 & F2 & F3).
    rewrite Z.shiftl_0_l, !Z.lor_0_r in F1, F2, F3. unfold single. by rewrite F2, F3. }
  destruct (Z.ltb_spec 127 (Z.log2 q + T)) as [Ho|Ho].
  { rewrite <- Hy'. destruct (fields (x >> 63) 0x7ff 0 Hs ltac:(lia) ltac:(lia)) as (F1 & F2 & F3).
    rewrite Z.lor_0_r in F1, F2, F3. unfold single. by rewrite F2, F3. }
  rewrite <- Hy'. destruct (rounded_form q T ltac:(lia) ltac:(lia)) as (c & Hcm & Hc).
  pose proof (exponent_mantissa q 0 ltac:(lia) ltac:(lia)). pose proof (Z.log2_nonneg q).
  eapply (single_exact _ _ _ c); [lia|lia|lia|reflexivity| |lia|lia].
  rewrite Z.sub_add, Hcm. do 2 f_equal. lia.
Qed.

(** ** Round trip *)

Lemma encode_rounded t : readable t = true -> encode (rounded t) = encode t.
Proof.
  induction t as [| | |n|z|f|re im|o|a IHa d IHd]; cbn [readable rounded encode]; try done.
  - intros H. zbool. by rewrite single_twice by lia.
  - intros H. apply andb_true_iff in H as [Ha Hd]. by rewrite IHa, IHd.
Qed.

Lemma rounded_readable t : readable t = true -> readable (rounded t) = true.
Proof.
  induction t as [| | |n|z|f|re im|o|a IHa d IHd]; cbn [readable rounded]; try done.
  - intros H. zbool. destruct (single_range f) as [H1 H2]; [lia|]. apply Z.leb_le in H1.
    apply Z.ltb_lt in H2. by rewrite H1, H2.
  - intros H. apply andb_true_iff in H as [Ha Hd]. by rewrite IHa, IHd.
Qed.

(** C9. Writing an object and reading the bytes back, in any store, gives an
    object of the same structure with reals rounded to single precision, which
    is written as the same bytes; what follows them is left unread, and no
    object of the store is changed.  The objects are those made of booleans, the
    empty list, symbols of at most 1024 bytes, integers of 32 bits other than the
    least, reals and pairs. *)
Theorem pmt_serialize_roundtrip junk s x t rest s2 :
  wf s -> repr s x t -> readable t = true -> wf s2 ->
  exists bytes p s', pmt_serialize_str x s = Ok (bytes, s) /\
    pmt_deserialize junk (bytes ++ rest) s2 = Ok ((p, rest), s') /\
    grows s2 s' /\ repr s' p (rounded t) /\ pmt_serialize_str p s' = Ok (bytes, s').
Proof.
  intros Hw Ht Hr Hw2.
  set (o := {| written := []; room := None |}).
  destruct (reads_all junk t Hr) as [Hd _].
  destruct (Hd (S (length (encode t ++ rest))) rest s2 Hw2 ltac:(lia)) as (p & s' & E & G & _ & Hb).
  assert (repr s' p (rounded t)) as Hp by (apply Hb; by intros ?).
  exists (encode t), p, s'. split_and!.
  - apply (serialize_writes s x t o Hw Ht), readable_writable, Hr.
  - exact E.
  - exact G.
  - exact Hp.
  - rewrite <- encode_rounded by done.
    apply (serialize_writes s' p (rounded t) o (grows_wf _ _ G) Hp), readable_writable, rounded_readable, Hr.
Qed.

(** ** Any input *)

(** What the reader does on any bytes: an object, and the rest of the bytes, or
    one of two exceptions. *)
Definition outcome (s : store) (n : nat) (r : res pmt_exn ((Z * list Z) * store)) : Prop :=
  match r with
  | Ok ((p, rest), s') => grows s s' /\ is_Some (objs s' !! p) /\ (length rest <= n)%nat
  | Throw e => exists q, e = malformed q \/ e = notimplemented q
  end.

Lemma outcome_alloc s n o rest :
  wf s -> is_symbol o = false -> refs o = [] -> (length rest <= n)%nat ->
  outcome s n ((p ← alloc o; mret (p, rest)) s).
Proof.
  intros Hw Ho Hr Hn. destruct (wf_alloc s o Hw Ho) as (s' & E & G & Hp & _); [rewrite Hr; set_solver|].
  call E. split; [done|]. split; [by eexists|done].
Qed.

Definition tail_outcome (s : store) (l e val : Z) (n : nat) (r : res pmt_exn ((Z * list Z) * store)) : Prop :=
  match r with
  | Ok ((p, rest), s') => (exists q, grows_but l e s s' q) /\ p = val /\ (length rest <= n)%nat
  | Throw e => exists q, e = malformed q \/ e = notimplemented q
  end.

Lemma read_u8_length sb : let '(ok, _, sb') := deserialize_untagged_u8 sb in
  (length sb' <= length sb)%nat /\ (ok = true -> (length sb' < length sb)%nat).
Proof. destruct sb as [|c sb]; cbn; [split; [lia|done]|lia]. Qed.

Lemma sbumpc_length sb : (length (sbumpc sb).2 <= length sb)%nat.
Proof. destruct sb; cbn; lia. Qed.

Lemma more_length i sb : (length (more i sb).2 <= length sb)%nat.
Proof. unfold more. pose proof (sbumpc_length sb). by destruct (sbumpc sb). Qed.

Ltac lengths := repeat match goal with
  | |- context [sbumpc ?sb] =>
      let H := fresh in pose proof (sbumpc_length sb) as H; destruct (sbumpc sb) as [? ?]; cbn [snd] in H
  | |- context [more ?i ?sb] =>
      let H := fresh in pose proof (more_length i sb) as H; destruct (more i sb) as [[? ?] ?]; cbn [snd] in H
  end; cbn [snd]; lia.

Lemma read_u16_length sb : (length (deserialize_untagged_u16 sb).2 <= length sb)%nat.
Proof. unfold deserialize_untagged_u16. lengths. Qed.
Lemma read_u32_length sb : (length (deserialize_untagged_u32 sb).2 <= length sb)%nat.
Proof. unfold deserialize_untagged_u32. lengths. Qed.
Lemma read_f64_length sb : (length (deserialize_untagged_f64 sb).2 <= length sb)%nat.
Proof. unfold deserialize_untagged_f64. lengths. Qed.

Lemma grows_then_but s s1 s2 l e d q :
  grows s s1 -> objs s !! l = Some (pmt_pair e d) -> grows_but l e s1 s2 q -> grows_but l e s s2 q.
Proof.
  intros G Hl B. split; [by eapply but_wf| |by eapply but_cell]. intros p o Hp Ho.
  apply (but_others _ _ _ _ _ B); [done|]. by apply (grows_lookup _ _ _ _ G).
Qed.

Section any_input.
Context (junk : Z) (F : nat)
  (Hdes : forall sb s, wf s -> (length sb < F)%nat -> outcome s (length sb) (deserialize_from junk F sb s)).

Lemma tail_safe f sb s l e val :
  wf s -> objs s !! l = Some (pmt_pair e PMT_NIL) -> (length sb < F)%nat -> (length sb <= f)%nat ->
  tail_outcome s l e val (length sb) (parse_tail (deserialize_from junk F) f sb l val s).
Proof.
  revert sb s l e. induction f as [|f IH]; intros sb s l e Hw Hl HF Hf; unfold parse_tail;
    pose proof (read_u8_length sb) as Hlen; destruct (deserialize_untagged_u8 sb) as [[ok t] sb1];
    (destruct ok; cbn [negb]; [|by eexists; left]); destruct Hlen as [_ Hlen]; specialize (Hlen eq_refl).
  { lia. }
  case_if.
  - rewrite tail_cons. pose proof (Hdes sb1 s Hw ltac:(lia)) as Ho.
    destruct (deserialize_from junk F sb1 s) as [[[x sb2] s1]|]; [|done]. destruct Ho as (G & Hx & Hle).
    destruct (append_cell s1 l e x PMT_NIL (grows_wf _ _ G) (grows_lookup _ _ _ _ G Hl) Hx)
      as (n & s2 & s3 & E2 & G2 & Hfresh & E3 & B & Hn).
    call E2. rewrite (pair_not_nil s l e PMT_NIL Hw Hl).
    rewrite (bind_ok _ _ s2 val s3) by (by call E3).
    assert (l <> n) as Hln by (pose proof (grows_lookup _ _ _ _ G Hl); congruence).
    specialize (IH sb2 s3 n x (but_wf _ _ _ _ _ B) Hn ltac:(lia) ltac:(lia)). unfold tail_outcome in *.
    destruct (parse_tail _ f sb2 n val s3) as [[[p rest] s4]|]; [|done]. destruct IH as ([q B4] & -> & Hr).
    split; [exists n|split; [done|lia]]. apply (grows_then_but s s1 s4 l e PMT_NIL n G Hl).
    split; [by eapply but_wf| |apply (but_others _ _ _ _ _ B4); [done|by eapply but_cell]].
    intros p o Hp Ho. apply (but_others _ _ _ _ _ B4); [congruence|]. by apply (but_others _ _ _ _ _ B).
  - case_if.
    + destruct (set_cdr_spec s l e PMT_NIL PMT_NIL Hw Hl ltac:(eexists; apply Hw)) as [E B]. call E.
      split; [by eexists|split; [done|lia]].
    + pose proof (Hdes sb s Hw HF) as Ho. unfold mbind at 1, M_bind at 1.
      destruct (deserialize_from junk F sb s) as [[[x sb2] s1]|]; [|done]. destruct Ho as (G & Hx & Hle).
      destruct (set_cdr_spec s1 l e PMT_NIL x (grows_wf _ _ G) (grows_lookup _ _ _ _ G Hl) Hx) as [E2 B].
      call E2. split; [exists x; by apply (grows_then_but s s1 _ l e PMT_NIL x G Hl)|split; [done|lia]].
Qed.

Lemma pair_safe f sb s : wf s -> (length sb < F)%nat -> (length sb < f)%nat ->
  outcome s (length sb) (parse_pair (deserialize_from junk F) f sb PMT_NIL PMT_NIL s).
Proof.
  intros Hw HF Hf. destruct f as [|f]; [lia|]. rewrite tail_cons.
  pose proof (Hdes sb s Hw HF) as Ho.
  destruct (deserialize_from junk F sb s) as [[[x sb2] s1]|]; [|done]. destruct Ho as (G & Hx & Hle).
  destruct (wf_alloc s1 (pmt_pair x PMT_NIL) (grows_wf _ _ G)) as (s2 & E2 & G2 & Hn & Hfresh); [done| |].
  { intros p Hp. cbn in Hp. apply elem_of_cons in Hp as [->|Hp]; [done|].
    apply list_elem_of_singleton in Hp as ->. eexists. apply (grows_wf _ _ G). }
  set (n := free s1) in *. clearbody n.
  call (E2 : pmt_cons x PMT_NIL s1 = _). change (pmt_is_null PMT_NIL) with true. cbv iota.
  rewrite (bind_ok (mret n) _ s2 n s2) by done.
  pose proof (tail_safe f sb2 s2 n x n (grows_wf _ _ G2) Hn ltac:(lia) ltac:(lia)) as Ht.
  unfold tail_outcome in Ht. destruct (parse_tail _ f sb2 n n s2) as [[[p rest] s4]|]; [|done].
  destruct Ht as ([q B] & -> & Hr). split_and!.
  - split; [|by eapply but_wf]. apply map_subseteq_spec. intros p o Hp.
    apply (but_others _ _ _ _ _ B); [intros ->; pose proof (grows_lookup _ _ _ _ G Hp); congruence|].
    by apply (grows_lookup _ _ _ _ G2), (grows_lookup _ _ _ _ G).
  - eexists. by eapply but_cell.
  - lia.
Qed.
End any_input.

Lemma deserialize_outcome junk fuel sb s :
  wf s -> (length sb < fuel)%nat -> outcome s (length sb) (deserialize_from junk fuel sb s).
Proof.
  revert sb s. induction fuel as [|fuel IH]; intros sb s Hw Hf; [lia|]. cbn [deserialize_from].
  pose proof (read_u8_length sb) as H8. destruct (deserialize_untagged_u8 sb) as [[ok t] sb1].
  destruct ok; cbn [negb]; [|split; [by apply grows_refl|split; [apply Hw|lia]]].
  destruct H8 as [_ H8]. specialize (H8 eq_refl).
  case_if; [split; [by apply grows_refl|split; [eexists; apply Hw|lia]]|].
  case_if; [split; [by apply grows_refl|split; [eexists; apply Hw|lia]]|].
  case_if; [split; [by apply grows_refl|split; [eexists; apply Hw|lia]]|].
  case_if.
  { pose proof (read_u16_length sb1) as Hl. destruct (deserialize_untagged_u16 sb1) as [[ok2 len] sb2].
    cbn [snd] in Hl. destruct ok2; cbn [negb]; [|by eexists; left]. case_if; [by eexists; right|].
    case_if; [by eexists; left|]. destruct (intern_spec s (take (Z.to_nat len) sb2) Hw) as (p & s' & next & E & G & Hp & _).
    call E. split; [done|]. split; [by eexists|]. rewrite length_drop. lia. }
  case_if.
  { pose proof (read_u32_length sb1) as Hl. destruct (deserialize_untagged_u32 sb1) as [[ok2 v] sb2].
    cbn [snd] in Hl. destruct ok2; cbn [negb]; [|by eexists; left]. by apply outcome_alloc; try lia. }
  case_if.
  { assert (outcome s (length sb1) (parse_pair (deserialize_from junk fuel) fuel sb1 PMT_NIL PMT_NIL s)) as Ho
      by (apply pair_safe; [done|done|lia|lia]).
    unfold outcome in *. destruct (parse_pair _ _ _ _ _ s) as [[[p rest] s']|]; [|done].
    destruct Ho as (? & ? & ?). split_and!; [done|done|lia]. }
  case_if.
  { pose proof (read_f64_length sb1) as Hl. destruct (deserialize_untagged_f64 sb1) as [[ok2 v] sb2].
    cbn [snd] in Hl. destruct ok2; cbn [negb]; [|by eexists; left]. by apply outcome_alloc; try lia. }
  case_if.
  { pose proof (read_f64_length sb1) as Hl. destruct (deserialize_untagged_f64 sb1) as [[ok2 r] sb2].
    cbn [snd] in Hl. destruct ok2; [by apply outcome_alloc; try lia|].
    pose proof (read_f64_length sb2) as Hl2. destruct (deserialize_untagged_f64 sb2) as [[ok3 i] sb3].
    cbn [snd] in Hl2. destruct ok3; cbn [negb]; [|by eexists; left]. by apply outcome_alloc; try lia. }
  destruct (wf_alloc s (pmt_integer t) Hw) as (s' & E & _); [done|cbn; set_solver|].
  call (E : pmt_from_long t s = _). case_if; eexists; [by right|by left].
Qed.

(** C29. Reading is total: any bytes, in any store, give an object of the store
    and what was not read, or one of the two documented exceptions; the fuel, one
    more than the bytes, is enough, nothing undefined is reached, and no object
    of the store is changed. *)
Theorem pmt_deserialize_total junk sb s :
  wf s ->
  match pmt_deserialize junk sb s with
  | Ok ((p, rest), s') => grows s s' /\ is_Some (objs s' !! p) /\ (length rest <= length sb)%nat
  | Throw e => exists q, e = malformed q \/ e = notimplemented q
  end.
Proof. intros Hw. apply (deserialize_outcome junk (S (length sb)) sb s Hw). lia. Qed.

(** Writing into a buffer with or without a limit writes the bytes of the
    encoding that fit, and returns whether they all did; an object with a vector,
    an unsigned or large integer or an opaque part is refused. *)
Theorem pmt_serialize_writes s x t o :
  wf s -> repr s x t ->
  (writable t = true ->
     pmt_serialize x o s = Ok ((fits (length (encode t)) o, after (encode t) o), s) /\
     pmt_serialize_str x s = Ok (encode t, s)) /\
  (writable t = false -> exists q, pmt_serialize_str x s = Throw (notimplemented q)).
Proof. apply serialize_writes. Qed.

(** The imaginary part of a complex number is not read: its eight bytes are
    left, and an uninitialized variable takes its place. *)
Theorem complex_not_restored junk re im rest s :
  wf s -> 0 <= re < 2 ^ 64 ->
  exists p s', pmt_deserialize junk (encode (TComplex re im) ++ rest) s =
    Ok ((p, big_endian 8 im ++ rest), s') /\ objs s' !! p = Some (pmt_complex re junk).
Proof.
  intros Hw Hre. unfold pmt_deserialize. cbn [encode app deserialize_from].
  rewrite read_tag by done. tag. rewrite <- app_assoc, read_f64 by done.
  destruct (wf_alloc s (pmt_complex re junk) Hw) as (s' & E & _ & Hp & _); [done|cbn; set_solver|].
  call (E : pmt_make_rectangular re junk s = _). eauto.
Qed.

(** ** Concrete runs *)

Definition sample_tree : tree := TPair (TSym [97]) (TPair (TSym [98]) TNull).

Lemma sample_repr : repr sample 10 sample_tree.
Proof.
  exists 5, 9. split; [reflexivity|]. split; [eexists; reflexivity|]. exists 6, PMT_NIL.
  split; [reflexivity|]. split; [eexists; reflexivity|reflexivity].
Qed.

Lemma pmt_serialize_roundtrip_witness :
  exists bytes p s', pmt_serialize_str 10 sample = Ok (bytes, sample) /\
    pmt_deserialize 0 (bytes ++ [PST_TRUE]) initial_store = Ok ((p, [PST_TRUE]), s') /\
    repr s' p sample_tree.
Proof.
  destruct (pmt_serialize_roundtrip 0 sample 10 sample_tree [PST_TRUE] initial_store)
    as (bytes & p & s' & E1 & E2 & _ & Hp & _).
  - apply reachable_wf, sample_reachable.
  - apply sample_repr.
  - reflexivity.
  - apply reachable_wf. constructor.
  - exists bytes, p, s'. split; [exact E1|]. split; [exact E2|exact Hp].
Defined.

Lemma pmt_deserialize_total_witness :
  pmt_deserialize 0 [PST_PAIR; PST_SYMBOL; 0; 1] sample = Throw (malformed PMT_F) /\
  exists q, malformed PMT_F = malformed q \/ malformed PMT_F = notimplemented q.
Proof.
  split; [reflexivity|].
  exact (pmt_deserialize_total 0 [PST_PAIR; PST_SYMBOL; 0; 1] sample (reachable_wf _ sample_reachable)).
Defined.

Lemma pmt_serialize_writes_witness :
  pmt_serialize 10 {| written := []; room := Some 3%nat |} sample =
    Ok ((false, {| written := [PST_PAIR; PST_SYMBOL; 0]; room := Some O |}), sample).
Proof.
  exact (proj1 (proj1 (pmt_serialize_writes sample 10 sample_tree {| written := []; room := Some 3%nat |}
    (reachable_wf _ sample_reachable) sample_repr) eq_refl)).
Defined.

Lemma complex_not_restored_witness :
  exists p s', pmt_deserialize 7 (encode (TComplex 1 2)) sample = Ok ((p, [0; 0; 0; 0; 0; 0; 0; 2]), s').
Proof.
  destruct (complex_not_restored 7 1 2 [] sample (reachable_wf _ sample_reachable)) as (p & s' & E & _).
  - split; [discriminate|reflexivity].
  - exists p, s'. exact E.
Defined.

(** The least 32 bit integer is refused; a real is not restored. *)
Lemma least_integer_refused :
  match pmt_from_long (-2147483648) sample with
  | Ok (p, s) => pmt_serialize_str p s = Throw (notimplemented p)
  | Throw _ => False
  end.
Proof. vm_compute. reflexivity. Qed.

Lemma real_narrowed : single 0x3ff0000000000001 = 0x3ff0000000000000.
Proof. vm_compute. reflexivity. Qed.
