(* ===== verification/AtscTypes.v ===== *)
(** * ATSC segments: [gr-atsc/src/lib/atsc_types.h], [plinfo.cc], [atsc_consts.h]

    The records that flow through the digital television blocks, the pipeline
    information each segment carries, and the loops over a block's items. *)

From S2P Require Import Prelude.
From stdpp Require Import list.
#[local] Open Scope Z_scope.
#[local] Open Scope cint_scope.

Definition ATSC_MPEG_DATA_LENGTH : Z := 187.
Definition ATSC_MPEG_PKT_LENGTH : Z := 188.
Definition ATSC_MPEG_RS_ENCODED_LENGTH : Z := 207.
Definition ATSC_DATA_SEGMENT_LENGTH : Z := 832.
Definition ATSC_DSEGS_PER_FIELD : Z := 312.
Definition MPEG_SYNC_BYTE : Z := 0x47.
Definition MPEG_TRANSPORT_ERROR_BIT : Z := 0x80.

(** The values of an [unsigned char]. *)
Definition byte (x : Z) : Prop := 0 <= x < 256.

(** A failed assertion is [None]. *)
Definition assert (b : bool) : option () := if b then Some () else None.

(** ** Pipeline information *)

Record plinfo := { _flags : Z; _segno : Z }.

Definition fl_regular_seg : Z := 0x0001.
Definition fl_field_sync1 : Z := 0x0002.
Definition fl_field_sync2 : Z := 0x0004.
Definition fl_first_regular_seg : Z := 0x0008.
Definition fl_field2 : Z := 0x0010.
Definition fl_transport_error : Z := 0x0020.

Definition new_plinfo : plinfo := {| _flags := 0; _segno := 0 |}.

Definition field_sync1_p (p : plinfo) : bool := ctrue (_flags p .& fl_field_sync1).
Definition field_sync2_p (p : plinfo) : bool := ctrue (_flags p .& fl_field_sync2).
Definition field_sync_p (p : plinfo) : bool := field_sync1_p p || field_sync2_p p.
Definition regular_seg_p (p : plinfo) : bool := ctrue (_flags p .& fl_regular_seg).
Definition in_field1_p (p : plinfo) : bool := (_flags p .& fl_field2) =? 0.
Definition in_field2_p (p : plinfo) : bool := ctrue (_flags p .& fl_field2).
Definition first_regular_seg_p (p : plinfo) : bool := ctrue (_flags p .& fl_first_regular_seg).
Definition transport_error_p (p : plinfo) : bool := ctrue (_flags p .& fl_transport_error).
Definition segno (p : plinfo) : Z := _segno p.

Definition set_field_sync1 : plinfo := {| _segno := 0; _flags := fl_field_sync1 |}.
Definition set_field_sync2 : plinfo := {| _segno := 0; _flags := fl_field_sync2 .| fl_field2 |}.

(** Every field is assigned, so the old value does not matter. *)
Definition set_regular_seg (field2 : bool) (segno : Z) : option plinfo :=
  _ ← assert ((0 <=? segno) && (segno <? ATSC_DSEGS_PER_FIELD));
  let _flags := fl_regular_seg in
  let _flags := if segno =? 0 then _flags .| fl_first_regular_seg else _flags in
  let _flags := if ATSC_DSEGS_PER_FIELD <=? segno then _flags .| fl_transport_error else _flags in
  let _flags := if field2 then _flags .| fl_field2 else _flags in
  Some {| _flags := u16 _flags; _segno := u16 segno |}.

Definition set_transport_error (error : bool) (p : plinfo) : plinfo :=
  {| _flags := u16 (if error then _flags p .| fl_transport_error
                    else _flags p .& Z.lnot fl_transport_error);
     _segno := _segno p |}.

#[export] Instance plinfo_eq_dec : EqDecision plinfo.
Proof. solve_decision. Defined.

(** [plinfo::delay]: the [plinfo] of the segment [nsegs_of_delay] earlier. *)
Definition delay (p : plinfo) (nsegs_of_delay : Z) : option plinfo :=
  _ ← assert (regular_seg_p p);
  _ ← assert (0 <=? nsegs_of_delay);
  let s := segno p in
  let s := if in_field2_p p then s + ATSC_DSEGS_PER_FIELD else s in
  let s := s - nsegs_of_delay in
  let s := if s <? 0 then s + 2 * ATSC_DSEGS_PER_FIELD else s in
  _ ← assert ((0 <=? s) && (s <? 2 * ATSC_DSEGS_PER_FIELD));
  if s <? ATSC_DSEGS_PER_FIELD then set_regular_seg false s
  else set_regular_seg true (s - ATSC_DSEGS_PER_FIELD).

Definition sanity_check (p : plinfo) : option () :=
  _ ← assert (0 <=? segno p);
  _ ← assert (segno p <? ATSC_DSEGS_PER_FIELD);
  _ ← assert ((_flags p .& Z.lnot 0x3f) =? 0);
  _ ← assert (xorb (regular_seg_p p) (field_sync_p p));
  assert (xorb (negb (segno p =? 0)) (first_regular_seg_p p)).

(** ** Segments: pipeline information and symbols *)

Record segment (A : Type) := { pli : plinfo; data : list A }.
Arguments pli {A}. Arguments data {A}.

(** The 188 bytes of a transport packet, the sync byte first. *)
Definition atsc_mpeg_packet := list Z.
Definition atsc_mpeg_packet_no_sync := segment Z.
Definition atsc_mpeg_packet_rs_encoded := segment Z.
Definition atsc_data_segment := segment Z.

(** ** The loop of a block over its items *)

Section items.
Context {S A B : Type} (step : S -> A -> option (S * B)).

Fixpoint each_item (s : S) (l : list A) : option (S * list B) :=
  match l with
  | [] => Some (s, [])
  | x :: l =>
      '(s, y) ← step s x;
      '(s, r) ← each_item s l;
      Some (s, y :: r)
  end.

Lemma each_item_app s l1 l2 :
  each_item s (l1 ++ l2) =
  '(s, r1) ← each_item s l1; '(s, r2) ← each_item s l2; Some (s, r1 ++ r2).
Proof.
  revert s. induction l1 as [|x l1 IH]; intros s; cbn [app each_item].
  - rewrite some_bind. by destruct (each_item s l2) as [[? ?]|].
  - destruct (step s x) as [[s1 y]|]; [|done]. rewrite !some_bind, IH.
    destruct (each_item s1 l1) as [[s2 r1]|]; [|done]. rewrite !some_bind.
    by destruct (each_item s2 l2) as [[s3 r2]|].
Qed.

Lemma each_item_length s l s' r : each_item s l = Some (s', r) -> length r = length l.
Proof.
  revert s s' r. induction l as [|x l IH]; intros s s' r E; cbn [each_item] in E; [by injection E as _ <-|].
  destruct (step s x) as [[s1 y]|]; [|done]. rewrite some_bind in E.
  destruct (each_item s1 l) as [[s2 r2]|] eqn:E2; [|done]. rewrite some_bind in E. injection E as _ <-.
  cbn [length]. f_equal. by apply IH in E2.
Qed.

(** With an invariant that depends on the position. *)
Lemma each_item_spec (I : Z -> S -> Prop) (f : Z -> A -> B) (P : Z -> A -> Prop) s l n :
  (forall k s x, I k s -> P k x -> exists s', step s x = Some (s', f k x) /\ I (k + 1) s') ->
  I n s -> (forall i x, l !! i = Some x -> P (n + Z.of_nat i) x) ->
  exists s', each_item s l = Some (s', imap (fun i => f (n + Z.of_nat i)) l) /\
    I (n + Z.of_nat (length l)) s'.
Proof.
  intros Hstep. revert s n. induction l as [|x l IH]; intros s n HI HP.
  - exists s. split; [done|]. cbn. by rewrite Z.add_0_r.
  - destruct (Hstep n s x HI) as (s1 & E1 & HI1); [specialize (HP 0%nat x eq_refl); by rewrite Z.add_0_r in HP|].
    destruct (IH s1 (n + 1) HI1) as (s' & E & HI').
    { intros i y Hy. specialize (HP (1 + i)%nat y Hy). by replace (n + 1 + Z.of_nat i) with (n + Z.of_nat (1 + i)) by lia. }
    exists s'. cbn [each_item]. rewrite E1, some_bind, E, some_bind. split.
    + rewrite imap_cons, Z.add_0_r. do 3 f_equal. apply imap_ext. intros i y _. cbn. f_equal. lia.
    + cbn [length]. by replace (n + Z.of_nat (Datatypes.S (length l))) with (n + 1 + Z.of_nat (length l)) by lia.
Qed.

(** The same on the items [x n], [x (n + 1)], ... *)
Lemma each_item_zseq (I : Z -> S -> Prop) (x : Z -> A) (y : Z -> B) n : forall k0 s,
  (forall k s, k0 <= k -> I k s -> exists s', step s (x k) = Some (s', y k) /\ I (k + 1) s') -> I k0 s ->
  exists s', each_item s (map (fun i => x (k0 + i)) (zseq 0 n)) = Some (s', map (fun i => y (k0 + i)) (zseq 0 n)) /\
    I (k0 + Z.of_nat n) s'.
Proof.
  induction n as [|n IH]; intros k0 s Hstep HI.
  - exists s. split; [done|]. by rewrite Z.add_0_r.
  - destruct (Hstep k0 s ltac:(lia) HI) as (s1 & E1 & HI1).
    destruct (IH (k0 + 1) s1 ltac:(intros; apply Hstep; [lia|done]) HI1) as (s' & E & HI').
    exists s'. rewrite !map_zseq_S, Z.add_0_r. cbn [each_item]. rewrite E1, some_bind. cbv beta iota.
    assert (forall {C} (f : Z -> C), map (fun m => f (k0 + (m + 1))) (zseq 0 n) = map (fun i => f (k0 + 1 + i)) (zseq 0 n)) as Hs
      by (intros; apply map_ext; intros; f_equal; lia).
    rewrite (Hs _ x), E, some_bind, (Hs _ y). split; [done|].
    by replace (k0 + Z.of_nat (Datatypes.S n)) with (k0 + 1 + Z.of_nat n) by lia.
Qed.

(** When no item fails. *)
Lemma each_item_total (P : A -> Prop) l : (forall s x, P x -> exists s' y, step s x = Some (s', y)) -> Forall P l ->
  forall s, exists s' r, each_item s l = Some (s', r) /\ length r = length l.
Proof.
  intros Hstep. induction 1 as [|x l Hx Hl IH]; intros s; [by exists s, []|].
  destruct (Hstep s x Hx) as (s1 & y & E1), (IH s1) as (s' & r & E & Hr). exists s', (y :: r).
  cbn [each_item length]. by rewrite E1, some_bind, E, some_bind, Hr.
Qed.
End items.

(** ** The information of the segments of an unbroken stream *)

(** Segment [n] of the stream, from the first segment of a first field. *)
Definition pli_at (n : Z) : plinfo :=
  let m := n mod 624 in
  {| _flags := fl_regular_seg + (if (m mod 312) =? 0 then fl_first_regular_seg else 0)
                              + (if m <? 312 then 0 else fl_field2);
     _segno := m mod 312 |}.

Lemma pli_periodic n : pli_at (n mod 624) = pli_at n.
Proof. unfold pli_at. by rewrite Zmod_mod. Qed.

(** A property of one stream position holds if it does of the 624 first. *)
Lemma pli_cases (P : plinfo -> bool) n : all_below 624 (fun k => P (pli_at k)) = true -> P (pli_at n) = true.
Proof.
  intros H. rewrite <- pli_periodic. refine (all_below_spec _ _ H (n mod 624) _).
  apply Z.mod_pos_bound. lia.
Qed.

Lemma pli_decide (P : plinfo -> Prop) {D : forall p, Decision (P p)} n :
  all_below 624 (fun k => bool_decide (P (pli_at k))) = true -> P (pli_at n).
Proof. intros Ha. apply (bool_decide_eq_true (P (pli_at n))). exact (pli_cases (fun p => @bool_decide (P p) (D p)) n Ha). Qed.

Lemma pli_regular n : regular_seg_p (pli_at n) = true.
Proof. apply (pli_cases regular_seg_p). vm_compute. reflexivity. Qed.

Lemma pli_no_error n : transport_error_p (pli_at n) = false.
Proof. apply negb_true_iff, (pli_cases (fun p => negb (transport_error_p p))). vm_compute. reflexivity. Qed.

Lemma pli_sane n : sanity_check (pli_at n) = Some ().
Proof.
  apply (pli_decide (fun p => sanity_check p = Some ())). vm_compute. reflexivity.
Qed.

Lemma pli_first n : first_regular_seg_p (pli_at n) = (n mod 312 =? 0).
Proof.
  assert (n mod 312 = (n mod 624) mod 312) as ->.
  { rewrite <- Znumtheory.Zmod_div_mod; [done|lia|lia|]. by exists 2. }
  rewrite <- pli_periodic. apply eqb_prop.
  refine (all_below_spec 624 (fun k => eqb (first_regular_seg_p (pli_at k)) (k mod 312 =? 0)) _ (n mod 624) _).
  - vm_compute. reflexivity.
  - apply Z.mod_pos_bound. lia.
Qed.

Lemma pli_segno n : segno (pli_at n) = n mod 312.
Proof. unfold segno, pli_at. cbn. rewrite <- Znumtheory.Zmod_div_mod; [done|lia|lia|]. by exists 2. Qed.

Lemma pli_error_cleared n : set_transport_error false (pli_at n) = pli_at n.
Proof.
  apply (pli_decide (fun p => set_transport_error false p = p)). vm_compute. reflexivity.
Qed.

Lemma set_regular_at n :
  set_regular_seg (negb (n mod 624 <? 312)) (n mod 312) = Some (pli_at n).
Proof.
  assert (n mod 312 = (n mod 624) mod 312) as ->.
  { rewrite <- Znumtheory.Zmod_div_mod; [done|lia|lia|]. by exists 2. }
  rewrite <- (pli_periodic n). pose proof (Z.mod_pos_bound n 624 ltac:(lia)) as Hb.
  refine (all_below_decide 624 (fun k => set_regular_seg (negb (k <? 312)) (k mod 312) = Some (pli_at k)) _ (n mod 624) Hb).
  vm_compute. reflexivity.
Qed.

Lemma delay_at n d : 0 <= d <= 624 -> delay (pli_at n) d = Some (pli_at (n - d)).
Proof.
  intros Hd. unfold delay. rewrite pli_regular.
  destruct (Z.leb_spec 0 d); [|lia]. cbn [assert]. rewrite !some_bind, pli_segno.
  pose proof (Z.mod_pos_bound n 624 ltac:(lia)) as Hb.
  assert ((if in_field2_p (pli_at n) then n mod 312 + ATSC_DSEGS_PER_FIELD else n mod 312) = n mod 624) as ->.
  { assert (n mod 312 = (n mod 624) mod 312) as ->.
    { rewrite <- Znumtheory.Zmod_div_mod; [done|lia|lia|]. by exists 2. }
    rewrite <- (pli_periodic n). apply Z.eqb_eq.
    refine (all_below_spec 624 (fun k => (if in_field2_p (pli_at k) then k mod 312 + ATSC_DSEGS_PER_FIELD else k mod 312) =? k) _ (n mod 624) Hb).
    vm_compute. reflexivity. }
  set (s := if n mod 624 - d <? 0 then _ else _).
  assert (s = (n - d) mod 624) as ->.
  { unfold s, ATSC_DSEGS_PER_FIELD. rewrite <- Zminus_mod_idemp_l.
    destruct (Z.ltb_spec (n mod 624 - d) 0).
    - apply (Z.mod_unique _ _ (-1)); [left|]; lia.
    - symmetry. apply Z.mod_small. lia. }
  pose proof (Z.mod_pos_bound (n - d) 624 ltac:(lia)) as Hm.
  pose proof (set_regular_at (n - d)) as Hr.
  assert ((n - d) mod 312 = ((n - d) mod 624) mod 312) as E.
  { rewrite <- Znumtheory.Zmod_div_mod; [done|lia|lia|]. by exists 2. }
  unfold ATSC_DSEGS_PER_FIELD.
  destruct (Z.leb_spec 0 ((n - d) mod 624)); [|lia].
  destruct (Z.ltb_spec ((n - d) mod 624) (2 * 312)); [|lia]. cbn [andb assert]. rewrite some_bind.
  destruct (Z.ltb_spec ((n - d) mod 624) 312); cbn [negb] in Hr; rewrite <- Hr, E; f_equal.
  - symmetry. apply Z.mod_small. lia.
  - apply (Z.mod_unique _ _ 1); [left|]; lia.
Qed.

(** [plinfo::delay] is the pipeline information of the segment that many
    segments earlier in the stream, across fields and frames, for every delay
    of at most two fields; no assertion fails. *)
Theorem plinfo_delay_exact n d : 0 <= d <= 624 -> delay (pli_at n) d = Some (pli_at (n - d)).
Proof. apply delay_at. Qed.

Lemma plinfo_delay_exact_witness : delay (pli_at 3) 12 = Some (pli_at (-9)).
Proof. apply (plinfo_delay_exact 3 12). lia. Defined.
