(* ===== verification/AtscRandomizer.v ===== *)
(** * ATSC randomizer: [atsci_randomizer.cc], [atsc_randomizer.cc], [atsc_derandomizer.cc]

    The data is exclusive-ored with the output of a shift register that is
    restarted at every field.  The output table equals its definition; the
    derandomizer block restores the stream the randomizer block was given. *)

From S2P Require Import Prelude.
From stdpp Require Import list.
From S2P Require Import AtscTypes.
#[local] Open Scope Z_scope.
#[local] Open Scope cint_scope.

(** ** The shift register *)

Definition PRELOAD_VALUE : Z := 0x018f.
Definition MASK : Z := 0xa638.

Definition slow_output_map (st : Z) : Z :=
  let output := 0 in
  let output := if ctrue (st .& 0x8000) then output .| 0x01 else output in
  let output := if ctrue (st .& 0x2000) then output .| 0x02 else output in
  let output := if ctrue (st .& 0x1000) then output .| 0x04 else output in
  let output := if ctrue (st .& 0x0200) then output .| 0x08 else output in
  let output := if ctrue (st .& 0x0020) then output .| 0x10 else output in
  let output := if ctrue (st .& 0x0010) then output .| 0x20 else output in
  let output := if ctrue (st .& 0x0008) then output .| 0x40 else output in
  let output := if ctrue (st .& 0x0004) then output .| 0x80 else output in
  u8 output.

(** [initialize_output_map] *)
Definition s_output_map : list Z := map (fun i => slow_output_map (i << 2)) (zseq 0 (Z.to_nat (1 << 14))).

Definition fast_output_map (st : Z) : Z := s_output_map.[(st .& 0xb23c) >> 2].

Definition output (d_state : Z) : Z := fast_output_map d_state.
Definition clk (d_state : Z) : Z :=
  if ctrue (d_state .& 0x1) then ((d_state .^ MASK) >> 1) .| 0x8000 else d_state >> 1.
Definition output_and_clk (d_state : Z) : Z * Z := (output d_state, clk d_state).
Definition reset : Z := PRELOAD_VALUE.

(** [a[i] ^ output_and_clk ()] for every byte. *)
Fixpoint whiten (d_state : Z) (l : list Z) : Z * list Z :=
  match l with
  | [] => (d_state, [])
  | x :: l =>
      let '(r, d_state) := output_and_clk d_state in
      let '(d_state, l) := whiten d_state l in
      (d_state, u8 (x .^ r) :: l)
  end.

Definition randomize (d_state : Z) (inp : atsc_mpeg_packet) : option (Z * list Z) :=
  _ ← assert (inp.[0] =? MPEG_SYNC_BYTE);
  Some (whiten d_state (take 187 (drop 1 inp))).
Definition derandomize (d_state : Z) (inp : list Z) : Z * atsc_mpeg_packet :=
  let '(d_state, out) := whiten d_state inp in (d_state, MPEG_SYNC_BYTE :: out).

(** ** The blocks *)

Record atsc_randomizer := { d_rand : Z; d_field2 : bool; d_segno : Z }.
Definition reset_randomizer : atsc_randomizer :=
  {| d_rand := reset; d_field2 := false; d_segno := 0 |}.

Definition randomizer_step (s : atsc_randomizer) (inp : atsc_mpeg_packet) :
    option (atsc_randomizer * atsc_mpeg_packet_no_sync) :=
  _ ← assert (inp.[0] =? MPEG_SYNC_BYTE);
  _ ← assert ((inp.[1] .& MPEG_TRANSPORT_ERROR_BIT) =? 0);
  pli ← set_regular_seg (d_field2 s) (d_segno s);
  let d_segno := d_segno s + 1 in
  let '(d_segno, d_field2) := if d_segno =? 312 then (0, negb (d_field2 s)) else (d_segno, d_field2 s) in
  let d_rand := if first_regular_seg_p pli then reset else d_rand s in
  '(d_rand, out) ← randomize d_rand inp;
  Some ({| d_rand := d_rand; d_field2 := d_field2; d_segno := d_segno |}, {| pli := pli; data := out |}).
Definition randomizer_work := each_item randomizer_step.

Definition derandomizer_step (d_rand : Z) (inp : atsc_mpeg_packet_no_sync) : option (Z * atsc_mpeg_packet) :=
  _ ← assert (regular_seg_p (pli inp));
  let d_rand := if first_regular_seg_p (pli inp) then reset else d_rand in
  let '(d_rand, out) := derandomize d_rand (data inp) in
  let out := if transport_error_p (pli inp) then out.[1 <- u8 (out.[1] .| MPEG_TRANSPORT_ERROR_BIT)]
             else out.[1 <- u8 (out.[1] .& Z.lnot MPEG_TRANSPORT_ERROR_BIT)] in
  Some (d_rand, out).
Definition derandomizer_work := each_item derandomizer_step.

(** ** The output table *)

Lemma test_masked st m : m .& 0xb23c = m -> ctrue ((st .& 0xb23c) .& m) = ctrue (st .& m).
Proof. intros H. by rewrite <- Z.land_assoc, (Z.land_comm 0xb23c), H. Qed.

(** The table lookup the randomizer uses, which looks at the bits of its
    index mask only, gives the output the taps define, for every state. *)
Theorem fast_output_map_correct st : fast_output_map st = slow_output_map st.
Proof.
  unfold fast_output_map. pose proof (land_range st 0xb23c ltac:(lia)) as Hr.
  set (x := st .& 0xb23c) in *.
  assert (0 <= x >> 2 < 2 ^ 14) as Hi by (rewrite shr_div by lia; change (2 ^ 2) with 4; change (2 ^ 14) with 16384; divlia).
  assert (s_output_map.[x >> 2] = slow_output_map (x >> 2 << 2)) as ->.
  { unfold s_output_map. rewrite map_zseq_get; [done|]. change (Z.to_nat (1 << 14)) with (Z.to_nat (2 ^ 14)). lia. }
  assert (x >> 2 << 2 = x) as ->.
  { apply Z.bits_inj'. intros i Hn. rewrite Z.shiftl_spec by lia.
    destruct (Z.ltb_spec i 2).
    - rewrite Z.testbit_neg_r by lia. unfold x. rewrite Z.land_spec.
      assert (i = 0 \/ i = 1) as [-> | ->] by lia; by rewrite andb_false_r.
    - rewrite Z.shiftr_spec by lia. f_equal. lia. }
  unfold slow_output_map, x. by rewrite !test_masked by reflexivity.
Qed.

Lemma output_range s : 0 <= output s < 256.
Proof.
  unfold output. rewrite fast_output_map_correct. unfold slow_output_map. apply u8_range.
Qed.

(** ** The stream *)

(** The register before packet [n] of a stream that starts a first field. *)
Fixpoint clocks (k : nat) (d_state : Z) : Z := match k with O => d_state | S k => clocks k (clk d_state) end.
Definition state_at (n : Z) : Z := clocks (187 * Z.to_nat (n mod 312)) reset.

Lemma whiten_eq d l : whiten d l = (clocks (length l) d, imap (fun i x => u8 (x .^ output (clocks i d))) l).
Proof.
  revert d. induction l as [|x l IH]; intros d; [done|]. cbn [whiten output_and_clk length clocks].
  rewrite IH. by rewrite imap_cons.
Qed.

Lemma whiten_length d l : length (whiten d l).2 = length l.
Proof. rewrite whiten_eq. apply length_imap. Qed.

Lemma whiten_bytes d l : Forall byte (whiten d l).2.
Proof.
  rewrite whiten_eq. apply Forall_lookup. intros i y Hy. apply list_lookup_imap_Some in Hy as (x & _ & ->).
  apply u8_range.
Qed.

(** Whitening twice from one state gives the bytes back. *)
Lemma whiten_twice d l : Forall byte l -> whiten d (whiten d l).2 = ((whiten d l).1, l).
Proof.
  intros Hl. rewrite !whiten_eq. cbn [fst snd]. rewrite length_imap. f_equal.
  apply list_eq. intros i. rewrite list_lookup_imap, list_lookup_imap.
  destruct (l !! i) as [x|] eqn:E; [|done]. cbn. f_equal.
  pose proof (Forall_lookup_1 _ _ _ _ Hl E) as Hx. cbv beta in Hx.
  rewrite (u8_id (x .^ _)) by (apply (lxor_range _ _ 8); [lia|apply Hx|apply output_range]).
  rewrite lxor_cancel. by apply u8_id.
Qed.

(** A transport packet: the sync byte, no error bit. *)
Definition transport_packet (p : atsc_mpeg_packet) : Prop :=
  length p = 188%nat /\ Forall byte p /\ p.[0] = MPEG_SYNC_BYTE /\ p.[1] .& MPEG_TRANSPORT_ERROR_BIT = 0.

(** What the randomizer makes of packet [n]. *)
Definition randomized (n : Z) (p : atsc_mpeg_packet) : atsc_mpeg_packet_no_sync :=
  {| pli := pli_at n; data := (whiten (state_at n) (drop 1 p)).2 |}.

Definition randomizer_at (n : Z) (s : atsc_randomizer) : Prop :=
  d_field2 s = negb (n mod 624 <? 312) /\ d_segno s = n mod 312 /\
  (n mod 312 <> 0 -> d_rand s = state_at n).

Lemma clocks_add a b d : clocks (a + b) d = clocks b (clocks a d).
Proof. revert d. induction a as [|a IH]; intros d; [done|]. apply IH. Qed.

(** One packet takes the register from its position to the next. *)
Lemma state_next n : (n + 1) mod 312 <> 0 -> clocks 187 (state_at n) = state_at (n + 1).
Proof.
  intros Hn. unfold state_at. rewrite <- clocks_add. f_equal.
  pose proof (Z.mod_pos_bound n 312 ltac:(lia)).
  assert ((n + 1) mod 312 = n mod 312 + 1) as ->; [|lia].
  rewrite <- Zplus_mod_idemp_l. apply Z.mod_small. split; [lia|].
  destruct (decide (n mod 312 = 311)) as [E|]; [|lia].
  destruct Hn. rewrite <- Zplus_mod_idemp_l, E. done.
Qed.

Lemma field_next n :
  (if n mod 312 + 1 =? 312 then (0, negb (negb (n mod 624 <? 312))) else (n mod 312 + 1, negb (n mod 624 <? 312)))
  = ((n + 1) mod 312, negb ((n + 1) mod 624 <? 312)).
Proof.
  pose proof (Z.mod_pos_bound n 624 ltac:(lia)). pose proof (Z.mod_pos_bound n 312 ltac:(lia)).
  assert (n mod 624 = n mod 312 \/ n mod 624 = n mod 312 + 312) as Hc by divlia.
  assert ((n + 1) mod 624 = if n mod 624 =? 623 then 0 else n mod 624 + 1) as ->
    by (case_if; divlia).
  assert ((n + 1) mod 312 = if n mod 312 =? 311 then 0 else n mod 312 + 1) as ->
    by (case_if; divlia).
  destruct (Z.eqb_spec (n mod 312 + 1) 312), (Z.eqb_spec (n mod 312) 311), (Z.eqb_spec (n mod 624) 623); try lia;
    f_equal; destruct (Z.ltb_spec (n mod 624) 312); cbn [negb]; symmetry;
    rewrite ?negb_true_iff, ?negb_false_iff, ?Z.ltb_lt, ?Z.ltb_ge; lia.
Qed.

Lemma randomizer_spec k s p :
  randomizer_at k s -> transport_packet p ->
  exists s', randomizer_step s p = Some (s', randomized k p) /\ randomizer_at (k + 1) s'.
Proof.
  intros (Hf & Hs & Hr) (Hlen & Hb & H0 & H1). unfold randomizer_step.
  rewrite H0, H1. cbn [Z.eqb Pos.eqb assert MPEG_SYNC_BYTE]. rewrite !some_bind, Hf, Hs, set_regular_at, some_bind.
  rewrite field_next, pli_first.
  assert ((if k mod 312 =? 0 then reset else d_rand s) = state_at k) as ->.
  { destruct (Z.eqb_spec (k mod 312) 0) as [E|]; [|auto]. unfold state_at. by rewrite E. }
  unfold randomize. rewrite H0. cbn [Z.eqb Pos.eqb assert MPEG_SYNC_BYTE]. rewrite some_bind.
  rewrite take_ge by (rewrite length_drop; lia).
  destruct (whiten (state_at k) (drop 1 p)) as [d out] eqn:E. rewrite some_bind.
  eexists. split; [unfold randomized; by rewrite E|]. split; [done|]. split; [done|]. intros Hn. cbn [d_rand].
  rewrite <- state_next by done. rewrite whiten_eq in E. injection E as <- _. f_equal.
  rewrite length_drop. lia.
Qed.

(** The derandomizer before packet [n]. *)
Definition derandomizer_at (n : Z) (d_rand : Z) : Prop := n mod 312 <> 0 -> d_rand = state_at n.

Lemma no_error_bit x : byte x -> x .& MPEG_TRANSPORT_ERROR_BIT = 0 ->
  u8 (x .& Z.lnot MPEG_TRANSPORT_ERROR_BIT) = x.
Proof.
  intros Hx. revert x Hx. refine (all_below_decide 256 (fun x => x .& MPEG_TRANSPORT_ERROR_BIT = 0 ->
    u8 (x .& Z.lnot MPEG_TRANSPORT_ERROR_BIT) = x) _).
  vm_compute. reflexivity.
Qed.

Lemma derandomizer_spec k d p :
  derandomizer_at k d -> transport_packet p ->
  exists d', derandomizer_step d (randomized k p) = Some (d', p) /\ derandomizer_at (k + 1) d'.
Proof.
  intros Hd (Hlen & Hb & H0 & H1). unfold derandomizer_step, randomized. cbn [pli data].
  rewrite pli_regular, pli_first, pli_no_error. cbn [assert]. rewrite some_bind.
  assert ((if k mod 312 =? 0 then reset else d) = state_at k) as ->.
  { destruct (Z.eqb_spec (k mod 312) 0) as [E|]; [|auto]. unfold state_at. by rewrite E. }
  unfold derandomize. rewrite whiten_twice by by apply Forall_drop.
  destruct p as [|p0 p]; [done|]. change ((p0 :: p).[0]) with p0 in H0. subst p0. cbn [drop skipn].
  eexists. split; [do 2 f_equal|].
  - destruct p as [|p1 p]; [done|]. change ((MPEG_SYNC_BYTE :: p1 :: p).[1]) with p1 in *.
    rewrite no_error_bit; [done|by inversion Hb as [|? ? ? Hb2]; inversion Hb2|done].
  - intros Hn. rewrite whiten_eq. cbn [fst]. rewrite <- state_next by done. f_equal. rewrite drop_0. cbn in Hlen. lia.
Qed.

(** The derandomizer block gives back exactly the transport packets the
    randomizer block was given, for a stream of any length from reset and
    whatever the register of the derandomizer was; no assertion fails. *)
Theorem derandomizer_inverts_randomizer ps d :
  Forall transport_packet ps ->
  exists s segs d', randomizer_work reset_randomizer ps = Some (s, segs) /\
    Forall (fun seg => length (data seg) = 187%nat) segs /\
    derandomizer_work d segs = Some (d', ps).
Proof.
  intros Hps.
  destruct (each_item_spec randomizer_step randomizer_at randomized (fun _ => transport_packet)
    reset_randomizer ps 0) as (s & E & _).
  - intros. by apply randomizer_spec.
  - split; [done|]. split; [done|]. intros []. reflexivity.
  - intros i p Hi. by apply (Forall_lookup_1 _ _ _ _ Hps Hi).
  - set (segs := imap (fun i => randomized (0 + Z.of_nat i)) ps) in E.
    destruct (each_item_spec derandomizer_step derandomizer_at
      (fun k _ => default ([] : atsc_mpeg_packet) (ps !! Z.to_nat k))
      (fun k seg => exists p, ps !! Z.to_nat k = Some p /\ seg = randomized k p) d segs 0) as (d' & E2 & _).
    + intros k r seg Hk (p & Hp & ->). cbv beta. rewrite Hp. apply derandomizer_spec; [done|].
      by apply (Forall_lookup_1 _ _ _ _ Hps Hp).
    + intros []. reflexivity.
    + intros i seg Hi. apply list_lookup_imap_Some in Hi as (p & Hp & ->). exists p.
      by rewrite Z.add_0_l, Nat2Z.id.
    + exists s, segs, d'. split; [exact E|]. split.
      * apply Forall_lookup. intros i seg Hi. apply list_lookup_imap_Some in Hi as (p & Hp & ->).
        destruct (Forall_lookup_1 _ _ _ _ Hps Hp) as [Hlen _]. cbn.
        rewrite whiten_length, length_drop. lia.
      * unfold derandomizer_work. rewrite E2. do 2 f_equal. apply list_eq. intros i.
        rewrite list_lookup_imap. unfold segs. rewrite list_lookup_imap.
        destruct (ps !! i) as [p|] eqn:Ei; [|done].
        change (Some (default ([] : atsc_mpeg_packet) (ps !! Z.to_nat (0 + Z.of_nat i))) = Some p).
        by rewrite Z.add_0_l, Nat2Z.id, Ei.
Qed.

Definition sample_packet : atsc_mpeg_packet := 0x47 :: map (fun i => i .& 0x7f) (zseq 0 187).

Lemma sample_transport : transport_packet sample_packet.
Proof.
  split; [reflexivity|]. split; [|split; reflexivity].
  apply Forall_forall. intros x Hx. assert (forallb (fun x => (0 <=? x) && (x <? 256)) sample_packet = true) as H
    by reflexivity. rewrite forallb_forall in H. specialize (H x (proj1 (list_elem_of_In _ _) Hx)).
  unfold byte. zbool. lia.
Qed.

Lemma derandomizer_inverts_randomizer_witness :
  exists s segs d', randomizer_work reset_randomizer [sample_packet; sample_packet] = Some (s, segs) /\
    derandomizer_work 5 segs = Some (d', [sample_packet; sample_packet]).
Proof.
  destruct (derandomizer_inverts_randomizer [sample_packet; sample_packet] 5) as (s & segs & d' & E & _ & E2).
  - do 2 (apply Forall_cons; split; [apply sample_transport|]). by apply Forall_nil.
  - exists s, segs, d'. split; [exact E|exact E2].
Defined.
