(* ===== verification/AtscInterleaver.v ===== *)
(** * ATSC interleaver: [interleaver_fifo.h], [convolutional_interleaver.h], [atsci_data_interleaver.cc]

    A commutator deals the symbols to banks of different delays.  Every bank is
    a queue kept in a ring; the interleaver followed by the deinterleaver is a
    plain delay. *)

From S2P Require Import Prelude.
From stdpp Require Import list.
From S2P Require Import AtscTypes.
#[local] Open Scope Z_scope.
#[local] Open Scope cint_scope.

Section symbols.
Context {A : Type} `{Default A}.

(** ** The fifo *)

Record interleaver_fifo := { m_size : Z; m_position : Z; m_ring : list A }.

Definition new_fifo (size : Z) : interleaver_fifo :=
  {| m_size := size; m_position := 0; m_ring := replicate (Z.to_nat size) dflt |}.
Definition reset_fifo (f : interleaver_fifo) : interleaver_fifo :=
  {| m_size := m_size f; m_position := 0; m_ring := replicate (Z.to_nat (m_size f)) dflt |}.

Definition stuff (f : interleaver_fifo) (input : A) : A * interleaver_fifo :=
  if m_size f =? 0 then (input, f)
  else
    let retval := (m_ring f).[m_position f] in
    let m_ring := (m_ring f).[m_position f <- input] in
    let m_position := m_position f + 1 in
    let m_position := if m_size f <=? m_position then 0 else m_position in
    (retval, {| m_size := m_size f; m_position := m_position; m_ring := m_ring |}).

(** ** The interleaver *)

#[local] Instance Default_fifo : Default interleaver_fifo := new_fifo 0.

Record convolutional_interleaver := {
  m_commutator : Z;
  m_nbanks : Z;
  m_fifo_size_incr : Z;
  m_fifo : list interleaver_fifo
}.

Definition make_interleaver (interleave_p : bool) (nbanks fifo_size_incr : Z) :
    option convolutional_interleaver :=
  _ ← assert (1 <=? nbanks);
  _ ← assert (1 <=? fifo_size_incr);
  let bank i := new_fifo (i * fifo_size_incr) in
  Some {| m_commutator := 0; m_nbanks := nbanks; m_fifo_size_incr := fifo_size_incr;
          m_fifo := map (fun i => if interleave_p : bool then bank i else bank (nbanks - 1 - i))
                        (zseq 0 (Z.to_nat nbanks)) |}.

Definition sync (c : convolutional_interleaver) : convolutional_interleaver :=
  {| m_commutator := 0; m_nbanks := m_nbanks c; m_fifo_size_incr := m_fifo_size_incr c; m_fifo := m_fifo c |}.
Definition reset_interleaver (c : convolutional_interleaver) : convolutional_interleaver :=
  let c := sync c in
  {| m_commutator := m_commutator c; m_nbanks := m_nbanks c; m_fifo_size_incr := m_fifo_size_incr c;
     m_fifo := map reset_fifo (m_fifo c) |}.
Definition end_to_end_delay (c : convolutional_interleaver) : Z :=
  let m := m_nbanks c * m_fifo_size_incr c in m * (m_nbanks c - 1).

Definition transform (c : convolutional_interleaver) (input : A) : A * convolutional_interleaver :=
  let '(retval, f) := stuff (m_fifo c).[m_commutator c] input in
  let commutator := m_commutator c + 1 in
  let commutator := if m_nbanks c <=? commutator then 0 else commutator in
  (retval, {| m_commutator := commutator; m_nbanks := m_nbanks c; m_fifo_size_incr := m_fifo_size_incr c;
              m_fifo := (m_fifo c).[m_commutator c <- f] |}).

Fixpoint transforms (c : convolutional_interleaver) (l : list A) : list A * convolutional_interleaver :=
  match l with
  | [] => ([], c)
  | x :: l =>
      let '(y, c) := transform c x in
      let '(r, c) := transforms c l in (y :: r, c)
  end.

(** ** A ring is a queue *)

(** The symbols of the fifo, the oldest first. *)
Definition queue (f : interleaver_fifo) : list A :=
  drop (Z.to_nat (m_position f)) (m_ring f) ++ take (Z.to_nat (m_position f)) (m_ring f).

Record fifo_ok (f : interleaver_fifo) (n : Z) : Prop := {
  ok_size : m_size f = n;
  ok_ring : Z.of_nat (length (m_ring f)) = n;
  ok_position : 0 <= m_position f < Z.max n 1
}.

Lemma new_fifo_ok n : 0 <= n -> fifo_ok (new_fifo n) n /\ queue (new_fifo n) = replicate (Z.to_nat n) dflt.
Proof.
  intros Hn. split.
  - split; cbn; rewrite ?length_replicate; lia.
  - unfold queue. cbn. by rewrite drop_0, take_0, app_nil_r.
Qed.

Lemma queue_length f n : fifo_ok f n -> Z.of_nat (length (queue f)) = n.
Proof.
  intros [_ Hr Hp]. unfold queue. rewrite length_app, length_drop, length_take. lia.
Qed.

Lemma stuff_spec f n x :
  fifo_ok f n ->
  exists f', stuff f x = (default x (head (queue f)), f') /\ fifo_ok f' n /\
    queue f' = tail (queue f ++ [x]).
Proof.
  intros [Hs Hr Hp]. unfold stuff. rewrite Hs. destruct (Z.eqb_spec n 0) as [->|Hn].
  { exists f. assert (m_ring f = []) as E by (apply length_zero_iff_nil; lia).
    unfold queue. rewrite E, drop_nil, take_nil. cbn. split; [done|]. split; [|done]. split; [done|done|lia]. }
  set (p := Z.to_nat (m_position f)).
  assert (p < length (m_ring f))%nat as Hlt by lia.
  destruct (lookup_lt_is_Some_2 _ _ Hlt) as [y Hy].
  assert ((m_ring f).[m_position f] = y) as -> by (apply aget_lookup; [lia|done]).
  assert ((m_ring f).[m_position f <- x] = take p (m_ring f) ++ x :: drop (S p) (m_ring f)) as ->.
  { unfold aset. destruct (Z.ltb_spec (m_position f) 0); [lia|]. apply insert_take_drop. lia. }
  assert (queue f = y :: drop (S p) (m_ring f) ++ take p (m_ring f)) as Hq.
  { unfold queue. fold p. by rewrite (drop_S _ y) by done. }
  eexists. split; [by rewrite Hq|].
  assert (length (take p (m_ring f) ++ x :: drop (S p) (m_ring f)) = length (m_ring f)) as Hlen.
  { rewrite length_app, length_take. cbn. rewrite length_drop. lia. }
  split.
  - split; cbn; [done|lia|]. destruct (Z.leb_spec n (m_position f + 1)); lia.
  - rewrite Hq. unfold queue. cbn [m_ring m_position app tail].
    destruct (Z.leb_spec n (m_position f + 1)).
    + rewrite (drop_ge (m_ring f)) by lia. rewrite drop_0, take_0, app_nil_r. done.
    + replace (Z.to_nat (m_position f + 1)) with (length (take p (m_ring f) ++ [x]))
        by (rewrite length_app, length_take; cbn; lia).
      change (take p (m_ring f) ++ x :: drop (S p) (m_ring f))
        with (take p (m_ring f) ++ [x] ++ drop (S p) (m_ring f)).
      rewrite app_assoc, drop_app_length, take_app_length. by rewrite <- app_assoc.
Qed.

(** A fifo that has been fed the stream [h], [k] symbols at a time apart, up to
    time [t], excluded, holds the last [n] of them. *)
Definition fifo_at (f : interleaver_fifo) (n k t : Z) (h : Z -> A) : Prop :=
  fifo_ok f n /\ queue f = map (fun m => h (t - k * (n - m))) (zseq 0 (Z.to_nat n)).

Lemma stuff_at f n k t h :
  0 <= n -> fifo_at f n k t h ->
  exists f', stuff f (h t) = (h (t - k * n), f') /\ fifo_at f' n k (t + k) h.
Proof.
  intros Hn [Hok Hq]. destruct (stuff_spec f n (h t) Hok) as (f' & E & Hok' & Hq').
  exists f'. rewrite E, Hq. unfold fifo_at. rewrite Hq', Hq.
  destruct (Z.to_nat n) as [|m] eqn:Em.
  - assert (n = 0) as -> by lia. rewrite Z.mul_0_r, Z.sub_0_r. by split_and!.
  - split; [rewrite map_zseq_S; cbn; do 2 f_equal; lia|]. split; [done|].
    rewrite map_zseq_S, map_zseq_snoc. cbn [app tail]. f_equal.
    + apply map_ext. intros. f_equal. lia.
    + do 2 f_equal. lia.
Qed.

(** ** The banks *)

(** The first time from [t] on at which the commutator, at 0 at time 0, is at [j]. *)
Definition turn (n j t : Z) : Z := t + (j - t) mod n.

(** An interleaver of [n] banks with delays [size] that was fed [h] up to [t]. *)
Record interleaver_at (c : convolutional_interleaver) (n : Z) (size : Z -> Z) (t : Z) (h : Z -> A) : Prop := {
  at_nbanks : m_nbanks c = n;
  at_commutator : m_commutator c = t mod n;
  at_length : Z.of_nat (length (m_fifo c)) = n;
  at_bank : forall j, 0 <= j < n -> fifo_at (m_fifo c).[j] (size j) n (turn n j t) h
}.

Lemma turn_now n t : 0 < n -> turn n (t mod n) t = t.
Proof. intros Hn. unfold turn. rewrite Zminus_mod_idemp_l, Z.sub_diag, Z.mod_0_l by lia. lia. Qed.
Lemma turn_next n t : 0 < n -> turn n (t mod n) (t + 1) = t + n.
Proof.
  intros Hn. unfold turn. rewrite Zminus_mod_idemp_l. replace (t - (t + 1)) with (-1) by lia.
  destruct (decide (n = 1)) as [->|]; [change (-1 mod 1) with 0; lia|].
  rewrite <- (Z.mod_unique (-1) n (-1) (n - 1)); [lia|left; lia|lia].
Qed.
Lemma turn_other n j t : 0 < n -> 0 <= j < n -> j <> t mod n -> turn n j (t + 1) = turn n j t.
Proof.
  intros Hn Hj Hne. unfold turn.
  assert ((j - t) mod n <> 0) as H0.
  { intros E. apply Hne. rewrite <- (Z.mod_small j n) by done.
    replace j with (t + (j - t)) at 1 by lia. rewrite <- Zplus_mod_idemp_r, E. f_equal. lia. }
  pose proof (Z.mod_pos_bound (j - t) n Hn).
  assert ((j - (t + 1)) mod n = (j - t) mod n - 1) as ->; [|lia].
  replace (j - (t + 1)) with ((j - t) - 1) by lia. rewrite <- Zminus_mod_idemp_l.
  apply Z.mod_small. lia.
Qed.

Lemma transform_at c n size t h :
  0 < n -> (forall j, 0 <= j < n -> 0 <= size j) -> interleaver_at c n size t h ->
  exists c', transform c (h t) = (h (t - n * size (t mod n)), c') /\ interleaver_at c' n size (t + 1) h.
Proof.
  intros Hn Hsize [Hb Hc Hl Hf]. pose proof (Z.mod_pos_bound t n Hn) as Hr.
  pose proof (Hf _ Hr) as Hj. rewrite turn_now in Hj by done.
  destruct (stuff_at _ _ _ _ _ (Hsize _ Hr) Hj) as (f' & E & Hf').
  unfold transform. rewrite Hc, E, Hb. eexists. split; [reflexivity|]. split.
  - done.
  - cbn. destruct (Z.leb_spec n (t mod n + 1)).
    + replace (t + 1) with ((t / n + 1) * n) by (pose proof (Z.div_mod t n); lia).
      by rewrite Z.mod_mul by lia.
    + symmetry. rewrite <- Zplus_mod_idemp_l. apply Z.mod_small. lia.
  - cbn. by rewrite length_aset.
  - intros j Hjr. cbn [m_fifo]. rewrite aget_aset by lia. destruct (Z.eqb_spec (t mod n) j) as [<-|Hne].
    + by rewrite turn_next.
    + rewrite turn_other by auto. by apply Hf.
Qed.

Lemma transforms_at c n size t h l :
  0 < n -> (forall j, 0 <= j < n -> 0 <= size j) -> interleaver_at c n size t h ->
  (forall i x, l !! i = Some x -> x = h (t + Z.of_nat i)) ->
  exists c', transforms c l =
    (imap (fun i _ => h (t + Z.of_nat i - n * size ((t + Z.of_nat i) mod n))) l, c') /\
    interleaver_at c' n size (t + Z.of_nat (length l)) h.
Proof.
  intros Hn Hsize. revert c t. induction l as [|x l IH]; intros c t Hc Hl; cbn [transforms].
  - exists c. split; [done|]. cbn. by rewrite Z.add_0_r.
  - rewrite (Hl 0%nat x eq_refl), Z.add_0_r.
    destruct (transform_at c n size t h Hn Hsize Hc) as (c1 & -> & Hc1).
    destruct (IH c1 (t + 1) Hc1) as (c' & -> & Hc').
    { intros i y Hy. rewrite (Hl (S i) y Hy). f_equal. lia. }
    exists c'. rewrite imap_cons, Z.add_0_r. split.
    + f_equal. f_equal. apply imap_ext. intros i y _. cbn. replace (t + 1 + Z.of_nat i) with (t + Z.of_nat (S i)) by lia. done.
    + cbn [length]. by replace (t + Z.of_nat (S (length l))) with (t + 1 + Z.of_nat (length l)) by lia.
Qed.

(** An interleaver fed nothing but zeros, whatever its phase, can be taken for
    one at the start of a round when it is synchronized. *)
Lemma sync_blank c n size t0 t h :
  0 < n -> (forall j, 0 <= j < n -> 0 <= size j) ->
  interleaver_at c n size t0 (fun _ => dflt) -> t mod n = 0 -> (forall i, i < t -> h i = dflt) ->
  interleaver_at (sync c) n size t h.
Proof.
  intros Hn Hsize [Hb _ Hl Hf] Ht Hh. split; cbn; [done|done|done|].
  intros j Hj. destruct (Hf j Hj) as [Hok Hq]. split; [done|]. rewrite Hq.
  unfold zseq. rewrite !map_map. apply map_ext_in. intros m Hm. apply in_seq in Hm. symmetry. apply Hh.
  specialize (Hsize j Hj). unfold turn.
  assert ((j - t) mod n = j) as ->.
  { rewrite <- Zminus_mod_idemp_r, Ht, Z.sub_0_r. by apply Z.mod_small. }
  assert (Z.of_nat m < size j) by lia. nia.
Qed.

Lemma make_interleaver_at (p : bool) n incr h :
  1 <= n -> 1 <= incr -> (forall i, i < 0 -> h i = dflt) ->
  exists c, make_interleaver p n incr = Some c /\ m_nbanks c = n /\ m_fifo_size_incr c = incr /\
    interleaver_at c n (fun j => if p then j * incr else (n - 1 - j) * incr) 0 h.
Proof.
  intros Hn Hi Hh. unfold make_interleaver.
  destruct (Z.leb_spec 1 n); [|lia]. destruct (Z.leb_spec 1 incr); [|lia]. cbn [assert]. rewrite !some_bind.
  eexists. split; [reflexivity|]. split; [done|]. split; [done|]. split; cbn [m_nbanks m_commutator m_fifo].
  - done.
  - by rewrite Z.mod_0_l by lia.
  - rewrite length_map, length_zseq. lia.
  - intros j Hj. rewrite map_zseq_get by lia.
    assert (exists sz, 0 <= sz /\ (if p then j * incr else (n - 1 - j) * incr) = sz /\
      (if p then new_fifo (j * incr) else new_fifo ((n - 1 - j) * incr)) = new_fifo sz) as (sz & Hsz & -> & ->).
    { destruct p; eexists; (split; [|by split]); nia. }
    destruct (new_fifo_ok sz Hsz) as [Hok Hq]. split; [done|]. rewrite Hq.
    apply replicate_as_elem_of. split; [by rewrite length_map, length_zseq|]. intros y Hy.
    apply list_elem_of_In, in_map_iff in Hy as (m & <- & Hm). apply in_map_iff in Hm as (m' & <- & Hm).
    apply in_seq in Hm. apply Hh. unfold turn.
    rewrite Z.sub_0_r, (Z.mod_small j n) by done. nia.
Qed.

(** What the deinterleaver makes of what the interleaver makes of [h]. *)
Lemma delays_add n incr t (h : Z -> A) : 0 < n ->
  let g t := h (t - n * ((t mod n) * incr)) in
  g (t - n * ((n - 1 - t mod n) * incr)) = h (t - n * incr * (n - 1)).
Proof.
  intros Hn g. unfold g. f_equal.
  replace (t - n * ((n - 1 - t mod n) * incr)) with (t + - ((n - 1 - t mod n) * incr) * n) by ring.
  rewrite Z_mod_plus_full. ring.
Qed.

(** The interleaver followed by the deinterleaver is the delay
    [end_to_end_delay] promises, for any number of banks, any fifo increment and
    a stream of any length. *)
Theorem deinterleave_interleave n incr l :
  1 <= n -> 1 <= incr ->
  exists ci cd, make_interleaver true n incr = Some ci /\ make_interleaver false n incr = Some cd /\
    let '(interleaved, _) := transforms ci l in
    let '(out, _) := transforms cd interleaved in
    out = take (length l) (replicate (Z.to_nat (end_to_end_delay ci)) dflt ++ l).
Proof.
  intros Hn Hi. set (h i := l.[i]). set (g t := h (t - n * ((t mod n) * incr))).
  assert (forall i, i < 0 -> h i = dflt) as Hh.
  { intros i Hneg. unfold h, aget. destruct (Z.ltb_spec i 0); [done|lia]. }
  destruct (make_interleaver_at true n incr h Hn Hi Hh) as (ci & E1 & Hb & Hincr & Hci).
  destruct (make_interleaver_at false n incr g Hn Hi) as (cd & E2 & _ & _ & Hcd).
  { intros i Hneg. apply Hh. pose proof (Z.mod_pos_bound i n ltac:(lia)). nia. }
  exists ci, cd. split; [done|]. split; [done|].
  destruct (transforms_at ci n (fun j => j * incr) 0 h l ltac:(lia) ltac:(cbn; nia) Hci) as (ci' & -> & _).
  { intros i x Hx. unfold h. symmetry. apply aget_lookup; [lia|]. by replace (Z.to_nat (0 + Z.of_nat i)) with i by lia. }
  destruct (transforms_at cd n (fun j => (n - 1 - j) * incr) 0 g (imap (fun i _ => g (0 + Z.of_nat i)) l)
    ltac:(lia) ltac:(cbn; nia) Hcd)
    as (cd' & E & _).
  { intros i x Hx. apply list_lookup_imap_Some in Hx as (y & _ & ->). done. }
  change (imap (fun i _ => h (0 + Z.of_nat i - n * ((0 + Z.of_nat i) mod n * incr))) l)
    with (imap (fun i (_ : A) => g (0 + Z.of_nat i)) l).
  rewrite E. apply list_eq. intros i. rewrite !list_lookup_imap.
  unfold end_to_end_delay. rewrite Hb, Hincr. set (D := n * incr * (n - 1)).
  assert (0 <= D) by (unfold D; nia).
  destruct (l !! i) as [x|] eqn:Ei.
  - pose proof (lookup_lt_Some _ _ _ Ei). rewrite lookup_take_lt by done.
    cbn [fmap option_fmap option_map]. unfold g at 1. rewrite delays_add by lia. fold D.
    destruct (decide (i < Z.to_nat D)%nat).
    + rewrite lookup_app_l by (rewrite length_replicate; lia). rewrite lookup_replicate_2 by done.
      f_equal. apply Hh. lia.
    + rewrite lookup_app_r by (rewrite length_replicate; lia). rewrite length_replicate.
      destruct (lookup_lt_is_Some_2 l (i - Z.to_nat D)) as [y Hy]; [lia|]. rewrite Hy. f_equal.
      unfold h. apply aget_lookup; [lia|]. rewrite <- Hy. f_equal. lia.
  - cbn. symmetry. apply lookup_take_ge. by apply lookup_ge_None.
Qed.
End symbols.

Arguments interleaver_fifo A : clear implicits.
Arguments convolutional_interleaver A : clear implicits.

Lemma deinterleave_interleave_witness :
  exists ci cd, make_interleaver (A := Z) true 3 2 = Some ci /\ make_interleaver false 3 2 = Some cd /\
    let '(interleaved, _) := transforms ci (map (Z.add 1) (zseq 0 20)) in
    let '(out, _) := transforms cd interleaved in
    out = [0; 0; 0; 0; 0; 0; 0; 0; 0; 0; 0; 0; 1; 2; 3; 4; 5; 6; 7; 8].
Proof.
  destruct (deinterleave_interleave (A := Z) 3 2 (map (Z.add 1) (zseq 0 20))) as (ci & cd & E1 & E2 & E); [lia|lia|].
  exists ci, cd. split; [exact E1|]. split; [exact E2|]. injection E1 as <-. injection E2 as <-. exact E.
Defined.

(** ** The interleaver of the standard *)

Definition atsci_data_interleaver : option (convolutional_interleaver Z) := make_interleaver true 52 4.

Definition interleave (c : convolutional_interleaver Z) (inp : atsc_mpeg_packet_rs_encoded) :
    option (convolutional_interleaver Z * atsc_mpeg_packet_rs_encoded) :=
  _ ← assert (regular_seg_p (pli inp));
  _ ← sanity_check (pli inp);
  let c := if first_regular_seg_p (pli inp) then sync c else c in
  let '(out, c) := transforms c (data inp) in
  Some (c, {| pli := pli inp; data := out |}).

Record atsci_data_deinterleaver := { d_conv : convolutional_interleaver Z; alignment_fifo : interleaver_fifo Z }.

Definition make_data_deinterleaver : option atsci_data_deinterleaver :=
  c ← make_interleaver false 52 4;
  Some {| d_conv := c; alignment_fifo := new_fifo 156 |}.

Fixpoint align (c : convolutional_interleaver Z) (f : interleaver_fifo Z) (l : list Z) :
    list Z * convolutional_interleaver Z * interleaver_fifo Z :=
  match l with
  | [] => ([], c, f)
  | x :: l =>
      let '(y, c) := transform c x in
      let '(z, f) := stuff f y in
      let '(r, c, f) := align c f l in (z :: r, c, f)
  end.

Definition deinterleave (d : atsci_data_deinterleaver) (inp : atsc_mpeg_packet_rs_encoded) :
    option (atsci_data_deinterleaver * atsc_mpeg_packet_rs_encoded) :=
  _ ← assert (regular_seg_p (pli inp));
  _ ← sanity_check (pli inp);
  let c := if first_regular_seg_p (pli inp) then sync (d_conv d) else d_conv d in
  pli ← delay (pli inp) 52;
  let '(out, c, f) := align c (alignment_fifo d) (data inp) in
  Some ({| d_conv := c; alignment_fifo := f |}, {| pli := pli; data := out |}).

Definition interleaver_work := each_item interleave.
Definition deinterleaver_work := each_item deinterleave.

(** ** On a stream of segments *)

(** Segment [k] of a stream whose byte [t] is [h t]. *)
Definition segment_of (h : Z -> Z) (p k : Z) : atsc_mpeg_packet_rs_encoded :=
  {| pli := pli_at p; data := map (fun i => h (207 * k + i)) (zseq 0 207) |}.

Definition spread (h : Z -> Z) (t : Z) : Z := h (t - 52 * ((t mod 52) * 4)).

Definition interleaver_before (k : Z) (h : Z -> Z) (c : convolutional_interleaver Z) : Prop :=
  interleaver_at c 52 (fun j => j * 4) (207 * k) h.

(** Synchronizing changes nothing at the start of a field: a field holds a whole
    number of rounds. *)
Lemma sync_aligned c size k (h : Z -> Z) : k mod 312 = 0 ->
  interleaver_at c 52 size (207 * k) h -> sync c = c.
Proof.
  intros Hk [_ Hc _ _]. destruct c as [m n i f]. cbn in *. unfold sync. cbn. f_equal. subst m.
  symmetry. apply Z.mod_divide; [lia|]. apply Z.mod_divide in Hk as [q ->]; [|lia].
  exists (q * 1242). lia.
Qed.

Lemma interleave_spec k h c :
  interleaver_before k h c ->
  exists c', interleave c (segment_of h k k) = Some (c', segment_of (spread h) k k) /\ interleaver_before (k + 1) h c'.
Proof.
  intros Hc. unfold interleave, segment_of. cbn [pli data].
  rewrite pli_regular, pli_sane, pli_first. cbn [assert]. rewrite !some_bind.
  assert ((if k mod 312 =? 0 then sync c else c) = c) as ->.
  { destruct (Z.eqb_spec (k mod 312) 0); [by apply (sync_aligned _ (fun j => j * 4) k h)|done]. }
  destruct (transforms_at c 52 (fun j => j * 4) (207 * k) h (map (fun i => h (207 * k + i)) (zseq 0 207))
    ltac:(lia) ltac:(lia) Hc) as (c' & -> & Hc').
  { intros i x Hx. by apply zseq_lookup in Hx as [-> _]. }
  exists c'. split.
  - rewrite (imap_zseq (fun i => h (207 * k + i - 52 * ((207 * k + i) mod 52 * 4))) _ 207); [done|].
    by rewrite length_map, length_zseq.
  - rewrite length_map, length_zseq in Hc'. unfold interleaver_before.
    by replace (207 * (k + 1)) with (207 * k + Z.of_nat 207) by lia.
Qed.

Definition gather (g : Z -> Z) (t : Z) : Z := g (t - 52 * ((51 - t mod 52) * 4)).

Record deinterleaver_before (k : Z) (g : Z -> Z) (d : atsci_data_deinterleaver) : Prop := {
  before_conv : interleaver_at (d_conv d) 52 (fun j => (51 - j) * 4) (207 * k) g;
  before_fifo : fifo_at (alignment_fifo d) 156 1 (207 * k) (gather g)
}.

Lemma align_at c f t g l :
  interleaver_at c 52 (fun j => (51 - j) * 4) t g -> fifo_at f 156 1 t (gather g) ->
  (forall i x, l !! i = Some x -> x = g (t + Z.of_nat i)) ->
  exists c' f', align c f l = (imap (fun i _ => gather g (t + Z.of_nat i - 156)) l, c', f') /\
    interleaver_at c' 52 (fun j => (51 - j) * 4) (t + Z.of_nat (length l)) g /\
    fifo_at f' 156 1 (t + Z.of_nat (length l)) (gather g).
Proof.
  revert c f t. induction l as [|x l IH]; intros c f t Hc Hf Hl; cbn [align].
  { exists c, f. cbn. rewrite Z.add_0_r. done. }
  rewrite (Hl 0%nat x eq_refl), Z.add_0_r.
  destruct (transform_at c 52 (fun j => (51 - j) * 4) t g ltac:(lia) ltac:(lia) Hc) as (c1 & -> & Hc1).
  change (g (t - 52 * ((51 - t mod 52) * 4))) with (gather g t).
  destruct (stuff_at f 156 1 t (gather g) ltac:(lia) Hf) as (f1 & -> & Hf1).
  destruct (IH c1 f1 (t + 1) Hc1 Hf1) as (c' & f' & -> & Hc' & Hf').
  { intros i y Hy. rewrite (Hl (S i) y Hy). f_equal. lia. }
  exists c', f'. rewrite imap_cons. split.
  - f_equal. f_equal. f_equal; [f_equal; lia|]. apply imap_ext. intros i y _. cbn. f_equal. lia.
  - cbn [length]. by replace (t + Z.of_nat (S (length l))) with (t + 1 + Z.of_nat (length l)) by lia.
Qed.

(** At stream position [p], after a possible synchronization. *)
Lemma deinterleave_segment p k g d :
  interleaver_at (if p mod 312 =? 0 then sync (d_conv d) else d_conv d) 52 (fun j => (51 - j) * 4) (207 * k) g ->
  fifo_at (alignment_fifo d) 156 1 (207 * k) (gather g) ->
  exists d', deinterleave d (segment_of g p k) =
    Some (d', {| pli := pli_at (p - 52); data := map (fun i => gather g (207 * k + i - 156)) (zseq 0 207) |}) /\
    deinterleaver_before (k + 1) g d'.
Proof.
  intros Hc Hf. unfold deinterleave, segment_of. cbn [pli data].
  rewrite pli_regular, pli_sane, pli_first, delay_at by lia. cbn [assert]. rewrite !some_bind.
  destruct (align_at _ (alignment_fifo d) (207 * k) g (map (fun i => g (207 * k + i)) (zseq 0 207)) Hc Hf)
    as (c' & f' & -> & Hc' & Hf').
  { intros i x Hx. by apply zseq_lookup in Hx as [-> _]. }
  eexists. split.
  - rewrite (imap_zseq (fun i => gather g (207 * k + i - 156)) _ 207); [done|].
    by rewrite length_map, length_zseq.
  - rewrite length_map, length_zseq in Hc', Hf'.
    split; cbn [d_conv alignment_fifo]; by replace (207 * (k + 1)) with (207 * k + Z.of_nat 207) by lia.
Qed.

Lemma deinterleave_spec k g d :
  deinterleaver_before k g d ->
  exists d', deinterleave d (segment_of g k k) =
    Some (d', {| pli := pli_at (k - 52); data := map (fun i => gather g (207 * k + i - 156)) (zseq 0 207) |}) /\
    deinterleaver_before (k + 1) g d'.
Proof.
  intros [Hc Hf]. apply deinterleave_segment; [|done].
  destruct (Z.eqb_spec (k mod 312) 0); [|done]. by rewrite (sync_aligned _ (fun j => (51 - j) * 4) k g).
Qed.

(** Both together: a delay of 52 segments. *)
Lemma gather_spread h t : gather (spread h) (t - 156) = h (t - 52 * 207).
Proof.
  unfold gather, spread. pose proof (delays_add 52 4 (t - 156) h ltac:(lia)) as E. cbv zeta in E.
  replace (52 - 1 - (t - 156) mod 52) with (51 - (t - 156) mod 52) in E by lia.
  rewrite E. f_equal. lia.
Qed.

(** The data deinterleaver gives back the segments the data interleaver was
    given, 52 segments later, with the pipeline information of the segment each
    came from; no assertion fails. *)
Theorem deinterleaver_inverts_interleaver h n :
  (forall t, t < 0 -> h t = 0) ->
  exists ci cd ci' cd' segs out,
    atsci_data_interleaver = Some ci /\ make_data_deinterleaver = Some cd /\
    interleaver_work ci (map (fun k => segment_of h k k) (zseq 0 n)) = Some (ci', segs) /\
    deinterleaver_work cd segs = Some (cd', out) /\
    out = map (fun k => segment_of h (k - 52) (k - 52)) (zseq 0 n).
Proof.
  intros Hh. assert (forall t, t < 0 -> spread h t = 0) as Hg.
  { intros t Ht. apply Hh. pose proof (Z.mod_pos_bound t 52 ltac:(lia)). lia. }
  destruct (make_interleaver_at true 52 4 h) as (ci & E1 & _ & _ & Hci); [lia|lia|done|].
  destruct (make_interleaver_at false 52 4 (spread h)) as (c & E2 & _ & _ & Hc); [lia|lia|done|].
  set (cd := {| d_conv := c; alignment_fifo := new_fifo 156 |}).
  assert (deinterleaver_before 0 (spread h) cd) as Hcd.
  { split; [done|]. destruct (new_fifo_ok (A := Z) 156 ltac:(lia)) as [Hok Hq]. split; [done|]. cbn [alignment_fifo cd].
    rewrite Hq. apply replicate_as_elem_of. split; [by rewrite length_map, length_zseq|]. intros y Hy.
    apply list_elem_of_lookup in Hy as [i Hi]. apply zseq_lookup in Hi as [-> Hi]. apply Hg.
    pose proof (Z.mod_pos_bound (207 * 0 - 1 * (156 - Z.of_nat i)) 52 ltac:(lia)). lia. }
  destruct (each_item_spec interleave (fun k c => interleaver_before k h c) (fun k _ => segment_of (spread h) k k)
    (fun k seg => seg = segment_of h k k) ci (map (fun k => segment_of h k k) (zseq 0 n)) 0) as (ci' & E3 & _).
  { intros k s seg Hs ->. by apply interleave_spec. }
  { exact Hci. }
  { intros i seg Hi. by apply zseq_lookup in Hi as [-> _]. }
  assert (forall {B} (f : Z -> B), length (map f (zseq 0 n)) = n) as Hn by (intros; by rewrite length_map, length_zseq).
  match type of E3 with _ = Some (_, ?l) =>
    assert (l = map (fun k => segment_of (spread h) k k) (zseq 0 n)) as X
      by exact (imap_zseq (fun k => segment_of (spread h) k k) _ n (Hn _ (fun k => segment_of h k k)));
    rewrite X in E3; clear X
  end.
  destruct (each_item_spec deinterleave (fun k d => deinterleaver_before k (spread h) d)
    (fun k _ => segment_of h (k - 52) (k - 52)) (fun k seg => seg = segment_of (spread h) k k) cd
    (map (fun k => segment_of (spread h) k k) (zseq 0 n)) 0) as (cd' & E4 & _).
  { intros k s seg Hs ->. destruct (deinterleave_spec k _ s Hs) as (s' & E & Hs'). exists s'.
    split; [|done]. rewrite E. do 2 f_equal. unfold segment_of. f_equal. apply map_ext. intros i.
    rewrite gather_spread. f_equal. lia. }
  { exact Hcd. }
  { intros i seg Hi. by apply zseq_lookup in Hi as [-> _]. }
  exists ci, cd, ci', cd'. eexists _, _. split; [exact E1|]. split; [unfold make_data_deinterleaver; by rewrite E2|].
  split; [exact E3|]. split; [exact E4|]. exact (imap_zseq (fun k => segment_of h (k - 52) (k - 52)) _ n (Hn _ (fun k => segment_of (spread h) k k))).
Qed.

Lemma deinterleaver_inverts_interleaver_witness :
  exists ci cd ci' cd' segs out,
    interleaver_work ci (map (fun k => segment_of (Z.max 0) k k) (zseq 0 54)) = Some (ci', segs) /\
    deinterleaver_work cd segs = Some (cd', out) /\ data <$> (out !! 53%nat) = Some (map (Z.add 207) (zseq 0 207)).
Proof.
  destruct (deinterleaver_inverts_interleaver (Z.max 0) 54) as (ci & cd & ci' & cd' & segs & out & _ & _ & E1 & E2 & E3).
  - intros t Ht. apply Z.max_l. lia.
  - exists ci, cd, ci', cd', segs, out. split; [exact E1|]. split; [exact E2|]. rewrite E3. vm_compute. reflexivity.
Defined.
