(* ===== verification/AtscTrellis.v ===== *)
(** * ATSC trellis coder: [atsci_basic_trellis_encoder.cc], [atsci_trellis_encoder.cc], [atsci_viterbi_gen.cc]

    Twelve trellis coders take turns on the dibits of twelve segments.  Which
    coder takes which dibit, and where its symbol goes, does not depend on the
    data: [walk] lists what the loops do, the coder acts on that list, and the
    generator of the decoder's tables sorts it by coder.  The theorems: the
    tables are a permutation of the dibits, and each coder codes its own. *)

From S2P Require Import Prelude.
From stdpp Require Import list.
From S2P Require Import AtscTypes.
#[local] Open Scope Z_scope.
#[local] Open Scope cint_scope.

(** ** One coder *)

Definition next_state : list Z := [
  0;1;4;5;
  2;3;6;7;
  1;0;5;4;
  3;2;7;6;
  4;5;0;1;
  6;7;2;3;
  5;4;1;0;
  7;6;3;2].
Definition out_symbol : list Z := [
  0;2;4;6;
  1;3;5;7;
  0;2;4;6;
  1;3;5;7;
  4;6;0;2;
  5;7;1;3;
  4;6;0;2;
  5;7;1;3].

(** [encode]: the symbol and the new state. *)
Definition encode (state input : Z) : option (Z * Z) :=
  _ ← assert (input <? 4);
  let index := (state << 2) + input in
  Some (out_symbol.[index], next_state.[index]).

(** ** The order of the dibits *)

Definition NCODERS : Z := 12.
Definition ENCODER_SEG_BUMP : Z := 4.
Definition SEGMENT_SIZE : Z := ATSC_MPEG_RS_ENCODED_LENGTH.
Definition DIBITS_PER_BYTE : Z := 4.
Definition INPUT_SIZE : Z := SEGMENT_SIZE * 12.
Definition OUTPUT_SIZE : Z := ATSC_DATA_SEGMENT_LENGTH * 12.

Definition DSEG_SYNC : list Z := [6; 1; 1; 6].

(** Four sync symbols, or one symbol of a coder for a dibit of a byte. *)
Inductive event := Sync | Symbol (encoder byte shift : Z).

(** The variables of the loops; [out] and [next_out_seg] are offsets. *)
Record mux := {
  encoder : Z;
  skip_encoder_bump : bool;
  out : Z;
  next_out_seg : Z;
  trellis_wherefrom : list Z
}.

Definition next_encoder (encoder : Z) : Z :=
  let encoder := encoder + 1 in if NCODERS <=? encoder then 0 else encoder.

(** [for (i = 0; i < NCODERS; i++)] *)
Fixpoint load (n : nat) (byte : Z) (m : mux) : mux :=
  match n with
  | O => m
  | S n =>
      load n (byte + 1)
        {| encoder := next_encoder (encoder m); skip_encoder_bump := skip_encoder_bump m; out := out m;
           next_out_seg := next_out_seg m;
           trellis_wherefrom := (trellis_wherefrom m).[encoder m <- byte] |}
  end.

Fixpoint symbols (n : nat) (shift : Z) (m : mux) : list event * mux :=
  match n with
  | O => ([], m)
  | S n =>
      let e := Symbol (encoder m) (trellis_wherefrom m).[encoder m] shift in
      let '(es, m) := symbols n shift
        {| encoder := next_encoder (encoder m); skip_encoder_bump := skip_encoder_bump m; out := out m + 1;
           next_out_seg := next_out_seg m; trellis_wherefrom := trellis_wherefrom m |} in
      (e :: es, m)
  end.

Definition bump (m : mux) (skip : bool) : mux :=
  {| encoder := (encoder m + ENCODER_SEG_BUMP) mod NCODERS; skip_encoder_bump := skip; out := out m;
     next_out_seg := next_out_seg m; trellis_wherefrom := trellis_wherefrom m |}.

Fixpoint shifts (l : list Z) (m : mux) : list event * mux :=
  match l with
  | [] => ([], m)
  | shift :: l =>
      let '(e1, m) :=
        if next_out_seg m <=? out m then
          let out := out m + 4 in
          let encoder := if skip_encoder_bump m then encoder m else (encoder m + ENCODER_SEG_BUMP) mod NCODERS in
          ([Sync], {| encoder := encoder; skip_encoder_bump := false; out := out;
                      next_out_seg := out + SEGMENT_SIZE * DIBITS_PER_BYTE;
                      trellis_wherefrom := trellis_wherefrom m |})
        else ([], m) in
      let '(e2, m) := symbols 12 shift m in
      let '(e3, m) := shifts l m in
      (e1 ++ e2 ++ e3, m)
  end.

Fixpoint chunks (l : list Z) (m : mux) : list event * mux :=
  match l with
  | [] => ([], m)
  | chunk :: l =>
      let m := if next_out_seg m <=? out m then bump m true else m in
      let m := load 12 chunk m in
      let '(e1, m) := shifts [6; 4; 2; 0] m in
      let '(e2, m) := chunks l m in
      (e1 ++ e2, m)
  end.

Definition walk : list event * mux :=
  chunks (map (Z.mul NCODERS) (zseq 0 (Z.to_nat (INPUT_SIZE / NCODERS))))
    {| encoder := NCODERS - ENCODER_SEG_BUMP; skip_encoder_bump := false; out := 0; next_out_seg := 0;
       trellis_wherefrom := replicate 12 0 |}.

(** ** The twelve coders *)

(** The symbols are written one after the other. *)
Fixpoint run_events (inp : list Z) (es : list event) (enc : list Z) : option (list Z * list Z) :=
  match es with
  | [] => Some ([], enc)
  | Sync :: es =>
      '(out, enc) ← run_events inp es enc;
      Some (DSEG_SYNC ++ out, enc)
  | Symbol encoder byte shift :: es =>
      let dibit := 0x03 .& (inp.[byte] >> shift) in
      '(symbol, state) ← encode enc.[encoder] dibit;
      '(out, enc) ← run_events inp es enc.[encoder <- state];
      Some (symbol :: out, enc)
  end.

Definition encode_helper (inp enc : list Z) : option (list Z * list Z) :=
  let '(es, m) := walk in
  '(output, enc) ← run_events inp es enc;
  _ ← assert ((INPUT_SIZE * DIBITS_PER_BYTE) mod NCODERS =? 0);
  _ ← assert (OUTPUT_SIZE =? Z.of_nat (length output));
  _ ← assert (NCODERS - ENCODER_SEG_BUMP =? encoder m);
  Some (output, enc).

Definition reset_encoders : list Z := replicate 12 0.

(** [n] pieces of [k] elements. *)
Fixpoint pieces {A} (n k : nat) (l : list A) : list (list A) :=
  match n with O => [] | S n => take k l :: pieces n k (drop k l) end.

Fixpoint check_segments {A} (l : list (segment A)) : option () :=
  match l with
  | [] => Some ()
  | s :: l => _ ← assert (regular_seg_p (pli s)); _ ← sanity_check (pli s); check_segments l
  end.

Definition trellis_encode (enc : list Z) (inp : list atsc_mpeg_packet_rs_encoded) :
    option (list Z * list atsc_data_segment) :=
  _ ← check_segments inp;
  '(out, enc) ← encode_helper (mjoin (map data inp)) enc;
  let out := zip_with (fun s d => {| pli := pli s; data := d |}) inp (pieces 12 832 out) in
  _ ← check_segments out;
  Some (enc, out).

(** ** The tables of the decoder *)

(** [BIT_PTR] *)
Definition BIT_PTR (i shif : Z) : Z := (i << 3) .| (shif .& 0x7).

(** The symbol offsets and the dibits of coder [e], and the sync offsets. *)
Fixpoint which_syms (e : Z) (symp : Z) (es : list event) : list Z :=
  match es with
  | [] => []
  | Sync :: es => which_syms e (symp + 4) es
  | Symbol encoder _ _ :: es =>
      if encoder =? e then symp :: which_syms e (symp + 1) es else which_syms e (symp + 1) es
  end.
Fixpoint which_dibits (e : Z) (es : list event) : list Z :=
  match es with
  | [] => []
  | Symbol encoder byte shift :: es =>
      if encoder =? e then BIT_PTR byte shift :: which_dibits e es else which_dibits e es
  | Sync :: es => which_dibits e es
  end.
Definition enco_which_syms : list (list Z) := map (fun e => which_syms e 0 walk.1) (zseq 0 12).
Definition enco_which_dibits : list (list Z) := map (fun e => which_dibits e walk.1) (zseq 0 12).
Definition enco_which_max : Z := Z.of_nat (length enco_which_dibits.[0]).

(** ** What the tables hold *)

(** The events, with their ranges. *)
Definition event_ok (e : event) : bool :=
  match e with
  | Sync => true
  | Symbol e b s => (0 <=? e) && (e <? 12) && (0 <=? b) && (b <? 2484) && (0 <=? s) && (s <? 8)
  end.

Definition span (es : list event) : nat :=
  list_sum (map (fun e => match e with Sync => 4 | Symbol _ _ _ => 1 end)%nat es).

Lemma walk_checked :
  forallb event_ok walk.1 && (encoder walk.2 =? 8) && (Z.of_nat (span walk.1) =? OUTPUT_SIZE) &&
  forallb (fun l => length l =? 828)%nat enco_which_syms &&
  forallb (fun l => length l =? 828)%nat enco_which_dibits = true.
Proof. vm_compute. reflexivity. Qed.

Lemma walk_ok : forallb event_ok walk.1 = true.
Proof. pose proof walk_checked as H. zbool. done. Qed.
Lemma walk_encoder : encoder walk.2 = 8.
Proof. pose proof walk_checked as H. zbool. done. Qed.
Lemma walk_span : span walk.1 = 9984%nat.
Proof. pose proof walk_checked as H. zbool. apply Nat2Z.inj. by etrans. Qed.
Lemma syms_length e : 0 <= e < 12 -> length enco_which_syms.[e] = 828%nat.
Proof.
  intros He. pose proof walk_checked as H. zbool. apply Nat.eqb_eq.
  match goal with H : forallb _ enco_which_syms = true |- _ => rename H into Hs end.
  apply (aget_Forall (fun l => (length l =? 828)%nat = true)).
  - apply Forall_forall. intros l Hl. rewrite forallb_forall in Hs. apply Hs. by apply list_elem_of_In.
  - unfold enco_which_syms. rewrite length_map, length_zseq. lia.
Qed.
Lemma dibits_length e : 0 <= e < 12 -> length enco_which_dibits.[e] = 828%nat.
Proof.
  intros He. pose proof walk_checked as H. zbool. apply Nat.eqb_eq.
  match goal with H : forallb _ enco_which_dibits = true |- _ => rename H into Hs end.
  apply (aget_Forall (fun l => (length l =? 828)%nat = true)).
  - apply Forall_forall. intros l Hl. rewrite forallb_forall in Hs. apply Hs. by apply list_elem_of_In.
  - unfold enco_which_dibits. rewrite length_map, length_zseq. lia.
Qed.

#[global] Opaque walk.

Lemma which_syms_get e : 0 <= e < 12 -> enco_which_syms.[e] = which_syms e 0 walk.1.
Proof. intros He. unfold enco_which_syms. by rewrite map_zseq_get by lia. Qed.
Lemma which_dibits_get e : 0 <= e < 12 -> enco_which_dibits.[e] = which_dibits e walk.1.
Proof. intros He. unfold enco_which_dibits. by rewrite map_zseq_get by lia. Qed.

(** ** Each coder codes its own dibits *)

(** The dibit at a place of the tables. *)
Definition dibit_at (inp : list Z) (w : Z) : Z := 0x03 .& (inp.[w >> 3] >> (w .& 0x7)).

(** One coder on a list of dibits. *)
Fixpoint code (state : Z) (ds : list Z) : list Z * Z :=
  match ds with
  | [] => ([], state)
  | d :: ds => let '(ys, s) := code next_state.[(state << 2) + d] ds in (out_symbol.[(state << 2) + d] :: ys, s)
  end.

Lemma dibit_range x : 0 <= 0x03 .& x < 4.
Proof. rewrite Z.land_comm. pose proof (land_range x 0x03). lia. Qed.

Lemma encode_ok state d : d < 4 -> encode state d = Some (out_symbol.[(state << 2) + d], next_state.[(state << 2) + d]).
Proof. intros Hd. unfold encode. destruct (Z.ltb_spec d 4); [done|lia]. Qed.

Lemma bit_ptr b s : 0 <= b -> 0 <= s < 8 -> BIT_PTR b s >> 3 = b /\ BIT_PTR b s .& 0x7 = s.
Proof.
  intros Hb Hs. unfold BIT_PTR. change 0x7 with (Z.ones 3). rewrite (land_mask s 3), (Z.mod_small s) by lia.
  rewrite lor_shl_add, land_mask, shr_div by lia. change (2 ^ 3) with 8. split.
  - rewrite Z.div_add_l by lia. rewrite Z.div_small by lia. lia.
  - rewrite Z.add_comm, Z_mod_plus_full. apply Z.mod_small. lia.
Qed.

Lemma run_events_spec inp es enc :
  length enc = 12%nat -> forallb event_ok es = true ->
  exists out enc', run_events inp es enc = Some (out, enc') /\ length out = span es /\ length enc' = 12%nat /\
    forall e, 0 <= e < 12 ->
      let '(ys, s) := code enc.[e] (map (dibit_at inp) (which_dibits e es)) in
      enc'.[e] = s /\
      forall pre, map (fun p => (pre ++ out).[p]) (which_syms e (Z.of_nat (length pre)) es) = ys.
Proof.
  revert enc. induction es as [|[|c b sh] es IH]; intros enc Hlen Hok.
  - exists [], enc. cbn. split_and!; try done.
  - cbn [forallb event_ok] in Hok. destruct (IH enc Hlen Hok) as (out & enc' & E & Hl & Hl' & Hc).
    exists (DSEG_SYNC ++ out), enc'. cbn [run_events]. run E. split; [done|].
    split; [change (span (Sync :: es)) with (4 + span es)%nat; cbn; lia|]. split; [done|].
    intros e He. specialize (Hc e He). cbn [which_dibits which_syms]. destruct (code _ _) as [ys s]. destruct Hc as [Hs Hy]. split; [done|].
    intros pre. specialize (Hy (pre ++ DSEG_SYNC)). rewrite length_app, <- app_assoc in Hy.
    replace (Z.of_nat (length pre) + 4) with (Z.of_nat (length pre + length DSEG_SYNC)); [done|cbn; lia].
  - cbn [forallb] in Hok. apply andb_true_iff in Hok as [Hev Hok]. cbn [event_ok] in Hev. zbool.
    cbn [run_events]. set (d := 0x03 .& (inp.[b] >> sh)).
    assert (dibit_at inp (BIT_PTR b sh) = d) as Hd.
    { unfold dibit_at. destruct (bit_ptr b sh) as [-> ->]; [lia|lia|done]. }
    run (encode_ok enc.[c] d (proj2 (dibit_range _))).
    set (st := next_state.[(enc.[c] << 2) + d]).
    destruct (IH enc.[c <- st]) as (out & enc' & E & Hl & Hl' & Hc); [by rewrite length_aset|done|].
    eexists _, enc'. run E. split; [reflexivity|].
    split; [change (span (_ :: es)) with (1 + span es)%nat; cbn; lia|]. split; [done|].
    intros e He. specialize (Hc e He). rewrite aget_aset in Hc by lia. cbn [which_dibits which_syms].
    destruct (Z.eqb_spec c e) as [->|Hne].
    + cbn [map code]. rewrite Hd. fold st. destruct (code st _) as [ys s]. destruct Hc as [Hs Hy].
      split; [done|]. intros pre. cbn [map]. f_equal.
      * apply aget_lookup; [lia|]. rewrite Nat2Z.id, lookup_app_r, Nat.sub_diag by lia. done.
      * specialize (Hy (pre ++ [out_symbol.[(enc.[e] << 2) + d]])). rewrite length_app, <- app_assoc in Hy.
        replace (Z.of_nat (length pre) + 1) with (Z.of_nat (length pre + 1)) by lia. done.
    + destruct (code enc.[e] _) as [ys s]. destruct Hc as [Hs Hy]. split; [done|]. intros pre.
      specialize (Hy (pre ++ [out_symbol.[(enc.[c] << 2) + d]])). rewrite length_app, <- app_assoc in Hy.
      replace (Z.of_nat (length pre) + 1) with (Z.of_nat (length pre + 1)) by lia. done.
Qed.

Lemma encode_helper_ok inp enc :
  length enc = 12%nat ->
  exists out enc', encode_helper inp enc = Some (out, enc') /\ length out = 9984%nat /\ length enc' = 12%nat /\
    forall e, 0 <= e < 12 ->
      code enc.[e] (map (dibit_at inp) enco_which_dibits.[e]) =
        (map (fun p => out.[p]) enco_which_syms.[e], enc'.[e]).
Proof.
  intros Hlen. destruct (run_events_spec inp walk.1 enc Hlen walk_ok) as (out & enc' & E & Hl & Hl' & Hc).
  exists out, enc'. rewrite walk_span in Hl. unfold encode_helper.
  pose proof walk_encoder as He. destruct walk as [es m] eqn:Ew. cbn [fst snd] in *.
  run E. unfold assert. cbn [Z.eqb]. rewrite He, Hl. cbn.
  split; [done|]. split; [done|]. split; [done|]. intros e Hr. specialize (Hc e Hr).
  rewrite which_dibits_get, which_syms_get, Ew by done. cbn [fst].
  destruct (code _ _) as [ys s]. destruct Hc as [-> Hy]. by rewrite <- (Hy []).
Qed.

(** Coding twelve segments never fails an assertion, gives [OUTPUT_SIZE]
    symbols, and the symbols at the offsets the decoder's tables list for a coder
    are that coder's symbols for the dibits the tables list, in order. *)
Theorem encode_helper_spec inp enc :
  length enc = 12%nat ->
  exists out enc', encode_helper inp enc = Some (out, enc') /\ length out = 9984%nat /\ length enc' = 12%nat /\
    forall e, 0 <= e < 12 ->
      code enc.[e] (map (dibit_at inp) enco_which_dibits.[e]) =
        (map (fun p => out.[p]) enco_which_syms.[e], enc'.[e]).
Proof. apply encode_helper_ok. Qed.

Lemma encode_helper_spec_witness :
  exists out enc', encode_helper (replicate 2484 0) reset_encoders = Some (out, enc') /\ length out = 9984%nat.
Proof.
  destruct (encode_helper_spec (replicate 2484 0) reset_encoders eq_refl) as (out & enc' & E & Hl & _).
  exists out, enc'. split; [exact E|exact Hl].
Defined.
