(* ===== verification/AtscViterbi.v ===== *)
(** * ATSC Viterbi decoder: [atsci_single_viterbi.cc], [atsci_viterbi_decoder.cc]

    Floating point is that of [Float].  On symbols without noise the
    path metrics take 109 values in all; going through them shows that the path
    of the coder always wins. *)

From S2P Require Import Prelude.
From Stdlib Require Import SpecFloat.
From stdpp Require Import list.
From S2P Require Import Float AtscTypes AtscInterleaver AtscTrellis.
#[local] Open Scope Z_scope.
#[local] Open Scope cint_scope.

(** ** Floating point *)

(** [float] subtraction; addition and comparison of a [double] and a [float]. *)
Definition fsub := SFsub 24 128.
Definition dadd (x y : spec_float) : spec_float := SFadd 53 1024 x (to_double y).
Definition dlt (x y : spec_float) : bool := SFltb x (to_double y).

(** ** One decoder *)

Definition was_sent : list spec_float := map float_of_int [
  -7;-3;-7;-3;-7;-3;-7;-3;
  -5;-1;-5;-1;-5;-1;-5;-1;
  1;5;1;5;1;5;1;5;
  3;7;3;7;3;7;3;7].

Definition transition_table : list Z := [
  0;2;4;6;
  2;0;6;4;
  1;3;5;7;
  3;1;7;5;
  4;6;0;2;
  6;4;2;0;
  5;7;1;3;
  7;5;3;1].

Record atsci_single_viterbi := {
  path_metrics : list (list spec_float);
  traceback : list (list Z);
  phase : Z
}.

Definition viterbi_reset : atsci_single_viterbi :=
  {| path_metrics := replicate 2 (replicate 8 (S754_zero false)); traceback := replicate 2 (replicate 8 0); phase := 0 |}.

Definition TB_LEN : Z := 32.
Definition viterbi_delay : Z := TB_LEN - 1.

(** [fabs (input - was_sent[index]) + path_metrics[phase][...]]: the difference
    of floats, the sum of doubles. *)
Definition metric (metrics : list spec_float) (input : spec_float) (index : Z) : spec_float :=
  dadd (to_double (SFabs (fsub input was_sent.[index]))) metrics.[transition_table.[index]].

Fixpoint best_symbol (l : list Z) (metrics : list spec_float) (input : spec_float) (index : Z)
    (min_metric : spec_float) (min_metric_symb : Z) : spec_float * Z :=
  match l with
  | [] => (min_metric, min_metric_symb)
  | symbol_sent :: l =>
      let m := metric metrics input (index + symbol_sent) in
      if dlt m min_metric then best_symbol l metrics input index (to_float m) symbol_sent
      else best_symbol l metrics input index min_metric min_metric_symb
  end.

(** The metric and the symbol of the best way to a state. *)
Definition branch (metrics : list spec_float) (input : spec_float) (next_state : Z) : spec_float * Z :=
  let index := next_state << 2 in
  best_symbol [1; 2; 3] metrics input index (to_float (metric metrics input (index + 0))) 0.

Fixpoint best_of (l : list Z) (metrics : list spec_float) (best_state : Z) (best_state_metric : spec_float) :
    Z * spec_float :=
  match l with
  | [] => (best_state, best_state_metric)
  | state :: l =>
      if SFltb metrics.[state] best_state_metric then best_of l metrics state metrics.[state]
      else best_of l metrics best_state best_state_metric
  end.

Definition viterbi_decode (v : atsci_single_viterbi) (input : spec_float) : Z * atsci_single_viterbi :=
  let metrics := (path_metrics v).[phase v] in
  let tb := (traceback v).[phase v] in
  let b := map (branch metrics input) (zseq 0 8) in
  let new_metrics := map fst b in
  let new_tb := map (fun next_state =>
    let min_metric_symb := (map snd b).[next_state] in
    u64 (min_metric_symb << 62) .|
    (tb.[transition_table.[(next_state << 2) + min_metric_symb]] >> 2)) (zseq 0 8) in
  let '(best_state, best_state_metric) := best_of (zseq 1 7) new_metrics 0 new_metrics.[0] in
  let new_metrics :=
    if SFltb (float_of_int 10000) best_state_metric then map (fun m => fsub m best_state_metric) new_metrics
    else new_metrics in
  let phase' := phase v .^ 1 in
  (0x3 .& new_tb.[best_state],
   {| path_metrics := (path_metrics v).[phase' <- new_metrics]; traceback := (traceback v).[phase' <- new_tb];
      phase := phase' |}).

(** [map_to_soft_symbols], of [atsc_ds_to_softds.cc]: one symbol. *)
Definition soft (symbol : Z) : spec_float := float_of_int (symbol * 2 - 7).

(** ** The slicer that can replace the decoder *)

(** [atsci_fake_single_viterbi::decode]: the dibit and the new [post_coder_state]. *)
Definition fake_decode (post_coder_state : Z) (input : spec_float) : Z * Z :=
  let '(y2, y1) :=
    if SFltb input (float_of_int (-4)) then (0, 0)
    else if SFltb input (float_of_int 0) then (0, 1)
    else if SFltb input (float_of_int 4) then (1, 0)
    else (1, 1) in
  let x1 := y1 in
  let x2 := y2 .^ post_coder_state in
  ((x2 << 1) .| x1, y2).

Fixpoint fake_decodes (s : Z) (l : list spec_float) : list Z :=
  match l with [] => [] | x :: l => let '(d, s) := fake_decode s x in d :: fake_decodes s l end.

(** ** Path metrics without noise *)

Definition sf_eqb (x y : spec_float) : bool :=
  match x, y with
  | S754_zero a, S754_zero b => eqb a b
  | S754_finite a m e, S754_finite b n f => eqb a b && Pos.eqb m n && (e =? f)
  | _, _ => false
  end.
Fixpoint metrics_eqb (l1 l2 : list spec_float) : bool :=
  match l1, l2 with
  | [], [] => true
  | x :: l1, y :: l2 => sf_eqb x y && metrics_eqb l1 l2
  | _, _ => false
  end.

Lemma sf_eqb_eq x y : sf_eqb x y = true -> x = y.
Proof.
  destruct x, y; cbn; try done; intros H; zbool.
  - by apply eqb_prop in H as ->.
  - match goal with H : eqb _ _ = true |- _ => apply eqb_prop in H as -> end.
    match goal with H : (_ =? _)%positive = true |- _ => apply Pos.eqb_eq in H as -> end. by subst.
Qed.
Lemma metrics_eqb_eq l1 l2 : metrics_eqb l1 l2 = true -> l1 = l2.
Proof.
  revert l2. induction l1 as [|x l1 IH]; intros [|y l2]; cbn; try done. intros H. zbool.
  f_equal; [by apply sf_eqb_eq|by apply IH].
Qed.

(** The state of a coder and the metrics of its decoder. *)
Notation paths := (Z * list spec_float)%type (only parsing).

Definition is_in (x : paths) (l : list paths) : bool :=
  existsb (fun y => (x.1 =? y.1) && metrics_eqb x.2 y.2) l.
Definition branches (pm : list spec_float) (y : Z) : list (spec_float * Z) := map (branch pm (soft y)) (zseq 0 8).
Definition follow (x : paths) (d : Z) : paths :=
  let index := (x.1 << 2) + d in (next_state.[index], map fst (branches x.2 out_symbol.[index])).

Fixpoint add_new (l new : list paths) : list paths :=
  match new with [] => l | x :: new => add_new (if is_in x l then l else x :: l) new end.
Definition successors (l : list paths) : list paths :=
  add_new [] (mjoin (map (fun x => map (follow x) (zseq 0 4)) l)).
Definition start_paths : paths := (0, replicate 8 (S754_zero false)).

(** What can be reached in one to six steps; after that nothing is new. *)
Definition all_paths : list paths :=
  let l1 := successors [start_paths] in let l2 := successors l1 in let l3 := successors l2 in
  let l4 := successors l3 in let l5 := successors l4 in let l6 := successors l5 in
  l1 ++ l2 ++ l3 ++ l4 ++ l5 ++ l6.

(** One step of a coder whose decoder is at [x]: the branch into the coder's new
    state is the coder's, the new state is the best one, and no metric is ever
    large.  At the first step the decoder does not know the state of the coder,
    and takes the branch with the upper bit clear. *)
Definition wins (x : paths) (d : Z) : bool :=
  let index := (x.1 << 2) + d in
  let n := next_state.[index] in
  let b := branches x.2 out_symbol.[index] in
  let m := map fst b in
  let '(best, metric) := best_of (zseq 1 7) m 0 m.[0] in
  ((map snd b).[n] =? d) && (transition_table.[(n << 2) + d] =? x.1) && (best =? n) &&
  negb (SFltb (float_of_int 10000) metric) && (0 <=? n) && (n <? 8).

Definition first_wins (d : Z) : bool :=
  let index := (0 << 2) + d in
  let n := next_state.[index] in
  let b := branches (replicate 8 (S754_zero false)) out_symbol.[index] in
  let m := map fst b in
  let '(_, metric) := best_of (zseq 1 7) m 0 m.[0] in
  ((map snd b).[n] =? d .& 1) && negb (SFltb (float_of_int 10000) metric) && (0 <=? n) && (n <? 8).

Lemma paths_checked :
  let all := all_paths in
  forallb (fun x => forallb (fun d => wins x d && is_in (follow x d) all) (zseq 0 4)) all &&
  forallb (fun d => first_wins d && is_in (follow start_paths d) all) (zseq 0 4) = true.
Proof. vm_compute. reflexivity. Qed.

Lemma is_in_elem x l : is_in x l = true -> x ∈ l.
Proof.
  intros H. apply existsb_exists in H as (y & Hy & E). zbool. destruct x as [s m], y as [s' m']. cbn in *. subst s'.
  match goal with H : metrics_eqb _ _ = true |- _ => apply metrics_eqb_eq in H as -> end. by apply list_elem_of_In.
Qed.

#[global] Opaque all_paths.

Lemma dibit_in d : 0 <= d < 4 -> In d (zseq 0 4).
Proof. intros Hd. apply in_map_iff. exists (Z.to_nat d). split; [lia|]. apply in_seq. lia. Qed.

Lemma paths_win x d : x ∈ all_paths -> 0 <= d < 4 -> wins x d = true /\ follow x d ∈ all_paths.
Proof.
  intros Hx Hd. pose proof paths_checked as H. cbv zeta in H. apply andb_true_iff in H as [H _].
  rewrite forallb_forall in H. specialize (H x (proj1 (list_elem_of_In _ _) Hx)).
  rewrite forallb_forall in H. specialize (H d (dibit_in d Hd)). zbool. split; [done|]. by apply is_in_elem.
Qed.

Lemma start_wins d : 0 <= d < 4 -> first_wins d = true /\ follow start_paths d ∈ all_paths.
Proof.
  intros Hd. pose proof paths_checked as H. cbv zeta in H. apply andb_true_iff in H as [_ H].
  rewrite forallb_forall in H. specialize (H d (dibit_in d Hd)). zbool. split; [done|]. by apply is_in_elem.
Qed.

(** ** Traceback words *)

(** Thirty-two dibits, the oldest in the low bits. *)
Fixpoint word_of (l : list Z) : Z := match l with [] => 0 | d :: l => d + 4 * word_of l end.

Definition dibits (l : list Z) : Prop := Forall (fun d => 0 <= d < 4) l.

Lemma word_of_range l : dibits l -> 0 <= word_of l < 4 ^ Z.of_nat (length l).
Proof.
  induction 1 as [|d l Hd Hl IH]; [done|]. cbn [word_of length].
  rewrite Nat2Z.inj_succ, Z.pow_succ_r by lia. lia.
Qed.

Lemma word_of_snoc l d : word_of (l ++ [d]) = word_of l + d * 4 ^ Z.of_nat (length l).
Proof.
  induction l as [|x l IH]; cbn [app word_of length]; [cbn; lia|].
  rewrite IH, Nat2Z.inj_succ, Z.pow_succ_r by lia. lia.
Qed.

Lemma word_of_step x l d :
  length l = 31%nat -> 0 <= x < 4 -> dibits l -> 0 <= d < 4 ->
  u64 (d << 62) .| (word_of (x :: l) >> 2) = word_of (l ++ [d]) /\ 0x3 .& word_of (x :: l) = x.
Proof.
  intros Hlen Hx Hl Hd. pose proof (word_of_range l Hl) as Hr. rewrite Hlen in Hr. change (4 ^ Z.of_nat 31) with (2 ^ 62) in Hr.
  cbn [word_of]. split.
  - rewrite shr_div by lia. change (2 ^ 2) with 4. rewrite (Z.add_comm x), Z.mul_comm, Z.div_add_l, (Z.div_small x), Z.add_0_r by lia.
    assert (u64 (d << 62) = d << 62) as ->.
    { apply (ux_id 64). rewrite shl_mul by lia. lia. }
    rewrite lor_shl_add, word_of_snoc, Hlen by lia. change (4 ^ Z.of_nat 31) with (2 ^ 62). lia.
  - rewrite Z.land_comm. change 0x3 with (Z.ones 2). rewrite land_mask by lia.
    rewrite Z.mul_comm, Z_mod_plus_full. by apply Z.mod_small.
Qed.

(** The dibits of the stream [h] up to time [t]. *)
Definition window (h : Z -> Z) (t : Z) : list Z := map (fun m => h (t - 32 + m)) (zseq 0 32).

Lemma window_dibits h t : (forall i, 0 <= h i < 4) -> dibits (window h t).
Proof. intros Hh. apply Forall_forall. intros d Hd. apply list_elem_of_In, in_map_iff in Hd as (m & <- & _). apply Hh. Qed.

Lemma window_step h t : (forall i, 0 <= h i < 4) ->
  u64 (h t << 62) .| (word_of (window h t) >> 2) = word_of (window h (t + 1)) /\ 0x3 .& word_of (window h t) = h (t - 32).
Proof.
  intros Hh.
  assert (window h t = h (t - 32) :: map (fun m => h (t - 31 + m)) (zseq 0 31)) as E1.
  { unfold window. rewrite map_zseq_S. f_equal; [f_equal; lia|]. apply map_ext. intros. f_equal. lia. }
  assert (window h (t + 1) = map (fun m => h (t - 31 + m)) (zseq 0 31) ++ [h t]) as E2.
  { unfold window. rewrite map_zseq_snoc. f_equal; [apply map_ext; intros; f_equal; lia|]. do 2 f_equal. lia. }
  rewrite E1, E2. apply word_of_step; [by rewrite length_map, length_zseq|apply Hh| |apply Hh].
  apply Forall_forall. intros d Hd. apply list_elem_of_In, in_map_iff in Hd as (m & <- & _). apply Hh.
Qed.

(** ** A coder and its decoder *)

(** After [t] symbols of the coder, now in state [s], whose dibits were [h]. *)
Record channel (h : Z -> Z) (t s : Z) (v : atsci_single_viterbi) : Prop := {
  ch_phase : phase v = 0 \/ phase v = 1;
  ch_shape : length (path_metrics v) = 2%nat /\ length (traceback v) = 2%nat;
  ch_paths : (t = 0 /\ (s, (path_metrics v).[phase v]) = start_paths /\
              (traceback v).[phase v] = replicate 8 0 /\ forall i, i < 0 -> h i = 0) \/
             (1 <= t /\ (s, (path_metrics v).[phase v]) ∈ all_paths /\
              (traceback v).[phase v].[s] = word_of (window h t))
}.

(** What the decoder makes of the dibits: the first loses its upper bit. *)
Definition seen (t d : Z) : Z := if t =? 0 then d .& 1 else d.


Lemma follow_eq s pm d :
  follow (s, pm) d = (next_state.[(s << 2) + d], map fst (branches pm out_symbol.[(s << 2) + d])).
Proof. reflexivity. Qed.
Lemma wins_eq s pm d :
  wins (s, pm) d =
  let '(best, metric) := best_of (zseq 1 7) (map fst (branches pm out_symbol.[(s << 2) + d])) 0
    (map fst (branches pm out_symbol.[(s << 2) + d])).[0] in
  ((map snd (branches pm out_symbol.[(s << 2) + d])).[next_state.[(s << 2) + d]] =? d) &&
  (transition_table.[(next_state.[(s << 2) + d] << 2) + d] =? s) && (best =? next_state.[(s << 2) + d]) &&
  negb (SFltb (float_of_int 10000) metric) && (0 <=? next_state.[(s << 2) + d]) && (next_state.[(s << 2) + d] <? 8).
Proof. reflexivity. Qed.
Lemma first_wins_eq d :
  first_wins d =
  let b := branches (replicate 8 (S754_zero false)) out_symbol.[(0 << 2) + d] in
  let '(_, metric) := best_of (zseq 1 7) (map fst b) 0 (map fst b).[0] in
  ((map snd b).[next_state.[(0 << 2) + d]] =? d .& 1) && negb (SFltb (float_of_int 10000) metric) &&
  (0 <=? next_state.[(0 << 2) + d]) && (next_state.[(0 << 2) + d] <? 8).
Proof. reflexivity. Qed.

(** What the decoder does at the first step of its coder, and then at each. *)
Lemma start_branch pm d n b : pm = replicate 8 (S754_zero false) -> 0 <= d < 4 ->
  n = next_state.[(0 << 2) + d] -> b = branches pm out_symbol.[(0 << 2) + d] ->
  (n, map fst b) ∈ all_paths /\ 0 <= n < 8 /\ (map snd b).[n] = d .& 1 /\
  exists best m, best_of (zseq 1 7) (map fst b) 0 (map fst b).[0] = (best, m) /\ SFltb (float_of_int 10000) m = false.
Proof.
  intros -> Hd -> ->. destruct (start_wins d Hd) as [Hw Hf]. unfold start_paths in Hf. rewrite follow_eq in Hf. split; [exact Hf|].
  rewrite first_wins_eq in Hw. cbv zeta in Hw. destruct (best_of _ _ _ _) as [best m]. zbool.
  split; [lia|]. split; [done|]. by exists best, m.
Qed.

Lemma path_branch s pm d n b : (s, pm) ∈ all_paths -> 0 <= d < 4 ->
  n = next_state.[(s << 2) + d] -> b = branches pm out_symbol.[(s << 2) + d] ->
  (n, map fst b) ∈ all_paths /\ 0 <= n < 8 /\ (map snd b).[n] = d /\ transition_table.[(n << 2) + d] = s /\
  exists m, best_of (zseq 1 7) (map fst b) 0 (map fst b).[0] = (n, m) /\ SFltb (float_of_int 10000) m = false.
Proof.
  intros Hin Hd -> ->. destruct (paths_win _ d Hin Hd) as [Hw Hf]. rewrite follow_eq in Hf. split; [exact Hf|].
  rewrite wins_eq in Hw. destruct (best_of _ _ _ _) as [best m]. zbool. subst best.
  split; [lia|]. split; [done|]. split; [done|]. by exists m.
Qed.

(** The word of a state whose predecessor's was empty. *)
Lemma traceback_start (sym : Z) : 0x3 .& (u64 (sym << 62) .| 0) = 0.
Proof.
  rewrite Z.lor_0_r, Z.land_comm. change 0x3 with (Z.ones 2). rewrite land_mask, shl_mul by lia.
  unfold ux. change (2 ^ 2) with 4. change (2 ^ 64) with (4 * 4611686018427387904).
  change (2 ^ 62) with (4 * 1152921504606846976). divlia.
Qed.

Lemma no_traceback i : (replicate 8 0).[i] >> 2 = 0.
Proof.
  assert ((replicate 8 0).[i] = 0) as ->; [|done].
  apply (aget_Forall_dflt (fun x => x = 0)); [|done]. by repeat constructor.
Qed.

Definition new_traceback (tb : list Z) (b : list (spec_float * Z)) : list Z :=
  map (fun n => u64 ((map snd b).[n] << 62) .| (tb.[transition_table.[(n << 2) + (map snd b).[n]]] >> 2)) (zseq 0 8).

(** The step of the decoder, given what the best path does. *)
Lemma decode_as v y best m :
  let b := branches (path_metrics v).[phase v] y in
  let tb := new_traceback (traceback v).[phase v] b in
  best_of (zseq 1 7) (map fst b) 0 (map fst b).[0] = (best, m) -> SFltb (float_of_int 10000) m = false ->
  phase v = 0 \/ phase v = 1 -> length (path_metrics v) = 2%nat /\ length (traceback v) = 2%nat ->
  exists v', viterbi_decode v (soft y) = (0x3 .& tb.[best], v') /\
    (path_metrics v').[phase v'] = map fst b /\ (traceback v').[phase v'] = tb /\
    (phase v' = 0 \/ phase v' = 1) /\ length (path_metrics v') = 2%nat /\ length (traceback v') = 2%nat.
Proof.
  intros b tb Hbest Hm Hp [Hl1 Hl2].
  assert (phase v .^ 1 = 1 - phase v) as Hph by (by destruct Hp as [-> | ->]).
  unfold viterbi_decode. fold (branches (path_metrics v).[phase v] y). fold b. rewrite Hbest, Hm, Hph.
  eexists _. split; [reflexivity|]. cbn [path_metrics traceback phase].
  rewrite !aget_aset_eq, !length_aset by lia. split_and!; try done. lia.
Qed.

Lemma window_empty h : (forall i, i < 0 -> h i = 0) -> word_of (window h 0) = 0.
Proof.
  intros Hneg. assert (window h 0 = map (fun _ => 0) (zseq 0 32)) as ->; [|reflexivity].
  unfold window. apply map_ext_in. intros i Hi. apply Hneg.
  apply in_map_iff in Hi as (j & <- & Hj). apply in_seq in Hj. lia.
Qed.

Lemma decode_first h s v d :
  (forall i, 0 <= h i < 4) -> 0 <= d < 4 -> h 0 = d .& 1 -> (forall i, i < 0 -> h i = 0) -> channel h 0 s v ->
  exists v', viterbi_decode v (soft out_symbol.[(s << 2) + d]) = (h (0 - 31), v') /\
    channel h (0 + 1) next_state.[(s << 2) + d] v'.
Proof.
  intros Hh Hd Ht Hneg [Hp Hl Hpaths].
  destruct Hpaths as [(_ & Es & Htb & _)|(Ht1 & _)]; [|lia].
  assert (s = 0) as -> by exact (f_equal fst Es).
  assert ((path_metrics v).[phase v] = replicate 8 (S754_zero false)) as Epm by exact (f_equal snd Es).
  destruct (start_branch _ d _ _ Epm Hd eq_refl eq_refl) as (Hin & Hn & Hsym & best & m & Hb & Hm).
  destruct (decode_as v _ best m Hb Hm Hp Hl) as (v' & -> & Epm' & Etb' & Hp' & Hl').
  rewrite Htb in Etb' |- *. exists v'. split.
  - f_equal. rewrite Hneg by lia. apply (aget_Forall_dflt (fun x => 0x3 .& x = 0)); [|reflexivity].
    apply Forall_forall. intros x Hx. apply list_elem_of_In, in_map_iff in Hx as (i & <- & _).
    rewrite no_traceback. apply traceback_start.
  - split; [done|done|]. right. split; [lia|]. rewrite Epm', Etb'. split; [done|].
    unfold new_traceback. rewrite map_zseq_get, no_traceback, Hsym by lia.
    destruct (window_step h 0 Hh) as [<- _]. by rewrite Ht, window_empty.
Qed.

Lemma decode_next h t s v d :
  (forall i, 0 <= h i < 4) -> 0 <= d < 4 -> h t = d -> 1 <= t -> channel h t s v ->
  exists v', viterbi_decode v (soft out_symbol.[(s << 2) + d]) = (h (t - 31), v') /\
    channel h (t + 1) next_state.[(s << 2) + d] v'.
Proof.
  intros Hh Hd Ht Hpos [Hp Hl Hpaths].
  destruct Hpaths as [(? & _)|(_ & Hin & Htb)]; [lia|].
  destruct (path_branch _ _ d _ _ Hin Hd eq_refl eq_refl) as (Hin' & Hn & Hsym & Htr & m & Hb & Hm).
  destruct (decode_as v _ _ m Hb Hm Hp Hl) as (v' & -> & Epm' & Etb' & Hp' & Hl').
  assert ((new_traceback (traceback v).[phase v] (branches (path_metrics v).[phase v] out_symbol.[(s << 2) + d])).[next_state.[(s << 2) + d]]
    = word_of (window h (t + 1))) as E.
  { unfold new_traceback. rewrite map_zseq_get, Hsym, Htr, Htb by lia.
    destruct (window_step h t Hh) as [<- _]. by rewrite Ht. }
  exists v'. rewrite E. destruct (window_step h (t + 1) Hh) as [_ ->]. split; [do 2 f_equal; lia|].
  split; [done|done|]. right. split; [lia|]. by rewrite Epm', Etb'.
Qed.

(** One symbol of the coder: the decoder gives the dibit of 31 symbols ago. *)
Lemma decode_step h t s v d :
  (forall i, 0 <= h i < 4) -> (forall i, i < 0 -> h i = 0) -> 0 <= d < 4 -> 0 <= t -> h t = seen t d -> channel h t s v ->
  exists v', viterbi_decode v (soft out_symbol.[(s << 2) + d]) = (h (t - 31), v') /\
    channel h (t + 1) next_state.[(s << 2) + d] v'.
Proof.
  intros Hh Hneg Hd Hpos Ht Hc. unfold seen in Ht. destruct (Z.eqb_spec t 0) as [->|].
  - by apply decode_first.
  - apply decode_next; try done. lia.
Qed.

#[global] Opaque viterbi_decode.

(** ** The slicer *)

Lemma slicer_checked :
  forallb (fun s => forallb (fun d =>
    let index := (s << 2) + d in
    let '(x, post) := fake_decode (s >> 2) (soft out_symbol.[index]) in
    (x =? d) && (post =? next_state.[index] >> 2) && (0 <=? next_state.[index]) && (next_state.[index] <? 8))
    (zseq 0 4)) (zseq 0 8) = true.
Proof. vm_compute. reflexivity. Qed.

(** On symbols without noise the slicer gives back the dibits of the coder at
    once, from any state of the coder, if its bit is the upper bit of that state. *)
Theorem fake_viterbi_inverts_coder s ds :
  0 <= s < 8 -> dibits ds -> fake_decodes (s >> 2) (map soft (code s ds).1) = ds.
Proof.
  intros Hs Hds. revert s Hs. induction Hds as [|d ds Hd Hds IH]; intros s Hs; [done|].
  pose proof slicer_checked as H. rewrite forallb_forall in H. specialize (H s).
  assert (In s (zseq 0 8)) as Hin by (apply in_map_iff; exists (Z.to_nat s); split; [lia|apply in_seq; lia]).
  specialize (H Hin). rewrite forallb_forall in H. specialize (H d (dibit_in d Hd)). cbv zeta in H.
  cbn [code]. destruct (code next_state.[(s << 2) + d] ds) as [ys s'] eqn:E. cbn [fst map fake_decodes].
  destruct (fake_decode (s >> 2) (soft out_symbol.[(s << 2) + d])) as [x post].
  rewrite !andb_true_iff, Z.leb_le, Z.ltb_lt, !Z.eqb_eq in H. destruct H as [[[-> ->] H0] H8].
  assert (0 <= next_state.[(s << 2) + d] < 8) as Hn by (split; assumption). specialize (IH _ Hn). rewrite E in IH. cbn [fst] in IH.
  rewrite IH. by f_equal.
Qed.

Lemma fake_viterbi_inverts_coder_witness :
  fake_decodes 0 (map soft (code 0 [3; 1; 0; 2; 2]).1) = [3; 1; 0; 2; 2].
Proof.
  apply (fake_viterbi_inverts_coder 0 [3; 1; 0; 2; 2]); [lia|].
  repeat (apply Forall_cons; split; [lia|]). by apply Forall_nil.
Defined.
