(* ===== verification/AtscDecoder.v ===== *)
(** * ATSC decoder of twelve segments: [atsci_viterbi_decoder.cc], [atsc_viterbi_decoder.cc]

    Twelve Viterbi decoders undo the twelve trellis coders of [AtscTrellis], and
    fifos make their delay a whole number of segments.  The theorem: a stream of
    segments coded by the trellis coder comes back twelve segments later, but for
    twelve bits the decoders cannot know. *)

From S2P Require Import Prelude.
From Stdlib Require Import SpecFloat.
From stdpp Require Import list gmap.
From S2P Require Import Float AtscTypes AtscInterleaver AtscTrellis AtscViterbi.
#[local] Open Scope Z_scope.
#[local] Open Scope cint_scope.

(** ** The decoder of twelve segments *)

Definition DSEG_FIFO : Z := ATSC_DATA_SEGMENT_LENGTH - 4 - viterbi_delay.

Record atsci_viterbi_decoder := {
  viterbi : list atsci_single_viterbi;
  fifo : list (interleaver_fifo Z)
}.
#[export] Instance Default_single : Default atsci_single_viterbi := viterbi_reset.
#[export] Instance Default_dibit_fifo : Default (interleaver_fifo Z) := new_fifo 0.

Definition new_viterbi_decoder : atsci_viterbi_decoder :=
  {| viterbi := replicate 12 viterbi_reset; fifo := replicate 12 (new_fifo DSEG_FIFO) |}.

Definition reset_viterbi_decoder (d : atsci_viterbi_decoder) : atsci_viterbi_decoder :=
  {| viterbi := replicate 12 viterbi_reset; fifo := map reset_fifo (fifo d) |}.

(** Storing a dibit into the output. *)
Definition store_dibit (out : list Z) (dbwhere dibit : Z) : list Z :=
  let dbindex := dbwhere >> 3 in
  let shift := dbwhere .& 0x7 in
  out.[dbindex <- u8 ((out.[dbindex] .& Z.lnot (0x03 << shift)) .| (dibit << shift))].

(** The symbols of one coder, with the places of the dibits. *)
Fixpoint decode_encoder (symbols_in : list spec_float) (l : list (Z * Z)) (v : atsci_single_viterbi)
    (f : interleaver_fifo Z) (out : list Z) : atsci_single_viterbi * interleaver_fifo Z * list Z :=
  match l with
  | [] => (v, f, out)
  | (sym, dbwhere) :: l =>
      let symbol := symbols_in.[sym] in
      let '(c, v) := viterbi_decode v symbol in
      let '(dibit, f) := stuff f (u8 c) in
      decode_encoder symbols_in l v f (store_dibit out dbwhere dibit)
  end.

Fixpoint decode_encoders (symbols_in : list spec_float) (l : list Z) (d : atsci_viterbi_decoder) (out : list Z) :
    list Z * atsci_viterbi_decoder :=
  match l with
  | [] => (out, d)
  | e :: l =>
      let '(v, f, out) := decode_encoder symbols_in (zip enco_which_syms.[e] enco_which_dibits.[e])
                            (viterbi d).[e] (fifo d).[e] out in
      decode_encoders symbols_in l {| viterbi := (viterbi d).[e <- v]; fifo := (fifo d).[e <- f] |} out
  end.

(** The sync symbols are looked at only for messages, and those are compiled out. *)
Definition decode_helper (symbols_in : list spec_float) (d : atsci_viterbi_decoder) :
    list Z * atsci_viterbi_decoder :=
  decode_encoders symbols_in (zseq 0 12) d (replicate (Z.to_nat INPUT_SIZE) 0).

Definition atsc_soft_data_segment := segment spec_float.

Fixpoint delay_segments {A} (inp : list (segment A)) (data : list (list Z)) : option (list atsc_mpeg_packet_rs_encoded) :=
  match inp, data with
  | s :: inp, d :: data =>
      pli ← delay (pli s) NCODERS;
      r ← delay_segments inp data;
      Some ({| pli := pli; data := d |} :: r)
  | _, _ => Some []
  end.

Fixpoint check_regular {A} (l : list (segment A)) : option () :=
  match l with [] => Some () | s :: l => _ ← assert (regular_seg_p (pli s)); check_regular l end.

Definition decode (d : atsci_viterbi_decoder) (inp : list atsc_soft_data_segment) :
    option (atsci_viterbi_decoder * list atsc_mpeg_packet_rs_encoded) :=
  _ ← check_regular inp;
  let '(out, d) := decode_helper (mjoin (map data inp)) d in
  r ← delay_segments inp (pieces 12 207 out);
  Some (d, r).

(** [map_to_soft_symbols], of [atsc_ds_to_softds.cc]. *)
Definition map_to_soft_symbols (inp : atsc_data_segment) : atsc_soft_data_segment :=
  {| pli := pli inp; data := map soft (data inp) |}.

(** The search of the first segment whose number is a multiple of 12, from
    [start] on, among the 12 first. *)
Fixpoint find_start (n : nat) (start : Z) (inp : list atsc_soft_data_segment) : option Z :=
  match n, inp with
  | S n, s :: inp =>
      _ ← assert (regular_seg_p (pli s));
      if segno (pli s) mod NCODERS =? 0 then Some start else find_start n (start + 1) inp
  | _, _ => Some start
  end.

(** [atsc_viterbi_decoder::work], which decodes twelve segments whatever it is
    asked for; [inp] may go on beyond the items asked for. *)
Definition viterbi_work (d : atsci_viterbi_decoder) (noutput_items : Z) (inp : list atsc_soft_data_segment) :
    option (atsci_viterbi_decoder * list atsc_mpeg_packet_rs_encoded) :=
  _ ← assert (noutput_items mod NCODERS =? 0);
  start ← find_start 12 0 inp;
  let start := if start =? NCODERS then 0 else start in
  decode d (take 12 (drop (Z.to_nat start) inp)).


(** ** The dibits of a packet *)

(** Where the dibits of twelve packets are. *)
Definition place (w : Z) : Prop := exists b s, 0 <= b < 2484 /\ In s [0; 2; 4; 6] /\ w = BIT_PTR b s.
Definition packets_ok (l : list Z) : Prop := length l = 2484%nat /\ Forall byte l.

Definition shift_ok (s : Z) : bool := existsb (Z.eqb s) [0; 2; 4; 6].

Lemma place_parts w : place w -> 0 <= w >> 3 < 2484 /\ shift_ok (w .& 0x7) = true /\ BIT_PTR (w >> 3) (w .& 0x7) = w.
Proof.
  intros (b & s & Hb & Hs & ->). assert (0 <= s < 8) as Hs8 by (cbn in Hs; lia).
  destruct (bit_ptr b s) as [-> ->]; [lia|done|]. split; [done|]. split; [|done].
  apply existsb_exists. exists s. by rewrite Z.eqb_refl.
Qed.

(** A byte after one of its dibits was stored. *)
Definition put_dibit (x shift dibit : Z) : Z := u8 ((x .& Z.lnot (0x03 << shift)) .| (dibit << shift)).

Lemma put_dibit_checked :
  forallb (fun s => forallb (fun d => all_below 256 (fun x => forallb (fun s' =>
    (0x03 .& (put_dibit x s d >> s') =? (if s =? s' then d else 0x03 .& (x >> s')))) [0; 2; 4; 6]))
    [0; 1; 2; 3]) [0; 2; 4; 6] &&
  all_below 256 (fun x => (0x03 .& (x >> 0)) + 4 * (0x03 .& (x >> 2)) + 16 * (0x03 .& (x >> 4)) +
    64 * (0x03 .& (x >> 6)) =? x) = true.
Proof. vm_compute. reflexivity. Qed.

Lemma shift_in s : shift_ok s = true -> In s [0; 2; 4; 6].
Proof. intros H. apply existsb_exists in H as (x & Hx & E). apply Z.eqb_eq in E as ->. done. Qed.

Lemma put_dibit_get s s' d x : shift_ok s = true -> shift_ok s' = true -> 0 <= d < 4 -> byte x ->
  0x03 .& (put_dibit x s d >> s') = if s =? s' then d else 0x03 .& (x >> s').
Proof.
  intros Hs Hs' Hd Hx. pose proof put_dibit_checked as H. apply andb_true_iff in H as [H _].
  rewrite forallb_forall in H. specialize (H s (shift_in s Hs)). rewrite forallb_forall in H.
  specialize (H d ltac:(cbn; lia)). pose proof (all_below_spec _ _ H x Hx) as Hc. cbv beta in Hc.
  rewrite forallb_forall in Hc. specialize (Hc s' (shift_in s' Hs')). by apply Z.eqb_eq in Hc.
Qed.

Lemma byte_dibits x y : byte x -> byte y ->
  (forall s, In s [0; 2; 4; 6] -> 0x03 .& (x >> s) = 0x03 .& (y >> s)) -> x = y.
Proof.
  intros Hx Hy H. pose proof put_dibit_checked as Hc. apply andb_true_iff in Hc as [_ Hc].
  pose proof (all_below_spec _ _ Hc x Hx) as Ex. pose proof (all_below_spec _ _ Hc y Hy) as Ey. cbv beta in Ex, Ey.
  apply Z.eqb_eq in Ex, Ey.
  rewrite (H 0), (H 2), (H 4), (H 6) in Ex by (cbn; tauto). by rewrite <- Ex.
Qed.

Lemma store_dibit_ok out w d : packets_ok out -> packets_ok (store_dibit out w d).
Proof.
  intros [Hl Hb]. split; [unfold store_dibit; by rewrite length_aset|].
  apply Forall_aset; [done|]. apply u8_range.
Qed.

Lemma store_dibit_get out w w' d : packets_ok out -> place w -> place w' -> 0 <= d < 4 ->
  dibit_at (store_dibit out w d) w' = if w =? w' then d else dibit_at out w'.
Proof.
  intros [Hl Hb] Hw Hw' Hd. destruct (place_parts w Hw) as (Hr & Hs & E), (place_parts w' Hw') as (Hr' & Hs' & E').
  unfold dibit_at, store_dibit. fold (put_dibit out.[w >> 3] (w .& 0x7) d). rewrite aget_aset by lia.
  destruct (Z.eqb_spec (w >> 3) (w' >> 3)) as [Eb|Hne].
  - rewrite put_dibit_get; [|done|done|done|rewrite Eb; apply aget_Forall; [done|lia]].
    rewrite Eb. destruct (Z.eqb_spec (w .& 0x7) (w' .& 0x7)) as [Es|Hne], (Z.eqb_spec w w') as [Ew|Hnw]; try done; exfalso.
    + apply Hnw. by rewrite <- E, <- E', Eb, Es.
    + by subst w'.
  - destruct (Z.eqb_spec w w') as [->|]; done.
Qed.

(** Storing many dibits, each always the same at its place. *)
Definition store_dibits (out : list Z) (l : list (Z * Z)) : list Z := fold_left (fun out p => store_dibit out p.1 p.2) l out.

Lemma store_dibits_ok l out : packets_ok out -> packets_ok (store_dibits out l).
Proof. revert out. induction l as [|p l IH]; intros out Ho; [done|]. apply IH. by apply store_dibit_ok. Qed.

Lemma store_dibits_get (g : Z -> Z) l out w : packets_ok out -> place w -> Forall place l -> (forall w, 0 <= g w < 4) ->
  dibit_at (store_dibits out (map (fun w => (w, g w)) l)) w = if bool_decide (w ∈ l) then g w else dibit_at out w.
Proof.
  intros Ho Hw Hl Hg. revert out Ho. induction Hl as [|w' l Hw' Hl IH]; intros out Ho.
  - by rewrite bool_decide_eq_false_2 by apply not_elem_of_nil.
  - cbn [map store_dibits fold_left fst snd]. fold (store_dibits (store_dibit out w' (g w')) (map (fun w => (w, g w)) l)).
    rewrite IH by by apply store_dibit_ok. rewrite store_dibit_get by done.
    destruct (decide (w ∈ l)) as [Hin|Hin].
    + rewrite !bool_decide_eq_true_2; [done|by right|done].
    + rewrite (bool_decide_eq_false_2 (w ∈ l)) by done. destruct (Z.eqb_spec w' w) as [->|Hne].
      * rewrite bool_decide_eq_true_2; [done|by left].
      * rewrite bool_decide_eq_false_2; [done|]. intros [->|]%elem_of_cons; done.
Qed.

(** Packets with the same dibits are the same. *)
Lemma packets_eq l1 l2 : packets_ok l1 -> packets_ok l2 ->
  (forall w, place w -> dibit_at l1 w = dibit_at l2 w) -> l1 = l2.
Proof.
  intros [Hl1 Hb1] [Hl2 Hb2] H. apply list_eq_same_length with (n := 2484%nat); [done|done|].
  intros i x y Hi Hx Hy. apply byte_dibits.
  - apply (Forall_lookup_1 _ _ _ _ Hb1 Hx).
  - apply (Forall_lookup_1 _ _ _ _ Hb2 Hy).
  - intros s Hs. specialize (H (BIT_PTR (Z.of_nat i) s)). unfold dibit_at in H.
    destruct (bit_ptr (Z.of_nat i) s) as [E1 E2]; [lia|cbn in Hs; lia|]. rewrite E1, E2 in H.
    rewrite (aget_lookup l1 _ x), (aget_lookup l2 _ y) in H by (rewrite ?Nat2Z.id; lia || done).
    apply H. exists (Z.of_nat i), s. split; [lia|]. done.
Qed.

(** ** One coder and its decoder *)

Definition decoder_at (h : Z -> Z) (t s : Z) (v : atsci_single_viterbi) (f : interleaver_fifo Z) : Prop :=
  channel h t s v /\ fifo_at f DSEG_FIFO 1 t (fun t => h (t - viterbi_delay)).

(** A history: dibits, and zero before the start. *)
Definition history (h : Z -> Z) : Prop := (forall i, 0 <= h i < 4) /\ forall i, i < 0 -> h i = 0.

Lemma decode_encoder_spec h symbols_in ds t s v f out syms places :
  history h -> 0 <= t -> decoder_at h t s v f ->
  (forall i d, ds !! i = Some d -> 0 <= d < 4 /\ h (t + Z.of_nat i) = seen (t + Z.of_nat i) d) ->
  map (fun p => symbols_in.[p]) syms = map soft (code s ds).1 -> length places = length ds ->
  exists v' f',
    decode_encoder symbols_in (zip syms places) v f out =
      (v', f', store_dibits out (imap (fun i w => (w, h (t + Z.of_nat i - 828))) places)) /\
    decoder_at h (t + Z.of_nat (length ds)) (code s ds).2 v' f'.
Proof.
  intros [Hh Hneg]. revert t s v f out syms places. induction ds as [|d ds IH]; intros t s v f out syms places Ht [Hc Hf] Hd Hsyms Hlen.
  - destruct places; [|done]. cbn in Hsyms. destruct syms; [|done]. exists v, f. cbn [zip zip_with decode_encoder code length snd imap].
    rewrite Z.add_0_r. done.
  - destruct places as [|w places]; [done|]. cbn [code] in Hsyms |- *.
    specialize (IH (t + 1) next_state.[(s << 2) + d]). destruct (code next_state.[(s << 2) + d] ds) as [ys s'] eqn:Ec.
    cbn [fst snd map] in Hsyms, IH |- *. destruct syms as [|p syms]; [done|]. cbn [map] in Hsyms. injection Hsyms as Hp Hsyms.
    destruct (Hd 0%nat d eq_refl) as [Hr Hs]. rewrite Z.add_0_r in Hs.
    cbn [zip zip_with decode_encoder]. rewrite Hp.
    destruct (decode_step h t s v d Hh Hneg Hr Ht Hs Hc) as (v1 & -> & Hc1).
    destruct (stuff_at f DSEG_FIFO 1 t _ ltac:(done) Hf) as (f1 & Ef & Hf1). cbv beta in Ef.
    assert (u8 (h (t - 31)) = h (t - viterbi_delay)) as -> by (change viterbi_delay with 31; apply u8_id; pose proof (Hh (t - 31)); lia).
    rewrite Ef.
    destruct (IH v1 f1 (store_dibit out w (h (t - 828))) syms places) as (v' & f' & E & Hd').
    + lia.
    + by split.
    + intros i x Hx. destruct (Hd (S i) x Hx) as [Hx1 Hx2].
      replace (t + Z.of_nat (S i)) with (t + 1 + Z.of_nat i) in Hx2 by lia. by rewrite Hx2.
    + done.
    + by injection Hlen.
    + exists v', f'. split.
      * replace (t - 1 * DSEG_FIFO - viterbi_delay) with (t - 828) by (change DSEG_FIFO with 797; change viterbi_delay with 31; lia).
        rewrite E, imap_cons, Z.add_0_r. cbn [store_dibits fold_left fst snd]. do 2 f_equal. unfold store_dibits. f_equal.
        apply imap_ext. intros i x _. cbn. do 2 f_equal. lia.
      * replace (t + Z.of_nat (length (d :: ds))) with (t + 1 + Z.of_nat (length ds)) by (cbn; lia). done.
Qed.

(** ** The tables *)

Definition all_places : list Z := mjoin enco_which_dibits.

(** The first dibit of each coder is the upper one of one of the twelve first bytes. *)
Definition first_places : list Z := map (fun b => BIT_PTR b 6) (zseq 0 12).

Lemma symbols_checked : forallb (forallb (fun p => (0 <=? p) && (p <? 9984))) enco_which_syms = true.
Proof. vm_compute. reflexivity. Qed.

Lemma places_checked :
  forallb (forallb (fun w => (0 <=? w >> 3) && (w >> 3 <? 2484) && shift_ok (w .& 0x7) &&
    (BIT_PTR (w >> 3) (w .& 0x7) =? w))) enco_which_dibits = true.
Proof. vm_compute. reflexivity. Qed.

Lemma cover_checked :
  let m : gmap Z () := list_to_map (map (fun w => (w, ())) all_places) in
  all_below 2484 (fun b => forallb (fun s => match m !! BIT_PTR b s with Some _ => true | None => false end)
    [0; 2; 4; 6]) = true.
Proof. vm_compute. reflexivity. Qed.

Lemma firsts_checked :
  map (fun l => l.[0]) enco_which_dibits = first_places /\
  forallb (fun l => forallb (fun w => negb (existsb (Z.eqb w) first_places)) (drop 1 l)) enco_which_dibits = true.
Proof. split; vm_compute; reflexivity. Qed.

Lemma length_places : length enco_which_dibits = 12%nat.
Proof. unfold enco_which_dibits. by rewrite length_map, length_zseq. Qed.
Lemma length_symbols : length enco_which_syms = 12%nat.
Proof. unfold enco_which_syms. by rewrite length_map, length_zseq. Qed.

#[global] Opaque enco_which_dibits enco_which_syms.

Lemma places_elem e : 0 <= e < 12 -> enco_which_dibits.[e] ∈ enco_which_dibits.
Proof. intros He. apply aget_elem. rewrite length_places. lia. Qed.

Lemma syms_in_range e p : 0 <= e < 12 -> p ∈ enco_which_syms.[e] -> 0 <= p < 9984.
Proof.
  intros He Hp. assert (enco_which_syms.[e] ∈ enco_which_syms) as Hin by (apply aget_elem; rewrite length_symbols; lia).
  pose proof (forallb_elem _ _ _ (forallb_elem _ _ _ symbols_checked Hin) Hp) as H. cbv beta in H. zbool. lia.
Qed.

Lemma places_in_range e : 0 <= e < 12 -> Forall place enco_which_dibits.[e].
Proof.
  intros He. apply Forall_forall. intros w Hw.
  pose proof (forallb_elem _ _ _ (forallb_elem _ _ _ places_checked (places_elem e He)) Hw) as H. cbv beta in H. zbool.
  exists (w >> 3), (w .& 0x7). split; [lia|]. split; [by apply shift_in|done].
Qed.

Lemma cover_elem (l : list Z) w :
  (list_to_map (map (fun w => (w, ())) l) : gmap Z ()) !! w = Some () -> w ∈ l.
Proof.
  intros E. apply elem_of_list_to_map_2, list_elem_of_In, in_map_iff in E as (x & Ex & Hx).
  injection Ex as ->. by apply list_elem_of_In.
Qed.

Lemma places_cover w : place w -> w ∈ all_places.
Proof.
  intros (b & s & Hb & Hs & ->). pose proof (all_below_spec _ _ cover_checked b Hb) as Hc. cbv beta in Hc.
  rewrite forallb_forall in Hc. specialize (Hc s Hs).
  destruct (list_to_map _ !! BIT_PTR b s) as [[]|] eqn:E; [|done].
  exact (cover_elem _ _ E).
Qed.

Lemma places_first e : 0 <= e < 12 -> enco_which_dibits.[e].[0] = BIT_PTR e 6.
Proof.
  intros He. pose proof (proj1 firsts_checked) as H. apply (f_equal (fun l => aget l e)) in H.
  rewrite aget_map in H by (rewrite length_places; lia). rewrite H. unfold first_places. by rewrite map_zseq_get by lia.
Qed.

Lemma places_not_first e i : 0 <= e < 12 -> 0 < i < 828 -> ~ In enco_which_dibits.[e].[i] first_places.
Proof.
  intros He Hi Hin. pose proof (forallb_elem _ _ _ (proj2 firsts_checked) (places_elem e He)) as H.
  assert (enco_which_dibits.[e].[i] ∈ drop 1 enco_which_dibits.[e]) as Hd.
  { destruct (lookup_lt_is_Some_2 enco_which_dibits.[e] (Z.to_nat i)) as [w Hw]; [rewrite dibits_length by done; lia|].
    rewrite (aget_lookup _ i w) by (done || lia). apply list_elem_of_lookup. exists (Z.to_nat i - 1)%nat.
    rewrite lookup_drop. by replace (1 + (Z.to_nat i - 1))%nat with (Z.to_nat i) by lia. }
  pose proof (forallb_elem _ _ _ H Hd) as Hn. cbv beta in Hn. apply negb_true_iff in Hn.
  assert (existsb (Z.eqb enco_which_dibits.[e].[i]) first_places = true) as Ht; [|congruence].
  apply existsb_exists. exists enco_which_dibits.[e].[i]. by rewrite Z.eqb_refl.
Qed.

(** ** The stream *)

(** The decoders do not learn the upper bit of each coder's first dibit. *)
Definition lossy (l : list Z) : list Z := map (fun x => x .& 0x7f) (take 12 l) ++ drop 12 l.

(** What the decoders make of the groups of twelve packets [G]. *)
Definition received (G : Z -> list Z) (g : Z) : list Z :=
  if g <? 0 then replicate 2484 0 else if g =? 0 then lossy (G g) else G g.

Definition coder_history (G : Z -> list Z) (e t : Z) : Z :=
  dibit_at (received G (t / 828)) enco_which_dibits.[e].[t mod 828].

Definition stream_ok (G : Z -> list Z) : Prop := forall g, 0 <= g -> packets_ok (G g).

Lemma zeros_ok : packets_ok (replicate 2484 0).
Proof. split; [apply length_replicate|]. apply Forall_replicate. done. Qed.

Lemma low_bits_byte x : byte x -> byte (x .& 0x7f).
Proof. intros _. unfold byte. pose proof (land_range x 0x7f). lia. Qed.

Lemma received_ok G g : stream_ok G -> packets_ok (received G g).
Proof.
  intros HG. unfold received. case_if; [apply zeros_ok|]. case_if; [|apply HG; lia].
  destruct (HG g) as [Hl Hb]; [lia|]. unfold lossy. split.
  - rewrite length_app, length_map, length_take, length_drop. lia.
  - apply Forall_app. split; [|by apply Forall_drop]. apply Forall_map.
    apply (Forall_impl byte); [by apply Forall_take|]. apply low_bits_byte.
Qed.

Lemma zeros_dibit n w : dibit_at (replicate n 0) w = 0.
Proof.
  unfold dibit_at. assert ((replicate n 0).[w >> 3] = 0) as ->; [|by rewrite Z.shiftr_0_l].
  apply (aget_Forall_dflt (fun x => x = 0)); [|done]. by apply Forall_replicate.
Qed.

Lemma coder_history_ok G e : history (coder_history G e).
Proof.
  split; [intros; apply dibit_range|]. intros i Hi. unfold coder_history, received.
  assert (i / 828 < 0) as Hn by divlia. destruct (Z.ltb_spec (i / 828) 0); [|lia]. apply zeros_dibit.
Qed.

Lemma coder_history_at G e g i : 0 <= i < 828 ->
  coder_history G e (828 * g + i) = dibit_at (received G g) enco_which_dibits.[e].[i].
Proof. intros Hi. unfold coder_history. do 2 f_equal; [f_equal|]; divlia. Qed.

Lemma lossy_get l b : length l = 2484%nat -> 0 <= b < 2484 ->
  (lossy l).[b] = if b <? 12 then l.[b] .& 0x7f else l.[b].
Proof.
  intros Hl Hb. destruct (lookup_lt_is_Some_2 l (Z.to_nat b)) as [x Hx]; [lia|].
  rewrite (aget_lookup l b x) by (done || lia). apply aget_lookup; [lia|]. unfold lossy.
  destruct (Z.ltb_spec b 12).
  - rewrite lookup_app_l by (rewrite length_map, length_take; lia).
    rewrite list_lookup_fmap, lookup_take_lt, Hx by lia. done.
  - rewrite lookup_app_r by (rewrite length_map, length_take; lia).
    rewrite length_map, length_take, lookup_drop, <- Hx. f_equal. lia.
Qed.

Lemma low_bits_checked :
  all_below 256 (fun x => forallb (fun s =>
    (0x03 .& (x .& 0x7f) >> s) =? (if s =? 6 then (0x03 .& x >> s) .& 1 else (0x03 .& x >> s))) [0; 2; 4; 6]) = true.
Proof. vm_compute. reflexivity. Qed.

(** The first dibit of coder [e] loses its upper bit and nothing else changes. *)
Lemma lossy_dibit l e i : packets_ok l -> 0 <= e < 12 -> 0 <= i < 828 ->
  dibit_at (lossy l) enco_which_dibits.[e].[i] = seen i (dibit_at l enco_which_dibits.[e].[i]).
Proof.
  intros [Hl Hb] He Hi. set (w := enco_which_dibits.[e].[i]).
  assert (place w) as Hw.
  { apply (aget_Forall place); [by apply places_in_range|]. rewrite dibits_length by done. lia. }
  destruct (place_parts w Hw) as (Hr & Hs & E). unfold dibit_at. rewrite lossy_get by done.
  assert (byte l.[w >> 3]) as Hx by (apply aget_Forall; [done|lia]).
  pose proof (all_below_spec _ _ low_bits_checked _ Hx) as Hc. cbv beta in Hc.
  rewrite forallb_forall in Hc. specialize (Hc _ (shift_in _ Hs)). apply Z.eqb_eq in Hc.
  unfold seen. destruct (Z.eqb_spec i 0) as [->|Hne].
  - unfold w in *. rewrite places_first in * by done.
    destruct (bit_ptr e 6) as [E1 E2]; [lia|lia|]. rewrite E1, E2 in *. destruct (Z.ltb_spec e 12); [|lia].
    exact Hc.
  - destruct (Z.ltb_spec (w >> 3) 12); [|done]. rewrite Hc.
    destruct (Z.eqb_spec (w .& 0x7) 6) as [E6|]; [|done].
    destruct (places_not_first e i); [done|lia|]. apply in_map_iff. exists (w >> 3). split.
    + rewrite E6 in E. exact E.
    + apply in_map_iff. exists (Z.to_nat (w >> 3)). split; [lia|]. apply in_seq. lia.
Qed.

Lemma coder_history_seen G g e i : stream_ok G -> 0 <= g -> 0 <= e < 12 -> 0 <= i < 828 ->
  coder_history G e (828 * g + i) = seen (828 * g + i) (dibit_at (G g) enco_which_dibits.[e].[i]).
Proof.
  intros HG Hg He Hi. rewrite coder_history_at by done. unfold received.
  destruct (Z.ltb_spec g 0); [lia|]. destruct (Z.eqb_spec g 0) as [->|].
  - by rewrite lossy_dibit by (done || by apply HG).
  - unfold seen. by destruct (Z.eqb_spec (828 * g + i) 0); [lia|].
Qed.

(** Coder [e] in state [s] after [t] dibits, and its decoder. *)
Definition coder_decoder (G : Z -> list Z) (t e s : Z) (d : atsci_viterbi_decoder) : Prop :=
  decoder_at (coder_history G e) t s (viterbi d).[e] (fifo d).[e].

Definition places_stored (G : Z -> list Z) (g e : Z) : list (Z * Z) :=
  map (fun w => (w, dibit_at (received G (g - 1)) w)) enco_which_dibits.[e].

(** The decoders of the coders [l], which went from [enc] to [enc'] on group [g]. *)
Lemma decode_encoders_spec G g out enc enc' l d dest :
  stream_ok G -> 0 <= g -> length out = 9984%nat -> NoDup l -> Forall (fun e => 0 <= e < 12) l ->
  (forall e, 0 <= e < 12 -> code enc.[e] (map (dibit_at (G g)) enco_which_dibits.[e]) =
     (map (fun p => out.[p]) enco_which_syms.[e], enc'.[e])) ->
  length (viterbi d) = 12%nat -> length (fifo d) = 12%nat ->
  (forall e, e ∈ l -> coder_decoder G (828 * g) e enc.[e] d) ->
  exists d', decode_encoders (map soft out) l d dest = (store_dibits dest (mjoin (map (places_stored G g) l)), d') /\
    length (viterbi d') = 12%nat /\ length (fifo d') = 12%nat /\
    forall e, (e ∈ l -> coder_decoder G (828 * (g + 1)) e enc'.[e] d') /\
      (0 <= e < 12 -> e ∉ l -> (viterbi d').[e] = (viterbi d).[e] /\ (fifo d').[e] = (fifo d).[e]).
Proof.
  intros HG Hg Hout Hnd Hl Hcode. revert d dest. induction l as [|e l IH]; intros d dest Hv Hf Hd.
  - exists d. cbn. split_and!; try done. intros e. split; [|done]. intros H. by apply not_elem_of_nil in H.
  - apply NoDup_cons in Hnd as [Hne Hnd]. apply Forall_cons in Hl as [He Hl]. specialize (IH Hnd Hl).
    pose proof (Hcode e He) as Hc. cbn [decode_encoders map].
    destruct (decode_encoder_spec (coder_history G e) (map soft out) (map (dibit_at (G g)) enco_which_dibits.[e])
      (828 * g) enc.[e] (viterbi d).[e] (fifo d).[e] dest enco_which_syms.[e] enco_which_dibits.[e])
      as (v' & f' & E & Hd').
    + apply coder_history_ok.
    + lia.
    + apply Hd. by left.
    + intros i x Hx. apply list_lookup_fmap_Some in Hx as (w & -> & Hw).
      pose proof (lookup_lt_Some _ _ _ Hw) as Hi. rewrite dibits_length in Hi by done.
      split; [apply dibit_range|]. rewrite coder_history_seen by (done || lia).
      rewrite (aget_lookup _ (Z.of_nat i) w); [done|lia|by rewrite Nat2Z.id].
    + rewrite Hc. cbn [fst]. rewrite map_map. apply map_ext_in. intros p Hp.
      apply aget_map. rewrite Hout. change (Z.of_nat 9984) with 9984. apply (syms_in_range e p He). by apply list_elem_of_In.
    + by rewrite length_map.
    + rewrite length_map, dibits_length, Hc in Hd' by done. cbn [snd] in Hd'.
      assert (imap (fun i w => (w, coder_history G e (828 * g + Z.of_nat i - 828))) enco_which_dibits.[e]
        = places_stored G g e) as Es.
      { apply list_eq. intros i. unfold places_stored. rewrite list_lookup_imap, list_lookup_fmap.
        destruct (enco_which_dibits.[e] !! i) as [w|] eqn:Ew; [|done]. cbn. do 2 f_equal.
        pose proof (lookup_lt_Some _ _ _ Ew) as Hi. rewrite dibits_length in Hi by done.
        replace (828 * g + Z.of_nat i - 828) with (828 * (g - 1) + Z.of_nat i) by lia.
        rewrite coder_history_at by lia. f_equal. apply aget_lookup; [lia|]. by rewrite Nat2Z.id. }
      rewrite E, Es. clear E Es.
      destruct (IH {| viterbi := (viterbi d).[e <- v']; fifo := (fifo d).[e <- f'] |}
        (store_dibits dest (places_stored G g e))) as (d'' & E'' & Hv'' & Hf'' & Hd'').
      * cbn. by rewrite length_aset.
      * cbn. by rewrite length_aset.
      * intros e' He'. unfold coder_decoder. cbn [viterbi fifo].
        assert (e <> e') as Hee by (intros ->; done). rewrite Forall_forall in Hl. specialize (Hl e' He'). cbv beta in Hl.
        rewrite !aget_aset_ne by lia. apply Hd. by right.
      * exists d''. rewrite E''. split; [f_equal; unfold store_dibits; by rewrite join_cons, fold_left_app|].
        split; [done|]. split; [done|]. intros e'. destruct (Hd'' e') as [H1 H2]. cbn [viterbi fifo] in H2.
        split.
        -- intros [->|He']%elem_of_cons; [|by apply H1]. destruct (H2 He Hne) as [E1 E2].
           unfold coder_decoder. rewrite E1, E2, !aget_aset_eq by lia.
           replace (828 * (g + 1)) with (828 * g + Z.of_nat 828) by lia. done.
        -- intros Hr [Hee Hnl]%not_elem_of_cons. destruct (H2 Hr Hnl) as [E1 E2].
           rewrite E1, E2, !aget_aset_ne by lia. done.
Qed.

(** The coders and decoders before group [g]. *)
Record stream_before (G : Z -> list Z) (g : Z) (enc : list Z) (d : atsci_viterbi_decoder) : Prop := {
  before_enc : length enc = 12%nat;
  before_viterbi : length (viterbi d) = 12%nat;
  before_fifos : length (fifo d) = 12%nat;
  before_coders : forall e, 0 <= e < 12 -> coder_decoder G (828 * g) e enc.[e] d
}.

Lemma encoders_in_range : NoDup (zseq 0 12) /\ forall e, e ∈ zseq 0 12 <-> 0 <= e < 12.
Proof.
  split; [apply (bool_decide_unpack _); vm_compute; done|]. intros e. rewrite list_elem_of_In. unfold zseq. rewrite in_map_iff. split.
  - intros (n & <- & Hn). apply in_seq in Hn. lia.
  - intros He. exists (Z.to_nat e). split; [lia|]. apply in_seq. lia.
Qed.

Lemma all_places_stored G g :
  mjoin (map (places_stored G g) (zseq 0 12)) = map (fun w => (w, dibit_at (received G (g - 1)) w)) all_places.
Proof.
  unfold all_places. rewrite (list_as_map enco_which_dibits 12 length_places) at 1.
  induction (zseq 0 12) as [|e l IH]; [done|]. cbn [map]. by rewrite !join_cons, IH, map_app.
Qed.

Lemma all_places_ok : Forall place all_places.
Proof.
  apply Forall_forall. intros w (l & Hw & Hl)%list_elem_of_join.
  apply list_elem_of_lookup in Hl as (i & Hi). pose proof (lookup_lt_Some _ _ _ Hi) as Hlt. rewrite length_places in Hlt.
  pose proof (places_in_range (Z.of_nat i) ltac:(lia)) as Hp.
  rewrite (aget_lookup _ (Z.of_nat i) l) in Hp by (rewrite ?Nat2Z.id; done || lia).
  by apply (proj1 (Forall_forall _ l) Hp).
Qed.

(** One group of twelve packets through the coders and the decoders. *)
Lemma decode_group G g enc d :
  stream_ok G -> 0 <= g -> stream_before G g enc d ->
  exists out enc' d', encode_helper (G g) enc = Some (out, enc') /\ length out = 9984%nat /\
    decode_helper (map soft out) d = (received G (g - 1), d') /\ stream_before G (g + 1) enc' d'.
Proof.
  intros HG Hg [Henc Hv Hf Hd].
  destruct (encode_helper_ok (G g) enc Henc) as (out & enc' & E & Hout & Henc' & Hcode).
  destruct encoders_in_range as [Hnd Hin].
  assert (Forall (fun e => 0 <= e < 12) (zseq 0 12)) as Hr by (apply Forall_forall; intros e He; by apply Hin).
  destruct (decode_encoders_spec G g out enc enc' (zseq 0 12) d (replicate (Z.to_nat INPUT_SIZE) 0)
    HG Hg Hout Hnd Hr Hcode Hv Hf) as (d' & Ed & Hv' & Hf' & Hd').
  - intros e He. by apply Hd, Hin.
  - exists out, enc', d'. split; [done|]. split; [done|]. split.
    + unfold decode_helper. rewrite Ed. f_equal. rewrite all_places_stored. change (Z.to_nat INPUT_SIZE) with 2484%nat.
      apply packets_eq.
      * apply store_dibits_ok, zeros_ok.
      * by apply received_ok.
      * intros w Hw.
        rewrite (store_dibits_get (dibit_at (received G (g - 1))) all_places (replicate 2484 0) w zeros_ok Hw all_places_ok
          (fun w => dibit_range _)).
        by rewrite (bool_decide_eq_true_2 _ (places_cover w Hw)).
    + split; [done|done|done|]. intros e He. apply Hd'. by apply Hin.
Qed.

(** ** Segments *)

(** Cutting a list into pieces, and joining them. *)
Definition cut {B} (k : nat) (f : Z -> B) (j : Z) : list B := map (fun i => f (Z.of_nat k * j + i)) (zseq 0 k).

Lemma join_cuts {B} (f : Z -> B) n k : mjoin (map (cut k f) (zseq 0 n)) = map f (zseq 0 (n * k)).
Proof.
  revert f. induction n as [|n IH]; intros f; [done|].
  rewrite map_zseq_S, join_cons. cbn [Nat.mul]. rewrite map_zseq_plus. f_equal.
  - unfold cut. apply map_ext. intros. f_equal. lia.
  - rewrite <- IH. f_equal. apply map_ext. intros j. unfold cut. apply map_ext. intros. f_equal. lia.
Qed.

Lemma pieces_cuts {B} (f : Z -> B) n k : pieces n k (map f (zseq 0 (n * k))) = map (cut k f) (zseq 0 n).
Proof.
  revert f. induction n as [|n IH]; intros f; [done|].
  cbn [pieces Nat.mul]. rewrite map_zseq_S, map_zseq_plus.
  rewrite take_app_length', drop_app_length' by by rewrite length_map, length_zseq. rewrite IH. f_equal.
  - unfold cut. apply map_ext. intros. f_equal. lia.
  - apply map_ext. intros j. unfold cut. apply map_ext. intros. f_equal. lia.
Qed.

Lemma join_pieces {A} n k (l : list A) : length l = (n * k)%nat -> mjoin (pieces n k l) = l.
Proof.
  revert l. induction n as [|n IH]; intros l Hl; [by destruct l|].
  cbn [pieces]. rewrite join_cons, IH, take_drop; [done|]. rewrite length_drop, Hl. lia.
Qed.
Lemma length_pieces {A} n k (l : list A) : length (pieces n k l) = n.
Proof. revert l. induction n as [|n IH]; intros l; cbn; [done|]. by rewrite IH. Qed.
Lemma join_map {A B} (f : A -> B) (l : list (list A)) : mjoin (map (map f) l) = map f (mjoin l).
Proof. induction l as [|x l IH]; [done|]. cbn [map]. by rewrite !join_cons, IH, map_app. Qed.

(** The group of the segments [12 g] to [12 g + 11] of the byte stream [h]. *)
Definition group (h : Z -> Z) (g : Z) : list Z := map (fun i => h (2484 * g + i)) (zseq 0 2484).
Definition group_segments (h : Z -> Z) (p g : Z) : list atsc_mpeg_packet_rs_encoded :=
  map (fun i => segment_of h (p + i) (12 * g + i)) (zseq 0 12).

(** The byte stream that comes out of the decoders. *)
Definition received_byte (h : Z -> Z) (t : Z) : Z :=
  if t <? 0 then 0 else if t <? 12 then h t .& 0x7f else h t.

Lemma group_data h p g : mjoin (map data (group_segments h p g)) = group h g.
Proof.
  unfold group_segments, group, segment_of. rewrite map_map. cbn [data]. change 2484%nat with (12 * 207)%nat.
  rewrite <- join_cuts. f_equal. apply map_ext. intros j. unfold cut. apply map_ext. intros i. f_equal. lia.
Qed.

Lemma received_group h g : received (group h) g = group (received_byte h) g.
Proof.
  unfold received, lossy, group. change 2484%nat with (12 + 2472)%nat. rewrite !map_zseq_plus.
  assert (forall (f1 f2 : Z -> Z) n, (forall i, 0 <= i < Z.of_nat n -> f1 i = f2 i) -> map f1 (zseq 0 n) = map f2 (zseq 0 n)) as Hext.
  { intros f1 f2 n Hf. apply map_ext_in. intros i Hi. apply Hf. apply in_map_iff in Hi as (j & <- & Hj). apply in_seq in Hj. lia. }
  assert (forall n, replicate n 0 = map (fun _ => 0) (zseq 0 n)) as Hrep.
  { induction n as [|n IH]; [done|]. by rewrite map_zseq_S, <- IH. }
  destruct (Z.ltb_spec g 0); [|destruct (Z.eqb_spec g 0) as [->|]].
  - rewrite replicate_add, !Hrep. apply (f_equal2 app); apply Hext; intros i Hi; unfold received_byte;
      match goal with |- context [?a <? ?b] => destruct (Z.ltb_spec a b); [done|lia] end.
  - rewrite take_app_length', drop_app_length' by by rewrite length_map, length_zseq. apply (f_equal2 app).
    + rewrite map_map. apply Hext. intros i Hi. unfold received_byte. destruct (Z.ltb_spec (2484 * 0 + i) 0); [lia|].
      by destruct (Z.ltb_spec (2484 * 0 + i) 12); [|lia].
    + apply Hext. intros i Hi. unfold received_byte.
      repeat (match goal with |- context [?a <? ?b] => destruct (Z.ltb_spec a b); [lia|] end). done.
  - apply (f_equal2 app); apply Hext; intros i Hi; unfold received_byte;
      repeat (match goal with |- context [?a <? ?b] => destruct (Z.ltb_spec a b); [lia|] end); done.
Qed.

Lemma check_segments_ok (l : list (segment Z)) : (forall s, In s l -> exists n, pli s = pli_at n) -> check_segments l = Some ().
Proof.
  induction l as [|s l IH]; intros H; [done|]. cbn [check_segments].
  destruct (H s (or_introl eq_refl)) as (n & ->). rewrite pli_regular, pli_sane. cbn [assert]. rewrite !some_bind.
  apply IH. intros x Hx. apply H. by right.
Qed.

Lemma check_regular_ok {A} (l : list (segment A)) : (forall s, In s l -> exists n, pli s = pli_at n) -> check_regular l = Some ().
Proof.
  induction l as [|s l IH]; intros H; [done|]. cbn [check_regular].
  destruct (H s (or_introl eq_refl)) as (n & ->). rewrite pli_regular. cbn [assert]. rewrite !some_bind.
  apply IH. intros x Hx. apply H. by right.
Qed.

(** Segments with the pipeline information of [p], [p + 1], ... *)
Definition with_pli {A} (p : Z) (l : list (list A)) : list (segment A) :=
  imap (fun i d => {| pli := pli_at (p + Z.of_nat i); data := d |}) l.

Lemma with_pli_in {A} p (l : list (list A)) s : In s (with_pli p l) -> exists n, pli s = pli_at n.
Proof.
  intros Hs. apply list_elem_of_In, list_elem_of_lookup in Hs as (i & Hi).
  apply list_lookup_imap_Some in Hi as (d & _ & ->). by eexists.
Qed.
Lemma with_pli_cons {A} p (d : list A) l : with_pli p (d :: l) = {| pli := pli_at p; data := d |} :: with_pli (p + 1) l.
Proof.
  unfold with_pli. rewrite imap_cons, Z.add_0_r. f_equal. apply imap_ext. intros i x _. cbn. do 2 f_equal. lia.
Qed.
Lemma with_pli_data {A} p (l : list (list A)) : map data (with_pli p l) = l.
Proof. revert p. induction l as [|d l IH]; intros p; [done|]. rewrite with_pli_cons. cbn [map data]. by rewrite IH. Qed.

Lemma zip_with_pli {A B} p (l : list (list A)) (r : list (list B)) : length l = length r ->
  zip_with (fun s d => {| pli := pli s; data := d |}) (with_pli p l) r = with_pli p r.
Proof.
  revert p r. induction l as [|x l IH]; intros p [|y r] Hl; try done. rewrite !with_pli_cons.
  cbn [zip_with pli]. rewrite IH by by injection Hl. done.
Qed.

Lemma delay_segments_ok {A} p (l : list (list A)) r : length l = length r ->
  delay_segments (with_pli p l) r = Some (with_pli (p - 12) r).
Proof.
  revert p r. induction l as [|x l IH]; intros p [|y r] Hl; try done. rewrite !with_pli_cons.
  cbn [delay_segments pli]. change NCODERS with 12. run (delay_at p 12 ltac:(lia)). rewrite (IH (p + 1)) by by injection Hl.
  rewrite some_bind. do 3 f_equal. lia.
Qed.

Lemma map_soft_with_pli p l : map map_to_soft_symbols (with_pli p l) = with_pli p (map (map soft) l).
Proof. revert p. induction l as [|x l IH]; intros p; [done|]. cbn [map]. rewrite !with_pli_cons. cbn [map]. by rewrite IH. Qed.

Lemma with_pli_zseq {A} p (f : Z -> list A) n :
  with_pli p (map f (zseq 0 n)) = map (fun i => {| pli := pli_at (p + i); data := f i |}) (zseq 0 n).
Proof.
  revert p f. induction n as [|n IH]; intros p f; [done|]. rewrite !map_zseq_S, with_pli_cons, IH, Z.add_0_r. f_equal.
  apply map_ext. intros. do 2 f_equal. lia.
Qed.

Lemma group_with_pli h p g : group_segments h p g = with_pli p (pieces 12 207 (group h g)).
Proof.
  unfold group. change 2484%nat with (12 * 207)%nat. rewrite pieces_cuts, with_pli_zseq.
  unfold group_segments, segment_of. apply map_ext. intros i. f_equal. unfold cut. apply map_ext. intros. f_equal. lia.
Qed.

(** One call of each block. *)
Lemma group_step h p g enc d :
  stream_ok (group h) -> 0 <= g -> p mod 12 = 0 -> stream_before (group h) g enc d ->
  exists enc' segs d', trellis_encode enc (group_segments h p g) = Some (enc', segs) /\
    viterbi_work d 12 (map map_to_soft_symbols segs) = Some (d', group_segments (received_byte h) (p - 12) (g - 1)) /\
    stream_before (group h) (g + 1) enc' d'.
Proof.
  intros HG Hg Hp Hb. destruct (decode_group (group h) g enc d HG Hg Hb) as (out & enc' & d' & E & Hout & Ed & Hb').
  exists enc', (with_pli p (pieces 12 832 out)), d'. split; [|split; [|done]].
  - unfold trellis_encode. rewrite group_data, E. rewrite group_with_pli.
    rewrite check_segments_ok by apply with_pli_in. rewrite !some_bind. cbv beta iota.
    rewrite zip_with_pli by by rewrite !length_pieces.
    rewrite check_segments_ok by apply with_pli_in. by rewrite some_bind.
  - unfold viterbi_work. change (12 mod NCODERS =? 0) with true. cbn [assert]. rewrite some_bind, map_soft_with_pli.
    assert (find_start 12 0 (with_pli p (map (map soft) (pieces 12 832 out))) = Some 0) as ->.
    { cbn [pieces map]. rewrite with_pli_cons. cbn [find_start pli]. rewrite pli_regular, pli_segno. cbn [assert]. rewrite some_bind.
      assert ((p mod 312) mod NCODERS = 0) as ->; [|done].
      change NCODERS with 12. rewrite <- Znumtheory.Zmod_div_mod; [done|lia|lia|by exists 26]. }
    rewrite some_bind. change (if 0 =? NCODERS then 0 else 0) with 0. change (Z.to_nat 0) with 0%nat. rewrite drop_0.
    rewrite take_ge by (unfold with_pli; rewrite length_imap, length_map, length_pieces; done).
    unfold decode. rewrite check_regular_ok by apply with_pli_in. rewrite some_bind, with_pli_data.
    rewrite join_map, join_pieces by exact Hout. rewrite Ed.
    rewrite delay_segments_ok by by rewrite length_map, !length_pieces.
    rewrite some_bind. by rewrite received_group, group_with_pli.
Qed.

(** The blocks see twelve segments in each call. *)
Definition trellis_work := each_item trellis_encode.
Definition soft_viterbi_work :=
  each_item (fun d segs => viterbi_work d 12 (map map_to_soft_symbols segs)).

Lemma stream_start G : stream_before G 0 reset_encoders new_viterbi_decoder.
Proof.
  split; try done. intros e He. unfold coder_decoder, new_viterbi_decoder, reset_encoders. cbn [viterbi fifo].
  assert (forall {A} `{Default A} (x : A), (replicate 12 x).[e] = x) as Hr.
  { intros A HA x. apply (aget_Forall (fun y => y = x)); [by apply Forall_replicate|rewrite length_replicate; lia]. }
  rewrite !Hr. destruct (coder_history_ok G e) as [Hh Hneg]. split.
  - split; [by left|done|]. left. split; [done|]. split; [done|]. split; [done|exact Hneg].
  - destruct (new_fifo_ok (A := Z) DSEG_FIFO ltac:(done)) as [Hok Hq]. split; [done|]. rewrite Hq.
    apply list_eq. intros i. rewrite list_lookup_fmap. destruct (decide (i < 797)%nat) as [Hi|Hi].
    + unfold zseq. rewrite lookup_replicate_2 by done. rewrite list_lookup_fmap, lookup_seq_lt by done. cbn. f_equal. symmetry.
      apply Hneg. change viterbi_delay with 31. change DSEG_FIFO with 797. lia.
    + rewrite !lookup_ge_None_2; [done|rewrite length_zseq; change DSEG_FIFO with 797; lia|rewrite length_replicate; change DSEG_FIFO with 797; lia].
Qed.

Lemma stream_bytes h : (forall t, 0 <= t -> byte (h t)) -> stream_ok (group h).
Proof.
  intros Hh g Hg. unfold group. split; [by rewrite length_map, length_zseq|].
  apply Forall_map, Forall_forall. intros i Hi. apply list_elem_of_In, in_map_iff in Hi as (j & <- & _).
  apply Hh. lia.
Qed.

(** The groups from [g] on. *)
Lemma groups_run h n g enc d :
  (forall t, 0 <= t -> byte (h t)) -> 0 <= g -> stream_before (group h) g enc d ->
  exists enc' coded d',
    trellis_work enc (map (fun i => group_segments h (12 * (g + i)) (g + i)) (zseq 0 n)) = Some (enc', coded) /\
    soft_viterbi_work d coded =
      Some (d', map (fun i => group_segments (received_byte h) (12 * (g + i) - 12) (g + i - 1)) (zseq 0 n)).
Proof.
  intros Hh. revert g enc d. induction n as [|n IH]; intros g enc d Hg Hb.
  - by exists enc, [], d.
  - rewrite !map_zseq_S, Z.add_0_r.
    destruct (group_step h (12 * g) g enc d (stream_bytes h Hh) Hg) as (enc1 & segs & d1 & E1 & E2 & Hb1); [|done|].
    { rewrite Z.mul_comm. apply Z_mod_mult. }
    destruct (IH (g + 1) enc1 d1 ltac:(lia) Hb1) as (enc' & coded & d' & E3 & E4).
    assert (forall {B} (f : Z -> B), map (fun m => f (g + (m + 1))) (zseq 0 n) = map (fun i => f (g + 1 + i)) (zseq 0 n)) as Hs.
    { intros B f. apply map_ext. intros. f_equal. lia. }
    exists enc', (segs :: coded), d'. unfold trellis_work, soft_viterbi_work in *. cbn [each_item].
    rewrite E1, some_bind. cbv beta iota. rewrite (Hs _ (fun i => group_segments h (12 * i) i)), E3, some_bind.
    split; [done|]. rewrite E2, some_bind. cbv beta iota. rewrite E4, some_bind.
    by rewrite (Hs _ (fun i => group_segments (received_byte h) (12 * i - 12) (i - 1))).
Qed.

(** A stream of encoded packets, coded by the trellis coder and turned into
    soft symbols, comes out of the Viterbi decoder twelve segments later: twelve
    segments of zeros with the pipeline information of the segments before the
    stream, then the packets, in which only the upper bit of the first twelve
    bytes is cleared.  Nothing fails, for a stream of any length. *)
Theorem viterbi_inverts_trellis h n :
  (forall t, 0 <= t -> byte (h t)) ->
  exists enc coded d,
    trellis_work reset_encoders (map (fun g => group_segments h (12 * g) g) (zseq 0 n)) = Some (enc, coded) /\
    soft_viterbi_work new_viterbi_decoder coded =
      Some (d, map (fun g => group_segments (received_byte h) (12 * g - 12) (g - 1)) (zseq 0 n)).
Proof. intros Hh. apply (groups_run h n 0); [done|done|apply stream_start]. Qed.

Lemma viterbi_inverts_trellis_witness :
  exists enc coded d,
    trellis_work reset_encoders (map (fun g => group_segments (fun t => t mod 256) (12 * g) g) (zseq 0 3)) = Some (enc, coded) /\
    soft_viterbi_work new_viterbi_decoder coded =
      Some (d, map (fun g => group_segments (received_byte (fun t => t mod 256)) (12 * g - 12) (g - 1)) (zseq 0 3)).
Proof.
  apply (viterbi_inverts_trellis (fun t => t mod 256) 3).
  intros t _. apply Z.mod_pos_bound. reflexivity.
Defined.
