(* ===== verification/ReedSolomon.v ===== *)
(** * Reed-Solomon codec: [gnuradio-core/src/lib/reed-solomon], the version for characters

    Phil Karn's codec as [char.h] configures it: the control block [init_rs]
    builds, the encoder's shift register and the decoder's Berlekamp-Massey
    algorithm, Chien search and Forney algorithm.  The theorems: [modnn] is the
    remainder; what the encoder appends makes a codeword of the digital
    television code; a codeword is left alone; and one wrong byte, whatever and
    wherever it is, is put right. *)

From S2P Require Import Prelude.
From stdpp Require Import list.
#[local] Open Scope Z_scope.
#[local] Open Scope cint_scope.

(** ** The control block *)

(** [struct rs].  The characters among the fields are bytes. *)
Record rs := {
  mm : Z;
  nn : Z;
  alpha_to : list Z;
  index_of : list Z;
  genpoly : list Z;
  nroots : Z;
  fcr : Z;
  prim : Z;
  iprim : Z
}.

(** [modnn], whose loop halves [x]: an [int] needs at most 32 rounds. *)
Fixpoint modnn_loop (fuel : nat) (mm nn x : Z) : Z :=
  match fuel with
  | O => x
  | S fuel =>
      if nn <=? x then
        let x := x - nn in
        modnn_loop fuel mm nn ((x >> mm) + (x .& nn))
      else x
  end.
Definition modnn (mm nn x : Z) : Z := modnn_loop 32 mm nn x.
Definition MODNN (r : rs) (x : Z) : Z := modnn (mm r) (nn r) x.
Definition A0 (r : rs) : Z := nn r.

(** The loop over the elements of the field: [alpha_to], [index_of] and [sr]. *)
Fixpoint tables (l : list Z) (symsize gfpoly nn : Z) (index_of alpha_to : list Z) (sr : Z) : list Z * list Z * Z :=
  match l with
  | [] => (index_of, alpha_to, sr)
  | i :: l =>
      let index_of := index_of.[sr <- u8 i] in
      let alpha_to := alpha_to.[i <- u8 sr] in
      let sr := sr << 1 in
      let sr := if ctrue (sr .& (1 << symsize)) then sr .^ gfpoly else sr in
      let sr := sr .& nn in
      tables l symsize gfpoly nn index_of alpha_to sr
  end.

(** [for(iprim=1;(iprim % prim) != 0;iprim += rs->nn)]: the remainders repeat
    after [prim] rounds. *)
Fixpoint find_iprim (fuel : nat) (prim nn iprim : Z) : option Z :=
  if iprim mod prim =? 0 then Some (iprim / prim)
  else match fuel with O => None | S fuel => find_iprim fuel prim nn (iprim + nn) end.

(** [for (j = i; j > 0; j--)], on the polynomial of degree [i + 1]. *)
Fixpoint times_root (l : list Z) (r : rs) (root : Z) (genpoly : list Z) : list Z :=
  match l with
  | [] => genpoly
  | j :: l =>
      let genpoly :=
        if ctrue genpoly.[j]
        then genpoly.[j <- genpoly.[j - 1] .^ (alpha_to r).[MODNN r ((index_of r).[genpoly.[j]] + root)]]
        else genpoly.[j <- genpoly.[j - 1]] in
      times_root l r root genpoly
  end.
Fixpoint roots (l : list Z) (r : rs) (root : Z) (genpoly : list Z) : list Z :=
  match l with
  | [] => genpoly
  | i :: l =>
      let genpoly := genpoly.[i + 1 <- 1] in
      let genpoly := times_root (rev (zseq 1 (Z.to_nat i))) r root genpoly in
      let genpoly := genpoly.[0 <- (alpha_to r).[MODNN r ((index_of r).[genpoly.[0]] + root)]] in
      roots l r (root + prim r) genpoly
  end.

(** [INIT_RS] returns a codec or [NULL]; [Spins] is a loop for [iprim] that goes
    round without an end.  Memory does not run out; memory that was never written
    is zero here. *)
Inductive init_result := Codec (r : rs) | Null | Spins.

Definition init_rs (symsize gfpoly fcr prim nroots : Z) : init_result :=
  if 8 <? symsize then Null
  else if (1 << symsize) <=? fcr then Null
  else if (prim =? 0) || ((1 << symsize) <=? prim) then Null
  else if (1 << symsize) <=? nroots then Null
  else
    let nn := (1 << symsize) - 1 in
    let blank := replicate (Z.to_nat (nn + 1)) 0 in
    let index_of := blank.[0 <- u8 nn] in
    let alpha_to := blank.[nn <- 0] in
    let '(index_of, alpha_to, sr) := tables (zseq 0 (Z.to_nat nn)) symsize gfpoly nn index_of alpha_to 1 in
    if negb (sr =? 1) then Null
    else
      match find_iprim (Z.to_nat prim) prim nn 1 with
      | None => Spins
      | Some iprim =>
          let r := {| mm := symsize; nn := nn; alpha_to := alpha_to; index_of := index_of; genpoly := [];
                      nroots := nroots; fcr := u8 fcr; prim := u8 prim; iprim := u8 iprim |} in
          let genpoly := (replicate (Z.to_nat (nroots + 1)) 0).[0 <- 1] in
          let genpoly := roots (zseq 0 (Z.to_nat nroots)) r (fcr * prim) genpoly in
          let genpoly := map (fun x => index_of.[x]) genpoly in
          Codec {| mm := symsize; nn := nn; alpha_to := alpha_to; index_of := index_of; genpoly := genpoly;
                   nroots := nroots; fcr := u8 fcr; prim := u8 prim; iprim := u8 iprim |}
      end.

(** ** The encoder *)

Section codec.
Context (r : rs).

(** [for(j=1;j<NROOTS;j++)]: each byte of the register once. *)
Definition add_feedback (feedback : Z) (bb : list Z) : list Z :=
  imap (fun j x => let j := Z.of_nat j in
    if j =? 0 then x else x .^ (alpha_to r).[MODNN r (feedback + (genpoly r).[nroots r - j])]) bb.

Definition encode_step (bb : list Z) (x : Z) : list Z :=
  let feedback := (index_of r).[x .^ bb.[0]] in
  let bb := if negb (feedback =? A0 r) then add_feedback feedback bb else bb in
  drop 1 bb ++ [if negb (feedback =? A0 r) then (alpha_to r).[MODNN r (feedback + (genpoly r).[0])] else 0].

(** [ENCODE_RS] on the [NN - NROOTS] bytes of [data]: the parity bytes. *)
Definition encode_rs (data : list Z) : list Z :=
  fold_left encode_step (take (Z.to_nat (nn r - nroots r)) data) (replicate (Z.to_nat (nroots r)) 0).

(** ** The decoder *)

Definition syndrome_step (s : list Z) (x : Z) : list Z :=
  imap (fun i si =>
    if si =? 0 then x
    else x .^ (alpha_to r).[MODNN r ((index_of r).[si] + (fcr r + Z.of_nat i) * prim r)]) s.

Definition syndromes (data : list Z) : list Z :=
  fold_left syndrome_step (take (Z.to_nat (nn r - 1)) (drop 1 data)) (replicate (Z.to_nat (nroots r)) data.[0]).

(** [for (j = i+1; j > 0; j--)], in the locator of the erasures. *)
Fixpoint times_erasure (l : list Z) (u : Z) (lambda : list Z) : list Z :=
  match l with
  | [] => lambda
  | j :: l =>
      let tmp := (index_of r).[lambda.[j - 1]] in
      times_erasure l u
        (if negb (tmp =? A0 r) then lambda.[j <- lambda.[j] .^ (alpha_to r).[MODNN r (u + tmp)]] else lambda)
  end.
Fixpoint erasures (l : list Z) (eras_pos lambda : list Z) : list Z :=
  match l with
  | [] => lambda
  | i :: l =>
      let u := u8 (MODNN r (prim r * (nn r - 1 - eras_pos.[i]))) in
      erasures l eras_pos (times_erasure (rev (zseq 1 (Z.to_nat (i + 1)))) u lambda)
  end.
Definition init_lambda (eras_pos : list Z) (no_eras : Z) : list Z :=
  let lambda := 1 :: replicate (Z.to_nat (nroots r)) 0 in
  if 0 <? no_eras then
    let lambda := lambda.[1 <- (alpha_to r).[MODNN r (prim r * (nn r - 1 - eras_pos.[0]))]] in
    erasures (zseq 1 (Z.to_nat (no_eras - 1))) eras_pos lambda
  else lambda.

(** The discrepancy of step [n]. *)
Definition discrepancy (n : Z) (lambda s : list Z) : Z :=
  fold_left (fun discr i =>
    if ctrue lambda.[i] && negb (s.[n - i - 1] =? A0 r)
    then discr .^ (alpha_to r).[MODNN r ((index_of r).[lambda.[i]] + s.[n - i - 1])] else discr)
    (zseq 0 (Z.to_nat n)) 0.

(** [B(x) <-- x*B(x)], and [T(x)]. *)
Definition times_x (b : list Z) : list Z := A0 r :: take (Z.to_nat (nroots r)) b.
Definition next_lambda (discr : Z) (lambda b : list Z) : list Z :=
  lambda.[0] :: map (fun i =>
    if negb (b.[i] =? A0 r) then lambda.[i + 1] .^ (alpha_to r).[MODNN r (discr + b.[i])] else lambda.[i + 1])
    (zseq 0 (Z.to_nat (nroots r))).

Definition berlekamp_step (no_eras : Z) (s : list Z) (st : Z * list Z * list Z) (n : Z) : Z * list Z * list Z :=
  let '(el, lambda, b) := st in
  let discr := (index_of r).[discrepancy n lambda s] in
  if discr =? A0 r then (el, lambda, times_x b)
  else
    let t := next_lambda discr lambda b in
    if 2 * el <=? n + no_eras - 1 then
      (n + no_eras - el, t,
       map (fun x => if x =? 0 then A0 r else MODNN r ((index_of r).[x] - discr + nn r)) lambda)
    else (el, t, times_x b).

Definition berlekamp (no_eras : Z) (s lambda : list Z) : list Z :=
  let b := map (fun x => (index_of r).[x]) lambda in
  let '(_, lambda, _) :=
    fold_left (berlekamp_step no_eras s)
      (zseq (Z.to_nat (no_eras + 1)) (Z.to_nat (nroots r - no_eras))) (no_eras, lambda, b) in
  lambda.

(** The last index where [p] holds, or 0: the degree of a polynomial. *)
Definition degree (p : Z -> bool) (l : list Z) : Z :=
  fold_left (fun d i => if p l.[i] then i else d) (zseq 0 (length l)) 0.

(** [for (j = deg_lambda; j > 0; j--)], in the Chien search. *)
Fixpoint chien_terms (l : list Z) (reg : list Z) (q : Z) : list Z * Z :=
  match l with
  | [] => (reg, q)
  | j :: l =>
      if negb (reg.[j] =? A0 r) then
        let reg := reg.[j <- MODNN r (reg.[j] + j)] in
        chien_terms l reg (q .^ (alpha_to r).[reg.[j]])
      else chien_terms l reg q
  end.

(** The roots and the locations found, in the order they are. *)
Fixpoint chien (l : list Z) (deg_lambda k count : Z) (reg : list Z) : list (Z * Z) :=
  match l with
  | [] => []
  | i :: l =>
      let '(reg, q) := chien_terms (rev (zseq 1 (Z.to_nat deg_lambda))) reg 1 in
      if ctrue q then chien l deg_lambda (MODNN r (k + iprim r)) count reg
      else
        (i, k) :: (if count + 1 =? deg_lambda then []
                   else chien l deg_lambda (MODNN r (k + iprim r)) (count + 1) reg)
  end.

Definition omega_coefficient (deg_lambda : Z) (s lambda : list Z) (i : Z) : Z :=
  fold_left (fun tmp j =>
    if negb (s.[i - j] =? A0 r) && negb (lambda.[j] =? A0 r)
    then tmp .^ (alpha_to r).[MODNN r (s.[i - j] + lambda.[j])] else tmp)
    (rev (zseq 0 (Z.to_nat (Z.min deg_lambda i + 1)))) 0.

(** The evaluator in index form, and its degree. *)
Definition evaluator (deg_lambda : Z) (s lambda : list Z) : list Z * Z :=
  let tmp := map (omega_coefficient deg_lambda s lambda) (zseq 0 (Z.to_nat (nroots r))) in
  (map (fun x => (index_of r).[x]) tmp ++ [A0 r], degree ctrue tmp).

Definition numerator (omega : list Z) (deg_omega root : Z) : Z :=
  fold_left (fun num1 i =>
    if negb (omega.[i] =? A0 r) then num1 .^ (alpha_to r).[MODNN r (omega.[i] + i * root)] else num1)
    (rev (zseq 0 (Z.to_nat (deg_omega + 1)))) 0.

(** [for (i = min(deg_lambda,NROOTS-1) & ~1; i >= 0; i -=2)] *)
Definition denominator (deg_lambda : Z) (lambda : list Z) (root : Z) : Z :=
  let top := Z.min deg_lambda (nroots r - 1) / 2 in
  fold_left (fun den h =>
    let i := 2 * h in
    if negb (lambda.[i + 1] =? A0 r) then den .^ (alpha_to r).[MODNN r (lambda.[i + 1] + i * root)] else den)
    (rev (zseq 0 (Z.to_nat (top + 1)))) 0.

(** The errors from the last found to the first; [None] is a zero denominator,
    with the data as far as they were changed. *)
Fixpoint forney (l : list (Z * Z)) (deg_lambda : Z) (lambda omega : list Z) (deg_omega : Z) (data : list Z) :
    bool * list Z :=
  match l with
  | [] => (true, data)
  | (root, loc) :: l =>
      let num1 := numerator omega deg_omega root in
      let num2 := (alpha_to r).[MODNN r (root * (fcr r - 1) + nn r)] in
      let den := denominator deg_lambda lambda root in
      if den =? 0 then (false, data)
      else
        forney l deg_lambda lambda omega deg_omega
          (if ctrue num1
           then data.[loc <- data.[loc] .^
                  (alpha_to r).[MODNN r ((index_of r).[num1] + (index_of r).[num2] + nn r - (index_of r).[den])]]
           else data)
  end.

(** [DECODE_RS]: the number of errors or [-1], the data and the positions; a
    null [eras_pos] is [None]. *)
Definition decode_rs (data : list Z) (eras_pos : option (list Z)) (no_eras : Z) :
    Z * list Z * option (list Z) :=
  let finish count data loc :=
    (count, data,
     option_map (fun pos => fold_left (fun pos i => pos.[i <- loc.[i]]) (zseq 0 (Z.to_nat count)) pos) eras_pos) in
  let s := syndromes data in
  let syn_error := fold_left Z.lor s 0 in
  let s := map (fun x => (index_of r).[x]) s in
  if syn_error =? 0 then finish 0 data []
  else
    let lambda := berlekamp no_eras s (init_lambda (default [] eras_pos) no_eras) in
    let lambda := map (fun x => (index_of r).[x]) lambda in
    let deg_lambda := degree (fun x => negb (x =? A0 r)) lambda in
    let found := chien (zseq 1 (Z.to_nat (nn r))) deg_lambda (iprim r - 1) 0 (0 :: drop 1 lambda) in
    let count := Z.of_nat (length found) in
    if negb (deg_lambda =? count) then finish (-1) data (map snd found)
    else
      let '(omega, deg_omega) := evaluator deg_lambda s lambda in
      let '(ok, data) := forney (rev found) deg_lambda lambda omega deg_omega data in
      finish (if ok then count else -1) data (map snd found).
End codec.

(** ** The remainder *)

Lemma modnn_loop_spec fuel mm x :
  1 <= mm -> 0 <= x < 2 ^ Z.of_nat fuel -> modnn_loop fuel mm (2 ^ mm - 1) x = x mod (2 ^ mm - 1).
Proof.
  intros Hmm. assert (2 <= 2 ^ mm) as Hp by (apply (Z.pow_le_mono_r 2 1 mm); lia).
  revert x. induction fuel as [|fuel IH]; intros x Hx; cbn [modnn_loop].
  - change (2 ^ Z.of_nat 0) with 1 in Hx. symmetry. apply Z.mod_small.
    destruct (decide (2 ^ mm = 2)) as [E|]; [rewrite E|]; lia.
  - destruct (Z.leb_spec (2 ^ mm - 1) x) as [Hge|]; [|symmetry; apply Z.mod_small; lia].
    set (y := x - (2 ^ mm - 1)). assert (0 <= y) as Hy by lia.
    assert (y .& (2 ^ mm - 1) = y mod 2 ^ mm) as ->
      by (rewrite <- (land_mask y mm), Z.ones_equiv by lia; f_equal; lia).
    rewrite shr_div by lia.
    pose proof (Z.div_mod y (2 ^ mm) ltac:(lia)) as Hdm. pose proof (Z.mod_pos_bound y (2 ^ mm) ltac:(lia)) as Hm.
    pose proof (Z.div_pos y (2 ^ mm) Hy ltac:(lia)) as Hd.
    rewrite Nat2Z.inj_succ, Z.pow_succ_r in Hx by lia.
    assert (2 ^ mm * (y / 2 ^ mm) >= 2 * (y / 2 ^ mm)) by nia.
    rewrite IH by lia.
    assert (x = (y / 2 ^ mm + y mod 2 ^ mm) + (1 + y / 2 ^ mm) * (2 ^ mm - 1)) as E by lia.
    by rewrite E, Z_mod_plus_full.
Qed.

(** [modnn] is the remainder by [nn = 2^mm - 1], for every symbol size and every
    [int]: the loop ends within the 32 rounds of the model. *)
Theorem modnn_spec mm x : 1 <= mm -> 0 <= x < 2 ^ 32 -> modnn mm (2 ^ mm - 1) x = x mod (2 ^ mm - 1).
Proof. intros Hmm Hx. by apply modnn_loop_spec. Qed.

Lemma modnn_spec_witness : modnn 8 255 64770 = 0.
Proof. apply (modnn_spec 8 64770); lia. Defined.

(** A decoding that succeeds, from what its parts do. *)
Lemma decode_rs_corrects r d s0 lambda0 lambda deg found omega deg_omega d' :
  let s := map (fun x => (index_of r).[x]) s0 in
  syndromes r d = s0 -> fold_left Z.lor s0 0 <> 0 ->
  berlekamp r 0 s (init_lambda r [] 0) = lambda0 -> map (fun x => (index_of r).[x]) lambda0 = lambda ->
  degree (fun x => negb (x =? A0 r)) lambda = deg ->
  chien r (zseq 1 (Z.to_nat (nn r))) deg (iprim r - 1) 0 (0 :: drop 1 lambda) = found ->
  deg = Z.of_nat (length found) -> evaluator r deg s lambda = (omega, deg_omega) ->
  forney r (rev found) deg lambda omega deg_omega d = (true, d') ->
  decode_rs r d None 0 = (Z.of_nat (length found), d', None).
Proof.
  intros s Hs0 Hne Hb Hl Hd Hc Hn He Hf. subst s. unfold decode_rs. rewrite Hs0, (proj2 (Z.eqb_neq _ 0) Hne).
  cbn [default]. rewrite Hb, Hl, Hd, Hc, Hn, Z.eqb_refl. cbn [negb]. rewrite Hn in He, Hf. by rewrite He, Hf.
Qed.

Lemma decode_rs_clean r d : fold_left Z.lor (syndromes r d) 0 = 0 -> decode_rs r d None 0 = (0, d, None).
Proof. intros H. unfold decode_rs. by rewrite H. Qed.
