(* ===== verification/AtscReedSolomon.v ===== *)
(** * ATSC Reed-Solomon code: [atsci_reed_solomon.cc], [atsc_rs_encoder.cc], [atsc_rs_decoder.cc]

    The (207, 187) code of digital television: the (255, 235) codec of
    [ReedSolomon], with 48 zeros in front.  The arithmetic of the codec is that of
    the polynomials over the field of 256 elements: multiplying by a power of the
    primitive element is a linear map on bytes, so evaluating a polynomial is. *)

From S2P Require Import Prelude.
From stdpp Require Import list.
From S2P Require Import AtscTypes ReedSolomon.
#[local] Open Scope Z_scope.
#[local] Open Scope cint_scope.

(** ** The codec *)

Definition rs_init_symsize : Z := 8.
Definition rs_init_gfpoly : Z := 0x11d.
Definition rs_init_fcr : Z := 0.
Definition rs_init_prim : Z := 1.
Definition rs_init_nroots : Z := 20.
Definition N : Z := (1 << rs_init_symsize) - 1.
Definition K : Z := N - rs_init_nroots.
Definition amount_of_pad : Z := N - ATSC_MPEG_RS_ENCODED_LENGTH.

(** The constructor. *)
Definition atsci_reed_solomon : option rs :=
  match init_rs rs_init_symsize rs_init_gfpoly rs_init_fcr rs_init_prim rs_init_nroots with
  | Codec r => Some r
  | _ => None
  end.

(** [memset] and [memcpy] into [tmp]. *)
Definition pad (d : list Z) : list Z := replicate (Z.to_nat amount_of_pad) 0 ++ d.

Definition rs_encode (r : rs) (d : list Z) : list Z := d ++ encode_rs r (pad d).

Definition rs_decode (r : rs) (d : list Z) : Z * list Z :=
  let '(ncorrections, tmp, _) := decode_rs r (pad d) None 0 in
  (ncorrections, take (Z.to_nat ATSC_MPEG_DATA_LENGTH) (drop (Z.to_nat amount_of_pad) tmp)).

(** ** The blocks *)

Definition rs_encoder_step (r : rs) (inp : atsc_mpeg_packet_no_sync) : option (rs * atsc_mpeg_packet_rs_encoded) :=
  _ ← assert (regular_seg_p (pli inp));
  Some (r, {| pli := pli inp; data := rs_encode r (data inp) |}).

Definition rs_decoder_step (r : rs) (inp : atsc_mpeg_packet_rs_encoded) : option (rs * atsc_mpeg_packet_no_sync) :=
  _ ← assert (regular_seg_p (pli inp));
  let '(nerrors_corrrected, d) := rs_decode r (data inp) in
  Some (r, {| pli := set_transport_error (nerrors_corrrected =? -1) (pli inp); data := d |}).

Definition rs_encoder_work := each_item rs_encoder_step.
Definition rs_decoder_work := each_item rs_decoder_step.

(** ** What its tables must satisfy *)

Definition alpha (c : rs) (k : Z) : Z := (alpha_to c).[k].
Definition log (c : rs) (x : Z) : Z := (index_of c).[x].

(** One step of the shift register of the field, and [k] steps. *)
Definition xt (x : Z) : Z := ((x << 1) .& 255) .^ (if Z.testbit x 7 then 0x1d else 0).
Fixpoint power (k : nat) (x : Z) : Z := match k with O => x | S k => power k (xt x) end.

(** The same with the tables, as the codec does it. *)
Definition scale (c : rs) (k x : Z) : Z := if x =? 0 then 0 else alpha c (MODNN c (log c x + k)).

(** Horner's rule at the power [i]. *)
Definition horner (i : nat) (l : list Z) : Z := fold_left (fun s x => power i s .^ x) l 0.

(** What one feedback byte adds to the parity: the generator without its leading term. *)
Definition generator (c : rs) (f : Z) : list Z := map (fun j => scale c (genpoly c).[19 - j] f) (zseq 0 20).

Definition field_check (c : rs) : bool :=
  all_below 255 (fun k => (0 <? alpha c k) && (alpha c k <? 256) && (log c (alpha c k) =? k) &&
                          (xt (alpha c k) =? alpha c ((k + 1) mod 255))) &&
  all_below 256 (fun x => if x =? 0 then log c x =? 255
                          else (0 <=? log c x) && (log c x <? 255) && (alpha c (log c x) =? x)) &&
  (alpha c 0 =? 1) && (alpha c 255 =? 0).

(** The coefficients of the generator are not zero, and its roots are the twenty
    first powers: on the bytes with one bit. *)
Definition coefficient_check (c : rs) : bool :=
  all_below 21 (fun j => (0 <=? (genpoly c).[j]) && ((genpoly c).[j] <? 255)).
Definition generator_check (c : rs) : bool :=
  forallb (fun b => forallb (fun i => horner i (generator c (2 ^ b)) =? power (20 * i) (2 ^ b)) (seq 0 20)) (zseq 0 8).

#[global] Strategy expand [field_check coefficient_check generator_check alpha log scale].

(** What the rest needs of the control block. *)
Class AtscCode (c : rs) : Prop := {
  codec_fields : mm c = 8 /\ nn c = 255 /\ nroots c = 20 /\ fcr c = 0 /\ prim c = 1 /\ iprim c = 1;
  field_checked : field_check c = true;
  coefficients_checked : coefficient_check c = true;
  generator_checked : generator_check c = true
}.

Definition codec_check (c : rs) : bool :=
  (mm c =? 8) && (nn c =? 255) && (nroots c =? 20) && (fcr c =? 0) && (prim c =? 1) && (iprim c =? 1) &&
  field_check c && coefficient_check c && generator_check c.

(** The constructor makes such a codec. *)
Lemma atsci_reed_solomon_ok : exists c, atsci_reed_solomon = Some c /\ AtscCode c.
Proof.
  destruct atsci_reed_solomon as [c|] eqn:E; [|vm_compute in E; discriminate].
  exists c. split; [done|].
  assert (codec_check c = true) as H.
  { assert (match atsci_reed_solomon with Some c => codec_check c | None => false end = true) as H by (vm_compute; reflexivity).
    by rewrite E in H. }
  unfold codec_check in H. rewrite !andb_true_iff, !Z.eqb_eq in H. split; tauto.
Qed.

(** ** Multiplication by a power of the primitive element *)

Section code.
Context (codec : rs) `{!AtscCode codec}.
#[local] Abbreviation alpha := (alpha codec).
#[local] Abbreviation log := (log codec).
#[local] Abbreviation scale := (scale codec).
#[local] Abbreviation generator := (generator codec).

Lemma modnn_codec x : 0 <= x < 2 ^ 32 -> MODNN codec x = x mod 255.
Proof.
  intros Hx. unfold MODNN. destruct codec_fields as (-> & -> & _). apply (modnn_loop_spec 32 8 x); [lia|done].
Qed.

#[local] Opaque MODNN.

Lemma xt_lxor x y : xt (x .^ y) = xt x .^ xt y.
Proof.
  unfold xt. rewrite Z.shiftl_lxor, Z.lxor_spec.
  assert (forall a b c, (a .^ b) .& c = (a .& c) .^ (b .& c)) as Hd.
  { intros a b c. apply Z.bits_inj'. intros n _. rewrite !Z.lxor_spec, !Z.land_spec, Z.lxor_spec.
    by destruct (Z.testbit a n), (Z.testbit b n), (Z.testbit c n). }
  rewrite Hd. set (a := (x << 1) .& 255). set (b := (y << 1) .& 255).
  destruct (Z.testbit x 7), (Z.testbit y 7); cbn [xorb]; apply Z.bits_inj'; intros n _; rewrite !Z.lxor_spec, ?Z.bits_0;
    destruct (Z.testbit a n), (Z.testbit b n), (Z.testbit 0x1d n); done.
Qed.

Lemma power_lxor k x y : power k (x .^ y) = power k x .^ power k y.
Proof. revert x y. induction k as [|k IH]; intros x y; [done|]. cbn [power]. by rewrite xt_lxor, IH. Qed.
Lemma power_0 k : power k 0 = 0.
Proof. induction k as [|k IH]; [done|]. exact IH. Qed.
Lemma power_add j k x : power (j + k) x = power k (power j x).
Proof. revert x. induction j as [|j IH]; intros x; [done|]. apply IH. Qed.

(** The tables. *)
Lemma alpha_ok k : 0 <= k < 255 -> 0 < alpha k < 256 /\ log (alpha k) = k /\ xt (alpha k) = alpha ((k + 1) mod 255).
Proof.
  intros Hk. pose proof field_checked as H. unfold field_check in H. do 3 apply andb_true_iff in H as [H _].
  pose proof (all_below_spec _ _ H k Hk) as Hc. cbv beta in Hc. rewrite !andb_true_iff, !Z.ltb_lt, !Z.eqb_eq in Hc. tauto.
Qed.
Lemma log_ok x : 0 < x < 256 -> 0 <= log x < 255 /\ alpha (log x) = x.
Proof.
  intros Hx. pose proof field_checked as H. unfold field_check in H. do 2 apply andb_true_iff in H as [H _]. apply andb_true_iff in H as [_ H].
  pose proof (all_below_spec _ _ H x ltac:(lia)) as Hc. cbv beta in Hc. destruct (Z.eqb_spec x 0); [lia|].
  rewrite !andb_true_iff, Z.leb_le, Z.ltb_lt, Z.eqb_eq in Hc. tauto.
Qed.
Lemma log_0 : log 0 = 255.
Proof.
  pose proof field_checked as H. unfold field_check in H. do 2 apply andb_true_iff in H as [H _]. apply andb_true_iff in H as [_ H].
  pose proof (all_below_spec _ _ H 0 ltac:(lia)) as Hc. by apply Z.eqb_eq in Hc.
Qed.
Lemma alpha_0 : alpha 0 = 1.
Proof. pose proof field_checked as H. unfold field_check in H. apply andb_true_iff in H as [H _]. apply andb_true_iff in H as [_ H]. by apply Z.eqb_eq in H. Qed.

Lemma power_alpha k j : 0 <= j < 255 -> power k (alpha j) = alpha ((j + Z.of_nat k) mod 255).
Proof.
  revert j. induction k as [|k IH]; intros j Hj; cbn [power].
  - rewrite Z.add_0_r. by rewrite Z.mod_small.
  - destruct (alpha_ok j Hj) as (_ & _ & ->). rewrite IH by (apply Z.mod_pos_bound; lia).
    f_equal. rewrite Zplus_mod_idemp_l. f_equal. lia.
Qed.

Lemma power_byte k x : byte x -> byte (power k x).
Proof.
  intros Hx. destruct (decide (x = 0)) as [->|]; [by rewrite power_0|].
  destruct (log_ok x) as [Hl E]; [unfold byte in Hx; lia|]. rewrite <- E, power_alpha by done.
  destruct (alpha_ok ((log x + Z.of_nat k) mod 255)) as [Hr _]; [apply Z.mod_pos_bound; lia|]. unfold byte. lia.
Qed.

Lemma scale_power k x : 0 <= k < 2 ^ 31 -> byte x -> scale k x = power (Z.to_nat k) x.
Proof.
  intros Hk Hx. unfold scale. destruct (Z.eqb_spec x 0) as [->|]; [by rewrite power_0|].
  destruct (log_ok x) as [Hl E]; [unfold byte in Hx; lia|].
  rewrite modnn_codec by lia. rewrite <- E at 2. rewrite power_alpha by done. do 2 f_equal. lia.
Qed.

Lemma lxor_byte x y : byte x -> byte y -> byte (x .^ y).
Proof. apply (lxor_range x y 8). lia. Qed.

(** ** Polynomials *)

Lemma horner_from i a l : fold_left (fun s x => power i s .^ x) l a = power (i * length l) a .^ horner i l.
Proof.
  unfold horner. revert a. induction l as [|x l IH]; intros a; cbn [fold_left length].
  - rewrite Nat.mul_0_r. cbn [power]. by rewrite Z.lxor_0_r.
  - rewrite IH, (IH (power i 0 .^ x)), power_0, Z.lxor_0_l, power_lxor, <- power_add, Z.lxor_assoc.
    do 2 f_equal. lia.
Qed.
Lemma horner_cons i x l : horner i (x :: l) = power (i * length l) x .^ horner i l.
Proof. unfold horner at 1. cbn [fold_left]. rewrite power_0, Z.lxor_0_l. apply horner_from. Qed.
Lemma horner_app i l1 l2 : horner i (l1 ++ l2) = power (i * length l2) (horner i l1) .^ horner i l2.
Proof. unfold horner at 1. rewrite fold_left_app. apply horner_from. Qed.
Lemma horner_snoc i l x : horner i (l ++ [x]) = power i (horner i l) .^ x.
Proof. rewrite horner_app. cbn [length]. rewrite Nat.mul_1_r. f_equal. unfold horner. cbn [fold_left]. by rewrite power_0, Z.lxor_0_l. Qed.
Lemma horner_lxor i l1 l2 : length l1 = length l2 -> horner i (zip_with Z.lxor l1 l2) = horner i l1 .^ horner i l2.
Proof.
  revert l2. induction l1 as [|x l1 IH]; intros [|y l2] Hl; try done. cbn [zip_with].
  rewrite !horner_cons, IH, power_lxor by by injection Hl.
  rewrite length_zip_with. injection Hl as ->. rewrite Nat.min_id.
  apply Z.bits_inj'. intros n _. rewrite !Z.lxor_spec. set (a := Z.testbit (power _ x) n). set (b := Z.testbit (power _ y) n).
  destruct a, b, (Z.testbit (horner i l1) n), (Z.testbit (horner i l2) n); done.
Qed.
Lemma horner_zeros i n : horner i (replicate n 0) = 0.
Proof. induction n as [|n IH]; [done|]. cbn [replicate]. by rewrite horner_cons, IH, power_0. Qed.

(** ** The encoder makes codewords *)

Lemma coefficient_range j : 0 <= j < 21 -> 0 <= (genpoly codec).[j] < 255.
Proof.
  intros Hj. pose proof (all_below_spec _ _ coefficients_checked j ltac:(lia)) as H. cbv beta in H. zbool. lia.
Qed.

Lemma encode_step_spec bb x : length bb = 20%nat -> Forall byte bb -> byte x ->
  encode_step codec bb x = zip_with Z.lxor (drop 1 bb ++ [0]) (generator (x .^ bb.[0])).
Proof.
  intros Hl Hb Hx. destruct bb as [|b0 t]; [done|]. injection Hl as Hl. inversion Hb as [|? ? Hb0 Ht]. subst.
  unfold encode_step. change ((b0 :: t).[0]) with b0. change (drop 1 (b0 :: t)) with t. set (f := x .^ b0).
  assert (byte f) as Hf by by apply lxor_byte. fold (log f).
  destruct codec_fields as (_ & Hnn & Hnr & _). unfold A0. rewrite Hnn.
  unfold generator. rewrite (map_zseq_snoc _ 19), zip_with_app, zip_with_zseq by (rewrite ?length_map, ?length_zseq; done).
  destruct (decide (f = 0)) as [->|Hn].
  - rewrite log_0. cbn [Z.eqb Pos.eqb negb]. change (drop 1 (b0 :: t)) with t. f_equal.
    apply list_eq. intros i. rewrite list_lookup_imap. destruct (t !! i); [|done]. cbn. by rewrite Z.lxor_0_r.
  - destruct (log_ok f) as [Hlog _]; [unfold byte in Hf; lia|]. destruct (Z.eqb_spec (log f) 255); [lia|]. cbn [negb].
    unfold add_feedback. rewrite imap_cons, Hnr. change (drop 1 (?a :: ?l)) with l. unfold scale.
    rewrite (proj2 (Z.eqb_neq f 0) Hn). apply (f_equal2 app).
    + apply list_eq. intros i. rewrite !list_lookup_imap. destruct (t !! i) as [y|]; [|done].
      cbn [option_map fmap option_fmap compose]. destruct (Z.eqb_spec (Z.of_nat (S i)) 0); [lia|].
      replace (20 - Z.of_nat (S i)) with (19 - Z.of_nat i) by lia. unfold alpha. reflexivity.
    + cbn [zip_with]. rewrite Z.lxor_0_l. unfold alpha. reflexivity.
Qed.

(** The parity so far is the remainder of the message so far: both have the
    same values at the roots of the generator. *)
Definition remainder_of (l bb : list Z) : Prop :=
  length bb = 20%nat /\ Forall byte bb /\
  forall i, (i < 20)%nat -> horner i bb = power (20 * i) (horner i l).

Lemma generator_bytes f : byte f -> Forall byte (generator f) /\ length (generator f) = 20%nat.
Proof.
  intros Hf. unfold generator. split; [|by rewrite length_map, length_zseq].
  apply Forall_map, Forall_forall. intros j Hj. apply list_elem_of_In, in_map_iff in Hj as (n & <- & Hn). apply in_seq in Hn.
  pose proof (coefficient_range (19 - Z.of_nat n) ltac:(lia)).
  rewrite scale_power by (done || lia). by apply power_byte.
Qed.

(** A linear map on bytes is known by its values on the powers of two. *)
Lemma byte_bits : all_below 256 (fun f =>
  f =? fold_right (fun b acc => (if Z.testbit f b then 2 ^ b else 0) .^ acc) 0 (zseq 0 8)) = true.
Proof. vm_compute. reflexivity. Qed.

Lemma linear_ext (F G : Z -> Z) :
  (forall x y, byte x -> byte y -> F (x .^ y) = F x .^ F y) -> (forall x y, byte x -> byte y -> G (x .^ y) = G x .^ G y) ->
  F 0 = 0 -> G 0 = 0 -> (forall b, In b (zseq 0 8) -> F (2 ^ b) = G (2 ^ b)) ->
  forall f, byte f -> F f = G f.
Proof.
  intros HF HG HF0 HG0 Hb f Hf. pose proof (all_below_spec _ _ byte_bits f Hf) as E. apply Z.eqb_eq in E. rewrite E at 1 2.
  assert (forall b, In b (zseq 0 8) -> byte (2 ^ b)) as Hpow.
  { intros b Hin. cbn in Hin. repeat (destruct Hin as [<-|Hin]; [done|]). destruct Hin. }
  assert (forall l, (forall b, In b l -> In b (zseq 0 8)) ->
    let v := fold_right (fun b acc => (if Z.testbit f b then 2 ^ b else 0) .^ acc) 0 l in byte v /\ F v = G v) as H.
  { induction l as [|b l IH]; intros Hl; [cbn [fold_right]; by rewrite HF0, HG0|]. cbn [fold_right].
    destruct IH as [IH1 IH2]; [intros x Hx; apply Hl; by right|]. specialize (Hl b (or_introl eq_refl)).
    destruct (Z.testbit f b); [|by rewrite Z.lxor_0_l].
    split; [apply lxor_byte; [by apply Hpow|done]|]. rewrite HF, HG by (done || by apply Hpow). by rewrite Hb, IH2. }
  by apply H.
Qed.

Lemma generator_lxor x y : byte x -> byte y -> generator (x .^ y) = zip_with Z.lxor (generator x) (generator y).
Proof.
  intros Hx Hy. apply list_eq. intros j. unfold AtscReedSolomon.generator. rewrite lookup_zip_with, !list_lookup_fmap.
  destruct (zseq 0 20 !! j) as [k|] eqn:E; [|done]. cbn [fmap option_fmap option_map mbind option_bind]. f_equal.
  unfold zseq in E. rewrite list_lookup_fmap in E. destruct (seq 0 20 !! j) eqn:Ej; [|done]. injection E as <-.
  apply lookup_seq in Ej as [-> Hj]. pose proof (coefficient_range (19 - Z.of_nat (0 + j)) ltac:(lia)).
  rewrite !scale_power by (done || lia || by apply lxor_byte). apply power_lxor.
Qed.

Lemma generator_0 : generator 0 = replicate 20 0.
Proof. reflexivity. Qed.

Lemma generator_bit b i : In b (zseq 0 8) -> (i < 20)%nat -> horner i (generator (2 ^ b)) = power (20 * i) (2 ^ b).
Proof.
  intros Hb Hi. assert (i ∈ seq 0 20) as Hs by (apply elem_of_seq; lia). apply list_elem_of_In in Hb.
  pose proof (forallb_elem _ _ _ (forallb_elem _ _ _ (@generator_checked codec _) Hb) Hs) as H.
  cbv beta in H. by apply Z.eqb_eq in H.
Qed.

(** The generator is zero at its roots. *)
Lemma generator_root i f : (i < 20)%nat -> byte f -> horner i (generator f) = power (20 * i) f.
Proof.
  intros Hi. revert f. apply (linear_ext (fun f => horner i (generator f)) (power (20 * i))).
  - intros x y Hx Hy. rewrite generator_lxor by done. apply horner_lxor.
    by rewrite !(proj2 (generator_bytes _ ltac:(eassumption))).
  - intros x y _ _. apply power_lxor.
  - rewrite generator_0. apply horner_zeros.
  - apply power_0.
  - intros b Hb. by apply generator_bit.
Qed.

Lemma zip_lxor_bytes l1 l2 : Forall byte l1 -> Forall byte l2 -> Forall byte (zip_with Z.lxor l1 l2).
Proof.
  intros H1. revert l2. induction H1 as [|x l1 Hx H1 IH]; intros l2 H2; [constructor|].
  destruct H2 as [|y l2 Hy H2]; [constructor|]. constructor; [by apply lxor_byte|by apply IH].
Qed.

Lemma encode_step_remainder l bb x : byte x -> remainder_of l bb -> remainder_of (l ++ [x]) (encode_step codec bb x).
Proof.
  intros Hx (Hl & Hb & Hr). rewrite encode_step_spec by done. destruct bb as [|b0 t]; [done|].
  change ((b0 :: t).[0]) with b0. inversion Hb as [|? ? Hb0 Ht]. subst. injection Hl as Hl.
  pose proof (lxor_byte _ _ Hx Hb0) as Hf. destruct (generator_bytes _ Hf) as [Hgb Hgl].
  assert (length (t ++ [0]) = 20%nat) as Hlt by (rewrite length_app; cbn; lia).
  change (drop 1 (b0 :: t)) with t. split; [by rewrite length_zip_with, Hlt, Hgl|]. split.
  - apply zip_lxor_bytes; [apply Forall_app; split; [done|by repeat constructor]|done].
  - intros i Hi. rewrite horner_lxor by lia. rewrite !horner_snoc, Z.lxor_0_r.
    rewrite generator_root by done.
    specialize (Hr i Hi). rewrite horner_cons, Hl in Hr.
    assert (horner i t = power (i * 19) b0 .^ power (20 * i) (horner i l)) as ->.
    { rewrite <- Hr, <- Z.lxor_assoc, Z.lxor_nilpotent. by rewrite Z.lxor_0_l. }
    rewrite !power_lxor, <- !power_add.
    replace (i * 19 + i)%nat with (20 * i)%nat by lia. replace (20 * i + i)%nat with (i + 20 * i)%nat by lia.
    apply Z.bits_inj'. intros n _. rewrite !Z.lxor_spec.
    destruct (Z.testbit (power (20 * i) b0) n), (Z.testbit (power (i + 20 * i) (horner i l)) n), (Z.testbit (power (20 * i) x) n); done.
Qed.

Lemma encode_remainder l : Forall byte l -> length l = 235%nat -> remainder_of l (encode_rs codec l).
Proof.
  intros Hl Hlen. unfold encode_rs. destruct codec_fields as (_ & Hnn & Hnr & _). rewrite Hnn, Hnr.
  rewrite take_ge by (rewrite Hlen; done).
  assert (forall l bb p, Forall byte l -> remainder_of p bb -> remainder_of (p ++ l) (fold_left (encode_step codec) l bb)) as H.
  { clear -AtscCode0. induction l as [|x l IH]; intros bb p Hl Hr; [by rewrite app_nil_r|].
    inversion Hl as [|? ? Hx Hl2]. subst. cbn [fold_left]. replace (p ++ x :: l) with ((p ++ [x]) ++ l) by by rewrite <- app_assoc.
    apply IH; [done|]. by apply encode_step_remainder. }
  apply (H l _ []); [done|]. split; [done|]. split; [apply Forall_replicate; split; reflexivity|].
  intros i _. rewrite horner_zeros. by rewrite power_0.
Qed.

(** ** Syndromes *)

Definition values (l : list Z) : list Z := map (fun i => horner i l) (seq 0 20).

Lemma horner_byte i l : Forall byte l -> byte (horner i l).
Proof.
  induction 1 as [|x l Hx Hl IH]; [done|]. rewrite horner_cons. apply lxor_byte; [by apply power_byte|done].
Qed.

Lemma syndrome_step_values l x : Forall byte l -> syndrome_step codec (values l) x = values (l ++ [x]).
Proof.
  intros Hl. unfold syndrome_step, values. destruct codec_fields as (_ & _ & _ & Hf & Hp & _). rewrite Hf, Hp.
  apply list_eq. intros i. rewrite list_lookup_imap, !list_lookup_fmap.
  destruct (decide (i < 20)%nat) as [Hi|Hi]; [|by rewrite !lookup_ge_None_2 by (rewrite length_seq; lia)].
  rewrite lookup_seq_lt by done. cbn [option_map fmap option_fmap Nat.add]. f_equal. rewrite horner_snoc.
  pose proof (horner_byte i l Hl) as Hb.
  pose proof (scale_power (Z.of_nat i) (horner i l) ltac:(lia) Hb) as Hs. unfold scale in Hs. rewrite Nat2Z.id in Hs.
  rewrite <- Hs. unfold log, alpha.
  destruct (horner i l =? 0); [by rewrite Z.lxor_0_l|]. rewrite Z.lxor_comm.
  by replace ((0 + Z.of_nat i) * 1) with (Z.of_nat i) by lia.
Qed.

Lemma syndromes_values l : Forall byte l -> length l = 255%nat -> syndromes codec l = values l.
Proof.
  intros Hl Hlen. unfold syndromes. destruct codec_fields as (_ & Hnn & Hnr & _). rewrite Hnn, Hnr.
  destruct l as [|x l]; [done|]. injection Hlen as Hlen. inversion Hl as [|? ? Hx Hl']. subst.
  change (drop 1 (x :: l)) with l. change ((x :: l).[0]) with x. rewrite take_ge by (rewrite Hlen; done).
  assert (replicate (Z.to_nat 20) x = values [x]) as ->.
  { apply list_eq. intros i. unfold values. rewrite list_lookup_fmap. destruct (decide (i < 20)%nat) as [Hi|Hi].
    - rewrite lookup_replicate_2, lookup_seq_lt by done. cbn [option_map fmap option_fmap]. f_equal.
      unfold horner. cbn [fold_left]. by rewrite power_0, Z.lxor_0_l.
    - by rewrite !lookup_ge_None_2 by (rewrite ?length_replicate, ?length_seq; lia). }
  change (x :: l) with ([x] ++ l). assert (Forall byte [x]) as Hp by by constructor.
  revert Hp. generalize [x] as p. clear Hx Hl Hlen Hnn Hnr. induction Hl' as [|y l Hy Hl IH]; intros p Hp.
  - by rewrite app_nil_r.
  - cbn [fold_left]. rewrite syndrome_step_values by done. rewrite IH by (apply Forall_app; split; [done|by constructor]).
    by rewrite <- app_assoc.
Qed.

Definition codeword (l : list Z) : Prop := length l = 255%nat /\ Forall byte l /\ forall i, (i < 20)%nat -> horner i l = 0.

Lemma encode_codeword l : Forall byte l -> length l = 235%nat -> codeword (l ++ encode_rs codec l).
Proof.
  intros Hl Hlen. destruct (encode_remainder l Hl Hlen) as (Hn & Hb & Hr). split; [rewrite length_app; lia|].
  split; [by apply Forall_app|]. intros i Hi. rewrite horner_app, Hn, Hr by done.
  rewrite (Nat.mul_comm i 20). apply Z.lxor_nilpotent.
Qed.

Lemma values_codeword l : codeword l -> values l = replicate 20 0.
Proof.
  intros (_ & _ & H). apply list_eq. intros i. unfold values. rewrite list_lookup_fmap. destruct (decide (i < 20)%nat) as [Hi|Hi].
  - rewrite lookup_replicate_2, lookup_seq_lt by done. cbn [option_map fmap option_fmap]. f_equal. by apply H.
  - by rewrite !lookup_ge_None_2 by (rewrite ?length_replicate, ?length_seq; lia).
Qed.

Lemma decode_codeword l : codeword l -> decode_rs codec l None 0 = (0, l, None).
Proof.
  intros H. unfold decode_rs. destruct H as (Hl & Hb & H). rewrite syndromes_values, values_codeword by done.
  reflexivity.
Qed.

(** ** One wrong byte *)

Lemma fold_left_skip {A B} (f : A -> B -> A) l a : (forall i, In i l -> forall a, f a i = a) -> fold_left f l a = a.
Proof.
  revert a. induction l as [|x l IH]; intros a H; [done|]. cbn [fold_left].
  rewrite H by by left. apply IH. intros i Hi. apply H. by right.
Qed.

(** A polynomial of degree one, and its coefficients. *)
Definition line (a b : Z) : list Z := a :: b :: replicate 19 0.
Lemma line_get a b i : 0 <= i -> (line a b).[i] = if i =? 0 then a else if i =? 1 then b else 0.
Proof.
  intros Hi. unfold line. destruct (Z.eqb_spec i 0) as [->|]; [done|]. destruct (Z.eqb_spec i 1) as [->|]; [done|].
  unfold aget. destruct (Z.ltb_spec i 0); [lia|].
  replace (Z.to_nat i) with (S (S (Z.to_nat (i - 2)))) by lia. cbn [lookup list_lookup].
  destruct (replicate 19 0 !! Z.to_nat (i - 2)) as [x|] eqn:E; [|done]. apply lookup_replicate in E as [-> _]. done.
Qed.

(** The syndromes of one error of value [alpha lv] at the power [n], in index form. *)
Definition syndrome_log (lv n i : Z) : Z := (lv + i * n) mod 255.
Definition error_syndromes (lv n : Z) : list Z := map (syndrome_log lv n) (zseq 0 20).

Lemma syndrome_range lv n i : 0 <= syndrome_log lv n i < 255.
Proof. apply Z.mod_pos_bound. lia. Qed.
Lemma error_syndrome lv n i : 0 <= i < 20 -> (error_syndromes lv n).[i] = syndrome_log lv n i.
Proof. intros Hi. unfold error_syndromes. by rewrite map_zseq_get by lia. Qed.

Lemma alpha_mul j k : 0 <= j < 255 -> 0 <= k < 255 -> alpha (MODNN codec (j + k)) = power (Z.to_nat k) (alpha j).
Proof. intros Hj Hk. rewrite modnn_codec, power_alpha by lia. do 2 f_equal. lia. Qed.

Lemma alpha_syndrome lv n i : 0 <= lv < 255 -> 0 <= n < 255 -> 0 <= i ->
  alpha (MODNN codec (n + syndrome_log lv n i)) = alpha (syndrome_log lv n (i + 1)).
Proof.
  intros Hl Hn Hi. pose proof (syndrome_range lv n i). rewrite modnn_codec by lia. f_equal.
  unfold syndrome_log. rewrite Zplus_mod_idemp_r. f_equal. lia.
Qed.

Lemma log_alpha k : 0 <= k < 255 -> log (alpha k) = k.
Proof. intros Hk. by destruct (alpha_ok k Hk) as (_ & ? & _). Qed.

Lemma discrepancy_line m x lv n : 1 <= m <= 20 -> (m <> 1 -> 0 < x < 256) ->
  discrepancy codec m (line 1 x) (error_syndromes lv n) =
  alpha (syndrome_log lv n (m - 1)) .^ (if m =? 1 then 0 else alpha (MODNN codec (log x + syndrome_log lv n (m - 2)))).
Proof.
  intros Hm Hx. unfold discrepancy, A0. destruct codec_fields as (_ & Hnn & _). rewrite Hnn.
  pose proof (syndrome_range lv n (m - 1)) as H1. pose proof (syndrome_range lv n (m - 2)) as H2.
  assert (forall i, 0 <= i < m -> (error_syndromes lv n).[m - i - 1] = syndrome_log lv n (m - i - 1)) as Hs
    by (intros; apply error_syndrome; lia).
  assert (log 1 = 0) as Hlog by (rewrite <- alpha_0; apply log_alpha; lia).
  assert (forall l a, (forall i, In i l -> 2 <= i) ->
    fold_left (fun discr i => if ctrue (line 1 x).[i] && negb ((error_syndromes lv n).[m - i - 1] =? 255)
      then discr .^ (alpha_to codec).[MODNN codec ((index_of codec).[(line 1 x).[i]] + (error_syndromes lv n).[m - i - 1])]
      else discr) l a = a) as Hskip.
  { intros l a Hl. apply fold_left_skip. intros i Hi acc. specialize (Hl i Hi). rewrite line_get by lia.
    destruct (Z.eqb_spec i 0); [lia|]. destruct (Z.eqb_spec i 1); [lia|]. reflexivity. }
  assert ((alpha_to codec).[MODNN codec (0 + syndrome_log lv n (m - 1))] = alpha (syndrome_log lv n (m - 1))) as E0.
  { rewrite modnn_codec, Z.mod_small by lia. reflexivity. }
  destruct (Z.eqb_spec m 1) as [->|Hm1].
  - change (Z.to_nat 1) with 1%nat. unfold zseq. cbn [seq map fold_left]. change (Z.of_nat 0) with 0. rewrite Hs, line_get by lia.
    change (1 - 0 - 1) with (1 - 1). cbn [Z.eqb]. rewrite (proj2 (Z.eqb_neq (syndrome_log lv n (1 - 1)) 255)) by lia.
    change (ctrue 1) with true. cbn [andb negb].
    change ((index_of codec).[1]) with (log 1). rewrite Hlog.
    by rewrite E0, Z.lxor_0_l, Z.lxor_0_r.
  - replace (Z.to_nat m) with (S (S (Z.to_nat (m - 2)))) by lia. unfold zseq. cbn [seq map fold_left].
    rewrite Hskip by (intros i Hi; apply in_map_iff in Hi as (j & <- & Hj); apply in_seq in Hj; lia).
    change (Z.of_nat 0) with 0. change (Z.of_nat 1) with 1. rewrite !Hs, !line_get by lia. cbn [Z.eqb].
    replace (m - 0 - 1) with (m - 1) by lia. replace (m - 1 - 1) with (m - 2) by lia.
    change (1 =? 1)%positive with true. cbv iota.
    rewrite (proj2 (Z.eqb_neq (syndrome_log lv n (m - 1)) 255)), (proj2 (Z.eqb_neq (syndrome_log lv n (m - 2)) 255)) by lia.
    change (ctrue 1) with true. assert (ctrue x = true) as -> by (apply ctrue_spec; lia). cbn [andb negb].
    change ((index_of codec).[1]) with (log 1). rewrite Hlog.
    rewrite E0, Z.lxor_0_l. reflexivity.
Qed.

Lemma log_1 : log 1 = 0.
Proof. rewrite <- alpha_0. apply log_alpha. lia. Qed.

Lemma next_lambda_line discr x b0 : 0 <= b0 < 255 ->
  next_lambda codec discr (line 1 x) (b0 :: replicate 20 255) = line 1 (x .^ alpha (MODNN codec (discr + b0))).
Proof.
  intros Hb. unfold next_lambda, A0. destruct codec_fields as (_ & Hnn & Hnr & _). rewrite Hnn, Hnr.
  change (Z.to_nat 20) with 20%nat. unfold line at 1 3. f_equal. rewrite (map_zseq_S _ 19). f_equal.
  change ((b0 :: replicate 20 255).[0]) with b0. rewrite (proj2 (Z.eqb_neq b0 255)) by lia. reflexivity.
Qed.

(** The first step finds the error value, the second the location. *)
Lemma step_1 lv n : 0 <= lv < 255 -> 0 <= n < 255 ->
  berlekamp_step codec 0 (error_syndromes lv n) (0, line 1 0, 0 :: replicate 20 255) 1 =
  (1, line 1 (alpha lv), (255 - lv) mod 255 :: replicate 20 255).
Proof.
  intros Hl Hn. unfold berlekamp_step. rewrite discrepancy_line by lia. cbn [Z.eqb Pos.eqb].
  assert (syndrome_log lv n (1 - 1) = lv) as -> by (unfold syndrome_log; rewrite Z.add_0_r; by apply Z.mod_small).
  rewrite Z.lxor_0_r. change ((index_of codec).[alpha lv]) with (log (alpha lv)). rewrite log_alpha by done.
  unfold A0. destruct codec_fields as (_ & Hnn & _). rewrite Hnn. rewrite (proj2 (Z.eqb_neq lv 255)) by lia.
  rewrite next_lambda_line, Z.lxor_0_l by lia. change (2 * 0 <=? 1 + 0 - 1) with true. cbv iota.
  rewrite (Z.add_0_r lv), (modnn_codec lv), (Z.mod_small lv) by lia. f_equal.
  change (line 1 0) with (1 :: replicate 20 0). cbn [map replicate]. change (1 =? 0) with false. cbv iota.
  change ((index_of codec).[1]) with (log 1). rewrite log_1, modnn_codec by lia. do 2 f_equal. lia.
Qed.

Lemma step_2 lv n : 0 <= lv < 255 -> 0 <= n < 255 ->
  exists b, berlekamp_step codec 0 (error_syndromes lv n) (1, line 1 (alpha lv), (255 - lv) mod 255 :: replicate 20 255) 2 =
    (1, line 1 (alpha n), b).
Proof.
  intros Hl Hn. destruct (alpha_ok lv Hl) as (Hr & Hlog & _). unfold berlekamp_step. rewrite discrepancy_line by lia. cbn [Z.eqb Pos.eqb].
  change (2 - 1) with 1. change (2 - 2) with 0. rewrite Hlog.
  assert (syndrome_log lv n 0 = lv) as -> by (unfold syndrome_log; rewrite Z.add_0_r; by apply Z.mod_small).
  assert (alpha (syndrome_log lv n 1) = power (Z.to_nat lv) (alpha n)) as ->.
  { rewrite power_alpha by done. f_equal. unfold syndrome_log. f_equal. lia. }
  rewrite alpha_mul, <- power_lxor by done. set (d := alpha n .^ alpha lv).
  unfold A0. destruct codec_fields as (_ & Hnn & _). rewrite Hnn.
  destruct (alpha_ok n Hn) as (Hrn & Hlogn & _).
  assert (byte d) as Hd by (apply lxor_byte; unfold byte; lia).
  destruct (decide (d = 0)) as [E|Hne].
  - rewrite E, power_0. change ((index_of codec).[0]) with (log 0). rewrite log_0, Z.eqb_refl. eexists. do 3 f_equal.
    apply Z.lxor_eq in E. by rewrite E.
  - pose proof (power_byte (Z.to_nat lv) d Hd) as Hp.
    assert (power (Z.to_nat lv) d <> 0) as Hp0.
    { destruct (log_ok d) as [Hld Ed]; [unfold byte in Hd; lia|]. rewrite <- Ed, power_alpha by done.
      destruct (alpha_ok ((log d + Z.of_nat (Z.to_nat lv)) mod 255)) as [? _]; [apply Z.mod_pos_bound|]; lia. }
    change ((index_of codec).[power (Z.to_nat lv) d]) with (log (power (Z.to_nat lv) d)).
    destruct (log_ok (power (Z.to_nat lv) d)) as [Hlp Ep]; [unfold byte in Hp; lia|].
    rewrite (proj2 (Z.eqb_neq (log (power (Z.to_nat lv) d)) 255)) by lia.
    change (2 * 1 <=? 2 + 0 - 1) with false. cbv iota.
    pose proof (Z.mod_pos_bound (255 - lv) 255 ltac:(lia)) as Hb.
    rewrite next_lambda_line by done. eexists. do 3 f_equal.
    rewrite alpha_mul, Ep, <- power_add by done.
    assert (power (Z.to_nat lv + Z.to_nat ((255 - lv) mod 255)) d = d) as ->.
    { destruct (log_ok d) as [Hld Ed]; [unfold byte in Hd; lia|]. rewrite <- Ed at 2. rewrite <- Ed at 1. rewrite power_alpha by done. f_equal.
      destruct (decide (lv = 0)) as [->|].
      - change ((255 - 0) mod 255) with 0. cbn. rewrite Z.add_0_r. by apply Z.mod_small.
      - rewrite (Z.mod_small (255 - lv)) by lia. replace (log d + Z.of_nat (Z.to_nat lv + Z.to_nat (255 - lv))) with (log d + 1 * 255) by lia.
        rewrite Z_mod_plus_full. by apply Z.mod_small. }
    unfold d. rewrite Z.lxor_comm, Z.lxor_assoc, Z.lxor_nilpotent. apply Z.lxor_0_r.
Qed.

Lemma steps_rest lv n l : 0 <= lv < 255 -> 0 <= n < 255 -> (forall m, In m l -> 2 < m <= 20) -> forall el b,
  exists b', fold_left (berlekamp_step codec 0 (error_syndromes lv n)) l (el, line 1 (alpha n), b) = (el, line 1 (alpha n), b').
Proof.
  intros Hl Hn. destruct (alpha_ok n Hn) as (Hrn & Hlogn & _).
  induction l as [|m l IH]; intros Hm el b; [by exists b|]. cbn [fold_left].
  assert (exists b1, berlekamp_step codec 0 (error_syndromes lv n) (el, line 1 (alpha n), b) m = (el, line 1 (alpha n), b1)) as (b1 & ->).
  { specialize (Hm m (or_introl eq_refl)). unfold berlekamp_step. rewrite discrepancy_line by lia.
    rewrite (proj2 (Z.eqb_neq m 1)) by lia. rewrite Hlogn, alpha_syndrome by lia. replace (m - 2 + 1) with (m - 1) by lia.
    rewrite Z.lxor_nilpotent. change ((index_of codec).[0]) with (log 0). rewrite log_0. unfold A0.
    destruct codec_fields as (_ & Hnn & _). rewrite Hnn, Z.eqb_refl. by eexists. }
  apply IH. intros x Hx. apply Hm. by right.
Qed.

Lemma berlekamp_one lv n : 0 <= lv < 255 -> 0 <= n < 255 ->
  berlekamp codec 0 (error_syndromes lv n) (line 1 0) = line 1 (alpha n).
Proof.
  intros Hl Hn. unfold berlekamp.
  assert (map (fun x => (index_of codec).[x]) (line 1 0) = 0 :: replicate 20 255) as ->.
  { unfold line. cbn [map replicate]. change ((index_of codec).[1]) with (log 1). change ((index_of codec).[0]) with (log 0).
    by rewrite log_1, log_0. }
  destruct codec_fields as (_ & _ & Hnr & _). rewrite Hnr. change (zseq (Z.to_nat (0 + 1)) (Z.to_nat (20 - 0))) with (1 :: 2 :: zseq 3 18).
  cbn [fold_left]. rewrite step_1 by done. destruct (step_2 lv n Hl Hn) as (b & ->).
  destruct (steps_rest lv n (zseq 3 18) Hl Hn) with (el := 1) (b := b) as (b' & ->); [|done].
  intros m Hm. apply in_map_iff in Hm as (j & <- & Hj). apply in_seq in Hj. lia.
Qed.

(** The locator in index form, and what it finds. *)
Definition locator (n : Z) : list Z := 0 :: n :: replicate 19 255.

Lemma locator_log n : 0 <= n < 255 -> map (fun x => (index_of codec).[x]) (line 1 (alpha n)) = locator n.
Proof.
  intros Hn. unfold line, locator. cbn [map replicate]. change ((index_of codec).[1]) with (log 1).
  change ((index_of codec).[alpha n]) with (log (alpha n)). change ((index_of codec).[0]) with (log 0).
  by rewrite log_1, log_0, log_alpha.
Qed.

Lemma degree_two p a b z k : p z = false -> degree p (a :: b :: replicate k z) = if p b then 1 else 0.
Proof.
  intros Hz. unfold degree. cbn [length]. rewrite length_replicate. unfold zseq. cbn [seq map fold_left].
  change ((a :: b :: replicate k z).[Z.of_nat 0]) with a. change ((a :: b :: replicate k z).[Z.of_nat 1]) with b.
  rewrite fold_left_skip; [by destruct (p a), (p b)|].
  intros i Hi acc. apply in_map_iff in Hi as (j & <- & Hj). apply in_seq in Hj.
  assert ((a :: b :: replicate k z).[Z.of_nat j] = z) as ->; [|by rewrite Hz].
  apply aget_lookup; [lia|]. replace (Z.to_nat (Z.of_nat j)) with (S (S (j - 2))) by lia. cbn [lookup list_lookup].
  apply lookup_replicate_2. lia.
Qed.

Lemma locator_degree n : 0 <= n < 255 -> degree (fun x => negb (x =? A0 codec)) (locator n) = 1.
Proof.
  intros Hn. unfold A0. destruct codec_fields as (_ & -> & _). unfold locator. rewrite degree_two by done.
  by rewrite (proj2 (Z.eqb_neq n 255)) by lia.
Qed.

Lemma alpha_one k : 0 <= k < 255 -> ctrue (1 .^ alpha k) = negb (k =? 0).
Proof.
  intros Hk. destruct (Z.eqb_spec k 0) as [->|Hne]; cbn [negb].
  - by rewrite alpha_0.
  - apply ctrue_spec. intros E. apply Z.lxor_eq in E. apply Hne. rewrite <- (log_alpha k), <- E by done. apply log_1.
Qed.

(** One step of the search, and the search from [i] on: the locator is zero at
    the power [255 - n]. *)
Lemma chien_step i l k x a : 0 <= x < 255 ->
  chien codec (i :: l) 1 k 0 (0 :: x :: a) =
  if x + 1 =? 255 then [(i, k)] else chien codec l 1 (MODNN codec (k + 1)) 0 (0 :: x + 1 :: a).
Proof.
  intros Hx. destruct codec_fields as (_ & Hnn & _ & _ & _ & Hip). cbn [chien].
  change (rev (zseq 1 (Z.to_nat 1))) with [1]. cbn [chien_terms]. unfold A0. rewrite Hnn, Hip.
  change ((0 :: x :: a).[1]) with x. rewrite (proj2 (Z.eqb_neq x 255)) by lia. cbn [negb].
  change ((0 :: x :: a).[1 <- MODNN codec (x + 1)]) with (0 :: MODNN codec (x + 1) :: a).
  change ((0 :: MODNN codec (x + 1) :: a).[1]) with (MODNN codec (x + 1)). rewrite modnn_codec by lia.
  change ((alpha_to codec).[(x + 1) mod 255]) with (alpha ((x + 1) mod 255)).
  rewrite alpha_one by (apply Z.mod_pos_bound; lia). destruct (Z.eqb_spec (x + 1) 255) as [->|].
  - done.
  - rewrite Z.mod_small by lia. by rewrite (proj2 (Z.eqb_neq (x + 1) 0)) by lia.
Qed.

Lemma chien_one k n i a : 0 <= n < 255 -> 1 <= i -> i + Z.of_nat k = 255 - n ->
  chien codec (zseq (Z.to_nat i) (S k + Z.to_nat n)) 1 (i - 1) 0 (0 :: (n + i - 1) :: a) = [(255 - n, 254 - n)].
Proof.
  intros Hn. revert i. induction k as [|k IH]; intros i Hi Hk; cbn [Nat.add];
    change (zseq (Z.to_nat i) (S ?j)) with (Z.of_nat (Z.to_nat i) :: zseq (S (Z.to_nat i)) j);
    rewrite chien_step, (Z2Nat.id i) by lia.
  - destruct (Z.eqb_spec (n + i - 1 + 1) 255); [|lia]. replace (255 - n) with i by lia. by replace (254 - n) with (i - 1) by lia.
  - destruct (Z.eqb_spec (n + i - 1 + 1) 255); [lia|].
    specialize (IH (i + 1) ltac:(lia) ltac:(lia)). replace (Z.to_nat (i + 1)) with (S (Z.to_nat i)) in IH by lia.
    rewrite modnn_codec, (Z.mod_small (i - 1 + 1)) by lia.
    replace (i - 1 + 1) with (i + 1 - 1) by lia. replace (n + i - 1 + 1) with (n + (i + 1) - 1) by lia. exact IH.
Qed.

Lemma chien_found n : 0 <= n < 255 -> chien codec (zseq 1 255) 1 (1 - 1) 0 (locator n) = [(255 - n, 254 - n)].
Proof.
  intros Hn. unfold locator. pose proof (chien_one (Z.to_nat (254 - n)) n 1 (replicate 19 255) Hn ltac:(lia) ltac:(lia)) as H.
  replace (S (Z.to_nat (254 - n)) + Z.to_nat n)%nat with 255%nat in H by lia.
  replace (n + 1 - 1) with n in H by lia. exact H.
Qed.

Lemma omega_one lv n i : 0 <= lv < 255 -> 0 <= n < 255 -> 0 <= i < 20 ->
  omega_coefficient codec 1 (error_syndromes lv n) (locator n) i = if i =? 0 then alpha lv else 0.
Proof.
  intros Hl Hn Hi. unfold omega_coefficient, A0. destruct codec_fields as (_ & Hnn & _). rewrite Hnn.
  pose proof (syndrome_range lv n i) as H1. pose proof (syndrome_range lv n (i - 1)) as H2.
  destruct (Z.eqb_spec i 0) as [->|Hne].
  - change (rev (zseq 0 (Z.to_nat (Z.min 1 0 + 1)))) with [0]. cbn [fold_left]. change (0 - 0) with 0.
    rewrite error_syndrome by lia. rewrite (proj2 (Z.eqb_neq (syndrome_log lv n 0) 255)) by lia.
    change ((locator n).[0]) with 0. cbn [negb andb Z.eqb].
    assert (syndrome_log lv n 0 = lv) as -> by (unfold syndrome_log; rewrite Z.add_0_r; by apply Z.mod_small).
    rewrite modnn_codec, Z.add_0_r, Z.mod_small by lia. apply Z.lxor_0_l.
  - rewrite Z.min_l by lia. change (rev (zseq 0 (Z.to_nat (1 + 1)))) with [1; 0]. cbn [fold_left]. rewrite !error_syndrome by lia.
    replace (i - 0) with i by lia.
    rewrite (proj2 (Z.eqb_neq (syndrome_log lv n i) 255)), (proj2 (Z.eqb_neq (syndrome_log lv n (i - 1)) 255)) by lia.
    change ((locator n).[0]) with 0. change ((locator n).[1]) with n. rewrite (proj2 (Z.eqb_neq n 255)) by lia. cbn [negb andb Z.eqb].
    change ((alpha_to codec).[MODNN codec (syndrome_log lv n (i - 1) + n)]) with (alpha (MODNN codec (syndrome_log lv n (i - 1) + n))).
    rewrite (Z.add_comm _ n), alpha_syndrome, Z.lxor_0_l by lia. replace (i - 1 + 1) with i by lia.
    rewrite modnn_codec, Z.add_0_r, (Z.mod_small (syndrome_log lv n i)) by lia. apply Z.lxor_nilpotent.
Qed.

Lemma evaluator_one lv n : 0 <= lv < 255 -> 0 <= n < 255 ->
  evaluator codec 1 (error_syndromes lv n) (locator n) = (lv :: replicate 20 255, 0).
Proof.
  intros Hl Hn. unfold evaluator. destruct codec_fields as (_ & Hnn & Hnr & _). rewrite Hnr.
  assert (map (omega_coefficient codec 1 (error_syndromes lv n) (locator n)) (zseq 0 (Z.to_nat 20)) = alpha lv :: replicate 19 0) as ->.
  { change (Z.to_nat 20) with (S 19). rewrite map_zseq_S, omega_one by lia. f_equal.
    assert (replicate 19 0 = map (fun _ => 0) (zseq 0 19)) as -> by done.
    apply map_ext_in. intros i Hi. apply in_map_iff in Hi as (j & <- & Hj). apply in_seq in Hj.
    rewrite omega_one by lia. by rewrite (proj2 (Z.eqb_neq (Z.of_nat j + 1) 0)) by lia. }
  assert (degree ctrue (alpha lv :: replicate 19 0) = 0) as -> by exact (degree_two ctrue (alpha lv) 0 0 18 eq_refl).
  cbn [map replicate app]. change ((index_of codec).[alpha lv]) with (log (alpha lv)). change ((index_of codec).[0]) with (log 0).
  rewrite log_alpha, log_0 by done. unfold A0. rewrite Hnn. reflexivity.
Qed.

(** Forney's formula gives the error back. *)
Lemma forney_one lv n l : 0 <= lv < 255 -> 0 <= n < 255 ->
  forney codec [(255 - n, 254 - n)] 1 (locator n) (lv :: replicate 20 255) 0 l =
  (true, l.[254 - n <- l.[254 - n] .^ alpha lv]).
Proof.
  intros Hl Hn. destruct codec_fields as (_ & Hnn & Hnr & Hf & _). cbn [forney].
  assert (numerator codec (lv :: replicate 20 255) 0 (255 - n) = alpha lv) as ->.
  { unfold numerator, A0. rewrite Hnn. change (rev (zseq 0 (Z.to_nat (0 + 1)))) with [0]. cbn [fold_left].
    change ((lv :: replicate 20 255).[0]) with lv. rewrite (proj2 (Z.eqb_neq lv 255)) by lia. cbn [negb].
    rewrite Z.lxor_0_l, Z.mul_0_l, Z.add_0_r, modnn_codec, Z.mod_small by lia. reflexivity. }
  assert (denominator codec 1 (locator n) (255 - n) = alpha n) as ->.
  { unfold denominator, A0. rewrite Hnn, Hnr. change (rev (zseq 0 (Z.to_nat (Z.min 1 (20 - 1) / 2 + 1)))) with [0]. cbn [fold_left].
    change (2 * 0) with 0. change (0 + 1) with 1. change ((locator n).[1]) with n. rewrite (proj2 (Z.eqb_neq n 255)) by lia. cbn [negb].
    rewrite Z.lxor_0_l, Z.mul_0_l, Z.add_0_r, modnn_codec, Z.mod_small by lia. reflexivity. }
  rewrite Hf, Hnn. replace ((255 - n) * (0 - 1) + 255) with n by lia. rewrite (modnn_codec n), (Z.mod_small n) by lia.
  destruct (alpha_ok n Hn) as (Hrn & Hlogn & _), (alpha_ok lv Hl) as (Hrl & Hlogl & _).
  rewrite (proj2 (Z.eqb_neq (alpha n) 0)) by lia. assert (ctrue (alpha lv) = true) as -> by (apply ctrue_spec; lia).
  change ((index_of codec).[alpha lv]) with (log (alpha lv)). change ((alpha_to codec).[n]) with (alpha n).
  change ((index_of codec).[alpha n]) with (log (alpha n)). rewrite Hlogn, Hlogl.
  replace (lv + n + 255 - n) with (lv + 1 * 255) by lia. rewrite modnn_codec, Z_mod_plus_full, Z.mod_small by lia. reflexivity.
Qed.

Lemma lor_zero l a : fold_left Z.lor l a = 0 -> a = 0.
Proof.
  revert a. induction l as [|x l IH]; intros a H; [done|]. cbn [fold_left] in H. apply IH in H.
  by apply Z.lor_eq_0_iff in H as [? _].
Qed.

Lemma middle (l1 : list Z) x l2 y :
  (l1 ++ x :: l2).[Z.of_nat (length l1)] = x /\ (l1 ++ x :: l2).[Z.of_nat (length l1) <- y] = l1 ++ y :: l2.
Proof.
  split.
  - apply aget_lookup; [lia|]. by rewrite Nat2Z.id, list_lookup_middle.
  - unfold aset. rewrite (proj2 (Z.ltb_ge _ 0)), Nat2Z.id by lia. by rewrite insert_app_r_alt, Nat.sub_diag by lia.
Qed.

Lemma lor_head x l : fold_left Z.lor (x :: l) 0 = 0 -> x = 0.
Proof. cbn [fold_left]. rewrite Z.lor_0_l. apply lor_zero. Qed.

Lemma syndromes_nonzero lv n : fold_left Z.lor (map alpha (error_syndromes lv n)) 0 <> 0.
Proof.
  unfold error_syndromes. rewrite (map_zseq_S _ 19). intros E. apply lor_head in E.
  destruct (alpha_ok (syndrome_log lv n 0) (syndrome_range _ _ _)) as [? _]. lia.
Qed.

Lemma decode_middle l1 x l2 v : codeword (l1 ++ x :: l2) -> 0 < v < 256 ->
  decode_rs codec (l1 ++ x .^ v :: l2) None 0 = (1, l1 ++ x :: l2, None).
Proof.
  intros (Hlen & Hb & H0) Hv. set (n := Z.of_nat (length l2)). rewrite length_app in Hlen. cbn [length] in Hlen.
  destruct (log_ok v Hv) as [Hlv Ev]. assert (0 <= n < 255) as Hn by lia.
  assert (254 - n = Z.of_nat (length l1)) as Hp by lia.
  apply Forall_app in Hb as [Hb1 Hb2]. inversion Hb2 as [|? ? Hx Hb2']. subst.
  assert (values (l1 ++ x .^ v :: l2) = map alpha (error_syndromes (log v) n)) as Hvals.
  { unfold values, error_syndromes. rewrite map_map. unfold zseq. rewrite map_map. apply map_ext_in. intros i Hi. apply in_seq in Hi.
    specialize (H0 i ltac:(lia)). rewrite horner_app, horner_cons in H0. rewrite horner_app, horner_cons, power_lxor.
    cbn [length] in *. rewrite <- Ev at 1. rewrite power_alpha by done.
    set (a := alpha ((log v + Z.of_nat (i * length l2)) mod 255)).
    assert (alpha (syndrome_log (log v) n (Z.of_nat i)) = a) as -> by (unfold a, syndrome_log; do 2 f_equal; lia).
    rewrite <- (Z.lxor_0_l a), <- H0 at 1. apply Z.bits_inj'. intros k _. rewrite !Z.lxor_spec.
    destruct (Z.testbit (power _ (horner i l1)) k), (Z.testbit (power _ x) k), (Z.testbit (horner i l2) k), (Z.testbit a k); done. }
  destruct codec_fields as (_ & Hnn & Hnr & _ & _ & Hip).
  assert (map (fun x => (index_of codec).[x]) (map alpha (error_syndromes (log v) n)) = error_syndromes (log v) n) as Es.
  { rewrite map_map. rewrite <- (map_id (error_syndromes (log v) n)) at 2. apply map_ext_in. intros i Hi.
    apply in_map_iff in Hi as (j & <- & _). apply log_alpha. apply syndrome_range. }
  apply (decode_rs_corrects codec _ (map alpha (error_syndromes (log v) n)) (line 1 (alpha n)) (locator n) 1
    [(255 - n, 254 - n)] (log v :: replicate 20 255) 0).
  - rewrite <- Hvals. apply syndromes_values; [|rewrite length_app; cbn [length]; lia].
    apply Forall_app. split; [done|]. constructor; [|done]. apply lxor_byte; [done|]. unfold byte. lia.
  - by apply syndromes_nonzero.
  - rewrite Es. unfold init_lambda. rewrite Hnr. by apply berlekamp_one.
  - by apply locator_log.
  - by apply locator_degree.
  - rewrite Hnn, Hip. by apply chien_found.
  - reflexivity.
  - rewrite Es. by apply evaluator_one.
  - cbn [rev app]. rewrite forney_one, Hp, Ev by done. destruct (middle l1 (x .^ v) l2 (x .^ v .^ v)) as [-> ->].
    by rewrite lxor_cancel.
Qed.

(** ** Packets *)

Lemma pad_length d : length (pad d) = (48 + length d)%nat.
Proof. unfold pad. by rewrite length_app, length_replicate. Qed.
Lemma pad_bytes d : Forall byte d -> Forall byte (pad d).
Proof. intros Hd. apply Forall_app. split; [|done]. by apply Forall_replicate. Qed.

Lemma packet_codeword d : Forall byte d -> length d = 187%nat -> codeword (pad (rs_encode codec d)).
Proof.
  intros Hd Hl. assert (pad (rs_encode codec d) = pad d ++ encode_rs codec (pad d)) as -> by (unfold pad, rs_encode; by rewrite app_assoc).
  apply encode_codeword; [by apply pad_bytes|]. by rewrite pad_length, Hl.
Qed.

Lemma rs_encode_length d : Forall byte d -> length d = 187%nat ->
  length (rs_encode codec d) = 207%nat /\ Forall byte (rs_encode codec d).
Proof.
  intros Hd Hl. destruct (packet_codeword d Hd Hl) as (Hn & Hb & _). rewrite pad_length in Hn.
  split; [lia|]. apply Forall_app in Hb. apply Hb.
Qed.

Lemma unpad d : length d = 187%nat ->
  take (Z.to_nat ATSC_MPEG_DATA_LENGTH) (drop (Z.to_nat amount_of_pad) (pad (rs_encode codec d))) = d.
Proof.
  intros Hl. unfold pad, rs_encode. rewrite drop_app_length' by by rewrite length_replicate.
  apply take_app_length'. by rewrite Hl.
Qed.

Lemma rs_decode_clean d : Forall byte d -> length d = 187%nat -> rs_decode codec (rs_encode codec d) = (0, d).
Proof.
  intros Hd Hl. unfold rs_decode. rewrite decode_codeword by by apply packet_codeword. by rewrite unpad.
Qed.

Lemma rs_decode_one d p v : Forall byte d -> length d = 187%nat -> 0 <= p < 207 -> 0 < v < 256 ->
  let sent := rs_encode codec d in rs_decode codec sent.[p <- sent.[p] .^ v] = (1, d).
Proof.
  intros Hd Hl Hp Hv sent. destruct (rs_encode_length d Hd Hl) as [Hn _]. fold sent in Hn.
  assert (exists l1 x l2, sent = l1 ++ x :: l2 /\ length l1 = Z.to_nat p) as (l1 & x & l2 & E & Hl1).
  { destruct (lookup_lt_is_Some_2 sent (Z.to_nat p)) as [x Hx]; [lia|]. exists (take (Z.to_nat p) sent), x, (drop (S (Z.to_nat p)) sent).
    split; [by rewrite take_drop_middle|]. rewrite length_take. lia. }
  assert (p = Z.of_nat (length l1)) as -> by lia. rewrite E.
  destruct (middle l1 x l2 (x .^ v)) as [-> ->]. unfold rs_decode.
  assert (pad (l1 ++ x .^ v :: l2) = pad l1 ++ x .^ v :: l2) as -> by (unfold pad; by rewrite app_assoc).
  pose proof (packet_codeword d Hd Hl) as Hc. fold sent in Hc. rewrite E in Hc.
  assert (pad (l1 ++ x :: l2) = pad l1 ++ x :: l2) as Ep by (unfold pad; by rewrite app_assoc).
  rewrite Ep in Hc. rewrite decode_middle by done. rewrite <- Ep, <- E. unfold sent. by rewrite unpad.
Qed.
End code.

(** C5. The encoder leaves the 187 bytes of a packet as they are and appends
    twenty; the decoder gives the packet back and reports no error, and if any one
    of the 207 bytes is replaced by any other it gives the packet back and reports
    one error. *)
Theorem rs_corrects_one_error d :
  Forall byte d -> length d = 187%nat ->
  exists c, atsci_reed_solomon = Some c /\
    let sent := rs_encode c d in
    length sent = 207%nat /\ Forall byte sent /\ take 187 sent = d /\ rs_decode c sent = (0, d) /\
    forall p v, 0 <= p < 207 -> 0 < v < 256 -> rs_decode c sent.[p <- sent.[p] .^ v] = (1, d).
Proof.
  intros Hd Hl. destruct atsci_reed_solomon_ok as (c & E & Hc). exists c. split; [done|].
  destruct (rs_encode_length c d Hd Hl) as [Hn Hb]. split; [done|]. split; [done|]. split.
  - by apply take_app_length'.
  - split; [by apply rs_decode_clean|]. intros p v Hp Hv. by apply rs_decode_one.
Qed.

Lemma rs_corrects_one_error_witness :
  exists c, atsci_reed_solomon = Some c /\
    let sent := rs_encode c (replicate 187 17) in
    length sent = 207%nat /\ Forall byte sent /\ take 187 sent = replicate 187 17 /\ rs_decode c sent = (0, replicate 187 17) /\
    forall p v, 0 <= p < 207 -> 0 < v < 256 -> rs_decode c sent.[p <- sent.[p] .^ v] = (1, replicate 187 17).
Proof.
  apply (rs_corrects_one_error (replicate 187 17)); [|reflexivity].
  apply Forall_replicate. unfold byte. lia.
Defined.
