(* ===== verification/AtscChain.v ===== *)
(** * ATSC, end to end: [qa_atsc.py]

    The flow graph of [test_loopback_003]: a stream of transport packets through
    the randomizer, the Reed-Solomon encoder, the interleaver and the trellis
    coder, and back through their inverses.  The blocks are those of the other
    files; the theorem is what the test expects, for every stream. *)

From S2P Require Import Prelude.
From stdpp Require Import list.
From S2P Require Import AtscTypes AtscRandomizer AtscInterleaver AtscTrellis AtscViterbi AtscDecoder ReedSolomon AtscReedSolomon.
#[local] Open Scope Z_scope.
#[local] Open Scope cint_scope.

(** [rand, rs_enc, inter, trellis]; the trellis coder gets twelve segments at a time. *)
Definition loopback_003_transmit (ps : list atsc_mpeg_packet) : option (list (list atsc_data_segment)) :=
  rs_enc ← atsci_reed_solomon;
  inter ← atsci_data_interleaver;
  '(_, l) ← randomizer_work reset_randomizer ps;
  '(_, l) ← rs_encoder_work rs_enc l;
  '(_, l) ← interleaver_work inter l;
  '(_, l) ← trellis_work reset_encoders (pieces (length l / 12) 12 l);
  Some l.

(** [softds, viterbi, deinter, rs_dec, derand]. *)
Definition loopback_003_receive (coded : list (list atsc_data_segment)) : option (list atsc_mpeg_packet) :=
  deinter ← make_data_deinterleaver;
  rs_dec ← atsci_reed_solomon;
  '(_, l) ← soft_viterbi_work new_viterbi_decoder coded;
  '(_, l) ← deinterleaver_work deinter (mjoin l);
  '(_, l) ← rs_decoder_work rs_dec l;
  '(_, l) ← derandomizer_work reset l;
  Some l.

Section chain.
Context (ps : list atsc_mpeg_packet) (Hps : Forall transport_packet ps) (c : rs) `{!AtscCode c}.

(** Packet [k], the packet as encoded, and the bytes of the encoded stream. *)
Definition packet (k : Z) : atsc_mpeg_packet := default sample_packet (ps !! Z.to_nat k).
Definition coded (k : Z) : list Z := rs_encode c (data (randomized k (packet k))).
Definition sent (t : Z) : Z := if t <? 0 then 0 else (coded (t / 207)).[t mod 207].

(** As the decoders get it: the upper bit of the first byte is lost. *)
Definition received_sent (t : Z) : Z := if t =? 0 then sent 0 .& 0x7f else sent t.

Lemma packet_ok k : transport_packet (packet k).
Proof.
  unfold packet. destruct (ps !! Z.to_nat k) as [p|] eqn:E; [|apply sample_transport].
  by apply (Forall_lookup_1 _ _ _ _ Hps E).
Qed.

Lemma packets_eq_map n : length ps = n -> ps = map packet (zseq 0 n).
Proof.
  intros Hn. apply list_eq. intros i. unfold zseq. rewrite map_map, list_lookup_fmap. destruct (decide (i < n)%nat) as [Hi|Hi].
  - rewrite lookup_seq_lt by done. cbn [option_map fmap option_fmap Nat.add]. unfold packet. rewrite Nat2Z.id.
    by destruct (lookup_lt_is_Some_2 ps i ltac:(lia)) as [p ->].
  - by rewrite !lookup_ge_None_2 by (rewrite ?length_seq; lia).
Qed.

Lemma randomized_ok k : Forall byte (data (randomized k (packet k))) /\ length (data (randomized k (packet k))) = 187%nat.
Proof.
  destruct (packet_ok k) as (Hl & _). unfold randomized. cbn [data]. split; [apply whiten_bytes|].
  rewrite whiten_length, length_drop, Hl. done.
Qed.

Lemma coded_ok k : length (coded k) = 207%nat /\ Forall byte (coded k).
Proof. destruct (randomized_ok k) as [Hb Hl]. by apply rs_encode_length. Qed.

Lemma sent_before t : t < 0 -> sent t = 0.
Proof. intros Ht. unfold sent. by destruct (Z.ltb_spec t 0); [|lia]. Qed.

Lemma sent_byte t : byte (sent t).
Proof.
  unfold sent. destruct (Z.ltb_spec t 0); [done|]. destruct (coded_ok (t / 207)) as [Hl Hb].
  apply aget_Forall; [done|]. rewrite Hl. apply Z.mod_pos_bound. lia.
Qed.

Lemma sent_segment k : 0 <= k -> segment_of sent k k = {| pli := pli_at k; data := coded k |}.
Proof.
  intros Hk. unfold segment_of. f_equal. destruct (coded_ok k) as [Hl _]. rewrite (list_as_map (coded k) 207 Hl).
  apply map_ext_in. intros i Hi. apply in_map_iff in Hi as (j & <- & Hj). apply in_seq in Hj. unfold sent.
  destruct (Z.ltb_spec (207 * k + Z.of_nat j) 0); [lia|]. f_equal; [f_equal|]; divlia.
Qed.

(** ** The transmitter *)

Lemma randomizer_stage n : length ps = n ->
  exists s, randomizer_work reset_randomizer ps = Some (s, map (fun k => randomized k (packet k)) (zseq 0 n)).
Proof.
  intros Hn.
  destruct (each_item_zseq randomizer_step randomizer_at packet (fun k => randomized k (packet k)) n 0 reset_randomizer)
    as (s & E & _).
  - intros k s _ Hs. apply randomizer_spec; [done|apply packet_ok].
  - split; [done|]. split; [done|]. intros []. reflexivity.
  - exists s. unfold randomizer_work. etrans; [|exact E]. f_equal. exact (packets_eq_map n Hn).
Qed.

Lemma rs_encoder_stage n :
  exists s, rs_encoder_work c (map (fun k => randomized k (packet k)) (zseq 0 n)) =
    Some (s, map (fun k => segment_of sent k k) (zseq 0 n)).
Proof.
  destruct (each_item_zseq rs_encoder_step (fun _ s => s = c) (fun k => randomized k (packet k)) (fun k => segment_of sent k k) n 0 c)
    as (s & E & _); [|done|by exists s].
  intros k s Hk ->. exists c. split; [|done]. rewrite sent_segment by done. unfold rs_encoder_step, randomized.
  cbn [pli data]. rewrite pli_regular. cbn [assert]. by rewrite some_bind.
Qed.

Lemma interleaver_stage n :
  exists ci s, atsci_data_interleaver = Some ci /\
    interleaver_work ci (map (fun k => segment_of sent k k) (zseq 0 n)) = Some (s, map (fun k => segment_of (spread sent) k k) (zseq 0 n)).
Proof.
  destruct (make_interleaver_at true 52 4 sent) as (ci & E1 & _ & _ & Hci); [lia|lia|apply sent_before|].
  destruct (each_item_zseq interleave (fun k c => interleaver_before k sent c) (fun k => segment_of sent k k)
    (fun k => segment_of (spread sent) k k) n 0 ci) as (s & E & _).
  - intros k s _ Hs. by apply interleave_spec.
  - exact Hci.
  - by exists ci, s.
Qed.

Lemma spread_before t : t < 0 -> spread sent t = 0.
Proof. intros Ht. apply sent_before. pose proof (Z.mod_pos_bound t 52 ltac:(lia)). lia. Qed.

Lemma spread_received t : received_byte (spread sent) t = spread received_sent t.
Proof.
  unfold received_byte, spread, received_sent. pose proof (Z.mod_pos_bound t 52 ltac:(lia)) as Hm.
  destruct (Z.ltb_spec t 0).
  - destruct (Z.eqb_spec (t - 52 * (t mod 52 * 4)) 0); [lia|]. by rewrite sent_before by lia.
  - destruct (Z.ltb_spec t 12), (Z.eqb_spec (t - 52 * (t mod 52 * 4)) 0) as [E|E]; try done.
    + by rewrite E.
    + rewrite Z.mod_small in E |- * by lia. rewrite sent_before by lia. done.
    + exfalso. divlia.
Qed.

(** Groups of twelve are as good as the stream. *)
Lemma groups_cut h n : pieces n 12 (map (fun k => segment_of h k k) (zseq 0 (n * 12))) =
  map (fun g => group_segments h (12 * (0 + g)) (0 + g)) (zseq 0 n).
Proof. rewrite pieces_cuts. apply map_ext. intros g. unfold cut, group_segments. done. Qed.

Lemma groups_join h n :
  mjoin (map (fun g => group_segments h (12 * (0 + g) - 12) (0 + g - 1)) (zseq 0 n)) =
  map (fun k => segment_of h (k - 12) (k - 12)) (zseq 0 (n * 12)).
Proof.
  rewrite <- join_cuts. f_equal. apply map_ext. intros g. unfold cut, group_segments. apply map_ext. intros i. f_equal; lia.
Qed.

Lemma segment_ext h h' p k : (forall t, h t = h' t) -> segment_of h p k = segment_of h' p k.
Proof. intros H. unfold segment_of. f_equal. apply map_ext. intros i. apply H. Qed.

(** Through the coder and the decoder. *)
Lemma trellis_stage n :
  exists enc coded d out,
    trellis_work reset_encoders (pieces n 12 (map (fun k => segment_of (spread sent) k k) (zseq 0 (n * 12)))) = Some (enc, coded) /\
    soft_viterbi_work new_viterbi_decoder coded = Some (d, out) /\
    mjoin out = map (fun k => segment_of (spread received_sent) (k - 12) (k - 12)) (zseq 0 (n * 12)).
Proof.
  rewrite groups_cut. destruct (groups_run (spread sent) n 0 reset_encoders new_viterbi_decoder) as (enc & coded & d & E1 & E2).
  - intros t _. apply sent_byte.
  - done.
  - apply stream_start.
  - eexists _, _, _, _. split; [exact E1|]. split; [exact E2|]. rewrite groups_join. apply map_ext. intros k.
    apply segment_ext. apply spread_received.
Qed.

(** ** The receiver *)

(** The deinterleaver: twelve segments of zeros, out of step with it, then the stream. *)
Definition deinterleaver_run (k : Z) (d : atsci_data_deinterleaver) : Prop :=
  0 <= k /\
  if k <=? 12 then deinterleaver_before k (fun _ => 0) d
  else deinterleaver_before (k - 12) (spread received_sent) d.

Lemma received_before t : t < 0 -> received_sent t = 0.
Proof. intros Ht. unfold received_sent. destruct (Z.eqb_spec t 0); [lia|]. by apply sent_before. Qed.

Lemma spread_received_before t : t < 0 -> spread received_sent t = 0.
Proof. intros Ht. apply received_before. pose proof (Z.mod_pos_bound t 52 ltac:(lia)). lia. Qed.

Lemma segment_zero h p k : k < 0 -> (forall t, t < 0 -> h t = 0) -> segment_of h p k = {| pli := pli_at p; data := replicate 207 0 |}.
Proof.
  intros Hk Hh. unfold segment_of. f_equal. assert (replicate 207 0 = map (fun _ => 0) (zseq 0 207)) as -> by done.
  apply map_ext_in. intros i Hi. apply in_map_iff in Hi as (j & <- & Hj). apply in_seq in Hj. apply Hh. lia.
Qed.
Lemma segment_blank p k : segment_of (fun _ => 0) p k = {| pli := pli_at p; data := replicate 207 0 |}.
Proof. unfold segment_of. f_equal. Qed.

(** What the fifo of the deinterleaver holds before the stream. *)
Lemma blank_fifo f t : fifo_at f 156 1 t (gather (fun _ => 0)) -> fifo_at f 156 1 (207 * 0) (gather (spread received_sent)).
Proof.
  intros [Hok Hq]. split; [done|]. rewrite Hq. apply map_ext_in. intros m Hm.
  apply in_map_iff in Hm as (j & <- & Hj). apply in_seq in Hj. unfold gather. symmetry. apply spread_received_before.
  pose proof (Z.mod_pos_bound (207 * 0 - 1 * (156 - Z.of_nat j)) 52 ltac:(lia)). lia.
Qed.

Lemma gather_segment k :
  map (fun i => gather (spread received_sent) (207 * k + i - 156)) (zseq 0 207) =
  map (fun i => received_sent (207 * (k - 52) + i)) (zseq 0 207).
Proof. apply map_ext. intros i. rewrite gather_spread. f_equal. lia. Qed.

Lemma deinterleaver_run_step k d : 0 <= k -> deinterleaver_run k d ->
  exists d', deinterleave d (segment_of (spread received_sent) (k - 12) (k - 12)) =
    Some (d', segment_of received_sent (k - 64) (k - 64)) /\ deinterleaver_run (k + 1) d'.
Proof.
  intros Hk [_ Hd]. unfold deinterleaver_run. destruct (decide (k < 12)) as [Hlt|Hge].
  - rewrite (proj2 (Z.leb_le k 12)) in Hd by lia. destruct Hd as [Hc Hf].
    rewrite (segment_zero (spread received_sent)), (segment_zero received_sent)
      by (lia || apply spread_received_before || apply received_before).
    destruct (deinterleave_segment (k - 12) k (fun _ => 0) d) as (d' & E & Hd').
    + assert ((k - 12) mod 312 <> 0) as Hm by divlia. by rewrite (proj2 (Z.eqb_neq _ _) Hm).
    + done.
    + rewrite segment_blank in E. exists d'. rewrite E. split.
      * replace (k - 12 - 52) with (k - 64) by lia. reflexivity.
      * split; [lia|]. by rewrite (proj2 (Z.leb_le (k + 1) 12)) by lia.
  - rewrite (proj2 (Z.leb_gt (k + 1) 12)) by lia.
    assert (exists d', deinterleave d (segment_of (spread received_sent) (k - 12) (k - 12)) =
      Some (d', {| pli := pli_at (k - 12 - 52);
                   data := map (fun i => gather (spread received_sent) (207 * (k - 12) + i - 156)) (zseq 0 207) |}) /\
      deinterleaver_before (k - 12 + 1) (spread received_sent) d') as (d' & E & Hd').
    { destruct (decide (k = 12)) as [->|Hne].
      - rewrite (proj2 (Z.leb_le 12 12)) in Hd by lia. destruct Hd as [Hc Hf].
        apply deinterleave_segment; [|by eapply blank_fifo].
        apply (sync_blank (d_conv d) 52 (fun j => (51 - j) * 4) (207 * 12) (207 * 0)); [done|intros; lia|exact Hc|done|].
        intros i Hi. apply spread_received_before. lia.
      - rewrite (proj2 (Z.leb_gt k 12)) in Hd by lia. by apply deinterleave_spec. }
    exists d'. rewrite E, gather_segment. split.
    + unfold segment_of. by replace (k - 12 - 52) with (k - 64) by lia.
    + split; [lia|]. by replace (k + 1 - 12) with (k - 12 + 1) by lia.
Qed.

Lemma deinterleaver_stage n :
  exists cd d, make_data_deinterleaver = Some cd /\
    deinterleaver_work cd (map (fun k => segment_of (spread received_sent) (k - 12) (k - 12)) (zseq 0 n)) =
      Some (d, map (fun k => segment_of received_sent (k - 64) (k - 64)) (zseq 0 n)).
Proof.
  destruct (make_interleaver_at false 52 4 (fun _ : Z => 0)) as (cv & E1 & _ & _ & Hcv); [lia|lia|done|].
  set (cd := {| d_conv := cv; alignment_fifo := new_fifo 156 |}).
  destruct (each_item_zseq deinterleave deinterleaver_run (fun k => segment_of (spread received_sent) (k - 12) (k - 12))
    (fun k => segment_of received_sent (k - 64) (k - 64)) n 0 cd) as (d & E & _).
  - intros k d Hk Hd. by apply deinterleaver_run_step.
  - split; [done|]. split; [exact Hcv|]. destruct (new_fifo_ok (A := Z) 156 ltac:(lia)) as [Hok Hq].
    split; [done|]. cbn [alignment_fifo cd]. by rewrite Hq.
  - exists cd, d. split; [unfold make_data_deinterleaver; by rewrite E1|]. exact E.
Qed.

(** The Reed-Solomon decoder: zeros, the first packet with perhaps one wrong bit,
    then the packets. *)
Definition before_derand (k : Z) : atsc_mpeg_packet_no_sync :=
  if k <? 64 then {| pli := pli_at (k - 64); data := replicate 187 0 |} else randomized (k - 64) (packet (k - 64)).

Lemma low_bits_xor : all_below 256 (fun x => (x .& 0x7f =? x) || (x .& 0x7f =? x .^ 0x80)) = true.
Proof. vm_compute. reflexivity. Qed.

Lemma change_first (f g : Z -> Z) x n : g 0 = x -> (forall i, 0 < i -> g i = f i) ->
  map g (zseq 0 (S n)) = (map f (zseq 0 (S n))).[0 <- x].
Proof.
  intros <- H. rewrite !map_zseq_S. change ((f 0 :: ?l).[0 <- ?y]) with (y :: l). f_equal.
  apply map_ext_in. intros i Hi. apply in_map_iff in Hi as (j & <- & _). apply H. lia.
Qed.

Lemma first_received :
  exists e, rs_decode c (data (segment_of received_sent 0 0)) = (e, data (randomized 0 (packet 0))) /\ (e =? -1) = false.
Proof.
  destruct (randomized_ok 0) as [Hb Hl]. destruct (coded_ok 0) as [Hcl Hcb].
  assert (sent 0 = (coded 0).[0]) as Es by done.
  assert (data (segment_of received_sent 0 0) = (coded 0).[0 <- (coded 0).[0] .& 0x7f]) as ->.
  { pose proof (f_equal data (sent_segment 0 ltac:(lia))) as E. cbn [data segment_of] in E |- *. rewrite <- E at 1.
    apply (change_first _ _ _ 206).
    - unfold received_sent. change (207 * 0 + 0) with 0. cbn [Z.eqb]. by rewrite Es.
    - intros i Hi. unfold received_sent. by destruct (Z.eqb_spec (207 * 0 + i) 0); [lia|]. }
  pose proof (all_below_spec _ _ low_bits_xor (coded 0).[0]) as Hx. cbv beta in Hx.
  assert (byte (coded 0).[0]) as H0 by (apply aget_Forall; [done|rewrite Hcl; lia]). specialize (Hx H0).
  apply orb_true_iff in Hx as [Hx|Hx]; apply Z.eqb_eq in Hx; rewrite Hx.
  - exists 0. split; [|done]. assert ((coded 0).[0 <- (coded 0).[0]] = coded 0) as ->.
    { destruct (coded 0) as [|x l]; [done|]. done. }
    by apply rs_decode_clean.
  - exists 1. split; [|done]. apply (rs_decode_one c (data (randomized 0 (packet 0))) 0 0x80); [done|done|lia|lia].
Qed.

Lemma zeros_decode : rs_decode c (replicate 207 0) = (0, replicate 187 0).
Proof.
  unfold rs_decode. assert (pad (replicate 207 0) = replicate 255 0) as ->.
  { unfold pad. by rewrite <- replicate_add. }
  rewrite (decode_codeword c); [done|]. split; [by rewrite length_replicate|]. split; [by apply Forall_replicate|].
  intros i _. apply horner_zeros.
Qed.

Lemma rs_decoder_stage n :
  exists s, rs_decoder_work c (map (fun k => segment_of received_sent (k - 64) (k - 64)) (zseq 0 n)) =
    Some (s, map before_derand (zseq 0 n)).
Proof.
  destruct (each_item_zseq rs_decoder_step (fun _ s => s = c) (fun k => segment_of received_sent (k - 64) (k - 64)) before_derand n 0 c)
    as (s & E & _); [|done|by exists s].
  intros k s Hk ->. exists c. split; [|done]. unfold rs_decoder_step, before_derand. cbn [pli segment_of].
  rewrite pli_regular. cbn [assert]. rewrite some_bind. destruct (Z.ltb_spec k 64) as [Hlt|Hge].
  - rewrite segment_zero by (lia || apply received_before). cbn [data]. rewrite zeros_decode.
    change (0 =? -1) with false. by rewrite pli_error_cleared.
  - destruct (decide (k = 64)) as [->|Hne].
    + destruct first_received as (e & E & He). change (64 - 64) with 0. rewrite E, He, pli_error_cleared. done.
    + assert (segment_of received_sent (k - 64) (k - 64) = segment_of sent (k - 64) (k - 64)) as ->.
      { unfold segment_of. f_equal. apply map_ext_in. intros i Hi. apply in_map_iff in Hi as (j & <- & _).
        unfold received_sent. destruct (Z.eqb_spec (207 * (k - 64) + Z.of_nat j) 0); [lia|done]. }
      rewrite sent_segment by lia. cbn [data]. destruct (randomized_ok (k - 64)) as [Hb Hl]. unfold coded.
      rewrite rs_decode_clean by done. change (0 =? -1) with false. by rewrite pli_error_cleared.
Qed.

(** The derandomizer makes something of the zeros and then the packets. *)
Lemma derandomizer_stage m :
  exists s junk, derandomizer_work reset (map before_derand (zseq 0 (64 + m))) = Some (s, junk ++ map packet (zseq 0 m)) /\
    length junk = 64%nat.
Proof.
  rewrite map_zseq_plus. unfold derandomizer_work. rewrite each_item_app.
  destruct (each_item_total derandomizer_step (fun seg => regular_seg_p (pli seg) = true) (map before_derand (zseq 0 64))) with (s := reset)
    as (s1 & junk & E1 & Hj).
  - intros s x Hx. unfold derandomizer_step. rewrite Hx. cbn [assert]. rewrite some_bind. destruct (derandomize _ _). by eexists _, _.
  - apply Forall_map, Forall_forall. intros k _. unfold before_derand, randomized. case_if; apply pli_regular.
  - destruct (each_item_zseq derandomizer_step derandomizer_at (fun k => randomized k (packet k)) packet m 0 s1) as (s & E & _).
    + intros k d _ Hd. apply derandomizer_spec; [done|apply packet_ok].
    + intros []. reflexivity.
    + exists s, junk. rewrite E1, some_bind. cbv beta iota.
      assert (map (fun i => before_derand (Z.of_nat 64 + i)) (zseq 0 m) = map (fun k => randomized (0 + k) (packet (0 + k))) (zseq 0 m)) as ->.
      { apply map_ext_in. intros i Hi. apply in_map_iff in Hi as (j & <- & _). unfold before_derand.
        destruct (Z.ltb_spec (Z.of_nat 64 + Z.of_nat j) 64); [lia|]. by replace (Z.of_nat 64 + Z.of_nat j - 64) with (0 + Z.of_nat j) by lia. }
      rewrite E, some_bind. split; [done|]. by rewrite Hj, length_map, length_zseq.
Qed.

Lemma packets_take m k : length ps = (m + k)%nat -> take m ps = map packet (zseq 0 m).
Proof.
  intros Hl. etrans; [exact (f_equal (take m) (packets_eq_map _ Hl))|].
  rewrite map_zseq_plus. apply take_app_length'. by rewrite length_map, length_zseq.
Qed.
End chain.

(** C1. End to end, [test_loopback_003] for every stream: the receiver gives back
    the transport packets the transmitter was given, 64 packets later (12 for the
    Viterbi decoders and 52 for the interleaver), after 64 packets made of the
    zeros the delays start with.  The bit the Viterbi decoders lose at the start
    of the stream is put right by the Reed-Solomon decoder. *)
Theorem loopback_003_delivers ps n :
  (6 <= n)%nat -> length ps = (n * 12)%nat -> Forall transport_packet ps ->
  exists coded junk, loopback_003_transmit ps = Some coded /\ length coded = n /\
    loopback_003_receive coded = Some (junk ++ take (n * 12 - 64) ps) /\ length junk = 64%nat.
Proof.
  intros Hn Hlen Hps. destruct atsci_reed_solomon_ok as (c & Ec & Hc).
  destruct (randomizer_stage ps Hps (n * 12) Hlen) as (s1 & E1).
  destruct (rs_encoder_stage ps Hps c (n * 12)) as (s2 & E2).
  destruct (interleaver_stage ps c (n * 12)) as (ci & s3 & Eci & E3).
  destruct (trellis_stage ps Hps c n) as (enc & coded & d & out & E4 & E5 & E6).
  destruct (deinterleaver_stage ps c (n * 12)) as (cd & s7 & Ecd & E7).
  destruct (rs_decoder_stage ps Hps c (n * 12)) as (s8 & E8).
  destruct (derandomizer_stage ps Hps (n * 12 - 64)) as (s9 & junk & E9 & Hj).
  exists coded, junk. split; [|split; [|split; [|done]]].
  - unfold loopback_003_transmit. rewrite Ec, Eci, !some_bind, E1, some_bind. cbv beta iota.
    rewrite E2, some_bind. cbv beta iota. rewrite E3, some_bind. cbv beta iota.
    rewrite length_map, length_zseq, Nat.div_mul by done. rewrite E4, some_bind. done.
  - apply each_item_length in E4. by rewrite E4, length_pieces.
  - unfold loopback_003_receive. rewrite Ecd, Ec, !some_bind, E5, some_bind. cbv beta iota.
    rewrite E6, E7, some_bind. cbv beta iota. rewrite E8, some_bind. cbv beta iota.
    replace (n * 12)%nat with (64 + (n * 12 - 64))%nat at 1 by lia. rewrite E9, some_bind. do 2 f_equal.
    symmetry. apply (packets_take ps _ 64). lia.
Qed.

Lemma loopback_003_delivers_witness :
  exists coded junk, loopback_003_transmit (replicate 72 sample_packet) = Some coded /\ length coded = 6%nat /\
    loopback_003_receive coded = Some (junk ++ replicate 8 sample_packet) /\ length junk = 64%nat.
Proof.
  destruct (loopback_003_delivers (replicate 72 sample_packet) 6) as (coded & junk & E1 & E2 & E3 & E4).
  - lia.
  - reflexivity.
  - apply Forall_replicate. apply sample_transport.
  - exists coded, junk. split; [exact E1|]. split; [exact E2|]. split; [exact E3|exact E4].
Defined.
