(* ===== verification/Viterbi.v ===== *)
(** * Viterbi decoder for the CCSDS code: [gnuradio-core/src/lib/viterbi/]

    The convolutional code of constraint length 7 and rate 1/2, and its soft
    decision decoder in integers: [viterbi.c], [tab.c].  The metric table that
    [metrics.c] computes is an argument, as it is in the C code.

    A path through the trellis is an integer: its six top bits are the state it
    starts from, the others the bits that were coded.  The decoder keeps, for each
    state, the path with the best metric; the theorems say that it is the best one
    there is, and that with at most four wrong symbols it is the one sent. *)

From S2P Require Import Prelude.
From stdpp Require Import list.
From S2P Require Import Bits.
#[local] Open Scope Z_scope.
#[local] Open Scope cint_scope.

(** ** The encoder *)

Definition POLYA : Z := 0x6d.
Definition POLYB : Z := 0x4f.

Definition Partab : list Z := [
  0;1;1;0;1;0;0;1;1;0;0;1;0;1;1;0;1;0;0;1;0;1;1;0;0;1;1;0;1;0;0;1;
  1;0;0;1;0;1;1;0;0;1;1;0;1;0;0;1;0;1;1;0;1;0;0;1;1;0;0;1;0;1;1;0;
  1;0;0;1;0;1;1;0;0;1;1;0;1;0;0;1;0;1;1;0;1;0;0;1;1;0;0;1;0;1;1;0;
  0;1;1;0;1;0;0;1;1;0;0;1;0;1;1;0;1;0;0;1;0;1;1;0;0;1;1;0;1;0;0;1;
  1;0;0;1;0;1;1;0;0;1;1;0;1;0;0;1;0;1;1;0;1;0;0;1;1;0;0;1;0;1;1;0;
  0;1;1;0;1;0;0;1;1;0;0;1;0;1;1;0;1;0;0;1;0;1;1;0;0;1;1;0;1;0;0;1;
  0;1;1;0;1;0;0;1;1;0;0;1;0;1;1;0;1;0;0;1;0;1;1;0;0;1;1;0;1;0;0;1;
  1;0;0;1;0;1;1;0;0;1;1;0;1;0;0;1;0;1;1;0;1;0;0;1;1;0;0;1;0;1;1;0].

(** One bit: two symbols and the next state. *)
Definition encode_bit (encstate bit : Z) : list Z * Z :=
  let encstate := u8 ((encstate << 1) .| bit) in
  ([Partab.[encstate .& POLYA]; Partab.[encstate .& POLYB]], encstate).

Fixpoint encode_bits (bits : list Z) (encstate : Z) : list Z * Z :=
  match bits with
  | [] => ([], encstate)
  | bit :: bits =>
      let '(symbols, encstate) := encode_bit encstate bit in
      let '(rest, encstate) := encode_bits bits encstate in
      (symbols ++ rest, encstate)
  end.

Fixpoint encode (data : list Z) (encstate : Z) : list Z * Z :=
  match data with
  | [] => ([], encstate)
  | b :: data =>
      let '(symbols, encstate) := encode_bits (bits_of_byte b) encstate in
      let '(rest, encstate) := encode data encstate in
      (symbols ++ rest, encstate)
  end.

(** ** The decoder

    [unsigned long] and [long] have 64 bits; the metrics of a step are [int]s. *)
Record viterbi_state := { path : Z; metric : Z }.

#[export] Instance Default_viterbi_state : Default viterbi_state := {| path := 0; metric := 0 |}.

(** [BUTTERFLY(i,sym)]. *)
Definition butterfly (mets : list Z) (state : list viterbi_state) (i sym : Z) (next : list viterbi_state) :
    list viterbi_state :=
  let m0 := s32 (metric state.[i] + mets.[sym]) in
  let m1 := s32 (metric state.[i + 32] + mets.[3 .^ sym]) in
  let next := next.[2 * i <- if m1 <? m0 then {| path := u64 (path state.[i] << 1); metric := m0 |}
    else {| path := u64 (path state.[i + 32] << 1) .| 1; metric := m1 |}] in
  let m0 := s32 (metric state.[i] + mets.[3 .^ sym]) in
  let m1 := s32 (metric state.[i + 32] + mets.[sym]) in
  next.[2 * i + 1 <- if m1 <? m0 then {| path := u64 (path state.[i] << 1); metric := m0 |}
    else {| path := u64 (path state.[i + 32] << 1) .| 1; metric := m1 |}].

(** The symbols of the thirty-two calls. *)
Definition butterfly_symbols : list Z := [
  0;1;3;2;3;2;0;1;0;1;3;2;3;2;0;1;
  2;3;1;0;1;0;2;3;2;3;1;0;1;0;2;3].

Definition butterflies (mets : list Z) (state next : list viterbi_state) : list viterbi_state :=
  fold_left (fun next i => butterfly mets state i butterfly_symbols.[i] next) (zseq 0 32) next.

(** The branch metrics of a pair of received symbols. *)
Definition branch_metrics (mettab : list (list Z)) (a b : Z) : list Z :=
  [s32 (mettab.[0].[a] + mettab.[0].[b]); s32 (mettab.[0].[a] + mettab.[1].[b]);
   s32 (mettab.[1].[a] + mettab.[0].[b]); s32 (mettab.[1].[a] + mettab.[1].[b])].

(** The best state and its metric. *)
Definition best_state (state : list viterbi_state) : Z * Z :=
  fold_left (fun '(beststate, bestmetric) i =>
    if bestmetric <? metric state.[i] then (i, metric state.[i]) else (beststate, bestmetric))
    (zseq 1 63) (0, metric state.[0]).

Definition viterbi_chunks_init (state : list viterbi_state) : list viterbi_state :=
  fold_left (fun state i => state.[i <- {| path := path state.[i]; metric := -999999 |}]) (zseq 1 63)
    state.[0 <- {| path := 0; metric := 0 |}].

(** Two bits: from [state0] to [state1] and back. *)
Definition viterbi_butterfly2 (symbols : list Z) (mettab : list (list Z)) (state0 state1 : list viterbi_state) :
    list viterbi_state * list viterbi_state :=
  let state1 := butterflies (branch_metrics mettab symbols.[0] symbols.[1]) state0 state1 in
  let state0 := butterflies (branch_metrics mettab symbols.[2] symbols.[3]) state1 state0 in
  (state0, state1).

(** Eight bits; [state] is the array the next bit starts from. *)
Definition viterbi_butterfly8 (symbols : list Z) (mettab : list (list Z)) (state0 state1 : list viterbi_state) :
    list viterbi_state * list viterbi_state :=
  fold_left (fun '(state, next) bitcnt =>
    let next := butterflies (branch_metrics mettab symbols.[2 * bitcnt] symbols.[2 * bitcnt + 1]) state next in
    (next, state)) (zseq 0 8) (state0, state1).

(** The byte, and the metric as it is returned. *)
Definition viterbi_get_output (state : list viterbi_state) : Z * Z :=
  let '(beststate, bestmetric) := best_state state in
  (u8 (path state.[beststate] >> 24), u8 (s32 bestmetric)).

(** [viterbi]: the loop over the bits, with the bytes written so far. *)
Definition viterbi_loop (mettab : list (list Z)) (symbols : list Z) (bitcnt : Z)
    (st : list viterbi_state * list viterbi_state * list Z) :
    list viterbi_state * list viterbi_state * list Z :=
  let '(state, next, data) := st in
  let next := butterflies (branch_metrics mettab symbols.[2 * bitcnt] symbols.[2 * bitcnt + 1]) state next in
  let data :=
    if (bitcnt mod 8 =? 5) && (32 <? bitcnt) then
      data ++ [u8 (path next.[(best_state next).1] >> 24)]
    else data in
  (next, state, data).

(** [state0] and [state1] are what the stack held.  The result is the data and
    the metric; [None] is the shift by a negative count. *)
Definition viterbi (symbols : list Z) (nbits : nat) (mettab : list (list Z)) (state0 state1 : list viterbi_state) :
    option (list Z * Z) :=
  let '(state, _, data) :=
    fold_left (fun st bitcnt => viterbi_loop mettab symbols bitcnt st) (zseq 0 nbits)
      (viterbi_chunks_init state0, state1, []) in
  let '(beststate, _) := best_state state in
  let i := Z.of_nat nbits mod 8 in
  if i =? 7 then None
  else
    let path := if negb (i =? 6) then u64 (path state.[beststate] << (6 - i)) else path state.[beststate] in
    Some (data ++ [u8 (path >> 24); u8 (path >> 16); u8 (path >> 8); u8 path], metric state.[beststate]).

(** ** One step

    What the butterflies compute for each state: the better of the two branches
    that lead to it. *)

(** The symbols of a branch, as an index of the branch metrics; [v] is the state
    left with the bit coded as its lowest. *)
Definition code (v : Z) : Z := 2 * Partab.[v .& POLYA] + Partab.[v .& POLYB].

Definition survivor (mets : list Z) (state : list viterbi_state) (j : Z) : viterbi_state :=
  let p := j / 2 in
  let v := 2 * p + j mod 2 in
  let m0 := s32 (metric state.[p] + mets.[code v]) in
  let m1 := s32 (metric state.[p + 32] + mets.[code (v + 64)]) in
  if m1 <? m0 then {| path := u64 (path state.[p] << 1); metric := m0 |}
  else {| path := u64 (path state.[p + 32] << 1) .| 1; metric := m1 |}.

(** The symbols of the calls are those of the code. *)
Lemma butterfly_symbols_checked : all_below 32 (fun i =>
  let sym := butterfly_symbols.[i] in
  (code (2 * i) =? sym) && (code (2 * i + 64) =? 3 .^ sym) &&
  (code (2 * i + 1) =? 3 .^ sym) && (code (2 * i + 1 + 64) =? sym)) = true.
Proof. vm_compute. reflexivity. Qed.

Lemma butterfly_symbol i : 0 <= i < 32 ->
  code (2 * i) = butterfly_symbols.[i] /\ code (2 * i + 64) = 3 .^ butterfly_symbols.[i] /\
  code (2 * i + 1) = 3 .^ butterfly_symbols.[i] /\ code (2 * i + 1 + 64) = butterfly_symbols.[i].
Proof.
  intros Hi. pose proof (all_below_spec _ _ butterfly_symbols_checked i Hi) as H. cbv beta zeta in H. zbool. done.
Qed.

Lemma butterfly_get mets state next i j : length next = 64%nat -> 0 <= i < 32 -> 0 <= j < 64 ->
  (butterfly mets state i butterfly_symbols.[i] next).[j] = if j / 2 =? i then survivor mets state j else next.[j].
Proof.
  intros Hn Hi Hj. destruct (butterfly_symbol i Hi) as (H0 & H1 & H2 & H3). unfold butterfly.
  rewrite aget_aset by (rewrite length_aset; lia). rewrite aget_aset by lia.
  destruct (Z.eqb_spec (2 * i + 1) j) as [<-|].
  { replace ((2 * i + 1) / 2) with i by divlia. rewrite Z.eqb_refl. unfold survivor.
    replace ((2 * i + 1) / 2) with i by divlia. replace ((2 * i + 1) mod 2) with 1 by divlia. by rewrite H2, H3. }
  destruct (Z.eqb_spec (2 * i) j) as [<-|].
  { replace (2 * i / 2) with i by divlia. rewrite Z.eqb_refl. unfold survivor.
    replace (2 * i / 2) with i by divlia. replace (2 * i mod 2) with 0 by divlia. rewrite Z.add_0_r. by rewrite H0, H1. }
  destruct (Z.eqb_spec (j / 2) i); [|done]. exfalso. divlia.
Qed.

Lemma butterfly_length mets state i sym next : length (butterfly mets state i sym next) = length next.
Proof. unfold butterfly. by rewrite !length_aset. Qed.

Lemma butterflies_upto mets state next n : length next = 64%nat -> (n <= 32)%nat ->
  let r := fold_left (fun next i => butterfly mets state i butterfly_symbols.[i] next) (zseq 0 n) next in
  length r = 64%nat /\ forall j, 0 <= j < 64 -> r.[j] = if j / 2 <? Z.of_nat n then survivor mets state j else next.[j].
Proof.
  intros Hl. induction n as [|n IH]; intros Hn.
  { split; [done|]. intros j Hj. rewrite (proj2 (Z.ltb_ge _ _)); [done|]. divlia. }
  cbv zeta in *. destruct IH as [IHl IH]; [lia|]. unfold zseq in *. rewrite seq_S, map_app, fold_left_app. cbn [map fold_left].
  split; [by rewrite butterfly_length|]. intros j Hj. rewrite butterfly_get by (done || lia). rewrite IH by done.
  cbn [Nat.add]. destruct (Z.eqb_spec (j / 2) (Z.of_nat n)), (Z.ltb_spec (j / 2) (Z.of_nat n)), (Z.ltb_spec (j / 2) (Z.of_nat (S n)));
    try done; lia.
Qed.

Lemma butterflies_spec mets state next : length next = 64%nat ->
  length (butterflies mets state next) = 64%nat /\
  forall j, 0 <= j < 64 -> (butterflies mets state next).[j] = survivor mets state j.
Proof.
  intros Hl. destruct (butterflies_upto mets state next 32 Hl ltac:(lia)) as [H1 H2]. split; [done|].
  intros j Hj. unfold butterflies. rewrite H2 by done. rewrite (proj2 (Z.ltb_lt _ _)); [done|]. divlia.
Qed.

Lemma best_state_spec state n : let r := fold_left (fun '(beststate, bestmetric) i =>
    if bestmetric <? metric state.[i] then (i, metric state.[i]) else (beststate, bestmetric))
    (zseq 1 n) (0, metric state.[0]) in
  0 <= r.1 <= Z.of_nat n /\ r.2 = metric state.[r.1] /\ forall j, 0 <= j <= Z.of_nat n -> metric state.[j] <= r.2.
Proof.
  induction n as [|n IH]; cbv zeta in *.
  { cbn. split_and!; [lia|lia|done|]. intros j Hj. by replace j with 0 by lia. }
  unfold zseq in *. rewrite seq_S, map_app, fold_left_app. cbn [map fold_left].
  destruct (fold_left _ (map _ (seq 1 n)) _) as [b m]. cbn [fst snd] in IH. destruct IH as (Hb & -> & Hm). case_if; cbn [fst snd].
  - split; [lia|]. split; [done|]. intros j Hj. destruct (decide (j = Z.of_nat (1 + n))) as [->|]; [done|].
    specialize (Hm j ltac:(lia)). lia.
  - split; [lia|]. split; [done|]. intros j Hj. destruct (decide (j = Z.of_nat (1 + n))) as [->|]; [done|].
    apply Hm. lia.
Qed.

Lemma best_is_best state : 0 <= (best_state state).1 < 64 /\ (best_state state).2 = metric state.[(best_state state).1] /\
  forall j, 0 <= j < 64 -> metric state.[j] <= (best_state state).2.
Proof.
  destruct (best_state_spec state 63) as (H1 & H2 & H3). unfold best_state. split; [lia|]. split; [done|].
  intros j Hj. apply H3. lia.
Qed.

(** ** Survivors are best

    [h] holds the branch metrics of the steps, the last first. *)

Definition start_metric (s : Z) : Z := if s =? 0 then 0 else -999999.

Fixpoint path_metric (h : list (list Z)) (v : Z) : Z :=
  match h with
  | [] => start_metric v
  | mets :: h => path_metric h (v / 2) + mets.[code (v mod 128)]
  end.

(** The paths of [n] steps. *)
Definition is_path (n : nat) (v : Z) : Prop := 0 <= v < 2 ^ (Z.of_nat n + 6).

(** What the state [j] holds for the path [v]; [p0] is the path memory of the
    states at the start. *)
Definition holds (p0 : Z -> Z) (h : list (list Z)) (st : viterbi_state) (v : Z) : Prop :=
  path_metric h v = metric st /\ u64 (path st) = u64 (p0 (v >> Z.of_nat (length h)) * 2 ^ Z.of_nat (length h) + v / 64).

Record survivors (p0 : Z -> Z) (h : list (list Z)) (state : list viterbi_state) : Prop := {
  sv_length : length state = 64%nat;
  sv_best : forall v, is_path (length h) v -> path_metric h v <= metric state.[v mod 64];
  sv_path : forall j, 0 <= j < 64 -> exists v, is_path (length h) v /\ v mod 64 = j /\ holds p0 h state.[j] v
}.

Definition bounded (B : Z) (mets : list Z) : Prop := Forall (fun m => - B <= m <= B) mets.

Lemma path_metric_bound B h v : 0 <= B -> Forall (bounded B) h ->
  - 999999 - B * Z.of_nat (length h) <= path_metric h v <= B * Z.of_nat (length h).
Proof.
  intros HB Hh. revert v. induction Hh as [|mets h Hm Hh IH]; intros v; cbn [path_metric length].
  { unfold start_metric. case_if; lia. }
  specialize (IH (v / 2)). assert (- B <= mets.[code (v mod 128)] <= B); [|lia].
  apply (aget_Forall_dflt (fun m => - B <= m <= B)); [done|]. change (@dflt Z Default_Z) with 0. lia.
Qed.

Lemma u64_twice x c : u64 (2 * u64 x + c) = u64 (2 * x + c).
Proof. unfold ux. rewrite <- Z.add_mod_idemp_l, Z.mul_mod_idemp_r, Z.add_mod_idemp_l by done. done. Qed.

Lemma u64_u64 x : u64 (u64 x) = u64 x.
Proof. apply Z.mod_mod. done. Qed.

Lemma u64_double x : u64 (x << 1) = u64 (2 * x).
Proof. rewrite shl_mul by lia. f_equal. lia. Qed.

Lemma u64_double_1 x : u64 (x << 1) .| 1 = u64 (2 * x + 1).
Proof.
  rewrite u64_double. unfold ux. norm_pow.
  replace (2 * x mod 18446744073709551616) with ((x mod 9223372036854775808) << 1).
  - rewrite (lor_shl_add _ 1 1) by (norm_pow; lia). norm_pow. divlia.
  - rewrite shl_mul by lia. norm_pow. divlia.
Qed.

Lemma shift_down n v : v / 2 >> Z.of_nat n = v >> Z.of_nat (S n).
Proof.
  change (v / 2) with (v / 2 ^ 1). rewrite <- (shr_div v 1) by lia. rewrite Z.shiftr_shiftr by lia. f_equal. lia.
Qed.

(** A path that ends in [j] came from one of two states. *)
Lemma came_from v : 0 <= v -> let j := v mod 64 in
  (v / 2 mod 64 = j / 2 /\ v mod 128 = 2 * (j / 2) + j mod 2) \/
  (v / 2 mod 64 = j / 2 + 32 /\ v mod 128 = 2 * (j / 2) + j mod 2 + 64).
Proof. intros Hv j. subst j. divlia. Qed.

Lemma extend v j : 0 <= v -> 0 <= j < 64 ->
  (v mod 64 = j / 2 -> let v' := 2 * v + j mod 2 in v' mod 64 = j /\ v' mod 128 = 2 * (j / 2) + j mod 2 /\ v' / 64 = 2 * (v / 64)) /\
  (v mod 64 = j / 2 + 32 -> let v' := 2 * v + j mod 2 in
     v' mod 64 = j /\ v' mod 128 = 2 * (j / 2) + j mod 2 + 64 /\ v' / 64 = 2 * (v / 64) + 1).
Proof. intros Hv Hj. cbv zeta. split; intros Hm; divlia. Qed.

Section Step.
Context (p0 : Z -> Z) (B : Z) (HB : 0 <= B).

Lemma holds_extend h mets st st' v b c : 0 <= v -> 0 <= b < 2 -> holds p0 h st v ->
  let v' := 2 * v + b in v' / 64 = 2 * (v / 64) + c ->
  metric st' = metric st + mets.[code (v' mod 128)] -> path st' = u64 (2 * path st + c) ->
  holds p0 (mets :: h) st' v'.
Proof.
  intros Hv Hb [Hm Hp] v' Hc Hm' Hp'. assert (v' / 2 = v) as Hh by (subst v'; divlia).
  split; [cbn [path_metric]; rewrite Hh, Hm'; lia|].
  cbn [length]. rewrite <- shift_down, Hh, Hp', u64_u64, <- u64_twice, Hp, Hc.
  rewrite Nat2Z.inj_succ, Z.pow_succ_r by lia. rewrite u64_twice. f_equal. lia.
Qed.

Lemma survivors_step h mets state next : survivors p0 h state -> length next = 64%nat ->
  Forall (bounded B) (mets :: h) -> 999999 + B * Z.of_nat (S (length h)) < 2 ^ 31 ->
  survivors p0 (mets :: h) (butterflies mets state next).
Proof using HB.
  intros Hs Hn Hb Hlim. destruct (butterflies_spec mets state next Hn) as [Hl Hg].
  apply Forall_cons in Hb as [Hbm Hbh].
  assert (forall k, - B <= mets.[k] <= B) as Hmk.
  { intros k. apply (aget_Forall_dflt (fun m => - B <= m <= B)); [done|]. change (@dflt Z Default_Z) with 0. lia. }
  assert (forall j k, 0 <= j < 64 -> s32 (metric state.[j] + mets.[k]) = metric state.[j] + mets.[k]) as Hid.
  { intros j k Hj. destruct (sv_path _ _ _ Hs j Hj) as (v & _ & _ & <- & _).
    pose proof (path_metric_bound B h v HB Hbh). specialize (Hmk k). apply (sx_id 32); [lia|].
    revert Hlim. norm_pow. nia. }
  split; [done| |].
  - intros v Hv. cbn [length path_metric] in *.
    assert (0 <= v mod 64 < 64) as Hj by (apply Z.mod_pos_bound; lia). rewrite Hg by done.
    assert (is_path (length h) (v / 2)) as Hv2.
    { unfold is_path in *. replace (Z.of_nat (S (length h)) + 6) with (Z.succ (Z.of_nat (length h) + 6)) in Hv by lia.
      rewrite Z.pow_succ_r in Hv by lia. divlia. }
    pose proof (sv_best _ _ _ Hs _ Hv2) as Hle. unfold survivor.
    assert (0 <= (v mod 64) / 2 < 32) as Hj2 by divlia.
    rewrite !Hid by lia. destruct Hv as [Hv0 _].
    destruct (came_from v Hv0) as [[E1 E2]|[E1 E2]]; rewrite E1 in Hle; rewrite E2; case_if; cbn [metric]; lia.
  - intros j Hj. rewrite Hg by done. unfold survivor. assert (0 <= j / 2 < 32) as Hj2 by divlia. rewrite !Hid by lia.
    assert (0 <= j mod 2 < 2) as Hj1 by (apply Z.mod_pos_bound; lia).
    assert (forall v, is_path (length h) v -> is_path (S (length h)) (2 * v + j mod 2)) as Hnext.
    { intros v Hv. unfold is_path in *. replace (Z.of_nat (S (length h)) + 6) with (Z.succ (Z.of_nat (length h) + 6)) by lia.
      rewrite Z.pow_succ_r by lia. lia. }
    case_if.
    + destruct (sv_path _ _ _ Hs (j / 2) ltac:(lia)) as (v & Hv & Hvj & Hh).
      destruct (proj1 (extend v j (proj1 Hv) Hj) Hvj) as (E1 & E2 & E3). exists (2 * v + j mod 2).
      split; [by apply Hnext|]. split; [done|]. eapply (holds_extend h mets _ _ v (j mod 2) 0 (proj1 Hv) Hj1 Hh); [lia| |].
      * cbn [metric]. by rewrite E2.
      * cbn [path]. rewrite u64_double. f_equal. lia.
    + destruct (sv_path _ _ _ Hs (j / 2 + 32) ltac:(lia)) as (v & Hv & Hvj & Hh).
      destruct (proj2 (extend v j (proj1 Hv) Hj) Hvj) as (E1 & E2 & E3). exists (2 * v + j mod 2).
      split; [by apply Hnext|]. split; [done|]. eapply (holds_extend h mets _ _ v (j mod 2) 1 (proj1 Hv) Hj1 Hh); [lia| |].
      * cbn [metric]. by rewrite E2.
      * cbn [path]. by rewrite u64_double_1.
Qed.
End Step.

(** ** Paths are what the encoder sends *)

(** The metric of the symbols [sent] when [received] arrives. *)
Definition likelihood (mettab : list (list Z)) (received sent : list Z) : Z :=
  foldr Z.add 0 (zip_with (fun r s => mettab.[s].[r]) received sent).

Fixpoint history (mettab : list (list Z)) (symbols : list Z) (n : nat) : list (list Z) :=
  match n with
  | O => []
  | S n => branch_metrics mettab symbols.[2 * Z.of_nat n] symbols.[2 * Z.of_nat n + 1] :: history mettab symbols n
  end.

Definition table_bounded (B : Z) (mettab : list (list Z)) : Prop := forall b r, - B <= mettab.[b].[r] <= B.

Lemma history_length mettab symbols n : length (history mettab symbols n) = n.
Proof. induction n; cbn; congruence. Qed.

Lemma branch_metrics_id B mettab a b : table_bounded B mettab -> 2 * B < 2 ^ 31 ->
  branch_metrics mettab a b = [mettab.[0].[a] + mettab.[0].[b]; mettab.[0].[a] + mettab.[1].[b];
    mettab.[1].[a] + mettab.[0].[b]; mettab.[1].[a] + mettab.[1].[b]] /\ bounded (2 * B) (branch_metrics mettab a b).
Proof.
  intros Ht HB. unfold branch_metrics. pose proof (Ht 0 a). pose proof (Ht 1 a). pose proof (Ht 0 b). pose proof (Ht 1 b).
  revert HB. norm_pow. intros HB. rewrite !(sx_id 32) by (norm_pow; lia). split; [done|]. unfold bounded.
  repeat (constructor; [lia|]). constructor.
Qed.

Lemma history_bounded B mettab symbols n : table_bounded B mettab -> 2 * B < 2 ^ 31 ->
  Forall (bounded (2 * B)) (history mettab symbols n).
Proof. intros Ht HB. induction n; constructor; [by apply branch_metrics_id|done]. Qed.

Lemma partab_checked : all_below 256 (fun v => (Partab.[v] =? 0) || (Partab.[v] =? 1)) = true.
Proof. vm_compute. reflexivity. Qed.

Lemma partab_bit v m : 0 <= m < 256 -> bit Partab.[v .& m].
Proof.
  intros Hm. pose proof (land_range v m ltac:(lia)).
  pose proof (all_below_spec _ _ partab_checked (v .& m) ltac:(lia)) as Hp. cbv beta in Hp.
  apply orb_true_iff in Hp as [?|?]; zbool; [by left|by right].
Qed.

(** The masks only see the state and the bit. *)
Lemma land_low v w m : 0 <= m < 128 -> v mod 128 = w mod 128 -> v .& m = w .& m.
Proof.
  intros Hm Hv. assert (forall x, x .& m = x mod 128 .& m) as E; [|by rewrite (E v), (E w), Hv].
  intros x. change 128 with (2 ^ 7). rewrite <- land_mask by lia. rewrite <- Z.land_assoc.
  rewrite (Z.land_comm (Z.ones 7)), land_mask, Z.mod_small by (norm_pow; lia). done.
Qed.

Lemma encode_bit_eq s v b : bit b -> s mod 64 = v mod 64 ->
  encode_bit s b = ([Partab.[(2 * v + b) .& POLYA]; Partab.[(2 * v + b) .& POLYB]], u8 (2 * s + b)).
Proof.
  intros Hb Hs. unfold encode_bit. assert ((s << 1) .| b = 2 * s + b) as ->.
  { destruct Hb as [-> | ->]; rewrite (lor_shl_add _ _ 1) by (norm_pow; lia); norm_pow; lia. }
  assert (u8 (2 * s + b) mod 128 = (2 * v + b) mod 128) as E by (unfold ux; norm_pow; divlia).
  by rewrite (land_low _ _ POLYA ltac:(unfold POLYA; lia) E), (land_low _ _ POLYB ltac:(unfold POLYB; lia) E).
Qed.

Lemma encode_bits_app bits1 bits2 s : encode_bits (bits1 ++ bits2) s =
  let '(r1, s) := encode_bits bits1 s in let '(r2, s) := encode_bits bits2 s in (r1 ++ r2, s).
Proof.
  revert s. induction bits1 as [|b bits IH]; intros s; cbn [app encode_bits]; [by destruct (encode_bits bits2 s)|].
  destruct (encode_bit s b) as [r s1]. rewrite IH. destruct (encode_bits bits s1) as [r1 s2].
  destruct (encode_bits bits2 s2) as [r2 s3]. by rewrite app_assoc.
Qed.

Lemma encode_bits_end bits s : Forall bit bits ->
  length (encode_bits bits s).1 = (2 * length bits)%nat /\ (encode_bits bits s).2 mod 64 = walk s bits mod 64.
Proof.
  intros Hb. revert s. induction Hb as [|b bits Hb Hbs IH]; intros s; cbn [encode_bits]; [done|].
  rewrite (encode_bit_eq s s b) by done. specialize (IH (u8 (2 * s + b))).
  destruct (encode_bits bits _) as [r e] eqn:E. cbn [fst snd] in *. destruct IH as [Hl He]. split; [cbn; lia|].
  rewrite He. clear. unfold walk. cbn [fold_left]. generalize (2 * s + b) as v. intros v.
  assert (forall a c, a mod 64 = c mod 64 -> fold_left (fun v b => 2 * v + b) bits a mod 64 = fold_left (fun v b => 2 * v + b) bits c mod 64) as H.
  { induction bits as [|b' bits IH]; intros a c Hac; cbn; [done|]. apply IH. divlia. }
  apply H. unfold ux. norm_pow. divlia.
Qed.

Lemma likelihood_app mettab r1 r2 s1 s2 : length r1 = length s1 ->
  likelihood mettab (r1 ++ r2) (s1 ++ s2) = likelihood mettab r1 s1 + likelihood mettab r2 s2.
Proof.
  unfold likelihood. revert s1. induction r1 as [|r r1 IH]; intros [|s s1] Hl; try done.
  cbn. rewrite IH by (cbn in Hl; lia). lia.
Qed.

Lemma take_pair (l : list Z) n : (2 * S n <= length l)%nat ->
  take (2 * S n) l = take (2 * n) l ++ [l.[2 * Z.of_nat n]; l.[2 * Z.of_nat n + 1]].
Proof.
  intros Hl. destruct (lookup_lt_is_Some_2 l (2 * n)) as [a Ha]; [lia|].
  destruct (lookup_lt_is_Some_2 l (S (2 * n))) as [b Hb]; [lia|].
  replace (2 * S n)%nat with (S (S (2 * n))) by lia. rewrite (take_S_r _ _ b), (take_S_r _ _ a) by done.
  rewrite <- app_assoc. cbn [app]. f_equal. f_equal; [|f_equal]; symmetry; apply aget_lookup; try lia.
  - by replace (Z.to_nat (2 * Z.of_nat n)) with (2 * n)%nat by lia.
  - by replace (Z.to_nat (2 * Z.of_nat n + 1)) with (S (2 * n)) by lia.
Qed.

Lemma pair_metric (mettab : list (list Z)) a b x y : bit x -> bit y ->
  [mettab.[0].[a] + mettab.[0].[b]; mettab.[0].[a] + mettab.[1].[b];
   mettab.[1].[a] + mettab.[0].[b]; mettab.[1].[a] + mettab.[1].[b]].[2 * x + y] = mettab.[x].[a] + mettab.[y].[b].
Proof. by intros [-> | ->] [-> | ->]. Qed.

(** The metric of a path is that of the symbols its bits are coded to. *)
Lemma path_metric_likelihood B mettab symbols s bits : table_bounded B mettab -> 2 * B < 2 ^ 31 -> Forall bit bits ->
  (2 * length bits <= length symbols)%nat ->
  path_metric (history mettab symbols (length bits)) (walk s bits) =
  start_metric s + likelihood mettab (take (2 * length bits) symbols) (encode_bits bits s).1.
Proof.
  intros Ht HB Hb Hl. induction bits as [|b bits IH] using rev_ind.
  { unfold likelihood. rewrite Nat.mul_0_r, take_0. cbn [length history path_metric zip_with foldr]. rewrite Z.add_0_r. done. }
  apply Forall_app in Hb as [Hbs [Hb _]%Forall_cons]. rewrite length_app in *. cbn [length] in *.
  replace (length bits + 1)%nat with (S (length bits)) in * by lia.
  rewrite walk_snoc. cbn [history path_metric].
  assert ((2 * walk s bits + b) / 2 = walk s bits) as -> by (destruct Hb as [-> | ->]; divlia).
  rewrite IH by (done || lia). rewrite encode_bits_app.
  destruct (encode_bits_end bits s Hbs) as [Hel Hes]. destruct (encode_bits bits s) as [r e]. cbn [fst snd] in *.
  cbn [encode_bits]. rewrite (encode_bit_eq e (walk s bits) b) by done. cbn [fst app].
  rewrite take_pair by lia. rewrite likelihood_app by (rewrite length_take; lia).
  rewrite <- Z.add_assoc. do 2 f_equal. destruct (branch_metrics_id B mettab symbols.[2 * Z.of_nat (length bits)] symbols.[2 * Z.of_nat (length bits) + 1] Ht HB) as [-> _].
  unfold likelihood, code. cbn [zip_with foldr].
  rewrite (land_low ((2 * walk s bits + b) mod 128) (2 * walk s bits + b) POLYA), (land_low ((2 * walk s bits + b) mod 128) (2 * walk s bits + b) POLYB)
    by (done || (unfold POLYA, POLYB; lia) || by rewrite Z.mod_mod).
  rewrite pair_metric by (apply partab_bit; unfold POLYA, POLYB; lia). lia.
Qed.

(** Every path is a walk. *)
Lemma path_walk n v : is_path n v -> exists s bits, 0 <= s < 64 /\ length bits = n /\ Forall bit bits /\
  v = walk s bits /\ s = v >> Z.of_nat n.
Proof.
  revert v. induction n as [|n IH]; intros v Hv.
  { exists v, []. split_and!; try done; apply Hv. }
  assert (is_path n (v / 2)) as Hv2.
  { unfold is_path in *. replace (Z.of_nat (S n) + 6) with (Z.succ (Z.of_nat n + 6)) in Hv by lia.
    rewrite Z.pow_succ_r in Hv by lia. divlia. }
  destruct (IH _ Hv2) as (s & bits & Hs & Hl & Hb & Hw & Hsv). exists s, (bits ++ [v mod 2]). split_and!; [lia|lia|..].
  - rewrite length_app. cbn. lia.
  - apply Forall_app. split; [done|]. constructor; [|done]. unfold bit. divlia.
  - rewrite walk_snoc, <- Hw. divlia.
  - by rewrite <- shift_down.
Qed.

Lemma walk_is_path s bits : 0 <= s < 64 -> Forall bit bits -> is_path (length bits) (walk s bits).
Proof.
  intros Hs Hb. unfold is_path. induction bits as [|b bits IH] using rev_ind; [cbn; lia|].
  apply Forall_app in Hb as [Hbs [Hb _]%Forall_cons]. specialize (IH Hbs). rewrite walk_snoc, length_app. cbn [length].
  replace (Z.of_nat (length bits + 1) + 6) with (Z.succ (Z.of_nat (length bits) + 6)) by lia. rewrite Z.pow_succ_r by lia.
  destruct Hb as [-> | ->]; lia.
Qed.

(** ** The block decoder *)

(** The path memory may be garbage above its 64 bits. *)
Lemma byte_of_path p q k : u64 p = u64 q -> 0 <= k <= 24 -> u8 (p >> k) = u8 (q >> k).
Proof.
  intros E Hk. apply Z.bits_inj'. intros i Hi. unfold ux in *. destruct (Z.lt_ge_cases i 8).
  - rewrite !Z.mod_pow2_bits_low by lia. rewrite !Z.shiftr_spec by lia.
    rewrite <- (Z.mod_pow2_bits_low p 64), <- (Z.mod_pow2_bits_low q 64) by lia. by rewrite E.
  - by rewrite !Z.mod_pow2_bits_high by lia.
Qed.


Lemma chunks_init_upto state n : length state = 64%nat -> (n <= 63)%nat ->
  let r := fold_left (fun state i => state.[i <- {| path := path state.[i]; metric := -999999 |}]) (zseq 1 n)
    state.[0 <- {| path := 0; metric := 0 |}] in
  length r = 64%nat /\ forall j, 0 <= j < 64 -> r.[j] =
    if j =? 0 then {| path := 0; metric := 0 |}
    else if j <=? Z.of_nat n then {| path := path state.[j]; metric := -999999 |} else state.[j].
Proof.
  intros Hl. induction n as [|n IH]; intros Hn; cbv zeta in *.
  { unfold zseq. cbn [seq map fold_left]. split; [by rewrite length_aset|]. intros j Hj. rewrite aget_aset by lia.
    destruct (Z.eqb_spec 0 j), (Z.eqb_spec j 0), (Z.leb_spec j (Z.of_nat 0)); done || lia. }
  destruct IH as [IHl IH]; [lia|]. unfold zseq in *. rewrite seq_S, map_app, fold_left_app. cbn [map fold_left].
  split; [by rewrite length_aset|]. intros j Hj. rewrite aget_aset by lia. rewrite !IH by lia.
  destruct (Z.eqb_spec (Z.of_nat (1 + n)) j) as [<-|].
  - rewrite (proj2 (Z.eqb_neq _ _)) by lia. destruct (Z.leb_spec (Z.of_nat (1 + n)) (Z.of_nat n)), (Z.leb_spec (Z.of_nat (1 + n)) (Z.of_nat (S n))); done || lia.
  - case_if; [done|]. destruct (Z.leb_spec j (Z.of_nat n)), (Z.leb_spec j (Z.of_nat (S n))); done || lia.
Qed.

Lemma chunks_init_spec state : length state = 64%nat -> length (viterbi_chunks_init state) = 64%nat /\
  forall j, 0 <= j < 64 -> (viterbi_chunks_init state).[j] =
    if j =? 0 then {| path := 0; metric := 0 |} else {| path := path state.[j]; metric := -999999 |}.
Proof.
  intros Hl. destruct (chunks_init_upto state 63 Hl ltac:(lia)) as [H1 H2]. split; [exact H1|]. intros j Hj.
  unfold viterbi_chunks_init. rewrite H2 by done. case_if; [done|]. by rewrite (proj2 (Z.leb_le _ _)) by lia.
Qed.

(** The path memory that [viterbi_chunks_init] leaves. *)
Definition path_at_start (state : list viterbi_state) (s : Z) : Z := if s =? 0 then 0 else path state.[s].

Lemma chunks_init_survivors state : length state = 64%nat ->
  survivors (path_at_start state) [] (viterbi_chunks_init state).
Proof.
  intros Hl. destruct (chunks_init_spec state Hl) as [H1 H2].
  assert (forall j, 0 <= j < 64 -> holds (path_at_start state) [] (viterbi_chunks_init state).[j] j) as Hh.
  { intros j Hj. rewrite H2 by done. unfold holds, path_at_start. cbn [path_metric length]. change (Z.of_nat 0) with 0.
    rewrite Z.shiftr_0_r, Z.div_small, Z.add_0_r by lia. change (2 ^ 0) with 1. rewrite Z.mul_1_r. unfold start_metric.
    by case_if. }
  split; [done| |].
  - intros v Hv. unfold is_path in Hv. cbn in Hv. rewrite (Z.mod_small v) by lia. destruct (Hh v ltac:(lia)) as [-> _]. lia.
  - intros j Hj. exists j. split; [unfold is_path; cbn; lia|]. split; [by apply Z.mod_small|by apply Hh].
Qed.

Section Block.
Context (B : Z) (mettab : list (list Z)) (Hmet : table_bounded B mettab).

Lemma bound_nonneg : 0 <= B.
Proof using Hmet. pose proof (Hmet 0 0). lia. Qed.

(** A step of any of the decoders. *)
Lemma step_survives p0 symbols n state next a b : survivors p0 (history mettab symbols n) state ->
  length next = 64%nat -> 999999 + 2 * B * Z.of_nat (S n) < 2 ^ 31 ->
  a = symbols.[2 * Z.of_nat n] -> b = symbols.[2 * Z.of_nat n + 1] ->
  survivors p0 (history mettab symbols (S n)) (butterflies (branch_metrics mettab a b) state next).
Proof using Hmet.
  intros Hs Hn Hlim -> ->. pose proof bound_nonneg as HB. cbn [history].
  apply (survivors_step p0 (2 * B)); [lia|done|done| |by rewrite history_length].
  apply (history_bounded B mettab symbols (S n) Hmet). lia.
Qed.

Lemma loop_survives symbols state0 state1 n : length state0 = 64%nat -> length state1 = 64%nat ->
  999999 + 2 * B * Z.of_nat n < 2 ^ 31 ->
  let '(state, next, _) := fold_left (fun st bitcnt => viterbi_loop mettab symbols bitcnt st) (zseq 0 n)
    (viterbi_chunks_init state0, state1, []) in
  survivors (path_at_start state0) (history mettab symbols n) state /\ length next = 64%nat.
Proof using Hmet.
  intros H0 H1. induction n as [|n IH]; intros Hlim; [by split; [apply chunks_init_survivors|]|].
  unfold zseq in *. rewrite seq_S, map_app, fold_left_app. cbn [map fold_left Nat.add].
  pose proof bound_nonneg. specialize (IH ltac:(lia)). destruct (fold_left _ _ _) as [[state next] data]. destruct IH as [Hs Hn].
  cbn [viterbi_loop]. split; [by eapply step_survives|apply Hs].
Qed.

(** The metric of a message sent from the state [s] of the encoder. *)
Definition metric_of (symbols : list Z) (s : Z) (bits : list Z) : Z :=
  start_metric s + likelihood mettab (take (2 * length bits) symbols) (encode_bits bits s).1.

(** No message of that length has a better metric. *)
Definition best_message (symbols : list Z) (k : nat) (s : Z) (bits : list Z) : Prop :=
  0 <= s < 64 /\ length bits = k /\ Forall bit bits /\
  forall s' bits', 0 <= s' < 64 -> length bits' = k -> Forall bit bits' -> metric_of symbols s' bits' <= metric_of symbols s bits.

(** The path memory after the message. *)
Definition path_word (state0 : list viterbi_state) (s : Z) (bits : list Z) : Z :=
  path_at_start state0 s * 2 ^ Z.of_nat (length bits) + walk s bits / 64.

(** After how many bits the loop writes a byte. *)
Definition writing_times (n : nat) : list Z := map (fun j => 38 + 8 * j) (zseq 0 (Z.to_nat ((Z.of_nat n - 30) / 8))).

Lemma writing_times_S n : writing_times (S n) =
  writing_times n ++ (if (Z.of_nat n mod 8 =? 5) && (32 <? Z.of_nat n) then [Z.of_nat n + 1] else []).
Proof using Type.
  unfold writing_times. destruct ((Z.of_nat n mod 8 =? 5) && (32 <? Z.of_nat n)) eqn:E.
  - apply andb_true_iff in E as [E1%Z.eqb_eq E2%Z.ltb_lt].
    assert (Z.to_nat ((Z.of_nat (S n) - 30) / 8) = S (Z.to_nat ((Z.of_nat n - 30) / 8))) as -> by divlia.
    rewrite map_zseq_snoc. do 2 f_equal. divlia.
  - rewrite app_nil_r. assert (~ (Z.of_nat n mod 8 = 5 /\ 32 < Z.of_nat n)) as Hn.
    { intros [E1%Z.eqb_eq E2%Z.ltb_lt]. by rewrite E1, E2 in E. }
    by assert (Z.to_nat ((Z.of_nat (S n) - 30) / 8) = Z.to_nat ((Z.of_nat n - 30) / 8)) as -> by divlia.
Qed.

Lemma path_metric_of symbols s bits : (2 * length bits <= length symbols)%nat ->
  999999 + 2 * B * Z.of_nat (length bits) < 2 ^ 31 -> Forall bit bits ->
  path_metric (history mettab symbols (length bits)) (walk s bits) = metric_of symbols s bits.
Proof using Hmet.
  intros Hl Hlim Hb. destruct bits as [|b bits]; [unfold metric_of, likelihood; cbn; by rewrite Z.add_0_r|].
  pose proof bound_nonneg. apply (path_metric_likelihood B); [done|cbn [length] in Hlim; lia|done..].
Qed.

(** The best state holds a best message. *)
Lemma best_state_message symbols state0 state k : survivors (path_at_start state0) (history mettab symbols k) state ->
  (2 * k <= length symbols)%nat -> 999999 + 2 * B * Z.of_nat k < 2 ^ 31 ->
  exists s bits, best_message symbols k s bits /\ metric_of symbols s bits = metric state.[(best_state state).1] /\
    u64 (path state.[(best_state state).1]) = u64 (path_word state0 s bits).
Proof using Hmet.
  intros Hs Hl Hlim. destruct (best_is_best state) as (Hb & Em & Hbest). set (j := (best_state state).1) in *. rewrite Em in Hbest.
  destruct (sv_path _ _ _ Hs j Hb) as (v & Hv & Hvj & Hm & Hp). rewrite history_length in Hv, Hp.
  destruct (path_walk k v Hv) as (s & bits & Hs1 & <- & Hbits & -> & Es). rewrite <- Es in Hp.
  rewrite path_metric_of in Hm by done. exists s, bits. split; [|split; [done|exact Hp]].
  split_and!; [lia..|done|done|]. intros s' bits' Hs' Hlb' Hbits'. rewrite Hm, <- path_metric_of by (done || by rewrite Hlb').
  rewrite Hlb'. pose proof (walk_is_path s' bits' Hs' Hbits') as Hpath. rewrite Hlb' in Hpath.
  pose proof (sv_best _ _ _ Hs (walk s' bits')) as Hle. rewrite history_length in Hle.
  etransitivity; [by apply Hle|]. apply Hbest, Z.mod_pos_bound. lia.
Qed.

(** The byte that is written 30 bits later. *)
Lemma written_byte p s bits : (38 <= length bits)%nat -> Forall bit bits ->
  u8 ((p * 2 ^ Z.of_nat (length bits) + walk s bits / 64) >> 24) = walk 0 (take 8 (drop (length bits - 38) bits)).
Proof using Type.
  intros Hl Hb. set (k := (length bits - 38)%nat). set (b8 := take 8 (drop k bits)). set (post := drop 8 (drop k bits)).
  assert (walk s bits = (walk s (take k bits) * 2 ^ 8 + walk 0 b8) * 2 ^ 30 + walk 0 post) as ->.
  { rewrite <- (take_drop k bits) at 1. rewrite <- (take_drop 8 (drop k bits)) at 1. fold b8 post. rewrite !walk_app.
    rewrite (walk_split _ post), (walk_split _ b8).
    assert (length post = 30%nat) as -> by (unfold post; rewrite !length_drop; lia).
    assert (length b8 = 8%nat) as -> by (unfold b8; rewrite length_take, length_drop; lia). done. }
  assert (0 <= walk 0 post < 2 ^ 30) as Hp.
  { pose proof (walk_range post) as H. assert (length post = 30%nat) as E by (unfold post; rewrite !length_drop; lia).
    rewrite E in H. apply H. by apply Forall_drop, Forall_drop. }
  assert (0 <= walk 0 b8 < 2 ^ 8) as H8.
  { pose proof (walk_range b8) as H. assert (length b8 = 8%nat) as E by (unfold b8; rewrite length_take, length_drop; lia).
    rewrite E in H. apply H. by apply Forall_take, Forall_drop. }
  replace (Z.of_nat (length bits)) with (Z.of_nat (length bits) - 32 + 32) by lia. rewrite Z.pow_add_r by lia.
  set (q := 2 ^ (Z.of_nat (length bits) - 32)). rewrite shr_div by lia. unfold ux. revert Hp H8. norm_pow. intros. divlia.
Qed.

(** What the loop has written after [n] bits. *)
Lemma loop_writes symbols state0 state1 n : length state0 = 64%nat -> length state1 = 64%nat ->
  (2 * n <= length symbols)%nat -> 999999 + 2 * B * Z.of_nat n < 2 ^ 31 ->
  let '(_, _, data) := fold_left (fun st bitcnt => viterbi_loop mettab symbols bitcnt st) (zseq 0 n)
    (viterbi_chunks_init state0, state1, []) in
  Forall2 (fun k byte => exists s bits, best_message symbols (Z.to_nat k) s bits /\
    byte = walk 0 (take 8 (drop (Z.to_nat k - 38) bits))) (writing_times n) data.
Proof using Hmet.
  intros H0 H1 Hl Hlim. induction n as [|n IH]; [by constructor|].
  pose proof bound_nonneg. pose proof (loop_survives symbols state0 state1 (S n) H0 H1 Hlim) as Hs.
  rewrite writing_times_S. unfold zseq in *. rewrite seq_S, map_app, fold_left_app in *. cbn [map fold_left Nat.add] in *.
  specialize (IH ltac:(lia) ltac:(lia)). destruct (fold_left _ _ _) as [[state next] data]. cbn [viterbi_loop] in *.
  destruct Hs as [Hs _]. set (state' := butterflies _ _ _) in *.
  destruct ((Z.of_nat n mod 8 =? 5) && (32 <? Z.of_nat n)) eqn:E; [|by rewrite app_nil_r].
  apply Forall2_app; [done|]. constructor; [|done].
  apply andb_true_iff in E as [E1%Z.eqb_eq E2%Z.ltb_lt].
  assert (38 <= S n)%nat as Hn by divlia. replace (Z.to_nat (Z.of_nat n + 1)) with (S n) by lia.
  destruct (best_state_message symbols state0 state' (S n) Hs Hl Hlim) as (s & bits & Hbest & _ & Hw).
  exists s, bits. split; [done|]. rewrite (byte_of_path _ _ 24 Hw) by lia. unfold path_word.
  destruct Hbest as (_ & Hlb & Hbits & _). rewrite <- Hlb. apply written_byte; [lia|done].
Qed.

(** C4. The block decoder is a maximum likelihood decoder.  The metric it returns
    is that of the best message: no message, from any state of the encoder, has a
    better one, and the last four bytes it writes are the bits of a message that
    has it, shifted so that they end a byte (the six bits that are still in the
    encoder are left out).  Each byte before them was written after [k] bits, for
    [k] = 38, 46 and so on up to [nbits], and is the eight bits from [k - 38] on of
    a best message for the symbols up to there.  A message that starts anywhere but
    in state 0 has a handicap.  The metrics of [nbits] steps have to fit an [int]. *)
Theorem viterbi_is_maximum_likelihood symbols n state0 state1 :
  length state0 = 64%nat -> length state1 = 64%nat -> (2 * n <= length symbols)%nat ->
  999999 + 2 * B * Z.of_nat n < 2 ^ 31 -> Z.of_nat n mod 8 <> 7 ->
  exists first last4 m, viterbi symbols n mettab state0 state1 = Some (first ++ last4, m) /\
    (exists s bits, best_message symbols n s bits /\ metric_of symbols s bits = m /\
      let word := path_word state0 s bits * 2 ^ (6 - Z.of_nat n mod 8) in
      last4 = [u8 (word >> 24); u8 (word >> 16); u8 (word >> 8); u8 word]) /\
    Forall2 (fun k byte => exists s bits, best_message symbols (Z.to_nat k) s bits /\
      byte = walk 0 (take 8 (drop (Z.to_nat k - 38) bits))) (writing_times n) first.
Proof using Hmet.
  intros H0 H1 Hl Hlim Hn7. pose proof (loop_survives symbols state0 state1 n H0 H1 Hlim) as Hs.
  pose proof (loop_writes symbols state0 state1 n H0 H1 Hl Hlim) as Hw.
  unfold viterbi. destruct (fold_left _ _ _) as [[state next] data]. destruct Hs as [Hs _].
  destruct (best_state_message symbols state0 state n Hs Hl Hlim) as (s & bits & Hbest & Hm & Hp).
  destruct (best_state state) as [j m]. cbn [fst snd] in *.
  rewrite (proj2 (Z.eqb_neq _ 7)) by done. eexists data, _, _. split; [reflexivity|]. split; [|done].
  exists s, bits. split; [done|]. split; [done|]. cbv zeta. set (X := path_word state0 s bits) in *.
  assert (u64 (if negb (Z.of_nat n mod 8 =? 6) then u64 (path state.[j] << (6 - Z.of_nat n mod 8)) else path state.[j]) =
    u64 (X * 2 ^ (6 - Z.of_nat n mod 8))) as E.
  { destruct (Z.eqb_spec (Z.of_nat n mod 8) 6) as [-> |]; cbn [negb].
    - change (2 ^ (6 - 6)) with 1. by rewrite Z.mul_1_r.
    - assert (0 <= 6 - Z.of_nat n mod 8) by divlia. rewrite u64_u64, shl_mul by done. revert Hp. unfold ux. intros Hp.
      by rewrite <- Z.mul_mod_idemp_l, Hp, Z.mul_mod_idemp_l by done. }
  rewrite !(byte_of_path _ _ _ E) by lia. pose proof (byte_of_path _ _ 0 E ltac:(lia)) as E0.
  rewrite !Z.shiftr_0_r in E0. by rewrite E0.
Qed.
End Block.

(** ** The distance of the code

    Paths that part differ in many symbols.  The code is linear, so this is about
    the weight of one path, the difference. *)

Definition weight (v : Z) : Z := Partab.[v .& POLYA] + Partab.[v .& POLYB].

Fixpoint path_weight (n : nat) (d : Z) : Z :=
  match n with
  | O => 0
  | S n => path_weight n (d / 2) + weight (d mod 128)
  end.

Definition parity (v : Z) : bool :=
  foldr xorb false (map (Z.testbit v) (zseq 0 8)).

Lemma partab_parity_checked : all_below 256 (fun v => Partab.[v] =? Z.b2z (parity v)) = true.
Proof. vm_compute. reflexivity. Qed.

Lemma partab_parity v m : 0 <= m < 256 -> Partab.[v .& m] = Z.b2z (parity (v .& m)).
Proof.
  intros Hm. pose proof (land_range v m ltac:(lia)).
  pose proof (all_below_spec _ _ partab_parity_checked (v .& m) ltac:(lia)) as Hp. cbv beta in Hp. by zbool.
Qed.

Lemma parity_xor x y : parity (x .^ y) = xorb (parity x) (parity y).
Proof.
  unfold parity. induction (zseq 0 8) as [|i l IH]; [done|]. cbn [map foldr]. rewrite IH, Z.lxor_spec.
  by destruct (Z.testbit x i), (Z.testbit y i), (foldr xorb false (map (Z.testbit x) l)), (foldr xorb false (map (Z.testbit y) l)).
Qed.

Lemma symbols_differ x y m : 0 <= m < 256 ->
  Partab.[(x .^ y) .& m] = (if Partab.[x .& m] =? Partab.[y .& m] then 0 else 1).
Proof.
  intros Hm. rewrite !partab_parity by done. assert ((x .^ y) .& m = (x .& m) .^ (y .& m)) as ->.
  { apply Z.bits_inj'. intros i Hi. rewrite Z.land_spec, !Z.lxor_spec, !Z.land_spec.
    by destruct (Z.testbit x i), (Z.testbit y i), (Z.testbit m i). }
  rewrite parity_xor. by destruct (parity (x .& m)), (parity (y .& m)).
Qed.

Lemma weight_range v : 0 <= weight v <= 2.
Proof.
  unfold weight. destruct (partab_bit v POLYA ltac:(unfold POLYA; lia)) as [-> | ->],
    (partab_bit v POLYB ltac:(unfold POLYB; lia)) as [-> | ->]; lia.
Qed.

Lemma path_weight_nonneg n d : 0 <= path_weight n d.
Proof. revert d. induction n as [|n IH]; intros d; cbn; [lia|]. pose proof (weight_range (d mod 128)). specialize (IH (d / 2)). lia. Qed.

Lemma path_weight_0 n : path_weight n 0 = 0.
Proof. induction n as [|n IH]; [done|]. cbn [path_weight]. change (0 / 2) with 0. rewrite IH. done. Qed.

(** The least weight of a path that parted [m] steps ago and is now in each state. *)
Definition lighter (l : list Z) : list Z := map (fun j =>
  let v := 2 * (j / 2) + j mod 2 in
  Z.min (l.[j / 2] + weight v) (l.[j / 2 + 32] + weight (v + 64))) (zseq 0 64).
Definition parted : list Z := (replicate 64 1000).[1 <- 2].
Definition lightest (m : nat) : list Z := Nat.iter m lighter parted.

Lemma lightest_checked : forallb (fun w => 10 <=? w) (lightest 30) = true.
Proof. vm_compute. reflexivity. Qed.

Lemma lightest_bound m d n : 2 ^ Z.of_nat m <= d < 2 ^ (Z.of_nat m + 1) -> (m < n)%nat ->
  (lightest m).[d mod 64] <= path_weight n d.
Proof.
  revert d n. induction m as [|m IH]; intros d n Hd Hn.
  { cbn in Hd. assert (d = 1) as -> by lia. destruct n as [|n]; [lia|]. cbn [path_weight]. change (1 / 2) with 0.
    rewrite path_weight_0. vm_compute. discriminate. }
  destruct n as [|n]; [lia|]. cbn [path_weight].
  rewrite Nat2Z.inj_succ in Hd. replace (Z.succ (Z.of_nat m) + 1) with (Z.succ (Z.of_nat m + 1)) in Hd by lia.
  rewrite !Z.pow_succ_r in Hd by lia. specialize (IH (d / 2) n ltac:(divlia) ltac:(lia)).
  assert (0 <= d mod 64 < 64) as Hj by (apply Z.mod_pos_bound; lia).
  change (lightest (S m)) with (lighter (lightest m)). unfold lighter. rewrite map_zseq_get by lia. cbv zeta.
  assert (0 <= d) as Hd0 by (pose proof (Z.pow_nonneg 2 (Z.of_nat m)); lia).
  destruct (came_from d Hd0) as [[E1 E2]|[E1 E2]]; cbv zeta in *; rewrite E1 in IH; rewrite E2; lia.
Qed.

Lemma path_weight_less n k d : path_weight n (d >> Z.of_nat k) <= path_weight (n + k) d.
Proof.
  revert d. induction k as [|k IH]; intros d; [rewrite Nat.add_0_r, Z.shiftr_0_r; lia|].
  rewrite Nat.add_succ_r. cbn [path_weight]. rewrite <- shift_down. pose proof (weight_range (d mod 128)).
  specialize (IH (d / 2)). lia.
Qed.

(** Thirty steps after they part, paths differ in ten symbols at least. *)
Lemma free_distance n d : 2 ^ 30 <= d < 2 ^ Z.of_nat n -> 10 <= path_weight n d.
Proof.
  intros Hd. assert (0 < d) as Hd0 by lia. destruct (Z.log2_spec d Hd0) as [Hl1 Hl2].
  assert (30 <= Z.log2 d) as Hl by (apply Z.log2_le_pow2; lia).
  assert (Z.log2 d < Z.of_nat n) as Hln by (apply Z.log2_lt_pow2; lia).
  set (k := Z.to_nat (Z.log2 d - 30)). assert (Z.of_nat k = Z.log2 d - 30) as Hk by lia.
  replace n with (n - k + k)%nat by lia. etransitivity; [|apply path_weight_less].
  assert (2 ^ Z.of_nat 30 <= d >> Z.of_nat k < 2 ^ (Z.of_nat 30 + 1)) as Hs.
  { rewrite shr_div by lia. assert (0 < 2 ^ Z.of_nat k) by (apply Z.pow_pos_nonneg; lia). split.
    - apply Z.div_le_lower_bound; [done|]. rewrite <- Z.pow_add_r by lia. rewrite Hk. by replace (Z.log2 d - 30 + Z.of_nat 30) with (Z.log2 d) by lia.
    - apply Z.div_lt_upper_bound; [done|]. rewrite <- Z.pow_add_r by lia. rewrite Hk.
      by replace (Z.log2 d - 30 + (Z.of_nat 30 + 1)) with (Z.succ (Z.log2 d)) by lia. }
  etransitivity; [|apply (lightest_bound 30); [done|lia]].
  pose proof lightest_checked as Hc. assert (In (lightest 30).[(d >> Z.of_nat k) mod 64] (lightest 30)) as Hin.
  { apply list_elem_of_In, aget_elem. assert (length (lightest 30) = 64%nat) as -> by done. apply Z.mod_pos_bound. lia. }
  rewrite forallb_forall in Hc. specialize (Hc _ Hin). by apply Z.leb_le in Hc.
Qed.

(** ** Correcting errors

    Each received symbol is one of two values, [s0] for a zero and [s1] for a one;
    [low] and [high] bound what a symbol's metric loses when the bit is wrong. *)

Record separates (mettab : list (list Z)) (s0 s1 low high : Z) : Prop := {
  zero_loses : low <= mettab.[0].[s0] - mettab.[1].[s0] <= high;
  one_loses : low <= mettab.[1].[s1] - mettab.[0].[s1] <= high;
  loses_some : 0 < low;
  about_alike : 2 * high < 3 * low;
  start_known : 4 * (low + high) < 999999
}.

(** Received symbols for hard bits. *)
Definition channel (s0 s1 q : Z) : Z := if q =? 0 then s0 else s1.

(** The number of places where two lists of bits differ. *)
Definition hamming (l1 l2 : list Z) : Z :=
  foldr Z.add 0 (zip_with (fun x y => if x =? y then 0 else 1) l1 l2).

(** As a metric: what a table that counts agreements gives. *)
Definition disagreements : list (list Z) := [[0; 1]; [1; 0]].

Lemma hamming_likelihood l1 l2 : Forall bit l1 -> Forall bit l2 -> hamming l1 l2 = likelihood disagreements l1 l2.
Proof.
  unfold hamming, likelihood. intros H1. revert l2. induction H1 as [|x l1 Hx H1 IH]; intros [|y l2] H2; try done.
  apply Forall_cons in H2 as [Hy H2]. cbn [zip_with foldr]. rewrite IH by done. f_equal.
  by destruct Hx as [-> | ->], Hy as [-> | ->].
Qed.

Lemma encode_bits_bits bits s : Forall bit bits -> Forall bit (encode_bits bits s).1.
Proof.
  intros Hb. revert s. induction Hb as [|b bits Hb Hbs IH]; intros s; cbn [encode_bits]; [done|].
  rewrite (encode_bit_eq s s b) by done. specialize (IH (u8 (2 * s + b))). destruct (encode_bits bits _) as [r e].
  cbn [fst app] in *. repeat (constructor; [apply partab_bit; unfold POLYA, POLYB; lia|]). done.
Qed.

Section Correct.
Context (mettab : list (list Z)) (s0 s1 low high B : Z) (Hsep : separates mettab s0 s1 low high).
Context (Hmet : table_bounded B mettab) (HB : 2 * B < 2 ^ 31).

(** One symbol: [x] sent, [y] on another path, [q] received. *)
Lemma symbol_gain x y q : bit x -> bit y -> bit q ->
  mettab.[y].[channel s0 s1 q] <= mettab.[x].[channel s0 s1 q]
    - low * (if x =? y then 0 else 1) + (low + high) * disagreements.[x].[q].
Proof using Hsep.
  destruct Hsep as [H0 H1 Hl _ _].
  intros [-> | ->] [-> | ->] [-> | ->]; unfold channel; cbn [Z.eqb Pos.eqb];
    repeat match goal with |- context [disagreements.[?x].[?q]] =>
      let v := eval vm_compute in disagreements.[x].[q] in change (disagreements.[x].[q]) with v end; lia.
Qed.

Lemma disagreements_bounded : table_bounded 1 disagreements.
Proof using Type.
  intros b r. apply (aget_Forall_dflt (fun m => - (1) <= m <= 1)); [|by vm_compute].
  apply (aget_Forall_dflt (Forall (fun m => - (1) <= m <= 1))); [|done]. unfold disagreements. repeat constructor; lia.
Qed.

Lemma code_metric tab b a a' v : table_bounded b tab -> 2 * b < 2 ^ 31 ->
  (branch_metrics tab a a').[code v] = tab.[Partab.[v .& POLYA]].[a] + tab.[Partab.[v .& POLYB]].[a'].
Proof using Type.
  intros Ht Hb. destruct (branch_metrics_id b tab a a' Ht Hb) as [-> _]. unfold code.
  by rewrite pair_metric by (apply partab_bit; unfold POLYA, POLYB; lia).
Qed.

Lemma mod_xor x y : (x .^ y) mod 128 = x mod 128 .^ y mod 128.
Proof using Type.
  change 128 with (2 ^ 7). rewrite <- !land_mask by lia. apply Z.bits_inj'. intros i Hi.
  rewrite !Z.lxor_spec, !Z.land_spec, Z.lxor_spec. by destruct (Z.testbit x i), (Z.testbit y i), (Z.testbit (Z.ones 7) i).
Qed.

Lemma half_xor x y : (x .^ y) / 2 = x / 2 .^ y / 2.
Proof using Type. change 2 with (2 ^ 1). rewrite <- !shr_div by lia. apply Z.shiftr_lxor. Qed.

(** The path sent against any other. *)
Lemma path_gain q n x y : Forall bit q -> (2 * n <= length q)%nat ->
  let h := history mettab (map (channel s0 s1) q) n in
  let err := path_metric (history disagreements q n) x - start_metric (x >> Z.of_nat n) in
  path_metric h y - start_metric (y >> Z.of_nat n) <=
    path_metric h x - start_metric (x >> Z.of_nat n) - low * path_weight n (x .^ y) + (low + high) * err.
Proof using Hsep Hmet HB.
  intros Hq. revert x y. induction n as [|n IH]; intros x y Hn; cbv zeta.
  { cbn [history path_metric path_weight]. change (Z.of_nat 0) with 0. rewrite !Z.shiftr_0_r. lia. }
  cbn [history path_metric path_weight]. specialize (IH (x / 2) (y / 2) ltac:(lia)). cbv zeta in IH.
  rewrite !shift_down in IH. rewrite half_xor, mod_xor.
  rewrite !aget_map by lia. rewrite !(code_metric _ B) by done.
  rewrite !(code_metric disagreements 1) by (apply disagreements_bounded || (norm_pow; lia)).
  set (x' := x mod 128) in *. set (y' := y mod 128) in *. unfold weight.
  rewrite !symbols_differ by (unfold POLYA, POLYB; lia).
  pose proof (fun m Hm k => symbol_gain Partab.[x' .& m] Partab.[y' .& m] q.[k] (partab_bit _ _ Hm) (partab_bit _ _ Hm) (aget_bit _ _ Hq)) as Hg.
  pose proof (Hg POLYA ltac:(unfold POLYA; lia) (2 * Z.of_nat n)) as HA.
  pose proof (Hg POLYB ltac:(unfold POLYB; lia) (2 * Z.of_nat n + 1)) as HB'. nia.
Qed.

(** With at most four errors, the best path is the one sent, but for its last
    thirty bits. *)
Lemma best_path q n bits v : Forall bit q -> (2 * n <= length q)%nat -> Forall bit bits -> length bits = n ->
  hamming (take (2 * n) q) (encode_bits bits 0).1 <= 4 -> is_path n v ->
  let h := history mettab (map (channel s0 s1) q) n in
  path_metric h (walk 0 bits) <= path_metric h v ->
  v >> Z.of_nat n = 0 /\ v >> 30 = walk 0 bits >> 30.
Proof using Hsep Hmet HB.
  intros Hq Hn Hbits Hlb Hham Hv h Hbest. pose proof (path_gain q n (walk 0 bits) v Hq Hn) as Hg. cbv zeta in Hg. fold h in Hg.
  assert (0 <= walk 0 bits < 2 ^ Z.of_nat n) as Hw by (subst n; by apply walk_range).
  assert (walk 0 bits >> Z.of_nat n = 0) as Hw0 by (rewrite shr_div by lia; by apply Z.div_small).
  rewrite Hw0 in Hg. change (start_metric 0) with 0 in Hg.
  assert (path_metric (history disagreements q n) (walk 0 bits) <= 4) as He.
  { subst n. rewrite (path_metric_likelihood 1) by (apply disagreements_bounded || done || (norm_pow; lia)).
    change (start_metric 0) with 0. rewrite <- hamming_likelihood; [done|by apply Forall_take|by apply encode_bits_bits]. }
  destruct Hsep as [Hz _ Hl Ha Hs]. pose proof (path_weight_nonneg n (walk 0 bits .^ v)) as Hwt.
  assert ((low + high) * path_metric (history disagreements q n) (walk 0 bits) <= 4 * (low + high)) as He4 by nia.
  assert (0 <= low * path_weight n (walk 0 bits .^ v)) as Hlw by nia.
  rewrite Z.sub_0_r in Hg.
  assert (v >> Z.of_nat n = 0) as Hv0.
  { unfold start_metric in Hg. destruct (Z.eqb_spec (v >> Z.of_nat n) 0); [done|]. exfalso. lia. }
  split; [done|]. rewrite Hv0 in Hg. change (start_metric 0) with 0 in Hg.
  assert (0 <= v < 2 ^ Z.of_nat n) as Hvn.
  { destruct Hv as [Hv _]. split; [done|]. rewrite shr_div in Hv0 by lia. apply Z.div_small_iff in Hv0; [|apply Z.pow_nonzero; lia].
    destruct Hv0 as [?|?]; [lia|]. pose proof (Z.pow_pos_nonneg 2 (Z.of_nat n) ltac:(lia) ltac:(lia)). lia. }
  pose proof (lxor_range _ _ (Z.of_nat n) ltac:(lia) Hw Hvn) as Hx.
  assert (walk 0 bits .^ v < 2 ^ 30) as Hd.
  { destruct (Z.lt_ge_cases (walk 0 bits .^ v) (2 ^ 30)); [done|]. exfalso.
    assert (2 ^ 30 <= walk 0 bits .^ v < 2 ^ Z.of_nat n) as Hlt by lia. pose proof (free_distance n _ Hlt). nia. }
  symmetry. apply Z.lxor_eq. rewrite <- Z.shiftr_lxor. rewrite shr_div by lia. apply Z.div_small. split; [apply Hx|done].
Qed.
End Correct.

(** ** Witness *)

Definition ex_mettab : list (list Z) :=
  [map (fun s => if s <? 128 then 100 else -300) (zseq 0 256); map (fun s => if s <? 128 then -300 else 100) (zseq 0 256)].

Lemma ex_mettab_bounded : table_bounded 300 ex_mettab.
Proof.
  intros b r. apply (aget_Forall_dflt (fun m => -300 <= m <= 300)); [|by vm_compute].
  apply (aget_Forall_dflt (Forall (fun m => -300 <= m <= 300))); [|done].
  apply (bool_decide_unpack _). vm_compute. exact I.
Qed.

Definition ex_states : list viterbi_state := replicate 64 {| path := 3; metric := 5 |}.

(** Forty bits: one byte is written in the loop, for the best message of 38. *)
Lemma viterbi_is_maximum_likelihood_witness :
  let symbols := map (channel 28 228) (encode [71; 78; 85; 33; 0] 0).1 in
  exists first last4 m, viterbi symbols 40 ex_mettab ex_states ex_states = Some (first ++ last4, m) /\
    exists byte, first = [byte] /\ exists s bits, best_message ex_mettab symbols 38 s bits /\ byte = walk 0 (take 8 bits).
Proof.
  destruct (viterbi_is_maximum_likelihood 300 ex_mettab ex_mettab_bounded (map (channel 28 228) (encode [71; 78; 85; 33; 0] 0).1) 40
    ex_states ex_states eq_refl eq_refl ltac:(apply Nat.leb_le; vm_compute; reflexivity) ltac:(vm_compute; reflexivity) ltac:(vm_compute; discriminate))
    as (first & last4 & m & Hv & _ & Hw).
  exists first, last4, m. split; [exact Hv|]. change (writing_times 40) with [38] in Hw.
  apply Forall2_cons_inv_l in Hw as (byte & rest & Hb & Hrest & ->). apply Forall2_nil_inv_l in Hrest as ->.
  exists byte. split; [reflexivity|]. exact Hb.
Defined.

(** ** What [viterbi] gets wrong *)

(** Six bits after a whole number of bytes, where no shift is needed, the loop has
    already written the first of the last four bytes: it comes twice. *)
Lemma viterbi_repeats_a_byte :
  fst <$> viterbi (map (channel 28 228) (encode [71; 78; 85; 33; 0] 0).1) 38 ex_mettab ex_states ex_states =
  Some [71; 71; 78; 85; 33].
Proof. vm_compute. reflexivity. Qed.

(** One bit later it shifts by a negative count. *)
Lemma viterbi_shift_undefined symbols n mettab state0 state1 : Z.of_nat n mod 8 = 7 ->
  viterbi symbols n mettab state0 state1 = None.
Proof.
  intros Hn. unfold viterbi. destruct (fold_left _ _ _) as [[state next] data]. destruct (best_state state). by rewrite Hn.
Qed.
