(* ===== verification/Ccsds27.v ===== *)
(** * The CCSDS blocks: [gr_encode_ccsds_27_bb.cc], [gr_decode_ccsds_27_fb.cc]

    The encoder block turns each byte into sixteen bits, the decoder block takes
    sixteen floating point samples to a byte.  Over a channel that gets at most
    four bits wrong, and however the scheduler cuts the stream into calls of
    [work], the decoder gives back the bytes, four bytes later. *)

From S2P Require Import Prelude.
From Stdlib Require Import SpecFloat ZifyNat.
From stdpp Require Import list.
From S2P Require Import Float Bits Viterbi.
#[local] Open Scope Z_scope.
#[local] Open Scope cint_scope.

(** ** The encoder *)

Definition gr_encode_ccsds_27_bb : Z := 0.

(** [work]: the output and [d_encstate]. *)
Definition encode_work (noutput_items : Z) (inp : list Z) (d_encstate : Z) : list Z * Z :=
  encode (take (Z.to_nat (noutput_items ÷ 16)) inp) d_encstate.

(** ** The decoder *)

Record decode_ccsds_27_fb := {
  d_state0 : list viterbi_state;
  d_state1 : list viterbi_state;
  d_viterbi_in : list Z;
  d_count : Z
}.

(** The constructor; [junk] is what the memory held.  [d_count] is not set. *)
Definition gr_decode_ccsds_27_fb (junk : decode_ccsds_27_fb) : decode_ccsds_27_fb :=
  {| d_state0 := viterbi_chunks_init (d_state0 junk); d_state1 := d_state1 junk;
     d_viterbi_in := d_viterbi_in junk; d_count := d_count junk |}.

(** Translate and clip. *)
Definition symbol_of (x : spec_float) : Z :=
  let sample := to_float (double_add (double_mul (to_double x) (double_of_int 100)) (double_of_int 128)) in
  let sample :=
    if SFltb (double_of_int 255) (to_double sample) then float_of_int 255
    else if SFltb (to_double sample) (double_of_int 0) then float_of_int 0
    else sample in
  u8 (int_of_floor (to_double sample)).

Section Decoder.
(** [d_mettab], which [gen_met] computes. *)
Context (d_mettab : list (list Z)).

(** The body of the loop of [work]. *)
Definition decode_item (st : decode_ccsds_27_fb * list Z) (x : spec_float) : decode_ccsds_27_fb * list Z :=
  let '(b, out) := st in
  let sym := symbol_of x in
  let viterbi_in := (d_viterbi_in b).[Z.rem (d_count b) 4 <- sym] in
  let '(state0, state1, out) :=
    if Z.rem (d_count b) 4 =? 3 then
      let '(state0, state1) := viterbi_butterfly2 viterbi_in d_mettab (d_state0 b) (d_state1 b) in
      (state0, state1, if Z.rem (d_count b) 16 =? 11 then out ++ [(viterbi_get_output state0).1] else out)
    else (d_state0 b, d_state1 b, out) in
  ({| d_state0 := state0; d_state1 := state1; d_viterbi_in := viterbi_in; d_count := s32 (d_count b + 1) |}, out).

(** [work]: the block and the bytes written. *)
Definition decode_work (noutput_items : Z) (inp : list spec_float) (b : decode_ccsds_27_fb) :
    decode_ccsds_27_fb * list Z :=
  fold_left decode_item (take (Z.to_nat (noutput_items * 16)) inp) (b, []).

(** Calls of [work], one after the other, each on the number of items it was
    asked for and the input from there on. *)
Fixpoint decode_calls (calls : list Z) (inp : list spec_float) (b : decode_ccsds_27_fb) : decode_ccsds_27_fb * list Z :=
  match calls with
  | [] => (b, [])
  | n :: calls =>
      let '(b, out) := decode_work n inp b in
      let '(b, rest) := decode_calls calls (drop (Z.to_nat (n * 16)) inp) b in
      (b, out ++ rest)
  end.
End Decoder.

Fixpoint encode_calls (calls : list Z) (inp : list Z) (d_encstate : Z) : list Z :=
  match calls with
  | [] => []
  | n :: calls =>
      let '(out, d_encstate) := encode_work n inp d_encstate in
      out ++ encode_calls calls (drop (Z.to_nat (n ÷ 16)) inp) d_encstate
  end.

(** The flow graph of [qa_ecc_ccsds_27.py] between the blocks: from a bit to -1.0
    or 1.0. *)
Definition bit_to_float (q : Z) : spec_float := if q =? 0 then float_of_int (-1) else float_of_int 1.

(** ** Calls *)

Lemma encode_app l1 l2 s : encode (l1 ++ l2) s =
  let '(r1, s) := encode l1 s in let '(r2, s) := encode l2 s in (r1 ++ r2, s).
Proof.
  revert s. induction l1 as [|x l1 IH]; intros s; cbn [app encode]; [by destruct (encode l2 s)|].
  destruct (encode_bits (bits_of_byte x) s) as [r s1]. rewrite IH. destruct (encode l1 s1) as [r1 s2].
  destruct (encode l2 s2) as [r2 s3]. by rewrite app_assoc.
Qed.

Definition total (calls : list Z) : Z := foldr Z.add 0 calls.

Lemma total_nonneg calls : Forall (fun n => 0 <= n) calls -> 0 <= total calls.
Proof. unfold total. induction 1; cbn; lia. Qed.

(** Cutting the stream into calls makes no difference. *)
Lemma encode_calls_whole calls inp s : Forall (fun n => 0 <= n /\ (16 | n)) calls ->
  (length inp <= Z.to_nat (total calls ÷ 16))%nat -> encode_calls calls inp s = (encode inp s).1.
Proof.
  intros Hc. revert inp s. induction Hc as [|n calls [Hn Hd] Hcs IH]; intros inp s Hl.
  { change (Z.to_nat (total [] ÷ 16)) with 0%nat in Hl. by destruct inp; [|cbn in Hl; lia]. }
  cbn [encode_calls] in *. change (total (n :: calls)) with (n + total calls) in *. unfold encode_work. set (k := Z.to_nat (n ÷ 16)) in *.
  assert (0 <= total calls) as Hs by (apply total_nonneg; eapply Forall_impl; [exact Hcs|by intros ? []]).
  assert (length (drop k inp) <= Z.to_nat (total calls ÷ 16))%nat as Hl2.
  { rewrite length_drop. destruct Hd as [d ->]. subst k. rewrite !Z.quot_div_nonneg in * by lia.
    rewrite Z.add_comm, Z.div_add in Hl by done. rewrite Z.div_mul by done. lia. }
  assert (encode inp s = encode (take k inp ++ drop k inp) s) as -> by by rewrite take_drop.
  rewrite encode_app. destruct (encode (take k inp) s) as [r s1].
  rewrite IH by done. by destruct (encode (drop k inp) s1).
Qed.

Lemma decode_items_app tab l b out out' :
  fold_left (decode_item tab) l (b, out ++ out') =
  let '(b, r) := fold_left (decode_item tab) l (b, out') in (b, out ++ r).
Proof.
  revert b out'. induction l as [|x l IH]; intros b out'; cbn [fold_left]; [done|].
  assert (decode_item tab (b, out ++ out') x = let '(b1, r) := decode_item tab (b, out') x in (b1, out ++ r)) as ->.
  { unfold decode_item. case_if; [|done]. destruct (viterbi_butterfly2 _ _ _ _) as [st0 st1]. case_if; [|done].
    by rewrite app_assoc. }
  destruct (decode_item tab (b, out') x) as [b1 r]. apply IH.
Qed.

Lemma decode_calls_whole tab calls inp b : Forall (fun n => 0 <= n) calls ->
  (length inp <= Z.to_nat (total calls * 16))%nat ->
  decode_calls tab calls inp b = fold_left (decode_item tab) inp (b, []).
Proof.
  intros Hc. revert inp b. induction Hc as [|n calls Hn Hcs IH]; intros inp b Hl.
  { change (Z.to_nat (total [] * 16)) with 0%nat in Hl. by destruct inp; [|cbn in Hl; lia]. }
  cbn [decode_calls] in *. change (total (n :: calls)) with (n + total calls) in *. unfold decode_work. set (k := Z.to_nat (n * 16)) in *.
  pose proof (total_nonneg calls Hcs) as Hs.
  assert (fold_left (decode_item tab) inp (b, []) = fold_left (decode_item tab) (take k inp ++ drop k inp) (b, [])) as -> by by rewrite take_drop.
  rewrite fold_left_app. destruct (fold_left _ (take k inp) _) as [b1 out].
  rewrite IH by (rewrite length_drop; lia). pose proof (decode_items_app tab (drop k inp) b1 out []) as E.
  rewrite app_nil_r in E. rewrite E.
  by destruct (fold_left _ (drop k inp) _).
Qed.

(** ** The decoder keeps the survivors *)

Lemma history_ext tab l l' n : (forall i, 0 <= i < 2 * Z.of_nat n -> l.[i] = l'.[i]) -> history tab l n = history tab l' n.
Proof.
  induction n as [|n IH]; intros H; [done|]. cbn [history]. rewrite IH by (intros i Hi; apply H; lia).
  by rewrite !H by lia.
Qed.

Lemma aget_snoc {A} `{Default A} (l : list A) x : (l ++ [x]).[Z.of_nat (length l)] = x.
Proof. apply aget_lookup; [lia|]. rewrite Nat2Z.id. by apply list_lookup_middle. Qed.

(** What the decoder has after the samples for the symbols [l]; [word] is the
    byte due from the survivors of so many bits. *)
Record decoded (tab : list (list Z)) (p0 : Z -> Z) (word : nat -> Z) (l : list Z) (b : decode_ccsds_27_fb) (out : list Z) : Prop := {
  dc_count : d_count b = Z.of_nat (length l);
  dc_length : length (d_viterbi_in b) = 16%nat;
  dc_in : forall r, 0 <= r < Z.of_nat (length l) mod 4 ->
    (d_viterbi_in b).[r] = l.[Z.of_nat (length l) - Z.of_nat (length l) mod 4 + r];
  dc_survivors : survivors p0 (history tab l (2 * (length l / 4))) (d_state0 b);
  dc_next : length (d_state1 b) = 64%nat;
  dc_out : out = map (fun k => word (8 * Z.to_nat k + 6)%nat) (zseq 0 ((length l + 4) / 16))
}.

Lemma decoded_start tab word junk : length (d_state0 junk) = 64%nat -> length (d_state1 junk) = 64%nat ->
  length (d_viterbi_in junk) = 16%nat -> d_count junk = 0 ->
  decoded tab (path_at_start (d_state0 junk)) word [] (gr_decode_ccsds_27_fb junk) [].
Proof.
  intros H0 H1 H2 H3. split; try done.
  - cbn. change (Z.of_nat 0 mod 4) with 0. lia.
  - by apply chunks_init_survivors.
Qed.

Section Decode.
Context (tab : list (list Z)) (B : Z) (Hmet : table_bounded B tab) (p0 : Z -> Z) (word : nat -> Z).

(** One more sample that does not complete four. *)
Lemma decoded_sample l b out x : decoded tab p0 word l b out -> Z.of_nat (length l) < 2 ^ 31 - 1 ->
  (length l mod 4 <> 3)%nat ->
  let '(b, out) := decode_item tab (b, out) x in decoded tab p0 word (l ++ [symbol_of x]) b out.
Proof using Type.
  intros [Hc Hl Hi Hs Hn Ho] Hlim H3. unfold decode_item. rewrite Hc. rewrite Z.rem_mod_nonneg by lia.
  rewrite (proj2 (Z.eqb_neq _ 3)) by (clear -H3; zify; divlia). pose proof (Z.mod_pos_bound (Z.of_nat (length l)) 4 ltac:(lia)) as Hm.
  assert (length (l ++ [symbol_of x]) = S (length l)) as El by (rewrite length_app; cbn; lia). split; cbn [d_count d_viterbi_in d_state0 d_state1].
  - rewrite El, Nat2Z.inj_succ. apply (sx_id 32); [lia|]. revert Hlim. norm_pow. lia.
  - by rewrite length_aset.
  - rewrite El. intros r Hr. rewrite aget_aset by lia.
    assert (Z.of_nat (S (length l)) mod 4 = Z.of_nat (length l) mod 4 + 1) as Em by (clear -H3; zify; divlia).
    rewrite Em in *. destruct (Z.eqb_spec (Z.of_nat (length l) mod 4) r) as [<-|].
    + replace (Z.of_nat (S (length l)) - (Z.of_nat (length l) mod 4 + 1) + Z.of_nat (length l) mod 4) with (Z.of_nat (length l)) by lia.
      by rewrite aget_snoc.
    + rewrite Hi by lia. rewrite aget_app_l by lia. f_equal. lia.
  - rewrite El. replace (S (length l) / 4)%nat with (length l / 4)%nat by (clear -H3; zify; divlia).
    rewrite (history_ext _ _ l); [done|]. intros i Hi2. apply aget_app_l.
    clear -Hi2 H3. zify. divlia.
  - done.
  - rewrite El. replace ((S (length l) + 4) / 16)%nat with ((length l + 4) / 16)%nat by (clear -H3; zify; divlia). done.
Qed.

(** The fourth sample: two more bits. *)
Lemma decoded_fourth l b out x : decoded tab p0 word l b out -> Z.of_nat (length l) < 2 ^ 31 - 1 ->
  (length l mod 4 = 3)%nat -> 999999 + 2 * B * Z.of_nat (S (length l)) < 2 ^ 31 ->
  (forall m state, (2 * m = S (length l))%nat -> survivors p0 (history tab (l ++ [symbol_of x]) m) state ->
    (viterbi_get_output state).1 = word m) ->
  let '(b, out) := decode_item tab (b, out) x in decoded tab p0 word (l ++ [symbol_of x]) b out.
Proof using Hmet.
  intros [Hc Hl Hi Hs Hn Ho] Hlim H3 HB Hword. unfold decode_item. rewrite Hc. rewrite !Z.rem_mod_nonneg by lia.
  set (k := (length l / 4)%nat) in *. set (l' := l ++ [symbol_of x]).
  assert (length l = 4 * k + 3)%nat as Hk by (subst k; clear -H3; zify; divlia).
  assert (Z.of_nat (length l) mod 4 = 3) as H3z by (clear -H3; zify; divlia). rewrite H3z in *. cbn [Z.eqb Pos.eqb].
  assert (length l' = S (length l)) as El by (subst l'; rewrite length_app; cbn; lia).
  set (vin := (d_viterbi_in b).[3 <- symbol_of x]).
  assert (forall r, 0 <= r < 4 -> vin.[r] = l'.[Z.of_nat (4 * k) + r]) as Hvin.
  { intros r Hr. subst vin. rewrite aget_aset by lia. destruct (Z.eqb_spec 3 r) as [<-|].
    - replace (Z.of_nat (4 * k) + 3) with (Z.of_nat (length l)) by lia. subst l'. by rewrite aget_snoc.
    - rewrite Hi by lia. subst l'. rewrite aget_app_l by lia. f_equal. lia. }
  assert (history tab l (2 * k) = history tab l' (2 * k)) as Eh.
  { apply history_ext. intros i Hi2. subst l'. symmetry. apply aget_app_l. lia. }
  assert (forall m, (m <= S (length l))%nat -> 999999 + 2 * B * Z.of_nat m < 2 ^ 31) as HBm.
  { intros m Hm. pose proof (bound_nonneg B tab Hmet). nia. }
  rewrite Eh in Hs. unfold viterbi_butterfly2.
  pose proof (step_survives B tab Hmet p0 l' (2 * k) (d_state0 b) (d_state1 b) vin.[0] vin.[1] Hs Hn (HBm (S (2 * k)) ltac:(lia))
    ltac:(rewrite Hvin by lia; apply (f_equal (aget l')); lia) ltac:(rewrite Hvin by lia; apply (f_equal (aget l')); lia)) as Hs1.
  set (st1 := butterflies _ (d_state0 b) (d_state1 b)) in *.
  pose proof (step_survives B tab Hmet p0 l' (S (2 * k)) st1 (d_state0 b) vin.[2] vin.[3] Hs1 (sv_length _ _ _ Hs) (HBm (S (S (2 * k))) ltac:(lia))
    ltac:(rewrite Hvin by lia; apply (f_equal (aget l')); lia) ltac:(rewrite Hvin by lia; apply (f_equal (aget l')); lia)) as Hs2.
  set (st0 := butterflies _ st1 (d_state0 b)) in *.
  split; cbn [d_count d_viterbi_in d_state0 d_state1]; fold l'; rewrite ?El.
  - rewrite Nat2Z.inj_succ. apply (sx_id 32); [lia|]. revert Hlim. norm_pow. lia.
  - subst vin. by rewrite length_aset.
  - intros r Hr. exfalso. clear -H3z Hr. divlia.
  - replace (2 * (S (length l) / 4))%nat with (S (S (2 * k))) by (clear -Hk; zify; divlia). exact Hs2.
  - apply Hs1.
  - rewrite Ho. destruct (Z.eqb_spec (Z.of_nat (length l) mod 16) 11) as [E|E].
    + replace ((S (length l) + 4) / 16)%nat with (S ((length l + 4) / 16)) by (clear -E; zify; divlia).
      rewrite map_zseq_snoc. f_equal. f_equal. rewrite Nat2Z.id. rewrite (Hword (S (S (2 * k)))); [|lia|done]. f_equal.
      clear -E Hk. zify. divlia.
    + replace ((S (length l) + 4) / 16)%nat with ((length l + 4) / 16)%nat by (clear -E H3z; zify; divlia). done.
Qed.
End Decode.

(** ** What was sent comes out *)

Lemma encode_is_bits data s : encode data s = encode_bits (bits_of data) s.
Proof.
  revert s. induction data as [|x data IH]; intros s; [done|]. cbn [encode]. unfold bits_of. cbn [map]. rewrite join_cons.
  rewrite encode_bits_app. destruct (encode_bits (bits_of_byte x) s) as [r s1]. by rewrite IH.
Qed.

Lemma walk_shift bits m : Forall bit bits -> (30 <= m <= length bits)%nat ->
  walk 0 (take m bits) >> 30 = walk 0 (take (m - 30) bits).
Proof.
  intros Hb Hm. replace m with (m - 30 + 30)%nat at 1 by lia. rewrite <- take_take_drop, walk_app, walk_split.
  pose proof (walk_range (take 30 (drop (m - 30) bits)) ltac:(by apply Forall_take, Forall_drop)) as Hr.
  rewrite length_take, length_drop in *. replace (30 `min` (length bits - (m - 30)))%nat with 30%nat in * by lia.
  rewrite shr_div by lia. revert Hr. change (Z.of_nat 30) with 30. norm_pow. divlia.
Qed.

(** The byte due. *)
Definition sent (data : list Z) (m : nat) : Z := u8 (walk 0 (take m (bits_of data)) >> 30).

Lemma sent_state_byte data k : Forall (fun x => 0 <= x < 256) data -> (k < length data)%nat ->
  sent data (8 * k + 6) = ([0; 0; 0; 0] ++ data).[Z.of_nat k].
Proof.
  intros Hd Hk. unfold sent. pose proof (bits_of_bits data) as Hb. pose proof (bits_of_length data) as Hl.
  destruct (decide (k < 3)%nat) as [H3|H3].
  - assert (walk 0 (take (8 * k + 6) (bits_of data)) >> 30 = 0) as ->.
    { pose proof (walk_range (take (8 * k + 6) (bits_of data)) ltac:(by apply Forall_take)) as Hr. rewrite length_take in Hr.
      rewrite shr_div by lia. apply Z.div_small. split; [lia|]. eapply Z.lt_le_trans; [apply Hr|]. apply Z.pow_le_mono_r; lia. }
    destruct k as [|[|[|]]]; done || lia.
  - rewrite walk_shift by (done || lia). replace (8 * k + 6 - 30)%nat with (8 * (k - 3))%nat by lia.
    destruct (decide (k = 3)%nat) as [->|]; [done|].
    destruct (lookup_lt_is_Some_2 data (k - 4)) as [x Hx]; [lia|].
    assert (take (8 * (k - 3)) (bits_of data) = bits_of (take (k - 4) data) ++ bits_of_byte x) as ->.
    { assert (bits_of (take (k - 3) data) = take (8 * (k - 3)) (bits_of data)) as <-.
      - rewrite <- (take_drop (k - 3) data) at 2. rewrite bits_of_app.
        rewrite take_app_length'; [done|]. rewrite bits_of_length, length_take. lia.
      - replace (k - 3)%nat with (S (k - 4)) by lia. rewrite (take_S_r _ _ x) by done. by rewrite bits_of_app. }
    rewrite walk_app, walk_split. change (Z.of_nat (length (bits_of_byte x))) with 8.
    pose proof (Forall_lookup_1 _ _ _ _ Hd Hx) as Hx8. cbv beta in Hx8.
    pose proof (all_below_spec _ _ byte_bits_checked x ltac:(lia)) as Hbx. cbv beta in Hbx. apply Z.eqb_eq in Hbx.
    unfold walk at 2. rewrite Hbx. symmetry. etransitivity.
    + apply (aget_lookup _ _ x); [lia|]. rewrite Nat2Z.id. rewrite lookup_app_r by (cbn; lia). cbn [length]. by replace (k - 4)%nat with (k - 4)%nat by lia.
    + unfold ux. norm_pow. generalize (walk 0 (bits_of (take (k - 4) data))). intros. divlia.
Qed.

Section Correct.
Context (tab : list (list Z)) (low high B : Z) (Hsep : separates tab 28 228 low high) (Hmet : table_bounded B tab).

(** A byte read from the survivors of at least so many steps. *)
Lemma output_is_sent junk q n bits state : Forall bit q -> (2 * n <= length q)%nat -> Forall bit bits -> length bits = n ->
  2 * B < 2 ^ 31 -> hamming (take (2 * n) q) (encode_bits bits 0).1 <= 4 ->
  survivors (path_at_start junk) (history tab (map (channel 28 228) q) n) state ->
  (viterbi_get_output state).1 = u8 (walk 0 bits >> 30).
Proof using Hsep Hmet.
  intros Hq Hn Hb Hl HB Hham Hs. destruct (best_is_best state) as (Hj & Em & Hbest). unfold viterbi_get_output.
  destruct (best_state state) as [j m]. cbn [fst snd] in *. subst m.
  destruct (sv_path _ _ _ Hs j Hj) as (v & Hv & Hvj & Hm & Hp). rewrite history_length in Hv, Hp.
  destruct (best_path tab 28 228 low high B Hsep Hmet HB q n bits v Hq Hn Hb Hl Hham Hv) as [H0 H30].
  { rewrite Hm. pose proof (walk_is_path 0 bits ltac:(lia) Hb) as Hw. rewrite Hl in Hw.
    pose proof (sv_best _ _ _ Hs (walk 0 bits)) as Hle. rewrite history_length in Hle.
    etransitivity; [by apply Hle|]. apply Hbest, Z.mod_pos_bound. lia. }
  rewrite H0 in Hp. unfold path_at_start in Hp. cbn [Z.eqb] in Hp. rewrite Z.mul_0_l, Z.add_0_l in Hp.
  rewrite (byte_of_path _ _ 24 Hp) by lia. rewrite <- H30. change 64 with (2 ^ 6). rewrite <- (shr_div v 6) by lia.
  rewrite Z.shiftr_shiftr by lia. done.
Qed.

Lemma encode_bits_take bits n s : Forall bit bits -> (n <= length bits)%nat ->
  (encode_bits (take n bits) s).1 = take (2 * n) (encode_bits bits s).1.
Proof using Type.
  intros Hb Hn. rewrite <- (take_drop n bits) at 2. rewrite encode_bits_app.
  destruct (encode_bits_end (take n bits) s ltac:(by apply Forall_take)) as [Hl _].
  destruct (encode_bits (take n bits) s) as [r e]. destruct (encode_bits (drop n bits) e) as [r' e']. cbn [fst] in *.
  rewrite take_app_length'; [done|]. rewrite Hl, length_take. lia.
Qed.

Lemma hamming_nonneg l1 l2 : 0 <= hamming l1 l2.
Proof using Type.
  unfold hamming. revert l2. induction l1 as [|x l1 IH]; intros [|y l2]; cbn [zip_with foldr]; try lia.
  specialize (IH l2). case_if; lia.
Qed.

Lemma hamming_take n l1 l2 : hamming (take n l1) (take n l2) <= hamming l1 l2.
Proof using Type.
  unfold hamming. revert l1 l2. induction n as [|n IH]; intros l1 l2; cbn [take zip_with foldr].
  - apply (hamming_nonneg l1 l2).
  - destruct l1 as [|x l1]; [done|]. destruct l2 as [|y l2]; [done|]. cbn [take zip_with foldr]. specialize (IH l1 l2). lia.
Qed.

(** [decode_item] over hard bits. *)
Lemma decode_stream junk data q : Forall (fun x => 0 <= x < 256) data -> Forall bit q -> length q = (16 * length data)%nat ->
  hamming q (encode data 0).1 <= 4 -> 999999 + 2 * B * Z.of_nat (length q) < 2 ^ 31 ->
  length (d_state0 junk) = 64%nat -> length (d_state1 junk) = 64%nat -> length (d_viterbi_in junk) = 16%nat ->
  d_count junk = 0 -> Z.of_nat (length q) < 2 ^ 31 ->
  forall n, (n <= length q)%nat ->
  let '(b, out) := fold_left (decode_item tab) (map bit_to_float (take n q)) (gr_decode_ccsds_27_fb junk, []) in
  decoded tab (path_at_start (d_state0 junk)) (sent data) (map (channel 28 228) (take n q)) b out.
Proof using Hsep Hmet.
  intros Hd Hq Hlq Hham HB H0 H1 H2 H3 Hlim n. pose proof (bound_nonneg B tab Hmet) as HB0.
  assert (2 * B < 2 ^ 31 \/ length q = 0%nat) as HB2 by (destruct (length q); [by right|left; lia]).
  induction n as [|n IH]; intros Hn; [by apply decoded_start|].
  destruct HB2 as [HB2|?]; [|lia]. destruct (lookup_lt_is_Some_2 q n) as [x Hx]; [lia|].
  rewrite (take_S_r _ _ x) by done. rewrite !map_app. cbn [map]. rewrite fold_left_app. cbn [fold_left].
  specialize (IH ltac:(lia)). destruct (fold_left _ (map bit_to_float (take n q)) _) as [b out].
  assert (symbol_of (bit_to_float x) = channel 28 228 x) as Esym.
  { pose proof (Forall_lookup_1 _ _ _ _ Hq Hx) as [-> | ->]; vm_compute; reflexivity. }
  assert (length (map (channel 28 228) (take n q)) = n) as Hln by (rewrite length_map, length_take; lia).
  rewrite <- Esym. destruct (decide (n mod 4 = 3)%nat) as [E|E].
  - apply (decoded_fourth tab B); try done; rewrite ?Hln; try (lia || nia). intros m state Hm Hs. rewrite Esym in Hs.
    assert (map (channel 28 228) (take n q) ++ [channel 28 228 x] = map (channel 28 228) (take (S n) q)) as Eq.
    { rewrite (take_S_r _ _ x) by done. by rewrite map_app. }
    rewrite Eq in Hs. unfold sent.
    assert (length (take m (bits_of data)) = m) as Hlm by (rewrite length_take, bits_of_length; lia).
    apply (output_is_sent (d_state0 junk) (take (S n) q) m); try done.
    + by apply Forall_take.
    + rewrite length_take. lia.
    + apply Forall_take, bits_of_bits.
    + rewrite encode_bits_take by (apply bits_of_bits || rewrite bits_of_length; lia).
      rewrite take_take, Nat.min_l by lia. rewrite <- encode_is_bits.
      etransitivity; [apply hamming_take|exact Hham].
  - apply decoded_sample; [done| |]; rewrite Hln; lia.
Qed.

(** C3. The coder and decoder blocks of the CCSDS code.  Bytes are encoded to bits,
    the bits are sent as -1.0 and 1.0, and at most four of them arrive wrong,
    anywhere in the stream.  However the scheduler cuts the streams into calls, the
    decoder puts out four zeros and then the bytes.  The metric table has to favour
    the bit that was received by about the same amount for both, and the metrics
    have to fit an [int]; the decoder's [d_count], which its constructor does not
    set, has to be zero. *)
Theorem ccsds_27_corrects_four_errors data q junk encode_lengths decode_lengths :
  Forall (fun x => 0 <= x < 256) data -> Forall bit q -> length q = (16 * length data)%nat ->
  Forall (fun n => 0 <= n /\ (16 | n)) encode_lengths -> total encode_lengths = 16 * Z.of_nat (length data) ->
  hamming q (encode_calls encode_lengths data gr_encode_ccsds_27_bb) <= 4 ->
  Forall (fun n => 0 <= n) decode_lengths -> total decode_lengths = Z.of_nat (length data) ->
  999999 + 2 * B * Z.of_nat (length q) < 2 ^ 31 -> Z.of_nat (length q) < 2 ^ 31 ->
  length (d_state0 junk) = 64%nat -> length (d_state1 junk) = 64%nat -> length (d_viterbi_in junk) = 16%nat ->
  d_count junk = 0 ->
  (decode_calls tab decode_lengths (map bit_to_float q) (gr_decode_ccsds_27_fb junk)).2 =
  take (length data) ([0; 0; 0; 0] ++ data).
Proof using Hsep Hmet.
  intros Hd Hq Hlq Hel Het Hham Hdl Hdt HB Hlim H0 H1 H2 H3.
  rewrite encode_calls_whole in Hham; [|done|rewrite Het, Z.quot_div_nonneg by lia; divlia].
  rewrite decode_calls_whole by (done || rewrite Hdt, length_map; lia).
  pose proof (decode_stream junk data q Hd Hq Hlq Hham HB H0 H1 H2 H3 Hlim (length q) (le_n _)) as Hs.
  rewrite take_ge in Hs by lia. destruct (fold_left _ _ _) as [b out]. destruct Hs as [_ _ _ _ _ ->]. cbn [snd].
  rewrite length_map, Hlq. replace ((16 * length data + 4) / 16)%nat with (length data) by divlia.
  symmetry. rewrite (list_as_map (take _ _) (length data)) by (rewrite length_take, length_app; lia).
  apply map_ext_in. intros k Hk. apply list_elem_of_In, list_elem_of_lookup in Hk as [i Hi].
  rewrite <- (map_id (zseq 0 (length data))) in Hi. apply (zseq_lookup (fun x => x)) in Hi as [-> Hi].
  rewrite Nat2Z.id, sent_state_byte by done. unfold aget. case_if; [done|]. rewrite lookup_take_lt by lia. done.
Qed.
End Correct.

(** ** Witness: two bytes, four errors, different calls on both sides *)

Definition ex_junk : decode_ccsds_27_fb :=
  {| d_state0 := ex_states; d_state1 := ex_states; d_viterbi_in := replicate 16 9; d_count := 0 |}.
Definition ex_sent : list Z := encode_calls [16; 64] [71; 78; 85; 33; 10] gr_encode_ccsds_27_bb.
Definition ex_received : list Z := map (fun k => ex_sent.[k] .^ (if (k =? 3) || (k =? 4) || (k =? 20) || (k =? 37) then 1 else 0)) (zseq 0 80).

Lemma ex_separates : separates ex_mettab 28 228 400 400.
Proof. split; vm_compute; by split || done. Qed.

Lemma ccsds_27_corrects_four_errors_witness :
  hamming ex_received ex_sent = 4 /\
  (decode_calls ex_mettab [2; 3] (map bit_to_float ex_received) (gr_decode_ccsds_27_fb ex_junk)).2 = [0; 0; 0; 0; 71].
Proof.
  split; [vm_compute; reflexivity|].
  apply (ccsds_27_corrects_four_errors ex_mettab 400 400 300 ex_separates ex_mettab_bounded [71; 78; 85; 33; 10] ex_received ex_junk [16; 64] [2; 3]);
    try (vm_compute; reflexivity); try (apply (bool_decide_unpack _); vm_compute; exact I).
  apply Forall_cons; split; [split; [lia|by exists 1]|]. apply Forall_cons; split; [split; [lia|by exists 4]|]. constructor.
Defined.
