(* ===== verification/Crc32.v ===== *)
(** * CRC-32: [gr_crc32.cc], [crc.py]

    The table driven checksum is division by the polynomial 0x104C11DB7, a bit at
    a time; a packet with its checksum appended passes the check, and one that was
    changed within thirty-two consecutive bits never does. *)

From S2P Require Import Prelude.
From stdpp Require Import list.
From S2P Require Import Bits.
#[local] Open Scope Z_scope.
#[local] Open Scope cint_scope.

(** ** The code *)

Definition crc32_table : list Z := [
  0x00000000;0x04C11DB7;0x09823B6E;0x0D4326D9;0x130476DC;0x17C56B6B;0x1A864DB2;0x1E475005;
  0x2608EDB8;0x22C9F00F;0x2F8AD6D6;0x2B4BCB61;0x350C9B64;0x31CD86D3;0x3C8EA00A;0x384FBDBD;
  0x4C11DB70;0x48D0C6C7;0x4593E01E;0x4152FDA9;0x5F15ADAC;0x5BD4B01B;0x569796C2;0x52568B75;
  0x6A1936C8;0x6ED82B7F;0x639B0DA6;0x675A1011;0x791D4014;0x7DDC5DA3;0x709F7B7A;0x745E66CD;
  0x9823B6E0;0x9CE2AB57;0x91A18D8E;0x95609039;0x8B27C03C;0x8FE6DD8B;0x82A5FB52;0x8664E6E5;
  0xBE2B5B58;0xBAEA46EF;0xB7A96036;0xB3687D81;0xAD2F2D84;0xA9EE3033;0xA4AD16EA;0xA06C0B5D;
  0xD4326D90;0xD0F37027;0xDDB056FE;0xD9714B49;0xC7361B4C;0xC3F706FB;0xCEB42022;0xCA753D95;
  0xF23A8028;0xF6FB9D9F;0xFBB8BB46;0xFF79A6F1;0xE13EF6F4;0xE5FFEB43;0xE8BCCD9A;0xEC7DD02D;
  0x34867077;0x30476DC0;0x3D044B19;0x39C556AE;0x278206AB;0x23431B1C;0x2E003DC5;0x2AC12072;
  0x128E9DCF;0x164F8078;0x1B0CA6A1;0x1FCDBB16;0x018AEB13;0x054BF6A4;0x0808D07D;0x0CC9CDCA;
  0x7897AB07;0x7C56B6B0;0x71159069;0x75D48DDE;0x6B93DDDB;0x6F52C06C;0x6211E6B5;0x66D0FB02;
  0x5E9F46BF;0x5A5E5B08;0x571D7DD1;0x53DC6066;0x4D9B3063;0x495A2DD4;0x44190B0D;0x40D816BA;
  0xACA5C697;0xA864DB20;0xA527FDF9;0xA1E6E04E;0xBFA1B04B;0xBB60ADFC;0xB6238B25;0xB2E29692;
  0x8AAD2B2F;0x8E6C3698;0x832F1041;0x87EE0DF6;0x99A95DF3;0x9D684044;0x902B669D;0x94EA7B2A;
  0xE0B41DE7;0xE4750050;0xE9362689;0xEDF73B3E;0xF3B06B3B;0xF771768C;0xFA325055;0xFEF34DE2;
  0xC6BCF05F;0xC27DEDE8;0xCF3ECB31;0xCBFFD686;0xD5B88683;0xD1799B34;0xDC3ABDED;0xD8FBA05A;
  0x690CE0EE;0x6DCDFD59;0x608EDB80;0x644FC637;0x7A089632;0x7EC98B85;0x738AAD5C;0x774BB0EB;
  0x4F040D56;0x4BC510E1;0x46863638;0x42472B8F;0x5C007B8A;0x58C1663D;0x558240E4;0x51435D53;
  0x251D3B9E;0x21DC2629;0x2C9F00F0;0x285E1D47;0x36194D42;0x32D850F5;0x3F9B762C;0x3B5A6B9B;
  0x0315D626;0x07D4CB91;0x0A97ED48;0x0E56F0FF;0x1011A0FA;0x14D0BD4D;0x19939B94;0x1D528623;
  0xF12F560E;0xF5EE4BB9;0xF8AD6D60;0xFC6C70D7;0xE22B20D2;0xE6EA3D65;0xEBA91BBC;0xEF68060B;
  0xD727BBB6;0xD3E6A601;0xDEA580D8;0xDA649D6F;0xC423CD6A;0xC0E2D0DD;0xCDA1F604;0xC960EBB3;
  0xBD3E8D7E;0xB9FF90C9;0xB4BCB610;0xB07DABA7;0xAE3AFBA2;0xAAFBE615;0xA7B8C0CC;0xA379DD7B;
  0x9B3660C6;0x9FF77D71;0x92B45BA8;0x9675461F;0x8832161A;0x8CF30BAD;0x81B02D74;0x857130C3;
  0x5D8A9099;0x594B8D2E;0x5408ABF7;0x50C9B640;0x4E8EE645;0x4A4FFBF2;0x470CDD2B;0x43CDC09C;
  0x7B827D21;0x7F436096;0x7200464F;0x76C15BF8;0x68860BFD;0x6C47164A;0x61043093;0x65C52D24;
  0x119B4BE9;0x155A565E;0x18197087;0x1CD86D30;0x029F3D35;0x065E2082;0x0B1D065B;0x0FDC1BEC;
  0x3793A651;0x3352BBE6;0x3E119D3F;0x3AD08088;0x2497D08D;0x2056CD3A;0x2D15EBE3;0x29D4F654;
  0xC5A92679;0xC1683BCE;0xCC2B1D17;0xC8EA00A0;0xD6AD50A5;0xD26C4D12;0xDF2F6BCB;0xDBEE767C;
  0xE3A1CBC1;0xE760D676;0xEA23F0AF;0xEEE2ED18;0xF0A5BD1D;0xF464A0AA;0xF9278673;0xFDE69BC4;
  0x89B8FD09;0x8D79E0BE;0x803AC667;0x84FBDBD0;0x9ABC8BD5;0x9E7D9662;0x933EB0BB;0x97FFAD0C;
  0xAFB010B1;0xAB710D06;0xA6322BDF;0xA2F33668;0xBCB4666D;0xB8757BDA;0xB5365D03;0xB1F740B4].

Definition gr_update_crc32 (crc : Z) (data : list Z) : Z :=
  fold_left (fun crc b => crc32_table.[b .^ ((crc >> 24) .& 0xff)] .^ u32 (crc << 8)) data crc.

Definition gr_crc32 (buf : list Z) : Z := gr_update_crc32 0xffffffff buf .^ 0xffffffff.

(** [struct.pack(">I", crc)] and [struct.unpack]. *)
Definition pack_be32 (crc : Z) : list Z := map (fun k => u8 (crc >> k)) [24; 16; 8; 0].
Definition unpack_be32 (s : list Z) : Z := fold_left (fun v b => (v << 8) .| b) s 0.

Definition gen_and_append_crc32 (s : list Z) : list Z := s ++ pack_be32 (gr_crc32 s).

(** [s[:-4]] and [s[-4:]]. *)
Definition check_crc32 (s : list Z) : bool * list Z :=
  if (length s <? 4)%nat then (false, [])
  else
    let msg := take (length s - 4) s in
    let actual := gr_crc32 msg in
    let expected := unpack_be32 (drop (length s - 4) s) in
    (actual =? expected, msg).

(** ** Division, a bit at a time *)

Definition crc_bit (c b : Z) : Z :=
  u32 (c << 1) .^ (if xorb (Z.testbit c 31) (b =? 1) then 0x04C11DB7 else 0).

Definition crc_bits (c : Z) (bits : list Z) : Z := fold_left crc_bit bits c.

Definition zstep (c : Z) : Z := crc_bit c 0.
Definition zsteps (n : nat) (c : Z) : Z := Nat.iter n zstep c.

Definition word32 (c : Z) : Prop := 0 <= c < 2 ^ 32.

Lemma u32_xor x y : u32 (x .^ y) = u32 x .^ u32 y.
Proof.
  unfold ux. rewrite <- !land_mask by lia. apply Z.bits_inj'. intros i Hi.
  rewrite !Z.lxor_spec, !Z.land_spec, Z.lxor_spec. by destruct (Z.testbit x i), (Z.testbit y i), (Z.testbit (Z.ones 32) i).
Qed.

Lemma zstep_xor x y : zstep (x .^ y) = zstep x .^ zstep y.
Proof.
  unfold zstep, crc_bit. change (0 =? 1) with false. rewrite !xorb_false_r, Z.lxor_spec, Z.shiftl_lxor, u32_xor.
  set (a := u32 (x << 1)). set (b := u32 (y << 1)).
  destruct (Z.testbit x 31), (Z.testbit y 31); cbn [xorb]; apply Z.bits_inj'; intros i Hi;
    rewrite !Z.lxor_spec, ?Z.bits_0; destruct (Z.testbit a i), (Z.testbit b i), (Z.testbit 79764919 i); done.
Qed.

Lemma zsteps_xor n x y : zsteps n (x .^ y) = zsteps n x .^ zsteps n y.
Proof. unfold zsteps. induction n as [|n IH]; [done|]. by rewrite !Nat.iter_succ, IH, zstep_xor. Qed.

Lemma zstep_word c : word32 (zstep c).
Proof.
  unfold zstep, crc_bit, word32. apply (lxor_range _ _ 32); [lia|apply (ux_range 32); lia|]. case_if; norm_pow; lia.
Qed.

Lemma zsteps_word n c : word32 c -> word32 (zsteps n c).
Proof. destruct n; [done|]. intros _. apply zstep_word. Qed.

(** No bit is shifted out: only a shift. *)
Lemma zstep_low c : 0 <= c < 2 ^ 31 -> zstep c = c << 1.
Proof.
  intros Hc. unfold zstep, crc_bit. rewrite (high_bits c 31) by lia. cbn [xorb]. change (0 =? 1) with false.
  rewrite Z.lxor_0_r, shl_mul by lia. apply u32_id. revert Hc. norm_pow. lia.
Qed.

Lemma zsteps_low n c : (n <= 32)%nat -> 0 <= c < 2 ^ (32 - Z.of_nat n) -> zsteps n c = c << Z.of_nat n.
Proof.
  unfold zsteps. induction n as [|n IH]; intros Hn Hc; [done|]. rewrite !Nat.iter_succ.
  assert (2 ^ (32 - Z.of_nat n) = 2 * 2 ^ (32 - Z.of_nat (S n))) as E.
  { rewrite <- Z.pow_succ_r by lia. f_equal. lia. }
  rewrite IH by lia. rewrite zstep_low.
  - rewrite Z.shiftl_shiftl by lia. f_equal. lia.
  - rewrite shl_mul by lia. assert (2 ^ 31 = 2 ^ (32 - Z.of_nat (S n)) * 2 ^ Z.of_nat n) as ->.
    { rewrite <- Z.pow_add_r by lia. f_equal. lia. }
    pose proof (Z.pow_pos_nonneg 2 (Z.of_nat n) ltac:(lia) ltac:(lia)). nia.
Qed.

Lemma zstep_inj x y : word32 x -> word32 y -> zstep x = zstep y -> x = y.
Proof.
  unfold word32. intros Hx Hy E. apply Z.bits_inj'. intros i Hi.
  assert (forall c k, 0 <= k < 32 -> Z.testbit (zstep c) k =
    xorb (if k =? 0 then false else Z.testbit c (k - 1)) (Z.testbit 79764919 k && Z.testbit c 31)) as Hz.
  { intros c k Hk. unfold zstep, crc_bit. change (0 =? 1) with false. rewrite xorb_false_r, Z.lxor_spec. unfold ux.
    rewrite Z.mod_pow2_bits_low, Z.shiftl_spec by lia. f_equal.
    - destruct (Z.eqb_spec k 0) as [->|]; [by apply Z.testbit_neg_r|done].
    - destruct (Z.testbit c 31); [by rewrite andb_true_r|by rewrite andb_false_r, Z.bits_0]. }
  assert (Z.testbit x 31 = Z.testbit y 31) as Et.
  { pose proof (f_equal (fun c => Z.testbit c 0) E) as E0. cbv beta in E0. rewrite !Hz in E0 by lia.
    change (Z.testbit 79764919 0) with true in E0. exact E0. }
  destruct (Z.lt_ge_cases i 32); [|by rewrite !(high_bits _ 32) by lia].
  destruct (decide (i = 31)) as [->|]; [done|].
  pose proof (f_equal (fun c => Z.testbit c (i + 1)) E) as Ei. cbv beta in Ei. rewrite !Hz, Et in Ei by lia.
  rewrite (proj2 (Z.eqb_neq _ 0)) in Ei by lia. replace (i + 1 - 1) with i in Ei by lia.
  by destruct (Z.testbit x i), (Z.testbit y i), (Z.testbit 79764919 (i + 1) && Z.testbit y 31).
Qed.

Lemma zsteps_inj n x y : word32 x -> word32 y -> zsteps n x = zsteps n y -> x = y.
Proof.
  intros Hx Hy. unfold zsteps. induction n as [|n IH]; [done|]. rewrite !Nat.iter_succ. intros E. apply IH.
  eapply zstep_inj; [by apply zsteps_word|by apply zsteps_word|exact E].
Qed.

Lemma crc_bit_zstep c b : word32 c -> bit b -> crc_bit c b = zstep (c .^ (b << 31)).
Proof.
  intros Hc Hb. unfold zstep, crc_bit. change (0 =? 1) with false. rewrite xorb_false_r, Z.lxor_spec. f_equal.
  - rewrite Z.shiftl_lxor, u32_xor. destruct Hb as [-> | ->]; [by rewrite Z.lxor_0_r|].
    rewrite Z.shiftl_shiftl by lia. change (u32 (1 << (31 + 1))) with 0. by rewrite Z.lxor_0_r.
  - by destruct Hb as [-> | ->].
Qed.

(** Up to thirty-two bits act like so many steps on their sum with the register. *)
Lemma crc_bits_zsteps c l : word32 c -> Forall bit l -> (length l <= 32)%nat ->
  crc_bits c l = zsteps (length l) (c .^ (walk 0 l << (32 - Z.of_nat (length l)))).
Proof.
  intros Hc Hl. revert c Hc. induction Hl as [|b l Hb Hl IH]; intros c Hc Hn.
  { cbn. change (walk 0 []) with 0. by rewrite Z.lxor_0_r. }
  cbn [length] in Hn. unfold crc_bits in *. cbn [fold_left]. rewrite crc_bit_zstep by done.
  rewrite IH by (apply zstep_word || lia). pose proof (walk_range l Hl) as Hw.
  assert (0 <= walk 0 l << (32 - Z.of_nat (S (length l))) < 2 ^ 31) as Hs.
  { rewrite shl_mul by lia. assert (2 ^ 31 = 2 ^ Z.of_nat (length l) * 2 ^ (32 - Z.of_nat (S (length l)))) as ->.
    { rewrite <- Z.pow_add_r by lia. f_equal. lia. }
    pose proof (Z.pow_pos_nonneg 2 (32 - Z.of_nat (S (length l))) ltac:(lia) ltac:(lia)). nia. }
  assert (walk 0 l << (32 - Z.of_nat (length l)) = zstep (walk 0 l << (32 - Z.of_nat (S (length l))))) as ->.
  { rewrite zstep_low by done. rewrite Z.shiftl_shiftl by lia. f_equal. lia. }
  rewrite <- zstep_xor. cbn [length]. unfold zsteps. rewrite Nat.iter_succ_r. f_equal. f_equal.
  rewrite Z.lxor_assoc. f_equal. change (walk 0 (b :: l)) with (walk b l). rewrite (walk_split b l).
  rewrite <- lor_shl_add by lia. rewrite Z.shiftl_lor, Z.shiftl_shiftl by lia.
  replace (Z.of_nat (length l) + (32 - Z.of_nat (S (length l)))) with 31 by lia.
  apply Z.bits_inj'. intros i Hi. rewrite Z.lxor_spec, Z.lor_spec. destruct (Z.lt_ge_cases i 31).
  - assert (Z.testbit (b << 31) i = false) as -> by (rewrite Z.shiftl_spec by lia; apply Z.testbit_neg_r; lia). done.
  - rewrite (high_bits (walk 0 l << _) 31 i Hs) by lia. by rewrite xorb_false_r, orb_false_r.
Qed.

(** ** The table *)

Lemma crc_table_checked : all_below 256 (fun v => crc32_table.[v] =? zsteps 8 (v << 24)) = true.
Proof. vm_compute. reflexivity. Qed.

Lemma crc_byte c b : word32 c -> 0 <= b < 256 ->
  crc32_table.[b .^ ((c >> 24) .& 0xff)] .^ u32 (c << 8) = crc_bits c (bits_of_byte b).
Proof.
  intros Hc Hb. rewrite crc_bits_zsteps by (done || apply bits_of_byte_bits || (cbn; lia)).
  change (Z.of_nat (length (bits_of_byte b))) with 8. change (length (bits_of_byte b)) with 8%nat.
  pose proof (all_below_spec _ _ byte_bits_checked b ltac:(lia)) as Hw. cbv beta in Hw. apply Z.eqb_eq in Hw.
  unfold walk. rewrite Hw. unfold word32 in Hc.
  assert (0 <= c >> 24 < 256) as Ht by (rewrite shr_div by lia; revert Hc; norm_pow; divlia).
  change 0xff with (Z.ones 8). rewrite land_mask by lia. rewrite (Z.mod_small (c >> 24)) by (norm_pow; lia).
  pose proof (lxor_range b (c >> 24) 8 ltac:(lia) Hb Ht) as Hv.
  pose proof (all_below_spec _ _ crc_table_checked (b .^ (c >> 24)) Hv) as Htab. cbv beta in Htab. apply Z.eqb_eq in Htab.
  rewrite Htab. assert (c .^ (b << (32 - 8)) = ((b .^ (c >> 24)) << 24) .^ (c mod 2 ^ 24)) as ->.
  { rewrite <- land_mask by lia. apply Z.bits_inj'. intros i Hi. rewrite !Z.lxor_spec, Z.land_spec. change (32 - 8) with 24.
    rewrite !Z.shiftl_spec by done. destruct (Z.lt_ge_cases i 24).
    - rewrite !(Z.testbit_neg_r _ (i - 24)) by lia. rewrite Z.ones_spec_low by lia. by rewrite andb_true_r, xorb_false_r, xorb_false_l.
    - rewrite Z.ones_spec_high by lia. rewrite andb_false_r, xorb_false_r, Z.lxor_spec, Z.shiftr_spec by lia.
      replace (i - 24 + 24) with i by lia. apply xorb_comm. }
  rewrite zsteps_xor. f_equal. rewrite zsteps_low by (lia || (apply Z.mod_pos_bound; lia)).
  change (Z.of_nat 8) with 8. rewrite !shl_mul by lia. unfold ux. norm_pow. divlia.
Qed.

Lemma crc_bits_word c l : word32 c -> Forall bit l -> word32 (crc_bits c l).
Proof.
  unfold crc_bits. intros Hc Hl. revert c Hc. induction Hl as [|b l Hb Hl IH]; intros c Hc; [done|].
  cbn [fold_left]. apply IH. rewrite crc_bit_zstep by done. apply zstep_word.
Qed.

Lemma crc_bits_app c l1 l2 : crc_bits c (l1 ++ l2) = crc_bits (crc_bits c l1) l2.
Proof. apply fold_left_app. Qed.

(** The checksum of bytes is the division of their bits. *)
Lemma update_crc_bits c s : word32 c -> bytes s -> gr_update_crc32 c s = crc_bits c (bits_of s).
Proof.
  intros Hc Hs. revert c Hc. induction Hs as [|x s Hx Hs IH]; intros c Hc; [done|].
  unfold gr_update_crc32 in *. cbn [fold_left]. rewrite crc_byte by done. unfold bits_of. cbn [map].
  rewrite join_cons, crc_bits_app. apply IH. apply crc_bits_word; [done|apply bits_of_byte_bits].
Qed.

(** ** Errors are seen *)

(** Equal registers stay apart on nothing else than different bits. *)
Lemma crc_bits_suffix c c' l : word32 c -> word32 c' -> Forall bit l -> crc_bits c l = crc_bits c' l -> c = c'.
Proof.
  intros Hc Hc' Hl. revert c c' Hc Hc'. induction Hl as [|b l Hb Hl IH]; intros c c' Hc Hc' E; [done|].
  unfold crc_bits in *. cbn [fold_left] in E. rewrite !crc_bit_zstep in E by done.
  apply IH in E; [|apply zstep_word..].
  assert (forall x, word32 x -> word32 (x .^ (b << 31))) as Hw.
  { intros x Hx. apply (lxor_range _ _ 32); [lia|done|]. rewrite shl_mul by lia. destruct Hb as [-> | ->]; norm_pow; lia. }
  apply zstep_inj in E; [|by apply Hw..]. rewrite <- (lxor_cancel c (b << 31)), <- (lxor_cancel c' (b << 31)). by rewrite E.
Qed.

Lemma walk_inj l1 l2 : Forall bit l1 -> Forall bit l2 -> length l1 = length l2 -> walk 0 l1 = walk 0 l2 -> l1 = l2.
Proof.
  revert l2. induction l1 as [|x l1 IH] using rev_ind; intros l2 H1 H2 Hl E; [by destruct l2|].
  destruct l2 as [|y l2 _] using rev_ind; [rewrite length_app in Hl; cbn in Hl; lia|].
  apply Forall_app in H1 as [H1 [Hx _]%Forall_cons], H2 as [H2 [Hy _]%Forall_cons]. rewrite !length_app in Hl. cbn in Hl.
  rewrite !walk_snoc in E. assert (x = y) as -> by (destruct Hx as [-> | ->], Hy as [-> | ->]; lia).
  f_equal. apply IH; [done|done|lia|]. destruct Hy as [-> | ->]; lia.
Qed.

(** Changing up to thirty-two consecutive bits changes the register. *)
Lemma crc_bits_burst c p d d' t : word32 c -> Forall bit (p ++ d ++ t) -> Forall bit d' ->
  length d = length d' -> (length d <= 32)%nat -> crc_bits c (p ++ d ++ t) = crc_bits c (p ++ d' ++ t) -> d = d'.
Proof.
  intros Hc [Hp [Hd Ht]%Forall_app]%Forall_app Hd' Hl Hn E. rewrite !crc_bits_app in E.
  pose proof (crc_bits_word c p Hc Hp) as Hcp. set (c1 := crc_bits c p) in *.
  apply crc_bits_suffix in E; [|by apply crc_bits_word..|done].
  rewrite !crc_bits_zsteps in E by (done || lia). rewrite <- Hl in E.
  assert (forall l, Forall bit l -> length l = length d -> word32 (walk 0 l << (32 - Z.of_nat (length d)))) as Hs.
  { intros l Hbl El. pose proof (walk_range l Hbl) as Hw. rewrite El in Hw. unfold word32. rewrite shl_mul by lia.
    assert (2 ^ 32 = 2 ^ Z.of_nat (length d) * 2 ^ (32 - Z.of_nat (length d))) as ->.
    { rewrite <- Z.pow_add_r by lia. f_equal. lia. }
    pose proof (Z.pow_pos_nonneg 2 (32 - Z.of_nat (length d)) ltac:(lia) ltac:(lia)). nia. }
  apply zsteps_inj in E; [|apply (lxor_range _ _ 32); (lia || done || by apply Hs)..].
  apply walk_inj; [done..|]. apply (f_equal (fun x => (c1 .^ x) >> (32 - Z.of_nat (length d)))) in E. cbv beta in E.
  rewrite <- !Z.lxor_assoc, Z.lxor_nilpotent, !Z.lxor_0_l in E. by rewrite !Z.shiftr_shiftl_l, !Z.sub_diag, !Z.shiftl_0_r in E by lia.
Qed.

(** ** Checking *)

Lemma all_ones_word : word32 0xffffffff.
Proof. split; vm_compute; congruence. Qed.

Lemma unpack_walk s : bytes s -> unpack_be32 s = walk 0 (bits_of s).
Proof.
  unfold unpack_be32. intros Hs. generalize 0 as v. induction Hs as [|x s Hx Hs IH]; intros v; [done|].
  cbn [fold_left]. rewrite IH. unfold bits_of. cbn [map]. rewrite join_cons, walk_app. f_equal.
  rewrite (walk_split v), bits_of_byte_walk by done. by rewrite (lor_shl_add v x 8).
Qed.

(** A string passes when dividing all of it leaves what an erased register leaves. *)
Lemma check_remainder s : bytes s -> (4 <= length s)%nat ->
  (check_crc32 s).1 = (crc_bits 0xffffffff (bits_of s) =? zsteps 32 0xffffffff).
Proof.
  intros Hs Hl. unfold check_crc32. rewrite (proj2 (Nat.ltb_ge _ _)) by done. cbn [fst].
  set (n := (length s - 4)%nat). assert (bytes (take n s)) as H1 by by apply Forall_take.
  assert (bytes (drop n s)) as H2 by by apply Forall_drop. rewrite (unpack_walk _ H2). unfold gr_crc32.
  rewrite update_crc_bits by (apply all_ones_word || done).
  assert (bits_of s = bits_of (take n s) ++ bits_of (drop n s)) as -> by by rewrite <- bits_of_app, take_drop.
  rewrite crc_bits_app. pose proof (crc_bits_word _ _ all_ones_word (bits_of_bits (take n s))) as Hc.
  set (c := crc_bits 0xffffffff (bits_of (take n s))) in *.
  assert (length (bits_of (drop n s)) = 32%nat) as H32 by (rewrite bits_of_length, length_drop; lia).
  rewrite (crc_bits_zsteps c) by (done || apply bits_of_bits || lia). rewrite H32. change (32 - Z.of_nat 32) with 0.
  rewrite Z.shiftl_0_r. pose proof (walk_range _ (bits_of_bits (drop n s))) as Hw. rewrite H32 in Hw.
  set (w := walk 0 (bits_of (drop n s))) in *. apply eq_true_iff_eq. rewrite !Z.eqb_eq. split; intros E.
  - f_equal. by rewrite <- E, <- Z.lxor_assoc, Z.lxor_nilpotent, Z.lxor_0_l.
  - apply zsteps_inj in E; [|by apply (lxor_range _ _ 32)|apply all_ones_word].
    by rewrite <- E, <- Z.lxor_assoc, Z.lxor_nilpotent, Z.lxor_0_l.
Qed.

Lemma pack_unpack_be32 c : word32 c -> bytes (pack_be32 c) /\ unpack_be32 (pack_be32 c) = c.
Proof.
  intros Hc. split; [unfold pack_be32; cbn [map]; repeat (constructor; [apply u8_range|]); constructor|].
  unfold unpack_be32, pack_be32. cbn [map fold_left]. change (0 << 8) with 0. rewrite Z.lor_0_l.
  pose proof (fun k => u8_range (c >> k)) as Hr. rewrite !(fun v k => lor_shl_add v (u8 (c >> k)) 8 ltac:(lia) (Hr k)).
  rewrite Z.shiftr_0_r, !shr_div by lia. unfold ux. unfold word32 in Hc. revert Hc. norm_pow. divlia.
Qed.

Lemma gr_crc32_word s : bytes s -> word32 (gr_crc32 s).
Proof.
  intros Hs. unfold gr_crc32. apply (lxor_range _ _ 32); [lia| |apply all_ones_word].
  rewrite update_crc_bits by (apply all_ones_word || done). apply crc_bits_word; [apply all_ones_word|apply bits_of_bits].
Qed.

(** What was appended passes the check and is taken off again. *)
Lemma check_appended s : bytes s -> check_crc32 (gen_and_append_crc32 s) = (true, s).
Proof.
  intros Hs. destruct (pack_unpack_be32 _ (gr_crc32_word s Hs)) as [_ Hu]. unfold check_crc32, gen_and_append_crc32.
  rewrite length_app. change (length (pack_be32 (gr_crc32 s))) with 4%nat. rewrite (proj2 (Nat.ltb_ge _ _)) by lia.
  replace (length s + 4 - 4)%nat with (length s) by lia. rewrite take_app_length, drop_app_length, Hu. by rewrite Z.eqb_refl.
Qed.

(** C14. The checksum does what it is there for.  A string with its checksum appended
    passes the check, which takes the checksum off; if the bits that arrive differ
    from those sent within thirty-two consecutive positions, anywhere in the
    string or its checksum, the check fails. *)
Theorem crc32_detects_bursts s received p sent_bits wrong_bits t : bytes s -> bytes received ->
  bits_of (gen_and_append_crc32 s) = p ++ sent_bits ++ t -> bits_of received = p ++ wrong_bits ++ t ->
  length wrong_bits = length sent_bits -> (length sent_bits <= 32)%nat ->
  check_crc32 (gen_and_append_crc32 s) = (true, s) /\ ((check_crc32 received).1 = true -> received = gen_and_append_crc32 s).
Proof.
  intros Hs Hr Hbs Hbr Hl Hn. pose proof (check_appended s Hs) as Hc. split; [done|]. intros Hok.
  set (good := gen_and_append_crc32 s) in *.
  assert (bytes good) as Hg by (apply Forall_app; split; [done|apply pack_unpack_be32, gr_crc32_word, Hs]).
  assert (length good = length received) as Hlr.
  { pose proof (bits_of_length good) as E1. pose proof (bits_of_length received) as E2. rewrite Hbs in E1. rewrite Hbr in E2.
    rewrite !length_app in *. lia. }
  assert (4 <= length good)%nat as H4 by (subst good; unfold gen_and_append_crc32; rewrite length_app; cbn; lia).
  assert ((check_crc32 good).1 = true) as Hgood by by rewrite Hc.
  rewrite check_remainder in Hok, Hgood by (done || lia). apply Z.eqb_eq in Hok, Hgood.
  assert (sent_bits = wrong_bits) as ->.
  { apply (crc_bits_burst 0xffffffff p sent_bits wrong_bits t); [apply all_ones_word| | |done|done|].
    - rewrite <- Hbs. apply bits_of_bits.
    - pose proof (bits_of_bits received) as Hb. rewrite Hbr in Hb. by apply Forall_app in Hb as [_ [? _]%Forall_app].
    - rewrite <- Hbs, <- Hbr. congruence. }
  apply bits_of_inj; [done|done|congruence].
Qed.

(** ** Witness *)

Definition ex_good : list Z := gen_and_append_crc32 [7; 1; 128].
Definition ex_bad : list Z := [7; 254] ++ drop 2 ex_good.

Lemma crc32_detects_bursts_witness : (check_crc32 ex_bad).1 = false.
Proof.
  assert (bytes [7; 1; 128] /\ bytes ex_bad) as [H1 H2].
  { split; apply (bool_decide_unpack (Forall (fun x => 0 <= x < 256) _)); vm_compute; exact I. }
  destruct (crc32_detects_bursts [7; 1; 128] ex_bad (bits_of [7]) (bits_of [1]) (bits_of [254]) (bits_of (drop 2 ex_good))
    H1 H2 ltac:(vm_compute; reflexivity) ltac:(vm_compute; reflexivity) eq_refl ltac:(vm_compute; lia)) as [_ Hbad].
  destruct (check_crc32 ex_bad).1; [|reflexivity]. discriminate (Hbad eq_refl).
Defined.
