(* ===== verification/Correlator.v ===== *)
(** * Finding the access code: [gr_correlate_access_code_bb.cc], [gr_count_bits.cc]

    The block delays the bits by 64 and marks each bit that follows the access
    code, found with up to a threshold of wrong bits.  What it puts out is stated
    of the stream, without registers. *)

From S2P Require Import Prelude.
From stdpp Require Import list.
From S2P Require Import Bits.
#[local] Open Scope Z_scope.
#[local] Open Scope cint_scope.

(** ** Counting bits *)

Definition gr_count_bits8 (x : Z) : Z :=
  fold_left (fun count i => if ctrue (x .& (1 << i)) then count + 1 else count) (zseq 0 8) 0.
Definition gr_count_bits16 (x : Z) : Z :=
  fold_left (fun count i => if ctrue (x .& (1 << i)) then count + 1 else count) (zseq 0 16) 0.

Definition gr_count_bits32 (x : Z) : Z :=
  let res := u32 ((x .& 0x55555555) + ((x >> 1) .& 0x55555555)) in
  let res := u32 ((res .& 0x33333333) + ((res >> 2) .& 0x33333333)) in
  let res := u32 ((res .& 0x0F0F0F0F) + ((res >> 4) .& 0x0F0F0F0F)) in
  let res := u32 ((res .& 0x00FF00FF) + ((res >> 8) .& 0x00FF00FF)) in
  u32 ((res .& 0x0000FFFF) + ((res >> 16) .& 0x0000FFFF)).

Definition gr_count_bits64 (x : Z) : Z :=
  u32 (gr_count_bits32 ((x >> 32) .& 0xffffffff) + gr_count_bits32 (x .& 0xffffffff)).

(** ** The correlator *)

Record gr_correlate_access_code_bb := {
  d_access_code : Z;
  d_data_reg : Z;
  d_flag_reg : Z;
  d_flag_bit : Z;
  d_mask : Z;
  d_threshold : Z
}.

(** [set_access_code]; [None] is [false]. *)
Definition set_access_code (access_code : list Z) (c : gr_correlate_access_code_bb) : option gr_correlate_access_code_bb :=
  let len := Z.of_nat (length access_code) in
  if 64 <? len then None
  else
    Some {|
      d_mask := u64 (((2 ^ 64 - 1) >> (64 - len)) << (64 - len));
      d_flag_bit := 1 << (64 - len);
      d_access_code := fold_left (fun code i =>
        let code := u64 (code << 1) in
        if i <? len then code .| (access_code.[i] .& 1) else code) (zseq 0 64) 0;
      d_data_reg := d_data_reg c; d_flag_reg := d_flag_reg c; d_threshold := d_threshold c |}.

(** The constructor; [None] is the exception [out_of_range]. *)
Definition gr_make_correlate_access_code_bb (access_code : list Z) (threshold : Z) :
    option gr_correlate_access_code_bb :=
  set_access_code access_code
    {| d_data_reg := 0; d_flag_reg := 0; d_flag_bit := 0; d_mask := 0; d_threshold := u32 threshold; d_access_code := 0 |}.

(** The body of the loop of [work]: the output and the block. *)
Definition correlate_item (c : gr_correlate_access_code_bb) (x : Z) : Z * gr_correlate_access_code_bb :=
  let t := (((d_data_reg c >> 63) .& 1) << 0) .| (((d_flag_reg c >> 63) .& 1) << 1) in
  let wrong_bits := (d_data_reg c .^ d_access_code c) .& d_mask c in
  let nwrong := gr_count_bits64 wrong_bits in
  let new_flag := nwrong <=? d_threshold c in
  let data_reg := u64 (d_data_reg c << 1) .| (x .& 1) in
  let flag_reg := u64 (d_flag_reg c << 1) in
  let flag_reg := if new_flag then flag_reg .| d_flag_bit c else flag_reg in
  (t, {| d_access_code := d_access_code c; d_data_reg := data_reg; d_flag_reg := flag_reg;
         d_flag_bit := d_flag_bit c; d_mask := d_mask c; d_threshold := d_threshold c |}).

Fixpoint correlate_work (inp : list Z) (c : gr_correlate_access_code_bb) : list Z * gr_correlate_access_code_bb :=
  match inp with
  | [] => ([], c)
  | x :: inp =>
      let '(t, c) := correlate_item c x in
      let '(out, c) := correlate_work inp c in
      (t :: out, c)
  end.

(** The calls of [work] on a stream. *)
Definition correlate_calls (calls : list (list Z)) (c : gr_correlate_access_code_bb) : list Z * gr_correlate_access_code_bb :=
  fold_left (fun '(out, c) inp => let '(r, c) := correlate_work inp c in (out ++ r, c)) calls ([], c).

(** ** The fast count is the count *)

Definition count_ones (n : nat) (x : Z) : Z := foldr Z.add 0 (map (fun i => Z.b2z (Z.testbit x i)) (zseq 0 n)).

(** A word as a byte on top of others. *)
Lemma testbit_bytes y r i : 0 <= r < 256 -> 0 <= i ->
  Z.testbit (256 * y + r) i = if i <? 8 then Z.testbit r i else Z.testbit y (i - 8).
Proof.
  intros Hr Hi. change 256 with (2 ^ 8) in *. rewrite Z.mul_comm, <- lor_shl_add by lia.
  rewrite Z.lor_spec, Z.shiftl_spec by done. destruct (Z.ltb_spec i 8).
  - by rewrite (Z.testbit_neg_r y) by lia.
  - by rewrite (high_bits r 8) by lia; rewrite orb_false_r.
Qed.

(** Masks act on each byte alone. *)
Lemma land_bytes y r m q : 0 <= r < 256 -> 0 <= q < 256 ->
  (256 * y + r) .& (256 * m + q) = 256 * (y .& m) + (r .& q).
Proof.
  intros Hr Hq. assert (0 <= r .& q < 256) as Hrq by (pose proof (land_range r q ltac:(lia)); lia).
  apply Z.bits_inj'. intros i Hi. rewrite Z.land_spec, !testbit_bytes by done. by case_if; rewrite Z.land_spec.
Qed.

Lemma shift_land_bytes k y r m q : 0 <= k <= 8 -> 0 <= r < 256 -> 0 <= q < 2 ^ (8 - k) ->
  ((256 * y + r) >> k) .& (256 * m + q) = 256 * ((y >> k) .& m) + ((r >> k) .& q).
Proof.
  intros Hk Hr Hq. assert (0 <= q < 256) as Hq8.
  { split; [lia|]. eapply Z.lt_le_trans; [apply Hq|]. change 256 with (2 ^ 8). apply Z.pow_le_mono_r; lia. }
  assert (0 <= (r >> k) .& q < 256) as Hrq by (pose proof (land_range (r >> k) q ltac:(lia)); lia).
  apply Z.bits_inj'. intros i Hi. rewrite Z.land_spec, Z.shiftr_spec, !testbit_bytes by lia.
  destruct (Z.ltb_spec i 8).
  - rewrite Z.land_spec, Z.shiftr_spec by lia. destruct (Z.ltb_spec (i + k) 8); [done|].
    rewrite (high_bits q (8 - k) i) by lia. by rewrite !andb_false_r.
  - rewrite (proj2 (Z.ltb_ge _ _)) by lia. rewrite Z.land_spec, Z.shiftr_spec by lia. do 2 f_equal. lia.
Qed.

(** The first three sums, on a byte. *)
Definition fold_byte (k m r : Z) : Z := (r .& m) + ((r >> k) .& m).

Lemma fold_bytes k q a b c d : 0 <= k <= 8 -> 0 <= q < 2 ^ (8 - k) ->
  0 <= a < 256 -> 0 <= b < 256 -> 0 <= c < 256 -> 0 <= d < 256 ->
  let x := 256 * (256 * (256 * a + b) + c) + d in let m := 256 * (256 * (256 * q + q) + q) + q in
  (x .& m) + ((x >> k) .& m) =
  256 * (256 * (256 * fold_byte k q a + fold_byte k q b) + fold_byte k q c) + fold_byte k q d.
Proof.
  intros Hk Hq Ha Hb Hc Hd x m. assert (0 <= q < 256) as Hq8.
  { split; [lia|]. eapply Z.lt_le_trans; [apply Hq|]. change 256 with (2 ^ 8). apply Z.pow_le_mono_r; lia. }
  subst x m. rewrite !land_bytes, !shift_land_bytes by done. unfold fold_byte. lia.
Qed.

Definition count_byte (r : Z) : Z := fold_byte 4 0x0F (fold_byte 2 0x33 (fold_byte 1 0x55 r)).

Lemma count_byte_checked : all_below 256 (fun r =>
  (fold_byte 1 0x55 r <? 256) && (fold_byte 2 0x33 (fold_byte 1 0x55 r) <? 256) && (count_byte r <=? 8) && (count_byte r =? count_ones 8 r)) = true.
Proof. vm_compute. reflexivity. Qed.

Lemma fold_byte_nonneg k m r : 0 <= m -> 0 <= fold_byte k m r.
Proof. intros Hm. unfold fold_byte. pose proof (land_range r m Hm). pose proof (land_range (r >> k) m Hm). lia. Qed.

Lemma count_byte_spec r : 0 <= r < 256 -> 0 <= fold_byte 1 0x55 r < 256 /\
  0 <= fold_byte 2 0x33 (fold_byte 1 0x55 r) < 256 /\ 0 <= count_byte r <= 8 /\ count_byte r = count_ones 8 r.
Proof.
  intros Hr. pose proof (all_below_spec _ _ count_byte_checked r Hr) as H. cbv beta in H. zbool.
  pose proof (fold_byte_nonneg 1 0x55 r ltac:(lia)). pose proof (fold_byte_nonneg 2 0x33 (fold_byte 1 0x55 r) ltac:(lia)).
  pose proof (fold_byte_nonneg 4 0x0F (fold_byte 2 0x33 (fold_byte 1 0x55 r)) ltac:(lia)). unfold count_byte in *. lia.
Qed.

Lemma count_ones_bytes n y r : 0 <= r < 256 -> count_ones (8 + n) (256 * y + r) = count_ones 8 r + count_ones n y.
Proof.
  intros Hr. unfold count_ones. rewrite map_zseq_plus, foldr_app. change (Z.of_nat 8) with 8.
  assert (map (fun i => Z.b2z (Z.testbit (256 * y + r) (8 + i))) (zseq 0 n) = map (fun i => Z.b2z (Z.testbit y i)) (zseq 0 n)) as ->.
  { unfold zseq. rewrite !map_map. apply map_ext. intros i. rewrite testbit_bytes by lia.
    rewrite (proj2 (Z.ltb_ge _ _)) by lia. do 2 f_equal. lia. }
  assert (map (fun i => Z.b2z (Z.testbit (256 * y + r) i)) (zseq 0 8) = map (fun i => Z.b2z (Z.testbit r i)) (zseq 0 8)) as ->.
  { unfold zseq. rewrite !map_map. apply map_ext_in. intros i Hi%in_seq. rewrite testbit_bytes by lia. by rewrite (proj2 (Z.ltb_lt _ _)) by lia. }
  generalize (foldr Z.add 0 (map (fun i => Z.b2z (Z.testbit y i)) (zseq 0 n))) as v. intros v.
  induction (map _ (zseq 0 8)) as [|z l IH]; cbn [foldr]; lia.
Qed.

(** The last two sums. *)
Lemma sum_bytes a b c d : 0 <= a <= 8 -> 0 <= b <= 8 -> 0 <= c <= 8 -> 0 <= d <= 8 ->
  let res := 256 * (256 * (256 * a + b) + c) + d in
  let res := u32 ((res .& 0x00FF00FF) + ((res >> 8) .& 0x00FF00FF)) in
  u32 ((res .& 0x0000FFFF) + ((res >> 16) .& 0x0000FFFF)) = a + b + c + d.
Proof.
  intros Ha Hb Hc Hd. cbv zeta.
  assert (forall z, 0 <= z <= 8 -> z .& 255 = z) as Hz.
  { intros z Hz. change 255 with (Z.ones 8). rewrite land_mask by lia. apply Z.mod_small. norm_pow. lia. }
  assert ((256 * (256 * (256 * a + b) + c) + d) >> 8 = 256 * (256 * a + b) + c) as ->.
  { rewrite shr_div by lia. change (2 ^ 8) with 256. divlia. }
  change 0x00FF00FF with (256 * (256 * (256 * 0 + 255) + 0) + 255).
  rewrite !land_bytes by lia. change (256 * 0 + 255) with 255. rewrite !Hz, !Z.land_0_r by lia.
  match goal with |- u32 ((u32 ?e .& _) + _) = _ => replace e with (65536 * (a + b) + (c + d)) by lia end.
  rewrite (u32_id (65536 * (a + b) + (c + d))) by lia.
  change 0x0000FFFF with (Z.ones 16). rewrite !land_mask, shr_div by lia. norm_pow. rewrite u32_id by divlia. divlia.
Qed.

Lemma gr_count_bits32_bytes a b c d : 0 <= a < 256 -> 0 <= b < 256 -> 0 <= c < 256 -> 0 <= d < 256 ->
  gr_count_bits32 (256 * (256 * (256 * a + b) + c) + d) = count_byte a + count_byte b + count_byte c + count_byte d.
Proof.
  intros Ha Hb Hc Hd.
  destruct (count_byte_spec a Ha) as (A1 & A2 & A3 & _), (count_byte_spec b Hb) as (B1 & B2 & B3 & _),
    (count_byte_spec c Hc) as (C1 & C2 & C3 & _), (count_byte_spec d Hd) as (D1 & D2 & D3 & _).
  rewrite <- sum_bytes by done. unfold gr_count_bits32.
  pose proof (fold_bytes 1 0x55 a b c d ltac:(lia) ltac:(norm_pow; lia) Ha Hb Hc Hd) as E1. cbv zeta in E1.
  change (256 * (256 * (256 * 0x55 + 0x55) + 0x55) + 0x55) with 0x55555555 in E1. rewrite E1. clear E1.
  rewrite (u32_id (256 * (256 * (256 * fold_byte 1 0x55 _ + _) + _) + _)) by lia.
  pose proof (fold_bytes 2 0x33 _ _ _ _ ltac:(lia) ltac:(norm_pow; lia) A1 B1 C1 D1) as E1. cbv zeta in E1.
  change (256 * (256 * (256 * 0x33 + 0x33) + 0x33) + 0x33) with 0x33333333 in E1. rewrite E1. clear E1.
  rewrite (u32_id (256 * (256 * (256 * fold_byte 2 0x33 _ + _) + _) + _)) by lia.
  pose proof (fold_bytes 4 0x0F _ _ _ _ ltac:(lia) ltac:(norm_pow; lia) A2 B2 C2 D2) as E1. cbv zeta in E1.
  change (256 * (256 * (256 * 0x0F + 0x0F) + 0x0F) + 0x0F) with 0x0F0F0F0F in E1. rewrite E1. clear E1.
  fold (count_byte a) (count_byte b) (count_byte c) (count_byte d).
  by rewrite (u32_id (256 * (256 * (256 * count_byte a + count_byte b) + count_byte c) + count_byte d)) by lia.
Qed.

Lemma gr_count_bits32_spec x : 0 <= x < 2 ^ 32 -> gr_count_bits32 x = count_ones 32 x.
Proof.
  norm_pow. intros Hx.
  assert (exists a b c d, 0 <= a < 256 /\ 0 <= b < 256 /\ 0 <= c < 256 /\ 0 <= d < 256 /\ x = 256 * (256 * (256 * a + b) + c) + d)
    as (a & b & c & d & Ha & Hb & Hc & Hd & ->).
  { exists (x / 16777216), (x / 65536 mod 256), (x / 256 mod 256), (x mod 256). repeat split; divlia. }
  rewrite gr_count_bits32_bytes by done. change 32%nat with (8 + (8 + (8 + 8)))%nat. rewrite !count_ones_bytes by done.
  destruct (count_byte_spec a Ha) as (_ & _ & _ & ->), (count_byte_spec b Hb) as (_ & _ & _ & ->),
    (count_byte_spec c Hc) as (_ & _ & _ & ->), (count_byte_spec d Hd) as (_ & _ & _ & ->). lia.
Qed.

Lemma count_ones_split n k x : 0 <= x -> count_ones (n + k) x = count_ones n x + count_ones k (x >> Z.of_nat n).
Proof.
  intros Hx. unfold count_ones. rewrite map_zseq_plus, foldr_app.
  assert (map (fun i => Z.b2z (Z.testbit x (Z.of_nat n + i))) (zseq 0 k) = map (fun i => Z.b2z (Z.testbit (x >> Z.of_nat n) i)) (zseq 0 k)) as ->.
  { unfold zseq. rewrite !map_map. apply map_ext. intros i. rewrite Z.shiftr_spec by lia. do 2 f_equal. lia. }
  generalize (foldr Z.add 0 (map (fun i => Z.b2z (Z.testbit (x >> Z.of_nat n) i)) (zseq 0 k))) as v. intros v.
  induction (map _ (zseq 0 n)) as [|z l IH]; cbn [foldr]; lia.
Qed.

Lemma count_ones_range n x : 0 <= count_ones n x <= Z.of_nat n.
Proof.
  unfold count_ones. rewrite <- (length_zseq 0 n) at 3. induction (zseq 0 n) as [|i l IH]; cbn [map foldr length]; [lia|].
  destruct (Z.testbit x i); cbn [Z.b2z]; lia.
Qed.

Lemma count_ones_low n x : count_ones n (x .& Z.ones (Z.of_nat n)) = count_ones n x.
Proof.
  unfold count_ones. f_equal. unfold zseq. rewrite !map_map. apply map_ext_in. intros i Hi%in_seq.
  rewrite Z.land_spec, Z.ones_spec_low by lia. by rewrite andb_true_r.
Qed.

Lemma gr_count_bits64_spec x : 0 <= x < 2 ^ 64 -> gr_count_bits64 x = count_ones 64 x.
Proof.
  intros Hx. unfold gr_count_bits64. change 0xffffffff with (Z.ones (Z.of_nat 32)).
  rewrite !gr_count_bits32_spec by (rewrite land_mask by lia; apply Z.mod_pos_bound; done).
  rewrite !count_ones_low. change 64%nat with (32 + 32)%nat. rewrite count_ones_split by lia. change (Z.of_nat 32) with 32.
  pose proof (count_ones_range 32 x). pose proof (count_ones_range 32 (x >> 32)). rewrite u32_id by lia. lia.
Qed.

(** ** The stream that comes out *)

Section Stream.
Context (access_code : list Z) (threshold : Z).
Abbreviation len := (Z.of_nat (length access_code)).

(** The bits of the stream; zeros before it starts. *)
Definition sbit (s : list Z) (k : Z) : Z := if k <? 0 then 0 else s.[k] .& 1.

(** How many of the bits before [k] differ from the access code. *)
Definition distance (s : list Z) (k : Z) : Z :=
  sum (length access_code) (fun i => if sbit s (k - len + i) =? access_code.[i] .& 1 then 0 else 1).

(** Whether the bit at [k] follows the access code; the first comparison is made
    before any bit is there. *)
Definition flagged (s : list Z) (k : Z) : bool := (len - 64 <=? k) && (distance s k <=? threshold).

Definition marked (s : list Z) (k : Z) : Z := sbit s k + 2 * Z.b2z (flagged s k).
End Stream.

Lemma sbit_bit s k : bit (sbit s k).
Proof.
  unfold sbit. case_if; [by left|]. change 1 with (Z.ones 1). rewrite land_mask by lia. change (2 ^ 1) with 2. unfold bit. divlia.
Qed.

Lemma mask_testbit k p : 0 <= k < 64 -> 0 <= p -> Z.testbit (u64 (((2 ^ 64 - 1) >> k) << k)) p = (k <=? p) && (p <? 64).
Proof.
  intros Hk Hp. change (2 ^ 64 - 1) with (Z.ones 64). unfold ux. destruct (Z.ltb_spec p 64).
  - rewrite Z.mod_pow2_bits_low by lia. rewrite Z.shiftl_spec by done. rewrite andb_true_r. destruct (Z.leb_spec k p).
    + rewrite Z.shiftr_spec by lia. apply Z.ones_spec_low. lia.
    + apply Z.testbit_neg_r. lia.
  - rewrite Z.mod_pow2_bits_high by lia. by rewrite andb_false_r.
Qed.

Lemma u64_shift_testbit x p : 0 <= p < 64 -> Z.testbit (u64 (x << 1)) p = if p =? 0 then false else Z.testbit x (p - 1).
Proof.
  intros Hp. unfold ux. rewrite Z.mod_pow2_bits_low, Z.shiftl_spec by lia.
  case_if; [subst; by apply Z.testbit_neg_r|done].
Qed.

(** The access code, left justified. *)
Lemma access_code_testbit (code : list Z) p : (length code <= 64)%nat -> 0 <= p < 64 ->
  Z.testbit (fold_left (fun v i => let v := u64 (v << 1) in if i <? Z.of_nat (length code) then v .| (code.[i] .& 1) else v)
    (zseq 0 64) 0) p = (63 - p <? Z.of_nat (length code)) && (code.[63 - p] .& 1 =? 1).
Proof.
  intros Hl Hp. set (f := fun v i : Z => let v := u64 (v << 1) in if i <? Z.of_nat (length code) then v .| (code.[i] .& 1) else v).
  set (cb := fun i => if i <? Z.of_nat (length code) then code.[i] .& 1 else 0).
  assert (forall i, bit (cb i)) as Hcb.
  { intros i. unfold cb. case_if; [|by left]. change 1 with (Z.ones 1). rewrite land_mask by lia. change (2 ^ 1) with 2. unfold bit. divlia. }
  assert (forall n, Forall bit (map cb (zseq 0 n))) as Hbits.
  { intros n. apply Forall_forall. intros x (i & <- & _)%list_elem_of_In%in_map_iff. apply Hcb. }
  assert (forall n, (n <= 64)%nat -> fold_left f (zseq 0 n) 0 = walk 0 (map cb (zseq 0 n))) as Hw.
  { induction n as [|n IH]; intros Hn; [done|]. rewrite map_zseq_snoc, walk_snoc.
    assert (zseq 0 (S n) = zseq 0 n ++ [Z.of_nat n]) as -> by (unfold zseq; by rewrite seq_S, map_app).
    rewrite fold_left_app. cbn [fold_left]. rewrite IH by lia. unfold f. cbv zeta.
    pose proof (walk_range _ (Hbits n)) as Hr. rewrite length_map, length_zseq in Hr.
    assert (walk 0 (map cb (zseq 0 n)) < 2 ^ 63) as Hr2 by (eapply Z.lt_le_trans; [apply Hr|]; apply Z.pow_le_mono_r; lia).
    assert (u64 (walk 0 (map cb (zseq 0 n)) << 1) = walk 0 (map cb (zseq 0 n)) << 1) as ->.
    { rewrite shl_mul by lia. apply (ux_id 64). revert Hr2. norm_pow. lia. }
    pose proof (Hcb (Z.of_nat n)) as Hb.
    assert (cb (Z.of_nat n) = if Z.of_nat n <? Z.of_nat (length code) then code.[Z.of_nat n] .& 1 else 0) as Ecb by done.
    destruct (Z.of_nat n <? Z.of_nat (length code)).
    - rewrite <- Ecb. rewrite (lor_shl_add _ _ 1) by (norm_pow; unfold bit in Hb; lia). norm_pow. lia.
    - rewrite Ecb, shl_mul by lia. norm_pow. lia. }
  rewrite Hw by lia. rewrite walk_testbit by (done || (rewrite length_map, length_zseq; lia)).
  rewrite length_map, length_zseq. replace (Z.of_nat 64 - 1 - p) with (63 - p) by lia. rewrite map_zseq_get by lia.
  unfold cb. by case_if.
Qed.

Section Work.
Context (access_code : list Z) (threshold : Z) (Hlen : (1 <= length access_code <= 64)%nat).
Abbreviation len := (Z.of_nat (length access_code)).

(** The registers after [j] bits of the stream [s]. *)
Record registers (s : list Z) (j : Z) (c : gr_correlate_access_code_bb) : Prop := {
  rg_code : d_access_code c = fold_left (fun v i => let v := u64 (v << 1) in if i <? len then v .| (access_code.[i] .& 1) else v) (zseq 0 64) 0;
  rg_mask : d_mask c = u64 (((2 ^ 64 - 1) >> (64 - len)) << (64 - len));
  rg_flag_bit : d_flag_bit c = 1 << (64 - len);
  rg_threshold : d_threshold c = u32 threshold;
  rg_data : forall p, 0 <= p < 64 -> Z.testbit (d_data_reg c) p = (sbit s (j - 1 - p) =? 1);
  rg_flags : forall p, 0 <= p < 64 -> Z.testbit (d_flag_reg c) p = (64 - len <=? p) && flagged access_code (u32 threshold) s (j - 1 - p)
}.

Lemma wrong_bits_count s j c : registers s j c ->
  gr_count_bits64 ((d_data_reg c .^ d_access_code c) .& d_mask c) = distance access_code s (j - 64 + len).
Proof using Hlen.
  intros [Hc Hm _ _ Hd _]. rewrite gr_count_bits64_spec.
  2: { rewrite Hm. split; [apply Z.land_nonneg; right; apply (ux_range 64); lia|]. apply bound_by_bits; [lia| |].
       - apply Z.land_nonneg. right. apply (ux_range 64). lia.
       - intros i Hi. rewrite Z.land_spec, mask_testbit by lia. rewrite (proj2 (Z.ltb_ge i 64)) by lia. by rewrite !andb_false_r. }
  change (count_ones 64 ?x) with (sum 64 (fun i => Z.b2z (Z.testbit x i))). rewrite sum_rev. unfold distance.
  rewrite (sum_zero_above 64 (length access_code)).
  - apply sum_ext. intros i Hi. change (Z.of_nat 64 - 1 - i) with (63 - i).
    rewrite Z.land_spec, Z.lxor_spec, Hm, mask_testbit, Hc, access_code_testbit, Hd by lia.
    rewrite (proj2 (Z.leb_le _ _)), (proj2 (Z.ltb_lt (63 - i) 64)) by lia. cbn [andb]. rewrite andb_true_r.
    replace (63 - (63 - i)) with i by lia. rewrite (proj2 (Z.ltb_lt i _)) by lia. cbn [andb].
    replace (j - 1 - (63 - i)) with (j - 64 + len - len + i) by lia. set (x := sbit s _). set (y := access_code.[i] .& 1).
    assert (bit x) as [-> | ->] by apply sbit_bit; assert (bit y) as [-> | ->] by
      (unfold y; change 1 with (Z.ones 1); rewrite land_mask by lia; change (2 ^ 1) with 2; unfold bit; divlia); done.
  - lia.
  - intros i Hi. change (Z.of_nat 64 - 1 - i) with (63 - i). rewrite Z.land_spec, Hm, mask_testbit by lia.
    rewrite (proj2 (Z.leb_gt (64 - len) _)) by lia. cbn [andb]. by rewrite andb_false_r.
Qed.
Lemma correlate_item_registers s j c x : registers s j c -> 0 <= j -> x .& 1 = sbit s j ->
  let '(t, c) := correlate_item c x in
  t = marked access_code (u32 threshold) s (j - 64) /\ registers s (j + 1) c.
Proof using Hlen.
  intros Hr Hj Hx. unfold correlate_item. rewrite (wrong_bits_count s j c Hr). destruct Hr as [Hc Hm Hb Ht Hd Hf].
  assert (forall r, (r >> 63) .& 1 = Z.b2z (Z.testbit r 63)) as Htop.
  { intros r. rewrite Z.testbit_spec' by lia. change 1 with (Z.ones 1). rewrite land_mask, shr_div by lia. done. }
  split.
  - rewrite !Htop, Hd, Hf by lia. rewrite (proj2 (Z.leb_le _ 63)) by lia. cbn [andb]. unfold marked.
    replace (j - 1 - 63) with (j - 64) by lia. destruct (sbit_bit s (j - 64)) as [-> | ->], (flagged _ _ _ _); done.
  - split; cbn [d_access_code d_mask d_flag_bit d_threshold d_data_reg d_flag_reg]; try done.
    + intros p Hp. rewrite Z.lor_spec, u64_shift_testbit, Hx by done. destruct (Z.eqb_spec p 0) as [->|].
      * replace (j + 1 - 1 - 0) with j by lia. by destruct (sbit_bit s j) as [-> | ->].
      * rewrite Hd by lia. assert (Z.testbit (sbit s j) p = false) as ->.
        { apply (high_bits _ 1); [|lia]. destruct (sbit_bit s j) as [-> | ->]; norm_pow; lia. }
        rewrite orb_false_r. do 2 f_equal. lia.
    + intros p Hp. replace (j + 1 - 1 - p) with (j - p) by lia.
      assert (Z.testbit (if distance access_code s (j - 64 + len) <=? d_threshold c then u64 (d_flag_reg c << 1) .| d_flag_bit c
        else u64 (d_flag_reg c << 1)) p = orb (Z.testbit (u64 (d_flag_reg c << 1)) p)
        ((distance access_code s (j - 64 + len) <=? d_threshold c) && (p =? 64 - len))) as ->.
      { case_if; [|by rewrite andb_false_l, orb_false_r]. rewrite Z.lor_spec, Hb. f_equal. cbn [andb].
        rewrite Z.shiftl_1_l, Z.pow2_bits_eqb by lia. by rewrite Z.eqb_sym. }
      rewrite u64_shift_testbit by done. rewrite Ht. unfold flagged. destruct (Z.eqb_spec p (64 - len)) as [->|].
      * rewrite andb_true_r. rewrite Z.leb_refl. cbn [andb]. replace (j - (64 - len)) with (j - 64 + len) by lia.
        rewrite (proj2 (Z.leb_le (len - 64) _)) by lia. cbn [andb].
        destruct (Z.eqb_spec (64 - len) 0); [done|]. rewrite Hf by lia. by rewrite (proj2 (Z.leb_gt _ _)) by lia.
      * rewrite andb_false_r, orb_false_r. destruct (Z.eqb_spec p 0) as [->|].
        { by rewrite (proj2 (Z.leb_gt _ _)) by lia. }
        rewrite Hf by lia. unfold flagged. replace (j - 1 - (p - 1)) with (j - p) by lia. f_equal.
        destruct (Z.leb_spec (64 - len) (p - 1)), (Z.leb_spec (64 - len) p); done || lia.
Qed.

Lemma start_registers s c : gr_make_correlate_access_code_bb access_code threshold = Some c -> registers s 0 c.
Proof using Hlen.
  unfold gr_make_correlate_access_code_bb, set_access_code. rewrite (proj2 (Z.ltb_ge _ _)) by lia. intros Hc. apply (inj Some) in Hc. subst c.
  split; cbn [d_access_code d_mask d_flag_bit d_threshold d_data_reg d_flag_reg]; try reflexivity; intros p Hp; rewrite Z.bits_0.
  - unfold sbit. by rewrite (proj2 (Z.ltb_lt _ _)) by lia.
  - destruct (Z.leb_spec (64 - len) p); [|done]. unfold flagged. by rewrite (proj2 (Z.leb_gt _ _)) by lia.
Qed.

Lemma correlate_work_registers s j c rest : registers s j c -> 0 <= j ->
  (forall i, 0 <= i < Z.of_nat (length rest) -> rest.[i] .& 1 = sbit s (j + i)) ->
  let '(out, c) := correlate_work rest c in
  out = map (fun i => marked access_code (u32 threshold) s (j + i - 64)) (zseq 0 (length rest)) /\
  registers s (j + Z.of_nat (length rest)) c.
Proof using Hlen.
  revert j c. induction rest as [|x rest IH]; intros j c Hr Hj Hs; cbn [correlate_work length].
  { split; [done|]. by rewrite Z.add_0_r. }
  pose proof (correlate_item_registers s j c x Hr Hj) as Hi. destruct (correlate_item c x) as [t c1].
  destruct Hi as [-> Hr1].
  { specialize (Hs 0 ltac:(cbn; lia)). by rewrite Z.add_0_r in Hs. }
  specialize (IH (j + 1) c1 Hr1 ltac:(lia)). destruct (correlate_work rest c1) as [out c2]. destruct IH as [-> Hr2].
  { intros i Hi. specialize (Hs (i + 1) ltac:(cbn [length]; lia)). rewrite <- Z.add_assoc, (Z.add_comm 1 i), <- Hs.
    unfold aget. case_if; [lia|]. case_if; [lia|]. by replace (Z.to_nat (i + 1)) with (S (Z.to_nat i)) by lia. }
  split.
  - rewrite map_zseq_S. rewrite Z.add_0_r. f_equal. apply map_ext. intros i. f_equal. lia.
  - by replace (j + Z.of_nat (S (length rest))) with (j + 1 + Z.of_nat (length rest)) by lia.
Qed.

Lemma correlate_work_app l1 l2 c : correlate_work (l1 ++ l2) c =
  let '(r1, c) := correlate_work l1 c in let '(r2, c) := correlate_work l2 c in (r1 ++ r2, c).
Proof using Type.
  revert c. induction l1 as [|x l1 IH]; intros c; cbn [app correlate_work]; [by destruct (correlate_work l2 c)|].
  destruct (correlate_item c x) as [t c1]. rewrite IH. destruct (correlate_work l1 c1) as [r1 c2].
  by destruct (correlate_work l2 c2).
Qed.

Lemma correlate_stream c s : gr_make_correlate_access_code_bb access_code threshold = Some c ->
  (correlate_work s c).1 = map (fun j => marked access_code (u32 threshold) s (j - 64)) (zseq 0 (length s)).
Proof using Hlen.
  intros Hc. pose proof (correlate_work_registers s 0 c s (start_registers s c Hc) ltac:(lia)) as H.
  destruct (correlate_work s c) as [out c']. destruct H as [-> _]; [|done].
  intros i Hi. unfold sbit. by rewrite (proj2 (Z.ltb_ge _ _)) by lia.
Qed.

Lemma correlate_calls_join c calls : (correlate_calls calls c).1 = (correlate_work (mjoin calls) c).1.
Proof using Type.
  unfold correlate_calls. generalize c. clear c. intros c.
  assert (forall out, (fold_left (fun '(out, c) inp => let '(r, c) := correlate_work inp c in (out ++ r, c)) calls (out, c)).1 =
    out ++ (correlate_work (mjoin calls) c).1) as H; [|by apply (H [])].
  revert c. induction calls as [|inp calls IH]; intros c out; [by rewrite app_nil_r|].
  rewrite join_cons. cbn [fold_left]. rewrite correlate_work_app. destruct (correlate_work inp c) as [r c1].
  rewrite IH. destruct (correlate_work (mjoin calls) c1). cbn [fst]. by rewrite app_assoc.
Qed.

Lemma correlate_calls_stream c calls : gr_make_correlate_access_code_bb access_code threshold = Some c ->
  (correlate_calls calls c).1 =
  map (fun j => marked access_code (u32 threshold) (mjoin calls) (j - 64)) (zseq 0 (length (mjoin calls))).
Proof using Hlen. intros Hc. by rewrite correlate_calls_join, (correlate_stream c). Qed.

(** C15. The shift registers implement a search of the stream.  The block puts out
    the bits of its input delayed by 64, each marked exactly if the bits before it
    are those of the access code, but for at most [threshold] of them (bits before
    the start of the stream are zeros).  However the stream is cut into calls, the
    outputs of the calls together are that. *)
Theorem correlate_access_code_spec c calls : gr_make_correlate_access_code_bb access_code threshold = Some c ->
  (correlate_calls calls c).1 =
  map (fun j => marked access_code (u32 threshold) (mjoin calls) (j - 64)) (zseq 0 (length (mjoin calls))).
Proof using Hlen. apply correlate_calls_stream. Qed.
End Work.

(** ** Witness: a short code, two calls *)

Definition ex_code : list Z := [49; 48; 49].
Definition ex_correlator : gr_correlate_access_code_bb :=
  {| d_access_code := 0; d_data_reg := 0; d_flag_reg := 0; d_flag_bit := 0; d_mask := 0; d_threshold := 0 |}.

Lemma correlate_access_code_spec_witness : exists c, gr_make_correlate_access_code_bb ex_code 0 = Some c /\
  (correlate_calls [[1; 0]; [1; 1] ++ replicate 64 0] c).1 = replicate 64 0 ++ [1; 0; 1; 3].
Proof.
  exists (default ex_correlator (gr_make_correlate_access_code_bb ex_code 0)). split; [vm_compute; reflexivity|].
  rewrite (correlate_access_code_spec ex_code 0 ltac:(cbn; lia)) by (vm_compute; reflexivity). vm_compute. reflexivity.
Defined.
