(* ===== verification/Framer.v ===== *)
(** * Assembling packets: [gr_framer_sink_1.cc]

    A state machine that looks for a mark, reads a header of two copies of the
    length and then so many bytes, and puts the packet in a queue.  The three
    inner loops and the outer one are as in [work]. *)

From S2P Require Import Prelude.
From stdpp Require Import list.
From S2P Require Import Bits.
#[local] Open Scope Z_scope.
#[local] Open Scope cint_scope.

(** ** State *)

Inductive state_t := STATE_SYNC_SEARCH | STATE_HAVE_SYNC | STATE_HAVE_HEADER.

Definition MAX_PKT_LEN : Z := 4096.
Definition HEADERBITLEN : Z := 32.

(** [gr_make_message(type, arg1, arg2, length)] with its bytes. *)
Record message := { type : Z; arg1 : Z; arg2 : Z; msg : list Z }.

(** [d_target_queue] is the list of the messages inserted, in order. *)
Record gr_framer_sink_1 := {
  d_target_queue : list message;
  d_state : state_t;
  d_header : Z;
  d_headerbitlen_cnt : Z;
  d_packet : list Z;
  d_packet_byte : Z;
  d_packet_byte_index : Z;
  d_packetlen : Z;
  d_packet_whitener_offset : Z;
  d_packetlen_cnt : Z
}.

Definition enter_search (f : gr_framer_sink_1) : gr_framer_sink_1 :=
  {| d_target_queue := d_target_queue f; d_state := STATE_SYNC_SEARCH; d_header := d_header f;
     d_headerbitlen_cnt := d_headerbitlen_cnt f; d_packet := d_packet f; d_packet_byte := d_packet_byte f;
     d_packet_byte_index := d_packet_byte_index f; d_packetlen := d_packetlen f;
     d_packet_whitener_offset := d_packet_whitener_offset f; d_packetlen_cnt := d_packetlen_cnt f |}.

Definition enter_have_sync (f : gr_framer_sink_1) : gr_framer_sink_1 :=
  {| d_target_queue := d_target_queue f; d_state := STATE_HAVE_SYNC; d_header := 0;
     d_headerbitlen_cnt := 0; d_packet := d_packet f; d_packet_byte := d_packet_byte f;
     d_packet_byte_index := d_packet_byte_index f; d_packetlen := d_packetlen f;
     d_packet_whitener_offset := d_packet_whitener_offset f; d_packetlen_cnt := d_packetlen_cnt f |}.

Definition enter_have_header (payload_len whitener_offset : Z) (f : gr_framer_sink_1) : gr_framer_sink_1 :=
  {| d_target_queue := d_target_queue f; d_state := STATE_HAVE_HEADER; d_header := d_header f;
     d_headerbitlen_cnt := d_headerbitlen_cnt f; d_packet := d_packet f; d_packet_byte := 0;
     d_packet_byte_index := 0; d_packetlen := payload_len;
     d_packet_whitener_offset := whitener_offset; d_packetlen_cnt := 0 |}.

Definition insert_tail (m : message) (f : gr_framer_sink_1) : gr_framer_sink_1 :=
  {| d_target_queue := d_target_queue f ++ [m]; d_state := d_state f; d_header := d_header f;
     d_headerbitlen_cnt := d_headerbitlen_cnt f; d_packet := d_packet f; d_packet_byte := d_packet_byte f;
     d_packet_byte_index := d_packet_byte_index f; d_packetlen := d_packetlen f;
     d_packet_whitener_offset := d_packet_whitener_offset f; d_packetlen_cnt := d_packetlen_cnt f |}.

(** The constructor; [junk] is what the memory held. *)
Definition gr_make_framer_sink_1 (junk : gr_framer_sink_1) : gr_framer_sink_1 :=
  enter_search {| d_target_queue := []; d_state := d_state junk; d_header := d_header junk;
     d_headerbitlen_cnt := d_headerbitlen_cnt junk; d_packet := d_packet junk; d_packet_byte := d_packet_byte junk;
     d_packet_byte_index := d_packet_byte_index junk; d_packetlen := d_packetlen junk;
     d_packet_whitener_offset := d_packet_whitener_offset junk; d_packetlen_cnt := d_packetlen_cnt junk |}.

Definition header_ok (f : gr_framer_sink_1) : bool := ((d_header f >> 16) .^ (d_header f .& 0xffff)) =? 0.

(** The payload length and the whitener offset. *)
Definition header_payload (f : gr_framer_sink_1) : Z * Z :=
  ((d_header f >> 16) .& 0x0fff, (d_header f >> 28) .& 0x000f).

(** ** The inner loops

    What is left of the input, and the state. *)

Fixpoint sync_search (inp : list Z) (f : gr_framer_sink_1) : list Z * gr_framer_sink_1 :=
  match inp with
  | [] => ([], f)
  | x :: rest => if ctrue (x .& 0x2) then (inp, enter_have_sync f) else sync_search rest f
  end.

(** A bit of the header. *)
Definition header_bit (x : Z) (f : gr_framer_sink_1) : gr_framer_sink_1 :=
  {| d_target_queue := d_target_queue f; d_state := d_state f; d_header := u32 (d_header f << 1) .| (x .& 0x1);
     d_headerbitlen_cnt := d_headerbitlen_cnt f + 1; d_packet := d_packet f; d_packet_byte := d_packet_byte f;
     d_packet_byte_index := d_packet_byte_index f; d_packetlen := d_packetlen f;
     d_packet_whitener_offset := d_packet_whitener_offset f; d_packetlen_cnt := d_packetlen_cnt f |}.

(** A full header. *)
Definition header_full (f : gr_framer_sink_1) : gr_framer_sink_1 :=
  if header_ok f then
    let '(payload_len, whitener_offset) := header_payload f in
    let f := enter_have_header payload_len whitener_offset f in
    if d_packetlen f =? 0 then
      enter_search (insert_tail {| type := 0; arg1 := d_packet_whitener_offset f; arg2 := 0; msg := [] |} f)
    else f
  else enter_search f.

Fixpoint have_sync (inp : list Z) (f : gr_framer_sink_1) : list Z * gr_framer_sink_1 :=
  match inp with
  | [] => ([], f)
  | x :: rest =>
      let f := header_bit x f in
      if d_headerbitlen_cnt f =? HEADERBITLEN then (rest, header_full f) else have_sync rest f
  end.

(** A bit of the packet, not the last of its byte; and the last one. *)
Definition packet_bit (x : Z) (f : gr_framer_sink_1) : gr_framer_sink_1 :=
  {| d_target_queue := d_target_queue f; d_state := d_state f; d_header := d_header f;
     d_headerbitlen_cnt := d_headerbitlen_cnt f; d_packet := d_packet f;
     d_packet_byte := u8 ((d_packet_byte f << 1) .| (x .& 0x1));
     d_packet_byte_index := d_packet_byte_index f + 1; d_packetlen := d_packetlen f;
     d_packet_whitener_offset := d_packet_whitener_offset f; d_packetlen_cnt := d_packetlen_cnt f |}.

Definition packet_byte (f : gr_framer_sink_1) : gr_framer_sink_1 :=
  {| d_target_queue := d_target_queue f; d_state := d_state f; d_header := d_header f;
     d_headerbitlen_cnt := d_headerbitlen_cnt f; d_packet := (d_packet f).[d_packetlen_cnt f <- d_packet_byte f];
     d_packet_byte := d_packet_byte f;
     d_packet_byte_index := 0; d_packetlen := d_packetlen f;
     d_packet_whitener_offset := d_packet_whitener_offset f; d_packetlen_cnt := d_packetlen_cnt f + 1 |}.

Fixpoint have_header (inp : list Z) (f : gr_framer_sink_1) : list Z * gr_framer_sink_1 :=
  match inp with
  | [] => ([], f)
  | x :: rest =>
      let last := d_packet_byte_index f =? 7 in
      let f := packet_bit x f in
      if last then
        let f := packet_byte f in
        if d_packetlen_cnt f =? d_packetlen f then
          let m := {| type := 0; arg1 := d_packet_whitener_offset f; arg2 := 0;
                      msg := take (Z.to_nat (d_packetlen_cnt f)) (d_packet f) |} in
          (rest, enter_search (insert_tail m f))
        else have_header rest f
      else have_header rest f
  end.

(** ** The outer loop

    [while (count < noutput_items)]; [fuel] bounds the number of rounds, [None]
    is that there were more. *)
Fixpoint framer_loop (fuel : nat) (inp : list Z) (f : gr_framer_sink_1) : option gr_framer_sink_1 :=
  match inp with
  | [] => Some f
  | _ =>
      match fuel with
      | O => None
      | S fuel =>
          let '(rest, f) :=
            match d_state f with
            | STATE_SYNC_SEARCH => sync_search inp f
            | STATE_HAVE_SYNC => have_sync inp f
            | STATE_HAVE_HEADER => have_header inp f
            end in
          framer_loop fuel rest f
      end
  end.

(** A round takes an item at least, or finds a mark and the next one does. *)
Definition framer_work (inp : list Z) (f : gr_framer_sink_1) : option gr_framer_sink_1 :=
  framer_loop (2 * length inp) inp f.

(** ** Item by item

    The loops do to each item what depends only on the state. *)

Definition sync_bit (x : Z) (f : gr_framer_sink_1) : gr_framer_sink_1 :=
  let f := header_bit x f in
  if d_headerbitlen_cnt f =? HEADERBITLEN then header_full f else f.

Definition fill_bit (x : Z) (f : gr_framer_sink_1) : gr_framer_sink_1 :=
  let last := d_packet_byte_index f =? 7 in
  let f := packet_bit x f in
  if last then
    let f := packet_byte f in
    if d_packetlen_cnt f =? d_packetlen f then
      enter_search (insert_tail {| type := 0; arg1 := d_packet_whitener_offset f; arg2 := 0;
                                   msg := take (Z.to_nat (d_packetlen_cnt f)) (d_packet f) |} f)
    else f
  else f.

Definition framer_item (f : gr_framer_sink_1) (x : Z) : gr_framer_sink_1 :=
  match d_state f with
  | STATE_SYNC_SEARCH => if ctrue (x .& 0x2) then sync_bit x (enter_have_sync f) else f
  | STATE_HAVE_SYNC => sync_bit x f
  | STATE_HAVE_HEADER => fill_bit x f
  end.

Lemma sync_search_items inp f : d_state f = STATE_SYNC_SEARCH ->
  let '(rest, f') := sync_search inp f in
  fold_left framer_item inp f = fold_left framer_item rest f' /\ (length rest <= length inp)%nat /\
  (rest = [] \/ d_state f' = STATE_HAVE_SYNC).
Proof.
  intros Hf. induction inp as [|x inp IH]; cbn [sync_search]; [by auto|].
  destruct (ctrue (x .& 0x2)) eqn:Ex.
  - split; [|by auto]. cbn [fold_left]. unfold framer_item at 2 4. rewrite Hf, Ex. done.
  - destruct (sync_search inp f) as [rest f']. destruct IH as (E & Hl & Hr). split; [|split; [cbn [length]; lia|done]].
    cbn [fold_left]. unfold framer_item at 2. by rewrite Hf, Ex.
Qed.

Lemma framer_item_sync f x : d_state f = STATE_HAVE_SYNC -> framer_item f x = sync_bit x f.
Proof. intros Hf. unfold framer_item. by rewrite Hf. Qed.

Lemma framer_item_fill f x : d_state f = STATE_HAVE_HEADER -> framer_item f x = fill_bit x f.
Proof. intros Hf. unfold framer_item. by rewrite Hf. Qed.

Lemma have_sync_items inp f : d_state f = STATE_HAVE_SYNC ->
  let '(rest, f') := have_sync inp f in
  fold_left framer_item inp f = fold_left framer_item rest f' /\ (length rest <= length inp - 1)%nat.
Proof.
  revert f. induction inp as [|x inp IH]; intros f Hf; cbn [have_sync fold_left]; [by split|].
  rewrite (framer_item_sync f x Hf). unfold sync_bit. cbv zeta.
  destruct (d_headerbitlen_cnt (header_bit x f) =? HEADERBITLEN); [split; [done|cbn [length]; lia]|].
  specialize (IH (header_bit x f) Hf). destruct (have_sync inp (header_bit x f)) as [rest f'].
  destruct IH as [IH Hl]. split; [done|cbn [length]; lia].
Qed.

Lemma have_header_items inp f : d_state f = STATE_HAVE_HEADER ->
  let '(rest, f') := have_header inp f in
  fold_left framer_item inp f = fold_left framer_item rest f' /\ (length rest <= length inp - 1)%nat.
Proof.
  revert f. induction inp as [|x inp IH]; intros f Hf; cbn [have_header fold_left]; [by split|].
  rewrite (framer_item_fill f x Hf). unfold fill_bit. cbv zeta.
  assert (forall g, d_state g = STATE_HAVE_HEADER -> let '(rest, f') := have_header inp g in
    fold_left framer_item inp g = fold_left framer_item rest f' /\ (length rest <= length (x :: inp) - 1)%nat) as IH'.
  { intros g Hg. specialize (IH g Hg). destruct (have_header inp g). destruct IH. split; [done|cbn [length]; lia]. }
  case_if; [|by apply IH']. case_if; [split; [done|cbn [length]; lia]|by apply IH'].
Qed.

Definition searching (f : gr_framer_sink_1) : nat := match d_state f with STATE_SYNC_SEARCH => 1 | _ => 0 end.

Lemma framer_loop_items fuel inp f : (2 * length inp + searching f <= fuel + 1)%nat ->
  framer_loop fuel inp f = Some (fold_left framer_item inp f).
Proof.
  revert inp f. induction fuel as [|fuel IH]; intros inp f Hn; destruct inp as [|x inp]; [done|cbn [length] in Hn; lia|done|].
  remember (x :: inp) as l. cbn [framer_loop]. subst l. cbv iota. destruct (d_state f) eqn:Ef; unfold searching in Hn; rewrite Ef in Hn; cbn [length] in Hn.
  - pose proof (sync_search_items (x :: inp) f Ef) as H. destruct (sync_search (x :: inp) f) as [rest f']. destruct H as (-> & Hl & Hr).
    apply IH. cbn [length] in Hl. destruct Hr as [-> | Hr]; [cbn [length]; unfold searching; case_match; lia|].
    unfold searching. rewrite Hr. lia.
  - pose proof (have_sync_items (x :: inp) f Ef) as H. destruct (have_sync (x :: inp) f) as [rest f']. destruct H as [-> Hl].
    apply IH. cbn [length] in Hl. unfold searching. case_match; lia.
  - pose proof (have_header_items (x :: inp) f Ef) as H. destruct (have_header (x :: inp) f) as [rest f']. destruct H as [-> Hl].
    apply IH. cbn [length] in Hl; unfold searching; case_match; lia.
Qed.

(** The loops end: two rounds an item are enough. *)
Lemma framer_work_items inp f : framer_work inp f = Some (fold_left framer_item inp f).
Proof.
  destruct inp as [|x inp]; [done|]. apply framer_loop_items. unfold searching. case_match; lia.
Qed.

(** The calls of [work] on a stream. *)
Definition framer_calls (calls : list (list Z)) (f : gr_framer_sink_1) : option gr_framer_sink_1 :=
  fold_left (fun f inp => f ≫= framer_work inp) calls (Some f).

Lemma framer_calls_items calls f : framer_calls calls f = Some (fold_left framer_item (mjoin calls) f).
Proof.
  unfold framer_calls. revert f. induction calls as [|inp calls IH]; intros f; [done|].
  cbn [fold_left]. rewrite some_bind, framer_work_items, IH, join_cons, fold_left_app. done.
Qed.

(** ** Frames of a stream

    What the machine is for, without its registers: past a mark there are 32 bits
    of header and, when its halves agree, so many bytes. *)

Definition low (x : Z) : Z := x .& 0x1.

(** Packing eight bits to a byte. *)
Fixpoint bytes_of_bits (n : nat) (l : list Z) : list Z :=
  match n with
  | O => []
  | S n => walk 0 (take 8 l) :: bytes_of_bits n (drop 8 l)
  end.

(** The length and the offset. *)
Definition frame_header (l : list Z) : option (Z * Z) :=
  let h := walk 0 l in
  if h / 65536 =? h mod 65536 then Some (h mod 4096, h / 4096 mod 16) else None.

Fixpoint skip_unmarked (s : list Z) : list Z :=
  match s with
  | [] => []
  | x :: s' => if ctrue (x .& 0x2) then s else skip_unmarked s'
  end.

Fixpoint frames (fuel : nat) (s : list Z) : list message :=
  match fuel, skip_unmarked s with
  | O, _ | _, [] => []
  | S fuel, s =>
      if (length s <? 32)%nat then []
      else
        let rest := drop 32 s in
        match frame_header (map low (take 32 s)) with
        | None => frames fuel rest
        | Some (n, off) =>
            let n := Z.to_nat n in
            if (length rest <? 8 * n)%nat then []
            else {| type := 0; arg1 := off; arg2 := 0; msg := bytes_of_bits n (map low rest) |}
                 :: frames fuel (drop (8 * n) rest)
        end
  end.

(** ** The machine refines it *)

(** Reading a header: the bits so far; reading a packet: the bytes and bits so far. *)
Record heading (q : list message) (bits : list Z) (f : gr_framer_sink_1) : Prop := {
  hd_state : d_state f = STATE_HAVE_SYNC;
  hd_queue : d_target_queue f = q;
  hd_count : d_headerbitlen_cnt f = Z.of_nat (length bits);
  hd_header : d_header f = walk 0 bits;
  hd_bits : Forall bit bits /\ (length bits < 32)%nat;
  hd_packet : length (d_packet f) = Z.to_nat MAX_PKT_LEN
}.

Record filling (q : list message) (off n : Z) (done bits : list Z) (f : gr_framer_sink_1) : Prop := {
  fl_state : d_state f = STATE_HAVE_HEADER;
  fl_queue : d_target_queue f = q;
  fl_offset : d_packet_whitener_offset f = off;
  fl_length : d_packetlen f = n;
  fl_count : d_packetlen_cnt f = Z.of_nat (length done) /\ Z.of_nat (length done) < n < MAX_PKT_LEN;
  fl_index : d_packet_byte_index f = Z.of_nat (length bits) /\ (length bits < 8)%nat;
  fl_byte : exists v, d_packet_byte f = u8 (walk v bits);
  fl_bits : Forall bit bits;
  fl_packet : length (d_packet f) = Z.to_nat MAX_PKT_LEN /\ take (length done) (d_packet f) = done
}.

Definition idle (q : list message) (f : gr_framer_sink_1) : Prop :=
  d_state f = STATE_SYNC_SEARCH /\ d_target_queue f = q /\ length (d_packet f) = Z.to_nat MAX_PKT_LEN.

Lemma u8_u8 x : u8 (u8 x) = u8 x.
Proof. apply u8_id, u8_range. Qed.

#[local] Ltac fields := cbn [d_target_queue d_state d_header d_headerbitlen_cnt d_packet d_packet_byte d_packet_byte_index
  d_packetlen d_packet_whitener_offset d_packetlen_cnt packet_byte packet_bit header_bit enter_search insert_tail
  enter_have_header enter_have_sync].

Lemma low_bit x : bit (low x).
Proof. unfold low. change 0x1 with (Z.ones 1). rewrite land_mask by lia. change (2 ^ 1) with 2. unfold bit. divlia. Qed.

Lemma shift_in_bit v b : bit b -> (v << 1) .| b = 2 * v + b.
Proof. intros Hb. rewrite (lor_shl_add v b 1); [change (2 ^ 1) with 2; lia|lia|]. destruct Hb as [-> | ->]; norm_pow; lia. Qed.

(** What is after a header. *)
Definition headed (q : list message) (bits : list Z) (f : gr_framer_sink_1) : Prop :=
  match frame_header bits with
  | None => idle q f
  | Some (n, off) =>
      if n =? 0 then idle (q ++ [{| type := 0; arg1 := off; arg2 := 0; msg := [] |}]) f
      else filling q off n [] [] f
  end.

Lemma header_fields h : 0 <= h < 2 ^ 32 ->
  ((((h >> 16) .^ (h .& 0xffff)) =? 0) = (h / 65536 =? h mod 65536)) /\
  (h / 65536 = h mod 65536 -> (h >> 16) .& 0x0fff = h mod 4096 /\ (h >> 28) .& 0x000f = h / 4096 mod 16).
Proof.
  norm_pow. intros Hh. change 0xffff with (Z.ones 16). change 0x0fff with (Z.ones 12). change 0x000f with (Z.ones 4).
  rewrite !land_mask, !shr_div by lia. norm_pow. split; [|divlia].
  apply eq_true_iff_eq. rewrite !Z.eqb_eq. apply Z.lxor_eq_0_iff.
Qed.

Lemma heading_bit q bits x f : heading q bits f ->
  if (length bits =? 31)%nat then headed q (bits ++ [low x]) (sync_bit x f) else heading q (bits ++ [low x]) (sync_bit x f).
Proof.
  intros [Hs Hq Hc Hh [Hb Hl] Hp]. unfold sync_bit. cbv zeta. change (d_headerbitlen_cnt (header_bit x f)) with (d_headerbitlen_cnt f + 1). rewrite Hc.
  assert (Forall bit (bits ++ [low x])) as Hb' by (apply Forall_app; split; [done|apply Forall_singleton, low_bit]).
  assert (length (bits ++ [low x]) = S (length bits)) as Hl' by (rewrite length_app; cbn; lia).
  pose proof (walk_range _ Hb) as Hw. pose proof (walk_range _ Hb') as Hw'. rewrite Hl' in Hw'.
  assert (2 ^ Z.of_nat (length bits) <= 2 ^ 31) as H31 by (apply Z.pow_le_mono_r; lia).
  assert (u32 (d_header f << 1) .| low x = walk 0 (bits ++ [low x])) as E.
  { rewrite walk_snoc, Hh, u32_id; [by rewrite shift_in_bit by apply low_bit|]. rewrite shl_mul by lia. revert H31. norm_pow. lia. }
  destruct (Nat.eqb_spec (length bits) 31) as [E31|].
  - rewrite E31. change (Z.of_nat 31 + 1 =? HEADERBITLEN) with true. cbv iota. rewrite E31 in Hw'.
    destruct (header_fields (walk 0 (bits ++ [low x])) Hw') as [Hok Hf].
    unfold header_full, header_ok, headed, frame_header. cbn [header_bit d_header]. fold (low x). rewrite E, Hok.
    destruct (Z.eqb_spec (walk 0 (bits ++ [low x]) / 65536) (walk 0 (bits ++ [low x]) mod 65536)) as [Ew|]; [|done].
    destruct (Hf Ew) as [En Eo]. unfold header_payload. cbn [header_bit d_header]. fold (low x). rewrite E, En, Eo.
    cbn [enter_have_header d_packetlen]. case_if; [split; [done|]; cbn; by rewrite Hq|].
    split; cbn; try done; [..|by exists 0].
    + unfold MAX_PKT_LEN. pose proof (Z.mod_pos_bound (walk 0 (bits ++ [low x])) 4096). lia.
    + lia.
  - rewrite (proj2 (Z.eqb_neq _ HEADERBITLEN)) by (unfold HEADERBITLEN; lia).
    split; cbn [header_bit d_state d_target_queue d_headerbitlen_cnt d_header d_packet]; try done; [lia|split; [done|lia]].
Qed.

Lemma filling_bit q off n pre bits x f : filling q off n pre bits f ->
  if (length bits =? 7)%nat then
    let pre := pre ++ [walk 0 (bits ++ [low x])] in
    if Z.of_nat (length pre) =? n then idle (q ++ [{| type := 0; arg1 := off; arg2 := 0; msg := pre |}]) (fill_bit x f)
    else filling q off n pre [] (fill_bit x f)
  else filling q off n pre (bits ++ [low x]) (fill_bit x f).
Proof.
  intros [Hs Hq Ho Hn [Hc Hcn] [Hi Hl] [v Hv] Hb [Hp Ht]]. unfold fill_bit. cbv zeta. rewrite Hi.
  assert (Forall bit (bits ++ [low x])) as Hb' by (apply Forall_app; split; [done|apply Forall_singleton, low_bit]).
  assert (length (bits ++ [low x]) = S (length bits)) as Hl' by (rewrite length_app; cbn; lia).
  assert (u8 ((d_packet_byte f << 1) .| low x) = u8 (walk v (bits ++ [low x]))) as E.
  { rewrite walk_snoc, Hv, shift_in_bit by apply low_bit. unfold ux. change (2 ^ 8) with 256. divlia. }
  destruct (Nat.eqb_spec (length bits) 7) as [E7|].
  - rewrite E7. change (Z.of_nat 7 =? 7) with true. cbv iota.
    assert (u8 (walk v (bits ++ [low x])) = walk 0 (bits ++ [low x])) as E8.
    { pose proof (walk_range _ Hb') as Hw. rewrite (walk_split v). rewrite Hl', E7 in *. unfold ux.
      change (2 ^ Z.of_nat 8) with 256 in *. change (2 ^ 8) with 256. divlia. }
    set (b := walk 0 (bits ++ [low x])) in *.
    assert (take (length pre + 1) ((d_packet f).[Z.of_nat (length pre) <- b]) = pre ++ [b]) as Etk.
    { unfold aset. case_if; [lia|]. rewrite Nat2Z.id, Nat.add_1_r. unfold MAX_PKT_LEN in *.
      rewrite (take_S_r _ _ b) by (apply list_lookup_insert_eq; lia). by rewrite take_insert_ge, Ht by lia. }
    cbn [packet_byte packet_bit d_packetlen_cnt d_packetlen d_packet d_packet_byte]. fold (low x).
    rewrite Hc, Hn, length_app, E, E8. cbn [length]. replace (Z.of_nat (length pre + 1)) with (Z.of_nat (length pre) + 1) by lia. case_if.
    + split; [done|]. cbn. rewrite Hq, Ho. split; [|by rewrite length_aset]. do 3 f_equal.
      by replace (Z.to_nat (Z.of_nat (length pre) + 1)) with (length pre + 1)%nat by lia.
    + split; fields; try done; rewrite ?length_app; cbn [length]; unfold MAX_PKT_LEN in *.
      * lia.
      * lia.
      * exists b. change (walk b []) with b. rewrite <- E8, u8_u8. exact E.
      * fold (low x). rewrite length_aset, Hc, E, E8. by split.
  - rewrite (proj2 (Z.eqb_neq _ 7)) by lia.
    split; cbn [packet_bit d_state d_target_queue d_packet_whitener_offset d_packetlen d_packetlen_cnt d_packet_byte_index d_packet_byte d_packet]; try done.
    + split; [lia|lia].
    + exists v. exact E.
Qed.

(** Runs of items. *)
Lemma heading_run q bits l f : heading q bits f -> (length bits + length l <= 32)%nat -> l <> [] ->
  if (length bits + length l =? 32)%nat then headed q (bits ++ map low l) (fold_left framer_item l f)
  else heading q (bits ++ map low l) (fold_left framer_item l f).
Proof.
  revert bits f. induction l as [|x l IH]; intros bits f Hf Hl Hne; [done|]. clear Hne. cbn [length map fold_left] in *.
  rewrite (framer_item_sync f x (hd_state _ _ _ Hf)). pose proof (heading_bit q bits x f Hf) as Hx.
  destruct (Nat.eqb_spec (length bits) 31).
  - destruct l as [|y l]; [|cbn [length] in Hl; lia]. rewrite (proj2 (Nat.eqb_eq _ 32)) by (cbn [length]; lia). done.
  - destruct l as [|y l]; [by rewrite (proj2 (Nat.eqb_neq _ 32)) by (cbn [length]; lia)|].
    assert (length (bits ++ [low x]) = S (length bits)) as El by (rewrite length_app; cbn; lia).
    specialize (IH (bits ++ [low x]) _ Hx). rewrite El, <- app_assoc in IH. rewrite Nat.add_succ_r. apply IH; [lia|done].
Qed.

Lemma filling_run q off n pre bits l f : filling q off n pre bits f -> (length bits + length l < 8)%nat ->
  filling q off n pre (bits ++ map low l) (fold_left framer_item l f).
Proof.
  revert bits f. induction l as [|x l IH]; intros bits f Hf Hl; cbn [length map fold_left] in *; [by rewrite app_nil_r|].
  rewrite (framer_item_fill f x (fl_state _ _ _ _ _ _ Hf)). pose proof (filling_bit q off n pre bits x f Hf) as Hx.
  rewrite (proj2 (Nat.eqb_neq _ 7)) in Hx by lia. specialize (IH _ _ Hx). rewrite <- app_assoc in IH. apply IH.
  rewrite length_app. cbn [length]. lia.
Qed.

Lemma filling_byte q off n pre l f : filling q off n pre [] f -> length l = 8%nat ->
  let pre := pre ++ [walk 0 (map low l)] in
  if Z.of_nat (length pre) =? n then idle (q ++ [{| type := 0; arg1 := off; arg2 := 0; msg := pre |}]) (fold_left framer_item l f)
  else filling q off n pre [] (fold_left framer_item l f).
Proof.
  intros Hf Hl. destruct l as [|x l _] using rev_ind; [done|]. rewrite length_app in Hl. cbn [length] in Hl.
  pose proof (filling_run q off n pre [] l f Hf ltac:(cbn [length]; lia)) as Hr. cbn [app] in Hr.
  rewrite fold_left_app, map_app. cbn [fold_left map]. rewrite (framer_item_fill _ x (fl_state _ _ _ _ _ _ Hr)).
  pose proof (filling_bit q off n pre (map low l) x _ Hr) as Hx.
  by rewrite (proj2 (Nat.eqb_eq _ 7)) in Hx by (rewrite length_map; lia).
Qed.

Lemma filling_bytes k q off n pre l f : filling q off n pre [] f -> n = Z.of_nat (length pre + S k) -> length l = (8 * S k)%nat ->
  idle (q ++ [{| type := 0; arg1 := off; arg2 := 0; msg := pre ++ bytes_of_bits (S k) (map low l) |}]) (fold_left framer_item l f).
Proof.
  revert pre l f. induction k as [|k IH]; intros pre l f Hf Hn Hl;
    pose proof (filling_byte q off n pre (take 8 l) f Hf ltac:(rewrite length_take; lia)) as Hb; cbv zeta in Hb;
    rewrite length_app in Hb; cbn [length] in Hb.
  - rewrite (proj2 (Z.eqb_eq _ n)) in Hb by lia. rewrite take_ge in Hb by lia. cbn [bytes_of_bits].
    by rewrite take_ge by (rewrite length_map; lia).
  - rewrite (proj2 (Z.eqb_neq _ n)) in Hb by lia. rewrite <- (take_drop 8 l), fold_left_app.
    specialize (IH _ (drop 8 l) _ Hb ltac:(rewrite length_app; cbn [length]; lia) ltac:(rewrite length_drop; lia)).
    rewrite <- app_assoc in IH. rewrite take_drop. remember (S k) as k'. cbn [bytes_of_bits].
    by rewrite firstn_map, skipn_map.
Qed.

Lemma filling_short k q off n pre l f : filling q off n pre [] f -> n = Z.of_nat (length pre + k) -> (length l < 8 * k)%nat ->
  d_target_queue (fold_left framer_item l f) = q.
Proof.
  revert pre l f. induction k as [|k IH]; intros pre l f Hf Hn Hl; [lia|]. destruct (Nat.lt_ge_cases (length l) 8).
  { apply (fl_queue _ _ _ _ _ _ (filling_run q off n pre [] l f Hf ltac:(cbn [length]; lia))). }
  pose proof (filling_byte q off n pre (take 8 l) f Hf ltac:(rewrite length_take; lia)) as Hb. cbv zeta in Hb.
  rewrite length_app in Hb. cbn [length] in Hb. rewrite (proj2 (Z.eqb_neq _ n)) in Hb by lia.
  rewrite <- (take_drop 8 l), fold_left_app. apply (IH _ _ _ Hb); [rewrite length_app; cbn [length]; lia|rewrite length_drop; lia].
Qed.

Lemma idle_skip q s f : idle q f -> fold_left framer_item s f = fold_left framer_item (skip_unmarked s) f.
Proof.
  intros (Hs & _). induction s as [|x s IH]; [done|]. cbn [skip_unmarked]. destruct (ctrue (x .& 0x2)) eqn:Ex; [done|].
  cbn [fold_left]. unfold framer_item at 2. by rewrite Hs, Ex.
Qed.

Lemma skip_unmarked_head s x l : skip_unmarked s = x :: l -> ctrue (x .& 0x2) = true /\ (length (x :: l) <= length s)%nat.
Proof.
  induction s as [|y s IH]; [done|]. cbn [skip_unmarked]. destruct (ctrue (y .& 0x2)) eqn:Ey; [by intros [= <- <-]|].
  intros H. destruct (IH H). split; [done|cbn [length] in *; lia].
Qed.

(** At a mark a header starts. *)
Lemma idle_mark q x l f : idle q f -> ctrue (x .& 0x2) = true ->
  heading q [] (enter_have_sync f) /\ fold_left framer_item (x :: l) f = fold_left framer_item (x :: l) (enter_have_sync f).
Proof.
  intros (Hs & Hq & Hp) Hx. split; [split; fields; done || (split; [done|cbn; lia])|].
  cbn [fold_left]. unfold framer_item at 2 4. by rewrite Hs, Hx.
Qed.

Lemma frame_header_range l n off : frame_header l = Some (n, off) -> 0 <= n < 4096.
Proof. unfold frame_header. case_if; [|done]. intros [= <- _]. by apply Z.mod_pos_bound. Qed.

Lemma bytes_of_bits_take n l : bytes_of_bits n (take (8 * n) l) = bytes_of_bits n l.
Proof.
  revert l. induction n as [|n IH]; intros l; [done|]. cbn [bytes_of_bits]. rewrite take_take, Nat.min_l by lia. f_equal.
  rewrite <- (IH (drop 8 l)). rewrite skipn_firstn_comm. do 2 f_equal. lia.
Qed.

Lemma idle_frames fuel q s f : idle q f -> (length s <= fuel)%nat ->
  d_target_queue (fold_left framer_item s f) = q ++ frames fuel s.
Proof.
  revert q s f. induction fuel as [|fuel IH]; intros q s f Hf Hl.
  { destruct s; [|cbn [length] in Hl; lia]. cbn. rewrite app_nil_r. apply Hf. }
  rewrite (idle_skip q s f Hf). cbn [frames]. destruct (skip_unmarked s) as [|x l] eqn:Es.
  { cbn. rewrite app_nil_r. apply Hf. }
  apply skip_unmarked_head in Es as [Hx Hxl]. destruct (idle_mark q x l f Hf Hx) as [Hh ->].
  destruct (Nat.ltb_spec (length (x :: l)) 32).
  { pose proof (heading_run q [] (x :: l) _ Hh ltac:(cbn [length] in *; lia) ltac:(done)) as Hr. change (length []) with 0%nat in Hr.
    rewrite (proj2 (Nat.eqb_neq _ 32)) in Hr by lia. rewrite app_nil_r. apply Hr. }
  set (s' := x :: l) in *. rewrite <- (take_drop 32 s') at 1. rewrite fold_left_app.
  pose proof (heading_run q [] (take 32 s') _ Hh ltac:(rewrite length_take; cbn [length]; lia) ltac:(done)) as Hr.
  rewrite length_take in Hr. replace (length [] + 32 `min` length s')%nat with 32%nat in Hr by (cbn [length]; lia).
  cbn [Nat.eqb app] in Hr. unfold headed in Hr. destruct (frame_header (map low (take 32 s'))) as [[n off]|] eqn:Eh.
  2:{ apply (IH _ _ _ Hr). rewrite length_drop. lia. }
  apply frame_header_range in Eh. destruct (Z.eqb_spec n 0) as [->|].
  { rewrite (IH _ _ _ Hr) by (rewrite length_drop; lia). rewrite <- app_assoc. done. }
  destruct (Nat.ltb_spec (length (drop 32 s')) (8 * Z.to_nat n)).
  { rewrite app_nil_r. apply (filling_short (Z.to_nat n) _ _ _ _ _ _ Hr); [cbn [length]; lia|done]. }
  set (r := drop 32 s') in *. rewrite <- (take_drop (8 * Z.to_nat n) r) at 1. rewrite fold_left_app.
  pose proof (filling_bytes (Z.to_nat n - 1) _ _ _ _ (take (8 * Z.to_nat n) r) _ Hr ltac:(cbn [length]; lia) ltac:(rewrite length_take; lia)) as Hm.
  replace (S (Z.to_nat n - 1)) with (Z.to_nat n) in Hm by lia. cbn [app] in Hm.
  rewrite (IH _ _ _ Hm) by (subst r; rewrite !length_drop; lia). rewrite <- app_assoc. cbn [app]. do 3 f_equal.
  by rewrite <- firstn_map, bytes_of_bits_take.
Qed.

Lemma bytes_of_bits_length n l : length (bytes_of_bits n l) = n.
Proof. revert l. induction n as [|n IH]; intros l; [done|]. cbn. by rewrite IH. Qed.

Lemma frames_short fuel s : Forall (fun m => Z.of_nat (length (msg m)) < MAX_PKT_LEN) (frames fuel s).
Proof.
  revert s. induction fuel as [|fuel IH]; intros s; [constructor|]. cbn [frames]. destruct (skip_unmarked s) as [|x l]; [constructor|].
  case_if; [constructor|]. destruct (frame_header _) as [[n off]|] eqn:Eh; [|apply IH]. apply frame_header_range in Eh.
  case_if; [constructor|]. constructor; [|apply IH]. cbn [msg]. rewrite bytes_of_bits_length. unfold MAX_PKT_LEN. lia.
Qed.

Lemma framer_calls_frames calls junk : length (d_packet junk) = Z.to_nat MAX_PKT_LEN ->
  exists f, framer_calls calls (gr_make_framer_sink_1 junk) = Some f /\
    d_target_queue f = frames (length (mjoin calls)) (mjoin calls) /\
    Forall (fun m => Z.of_nat (length (msg m)) < MAX_PKT_LEN) (d_target_queue f).
Proof.
  intros Hj. eexists. split; [apply framer_calls_items|]. rewrite (idle_frames (length (mjoin calls)) []) by (by repeat split || done).
  split; [done|]. cbn [app]. apply frames_short.
Qed.

(** C16. Framing is a function of the stream of items alone.  However the stream is
    cut into calls of [work], the loops end, and the messages in the queue are the
    frames of the stream, in order: after a marked bit 32 bits of header; if its
    halves agree, the bytes that follow, as many as the header says (an empty
    message for none), with the offset; then, or after a header whose halves differ,
    the next mark is looked for.  What the memory of the block held at first does not
    matter, and no packet is longer than the buffer [d_packet]. *)
Theorem framer_sink_1_spec calls junk : length (d_packet junk) = Z.to_nat MAX_PKT_LEN ->
  exists f, framer_calls calls (gr_make_framer_sink_1 junk) = Some f /\
    d_target_queue f = frames (length (mjoin calls)) (mjoin calls) /\
    Forall (fun m => Z.of_nat (length (msg m)) < MAX_PKT_LEN) (d_target_queue f).
Proof. apply framer_calls_frames. Qed.

(** ** Witness: a mark in the middle of a call, two bytes, and a bad header *)

Definition ex_junk : gr_framer_sink_1 :=
  {| d_target_queue := []; d_state := STATE_HAVE_HEADER; d_header := 7; d_headerbitlen_cnt := 99;
     d_packet := replicate (Z.to_nat MAX_PKT_LEN) 9; d_packet_byte := 1; d_packet_byte_index := 3; d_packetlen := 5;
     d_packet_whitener_offset := 6; d_packetlen_cnt := 7 |}.

Definition mark (bits : list Z) : list Z := match bits with [] => [] | b :: bits => b + 2 :: bits end.
Definition ex_frame : list Z := mark (bits_of [0x50; 2; 0x50; 2]) ++ bits_of [171; 7].
Definition ex_calls : list (list Z) := [[1; 0; 1] ++ take 20 ex_frame; drop 20 ex_frame ++ mark (bits_of [0; 2; 0; 3]) ++ [0; 1]].

Lemma framer_sink_1_spec_witness : exists f, framer_calls ex_calls (gr_make_framer_sink_1 ex_junk) = Some f /\
  d_target_queue f = [{| type := 0; arg1 := 5; arg2 := 0; msg := [171; 7] |}].
Proof.
  destruct (framer_sink_1_spec ex_calls ex_junk ltac:(vm_compute; reflexivity)) as (f & Hf & Hq & _).
  exists f. split; [exact Hf|]. rewrite Hq. vm_compute. reflexivity.
Defined.
