(* ===== verification/Packet.v ===== *)
(** * Packets: [packet_utils.py], [pkt.py], [mathmisc.py]

    What a packet is made of and how it is taken apart, the hierarchical blocks that
    send and receive packets, and the way of a packet from one to the other through
    the correlator and the framer.  Strings are lists of character codes.  The
    exclusive or of [numpy] is a parameter. *)

From S2P Require Import Prelude.
From stdpp Require Import list.
From S2P Require Import Bits Crc32 Correlator Framer.
#[local] Open Scope Z_scope.
#[local] Open Scope cint_scope.

(** ** Python *)

Inductive exn := ValueError | ZeroDivisionError.

(** Division and remainder of integers round down. *)
Definition pydiv (a b : Z) : res exn Z := if b =? 0 then Throw ZeroDivisionError else Ok (a / b).
Definition pymod (a b : Z) : res exn Z := if b =? 0 then Throw ZeroDivisionError else Ok (a mod b).

(** [while b: a, b = b, a % b]; the second shrinks in magnitude at each round. *)
Fixpoint gcd_loop (fuel : nat) (a b : Z) : option Z :=
  if b =? 0 then Some a
  else match fuel with O => None | S fuel => gcd_loop fuel b (a mod b) end.
Definition gcd (a b : Z) : Z := default 0 (gcd_loop (Z.abs_nat b) a b).
Definition lcm (a b : Z) : res exn Z := pydiv (a * b) (gcd a b).

(** ** Strings of bits *)

Definition conv_packed_binary_string_to_1_0_string (s : list Z) : list Z :=
  map (fun x => x + 48) (mjoin (map (fun x => map (fun i => (x >> i) .& 0x1) [7; 6; 5; 4; 3; 2; 1; 0]) s)).

Definition is_1_0_string (s : list Z) : bool := forallb (fun ch => (ch =? 48) || (ch =? 49)) s.

(** [n] groups of eight. *)
Fixpoint pack_groups (n : nat) (s : list Z) : list Z :=
  match n with
  | O => []
  | S n => fold_left (fun t ch => (t << 1) .| (ch - 48)) (take 8 s) 0 :: pack_groups n (drop 8 s)
  end.

Definition conv_1_0_string_to_packed_binary_string (s : list Z) : res exn (list Z * bool) :=
  if negb (is_1_0_string s) then Throw ValueError
  else
    let rem := (length s mod 8)%nat in
    let '(s, padded) := if (rem =? 0)%nat then (s, false) else (replicate (8 - rem) 48 ++ s, true) in
    Ok (pack_groups (length s / 8) s, padded).

Definition default_access_code : list Z :=
  conv_packed_binary_string_to_1_0_string [0xAC; 0xDD; 0xA4; 0xE2; 0xF2; 0x8C; 0x20; 0xFC].
Definition preamble : list Z := conv_packed_binary_string_to_1_0_string [0xA4; 0xF2].

(** ** Packets *)

Definition random_mask_tuple : list Z := [
  255;63;0;16;0;12;0;5;192;3;16;1;204;0;85;192;63;16;16;12;12;5;197;195;19;17;205;204;85;149;255;47;
  0;28;0;9;192;6;208;2;220;1;153;192;106;208;47;28;28;9;201;198;214;210;222;221;152;89;170;186;255;51;0;21;
  192;15;16;4;12;3;69;193;243;16;69;204;51;21;213;207;31;20;8;15;70;132;50;227;85;137;255;38;192;26;208;11;
  28;7;73;194;182;209;182;220;118;217;230;218;202;219;23;27;78;139;116;103;103;106;170;175;63;60;16;17;204;12;85;197;
  255;19;0;13;192;5;144;3;44;1;221;192;89;144;58;236;19;13;205;197;149;147;47;45;220;29;153;201;170;214;255;30;
  192;8;80;6;188;2;241;193;132;80;99;124;41;225;222;200;88;86;186;190;243;48;69;212;51;31;85;200;63;22;144;14;
  236;4;77;195;117;145;231;44;74;157;247;41;134;158;226;232;73;142;182;228;118;203;102;215;106;222;175;24;124;10;161;199;
  56;82;146;189;173;177;189;180;113;183;100;118;171;102;255;106;192;47;16;28;12;9;197;198;211;18;221;205;153;149;170;239;
  63;12;16;5;204;3;21;193;207;16;84;12;63;69;208;51;28;21;201;207;22;212;14;223;68;88;51;122;149;227;47;9;
  220;6;217;194;218;209;155;28;107;73;239;118;204;38;213;218;223;27;24;11;74;135;119;34;166;153;186;234;243;15;5;196;
  3;19;65;205;240;85;132;63;35;80;25;252;10;193;199;16;82;140;61;165;209;187;28;115;73;229;246;203;6;215;66;222;
  177;152;116;106;167;111;58;172;19;61;205;209;149;156;111;41;236;30;205;200;85;150;191;46;240;28;68;9;243;70;197;242;
  211;5;157;195;41;145;222;236;88;77;250;181;131;55;33;214;152;94;234;184;79;50;180;21;183;79;54;180;22;247;78;198;
  180;82;247;125;134;161;162;248;121;130;162;225;185;136;114;230;165;138;251;39;3;90;129;251;32;67;88;49;250;148;67;47;
  113;220;36;89;219;122;219;99;27;105;203;110;215;108;94;173;248;125;130;161;161;184;120;114;162;165;185;187;50;243;85;133;
  255;35;0;25;192;10;208;7;28;2;137;193;166;208;122;220;35;25;217;202;218;215;27;30;139;72;103;118;170;166;255;58;
  192;19;16;13;204;5;149;195;47;17;220;12;89;197;250;211;3;29;193;201;144;86;236;62;205;208;85;156;63;41;208;30;
  220;8;89;198;186;210;243;29;133;201;163;22;249;206;194;212;81;159;124;104;33;238;152;76;106;181;239;55;12;22;133;206;
  227;20;73;207;118;212;38;223;90;216;59;26;147;75;45;247;93;134;185;162;242;249;133;130;227;33;137;216;102;218;170;219;
  63;27;80;11;124;7;97;194;168;81;190;188;112;113;228;36;75;91;119;123;102;163;106;249;239;2;204;1;149;192;111;16;
  44;12;29;197;201;147;22;237;206;205;148;85;175;127;60;32;17;216;12;90;133;251;35;3;89;193;250;208;67;28;49;201;
  212;86;223;126;216;32;90;152;59;42;147;95;45;248;29;130;137;161;166;248;122;194;163;17;185;204;114;213;229;159;11;40;
  7;94;130;184;97;178;168;117;190;167;48;122;148;35;47;89;220;58;217;211;26;221;203;25;151;74;238;183;12;118;133;230;
  227;10;201;199;22;210;142;221;164;89;187;122;243;99;5;233;195;14;209;196;92;83;121;253;226;193;137;144;102;236;42;205;
  223;21;152;15;42;132;31;35;72;25;246;138;198;231;18;202;141;151;37;174;155;60;107;81;239;124;76;33;245;216;71;26;
  178;139;53;167;87;58;190;147;48;109;212;45;159;93;168;57;190;146;240;109;132;45;163;93;185;249;178;194;245;145;135;44;
  98;157;233;169;142;254;228;64;75;112;55;100;22;171;78;255;116;64;39;112;26;164;11;59;71;83;114;189;229;177;139;52;
  103;87;106;190;175;48;124;20;33;207;88;84;58;191;83;48;61;212;17;159;76;104;53;238;151;12;110;133;236;99;13;233;
  197;142;211;36;93;219;121;155;98;235;105;143;110;228;44;75;93;247;121;134;162;226;249;137;130;230;225;138;200;103;22;170;
  142;255;36;64;27;112;11;100;7;107;66;175;113;188;36;113;219;100;91;107;123;111;99;108;41;237;222;205;152;85;170;191;
  63;48;16;20;12;15;69;196;51;19;85;205;255;21;128;15;32;4;24;3;74;129;247;32;70;152;50;234;149;143;47;36;
  28;27;73;203;118;215;102;222;170;216;127;26;160;11;56;7;82;130;189;161;177;184;116;114;167;101;186;171;51;63;85;208;
  63;28;16;9;204;6;213;194;223;17;152;12;106;133;239;35;12;25;197;202;211;23;29;206;137;148;102;239;106;204;47;21;
  220;15;25;196;10;211;71;29;242;137;133;166;227;58;201;211;22;221;206;217;148;90;239;123;12;35;69;217;243;26;197;203;
  19;23;77;206;181;148;119;47;102;156;42;233;223;14;216;4;90;131;123;33;227;88;73;250;182;195;54;209;214;220;94;217;
  248;90;194;187;17;179;76;117;245;231;7;10;130;135;33;162;152;121;170;162;255;57;128;18;224;13;136;5;166;131;58;225;
  211;8;93;198;185;146;242;237;133;141;163;37;185;219;50;219;85;155;127;43;96;31;104;8;46;134;156;98;233;233;142;206;
  228;84;75;127;119;96;38;168;26;254;139;0;103;64;42;176;31;52;8;23;70;142;178;228;117;139;103;39;106;154;175;43;
  60;31;81;200;60;86;145;254;236;64;77;240;53;132;23;35;78;153;244;106;199;111;18;172;13;189;197;177;147;52;109;215;
  109;158;173;168;125;190;161;176;120;116;34;167;89;186;186;243;51;5;213;195;31;17;200;12;86;133;254;227;0;73;192;54;
  208;22;220;14;217;196;90;211;123;29;227;73;137;246;230;198;202;210;215;29;158;137;168;102;254;170;192;127;16;32;12;24;
  5;202;131;23;33;206;152;84;106;191;111;48;44;20;29;207;73;148;54;239;86;204;62;213;208;95;28;56;9;210;134;221;
  162;217;185;154;242;235;5;143;67;36;49;219;84;91;127;123;96;35;104;25;238;138;204;103;21;234;143;15;36;4;27;67;
  75;113;247;100;70;171;114;255;101;128;43;32;31;88;8;58;134;147;34;237;217;141;154;229;171;11;63;71;80;50;188;21;
  177;207;52;84;23;127;78;160;52;120;23;98;142;169;164;126;251;96;67;104;49;238;148;76;111;117;236;39;13;218;133;155;
  35;43;89;223;122;216;35;26;153;203;42;215;95;30;184;8;114;134;165;162;251;57;131;82;225;253;136;65;166;176;122;244;
  35;7;89;194;186;209;179;28;117;201;231;22;202;142;215;36;94;155;120;107;98;175;105;188;46;241;220;68;89;243;122;197;
  227;19;9;205;198;213;146;223;45;152;29;170;137;191;38;240;26;196;11;19;71;77;242;181;133;183;35;54;153;214;234;222;
  207;24;84;10;191;71;48;50;148;21;175;79;60;52;17;215;76;94;181;248;119;2;166;129;186;224;115;8;37;198;155;18;
  235;77;143;117;164;39;59;90;147;123;45;227;93;137;249;166;194;250;209;131;28;97;201;232;86;206;190;212;112;95;100;56;
  43;82;159;125;168;33;190;152;112;106;164;47;59;92;19;121;205;226;213;137;159;38;232;26;206;139;20;103;79;106;180;47;
  55;92;22;185;206;242;212;69;159;115;40;37;222;155;24;107;74;175;119;60;38;145;218;236;91;13;251;69;131;115;33;229;
  216;75;26;183;75;54;183;86;246;190;198;240;82;196;61;147;81;173;252;125;129;225;160;72;120;54;162;150;249;174;194;252;
  81;129;252;96;65;232;48;78;148;52;111;87;108;62;173;208;125;156;33;169;216;126;218;160;91;56;59;82;147;125;173;225;
  189;136;113;166;164;122;251;99;3;105;193;238;208;76;92;53;249;215;2;222;129;152;96;106;168;47;62;156;16;105;204;46;
  213;220;95;25;248;10;194;135;17;162;140;121;165;226;251;9;131;70;225;242;200;69;150;179;46;245;220;71;25;242;138;197;
  167;19;58;141;211;37;157;219;41;155;94;235;120;79;98;180;41;183;94;246;184;70;242;178;197;181;147;55;45;214;157;158;
  233;168;78;254;180;64;119;112;38;164;26;251;75;3;119;65;230;176;74;244;55;7;86;130;190;225;176;72;116;54;167;86;
  250;190;195;48;81;212;60;95;81;248;60;66;145;241;172;68;125;243;97;133;232;99;14;169;196;126;211;96;93;232;57;142;
  146;228;109;139;109;167;109;186;173;179;61;181;209;183;28;118;137;230;230;202;202;215;23;30;142;136;100;102;171;106;255;111;
  0;44;0;29;192;9;144;6;236;2;205;193;149;144;111;44;44;29;221;201;153;150;234;238;207;12;84;5;255;67;0;49;
  192;20;80;15;124;4;33;195;88;81;250;188;67;49;241;212;68;95;115;120;37;226;155;9;171;70;255;114;192;37;144;27;
  44;11;93;199;121;146;162;237;185;141;178;229;181;139;55;39;86;154;190;235;48;79;84;52;63;87;80;62;188;16;113;204;
  36;85;219;127;27;96;11;104;7;110;130;172;97;189;232;113;142;164;100;123;107;99;111;105;236;46;205;220;85;153;255;42;
  192;31;16;8;12;6;133;194;227;17;137;204;102;213;234;223;15;24;4;10;131;71;33;242;152;69;170;179;63;53;208;23;
  28;14;137;196;102;211;106;221;239;25;140;10;229;199;11;18;135;77;162;181;185;183;50;246;149;134;239;34;204;25;149;202;
  239;23;12;14;133;196;99;19;105;205;238;213;140;95;37;248;27;2;139;65;167;112;122;164;35;59;89;211;122;221;227;25;
  137;202;230;215;10;222;135;24;98;138;169;167;62;250;144;67;44;49;221;212;89;159;122;232;35;14;153;196;106;211;111;29;
  236;9;141;198;229;146;203;45;151;93;174;185;188;114;241;229;132;75;35;119;89;230;186;202;243;23;5;206;131;20;97;207;
  104;84;46;191;92;112;57;228;18;203;77;151;117;174;167;60;122;145;227;44;73;221;246;217;134;218;226;219;9;155;70;235;
  114;207;101;148;43;47;95;92;56;57;210;146;221;173;153;189;170;241;191;4;112;3;100;1;235;64;79;112;52;36;23;91;
  78;187;116;115;103;101;234;171;15;63;68;16;51;76;21;245;207;7;20;2;143;65;164;48;123;84;35;127;89;224;58;200;
  19;22;141;206;229;148;75;47;119;92;38;185;218;242;219;5;155;67;43;113;223;100;88;43;122;159;99;40;41;222;158;216;
  104;90;174;187;60;115;81;229;252;75;1;247;64;70;176;50;244;21;135;79;34;180;25;183;74;246;183;6;246;130;198;225;
  146;200;109;150;173;174;253;188;65;177;240;116;68;39;115;90;165;251;59;3;83;65;253;240;65;132;48;99;84;41;255;94;
  192;56;80;18;188;13;177;197;180;83;55;125;214;161;158;248;104;66;174;177;188;116;113;231;100;74;171;119;63;102;144;42;
  236;31;13;200;5;150;131;46;225;220;72;89;246;186;198;243;18;197;205;147;21;173;207;61;148;17;175;76;124;53;225;215;
  8;94;134;184;98;242;169;133;190;227;48;73;212;54;223;86;216;62;218;144;91;44;59;93;211;121;157;226;233;137;142;230;
  228;74;203;119;23;102;142;170;228;127;11;96;7;104;2;174;129;188;96;113;232;36;78;155;116;107;103;111;106;172;47;61;
  220;17;153;204;106;213;239;31;12;8;5;198;131;18;225;205;136;85;166;191;58;240;19;4;13;195;69;145;243;44;69;221;
  243;25;133;202;227;23;9;206;134;212;98;223;105;152;46;234;156;79;41;244;30;199;72;82;182;189;182;241;182;196;118;211;
  102;221;234;217;143;26;228;11;11;71;71;114;178;165;181;187;55;51;86;149;254;239;0;76;0;53;192;23;16;14;140;4;
  101;195;107;17;239;76;76;53;245;215;7;30;130;136;97;166;168;122;254;163;0;121;192;34;208;25;156;10;233;199;14;210;
  132;93;163;121;185;226;242;201;133;150;227;46;201;220;86;217;254;218;192;91;16;59;76;19;117;205;231;21;138;143;39;36;
  26;155;75;43;119;95;102;184;42;242;159;5;168;3;62;129;208;96;92;40;57;222;146;216;109;154;173;171;61;191;81;176;
  60;116;17;231;76;74;181;247;55;6;150;130;238;225;140;72;101;246;171;6;255;66;192;49;144;20;108;15;109;196;45;147;
  93;173;249;189;130;241;161;132;120;99;98;169;233;190;206;240;84;68;63;115;80;37;252;27;1;203;64;87;112;62;164;16;
  123;76;35;117;217;231;26;202;139;23;39;78;154;180;107;55;111;86;172;62;253;208;65;156;48;105;212;46;223;92;88;57;
  250;146;195;45;145;221;172;89;189;250;241;131;4;97;195;104;81;238;188;76;113;245;228;71;11;114;135;101;162;171;57;191;
  82;240;61;132;17;163;76;121;245;226;199;9;146;134;237;162;205;185;149;178;239;53;140;23;37;206;155;20;107;79;111;116;
  44;39;93;218;185;155;50;235;85;143;127;36;32;27;88;11;122;135;99;34;169;217;190;218;240;91;4;59;67;83;113;253;
  228;65;139;112;103;100;42;171;95;63;120;16;34;140;25;165;202;251;23;3;78;129;244;96;71;104;50;174;149;188;111;49;
  236;20;77;207;117;148;39;47;90;156;59;41;211;94;221;248;89;130;186;225;179;8;117;198;167;18;250;141;131;37;161;219;
  56;91;82;187;125;179;97;181;232;119;14;166;132;122;227;99;9;233;198;206;210;212;93;159;121;168;34;254;153;128;106;224;
  47;8;28;6;137;194;230;209;138;220;103;25;234;138;207;39;20;26;143;75;36;55;91;86;187;126;243;96;69;232;51;14;
  149;196;111;19;108;13;237;197;141;147;37;173;219;61;155;81;171;124;127;97;224;40;72;30;182;136;118;230;166;202;250;215;
  3;30;129;200;96;86;168;62;254;144;64;108;48;45;212;29;159;73;168;54;254;150;192;110;208;44;92;29;249;201;130;214;
  225;158;200;104;86;174;190;252;112;65;228;48;75;84;55;127;86;160;62;248;16;66;140;49;165;212;123;31;99;72;41;246;
  158;198;232;82;206;189;148;113;175;100;124;43;97;223;104;88;46;186;156;115;41;229;222;203;24;87;74;190;183;48;118;148;
  38;239;90;204;59;21;211;79;29;244;9;135;70;226;178;201;181;150;247;46;198;156;82;233;253;142;193;164;80;123;124;35;
  97;217;232;90;206;187;20;115;79;101;244;43;7;95;66;184;49;178;148;117;175;103;60;42;145;223;44;88;29;250;137;131;
  38;225;218;200;91;22;187;78;243;116;69;231;115;10;165;199;59;18;147;77;173;245;189;135;49;162;148;121;175;98;252;41;
  129;222;224;88;72;58;182;147;54;237;214;205;158;213;168;95;62;184;16;114;140;37;165;219;59;27;83;75;125;247;97;134;
  168;98;254;169;128;126;224;32;72;24;54;138;150;231;46;202;156;87;41;254;158;192;104;80;46;188;28;113;201;228;86;203;
  126;215;96;94;168;56;126;146;160;109;184;45;178;157;181;169;183;62;246;144;70;236;50;205;213;149;159;47;40;28;30;137;
  200;102;214;170;222;255;24;64;10;176;7;52;2;151;65;174;176;124;116;33;231;88;74;186;183;51;54;149;214;239;30;204;
  8;85;198;191;18;240;13;132;5;163;67;57;241;210;196;93;147;121;173;226;253;137;129;166;224;122;200;35;22;153;206;234;
  212;79;31;116;8;39;70;154;178;235;53;143;87;36;62;155;80;107;124;47;97;220;40;89;222;186;216;115;26;165;203;59;
  23;83;78;189;244;113;135;100;98;171;105;191;110;240;44;68;29;243;73;133;246;227;6;201;194;214;209;158;220;104;89;238;
  186;204;115;21;229;207;11;20;7;79;66;180;49;183;84;118;191;102;240;42;196;31;19;72;13;246;133;134;227;34;201;217;
  150;218;238;219;12;91;69;251;115;3;101;193;235;16;79;76;52;53;215;87;30;190;136;112;102;164;42;251;95;3;120;1;
  226;128;73;160;54;248;22;194;142;209;164;92;123;121;227;98;201;233;150;206;238;212;76;95;117;248;39;2;154;129;171;32;
  127;88;32;58;152;19;42;141;223;37;152;27;42;139;95;39;120;26;162;139;57;167;82;250;189;131;49;161;212;120;95;98;
  184;41;178;158;245;168;71;62;178;144;117;172;39;61;218;145;155;44;107;93;239;121;140;34;229;217;139;26;231;75;10;183;
  71;54;178;150;245;174;199;60;82;145;253;172;65;189;240;113;132;36;99;91;105;251;110;195;108;81;237;252;77;129;245;160;
  71;56;50;146;149;173;175;61;188;17;177;204;116;85;231;127;10;160;7;56;2;146;129;173;160;125;184;33;178;152;117;170;
  167;63;58;144;19;44;13;221;197;153;147;42;237;223;13;152;5;170;131;63;33;208;24;92;10;185;199;50;210;149;157;175;
  41;188;30;241;200;68;86;179;126;245;224;71;8;50;134;149;162;239;57;140;18;229;205;139;21;167;79;58;180;19;55;77;
  214;181;158;247;40;70;158;178;232;117;142;167;36;122;155;99;43;105;223;110;216;44;90;157;251;41;131;94;225;248;72;66;
  182;177;182;244;118;199;102;210;170;221;191;25;176;10;244;7;7;66;130;177;161;180;120;119;98;166;169;186;254;243;0;69;
  192;51;16;21;204;15;21;196;15;19;68;13;243;69;133;243;35;5;217;195;26;209;203;28;87;73;254;182;192;118;208;38;
  220;26;217;203;26;215;75;30;183;72;118;182;166;246;250;198;195;18;209;205;156;85;169;255;62;192;16;80;12;60;5;209;
  195;28;81;201;252;86;193;254;208;64;92;48;57;212;18;223;77;152;53;170;151;63;46;144;28;108;9;237;198;205;146;213;
  173;159;61;168;17;190;140;112;101;228;43;11;95;71;120;50;162;149;185;175;50;252;21;129;207;32;84;24;63;74;144;55;
  44;22;157;206;233;148;78;239;116;76;39;117;218;167;27;58;139;83;39;125;218;161;155;56;107;82;175;125;188;33;177;216;
  116;90;167;123;58;163;83;57;253;210;193;157;144;105;172;46;253;220;65;153;240;106;196;47;19;92;13;249;197;130;211;33;
  157;216;105;154;174;235;60;79;81;244;60;71;81;242;188;69;177;243;52;69;215;115;30;165;200;123;22;163;78;249;244;66;
  199;113;146;164;109;187;109;179;109;181;237;183;13;182;133;182;227;54;201;214;214;222;222;216;88;90;186;187;51;51;255;63].
Definition random_mask_vec8 : list Z := random_mask_tuple.

Definition pack_be16 (val : Z) : list Z := [u8 (val >> 8); u8 val].

Definition make_header (payload_len whitener_offset : Z) : list Z :=
  let val := ((whitener_offset .& 0xf) << 12) .| (payload_len .& 0x0fff) in
  pack_be16 val ++ pack_be16 val.

Definition npadding_bytes (pkt_byte_len samples_per_symbol bits_per_symbol : Z) : res exn Z :=
  let modulus := 128 in
  l ← lcm (modulus / 8) samples_per_symbol;
  byte_modulus ← pydiv (l * bits_per_symbol) samples_per_symbol;
  r ← pymod pkt_byte_len byte_modulus;
  Ok (if r =? 0 then 0 else byte_modulus - r).

Section Numpy.

(** [numpy.fromstring(s, numpy.uint8) ^ v] and [tostring]; [None] is a [ValueError]. *)
Context (numpy_xor : list Z -> list Z -> option (list Z)).

Definition whiten (s : list Z) (o : nat) : res exn (list Z) :=
  match numpy_xor s (take (length s) (drop o random_mask_vec8)) with Some z => Ok z | None => Throw ValueError end.
Definition dewhiten (s : list Z) (o : nat) : res exn (list Z) := whiten s o.

Definition make_packet (payload : list Z) (samples_per_symbol bits_per_symbol : Z) (access_code : list Z)
    (pad_for_usrp : bool) (whitener_offset : Z) (whitening : bool) : res exn (list Z) :=
  if negb (is_1_0_string access_code) then Throw ValueError
  else if negb (0 <=? whitener_offset) && (whitener_offset <? 16) then Throw ValueError
  else
    '(packed_access_code, padded) ← conv_1_0_string_to_packed_binary_string access_code;
    '(packed_preamble, ignore) ← conv_1_0_string_to_packed_binary_string preamble;
    let payload_with_crc := gen_and_append_crc32 payload in
    let L := Z.of_nat (length payload_with_crc) in
    let MAXLEN := Z.of_nat (length random_mask_tuple) in
    if MAXLEN <? L then Throw ValueError
    else
      data ← (if whitening then whiten payload_with_crc (Z.to_nat whitener_offset) else Ok payload_with_crc);
      let pkt := packed_preamble ++ packed_access_code ++ make_header L whitener_offset ++ data ++ [0x55] in
      if pad_for_usrp then
        n ← npadding_bytes (Z.of_nat (length pkt)) samples_per_symbol bits_per_symbol;
        Ok (pkt ++ replicate (Z.to_nat n) 0x55)
      else Ok pkt.

Definition unmake_packet (whitened_payload_with_crc : list Z) (whitener_offset : Z) (dewhitening : bool) :
    res exn (bool * list Z) :=
  payload_with_crc ← (if dewhitening then dewhiten whitened_payload_with_crc (Z.to_nat whitener_offset)
                      else Ok whitened_payload_with_crc);
  Ok (check_crc32 payload_with_crc).

(** ** Sending and receiving: [pkt.py]

    [_pkt_input] is the queue of the message source. *)
Record mod_pkts := {
  samples_per_symbol : Z;
  bits_per_symbol : Z;
  _access_code : list Z;
  _pad_for_usrp : bool;
  _use_whitener_offset : bool;
  _whitener_offset : Z;
  _pkt_input : list message
}.

(** The constructor; [None] is an access code not given. *)
Definition make_mod_pkts (sps bps : Z) (access_code : option (list Z)) (pad_for_usrp use_whitener_offset : bool) :
    res exn mod_pkts :=
  let access_code := default default_access_code access_code in
  if negb (is_1_0_string access_code) then Throw ValueError
  else Ok {| samples_per_symbol := sps; bits_per_symbol := bps; _access_code := access_code;
             _pad_for_usrp := pad_for_usrp; _use_whitener_offset := use_whitener_offset; _whitener_offset := 0;
             _pkt_input := [] |}.

Definition send_pkt (payload : list Z) (eof : bool) (m : mod_pkts) : res exn mod_pkts :=
  let sent msg offset :=
    {| samples_per_symbol := samples_per_symbol m; bits_per_symbol := bits_per_symbol m;
       _access_code := _access_code m; _pad_for_usrp := _pad_for_usrp m;
       _use_whitener_offset := _use_whitener_offset m; _whitener_offset := offset;
       _pkt_input := _pkt_input m ++ [msg] |} in
  if eof then Ok (sent {| type := 1; arg1 := 0; arg2 := 0; msg := [] |} (_whitener_offset m))
  else
    pkt ← make_packet payload (samples_per_symbol m) (bits_per_symbol m) (_access_code m) (_pad_for_usrp m)
            (_whitener_offset m) true;
    Ok (sent {| type := 0; arg1 := 0; arg2 := 0; msg := pkt |}
             (if _use_whitener_offset m then (_whitener_offset m + 1) mod 16 else _whitener_offset m)).

Record demod_pkts := { correlator : gr_correlate_access_code_bb; framer_sink : gr_framer_sink_1 }.

(** The constructor; [junk] is what the memory of the framer held; an access code
    longer than the correlator takes is an exception of C++ that SWIG converts. *)
Definition make_demod_pkts (access_code : option (list Z)) (threshold : Z) (junk : gr_framer_sink_1) :
    res exn demod_pkts :=
  let access_code := default default_access_code access_code in
  if negb (is_1_0_string access_code) then Throw ValueError
  else
    let threshold := if threshold =? -1 then 12 else threshold in
    match gr_make_correlate_access_code_bb access_code threshold with
    | None => Throw ValueError
    | Some c => Ok {| correlator := c; framer_sink := gr_make_framer_sink_1 junk |}
    end.

(** The thread: what the callback gets for each message. *)
Definition queue_watcher_thread_run (rcvd_pktq : list message) : list (res exn (bool * list Z)) :=
  map (fun m => unmake_packet (msg m) (arg1 m) true) rcvd_pktq.
End Numpy.

(** ** Greatest common divisor and padding *)

Lemma gcd_loop_spec fuel a b : 0 <= a -> 0 <= b <= Z.of_nat fuel -> gcd_loop fuel a b = Some (Z.gcd a b).
Proof.
  revert a b. induction fuel as [|fuel IH]; intros a b Ha Hb; cbn [gcd_loop].
  - replace b with 0 by lia. by rewrite Z.gcd_0_r, Z.abs_eq.
  - destruct (Z.eqb_spec b 0) as [->|]; [by rewrite Z.gcd_0_r, Z.abs_eq|].
    pose proof (Z.mod_pos_bound a b ltac:(lia)). rewrite IH by lia. by rewrite Z.gcd_comm, Z.gcd_mod, Z.gcd_comm by done.
Qed.

Lemma gcd_spec a b : 0 <= a -> 0 <= b -> gcd a b = Z.gcd a b.
Proof. intros Ha Hb. unfold gcd. by rewrite gcd_loop_spec by lia. Qed.

(** The bytes of a padded packet are a whole number of blocks of 128 samples. *)
Lemma npadding_spec len sps bps : 0 <= len -> 0 < sps -> 0 < bps ->
  exists n q, npadding_bytes len sps bps = Ok n /\ 0 <= n /\ (len + n) * 8 * sps = q * 128 * bps.
Proof.
  intros Hl Hs Hb. unfold npadding_bytes, lcm. change (128 / 8) with 16. rewrite gcd_spec by lia.
  assert (0 < Z.gcd 16 sps) as Hg by (pose proof (Z.gcd_nonneg 16 sps); destruct (Z.eq_dec (Z.gcd 16 sps) 0) as [E|]; [by apply Z.gcd_eq_0_l in E|lia]).
  destruct (Z.gcd_divide_l 16 sps) as [a Ea]. set (g := Z.gcd 16 sps) in *.
  unfold pydiv, pymod. rewrite (proj2 (Z.eqb_neq g 0)) by lia. rewrite ok_bind.
  assert (16 * sps / g = a * sps) as -> by (rewrite Ea; replace (a * g * sps) with (a * sps * g) by lia; apply Z.div_mul; lia).
  rewrite (proj2 (Z.eqb_neq sps 0)) by lia. rewrite ok_bind.
  assert (a * sps * bps / sps = a * bps) as -> by (replace (a * sps * bps) with (a * bps * sps) by lia; apply Z.div_mul; lia).
  assert (0 < a * bps) as Hm by nia. rewrite (proj2 (Z.eqb_neq (a * bps) 0)) by lia. rewrite ok_bind.
  pose proof (Z.mod_pos_bound len (a * bps) Hm) as Hr. pose proof (Z.div_mod len (a * bps) ltac:(lia)) as Ed.
  destruct (Z.gcd_divide_r 16 sps) as [c Ec]. fold g in Ec.
  set (d := len / (a * bps)) in *. set (r := len mod (a * bps)) in *.
  case_if; eexists _, _; (split; [reflexivity|split; [lia|]]); rewrite Ed.
  - assert (r = 0) as -> by lia. instantiate (1 := d * c). rewrite Ec. transitivity (bps * d * 8 * c * (a * g)); [ring|rewrite <- Ea; ring].
  - instantiate (1 := (d + 1) * c). rewrite Ec. transitivity (bps * (d + 1) * 8 * c * (a * g)); [ring|rewrite <- Ea; ring].
Qed.

(** ** Bits and strings of bits *)

Lemma conv_bits s : conv_packed_binary_string_to_1_0_string s = map (fun x => x + 48) (bits_of s).
Proof. reflexivity. Qed.

Lemma is_1_0_bits l : Forall bit l -> is_1_0_string (map (fun x => x + 48) l) = true.
Proof.
  intros Hl. unfold is_1_0_string. apply forallb_forall. intros ch (b & <- & Hb)%in_map_iff.
  rewrite Forall_forall in Hl. destruct (Hl b ltac:(by apply list_elem_of_In)) as [-> | ->]; done.
Qed.

Lemma pack_group l v : Forall bit l -> fold_left (fun t ch => (t << 1) .| (ch - 48)) (map (fun x => x + 48) l) v = walk v l.
Proof.
  intros Hl. revert v. induction Hl as [|b l Hb Hl IH]; intros v; [done|]. cbn [map fold_left].
  replace (b + 48 - 48) with b by lia. rewrite shift_in_bit by done. apply IH.
Qed.

Lemma pack_groups_bits n l : Forall bit l -> pack_groups n (map (fun x => x + 48) l) = bytes_of_bits n l.
Proof.
  revert l. induction n as [|n IH]; intros l Hl; [done|]. cbn [pack_groups bytes_of_bits].
  rewrite firstn_map, skipn_map, pack_group by by apply Forall_take. f_equal. apply IH. by apply Forall_drop.
Qed.

Lemma bytes_of_bits_of s l : bytes s -> bytes_of_bits (length s) (bits_of s ++ l) = s.
Proof.
  intros Hs. induction Hs as [|x s Hx Hs IH]; [done|]. cbn [length bytes_of_bits].
  change (bits_of (x :: s)) with (bits_of_byte x ++ bits_of s). rewrite <- app_assoc.
  rewrite take_app_length', drop_app_length' by done. by rewrite bits_of_byte_walk, IH.
Qed.

(** Packing undoes unpacking. *)
Lemma conv_roundtrip s : bytes s ->
  conv_1_0_string_to_packed_binary_string (conv_packed_binary_string_to_1_0_string s) = Ok (s, false).
Proof.
  intros Hs. rewrite conv_bits. unfold conv_1_0_string_to_packed_binary_string. rewrite is_1_0_bits by apply bits_of_bits.
  cbn [negb].
  rewrite length_map, bits_of_length, (Nat.mul_comm 8), Nat.Div0.mod_mul. cbn [Nat.eqb]. cbv iota beta zeta.
  rewrite length_map, bits_of_length, (Nat.mul_comm 8), Nat.div_mul by done.
  rewrite pack_groups_bits by apply bits_of_bits. do 2 f_equal. rewrite <- (app_nil_r (bits_of s)). by apply bytes_of_bits_of.
Qed.

Lemma conv_total s : is_1_0_string s = true -> exists p padded, conv_1_0_string_to_packed_binary_string s = Ok (p, padded).
Proof. intros Hs. unfold conv_1_0_string_to_packed_binary_string. rewrite Hs. cbn [negb]. case_if; by eexists _, _. Qed.

(** ** The mask

    All but its last two bytes are what a shift register of fifteen bits puts out,
    the lowest bit of a byte first. *)

(** A bit falls out at the bottom; the exclusive or of the last two comes in at the top. *)
Definition lfsr_step (reg : Z) : Z := (reg >> 1) .| (((reg .^ (reg >> 1)) .& 1) << 14).

Fixpoint lfsr_bytes (n : nat) (reg : Z) : list Z :=
  match n with
  | O => []
  | S n => (reg .& 0xff) :: lfsr_bytes n (Nat.iter 8 lfsr_step reg)
  end.

Lemma mask_is_lfsr : take 4094 random_mask_tuple = lfsr_bytes 4094 0x3fff /\ random_mask_tuple <> lfsr_bytes 4096 0x3fff.
Proof.
  split.
  - apply (bool_decide_unpack (take 4094 random_mask_tuple = lfsr_bytes 4094 0x3fff)). vm_compute. exact I.
  - apply (bool_decide_unpack (random_mask_tuple <> lfsr_bytes 4096 0x3fff)). vm_compute. exact I.
Qed.

Lemma mask_length : length random_mask_vec8 = 4096%nat.
Proof. vm_compute. reflexivity. Qed.

Lemma mask_bytes : bytes random_mask_vec8.
Proof. apply (bool_decide_unpack (Forall (fun x => 0 <= x < 256) random_mask_vec8)). vm_compute. exact I. Qed.

(** ** Headers *)

Lemma header_val L o : 0 <= L < 4096 -> 0 <= o < 16 -> ((o .& 0xf) << 12) .| (L .& 0x0fff) = o * 4096 + L.
Proof.
  intros HL Ho. change 0xf with (Z.ones 4). change 0x0fff with (Z.ones 12). rewrite !land_mask by lia.
  rewrite !Z.mod_small by (norm_pow; lia). rewrite lor_shl_add by (norm_pow; lia). norm_pow. lia.
Qed.

Lemma make_header_bytes L o : bytes (make_header L o) /\ length (make_header L o) = 4%nat.
Proof. split; [|done]. unfold make_header, pack_be16. repeat (apply Forall_cons; split; [apply u8_range|]). constructor. Qed.

(** The framer reads what [make_header] wrote. *)
Lemma make_header_frame L o : 0 <= L < 4096 -> 0 <= o < 16 -> frame_header (bits_of (make_header L o)) = Some (L, o).
Proof.
  intros HL Ho. unfold frame_header. rewrite <- unpack_walk by apply make_header_bytes.
  unfold make_header. rewrite header_val by done. set (v := o * 4096 + L).
  assert (unpack_be32 (pack_be16 v ++ pack_be16 v) = v * 65536 + v) as ->.
  { unfold unpack_be32, pack_be16. cbn [fold_left app]. change (0 << 8) with 0. rewrite Z.lor_0_l.
    rewrite !(fun w x => lor_shl_add w (u8 x) 8 ltac:(lia) (u8_range x)). rewrite !shr_div by lia. unfold ux. norm_pow. subst v. divlia. }
  assert ((v * 65536 + v) / 65536 = v) as -> by (subst v; divlia). assert ((v * 65536 + v) mod 65536 = v) as -> by (subst v; divlia).
  rewrite Z.eqb_refl. do 2 f_equal; subst v; divlia.
Qed.

(** ** Whitening and the parts of a packet *)

Section Layout.
Context (numpy_xor : list Z -> list Z -> option (list Z)).

(** Arrays of the same length are combined element by element. *)
Hypothesis numpy_xor_bytes : forall a b, bytes a -> bytes b -> a <> [] -> length a = length b ->
  numpy_xor a b = Some (zip_with Z.lxor a b).

Definition mask (o n : nat) : list Z := take n (drop o random_mask_vec8).

Lemma mask_slice o n : (o + n <= 4096)%nat -> bytes (mask o n) /\ length (mask o n) = n.
Proof using Type.
  intros Hn. unfold mask. split; [apply Forall_take, Forall_drop, mask_bytes|].
  rewrite length_take, length_drop, mask_length. lia.
Qed.

Lemma xor_bytes a b : bytes a -> bytes b -> bytes (zip_with Z.lxor a b).
Proof using Type.
  intros Ha Hb. revert b Hb. induction Ha as [|x a Hx Ha IH]; intros b Hb; [constructor|]. destruct Hb as [|y b Hy Hb]; [constructor|].
  cbn [zip_with]. constructor; [by apply (lxor_range x y 8); try lia|by apply IH].
Qed.

Lemma whiten_packet_bytes s o : bytes s -> s <> [] -> (o + length s <= 4096)%nat ->
  whiten numpy_xor s o = Ok (zip_with Z.lxor s (mask o (length s))) /\
  bytes (zip_with Z.lxor s (mask o (length s))) /\ length (zip_with Z.lxor s (mask o (length s))) = length s.
Proof using numpy_xor_bytes.
  intros Hs Hne Hl. destruct (mask_slice o (length s) Hl) as [Hm Hml].
  unfold whiten. fold (mask o (length s)). rewrite numpy_xor_bytes by (done || by rewrite Hml).
  split; [done|]. split; [by apply xor_bytes|]. rewrite length_zip_with. lia.
Qed.

Lemma xor_twice a b : length a = length b -> zip_with Z.lxor (zip_with Z.lxor a b) b = a.
Proof using Type.
  revert b. induction a as [|x a IH]; intros [|y b] H; try done. cbn [zip_with]. rewrite lxor_cancel. f_equal.
  apply IH. by injection H.
Qed.

(** Whitening twice is the identity. *)
Lemma dewhiten_whiten s o w : bytes s -> s <> [] -> (o + length s <= 4096)%nat -> whiten numpy_xor s o = Ok w ->
  dewhiten numpy_xor w o = Ok s.
Proof using numpy_xor_bytes.
  intros Hs Hne Hl Hw. destruct (whiten_packet_bytes s o Hs Hne Hl) as (E & Hb & El). rewrite E in Hw. injection Hw as <-.
  set (w := zip_with Z.lxor s (mask o (length s))) in *. unfold dewhiten.
  assert (w <> []) as Hwn by (intros ->; destruct s; [done|discriminate El]).
  destruct (whiten_packet_bytes w o Hb Hwn ltac:(lia)) as (-> & _). f_equal. rewrite El. apply xor_twice.
  symmetry. by apply mask_slice.
Qed.

(** What follows the access code: header, whitened payload and checksum. *)
Definition packet_frame (payload : list Z) (o : Z) : list Z :=
  let s := gen_and_append_crc32 payload in
  make_header (Z.of_nat (length s)) o ++ zip_with Z.lxor s (mask (Z.to_nat o) (length s)).

Lemma crc_payload payload : bytes payload -> bytes (gen_and_append_crc32 payload) /\
  length (gen_and_append_crc32 payload) = (length payload + 4)%nat /\ gen_and_append_crc32 payload <> [].
Proof using Type.
  intros Hp. unfold gen_and_append_crc32. split; [|split].
  - apply Forall_app. split; [done|]. apply pack_unpack_be32. by apply gr_crc32_word.
  - by rewrite length_app.
  - by destruct payload.
Qed.

(** A packet is made: the preamble, the access code, the frame, a byte and padding
    to whole blocks of 128 samples. *)
Lemma make_packet_layout payload sps bps access_code pad o : bytes payload -> is_1_0_string access_code = true ->
  0 < sps -> 0 < bps -> 0 <= o -> Z.of_nat (length payload) + 4 + o <= 4096 ->
  exists packed padded n pkt, conv_1_0_string_to_packed_binary_string access_code = Ok (packed, padded) /\
    make_packet numpy_xor payload sps bps access_code pad o true = Ok pkt /\
    pkt = [0xA4; 0xF2] ++ packed ++ packet_frame payload o ++ [0x55] ++ replicate n 0x55 /\
    if pad then exists q, Z.of_nat (length pkt) * 8 * sps = q * 128 * bps else n = 0%nat.
Proof using numpy_xor_bytes.
  intros Hp Ha Hs Hb Ho Hl. destruct (conv_total access_code Ha) as (packed & padded & Hc). exists packed, padded.
  destruct (crc_payload payload Hp) as (Hcb & Hcl & Hcn). unfold make_packet. rewrite Ha. cbn [negb].
  rewrite (proj2 (Z.leb_le 0 o)) by done. cbn [negb andb]. rewrite Hc, ok_bind. cbv beta iota.
  change (conv_1_0_string_to_packed_binary_string preamble) with
    (conv_1_0_string_to_packed_binary_string (conv_packed_binary_string_to_1_0_string [0xA4; 0xF2])).
  rewrite conv_roundtrip by (repeat (apply Forall_cons; split; [lia|]); constructor). rewrite ok_bind. cbv beta iota zeta.
  change (length random_mask_tuple) with (length random_mask_vec8). rewrite mask_length, Hcl.
  rewrite (proj2 (Z.ltb_ge _ _)) by lia. destruct (whiten_packet_bytes (gen_and_append_crc32 payload) (Z.to_nat o) Hcb Hcn ltac:(lia)) as (-> & _).
  rewrite ok_bind. unfold packet_frame. rewrite Hcl. rewrite <- ?app_assoc.
  set (pkt := [164; 242] ++ packed ++ make_header _ o ++ _ ++ [85]). destruct pad.
  - destruct (npadding_spec (Z.of_nat (length pkt)) sps bps ltac:(lia) Hs Hb) as (n & q & -> & Hn & Hq). rewrite ok_bind.
    exists (Z.to_nat n), (pkt ++ replicate (Z.to_nat n) 85). split; [done|]. split; [done|].
    split; [unfold pkt; by rewrite <- ?app_assoc|]. exists q. rewrite length_app, length_replicate. rewrite <- Hq. f_equal. lia.
  - exists 0%nat, pkt. cbn [replicate]. by rewrite app_nil_r.
Qed.
End Layout.

(** ** Packets in a stream of bits *)

Section Stream.
Context (access_code : list Z) (threshold : Z).

(** What the correlator puts out from the bit at [p] on, and the bits without marks. *)
Definition seg (s : list Z) (p : Z) (n : nat) : list Z := map (fun i => marked access_code threshold s (p + i)) (zseq 0 n).
Definition sbits (s : list Z) (p : Z) (n : nat) : list Z := map (fun i => sbit s (p + i)) (zseq 0 n).

(** The first of [n] positions that follows the access code. *)
Fixpoint first_flagged (n : nat) (s : list Z) (p : Z) : option Z :=
  match n with
  | O => None
  | S n => if flagged access_code threshold s p then Some p else first_flagged n s (p + 1)
  end.

(** From [p] on the access code is seen first where a frame starts that is in the
    stream whole, and 64 bits more; and so on for the frames after that. *)
Fixpoint heard (s : list Z) (p : Z) (frs : list (list Z)) : bool :=
  match frs with
  | [] => true
  | fr :: frs =>
      match first_flagged (Z.to_nat (Z.of_nat (length s) - 64 - p)) s p with
      | None => false
      | Some h =>
          bool_decide (sbits s h (8 * length fr) = bits_of fr) &&
          (h + Z.of_nat (8 * length fr) <=? Z.of_nat (length s) - 64) && heard s (h + Z.of_nat (8 * length fr)) frs
      end
  end.

Lemma seg_S s p n : seg s p (S n) = marked access_code threshold s p :: seg s (p + 1) n.
Proof. unfold seg. rewrite map_zseq_S, Z.add_0_r. f_equal. apply map_ext. intros i. f_equal. lia. Qed.

Lemma length_seg s p n : length (seg s p n) = n.
Proof. unfold seg. by rewrite length_map, length_zseq. Qed.

Lemma drop_seg k s p n : drop k (seg s p n) = seg s (p + Z.of_nat k) (n - k).
Proof.
  revert p n. induction k as [|k IH]; intros p n; [rewrite Nat.sub_0_r, Z.add_0_r; done|].
  destruct n as [|n]; [done|]. rewrite seg_S. cbn [drop]. rewrite IH. f_equal; lia.
Qed.

Lemma take_seg k s p n : (k <= n)%nat -> take k (seg s p n) = seg s p k.
Proof.
  revert p n. induction k as [|k IH]; intros p n Hk; [done|]. destruct n as [|n]; [lia|].
  rewrite !seg_S. cbn [take]. by rewrite IH by lia.
Qed.

Lemma low_marked s k : low (marked access_code threshold s k) = sbit s k.
Proof. unfold marked. destruct (sbit_bit s k) as [-> | ->], (flagged _ _ _ _); reflexivity. Qed.

Lemma mark_marked s k : ctrue (marked access_code threshold s k .& 0x2) = flagged access_code threshold s k.
Proof. unfold marked. destruct (sbit_bit s k) as [-> | ->], (flagged _ _ _ _); reflexivity. Qed.

Lemma low_seg s p n : map low (seg s p n) = sbits s p n.
Proof. unfold seg, sbits. rewrite map_map. apply map_ext. intros i. apply low_marked. Qed.

Lemma sbits_app s p a b : sbits s p (a + b) = sbits s p a ++ sbits s (p + Z.of_nat a) b.
Proof. unfold sbits. rewrite map_zseq_plus. f_equal. apply map_ext. intros i. f_equal. lia. Qed.

Lemma length_sbits s p n : length (sbits s p n) = n.
Proof. unfold sbits. by rewrite length_map, length_zseq. Qed.

Lemma skip_seg s p n : skip_unmarked (seg s p n) =
  match first_flagged n s p with None => [] | Some h => seg s h (n - Z.to_nat (h - p)) end.
Proof.
  revert p. induction n as [|n IH]; intros p; [done|]. rewrite seg_S. cbn [skip_unmarked first_flagged]. rewrite mark_marked.
  destruct (flagged access_code threshold s p) eqn:Ef.
  - rewrite Z.sub_diag. cbn [Z.to_nat]. rewrite Nat.sub_0_r. by rewrite seg_S.
  - rewrite IH. destruct (first_flagged n s (p + 1)) as [h|] eqn:Eh; [|done]. f_equal.
    assert (p + 1 <= h) as Hh; [|lia]. clear IH Ef. revert p Eh. induction n as [|n IHn]; intros p Eh; [done|].
    cbn [first_flagged] in Eh. case_if; [by injection Eh as <-|]. specialize (IHn _ Eh). lia.
Qed.

Lemma first_flagged_range n s p h : first_flagged n s p = Some h -> p <= h < p + Z.of_nat n.
Proof.
  revert p. induction n as [|n IH]; intros p Eh; [done|]. cbn [first_flagged] in Eh.
  case_if; [by injection Eh as <-; lia|]. specialize (IH _ Eh). lia.
Qed.

(** A frame, and what comes after it. *)
Lemma frames_heard fuel s p n h L o data : first_flagged n s p = Some h ->
  0 <= o < 16 -> Z.of_nat L < 4096 -> bytes data -> length data = L ->
  sbits s h (8 * (4 + L)) = bits_of (make_header (Z.of_nat L) o ++ data) ->
  h + Z.of_nat (8 * (4 + L)) <= p + Z.of_nat n ->
  frames (S fuel) (seg s p n) = {| type := 0; arg1 := o; arg2 := 0; msg := data |} ::
    frames fuel (seg s (h + Z.of_nat (8 * (4 + L))) (Z.to_nat (p + Z.of_nat n - (h + Z.of_nat (8 * (4 + L)))))).
Proof.
  intros Hh Ho HL Hd Hl Hs He. pose proof (first_flagged_range _ _ _ _ Hh) as Hr. cbn [frames]. rewrite skip_seg, Hh.
  set (m := (n - Z.to_nat (h - p))%nat). replace (8 * (4 + L))%nat with (32 + 8 * L)%nat in * by lia.
  destruct (seg s h m) as [|x l] eqn:E; [apply (f_equal length) in E; rewrite length_seg in E; cbn [length] in E; lia|].
  rewrite <- E. clear E x l. rewrite length_seg, (proj2 (Nat.ltb_ge _ _)) by lia. rewrite take_seg, low_seg by lia.
  destruct (make_header_bytes (Z.of_nat L) o) as [Hmb Hml].
  rewrite sbits_app, bits_of_app in Hs. apply app_inj_1 in Hs as [Hs1 Hs2]; [|by rewrite length_sbits, bits_of_length, Hml].
  rewrite Hs1, make_header_frame by lia. rewrite Nat2Z.id, drop_seg, length_seg, (proj2 (Nat.ltb_ge _ _)) by lia.
  rewrite low_seg. f_equal.
  - f_equal. rewrite <- (bytes_of_bits_take L), <- low_seg, firstn_map, take_seg, low_seg, Hs2 by lia.
    rewrite <- (app_nil_r (bits_of data)), <- Hl. by apply bytes_of_bits_of.
  - rewrite drop_seg. do 2 f_equal; lia.
Qed.

(** The frames of what is heard come first. *)
Lemma frames_of_heard s (ps : list (Z * list Z)) p fuel : heard s p (map (fun '(o, data) => make_header (Z.of_nat (length data)) o ++ data) ps) = true ->
  Forall (fun '(o, data) => 0 <= o < 16 /\ Z.of_nat (length data) < 4096 /\ bytes data) ps -> -64 <= p ->
  let n := Z.to_nat (Z.of_nat (length s) - 64 - p) in (n <= fuel)%nat ->
  exists extra, frames fuel (seg s p n) =
    map (fun '(o, data) => {| type := 0; arg1 := o; arg2 := 0; msg := data |}) ps ++ extra.
Proof.
  intros Hh Hps Hp n Hn. subst n. revert p fuel Hh Hp Hn. induction Hps as [|[o data] ps (Ho & HL & Hd) Hps IH]; intros p fuel Hh Hp Hn; [by eexists|].
  cbn [map heard] in Hh. destruct (first_flagged _ s p) as [h|] eqn:Ef; [|done].
  apply andb_true_iff in Hh as [[Hb%bool_decide_eq_true He%Z.leb_le]%andb_true_iff Hh].
  rewrite length_app in *. change (length (make_header _ o)) with 4%nat in *. pose proof (first_flagged_range _ _ _ _ Ef) as Hr.
  destruct fuel as [|fuel]; [lia|]. rewrite (frames_heard fuel s p _ h (length data) o data Ef Ho HL Hd eq_refl Hb) by lia.
  replace (Z.to_nat (p + Z.of_nat (Z.to_nat (Z.of_nat (length s) - 64 - p)) - (h + Z.of_nat (8 * (4 + length data)))))
    with (Z.to_nat (Z.of_nat (length s) - 64 - (h + Z.of_nat (8 * (4 + length data))))) by lia.
  destruct (IH _ fuel Hh ltac:(lia) ltac:(lia)) as [extra ->]. by exists extra.
Qed.
End Stream.

(** ** From [send_pkt] to the callback *)

#[local] Instance ok_inj E A : Inj eq eq (@Ok E A).
Proof. by intros x y [= ->]. Qed.

Section Link.
Context (numpy_xor : list Z -> list Z -> option (list Z)).
Hypothesis numpy_xor_bytes : forall a b, bytes a -> bytes b -> a <> [] -> length a = length b ->
  numpy_xor a b = Some (zip_with Z.lxor a b).

(** How long a payload may be: the mask must reach, and the length fit its field. *)
Definition room (use_whitener_offset : bool) : Z := if use_whitener_offset then 4077 else 4091.

Definition sendable (m : mod_pkts) : Prop :=
  is_1_0_string (_access_code m) = true /\ 0 < samples_per_symbol m /\ 0 < bits_per_symbol m /\
  0 <= _whitener_offset m < 16 /\ (_use_whitener_offset m = false -> _whitener_offset m = 0).

(** The message carries the frame behind the access code. *)
Definition carries (packed : list Z) (m : message) (fr : list Z) : Prop :=
  exists trailer, msg m = [0xA4; 0xF2] ++ packed ++ fr ++ trailer.

Definition frame_of : Z * list Z -> list Z := fun '(o, data) => make_header (Z.of_nat (length data)) o ++ data.
Definition frame_fits : Z * list Z -> Prop := fun '(o, data) => 0 <= o < 16 /\ Z.of_nat (length data) < 4096 /\ bytes data.
Definition unmakes : Z * list Z -> list Z -> Prop := fun '(o, data) payload => unmake_packet numpy_xor data o true = Ok (true, payload).

Lemma send_one payload m packed padded : sendable m -> bytes payload -> Z.of_nat (length payload) <= room (_use_whitener_offset m) ->
  conv_1_0_string_to_packed_binary_string (_access_code m) = Ok (packed, padded) ->
  exists m' pkt p, send_pkt numpy_xor payload false m = Ok m' /\ sendable m' /\
    _use_whitener_offset m' = _use_whitener_offset m /\ _access_code m' = _access_code m /\
    _pkt_input m' = _pkt_input m ++ [pkt] /\ carries packed pkt (frame_of p) /\ frame_fits p /\ unmakes p payload.
Proof using numpy_xor_bytes.
  intros (Ha & Hs & Hb & Ho & Hu) Hp Hl Hc. set (o := _whitener_offset m) in *.
  assert (Z.of_nat (length payload) + 4 + o <= 4096 /\ Z.of_nat (length payload) + 4 < 4096) as [Hfit H4095].
  { unfold room in Hl. destruct (_use_whitener_offset m); [lia|]. rewrite Hu by done. lia. }
  destruct (make_packet_layout numpy_xor numpy_xor_bytes payload (samples_per_symbol m) (bits_per_symbol m) (_access_code m)
    (_pad_for_usrp m) o Hp Ha Hs Hb ltac:(lia) Hfit) as (packed' & padded' & n & pkt & Hc' & Hpkt & Hlay & _).
  rewrite Hc in Hc'. apply (inj Ok) in Hc'. injection Hc' as <- <-.
  destruct (crc_payload payload Hp) as (Hcb & Hcl & Hcn).
  destruct (whiten_packet_bytes numpy_xor numpy_xor_bytes _ (Z.to_nat o) Hcb Hcn ltac:(lia)) as (Hw & Hwb & Hwl).
  set (data := zip_with Z.lxor _ _) in *. unfold send_pkt. fold o. rewrite Hpkt, ok_bind.
  eexists _, _, (o, data). split; [reflexivity|]. split.
  { unfold sendable. cbn [_access_code samples_per_symbol bits_per_symbol _whitener_offset _use_whitener_offset].
    pose proof (Z.mod_pos_bound (o + 1) 16). do 3 (split; [done|]). split; destruct (_use_whitener_offset m); lia || done. }
  do 3 (split; [reflexivity|]). split; [|split].
  - exists ([0x55] ++ replicate n 0x55). cbn [msg]. rewrite Hlay. unfold packet_frame, frame_of. fold data. rewrite Hwl. by rewrite <- ?app_assoc.
  - split; [lia|]. rewrite Hwl. split; [lia|done].
  - unfold unmakes, unmake_packet. rewrite (dewhiten_whiten numpy_xor numpy_xor_bytes (gen_and_append_crc32 payload) (Z.to_nat o) data Hcb Hcn ltac:(lia) Hw), ok_bind.
    by rewrite check_appended.
Qed.

Lemma send_all payloads m packed padded : sendable m ->
  Forall (fun payload => bytes payload /\ Z.of_nat (length payload) <= room (_use_whitener_offset m)) payloads ->
  conv_1_0_string_to_packed_binary_string (_access_code m) = Ok (packed, padded) ->
  exists m' pkts ps, for_each (fun payload => send_pkt numpy_xor payload false) payloads m = Ok m' /\
    _pkt_input m' = _pkt_input m ++ pkts /\ Forall2 (carries packed) pkts (map frame_of ps) /\
    Forall frame_fits ps /\ Forall2 unmakes ps payloads.
Proof using numpy_xor_bytes.
  intros Hm Hps. revert m Hm Hps. induction payloads as [|payload payloads IH]; intros m Hm Hps Hc.
  { exists m, [], []. rewrite app_nil_r. repeat split; constructor. }
  apply Forall_cons in Hps as [[Hb Hl] Hps]. destruct (send_one payload m packed padded Hm Hb Hl Hc)
    as (m1 & pkt & p & Hs & Hm1 & Hu & Ha & Hq & Hcar & Hfit & Hun). cbn [for_each]. rewrite Hs, ok_bind.
  destruct (IH m1 Hm1 ltac:(by rewrite Hu) ltac:(by rewrite Ha)) as (m' & pkts & ps & -> & Hq' & Hcars & Hfits & Huns).
  exists m', (pkt :: pkts), (p :: ps). split; [done|]. split; [by rewrite Hq', Hq, <- app_assoc|].
  split; [by constructor|]. split; by constructor.
Qed.

Lemma watcher_unmakes ps payloads extra : Forall2 unmakes ps payloads ->
  take (length payloads) (queue_watcher_thread_run numpy_xor
    (map (fun '(o, data) => {| type := 0; arg1 := o; arg2 := 0; msg := data |}) ps ++ extra)) = map (fun payload => Ok (true, payload)) payloads.
Proof using Type.
  intros H. unfold queue_watcher_thread_run. induction H as [|[o data] payload ps payloads Hu H IH]; [done|].
  cbn [map app length take]. unfold unmakes in Hu. cbn [msg arg1]. rewrite Hu. f_equal. apply IH.
Qed.

(** The frame in a message: the header behind the access code says how long it is. *)
Definition frame_in (packed : list Z) (m : message) : list Z :=
  let r := drop (2 + length packed) (msg m) in
  take (4 + Z.to_nat (((r.[0] .& 0x0f) << 8) .| r.[1])) r.

Lemma frame_in_carries packed m p : carries packed m (frame_of p) -> frame_fits p -> frame_in packed m = frame_of p.
Proof using Type.
  intros [trailer Hm]. destruct p as [o data]. intros (Ho & HL & Hd). unfold frame_in. rewrite Hm. set (r := drop _ _).
  assert (r = frame_of (o, data) ++ trailer) as ->.
  { subst r. rewrite app_assoc. by apply drop_app_length'. }
  unfold frame_of. set (L := Z.of_nat (length data)) in *.
  assert (((((make_header L o ++ data) ++ trailer).[0] .& 0x0f) << 8) .| ((make_header L o ++ data) ++ trailer).[1] = L) as ->.
  { assert (forall x y l, (x :: y :: l : list Z).[0] = x /\ (x :: y :: l : list Z).[1] = y) as H01 by done.
    unfold make_header, pack_be16. rewrite header_val by lia. cbn [app]. rewrite !(fun x y l => proj1 (H01 x y l)), !(fun x y l => proj2 (H01 x y l)).
    change 0x0f with (Z.ones 4). rewrite land_mask, lor_shl_add, shr_div by (lia || apply u8_range). unfold ux. norm_pow. divlia. }
  subst L. rewrite Nat2Z.id. apply take_app_length'. rewrite length_app. done.
Qed.

Lemma frames_in_carry packed pkts ps : Forall2 (carries packed) pkts (map frame_of ps) -> Forall frame_fits ps ->
  map (frame_in packed) pkts = map frame_of ps /\ Forall (fun m => carries packed m (frame_in packed m)) pkts.
Proof using Type.
  intros H Hf. revert pkts H. induction Hf as [|p ps Hp Hf IH]; intros pkts H; inversion H as [|m fr pkts' frs' Hc Hcs]; subst; [done|].
  cbn [map]. destruct (IH _ Hcs) as [-> Hall]. rewrite (frame_in_carries _ _ _ Hc Hp). split; [done|].
  constructor; [by rewrite (frame_in_carries _ _ _ Hc Hp)|done].
Qed.

(** C6. Packets sent are packets delivered.  For payloads that fit, [send_pkt] makes
    each into a message: the preamble, the access code, a frame and filling.  Take
    any stream of bits in which the correlator first sees the access code where the
    first frame starts (with up to [threshold] of its bits wrong, and anything
    before it), the frame is there intact with 64 bits more behind it, and so on for
    the frames after it; cut it in any way into calls of the correlator, and what
    that puts out into calls of the framer.  Then what the callback gets first is
    [(True, payload)] for each payload, in the order they were sent. *)
Theorem packets_are_delivered sps bps code pad use_offset threshold junk payloads m d :
  make_mod_pkts sps bps code pad use_offset = Ok m -> make_demod_pkts code threshold junk = Ok d ->
  0 < sps -> 0 < bps -> default default_access_code code <> [] -> length (d_packet junk) = Z.to_nat MAX_PKT_LEN ->
  Forall (fun payload => bytes payload /\ Z.of_nat (length payload) <= room use_offset) payloads ->
  exists m' packed padded, for_each (fun payload => send_pkt numpy_xor payload false) payloads m = Ok m' /\
    conv_1_0_string_to_packed_binary_string (default default_access_code code) = Ok (packed, padded) /\
    Forall (fun pkt => carries packed pkt (frame_in packed pkt)) (_pkt_input m') /\
    forall calls calls',
      heard (default default_access_code code) (u32 (if threshold =? -1 then 12 else threshold)) (mjoin calls) (-64)
        (map (frame_in packed) (_pkt_input m')) = true ->
      mjoin calls' = (correlate_calls calls (correlator d)).1 ->
      exists f, framer_calls calls' (framer_sink d) = Some f /\
        take (length payloads) (queue_watcher_thread_run numpy_xor (d_target_queue f)) =
        map (fun payload => Ok (true, payload)) payloads.
Proof using numpy_xor_bytes.
  unfold make_mod_pkts, make_demod_pkts. cbv zeta. set (ac := default default_access_code code).
  destruct (is_1_0_string ac) eqn:Ha; [|done]. cbn [negb]. intros Hm%(inj Ok) Hd Hs Hb Hne Hj Hps.
  set (th := if threshold =? -1 then 12 else threshold) in *.
  destruct (gr_make_correlate_access_code_bb ac th) as [c|] eqn:Hc; [|done]. apply (inj Ok) in Hd. subst d. cbn [correlator framer_sink].
  assert (1 <= length ac <= 64)%nat as Hlen.
  { split; [destruct ac; [done|cbn; lia]|]. unfold gr_make_correlate_access_code_bb, set_access_code in Hc. case_if; [done|lia]. }
  destruct (conv_total ac Ha) as (packed & padded & Hpk).
  destruct (send_all payloads m packed padded) as (m' & pkts & ps & Hsend & Hq & Hcar & Hfit & Hun); [by subst m; repeat split|by subst m|by subst m|].
  destruct (frames_in_carry _ _ _ Hcar Hfit) as [Hfr Hall]. assert (_pkt_input m' = pkts) as Hin by (subst m; by rewrite Hq).
  exists m', packed, padded. split; [done|]. split; [done|]. rewrite Hin. split; [done|].
  intros calls calls' Hh Hout. rewrite Hfr in Hh. destruct (framer_calls_frames calls' junk Hj) as (f & Hf & Hqf & _). exists f. split; [done|].
  rewrite Hqf, Hout, (correlate_calls_stream ac th Hlen c) by done. rewrite length_map, length_zseq. set (s := mjoin calls) in *.
  destruct (frames_of_heard ac (u32 th) s ps (-64) (length s) Hh Hfit ltac:(lia) ltac:(lia)) as [extra He].
  replace (Z.to_nat (Z.of_nat (length s) - 64 - -64)) with (length s) in He by lia.
  assert (map (fun j => marked ac (u32 th) s (j - 64)) (zseq 0 (length s)) = seg ac (u32 th) s (-64) (length s)) as ->.
  { unfold seg. apply map_ext. intros i. f_equal. lia. }
  rewrite He. by apply watcher_unmakes.
Qed.
End Link.

(** ** Witness: two packets, a wrong bit in the first access code, noise before and after *)

Definition ex_xor (a b : list Z) : option (list Z) := Some (zip_with Z.lxor a b).
Definition ex_sender : mod_pkts :=
  {| samples_per_symbol := 2; bits_per_symbol := 1; _access_code := default_access_code; _pad_for_usrp := false;
     _use_whitener_offset := true; _whitener_offset := 0; _pkt_input := [] |}.
Definition ex_payloads : list (list Z) := [[1; 2; 3]; [200]].
Definition ex_sent : mod_pkts :=
  match for_each (fun payload => send_pkt ex_xor payload false) ex_payloads ex_sender with Ok m => m | Throw _ => ex_sender end.
Definition ex_demod : demod_pkts :=
  match make_demod_pkts None (-1) ex_junk with
  | Ok d => d
  | Throw _ => {| correlator := ex_correlator; framer_sink := ex_junk |}
  end.
Definition ex_bits : list Z :=
  let sent := mjoin (map (fun m => bits_of (msg m)) (_pkt_input ex_sent)) in
  [1; 0; 1] ++ sent.[30 <- 1 - sent.[30]] ++ replicate 64 0.
Definition ex_stream : list (list Z) := [take 100 ex_bits; drop 100 ex_bits].

Lemma packets_are_delivered_witness : exists f,
  framer_calls [(correlate_calls ex_stream (correlator ex_demod)).1] (framer_sink ex_demod) = Some f /\
  take 2 (queue_watcher_thread_run ex_xor (d_target_queue f)) = [Ok (true, [1; 2; 3]); Ok (true, [200])].
Proof.
  destruct (packets_are_delivered ex_xor (fun _ _ _ _ _ _ => eq_refl) 2 1 None false true (-1) ex_junk ex_payloads ex_sender ex_demod)
    as (m' & packed & padded & Hsend & Hconv & _ & Hrecv); [vm_compute; reflexivity..| |lia|lia| | | |].
  - vm_compute. reflexivity.
  - vm_compute. discriminate.
  - vm_compute. reflexivity.
  - apply (bool_decide_unpack (Forall (fun payload => Forall (fun x => 0 <= x < 256) payload /\ Z.of_nat (length payload) <= room true) ex_payloads)).
    vm_compute. exact I.
  - assert (m' = ex_sent) as -> by (unfold ex_sent; by rewrite Hsend).
    assert (packed = [0xAC; 0xDD; 0xA4; 0xE2; 0xF2; 0x8C; 0x20; 0xFC]) as ->.
    { change (default default_access_code None) with
        (conv_packed_binary_string_to_1_0_string [0xAC; 0xDD; 0xA4; 0xE2; 0xF2; 0x8C; 0x20; 0xFC]) in Hconv.
      rewrite conv_roundtrip in Hconv by (repeat (apply Forall_cons; split; [lia|]); constructor). congruence. }
    apply (Hrecv ex_stream [(correlate_calls ex_stream (correlator ex_demod)).1]); [vm_compute; reflexivity|].
    apply app_nil_r.
Defined.

(** ** What is refused, and what should be *)

Lemma make_packet_errors numpy_xor payload sps bps ac pad o whitening :
  is_1_0_string ac = false \/ o < 0 \/ (4092 < length payload)%nat ->
  make_packet numpy_xor payload sps bps ac pad o whitening = Throw ValueError.
Proof.
  intros H. unfold make_packet. destruct (is_1_0_string ac) eqn:Ha; [|done]. cbn [negb].
  destruct (Z.leb_spec 0 o); cbn [negb andb]; [|by rewrite (proj2 (Z.ltb_lt o 16)) by lia].
  destruct (conv_total ac Ha) as (p & b & ->). rewrite ok_bind. cbv beta iota.
  change (conv_1_0_string_to_packed_binary_string preamble) with
    (conv_1_0_string_to_packed_binary_string (conv_packed_binary_string_to_1_0_string [0xA4; 0xF2])).
  rewrite conv_roundtrip by (repeat (apply Forall_cons; split; [lia|]); constructor). rewrite ok_bind. cbv beta iota zeta.
  change (length random_mask_tuple) with (length random_mask_vec8). rewrite mask_length.
  assert (length (gen_and_append_crc32 payload) = (length payload + 4)%nat) as -> by (unfold gen_and_append_crc32; by rewrite length_app).
  rewrite (proj2 (Z.ltb_lt _ _)); [done|]. destruct H as [H | [H | H]]; [done|lia|lia].
Qed.

(** The longest packet that is let through looks empty; an offset that does not fit
    its four bits is let through and looks like another. *)
Lemma longest_packet_looks_empty o : make_header 4096 o = make_header 0 o.
Proof. reflexivity. Qed.

Lemma offset_wraps L o : make_header L (o + 16) = make_header L o.
Proof.
  unfold make_header. assert ((o + 16) .& 0xf = o .& 0xf) as ->; [|done].
  change 0xf with (Z.ones 4). rewrite !land_mask by lia. norm_pow. divlia.
Qed.
