(* ===== verification/TrellisBase.v ===== *)
(** * Numbers in a base: [base.cc]

    Digits and numbers, with their round trips, and what the finite state machines
    of [gr-trellis] use of the mathematical library. *)

From S2P Require Import Prelude.
From stdpp Require Import list.
From S2P Require Import Bits.
#[local] Open Scope Z_scope.
#[local] Open Scope cint_scope.

(** ** [base.cc]

    The size of the vector to fill is an argument; the last digit is computed
    first.  The second result is whether the number fits. *)

Definition dec2base (num base : Z) (l : nat) : list Z * bool :=
  let '(s, n) := fold_right (fun _ '(s, n) => (n mod base :: s, n / base)) ([], u32 num) (seq 0 l) in
  (s, n =? 0).

Definition base2dec (s : list Z) (base : Z) : Z := fold_left (fun num d => u32 (num * base + d)) s 0.

Definition dec2bases (num : Z) (bases : list Z) : list Z * bool :=
  let '(s, n) := fold_right (fun base '(s, n) => (n mod base :: s, n / base)) ([], u32 num) bases in
  (s, n =? 0).

Definition bases2dec (s bases : list Z) : Z :=
  fold_left (fun num '(d, base) => u32 (num * base + d)) (zip s bases) 0.

(** ** The mathematical library

    [(int)(log(g)/log(2.0))] and [(int)(pow(1.0*a,1.0*b)+0.5)], exact where the
    result is an [int]. *)
Class Libm := {
  log2_int : Z -> Z;
  pow_int : Z -> Z -> Z;
  log2_int_spec g : 0 < g < 2 ^ 31 -> log2_int g = Z.log2 g;
  pow_int_spec a b : 0 <= a -> 0 <= b -> a ^ b < 2 ^ 31 -> pow_int a b = a ^ b
}.

#[export] Instance exact_libm : Libm := {| log2_int := Z.log2; pow_int := Z.pow; log2_int_spec _ _ := eq_refl; pow_int_spec _ _ _ _ _ := eq_refl |}.

(** ** Numbers and digits *)

Definition in_bases (s bases : list Z) : Prop := Forall2 (fun d b => 0 <= d < b) s bases.
Definition prod (bases : list Z) : Z := foldr Z.mul 1 bases.
Definition value (v : Z) (s bases : list Z) : Z := fold_left (fun num '(d, b) => num * b + d) (zip s bases) v.

Lemma prod_pos bases : Forall (fun b => 0 < b) bases -> 0 < prod bases.
Proof. intros H. induction H as [|b bases Hb H IH]; unfold prod in *; cbn [foldr]; lia. Qed.

Lemma prod_replicate l b : prod (replicate l b) = b ^ Z.of_nat l.
Proof. induction l as [|l IH]; [done|]. unfold prod in *. cbn [replicate foldr]. rewrite IH, Nat2Z.inj_succ, Z.pow_succ_r by lia. done. Qed.

Lemma value_shift v s bases : length s = length bases -> value v s bases = v * prod bases + value 0 s bases.
Proof.
  revert v bases. induction s as [|d s IH]; intros v [|b bases] Hl; try discriminate Hl; unfold prod, value in *; cbn [zip_with fold_left foldr]; [lia|].
  injection Hl as Hl. rewrite (IH (v * b + d)), (IH (0 * b + d)) by done. lia.
Qed.

Lemma in_bases_length s bases : in_bases s bases -> length s = length bases.
Proof. apply Forall2_length. Qed.

Lemma in_bases_pos s bases : in_bases s bases -> Forall (fun b => 0 < b) bases.
Proof. intros H. induction H; constructor; [lia|done]. Qed.

Lemma value_range s bases : in_bases s bases -> 0 <= value 0 s bases < prod bases.
Proof.
  intros H. induction H as [|d b s bases Hd H IH]; [cbn; lia|]. unfold value. cbn [zip_with fold_left]. fold (value (0 * b + d) s bases).
  rewrite value_shift by by apply in_bases_length. unfold prod in *. cbn [foldr]. nia.
Qed.

Lemma value_inj s s' bases : in_bases s bases -> in_bases s' bases -> value 0 s bases = value 0 s' bases -> s = s'.
Proof.
  intros H. revert s'. induction H as [|d b s bases Hd H IH]; intros s' H' E; inversion H' as [|d' b' s1 bases' Hd' H1]; subst; [done|].
  unfold value in E. cbn [zip_with fold_left] in E. fold (value (0 * b + d) s bases) (value (0 * b + d') s1 bases) in E.
  rewrite !(value_shift (0 * b + _)) in E by by apply in_bases_length.
  pose proof (value_range s bases H). pose proof (value_range s1 bases H1). assert (d = d') as -> by nia. f_equal. apply IH; [done|lia].
Qed.

(** Splitting off the digits, from the last. *)
Lemma split_spec bases num : Forall (fun b => 0 < b) bases -> 0 <= num ->
  let '(s, n) := fold_right (fun base '(s, n) => (n mod base :: s, n / base)) ([], num) bases in
  in_bases s bases /\ num = n * prod bases + value 0 s bases /\ 0 <= n.
Proof.
  intros Hb Hn. induction Hb as [|b bases Hb Hbs IH]; cbn [fold_right]; [split; [constructor|]; cbn; lia|].
  destruct (fold_right _ _ bases) as [s n]. destruct IH as (H1 & H2 & H3).
  pose proof (Z.mod_pos_bound n b Hb). pose proof (Z.div_mod n b ltac:(lia)) as Ed. pose proof (Z.div_pos n b H3 Hb).
  split; [by constructor|]. split; [|done]. unfold value. cbn [zip_with fold_left]. fold (value (0 * b + n mod b) s bases).
  rewrite value_shift by by apply in_bases_length. unfold prod in *. cbn [foldr]. rewrite H2. rewrite Ed at 1. ring.
Qed.

Lemma dec2bases_spec num bases : Forall (fun b => 0 < b) bases -> 0 <= num < prod bases -> num < 2 ^ 32 ->
  in_bases (dec2bases num bases).1 bases /\ value 0 (dec2bases num bases).1 bases = num /\ (dec2bases num bases).2 = true.
Proof.
  intros Hb Hn H32. unfold dec2bases. rewrite (ux_id 32) by lia. pose proof (split_spec bases num Hb ltac:(lia)) as Hs.
  destruct (fold_right _ _ bases) as [s n]. destruct Hs as (H1 & H2 & H3). pose proof (value_range s bases H1).
  pose proof (prod_pos bases Hb). assert (n = 0) as -> by nia. cbn [fst snd]. split; [done|]. split; [lia|done].
Qed.

Lemma bases2dec_value s bases : in_bases s bases -> prod bases <= 2 ^ 32 -> bases2dec s bases = value 0 s bases.
Proof.
  intros H Hp. unfold bases2dec, value. assert (forall v, 0 <= v -> (v + 1) * prod bases <= 2 ^ 32 ->
    fold_left (fun num '(d, base) => u32 (num * base + d)) (zip s bases) v = fold_left (fun num '(d, b) => num * b + d) (zip s bases) v) as Hv;
    [|apply Hv; lia]. clear Hp. induction H as [|d b s bases Hd H IH]; intros v Hv Hp; [done|]. cbn [zip_with fold_left].
  unfold prod in Hp. cbn [foldr] in Hp. fold (prod bases) in Hp. pose proof (prod_pos bases (in_bases_pos _ _ H)).
  rewrite (ux_id 32) by nia. apply IH; nia.
Qed.

Lemma dec2base_bases num base l : dec2base num base l = dec2bases num (replicate l base).
Proof.
  unfold dec2base, dec2bases. assert (forall k, fold_right (fun (_ : nat) '(s, n) => (n mod base :: s, n / base)) ([], u32 num) (seq k l) =
    fold_right (fun base '(s, n) => (n mod base :: s, n / base)) ([], u32 num) (replicate l base)) as E; [|by rewrite E].
  induction l as [|l IH]; intros k; [done|]. cbn [seq fold_right replicate]. by rewrite IH.
Qed.

Lemma base2dec_bases s base : base2dec s base = bases2dec s (replicate (length s) base).
Proof.
  unfold base2dec, bases2dec. generalize 0 as v. induction s as [|d s IH]; intros v; [done|]. cbn [length replicate zip_with fold_left]. apply IH.
Qed.

(** Round trips: the number of its digits, and the digits of the number. *)
Lemma bases_roundtrip num bases : Forall (fun b => 0 < b) bases -> 0 <= num < prod bases -> prod bases <= 2 ^ 32 ->
  bases2dec (dec2bases num bases).1 bases = num.
Proof.
  intros Hb Hn Hp. destruct (dec2bases_spec num bases Hb Hn ltac:(lia)) as (H1 & H2 & _). by rewrite bases2dec_value.
Qed.

Lemma digits_roundtrip s bases : in_bases s bases -> prod bases <= 2 ^ 32 -> dec2bases (bases2dec s bases) bases = (s, true).
Proof.
  intros Hs Hp. pose proof (value_range s bases Hs) as Hr. rewrite bases2dec_value by done.
  destruct (dec2bases_spec (value 0 s bases) bases (in_bases_pos _ _ Hs) Hr ltac:(lia)) as (H1 & H2 & H3).
  rewrite (surjective_pairing (dec2bases _ _)), H3. f_equal. by apply (value_inj _ _ bases).
Qed.

Lemma replicate_pos l b : 0 < b -> Forall (fun b => 0 < b) (replicate l b).
Proof. intros Hb. by apply Forall_replicate. Qed.

Lemma in_replicate s b : in_bases s (replicate (length s) b) <-> Forall (fun d => 0 <= d < b) s.
Proof.
  unfold in_bases. split.
  - intros H. remember (replicate (length s) b) as bs eqn:Eb. revert Eb. induction H as [|d b' s bs Hd H IH]; intros Eb; [constructor|].
    cbn [length replicate] in Eb. injection Eb as -> Eb. constructor; [done|]. by apply IH.
  - intros H. induction H; cbn [length replicate]; by constructor.
Qed.

Lemma base2dec_range s b : Forall (fun d => 0 <= d < b) s -> b ^ Z.of_nat (length s) <= 2 ^ 32 -> 0 <= base2dec s b < b ^ Z.of_nat (length s).
Proof.
  intros Hs Hp. rewrite base2dec_bases. apply in_replicate in Hs. rewrite <- prod_replicate in *.
  rewrite bases2dec_value by done. by apply value_range.
Qed.

Lemma dec2base_spec num b l : 0 < b -> 0 <= num < b ^ Z.of_nat l -> num < 2 ^ 32 ->
  Forall (fun d => 0 <= d < b) (dec2base num b l).1 /\ length (dec2base num b l).1 = l /\
  (b ^ Z.of_nat l <= 2 ^ 32 -> base2dec (dec2base num b l).1 b = num).
Proof.
  intros Hb Hn H32. rewrite dec2base_bases. rewrite <- prod_replicate in *.
  destruct (dec2bases_spec num (replicate l b) (replicate_pos l b Hb) Hn H32) as (H1 & H2 & _).
  pose proof (in_bases_length _ _ H1) as Hl. rewrite length_replicate in Hl.
  split; [by apply in_replicate; rewrite Hl|]. split; [done|]. intros Hp. rewrite base2dec_bases, Hl.
  rewrite bases2dec_value by done. done.
Qed.

(** Binary digits. *)
Lemma binary_get x l m : 0 <= x < 2 ^ 32 -> 0 <= m < Z.of_nat l -> (dec2base x 2 l).1.[m] = Z.b2z (Z.testbit x (Z.of_nat l - 1 - m)).
Proof.
  intros Hx. unfold dec2base. rewrite (ux_id 32) by done.
  assert (forall k, let '(s, n) := fold_right (fun (_ : nat) '(s, n) => (n mod 2 :: s, n / 2)) ([], x) (seq k l) in
    n = x / 2 ^ Z.of_nat l /\ forall m, 0 <= m < Z.of_nat l -> s.[m] = Z.b2z (Z.testbit x (Z.of_nat l - 1 - m))) as H.
  { induction l as [|l IH]; intros k; [cbn; split; [by rewrite Z.div_1_r|lia]|]. cbn [seq fold_right]. specialize (IH (S k)).
    destruct (fold_right _ _ (seq (S k) l)) as [s n]. destruct IH as [-> IH]. split.
    - rewrite Zdiv.Zdiv_Zdiv by (apply Z.pow_nonneg || idtac; lia). f_equal. rewrite Nat2Z.inj_succ, Z.pow_succ_r by lia. lia.
    - intros m' Hm'. destruct (decide (m' = 0)) as [->|].
      + cbn. replace (Z.of_nat (S l) - 1 - 0) with (Z.of_nat l) by lia. by rewrite Z.testbit_spec' by lia.
      + change ((x / 2 ^ Z.of_nat l) mod 2 :: s) with ([(x / 2 ^ Z.of_nat l) mod 2] ++ s). rewrite aget_app_r by (cbn [length]; lia).
        cbn [length]. rewrite IH by lia. do 2 f_equal. lia. }
  specialize (H 0%nat). destruct (fold_right _ _ (seq 0 l)) as [s n]. intros Hm. cbn [fst]. by apply H.
Qed.

(** Adding up modulo 2 as one goes. *)
Lemma parity_fold n (f : Z -> Z) v : fold_left (fun o m => (o + f m) mod 2) (zseq 0 n) v mod 2 = (v + sum n f) mod 2.
Proof.
  induction n as [|n IH]; [by rewrite Z.add_0_r|].
  assert (zseq 0 (S n) = zseq 0 n ++ [Z.of_nat n]) as -> by (unfold zseq; by rewrite seq_S, map_app).
  rewrite fold_left_app, sum_snoc. cbn [fold_left]. rewrite Z.mod_mod by lia.
  rewrite Z.add_assoc, (Z.add_mod (v + sum n f)), <- IH, <- Z.add_mod by lia. done.
Qed.

Lemma parity_fold2 k n (f : Z -> Z -> Z) v :
  fold_left (fun o j => fold_left (fun o m => (o + f j m) mod 2) (zseq 0 n) o) (zseq 0 k) v mod 2 =
  (v + sum k (fun j => sum n (f j))) mod 2.
Proof.
  induction k as [|k IH]; [by rewrite Z.add_0_r|].
  assert (zseq 0 (S k) = zseq 0 k ++ [Z.of_nat k]) as -> by (unfold zseq; by rewrite seq_S, map_app).
  rewrite fold_left_app, sum_snoc. cbn [fold_left]. rewrite parity_fold.
  rewrite Z.add_assoc, (Z.add_mod (v + sum k _)), <- IH, <- Z.add_mod by lia. done.
Qed.
