(* ===== verification/TrellisTables.v ===== *)
(** * Tables of a trellis: [generate_PS_PI], [generate_TM], [find_es] of [fsm.cc]

    The transitions into each state, and for each pair of states an input that
    starts a way from one to the other.  The search for ways fills the table of an
    end state in passes over the states; a pass either completes it or gives one
    more state a way, so the passes it allows itself are enough. *)

From S2P Require Import Prelude.
From stdpp Require Import list.
From S2P Require Import Bits.
#[local] Open Scope Z_scope.
#[local] Open Scope cint_scope.

Section Tables.
Context (I S : Z) (NS : list Z).

(** The inner loops of [generate_PS_PI]: the transitions into state [i]. *)
Definition transitions_into (i : Z) : list (Z * Z) :=
  flat_map (fun ii => flat_map (fun jj => if NS.[s32 (ii * I + jj)] =? i then [(ii, jj)] else []) (zseq 0 (Z.to_nat I)))
    (zseq 0 (Z.to_nat S)).

Definition generate_PS_PI : list (list Z) * list (list Z) :=
  (map (fun i => map fst (transitions_into i)) (zseq 0 (Z.to_nat S)),
   map (fun i => map snd (transitions_into i)) (zseq 0 (Z.to_nat S))).

(** The loop over the inputs in [find_es]. *)
Definition closest (es s : Z) (TMl : list Z) : Z * Z :=
  fold_left (fun '(minl, mini) i =>
      let l := s32 (1 + TMl.[s32 (NS.[s32 (s * I + i)] * S + es)]) in
      if l <? minl then (l, i) else (minl, mini)) (zseq 0 (Z.to_nat I)) (S, -1).

(** The loop over the states. *)
Definition find_es_state (es : Z) (t : bool * list Z * list Z) (s : Z) : bool * list Z * list Z :=
  let '(done, TMi, TMl) := t in
  if TMl.[s32 (s * S + es)] <? S then (done, TMi, TMl)
  else
    let '(minl, mini) := closest es s TMl in
    if negb (mini =? -1) then (done, TMi.[s32 (s * S + es) <- mini], TMl.[s32 (s * S + es) <- minl])
    else (false, TMi, TMl).

Definition find_es (es : Z) (TMi TMl : list Z) : bool * list Z * list Z :=
  fold_left (find_es_state es) (zseq 0 (Z.to_nat S)) (true, TMi, TMl).

(** [while (done == false && attempts < d_S-1)]: so many attempts at most. *)
Fixpoint attempt (n : nat) (es : Z) (TMi TMl : list Z) : bool * list Z * list Z :=
  match n with
  | O => (false, TMi, TMl)
  | Datatypes.S n =>
      let '(done, TMi, TMl) := find_es es TMi TMl in
      if done then (true, TMi, TMl) else attempt n es TMi TMl
  end.

(** The tables, and the states it complains about. *)
Definition generate_TM : list Z * list Z * list Z :=
  let TMi := map (fun _ => -1) (zseq 0 (Z.to_nat (s32 (S * S)))) in
  let TMl := map (fun i => if i / S =? i mod S then 0 else S) (zseq 0 (Z.to_nat (s32 (S * S)))) in
  fold_left (fun '(TMi, TMl, complaints) s =>
      let '(done, TMi, TMl) := attempt (Z.to_nat (S - 1)) s TMi TMl in
      (TMi, TMl, if done : bool then complaints else complaints ++ [s]))
    (zseq 0 (Z.to_nat S)) (TMi, TMl, []).
End Tables.

(** ** The same on the integers

    Where the tables have no more cells than an [int] can count, no arithmetic wraps
    around. *)

Section OnIntegers.
Context (I S : Z) (NS : list Z).

Definition transitions_into_Z (i : Z) : list (Z * Z) :=
  flat_map (fun ii => flat_map (fun jj => if NS.[ii * I + jj] =? i then [(ii, jj)] else []) (zseq 0 (Z.to_nat I)))
    (zseq 0 (Z.to_nat S)).

Definition generate_PS_PI_Z : list (list Z) * list (list Z) :=
  (map (fun i => map fst (transitions_into_Z i)) (zseq 0 (Z.to_nat S)),
   map (fun i => map snd (transitions_into_Z i)) (zseq 0 (Z.to_nat S))).

Definition closest_Z (es s : Z) (TMl : list Z) : Z * Z :=
  fold_left (fun '(minl, mini) i =>
      let l := 1 + TMl.[NS.[s * I + i] * S + es] in
      if l <? minl then (l, i) else (minl, mini)) (zseq 0 (Z.to_nat I)) (S, -1).

Definition find_es_state_Z (es : Z) (t : bool * list Z * list Z) (s : Z) : bool * list Z * list Z :=
  let '(done, TMi, TMl) := t in
  if TMl.[s * S + es] <? S then (done, TMi, TMl)
  else
    let '(minl, mini) := closest_Z es s TMl in
    if negb (mini =? -1) then (done, TMi.[s * S + es <- mini], TMl.[s * S + es <- minl])
    else (false, TMi, TMl).

Definition find_es_Z (es : Z) (TMi TMl : list Z) : bool * list Z * list Z :=
  fold_left (find_es_state_Z es) (zseq 0 (Z.to_nat S)) (true, TMi, TMl).

Fixpoint attempt_Z (n : nat) (es : Z) (TMi TMl : list Z) : bool * list Z * list Z :=
  match n with
  | O => (false, TMi, TMl)
  | Datatypes.S n =>
      let '(done, TMi, TMl) := find_es_Z es TMi TMl in
      if done then (true, TMi, TMl) else attempt_Z n es TMi TMl
  end.

Definition generate_TM_Z : list Z * list Z * list Z :=
  let TMi := map (fun _ => -1) (zseq 0 (Z.to_nat (S * S))) in
  let TMl := map (fun i => if i / S =? i mod S then 0 else S) (zseq 0 (Z.to_nat (S * S))) in
  fold_left (fun '(TMi, TMl, complaints) s =>
      let '(done, TMi, TMl) := attempt_Z (Z.to_nat (S - 1)) s TMi TMl in
      (TMi, TMl, if done : bool then complaints else complaints ++ [s]))
    (zseq 0 (Z.to_nat S)) (TMi, TMl, []).
End OnIntegers.

Lemma zseq_elem n i : i ∈ zseq 0 n <-> 0 <= i < Z.of_nat n.
Proof.
  unfold zseq. rewrite list_elem_of_In, in_map_iff. split.
  - intros (k & <- & Hk%in_seq). lia.
  - intros Hi. exists (Z.to_nat i). split; [lia|]. apply in_seq. lia.
Qed.

(** Folds that agree as long as [P] holds, and keep it. *)
Lemma fold_left_agree {A B} (P : A -> Prop) (f g : A -> B -> A) l a : P a ->
  (forall a x, x ∈ l -> P a -> f a x = g a x /\ P (g a x)) -> fold_left f l a = fold_left g l a /\ P (fold_left g l a).
Proof.
  revert a. induction l as [|x l IH]; intros a Ha H; [done|]. cbn. destruct (H a x ltac:(by left) Ha) as [-> Hx].
  apply IH; [done|]. intros b y Hy. apply H. by right.
Qed.

Lemma flat_map_ext_in {A B} (f g : A -> list B) l : (forall x, x ∈ l -> f x = g x) -> flat_map f l = flat_map g l.
Proof. induction l as [|x l IH]; intros H; [done|]. cbn. rewrite H by (by left). f_equal. apply IH. intros y Hy. apply H. by right. Qed.

Section Fits.
Context (I S : Z) (NS : list Z).
Hypothesis HS : 0 < S.
Hypothesis HIS : I * S < 2 ^ 31.
Hypothesis HNS : forall s i, 0 <= s < S -> 0 <= i < I -> 0 <= NS.[s * I + i] < S.

Lemma row_fits s i : 0 <= s < S -> 0 <= i < I -> s32 (s * I + i) = s * I + i.
Proof using HS HIS. intros Hs Hi. apply (sx_id 32); [lia|]. revert HIS. norm_pow. nia. Qed.

Lemma generate_PS_PI_fits : generate_PS_PI I S NS = generate_PS_PI_Z I S NS.
Proof using HS HIS.
  assert (forall k, transitions_into I S NS k = transitions_into_Z I S NS k) as E.
  { intros k. apply flat_map_ext_in. intros ii Hii%zseq_elem. apply flat_map_ext_in. intros jj Hjj%zseq_elem. by rewrite row_fits by lia. }
  unfold generate_PS_PI, generate_PS_PI_Z. by setoid_rewrite E.
Qed.

Hypothesis HSS : S * S < 2 ^ 31.

Lemma cell_fits s es : 0 <= s < S -> 0 <= es < S -> s32 (s * S + es) = s * S + es.
Proof using HS HSS. intros Hs Hi. apply (sx_id 32); [lia|]. revert HSS. norm_pow. nia. Qed.

(** The lengths in the table stay small. *)
Definition short (TMl : list Z) : Prop := Forall (fun l => 0 <= l <= S) TMl.

Lemma short_get TMl i : short TMl -> 0 <= TMl.[i] <= S.
Proof using HS. intros H. apply (aget_Forall_dflt (fun l => 0 <= l <= S)); [done|]. change (0 <= 0 <= S). lia. Qed.

Lemma closest_fits es s TMl : 0 <= es < S -> 0 <= s < S -> short TMl ->
  closest I S NS es s TMl = closest_Z I S NS es s TMl /\ 0 <= (closest_Z I S NS es s TMl).1 <= S.
Proof using HS HIS HNS HSS.
  intros Hes Hs Ht. apply (fold_left_agree (fun x => 0 <= x.1 <= S)); [cbn; lia|]. intros [minl mini] i Hi%zseq_elem Hm. cbn [fst] in Hm.
  rewrite row_fits by lia. pose proof (HNS s i Hs ltac:(lia)) as Hn. rewrite cell_fits by done.
  pose proof (short_get TMl (NS.[s * I + i] * S + es) Ht) as Hl. assert (S < 65536) as HS16 by (revert HSS; norm_pow; nia).
  rewrite (sx_id 32); [|lia|change (2 ^ (32 - 1)) with 2147483648; lia]. cbv zeta. split; [done|]. case_if; cbn [fst]; lia.
Qed.

Lemma short_set TMl i l : short TMl -> 0 <= l <= S -> short TMl.[i <- l].
Proof using Type. intros H Hl. by apply Forall_aset. Qed.

Lemma find_es_state_fits es t s : 0 <= es < S -> 0 <= s < S -> short t.2 ->
  find_es_state I S NS es t s = find_es_state_Z I S NS es t s /\ short (find_es_state_Z I S NS es t s).2.
Proof using HS HIS HNS HSS.
  destruct t as [[done TMi] TMl]. intros Hes Hs Ht. cbn [snd] in Ht. unfold find_es_state, find_es_state_Z. rewrite cell_fits by done.
  case_if; [done|]. destruct (closest_fits es s TMl Hes Hs Ht) as [-> Hc]. destruct (closest_Z I S NS es s TMl) as [minl mini].
  cbn [fst] in Hc. case_if; [|done]. split; [done|]. cbn [snd]. by apply short_set.
Qed.

Lemma find_es_fits es TMi TMl : 0 <= es < S -> short TMl ->
  find_es I S NS es TMi TMl = find_es_Z I S NS es TMi TMl /\ short (find_es_Z I S NS es TMi TMl).2.
Proof using HS HIS HNS HSS.
  intros Hes Ht. apply (fold_left_agree (fun t => short t.2)); [done|]. intros t s Hs%zseq_elem H. apply find_es_state_fits; [done|lia|done].
Qed.

Lemma attempt_fits n es TMi TMl : 0 <= es < S -> short TMl ->
  attempt I S NS n es TMi TMl = attempt_Z I S NS n es TMi TMl /\ short (attempt_Z I S NS n es TMi TMl).2.
Proof using HS HIS HNS HSS.
  intros Hes. revert TMi TMl. induction n as [|n IH]; intros TMi TMl Ht; [done|]. cbn [attempt attempt_Z].
  destruct (find_es_fits es TMi TMl Hes Ht) as [-> H]. destruct (find_es_Z I S NS es TMi TMl) as [[done TMi'] TMl'].
  destruct done; [done|]. by apply IH.
Qed.

Lemma generate_TM_fits : generate_TM I S NS = generate_TM_Z I S NS.
Proof using HS HIS HNS HSS.
  unfold generate_TM, generate_TM_Z. rewrite (sx_id 32); [|lia|revert HSS; norm_pow; nia].
  refine (proj1 (fold_left_agree (fun t => short t.1.2) _ _ _ _ _ _)).
  - cbn [fst snd]. unfold short. apply Forall_forall. intros l (i & -> & _)%list_elem_of_fmap. case_if; lia.
  - intros [[TMi TMl] complaints] s Hs%zseq_elem Ht. cbn [fst snd] in Ht.
    destruct (attempt_fits (Z.to_nat (S - 1)) s TMi TMl ltac:(lia) Ht) as [-> H].
    by destruct (attempt_Z I S NS (Z.to_nat (S - 1)) s TMi TMl) as [[done TMi'] TMl'].
Qed.
End Fits.


(** ** The transitions into a state *)

Lemma zseq_NoDup n : NoDup (zseq 0 n).
Proof. unfold zseq. apply NoDup_fmap_2; [apply _|]. apply NoDup_ListNoDup, seq_NoDup. Qed.

Lemma flat_map_elem {A B} (f : A -> list B) l y : y ∈ flat_map f l <-> exists x, x ∈ l /\ y ∈ f x.
Proof. rewrite list_elem_of_In, in_flat_map. by setoid_rewrite <- list_elem_of_In. Qed.

(** Lists that name what made them share nothing. *)
Lemma flat_map_NoDup {A B} (f : A -> list B) (g : B -> A) l :
  NoDup l -> (forall x, NoDup (f x)) -> (forall x y, x ∈ l -> y ∈ f x -> g y = x) -> NoDup (flat_map f l).
Proof.
  intros Hl Hf Hg. induction Hl as [|x l Hx Hl IH]; cbn [flat_map]; [constructor|].
  apply NoDup_app. split; [done|]. split.
  - intros y Hy (x' & Hx' & Hy')%flat_map_elem. assert (x = x') as ->; [|done].
    rewrite <- (Hg x y), <- (Hg x' y); [done|by right|done|by left|done].
  - apply IH. intros x' y Hx'. apply Hg. by right.
Qed.

Section Transitions.
Context (I S : Z) (NS : list Z).

Lemma transitions_into_elem k s i : (s, i) ∈ transitions_into_Z I S NS k <->
  0 <= s < S /\ 0 <= i < I /\ NS.[s * I + i] = k.
Proof.
  unfold transitions_into_Z. rewrite flat_map_elem. split.
  - intros (s' & Hs & (i' & Hi & H)%flat_map_elem). apply zseq_elem in Hs, Hi. case_if; [|by apply elem_of_nil in H].
    apply list_elem_of_singleton in H as [= -> ->]. lia.
  - intros (Hs & Hi & E). exists s. split; [apply zseq_elem; lia|]. apply flat_map_elem. exists i. split; [apply zseq_elem; lia|].
    rewrite (proj2 (Z.eqb_eq _ _)) by done. by left.
Qed.

Lemma transitions_into_NoDup k : NoDup (transitions_into_Z I S NS k).
Proof.
  unfold transitions_into_Z. apply (flat_map_NoDup _ fst); [apply zseq_NoDup| |].
  - intros s. apply (flat_map_NoDup _ snd); [apply zseq_NoDup| |].
    + intros i. case_if; [apply NoDup_singleton|apply NoDup_nil_2].
    + intros i y _ Hy. case_if; [by apply list_elem_of_singleton in Hy as ->|by apply elem_of_nil in Hy].
  - intros s y _ (i & _ & Hy)%flat_map_elem. case_if; [by apply list_elem_of_singleton in Hy as ->|by apply elem_of_nil in Hy].
Qed.
End Transitions.

(** ** Termination tables: one column *)

(** Inputs one after the other. *)
Definition run (I : Z) (NS : list Z) (s : Z) (ii : list Z) : Z := fold_left (fun s i => NS.[s * I + i]) ii s.

Definition inputs (I : Z) (ii : list Z) : Prop := Forall (fun i => 0 <= i < I) ii.

Definition reachable (I : Z) (NS : list Z) (s es : Z) : Prop := exists ii, inputs I ii /\ run I NS s ii = es.

(** The inputs that the tables give. *)
Fixpoint way (I S : Z) (NS TMi : list Z) (n : nat) (s es : Z) : list Z :=
  match n with
  | O => []
  | Datatypes.S n => let i := TMi.[s * S + es] in i :: way I S NS TMi n NS.[s * I + i] es
  end.

Section Column.
Context (I S : Z) (NS : list Z).
Hypothesis HS : 0 < S.
Hypothesis HNS : forall s i, 0 <= s < S -> 0 <= i < I -> 0 <= NS.[s * I + i] < S.

Abbreviation cell s es := (s * S + es).

Lemma cell_range s es : 0 <= s < S -> 0 <= es < S -> 0 <= cell s es < S * S.
Proof using HS. nia. Qed.

Lemma cell_inj s es s' es' : 0 <= es < S -> 0 <= es' < S -> cell s es = cell s' es' -> s = s' /\ es = es'.
Proof using HS.
  intros H1 H2 E. assert (s = s') as ->; [|lia].
  rewrite (Z.div_unique_pos (cell s es) S s es), (Z.div_unique_pos (cell s es) S s' es'); lia.
Qed.

(** How many states have a way to [es]. *)
Definition found (es : Z) (TMl : list Z) : Z := sum (Z.to_nat S) (fun s => if TMl.[cell s es] <? S then 1 else 0).

(** The column of [es] is right so far. *)
Record column (es : Z) (TMi TMl : list Z) : Prop := {
  co_lengths : length TMi = Z.to_nat (S * S) /\ length TMl = Z.to_nat (S * S);
  co_end : TMl.[cell es es] = 0;
  co_range s : 0 <= s < S -> 0 <= TMl.[cell s es] <= S;
  co_step s : 0 <= s < S -> s <> es -> TMl.[cell s es] < S ->
    0 <= TMi.[cell s es] < I /\ TMl.[cell NS.[s * I + TMi.[cell s es]] es] = TMl.[cell s es] - 1;
  co_zero s : 0 <= s < S -> TMl.[cell s es] = 0 -> s = es;
  co_found s : 0 <= s < S -> TMl.[cell s es] < S -> TMl.[cell s es] + 1 <= found es TMl
}.

(** Following the table leads to [es]. *)
Lemma column_way es TMi TMl s : column es TMi TMl -> 0 <= es < S -> 0 <= s < S -> TMl.[cell s es] < S ->
  let ii := way I S NS TMi (Z.to_nat TMl.[cell s es]) s es in
  inputs I ii /\ Z.of_nat (length ii) = TMl.[cell s es] /\ run I NS s ii = es.
Proof using HNS.
  intros Hc Hes. remember (Z.to_nat TMl.[cell s es]) as n eqn:En. revert s En. induction n as [|n IH]; intros s En Hs Hl.
  - pose proof (co_range _ _ _ Hc s Hs). cbn [way]. split; [constructor|]. split; [cbn [length]; lia|]. apply (co_zero _ _ _ Hc s); [done|lia].
  - assert (s <> es) as Hne by (intros ->; rewrite (co_end _ _ _ Hc) in En; lia).
    destruct (co_step _ _ _ Hc s Hs Hne Hl) as [Hi Hn]. cbn [way]. set (i := TMi.[cell s es]) in *.
    pose proof (HNS s i Hs Hi) as Hns. assert (n = Z.to_nat TMl.[cell NS.[s * I + i] es]) as En' by lia. destruct (IH NS.[s * I + i] En' Hns ltac:(lia)) as (H1 & H2 & H3).
    split; [by constructor|]. split; [cbn [length]; lia|]. done.
Qed.

(** ** The loops *)

Lemma closest_loop es s TMl n : (forall i, 0 <= i < n -> 0 <= TMl.[cell NS.[s * I + i] es]) -> 0 <= n ->
  let '(minl, mini) := fold_left (fun '(minl, mini) i =>
      let l := 1 + TMl.[NS.[s * I + i] * S + es] in if l <? minl then (l, i) else (minl, mini)) (zseq 0 (Z.to_nat n)) (S, -1) in
  (mini = -1 /\ minl = S /\ forall i, 0 <= i < n -> S <= 1 + TMl.[cell NS.[s * I + i] es]) \/
  (0 <= mini < n /\ minl = 1 + TMl.[cell NS.[s * I + mini] es] /\ minl < S).
Proof using HS.
  intros Hl Hn. assert (exists k, n = Z.of_nat k) as [k ->] by (exists (Z.to_nat n); lia). rewrite Nat2Z.id. clear Hn.
  induction k as [|k IH]; [left; split; [done|]; split; [done|intros; lia]|]. assert (zseq 0 (Datatypes.S k) = zseq 0 k ++ [Z.of_nat k]) as ->.
  { unfold zseq. by rewrite seq_S, map_app. }
  rewrite fold_left_app. specialize (IH ltac:(intros; apply Hl; lia)). destruct (fold_left _ (zseq 0 k) _) as [minl mini].
  cbn [fold_left]. destruct IH as [(-> & -> & H)|(Hm & E & Hlt)]; case_if.
  - right. lia.
  - left. split; [done|]. split; [done|]. intros i Hi. destruct (decide (i = Z.of_nat k)) as [->|]; [lia|]. apply H. lia.
  - right. lia.
  - right. lia.
Qed.

Lemma closest_spec es s TMl : 0 < I -> (forall i, 0 <= i < I -> 0 <= TMl.[cell NS.[s * I + i] es]) ->
  let '(minl, mini) := closest_Z I S NS es s TMl in
  (mini = -1 /\ minl = S /\ forall i, 0 <= i < I -> S <= 1 + TMl.[cell NS.[s * I + i] es]) \/
  (0 <= mini < I /\ minl = 1 + TMl.[cell NS.[s * I + mini] es] /\ minl < S).
Proof using HS. intros HI Hl. apply (closest_loop es s TMl I Hl). lia. Qed.
End Column.

(** Sums that grow. *)
Lemma sum_le n f g : (forall i, 0 <= i < Z.of_nat n -> f i <= g i) -> sum n f <= sum n g.
Proof. induction n as [|n IH]; intros H; [done|]. rewrite !sum_snoc. specialize (IH ltac:(intros; apply H; lia)). specialize (H (Z.of_nat n)). lia. Qed.

Lemma sum_lt n f g k : (forall i, 0 <= i < Z.of_nat n -> f i <= g i) -> 0 <= k < Z.of_nat n -> f k < g k -> sum n f < sum n g.
Proof.
  induction n as [|n IH]; intros H Hk Hlt; [lia|]. rewrite !sum_snoc. destruct (decide (k = Z.of_nat n)) as [->|].
  - pose proof (sum_le n f g ltac:(intros; apply H; lia)). lia.
  - specialize (IH ltac:(intros; apply H; lia) ltac:(lia) Hlt). specialize (H (Z.of_nat n)). lia.
Qed.

Lemma sum_ones n : sum n (fun _ => 1) = Z.of_nat n.
Proof. induction n as [|n IH]; [done|]. rewrite sum_snoc, IH. lia. Qed.

Section Pass.
Context (I S : Z) (NS : list Z).
Hypothesis HS : 0 < S.
Hypothesis HNS : forall s i, 0 <= s < S -> 0 <= i < I -> 0 <= NS.[s * I + i] < S.

Abbreviation cell s es := (s * S + es).

Lemma found_range es TMl : 0 <= found S es TMl <= S.
Proof using HS.
  unfold found. split.
  - rewrite <- (Z.mul_0_l (sum (Z.to_nat S) (fun _ => 1))). transitivity (sum (Z.to_nat S) (fun _ => 0)).
    + clear. induction (Z.to_nat S) as [|n IH]; [done|]. rewrite (sum_snoc n (fun _ => 0)). lia.
    + apply sum_le. intros i _. by case_if.
  - transitivity (sum (Z.to_nat S) (fun _ => 1)); [apply sum_le; intros i _; by case_if|]. rewrite sum_ones. lia.
Qed.

Lemma found_not_all es TMl s : 0 <= s < S -> S <= TMl.[cell s es] -> found S es TMl < S.
Proof using HS.
  intros Hs Hl. apply Z.lt_le_trans with (sum (Z.to_nat S) (fun _ => 1)); [|rewrite sum_ones; lia].
  unfold found. apply (sum_lt _ _ _ s); [intros i _; by case_if|lia|]. by rewrite (proj2 (Z.ltb_ge _ _)) by lia.
Qed.

(** The column of [es] was extended, the others are as they were. *)
Record grows (es : Z) (TMi TMl TMi' TMl' : list Z) : Prop := {
  gr_other s es' : 0 <= es' < S -> es' <> es -> TMi'.[cell s es'] = TMi.[cell s es'] /\ TMl'.[cell s es'] = TMl.[cell s es'];
  gr_set s : 0 <= s < S -> TMl.[cell s es] < S -> TMl'.[cell s es] = TMl.[cell s es] /\ TMi'.[cell s es] = TMi.[cell s es]
}.

Lemma pass_refl es TMi TMl : grows es TMi TMl TMi TMl.
Proof using Type. by split. Qed.

Lemma pass_trans es TMi1 TMl1 TMi2 TMl2 TMi3 TMl3 :
  grows es TMi1 TMl1 TMi2 TMl2 -> grows es TMi2 TMl2 TMi3 TMl3 -> grows es TMi1 TMl1 TMi3 TMl3.
Proof using Type.
  intros [H1 H2] [H3 H4]. split.
  - intros s es' He Hne. destruct (H3 s es' He Hne) as [-> ->]. by apply H1.
  - intros s Hs Hl. destruct (H2 s Hs Hl) as [E1 E2]. destruct (H4 s Hs ltac:(lia)) as [-> ->]. done.
Qed.

Lemma grows_found es TMi TMl TMi' TMl' : grows es TMi TMl TMi' TMl' -> found S es TMl <= found S es TMl'.
Proof using HS.
  intros Hg. apply sum_le. intros s Hs. destruct (Z.ltb_spec TMl.[cell s es] S); [|by case_if].
  destruct (gr_set _ _ _ _ _ Hg s ltac:(lia) ltac:(done)) as [-> _]. by rewrite (proj2 (Z.ltb_lt _ _)).
Qed.

Lemma grows_found_lt es TMi TMl TMi' TMl' s : grows es TMi TMl TMi' TMl' -> 0 <= s < S -> S <= TMl.[cell s es] ->
  TMl'.[cell s es] < S -> found S es TMl < found S es TMl'.
Proof using HS.
  intros Hg Hs H1 H2. apply (sum_lt _ _ _ s); [|lia|].
  - intros s' Hs'. destruct (Z.ltb_spec TMl.[cell s' es] S); [|by case_if].
    destruct (gr_set _ _ _ _ _ Hg s' ltac:(lia) ltac:(done)) as [-> _]. by rewrite (proj2 (Z.ltb_lt _ _)).
  - by rewrite (proj2 (Z.ltb_ge _ _)), (proj2 (Z.ltb_lt _ _)) by lia.
Qed.

(** Some input leads where a way is known. *)
Definition ready (es : Z) (TMl : list Z) (s : Z) : bool :=
  existsb (fun i => TMl.[cell NS.[s * I + i] es] <? S) (zseq 0 (Z.to_nat I)).

Lemma ready_spec es TMl s : ready es TMl s = true <-> exists i, 0 <= i < I /\ TMl.[cell NS.[s * I + i] es] < S.
Proof using Type.
  unfold ready. rewrite existsb_exists. split.
  - intros (i & Hi%list_elem_of_In%zseq_elem & Hl%Z.ltb_lt). exists i. split; [lia|done].
  - intros (i & Hi & Hl). exists i. split; [apply list_elem_of_In, zseq_elem; lia|by apply Z.ltb_lt].
Qed.

Lemma state_step es done TMi TMl s : column I S NS es TMi TMl -> 0 <= es < S -> 0 <= s < S ->
  let '(done', TMi', TMl') := find_es_state_Z I S NS es (done, TMi, TMl) s in
  column I S NS es TMi' TMl' /\ grows es TMi TMl TMi' TMl' /\
  (forall s', 0 <= s' < S -> s' <> s -> TMl'.[cell s' es] = TMl.[cell s' es]) /\
  ((done' = done /\ TMl'.[cell s es] < S) \/ (done' = false /\ TMl'.[cell s es] = S /\ ready es TMl s = false)).
Proof using HS HNS.
  intros Hc Hes Hs. unfold find_es_state_Z. destruct (Z.ltb_spec TMl.[cell s es] S) as [Hl|Hl]; [split; [done|]; split; [apply pass_refl|]; by auto|].
  pose proof (fun i Hi => co_range _ _ _ _ _ _ Hc _ (HNS s i Hs Hi)) as Hr.
  pose proof (co_range _ _ _ _ _ _ Hc s Hs) as Hrs.
  pose proof (found_not_all es TMl s Hs Hl) as Hnot.
  destruct (decide (I <= 0)) as [HI|HI].
  { unfold closest_Z. replace (Z.to_nat I) with 0%nat by lia. cbn [zseq seq map fold_left Z.eqb negb]. split; [done|].
    split; [apply pass_refl|]. split; [done|]. right. split; [done|]. split; [lia|].
    unfold ready. by replace (Z.to_nat I) with 0%nat by lia. }
  pose proof (closest_spec I S NS HS es s TMl ltac:(lia) (fun i Hi => proj1 (Hr i Hi))) as Hcl. destruct (closest_Z I S NS es s TMl) as [minl mini].
  destruct Hcl as [(-> & -> & Hall)|(Hm & -> & Hlt)].
  - cbn [Z.eqb negb]. split; [done|]. split; [apply pass_refl|]. split; [done|]. right. split; [done|]. split; [lia|].
    apply not_true_is_false. intros (i & Hi & Hli)%ready_spec. specialize (Hall i Hi).
    pose proof (co_found _ _ _ _ _ _ Hc _ (HNS s i Hs Hi) Hli). lia.
  - rewrite (proj2 (Z.eqb_neq mini (-1))) by lia. cbn [negb]. pose proof (HNS s mini Hs Hm) as Hn. set (next := NS.[s * I + mini]) in *.
    destruct (co_lengths _ _ _ _ _ _ Hc) as [Hl1 Hl2]. pose proof (cell_range S HS) as Hcr.
    assert (s <> es) as Hne by (intros ->; rewrite (co_end _ _ _ _ _ _ Hc) in Hl; lia).
    assert (next <> s) as Hns by (intros ->; lia).
    set (TMl' := TMl.[cell s es <- 1 + TMl.[cell next es]]). set (TMi' := TMi.[cell s es <- mini]).
    assert (TMl'.[cell s es] = 1 + TMl.[cell next es] /\ TMi'.[cell s es] = mini) as [Es1 Es2].
    { specialize (Hcr s es Hs Hes). subst TMl' TMi'. by rewrite !aget_aset_eq by lia. }
    assert (forall s' es', 0 <= es' < S -> (s' <> s \/ es' <> es) -> TMl'.[cell s' es'] = TMl.[cell s' es'] /\ TMi'.[cell s' es'] = TMi.[cell s' es']) as Ho.
    { intros s' es' He' Hd. subst TMl' TMi'. rewrite !aget_aset_ne; [done|nia| |nia|]; intros E;
        apply (cell_inj S HS) in E as [-> ->]; try done; destruct Hd; done. }
    assert (grows es TMi TMl TMi' TMl') as Hg.
    { split; [intros s' es' He Hd; destruct (Ho s' es'); auto|]. intros s' Hs' Hl'. apply Ho; [done|]. left. intros ->. lia. }
    pose proof (Hr mini Hm) as Hrm. cbv beta in Hrm. fold next in Hrm.
    pose proof (grows_found_lt _ _ _ _ _ _ Hg Hs Hl ltac:(lia)) as Hf.
    split; [|split; [done|]; split; [intros s' Hs' Hd; apply Ho; auto|left; split; [done|lia]]].
    assert (forall s', 0 <= s' < S -> s' <> s -> TMl'.[cell s' es] = TMl.[cell s' es] /\ TMi'.[cell s' es] = TMi.[cell s' es]) as Hcs.
    { intros s' Hs' Hd. apply Ho; auto. }
    split.
    + subst TMl' TMi'. by rewrite !length_aset.
    + rewrite (proj1 (Hcs es Hes ltac:(done))). apply Hc.
    + intros s' Hs'. destruct (decide (s' = s)) as [->|Hd]; [lia|]. rewrite (proj1 (Hcs s' Hs' Hd)). by apply Hc.
    + intros s' Hs' Hse Hl'. destruct (decide (s' = s)) as [->|Hd].
      * rewrite Es1, Es2. fold next. split; [done|]. rewrite (proj1 (Hcs next Hn Hns)). lia.
      * destruct (Hcs s' Hs' Hd) as [E1 E2]. rewrite E1 in *. rewrite E2. destruct (co_step _ _ _ _ _ _ Hc s' Hs' Hse Hl') as [Hi Hp].
        split; [done|]. pose proof (HNS s' _ Hs' Hi) as Hnx. set (nx := NS.[s' * I + TMi.[cell s' es]]) in *.
        rewrite (proj1 (Hcs nx Hnx ltac:(intros ->; lia))). done.
    + intros s' Hs' Hz. destruct (decide (s' = s)) as [->|Hd]; [lia|].
      rewrite (proj1 (Hcs s' Hs' Hd)) in Hz. by apply (co_zero _ _ _ _ _ _ Hc).
    + intros s' Hs' Hl'. destruct (decide (s' = s)) as [->|Hd].
      * pose proof (co_found _ _ _ _ _ _ Hc next Hn ltac:(lia)). lia.
      * rewrite (proj1 (Hcs s' Hs' Hd)) in *. pose proof (co_found _ _ _ _ _ _ Hc s' Hs' Hl'). lia.
Qed.
End Pass.

Section Attempts.
Context (I S : Z) (NS : list Z).
Hypothesis HS : 0 < S.
Hypothesis HNS : forall s i, 0 <= s < S -> 0 <= i < I -> 0 <= NS.[s * I + i] < S.

Abbreviation cell s es := (s * S + es).

(** The tables after a pass. *)
Record passed (n es : Z) (TMi TMl : list Z) (done : bool) (TMi' TMl' : list Z) : Prop := {
  pa_column : column I S NS es TMi' TMl';
  pa_grows : grows S es TMi TMl TMi' TMl';
  pa_rest s : n <= s < S -> TMl'.[cell s es] = TMl.[cell s es];
  pa_ready s : 0 <= s < n -> ready I S NS es TMl s = true -> TMl'.[cell s es] < S;
  pa_done : done = true -> forall s, 0 <= s < n -> TMl'.[cell s es] < S;
  pa_undone : done = false -> exists s, 0 <= s < n /\ TMl'.[cell s es] = S
}.

Lemma ready_grows es TMi TMl TMi' TMl' s : grows S es TMi TMl TMi' TMl' -> 0 <= s < S ->
  ready I S NS es TMl s = true -> ready I S NS es TMl' s = true.
Proof using HNS.
  intros Hg Hs (i & Hi & Hl)%ready_spec. apply ready_spec. exists i. split; [done|].
  by destruct (gr_set _ _ _ _ _ _ Hg _ (HNS s i Hs Hi) Hl) as [-> _].
Qed.

Lemma pass_run n es TMi TMl : column I S NS es TMi TMl -> 0 <= es < S -> Z.of_nat n <= S ->
  let '(done, TMi', TMl') := fold_left (find_es_state_Z I S NS es) (zseq 0 n) (true, TMi, TMl) in
  passed (Z.of_nat n) es TMi TMl done TMi' TMl'.
Proof using HS HNS.
  intros Hc Hes. induction n as [|n IH]; intros Hn.
  { cbn. split; try done; intros; lia. }
  assert (zseq 0 (Datatypes.S n) = zseq 0 n ++ [Z.of_nat n]) as -> by (unfold zseq; by rewrite seq_S, map_app).
  rewrite fold_left_app. specialize (IH ltac:(lia)). destruct (fold_left _ (zseq 0 n) _) as [[done TMi1] TMl1].
  cbn [fold_left]. destruct IH as [H1 H2 H3 H4 H5 H6].
  pose proof (state_step I S NS HS HNS es done TMi1 TMl1 (Z.of_nat n) H1 Hes ltac:(lia)) as Hst.
  destruct (find_es_state_Z I S NS es (done, TMi1, TMl1) (Z.of_nat n)) as [[done' TMi'] TMl']. destruct Hst as (K1 & K2 & K3 & K4).
  assert (forall s, 0 <= s < Z.of_nat n -> TMl'.[cell s es] = TMl1.[cell s es]) as Kb by (intros s Hs; apply K3; lia).
  split; [done|by eapply pass_trans| | | |].
  - intros s Hs. rewrite K3 by lia. apply H3. lia.
  - intros s Hs Hr. destruct (decide (s = Z.of_nat n)) as [->|]; [|rewrite Kb by lia; apply H4; [lia|done]].
    destruct K4 as [[_ K4]|(_ & _ & K4)]; [done|]. by rewrite (ready_grows es TMi TMl TMi1 TMl1) in K4 by (done || lia).
  - intros ->. destruct K4 as [[Ed K4]|[? _]]; [|done]. intros s Hs. destruct (decide (s = Z.of_nat n)) as [->|]; [done|].
    rewrite Kb by lia. apply H5; [done|lia].
  - intros ->. destruct K4 as [[Ed K4]|(_ & K4 & _)]; [|exists (Z.of_nat n); split; [lia|done]].
    destruct (H6 ltac:(done)) as (s & Hs & El). exists s. split; [lia|]. by rewrite Kb.
Qed.

Lemma find_es_passed es TMi TMl : column I S NS es TMi TMl -> 0 <= es < S ->
  let '(done, TMi', TMl') := find_es_Z I S NS es TMi TMl in passed S es TMi TMl done TMi' TMl'.
Proof using HS HNS. intros Hc Hes. pose proof (pass_run (Z.to_nat S) es TMi TMl Hc Hes ltac:(lia)) as H. by rewrite Z2Nat.id in H by lia. Qed.

(** All states from which [es] can be reached have a way. *)
Definition complete (es : Z) (TMl : list Z) : Prop := forall s, 0 <= s < S -> reachable I NS s es -> TMl.[cell s es] < S.

(** When no state is ready that has no way, that is so. *)
Lemma nothing_ready es TMi TMl : column I S NS es TMi TMl -> 0 <= es < S ->
  (forall s, 0 <= s < S -> ready I S NS es TMl s = true -> TMl.[cell s es] < S) -> complete es TMl.
Proof using HS HNS.
  intros Hc Hes Hr s Hs (ii & Hii & Hrun). revert s Hs Hrun. induction Hii as [|i ii Hi Hii IH]; intros s Hs Hrun.
  - change (s = es) in Hrun. subst s. rewrite (co_end _ _ _ _ _ _ Hc). lia.
  - apply Hr; [done|]. apply ready_spec. exists i. split; [done|]. apply IH; [by apply HNS|done].
Qed.

Lemma pass_progress es TMi TMl done TMi' TMl' : column I S NS es TMi TMl -> 0 <= es < S ->
  passed S es TMi TMl done TMi' TMl' -> complete es TMl' \/ found S es TMl < found S es TMl'.
Proof using HS HNS.
  intros Hc Hes Hp.
  destruct (existsb (fun s => (S <=? TMl.[cell s es]) && ready I S NS es TMl s) (zseq 0 (Z.to_nat S))) eqn:E.
  - right. apply existsb_exists in E as (s & Hs%list_elem_of_In%zseq_elem & [Hl%Z.leb_le Hr]%andb_true_iff).
    apply (grows_found_lt S HS es TMi TMl TMi' TMl' s (pa_grows _ _ _ _ _ _ _ Hp) ltac:(lia) Hl). apply (pa_ready _ _ _ _ _ _ _ Hp); [lia|done].
  - left. intros s Hs Hrch. assert (complete es TMl) as Hcm.
    { apply (nothing_ready es TMi TMl Hc Hes). intros s' Hs' Hr. destruct (Z.lt_ge_cases TMl.[cell s' es] S); [done|].
      enough (existsb (fun s => (S <=? TMl.[cell s es]) && ready I S NS es TMl s) (zseq 0 (Z.to_nat S)) = true) by congruence.
      apply existsb_exists. exists s'. split; [apply list_elem_of_In, zseq_elem; lia|]. rewrite Hr. by rewrite (proj2 (Z.leb_le _ _)). }
    destruct (gr_set _ _ _ _ _ _ (pa_grows _ _ _ _ _ _ _ Hp) s Hs (Hcm s Hs Hrch)) as [-> _]. by apply Hcm.
Qed.

(** The result for [es]: its column is right and complete, the others untouched. *)
Lemma attempt_spec n es TMi TMl : column I S NS es TMi TMl -> 0 <= es < S -> complete es TMl \/ S - Z.of_nat n <= found S es TMl ->
  let '(done, TMi', TMl') := attempt_Z I S NS n es TMi TMl in
  column I S NS es TMi' TMl' /\ grows S es TMi TMl TMi' TMl' /\ complete es TMl' /\
  (done = true -> forall s, 0 <= s < S -> TMl'.[cell s es] < S) /\
  (done = false -> (0 < n)%nat -> exists s, 0 <= s < S /\ TMl'.[cell s es] = S).
Proof using HS HNS.
  revert TMi TMl. induction n as [|n IH]; intros TMi TMl Hc Hes Hq; cbn [attempt_Z].
  { split; [done|]. split; [apply pass_refl|]. split; [|split; [done|lia]]. destruct Hq as [Hq|Hq]; [done|].
    intros s Hs _. destruct (Z.lt_ge_cases TMl.[cell s es] S) as [|Hge]; [done|]. pose proof (found_not_all S HS es TMl s Hs Hge). lia. }
  pose proof (find_es_passed es TMi TMl Hc Hes) as Hp. destruct (find_es_Z I S NS es TMi TMl) as [[done TMi1] TMl1].
  pose proof (pass_progress es TMi TMl done TMi1 TMl1 Hc Hes Hp) as Hpr. destruct Hp as [H1 H2 H3 H4 H5 H6].
  assert (complete es TMl1 \/ S - Z.of_nat n <= found S es TMl1) as Hq1.
  { destruct Hpr as [|Hlt]; [by left|]. destruct Hq as [Hq|Hq]; [left|right; lia].
    intros s Hs Hr. destruct (gr_set _ _ _ _ _ _ H2 s Hs (Hq s Hs Hr)) as [-> _]. by apply Hq. }
  destruct done.
  - split; [done|]. split; [done|]. split; [|split; [by apply H5|done]]. intros s Hs _. by apply H5.
  - specialize (IH TMi1 TMl1 H1 Hes Hq1). destruct (attempt_Z I S NS n es TMi1 TMl1) as [[done TMi'] TMl'] eqn:Ea.
    destruct IH as (K1 & K2 & K3 & K4 & K5). split; [done|]. split; [by eapply pass_trans|]. split; [done|]. split; [done|].
    intros Hd _. destruct n as [|n]; [|apply K5; [done|lia]]. cbn [attempt_Z] in Ea. injection Ea as <- <- <-. by apply H6.
Qed.
End Attempts.

Section Termination.
Context (I S : Z) (NS : list Z).
Hypothesis HS : 0 < S.
Hypothesis HNS : forall s i, 0 <= s < S -> 0 <= i < I -> 0 <= NS.[s * I + i] < S.

Abbreviation cell s es := (s * S + es).

Lemma column_ext es TMi TMl TMi' TMl' : column I S NS es TMi TMl ->
  length TMi' = length TMi -> length TMl' = length TMl -> 0 <= es < S ->
  (forall s, 0 <= s < S -> TMi'.[cell s es] = TMi.[cell s es] /\ TMl'.[cell s es] = TMl.[cell s es]) ->
  column I S NS es TMi' TMl'.
Proof using HS HNS.
  intros [[L1 L2] He Hr Hst Hz Hf] E1 E2 Hes Ho.
  assert (found S es TMl' = found S es TMl) as Hfe.
  { apply sum_ext. intros s Hs. by rewrite (proj2 (Ho s ltac:(lia))). }
  split; [lia| | | | |].
  - by rewrite (proj2 (Ho es Hes)).
  - intros s Hs. rewrite (proj2 (Ho s Hs)). by apply Hr.
  - intros s Hs Hne Hl. destruct (Ho s Hs) as [Ei El]. rewrite El in *. rewrite Ei. destruct (Hst s Hs Hne Hl) as [Hi Hn].
    split; [done|]. by rewrite (proj2 (Ho _ (HNS s _ Hs Hi))).
  - intros s Hs. rewrite (proj2 (Ho s Hs)). by apply Hz.
  - intros s Hs Hl. rewrite (proj2 (Ho s Hs)) in *. rewrite Hfe. by apply Hf.
Qed.

Definition TMi0 : list Z := map (fun _ => -1) (zseq 0 (Z.to_nat (S * S))).
Definition TMl0 : list Z := map (fun i => if i / S =? i mod S then 0 else S) (zseq 0 (Z.to_nat (S * S))).

Lemma TMl0_cell s es : 0 <= s < S -> 0 <= es < S -> TMl0.[cell s es] = if s =? es then 0 else S.
Proof using HS.
  intros Hs He. unfold TMl0. pose proof (cell_range S HS s es Hs He). rewrite map_zseq_get by lia.
  by rewrite <- (Z.div_unique_pos (cell s es) S s es), <- (Z.mod_unique_pos (cell s es) S s es) by lia.
Qed.

Lemma column_start es : 0 <= es < S -> column I S NS es TMi0 TMl0 /\ 1 <= found S es TMl0.
Proof using HS.
  intros Hes. assert (1 <= found S es TMl0) as Hf.
  { enough (0 < found S es TMl0) by lia. rewrite <- (Z.mul_0_l 1) at 1.
    apply Z.le_lt_trans with (sum (Z.to_nat S) (fun _ => 0)).
    - clear. induction (Z.to_nat S) as [|n IH]; [done|]. rewrite (sum_snoc n (fun _ => 0)). lia.
    - apply (sum_lt _ _ _ es); [intros i _; by case_if|lia|]. rewrite TMl0_cell by done.
      rewrite Z.eqb_refl. by rewrite (proj2 (Z.ltb_lt _ _)). }
  split; [|done]. split.
  - unfold TMi0, TMl0. by rewrite !length_map, length_zseq.
  - rewrite TMl0_cell by done. by rewrite Z.eqb_refl.
  - intros s Hs. rewrite TMl0_cell by done. case_if; lia.
  - intros s Hs Hne Hl. rewrite TMl0_cell in Hl by done. case_if; lia.
  - intros s Hs Hz. rewrite TMl0_cell in Hz by done. case_if; lia.
  - intros s Hs Hl. rewrite TMl0_cell in * by done. case_if; lia.
Qed.

(** After the first [n] states. *)
Record tables (n : Z) (TMi TMl complaints : list Z) : Prop := {
  tb_done es : 0 <= es < n -> column I S NS es TMi TMl /\ complete I S NS es TMl /\
    (es ∉ complaints -> forall s, 0 <= s < S -> TMl.[cell s es] < S) /\
    (es ∈ complaints -> 1 < S -> exists s, 0 <= s < S /\ TMl.[cell s es] = S);
  tb_rest es s : n <= es < S -> TMi.[cell s es] = TMi0.[cell s es] /\ TMl.[cell s es] = TMl0.[cell s es];
  tb_lengths : length TMi = length TMi0 /\ length TMl = length TMl0;
  tb_complaints es : es ∈ complaints -> 0 <= es < n
}.

Lemma tables_run n : Z.of_nat n <= S ->
  let '(TMi, TMl, complaints) := fold_left (fun '(TMi, TMl, complaints) s =>
      let '(done, TMi, TMl) := attempt_Z I S NS (Z.to_nat (S - 1)) s TMi TMl in
      (TMi, TMl, if done : bool then complaints else complaints ++ [s])) (zseq 0 n) (TMi0, TMl0, []) in
  tables (Z.of_nat n) TMi TMl complaints.
Proof using HS HNS.
  induction n as [|n IH]; intros Hn.
  { cbn. split; [lia|done|done|]. intros es Hes. by apply elem_of_nil in Hes. }
  assert (zseq 0 (Datatypes.S n) = zseq 0 n ++ [Z.of_nat n]) as -> by (unfold zseq; by rewrite seq_S, map_app).
  rewrite fold_left_app. specialize (IH ltac:(lia)). destruct (fold_left _ (zseq 0 n) _) as [[TMi TMl] complaints].
  cbn [fold_left]. destruct IH as [H1 H2 [L1 L2] H3]. set (es := Z.of_nat n) in *.
  destruct (column_start es ltac:(lia)) as [Hc0 Hf0].
  assert (column I S NS es TMi TMl) as Hc.
  { apply (column_ext es TMi0 TMl0); [done|done|done|lia|]. intros s _. apply H2. lia. }
  assert (found S es TMl = found S es TMl0) as Hfe by (apply sum_ext; intros s _; by rewrite (proj2 (H2 es s ltac:(lia)))).
  pose proof (attempt_spec I S NS HS HNS (Z.to_nat (S - 1)) es TMi TMl Hc ltac:(lia) ltac:(right; lia)) as Ha.
  destruct (attempt_Z I S NS (Z.to_nat (S - 1)) es TMi TMl) as [[done TMi'] TMl']. destruct Ha as (K1 & K2 & K3 & K4 & K5).
  assert (length TMi' = length TMi /\ length TMl' = length TMl) as [L1' L2'].
  { destruct (co_lengths _ _ _ _ _ _ K1), (co_lengths _ _ _ _ _ _ Hc). lia. }
  assert (forall es', es' ∈ (if done then complaints else complaints ++ [es]) <-> es' ∈ complaints \/ (done = false /\ es' = es)) as Hin.
  { intros es'. destruct done; [naive_solver|]. rewrite elem_of_app, list_elem_of_singleton. naive_solver. }
  assert (es ∉ complaints) as Hni by (intros Hes; apply H3 in Hes; lia).
  split; [|intros es' s Hes'; destruct (gr_other _ _ _ _ _ _ K2 s es' ltac:(lia) ltac:(lia)) as [-> ->]; apply H2; lia|lia|].
  - intros es' Hes'. destruct (decide (es' = es)) as [->|Hd].
    + split; [done|]. split; [done|]. rewrite Hin. split.
      * intros Hno. apply K4. destruct done; [done|]. naive_solver.
      * intros Hyes HS1. apply K5; [naive_solver|lia].
    + pose proof (fun s => gr_other _ _ _ _ _ _ K2 s es' ltac:(lia) Hd) as Ho. destruct (H1 es' ltac:(lia)) as (Q1 & Q2 & Q3 & Q4).
      split; [apply (column_ext es' TMi TMl); (done || lia || (intros s _; apply Ho))|].
      split; [intros s Hs Hr; rewrite (proj2 (Ho s)); by apply Q2|]. rewrite Hin. split.
      * intros Hno s Hs. rewrite (proj2 (Ho s)). apply Q3; [naive_solver|done].
      * intros Hyes HS1. destruct (Q4 ltac:(naive_solver) HS1) as (s & Hs & E). exists s. by rewrite (proj2 (Ho s)).
  - intros es' [Hes'|[_ ->]]%Hin; [apply H3 in Hes'; lia|lia].
Qed.
End Termination.
