(* ===== verification/TrellisFsm.v ===== *)
(** * Finite state machines: [fsm.cc], [fsm.h]

    All ways to make a machine, and what is right of every machine; the one made
    from the polynomials of a convolutional code computes the code. *)

From S2P Require Import Prelude.
From stdpp Require Import list.
From S2P Require Import Bits TrellisBase TrellisTables.
#[local] Open Scope Z_scope.
#[local] Open Scope cint_scope.

(** ** [class fsm] *)

Record fsm := {
  d_I : Z;
  d_S : Z;
  d_O : Z;
  d_NS : list Z;
  d_OS : list Z;
  d_PS : list (list Z);
  d_PI : list (list Z);
  d_TMi : list Z;
  d_TMl : list Z
}.

(** [fsm(I, S, O, NS, OS)], and the end of the other constructors. *)
Definition make_fsm (I S O : Z) (NS OS : list Z) : fsm :=
  let '(PS, PI) := generate_PS_PI I S NS in
  let '(TMi, TMl, _) := generate_TM I S NS in
  {| d_I := I; d_S := S; d_O := O; d_NS := NS; d_OS := OS; d_PS := PS; d_PI := PI; d_TMi := TMi; d_TMl := TMl |}.

(** [for s, for i: d_NS[s*d_I+i] = ns; d_OS[s*d_I+i] = os]. *)
Definition fill_fsm (I S O : Z) (next : Z -> Z -> Z * Z) : fsm :=
  let cells := flat_map (fun s => map (next s) (zseq 0 (Z.to_nat I))) (zseq 0 (Z.to_nat S)) in
  make_fsm I S O (map fst cells) (map snd cells).

(** [fsm(mod_size, ch_length)]: interference between symbols. *)
Definition fsm_isi `{Libm} (mod_size ch_length : Z) : fsm :=
  let I := mod_size in
  let S := pow_int I (ch_length - 1) in
  fill_fsm I S (s32 (S * I)) (fun s i => let t := s32 (i * S + s) in (t / I, t)).

(** [fsm(P, M, L)]: continuous phase modulation. *)
Definition fsm_cpm `{Libm} (P M L : Z) : fsm :=
  let I := M in
  let S := s32 (pow_int M (L - 1) * P) in
  fill_fsm I S (s32 (pow_int M L * P)) (fun s i =>
    let s1 := s / P in
    let v := s mod P in
    let ns1 := s32 (i * pow_int M (L - 1) + s1) / M in
    let nv := if L =? 1 then (i + v) mod P else (s1 mod M + v) mod P in
    (s32 (ns1 * P + nv), s32 (i * S + s))).

(** [fsm(FSM1, FSM2)]: both at once.  The products are [int]s. *)
Definition fsm_joint (F1 F2 : fsm) : fsm :=
  fill_fsm (s32 (d_I F1 * d_I F2)) (s32 (d_S F1 * d_S F2)) (s32 (d_O F1 * d_O F2)) (fun s i =>
    let s1 := s / d_S F2 in
    let s2 := s mod d_S F2 in
    let i1 := i / d_I F2 in
    let i2 := i mod d_I F2 in
    (s32 ((d_NS F1).[s32 (s1 * d_I F1 + i1)] * d_S F2 + (d_NS F2).[s32 (s2 * d_I F2 + i2)]),
     s32 ((d_OS F1).[s32 (s1 * d_I F1 + i1)] * d_O F2 + (d_OS F2).[s32 (s2 * d_I F2 + i2)]))).

(** [fsm(FSM, n)]: [n] stages at once. *)
Definition stages (F : fsm) (s : Z) (ii : list Z) : Z * list Z :=
  fold_left (fun '(ns, oo) i => ((d_NS F).[ns * d_I F + i], oo ++ [(d_OS F).[ns * d_I F + i]])) ii (s, []).

Definition fsm_radix `{Libm} (F : fsm) (n : nat) : fsm :=
  fill_fsm (pow_int (d_I F) (Z.of_nat n)) (d_S F) (pow_int (d_O F) (Z.of_nat n)) (fun s i =>
    let '(ns, oo) := stages F s (dec2base i (d_I F) n).1 in
    (ns, base2dec oo (d_O F))).

(** [fsm(k, n, G)]: a binary convolutional code. *)
Section Convolutional.
Context `{Libm} (k n : nat) (G : list Z).

Definition mem_of (g : Z) : Z := if negb (g =? 0) then log2_int g else -1.
Definition max_mem_x (i : Z) : Z :=
  fold_left (fun m j => if m <? mem_of G.[i * Z.of_nat n + j] then mem_of G.[i * Z.of_nat n + j] else m) (zseq 0 n) (-1).
Definition max_mem : Z := fold_left (fun m i => if m <? max_mem_x i then max_mem_x i else m) (zseq 0 k) (-1).
Definition sum_max_mem : Z := fold_left (fun m i => m + max_mem_x i) (zseq 0 k) 0.
Definition bases_x : list Z := map (fun j => 1 << max_mem_x j) (zseq 0 k).
Definition digits : nat := Z.to_nat (max_mem + 1).
Definition Gb : list (list Z) := map (fun j => (dec2base G.[j] 2 digits).1) (zseq 0 (k * n)).

(** The bits of the transition of each shift register, and an output bit. *)
Definition tx (inb sx : list Z) : list Z := map (fun j => inb.[j] * bases_x.[j] + sx.[j]) (zseq 0 k).
Definition output_bit (tb : list (list Z)) (nn : Z) : Z :=
  fold_left (fun o j =>
    fold_left (fun o m => (o + (Gb.[j * Z.of_nat n + nn] : list Z).[m] * (tb.[j] : list Z).[m]) mod 2) (zseq 0 digits) o)
    (zseq 0 k) 0.

Definition fsm_convolutional : fsm :=
  fill_fsm (1 << Z.of_nat k) (1 << sum_max_mem) (1 << Z.of_nat n) (fun s i =>
    let sx := (dec2bases s bases_x).1 in
    let inb := (dec2base i 2 k).1 in
    let nsx := map (fun j => (inb.[j] * bases_x.[j] + sx.[j]) / 2) (zseq 0 k) in
    let tb := map (fun t => (dec2base t 2 digits).1) (tx inb sx) in
    (bases2dec nsx bases_x, base2dec (map (output_bit tb) (zseq 0 n)) 2)).
End Convolutional.

(** ** Machines that are made right *)

(** The sizes of the tables, and the output symbols, are [int]s: [d_I*d_S] for the
    transitions, [d_S*d_S] for the ways from state to state. *)
Definition int_sizes (I S O : Z) : Prop := I * S < 2 ^ 31 /\ S * S < 2 ^ 31 /\ O < 2 ^ 31.

Record fsm_ok (F : fsm) : Prop := {
  ok_sizes : 0 < d_I F /\ 0 < d_S F;
  ok_int : int_sizes (d_I F) (d_S F) (d_O F);
  ok_lengths : Z.of_nat (length (d_NS F)) = d_I F * d_S F /\ Z.of_nat (length (d_OS F)) = d_I F * d_S F;
  ok_NS s i : 0 <= s < d_S F -> 0 <= i < d_I F -> 0 <= (d_NS F).[s * d_I F + i] < d_S F;
  ok_OS s i : 0 <= s < d_S F -> 0 <= i < d_I F -> 0 <= (d_OS F).[s * d_I F + i] < d_O F;
  ok_PS_PI : (d_PS F, d_PI F) = generate_PS_PI (d_I F) (d_S F) (d_NS F);
  ok_TM : (d_TMi F, d_TMl F) = (generate_TM (d_I F) (d_S F) (d_NS F)).1
}.

Lemma make_fsm_ok I S O NS OS : 0 < I -> 0 < S -> int_sizes I S O -> Z.of_nat (length NS) = I * S -> Z.of_nat (length OS) = I * S ->
  (forall s i, 0 <= s < S -> 0 <= i < I -> 0 <= NS.[s * I + i] < S /\ 0 <= OS.[s * I + i] < O) ->
  fsm_ok (make_fsm I S O NS OS).
Proof.
  intros HI HS Hint HN HO Hr. unfold make_fsm. destruct (generate_PS_PI I S NS) as [PS PI] eqn:Ep.
  destruct (generate_TM I S NS) as [[TMi TMl] cs] eqn:Et. split; cbn [d_I d_S d_O d_NS d_OS d_PS d_PI d_TMi d_TMl]; try done.
  - intros s i Hs Hi. by apply Hr.
  - intros s i Hs Hi. by apply Hr.
  - by rewrite Et.
Qed.

(** Filling by rows. *)
Lemma rows_get {A} `{Default A} (next : Z -> Z -> A) (I : Z) n s i : 0 <= s < Z.of_nat n -> 0 <= i < I ->
  (flat_map (fun s => map (next s) (zseq 0 (Z.to_nat I))) (zseq 0 n)).[s * I + i] = next s i.
Proof.
  intros Hs Hi. induction n as [|n IH]; [lia|]. assert (zseq 0 (S n) = zseq 0 n ++ [Z.of_nat n]) as -> by (unfold zseq; by rewrite seq_S, map_app).
  rewrite flat_map_app. cbn [flat_map]. rewrite app_nil_r. set (l := flat_map _ (zseq 0 n)) in *.
  assert (Z.of_nat (length l) = Z.of_nat n * I) as Hl.
  { subst l. clear IH Hs. induction n as [|n IHn]; [done|].
    assert (zseq 0 (S n) = zseq 0 n ++ [Z.of_nat n]) as -> by (unfold zseq; by rewrite seq_S, map_app).
    rewrite flat_map_app, length_app. cbn [flat_map]. rewrite app_nil_r, length_map, length_zseq. rewrite Nat2Z.inj_add, IHn. lia. }
  destruct (decide (s = Z.of_nat n)) as [->|].
  - rewrite aget_app_r by lia. rewrite Hl. replace (Z.of_nat n * I + i - Z.of_nat n * I) with i by lia. by rewrite map_zseq_get by lia.
  - rewrite aget_app_l by nia. apply IH. lia.
Qed.

Lemma rows_length {A} (next : Z -> Z -> A) (I S : Z) : 0 <= I -> 0 <= S ->
  Z.of_nat (length (flat_map (fun s => map (next s) (zseq 0 (Z.to_nat I))) (zseq 0 (Z.to_nat S)))) = I * S.
Proof.
  intros HI HS. rewrite <- (Z2Nat.id S HS) at 2. induction (Z.to_nat S) as [|n IH]; [cbn; lia|].
  assert (zseq 0 (Datatypes.S n) = zseq 0 n ++ [Z.of_nat n]) as -> by (unfold zseq; by rewrite seq_S, map_app).
  rewrite flat_map_app, length_app. cbn [flat_map]. rewrite app_nil_r, length_map, length_zseq. rewrite Nat2Z.inj_add, IH. lia.
Qed.

#[local] Instance Default_cell : Default (Z * Z) := (0, 0).

Lemma fill_get I S O next s i : 0 <= s < S -> 0 <= i < I ->
  (d_NS (fill_fsm I S O next)).[s * I + i] = (next s i).1 /\ (d_OS (fill_fsm I S O next)).[s * I + i] = (next s i).2.
Proof.
  intros Hs Hi. unfold fill_fsm, make_fsm. destruct (generate_PS_PI _ _ _) as [PS PI], (generate_TM _ _ _) as [[TMi TMl] cs].
  cbn [d_NS d_OS]. pose proof (rows_length next I S ltac:(lia) ltac:(lia)) as Hl.
  rewrite !(aget_map _ (flat_map _ _) (s * I + i)) by nia. rewrite rows_get by lia. done.
Qed.

Lemma fill_fields I S O next : d_I (fill_fsm I S O next) = I /\ d_S (fill_fsm I S O next) = S /\ d_O (fill_fsm I S O next) = O.
Proof. unfold fill_fsm, make_fsm. by destruct (generate_PS_PI _ _ _) as [PS PI], (generate_TM _ _ _) as [[TMi TMl] cs]. Qed.

Lemma fill_ok I S O next : 0 < I -> 0 < S -> int_sizes I S O ->
  (forall s i, 0 <= s < S -> 0 <= i < I -> 0 <= (next s i).1 < S /\ 0 <= (next s i).2 < O) -> fsm_ok (fill_fsm I S O next).
Proof.
  intros HI HS Hint Hn. unfold fill_fsm. cbv zeta. apply make_fsm_ok; [done|done|done| | |].
  - rewrite length_map. apply rows_length; lia.
  - rewrite length_map. apply rows_length; lia.
  - intros s i Hs Hi. pose proof (rows_length next I S ltac:(lia) ltac:(lia)) as Hl.
    rewrite !(aget_map _ (flat_map _ _) (s * I + i)) by nia. rewrite rows_get by lia. by apply Hn.
Qed.

(** ** Ways to make a machine *)

(** Several steps: the state, and the outputs. *)
Definition outputs (F : fsm) (s : Z) (ii : list Z) : list Z := (stages F s ii).2.

Lemma stages_acc F ii s oo : fold_left (fun '(ns, oo) i => ((d_NS F).[ns * d_I F + i], oo ++ [(d_OS F).[ns * d_I F + i]])) ii (s, oo) =
  ((stages F s ii).1, oo ++ (stages F s ii).2).
Proof.
  unfold stages. revert s oo. induction ii as [|i ii IH]; intros s oo; cbn [fold_left app]; [by rewrite app_nil_r|].
  rewrite IH, (IH _ [_]). cbn [fst snd]. by rewrite <- app_assoc.
Qed.

Lemma stages_cons F s i ii : stages F s (i :: ii) =
  ((stages F (d_NS F).[s * d_I F + i] ii).1, (d_OS F).[s * d_I F + i] :: (stages F (d_NS F).[s * d_I F + i] ii).2).
Proof. unfold stages at 1. cbn [fold_left app]. by rewrite stages_acc. Qed.

Lemma stages_run F s ii : (stages F s ii).1 = run (d_I F) (d_NS F) s ii.
Proof. revert s. induction ii as [|i ii IH]; intros s; [done|]. rewrite stages_cons. cbn [fst]. by rewrite IH. Qed.

Lemma stages_ok F s ii : fsm_ok F -> 0 <= s < d_S F -> inputs (d_I F) ii ->
  0 <= (stages F s ii).1 < d_S F /\ Forall (fun o => 0 <= o < d_O F) (stages F s ii).2 /\ length (stages F s ii).2 = length ii.
Proof.
  intros HF Hs Hii. revert s Hs. induction Hii as [|i ii Hi Hii IH]; intros s Hs; [done|]. rewrite stages_cons. cbn [fst snd length].
  destruct (IH _ (ok_NS F HF s i Hs Hi)) as (H1 & H2 & H3). split; [done|]. split; [|lia]. constructor; [|done]. by apply ok_OS.
Qed.

Lemma output_alphabet F : fsm_ok F -> 0 < d_O F.
Proof. intros HF. destruct (ok_sizes F HF). pose proof (ok_OS F HF 0 0 ltac:(lia) ltac:(lia)). lia. Qed.

Lemma pow_positive a b : 0 < a -> 0 <= b -> 0 < a ^ b.
Proof. intros. by apply Z.pow_pos_nonneg. Qed.

Lemma div_below a b c : 0 < c -> 0 <= a < b * c -> 0 <= a / c < b.
Proof. intros Hc Ha. split; [apply Z.div_pos; lia|]. apply Z.div_lt_upper_bound; lia. Qed.

Lemma int_id x : 0 <= x < 2 ^ 31 -> s32 x = x.
Proof. intros Hx. apply (sx_id 32); [lia|]. revert Hx. norm_pow. change (2 ^ (32 - 1)) with 2147483648. lia. Qed.

Section Made.
Context `{Libm}.

Lemma isi_ok mod_size ch_length : 0 < mod_size -> 0 < ch_length -> mod_size ^ ch_length < 2 ^ 31 ->
  mod_size ^ (ch_length - 1) * mod_size ^ (ch_length - 1) < 2 ^ 31 -> fsm_ok (fsm_isi mod_size ch_length).
Proof using Type.
  intros HM HL Hp Hsq. assert (mod_size ^ ch_length = mod_size ^ (ch_length - 1) * mod_size) as E.
  { rewrite <- (Z.pow_1_r mod_size) at 3. rewrite <- Z.pow_add_r by lia. f_equal. lia. }
  pose proof (pow_positive mod_size (ch_length - 1) HM ltac:(lia)) as Hs. unfold fsm_isi. cbv zeta.
  rewrite pow_int_spec by nia. rewrite (int_id (_ * mod_size)) by nia. apply fill_ok; [lia|done|split; [nia|split; [done|nia]]|].
  intros s i Hs' Hi. cbn [fst snd]. rewrite int_id by nia. split; [apply div_below; nia|nia].
Qed.

Lemma cpm_ok P M L : 0 < P -> 0 < M -> 0 < L -> M ^ L * P < 2 ^ 31 ->
  (M ^ (L - 1) * P) * (M ^ (L - 1) * P) < 2 ^ 31 -> fsm_ok (fsm_cpm P M L).
Proof using Type.
  intros HP HM HL Hp Hsq. assert (M ^ L = M ^ (L - 1) * M) as E.
  { rewrite <- (Z.pow_1_r M) at 3. rewrite <- Z.pow_add_r by lia. f_equal. lia. }
  pose proof (pow_positive M (L - 1) HM ltac:(lia)) as Hs. unfold fsm_cpm. cbv zeta.
  rewrite !pow_int_spec by nia. rewrite (int_id (M ^ (L - 1) * P)), (int_id (M ^ L * P)) by nia.
  apply fill_ok; [lia|nia|split; [nia|by split]|]. intros s i Hs' Hi. cbn [fst snd].
  pose proof (div_below s (M ^ (L - 1)) P HP Hs') as Hd. set (s1 := s / P) in *. set (v := s mod P).
  assert (0 <= (if L =? 1 then (i + v) mod P else (s1 mod M + v) mod P) < P) as Hnv by (case_if; apply Z.mod_pos_bound; lia).
  pose proof (div_below (i * M ^ (L - 1) + s1) (M ^ (L - 1)) M HM ltac:(nia)) as Hn.
  rewrite (int_id (i * M ^ (L - 1) + s1)) by nia. set (ns1 := (i * M ^ (L - 1) + s1) / M) in *.
  rewrite !int_id by nia. split; [nia|]. rewrite E. nia.
Qed.

(** What [fsm(FSM1, FSM2)] computes where the sizes are [int]s. *)
Definition joint_sizes (F1 F2 : fsm) : Prop := int_sizes (d_I F1 * d_I F2) (d_S F1 * d_S F2) (d_O F1 * d_O F2).

Lemma joint_fill F1 F2 : fsm_ok F1 -> fsm_ok F2 -> joint_sizes F1 F2 -> fsm_joint F1 F2 =
  fill_fsm (d_I F1 * d_I F2) (d_S F1 * d_S F2) (d_O F1 * d_O F2) (fun s i =>
    (s32 ((d_NS F1).[s32 (s / d_S F2 * d_I F1 + i / d_I F2)] * d_S F2 + (d_NS F2).[s32 (s mod d_S F2 * d_I F2 + i mod d_I F2)]),
     s32 ((d_OS F1).[s32 (s / d_S F2 * d_I F1 + i / d_I F2)] * d_O F2 + (d_OS F2).[s32 (s mod d_S F2 * d_I F2 + i mod d_I F2)]))).
Proof using Type.
  intros H1 H2 (HIS & HSS & HO). destruct (ok_sizes F1 H1), (ok_sizes F2 H2). pose proof (output_alphabet F1 H1). pose proof (output_alphabet F2 H2).
  unfold fsm_joint. rewrite !int_id; [done|nia|split; [nia|]|nia].
  apply Z.le_lt_trans with (d_S F1 * d_S F2 * (d_S F1 * d_S F2)); [nia|done].
Qed.

Lemma joint_entry F1 F2 s i : fsm_ok F1 -> fsm_ok F2 -> joint_sizes F1 F2 -> 0 <= s < d_S F1 * d_S F2 -> 0 <= i < d_I F1 * d_I F2 ->
  let n1 := (d_NS F1).[s / d_S F2 * d_I F1 + i / d_I F2] in let n2 := (d_NS F2).[s mod d_S F2 * d_I F2 + i mod d_I F2] in
  let o1 := (d_OS F1).[s / d_S F2 * d_I F1 + i / d_I F2] in let o2 := (d_OS F2).[s mod d_S F2 * d_I F2 + i mod d_I F2] in
  s32 (s / d_S F2 * d_I F1 + i / d_I F2) = s / d_S F2 * d_I F1 + i / d_I F2 /\
  s32 (s mod d_S F2 * d_I F2 + i mod d_I F2) = s mod d_S F2 * d_I F2 + i mod d_I F2 /\
  s32 (n1 * d_S F2 + n2) = n1 * d_S F2 + n2 /\ s32 (o1 * d_O F2 + o2) = o1 * d_O F2 + o2 /\
  0 <= n1 * d_S F2 + n2 < d_S F1 * d_S F2 /\ 0 <= o1 * d_O F2 + o2 < d_O F1 * d_O F2.
Proof using Type.
  intros H1 H2 (HIS & HSS & HO) Hs Hi. cbv zeta. destruct (ok_sizes F1 H1), (ok_sizes F2 H2).
  destruct (ok_int F1 H1) as (HF1 & _), (ok_int F2 H2) as (HF2 & _).
  pose proof (div_below s (d_S F1) (d_S F2) ltac:(done) ltac:(lia)) as Hs1. pose proof (Z.mod_pos_bound s (d_S F2) ltac:(done)) as Hs2.
  pose proof (div_below i (d_I F1) (d_I F2) ltac:(done) ltac:(lia)) as Hi1. pose proof (Z.mod_pos_bound i (d_I F2) ltac:(done)) as Hi2.
  pose proof (ok_NS F1 H1 _ _ Hs1 Hi1). pose proof (ok_NS F2 H2 _ _ Hs2 Hi2).
  pose proof (ok_OS F1 H1 _ _ Hs1 Hi1). pose proof (ok_OS F2 H2 _ _ Hs2 Hi2).
  set (n1 := (d_NS F1).[_]) in *. set (n2 := (d_NS F2).[_]) in *. set (o1 := (d_OS F1).[_]) in *. set (o2 := (d_OS F2).[_]) in *.
  set (s1 := s / d_S F2) in *. set (s2 := s mod d_S F2) in *. set (i1 := i / d_I F2) in *. set (i2 := i mod d_I F2) in *.
  assert (0 <= n1 * d_S F2 + n2 < d_S F1 * d_S F2) as Hn by nia. assert (0 <= o1 * d_O F2 + o2 < d_O F1 * d_O F2) as Ho by nia.
  assert (d_S F1 * d_S F2 <= d_S F1 * d_S F2 * (d_S F1 * d_S F2)) as Hsq by nia.
  split; [apply int_id; nia|]. split; [apply int_id; nia|]. split; [apply int_id; lia|]. split; [apply int_id; lia|]. done.
Qed.

Lemma joint_ok F1 F2 : fsm_ok F1 -> fsm_ok F2 -> joint_sizes F1 F2 -> fsm_ok (fsm_joint F1 F2).
Proof using Type.
  intros H1 H2 Hj. rewrite joint_fill by done. destruct (ok_sizes F1 H1), (ok_sizes F2 H2). apply fill_ok; [nia|nia|done|].
  intros s i Hs Hi. cbn [fst snd]. destruct (joint_entry F1 F2 s i H1 H2 Hj Hs Hi) as (-> & -> & -> & -> & Hn & Ho). done.
Qed.

(** What [fsm(FSM, n)] reads from its input. *)
Lemma radix_digits F n i : fsm_ok F -> d_I F ^ Z.of_nat n < 2 ^ 31 -> 0 <= i < d_I F ^ Z.of_nat n ->
  inputs (d_I F) (dec2base i (d_I F) n).1 /\ length (dec2base i (d_I F) n).1 = n.
Proof using Type.
  intros HF Hp Hi. destruct (ok_sizes F HF). destruct (dec2base_spec i (d_I F) n ltac:(lia) Hi ltac:(lia)) as (Q1 & Q2 & _). done.
Qed.

Lemma radix_ok F n : fsm_ok F -> d_I F ^ Z.of_nat n * d_S F < 2 ^ 31 -> d_O F ^ Z.of_nat n < 2 ^ 31 -> fsm_ok (fsm_radix F n).
Proof using Type.
  intros HF HIS HO. destruct (ok_sizes F HF) as [HI0 HS0]. pose proof (output_alphabet F HF). unfold fsm_radix.
  pose proof (pow_positive (d_I F) (Z.of_nat n) HI0 ltac:(lia)) as HIp. assert (d_I F ^ Z.of_nat n < 2 ^ 31) as HI by nia.
  destruct (ok_int F HF) as (_ & HSS & _). rewrite !pow_int_spec by lia. apply fill_ok; [lia|done|by split|]. intros s i Hs Hi.
  destruct (radix_digits F n i HF HI Hi) as [Hd Hl]. destruct (stages_ok F s _ HF Hs Hd) as (H1 & H2 & H3).
  destruct (stages F s _) as [ns oo]. cbn [fst snd] in *. split; [done|].
  assert (length oo = n) as Hn by congruence. rewrite <- Hn in *. apply base2dec_range; [done|lia].
Qed.
End Made.

(** ** Convolutional codes *)

Lemma max_fold (f : Z -> Z) (l : list Z) v : let m := fold_left (fun m x => if m <? f x then f x else m) l v in
  v <= m /\ (forall x, x ∈ l -> f x <= m) /\ (m = v \/ exists x, x ∈ l /\ m = f x).
Proof.
  cbv zeta. revert v. induction l as [|x l IH]; intros v; cbn [fold_left].
  { split; [lia|]. split; [intros x Hx; by apply elem_of_nil in Hx|by left]. }
  destruct (IH (if v <? f x then f x else v)) as (H1 & H2 & H3). set (m := fold_left _ l _) in *. case_if.
  - split; [lia|]. split; [intros y [->|Hy]%elem_of_cons; [lia|by apply H2]|]. right.
    destruct H3 as [E|(y & Hy & E)]; [exists x; split; [by left|done]|exists y; split; [by right|done]].
  - split; [lia|]. split; [intros y [->|Hy]%elem_of_cons; [lia|by apply H2]|].
    destruct H3 as [E|(y & Hy & E)]; [by left|right; exists y; split; [by right|done]].
Qed.

Section Code.
Context `{Libm} (k n : nat) (G : list Z).

(** No row is zero, and the sizes are [int]s. *)
Definition code_ok : Prop :=
  (forall j, 0 <= j < Z.of_nat k -> exists nn, 0 <= nn < Z.of_nat n /\ G.[j * Z.of_nat n + nn] <> 0) /\
  (forall i, 0 <= G.[i] < 2 ^ 31) /\ Z.of_nat k + sum_max_mem k n G < 31 /\ Z.of_nat n < 31 /\ length G = (k * n)%nat.

Hypothesis Hok : code_ok.

Abbreviation mem := (max_mem_x n G).

Lemma mem_of_range i : -1 <= mem_of G.[i] < 31 /\ G.[i] < 2 ^ (mem_of G.[i] + 1).
Proof using Hok.
  destruct Hok as (_ & Hr & _). specialize (Hr i). unfold mem_of. destruct (Z.eqb_spec G.[i] 0) as [->|]; cbn [negb]; [done|].
  rewrite log2_int_spec by lia. assert (0 < G.[i]) as Hpos by lia. pose proof (Z.log2_spec G.[i] Hpos) as [Hl1 Hl2]. pose proof (Z.log2_nonneg G.[i]).
  split; [|by rewrite Z.add_1_r]. split; [lia|]. apply Z.log2_lt_pow2; lia.
Qed.

Lemma mem_range j : 0 <= j < Z.of_nat k -> 0 <= mem j < 31 /\ forall nn, 0 <= nn < Z.of_nat n -> G.[j * Z.of_nat n + nn] < 2 ^ (mem j + 1).
Proof using Hok.
  intros Hj. unfold max_mem_x. destruct (max_fold (fun nn => mem_of G.[j * Z.of_nat n + nn]) (zseq 0 n) (-1)) as (H1 & H2 & H3).
  set (m := fold_left _ _ _) in *. split.
  - destruct Hok as (Hnz & Hr & _). destruct (Hnz j Hj) as (nn & Hnn & Hne). specialize (H2 nn ltac:(by apply zseq_elem)).
    cbv beta in H2. unfold mem_of in H2. rewrite (proj2 (Z.eqb_neq _ 0)) in H2 by done. cbn [negb] in H2. specialize (Hr (j * Z.of_nat n + nn)).
    rewrite log2_int_spec in H2 by lia. pose proof (Z.log2_nonneg G.[j * Z.of_nat n + nn]). split; [lia|].
    destruct H3 as [->|(x & _ & ->)]; [lia|]. apply mem_of_range.
  - intros nn Hnn. specialize (H2 nn ltac:(by apply zseq_elem)). cbv beta in H2.
    destruct (mem_of_range (j * Z.of_nat n + nn)) as [Hm1 Hm2]. eapply Z.lt_le_trans; [apply Hm2|]. apply Z.pow_le_mono_r; lia.
Qed.

Lemma max_mem_range j : 0 <= j < Z.of_nat k -> mem j <= max_mem k n G /\ max_mem k n G < 31.
Proof using Hok.
  intros Hj. unfold max_mem. destruct (max_fold mem (zseq 0 k) (-1)) as (H1 & H2 & H3). split; [apply H2; by apply zseq_elem|].
  destruct H3 as [->|(x & Hx%zseq_elem & ->)]; [lia|]. by apply mem_range.
Qed.

Lemma bases_get j : 0 <= j < Z.of_nat k -> (bases_x k n G).[j] = 2 ^ mem j.
Proof using Hok. intros Hj. unfold bases_x. rewrite map_zseq_get by done. rewrite Z.shiftl_1_l. done. Qed.

Lemma bases_pos : Forall (fun b => 0 < b) (bases_x k n G).
Proof using Hok.
  unfold bases_x. apply Forall_forall. intros b (j & <- & Hj%list_elem_of_In%zseq_elem)%list_elem_of_In%in_map_iff.
  rewrite Z.shiftl_1_l. apply pow_positive; [done|]. by apply mem_range.
Qed.

Lemma bases_prod : 0 <= sum_max_mem k n G /\ prod (bases_x k n G) = 2 ^ sum_max_mem k n G.
Proof using Hok.
  unfold sum_max_mem, bases_x. assert (forall c, (c <= k)%nat -> 0 <= fold_left (fun m i => m + mem i) (zseq 0 c) 0 /\
    prod (map (fun j => 1 << mem j) (zseq 0 c)) = 2 ^ fold_left (fun m i => m + mem i) (zseq 0 c) 0) as Hc; [|by apply Hc].
  induction c as [|c IH]; intros Hc; [done|]. destruct (IH ltac:(lia)) as [H1 H2].
  rewrite map_zseq_snoc. assert (zseq 0 (S c) = zseq 0 c ++ [Z.of_nat c]) as -> by (unfold zseq; by rewrite seq_S, map_app).
  rewrite fold_left_app. cbn [fold_left]. destruct (mem_range (Z.of_nat c) ltac:(lia)) as [Hm _]. split; [lia|].
  rewrite Z.pow_add_r by lia. rewrite <- H2, Z.shiftl_1_l. generalize (map (fun j => 1 << mem j) (zseq 0 c)) as l.
  intros l. unfold prod. rewrite foldr_app. cbn [foldr]. rewrite Z.mul_1_r.
  induction l as [|b l IHl]; cbn [foldr]; [lia|]. rewrite IHl. lia.
Qed.

(** One transition of one register. *)
Lemma top_bit b r m p : 0 <= r < 2 ^ m -> 0 <= m -> 0 <= p ->
  Z.testbit (Z.b2z b * 2 ^ m + r) p = if p <? m then Z.testbit r p else (p =? m) && b.
Proof using Type.
  intros Hr Hm Hp. rewrite <- lor_shl_add by done. rewrite Z.lor_spec, Z.shiftl_spec by done. destruct (Z.ltb_spec p m).
  - by rewrite (Z.testbit_neg_r _ (p - m)) by lia.
  - rewrite (high_bits r m p) by lia. rewrite orb_false_r. destruct (Z.eqb_spec p m) as [->|].
    + rewrite Z.sub_diag. by destruct b.
    + destruct b; [|by rewrite Z.bits_0]. change (Z.b2z true) with 1. apply (high_bits 1 1); lia.
Qed.

Lemma in_bases_map (f g : Z -> Z) c : (forall j, 0 <= j < Z.of_nat c -> 0 <= f j < g j) -> in_bases (map f (zseq 0 c)) (map g (zseq 0 c)).
Proof using Type.
  intros Hf. assert (forall a, (a <= c)%nat -> in_bases (map f (zseq 0 a)) (map g (zseq 0 a))) as Ha; [|by apply Ha].
  induction a as [|a IH]; intros Ha; [constructor|]. rewrite !map_zseq_snoc. apply Forall2_app; [apply IH; lia|].
  constructor; [apply Hf; lia|constructor].
Qed.

Lemma in_bases_get s bases j : in_bases s bases -> 0 <= j < Z.of_nat (length bases) -> 0 <= s.[j] < bases.[j].
Proof using Type.
  intros Hs Hj. pose proof (in_bases_length _ _ Hs) as Hl.
  destruct (lookup_lt_is_Some_2 s (Z.to_nat j) ltac:(lia)) as [d Hd]. destruct (lookup_lt_is_Some_2 bases (Z.to_nat j) ltac:(lia)) as [b Hb].
  rewrite (aget_lookup s j d), (aget_lookup bases j b) by (done || lia). exact (Forall2_lookup_lr _ _ _ _ _ _ Hs Hd Hb).
Qed.

Lemma parity_range c (f : Z -> Z) v : 0 <= v < 2 -> 0 <= fold_left (fun o m => (o + f m) mod 2) (zseq 0 c) v < 2.
Proof using Type.
  intros Hv. destruct c as [|c]; [done|]. assert (zseq 0 (S c) = zseq 0 c ++ [Z.of_nat c]) as -> by (unfold zseq; by rewrite seq_S, map_app).
  rewrite fold_left_app. cbn [fold_left]. by apply Z.mod_pos_bound.
Qed.

Lemma output_bit_sum tb nn : output_bit k n G tb nn =
  sum k (fun j => sum (digits k n G) (fun m => ((Gb k n G).[j * Z.of_nat n + nn] : list Z).[m] * (tb.[j] : list Z).[m])) mod 2.
Proof using Type.
  unfold output_bit. set (f := fun j m => ((Gb k n G).[j * Z.of_nat n + nn] : list Z).[m] * (tb.[j] : list Z).[m]).
  pose proof (parity_fold2 k (digits k n G) f 0) as E. rewrite Z.add_0_l in E. etransitivity; [|exact E]. symmetry. apply Z.mod_small.
  clear E. assert (forall v, 0 <= v < 2 -> 0 <= fold_left (fun o j => fold_left (fun o m => (o + f j m) mod 2) (zseq 0 (digits k n G)) o) (zseq 0 k) v < 2) as Hr;
    [|by apply Hr]. induction (zseq 0 k) as [|j l IH]; intros v Hv; [done|]. cbn [fold_left]. apply IH. by apply parity_range.
Qed.

Lemma convolutional_ok : sum_max_mem k n G <= 15 -> fsm_ok (fsm_convolutional k n G).
Proof using Hok.
  intros H15. destruct (bases_prod) as [Hs Hp]. destruct Hok as (_ & _ & Hk & Hn & _). unfold fsm_convolutional. cbv zeta. rewrite !Z.shiftl_1_l.
  assert (2 ^ sum_max_mem k n G < 2 ^ 32) as Hs32 by (apply Z.pow_lt_mono_r; lia).
  apply fill_ok; [apply pow_positive; lia|apply pow_positive; lia| |].
  { split; [rewrite <- Z.pow_add_r by lia; apply Z.pow_lt_mono_r; lia|].
    split; [rewrite <- Z.pow_add_r by lia; apply Z.pow_lt_mono_r; lia|apply Z.pow_lt_mono_r; lia]. }
  intros s i Hs' Hi. cbn [fst snd].
  assert (i < 2 ^ 32) as Hi32 by (eapply Z.lt_le_trans; [apply Hi|]; apply Z.pow_le_mono_r; lia).
  destruct (dec2bases_spec s (bases_x k n G) bases_pos ltac:(by rewrite Hp) ltac:(lia)) as (Hx & _).
  set (sx := (dec2bases s _).1) in *. split.
  - set (nsx := map _ _). assert (in_bases nsx (bases_x k n G)) as Hns.
    { unfold nsx, bases_x. apply in_bases_map. intros j Hj. fold (bases_x k n G).
      pose proof (in_bases_get _ _ j Hx ltac:(unfold bases_x; rewrite length_map, length_zseq; lia)) as Hg.
      rewrite (bases_get j Hj) in *. rewrite binary_get, Z.shiftl_1_l by lia. pose proof (pow_positive 2 (mem j)).
      destruct (mem_range j Hj) as [Hm _]. apply div_below; [lia|]. destruct (Z.testbit i _); cbn [Z.b2z]; lia. }
    rewrite <- Hp in *. rewrite bases2dec_value by (done || lia). by apply value_range.
  - assert (2 ^ Z.of_nat n < 2 ^ 31) as Hn31 by (apply Z.pow_lt_mono_r; lia).
    set (out := map _ (zseq 0 n)). assert (length out = n) as Hl by (unfold out; by rewrite length_map, length_zseq).
    rewrite <- Hl in Hn31 |- *. apply base2dec_range; [|lia]. apply Forall_forall. intros o (nn & <- & _)%list_elem_of_In%in_map_iff.
    rewrite output_bit_sum. by apply Z.mod_pos_bound.
Qed.

(** ** The code is a convolution *)

(** The bit for register [j] of an input. *)
Definition bit_of (j x : Z) : Z := Z.b2z (Z.testbit x (Z.of_nat k - 1 - j)).

(** Output bit [nn] at time [t]: each polynomial against the last inputs, the
    highest coefficient against the newest. *)
Definition conv_bit (xs : list Z) (t nn : Z) : Z :=
  sum k (fun j => sum (Z.to_nat (mem j + 1)) (fun d =>
    Z.b2z (Z.testbit G.[j * Z.of_nat n + nn] (mem j - d)) * bit_of j xs.[t - d])) mod 2.

(** The registers hold the last inputs. *)
Definition holds (s : Z) (xs : list Z) (t : Z) : Prop :=
  0 <= s < 2 ^ sum_max_mem k n G /\ forall j p, 0 <= j < Z.of_nat k -> 0 <= p < mem j ->
  Z.b2z (Z.testbit (dec2bases s (bases_x k n G)).1.[j] p) = bit_of j xs.[t - (mem j - p)].

Lemma conv_step s xs t : holds s xs t -> 0 <= t -> 0 <= xs.[t] < 2 ^ Z.of_nat k ->
  let F := fsm_convolutional k n G in
  (d_OS F).[s * d_I F + xs.[t]] = base2dec (map (conv_bit xs t) (zseq 0 n)) 2 /\
  holds (d_NS F).[s * d_I F + xs.[t]] xs (t + 1).
Proof using Hok.
  intros [Hs Hh] Ht Hx F. destruct bases_prod as [Hsum Hp]. pose proof Hok as (_ & HG & Hk & Hn & HlG).
  assert (2 ^ sum_max_mem k n G < 2 ^ 32) as Hs32 by (apply Z.pow_lt_mono_r; lia).
  assert (xs.[t] < 2 ^ 32) as Hi32 by (eapply Z.lt_le_trans; [apply Hx|]; apply Z.pow_le_mono_r; lia).
  assert (d_I F = 2 ^ Z.of_nat k) as EI.
  { unfold F, fsm_convolutional. rewrite (proj1 (fill_fields _ _ _ _)). apply Z.shiftl_1_l. }
  rewrite EI. unfold F, fsm_convolutional. rewrite !Z.shiftl_1_l.
  match goal with |- context [fill_fsm ?a ?b ?c ?f] => destruct (fill_get a b c f s xs.[t] Hs Hx) as [-> ->] end. cbv zeta. cbn [fst snd].
  destruct (dec2bases_spec s (bases_x k n G) bases_pos ltac:(by rewrite Hp) ltac:(lia)) as (Hsx & _).
  set (sx := (dec2bases s _).1) in *. set (inb := (dec2base xs.[t] 2 k).1).
  assert (forall j, 0 <= j < Z.of_nat k -> 0 <= sx.[j] < 2 ^ mem j /\ (tx k n G inb sx).[j] = bit_of j xs.[t] * 2 ^ mem j + sx.[j] /\
    forall p, 0 <= p <= mem j -> Z.b2z (Z.testbit (tx k n G inb sx).[j] p) = bit_of j xs.[t - (mem j - p)]) as Htx.
  { intros j Hj. pose proof (in_bases_get _ _ j Hsx ltac:(unfold bases_x; rewrite length_map, length_zseq; lia)) as Hg.
    rewrite (bases_get j Hj) in Hg. destruct (mem_range j Hj) as [Hm _].
    assert ((tx k n G inb sx).[j] = bit_of j xs.[t] * 2 ^ mem j + sx.[j]) as E.
    { unfold tx. rewrite map_zseq_get, (bases_get j Hj) by done. unfold inb. by rewrite binary_get by lia. }
    split; [done|]. split; [done|]. intros p Hpm. rewrite E. unfold bit_of at 1. rewrite top_bit by lia.
    destruct (Z.ltb_spec p (mem j)); [apply Hh; lia|]. replace p with (mem j) by lia. rewrite Z.eqb_refl, Z.sub_diag, Z.sub_0_r. done. }
  assert (length (tx k n G inb sx) = k) as Hltx by (unfold tx; by rewrite length_map, length_zseq).
  split.
  - f_equal. apply map_ext_in. intros nn Hnn%list_elem_of_In%zseq_elem. rewrite output_bit_sum. unfold conv_bit. f_equal.
    apply sum_ext. intros j Hj. destruct (Htx j Hj) as (Hsj & Etx & Hbits). destruct (mem_range j Hj) as [Hm HGj].
    destruct (max_mem_range j Hj) as [Hmm Hmm31]. set (g := fun p => Z.b2z (Z.testbit G.[j * Z.of_nat n + nn] p) * Z.b2z (Z.testbit (tx k n G inb sx).[j] p)).
    assert (0 <= (tx k n G inb sx).[j] < 2 ^ 32) as Htx32.
    { rewrite Etx. assert (2 ^ mem j <= 2 ^ 30) as H30 by (apply Z.pow_le_mono_r; lia). unfold bit_of. destruct (Z.testbit _ _); cbn [Z.b2z]; revert H30; norm_pow; lia. }
    transitivity (sum (digits k n G) g).
    { rewrite (sum_rev _ g). apply sum_ext. intros m Hm'. unfold Gb. rewrite map_zseq_get by nia. rewrite aget_map by lia.
      pose proof (HG (j * Z.of_nat n + nn)) as HGr. rewrite !binary_get by (done || lia). done. }
    unfold digits. rewrite (sum_zero_above _ (Z.to_nat (mem j + 1))); [|lia|].
    + rewrite sum_rev. apply sum_ext. intros d Hd. unfold g. rewrite Z2Nat.id in * by lia.
      replace (mem j + 1 - 1 - d) with (mem j - d) by lia. rewrite Hbits by lia.
      by replace (t - (mem j - (mem j - d))) with (t - d) by lia.
    + intros p Hp'. unfold g. rewrite (high_bits G.[_] (mem j + 1)); [done| |lia]. split; [apply HG|by apply HGj].
  - set (nsx := map _ (zseq 0 k)). assert (in_bases nsx (bases_x k n G)) as Hns.
    { unfold nsx, bases_x. apply in_bases_map. intros j Hj. fold (bases_x k n G). destruct (Htx j Hj) as (Hsj & Etx & _).
      unfold tx in Etx. rewrite map_zseq_get in Etx by done. rewrite Etx, Z.shiftl_1_l. destruct (mem_range j Hj) as [Hm _].
      pose proof (pow_positive 2 (mem j)). apply div_below; [lia|]. unfold bit_of. destruct (Z.testbit _ _); cbn [Z.b2z]; lia. }
    split; [rewrite <- Hp in *; rewrite bases2dec_value by (done || lia); by apply value_range|].
    intros j p Hj Hp'. rewrite digits_roundtrip by (done || lia). cbn [fst]. destruct (Htx j Hj) as (_ & _ & Hbits).
    assert (nsx.[j] = (tx k n G inb sx).[j] / 2) as -> by (unfold nsx, tx; by rewrite !map_zseq_get).
    rewrite Z.div2_bits by lia. rewrite Hbits by lia.
    by replace (t - (mem j - Z.succ p)) with (t + 1 - (mem j - p)) by lia.
Qed.

(** The machine puts out the code word of its input. *)
Lemma convolutional_outputs xs : Forall (fun x => 0 <= x < 2 ^ Z.of_nat k) xs ->
  outputs (fsm_convolutional k n G) 0 xs = map (fun t => base2dec (map (conv_bit xs t) (zseq 0 n)) 2) (zseq 0 (length xs)).
Proof using Hok.
  intros Hxs. set (F := fsm_convolutional k n G).
  assert (forall rest t s, xs = take t xs ++ rest -> (t + length rest = length xs)%nat -> holds s xs (Z.of_nat t) ->
    outputs F s rest = map (fun i => base2dec (map (conv_bit xs (Z.of_nat t + i)) (zseq 0 n)) 2) (zseq 0 (length rest))) as H0.
  { intros rest. induction rest as [|x rest IH]; intros t s Hsplit Hl Hh; [done|].
    assert (xs !! t = Some x) as Hx. { rewrite Hsplit. rewrite lookup_app_r by (rewrite length_take; lia).
      rewrite length_take. cbn [length] in Hl. by replace (t - t `min` length xs)%nat with 0%nat by lia. }
    assert (xs.[Z.of_nat t] = x) as Ex by (apply aget_lookup; [lia|by rewrite Nat2Z.id]).
    destruct (conv_step s xs (Z.of_nat t) Hh ltac:(lia)) as [Eo Hn].
    { rewrite Ex. exact (Forall_lookup_1 _ _ _ _ Hxs Hx). }
    fold F in Eo, Hn. rewrite Ex in Eo, Hn. unfold outputs. rewrite stages_cons. cbn [snd length]. rewrite map_zseq_S, Z.add_0_r, Eo. f_equal.
    fold (outputs F (d_NS F).[s * d_I F + x] rest). rewrite (IH (S t)).
    - apply map_ext. intros i. do 3 f_equal. lia.
    - rewrite (take_S_r _ _ x) by done. rewrite <- app_assoc. done.
    - cbn [length] in Hl. lia.
    - by rewrite Nat2Z.inj_succ, <- Z.add_1_r. }
  rewrite (H0 xs 0%nat 0); [done|done|done|]. destruct bases_prod as [Hsum Hp].
  pose proof (pow_positive 2 (sum_max_mem k n G) ltac:(done) Hsum). split; [lia|]. intros j p Hj Hp'.
  assert (xs.[Z.of_nat 0 - (mem j - p)] = 0) as -> by (unfold aget; by rewrite (proj2 (Z.ltb_lt _ _)) by lia).
  unfold bit_of. rewrite Z.bits_0. unfold dec2bases. change (u32 0) with 0.
  assert (fold_right (fun base '(s, n) => (n mod base :: s, n / base)) ([], 0) (bases_x k n G) = (replicate k 0, 0)) as ->.
  { assert (length (bases_x k n G) = k) as Hlb by (unfold bases_x; by rewrite length_map, length_zseq). rewrite <- Hlb at 2. pose proof bases_pos as Hbp.
    induction Hbp as [|b bs Hb Hbs IHb] in Hlb |- *; [done|]. cbn [fold_right length replicate].
    assert (fold_right (fun base '(s, n) => (n mod base :: s, n / base)) ([], 0) bs = (replicate (length bs) 0, 0)) as ->.
    { clear -Hbs. induction Hbs as [|b bs Hb Hbs IH]; [done|]. cbn [fold_right length replicate]. by rewrite IH, Z.mod_0_l, Z.div_0_l by lia. }
    by rewrite Z.mod_0_l, Z.div_0_l by lia. }
  cbn [fst]. unfold aget. rewrite (proj2 (Z.ltb_ge _ _)) by lia. rewrite lookup_replicate_2 by lia. cbn. by rewrite Z.bits_0.
Qed.
End Code.

(** ** All machines

    The machines that can be made, with what the sizes must satisfy. *)
Inductive made `{Libm} : fsm -> Prop :=
| made_tables I S O NS OS : 0 < I -> 0 < S -> int_sizes I S O -> Z.of_nat (length NS) = I * S -> Z.of_nat (length OS) = I * S ->
    (forall s i, 0 <= s < S -> 0 <= i < I -> 0 <= NS.[s * I + i] < S /\ 0 <= OS.[s * I + i] < O) -> made (make_fsm I S O NS OS)
| made_convolutional k n G : code_ok k n G -> sum_max_mem k n G <= 15 -> made (fsm_convolutional k n G)
| made_isi mod_size ch_length : 0 < mod_size -> 0 < ch_length -> mod_size ^ ch_length < 2 ^ 31 ->
    mod_size ^ (ch_length - 1) * mod_size ^ (ch_length - 1) < 2 ^ 31 -> made (fsm_isi mod_size ch_length)
| made_cpm P M L : 0 < P -> 0 < M -> 0 < L -> M ^ L * P < 2 ^ 31 -> (M ^ (L - 1) * P) * (M ^ (L - 1) * P) < 2 ^ 31 -> made (fsm_cpm P M L)
| made_joint F1 F2 : made F1 -> made F2 -> joint_sizes F1 F2 -> made (fsm_joint F1 F2)
| made_radix F n : made F -> d_I F ^ Z.of_nat n * d_S F < 2 ^ 31 -> d_O F ^ Z.of_nat n < 2 ^ 31 -> made (fsm_radix F n).

Lemma made_ok `{Libm} F : made F -> fsm_ok F.
Proof.
  intros HF. induction HF; [by apply make_fsm_ok|by apply convolutional_ok|by apply isi_ok|by apply cpm_ok|by apply joint_ok|by apply radix_ok].
Qed.

Lemma zip_projections {A B} (l : list (A * B)) : zip (map fst l) (map snd l) = l.
Proof. induction l as [|[a b] l IH]; [done|]. cbn. by rewrite IH. Qed.

Lemma generate_TM_tables I S NS : 0 < S -> I * S < 2 ^ 31 -> S * S < 2 ^ 31 ->
  (forall s i, 0 <= s < S -> 0 <= i < I -> 0 <= NS.[s * I + i] < S) ->
  let '(TMi, TMl, complaints) := generate_TM I S NS in tables I S NS S TMi TMl complaints.
Proof.
  intros HS HIS HSS HNS. rewrite (generate_TM_fits I S NS HS HIS HNS HSS).
  pose proof (tables_run I S NS HS HNS (Z.to_nat S) ltac:(lia)) as H. by rewrite Z2Nat.id in H by lia.
Qed.

(** C23. Every machine whose tables have no more cells than an [int] counts is made
    right, in whatever way: from tables, from the polynomials of a convolutional
    code, for interference between symbols, for phase modulation, from two
    machines, or as several stages of one.  Transitions
    and outputs are in range; [PS] and [PI] list the transitions into each state,
    each once; and the termination tables lead home: [TMl] is less than the number
    of states exactly if the end state can be reached, and then the inputs that [TMi]
    gives, one after the other, are [TMl] many and lead there. *)
Theorem machine_tables_right `{Libm} F : made F ->
  (forall s i, 0 <= s < d_S F -> 0 <= i < d_I F ->
    0 <= (d_NS F).[s * d_I F + i] < d_S F /\ 0 <= (d_OS F).[s * d_I F + i] < d_O F) /\
  (forall s', 0 <= s' < d_S F -> let PS := (d_PS F).[s'] in let PI := (d_PI F).[s'] in
    length PS = length PI /\ NoDup (zip PS PI) /\
    forall s i, (s, i) ∈ zip PS PI <-> 0 <= s < d_S F /\ 0 <= i < d_I F /\ (d_NS F).[s * d_I F + i] = s') /\
  (forall s es, 0 <= s < d_S F -> 0 <= es < d_S F -> let l := (d_TMl F).[s * d_S F + es] in
    (l < d_S F <-> reachable (d_I F) (d_NS F) s es) /\
    (l < d_S F -> let ii := way (d_I F) (d_S F) (d_NS F) (d_TMi F) (Z.to_nat l) s es in
       inputs (d_I F) ii /\ Z.of_nat (length ii) = l /\ run (d_I F) (d_NS F) s ii = es)).
Proof.
  intros HF%made_ok. destruct (ok_int F HF) as (HIS & HSS & _). pose proof (ok_PS_PI F HF) as EP. pose proof (ok_TM F HF) as ET. destruct (ok_sizes F HF) as [HI HS].
  rewrite (generate_PS_PI_fits _ _ _ HS HIS) in EP. split; [intros s i Hs Hi; split; [by apply ok_NS|by apply ok_OS]|]. split.
  - intros s' Hs' PS PI. apply (f_equal fst) in EP as EPS. apply (f_equal snd) in EP as EPI. unfold generate_PS_PI_Z in EPS, EPI. cbn [fst snd] in EPS, EPI.
    subst PS PI. rewrite EPS, EPI. rewrite !map_zseq_get by lia. rewrite !length_map, zip_projections.
    split; [done|]. split; [apply transitions_into_NoDup|]. intros s i. apply transitions_into_elem.
  - intros s es Hs He l. pose proof (generate_TM_tables (d_I F) (d_S F) (d_NS F) HS HIS HSS (ok_NS F HF)) as Ht.
    destruct (generate_TM _ _ _) as [[TMi TMl] cs]. cbn [fst] in ET. injection ET as EI EL.
    destruct (tb_done _ _ _ _ _ _ _ Ht es He) as (Hc & Hcm & _). subst l. rewrite EL, EI.
    pose proof (column_way _ _ _ (ok_NS F HF) es TMi TMl s Hc He Hs) as Hw. split; [|exact Hw]. split.
    + intros Hl. destruct (Hw Hl) as (H1 & _ & H2). by eexists.
    + intros Hr. by apply Hcm.
Qed.


(** ** The shortest way is not always found

    From state 2 two steps lead to state 4, through state 3; but in the first pass
    state 3 comes too late, and the table says three. *)
Definition ex_detour : fsm := make_fsm 2 5 1 [4; 4; 0; 0; 1; 3; 4; 4; 4; 4] (replicate 10 0).

Lemma way_not_shortest : (d_TMl ex_detour).[2 * 5 + 4] = 3 /\ run 2 (d_NS ex_detour) 2 [1; 0] = 4.
Proof. split; vm_compute; reflexivity. Qed.

(** A machine with one state is reported as disconnected. *)
Lemma single_state_complaint I NS : (generate_TM I 1 NS).2 = [0].
Proof. reflexivity. Qed.

(** With more states the reports are right. *)
Lemma complaints_spec I S NS es : 1 < S -> I * S < 2 ^ 31 -> S * S < 2 ^ 31 -> (forall s i, 0 <= s < S -> 0 <= i < I -> 0 <= NS.[s * I + i] < S) -> 0 <= es < S ->
  es ∈ (generate_TM I S NS).2 <-> exists s, 0 <= s < S /\ ~ reachable I NS s es.
Proof.
  intros HS HIS HSS HNS He. pose proof (generate_TM_tables I S NS ltac:(lia) HIS HSS HNS) as Ht. destruct (generate_TM I S NS) as [[TMi TMl] cs].
  destruct (tb_done _ _ _ _ _ _ _ Ht es He) as (Hc & Hcm & Hno & Hyes). cbn [snd]. split.
  - intros Hin. destruct (Hyes Hin HS) as (s & Hs & E). exists s. split; [done|]. intros Hr. specialize (Hcm s Hs Hr). lia.
  - intros (s & Hs & Hr). destruct (decide (es ∈ cs)) as [|Hn]; [done|]. exfalso. apply Hr.
    destruct (column_way _ _ _ HNS es TMi TMl s Hc He Hs (Hno Hn s Hs)) as (H1 & _ & H2). by eexists.
Qed.

(** ** Witnesses *)

Lemma ex_code_ok : code_ok 1 2 [5; 7].
Proof.
  split; [intros j Hj; exists 0; replace j with 0 by lia; by vm_compute|]. split; [|by vm_compute].
  intros i. apply aget_Forall_dflt; [|by vm_compute]. apply (bool_decide_unpack (Forall (fun g => 0 <= g < 2 ^ 31) [5; 7])). vm_compute. exact I.
Qed.


Definition ex_machine : fsm := fsm_joint (fsm_convolutional 1 2 [5; 7]) (fsm_radix (fsm_isi 2 2) 2).

Lemma ex_machine_made : made ex_machine.
Proof.
  apply made_joint; [apply made_convolutional; [apply ex_code_ok|by vm_compute]| |split; [|split]; by vm_compute].
  apply made_radix; [apply made_isi|..]; vm_compute; done.
Qed.

Lemma machine_tables_right_witness :
  run (d_I ex_machine) (d_NS ex_machine) 6 (way (d_I ex_machine) (d_S ex_machine) (d_NS ex_machine) (d_TMi ex_machine) 2 6 1) = 1.
Proof.
  destruct (machine_tables_right ex_machine ex_machine_made) as (_ & _ & H).
  destruct (H 6 1) as [_ Hw]; [vm_compute; split; congruence..|].
  apply Hw. vm_compute. reflexivity.
Defined.
