(* ===== verification/TrellisEncoder.v ===== *)
(** * Encoders and interleavers of [gr-trellis]

    [trellis_encoder_XX.cc.t], [trellis_pccc_encoder_XX.cc.t],
    [trellis_sccc_encoder_XX.cc.t], [interleaver.cc], [quicksort_index.cc] and
    [trellis_permutation.cc].  The templates are filled in with the types of the
    items: the conversion of an output is an argument. *)

From S2P Require Import Prelude.
From stdpp Require Import list.
From S2P Require Import Bits TrellisBase TrellisTables TrellisFsm.
#[local] Open Scope Z_scope.
#[local] Open Scope cint_scope.

(** ** [quicksort_index]: sorts [p], and permutes [index] in the same way *)

Definition SWAP {A} `{Default A} (l : list A) (i j : Z) : list A := l.[i <- l.[j]].[j <- l.[i]].

(** [do i++ while ((p[i] < pivot) && (i < right))], and the one for [j]. *)
Fixpoint scan_up (fuel : nat) (p : list Z) (pivot right i : Z) : Z :=
  let i := i + 1 in
  if (p.[i] <? pivot) && (i <? right) then match fuel with O => i | S fuel => scan_up fuel p pivot right i end else i.

Fixpoint scan_down (fuel : nat) (p : list Z) (pivot left j : Z) : Z :=
  let j := j - 1 in
  if (pivot <? p.[j]) && (left <? j) then match fuel with O => j | S fuel => scan_down fuel p pivot left j end else j.

(** [do ... while (i < j)]: the arrays and the last [j]. *)
Fixpoint scan_loop (fuel : nat) (p index : list Z) (pivot left right i j : Z) : option (list Z * list Z * Z) :=
  match fuel with
  | O => None
  | S fuel =>
      let i := scan_up (Z.to_nat (right - i)) p pivot right i in
      let j := scan_down (Z.to_nat (j - left)) p pivot left j in
      if i <? j then scan_loop fuel (SWAP p i j) (SWAP index i j) pivot left right i j
      else Some (p, index, j)
  end.

(** The first [fuel] bounds the depth of the recursion. *)
Fixpoint quicksort_index (fuel : nat) (p index : list Z) (left right : Z) : option (list Z * list Z) :=
  if left <? right then
    match fuel with
    | O => None
    | S fuel =>
        '(p, index, j) ← scan_loop (Z.to_nat (right - left + 1)) p index p.[left] left right left (right + 1);
        let p := SWAP p left j in
        let index := SWAP index left j in
        '(p, index) ← quicksort_index fuel p index left (j - 1);
        quicksort_index fuel p index (j + 1) right
    end
  else Some (p, index).

(** ** [class interleaver] *)

Record interleaver := { d_K : Z; d_INTER : list Z; d_DEINTER : list Z }.

(** [for i: d_DEINTER[d_INTER[i]] = i] over the zeros of [resize]. *)
Definition deinter (K : Z) (INTER : list Z) : list Z :=
  fold_left (fun d i => d.[INTER.[i] <- i]) (zseq 0 (Z.to_nat K)) (replicate (Z.to_nat K) 0).

Definition given_interleaver (K : Z) (INTER : list Z) : interleaver :=
  {| d_K := K; d_INTER := INTER; d_DEINTER := deinter K INTER |}.

(** [interleaver(K, seed)]; [random] are the values of [rand()]. *)
Definition random_interleaver (K : Z) (random : list Z) : option interleaver :=
  '(_, INTER) ← quicksort_index (Z.to_nat K) random (zseq 0 (Z.to_nat K)) 0 (K - 1);
  Some (given_interleaver K INTER).

(** ** [trellis_permutation]

    One stream; an item is [NBYTES_INOUT] bytes. *)
Definition permutation_work {A} `{Default A} (K : Z) (TABLE : list Z) (SYMS_PER_BLOCK : Z) (noutput_items : Z) (inp : list A) : list A :=
  flat_map (fun i =>
    let i0 := K * (i / K) in
    let j0 := i mod K in
    let k0 := TABLE.[j0] in
    map (fun m => inp.[(i0 + k0) * SYMS_PER_BLOCK + m]) (zseq 0 (Z.to_nat SYMS_PER_BLOCK)))
  (zseq 0 (Z.to_nat (noutput_items / SYMS_PER_BLOCK))).

(** ** Encoders *)

Section Encoders.
(** The conversion to the type of the output items. *)
Context (O_TYPE : Z -> Z).

(** A stream: the output and [ST_tmp]. *)
Definition encoder_stream (F : fsm) (ST : Z) (inp : list Z) : list Z * Z :=
  fold_left (fun '(out, ST) x =>
    (out ++ [O_TYPE (d_OS F).[ST * d_I F + x]], (d_NS F).[ST * d_I F + x])) inp ([], ST).

(** [work] of [trellis_encoder]: the outputs and [d_ST], which is what the last
    stream left. *)
Definition trellis_encoder_work (F : fsm) (d_ST : Z) (streams : list (list Z)) : list (list Z) * Z :=
  fold_left (fun '(outs, _) inp => let '(out, ST_tmp) := encoder_stream F d_ST inp in (outs ++ [out], ST_tmp)) streams ([], 0).

(** A block of [trellis_pccc_encoder]: two encoders side by side, the second on the
    interleaved block. *)
Definition pccc_block (F1 : fsm) (ST1 : Z) (F2 : fsm) (ST2 : Z) (INTER : list Z) (blocklength : nat) (inp : list Z) : list Z :=
  (fold_left (fun '(out, ST1, ST2) i =>
     let k := INTER.[i] in
     let o1 := (d_OS F1).[ST1 * d_I F1 + inp.[i]] in
     let ST1 := (d_NS F1).[ST1 * d_I F1 + inp.[i]] in
     let o2 := (d_OS F2).[ST2 * d_I F2 + inp.[k]] in
     let ST2 := (d_NS F2).[ST2 * d_I F2 + inp.[k]] in
     (out ++ [O_TYPE (o1 * d_O F1 + o2)], ST1, ST2)) (zseq 0 blocklength) ([], ST1, ST2)).1.1.

(** A block of [trellis_sccc_encoder]: one encoder behind the other. *)
Definition sccc_block (Fo : fsm) (STo : Z) (Fi : fsm) (STi : Z) (INTER : list Z) (blocklength : nat) (inp : list Z) : list Z :=
  let '(buffer, _) := fold_left (fun '(buffer, ST) i =>
    (buffer ++ [(d_OS Fo).[ST * d_I Fo + inp.[i]]], (d_NS Fo).[ST * d_I Fo + inp.[i]])) (zseq 0 blocklength) ([], STo) in
  (fold_left (fun '(out, ST) i =>
     let k := INTER.[i] in
     (out ++ [O_TYPE (d_OS Fi).[ST * d_I Fi + buffer.[k]]], (d_NS Fi).[ST * d_I Fi + buffer.[k]])) (zseq 0 blocklength) ([], STi)).1.

(** [for b: in = input_items[0] + b*d_blocklength]. *)
Definition blocks_work (block : list Z -> list Z) (blocklength : nat) (noutput_items : Z) (inp : list Z) : list Z :=
  flat_map (fun b => block (drop (b * blocklength) inp)) (seq 0 (Z.to_nat (noutput_items / Z.of_nat blocklength))).
End Encoders.

(** ** Sorting *)

Lemma SWAP_length {A} `{Default A} (l : list A) i j : length (SWAP l i j) = length l.
Proof. unfold SWAP. by rewrite !length_aset. Qed.

Lemma SWAP_get {A} `{Default A} (l : list A) i j m : 0 <= i < Z.of_nat (length l) -> 0 <= j < Z.of_nat (length l) -> 0 <= m ->
  (SWAP l i j).[m] = if m =? j then l.[i] else if m =? i then l.[j] else l.[m].
Proof.
  intros Hi Hj Hm. unfold SWAP. destruct (Z.eqb_spec m j) as [->|]; [by rewrite aget_aset_eq by (rewrite length_aset; lia)|].
  rewrite aget_aset_ne by lia. destruct (Z.eqb_spec m i) as [->|]; [by rewrite aget_aset_eq|by rewrite aget_aset_ne by lia].
Qed.

Lemma SWAP_Permutation {A} `{Default A} (l : list A) i j : 0 <= i < Z.of_nat (length l) -> 0 <= j < Z.of_nat (length l) -> SWAP l i j ≡ₚ l.
Proof.
  intros Hi Hj. apply Permutation_inj. split; [apply SWAP_length|].
  set (sw := fun m => if decide (m = Z.to_nat j) then Z.to_nat i else if decide (m = Z.to_nat i) then Z.to_nat j else m).
  exists sw. split.
  - intros a b. unfold sw. repeat destruct (decide _); lia.
  - intros m. destruct (decide (m < length l)%nat) as [Hm|Hm].
    + destruct (lookup_lt_is_Some_2 (SWAP l i j) m ltac:(by rewrite SWAP_length)) as [x Hx].
      assert (sw m < length l)%nat as Hsm by (unfold sw; repeat destruct (decide _); lia).
      destruct (lookup_lt_is_Some_2 l (sw m) Hsm) as [y Hy]. rewrite Hx, Hy. f_equal.
      transitivity ((SWAP l i j).[Z.of_nat m]); [symmetry; apply aget_lookup; [lia|by rewrite Nat2Z.id]|].
      rewrite SWAP_get by lia. assert (forall a, l !! Z.to_nat a = Some y -> 0 <= a -> l.[a] = y) as Hg by (intros a Ha H0; by apply aget_lookup).
      unfold sw in Hy. destruct (decide (m = Z.to_nat j)).
      { rewrite (proj2 (Z.eqb_eq _ _)) by lia. apply Hg; [done|lia]. }
      rewrite (proj2 (Z.eqb_neq _ j)) by lia. destruct (decide (m = Z.to_nat i)).
      { rewrite (proj2 (Z.eqb_eq _ _)) by lia. apply Hg; [done|lia]. }
      rewrite (proj2 (Z.eqb_neq _ i)) by lia. apply Hg; [by rewrite Nat2Z.id|lia].
    + rewrite !lookup_ge_None_2; [done| |rewrite SWAP_length; lia]. unfold sw. repeat destruct (decide _); lia.
Qed.

#[local] Instance Default_pair : Default (Z * Z) := (0, 0).

Lemma zip_get (p q : list Z) m : length p = length q -> (zip p q).[m] = (p.[m], q.[m]).
Proof.
  intros Hl. unfold aget. case_if; [done|]. rewrite lookup_zip_with.
  destruct (decide (Z.to_nat m < length p)%nat) as [Hm|Hm].
  - destruct (lookup_lt_is_Some_2 p _ Hm) as [x ->]. destruct (lookup_lt_is_Some_2 q (Z.to_nat m) ltac:(lia)) as [y ->]. done.
  - rewrite !lookup_ge_None_2 by lia. done.
Qed.

Lemma SWAP_zip (p q : list Z) i j : length p = length q -> 0 <= i -> 0 <= j -> zip (SWAP p i j) (SWAP q i j) = SWAP (zip p q) i j.
Proof.
  intros Hl Hi Hj. unfold SWAP. rewrite !zip_get by done. unfold aset. rewrite !(proj2 (Z.ltb_ge _ 0)) by lia. by rewrite !insert_zip_with.
Qed.

Lemma scan_up_spec fuel p pivot right i : i < right -> right - i <= Z.of_nat fuel + 1 ->
  let i' := scan_up fuel p pivot right i in
  i < i' <= right /\ (forall m, i < m < i' -> p.[m] < pivot) /\ (pivot <= p.[i'] \/ i' = right).
Proof.
  revert i. induction fuel as [|fuel IH]; intros i Hi Hf; cbn [scan_up]; cbv zeta.
  - case_if; [lia|]. split; [lia|]. split; [lia|]. destruct (Z.lt_ge_cases p.[i + 1] pivot); [right; lia|by left].
  - destruct (Z.ltb_spec p.[i + 1] pivot); cbn [andb]; [|split; [lia|]; split; [lia|by left]].
    destruct (Z.ltb_spec (i + 1) right); [|split; [lia|]; split; [lia|right; lia]].
    destruct (IH (i + 1) ltac:(lia) ltac:(lia)) as (H1 & H2 & H3). split; [lia|]. split; [|done].
    intros m Hm. destruct (decide (m = i + 1)) as [->|]; [done|]. apply H2. lia.
Qed.

Lemma scan_down_spec fuel p pivot left j : left < j -> j - left <= Z.of_nat fuel + 1 ->
  let j' := scan_down fuel p pivot left j in
  left <= j' < j /\ (forall m, j' < m < j -> pivot < p.[m]) /\ (p.[j'] <= pivot \/ j' = left).
Proof.
  revert j. induction fuel as [|fuel IH]; intros j Hj Hf; cbn [scan_down]; cbv zeta.
  - case_if; [lia|]. split; [lia|]. split; [lia|]. destruct (Z.lt_ge_cases pivot p.[j - 1]); [right; lia|by left].
  - destruct (Z.ltb_spec pivot p.[j - 1]); cbn [andb]; [|split; [lia|]; split; [lia|by left]].
    destruct (Z.ltb_spec left (j - 1)); [|split; [lia|]; split; [lia|right; lia]].
    destruct (IH (j - 1) ltac:(lia) ltac:(lia)) as (H1 & H2 & H3). split; [lia|]. split; [|done].
    intros m Hm. destruct (decide (m = j - 1)) as [->|]; [done|]. apply H2. lia.
Qed.

(** Both arrays are permuted in the same way, inside the bounds only. *)
Record permuted (left right : Z) (p index p' index' : list Z) : Prop := {
  pm_lengths : length p' = length p /\ length index' = length index;
  pm_zip : zip p' index' ≡ₚ zip p index;
  pm_outside m : 0 <= m -> ~ (left <= m <= right) -> p'.[m] = p.[m];
  pm_inside m : left <= m <= right -> exists m', left <= m' <= right /\ p'.[m] = p.[m']
}.

Lemma permuted_refl left right p index : permuted left right p index p index.
Proof. split; [done|done|done|]. intros m Hm. by exists m. Qed.

Lemma permuted_trans left right p1 x1 p2 x2 p3 x3 :
  permuted left right p1 x1 p2 x2 -> permuted left right p2 x2 p3 x3 -> permuted left right p1 x1 p3 x3.
Proof.
  intros [[L1 L2] H1 H2 H3] [[L3 L4] H4 H5 H6]. split; [lia|by etransitivity| |].
  - intros m Hm Ho. rewrite H5 by done. by apply H2.
  - intros m Hm. destruct (H6 m Hm) as (m' & Hm' & ->). destruct (H3 m' Hm') as (m'' & Hm'' & ->). by exists m''.
Qed.

Lemma permuted_SWAP left right p index i j : length p = length index -> 0 <= left -> right < Z.of_nat (length p) ->
  left <= i <= right -> left <= j <= right -> permuted left right p index (SWAP p i j) (SWAP index i j).
Proof.
  intros Hl H0 Hr Hi Hj. split.
  - by rewrite !SWAP_length.
  - rewrite SWAP_zip by (done || lia). apply SWAP_Permutation; rewrite length_zip_with; lia.
  - intros m Hm Ho. rewrite SWAP_get by lia. by rewrite !(proj2 (Z.eqb_neq _ _)) by lia.
  - intros m Hm. rewrite SWAP_get by lia. case_if; [by exists i|]. case_if; [by exists j|by exists m].
Qed.

(** A narrower change is a change. *)
Lemma permuted_wider left right left' right' p index p' index' : left' <= left -> right <= right' -> 0 <= left' ->
  permuted left right p index p' index' -> permuted left' right' p index p' index'.
Proof.
  intros Hl Hr H0 [L H1 H2 H3]. split; [done|done| |].
  - intros m Hm Ho. apply H2; lia.
  - intros m Hm. destruct (decide (left <= m <= right)) as [Hin|Hout].
    + destruct (H3 m Hin) as (m' & Hm' & E). exists m'. split; [lia|done].
    + exists m. split; [done|]. apply H2; lia.
Qed.

Lemma scan_loop_spec fuel p index pivot left right i j : length p = length index -> 0 <= left -> right < Z.of_nat (length p) ->
  left <= i -> i < right -> left < j -> i < j -> j <= right + 1 -> j - i <= Z.of_nat fuel -> p.[left] = pivot ->
  (forall m, left < m <= i -> p.[m] <= pivot) -> (forall m, j <= m <= right -> pivot <= p.[m]) ->
  exists p' index' j', scan_loop fuel p index pivot left right i j = Some (p', index', j') /\
    permuted left right p index p' index' /\ left <= j' <= right /\ p'.[left] = pivot /\
    (forall m, left < m <= j' -> p'.[m] <= pivot) /\ (forall m, j' < m <= right -> pivot <= p'.[m]).
Proof.
  revert p index i j. induction fuel as [|fuel IH]; intros p index i j Hl H0 Hr Hi Hir Hj Hij Hjr Hf Hp Hlow Hhigh; [lia|].
  cbn [scan_loop]. cbv zeta.
  destruct (scan_up_spec (Z.to_nat (right - i)) p pivot right i Hir ltac:(lia)) as (U1 & U2 & U3).
  destruct (scan_down_spec (Z.to_nat (j - left)) p pivot left j Hj ltac:(lia)) as (D1 & D2 & D3).
  set (i' := scan_up _ _ _ _ _) in *. set (j' := scan_down _ _ _ _ _) in *. destruct (Z.ltb_spec i' j') as [Hlt|Hge].
  - pose proof (permuted_SWAP left right p index i' j' Hl H0 Hr ltac:(lia) ltac:(lia)) as Hsw.
    destruct (IH (SWAP p i' j') (SWAP index i' j') i' j') as (p' & x' & j'' & E & Hpm & Hrest); try (rewrite ?SWAP_length; lia).
    + rewrite SWAP_get by lia. by rewrite !(proj2 (Z.eqb_neq _ _)) by lia.
    + intros m Hm. rewrite SWAP_get by lia. rewrite (proj2 (Z.eqb_neq m j')) by lia. case_if; [destruct D3; [done|lia]|].
      destruct (decide (m <= i)); [apply Hlow; lia|]. specialize (U2 m). lia.
    + intros m Hm. rewrite SWAP_get by lia. case_if; [destruct U3; [done|lia]|]. rewrite (proj2 (Z.eqb_neq m i')) by lia.
      destruct (decide (j <= m)); [apply Hhigh; lia|]. specialize (D2 m). lia.
    + exists p', x', j''. split; [done|]. split; [by eapply permuted_trans|done].
  - exists p, index, j'. split; [done|]. split; [apply permuted_refl|]. split; [lia|]. split; [done|]. split.
    + intros m Hm. destruct (decide (m <= i)); [apply Hlow; lia|]. destruct (decide (m < i')); [specialize (U2 m); lia|].
      assert (m = j') as -> by lia. destruct D3; lia.
    + intros m Hm. destruct (decide (j <= m)); [apply Hhigh; lia|]. specialize (D2 m). lia.
Qed.

Lemma quicksort_spec fuel p index left right : length p = length index -> 0 <= left -> right < Z.of_nat (length p) ->
  right - left < Z.of_nat fuel -> exists p' index', quicksort_index fuel p index left right = Some (p', index') /\
    permuted left right p index p' index' /\ forall m m', left <= m -> m <= m' -> m' <= right -> p'.[m] <= p'.[m'].
Proof.
  revert p index left right. induction fuel as [|fuel IH]; intros p index left right Hl H0 Hr Hf; cbn [quicksort_index].
  { rewrite (proj2 (Z.ltb_ge _ _)) by lia. exists p, index. split; [done|]. split; [apply permuted_refl|lia]. }
  destruct (Z.ltb_spec left right) as [Hlr|Hlr].
  2:{ exists p, index. split; [done|]. split; [apply permuted_refl|]. intros m m' H1 H2 H3. by replace m' with m by lia. }
  destruct (scan_loop_spec (Z.to_nat (right - left + 1)) p index p.[left] left right left (right + 1)) as (p1 & x1 & j & -> & Hpm & Hj & Hp1 & Hlow & Hhigh);
    try lia. rewrite some_bind. cbv beta iota zeta. set (pivot := p.[left]) in *.
  destruct (pm_lengths _ _ _ _ _ _ Hpm) as [L1 L2].
  pose proof (permuted_SWAP left right p1 x1 left j ltac:(lia) H0 ltac:(lia) ltac:(lia) ltac:(lia)) as Hsw.
  pose proof (permuted_trans _ _ _ _ _ _ _ _ Hpm Hsw) as Hpm2. destruct (pm_lengths _ _ _ _ _ _ Hpm2) as [L3 L4].
  set (p2 := SWAP p1 left j) in *. set (x2 := SWAP x1 left j) in *.
  assert (forall m, left <= m < j -> p2.[m] <= pivot) as Hlow2.
  { intros m Hm. unfold p2. rewrite SWAP_get by lia. rewrite (proj2 (Z.eqb_neq m j)) by lia. case_if; [apply Hlow; lia|apply Hlow; lia]. }
  assert (p2.[j] = pivot) as Hpj by (unfold p2; rewrite SWAP_get by lia; by rewrite Z.eqb_refl).
  assert (forall m, j < m <= right -> pivot <= p2.[m]) as Hhigh2.
  { intros m Hm. unfold p2. rewrite SWAP_get by lia. rewrite !(proj2 (Z.eqb_neq m _)) by lia. by apply Hhigh. }
  destruct (IH p2 x2 left (j - 1)) as (p3 & x3 & -> & Hpm3 & Hs3); [lia|lia|lia|lia|]. rewrite some_bind. cbv beta iota.
  destruct (pm_lengths _ _ _ _ _ _ Hpm3) as [L5 L6].
  destruct (IH p3 x3 (j + 1) right) as (p4 & x4 & -> & Hpm4 & Hs4); [lia|lia|lia|lia|].
  exists p4, x4. split; [done|]. split.
  { eapply permuted_trans; [exact Hpm2|]. eapply permuted_trans; [eapply (permuted_wider left (j - 1)); [..|exact Hpm3]; lia|].
    eapply (permuted_wider (j + 1) right); [..|exact Hpm4]; lia. }
  assert (forall m, left <= m < j -> p4.[m] = p3.[m] /\ p4.[m] <= pivot) as Q1.
  { intros m Hm. rewrite (pm_outside _ _ _ _ _ _ Hpm4) by lia. split; [done|].
    destruct (pm_inside _ _ _ _ _ _ Hpm3 m ltac:(lia)) as (m' & Hm' & ->). apply Hlow2. lia. }
  assert (p4.[j] = pivot) as Q2 by (rewrite (pm_outside _ _ _ _ _ _ Hpm4), (pm_outside _ _ _ _ _ _ Hpm3) by lia; done).
  assert (forall m, j < m <= right -> pivot <= p4.[m]) as Q3.
  { intros m Hm. destruct (pm_inside _ _ _ _ _ _ Hpm4 m ltac:(lia)) as (m' & Hm' & ->).
    rewrite (pm_outside _ _ _ _ _ _ Hpm3) by lia. apply Hhigh2. lia. }
  intros m m' H1 H2 H3. destruct (Z.lt_trichotomy m' j) as [Hlt|[->|Hgt]].
  - rewrite (proj1 (Q1 m ltac:(lia))), (proj1 (Q1 m' ltac:(lia))). apply Hs3; lia.
  - rewrite Q2. destruct (decide (m = j)) as [->|]; [lia|]. apply Q1. lia.
  - specialize (Q3 m' ltac:(lia)). destruct (Z.lt_trichotomy m j) as [Hm|[->|Hm]]; [pose proof (proj2 (Q1 m ltac:(lia))); lia|lia|apply Hs4; lia].
Qed.

(** ** Interleavers *)

Lemma deinter_run K INTER n : INTER ≡ₚ zseq 0 (Z.to_nat K) -> 0 <= K -> Z.of_nat n <= K ->
  let d := fold_left (fun d i => d.[INTER.[i] <- i]) (zseq 0 n) (replicate (Z.to_nat K) 0) in
  length d = Z.to_nat K /\ forall i, 0 <= i < Z.of_nat n -> d.[INTER.[i]] = i.
Proof.
  intros Hp HK. pose proof (Permutation_length Hp) as Hl. rewrite length_zseq in Hl.
  assert (forall i, 0 <= i < K -> 0 <= INTER.[i] < K) as Hr.
  { intros i Hi. assert (INTER.[i] ∈ zseq 0 (Z.to_nat K)) as Hin by (rewrite <- Hp; apply aget_elem; lia). apply zseq_elem in Hin. lia. }
  assert (NoDup INTER) as Hnd by (rewrite Hp; apply zseq_NoDup).
  induction n as [|n IH]; intros Hn; [cbn; rewrite length_replicate; split; [done|lia]|].
  assert (zseq 0 (S n) = zseq 0 n ++ [Z.of_nat n]) as -> by (unfold zseq; by rewrite seq_S, map_app).
  rewrite fold_left_app. cbn [fold_left]. destruct (IH ltac:(lia)) as [H1 H2]. set (d := fold_left _ (zseq 0 n) _) in *.
  rewrite length_aset. split; [done|]. intros i Hi. destruct (decide (i = Z.of_nat n)) as [->|].
  - specialize (Hr (Z.of_nat n) ltac:(lia)). by rewrite aget_aset_eq by lia.
  - pose proof (Hr (Z.of_nat n) ltac:(lia)). rewrite aget_aset_ne; [apply H2; lia|lia|]. intros E.
    destruct (lookup_lt_is_Some_2 INTER (Z.to_nat i) ltac:(lia)) as [x Hx]. destruct (lookup_lt_is_Some_2 INTER n ltac:(lia)) as [y Hy].
    rewrite (aget_lookup INTER i x), (aget_lookup INTER (Z.of_nat n) y) in E by (done || lia || by rewrite Nat2Z.id). subst y.
    pose proof (NoDup_lookup _ _ _ _ Hnd Hx Hy). lia.
Qed.

Lemma deinter_spec K INTER : INTER ≡ₚ zseq 0 (Z.to_nat K) -> 0 <= K -> length (deinter K INTER) = Z.to_nat K /\
  (forall i, 0 <= i < K -> 0 <= INTER.[i] < K /\ (deinter K INTER).[INTER.[i]] = i) /\
  (forall j, 0 <= j < K -> 0 <= (deinter K INTER).[j] < K /\ INTER.[(deinter K INTER).[j]] = j).
Proof.
  intros Hp HK. destruct (deinter_run K INTER (Z.to_nat K) Hp HK ltac:(lia)) as [H1 H2]. fold (deinter K INTER) in *.
  pose proof (Permutation_length Hp) as Hl. rewrite length_zseq in Hl. split; [done|]. split.
  - intros i Hi. split; [|apply H2; lia]. assert (INTER.[i] ∈ zseq 0 (Z.to_nat K)) as Hin by (rewrite <- Hp; apply aget_elem; lia).
    apply zseq_elem in Hin. lia.
  - intros j Hj. assert (j ∈ INTER) as (m & Hm)%list_elem_of_lookup_1 by (rewrite Hp; apply zseq_elem; lia).
    pose proof (lookup_lt_Some _ _ _ Hm) as Hml. assert (INTER.[Z.of_nat m] = j) as E by (apply aget_lookup; [lia|by rewrite Nat2Z.id]).
    rewrite <- E at 1 2 4. rewrite H2 by lia. rewrite E. split; [lia|]. rewrite <- E at 1. by rewrite H2 by lia.
Qed.

Section Permutation.
Context {A : Type} `{Default A} (K S : Z).
Hypothesis (HK : 0 < K) (HS : 0 < S).

Lemma permutation_length TABLE q (inp : list A) : 0 <= q ->
  Z.of_nat (length (permutation_work K TABLE S (q * K * S) inp)) = q * K * S.
Proof using HK HS.
  intros Hq. unfold permutation_work. rewrite Z.div_mul by lia.
  pose proof (rows_length (fun i m => inp.[(K * (i / K) + TABLE.[i mod K]) * S + m]) S (q * K) ltac:(lia) ltac:(nia)) as E. cbv beta in E. rewrite E. lia.
Qed.

Lemma permutation_get TABLE q (inp : list A) b j m : 0 <= b < q -> 0 <= j < K -> 0 <= m < S ->
  (permutation_work K TABLE S (q * K * S) inp).[(b * K + j) * S + m] = inp.[(b * K + TABLE.[j]) * S + m].
Proof using HK HS.
  intros Hb Hj Hm. unfold permutation_work. rewrite Z.div_mul by lia.
  pose proof (rows_get (fun i m => inp.[(K * (i / K) + TABLE.[i mod K]) * S + m]) S (Z.to_nat (q * K)) (b * K + j) m ltac:(nia) Hm) as E.
  cbv beta in E. rewrite E. rewrite <- (Z.div_unique_pos (b * K + j) K b j), <- (Z.mod_unique_pos (b * K + j) K b j) by lia.
  by rewrite (Z.mul_comm K b).
Qed.

(** Tables that undo each other do so on streams. *)
Lemma permutation_undone T1 T2 q (inp : list A) : 0 <= q -> Z.of_nat (length inp) = q * K * S ->
  (forall j, 0 <= j < K -> 0 <= T2.[j] < K /\ T1.[T2.[j]] = j) ->
  permutation_work K T2 S (q * K * S) (permutation_work K T1 S (q * K * S) inp) = inp.
Proof using HK HS.
  intros Hq Hl Ht. pose proof (permutation_length T1 q inp Hq) as L1. set (l1 := permutation_work K T1 _ _ inp) in *.
  pose proof (permutation_length T2 q l1 Hq) as L2. set (l2 := permutation_work K T2 _ _ l1) in *.
  etransitivity; [apply (list_as_map l2 (length inp)); lia|]. symmetry.
  etransitivity; [by apply (list_as_map inp (length inp))|]. symmetry. apply map_ext_in.
  intros x Hx%list_elem_of_In%zseq_elem. rewrite Hl in Hx.
  assert (exists b j m, 0 <= b < q /\ 0 <= j < K /\ 0 <= m < S /\ x = (b * K + j) * S + m) as (b & j & m & Hb & Hj & Hm & ->).
  { exists (x / S / K), (x / S mod K), (x mod S). pose proof (div_below x (q * K) S HS ltac:(lia)) as Hd.
    split; [apply div_below; lia|]. split; [by apply Z.mod_pos_bound|]. split; [by apply Z.mod_pos_bound|].
    pose proof (Z.div_mod x S ltac:(lia)). pose proof (Z.div_mod (x / S) K ltac:(lia)). nia. }
  destruct (Ht j Hj) as [Hr E]. unfold l2. rewrite permutation_get by done. unfold l1. rewrite permutation_get by done. by rewrite E.
Qed.
End Permutation.

(** C25. A random interleaver is an interleaver: whatever [rand()] returns, sorting
    ends with each position once, ordered by the random numbers; and the
    permutation block with the table [DEINTER] undoes the one with [INTER] on any
    whole number of packets, as well as the other way round. *)
Theorem random_interleaver_inverts {A} `{Default A} K random S q (inp : list A) : 0 < K -> 0 < S -> 0 <= q ->
  Z.of_nat (length random) = K -> Z.of_nat (length inp) = q * K * S ->
  exists i, random_interleaver K random = Some i /\ d_INTER i ≡ₚ zseq 0 (Z.to_nat K) /\
    (forall a b, 0 <= a -> a <= b -> b < K -> random.[(d_INTER i).[a]] <= random.[(d_INTER i).[b]]) /\
    permutation_work K (d_DEINTER i) S (q * K * S) (permutation_work K (d_INTER i) S (q * K * S) inp) = inp /\
    permutation_work K (d_INTER i) S (q * K * S) (permutation_work K (d_DEINTER i) S (q * K * S) inp) = inp.
Proof.
  intros HK HS Hq Hrand Hinp.
  destruct (quicksort_spec (Z.to_nat K) random (zseq 0 (Z.to_nat K)) 0 (K - 1)) as (p & INTER & E & Hpm & Hsorted); [rewrite length_zseq; lia|lia|lia|lia|].
  unfold random_interleaver. rewrite E, some_bind. eexists. split; [reflexivity|]. cbn [given_interleaver d_INTER d_DEINTER].
  destruct (pm_lengths _ _ _ _ _ _ Hpm) as [L1 L2]. rewrite length_zseq in L2. pose proof (pm_zip _ _ _ _ _ _ Hpm) as Hz.
  assert (INTER ≡ₚ zseq 0 (Z.to_nat K)) as Hperm.
  { apply (fmap_Permutation snd) in Hz. rewrite !snd_zip in Hz by (rewrite ?length_zseq; lia). exact Hz. }
  split; [done|]. destruct (deinter_spec K INTER Hperm ltac:(lia)) as (_ & H1 & H2). split.
  - intros a b Ha Hab Hb. assert (forall m, 0 <= m < K -> random.[INTER.[m]] = p.[m]) as Hm.
    { intros m Hm. assert ((p.[m], INTER.[m]) ∈ zip random (zseq 0 (Z.to_nat K))) as Hin.
      { rewrite <- Hz, <- zip_get by lia. apply aget_elem. rewrite length_zip_with. lia. }
      apply list_elem_of_lookup_1 in Hin as (c & Hc). apply lookup_zip_with_Some in Hc as (x & y & [= -> ->] & Hx & Hy).
      unfold zseq in Hy. rewrite list_lookup_fmap in Hy. apply fmap_Some in Hy as (c' & Hc' & ->). apply lookup_seq in Hc' as [-> _].
      apply aget_lookup; [lia|]. by rewrite Nat.add_0_l, Nat2Z.id. }
    rewrite !Hm by lia. apply Hsorted; lia.
  - split; [by apply permutation_undone|by apply permutation_undone].
Qed.

(** ** Encoders of composed machines *)

Lemma outputs_cons F s i ii : outputs F s (i :: ii) = (d_OS F).[s * d_I F + i] :: outputs F (d_NS F).[s * d_I F + i] ii.
Proof. unfold outputs. by rewrite stages_cons. Qed.

Lemma outputs_app F s ii jj : outputs F s (ii ++ jj) = outputs F s ii ++ outputs F (run (d_I F) (d_NS F) s ii) jj.
Proof. revert s. induction ii as [|i ii IH]; intros s; [done|]. cbn [app]. by rewrite !outputs_cons, IH. Qed.

Lemma outputs_length F s ii : length (outputs F s ii) = length ii.
Proof. revert s. induction ii as [|i ii IH]; intros s; [done|]. rewrite outputs_cons. cbn [length]. by rewrite IH. Qed.

Lemma run_app I NS s ii jj : run I NS s (ii ++ jj) = run I NS (run I NS s ii) jj.
Proof. apply fold_left_app. Qed.

Section Composed.
Context `{Libm}.

Lemma joint_cell F1 F2 s x : fsm_ok F1 -> fsm_ok F2 -> joint_sizes F1 F2 ->
  0 <= s < d_S F1 * d_S F2 -> 0 <= x < d_I F1 * d_I F2 ->
  (d_NS (fsm_joint F1 F2)).[s * (d_I F1 * d_I F2) + x] =
    (d_NS F1).[s / d_S F2 * d_I F1 + x / d_I F2] * d_S F2 + (d_NS F2).[s mod d_S F2 * d_I F2 + x mod d_I F2] /\
  (d_OS (fsm_joint F1 F2)).[s * (d_I F1 * d_I F2) + x] =
    (d_OS F1).[s / d_S F2 * d_I F1 + x / d_I F2] * d_O F2 + (d_OS F2).[s mod d_S F2 * d_I F2 + x mod d_I F2].
Proof using Type.
  intros H1 H2 Hj Hs Hx. rewrite joint_fill by done. rewrite !(fun f => proj1 (fill_get _ _ _ f s x Hs Hx)), !(fun f => proj2 (fill_get _ _ _ f s x Hs Hx)).
  cbn [fst snd]. by destruct (joint_entry F1 F2 s x H1 H2 Hj Hs Hx) as (-> & -> & -> & -> & _).
Qed.

Lemma joint_outputs F1 F2 s xs : fsm_ok F1 -> fsm_ok F2 -> joint_sizes F1 F2 -> 0 <= s < d_S F1 * d_S F2 -> inputs (d_I F1 * d_I F2) xs ->
  outputs (fsm_joint F1 F2) s xs =
  zip_with (fun o1 o2 => o1 * d_O F2 + o2) (outputs F1 (s / d_S F2) (map (fun x => x / d_I F2) xs))
    (outputs F2 (s mod d_S F2) (map (fun x => x mod d_I F2) xs)).
Proof using Type.
  intros H1 H2 Hj Hs Hxs. destruct (ok_sizes F1 H1) as [HI1 HS1], (ok_sizes F2 H2) as [HI2 HS2].
  revert s Hs. induction Hxs as [|x xs Hx Hxs IH]; intros s Hs; [done|]. cbn [map]. rewrite !outputs_cons. cbn [zip_with].
  assert (d_I (fsm_joint F1 F2) = d_I F1 * d_I F2) as EI by (rewrite joint_fill by done; by rewrite (proj1 (fill_fields _ _ _ _))). rewrite EI.
  destruct (joint_cell F1 F2 s x H1 H2 Hj Hs Hx) as [-> ->].
  pose proof (div_below s (d_S F1) (d_S F2) HS2 Hs) as Hs1. pose proof (Z.mod_pos_bound s (d_S F2) HS2) as Hs2.
  pose proof (div_below x (d_I F1) (d_I F2) HI2 Hx) as Hx1. pose proof (Z.mod_pos_bound x (d_I F2) HI2) as Hx2.
  pose proof (ok_NS F1 H1 _ _ Hs1 Hx1) as Hn1. pose proof (ok_NS F2 H2 _ _ Hs2 Hx2) as Hn2.
  set (n1 := (d_NS F1).[_]) in *. set (n2 := (d_NS F2).[_]) in *. f_equal. rewrite IH by nia.
  by rewrite <- (Z.div_unique_pos (n1 * d_S F2 + n2) (d_S F2) n1 n2), <- (Z.mod_unique_pos (n1 * d_S F2 + n2) (d_S F2) n1 n2) by lia.
Qed.

Lemma radix_cell F n s x : 0 <= d_I F -> 0 <= d_O F -> d_I F ^ Z.of_nat n < 2 ^ 31 -> d_O F ^ Z.of_nat n < 2 ^ 31 ->
  0 <= s < d_S F -> 0 <= x < d_I F ^ Z.of_nat n ->
  let '(ns, os) := stages F s (dec2base x (d_I F) n).1 in
  d_I (fsm_radix F n) = d_I F ^ Z.of_nat n /\
  (d_NS (fsm_radix F n)).[s * d_I F ^ Z.of_nat n + x] = ns /\
  (d_OS (fsm_radix F n)).[s * d_I F ^ Z.of_nat n + x] = base2dec os (d_O F).
Proof using Type.
  intros HI0 HO0 HI HO Hs Hx. unfold fsm_radix. rewrite !pow_int_spec by lia.
  match goal with |- context [fill_fsm ?a ?b ?c ?f] =>
    destruct (fill_get a b c f s x Hs Hx) as [E1 E2]; pose proof (proj1 (fill_fields a b c f)) as E3 end.
  rewrite E1, E2, E3. cbv beta. by destruct (stages F s (dec2base x (d_I F) n).1).
Qed.

Lemma radix_outputs F n s xs : fsm_ok F -> d_I F ^ Z.of_nat n < 2 ^ 31 -> d_O F ^ Z.of_nat n < 2 ^ 31 -> 0 <= s < d_S F ->
  inputs (d_I F ^ Z.of_nat n) xs ->
  mjoin (map (fun o => (dec2base o (d_O F) n).1) (outputs (fsm_radix F n) s xs)) =
  outputs F s (mjoin (map (fun x => (dec2base x (d_I F) n).1) xs)).
Proof using Type.
  intros HF HI HO Hs Hxs. pose proof (output_alphabet F HF) as HO0. destruct (ok_sizes F HF) as [HI0 HS0].
  revert s Hs. induction Hxs as [|x xs Hx Hxs IH]; intros s Hs; [done|]. rewrite outputs_cons. cbn [map]. rewrite !join_cons, outputs_app.
  destruct (radix_digits F n x HF HI Hx) as [Hd Hl]. pose proof (radix_cell F n s x ltac:(lia) ltac:(lia) HI HO Hs Hx) as Ec.
  set (dd := (dec2base x (d_I F) n).1) in *.
  destruct (stages_ok F s dd HF Hs Hd) as (Hns & Hoo & Hlo). pose proof (stages_run F s dd) as Er.
  change (outputs F s dd) with (stages F s dd).2. destruct (stages F s dd) as [ns oo]. cbn [fst snd] in *. destruct Ec as (-> & -> & ->).
  rewrite <- Er, IH by done. f_equal. assert (length oo = n) as Hn by congruence.
  rewrite dec2base_bases, base2dec_bases, Hn. rewrite digits_roundtrip; [done|rewrite <- Hn; by apply in_replicate|].
  rewrite prod_replicate. lia.
Qed.
End Composed.

(** C34. Composed machines encode as their parts do, where their tables have no more
    cells and output symbols than an [int] counts.  The machine made of two gives
    pairs of the outputs of both on the parts of its input; the machine made of [n]
    stages of one, its outputs written out in digits, gives the outputs of the one on
    the digits of its input. *)
Theorem composed_machines_encode `{Libm} F1 F2 n : made F1 -> made F2 ->
  (joint_sizes F1 F2 -> forall s xs, 0 <= s < d_S F1 * d_S F2 -> inputs (d_I F1 * d_I F2) xs ->
    outputs (fsm_joint F1 F2) s xs =
    zip_with (fun o1 o2 => o1 * d_O F2 + o2) (outputs F1 (s / d_S F2) (map (fun x => x / d_I F2) xs))
      (outputs F2 (s mod d_S F2) (map (fun x => x mod d_I F2) xs))) /\
  (d_I F1 ^ Z.of_nat n * d_S F1 < 2 ^ 31 -> d_O F1 ^ Z.of_nat n < 2 ^ 31 -> forall s xs, 0 <= s < d_S F1 -> inputs (d_I F1 ^ Z.of_nat n) xs ->
    mjoin (map (fun o => (dec2base o (d_O F1) n).1) (outputs (fsm_radix F1 n) s xs)) =
    outputs F1 s (mjoin (map (fun x => (dec2base x (d_I F1) n).1) xs))).
Proof.
  intros H1%made_ok H2%made_ok. split; [by intros; apply joint_outputs|]. intros HI HO s xs Hs Hxs. destruct (ok_sizes F1 H1) as [HI1 HS1].
  apply radix_outputs; try done. pose proof (pow_positive (d_I F1) (Z.of_nat n) HI1 ltac:(lia)). nia.
Qed.

(** ** The encoder blocks *)

Section Blocks.
Context (O_TYPE : Z -> Z).

Lemma encoder_stream_spec F ST inp : encoder_stream O_TYPE F ST inp = (map O_TYPE (outputs F ST inp), run (d_I F) (d_NS F) ST inp).
Proof using Type.
  unfold encoder_stream. assert (forall out, fold_left (fun '(out, ST) x =>
    (out ++ [O_TYPE (d_OS F).[ST * d_I F + x]], (d_NS F).[ST * d_I F + x])) inp (out, ST) =
    (out ++ map O_TYPE (outputs F ST inp), run (d_I F) (d_NS F) ST inp)) as E; [|by rewrite E].
  revert ST. induction inp as [|x inp IH]; intros ST out; [cbn; by rewrite app_nil_r|]. cbn [fold_left]. rewrite IH, outputs_cons.
  cbn [map]. by rewrite <- app_assoc.
Qed.

Lemma encoder_work_single F ST inp :
  trellis_encoder_work O_TYPE F ST [inp] = ([map O_TYPE (outputs F ST inp)], run (d_I F) (d_NS F) ST inp).
Proof using Type. unfold trellis_encoder_work. cbn [fold_left app]. by rewrite encoder_stream_spec. Qed.

(** One stream, through any calls. *)
Lemma encoder_calls F ST calls : fold_left (fun '(out, ST) inp =>
    let '(outs, ST) := trellis_encoder_work O_TYPE F ST [inp] in (out ++ mjoin outs, ST)) calls ([], ST) =
  (map O_TYPE (outputs F ST (mjoin calls)), run (d_I F) (d_NS F) ST (mjoin calls)).
Proof using Type.
  assert (forall out, fold_left (fun '(out, ST) inp =>
    let '(outs, ST) := trellis_encoder_work O_TYPE F ST [inp] in (out ++ mjoin outs, ST)) calls (out, ST) =
    (out ++ map O_TYPE (outputs F ST (mjoin calls)), run (d_I F) (d_NS F) ST (mjoin calls))) as E; [|by rewrite E].
  revert ST. induction calls as [|inp calls IH]; intros ST out; [cbn; by rewrite app_nil_r|]. cbn [fold_left].
  rewrite encoder_work_single, IH, !join_cons, outputs_app, run_app, map_app. cbn [mjoin list_join]. by rewrite app_nil_r, <- app_assoc.
Qed.

(** An encoder that takes its items at positions. *)
Lemma indexed_stream {A} (f g : A -> Z -> A) (l : list Z) n v : length l = n ->
  (forall a i, 0 <= i < Z.of_nat n -> g a i = f a l.[i]) -> fold_left g (zseq 0 n) v = fold_left f l v.
Proof using Type.
  intros Hl Hg. transitivity (fold_left f (map (fun i => l.[i]) (zseq 0 n)) v); [|by rewrite <- (list_as_map l n Hl)].
  assert (forall i, i ∈ zseq 0 n -> 0 <= i < Z.of_nat n) as Hk by (intros i Hi%zseq_elem; lia).
  revert Hk v. generalize (zseq 0 n) as k. intros k. induction k as [|i k IH]; intros Hk v; [done|].
  cbn [map fold_left]. rewrite Hg by (apply Hk; by left). apply IH. intros j Hj. apply Hk. by right.
Qed.

Definition interleave (INTER l : list Z) : list Z := map (fun k => l.[k]) INTER.

Lemma interleave_get INTER l i : 0 <= i < Z.of_nat (length INTER) -> (interleave INTER l).[i] = l.[INTER.[i]].
Proof using Type. intros Hi. unfold interleave. by rewrite aget_map. Qed.

Lemma stream_stages F ST inp : fold_left (fun '(buffer, ST) x => (buffer ++ [(d_OS F).[ST * d_I F + x]], (d_NS F).[ST * d_I F + x])) inp ([], ST) =
  (outputs F ST inp, run (d_I F) (d_NS F) ST inp).
Proof using Type.
  assert (forall out, fold_left (fun '(buffer, ST) x => (buffer ++ [(d_OS F).[ST * d_I F + x]], (d_NS F).[ST * d_I F + x])) inp (out, ST) =
    (out ++ outputs F ST inp, run (d_I F) (d_NS F) ST inp)) as E; [|by rewrite E].
  revert ST. induction inp as [|x inp IH]; intros ST out; [cbn; by rewrite app_nil_r|]. cbn [fold_left]. by rewrite IH, outputs_cons, <- app_assoc.
Qed.

(** Serial concatenation: the outer encoder, the interleaver, the inner encoder. *)
Lemma sccc_block_spec Fo STo Fi STi INTER n inp : length inp = n -> length INTER = n ->
  sccc_block O_TYPE Fo STo Fi STi INTER n inp = map O_TYPE (outputs Fi STi (interleave INTER (outputs Fo STo inp))).
Proof using Type.
  intros Hl HI. unfold sccc_block.
  rewrite (indexed_stream (fun '(buffer, ST) x => (buffer ++ [(d_OS Fo).[ST * d_I Fo + x]], (d_NS Fo).[ST * d_I Fo + x])) _ inp n)
    by (done || by intros []).
  rewrite stream_stages. set (buffer := outputs Fo STo inp).
  rewrite (indexed_stream (fun '(out, ST) x => (out ++ [O_TYPE (d_OS Fi).[ST * d_I Fi + x]], (d_NS Fi).[ST * d_I Fi + x])) _
    (interleave INTER buffer) n).
  - fold (encoder_stream O_TYPE Fi STi (interleave INTER buffer)). by rewrite encoder_stream_spec.
  - unfold interleave. by rewrite length_map.
  - intros [out ST] i Hi. by rewrite interleave_get by lia.
Qed.

(** Parallel concatenation: both encoders, the second on the interleaved block; the
    outputs are packed with the size of the first alphabet. *)
Lemma pccc_block_spec F1 ST1 F2 ST2 INTER n inp : length inp = n -> length INTER = n ->
  pccc_block O_TYPE F1 ST1 F2 ST2 INTER n inp =
  zip_with (fun o1 o2 => O_TYPE (o1 * d_O F1 + o2)) (outputs F1 ST1 inp) (outputs F2 ST2 (interleave INTER inp)).
Proof using Type.
  intros Hl HI. transitivity (zip_with (fun o1 o2 => O_TYPE (o1 * d_O F1 + o2)) (outputs F1 ST1 (map (fun i => inp.[i]) (zseq 0 n)))
    (outputs F2 ST2 (map (fun i => inp.[INTER.[i]]) (zseq 0 n)))).
  - unfold pccc_block. set (g := fun '(_, _, _) _ => _). enough (forall out, (fold_left g (zseq 0 n) (out, ST1, ST2)).1.1 =
      out ++ zip_with (fun o1 o2 => O_TYPE (o1 * d_O F1 + o2)) (outputs F1 ST1 (map (fun i => inp.[i]) (zseq 0 n)))
        (outputs F2 ST2 (map (fun i => inp.[INTER.[i]]) (zseq 0 n)))) as E by apply E.
    generalize (zseq 0 n) as k. intros k. revert ST1 ST2. induction k as [|i k IH]; intros ST1 ST2 out; [cbn; by rewrite app_nil_r|].
    cbn [fold_left map]. rewrite !outputs_cons. cbn [zip_with]. change (g (out, ST1, ST2) i) with
      (out ++ [O_TYPE ((d_OS F1).[ST1 * d_I F1 + inp.[i]] * d_O F1 + (d_OS F2).[ST2 * d_I F2 + inp.[INTER.[i]]])],
       (d_NS F1).[ST1 * d_I F1 + inp.[i]], (d_NS F2).[ST2 * d_I F2 + inp.[INTER.[i]]]).
    by rewrite IH, <- app_assoc.
  - rewrite <- (list_as_map inp n Hl). do 2 f_equal. unfold interleave. symmetry. etransitivity; [apply f_equal, (list_as_map INTER n HI)|]. by rewrite map_map.
Qed.
End Blocks.

(** ** What the packing and the state keep

    With equal alphabets both outputs can be read off the packed ones. *)
Lemma pccc_parts F1 F2 o1 o2 : d_O F1 = d_O F2 -> 0 <= o2 < d_O F2 ->
  (o1 * d_O F1 + o2) / d_O F2 = o1 /\ (o1 * d_O F1 + o2) mod d_O F2 = o2.
Proof.
  intros -> Ho. by rewrite <- (Z.div_unique_pos (o1 * d_O F2 + o2) (d_O F2) o1 o2),
    <- (Z.mod_unique_pos (o1 * d_O F2 + o2) (d_O F2) o1 o2) by lia.
Qed.

(** With a larger second alphabet different outputs are packed into the same. *)
Lemma pccc_outputs_collide : let F1 := make_fsm 2 1 2 [0; 0] [0; 1] in let F2 := make_fsm 2 1 4 [0; 0] [2; 0] in
  outputs F1 0 [0] <> outputs F1 0 [1] /\ pccc_block id F1 0 F2 0 [0] 1 [0] = pccc_block id F1 0 F2 0 [0] 1 [1].
Proof. split; [by vm_compute|by vm_compute]. Qed.

(** With several streams the first goes on from the state of the last. *)
Lemma streams_share_state : let F := fsm_isi 2 2 in
  let '(outs, ST) := trellis_encoder_work id F 0 [[1]; [0]] in
  hd [] outs ++ hd [] (trellis_encoder_work id F ST [[1]; [0]]).1 <> outputs F 0 [1; 1].
Proof. by vm_compute. Qed.

(** ** Witnesses *)

Lemma random_interleaver_inverts_witness :
  exists i, random_interleaver 4 [30; 10; 20; 10] = Some i /\
    permutation_work 4 (d_DEINTER i) 2 16 (permutation_work 4 (d_INTER i) 2 16 (zseq 0 16)) = zseq 0 16.
Proof.
  destruct (random_interleaver_inverts 4 [30; 10; 20; 10] 2 2 (zseq 0 16)) as (i & E & _ & _ & H & _); [lia|lia|lia|reflexivity|reflexivity|exists i; by split].
Defined.

Lemma composed_machines_encode_witness :
  outputs (fsm_joint (fsm_convolutional 1 2 [5; 7]) (fsm_isi 2 2)) 0 [2; 1; 3] =
  zip_with (fun o1 o2 => o1 * 4 + o2) (outputs (fsm_convolutional 1 2 [5; 7]) 0 [1; 0; 1]) (outputs (fsm_isi 2 2) 0 [0; 1; 1]).
Proof.
  destruct (composed_machines_encode (fsm_convolutional 1 2 [5; 7]) (fsm_isi 2 2) 2) as [E _].
  - apply made_convolutional; [apply ex_code_ok|vm_compute; discriminate].
  - apply made_isi; vm_compute; reflexivity.
  - rewrite E; [by vm_compute|split; [|split]; vm_compute; reflexivity|vm_compute; split; [discriminate|reflexivity]|].
    apply (bool_decide_unpack (Forall (fun x => 0 <= x < 4) [2; 1; 3])). vm_compute. exact Logic.I.
Defined.
