(* ===== verification/GcChain.v ===== *)
(** * Descriptors in memory

    What the stack and the queue of [gcell] share: descriptors linked through
    [sys.next], the places where a descriptor can be, and the replay of what calls
    have done on a list. *)

From S2P Require Import Prelude.
From stdpp Require Import functions gmap list.
#[local] Open Scope Z_scope.

(** ** The descriptors from [a] on, along [next] *)

Fixpoint chain (next : Z -> Z) (a : Z) (l : list Z) : Prop :=
  match l with
  | [] => a = 0
  | x :: l => a = x /\ x <> 0 /\ chain next (next x) l
  end.

Lemma chain_empty next a l : chain next a l -> a = 0 <-> l = [].
Proof. destruct l as [|x l]; [done|]. intros (-> & Hx & _). split; [by intros ->|done]. Qed.

Lemma linked_ext next next' a l : (forall x, x ∈ l -> next' x = next x) -> chain next a l -> chain next' a l.
Proof.
  revert a. induction l as [|y l IH]; intros a Hx Hc; [done|]. destruct Hc as (-> & H0 & Hc). split_and!; [done..|].
  rewrite Hx by by left. apply IH; [|done]. intros x Hl. apply Hx. by right.
Qed.

Lemma chain_write next a l x v : x ∉ l -> chain next a l -> chain (<[x := v]> next) a l.
Proof. intros Hx. apply linked_ext. intros y Hy. apply fn_lookup_insert_ne. by intros ->. Qed.

(** A descriptor is linked behind the last. *)
Lemma chain_link next a l x : chain next a l -> l <> [] -> NoDup l -> x <> 0 -> x ∉ l -> next x = 0 ->
  chain (<[default 0 (last l) := x]> next) a (l ++ [x]).
Proof.
  revert a. induction l as [|y l IH]; intros a Hc Hne Hnd H0 Hx Hn; [done|]. destruct Hc as (-> & Hy & Hc).
  apply NoDup_cons in Hnd as [Hyl Hnd]. apply not_elem_of_cons in Hx as [Hxy Hx]. cbn [app chain]. split_and!; [done..|].
  destruct l as [|z l].
  - cbn. rewrite fn_lookup_insert, fn_lookup_insert_ne by done. done.
  - change (last (y :: z :: l)) with (last (z :: l)).
    assert (y <> default 0 (last (z :: l))) as Hl.
    { intros E. apply Hyl. rewrite E. destruct (last (z :: l)) as [w|] eqn:El; [|by apply last_None in El]. by apply last_Some_elem_of. }
    rewrite fn_lookup_insert_ne by done. by apply IH.
Qed.

(** ** Where a descriptor can be

    In the hands of clients, in the container, or on its way there with a thread;
    in one of these places only. *)
Record apart (held : gset Z) (l : list Z) (carries : Z -> option Z) : Prop := {
  apart_nodup : NoDup l;
  apart_held : forall x, x ∈ held -> x <> 0 /\ x ∉ l;
  apart_carried : forall t x, carries t = Some x ->
    x <> 0 /\ x ∉ l /\ x ∉ held /\ forall t', carries t' = Some x -> t' = t
}.

Definition somewhere (held : gset Z) (l : list Z) (carries : Z -> option Z) (x : Z) : Prop :=
  x ∈ held \/ x ∈ l \/ exists t, carries t = Some x.

Section Places.
Context (held : gset Z) (l : list Z) (carries : Z -> option Z).

Lemma apart_ext carries' : (forall t, carries' t = carries t) -> apart held l carries -> apart held l carries'.
Proof.
  intros He [Hn Hh Hc]. split; [done..|]. intros t x Hx. rewrite He in Hx. destruct (Hc t x Hx) as (? & ? & ? & Hu).
  split_and!; [done..|]. intros t' H'. apply Hu. by rewrite <- He.
Qed.

Lemma somewhere_ext carries' x : (forall t, carries' t = carries t) -> somewhere held l carries' x <-> somewhere held l carries x.
Proof. intros He. unfold somewhere. by setoid_rewrite He. Qed.

(** A client hands a descriptor to a thread. *)
Lemma apart_hand x t carries' : apart held l carries -> x ∈ held -> carries t = None ->
  carries' t = Some x -> (forall t', t' <> t -> carries' t' = carries t') -> apart (held ∖ {[x]}) l carries'.
Proof.
  intros [Hn Hh Hc] Hx Ht E He. destruct (Hh x Hx) as [H0 Hxl].
  assert (forall t2, carries t2 <> Some x) as Hnp by (intros t2 H2; by destruct (Hc t2 x H2) as (_ & _ & ? & _)).
  split; [done| |].
  - intros y Hy. apply Hh. set_solver.
  - intros t2 y Hy. destruct (decide (t2 = t)) as [->|Hne].
    + rewrite E in Hy. injection Hy as <-. split_and!; [done|done|set_solver|]. intros t3 H3.
      destruct (decide (t3 = t)); [done|]. rewrite He in H3 by done. by destruct (Hnp t3).
    + rewrite He in Hy by done. destruct (Hc t2 y Hy) as (? & ? & ? & Hu). split_and!; [done|done|set_solver|]. intros t3 H3.
      destruct (decide (t3 = t)) as [->|]; [|apply Hu; by rewrite <- He]. rewrite E in H3. injection H3 as <-. by destruct (Hnp t2).
Qed.

Lemma somewhere_hand x t carries' y : x ∈ held -> carries t = None ->
  carries' t = Some x -> (forall t', t' <> t -> carries' t' = carries t') -> somewhere (held ∖ {[x]}) l carries' y <-> somewhere held l carries y.
Proof.
  intros Hx Ht E He. unfold somewhere. split.
  - intros [?|[?|[t2 H2]]]; [set_solver|by right; left|]. destruct (decide (t2 = t)) as [->|].
    + rewrite E in H2. injection H2 as <-. by left.
    + right; right. exists t2. by rewrite <- He.
  - destruct (decide (y = x)) as [->|]; [by right; right; exists t|]. intros [?|[?|[t2 H2]]]; [set_solver|by right; left|].
    right; right. exists t2. rewrite He; [done|]. by intros ->; rewrite Ht in H2.
Qed.

(** A thread puts what it carries into the container. *)
Lemma apart_put x t l' carries' : apart held l carries -> carries t = Some x -> l' ≡ₚ x :: l ->
  carries' t = None -> (forall t', t' <> t -> carries' t' = carries t') -> apart held l' carries'.
Proof.
  intros [Hn Hh Hc] Ht Hl E He. destruct (Hc t x Ht) as (H0 & Hx & Hhx & Hu). split.
  - rewrite Hl. by constructor.
  - intros y Hy. destruct (Hh y Hy) as [? Hyl]. split; [done|]. rewrite Hl. by intros [->|?]%elem_of_cons.
  - intros t2 y Hy. destruct (decide (t2 = t)) as [->|Hne]; [congruence|]. rewrite He in Hy by done.
    destruct (Hc t2 y Hy) as (? & ? & ? & Hu2). split_and!; [done| |done|].
    + rewrite Hl. intros [->|?]%elem_of_cons; [|done]. by apply Hne, Hu.
    + intros t3 H3. destruct (decide (t3 = t)) as [->|]; [congruence|]. apply Hu2. by rewrite <- He.
Qed.

Lemma somewhere_put x t l' carries' y : carries t = Some x -> l' ≡ₚ x :: l ->
  carries' t = None -> (forall t', t' <> t -> carries' t' = carries t') -> somewhere held l' carries' y <-> somewhere held l carries y.
Proof.
  intros Ht Hl E He. unfold somewhere. rewrite Hl, elem_of_cons. split.
  - intros [?|[[->|?]|[t2 H2]]]; [by left|by right; right; exists t|by right; left|]. right; right. exists t2. rewrite <- He; [done|]. by intros ->; rewrite E in H2.
  - intros [?|[?|[t2 H2]]]; [by left|by right; left; right|]. destruct (decide (t2 = t)) as [->|].
    + right; left; left. congruence.
    + right; right. exists t2. by rewrite He.
Qed.

(** A client gets a descriptor out of it. *)
Lemma apart_get x l' : apart held l carries -> l ≡ₚ x :: l' -> x <> 0 -> apart ({[x]} ∪ held) l' carries.
Proof.
  intros [Hn Hh Hc] Hl H0. rewrite Hl in Hn. apply NoDup_cons in Hn as [Hx Hn]. setoid_rewrite Hl in Hh. setoid_rewrite Hl in Hc. split; [done| |].
  - intros y [->%elem_of_singleton|Hy]%elem_of_union; [done|]. destruct (Hh y Hy) as [? Hyl]. split; [done|]. intros ?. apply Hyl. by right.
  - intros t y Hy. destruct (Hc t y Hy) as (? & Hyl & ? & Hu). apply not_elem_of_cons in Hyl as [? ?]. split_and!; [done..| |done]. set_solver.
Qed.

Lemma somewhere_get x l' y : l ≡ₚ x :: l' -> somewhere ({[x]} ∪ held) l' carries y <-> somewhere held l carries y.
Proof. intros Hl. unfold somewhere. rewrite Hl, elem_of_union, elem_of_singleton, elem_of_cons. tauto. Qed.
End Places.

(** ** Replaying what calls have done *)

Section Replay.
Context {O : Type} (apply_op : O -> list Z -> option (list Z)).

Definition replay (ops : list O) (l : list Z) : option (list Z) := foldl (fun r o => r ≫= apply_op o) (Some l) ops.

Lemma replay_app ops o l : replay (ops ++ o) l = replay ops l ≫= replay o.
Proof.
  unfold replay. rewrite foldl_app. destruct (foldl _ (Some l) ops); [done|]. cbn. induction o; [done|]. done.
Qed.
End Replay.

(** ** Runs of steps that show operations *)

Section Runs.
Context {C E O : Type} (step : E -> C -> option (C * list O)).

Definition run_steps (es : list E) (c : C) : option (C * list O) :=
  foldl (fun r e => '(c, ops) ← r; '(c, o) ← step e c; Some (c, ops ++ o)) (Some (c, [])) es.

Lemma run_snoc es e c : run_steps (es ++ [e]) c = '(c1, ops) ← run_steps es c; '(c2, o) ← step e c1; Some (c2, ops ++ o).
Proof. unfold run_steps. by rewrite foldl_app. Qed.

Lemma run_cons e es c : run_steps (e :: es) c = '(c1, o) ← step e c; '(c2, ops) ← run_steps es c1; Some (c2, o ++ ops).
Proof.
  revert c. induction es as [|e' es IH] using rev_ind; intros c.
  - unfold run_steps. cbn. destruct (step e c) as [[c1 o]|]; [cbn; by rewrite app_nil_r|done].
  - change (e :: es ++ [e']) with ((e :: es) ++ [e']). rewrite run_snoc, IH. destruct (step e c) as [[c1 o]|]; [|done].
    cbn [mbind option_bind]. rewrite run_snoc. destruct (run_steps es c1) as [[c2 ops]|]; [|done]. cbn [mbind option_bind].
    destruct (step e' c2) as [[c3 o3]|]; [|done]. cbn. by rewrite app_assoc.
Qed.

(** A simulation by replay. *)
Lemma run_simulates (apply_op : O -> list Z -> option (list Z)) (R : C -> list Z -> Prop) es c l c' ops :
  (forall e c l c' o, R c l -> step e c = Some (c', o) -> exists l', replay apply_op o l = Some l' /\ R c' l') ->
  R c l -> run_steps es c = Some (c', ops) -> exists l', replay apply_op ops l = Some l' /\ R c' l'.
Proof.
  intros Hs HR. revert c' ops. induction es as [|e es IH] using rev_ind; intros c' ops; [intros [= <- <-]; by exists l|].
  rewrite run_snoc. destruct (run_steps es c) as [[c1 ops1]|]; [|done]. cbn [mbind option_bind].
  destruct (step e c1) as [[c2 o]|] eqn:E'; [|done]. intros [= <- <-].
  destruct (IH c1 ops1 eq_refl) as (l1 & Hl1 & HR1). destruct (Hs e c1 l1 c2 o HR1 E') as (l2 & Hl2 & HR2).
  exists l2. split; [by rewrite replay_app, Hl1|done].
Qed.
End Runs.
