(* ===== verification/GcStack.v ===== *)
(** * The lock free stack of [gcell]: [gc_jd_stack.c]

    The free list of job descriptors, shared by all threads.  A push or a pop is
    a loop over a load that reserves the top of the stack and a store that
    succeeds only if the reservation is still there.  (The versions for 32 bits do
    the same on the low word of the top.)  However the threads are
    interleaved the stack is a stack; no descriptor is lost or given out twice. *)

From S2P Require Import Prelude.
From stdpp Require Import functions gmap list.
From S2P Require Import GcChain.
#[local] Open Scope Z_scope.

(** ** State

    A descriptor is its address, never 0. *)

(** Where a thread is in [push] or [pop], with its local variables. *)
Inductive pc :=
| Idle
| Push_load (item : Z)
| Push_next (item top : Z)
| Push_store (item : Z)
| Pop_load
| Pop_next (s : Z)
| Pop_store (s t : Z).

(** [top] and the [sys.next] of the descriptors in memory; the threads, and those
    that hold a reservation.  [held] are the descriptors in the hands of clients:
    allocated or popped, and not pushed since. *)
Record state := {
  top : Z;
  next : Z -> Z;
  threads : Z -> pc;
  reserved : Z -> bool;
  held : gset Z
}.

(** What a call has done. *)
Inductive op := Pushed (item : Z) | Popped (item : Z) | Nothing.

(** A client calls, a thread goes on, a thread loses its reservation for no reason
    of the program's, a client uses the memory of a descriptor it holds. *)
Inductive event := Call_push (t item : Z) | Call_pop (t : Z) | Step (t : Z) | Lose (t : Z) | Write (item v : Z).

Definition gc_jd_stack_init (held : gset Z) : state :=
  {| top := 0; next := fun _ => 0; threads := fun _ => Idle; reserved := fun _ => false; held := held |}.

Definition goto (c : state) (t : Z) (p : pc) : state :=
  {| top := top c; next := next c; threads := <[t := p]> (threads c); reserved := reserved c; held := held c |}.

Definition hold (c : state) (h : gset Z) : state :=
  {| top := top c; next := next c; threads := threads c; reserved := reserved c; held := h |}.

(** [__ldarx(&stack->top)]. *)
Definition reserve (c : state) (t : Z) : state :=
  {| top := top c; next := next c; threads := threads c; reserved := <[t := true]> (reserved c); held := held c |}.

(** [__stdcx(&stack->top, v)], which has succeeded: every reservation is gone. *)
Definition store_top (c : state) (v : Z) : state :=
  {| top := v; next := next c; threads := threads c; reserved := fun _ => false; held := held c |}.

Definition write_next (c : state) (item v : Z) : state :=
  {| top := top c; next := <[item := v]> (next c); threads := threads c; reserved := reserved c; held := held c |}.

(** A step of a thread in [gc_jd_stack_push] or [gc_jd_stack_pop]. *)
Definition run_thread (t : Z) (c : state) : option (state * list op) :=
  match threads c t with
  | Idle => None
  | Push_load item => Some (goto (reserve c t) t (Push_next item (top c)), [])
  | Push_next item top => Some (goto (write_next c item top) t (Push_store item), [])
  | Push_store item =>
      if reserved c t then Some (goto (store_top c item) t Idle, [Pushed item])
      else Some (goto c t (Push_load item), [])
  | Pop_load =>
      if top c =? 0 then Some (goto (reserve c t) t Idle, [Nothing])
      else Some (goto (reserve c t) t (Pop_next (top c)), [])
  | Pop_next s => Some (goto c t (Pop_store s (next c s)), [])
  | Pop_store s n =>
      if reserved c t then Some (goto (hold (store_top c n) ({[s]} ∪ held c)) t Idle, [Popped s])
      else Some (goto c t Pop_load, [])
  end.

(** A client pushes and writes only what it holds. *)
Definition stack_step (e : event) (c : state) : option (state * list op) :=
  match e with
  | Call_push t item =>
      if bool_decide (item ∈ held c) then
        match threads c t with
        | Idle => Some (goto (hold c (held c ∖ {[item]})) t (Push_load item), [])
        | _ => None
        end
      else None
  | Call_pop t => match threads c t with Idle => Some (goto c t Pop_load, []) | _ => None end
  | Step t => run_thread t c
  | Lose t => Some ({| top := top c; next := next c; threads := threads c; reserved := <[t := false]> (reserved c); held := held c |}, [])
  | Write item v => if bool_decide (item ∈ held c) then Some (write_next c item v, []) else None
  end.

(** The steps with what they showed. *)
Definition stack_run : list event -> state -> option (state * list op) := run_steps stack_step.

(** ** The specification: a list *)

Definition apply_op (o : op) (l : list Z) : option (list Z) :=
  match o, l with
  | Pushed item, l => Some (item :: l)
  | Popped item, x :: l => if item =? x then Some l else None
  | Nothing, [] => Some []
  | _, _ => None
  end.

(** ** The invariant *)

Definition pushing (p : pc) : option Z :=
  match p with Push_load x | Push_next x _ | Push_store x => Some x | _ => None end.
Definition carries (c : state) (t : Z) : option Z := pushing (threads c t).

(** What a thread with a reservation knows. *)
Definition knows (top : Z) (next : Z -> Z) (p : pc) : Prop :=
  match p with
  | Push_next _ t => t = top
  | Push_store item => next item = top
  | Pop_next s => s = top /\ s <> 0
  | Pop_store s n => s = top /\ s <> 0 /\ n = next s
  | _ => True
  end.

Record inv (c : state) (l : list Z) : Prop := {
  inv_chain : chain (next c) (top c) l;
  inv_apart : apart (held c) l (carries c);
  inv_knows : forall t, reserved c t = true -> knows (top c) (next c) (threads c t)
}.

(** What a step keeps: the invariant, and the descriptors there are. *)
Definition follows (c : state) (l : list Z) (c' : state) (l' : list Z) : Prop :=
  inv c' l' /\ forall x, somewhere (held c') l' (carries c') x <-> somewhere (held c) l (carries c) x.

Lemma follows_refl c l : inv c l -> follows c l c l.
Proof. done. Qed.

Lemma carries_goto c t p : carries (goto c t p) t = pushing p /\ forall t', t' <> t -> carries (goto c t p) t' = carries c t'.
Proof. unfold carries. cbn. rewrite fn_lookup_insert. split; [done|]. intros t' Hne. by rewrite fn_lookup_insert_ne. Qed.

Lemma knows_goto c t p : (reserved c t = true -> knows (top c) (next c) p) ->
  (forall t', t' <> t -> reserved c t' = true -> knows (top c) (next c) (threads c t')) ->
  forall t', reserved c t' = true -> knows (top c) (next c) (threads (goto c t p) t').
Proof. intros H1 H2 t' Hr. cbn. destruct (decide (t' = t)) as [->|]; [rewrite fn_lookup_insert; by apply H1|rewrite fn_lookup_insert_ne by done; by apply H2]. Qed.

(** A thread moves on with what it is pushing. *)
Lemma inv_goto c l t p : inv c l -> pushing p = carries c t -> (reserved c t = true -> knows (top c) (next c) p) ->
  follows c l (goto c t p) l.
Proof.
  intros [Hc Ha Hk] Hp Hkp. destruct (carries_goto c t p) as [E1 E2].
  assert (forall t', carries (goto c t p) t' = carries c t') as E by (intros t'; destruct (decide (t' = t)) as [->|]; [by rewrite E1|by apply E2]).
  split; [split; [done|by eapply apart_ext|]|].
  - apply (knows_goto c t p); [done|]. intros t' _. apply Hk.
  - intros x. by apply somewhere_ext.
Qed.

Lemma inv_reserve c l t : inv c l -> knows (top c) (next c) (threads c t) -> inv (reserve c t) l.
Proof.
  intros [Hc Ha Hk] Ht. split; [done..|]. intros t' Hr. cbn in *.
  destruct (decide (t' = t)) as [->|]; [done|]. apply Hk. by rewrite fn_lookup_insert_ne in Hr.
Qed.

(** Memory outside the stack is written, of which no thread with a reservation
    knows anything. *)
Lemma inv_write c l x v : inv c l -> x ∉ l -> (forall t, threads c t <> Push_store x) -> inv (write_next c x v) l.
Proof.
  intros [Hc Ha Hk] Hx Ht. split; [cbn; by apply chain_write|done|]. intros t Hr. specialize (Hk t Hr). specialize (Ht t). cbn in *.
  destruct (threads c t) as [| | |y| | |s n]; try done; cbn in *.
  - rewrite fn_lookup_insert_ne; [done|congruence].
  - destruct Hk as (-> & H0 & ->). split_and!; [done..|]. rewrite fn_lookup_insert_ne; [done|]. intros ->.
    destruct l as [|y l]; [done|]. destruct Hc as (Ey & _). apply Hx. rewrite Ey. by left.
Qed.

(** The conditional store of a push, and of a pop. *)
Lemma inv_pushed c l t x : inv c l -> threads c t = Push_store x -> reserved c t = true ->
  follows c l (goto (store_top c x) t Idle) (x :: l).
Proof.
  intros [Hc Ha Hk] Et Hr. assert (carries c t = Some x) as Hx by (unfold carries; by rewrite Et).
  specialize (Hk t Hr). rewrite Et in Hk. destruct (carries_goto (store_top c x) t Idle) as [E1 E2]. split; [split|].
  - cbn. split_and!; [done|by apply (apart_carried _ _ _ Ha t)|]. by rewrite Hk.
  - by eapply (apart_put _ _ _ x t).
  - done.
  - intros y. by eapply (somewhere_put _ _ _ x t).
Qed.

Lemma inv_popped c l t s n : inv c l -> threads c t = Pop_store s n -> reserved c t = true ->
  exists l', l = s :: l' /\ follows c l (goto (hold (store_top c n) ({[s]} ∪ held c)) t Idle) l'.
Proof.
  intros [Hc Ha Hk] Et Hr. specialize (Hk t Hr). rewrite Et in Hk. destruct Hk as (Es & H0 & En).
  destruct l as [|y l]; [cbn in Hc; congruence|]. destruct Hc as (Ey & Hy0 & Hc). assert (y = s) as -> by congruence. exists l. split; [done|].
  set (c' := hold (store_top c n) ({[s]} ∪ held c)). destruct (carries_goto c' t Idle) as [E1 E2].
  assert (forall t', carries (goto c' t Idle) t' = carries c t') as E.
  { intros t'. destruct (decide (t' = t)) as [->|]; [|by apply E2]. unfold carries at 2. by rewrite E1, Et. }
  split; [split|].
  - cbn. by rewrite En.
  - apply apart_ext with (carries c); [done|]. by eapply apart_get.
  - done.
  - intros x. rewrite somewhere_ext by exact E. by apply somewhere_get.
Qed.

Lemma inv_empty c l : inv c l -> top c = 0 -> l = [].
Proof. intros [Hc _ _]. by apply chain_empty in Hc as [H _]. Qed.

Lemma thread_simulates c l t c' ops : inv c l -> run_thread t c = Some (c', ops) -> exists l', replay apply_op ops l = Some l' /\ follows c l c' l'.
Proof.
  intros Hi. unfold run_thread. destruct (threads c t) as [|x|x n|x| |s|s n] eqn:Et; [done|..].
  all: assert (carries c t = pushing (threads c t)) as Ec by done; rewrite Et in Ec.
  - intros [= <- <-]. exists l. split; [done|]. apply (inv_goto (reserve c t)); [apply inv_reserve; [done|by rewrite Et]|done..].
  - intros [= <- <-]. exists l. split; [done|]. destruct (apart_carried _ _ _ (inv_apart c l Hi) t x Ec) as (H0 & Hx & Hh & Hu).
    apply (inv_goto (write_next c x n)); [apply inv_write; [done..|]|done|].
    + intros t' E'. assert (t' = t) as -> by (apply Hu; unfold carries; by rewrite E'). congruence.
    + intros Hr. pose proof (inv_knows c l Hi t Hr) as Hk. rewrite Et in Hk. cbn in *. by rewrite fn_lookup_insert.
  - destruct (reserved c t) eqn:Er; intros [= <- <-]; [exists (x :: l)|exists l]; (split; [done|]); [by apply inv_pushed|by apply inv_goto].
  - destruct (Z.eqb_spec (top c) 0) as [H0|H0]; intros [= <- <-].
    + pose proof (inv_empty c l Hi H0) as ->. exists []. split; [done|]. apply (inv_goto (reserve c t)); [apply inv_reserve; [done|by rewrite Et]|done..].
    + exists l. split; [done|]. apply (inv_goto (reserve c t)); [apply inv_reserve; [done|by rewrite Et]|done..].
  - intros [= <- <-]. exists l. split; [done|]. apply inv_goto; [done..|]. intros Hr.
    pose proof (inv_knows c l Hi t Hr) as Hk. rewrite Et in Hk. destruct Hk as [-> ?]. done.
  - destruct (reserved c t) eqn:Er; intros [= <- <-].
    + destruct (inv_popped c l t s n Hi Et Er) as (l' & -> & Hi'). exists l'. split; [cbn; by rewrite Z.eqb_refl|done].
    + exists l. split; [done|]. by apply inv_goto.
Qed.

Lemma step_simulates e c l c' ops : inv c l -> stack_step e c = Some (c', ops) -> exists l', replay apply_op ops l = Some l' /\ follows c l c' l'.
Proof.
  intros Hi. destruct e as [t x|t|t|t|x v]; cbn [stack_step].
  - case_bool_decide as Hx; [|done]. destruct (threads c t) eqn:Et; try done. intros [= <- <-]. exists l. split; [done|].
    assert (carries c t = None) as Ec by (unfold carries; by rewrite Et).
    destruct (carries_goto (hold c (held c ∖ {[x]})) t (Push_load x)) as [E1 E2]. destruct Hi as [Hc Ha Hk]. split; [split|].
    + done.
    + by eapply (apart_hand _ _ _ x t).
    + apply (knows_goto (hold c (held c ∖ {[x]})) t (Push_load x)); [done|]. intros t' _. apply Hk.
    + intros y. by eapply (somewhere_hand _ _ _ x t).
  - destruct (threads c t) eqn:Et; try done. intros [= <- <-]. exists l. split; [done|]. apply inv_goto; [done| |done]. unfold carries. by rewrite Et.
  - by apply thread_simulates.
  - intros [= <- <-]. exists l. split; [done|]. destruct Hi as [Hc Ha Hk]. split; [|done]. split; [done..|]. intros t2 Hr. cbn in *. apply Hk.
    destruct (decide (t2 = t)) as [->|]; [by rewrite fn_lookup_insert in Hr|by rewrite fn_lookup_insert_ne in Hr].
  - case_bool_decide as Hx; [|done]. intros [= <- <-]. exists l. split; [done|]. destruct (apart_held _ _ _ (inv_apart c l Hi) x Hx) as [H0 Hxl].
    split; [|done]. apply inv_write; [done..|]. intros t Et.
    destruct (apart_carried _ _ _ (inv_apart c l Hi) t x) as (_ & _ & ? & _); [unfold carries; by rewrite Et|done].
Qed.

Lemma init_inv h0 : 0 ∉ h0 -> inv (gc_jd_stack_init h0) [].
Proof. intros H0. split; [done| |done]. split; [constructor| |done]. intros x Hx. split; [by intros ->|by intros ?%elem_of_nil]. Qed.

Lemma stack_simulates es h0 c ops : 0 ∉ h0 -> stack_run es (gc_jd_stack_init h0) = Some (c, ops) ->
  exists l, replay apply_op ops [] = Some l /\ inv c l /\ forall x, somewhere (held c) l (carries c) x <-> x ∈ h0.
Proof.
  intros H0 Hr. eapply (run_simulates stack_step apply_op (fun c l => inv c l /\ forall x, somewhere (held c) l (carries c) x <-> x ∈ h0));
    [|split; [by apply init_inv|]|exact Hr].
  - intros e c1 l c2 o [Hi Ho] E. destruct (step_simulates e c1 l c2 o Hi E) as (l' & Hl & Hi' & Ho'). exists l'. split_and!; [done..|].
    intros x. by rewrite Ho'.
  - intros x. unfold somewhere. cbn. split; [|by left]. intros [?|[?%elem_of_nil|[t ?]]]; done.
Qed.

(** ** A thread alone *)

(** Its call is over after at most [n] steps. *)
Definition finishes (t : Z) (n : nat) (c : state) : Prop :=
  exists k c' o, (k <= n)%nat /\ stack_run (replicate k (Step t)) c = Some (c', [o]) /\ threads c' t = Idle.

Lemma finishes_now t n c c' o : run_thread t c = Some (c', [o]) -> threads c' t = Idle -> finishes t (S n) c.
Proof. intros E Ht. exists 1%nat, c', o. split; [lia|]. split; [|done]. change (replicate 1 (Step t)) with [Step t]. unfold stack_run; rewrite run_cons; cbn [stack_step]. by rewrite E. Qed.

Lemma finishes_later t n c c1 : run_thread t c = Some (c1, []) -> finishes t n c1 -> finishes t (S n) c.
Proof.
  intros E (k & c' & o & Hk & H & Ht). exists (S k), c', o. split; [lia|]. split; [|done].
  change (replicate (S k) (Step t)) with (Step t :: replicate k (Step t)). unfold stack_run. rewrite run_cons. cbn [stack_step]. rewrite E. cbn [mbind option_bind]. unfold stack_run in H. by rewrite H.
Qed.

Lemma threads_goto c t p : threads (goto c t p) t = p.
Proof. cbn. by rewrite fn_lookup_insert. Qed.

(** The next step of a thread at a known place. *)
Ltac solo_step Et := unfold run_thread; rewrite Et; cbn [goto write_next reserve store_top hold reserved];
  rewrite ?fn_lookup_insert; try reflexivity.

Lemma push_store_finishes t n c x : threads c t = Push_store x -> reserved c t = true -> finishes t (S n) c.
Proof. intros Et Er. eapply finishes_now; [solo_step Et; by rewrite Er|apply threads_goto]. Qed.

Lemma pop_store_finishes t n c s k : threads c t = Pop_store s k -> reserved c t = true -> finishes t (S n) c.
Proof. intros Et Er. eapply finishes_now; [solo_step Et; by rewrite Er|apply threads_goto]. Qed.

Lemma push_load_finishes t n c x : threads c t = Push_load x -> finishes t (3 + n) c.
Proof.
  intros Et. eapply finishes_later; [by solo_step Et|]. eapply finishes_later; [by solo_step (threads_goto (reserve c t) t (Push_next x (top c)))|].
  eapply push_store_finishes; [apply threads_goto|cbn; by rewrite fn_lookup_insert].
Qed.

Lemma pop_load_finishes t n c : threads c t = Pop_load -> finishes t (3 + n) c.
Proof.
  intros Et. destruct (top c =? 0) eqn:E0.
  - eapply finishes_now; [solo_step Et; by rewrite E0|apply threads_goto].
  - eapply finishes_later; [solo_step Et; by rewrite E0|]. eapply finishes_later; [by solo_step (threads_goto (reserve c t) t (Pop_next (top c)))|].
    eapply pop_store_finishes; [apply threads_goto|cbn; by rewrite fn_lookup_insert].
Qed.

(** After a failed store one more turn of the loop is enough. *)
Lemma stores_finish t c : (exists x, threads c t = Push_store x) \/ (exists s n, threads c t = Pop_store s n) -> finishes t 4 c.
Proof.
  destruct (reserved c t) eqn:Er; intros [[x Et]|(s & k & Et)].
  - by eapply push_store_finishes.
  - by eapply pop_store_finishes.
  - eapply finishes_later; [solo_step Et; by rewrite Er|]. eapply (push_load_finishes t 0), threads_goto.
  - eapply finishes_later; [solo_step Et; by rewrite Er|]. eapply (pop_load_finishes t 0), threads_goto.
Qed.

Lemma solo_finishes t c : threads c t <> Idle -> finishes t 5 c.
Proof.
  intros Hne. destruct (threads c t) as [|x|x n|x| |s|s n] eqn:Et; [done|..].
  - by apply (push_load_finishes t 2 c x).
  - eapply finishes_later; [by solo_step Et|]. apply stores_finish. left. exists x. apply threads_goto.
  - destruct (stores_finish t c) as (k & c' & o & ? & ?); [eauto|]. exists k, c', o. split; [lia|done].
  - by apply (pop_load_finishes t 2 c).
  - eapply finishes_later; [by solo_step Et|]. apply stores_finish. right. eexists _, _. apply threads_goto.
  - destruct (stores_finish t c) as (k & c' & o & ? & ?); [eauto|]. exists k, c', o. split; [lia|done].
Qed.

(** C21. However any number of threads are interleaved in [push] and [pop], and
    whatever reservations they lose, the calls take effect one after the other as
    on a stack; every descriptor is at any time in one place only, in the stack, in
    the hands of clients or about to be pushed, and none is lost; and a thread
    that is left alone finishes its call within five steps. *)
Theorem stack_refines_list es held0 c ops : 0 ∉ held0 -> stack_run es (gc_jd_stack_init held0) = Some (c, ops) ->
  exists l, replay apply_op ops [] = Some l /\ chain (next c) (top c) l /\ apart (held c) l (carries c) /\
    (forall x, somewhere (held c) l (carries c) x <-> x ∈ held0) /\ forall t, threads c t <> Idle -> finishes t 5 c.
Proof.
  intros H0 Hr. destruct (stack_simulates es held0 c ops H0 Hr) as (l & Hl & Hi & Ho). exists l. split_and!; [done|apply Hi|apply Hi|done|].
  intros t. apply solo_finishes.
Qed.

(** ** Witness: a pop that is overtaken and starts again *)

Definition overtaken : list event :=
  [Call_push 1 5; Step 1; Step 1; Step 1; Call_pop 2; Step 2; Step 2; Call_push 1 6; Step 1; Step 1; Step 1; Step 2; Step 2; Step 2; Step 2].

Lemma stack_refines_list_witness : exists c, stack_run overtaken (gc_jd_stack_init {[5; 6]}) = Some (c, [Pushed 5; Pushed 6; Popped 6]) /\
  replay apply_op [Pushed 5; Pushed 6; Popped 6] [] = Some [5].
Proof.
  assert (option_map snd (stack_run overtaken (gc_jd_stack_init {[5; 6]})) = Some [Pushed 5; Pushed 6; Popped 6]) as H by (vm_compute; reflexivity).
  destruct (stack_run overtaken (gc_jd_stack_init {[5; 6]})) as [[c ops]|] eqn:E; [|discriminate H]. injection H as ->.
  exists c. split; [reflexivity|]. destruct (stack_refines_list overtaken {[5; 6]} c _ ltac:(set_solver) E) as (l & Hl & _).
  rewrite Hl. injection Hl as <-. reflexivity.
Defined.
