(* ===== verification/GcQueue.v ===== *)
(** * The job queue of [gcell]: [gc_jd_queue.c], [spu/gc_spu_jd_queue.c]

    Clients on the main processor put descriptors into the queue under a lock;
    the coprocessors take them out by reserving, copying and writing back the cache
    line that holds the queue, lock included.  However they are interleaved the
    queue is a fifo. *)

From S2P Require Import Prelude.
From stdpp Require Import functions gmap list.
From S2P Require Import GcChain.
#[local] Open Scope Z_scope.

(** ** State *)

(** Where a thread is, with its local variables.  [Spu_...] are the places of the
    coprocessors, where [head] and [tail] are in the copy of the line. *)
Inductive pc :=
| Idle
| Enq_clear (item : Z)
| Enq_lock (item : Z)
| Enq_test (item : Z)
| Enq_head (item : Z)
| Enq_tail (item : Z)
| Enq_link (item : Z)
| Enq_unlock (item : Z)
| Deq_lock
| Deq_head
| Deq_next (item : Z)
| Deq_tail (item : Z)
| Deq_clear (item : Z)
| Deq_unlock (item : Z)
| Spu_get
| Spu_put (head tail : Z)
| Spu_copy (head tail : Z)
| Spu_write (item head tail : Z).

(** [gc_jd_queue_t], the [sys.next] of the descriptors in memory, the threads and
    their reservations of the line; [held] as for the stack. *)
Record state := {
  head : Z;
  tail : Z;
  mutex : bool;
  next : Z -> Z;
  threads : Z -> pc;
  reserved : Z -> bool;
  held : gset Z
}.

(** What a call has done; 0 and [GCQ_EMPTY] are [Empty]. *)
Inductive op := Enqueued (item : Z) | Dequeued (item : Z) | Empty | Locked.

Inductive event := Call_enqueue (t item : Z) | Call_dequeue (t : Z) | Call_spu (t : Z) | Step (t : Z) | Lose (t : Z) | Write (item v : Z).

Definition gc_jd_queue_init (held : gset Z) : state :=
  {| head := 0; tail := 0; mutex := false; next := fun _ => 0; threads := fun _ => Idle; reserved := fun _ => false; held := held |}.

Definition goto (c : state) (t : Z) (p : pc) : state :=
  {| head := head c; tail := tail c; mutex := mutex c; next := next c; threads := <[t := p]> (threads c); reserved := reserved c; held := held c |}.

Definition hold (c : state) (h : gset Z) : state :=
  {| head := head c; tail := tail c; mutex := mutex c; next := next c; threads := threads c; reserved := reserved c; held := h |}.

(** A store to the line: every reservation of it is gone. *)
Definition store_line (c : state) (h tl : Z) (m : bool) : state :=
  {| head := h; tail := tl; mutex := m; next := next c; threads := threads c; reserved := fun _ => false; held := held c |}.

Definition reserve (c : state) (t : Z) (v : bool) : state :=
  {| head := head c; tail := tail c; mutex := mutex c; next := next c; threads := threads c; reserved := <[t := v]> (reserved c); held := held c |}.

Definition write_next (c : state) (item v : Z) : state :=
  {| head := head c; tail := tail c; mutex := mutex c; next := <[item := v]> (next c); threads := threads c; reserved := reserved c; held := held c |}.

(** [gc_jd_queue_enqueue]; [_mutex_lock] goes on when the word is 0. *)
Definition enqueue_step (t : Z) (c : state) : option (state * list op) :=
  match threads c t with
  | Enq_clear item => Some (goto (write_next c item 0) t (Enq_lock item), [])
  | Enq_lock item =>
      if mutex c then None else Some (goto (store_line c (head c) (tail c) true) t (Enq_test item), [])
  | Enq_test item => Some (goto c t (if tail c =? 0 then Enq_head item else Enq_link item), [])
  | Enq_head item => Some (goto (store_line c item (tail c) true) t (Enq_tail item), [])
  | Enq_link item => Some (goto (write_next c (tail c) item) t (Enq_tail item), [])
  | Enq_tail item => Some (goto (store_line c (head c) item true) t (Enq_unlock item), [])
  | Enq_unlock item => Some (goto (store_line c (head c) (tail c) false) t Idle, [Enqueued item])
  | _ => None
  end.

(** [gc_jd_queue_dequeue] of the main processor. *)
Definition dequeue_step (t : Z) (c : state) : option (state * list op) :=
  match threads c t with
  | Deq_lock => if mutex c then None else Some (goto (store_line c (head c) (tail c) true) t Deq_head, [])
  | Deq_head => Some (goto c t (if head c =? 0 then Deq_unlock 0 else Deq_next (head c)), [])
  | Deq_next item => Some (goto (store_line c (next c item) (tail c) true) t (Deq_tail item), [])
  | Deq_tail item =>
      Some (goto (if head c =? 0 then store_line c (head c) 0 true else c) t (Deq_clear item), [])
  | Deq_clear item => Some (goto (write_next c item 0) t (Deq_unlock item), [])
  | Deq_unlock item =>
      let c := store_line c (head c) (tail c) false in
      if item =? 0 then Some (goto c t Idle, [Empty])
      else Some (goto (hold c ({[item]} ∪ held c)) t Idle, [Dequeued item])
  | _ => None
  end.

(** [gc_jd_queue_dequeue] of a coprocessor: [mfc_getllar], [mfc_putllc],
    [mfc_getf] of the descriptor, [mfc_putlluc]. *)
Definition spu_step (t : Z) (c : state) : option (state * list op) :=
  match threads c t with
  | Spu_get =>
      let c := reserve c t true in
      if mutex c then Some (goto c t Idle, [Locked])
      else if head c =? 0 then Some (goto c t Idle, [Empty])
      else Some (goto c t (Spu_put (head c) (tail c)), [])
  | Spu_put h tl =>
      if reserved c t then Some (goto (store_line c h tl true) t (Spu_copy h tl), [])
      else Some (goto c t Spu_get, [])
  | Spu_copy h tl =>
      let h' := next c h in
      Some (goto c t (Spu_write h h' (if h' =? 0 then 0 else tl)), [])
  | Spu_write item h tl =>
      Some (goto (hold (store_line c h tl false) ({[item]} ∪ held c)) t Idle, [Dequeued item])
  | _ => None
  end.

(** A thread is in one of the three. *)
Definition run_thread (t : Z) (c : state) : option (state * list op) :=
  match enqueue_step t c with
  | Some r => Some r
  | None => match dequeue_step t c with Some r => Some r | None => spu_step t c end
  end.

Definition call (t : Z) (p : pc) (c : state) : option (state * list op) :=
  match threads c t with Idle => Some (goto c t p, []) | _ => None end.

(** A client enqueues and writes only what it holds. *)
Definition queue_step (e : event) (c : state) : option (state * list op) :=
  match e with
  | Call_enqueue t item =>
      if bool_decide (item ∈ held c) then call t (Enq_clear item) (hold c (held c ∖ {[item]})) else None
  | Call_dequeue t => call t Deq_lock c
  | Call_spu t => call t Spu_get c
  | Step t => run_thread t c
  | Lose t => Some (reserve c t false, [])
  | Write item v => if bool_decide (item ∈ held c) then Some (write_next c item v, []) else None
  end.

Definition queue_run : list event -> state -> option (state * list op) := run_steps queue_step.

(** ** The specification: a list *)

Definition apply_op (o : op) (l : list Z) : option (list Z) :=
  match o, l with
  | Enqueued item, l => Some (l ++ [item])
  | Dequeued item, x :: l => if item =? x then Some l else None
  | Empty, [] => Some []
  | Locked, l => Some l
  | _, _ => None
  end.

(** ** The invariant *)

(** What a thread is about to put into the queue. *)
Definition enqueuing (p : pc) : option Z :=
  match p with
  | Enq_clear x | Enq_lock x | Enq_test x | Enq_head x | Enq_tail x | Enq_link x | Enq_unlock x => Some x
  | _ => None
  end.
Definition carries (c : state) (t : Z) : option Z := enqueuing (threads c t).

(** The line and the memory stand for the list. *)
Definition stands (head tail : Z) (next : Z -> Z) (l : list Z) : Prop := chain next head l /\ tail = default 0 (last l).

(** The thread holds the lock. *)
Definition locks (p : pc) : bool :=
  match p with
  | Enq_test _ | Enq_head _ | Enq_tail _ | Enq_link _ | Enq_unlock _
  | Deq_head | Deq_next _ | Deq_tail _ | Deq_clear _ | Deq_unlock _ | Spu_copy _ _ | Spu_write _ _ _ => true
  | _ => false
  end.

(** What there is while it does; the list changes when the lock is given back. *)
Definition critical (p : pc) (head tail : Z) (next : Z -> Z) (l : list Z) : Prop :=
  match p with
  | Enq_test x => stands head tail next l /\ next x = 0
  | Enq_head x => l = [] /\ tail = 0 /\ next x = 0
  | Enq_link x => stands head tail next l /\ l <> [] /\ next x = 0
  | Enq_tail x => chain next head (l ++ [x])
  | Enq_unlock x => stands head tail next (l ++ [x])
  | Deq_head => stands head tail next l
  | Deq_next x => stands head tail next l /\ exists l', l = x :: l'
  | Deq_tail x => exists l', l = x :: l' /\ chain next head l' /\ tail = default 0 (last l) /\ x <> 0
  | Deq_clear x => exists l', l = x :: l' /\ stands head tail next l' /\ x <> 0
  | Deq_unlock x => if x =? 0 then l = [] /\ stands head tail next [] else exists l', l = x :: l' /\ stands head tail next l'
  | Spu_copy h tl => stands head tail next l /\ h = head /\ tl = tail /\ h <> 0
  | Spu_write x h tl => exists l', l = x :: l' /\ stands h tl next l' /\ x <> 0
  | _ => True
  end.

(** What a thread knows that does not. *)
Definition knows (c : state) (t : Z) : Prop :=
  match threads c t with
  | Enq_lock x => next c x = 0
  | Spu_put h tl => reserved c t = true -> mutex c = false /\ h = head c /\ tl = tail c /\ h <> 0
  | _ => True
  end.

Record inv (c : state) (l : list Z) : Prop := {
  inv_apart : apart (held c) l (carries c);
  inv_lock : if mutex c then exists t, locks (threads c t) = true /\ critical (threads c t) (head c) (tail c) (next c) l /\
                                       forall t', locks (threads c t') = true -> t' = t
             else (forall t, locks (threads c t) = false) /\ stands (head c) (tail c) (next c) l;
  inv_knows : forall t, knows c t
}.

Definition follows (c : state) (l : list Z) (c' : state) (l' : list Z) : Prop :=
  inv c' l' /\ forall x, somewhere (held c') l' (carries c') x <-> somewhere (held c) l (carries c) x.

Lemma locked_by c l t : inv c l -> locks (threads c t) = true ->
  mutex c = true /\ critical (threads c t) (head c) (tail c) (next c) l /\ forall t', locks (threads c t') = true -> t' = t.
Proof.
  intros [_ Hl _] Ht. destruct (mutex c).
  - destruct Hl as (t0 & H0 & Hc & Hu). assert (t = t0) as -> by by apply Hu. done.
  - destruct Hl as [Hl _]. by rewrite Hl in Ht.
Qed.

(** A step of thread [t] to [p]. *)
Record steps_to (c : state) (t : Z) (p : pc) (c' : state) : Prop := {
  st_threads : threads c' = <[t := p]> (threads c);
  st_reserved : forall t', t' <> t -> reserved c' t' = true -> reserved c t' = true;
  st_next : forall t' x, t' <> t -> carries c t' = Some x -> next c' x = next c x
}.

Lemma step_pc c t p c' : steps_to c t p c' -> threads c' t = p /\ forall t', t' <> t -> threads c' t' = threads c t'.
Proof. intros [E _ _]. rewrite E. split; [by rewrite fn_lookup_insert|]. intros t' Hne. by rewrite fn_lookup_insert_ne. Qed.

Lemma step_carries c t p c' : steps_to c t p c' -> carries c' t = enqueuing p /\ forall t', t' <> t -> carries c' t' = carries c t'.
Proof. intros Hs. unfold carries. destruct (step_pc _ _ _ _ Hs) as [-> E]. split; [done|]. intros t' Hne. by rewrite E. Qed.

Lemma step_keeps c t p c' : steps_to c t p c' -> enqueuing p = carries c t -> forall t', carries c' t' = carries c t'.
Proof. intros Hs He t'. destruct (step_carries _ _ _ _ Hs) as [E1 E2]. destruct (decide (t' = t)) as [->|]; [by rewrite E1|by apply E2]. Qed.

(** What other threads know stays true, if the line does not change or they lose
    their reservations. *)
Lemma knows_others c l t p c' : inv c l -> steps_to c t p c' -> knows c' t ->
  (mutex c = true \/ (forall t', t' <> t -> reserved c' t' = false) \/
   mutex c' = mutex c /\ head c' = head c /\ tail c' = tail c) -> forall t', knows c' t'.
Proof.
  intros Hi Hs Ht Hline t'. destruct (decide (t' = t)) as [->|Hne]; [done|]. pose proof (inv_knows c l Hi t') as Hk.
  unfold knows in *. rewrite (proj2 (step_pc _ _ _ _ Hs) t' Hne). destruct (threads c t') eqn:Et; try done.
  - rewrite (st_next _ _ _ _ Hs t'); [done|done|]. unfold carries. by rewrite Et.
  - intros Hr. destruct (Hk (st_reserved _ _ _ _ Hs t' Hne Hr)) as (Hm & Hh & Htl & H0).
    destruct Hline as [?|[Hl|(-> & -> & ->)]]; [congruence|by rewrite Hl in Hr|done].
Qed.

(** A step within the lock. *)
Lemma inside_step c l t p c' : inv c l -> steps_to c t p c' -> locks (threads c t) = true -> locks p = true ->
  enqueuing p = carries c t -> mutex c' = true -> held c' = held c -> critical p (head c') (tail c') (next c') l -> follows c l c' l.
Proof.
  intros Hi Hs Hl Hp He Hm Hh Hc. destruct (locked_by c l t Hi Hl) as (Hmc & _ & Hu). pose proof (step_keeps _ _ _ _ Hs He) as Hk.
  destruct (step_pc _ _ _ _ Hs) as [Et Eo]. split; [split|].
  - rewrite Hh. eapply apart_ext; [exact Hk|apply Hi].
  - rewrite Hm. exists t. rewrite Et. split_and!; [done..|]. intros t' Ht'. destruct (decide (t' = t)) as [|Hne]; [done|]. rewrite Eo in Ht' by done. by apply Hu.
  - eapply knows_others; [done|exact Hs| |by left]. unfold knows. rewrite Et. by destruct p.
  - intros x. rewrite Hh. by apply somewhere_ext.
Qed.

(** A thread takes the lock. *)
Lemma lock_step c l t p c' : inv c l -> steps_to c t p c' -> mutex c = false -> locks p = true ->
  enqueuing p = carries c t -> mutex c' = true -> held c' = held c -> (forall t', reserved c' t' = false) ->
  critical p (head c') (tail c') (next c') l -> follows c l c' l.
Proof.
  intros Hi Hs Hmc Hp He Hm Hh Hr Hc. pose proof (step_keeps _ _ _ _ Hs He) as Hk.
  pose proof (inv_lock c l Hi) as Hl. rewrite Hmc in Hl. destruct Hl as [Hnone _].
  destruct (step_pc _ _ _ _ Hs) as [Et Eo]. split; [split|].
  - rewrite Hh. eapply apart_ext; [exact Hk|apply Hi].
  - rewrite Hm. exists t. rewrite Et. split_and!; [done..|]. intros t' Ht'. destruct (decide (t' = t)) as [|Hne]; [done|]. rewrite Eo, Hnone in Ht' by done. done.
  - eapply knows_others; [done|exact Hs| |right; left; by intros]. unfold knows. rewrite Et. by destruct p.
  - intros x. rewrite Hh. by apply somewhere_ext.
Qed.

(** A thread gives the lock back. *)
Lemma unlock_lock c l l' t c' : inv c l -> steps_to c t Idle c' -> locks (threads c t) = true -> mutex c' = false ->
  apart (held c') l' (carries c') -> stands (head c') (tail c') (next c') l' -> inv c' l'.
Proof.
  intros Hi Hs Hl Hm Ha Hst. destruct (locked_by c l t Hi Hl) as (Hmc & _ & Hu). destruct (step_pc _ _ _ _ Hs) as [Et Eo]. split; [done|..].
  - rewrite Hm. split; [|done]. intros t'. destruct (decide (t' = t)) as [->|Hne]; [by rewrite Et|]. rewrite Eo by done.
    destruct (locks (threads c t')) eqn:E; [|done]. by destruct Hne; apply Hu.
  - eapply knows_others; [done|exact Hs| |by left]. unfold knows. by rewrite Et.
Qed.

Lemma stands_ext h tl next next' l : (forall x, x ∈ l -> next' x = next x) -> stands h tl next l -> stands h tl next' l.
Proof. intros Hn [Hc Ht]. split; [by eapply linked_ext|done]. Qed.

Lemma critical_ext p h tl next next' l : (forall x, x ∈ l \/ enqueuing p = Some x -> next' x = next x) ->
  critical p h tl next l -> critical p h tl next' l.
Proof.
  intros Hn. assert (forall l', (forall x, x ∈ l' -> x ∈ l \/ enqueuing p = Some x) -> forall h tl, stands h tl next l' -> stands h tl next' l') as Hs.
  { intros l' Hl h0 tl0. apply stands_ext. intros x Hx. by apply Hn, Hl. }
  destruct p as [|x|x|x|x|x|x|x| | |x|x|x|x| |h0 t0|h0 t0|x h0 t0]; try done; cbn in *.
  - intros [? Hx]. split; [apply Hs; by auto|rewrite Hn; [done|by right]].
  - intros (? & ? & Hx). split_and!; [done|done|rewrite Hn; [done|by right]].
  - apply linked_ext. intros y [Hy| ->%list_elem_of_singleton]%elem_of_app; apply Hn; [by left|by right].
  - intros (? & ? & Hx). split_and!; [apply Hs; by auto|done|rewrite Hn; [done|by right]].
  - apply Hs. intros y [Hy| ->%list_elem_of_singleton]%elem_of_app; [by left|by right].
  - apply Hs. by left.
  - intros [? ?]. split; [apply Hs; by auto|done].
  - intros (l' & -> & ? & ? & ?). exists l'. split_and!; [done| |done..]. eapply linked_ext; [|done]. intros y Hy. apply Hn. left. by right.
  - intros (l' & -> & ? & ?). exists l'. split_and!; [done| |done]. apply Hs; [|done]. intros y Hy. left. by right.
  - case_if; [done|]. intros (l' & -> & ?). exists l'. split; [done|]. apply Hs; [|done]. intros y Hy. left. by right.
  - intros (? & ? & ? & ?). split_and!; [apply Hs; by auto|done..].
  - intros (l' & -> & ? & ?). exists l'. split_and!; [done| |done]. apply Hs; [|done]. intros y Hy. left. by right.
Qed.

(** The lock and the list stay as they are; memory changes elsewhere. *)
Lemma lock_kept c c' l : inv c l -> mutex c' = mutex c -> head c' = head c -> tail c' = tail c ->
  (forall t, locks (threads c' t) = locks (threads c t)) ->
  (forall t, locks (threads c t) = true -> threads c' t = threads c t) ->
  (forall x, x ∈ l -> next c' x = next c x) ->
  (forall t x, locks (threads c t) = true -> carries c t = Some x -> next c' x = next c x) ->
  if mutex c' then exists t, locks (threads c' t) = true /\ critical (threads c' t) (head c') (tail c') (next c') l /\
                               forall t', locks (threads c' t') = true -> t' = t
  else (forall t, locks (threads c' t) = false) /\ stands (head c') (tail c') (next c') l.
Proof.
  intros Hi -> -> -> Hk Ht Hn Hc. pose proof (inv_lock c l Hi) as Hl. destruct (mutex c).
  - destruct Hl as (t & H0 & Hcr & Hu). exists t. rewrite Hk, Ht by done. split_and!; [done| |intros t'; rewrite Hk; apply Hu].
    eapply critical_ext; [|exact Hcr]. intros x [Hx|Hx]; [by apply Hn|by eapply Hc].
  - destruct Hl as [H0 Hs]. split; [intros t; by rewrite Hk|]. by eapply stands_ext.
Qed.

(** A step of a thread without the lock. *)
Lemma outside_step c l t p c' : inv c l -> steps_to c t p c' -> locks (threads c t) = false -> locks p = false ->
  mutex c' = mutex c -> head c' = head c -> tail c' = tail c -> apart (held c') l (carries c') ->
  (forall x, x ∈ l -> next c' x = next c x) -> knows c' t -> inv c' l.
Proof.
  intros Hi Hs Hl Hp Hm Hh Htl Ha Hn Hk. destruct (step_pc _ _ _ _ Hs) as [Et Eo]. split; [done| |].
  - apply (lock_kept c c' l Hi Hm Hh Htl).
    + intros t'. destruct (decide (t' = t)) as [->|]; [by rewrite Et, Hp|by rewrite Eo].
    + intros t' Ht'. apply Eo. intros ->. by rewrite Hl in Ht'.
    + done.
    + intros t' x Ht'. apply (st_next _ _ _ _ Hs). intros ->. by rewrite Hl in Ht'.
  - eapply knows_others; [done|exact Hs|done|by right; right].
Qed.

(** The same, with what it carries. *)
Lemma outside_follows c l t p c' : inv c l -> steps_to c t p c' -> locks (threads c t) = false -> locks p = false ->
  enqueuing p = carries c t -> mutex c' = mutex c -> head c' = head c -> tail c' = tail c -> held c' = held c ->
  (forall x, x ∈ l -> next c' x = next c x) -> knows c' t -> follows c l c' l.
Proof.
  intros Hi Hs Hl Hp He Hm Hh Htl Hhe Hn Hk. pose proof (step_keeps _ _ _ _ Hs He) as Hc. split.
  - eapply outside_step; try done. rewrite Hhe. eapply apart_ext; [exact Hc|apply Hi].
  - intros x. rewrite Hhe. by apply somewhere_ext.
Qed.

(** No thread steps. *)
Lemma quiet_step c l c' : inv c l -> threads c' = threads c -> mutex c' = mutex c -> head c' = head c -> tail c' = tail c -> held c' = held c ->
  (forall t, reserved c' t = true -> reserved c t = true) ->
  (forall x, x ∈ l \/ (exists t, carries c t = Some x) -> next c' x = next c x) -> follows c l c' l.
Proof.
  intros Hi Et Hm Hh Htl Hhe Hr Hn. assert (forall t, carries c' t = carries c t) as Hc by (intros t; unfold carries; by rewrite Et).
  split; [split|].
  - rewrite Hhe. eapply apart_ext; [exact Hc|apply Hi].
  - apply (lock_kept c c' l Hi Hm Hh Htl); [intros t; by rewrite Et|intros t _; by rewrite Et|intros x Hx; apply Hn; by left|intros t x _ Hx; apply Hn; eauto].
  - intros t. pose proof (inv_knows c l Hi t) as Hk. unfold knows in *. rewrite Et. destruct (threads c t) eqn:E; try done.
    + rewrite Hn; [done|]. right. exists t. unfold carries. by rewrite E.
    + rewrite Hm, Hh, Htl. auto.
  - intros x. rewrite Hhe. by apply somewhere_ext.
Qed.

(** ** Every step *)

Lemma goto_steps c c1 t p : threads c1 = threads c -> (forall t', t' <> t -> reserved c1 t' = true -> reserved c t' = true) ->
  (forall t' x, t' <> t -> carries c t' = Some x -> next c1 x = next c x) -> steps_to c t p (goto c1 t p).
Proof. intros Et Hr Hn. split; [cbn; by rewrite Et|done|done]. Qed.

(** Only the descriptor that the thread carries or one in the queue is written. *)
Lemma write_steps c l t p y v : inv c l -> carries c t = Some y \/ y ∈ l -> steps_to c t p (goto (write_next c y v) t p).
Proof.
  intros Hi Hy. apply goto_steps; [done..|]. intros t' x Hne Hx. cbn. apply fn_lookup_insert_ne. intros <-.
  destruct (apart_carried _ _ _ (inv_apart c l Hi) t' y Hx) as (_ & Hl & _ & Hu). destruct Hy as [Hy|?]; [|done]. by apply Hne; symmetry; apply Hu.
Qed.

Lemma carried_facts c l t x : inv c l -> carries c t = Some x -> x <> 0 /\ x ∉ l.
Proof. intros Hi Hx. by destruct (apart_carried _ _ _ (inv_apart c l Hi) t x Hx) as (? & ? & _). Qed.

Lemma last_elem (l : list Z) : l <> [] -> default 0 (last l) ∈ l.
Proof. destruct (last l) as [x|] eqn:E; [intros _; by apply last_Some_elem_of|by apply last_None in E as ->]. Qed.

Lemma chain_nonzero nx a l x : chain nx a l -> x ∈ l -> x <> 0.
Proof. revert a. induction l as [|y l IH]; intros a; [by intros _ ?%elem_of_nil|]. intros (_ & H0 & Hc) [->|Hx]%elem_of_cons; [done|]. by eapply IH. Qed.

Lemma stands_empty h tl nx l : stands h tl nx l -> (tl = 0 <-> l = []) /\ (h = 0 <-> l = []).
Proof.
  intros [Hc ->]. split; [|by eapply chain_empty]. split; [|by intros ->]. intros H0. destruct l as [|x l]; [done|].
  pose proof (last_elem (x :: l) ltac:(done)) as Hl. rewrite H0 in Hl. by destruct (chain_nonzero _ _ _ _ Hc Hl).
Qed.

(** Taking off the first. *)
Lemma stands_rest h tl nx x l : stands h tl nx (x :: l) -> h = x /\ x <> 0 /\ stands (nx x) (if nx x =? 0 then 0 else tl) nx l.
Proof.
  intros [(-> & H0 & Hc) ->]. split_and!; [done..|]. split; [done|]. pose proof (chain_empty _ _ _ Hc) as He.
  destruct (Z.eqb_spec (nx x) 0) as [E|E]; [apply He in E as ->; done|]. destruct l; [by destruct E; apply He|done].
Qed.

Lemma enqueue_simulates c l t c' ops : inv c l -> enqueue_step t c = Some (c', ops) ->
  exists l', replay apply_op ops l = Some l' /\ follows c l c' l'.
Proof.
  intros Hi. unfold enqueue_step. destruct (threads c t) as [|x|x|x|x|x|x|x| | |x|x|x|x| |h0 t0|h0 t0|x h0 t0] eqn:Et; try done.
  all: assert (carries c t = Some x) as Hx by (unfold carries; by rewrite Et); destruct (carried_facts c l t x Hi Hx) as [H0 Hxl].
  - intros [= <- <-]. exists l. split; [done|]. eapply outside_follows; [done|eapply write_steps; [done|by left]|by rewrite Et|done..| |].
    + intros y Hy. cbn. apply fn_lookup_insert_ne. by intros ->.
    + unfold knows. cbn. by rewrite !fn_lookup_insert.
  - destruct (mutex c) eqn:Em; [done|]. intros [= <- <-]. exists l. split; [done|].
    pose proof (inv_lock c l Hi) as Hl. rewrite Em in Hl. pose proof (inv_knows c l Hi t) as Hk. unfold knows in Hk. rewrite Et in Hk.
    eapply lock_step; [done|by apply goto_steps|done..|]. split; [apply Hl|done].
  - intros [= <- <-]. exists l. split; [done|]. destruct (locked_by c l t Hi) as (Hm & Hc & _); [by rewrite Et|]. rewrite Et in Hc. destruct Hc as [Hs Hn].
    destruct (stands_empty _ _ _ _ Hs) as [He _]. destruct (Z.eqb_spec (tail c) 0) as [E|E].
    + eapply inside_step; [done|by apply goto_steps|by rewrite Et|done..|]. cbn. split_and!; [by apply He|done|done].
    + eapply inside_step; [done|by apply goto_steps|by rewrite Et|done..|]. cbn. split_and!; [done| |done]. by intros ?%He.
  - intros [= <- <-]. exists l. split; [done|]. destruct (locked_by c l t Hi) as (Hm & Hc & _); [by rewrite Et|]. rewrite Et in Hc. destruct Hc as (-> & Ht & Hn).
    eapply inside_step; [done|by apply goto_steps|by rewrite Et|done..|]. cbn. done.
  - intros [= <- <-]. exists l. split; [done|]. destruct (locked_by c l t Hi) as (Hm & Hc & _); [by rewrite Et|]. rewrite Et in Hc. cbn in Hc.
    eapply inside_step; [done|by apply goto_steps|by rewrite Et|done..|]. cbn. split; [done|]. by rewrite last_snoc.
  - intros [= <- <-]. exists l. split; [done|]. destruct (locked_by c l t Hi) as (Hm & Hc & _); [by rewrite Et|]. rewrite Et in Hc. destruct Hc as ([Hc Htl] & Hne & Hn).
    eapply (inside_step c l t (Enq_tail x)); [done| |by rewrite Et|done..|].
    + eapply write_steps; [done|right]. rewrite Htl. by apply last_elem.
    + cbn. rewrite Htl. apply chain_link; try done. apply Hi.
  - intros [= <- <-]. exists (l ++ [x]). split; [done|]. destruct (locked_by c l t Hi) as (Hm & Hc & _); [by rewrite Et|]. rewrite Et in Hc. cbn in Hc.
    match goal with |- follows _ _ ?c' _ => assert (steps_to c t Idle c') as Hs by by apply goto_steps end.
    destruct (step_carries _ _ _ _ Hs) as [E1 E2]. assert (l ++ [x] ≡ₚ x :: l) as Hp by (symmetry; apply Permutation_cons_append). split.
    + eapply unlock_lock; [done|exact Hs|by rewrite Et|done| |done]. eapply apart_put; [apply Hi|exact Hx|exact Hp|exact E1|exact E2].
    + intros y. eapply somewhere_put; [exact Hx|exact Hp|exact E1|exact E2].
Qed.

(** The lock is given back with the first descriptor of the list. *)
Lemma give_out c l x l' t c' : inv c l -> steps_to c t Idle c' -> locks (threads c t) = true -> carries c t = None -> l = x :: l' -> x <> 0 ->
  mutex c' = false -> held c' = {[x]} ∪ held c -> stands (head c') (tail c') (next c') l' ->
  exists l2, replay apply_op [Dequeued x] l = Some l2 /\ follows c l c' l2.
Proof.
  intros Hi Hs Hl Hc -> H0 Hm Hh Hst. exists l'. split; [cbn; by rewrite Z.eqb_refl|].
  assert (forall t', carries c' t' = carries c t') as E by (eapply step_keeps; [exact Hs|done]). split.
  - eapply unlock_lock; [exact Hi|exact Hs|done|done| |done]. rewrite Hh. eapply apart_ext; [exact E|]. eapply apart_get; [apply Hi|done|done].
  - intros y. rewrite Hh, somewhere_ext by exact E. by apply somewhere_get.
Qed.

Lemma dequeue_simulates c l t c' ops : inv c l -> dequeue_step t c = Some (c', ops) ->
  exists l', replay apply_op ops l = Some l' /\ follows c l c' l'.
Proof.
  intros Hi. unfold dequeue_step. destruct (threads c t) as [|x|x|x|x|x|x|x| | |x|x|x|x| |h0 t0|h0 t0|x h0 t0] eqn:Et; try done.
  all: assert (carries c t = None) as Hnone by (unfold carries; by rewrite Et).
  { destruct (mutex c) eqn:Em; [done|]. intros [= <- <-]. exists l. split; [done|].
    pose proof (inv_lock c l Hi) as Hl. rewrite Em in Hl. eapply lock_step; [done|by apply goto_steps|done..|]. apply Hl. }
  all: destruct (locked_by c l t Hi) as (Hm & Hc & _); [by rewrite Et|]; rewrite Et in Hc; cbn in Hc.
  - intros [= <- <-]. exists l. split; [done|]. destruct (stands_empty _ _ _ _ Hc) as [_ He]. destruct (Z.eqb_spec (head c) 0) as [E|E].
    + eapply inside_step; [done|by apply goto_steps|by rewrite Et|done..|]. cbn. apply He in E as ->. done.
    + eapply inside_step; [done|by apply goto_steps|by rewrite Et|done..|]. cbn. split; [done|].
      destruct l as [|y l]; [by destruct E; apply He|]. exists l. by destruct Hc as [(-> & _) _].
  - intros [= <- <-]. exists l. split; [done|]. destruct Hc as (Hs & l' & ->). destruct Hs as [(_ & H0 & Hc) Htl].
    eapply inside_step; [done|by apply goto_steps|by rewrite Et|done..|]. cbn. exists l'. done.
  - destruct Hc as (l' & -> & Hc & Htl & H0). pose proof (chain_empty _ _ _ Hc) as He. destruct (Z.eqb_spec (head c) 0) as [E|E]; intros [= <- <-]; (eexists; split; [reflexivity|]).
    + eapply inside_step; [done|by apply goto_steps|by rewrite Et|done..|]. cbn. exists l'. apply He in E as E'. subst l'. done.
    + eapply inside_step; [done|by apply goto_steps|by rewrite Et|done..|]. cbn. exists l'. split_and!; [done| |done]. split; [done|].
      rewrite Htl. destruct l'; [by destruct E; apply He|done].
  - intros [= <- <-]. eexists. split; [reflexivity|]. destruct Hc as (l' & -> & Hs & H0).
    pose proof (apart_nodup _ _ _ (inv_apart _ _ Hi)) as [Hxl _]%NoDup_cons.
    eapply inside_step; [done|eapply write_steps; [done|right; by left]|by rewrite Et|done..|]. cbn. rewrite (proj2 (Z.eqb_neq x 0) H0).
    exists l'. split; [done|]. eapply stands_ext; [|exact Hs]. intros y Hy. apply fn_lookup_insert_ne. by intros ->.
  - destruct (Z.eqb_spec x 0) as [E|E]; intros [= <- <-].
    + destruct Hc as [-> Hs]. exists []. split; [done|]. match goal with |- follows _ _ ?c' _ => assert (steps_to c t Idle c') as Hst by by apply goto_steps end.
      assert (forall t', carries (goto (store_line c (head c) (tail c) false) t Idle) t' = carries c t') as Ec by (eapply step_keeps; [exact Hst|done]).
      split; [|intros y; by apply somewhere_ext]. eapply unlock_lock; [done|exact Hst|by rewrite Et|done| |done]. eapply apart_ext; [exact Ec|apply Hi].
    + destruct Hc as (l' & -> & Hs). eapply give_out; try done; by rewrite Et.
Qed.

Lemma spu_simulates c l t c' ops : inv c l -> spu_step t c = Some (c', ops) ->
  exists l', replay apply_op ops l = Some l' /\ follows c l c' l'.
Proof.
  intros Hi. unfold spu_step. destruct (threads c t) as [|x|x|x|x|x|x|x| | |x|x|x|x| |h0 t0|h0 t0|x h0 t0] eqn:Et; try done.
  all: assert (carries c t = None) as Hnone by (unfold carries; by rewrite Et).
  - assert (forall p, steps_to c t p (goto (reserve c t true) t p)) as Hs.
    { intros p. apply goto_steps; [done| |done]. intros t' Hne. cbn. by rewrite fn_lookup_insert_ne. }
    assert (forall p, locks p = false -> enqueuing p = None -> knows (goto (reserve c t true) t p) t -> follows c l (goto (reserve c t true) t p) l) as Hf.
    { intros p Hp He Hk. eapply outside_follows; [done|apply Hs|by rewrite Et|done|by rewrite He, Hnone|done..]. }
    cbn [mutex head tail reserve]. destruct (mutex c) eqn:Em; [|destruct (Z.eqb_spec (head c) 0) as [E|E]]; intros [= <- <-].
    + exists l. split; [done|]. apply Hf; [done..|]. unfold knows. cbn. by rewrite fn_lookup_insert.
    + exists l. pose proof (inv_lock c l Hi) as Hl. rewrite Em in Hl. destruct Hl as [_ Hst]. destruct (stands_empty _ _ _ _ Hst) as [_ He].
      apply He in E as ->. split; [done|]. apply Hf; [done..|]. unfold knows. cbn. by rewrite fn_lookup_insert.
    + exists l. split; [done|]. apply Hf; [done..|]. unfold knows. cbn. by rewrite !fn_lookup_insert.
  - destruct (reserved c t) eqn:Er; intros [= <- <-]; exists l; (split; [done|]).
    + pose proof (inv_knows c l Hi t) as Hk. unfold knows in Hk. rewrite Et in Hk. destruct (Hk Er) as (Hm & -> & -> & H0).
      pose proof (inv_lock c l Hi) as Hl. rewrite Hm in Hl. eapply lock_step; [done|by apply goto_steps|done..|]. cbn. split_and!; [apply Hl|done..].
    + eapply outside_follows; [done|by apply goto_steps|by rewrite Et|done..|]. unfold knows. cbn. by rewrite fn_lookup_insert.
  - intros [= <- <-]. exists l. split; [done|]. destruct (locked_by c l t Hi) as (Hm & Hc & _); [by rewrite Et|]. rewrite Et in Hc. destruct Hc as (Hs & -> & -> & H0).
    eapply inside_step; [done|by apply goto_steps|by rewrite Et|done..|]. destruct l as [|x l].
    { destruct (stands_empty _ _ _ _ Hs) as [_ He]. by destruct H0; apply He. }
    destruct (stands_rest _ _ _ _ _ Hs) as (-> & Hx & Hr). cbn. exists l. done.
  - intros [= <- <-]. destruct (locked_by c l t Hi) as (Hm & Hc & _); [by rewrite Et|]. rewrite Et in Hc. destruct Hc as (l' & -> & Hs & H0).
    eapply give_out; try done; by rewrite Et.
Qed.

Lemma call_simulates c l t p c' ops : inv c l -> locks p = false -> enqueuing p = None -> (forall c, threads c t = p -> knows c t) -> call t p c = Some (c', ops) ->
  exists l', replay apply_op ops l = Some l' /\ follows c l c' l'.
Proof.
  intros Hi Hp He Hk. unfold call. destruct (threads c t) eqn:Et; try done. intros [= <- <-]. exists l. split; [done|].
  eapply outside_follows; [done|by apply goto_steps|by rewrite Et|done|unfold carries; by rewrite He, Et|done..|]. apply Hk. cbn. by rewrite fn_lookup_insert.
Qed.

Lemma queue_step_simulates e c l c' ops : inv c l -> queue_step e c = Some (c', ops) ->
  exists l', replay apply_op ops l = Some l' /\ follows c l c' l'.
Proof.
  intros Hi. destruct e as [t x|t|t|t|t|x v]; cbn [queue_step].
  - case_bool_decide as Hx; [|done]. unfold call. cbn [threads hold]. destruct (threads c t) eqn:Et; try done. intros [= <- <-]. exists l. split; [done|].
    set (c' := goto _ t _). assert (steps_to c t (Enq_clear x) c') as Hs by by apply goto_steps. destruct (step_carries _ _ _ _ Hs) as [E1 E2].
    assert (carries c t = None) as Hnone by (unfold carries; by rewrite Et). split.
    + eapply outside_step; [done|exact Hs|by rewrite Et|done..| | |].
      * eapply apart_hand; [apply Hi|done|exact Hnone|exact E1|exact E2].
      * done.
      * unfold knows. cbn. by rewrite fn_lookup_insert.
    + intros y. eapply somewhere_hand; [done|exact Hnone|exact E1|exact E2].
  - apply call_simulates; try done. intros c1 E. unfold knows. by rewrite E.
  - apply call_simulates; try done. intros c1 E. unfold knows. by rewrite E.
  - unfold run_thread. destruct (enqueue_step t c) as [r|] eqn:E1; [intros [= ->]; by eapply enqueue_simulates|].
    destruct (dequeue_step t c) as [r|] eqn:E2; [intros [= ->]; by eapply dequeue_simulates|]. by apply spu_simulates.
  - intros [= <- <-]. exists l. split; [done|]. apply quiet_step; try done. intros t'. cbn. destruct (decide (t' = t)) as [->|]; [by rewrite fn_lookup_insert|by rewrite fn_lookup_insert_ne].
  - case_bool_decide as Hx; [|done]. intros [= <- <-]. exists l. split; [done|]. apply quiet_step; try done.
    intros y Hy. cbn. apply fn_lookup_insert_ne. intros <-. destruct Hy as [Hy|[t Ht]].
    + by destruct (apart_held _ _ _ (inv_apart c l Hi) x Hx).
    + by destruct (apart_carried _ _ _ (inv_apart c l Hi) t x Ht) as (_ & _ & ? & _).
Qed.

(** ** Fifo *)

Definition enqueued (ops : list op) : list Z := omap (fun o => match o with Enqueued x => Some x | _ => None end) ops.
Definition dequeued (ops : list op) : list Z := omap (fun o => match o with Dequeued x => Some x | _ => None end) ops.

Lemma replay_fifo ops l0 l : replay apply_op ops l0 = Some l -> l0 ++ enqueued ops = dequeued ops ++ l.
Proof.
  revert l0. induction ops as [|o ops IH]; intros l0 H; [injection H as ->; cbn; by rewrite app_nil_r|].
  unfold replay in H. cbn [foldl mbind option_bind] in H. destruct (apply_op o l0) as [l1|] eqn:E.
  - change (replay apply_op ops l1 = Some l) in H. apply IH in H. destruct o; cbn in E |- *.
    + injection E as <-. rewrite <- app_assoc in H. exact H.
    + destruct l0 as [|y l0]; [done|]. destruct (Z.eqb_spec item y) as [->|]; [|done]. injection E as <-. cbn. f_equal. exact H.
    + destruct l0; [|done]. injection E as <-. exact H.
    + injection E as <-. exact H.
  - exfalso. clear -H. induction ops; done.
Qed.

Lemma queue_init_inv h0 : 0 ∉ h0 -> inv (gc_jd_queue_init h0) [].
Proof.
  intros H0. split; [|done|done]. split; [constructor| |done]. intros x Hx. split; [by intros ->|by intros ?%elem_of_nil].
Qed.

Lemma queue_simulates es h0 c ops : 0 ∉ h0 -> queue_run es (gc_jd_queue_init h0) = Some (c, ops) ->
  exists l, replay apply_op ops [] = Some l /\ inv c l /\ forall x, somewhere (held c) l (carries c) x <-> x ∈ h0.
Proof.
  intros H0 Hr. eapply (run_simulates queue_step apply_op (fun c l => inv c l /\ forall x, somewhere (held c) l (carries c) x <-> x ∈ h0));
    [|split; [by apply queue_init_inv|]|exact Hr].
  - intros e c1 l c2 o [Hi Ho] E. destruct (queue_step_simulates e c1 l c2 o Hi E) as (l' & Hl & Hi' & Ho'). exists l'. split_and!; [done..|].
    intros x. by rewrite Ho'.
  - intros x. unfold somewhere. cbn. split; [|by left]. intros [?|[?%elem_of_nil|[t ?]]]; done.
Qed.

(** A thread that has not returned can go on, or waits for one that can. *)
Lemma holder_goes_on c t : locks (threads c t) = true -> is_Some (queue_step (Step t) c).
Proof.
  cbn [queue_step]. unfold run_thread, enqueue_step, dequeue_step, spu_step. destruct (threads c t); try done; intros _; eauto.
  case_if; eauto.
Qed.

Lemma goes_on c l t : inv c l -> threads c t <> Idle -> is_Some (queue_step (Step t) c) \/
  exists t', locks (threads c t') = true /\ is_Some (queue_step (Step t') c).
Proof.
  intros Hi Hne. destruct (mutex c) eqn:Em.
  - pose proof (inv_lock c l Hi) as Hl. rewrite Em in Hl. destruct Hl as (t' & Ht' & _). right. exists t'. split; [done|]. by apply holder_goes_on.
  - left. destruct (locks (threads c t)) eqn:El; [by apply holder_goes_on|]. cbn [queue_step].
    unfold run_thread, enqueue_step, dequeue_step, spu_step. rewrite Em. destruct (threads c t); try done; repeat case_match; eauto.
Qed.

(** C22. However the threads of both kinds of processors are interleaved, and
    whatever reservations are lost, the queue is a fifo: what has been taken out
    followed by what is in it is what has been put in, in the order of the calls'
    ends, and a call that finds nothing does so when there is nothing.  No
    descriptor is lost or in two places, and no thread is stuck: it can go on, or
    the holder of the lock can. *)
Theorem gcell_queue_refines_fifo es held0 c ops : 0 ∉ held0 -> queue_run es (gc_jd_queue_init held0) = Some (c, ops) ->
  exists l, replay apply_op ops [] = Some l /\ enqueued ops = dequeued ops ++ l /\ apart (held c) l (carries c) /\
    (forall x, somewhere (held c) l (carries c) x <-> x ∈ held0) /\
    (mutex c = false -> stands (head c) (tail c) (next c) l) /\
    forall t, threads c t <> Idle -> is_Some (queue_step (Step t) c) \/
      exists t', locks (threads c t') = true /\ is_Some (queue_step (Step t') c).
Proof.
  intros H0 Hr. destruct (queue_simulates es held0 c ops H0 Hr) as (l & Hl & Hi & Ho). exists l. split_and!; [done|by apply replay_fifo in Hl|apply Hi|done| |].
  - intros Hm. pose proof (inv_lock c l Hi) as Hk. rewrite Hm in Hk. apply Hk.
  - intros t. by apply (goes_on c l).
Qed.

(** ** Witness: a coprocessor loses its reservation to a lock, and finds the queue
    locked; then it takes the first of two *)

Definition contended : list event :=
  [Call_enqueue 1 5] ++ replicate 6 (Step 1) ++ [Call_enqueue 1 6; Step 1; Call_spu 2; Step 2; Step 1; Step 2; Step 2] ++
  replicate 4 (Step 1) ++ [Call_spu 2] ++ replicate 4 (Step 2).

Lemma gcell_queue_refines_fifo_witness : exists c,
  queue_run contended (gc_jd_queue_init {[5; 6]}) = Some (c, [Enqueued 5; Locked; Enqueued 6; Dequeued 5]) /\ stands (head c) (tail c) (next c) [6].
Proof.
  assert (option_map (fun r => (snd r, mutex (fst r))) (queue_run contended (gc_jd_queue_init {[5; 6]})) =
    Some ([Enqueued 5; Locked; Enqueued 6; Dequeued 5], false)) as H by (vm_compute; reflexivity).
  destruct (queue_run contended (gc_jd_queue_init {[5; 6]})) as [[c ops]|] eqn:E; [|discriminate H]. cbn in H. injection H as -> Hm.
  exists c. split; [reflexivity|]. assert (0 ∉ ({[5; 6]} : gset Z)) as H0 by (clear; set_solver).
  pose proof (gcell_queue_refines_fifo contended {[5; 6]} c _ H0 E) as (l & Hl & _ & _ & _ & Hs & _).
  injection Hl as <-. exact (Hs Hm).
Defined.
